(* ===== verification/_CoqProject ===== *)
-Q . S2P
Prelude.v
Bytes.v
Decimal.v
Judgment.v
Frontier.v
Rights.v
Graph.v
Probe.v
Reader.v
Reads.v
Crc.v
Wire.v
Journal.v
Recovery.v
Replay.v
Batch.v
Action.v
ProductFrontier.v
Round.v
Address.v
Reducer.v
FullInput.v
Traces.v
TraceIndependence.v
Consequence.v
Quotient.v
Canonical.v
Permute.v
QuotientVerify.v
Review.v
Andon.v
Perimeter.v
Forest.v
Coverage.v
Flow.v
Synthesis.v
CutNetwork.v
MinimumCut.v
Utf8.v
Json.v
JsonGrammar.v
JsonSound.v
JsonExact.v
CanonicalJson.v
CanonicalText.v
CanonicalDecode.v
Orders.v
Oversight.v
OversightSupport.v
OversightBatch.v
OversightEngine.v
Congress.v
CongressBinding.v
CongressLife.v
Tokens.v
SpecialTokens.v
Unicode17.v
Pretokenizer.v
Patterns.v
PatternExact.v
Bpe.v
TokenNodes.v
TokenReference.v
BpeData.v
BpeMerge.v
BpePieces.v
BpeEncode.v
EncodeReference.v
EncodeLayout.v
WholePieces.v
SpecialTrie.v
SpecialLinks.v
SpecialExact.v
PieceMarks.v
EncodeLaws.v
EncodeExact.v
Archive.v
ArchiveReads.v
ArchiveExact.v
