(* ===== verification/Prelude.v ===== *)
(** * A verification library for the franken_alignment reference core

    The repository is a bounded, executable reference for supervising agents:
    who may act, with what units, on whose judgment, and what a later reader
    may conclude from the records.  This library translates the deterministic
    core of the crates [fa-reference] and [fa-journal] (under
    [src/crates/]) into Rocq functions and proves what makes each part correct.

    ** The program's parts and how they interact

    - A _judgment_ is made from a snapshot and stays usable while its reads
      would return the same ([Judgment.v]).  Everything below refuses with that
      file's [Error], the crate's error type.
    - The _rights ledger_ ([Rights.v]) holds units for attempts.  The
      _authority_ ([Action.v]) drives an action through its stages, charging
      that ledger and issuing permits; _retirement_ settles what a revocation
      or a deadline leaves behind.
    - The _journal_ ([Crc.v], [Wire.v], [Journal.v]) writes the same ledger's
      events as framed, checksummed, chained records, with a recovery reserve
      that keeps a revocation affordable.  [Recovery.v] is about the streaming
      replay, [Replay.v] about the cooperative, budgeted and anchored one,
      [Batch.v] about groups that are published as a whole.
    - _Frontiers_ ([Frontier.v], [ProductFrontier.v]) say how far evidence is
      complete; the _graph_ oracle and the _linear probe_ ([Graph.v],
      [Probe.v]) are exact helpers, and _perimeter coverage_ ([Coverage.v])
      uses the graph to certify that barriers cover every active sink;
      _barrier synthesis_ ([Synthesis.v]) finds the cheapest ones.
    - A _round_ ([Round.v]) makes members commit before they reveal; the
      _reducer_ ([Reducer.v]) tallies capped weights; a _review_ ([Review.v])
      composes both, and the _andon ledger_ ([Andon.v]) accounts for reviews
      that stopped work without cause.  The _congress authority_ ([Congress.v])
      owns an authority and opens a review per proposal: nothing is authorized
      or dispatched unless the review of exactly its inputs is ready.
    - _Actual inputs_ ([FullInput.v]) retain what a helper was shown;
      registered _operations_ ([TraceIndependence.v]) declare what they touch,
      and the _quotient replay_ ([Quotient.v], [Canonical.v], [Permute.v],
      [QuotientVerify.v]) replays schedules up to their independence.
      [Consequence.v] decides how severely to answer.
    - _Addresses_ ([Address.v], [Decimal.v]) name all of it.
    - _Strict JSON_ ([Json.v]) is how documents come in, and _canonical JSON_
      ([CanonicalJson.v]) the one spelling of the three draft documents.
    - _Standing oversight_ ([Oversight.v]) keeps weighted facts of a product
      frontier's stream, evaluates findings with their supports from them, and
      compares an incremental engine with a batch oracle at every frontier.
    - The _byte BPE tokenizer_ ([Tokens.v], [Bpe.v]) turns a prompt into the
      tokens of a model in bounded cooperative steps: named controls first
      ([SpecialTokens.v]), then the pieces of a grammar ([Pretokenizer.v]), then
      whole pieces or ranked merges.  An _archive_
      ([Archive.v]) is the one spelling of a tokenizer.

    ** Files and sources

    Paths are below [src/crates/fa-reference/src/] unless they say
    [fa-journal].

    - [Prelude.v], [Bytes.v], [Decimal.v], [Reader.v], [Reads.v], [Traces.v],
      [Permute.v]: results and state passing, byte strings, decimal numerals,
      [std::io::Read] as a script, readers with the words they accept, pairs
      of positions, permutations.  They
      model no file of the source, only what the source takes from Rust's
      standard library, and hold the lemmas the components share.
    - [Judgment.v], [Frontier.v], [Rights.v], [Graph.v], [Probe.v]:
      [logical_core.rs].  A method on [&mut self] is a state transformer
      [st S E A := S -> res E A * S], so the state after a refusal is part of
      the model; a function is a [res E A].
    - [Crc.v], [Wire.v], [Journal.v], [Recovery.v]:
      [fa-journal/src/journal_core.rs] and [reserve.rs].
    - [Replay.v]: [fa-journal/src/replay.rs] and [replay/anchor.rs].
    - [Batch.v]: [fa-journal/src/batch.rs] and [batch/preparation.rs].
    - [Action.v]: [action.rs] and [action/retirement.rs].
    - [ProductFrontier.v]: [product_frontier.rs] and [product_frontier/contiguous.rs].
    - [Perimeter.v]: [perimeter.rs]; [Forest.v], [Coverage.v]:
      [perimeter/coverage.rs] and the search it runs; [Synthesis.v],
      [CutNetwork.v], [MinimumCut.v]: [perimeter/coverage/synthesis.rs], on
      the duality of flows and cuts in [Flow.v].
    - [Round.v], [Reducer.v], [Address.v], [FullInput.v]: [round.rs],
      [reducer.rs], [address.rs], [full_input.rs].
    - [Congress.v], [CongressBinding.v], [CongressLife.v]: [action/congress.rs].
    - [Review.v], [Andon.v]: [round/review.rs] and its module [andon].
    - [TraceIndependence.v]: [trace_independence.rs]; [Quotient.v],
      [Canonical.v], [QuotientVerify.v]: [trace_independence/quotient.rs].
    - [Consequence.v]: [action/consequence.rs].
    - [Json.v]: [strict_json.rs], on the characters of [Utf8.v]; its grammar is
      [JsonGrammar.v], what the parser accepts [JsonSound.v], what it returns
      [JsonExact.v].  [CanonicalJson.v]: [canonical_json.rs]; [CanonicalText.v]
      and [CanonicalDecode.v] relate it to the grammar.
    - [Orders.v]: derived orders of records and sorted sets.  [Oversight.v]:
      [standing_oversight.rs]; the supports of a query, which both evaluators
      run over, are specified in [OversightSupport.v], the oracle's answer is in
      [OversightBatch.v] and the engine's in [OversightEngine.v].
    - Below [action/consequence/activation/monitor/decoder/sampled/generation/]:
      [Tokens.v], [Bpe.v]: [tokenizer.rs], [tokenizer/whole_piece.rs] and
      [tokenizer/postprocessor.rs]; [SpecialTokens.v]: [tokenizer/special.rs];
      [Unicode17.v], [Pretokenizer.v]: [tokenizer/unicode17.rs] and
      [tokenizer/pretokenizer.rs].  The specification is in [TokenReference.v]
      and [EncodeReference.v]; the regular expressions are trees in [Patterns.v],
      which [PatternExact.v] compares with the code.  [BpeData.v] says what a
      constructor admits; [TokenNodes.v] relates linked nodes to items,
      [BpeMerge.v], [BpePieces.v] and [BpeEncode.v] follow the merging;
      [EncodeLayout.v], [WholePieces.v], [SpecialTrie.v], [SpecialLinks.v],
      [SpecialExact.v], [PieceMarks.v] and [EncodeLaws.v] follow the passes before
      it; [EncodeExact.v] has the theorems.  [Archive.v]: [tokenizer/wire.rs],
      with what its reader accepts in [ArchiveReads.v] and [ArchiveExact.v].

    Definitions keep the source's names in Rocq's case conventions; a
    constructor [Foo::new] is [foo_new], and record fields carry a short prefix.

    ** What the theorems show

    - _Invariants of the state_, by induction over arbitrary series of calls:
      units are conserved and the authority's accounting matches its attempts
      ([rights_conserved_always], [authority_accounting_always]); the andon
      ledger balances ([andon_accounting_always]); a round is its transcript
      ([round_is_its_transcript]).
    - _Safety_: permits and attempts are one-shot and revocable, evidence passed
      every stage, closed claims are sound, revealed verdicts were committed,
      ready reviews are supported, dispatched actions were reviewed as they are, certified barriers leave no way around.
    - _Optimality_: no separating set of eligible barriers is cheaper than a
      plan, by the duality of flows and cuts.
    - _Refinement and equivalence_: replay accepts exactly what appends wrote,
      cooperative replay and batches agree with the plain ones, the reducer and
      the review compute their reference definitions, the canonical order is
      the least reordering, independent operations commute; the JSON parser
      accepts exactly the language of an inductive grammar; the oversight engine
      never diverges from the batch oracle, which lists exactly the supports;
      an encoding returns the tokens of the plain definition ([encode_exact]), its
      pieces are matches of the declared regular expressions and its controls
      the longest names.
    - _Round trips_: events, captured histories, addresses, canonical
      documents, the tokens of an input and the archives of tokenizers.
    - _Termination and liveness_: loops return, a revocation can always be
      journalled, a satisfiable policy can be satisfied.
    - _Errors and bounds_: rolled-back histories are refused, caps hold, three
      lookups a byte are enough for an encoding, no arithmetic that the code
      performs unchecked can overflow.

    ** Machine, fuel and bounds

    Integers are [Z] with the range of their type; [usize] has 64 bits.
    Checked operations return options; unchecked ones abort with the
    constructor [Panic] of [res], because the release profile keeps
    [overflow-checks = true], and theorems that a call "does not abort" are
    about that constructor.  [debug_assert]s are modelled as aborts too.
    Loops that are not structural take fuel: as many rounds as a frontier has
    pending numbers ([frontier_drain]) or a graph has nodes ([graph_search]),
    one more than the bytes a reader can still deliver ([replay_records]), a
    linear bound on the rest of the stream for a budgeted step
    ([advance_fuel]), twenty digits for a [u64] ([decimal_go]), and the
    factorial of the schedule's length for the exhaustive comparison
    ([verify_loop]), the number of vertices for the searches of the perimeter
    and one round more than the augmentation budget for the flow
    ([augment_loop]), and twice the length of the input for the recursive
    descent of the parser ([parse_value]), the states of an automaton for its
    failure links ([scan_step]) and five steps a byte for an encoding
    ([encoding_fuel]): a node is offered and collected once, and at most three
    candidates a byte are popped.  Running out is [Panic], and the theorems show that it
    does not happen.

    Strings are the bytes of their UTF-8 encoding.  The [Rc] that brands an
    authority's permits is an identity number given at construction; nonzero
    identifiers are positive [Z]s.  A reader is the script of what its calls
    return, so the theorems quantify over everything a reader may do,
    interruptions and errors included.

    ** Not modelled

    Allocation failure ([try_reserve]) and capacity hints; the import
    of external tokenizer files, and everything of the decoder but the data of its
    profile, because its arithmetic is in floating point; the file adapter of
    the journal (locking, syncing, directory moves) and every other part that
    does I/O; the surface facade and its formatting; compile-time guarantees
    of Rust's type system (private constructors, [compile_fail] examples);
    examples, tests and repository tooling.  The commitment digest is the
    64-bit FNV of the source, and nothing assumes that it is collision
    resistant.  Witness sets over product frontiers, the typed event journal and the
    observation algebra are deterministic too and would be the next to model. *)

From stdpp Require Import base tactics numbers list gmap sets sorting relations.

(** ** Machine integers

    A machine integer is a [Z] together with the range predicate of its Rust
    type; [usize] is the 64-bit one.  Checked operations return an option, as
    in Rust; unchecked ones abort (constructor [Panic] below) when they
    overflow, because the release profile keeps [overflow-checks = true]. *)

Abbreviation U64_MAX := 18446744073709551615%Z.
Abbreviation U32_MAX := 4294967295%Z.
Abbreviation U128_MAX := 340282366920938463463374607431768211455%Z.
Abbreviation I128_MAX := 170141183460469231731687303715884105727%Z.
Abbreviation I128_MIN := (-170141183460469231731687303715884105728)%Z.

Definition is_u64 (z : Z) : Prop := (0 ≤ z ≤ U64_MAX)%Z.
Definition is_u32 (z : Z) : Prop := (0 ≤ z ≤ U32_MAX)%Z.

Definition u64_checked_add (a b : Z) : option Z :=
  if (a + b <=? U64_MAX)%Z then Some (a + b)%Z else None.
Definition u64_checked_mul (a b : Z) : option Z :=
  if (a * b <=? U64_MAX)%Z then Some (a * b)%Z else None.
Definition u64_checked_sub (a b : Z) : option Z :=
  if (b <=? a)%Z then Some (a - b)%Z else None.
Definition u64_saturating_sub (a b : Z) : Z := Z.max 0 (a - b).
Definition u128_checked_add (a b : Z) : option Z :=
  if (a + b <=? U128_MAX)%Z then Some (a + b)%Z else None.

Lemma u64_checked_add_fits a b : (a + b ≤ U64_MAX)%Z → u64_checked_add a b = Some (a + b)%Z.
Proof. intros ?. unfold u64_checked_add. by destruct (Z.leb_spec (a + b) U64_MAX); [|lia]. Qed.

(** The length of a vector, as the [u64] the code casts it to. *)
Definition len {A} (l : list A) : Z := Z.of_nat (length l).

(** ** Outcomes and the two monads

    [res E] is Rust's [Result] with a third outcome for a panic.  [st S E] is
    a method on [&mut self]: it returns an outcome and the state it leaves
    behind, also when it returns an error, so that "an error leaves the state
    unchanged" is a theorem about a method and not a feature of the model. *)

Inductive res (E A : Type) : Type :=
  | Ok (a : A)
  | Err (e : E)
  | Panic.
Arguments Ok {E A} a.
Arguments Err {E A} e.
Arguments Panic {E A}.

Definition st (S E A : Type) : Type := S → res E A * S.

#[global] Instance res_ret E : MRet (res E) := λ A a, Ok a.
#[global] Instance res_bind E : MBind (res E) := λ A B f m,
  match m with Ok a => f a | Err e => Err e | Panic => Panic end.
#[global] Instance res_fmap E : FMap (res E) := λ A B f m,
  match m with Ok a => Ok (f a) | Err e => Err e | Panic => Panic end.
#[global] Instance res_throw E : MThrow E (res E) := λ A e, Err e.

#[global] Instance st_ret S E : MRet (st S E) := λ A a s, (Ok a, s).
#[global] Instance st_bind S E : MBind (st S E) := λ A B f m s,
  match m s with
  | (Ok a, s') => f a s'
  | (Err e, s') => (Err e, s')
  | (Panic, s') => (Panic, s')
  end.
#[global] Instance st_throw S E : MThrow E (st S E) := λ A e s, (Err e, s).

(** [if b { return Err(e) }] *)
Definition refuse_if {E} {M : Type → Type} `{MThrow E M, MRet M} (b : bool) (e : E) : M unit :=
  if b then mthrow e else mret tt.
(** [o.ok_or(e)?] *)
Definition ok_or {E} {M : Type → Type} `{MThrow E M, MRet M} {A} (o : option A) (e : E) : M A :=
  match o with Some a => mret a | None => mthrow e end.

(** [panicking a b], an unchecked subtraction; [expect], [Option::expect]. *)
Definition u64_sub {E} (a b : Z) : res E Z := if (b <=? a)%Z then Ok (a - b)%Z else Panic.
Definition u64_add {E} (a b : Z) : res E Z := if (a + b <=? U64_MAX)%Z then Ok (a + b)%Z else Panic.
Definition expect {E A} (o : option A) : res E A :=
  match o with Some a => Ok a | None => Panic end.

(** [From] conversions performed by the question mark operator. *)
Definition map_err {E E' A} (f : E → E') (r : res E A) : res E' A :=
  match r with Ok a => Ok a | Err e => Err (f e) | Panic => Panic end.

Section state_operations.
Context {S E : Type}.

Definition get : st S E S := λ s, (Ok s, s).
Definition put (s : S) : st S E unit := λ _, (Ok tt, s).
Definition modify (f : S → S) : st S E unit := λ s, (Ok tt, f s).
(** A call of a method that only reads the state it is given. *)
Definition lift {A} (r : res E A) : st S E A := λ s, (r, s).
(** A call on a field of the state, with its own error type. *)
Definition zoom {T E' A} (view : S → T) (upd : T → S → S) (conv : E' → E)
    (m : st T E' A) : st S E A := λ s,
  let '(r, t) := m (view s) in (map_err conv r, upd t s).
(** A call on a local copy of some state, whose result replaces it. *)
Definition exec {A} (m : st S E A) (s : S) : res E S :=
  match m s with (Ok _, s') => Ok s' | (Err e, _) => Err e | (Panic, _) => Panic end.
End state_operations.

(** [Option::is_none_or] *)
Definition is_none_or {A} (o : option A) (p : A → bool) : bool :=
  match o with None => true | Some a => p a end.

Definition is_ok {E A} (r : res E A) : bool := match r with Ok _ => true | _ => false end.

(** A method that leaves a part of the state as it is. *)
Definition preserves {S E X A} (f : S → X) (m : st S E A) : Prop := ∀ s, f (m s).2 = f s.

Section preserves.
Context {S E X : Type} (f : S → X).

Lemma preserves_bind {A B} (m : st S E A) (k : A → st S E B) :
  preserves f m → (∀ a, preserves f (k a)) → preserves f (m ≫= k).
Proof.
  intros Hm Hk s. unfold mbind, st_bind. specialize (Hm s).
  destruct (m s) as [[a|e|] s']; simpl in *; [|done..]. by rewrite Hk.
Qed.
Lemma preserves_ret {A} (a : A) : preserves f (mret (M:=st S E) a).
Proof. done. Qed.
Lemma preserves_throw {A} (e : E) : preserves f (mthrow (M:=st S E) (A:=A) e).
Proof. done. Qed.
Lemma preserves_lift {A} (r : res E A) : preserves f (lift r).
Proof. done. Qed.
Lemma preserves_get : preserves f (E:=E) get.
Proof. done. Qed.
Lemma preserves_modify (g : S → S) : (∀ s, f (g s) = f s) → preserves f (E:=E) (modify g).
Proof. intros Hg s. apply Hg. Qed.
Lemma preserves_refuse b (e : E) : preserves f (refuse_if (M:=st S E) b e).
Proof. by destruct b. Qed.
Lemma preserves_ok_or {A} (o : option A) (e : E) : preserves f (ok_or (M:=st S E) o e).
Proof. by destruct o. Qed.
Lemma preserves_zoom {T E' A} (view : S → T) upd (conv : E' → E) (m : st T E' A) :
  (∀ t s, f (upd t s) = f s) → preserves f (zoom view upd conv m).
Proof. intros Hu s. unfold zoom. destruct (m (view s)). apply Hu. Qed.
End preserves.

(** Goes through the steps of a method, case by case. *)
Ltac preserves_steps :=
  repeat first
    [ apply preserves_ret | apply preserves_throw | apply preserves_lift | apply preserves_get
    | apply preserves_refuse | apply preserves_ok_or
    | apply preserves_modify; intros; reflexivity
    | apply preserves_zoom; intros; reflexivity
    | apply preserves_bind; [|intros]
    | progress case_match ].

#[global] Instance res_eq_dec E A `{EqDecision E, EqDecision A} : EqDecision (res E A).
Proof. solve_decision. Defined.

(** When a sequence of steps succeeds. *)
Lemma refuse_ok {E A} (b : bool) (e : E) (m : res E A) (a : A) :
  (refuse_if (M:=res E) b e;; m) = Ok a ↔ b = false ∧ m = Ok a.
Proof. destruct b; simpl; naive_solver. Qed.

Lemma then_ok {E A B} (m : res E B) (k : B → res E A) (a : A) :
  (m ≫= k) = Ok a ↔ ∃ b, m = Ok b ∧ k b = Ok a.
Proof. unfold mbind, res_bind. destruct m; naive_solver. Qed.

Lemma then_unit_ok {E A} (m : res E unit) (k : res E A) (a : A) :
  (m;; k) = Ok a ↔ m = Ok tt ∧ k = Ok a.
Proof. rewrite then_ok. split; [intros ([] & ? & ?); done|]. intros [? ?]. by exists tt. Qed.

Lemma ok_or_ok {E A} (o : option A) (e : E) (a : A) : ok_or (M:=res E) o e = Ok a ↔ o = Some a.
Proof. destruct o as [b|]; (split; [by intros [= ->]|by intros [= ->]]). Qed.

(** A computation does not abort when neither of its parts does. *)
Lemma then_no_panic {E A B} (m : res E A) (k : A → res E B) :
  m ≠ Panic → (∀ a, m = Ok a → k a ≠ Panic) → (m ≫= k) ≠ Panic.
Proof. intros Hm Hk. destruct m; [by apply Hk|done..]. Qed.

(** Unfolds the monadic plumbing of a method, so that what is left of it is
    the tree of its guards. *)
Ltac munfold :=
  cbv beta iota zeta delta
    [mbind st_bind res_bind mret st_ret res_ret mthrow st_throw res_throw
     refuse_if ok_or get put modify lift zoom map_err expect] in *.
Ltac munfold_goal :=
  cbv beta iota zeta delta
    [mbind st_bind res_bind mret st_ret res_ret mthrow st_throw res_throw
     refuse_if ok_or get put modify lift zoom map_err expect].

(** Splits on an innermost scrutinee, so that guards are decided in the order
    in which the method evaluates them. *)
Ltac split_match :=
  match goal with
  | |- context [match ?x with _ => _ end] =>
    lazymatch x with
    | context [match _ with _ => _ end] => fail
    | _ => let E := fresh "E" in destruct x eqn:E
    end
  end; simpl.
Ltac split_match_in H :=
  match type of H with
  | context [match ?x with _ => _ end] =>
    lazymatch x with
    | context [match _ with _ => _ end] => fail
    | _ => let E := fresh "E" in destruct x eqn:E
    end
  end; simpl in H.

(** Decides the comparisons of integers left in the goal. *)
Ltac zcompare :=
  repeat match goal with
  | |- context [(?a <=? ?b)%Z] => destruct (Z.leb_spec a b)
  | |- context [(?a <? ?b)%Z] => destruct (Z.ltb_spec a b)
  end.

(** ** Sums of integers *)

Definition sumZ (l : list Z) : Z := foldr Z.add 0%Z l.

#[global] Instance sumZ_proper : Proper ((≡ₚ) ==> (=)) sumZ.
Proof. induction 1; simpl; lia. Qed.

Lemma sumZ_app l k : sumZ (l ++ k) = (sumZ l + sumZ k)%Z.
Proof. induction l; simpl; lia. Qed.

Lemma sumZ_nonneg l : Forall (λ z, 0 ≤ z)%Z l → (0 ≤ sumZ l)%Z.
Proof. induction 1; simpl; lia. Qed.

(** [iter.try_fold(acc, |n, r| n.checked_add(r))] on [u64]. *)
Fixpoint u64_try_sum (acc : Z) (l : list Z) : option Z :=
  match l with
  | [] => Some acc
  | x :: l => acc' ← u64_checked_add acc x; u64_try_sum acc' l
  end.

(** The fold of checked additions overflows exactly when the sum does. *)
Lemma u64_try_sum_eq acc l :
  Forall (λ z, 0 ≤ z)%Z l → (acc ≤ U64_MAX)%Z →
  u64_try_sum acc l = if (acc + sumZ l <=? U64_MAX)%Z then Some (acc + sumZ l)%Z else None.
Proof.
  intros Hl. revert acc. induction Hl as [|x l Hx Hl IH]; intros acc Hacc; simpl.
  - rewrite Z.add_0_r. by destruct (Z.leb_spec acc U64_MAX); [|lia].
  - pose proof (sumZ_nonneg _ Hl). unfold u64_checked_add.
    destruct (Z.leb_spec (acc + x) U64_MAX); simpl.
    + rewrite IH by lia. by rewrite Z.add_assoc.
    + destruct (Z.leb_spec (acc + (x + sumZ l)) U64_MAX); [lia|done].
Qed.

(** The same on [u128], with the error an overflow is reported as. *)
Fixpoint u128_try_sum {E} (overflow : E) (acc : Z) (l : list Z) : res E Z :=
  match l with
  | [] => Ok acc
  | x :: l => acc ← ok_or (u128_checked_add acc x) overflow; u128_try_sum overflow acc l
  end.

Lemma u128_try_sum_eq {E} (overflow : E) acc l :
  Forall (λ z, 0 ≤ z)%Z l → (acc + sumZ l ≤ U128_MAX)%Z →
  u128_try_sum overflow acc l = Ok (acc + sumZ l)%Z.
Proof.
  intros Hl. revert acc. induction Hl as [|x l Hx Hl IH]; intros acc Hs; simpl in *; [by rewrite Z.add_0_r|].
  pose proof (sumZ_nonneg l Hl). unfold u128_checked_add. munfold_goal.
  destruct (Z.leb_spec (acc + x) U128_MAX); [|lia]. rewrite IH by lia. f_equal. lia.
Qed.

(** ** Ordered maps

    A [BTreeMap] is a finite map; its iteration order is the ascending order
    of its keys, which [entries] computes. *)

Class KeyOrder (K : Type) := key_leb : K → K → bool.
Definition key_le {K} `{KeyOrder K} : relation K := λ x y, key_leb x y = true.
Class KeyOrderLaws K `{KeyOrder K} := {
  key_le_total :: Total (key_le (K:=K));
  key_le_trans :: Transitive (key_le (K:=K));
  key_le_antisymm :: AntiSymm (=) (key_le (K:=K));
}.

#[global] Instance Z_key_order : KeyOrder Z := Z.leb.
#[global] Instance Z_key_order_laws : KeyOrderLaws Z.
Proof.
  split; unfold key_le, key_leb, Z_key_order.
  - intros x y. rewrite !Z.leb_le. lia.
  - intros x y z. rewrite !Z.leb_le. lia.
  - intros x y. rewrite !Z.leb_le. lia.
Qed.

#[global] Instance nat_key_order : KeyOrder nat := Nat.leb.
#[global] Instance nat_key_order_laws : KeyOrderLaws nat.
Proof.
  split; unfold key_le, key_leb, nat_key_order.
  - intros x y. rewrite !Nat.leb_le. lia.
  - intros x y z. rewrite !Nat.leb_le. lia.
  - intros x y. rewrite !Nat.leb_le. lia.
Qed.

Section btree.
Context {K : Type} `{Countable K} `{KeyOrderLaws K} {A : Type}.
Implicit Types m : gmap K A.

Definition entry_le (p q : K * A) : Prop := key_le p.1 q.1.
#[global] Instance entry_le_dec : RelDecision entry_le := λ p q, bool_eq_dec (key_leb p.1 q.1) true.
#[global] Instance entry_le_total : Total entry_le.
Proof. intros p q. apply (total key_le p.1 q.1). Qed.
#[global] Instance entry_le_trans : Transitive entry_le.
Proof. unfold entry_le. intros p q r ??. by transitivity q.1. Qed.

Definition entries m : list (K * A) := merge_sort entry_le (map_to_list m).
Definition map_values m : list A := (entries m).*2.

Lemma entries_perm m : entries m ≡ₚ map_to_list m.
Proof. apply merge_sort_Permutation. Qed.
Lemma entries_sorted m : StronglySorted entry_le (entries m).
Proof. apply StronglySorted_merge_sort; apply _. Qed.
Lemma elem_of_entries m k a : (k, a) ∈ entries m ↔ m !! k = Some a.
Proof. by rewrite entries_perm, elem_of_map_to_list. Qed.
Lemma entries_NoDup m : NoDup (entries m).*1.
Proof. rewrite entries_perm. apply NoDup_fst_map_to_list. Qed.
Lemma entries_length m : length (entries m) = size m.
Proof. by rewrite entries_perm, length_map_to_list. Qed.
Lemma Forall_entries (P : K → A → Prop) m :
  map_Forall P m → Forall (λ p, P p.1 p.2) (entries m).
Proof. intros Hm. apply Forall_forall. intros [k a] Hin%elem_of_entries. by apply Hm. Qed.
Lemma Forall_map_values (P : A → Prop) m :
  map_Forall (λ _ a, P a) m → Forall P (map_values m).
Proof. intros Hm. unfold map_values. rewrite Forall_fmap. by apply (Forall_entries (λ _, P)). Qed.
End btree.

(** The sum of a measure over the values of a map. *)
Section map_sum.
Context {K : Type} `{Countable K} {A : Type} (f : A → Z).

Definition map_sum (m : gmap K A) : Z := sumZ ((λ p, f p.2) <$> map_to_list m).

Lemma map_sum_empty : map_sum ∅ = 0%Z.
Proof. unfold map_sum. by rewrite map_to_list_empty. Qed.
Lemma map_sum_insert m i x :
  m !! i = None → map_sum (<[i:=x]> m) = (f x + map_sum m)%Z.
Proof. intros Hi. unfold map_sum. by rewrite map_to_list_insert. Qed.
Lemma map_sum_delete m i x : m !! i = Some x → map_sum m = (f x + map_sum (delete i m))%Z.
Proof.
  intros Hi. rewrite <-(insert_delete_id m i x) at 1 by done.
  by rewrite map_sum_insert by apply lookup_delete_eq.
Qed.
Lemma map_sum_update m i x y :
  m !! i = Some y → map_sum (<[i:=x]> m) = (map_sum m - f y + f x)%Z.
Proof.
  intros Hi. rewrite (map_sum_delete m i y) by done.
  rewrite <-insert_delete_eq, map_sum_insert by apply lookup_delete_eq. lia.
Qed.
Lemma map_sum_nonneg m : (∀ i x, m !! i = Some x → 0 ≤ f x)%Z → (0 ≤ map_sum m)%Z.
Proof.
  intros Hm. apply sumZ_nonneg, Forall_fmap, Forall_forall.
  intros [i x] Hin%elem_of_map_to_list. by apply (Hm i).
Qed.
Lemma map_sum_lookup_le m i x :
  (∀ i x, m !! i = Some x → 0 ≤ f x)%Z → m !! i = Some x → (f x ≤ map_sum m)%Z.
Proof.
  intros Hm Hi. rewrite (map_sum_delete m i x) by done.
  assert (0 ≤ map_sum (delete i m))%Z; [|lia].
  apply map_sum_nonneg. intros j y [_ Hj]%lookup_delete_Some. by apply (Hm j).
Qed.
End map_sum.

Lemma map_sum_zero {K A} `{Countable K} (f : A → Z) (m : gmap K A) :
  (∀ k x, m !! k = Some x → f x = 0%Z) → map_sum f m = 0%Z.
Proof.
  induction m as [|i x m Hi IH] using map_ind; intros Hz; [apply map_sum_empty|].
  rewrite map_sum_insert by done. rewrite (Hz i x) by apply lookup_insert_eq.
  rewrite IH; [done|]. intros k y Hk. apply (Hz k). rewrite lookup_insert_ne; [done|congruence].
Qed.

(** Two maps over the same keys, measured alike. *)
Lemma map_sum_agree {K A B} `{Countable K} (f : A → Z) (g : B → Z) (m1 : gmap K A) (m2 : gmap K B) :
  (∀ k, from_option f 0%Z (m1 !! k) = from_option g 0%Z (m2 !! k)) → map_sum f m1 = map_sum g m2.
Proof.
  revert m2. induction m1 as [|i x m1 Hi IH] using map_ind; intros m2 Hag.
  - rewrite map_sum_empty, map_sum_zero; [done|]. intros k y Hk.
    specialize (Hag k). by rewrite lookup_empty, Hk in Hag.
  - rewrite map_sum_insert by done. pose proof (Hag i) as Hx. rewrite lookup_insert_eq in Hx. simpl in Hx.
    destruct (m2 !! i) as [y|] eqn:Hy; simpl in Hx; rewrite Hx.
    + rewrite (map_sum_delete g m2 i y), (IH (delete i m2)); [done| |done]. intros k.
      destruct (decide (k = i)) as [->|]; [by rewrite Hi, lookup_delete_eq|].
      rewrite lookup_delete_ne, <-Hag, lookup_insert_ne by done. done.
    + rewrite (IH m2); [done|]. intros k. destruct (decide (k = i)) as [->|]; [by rewrite Hi, Hy|].
      rewrite <-Hag, lookup_insert_ne by done. done.
Qed.

(** Summing the selected values in iteration order is summing a measure. *)
Lemma sumZ_filter_fmap {A} (P : A → Prop) `{∀ x, Decision (P x)} (f : A → Z) l :
  sumZ (f <$> filter P l) = sumZ ((λ x, if decide (P x) then f x else 0%Z) <$> l).
Proof.
  induction l as [|x l IH]; [done|]. rewrite filter_cons.
  case_decide; csimpl; rewrite IH; [by rewrite decide_True|by rewrite decide_False].
Qed.

Lemma sumZ_fmap_ext {A} (f g : A → Z) l :
  (∀ x, x ∈ l → f x = g x) → sumZ (f <$> l) = sumZ (g <$> l).
Proof. intros Hfg. f_equal. by apply list_fmap_ext; intros i x ?%list_elem_of_lookup_2; apply Hfg. Qed.

Lemma sumZ_fmap_add {A} (f g : A → Z) l :
  sumZ ((λ x, f x + g x)%Z <$> l) = (sumZ (f <$> l) + sumZ (g <$> l))%Z.
Proof. induction l; csimpl; lia. Qed.

Lemma map_sum_imap {K A} `{Countable K} (f : A → Z) (g : K → A → A) (m : gmap K A) :
  map_sum f (map_imap (λ k x, Some (g k x)) m) =
  sumZ ((λ p, f (g p.1 p.2)) <$> map_to_list m).
Proof.
  induction m as [|i x m Hi IH] using map_ind.
  - by rewrite map_imap_empty, map_sum_empty, map_to_list_empty.
  - rewrite (map_imap_insert_Some _ i x m (g i x)) by done.
    rewrite map_sum_insert, IH, map_to_list_insert by (rewrite ?map_lookup_imap, ?Hi; done). done.
Qed.

Lemma existsb_entries {K A} `{Countable K} `{!KeyOrder K} `{!KeyOrderLaws K} (f : K * A → bool) (m : gmap K A) :
  existsb f (entries m) = false ↔ map_Forall (λ k a, f (k, a) = false) m.
Proof.
  rewrite <-not_true_iff_false, existsb_exists. split.
  - intros Hno k a Hk. apply not_true_iff_false. intros Hf. apply Hno. exists (k, a). split; [|done].
    by apply list_elem_of_In, elem_of_entries.
  - intros Hall ([k a] & Hin%list_elem_of_In%elem_of_entries & Hf). rewrite (Hall k a Hin) in Hf. done.
Qed.

(** A map over a map keeps the iteration order. *)
Lemma entries_imap {K A B} `{Countable K} `{!KeyOrder K} `{!KeyOrderLaws K} (g : K → A → B) (m : gmap K A) :
  entries (map_imap (λ k x, Some (g k x)) m) = (λ p, (p.1, g p.1 p.2)) <$> entries m.
Proof.
  set (l := (λ p : K * A, (p.1, g p.1 p.2)) <$> entries m).
  assert (entries (map_imap (λ k x, Some (g k x)) m) ≡ₚ l) as Hp.
  { apply NoDup_Permutation.
    - eapply (NoDup_fmap_1 fst), entries_NoDup.
    - apply (NoDup_fmap_1 fst). unfold l. rewrite <-list_fmap_compose. apply entries_NoDup.
    - intros [k b]. rewrite elem_of_entries, map_lookup_imap. unfold l. rewrite list_elem_of_fmap. split.
      + intros (a & Hk & [= <-])%bind_Some. exists (k, a). split; [done|]. by apply elem_of_entries.
      + intros ([k' a] & [= -> ->] & Hk%elem_of_entries). simpl. by rewrite Hk. }
  assert (NoDup (l.*1)) as Hnd by (unfold l; rewrite <-list_fmap_compose; apply entries_NoDup).
  apply (StronglySorted_unique_strong entry_le); [|apply entries_sorted| |done].
  - intros p q Hpl Hql Hle Hge. rewrite Hp in Hpl. unfold entry_le in *.
    pose proof (anti_symm key_le _ _ Hle Hge) as Hk.
    apply list_elem_of_lookup in Hpl as [i Hi], Hql as [j Hj].
    assert (i = j) as ->; [|congruence].
    apply (NoDup_lookup _ i j p.1 Hnd); rewrite list_lookup_fmap, ?Hi, ?Hj; simpl; congruence.
  - unfold l. clear Hp Hnd l. generalize (entries_sorted m). generalize (entries m). intros ps Hs.
    induction Hs as [|p ps Hs IH Hall]; csimpl; [constructor|]. constructor; [done|].
    rewrite Forall_forall in Hall. apply Forall_fmap, Forall_forall. intros q Hq. by apply Hall.
Qed.

Lemma length_filter_fmap {A B} (f : A → B) (P : B → Prop) `{!∀ x, Decision (P x)} (l : list A) :
  length (filter P (f <$> l)) = length (filter (λ x, P (f x)) l).
Proof.
  induction l as [|x l IH]; [done|]. rewrite fmap_cons, !filter_cons. destruct (decide (P (f x))); simpl; by rewrite IH.
Qed.

Lemma filter_none {A} (P : A → Prop) `{!∀ x, Decision (P x)} (l : list A) : (∀ x, x ∈ l → ¬ P x) → filter P l = [].
Proof.
  induction l as [|x l IH]; intros HP; [done|]. rewrite filter_cons_False by (apply HP; left).
  apply IH. intros y ?. apply HP. by right.
Qed.

Lemma sumZ_positive l : Forall (λ x, 0 ≤ x)%Z l → (0 < sumZ l)%Z ↔ ∃ x, x ∈ l ∧ (0 < x)%Z.
Proof.
  induction 1 as [|x l Hx Hl IH]; simpl.
  { split; [done|]. by intros (? & ?%elem_of_nil & _). }
  pose proof (sumZ_nonneg l Hl) as Hs. split.
  - intros Hpos. destruct (decide (0 < x)%Z); [exists x; split; [left|done]|].
    destruct (proj1 IH) as (y & ? & ?); [lia|]. exists y. split; [by right|done].
  - intros (y & [->|Hy]%elem_of_cons & Hpos); [lia|]. assert (0 < sumZ l)%Z by (apply IH; eauto). lia.
Qed.

Lemma Forall_filter_keep {A} (P Q : A → Prop) `{∀ x, Decision (P x)} l :
  Forall Q l → Forall Q (filter P l).
Proof. rewrite !Forall_forall. intros HQ x [_ ?]%list_elem_of_filter. auto. Qed.

(** ** Ordered sets

    A [BTreeSet<u64>] is a finite set; [set_values] is its iteration order. *)

Definition set_values (s : gset Z) : list Z := merge_sort Z.le (elements s).

(** Ascending without repetition, above an optional lower bound: what the
    decoders check with a [previous] variable. *)
Fixpoint ascending (previous : option Z) (l : list Z) : Prop :=
  match l with
  | [] => True
  | x :: l => (match previous with Some p => (p < x)%Z | None => True end) ∧ ascending (Some x) l
  end.

Lemma set_values_perm s : set_values s ≡ₚ elements s.
Proof. apply merge_sort_Permutation. Qed.
Lemma length_set_values s : length (set_values s) = size s.
Proof. by rewrite set_values_perm. Qed.
Lemma elem_of_set_values s x : x ∈ set_values s ↔ x ∈ s.
Proof. by rewrite set_values_perm, elem_of_elements. Qed.

Lemma ascending_spec previous l :
  ascending previous l ↔
  StronglySorted Z.lt l ∧ ∀ p x, previous = Some p → x ∈ l → (p < x)%Z.
Proof.
  revert previous. induction l as [|x l IH]; intros previous; simpl.
  { split; [intros _; split; [constructor|]|done]. intros p x _ ?%elem_of_nil. done. }
  rewrite IH. split.
  - intros (Hp & Hs & Hx). split.
    + constructor; [done|]. apply Forall_forall. eauto.
    + intros p y -> [->|Hy]%elem_of_cons; [done|]. specialize (Hx x y eq_refl Hy). lia.
  - intros ([Hs Hx]%StronglySorted_inv & Hp). rewrite Forall_forall in Hx. split_and!.
    + destruct previous as [p|]; [|done]. apply Hp; [done|left].
    + done.
    + intros p y [= <-] Hy. by apply Hx.
Qed.

Lemma StronglySorted_lt_le l : StronglySorted Z.lt l → StronglySorted Z.le l ∧ NoDup l.
Proof.
  induction 1 as [|x l _ [IH1 IH2] Hx]; [by split; constructor|].
  rewrite Forall_forall in Hx. split; constructor; try done.
  - apply Forall_forall. intros y Hy. specialize (Hx y Hy). lia.
  - intros Hin. specialize (Hx x Hin). lia.
Qed.

Lemma StronglySorted_le_lt l : StronglySorted Z.le l → NoDup l → StronglySorted Z.lt l.
Proof.
  induction 1 as [|x l _ IH Hx]; intros Hnd; constructor; apply NoDup_cons in Hnd as [Hn Hnd].
  - by apply IH.
  - rewrite Forall_forall in *. intros y Hy. specialize (Hx y Hy).
    assert (x ≠ y); [congruence|lia].
Qed.

(** The ascending lists are exactly the iteration orders of sets. *)
Lemma ascending_set_values s : ascending None (set_values s).
Proof.
  apply ascending_spec. split; [|done]. apply StronglySorted_le_lt.
  - apply StronglySorted_merge_sort; apply _.
  - rewrite set_values_perm. apply NoDup_elements.
Qed.

Lemma set_values_ascending l : ascending None l → set_values (list_to_set l) = l.
Proof.
  intros [[Hs Hnd]%StronglySorted_lt_le _]%ascending_spec.
  apply (StronglySorted_unique Z.le).
  - apply StronglySorted_merge_sort; apply _.
  - done.
  - by rewrite set_values_perm, elements_list_to_set.
Qed.

Lemma list_to_set_set_values s : list_to_set (set_values s) = s.
Proof. apply set_eq. intros x. by rewrite elem_of_list_to_set, elem_of_set_values. Qed.

Lemma len_app {A} (l k : list A) : len (l ++ k) = (len l + len k)%Z.
Proof. unfold len. rewrite length_app. lia. Qed.
Lemma len_nonneg {A} (l : list A) : (0 ≤ len l)%Z.
Proof. unfold len. lia. Qed.
Lemma take_len_app {A} (l k : list A) : take (Z.to_nat (len l)) (l ++ k) = l.
Proof. unfold len. by rewrite Nat2Z.id, take_app_length. Qed.
Lemma drop_len_app {A} (l k : list A) : drop (Z.to_nat (len l)) (l ++ k) = k.
Proof. unfold len. by rewrite Nat2Z.id, drop_app_length. Qed.

(** The hints of the development: facts that follow from a component's
    well-formedness invariant. *)
Create HintDb fa.
