(* ===== verification/Bytes.v ===== *)
(** * Bytes

    Byte strings and what the code takes from the standard library about them:
    the conversions between integers and their little-endian and big-endian
    bytes, the lexicographic order of [String] keys in a [BTreeMap], and the
    UTF-8 check of [String::from_utf8].  A Rust [String] is the byte string of
    its UTF-8 encoding, [utf8_valid] saying that it is one. *)

From Stdlib Require Import Strings.Byte Strings.String NArith.
From stdpp Require Import base tactics numbers list countable.
From S2P Require Import Prelude.
Export String.StringSyntax.

Local Open Scope Z_scope.

Abbreviation bytes := (list byte).

#[global] Instance byte_eq_dec : EqDecision byte := Byte.byte_eq_dec.

#[global] Program Instance byte_countable : Countable byte :=
  inj_countable Byte.to_N Byte.of_N _.
Next Obligation. intros b. apply Byte.of_to_N. Qed.

(** The byte string of an ASCII literal. *)
Definition ascii_bytes (s : String.string) : bytes := String.list_byte_of_string s.
Arguments ascii_bytes s%_string.

(** ** A byte as an integer *)

Definition byte_val (b : byte) : Z := Z.of_N (Byte.to_N b).
Definition byte_of (z : Z) : byte :=
  match Byte.of_N (Z.to_N (z mod 256)) with Some b => b | None => x00 end.

Lemma byte_val_range b : 0 ≤ byte_val b < 256.
Proof. unfold byte_val. pose proof (Byte.to_N_bounded b). lia. Qed.

Lemma byte_of_val b : byte_of (byte_val b) = b.
Proof.
  unfold byte_of. rewrite Z.mod_small by apply byte_val_range.
  unfold byte_val. by rewrite N2Z.id, Byte.of_to_N.
Qed.

Lemma byte_val_of z : byte_val (byte_of z) = z mod 256.
Proof.
  unfold byte_of. pose proof (Z.mod_pos_bound z 256).
  destruct (Byte.of_N _) as [b|] eqn:E.
  - apply Byte.to_of_N in E. unfold byte_val. rewrite E. lia.
  - apply Byte.of_N_None_iff in E. lia.
Qed.

#[global] Instance byte_val_inj : Inj (=) (=) byte_val.
Proof. intros a b E. by rewrite <-(byte_of_val a), E, byte_of_val. Qed.

(** ** Fixed-width integers: [to_le_bytes], [from_le_bytes], [to_be_bytes] *)

Fixpoint le_bytes (n : nat) (z : Z) : bytes :=
  match n with O => [] | S n => byte_of z :: le_bytes n (z / 256) end.
Definition le_val (bs : bytes) : Z := foldr (λ b acc, byte_val b + 256 * acc) 0 bs.
Definition be_bytes (n : nat) (z : Z) : bytes := rev (le_bytes n z).

Lemma length_le_bytes n z : length (le_bytes n z) = n.
Proof. revert z. induction n; intros z; simpl; auto. Qed.

Lemma le_val_le_bytes n z : le_val (le_bytes n z) = z mod 256 ^ Z.of_nat n.
Proof.
  revert z. induction n as [|n IH]; intros z; simpl.
  { by rewrite Z.mod_1_r. }
  rewrite IH, byte_val_of.
  replace (256 ^ Z.of_nat (S n)) with (256 * 256 ^ Z.of_nat n)
    by (rewrite Nat2Z.inj_succ, Z.pow_succ_r by lia; lia).
  rewrite Z.rem_mul_r by lia. lia.
Qed.

Lemma le_bytes_le_val bs : le_bytes (length bs) (le_val bs) = bs.
Proof.
  induction bs as [|b bs IH]; simpl; [done|].
  pose proof (byte_val_range b).
  rewrite (Z.mul_comm 256), Z.div_add, (Z.div_small (byte_val b)), Z.add_0_l, IH by lia.
  f_equal. apply byte_val_inj. by rewrite byte_val_of, Z.mod_add, Z.mod_small by lia.
Qed.

Lemma le_val_range bs : 0 ≤ le_val bs < 256 ^ len bs.
Proof.
  pose proof (le_val_le_bytes (length bs) (le_val bs)) as E. rewrite le_bytes_le_val in E.
  unfold len. rewrite E. apply Z.mod_pos_bound. lia.
Qed.

Lemma le_val_u32 z : is_u32 z → le_val (le_bytes 4 z) = z.
Proof. intros. rewrite le_val_le_bytes. apply Z.mod_small. unfold is_u32 in *. lia. Qed.
Lemma le_val_u64 z : is_u64 z → le_val (le_bytes 8 z) = z.
Proof. intros. rewrite le_val_le_bytes. apply Z.mod_small. unfold is_u64 in *. lia. Qed.

Lemma le_bytes_inj n y z :
  0 ≤ y < 256 ^ Z.of_nat n → 0 ≤ z < 256 ^ Z.of_nat n → le_bytes n y = le_bytes n z → y = z.
Proof.
  intros Hy Hz E. apply (f_equal le_val) in E.
  by rewrite !le_val_le_bytes, !Z.mod_small in E by done.
Qed.

Lemma length_be_bytes n z : length (be_bytes n z) = n.
Proof. unfold be_bytes. by rewrite length_rev, length_le_bytes. Qed.

Lemma be_bytes_inj n y z :
  0 ≤ y < 256 ^ Z.of_nat n → 0 ≤ z < 256 ^ Z.of_nat n → be_bytes n y = be_bytes n z → y = z.
Proof.
  unfold be_bytes. intros Hy Hz E. apply (f_equal (@rev byte)) in E.
  rewrite !rev_involutive in E. by apply (le_bytes_inj n).
Qed.

#[global] Arguments le_bytes : simpl never.
#[global] Arguments le_val : simpl never.

(** ** UTF-8, as [String::from_utf8] accepts it *)

Definition in_range (lo hi : Z) (b : byte) : bool := (lo <=? byte_val b) && (byte_val b <=? hi).
Definition utf8_tail : byte → bool := in_range 128 191.

(** The range a second byte of a three- or four-byte sequence must be in. *)
Definition utf8_second (b0 b1 : byte) : bool :=
  if byte_val b0 =? 224 then in_range 160 191 b1
  else if byte_val b0 =? 237 then in_range 128 159 b1
  else if byte_val b0 =? 240 then in_range 144 191 b1
  else if byte_val b0 =? 244 then in_range 128 143 b1
  else utf8_tail b1.

Fixpoint utf8_valid (bs : bytes) : bool :=
  match bs with
  | [] => true
  | b0 :: r0 =>
    if in_range 0 127 b0 then utf8_valid r0
    else if in_range 194 223 b0 then
      match r0 with b1 :: r1 => utf8_tail b1 && utf8_valid r1 | _ => false end
    else if in_range 224 239 b0 then
      match r0 with
      | b1 :: b2 :: r2 => utf8_second b0 b1 && utf8_tail b2 && utf8_valid r2
      | _ => false
      end
    else if in_range 240 244 b0 then
      match r0 with
      | b1 :: b2 :: b3 :: r3 =>
        utf8_second b0 b1 && utf8_tail b2 && utf8_tail b3 && utf8_valid r3
      | _ => false
      end
    else false
  end.

(** ** The order of [String] keys *)

Fixpoint bytes_leb (xs ys : bytes) : bool :=
  match xs, ys with
  | [], _ => true
  | _ :: _, [] => false
  | x :: xs, y :: ys =>
    if byte_val x <? byte_val y then true
    else if byte_val y <? byte_val x then false
    else bytes_leb xs ys
  end.

#[global] Instance bytes_key_order : KeyOrder bytes := bytes_leb.

Lemma bytes_leb_total xs ys : bytes_leb xs ys = true ∨ bytes_leb ys xs = true.
Proof.
  revert ys. induction xs as [|x xs IH]; intros [|y ys]; simpl; auto.
  destruct (Z.ltb_spec (byte_val x) (byte_val y)), (Z.ltb_spec (byte_val y) (byte_val x)); auto.
Qed.

Lemma bytes_leb_trans xs ys zs :
  bytes_leb xs ys = true → bytes_leb ys zs = true → bytes_leb xs zs = true.
Proof.
  revert ys zs. induction xs as [|x xs IH]; intros [|y ys] [|z zs]; simpl; try done.
  destruct (Z.ltb_spec (byte_val x) (byte_val y)), (Z.ltb_spec (byte_val y) (byte_val z)),
    (Z.ltb_spec (byte_val x) (byte_val z)), (Z.ltb_spec (byte_val y) (byte_val x)),
    (Z.ltb_spec (byte_val z) (byte_val y)), (Z.ltb_spec (byte_val z) (byte_val x));
    try done; try lia. apply IH.
Qed.

Lemma bytes_leb_antisymm xs ys : bytes_leb xs ys = true → bytes_leb ys xs = true → xs = ys.
Proof.
  revert ys. induction xs as [|x xs IH]; intros [|y ys]; simpl; try done.
  destruct (Z.ltb_spec (byte_val x) (byte_val y)), (Z.ltb_spec (byte_val y) (byte_val x));
    try done; try lia.
  intros. f_equal; [apply byte_val_inj; lia|auto].
Qed.

#[global] Instance bytes_key_order_laws : KeyOrderLaws bytes.
Proof.
  split; unfold key_le, key_leb, bytes_key_order.
  - intros xs ys. apply bytes_leb_total.
  - intros xs ys zs. apply bytes_leb_trans.
  - intros xs ys. apply bytes_leb_antisymm.
Qed.
