(* ===== verification/Decimal.v ===== *)
(** * Decimal numerals

    What the code takes from the standard library about the decimal form of a
    [u64]: [to_string], and [str::parse::<u64>] with its checked arithmetic.
    Printing is the inverse of parsing on canonical numerals. *)

From Stdlib Require Import Strings.Byte.
From stdpp Require Import base tactics numbers list.
From S2P Require Import Prelude Bytes.

Local Open Scope Z_scope.

(** ** Model *)

Definition dec_digit (d : Z) : byte := byte_of (48 + d).

(** The digits of [z], least significant first, pushed in front of [acc]; a
    [u64] has at most twenty of them ([decimal_go_spec] proves that the fuel of
    [u64_to_string] is enough). *)
Fixpoint decimal_go (fuel : nat) (z : Z) (acc : bytes) : bytes :=
  match fuel with
  | O => acc
  | S fuel =>
    if z <? 10 then dec_digit z :: acc else decimal_go fuel (z / 10) (dec_digit (z mod 10) :: acc)
  end.

Definition u64_to_string (z : Z) : bytes := decimal_go 20 z [].

Definition is_ascii_digit (b : byte) : bool := (48 <=? byte_val b) && (byte_val b <=? 57).

Fixpoint u64_parse_go (acc : Z) (bs : bytes) : option Z :=
  match bs with
  | [] => Some acc
  | b :: bs =>
    if is_ascii_digit b then
      acc ← u64_checked_mul acc 10;
      acc ← u64_checked_add acc (byte_val b - 48);
      u64_parse_go acc bs
    else None
  end.

(** [str::parse::<u64>]: digits, or a plus sign and digits. *)
Definition u64_parse (bs : bytes) : option Z :=
  match bs with
  | [] => None
  | b :: rest =>
    if byte_val b =? 43 then (match rest with [] => None | _ => u64_parse_go 0 rest end)
    else u64_parse_go 0 bs
  end.

(** ** The value of a string of digits *)

Definition dec_val (bs : bytes) : Z := foldl (λ acc b, acc * 10 + (byte_val b - 48)) 0 bs.
Definition digits (bs : bytes) : Prop := Forall (λ b, is_ascii_digit b = true) bs.

(** Nonempty, digits only, no leading zero. *)
Definition canonical (bs : bytes) : Prop :=
  digits bs ∧ ∃ b rest, bs = b :: rest ∧ byte_val b ≠ 48.

Lemma is_ascii_digit_spec b : is_ascii_digit b = true ↔ 48 ≤ byte_val b ≤ 57.
Proof. unfold is_ascii_digit. lia. Qed.

Lemma dec_digit_val d : 0 ≤ d < 10 → byte_val (dec_digit d) = 48 + d.
Proof. intros Hd. unfold dec_digit. rewrite byte_val_of. apply Z.mod_small. lia. Qed.

Lemma dec_digit_of b : is_ascii_digit b = true → dec_digit (byte_val b - 48) = b.
Proof.
  intros Hb%is_ascii_digit_spec. apply byte_val_inj. rewrite dec_digit_val by lia. lia.
Qed.

Lemma dec_digit_is_digit d : 0 ≤ d < 10 → is_ascii_digit (dec_digit d) = true.
Proof. intros Hd. apply is_ascii_digit_spec. rewrite dec_digit_val by done. lia. Qed.

Lemma dec_val_snoc bs b : dec_val (bs ++ [b]) = dec_val bs * 10 + (byte_val b - 48).
Proof. unfold dec_val. by rewrite foldl_app. Qed.

Lemma digits_snoc bs b : digits (bs ++ [b]) ↔ digits bs ∧ is_ascii_digit b = true.
Proof. unfold digits. by rewrite Forall_app, Forall_singleton. Qed.

Lemma dec_val_nonneg bs : digits bs → 0 ≤ dec_val bs.
Proof.
  induction bs as [|b bs IH] using rev_ind; [done|]. rewrite digits_snoc, dec_val_snoc.
  intros [Hbs Hb%is_ascii_digit_spec]. specialize (IH Hbs). lia.
Qed.

Lemma canonical_snoc_inv bs b :
  canonical (bs ++ [b]) → bs ≠ [] → canonical bs.
Proof.
  intros [[Hd _]%digits_snoc (b0 & rest & Heq & Hb0)] Hne. split; [done|].
  destruct bs as [|b1 bs]; [done|]. simpl in Heq. simplify_eq. eauto.
Qed.

(** A canonical numeral is at least the power of ten of its length. *)
Lemma canonical_lower bs : canonical bs → 10 ^ (len bs - 1) ≤ dec_val bs.
Proof.
  induction bs as [|b bs IH] using rev_ind; [by intros [_ (? & ? & ? & _)]|]. intros Hc.
  rewrite dec_val_snoc, len_app. change (len [b]) with 1. replace (len bs + 1 - 1) with (len bs) by lia.
  assert (48 ≤ byte_val b ≤ 57) as Hb.
  { destruct Hc as [[_ Hb]%digits_snoc _]. by apply is_ascii_digit_spec. }
  destruct (decide (bs = [])) as [->|Hne].
  - destruct Hc as [_ (b0 & rest & Heq & Hb0)]. simpl in Heq. simplify_eq. change (len []) with 0. change (dec_val []) with 0. rewrite Z.pow_0_r. lia.
  - specialize (IH (canonical_snoc_inv _ _ Hc Hne)).
    assert (0 < len bs) by (destruct bs; [by destruct Hne|unfold len; simpl; lia]).
    replace (len bs) with (Z.succ (len bs - 1)) by lia. rewrite Z.pow_succ_r by lia. lia.
Qed.

Lemma decimal_go_canonical fuel bs acc :
  canonical bs → (length bs ≤ fuel)%nat → decimal_go fuel (dec_val bs) acc = bs ++ acc.
Proof.
  revert fuel acc. induction bs as [|b bs IH] using rev_ind; intros fuel acc Hc Hf;
    [by destruct Hc as [_ (? & ? & ? & _)]|].
  rewrite length_app in Hf. simpl in Hf. destruct fuel as [|fuel]; [lia|]. simpl. rewrite dec_val_snoc.
  assert (is_ascii_digit b = true) as Hb.
  { by destruct Hc as [[_ Hb]%digits_snoc _]. }
  pose proof Hb as Hb'%is_ascii_digit_spec.
  destruct (decide (bs = [])) as [->|Hne].
  - change (dec_val []) with 0. destruct (Z.ltb_spec (0 * 10 + (byte_val b - 48)) 10); [|lia].
    rewrite Z.mul_0_l, Z.add_0_l, dec_digit_of by done. done.
  - pose proof (canonical_snoc_inv _ _ Hc Hne) as Hc'. pose proof (canonical_lower bs Hc').
    assert (0 < 10 ^ (len bs - 1)).
    { apply Z.pow_pos_nonneg; [lia|]. destruct bs; [by destruct Hne|unfold len; simpl; lia]. }
    destruct (Z.ltb_spec (dec_val bs * 10 + (byte_val b - 48)) 10); [lia|].
    rewrite Z.div_add_l, (Z.div_small (byte_val b - 48)), Z.add_0_r by lia.
    rewrite Z.add_comm, Z.mod_add, Z.mod_small, dec_digit_of by (done || lia).
    rewrite IH by (done || lia). by rewrite <-app_assoc.
Qed.

Lemma decimal_go_spec fuel z acc :
  0 ≤ z < 10 ^ Z.of_nat fuel → (0 < fuel)%nat →
  ∃ bs, decimal_go fuel z acc = bs ++ acc ∧ digits bs ∧ bs ≠ [] ∧ dec_val bs = z ∧
    (length bs ≤ fuel)%nat ∧ (0 < z → canonical bs).
Proof.
  revert z acc. induction fuel as [|fuel IH]; intros z acc Hz Hf; [lia|]. simpl.
  destruct (Z.ltb_spec z 10).
  - exists [dec_digit z]. assert (digits [dec_digit z]) by (constructor; [apply dec_digit_is_digit; lia|constructor]).
    split_and!; [done|done|done| |simpl; lia|].
    + unfold dec_val. simpl. rewrite dec_digit_val by lia. lia.
    + intros Hpos. split; [done|]. exists (dec_digit z), []. split; [done|]. rewrite dec_digit_val by lia. lia.
  - rewrite Nat2Z.inj_succ, Z.pow_succ_r in Hz by lia. pose proof (Z.mod_pos_bound z 10).
    assert (0 < fuel)%nat by (destruct fuel; [change (10 ^ Z.of_nat 0) with 1 in Hz; lia|lia]).
    assert (1 ≤ z / 10 < 10 ^ Z.of_nat fuel) as Hdiv.
    { split; [apply Z.div_le_lower_bound; lia|apply Z.div_lt_upper_bound; lia]. }
    destruct (IH (z / 10) (dec_digit (z mod 10) :: acc)) as (bs & -> & Hd & Hne & Hv & Hl & Hc); [lia|done|].
    exists (bs ++ [dec_digit (z mod 10)]). rewrite <-app_assoc, length_app, dec_val_snoc, dec_digit_val by lia.
    assert (digits (bs ++ [dec_digit (z mod 10)])) as Hds.
    { apply Forall_app. split; [done|]. constructor; [|constructor]. apply dec_digit_is_digit. lia. }
    split_and!; [done|done|by destruct bs|rewrite Hv; pose proof (Z.div_mod z 10); lia|simpl; lia|].
    intros _. split; [done|]. destruct Hc as [_ (b & rest & -> & Hb)]; [lia|].
    by exists b, (rest ++ [dec_digit (z mod 10)]).
Qed.

Lemma u64_to_string_spec z :
  is_u64 z → digits (u64_to_string z) ∧ u64_to_string z ≠ [] ∧ dec_val (u64_to_string z) = z ∧
    (length (u64_to_string z) ≤ 20)%nat ∧ (0 < z → canonical (u64_to_string z)).
Proof.
  intros Hz. unfold is_u64 in Hz. unfold u64_to_string.
  destruct (decimal_go_spec 20 z []) as (bs & -> & ?); [lia|lia|]. by rewrite app_nil_r.
Qed.

Lemma u64_to_string_nonempty z : u64_to_string z ≠ [].
Proof.
  unfold u64_to_string. assert (∀ fuel z acc, acc ≠ [] → decimal_go fuel z acc ≠ []) as Hgo.
  { induction fuel as [|fuel IH]; intros z' acc Hacc; [done|]. simpl. case_match; [done|]. by apply IH. }
  assert (∀ n, decimal_go (S n) z [] ≠ []) as Hs; [|apply Hs].
  intros n. simpl. case_match; [done|]. by apply Hgo.
Qed.

(** ** Parsing *)

Lemma u64_parse_go_eq acc bs :
  digits bs → 0 ≤ acc ≤ U64_MAX →
  u64_parse_go acc bs =
    let v := foldl (λ acc b, acc * 10 + (byte_val b - 48)) acc bs in
    if v <=? U64_MAX then Some v else None.
Proof.
  intros Hd. revert acc. induction Hd as [|b bs Hb Hd IH]; intros acc Hacc; simpl.
  { by destruct (Z.leb_spec acc U64_MAX); [|lia]. }
  rewrite Hb. apply is_ascii_digit_spec in Hb.
  assert (∀ acc, 0 ≤ acc → acc ≤ foldl (λ acc b, acc * 10 + (byte_val b - 48)) acc bs) as Hmono.
  { clear IH Hacc acc. induction Hd as [|c cs Hc _ IH]; intros acc Hacc; simpl; [lia|].
    apply is_ascii_digit_spec in Hc. specialize (IH (acc * 10 + (byte_val c - 48))). lia. }
  specialize (Hmono (acc * 10 + (byte_val b - 48))). unfold u64_checked_mul, u64_checked_add.
  destruct (Z.leb_spec (acc * 10) U64_MAX); simpl.
  - destruct (Z.leb_spec (acc * 10 + (byte_val b - 48)) U64_MAX); simpl; [by apply IH; lia|].
    destruct (Z.leb_spec (foldl (λ acc b, acc * 10 + (byte_val b - 48)) (acc * 10 + (byte_val b - 48)) bs) U64_MAX); [lia|done].
  - destruct (Z.leb_spec (foldl (λ acc b, acc * 10 + (byte_val b - 48)) (acc * 10 + (byte_val b - 48)) bs) U64_MAX); [lia|done].
Qed.

Lemma u64_parse_digits bs :
  digits bs → bs ≠ [] →
  u64_parse bs = if dec_val bs <=? U64_MAX then Some (dec_val bs) else None.
Proof.
  intros Hd Hne. destruct bs as [|b bs]; [done|]. unfold u64_parse.
  assert (48 ≤ byte_val b ≤ 57) by (apply is_ascii_digit_spec; by inversion Hd).
  destruct (Z.eqb_spec (byte_val b) 43); [lia|]. by rewrite u64_parse_go_eq by (done || lia).
Qed.

(** Canonical numerals are exactly what printing produces. *)
Lemma canonical_printed bs z :
  1 ≤ z ≤ U64_MAX → (canonical bs ∧ dec_val bs = z) ↔ bs = u64_to_string z.
Proof.
  intros Hz. split.
  - intros [Hc Hv]. unfold u64_to_string. rewrite <-Hv, decimal_go_canonical; [by rewrite app_nil_r|done|].
    pose proof (canonical_lower bs Hc) as Hlow. rewrite Hv in Hlow.
    destruct (decide (length bs ≤ 20)%nat) as [|Hlong]; [done|exfalso].
    assert (10 ^ 20 ≤ 10 ^ (len bs - 1)) by (apply Z.pow_le_mono_r; [lia|unfold len; lia]). lia.
  - intros ->. destruct (u64_to_string_spec z) as (_ & _ & Hv & _ & Hc); [unfold is_u64; lia|].
    split; [apply Hc; lia|done].
Qed.
