(* ===== verification/Judgment.v ===== *)
(** * Judgments over logical snapshots

    [Snapshot], [ReadWitness] and [Judgment] of
    [crates/fa-reference/src/logical_core.rs], with the error type every
    component of the reference crate shares.  A judgment records the epoch and
    the exact reads (present keys, absent keys and empty key ranges) it was
    made from; it may be reused at a later snapshot as long as those reads
    would return the same. *)

From stdpp Require Import base tactics numbers list gmap.
From S2P Require Import Prelude Bytes.

Local Open Scope Z_scope.

(** The error type of [fa_reference]. *)
Inductive Error :=
  | InvalidInput
  | Incomplete
  | Limit
  | Overflow
  | Duplicate
  | Missing
  | WrongState
  | Stale
  | Binding.

#[global] Instance Error_eq_dec : EqDecision Error.
Proof. solve_decision. Defined.

Record Snapshot := mkSnapshot {
  s_semantic_epoch : Z;
  s_complete : bool;
  s_values : gmap Z bytes;
}.

Inductive ReadWitness :=
  | Exact (key : Z) (value : option bytes)
  | EmptyRange (start stop : Z).

#[global] Instance ReadWitness_eq_dec : EqDecision ReadWitness.
Proof. solve_decision. Defined.

Record Judgment := mkJudgment {
  j_semantic_epoch : Z;
  j_witnesses : list ReadWitness;
}.

#[global] Instance Judgment_eq_dec : EqDecision Judgment.
Proof. solve_decision. Defined.

(** [values.range(start..end).next().is_some()] *)
Definition range_inhabited (values : gmap Z bytes) (start stop : Z) : bool :=
  existsb (λ p, (start <=? p.1) && (p.1 <? stop)) (entries values).

(** The loop of [Judgment::valid_at] over the witnesses. *)
Fixpoint witnesses_valid (values : gmap Z bytes) (ws : list ReadWitness) : res Error bool :=
  match ws with
  | [] => Ok true
  | Exact key value :: ws =>
    if bool_decide (values !! key ≠ value) then Ok false else witnesses_valid values ws
  | EmptyRange start stop :: ws =>
    if stop <=? start then Err InvalidInput
    else if range_inhabited values start stop then Ok false
    else witnesses_valid values ws
  end.

Definition judgment_valid_at (self : Judgment) (snapshot : Snapshot) : res Error bool :=
  if negb (s_complete snapshot) then Err Incomplete
  else if negb (s_semantic_epoch snapshot =? j_semantic_epoch self) then Ok false
  else witnesses_valid (s_values snapshot) (j_witnesses self).

Definition judgment_capture (snapshot : Snapshot) (witnesses : list ReadWitness)
    : res Error Judgment :=
  let judgment := mkJudgment (s_semantic_epoch snapshot) witnesses in
  valid ← judgment_valid_at judgment snapshot;
  if (valid : bool) then Ok judgment else Err Binding.

(** ** What a witness says, as a proposition *)

Definition witness_wf (w : ReadWitness) : Prop :=
  match w with Exact _ _ => True | EmptyRange start stop => start < stop end.

Definition witness_holds (values : gmap Z bytes) (w : ReadWitness) : Prop :=
  match w with
  | Exact key value => values !! key = value
  | EmptyRange start stop => ∀ k, start ≤ k < stop → values !! k = None
  end.

(** The keys whose content a witness depends on. *)
Definition witness_covers (w : ReadWitness) (k : Z) : Prop :=
  match w with Exact key _ => k = key | EmptyRange start stop => start ≤ k < stop end.

(** A complete snapshot at the judgment's epoch. *)
Definition comparable (j : Judgment) (s : Snapshot) : Prop :=
  s_complete s = true ∧ s_semantic_epoch s = j_semantic_epoch j.

Lemma range_inhabited_false values start stop :
  range_inhabited values start stop = false ↔ witness_holds values (EmptyRange start stop).
Proof.
  unfold range_inhabited. rewrite <-not_true_iff_false, existsb_exists. simpl. split.
  - intros Hno k Hk. apply eq_None_not_Some. intros [v Hv]. apply Hno. exists (k, v).
    split; [by apply list_elem_of_In, elem_of_entries|]. simpl. lia.
  - intros Hno ([k v] & Hin%list_elem_of_In%elem_of_entries & Hk). simpl in Hk.
    by rewrite (Hno k) in Hin by lia.
Qed.

Lemma witnesses_valid_true values ws :
  witnesses_valid values ws = Ok true ↔ Forall (λ w, witness_wf w ∧ witness_holds values w) ws.
Proof.
  induction ws as [|[key value|start stop] ws IH]; simpl.
  - split; [constructor|done].
  - rewrite Forall_cons. simpl. case_bool_decide as E; [|tauto].
    split; [done|]. intros [[_ ?] _]. done.
  - rewrite Forall_cons. destruct (Z.leb_spec stop start).
    + split; [done|]. intros [[Hwf _] _]. simpl in Hwf. lia.
    + destruct (range_inhabited values start stop) eqn:E.
      * split; [done|]. intros [[_ Hh] _]. apply range_inhabited_false in Hh. congruence.
      * apply range_inhabited_false in E. simpl. tauto.
Qed.

(** The only error the loop returns is for an empty or inverted range that no
    failed witness precedes. *)
Lemma witnesses_valid_err values ws :
  witnesses_valid values ws = Err InvalidInput ↔
  ∃ pre w post, ws = pre ++ w :: post ∧ ¬ witness_wf w ∧
    Forall (λ w, witness_wf w ∧ witness_holds values w) pre.
Proof.
  induction ws as [|w ws IH].
  { split; [done|]. by intros ([] & ? & ? & ? & _). }
  assert (∀ (H : witness_wf w ∧ witness_holds values w),
    (∃ pre w' post, w :: ws = pre ++ w' :: post ∧ ¬ witness_wf w' ∧
      Forall (λ w, witness_wf w ∧ witness_holds values w) pre) ↔
    witnesses_valid values ws = Err InvalidInput) as Hgood.
  { intros Hw. rewrite IH. split.
    - intros ([|w0 pre] & w' & post & E & Hno & Hpre); simplify_eq/=; [tauto|].
      apply Forall_cons in Hpre as [_ Hpre]. eauto 6.
    - intros (pre & w' & post & -> & Hno & Hpre).
      exists (w :: pre), w', post. eauto using Forall_cons. }
  assert (witness_wf w → ¬ witness_holds values w →
    ¬ ∃ pre w' post, w :: ws = pre ++ w' :: post ∧ ¬ witness_wf w' ∧
      Forall (λ w, witness_wf w ∧ witness_holds values w) pre) as Hbad.
  { intros Hwf Hno ([|w0 pre] & w' & post & E & Hno' & Hpre); simplify_eq/=; [done|].
    by apply Forall_cons in Hpre as [[_ ?] _]. }
  destruct w as [key value|start stop]; simpl.
  - case_bool_decide as E; [split; [done|]|].
    + intros H. destruct (Hbad I E H).
    + symmetry. apply Hgood. simpl. split; [done|]. by destruct (decide (values !! key = value)).
  - destruct (Z.leb_spec stop start).
    + split; [|done]. intros _. exists [], (EmptyRange start stop), ws.
      split_and!; [done|simpl; lia|constructor].
    + destruct (range_inhabited values start stop) eqn:E.
      * split; [done|]. intros H'. exfalso. revert H'. apply Hbad; [simpl; lia|].
        intros Hh%range_inhabited_false. congruence.
      * symmetry. apply Hgood. split; [simpl; lia|]. by apply range_inhabited_false.
Qed.

Lemma witnesses_valid_outcomes values ws :
  witnesses_valid values ws = Ok true ∨ witnesses_valid values ws = Ok false ∨
  witnesses_valid values ws = Err InvalidInput.
Proof. induction ws as [|[]]; simpl; repeat case_match; auto. Qed.

Lemma judgment_valid_at_comparable j s :
  comparable j s → judgment_valid_at j s = witnesses_valid (s_values s) (j_witnesses j).
Proof. intros [Hc He]. unfold judgment_valid_at. by rewrite Hc, He, Z.eqb_refl. Qed.

Lemma judgment_capture_ok s ws j :
  judgment_capture s ws = Ok j ↔
  j = mkJudgment (s_semantic_epoch s) ws ∧ s_complete s = true ∧
  Forall (λ w, witness_wf w ∧ witness_holds (s_values s) w) ws.
Proof.
  unfold judgment_capture. rewrite <-witnesses_valid_true.
  unfold judgment_valid_at. simpl. rewrite Z.eqb_refl. munfold_goal.
  destruct (s_complete s); simpl; [destruct (witnesses_valid _ _) as [[]| |]|]; split;
    intros; destruct_and?; simplify_eq/=; done.
Qed.

(** Reads recorded at [s] hold at [s'] exactly when the covered keys agree. *)
Lemma witness_holds_agree values values' w :
  witness_holds values w →
  (witness_holds values' w ↔ ∀ k, witness_covers w k → values' !! k = values !! k).
Proof.
  destruct w as [key value|start stop]; simpl.
  - intros <-. naive_solver.
  - intros Hno. split; intros Hag k Hk; [by rewrite Hno, Hag|].
    rewrite Hag by done. by apply Hno.
Qed.

(** ** Properties *)

(** [Judgment::valid_at] is exact on every branch.  On an incomplete
    snapshot it refuses; at another epoch it is [Ok(false)]; at the same epoch
    it is [Ok(true)] exactly when every recorded read is well formed and still
    holds, [InvalidInput] exactly when a malformed range comes before any read
    that fails, and [Ok(false)] otherwise; it returns nothing else. *)
Theorem judgment_valid_at_exact (j : Judgment) (s : Snapshot) :
  (s_complete s = false → judgment_valid_at j s = Err Incomplete) ∧
  (s_complete s = true → s_semantic_epoch s ≠ j_semantic_epoch j →
     judgment_valid_at j s = Ok false) ∧
  (comparable j s →
     (judgment_valid_at j s = Ok true ↔
        Forall (λ w, witness_wf w ∧ witness_holds (s_values s) w) (j_witnesses j)) ∧
     (judgment_valid_at j s = Err InvalidInput ↔
        ∃ pre w post, j_witnesses j = pre ++ w :: post ∧ ¬ witness_wf w ∧
          Forall (λ w, witness_wf w ∧ witness_holds (s_values s) w) pre) ∧
     (judgment_valid_at j s ∈ [Ok true; Ok false; Err InvalidInput])).
Proof.
  split_and!.
  - intros Hc. unfold judgment_valid_at. by rewrite Hc.
  - intros Hc He. unfold judgment_valid_at. rewrite Hc. simpl.
    by destruct (Z.eqb_spec (s_semantic_epoch s) (j_semantic_epoch j)).
  - intros Hcmp. rewrite !judgment_valid_at_comparable by done. split_and!.
    + apply witnesses_valid_true.
    + apply witnesses_valid_err.
    + destruct (witnesses_valid_outcomes (s_values s) (j_witnesses j)) as [->|[->| ->]]; set_solver.
Qed.

(** C40: a captured judgment is reusable at a later complete snapshot of
    the same epoch exactly when that snapshot agrees with the captured one on
    every key a witness covers: unrelated changes never invalidate it, and any
    changed, removed or phantom key inside the recorded reads always does. *)
Theorem judgment_reuse_iff_footprint_agrees (s s' : Snapshot) (ws : list ReadWitness) (j : Judgment) :
  judgment_capture s ws = Ok j → comparable j s' →
  judgment_valid_at j s' = Ok true ↔
  ∀ w k, w ∈ ws → witness_covers w k → s_values s' !! k = s_values s !! k.
Proof.
  intros (-> & _ & Hall)%judgment_capture_ok Hcmp.
  rewrite judgment_valid_at_comparable, witnesses_valid_true by done. simpl.
  rewrite Forall_forall in Hall. rewrite Forall_forall. split.
  - intros Hall' w k Hw Hk. destruct (Hall w Hw) as [_ Hh].
    by apply (witness_holds_agree _ (s_values s')) in Hh as [Hh _]; apply Hh; [apply Hall'|].
  - intros Hagree w Hw. destruct (Hall w Hw) as [Hwf Hh]. split; [done|].
    apply (witness_holds_agree (s_values s)); eauto.
Qed.

Definition example_snapshot (values : gmap Z bytes) : Snapshot := mkSnapshot 1 true values.

Lemma judgment_reuse_iff_footprint_agrees_witness :
  let s := example_snapshot {[ 10 := ascii_bytes "approved" ]} in
  let s' := example_snapshot (<[99 := ascii_bytes "unrelated"]> (s_values s)) in
  let s'' := example_snapshot (<[25 := ascii_bytes "phantom"]> (s_values s)) in
  let ws := [Exact 10 (Some (ascii_bytes "approved")); EmptyRange 20 30] in
  let j := mkJudgment 1 ws in
  judgment_capture s ws = Ok j ∧
  (judgment_valid_at j s' = Ok true ↔
     ∀ w k, w ∈ ws → witness_covers w k → s_values s' !! k = s_values s !! k) ∧
  judgment_valid_at j s' = Ok true ∧ judgment_valid_at j s'' = Ok false.
Proof.
  intros s s' s'' ws j. split; [vm_compute; reflexivity|].
  split; [|split; vm_compute; reflexivity].
  apply (judgment_reuse_iff_footprint_agrees s s' ws j); [vm_compute; reflexivity|split; reflexivity].
Defined.
