(* ===== verification/Frontier.v ===== *)
(** * Frontiers

    [Frontier] and [EvidenceFrontiers] of
    [crates/fa-reference/src/logical_core.rs]: a contiguous prefix of accepted
    sequence numbers with a bounded set of pending ones beyond a gap, and the
    captured / verified / judged product of three of them. *)

From stdpp Require Import base tactics numbers list gmap sets.
From S2P Require Import Prelude Judgment.

Local Open Scope Z_scope.

(** ** Model *)

Record Frontier := mkFrontier {
  f_contiguous : Z;
  f_pending : gset Z;
  f_max_gap : Z;
}.

#[global] Instance Frontier_eq_dec : EqDecision Frontier.
Proof. solve_decision. Defined.

Definition frontier_new (max_gap : Z) : res Error Frontier :=
  if (max_gap =? 0) || (1000000 <? max_gap) then Err InvalidInput
  else Ok (mkFrontier 0 ∅ max_gap).

Definition frontier_contains (self : Frontier) (sequence : Z) : bool :=
  (0 <? sequence) &&
  ((sequence <=? f_contiguous self) || bool_decide (sequence ∈ f_pending self)).

(** The [while let] loop that advances the prefix through pending successors.
    Every iteration removes a pending element, so [S (size pending)]
    iterations are enough ([frontier_drain_spec] proves that it stops). *)
Fixpoint frontier_drain (fuel : nat) (self : Frontier) : Frontier :=
  match fuel with
  | O => self
  | S fuel =>
    match u64_checked_add (f_contiguous self) 1 with
    | None => self
    | Some next =>
      if bool_decide (next ∈ f_pending self) then
        frontier_drain fuel (mkFrontier next (f_pending self ∖ {[next]}) (f_max_gap self))
      else self
    end
  end.

Definition frontier_accept (sequence : Z) : st Frontier Error unit :=
  refuse_if (sequence =? 0) InvalidInput;;
  self ← get;
  if sequence <=? f_contiguous self then mret tt
  else
    refuse_if (f_max_gap self <? sequence - f_contiguous self) Limit;;
    let pending := {[sequence]} ∪ f_pending self in
    put (frontier_drain (S (size pending))
          (mkFrontier (f_contiguous self) pending (f_max_gap self))).

Record EvidenceFrontiers := mkEvidence {
  e_captured : Frontier;
  e_verified : Frontier;
  e_judged : Frontier;
}.

Definition evidence_new (max_gap : Z) : res Error EvidenceFrontiers :=
  captured ← frontier_new max_gap;
  verified ← frontier_new max_gap;
  judged ← frontier_new max_gap;
  Ok (mkEvidence captured verified judged).

Definition evidence_capture (sequence : Z) : st EvidenceFrontiers Error unit :=
  zoom e_captured (λ f e, mkEvidence f (e_verified e) (e_judged e)) id (frontier_accept sequence).

Definition evidence_verify (sequence : Z) : st EvidenceFrontiers Error unit :=
  self ← get;
  refuse_if (negb (frontier_contains (e_captured self) sequence)) Incomplete;;
  zoom e_verified (λ f e, mkEvidence (e_captured e) f (e_judged e)) id (frontier_accept sequence).

Definition evidence_judge (sequence : Z) : st EvidenceFrontiers Error unit :=
  self ← get;
  refuse_if (negb (frontier_contains (e_verified self) sequence)) Incomplete;;
  zoom e_judged (λ f e, mkEvidence (e_captured e) (e_verified e) f) id (frontier_accept sequence).

Definition evidence_covers_closed_scope (self : EvidenceFrontiers) (last : Z) : bool :=
  (0 <? last) && (last <=? f_contiguous (e_judged self)).

(** ** Invariant

    Pending elements lie strictly beyond the first missing one and within the
    gap bound. *)

Record frontier_wf (f : Frontier) : Prop := {
  fwf_contiguous : is_u64 (f_contiguous f);
  fwf_gap : 1 ≤ f_max_gap f ≤ 1000000;
  fwf_pending : ∀ s, s ∈ f_pending f →
    f_contiguous f + 1 < s ≤ f_contiguous f + f_max_gap f ∧ s ≤ U64_MAX;
}.

(** The loop's invariant: the first missing element may be pending. *)
Record frontier_pre (f : Frontier) : Prop := {
  fpre_contiguous : is_u64 (f_contiguous f);
  fpre_gap : 1 ≤ f_max_gap f ≤ 1000000;
  fpre_pending : ∀ s, s ∈ f_pending f →
    f_contiguous f < s ≤ f_contiguous f + f_max_gap f ∧ s ≤ U64_MAX;
}.

Lemma frontier_contains_spec f s :
  frontier_contains f s = true ↔ 0 < s ∧ (s ≤ f_contiguous f ∨ s ∈ f_pending f).
Proof.
  unfold frontier_contains.
  rewrite andb_true_iff, orb_true_iff, bool_decide_eq_true, Z.ltb_lt, Z.leb_le. done.
Qed.

Lemma frontier_new_wf gap f : 0 ≤ gap → frontier_new gap = Ok f → frontier_wf f.
Proof.
  unfold frontier_new. intros Hgap.
  destruct (Z.eqb_spec gap 0), (Z.ltb_spec 1000000 gap); simpl; intros; simplify_eq.
  split; simpl; [unfold is_u64; lia|lia|set_solver].
Qed.

(** Draining stops with the invariant, keeps the accepted set and never moves
    the prefix back. *)
Lemma frontier_drain_spec fuel f :
  frontier_pre f → (size (f_pending f) < fuel)%nat →
  let f' := frontier_drain fuel f in
  frontier_wf f' ∧ f_max_gap f' = f_max_gap f ∧ f_contiguous f ≤ f_contiguous f' ∧
  ∀ s, frontier_contains f' s = frontier_contains f s.
Proof.
  revert f. induction fuel as [|fuel IH]; intros f Hpre Hfuel; [lia|].
  destruct Hpre as [Hc Hg Hp]. simpl. unfold u64_checked_add.
  destruct (Z.leb_spec (f_contiguous f + 1) U64_MAX).
  - case_bool_decide as Hin.
    + set (f1 := mkFrontier _ _ _).
      assert (frontier_pre f1) as Hpre1.
      { unfold is_u64 in *. split; simpl; [unfold is_u64; lia|done|].
        intros s [Hs Hne]%elem_of_difference. specialize (Hp s Hs).
        rewrite elem_of_singleton in Hne. lia. }
      assert (size (f_pending f1) < fuel)%nat as Hfuel1.
      { simpl. rewrite size_difference by set_solver. rewrite size_singleton.
        assert (size (f_pending f) ≠ 0%nat); [|lia].
        apply size_non_empty_iff. set_solver. }
      destruct (IH f1 Hpre1 Hfuel1) as (Hwf & Hgap & Hle & Hsame).
      split_and!; [done|done|simpl in *; lia|]. intros s. rewrite Hsame.
      apply eq_bool_prop_intro. rewrite !Is_true_true, !frontier_contains_spec. simpl.
      destruct (decide (s = f_contiguous f + 1)); set_solver by lia.
    + split_and!; [|done|lia|done]. split; [done|done|].
      intros s Hs. specialize (Hp s Hs).
      assert (s ≠ f_contiguous f + 1) by (intros ->; done). lia.
  - unfold is_u64 in *. split_and!; [|done|lia|done]. split; [done|done|].
    intros s Hs. specialize (Hp s Hs). lia.
Qed.

(** The functional specification of [Frontier::accept], all branches. *)
Lemma frontier_accept_spec f s :
  frontier_wf f → is_u64 s →
  ∃ r f', frontier_accept s f = (r, f') ∧ frontier_wf f' ∧ f_max_gap f' = f_max_gap f ∧
  f_contiguous f ≤ f_contiguous f' ∧
  ((r = Err InvalidInput ∧ s = 0 ∧ f' = f) ∨
   (r = Err Limit ∧ f_max_gap f < s - f_contiguous f ∧ 0 < s ∧ f' = f) ∨
   (r = Ok tt ∧ 0 < s ∧ s - f_contiguous f ≤ f_max_gap f ∧
    ∀ x, frontier_contains f' x = true ↔ frontier_contains f x = true ∨ x = s)).
Proof.
  intros Hwf Hs. unfold frontier_accept. munfold_goal. unfold is_u64 in Hs.
  destruct (Z.eqb_spec s 0); [eexists _, _; split_and!; naive_solver|].
  destruct (Z.leb_spec s (f_contiguous f)).
  { eexists _, _; split_and!; [done..|]. right; right. split_and!; [done|lia| |].
    - destruct Hwf as [_ [] _]. lia.
    - intros x. rewrite !frontier_contains_spec. split; [by left|]. intros [?| ->]; [done|lia]. }
  destruct (Z.ltb_spec (f_max_gap f) (s - f_contiguous f)).
  { eexists _, _; split_and!; [done..|]. right; left. split_and!; (done || lia). }
  set (f0 := mkFrontier (f_contiguous f) ({[s]} ∪ f_pending f) (f_max_gap f)).
  assert (frontier_pre f0) as Hpre.
  { destruct Hwf as [Hc Hg Hp]. split; [done..|]. simpl.
    intros x [->%elem_of_singleton|Hx]%elem_of_union; [lia|]. specialize (Hp x Hx). lia. }
  destruct (frontier_drain_spec (S (size (f_pending f0))) f0 Hpre) as (Hwf' & Hgap & Hle & Hsame);
    [lia|].
  eexists _, _; split_and!; [reflexivity|done|done|done|]. right; right.
  split_and!; [done|lia|lia|]. intros x. rewrite Hsame, !frontier_contains_spec. simpl.
  rewrite elem_of_union, elem_of_singleton. naive_solver lia.
Qed.

(** Under the invariant the prefix is exactly the longest accepted one. *)
Lemma frontier_contiguous_maximal f n :
  frontier_wf f → 0 ≤ n ≤ U64_MAX →
  n ≤ f_contiguous f ↔ ∀ i, 1 ≤ i ≤ n → frontier_contains f i = true.
Proof.
  intros [Hc _ Hp] Hn. split.
  - intros ? i ?. apply frontier_contains_spec. lia.
  - intros Hall. destruct (Z.le_gt_cases n (f_contiguous f)) as [|Hgt]; [done|].
    unfold is_u64 in *.
    destruct (proj1 (frontier_contains_spec f (f_contiguous f + 1))) as [_ [|Hin]]; [|lia|].
    + apply Hall. lia.
    + specialize (Hp _ Hin). lia.
Qed.

(** The pending set is bounded by the gap: at most [max_gap - 1] entries. *)
Lemma frontier_pending_bound f : frontier_wf f → Z.of_nat (size (f_pending f)) < f_max_gap f.
Proof.
  intros [Hc Hg Hp].
  set (range := list_to_set (C:=gset Z) (seqZ (f_contiguous f + 2) (f_max_gap f - 1))).
  assert (f_pending f ⊆ range) as Hsub%subseteq_size.
  { intros s Hs. apply elem_of_list_to_set, elem_of_seqZ. specialize (Hp s Hs). lia. }
  assert (size range = Z.to_nat (f_max_gap f - 1)) as Hsize.
  { unfold range. rewrite size_list_to_set by apply NoDup_seqZ. apply length_seqZ. }
  lia.
Qed.

(** ** Runs *)

(** The accepted sequence numbers of a series of calls and the final frontier. *)
Fixpoint frontier_run (seqs : list Z) (f : Frontier) : list Z * Frontier :=
  match seqs with
  | [] => ([], f)
  | s :: seqs =>
    let '(r, f1) := frontier_accept s f in
    let '(oks, f2) := frontier_run seqs f1 in
    (if is_ok r then s :: oks else oks, f2)
  end.

Lemma frontier_run_spec seqs f :
  frontier_wf f → Forall is_u64 seqs →
  let '(oks, f') := frontier_run seqs f in
  frontier_wf f' ∧ f_max_gap f' = f_max_gap f ∧
  ∀ x, frontier_contains f' x = true ↔ frontier_contains f x = true ∨ x ∈ oks.
Proof.
  revert f. induction seqs as [|s seqs IH]; intros f Hwf Hall; simpl.
  { split_and!; [done..|]. set_solver. }
  apply Forall_cons in Hall as [Hs Hall].
  destruct (frontier_accept_spec f s Hwf Hs) as (r & f1 & -> & Hwf1 & Hgap1 & _ & Hcase).
  specialize (IH f1 Hwf1 Hall). destruct (frontier_run seqs f1) as [oks f2].
  destruct IH as (Hwf2 & Hgap2 & Hin). split_and!; [done|congruence|].
  destruct Hcase as [(-> & _ & ->)|[(-> & _ & _ & ->)|(-> & _ & _ & Hacc)]]; simpl; [done..|].
  intros x. rewrite Hin, Hacc. set_solver.
Qed.

Inductive evidence_call :=
  | CallCapture (sequence : Z)
  | CallVerify (sequence : Z)
  | CallJudge (sequence : Z).

Definition evidence_call_sequence (c : evidence_call) : Z :=
  match c with CallCapture s | CallVerify s | CallJudge s => s end.

Definition evidence_step (c : evidence_call) : st EvidenceFrontiers Error unit :=
  match c with
  | CallCapture s => evidence_capture s
  | CallVerify s => evidence_verify s
  | CallJudge s => evidence_judge s
  end.

Definition evidence_run (calls : list evidence_call) (e : EvidenceFrontiers) : EvidenceFrontiers :=
  foldl (λ e c, (evidence_step c e).2) e calls.

(** What is judged was verified, and what is verified was captured. *)
Record evidence_wf (e : EvidenceFrontiers) : Prop := {
  ewf_captured : frontier_wf (e_captured e);
  ewf_verified : frontier_wf (e_verified e);
  ewf_judged : frontier_wf (e_judged e);
  ewf_verified_sub : ∀ s, frontier_contains (e_verified e) s = true →
    frontier_contains (e_captured e) s = true;
  ewf_judged_sub : ∀ s, frontier_contains (e_judged e) s = true →
    frontier_contains (e_verified e) s = true;
}.

(** A stage only ever gains the accepted number, errors included. *)
Lemma frontier_accept_grows f s r f' :
  frontier_wf f → is_u64 s → frontier_accept s f = (r, f') →
  frontier_wf f' ∧
  (∀ x, frontier_contains f x = true → frontier_contains f' x = true) ∧
  (∀ x, frontier_contains f' x = true → frontier_contains f x = true ∨ x = s).
Proof.
  intros Hwf Hs Hacc. destruct (frontier_accept_spec f s Hwf Hs)
    as (r' & f1 & Hacc' & Hwf1 & _ & _ & Hcase).
  rewrite Hacc in Hacc'. simplify_eq. split; [done|].
  destruct Hcase as [(-> & _ & ->)|[(-> & _ & _ & ->)|(-> & _ & _ & Hin)]];
    [naive_solver..|]. split; intros x; rewrite Hin; naive_solver.
Qed.

Lemma evidence_step_wf c e :
  is_u64 (evidence_call_sequence c) → evidence_wf e → evidence_wf (evidence_step c e).2.
Proof.
  intros Hs [Hc Hv Hj Hvc Hjv].
  destruct c as [s|s|s]; simpl in *;
    unfold evidence_capture, evidence_verify, evidence_judge; munfold_goal.
  - destruct (frontier_accept s (e_captured e)) as [r f'] eqn:E.
    destruct (frontier_accept_grows _ _ _ _ Hc Hs E) as (? & Hup & ?). split; simpl; auto.
  - destruct (frontier_contains (e_captured e) s) eqn:Hin; simpl; [|done].
    destruct (frontier_accept s (e_verified e)) as [r f'] eqn:E.
    destruct (frontier_accept_grows _ _ _ _ Hv Hs E) as (? & Hup & Hdown).
    split; simpl; auto. intros x [Hx| ->]%Hdown; auto.
  - destruct (frontier_contains (e_verified e) s) eqn:Hin; simpl; [|done].
    destruct (frontier_accept s (e_judged e)) as [r f'] eqn:E.
    destruct (frontier_accept_grows _ _ _ _ Hj Hs E) as (? & Hup & Hdown).
    split; simpl; auto. intros x [Hx| ->]%Hdown; auto.
Qed.

Lemma evidence_new_wf gap e : 0 ≤ gap → evidence_new gap = Ok e → evidence_wf e.
Proof.
  intros Hgap. unfold evidence_new. munfold_goal.
  destruct (frontier_new gap) as [f| |] eqn:E; intros; simplify_eq.
  apply frontier_new_wf in E; [|done]. by split.
Qed.

Lemma evidence_run_wf calls e :
  Forall (λ c, is_u64 (evidence_call_sequence c)) calls →
  evidence_wf e → evidence_wf (evidence_run calls e).
Proof.
  unfold evidence_run. intros Hall. revert e.
  induction Hall as [|c calls Hc _ IH]; intros e He; simpl; [done|].
  by apply IH, evidence_step_wf.
Qed.

(** ** Properties *)

(** For any series of [accept] calls on a new frontier, the
    frontier contains exactly the accepted numbers, [contiguous] is the length
    of the longest gap-free accepted prefix, and fewer than [max_gap] numbers
    are ever pending; a call is refused exactly when its number is zero or more
    than [max_gap] beyond the prefix, and a refused call changes nothing. *)
Theorem frontier_tracks_accepted (gap : Z) (f0 : Frontier) (seqs : list Z) :
  0 ≤ gap → frontier_new gap = Ok f0 → Forall is_u64 seqs →
  let '(oks, f) := frontier_run seqs f0 in
  (∀ s, frontier_contains f s = true ↔ s ∈ oks) ∧
  (∀ n, 0 ≤ n ≤ U64_MAX → n ≤ f_contiguous f ↔ ∀ i, 1 ≤ i ≤ n → i ∈ oks) ∧
  Z.of_nat (size (f_pending f)) < gap ∧
  (∀ s, is_u64 s →
    frontier_accept s f = (Err InvalidInput, f) ∧ s = 0 ∨
    frontier_accept s f = (Err Limit, f) ∧ gap < s - f_contiguous f ∨
    (frontier_accept s f).1 = Ok tt ∧ 0 < s ≤ f_contiguous f + gap).
Proof.
  intros Hgap Hnew Hall.
  pose proof (frontier_new_wf gap f0 Hgap Hnew) as Hwf0.
  assert (f_max_gap f0 = gap ∧ ∀ s, frontier_contains f0 s = true ↔ False) as [Hgap0 Hempty].
  { unfold frontier_new in Hnew. case_match; simplify_eq. split; [done|].
    intros s. rewrite frontier_contains_spec. simpl. set_solver by lia. }
  pose proof (frontier_run_spec seqs f0 Hwf0 Hall) as Hrun.
  destruct (frontier_run seqs f0) as [oks f]. destruct Hrun as (Hwf & Hg & Hin).
  assert (∀ s, frontier_contains f s = true ↔ s ∈ oks) as Hin'.
  { intros s. rewrite Hin, Hempty. tauto. }
  split_and!; [done| | |].
  - intros n Hn. rewrite (frontier_contiguous_maximal f n) by done.
    by setoid_rewrite Hin'.
  - rewrite <-Hgap0, <-Hg. by apply frontier_pending_bound.
  - intros s Hs. destruct (frontier_accept_spec f s Hwf Hs) as (r & f' & E & _ & _ & _ & Hcase).
    rewrite E. rewrite Hg, Hgap0 in Hcase. naive_solver lia.
Qed.

Lemma frontier_tracks_accepted_witness :
  let seqs := [3; 1; 9; 2; 0] in
  let '(oks, f) := frontier_run seqs (mkFrontier 0 ∅ 8) in
  oks = [3; 1; 9; 2] ∧ f_contiguous f = 3 ∧
  (∀ s, frontier_contains f s = true ↔ s ∈ oks).
Proof.
  pose proof (frontier_tracks_accepted 8 (mkFrontier 0 ∅ 8) [3; 1; 9; 2; 0]) as H.
  destruct (frontier_run _ _) as [oks f] eqn:E.
  assert ((oks, f) = ([3; 1; 9; 2], mkFrontier 3 {[9]} 8)) as E'.
  { rewrite <-E. vm_compute. reflexivity. }
  simplify_eq. split; [reflexivity|]. split; [reflexivity|].
  apply H; [lia|reflexivity|]. repeat constructor; unfold is_u64; lia.
Defined.

(** For any series of capture, verify and judge calls, if the
    judged frontier covers a closed scope then every number of that scope was
    captured, verified and judged: no stage can be skipped. *)
Theorem evidence_scope_passed_every_stage (gap : Z) (e0 : EvidenceFrontiers)
    (calls : list evidence_call) (last : Z) :
  0 ≤ gap → evidence_new gap = Ok e0 →
  Forall (λ c, is_u64 (evidence_call_sequence c)) calls →
  evidence_covers_closed_scope (evidence_run calls e0) last = true →
  ∀ i, 1 ≤ i ≤ last →
    frontier_contains (e_captured (evidence_run calls e0)) i = true ∧
    frontier_contains (e_verified (evidence_run calls e0)) i = true ∧
    frontier_contains (e_judged (evidence_run calls e0)) i = true.
Proof.
  intros Hgap Hnew Hall Hcov i Hi.
  destruct (evidence_run_wf calls e0 Hall (evidence_new_wf _ _ Hgap Hnew)) as [_ _ _ Hvc Hjv].
  unfold evidence_covers_closed_scope in Hcov. apply andb_true_iff in Hcov as [_ Hle].
  assert (frontier_contains (e_judged (evidence_run calls e0)) i = true) as Hj.
  { apply frontier_contains_spec. lia. }
  auto.
Qed.

Lemma evidence_scope_passed_every_stage_witness :
  let e0 := mkEvidence (mkFrontier 0 ∅ 4) (mkFrontier 0 ∅ 4) (mkFrontier 0 ∅ 4) in
  let calls := [CallVerify 1; CallCapture 2; CallCapture 1; CallVerify 1; CallJudge 2; CallJudge 1] in
  evidence_covers_closed_scope (evidence_run calls e0) 1 = true ∧
  frontier_contains (e_captured (evidence_run calls e0)) 1 = true.
Proof.
  intros e0 calls. split; [vm_compute; reflexivity|].
  apply (evidence_scope_passed_every_stage 4 e0 calls 1); [lia|reflexivity| |vm_compute; reflexivity|lia].
  repeat constructor; unfold is_u64; simpl; lia.
Defined.
