(* ===== verification/Rights.v ===== *)
(** * The rights ledger

    [Effect], [State], [Reservation] and [Rights] of
    [crates/fa-reference/src/logical_core.rs]: a budget of units, held by
    reservations that are dispatched at most once and settled by abort or
    reconciliation.  Methods on [&mut self] are [st Rights Error unit], so the
    state a refused call leaves behind is part of the model. *)

From stdpp Require Import base tactics numbers list gmap sets relations.
From S2P Require Import Prelude Bytes Judgment.

Local Open Scope Z_scope.

(** ** Model *)

Record Effect := mkEffect {
  ef_principal : bytes;
  ef_resolved_target : bytes;
  ef_payload : bytes;
  ef_units : Z;
}.

#[global] Instance Effect_eq_dec : EqDecision Effect.
Proof. solve_decision. Defined.

Inductive State := Reserved | Dispatched | Unknown | Committed | Aborted.

#[global] Instance State_eq_dec : EqDecision State.
Proof. solve_decision. Defined.

Record Reservation := mkReservation {
  rv_effect : Effect;
  rv_epoch : Z;
  rv_state : State;
}.

#[global] Instance Reservation_eq_dec : EqDecision Reservation.
Proof. solve_decision. Defined.

Record Rights := mkRights {
  r_total : Z;
  r_available : Z;
  r_spent : Z;
  r_epoch : Z;
  r_incident_count : Z;
  r_reservations : gmap Z Reservation;
}.

#[global] Instance Rights_eq_dec : EqDecision Rights.
Proof. solve_decision. Defined.

Definition set_state (s : State) (rv : Reservation) : Reservation :=
  mkReservation (rv_effect rv) (rv_epoch rv) s.
Definition set_available (a : Z) (r : Rights) : Rights :=
  mkRights (r_total r) a (r_spent r) (r_epoch r) (r_incident_count r) (r_reservations r).
Definition set_spent (s : Z) (r : Rights) : Rights :=
  mkRights (r_total r) (r_available r) s (r_epoch r) (r_incident_count r) (r_reservations r).
Definition set_epoch (e : Z) (r : Rights) : Rights :=
  mkRights (r_total r) (r_available r) (r_spent r) e (r_incident_count r) (r_reservations r).
Definition set_incident_count (n : Z) (r : Rights) : Rights :=
  mkRights (r_total r) (r_available r) (r_spent r) (r_epoch r) n (r_reservations r).
Definition set_reservations (m : gmap Z Reservation) (r : Rights) : Rights :=
  mkRights (r_total r) (r_available r) (r_spent r) (r_epoch r) (r_incident_count r) m.
(** Assignment through the reference that [get_mut(&id)] returned. *)
Definition set_reservation (id : Z) (rv : Reservation) (r : Rights) : Rights :=
  set_reservations (<[id := rv]> (r_reservations r)) r.

Definition rights_new (total : Z) : Rights := mkRights total total 0 0 0 ∅.

Definition rights_state (self : Rights) (id : Z) : res Error State :=
  ok_or (rv_state <$> r_reservations self !! id) Missing.

Definition rights_revoke_epoch : st Rights Error unit :=
  self ← get;
  epoch ← ok_or (u64_checked_add (r_epoch self) 1) Overflow;
  modify (set_epoch epoch).

Definition bytes_is_empty (b : bytes) : bool := match b with [] => true | _ => false end.

Definition rights_reserve (id : Z) (effect : Effect) : st Rights Error unit :=
  self ← get;
  refuse_if (bool_decide (is_Some (r_reservations self !! id))) Duplicate;;
  refuse_if ((ef_units effect =? 0) || bytes_is_empty (ef_principal effect)
             || bytes_is_empty (ef_resolved_target effect)) InvalidInput;;
  refuse_if (r_available self <? ef_units effect) Limit;;
  available ← lift (u64_sub (r_available self) (ef_units effect));
  modify (set_available available);;
  modify (set_reservation id (mkReservation effect (r_epoch self) Reserved)).

Definition rights_dispatch (id : Z) (effect : Effect) : st Rights Error unit :=
  self ← get;
  reservation ← ok_or (r_reservations self !! id) Missing;
  refuse_if (bool_decide (rv_state reservation ≠ Reserved)) WrongState;;
  refuse_if (negb (rv_epoch reservation =? r_epoch self)) Stale;;
  refuse_if (bool_decide (rv_effect reservation ≠ effect)) Binding;;
  modify (set_reservation id (set_state Dispatched reservation)).

Definition rights_mark_unknown (id : Z) : st Rights Error unit :=
  self ← get;
  reservation ← ok_or (r_reservations self !! id) Missing;
  refuse_if (bool_decide (rv_state reservation ≠ Dispatched)) WrongState;;
  modify (set_reservation id (set_state Unknown reservation)).

Definition rights_abort_before_dispatch (id : Z) : st Rights Error unit :=
  self ← get;
  reservation ← ok_or (r_reservations self !! id) Missing;
  refuse_if (bool_decide (rv_state reservation ≠ Reserved)) WrongState;;
  available ← ok_or (u64_checked_add (r_available self) (ef_units (rv_effect reservation))) Overflow;
  modify (set_available available);;
  modify (set_reservation id (set_state Aborted reservation)).

Definition rights_reconcile (id : Z) (occurred : bool) : st Rights Error unit :=
  self ← get;
  reservation ← ok_or (r_reservations self !! id) Missing;
  refuse_if (negb (bool_decide (rv_state reservation = Dispatched)
                   || bool_decide (rv_state reservation = Unknown))) WrongState;;
  if occurred then
    spent ← ok_or (u64_checked_add (r_spent self) (ef_units (rv_effect reservation))) Overflow;
    modify (set_spent spent);;
    modify (set_reservation id (set_state Committed reservation))
  else
    available ← ok_or (u64_checked_add (r_available self) (ef_units (rv_effect reservation))) Overflow;
    modify (set_available available);;
    modify (set_reservation id (set_state Aborted reservation)).

Definition state_held (s : State) : bool :=
  match s with Reserved | Dispatched | Unknown => true | Committed | Aborted => false end.

Definition rights_conserved (self : Rights) : bool :=
  let held := u64_try_sum 0
    ((λ rv, ef_units (rv_effect rv)) <$>
      filter (λ rv, state_held (rv_state rv) = true) (map_values (r_reservations self))) in
  bool_decide
    ((n ← held; n ← u64_checked_add n (r_available self); u64_checked_add n (r_spent self))
     = Some (r_total self)).

(** The reservations a containment reset aborts. *)
Definition reset_selects (keep : gset Z) (p : Z * Reservation) : Prop :=
  ¬ (p.1 ∈ keep) ∧ rv_state p.2 = Reserved.
#[global] Instance reset_selects_dec keep p : Decision (reset_selects keep p).
Proof. unfold reset_selects. apply _. Defined.

Definition rights_reset_to_checkpoint (keep : gset Z) : st Rights Error unit :=
  self ← get;
  refuse_if (negb (rights_conserved self)) WrongState;;
  refund ← ok_or (u64_try_sum 0
    ((λ p, ef_units (rv_effect p.2)) <$>
      filter (reset_selects keep) (entries (r_reservations self)))) Overflow;
  available ← ok_or (u64_checked_add (r_available self) refund) Overflow;
  incident_count ← ok_or (u64_checked_add (r_incident_count self) 1) Overflow;
  modify (set_reservations
    (map_imap (λ id rv,
       Some (if bool_decide (reset_selects keep (id, rv)) then set_state Aborted rv else rv))
       (r_reservations self)));;
  modify (set_available available);;
  modify (set_incident_count incident_count);;
  self ← get;
  refuse_if (negb (rights_conserved self)) WrongState.

(** ** Well-formed ledgers *)

Definition held_units (rv : Reservation) : Z :=
  if state_held (rv_state rv) then ef_units (rv_effect rv) else 0.
Definition committed_units (rv : Reservation) : Z :=
  match rv_state rv with Committed => ef_units (rv_effect rv) | _ => 0 end.

Definition rights_held (r : Rights) : Z := map_sum held_units (r_reservations r).
Definition rights_committed (r : Rights) : Z := map_sum committed_units (r_reservations r).

(** What the ledger admits as a reservation: a positive number of units within
    the budget, named parties, and an epoch that has been reached. *)
Record reservation_wf (r : Rights) (rv : Reservation) : Prop := {
  rvwf_units : 1 ≤ ef_units (rv_effect rv) ≤ r_total r;
  rvwf_principal : ef_principal (rv_effect rv) ≠ [];
  rvwf_target : ef_resolved_target (rv_effect rv) ≠ [];
  rvwf_epoch : 0 ≤ rv_epoch rv ≤ r_epoch r;
}.

Record rights_wf (r : Rights) : Prop := {
  rwf_total : is_u64 (r_total r);
  rwf_available : 0 ≤ r_available r;
  rwf_epoch : is_u64 (r_epoch r);
  rwf_incident : is_u64 (r_incident_count r);
  rwf_reservations : map_Forall (λ _ rv, reservation_wf r rv) (r_reservations r);
  rwf_spent : r_spent r = rights_committed r;
  rwf_sum : r_available r + rights_held r + rights_committed r = r_total r;
}.

Lemma held_units_nonneg r rv : reservation_wf r rv → 0 ≤ held_units rv.
Proof. intros [? _ _ _]. unfold held_units. case_match; lia. Qed.
Lemma committed_units_nonneg r rv : reservation_wf r rv → 0 ≤ committed_units rv.
Proof. intros [? _ _ _]. unfold committed_units. case_match; lia. Qed.
#[export] Hint Resolve held_units_nonneg committed_units_nonneg : fa.

Lemma rights_held_nonneg r : rights_wf r → 0 ≤ rights_held r.
Proof. intros Hwf. apply map_sum_nonneg. intros i x Hi. eapply held_units_nonneg, rwf_reservations, Hi. done. Qed.
Lemma rights_committed_nonneg r : rights_wf r → 0 ≤ rights_committed r.
Proof. intros Hwf. apply map_sum_nonneg. intros i x Hi. eapply committed_units_nonneg, rwf_reservations, Hi. done. Qed.

Lemma reservations_wf_mono r r' :
  r_total r' = r_total r → r_epoch r ≤ r_epoch r' →
  map_Forall (λ _ rv, reservation_wf r rv) (r_reservations r) →
  map_Forall (λ _ rv, reservation_wf r' rv) (r_reservations r).
Proof.
  intros Ht He Hall id rv Hid. destruct (Hall id rv Hid). split; [|done..|]; rewrite ?Ht; lia.
Qed.

(** The units of any held reservation are part of what is held. *)
Lemma rights_held_lookup r id rv :
  rights_wf r → r_reservations r !! id = Some rv → held_units rv ≤ rights_held r.
Proof.
  intros Hwf Hid. apply (map_sum_lookup_le held_units _ id); [|done].
  intros i x Hi. eapply held_units_nonneg, rwf_reservations, Hi. done.
Qed.

(** The conservation check of the code is the accounting equation. *)
Lemma rights_conserved_iff r :
  is_u64 (r_total r) → 0 ≤ r_available r → 0 ≤ r_spent r →
  map_Forall (λ _ rv, 0 ≤ ef_units (rv_effect rv)) (r_reservations r) →
  rights_conserved r = true ↔ rights_held r + r_available r + r_spent r = r_total r.
Proof.
  intros Ht Ha Hs Hall. unfold rights_conserved. rewrite bool_decide_eq_true.
  assert (Forall (λ z, 0 ≤ z) ((λ rv, ef_units (rv_effect rv)) <$>
    filter (λ rv, state_held (rv_state rv) = true) (map_values (r_reservations r)))) as Hnn.
  { apply Forall_fmap, Forall_filter_keep, (Forall_map_values (λ rv, 0 ≤ ef_units (rv_effect rv))), Hall. }
  rewrite u64_try_sum_eq by (done || lia).
  assert (sumZ ((λ rv, ef_units (rv_effect rv)) <$>
    filter (λ rv, state_held (rv_state rv) = true) (map_values (r_reservations r)))
    = rights_held r) as ->.
  { rewrite sumZ_filter_fmap. unfold rights_held, map_sum, map_values.
    rewrite <-list_fmap_compose, entries_perm. apply sumZ_fmap_ext. intros [i rv] _. simpl.
    unfold held_units. by destruct (state_held _). }
  assert (0 ≤ rights_held r).
  { apply map_sum_nonneg. intros i rv Hi. specialize (Hall i rv Hi). simpl in Hall.
    unfold held_units. case_match; lia. }
  unfold is_u64 in *. rewrite Z.add_0_l. unfold u64_checked_add.
  repeat (case_match; simpl); rewrite ?Z.leb_le, ?Z.leb_gt in *; split; intros; simplify_eq; try f_equal; lia.
Qed.

Lemma rights_wf_conserved r : rights_wf r → rights_conserved r = true.
Proof.
  intros Hwf. pose proof (rights_committed_nonneg r Hwf). destruct Hwf.
  apply rights_conserved_iff; [done|done|lia| |lia].
  intros i rv Hi. specialize (rwf_reservations0 i rv Hi). destruct rwf_reservations0. lia.
Qed.

(** ** Calls *)

(** The methods that change the ledger, with the arguments a caller can pass. *)
Inductive rights_call :=
  | CallReserve (id : Z) (effect : Effect)
  | CallDispatch (id : Z) (effect : Effect)
  | CallMarkUnknown (id : Z)
  | CallAbortBeforeDispatch (id : Z)
  | CallReconcile (id : Z) (occurred : bool)
  | CallRevokeEpoch
  | CallResetToCheckpoint (keep : gset Z).

Definition rights_step (c : rights_call) : st Rights Error unit :=
  match c with
  | CallReserve id effect => rights_reserve id effect
  | CallDispatch id effect => rights_dispatch id effect
  | CallMarkUnknown id => rights_mark_unknown id
  | CallAbortBeforeDispatch id => rights_abort_before_dispatch id
  | CallReconcile id occurred => rights_reconcile id occurred
  | CallRevokeEpoch => rights_revoke_epoch
  | CallResetToCheckpoint keep => rights_reset_to_checkpoint keep
  end.

(** The arguments are in the range of their machine type. *)
Definition rights_call_typed (c : rights_call) : Prop :=
  match c with CallReserve _ effect => is_u64 (ef_units effect) | _ => True end.

Definition rights_run (calls : list rights_call) (r : Rights) : Rights :=
  foldl (λ r c, (rights_step c r).2) r calls.

(** The state a ledger records for an identifier. *)
Definition state_of (r : Rights) (id : Z) : option State := rv_state <$> r_reservations r !! id.

(** What a successful call may do to one identifier. *)
Inductive life_step (id : Z) : rights_call → option State → option State → Prop :=
  | LifeSame c s : life_step id c s s
  | LifeReserve effect : life_step id (CallReserve id effect) None (Some Reserved)
  | LifeDispatch effect : life_step id (CallDispatch id effect) (Some Reserved) (Some Dispatched)
  | LifeUnknown : life_step id (CallMarkUnknown id) (Some Dispatched) (Some Unknown)
  | LifeAbort : life_step id (CallAbortBeforeDispatch id) (Some Reserved) (Some Aborted)
  | LifeReset keep : id ∉ keep →
      life_step id (CallResetToCheckpoint keep) (Some Reserved) (Some Aborted)
  | LifeCommit s : s = Dispatched ∨ s = Unknown →
      life_step id (CallReconcile id true) (Some s) (Some Committed)
  | LifeRefund s : s = Dispatched ∨ s = Unknown →
      life_step id (CallReconcile id false) (Some s) (Some Aborted).
#[export] Hint Constructors life_step : fa.

(** ** One settlement step

    All the methods that settle an existing reservation replace its state and
    move its units between the three accounts; this lemma carries the
    accounting for every one of them. *)
Lemma rights_wf_settle r id rv s available spent :
  rights_wf r → r_reservations r !! id = Some rv → 0 ≤ available →
  spent = rights_committed r - committed_units rv + committed_units (set_state s rv) →
  available + (rights_held r - held_units rv + held_units (set_state s rv)) + spent = r_total r →
  rights_wf (mkRights (r_total r) available spent (r_epoch r) (r_incident_count r)
    (<[id := set_state s rv]> (r_reservations r))).
Proof.
  intros [Ht _ He Hi Hall _ _] Hid Ha Hsp Hsum.
  split; simpl; [done..| | |]; unfold rights_held, rights_committed in *; simpl.
  - apply map_Forall_insert_2.
    + destruct (Hall id rv Hid) as [Hu Hp Htg Hep]. by split.
    + by apply (reservations_wf_mono r).
  - by rewrite (map_sum_update _ _ _ _ rv).
  - rewrite !(map_sum_update _ _ _ _ rv) by done. lia.
Qed.

Lemma state_of_update r id rv s a sp id' :
  r_reservations r !! id = Some rv →
  state_of (mkRights (r_total r) a sp (r_epoch r) (r_incident_count r)
    (<[id := set_state s rv]> (r_reservations r))) id' =
  if decide (id = id') then Some s else state_of r id'.
Proof.
  intros Hid. unfold state_of. simpl. destruct (decide (id = id')) as [<-|].
  - by rewrite lookup_insert_eq.
  - by rewrite lookup_insert_ne.
Qed.

(** What every call guarantees on a well-formed ledger. *)
Record call_sound (c : rights_call) (r : Rights) (out : res Error unit) (r' : Rights) : Prop := {
  cs_wf : rights_wf r';
  cs_no_panic : out ≠ Panic;
  cs_atomic : ∀ e, out = Err e → r' = r;
  cs_overflow : out = Err Overflow →
    (c = CallRevokeEpoch ∧ r_epoch r = U64_MAX) ∨
    (∃ keep, c = CallResetToCheckpoint keep ∧ r_incident_count r = U64_MAX);
  cs_total : r_total r' = r_total r;
  cs_epoch : r_epoch r ≤ r_epoch r';
  cs_incident : r_incident_count r ≤ r_incident_count r';
  cs_spent : r_spent r ≤ r_spent r';
  cs_life : ∀ id, life_step id c (state_of r id) (state_of r' id);
}.

Lemma call_refused c r e :
  rights_wf r →
  (e = Overflow → (c = CallRevokeEpoch ∧ r_epoch r = U64_MAX) ∨
    (∃ keep, c = CallResetToCheckpoint keep ∧ r_incident_count r = U64_MAX)) →
  call_sound c r (Err e) r.
Proof. intros Hwf Hov. split; try done; try lia; [naive_solver|]. constructor. Qed.

(** A refusal for any reason but exhaustion. *)
Ltac refused := apply call_refused; [done|intros; discriminate].

Lemma rights_reserve_sound id effect r :
  rights_wf r → is_u64 (ef_units effect) →
  let '(out, r') := rights_reserve id effect r in
  call_sound (CallReserve id effect) r out r'.
Proof.
  intros Hwf Hu. unfold rights_reserve, u64_sub. munfold_goal.
  case_bool_decide as Hid; [refused|].
  apply eq_None_not_Some in Hid.
  destruct (_ || _) eqn:Hempty; [refused|].
  apply orb_false_iff in Hempty as [[Hz Hp]%orb_false_iff Ht]. apply Z.eqb_neq in Hz.
  destruct (Z.ltb_spec (r_available r) (ef_units effect)); [refused|].
  destruct (Z.leb_spec (ef_units effect) (r_available r)); [|lia].
  pose proof (rights_held_nonneg r Hwf). pose proof (rights_committed_nonneg r Hwf).
  destruct Hwf as [Ht' Ha He Hi Hall Hsp Hsum]. unfold is_u64 in Hu.
  assert (reservation_wf r (mkReservation effect (r_epoch r) Reserved)) as Hrv.
  { split; simpl; [lia| | |unfold is_u64 in *; lia].
    - by destruct (ef_principal effect).
    - by destruct (ef_resolved_target effect). }
  split; simpl; try done; try lia.
  - split; simpl; [done|lia|done|done| | |]; unfold rights_held, rights_committed in *; simpl.
    + apply map_Forall_insert_2; [by destruct Hrv|]. by apply (reservations_wf_mono r).
    + by rewrite map_sum_insert.
    + rewrite !map_sum_insert by done. unfold held_units at 1, committed_units at 1. simpl. lia.
  - intros id'. unfold state_of. simpl. destruct (decide (id = id')) as [<-|].
    + rewrite lookup_insert_eq, Hid. simpl. constructor.
    + rewrite lookup_insert_ne by done. constructor.
Qed.

(** The common part of the four methods that settle one reservation. *)
Lemma settle_sound c r id rv s available spent :
  rights_wf r → r_reservations r !! id = Some rv →
  0 ≤ available → r_spent r ≤ spent →
  spent = rights_committed r - committed_units rv + committed_units (set_state s rv) →
  available + (rights_held r - held_units rv + held_units (set_state s rv)) + spent = r_total r →
  life_step id c (Some (rv_state rv)) (Some s) →
  call_sound c r (Ok tt)
    (mkRights (r_total r) available spent (r_epoch r) (r_incident_count r)
      (<[id := set_state s rv]> (r_reservations r))).
Proof.
  intros Hwf Hid Ha Hle Hsp Hsum Hlife. split; simpl; try done; try lia.
  - by apply rights_wf_settle.
  - intros id'. rewrite state_of_update by done. case_decide as Heq; [|constructor].
    subst id'. unfold state_of. by rewrite Hid.
Qed.

Ltac settle_by rv :=
  match goal with Hid : r_reservations _ !! _ = Some rv |- _ =>
    cbv beta delta [set_reservation set_reservations set_available set_spent];
    cbn [r_total r_available r_spent r_epoch r_incident_count r_reservations];
    eapply (settle_sound _ _ _ rv); [done|exact Hid|..] end;
  unfold held_units, committed_units, set_state; simpl.

Lemma rights_dispatch_sound id effect r :
  rights_wf r →
  let '(out, r') := rights_dispatch id effect r in
  call_sound (CallDispatch id effect) r out r'.
Proof.
  intros Hwf. unfold rights_dispatch. munfold_goal.
  destruct (r_reservations r !! id) as [rv|] eqn:Hid; [|refused].
  case_bool_decide as Hs; [refused|].
  destruct (Z.eqb_spec (rv_epoch rv) (r_epoch r)); simpl; [|refused].
  case_bool_decide; [refused|].
  pose proof Hwf as [_ Ha _ _ _ Hsp Hsum]. settle_by rv; rewrite ?Hs; simpl; try lia. constructor.
Qed.

Lemma rights_mark_unknown_sound id r :
  rights_wf r →
  let '(out, r') := rights_mark_unknown id r in call_sound (CallMarkUnknown id) r out r'.
Proof.
  intros Hwf. unfold rights_mark_unknown. munfold_goal.
  destruct (r_reservations r !! id) as [rv|] eqn:Hid; [|refused].
  case_bool_decide as Hs; [refused|].
  pose proof Hwf as [_ Ha _ _ _ Hsp Hsum]. settle_by rv; rewrite ?Hs; simpl; try lia. constructor.
Qed.

(** Refunding or committing the units of a held reservation cannot overflow. *)
Lemma held_fits r id rv :
  rights_wf r → r_reservations r !! id = Some rv → state_held (rv_state rv) = true →
  1 ≤ ef_units (rv_effect rv) ∧
  r_available r + ef_units (rv_effect rv) ≤ U64_MAX ∧ r_spent r + ef_units (rv_effect rv) ≤ U64_MAX.
Proof.
  intros Hwf Hid Hheld. pose proof (rights_held_lookup r id rv Hwf Hid) as Hle.
  pose proof (rights_committed_nonneg r Hwf).
  destruct Hwf as [Ht Ha _ _ Hall Hsp Hsum]. destruct (Hall id rv Hid) as [Hu _ _ _].
  unfold held_units in Hle. rewrite Hheld in Hle. unfold is_u64 in *. lia.
Qed.

Lemma rights_abort_sound id r :
  rights_wf r →
  let '(out, r') := rights_abort_before_dispatch id r in
  call_sound (CallAbortBeforeDispatch id) r out r'.
Proof.
  intros Hwf. unfold rights_abort_before_dispatch. munfold_goal.
  destruct (r_reservations r !! id) as [rv|] eqn:Hid; [|refused].
  case_bool_decide as Hs; [refused|].
  destruct (held_fits r id rv Hwf Hid) as (Hu & Hav & _); [by rewrite Hs|].
  rewrite u64_checked_add_fits by done.
  pose proof Hwf as [_ Ha _ _ _ Hsp Hsum]. settle_by rv; rewrite ?Hs; simpl; try lia. constructor.
Qed.

Lemma rights_reconcile_sound id occurred r :
  rights_wf r →
  let '(out, r') := rights_reconcile id occurred r in
  call_sound (CallReconcile id occurred) r out r'.
Proof.
  intros Hwf. unfold rights_reconcile. munfold_goal.
  destruct (r_reservations r !! id) as [rv|] eqn:Hid; [|refused].
  destruct (negb _) eqn:Hneg; [refused|].
  assert (rv_state rv = Dispatched ∨ rv_state rv = Unknown) as Hs.
  { apply negb_false_iff, orb_true_iff in Hneg. rewrite !bool_decide_eq_true in Hneg. done. }
  assert (state_held (rv_state rv) = true) as Hheld by (by destruct Hs as [-> | ->]).
  destruct (held_fits r id rv Hwf Hid Hheld) as (Hu & Hav & Hsp').
  pose proof Hwf as [_ Ha _ _ _ Hsp Hsum].
  assert (committed_units rv = 0) as Hc0.
  { unfold committed_units. by destruct Hs as [-> | ->]. }
  assert (held_units rv = ef_units (rv_effect rv)) as Hh.
  { unfold held_units. by rewrite Hheld. }
  destruct occurred; rewrite u64_checked_add_fits by done;
    settle_by rv; unfold committed_units, held_units in Hc0, Hh; rewrite ?Hc0, ?Hh; simpl; try lia;
    by constructor.
Qed.

Lemma rights_revoke_epoch_sound r :
  rights_wf r →
  let '(out, r') := rights_revoke_epoch r in call_sound CallRevokeEpoch r out r'.
Proof.
  intros Hwf. unfold rights_revoke_epoch, u64_checked_add. munfold_goal.
  destruct (Z.leb_spec (r_epoch r + 1) U64_MAX); simpl.
  - destruct Hwf as [Ht Ha He Hi Hall Hsp Hsum]. unfold is_u64 in *.
    split; simpl; try done; try lia; [|constructor].
    split; simpl; try done; [unfold is_u64; lia|].
    apply (reservations_wf_mono r); simpl; [done|lia|done].
  - apply call_refused; [done|]. intros _. left. split; [done|].
    destruct Hwf as [_ _ He _ _ _ _]. unfold is_u64 in He. lia.
Qed.

(** ** Reset *)

Definition reset_reservation (keep : gset Z) (id : Z) (rv : Reservation) : Reservation :=
  if bool_decide (reset_selects keep (id, rv)) then set_state Aborted rv else rv.

Definition reset_refund (keep : gset Z) (r : Rights) : Z :=
  sumZ ((λ p, ef_units (rv_effect p.2)) <$>
    filter (reset_selects keep) (entries (r_reservations r))).

Definition reset_result (keep : gset Z) (r : Rights) : Rights :=
  mkRights (r_total r) (r_available r + reset_refund keep r) (r_spent r) (r_epoch r)
    (r_incident_count r + 1)
    (map_imap (λ id rv, Some (reset_reservation keep id rv)) (r_reservations r)).

(** A reset moves the selected units from held to available and commits none. *)
Lemma reset_sums keep r :
  rights_held (reset_result keep r) = rights_held r - reset_refund keep r ∧
  rights_committed (reset_result keep r) = rights_committed r.
Proof.
  unfold rights_held, rights_committed, reset_refund, reset_result. simpl.
  rewrite !map_sum_imap, sumZ_filter_fmap, entries_perm. unfold map_sum. split.
  - apply Z.add_move_r. rewrite <-sumZ_fmap_add. apply sumZ_fmap_ext. intros [id rv] _. simpl.
    unfold reset_reservation. case_bool_decide as Hsel; case_decide; try done; [|lia].
    destruct Hsel as [_ Hs]. unfold held_units, set_state. simpl in *. by rewrite Hs.
  - apply sumZ_fmap_ext. intros [id rv] _. simpl.
    unfold reset_reservation. case_bool_decide as Hsel; [|done].
    destruct Hsel as [_ Hs]. unfold committed_units. simpl in *. by rewrite Hs.
Qed.

Lemma reset_refund_bounds keep r : rights_wf r → 0 ≤ reset_refund keep r ≤ rights_held r.
Proof.
  intros Hwf. unfold reset_refund, rights_held, map_sum.
  rewrite sumZ_filter_fmap, entries_perm.
  set (l := map_to_list (r_reservations r)).
  assert (∀ p, p ∈ l → 1 ≤ ef_units (rv_effect p.2)) as Hunits.
  { intros [id rv] Hin%elem_of_map_to_list. destruct (rwf_reservations r Hwf id rv Hin). simpl. lia. }
  clearbody l. induction l as [|[id rv] l IH]; csimpl; [lia|].
  assert (1 ≤ ef_units (rv_effect rv)) by (by apply (Hunits (id, rv)); left).
  destruct IH as [? ?]; [intros; apply Hunits; by right|].
  unfold held_units at 1. case_decide as Hsel.
  - destruct Hsel as [_ Hs]. simpl in Hs. rewrite Hs. simpl. lia.
  - case_match; lia.
Qed.

Lemma reset_result_wf keep r :
  rights_wf r → r_incident_count r + 1 ≤ U64_MAX → rights_wf (reset_result keep r).
Proof.
  intros Hwf Hinc. pose proof (reset_refund_bounds keep r Hwf).
  destruct (reset_sums keep r) as [Hheld Hcom].
  destruct Hwf as [Ht Ha He Hi Hall Hsp Hsum]. unfold is_u64 in *.
  split; simpl; try done; try (unfold is_u64; lia).
  intros id rv'. rewrite map_lookup_imap. intros (rv & Hid & [= <-])%bind_Some.
  destruct (Hall id rv Hid). unfold reset_reservation. case_bool_decide; by split.
Qed.

(** On a well-formed ledger a reset succeeds unless the incident counter is
    exhausted, and then does exactly what [reset_result] says. *)
Lemma rights_reset_eq keep r :
  rights_wf r →
  rights_reset_to_checkpoint keep r =
    if r_incident_count r + 1 <=? U64_MAX then (Ok tt, reset_result keep r)
    else (Err Overflow, r).
Proof.
  intros Hwf. unfold rights_reset_to_checkpoint. munfold_goal.
  rewrite (rights_wf_conserved r Hwf). simpl.
  pose proof (reset_refund_bounds keep r Hwf). pose proof (rights_committed_nonneg r Hwf).
  pose proof Hwf as [Ht Ha _ _ Hall Hsp Hsum]. unfold is_u64 in Ht.
  assert (Forall (λ z, 0 ≤ z) ((λ p, ef_units (rv_effect p.2)) <$>
    filter (reset_selects keep) (entries (r_reservations r)))) as Hnn.
  { apply Forall_fmap, Forall_filter_keep, Forall_forall. intros [id rv] Hin%elem_of_entries.
    simpl. destruct (Hall id rv Hin). lia. }
  rewrite u64_try_sum_eq by (done || lia). fold (reset_refund keep r). rewrite Z.add_0_l.
  destruct (Z.leb_spec (reset_refund keep r) U64_MAX); [|lia].
  rewrite u64_checked_add_fits by lia. unfold u64_checked_add.
  destruct (Z.leb_spec (r_incident_count r + 1) U64_MAX); [|done].
  match goal with |- context [rights_conserved ?r'] => change r' with (reset_result keep r) end.
  by rewrite (rights_wf_conserved _ (reset_result_wf keep r Hwf ltac:(done))).
Qed.

Lemma rights_reset_sound keep r :
  rights_wf r →
  let '(out, r') := rights_reset_to_checkpoint keep r in
  call_sound (CallResetToCheckpoint keep) r out r'.
Proof.
  intros Hwf. rewrite rights_reset_eq by done.
  destruct (Z.leb_spec (r_incident_count r + 1) U64_MAX).
  - split; try done; simpl; try lia; [by apply reset_result_wf|].
    intros id. unfold state_of, reset_result. simpl. rewrite map_lookup_imap.
    destruct (r_reservations r !! id) as [rv|]; simpl; [|constructor].
    unfold reset_reservation. case_bool_decide as Hsel; [|constructor].
    destruct Hsel as [Hk Hs]. simpl in *. rewrite Hs. by constructor.
  - apply call_refused; [done|]. intros _. right. exists keep. split; [done|].
    destruct Hwf as [_ _ _ Hi _ _ _]. unfold is_u64 in Hi. lia.
Qed.

(** ** Every call, every run *)

Lemma rights_step_sound c r :
  rights_wf r → rights_call_typed c →
  let '(out, r') := rights_step c r in call_sound c r out r'.
Proof.
  intros Hwf Hty. destruct c; simpl in *.
  - by apply rights_reserve_sound.
  - by apply rights_dispatch_sound.
  - by apply rights_mark_unknown_sound.
  - by apply rights_abort_sound.
  - by apply rights_reconcile_sound.
  - by apply rights_revoke_epoch_sound.
  - by apply rights_reset_sound.
Qed.

Lemma rights_new_wf total : is_u64 total → rights_wf (rights_new total).
Proof.
  intros Ht. unfold is_u64 in *. split; simpl; try (unfold is_u64; lia); try done.
  unfold rights_held, rights_committed. simpl. rewrite !map_sum_empty. lia.
Qed.

Lemma rights_run_wf calls r :
  rights_wf r → Forall rights_call_typed calls → rights_wf (rights_run calls r).
Proof.
  unfold rights_run. intros Hwf Hall. revert r Hwf.
  induction Hall as [|c calls Hc _ IH]; intros r Hwf; simpl; [done|].
  apply IH. pose proof (rights_step_sound c r Hwf Hc) as Hs.
  destruct (rights_step c r). by destruct Hs.
Qed.

(** Where a call leaves a reservation, it was there before with the same effect
    and epoch, or the call reserved it. *)
Lemma rights_step_origin c r id rv' :
  rights_wf r → r_reservations (rights_step c r).2 !! id = Some rv' →
  (∃ rv, r_reservations r !! id = Some rv ∧ rv_effect rv = rv_effect rv' ∧ rv_epoch rv = rv_epoch rv') ∨
  (c = CallReserve id (rv_effect rv') ∧ (rights_step c r).1 = Ok tt ∧ rv_epoch rv' = r_epoch r).
Proof.
  intros Hwf. destruct c as [id' e|id' e|id'|id'|id' occ| |keep]; simpl.
  6: { unfold rights_revoke_epoch. munfold_goal. split_match; eauto 10. }
  6: { rewrite rights_reset_eq by done. split_match; [|by eauto 10].
       rewrite map_lookup_imap. intros (rv & Hid & [= <-])%bind_Some. left. exists rv.
       unfold reset_reservation. by case_bool_decide. }
  all: unfold rights_reserve, rights_dispatch, rights_mark_unknown, rights_abort_before_dispatch,
    rights_reconcile, u64_sub; munfold_goal; repeat split_match; try by eauto 10.
  all: destruct (decide (id' = id)) as [->|];
    [rewrite lookup_insert_eq; intros [= <-]; simpl; eauto 10|rewrite lookup_insert_ne by done; eauto 10].
Qed.

(** Every reservation a run leaves behind goes back to one successful reserve. *)
Lemma rights_reservation_origin total calls id rv :
  is_u64 total → Forall rights_call_typed calls →
  r_reservations (rights_run calls (rights_new total)) !! id = Some rv →
  ∃ pre post, calls = pre ++ CallReserve id (rv_effect rv) :: post ∧
    (rights_step (CallReserve id (rv_effect rv)) (rights_run pre (rights_new total))).1 = Ok tt ∧
    rv_epoch rv = r_epoch (rights_run pre (rights_new total)).
Proof.
  intros Ht. revert rv. induction calls as [|c calls IH] using rev_ind; intros rv Hall Hid.
  { unfold rights_run in Hid. simpl in Hid. by rewrite lookup_empty in Hid. }
  apply Forall_app in Hall as [Hall Hc%Forall_singleton].
  unfold rights_run in Hid. rewrite foldl_app in Hid. simpl in Hid. fold (rights_run calls) in Hid.
  apply rights_step_origin in Hid as [(rv0 & Hid & Heff & Hep)|(-> & Hok & Hep)].
  - destruct (IH rv0 Hall Hid) as (pre & post & -> & Hres & Hpre).
    exists pre, (post ++ [c]). rewrite <-Heff, <-Hep. split; [by rewrite <-app_assoc|done].
  - exists calls, []. done.
  - by apply rights_run_wf; [apply rights_new_wf|].
Qed.

(** Successful dispatches of one identifier in a run. *)
Fixpoint dispatches (id : Z) (calls : list rights_call) (r : Rights) : nat :=
  match calls with
  | [] => 0%nat
  | c :: calls =>
    let '(out, r') := rights_step c r in
    ((match c with
      | CallDispatch id' _ => if bool_decide (id' = id) && is_ok out then 1 else 0
      | _ => 0
      end) + dispatches id calls r')%nat
  end.

(** An identifier past the point of dispatch. *)
Definition undispatched (s : option State) : bool :=
  match s with None | Some Reserved => true | _ => false end.

Lemma life_step_undispatched id c s s' :
  life_step id c s s' → undispatched s' = true → undispatched s = true.
Proof. destruct 1; simpl; try done. Qed.

Lemma rights_dispatch_ok id effect r r' :
  rights_dispatch id effect r = (Ok tt, r') →
  ∃ rv, r_reservations r !! id = Some rv ∧ rv_state rv = Reserved ∧
    rv_epoch rv = r_epoch r ∧ rv_effect rv = effect ∧
    r' = set_reservation id (set_state Dispatched rv) r.
Proof.
  unfold rights_dispatch. munfold_goal.
  destruct (r_reservations r !! id) as [rv|]; [|done].
  case_bool_decide as Hs; [done|].
  destruct (Z.eqb_spec (rv_epoch rv) (r_epoch r)); simpl; [|done].
  case_bool_decide; [done|]. intros [= <-]. eauto 10.
Qed.

Lemma dispatches_le id calls r :
  rights_wf r → Forall rights_call_typed calls →
  (dispatches id calls r ≤ if undispatched (state_of r id) then 1 else 0)%nat.
Proof.
  intros Hwf Hall. revert r Hwf.
  induction Hall as [|c calls Hc _ IH]; intros r Hwf; simpl; [lia|].
  pose proof (rights_step_sound c r Hwf Hc) as Hs.
  destruct (rights_step c r) as [out r'] eqn:E. destruct Hs as [Hwf' _ _ _ _ _ _ _ Hlife].
  specialize (IH r' Hwf'). specialize (Hlife id).
  assert (dispatches id calls r' ≤ if undispatched (state_of r id) then 1 else 0)%nat as Hle.
  { destruct (undispatched (state_of r' id)) eqn:Hu; [|lia].
    by rewrite (life_step_undispatched id c (state_of r id) (state_of r' id)). }
  destruct c as [| id' effect | | | | |]; simpl; try done.
  case_bool_decide as Hid; [|done]. subst id'. destruct out as [[]| |]; simpl; try done.
  apply rights_dispatch_ok in E as (rv & Hrv & Hst & _ & _ & ->).
  unfold state_of in *. rewrite Hrv in *. simpl in *. rewrite Hst in *. simpl in *.
  rewrite lookup_insert_eq in IH. simpl in IH. lia.
Qed.

(** ** Properties *)

(** C3: after any series of calls on a new ledger, whatever they
    returned, the ledger's own conservation check holds, every unit of the
    budget is available, held by a reserved, dispatched or unknown effect, or
    spent, and what is spent is exactly the units of the committed effects. *)
Theorem rights_conserved_always (total : Z) (calls : list rights_call) :
  is_u64 total → Forall rights_call_typed calls →
  let r := rights_run calls (rights_new total) in
  rights_conserved r = true ∧ r_total r = total ∧
  r_available r + rights_held r + r_spent r = total ∧
  r_spent r = rights_committed r ∧ 0 ≤ r_available r ∧ 0 ≤ rights_held r ∧ 0 ≤ r_spent r.
Proof.
  intros Ht Hall r.
  pose proof (rights_run_wf calls _ (rights_new_wf total Ht) Hall) as Hwf. fold r in Hwf.
  assert (r_total r = total) as Htot.
  { unfold r, rights_run. clear Hwf. pose proof (rights_new_wf total Ht) as Hwf.
    change total with (r_total (rights_new total)) at 2. revert Hwf. generalize (rights_new total).
    induction Hall as [|c calls Hc _ IH]; intros r0 Hwf0; simpl; [done|].
    pose proof (rights_step_sound c r0 Hwf0 Hc) as Hs.
    destruct (rights_step c r0). destruct Hs. simpl. by rewrite IH. }
  pose proof (rights_held_nonneg r Hwf). pose proof (rights_committed_nonneg r Hwf).
  split; [by apply rights_wf_conserved|]. destruct Hwf. split_and!; lia || done.
Qed.

Definition example_effect : Effect := mkEffect (ascii_bytes "actor") (ascii_bytes "object:7") [] 3.

Lemma rights_conserved_always_witness :
  let calls := [CallReserve 1 example_effect; CallReserve 2 example_effect;
                CallDispatch 1 example_effect; CallMarkUnknown 1; CallRevokeEpoch;
                CallDispatch 2 example_effect; CallReconcile 1 true; CallResetToCheckpoint ∅] in
  rights_conserved (rights_run calls (rights_new 10)) = true ∧
  r_available (rights_run calls (rights_new 10)) = 7.
Proof.
  intros calls. split; [|vm_compute; reflexivity].
  apply (rights_conserved_always 10 calls); [unfold is_u64; lia|].
  repeat constructor; vm_compute; discriminate.
Defined.

(** On every ledger a series of calls can reach, a refused call
    leaves the ledger exactly as it was, no call panics, and the only way a
    call can report an overflow is an exhausted epoch or incident counter:
    refunds and commits never overflow. *)
Theorem rights_refusals_change_nothing (total : Z) (calls : list rights_call) (c : rights_call) :
  is_u64 total → Forall rights_call_typed calls → rights_call_typed c →
  let r := rights_run calls (rights_new total) in
  (rights_step c r).1 ≠ Panic ∧
  (∀ e, (rights_step c r).1 = Err e → (rights_step c r).2 = r) ∧
  ((rights_step c r).1 = Err Overflow →
     c = CallRevokeEpoch ∧ r_epoch r = U64_MAX ∨
     (∃ keep, c = CallResetToCheckpoint keep) ∧ r_incident_count r = U64_MAX).
Proof.
  intros Ht Hall Hc r.
  pose proof (rights_run_wf calls _ (rights_new_wf total Ht) Hall) as Hwf. fold r in Hwf.
  pose proof (rights_step_sound c r Hwf Hc) as Hs. destruct (rights_step c r) as [out r'].
  destruct Hs as [_ Hnp Hat Hov _ _ _ _ _]. simpl. split_and!; [done|done|].
  intros [|(keep & -> & ?)]%Hov; [by left|right; eauto].
Qed.

Lemma rights_refusals_change_nothing_witness :
  let calls := [CallReserve 1 example_effect] in
  let r := rights_run calls (rights_new 3) in
  (rights_step (CallReserve 2 example_effect) r).1 = Err Limit ∧
  (rights_step (CallReserve 2 example_effect) r).2 = r.
Proof.
  intros calls r. split; [vm_compute; reflexivity|].
  apply (rights_refusals_change_nothing 3 calls (CallReserve 2 example_effect)) with (e := Limit);
    [unfold is_u64; lia| |split; vm_compute; discriminate|vm_compute; reflexivity].
  repeat constructor; vm_compute; discriminate.
Defined.

(** C21: on every reachable ledger each call moves each identifier by
    at most one edge of the state machine reserve, dispatch, unknown, settle
    and only the edge of that call, epochs, incidents and spent units only
    grow, and along a whole run one identifier is dispatched at most once,
    resets, revocations and refunds included. *)
Theorem rights_lifecycle_one_shot (total : Z) (calls : list rights_call) (c : rights_call) (id : Z) :
  is_u64 total → Forall rights_call_typed calls → rights_call_typed c →
  let r := rights_run calls (rights_new total) in
  let r' := (rights_step c r).2 in
  life_step id c (state_of r id) (state_of r' id) ∧
  r_epoch r ≤ r_epoch r' ∧ r_incident_count r ≤ r_incident_count r' ∧ r_spent r ≤ r_spent r' ∧
  (dispatches id calls (rights_new total) ≤ 1)%nat.
Proof.
  intros Ht Hall Hc r r'.
  pose proof (rights_run_wf calls _ (rights_new_wf total Ht) Hall) as Hwf. fold r in Hwf.
  pose proof (rights_step_sound c r Hwf Hc) as Hs. unfold r'.
  destruct (rights_step c r) as [out r1]. destruct Hs. simpl. split_and!; try done.
  by apply (dispatches_le id calls (rights_new total) (rights_new_wf total Ht)).
Qed.

Lemma rights_lifecycle_one_shot_witness :
  let calls := [CallReserve 1 example_effect; CallDispatch 1 example_effect] in
  let r := rights_run calls (rights_new 10) in
  life_step 1 (CallReconcile 1 false) (state_of r 1)
    (state_of (rights_step (CallReconcile 1 false) r).2 1) ∧
  dispatches 1 (calls ++ [CallDispatch 1 example_effect]) (rights_new 10) = 1%nat.
Proof.
  intros calls r. split; [|vm_compute; reflexivity].
  apply (rights_lifecycle_one_shot 10 calls (CallReconcile 1 false) 1);
    [unfold is_u64; lia| |exact I].
  repeat constructor; vm_compute; discriminate.
Defined.

(** When [Rights::dispatch] succeeds after any series of calls, the
    series holds a successful [reserve] of the same identifier for the very
    same effect, byte for byte, and no epoch was revoked between the two. *)
Theorem rights_dispatch_bound_to_reserve (total : Z) (calls : list rights_call) (id : Z) (effect : Effect) :
  is_u64 total → Forall rights_call_typed calls →
  (rights_step (CallDispatch id effect) (rights_run calls (rights_new total))).1 = Ok tt →
  ∃ pre post,
    calls = pre ++ CallReserve id effect :: post ∧
    (rights_step (CallReserve id effect) (rights_run pre (rights_new total))).1 = Ok tt ∧
    r_epoch (rights_run pre (rights_new total)) = r_epoch (rights_run calls (rights_new total)).
Proof.
  intros Ht Hall Hok. simpl in Hok.
  destruct (rights_dispatch id effect _) as [out r'] eqn:E. simpl in Hok. subst out.
  apply rights_dispatch_ok in E as (rv & Hrv & _ & Hep & <- & _).
  destruct (rights_reservation_origin total calls id rv Ht Hall Hrv) as (pre & post & -> & Hres & Hpre).
  exists pre, post. split_and!; [done|done|congruence].
Qed.

Lemma rights_dispatch_bound_to_reserve_witness :
  let calls := [CallReserve 1 example_effect; CallResetToCheckpoint {[1]}] in
  (rights_step (CallDispatch 1 example_effect) (rights_run calls (rights_new 3))).1 = Ok tt ∧
  ∃ pre post, calls = pre ++ CallReserve 1 example_effect :: post.
Proof.
  intros calls. split; [vm_compute; reflexivity|].
  destruct (rights_dispatch_bound_to_reserve 3 calls 1 example_effect) as (pre & post & E & _);
    [unfold is_u64; lia| |vm_compute; reflexivity|by exists pre, post].
  repeat constructor; vm_compute; discriminate.
Defined.
