(* ===== verification/Graph.v ===== *)
(** * Operation independence and the bounded authority graph

    [Operation], [independent] and [Graph] of
    [crates/fa-reference/src/logical_core.rs].  The graph is the bounded
    reachability oracle behind dominator and cut claims; its breadth-first
    search is proved to compute exactly the nodes that a path of the declared
    edges reaches without entering a blocked node. *)

From stdpp Require Import base tactics numbers list gmap sets sorting relations.
From S2P Require Import Prelude Judgment.

(** ** Independence of operations *)

Record Operation := mkOperation {
  op_reads : gset Z;
  op_writes : gset Z;
  op_consuming_resources : gset Z;
  op_external_or_ordered : bool;
}.

Definition is_disjoint (a b : gset Z) : bool := bool_decide (a ∩ b = ∅).

Definition independent (a b : Operation) : bool :=
  negb (op_external_or_ordered a)
  && negb (op_external_or_ordered b)
  && is_disjoint (op_writes a) (op_writes b)
  && is_disjoint (op_writes a) (op_reads b)
  && is_disjoint (op_writes b) (op_reads a)
  && is_disjoint (op_consuming_resources a) (op_consuming_resources b).

(** ** The graph *)

Record Graph := mkGraph { g_edges : list (list nat) }.

(** [Vec::dedup]: of consecutive equal elements the first is kept. *)
Fixpoint vec_dedup (l : list nat) : list nat :=
  match l with
  | x :: (y :: _) as l' => if (x =? y)%nat then vec_dedup l' else x :: vec_dedup l'
  | _ => l
  end.

(** The loop over the edges: a bad endpoint refuses, [edges[from].push(to)]. *)
Fixpoint graph_push_edges (nodes : nat) (edges : list (nat * nat)) (rows : list (list nat))
    : res Error (list (list nat)) :=
  match edges with
  | [] => Ok rows
  | (from, to) :: edges =>
    if (nodes <=? from)%nat || (nodes <=? to)%nat then Err InvalidInput
    else graph_push_edges nodes edges (alter (λ row, row ++ [to]) from rows)
  end.

Definition graph_new (nodes : nat) (edges : list (nat * nat)) : res Error Graph :=
  if (nodes =? 0)%nat || (128 <? Z.of_nat nodes)%Z || (16384 <? len edges)%Z then Err Limit
  else
    rows ← graph_push_edges nodes edges (replicate nodes []);
    Ok (mkGraph ((λ row, vec_dedup (merge_sort le row)) <$> rows)).

(** Both loops that mark nodes as seen and enqueue them. *)
Fixpoint graph_visit (blocked : gset nat) (row : list nat) (seen : gset nat) (queue : list nat)
    : gset nat * list nat :=
  match row with
  | [] => (seen, queue)
  | next :: row =>
    if negb (bool_decide (next ∈ blocked)) && negb (bool_decide (next ∈ seen)) then
      graph_visit blocked row ({[next]} ∪ seen) (queue ++ [next])
    else graph_visit blocked row seen queue
  end.

(** The search loop.  Every node enters the queue at most once, so as many
    rounds as there are nodes are enough; running out of them would be
    [Panic], which [graph_reachable_spec] excludes. *)
Fixpoint graph_search (fuel : nat) (edges : list (list nat)) (blocked : gset nat)
    (seen : gset nat) (queue : list nat) : res Error (gset nat) :=
  match queue with
  | [] => Ok seen
  | node :: queue =>
    match fuel with
    | O => Panic
    | S fuel =>
      row ← expect (edges !! node);
      let '(seen, queue) := graph_visit blocked row seen queue in
      graph_search fuel edges blocked seen queue
    end
  end.

Definition graph_reachable (self : Graph) (sources : list nat) (blocked : gset nat)
    : res Error (gset nat) :=
  if bool_decide (sources = [])
     || existsb (λ n, (length (g_edges self) <=? n)%nat) (sources ++ elements blocked)
  then Err InvalidInput
  else
    let '(seen, queue) := graph_visit blocked sources ∅ [] in
    graph_search (length (g_edges self)) (g_edges self) blocked seen queue.

Definition graph_cut_disconnects (self : Graph) (sources sinks : list nat) (cut : gset nat)
    : res Error bool :=
  if bool_decide (sinks = []) || existsb (λ n, (length (g_edges self) <=? n)%nat) sinks
  then Err InvalidInput
  else
    reachable ← graph_reachable self sources cut;
    Ok (forallb (λ sink, negb (bool_decide (sink ∈ reachable))) sinks).

Definition graph_dominates (self : Graph) (source candidate sink : nat)
    : res Error (option bool) :=
  if (length (g_edges self) <=? candidate)%nat || (length (g_edges self) <=? sink)%nat
  then Err InvalidInput
  else
    reachable ← graph_reachable self [source] ∅;
    if negb (bool_decide (sink ∈ reachable)) then Ok None
    else
      reachable ← graph_reachable self [source] {[candidate]};
      Ok (Some (negb (bool_decide (sink ∈ reachable)))).

(** ** Paths *)

(** One step along a declared edge that does not enter a blocked node. *)
Definition open_edge (es : list (nat * nat)) (blocked : gset nat) (u v : nat) : Prop :=
  (u, v) ∈ es ∧ ¬ (v ∈ blocked).

Definition reaches (es : list (nat * nat)) (blocked : gset nat) (sources : list nat) (v : nat) : Prop :=
  ∃ s, s ∈ sources ∧ ¬ (s ∈ blocked) ∧ rtc (open_edge es blocked) s v.

(** A walk with the list of the nodes it visits, both ends included. *)
Inductive walk (es : list (nat * nat)) : nat → list nat → nat → Prop :=
  | walk_here s : walk es s [s] s
  | walk_step s u l t : (s, u) ∈ es → walk es u l t → walk es s (s :: l) t.

Lemma walk_avoiding es blocked s t :
  (∃ l, walk es s l t ∧ ∀ x, x ∈ l → x ∉ blocked) ↔
  ¬ (s ∈ blocked) ∧ rtc (open_edge es blocked) s t.
Proof.
  split.
  - intros (l & Hw & Hl). induction Hw as [s|s u l t He Hw IH].
    { split; [set_solver|constructor]. }
    destruct IH as [Hu Hr]; [set_solver|]. split; [set_solver|].
    by apply rtc_l with u.
  - intros [Hs Hr]. induction Hr as [s|s u t [He Hu] _ IH].
    { exists [s]. split; [constructor|set_solver]. }
    destruct IH as (l & Hw & Hl); [done|]. exists (s :: l).
    split; [by apply walk_step with u|set_solver].
Qed.

(** ** The rows of a constructed graph are its declared edges *)

Lemma elem_of_vec_dedup l x : x ∈ vec_dedup l ↔ x ∈ l.
Proof.
  induction l as [|a [|b l] IH]; [done|done|].
  change (vec_dedup (a :: b :: l))
    with (if (a =? b)%nat then vec_dedup (b :: l) else a :: vec_dedup (b :: l)).
  destruct (Nat.eqb_spec a b) as [->|]; [set_solver|].
  rewrite elem_of_cons, IH. set_solver.
Qed.

Lemma graph_push_edges_spec nodes es rows rows' :
  graph_push_edges nodes es rows = Ok rows' → length rows = nodes →
  length rows' = nodes ∧ Forall (λ e, e.1 < nodes ∧ e.2 < nodes)%nat es ∧
  ∀ u row', rows' !! u = Some row' →
    ∃ row, rows !! u = Some row ∧ ∀ v, v ∈ row' ↔ v ∈ row ∨ (u, v) ∈ es.
Proof.
  revert rows. induction es as [|[a b] es IH]; intros rows; simpl.
  { intros [= ->] ?. split_and!; [done|constructor|]. intros u row' Hu. exists row'.
    set_solver. }
  destruct (Nat.leb_spec nodes a); [done|]. destruct (Nat.leb_spec nodes b); [done|].
  intros Hrec Hlen. apply IH in Hrec as (Hl & Hall & Hrows); [|by rewrite length_alter].
  split_and!; [done|by constructor|]. intros u row' Hu.
  destruct (Hrows u row' Hu) as (row & Hrow & Hin).
  destruct (decide (u = a)) as [->|Hne].
  - rewrite list_lookup_alter_eq in Hrow. destruct (rows !! a) as [row0|] eqn:E; [|done].
    simpl in Hrow. injection Hrow as <-. exists row0. split; [done|]. intros v. rewrite Hin. set_solver.
  - rewrite list_lookup_alter_ne in Hrow by done. exists row. split; [done|].
    intros v. rewrite Hin. set_solver.
Qed.

(** What [Graph::new] establishes about the adjacency rows. *)
Record graph_of (nodes : nat) (es : list (nat * nat)) (g : Graph) : Prop := {
  go_length : length (g_edges g) = nodes;
  go_bound : Forall (λ e, e.1 < nodes ∧ e.2 < nodes)%nat es;
  go_rows : ∀ u row, g_edges g !! u = Some row → ∀ v, v ∈ row ↔ (u, v) ∈ es;
}.

Lemma graph_new_spec nodes es g : graph_new nodes es = Ok g → graph_of nodes es g.
Proof.
  unfold graph_new. destruct (_ || _); [done|]. munfold_goal.
  destruct (graph_push_edges _ _ _) as [rows| |] eqn:E; [|done..]. intros [= <-].
  apply graph_push_edges_spec in E as (Hl & Hall & Hrows); [|by rewrite length_replicate].
  split; simpl; [by rewrite length_fmap|done|].
  intros u row. rewrite list_lookup_fmap. intros (row' & Hu & ->)%fmap_Some v.
  destruct (Hrows u row' Hu) as (row0 & [-> _]%lookup_replicate & Hin).
  rewrite elem_of_vec_dedup, (merge_sort_Permutation le), Hin. set_solver.
Qed.

(** ** The search *)

Lemma graph_visit_spec blocked row seen queue :
  let '(seen', queue') := graph_visit blocked row seen queue in
  ∃ new, queue' = queue ++ new ∧
    (∀ v, v ∈ seen' ↔ v ∈ seen ∨ v ∈ new) ∧
    (∀ v, v ∈ seen' ↔ v ∈ seen ∨ (v ∈ row ∧ ¬ (v ∈ blocked))) ∧
    size seen' = (size seen + length new)%nat.
Proof.
  revert seen queue. induction row as [|x row IH]; intros seen queue; simpl.
  { exists []. rewrite app_nil_r. split_and!; [done|set_solver|set_solver|simpl; lia]. }
  destruct (negb _ && negb _) eqn:E.
  - apply andb_true_iff in E as [Hb%negb_true_iff%bool_decide_eq_false
      Hs%negb_true_iff%bool_decide_eq_false].
    specialize (IH ({[x]} ∪ seen) (queue ++ [x])).
    destruct (graph_visit _ _ _ _) as [seen' queue'].
    destruct IH as (new & -> & Hnew & Hrow & Hsize). exists (x :: new).
    split_and!; [by rewrite <-app_assoc|set_solver|set_solver|].
    rewrite Hsize, size_union, size_singleton by set_solver. simpl. lia.
  - specialize (IH seen queue). destruct (graph_visit _ _ _ _) as [seen' queue'].
    destruct IH as (new & -> & Hnew & Hrow & Hsize). exists new.
    split_and!; [done|done| |done]. intros v. rewrite Hrow.
    apply andb_false_iff in E as [E%negb_false_iff%bool_decide_eq_true|
      E%negb_false_iff%bool_decide_eq_true]; set_solver.
Qed.

Section search.
Context {nodes : nat} {es : list (nat * nat)} {g : Graph} (Hg : graph_of nodes es g).
Context (blocked : gset nat) (sources : list nat).

(** The invariant of the search loop. *)
Record search_inv (seen : gset nat) (queue : list nat) : Prop := {
  si_bound : ∀ v, v ∈ seen → (v < nodes)%nat;
  si_reached : ∀ v, v ∈ seen → reaches es blocked sources v;
  si_queue : ∀ v, v ∈ queue → v ∈ seen;
  si_closed : ∀ u v, u ∈ seen → open_edge es blocked u v → u ∈ queue ∨ v ∈ seen;
}.

(** A seen set cannot outgrow the nodes. *)
Lemma search_inv_size seen queue : search_inv seen queue → (size seen ≤ nodes)%nat.
Proof using.
  intros [Hb _ _ _].
  assert (seen ⊆ list_to_set (C:=gset nat) (seq 0 nodes)) as Hsub%subseteq_size.
  { intros v Hv. apply elem_of_list_to_set, elem_of_seq. specialize (Hb v Hv). lia. }
  rewrite size_list_to_set, length_seq in Hsub by apply NoDup_seq. done.
Qed.

(** The outcome of the loop: a set closed under open edges. *)
Record search_result (seen result : gset nat) : Prop := {
  sr_keeps : ∀ v, v ∈ seen → v ∈ result;
  sr_reached : ∀ v, v ∈ result → reaches es blocked sources v;
  sr_closed : ∀ u v, u ∈ result → open_edge es blocked u v → v ∈ result;
}.

Lemma search_inv_step seen node queue row :
  search_inv seen (node :: queue) → g_edges g !! node = Some row →
  let '(seen', queue') := graph_visit blocked row seen queue in
  search_inv seen' queue' ∧ (∀ v, v ∈ seen → v ∈ seen') ∧
  (length queue' + size seen = length queue + size seen')%nat.
Proof using Hg.
  intros [Hb Hr Hq Hc] Hrow.
  pose proof (go_rows _ _ _ Hg node row Hrow) as Hin.
  assert (Hnode : node ∈ seen) by (apply Hq; by left).
  pose proof (graph_visit_spec blocked row seen queue) as Hv.
  destruct (graph_visit _ _ _ _) as [seen' queue'].
  destruct Hv as (new & -> & Hnew & Hseen & Hsize).
  split_and!; [|set_solver|rewrite length_app; lia]. split.
  - intros v [?|[Hv Hvb]]%Hseen; [auto|]. apply Hin in Hv.
    destruct (proj1 (Forall_forall _ _) (go_bound _ _ _ Hg) _ Hv) as [_ ?]. done.
  - intros v [?|[Hv Hvb]]%Hseen; [auto|]. destruct (Hr node Hnode) as (s & Hs & Hsb & Hp).
    exists s. split_and!; [done|done|]. apply rtc_r with node; [done|].
    split; [by apply Hin|done].
  - intros v. rewrite elem_of_app, Hnew. intros [?|?]; [left; apply Hq; by right|by right].
  - intros u v Hu Huv. destruct (decide (u = node)) as [->|].
    + right. apply Hseen. right. destruct Huv as [? ?]. split; [by apply Hin|done].
    + apply Hnew in Hu as [Hu|Hu]; [|left; set_solver].
      destruct (Hc u v Hu Huv) as [[->|?]%elem_of_cons|?]; [done|left; set_solver|].
      right. apply Hnew. by left.
Qed.

Lemma graph_search_spec fuel seen queue :
  search_inv seen queue → (length queue + nodes ≤ fuel + size seen)%nat →
  ∃ result, graph_search fuel (g_edges g) blocked seen queue = Ok result ∧
    search_result seen result.
Proof using Hg.
  revert seen queue. induction fuel as [|fuel IH]; intros seen [|node queue] Hinv Hfuel; simpl.
  1,3: exists seen; split; [done|]; destruct Hinv as [_ Hr _ Hc]; split; auto; set_solver.
  - pose proof (search_inv_size _ _ Hinv). simpl in *. lia.
  - destruct (lookup_lt_is_Some_2 (g_edges g) node) as [row Hrow].
    { rewrite (go_length _ _ _ Hg). destruct Hinv as [Hb _ Hq _]. apply Hb, Hq. by left. }
    rewrite Hrow. munfold_goal.
    pose proof (search_inv_step _ _ _ _ Hinv Hrow) as Hstep.
    destruct (graph_visit _ _ _ _) as [seen' queue'].
    destruct Hstep as (Hinv' & Hkeep & Hlen). simpl in *.
    destruct (IH seen' queue' Hinv') as (result & -> & [Hk Hr Hcl]); [lia|].
    exists result. split; [done|]. split; auto.
Qed.

Lemma graph_reachable_spec :
  sources ≠ [] → Forall (λ n, n < nodes)%nat (sources ++ elements blocked) →
  ∃ result, graph_reachable g sources blocked = Ok result ∧
    ∀ v, v ∈ result ↔ reaches es blocked sources v.
Proof using Hg.
  intros Hne Hall. unfold graph_reachable. rewrite bool_decide_eq_false_2 by done.
  rewrite (go_length _ _ _ Hg).
  destruct (existsb _ _) eqn:E.
  { apply existsb_exists in E as (n & Hin%list_elem_of_In & Hn%Nat.leb_le).
    rewrite Forall_forall in Hall. specialize (Hall n Hin). lia. }
  pose proof (graph_visit_spec blocked sources ∅ []) as Hv.
  destruct (graph_visit _ _ _ _) as [seen queue].
  destruct Hv as (new & -> & Hnew & Hseen & Hsize). rewrite size_empty in Hsize. simpl in *.
  apply Forall_app in Hall as [Hsrc _]. rewrite Forall_forall in Hsrc.
  destruct (graph_search_spec nodes seen new) as (result & -> & [Hk Hr Hcl]).
  - split; [set_solver| |set_solver|set_solver].
    intros v [?|[Hv Hvb]]%Hseen; [set_solver|]. exists v. by repeat split.
  - lia.
  - exists result. split; [done|]. intros v. split; [auto|].
    intros (s & Hs & Hsb & Hp). assert (s ∈ result) as Hsr by (apply Hk, Hseen; by right).
    clear Hs Hsb. induction Hp as [s|s u v Hsu _ IH]; [done|]. eauto.
Qed.
End search.

(** Reaching a node is having a walk to it that avoids the blocked set. *)
Lemma reaches_walk es blocked sources v :
  reaches es blocked sources v ↔
  ∃ s l, s ∈ sources ∧ walk es s l v ∧ ∀ x, x ∈ l → ¬ (x ∈ blocked).
Proof.
  unfold reaches. split.
  - intros (s & Hs & Hr). apply walk_avoiding in Hr as (l & ? & ?). eauto.
  - intros (s & l & Hs & Hw & Hl). exists s. split; [done|]. apply walk_avoiding. eauto.
Qed.

(** A well-formed query never fails, and answers for walks. *)
Lemma graph_reachable_walks nodes es g sources blocked :
  graph_new nodes es = Ok g → sources ≠ [] →
  (∀ s, s ∈ sources → s < nodes)%nat → (∀ b, b ∈ blocked → b < nodes)%nat →
  ∃ result, graph_reachable g sources blocked = Ok result ∧
    ∀ v, v ∈ result ↔
      ∃ s l, s ∈ sources ∧ walk es s l v ∧ ∀ x, x ∈ l → ¬ (x ∈ blocked).
Proof.
  intros Hg%graph_new_spec Hne Hs Hb.
  destruct (graph_reachable_spec Hg blocked sources Hne) as (result & Heq & Hin).
  { apply Forall_app. split; apply Forall_forall; [done|].
    intros x Hx%elem_of_elements. auto. }
  exists result. split; [done|]. intros v. by rewrite Hin, reaches_walk.
Qed.

(** ** What independence means

    Operations act on a store and on consumable resources.  A transformer
    respects an operation's declaration when it changes only what the
    declaration says it writes or consumes and its changes depend only on what
    the declaration says it reads, writes or consumes. *)
Section commutation.
Context {A B : Type}.
Implicit Types (s : gmap Z A * gmap Z B) (f g : gmap Z A * gmap Z B → gmap Z A * gmap Z B).

Record respects (op : Operation) f : Prop := {
  rs_store_frame : ∀ s k, k ∉ op_writes op → (f s).1 !! k = s.1 !! k;
  rs_resource_frame : ∀ s k, k ∉ op_consuming_resources op → (f s).2 !! k = s.2 !! k;
  rs_local : ∀ s s',
    (∀ k, k ∈ op_reads op ∪ op_writes op → s.1 !! k = s'.1 !! k) →
    (∀ k, k ∈ op_consuming_resources op → s.2 !! k = s'.2 !! k) →
    (∀ k, k ∈ op_writes op → (f s).1 !! k = (f s').1 !! k) ∧
    (∀ k, k ∈ op_consuming_resources op → (f s).2 !! k = (f s').2 !! k);
}.

(** What one transformer leaves in the footprint of another one that avoids
    its reads, writes and resources. *)
Lemma respects_after a b f g s :
  respects a f → respects b g →
  op_writes b ## op_reads a ∪ op_writes a →
  op_consuming_resources b ## op_consuming_resources a →
  (∀ k, k ∈ op_writes a → (f (g s)).1 !! k = (f s).1 !! k) ∧
  (∀ k, k ∈ op_consuming_resources a → (f (g s)).2 !! k = (f s).2 !! k).
Proof.
  intros Ha Hb Hdw Hdr. apply (rs_local _ _ Ha).
  - intros k Hk. apply (rs_store_frame _ _ Hb). set_solver.
  - intros k Hk. apply (rs_resource_frame _ _ Hb). set_solver.
Qed.
End commutation.

Lemma independent_spec a b :
  independent a b = true ↔
  op_external_or_ordered a = false ∧ op_external_or_ordered b = false ∧
  op_writes b ## op_reads a ∪ op_writes a ∧ op_writes a ## op_reads b ∪ op_writes b ∧
  op_consuming_resources a ## op_consuming_resources b.
Proof.
  unfold independent, is_disjoint.
  rewrite !andb_true_iff, !negb_true_iff, !bool_decide_eq_true. set_solver.
Qed.

(** ** Properties *)

(** For a graph built by [Graph::new], [reachable] never fails on
    in-range arguments and returns exactly the nodes to which a walk along the
    declared edges leads from a source without visiting a blocked node; with no
    source, or with a source or blocked node out of range, it is refused. *)
Theorem graph_reachable_exact (nodes : nat) (es : list (nat * nat)) (g : Graph)
    (sources : list nat) (blocked : gset nat) :
  graph_new nodes es = Ok g →
  (sources = [] ∨ (∃ n, (n ∈ sources ∨ n ∈ blocked) ∧ nodes ≤ n)%nat →
     graph_reachable g sources blocked = Err InvalidInput) ∧
  (sources ≠ [] → (∀ s, s ∈ sources → s < nodes)%nat → (∀ b, b ∈ blocked → b < nodes)%nat →
     ∃ result, graph_reachable g sources blocked = Ok result ∧
       ∀ v, v ∈ result ↔
         ∃ s l, s ∈ sources ∧ walk es s l v ∧ ∀ x, x ∈ l → ¬ (x ∈ blocked)).
Proof.
  intros Hnew. split; [|intros; by eapply graph_reachable_walks].
  apply graph_new_spec in Hnew as [Hlen _ _]. unfold graph_reachable. rewrite Hlen.
  intros [->|(n & Hn & Hle)]; [done|]. destruct (bool_decide _); [done|]. simpl.
  rewrite (proj2 (existsb_exists _ _)); [done|]. exists n.
  split; [|by apply Nat.leb_le]. apply list_elem_of_In, elem_of_app.
  destruct Hn; [by left|right; by apply elem_of_elements].
Qed.

Lemma graph_reachable_exact_witness :
  ∃ g result, graph_new 4 [(0, 1); (1, 2); (2, 3)]%nat = Ok g ∧
    graph_reachable g [0%nat] {[2%nat]} = Ok result ∧ 1%nat ∈ result ∧ ¬ (3%nat ∈ result).
Proof.
  exists (mkGraph [[1]; [2]; [3]; []]%nat).
  assert (graph_new 4 [(0, 1); (1, 2); (2, 3)]%nat = Ok (mkGraph [[1]; [2]; [3]; []]%nat)) as Hg
    by (vm_compute; reflexivity).
  destruct (graph_reachable_exact _ _ _ [0%nat] {[2%nat]} Hg) as [_ H].
  destruct H as (result & E & _); [done|intros ? ->%list_elem_of_singleton; lia|
    intros ? ->%elem_of_singleton; lia|].
  exists result. split; [done|]. split; [done|].
  vm_compute in E. injection E as <-. split; [set_solver|]. by vm_compute.
Defined.

(** [dominates] says [None] exactly when the sink cannot be
    reached at all, [Some(true)] exactly when it can and every walk from source
    to sink visits the candidate, and [Some(false)] exactly when some walk
    bypasses the candidate. *)
Theorem graph_dominates_exact (nodes : nat) (es : list (nat * nat)) (g : Graph)
    (source candidate sink : nat) :
  graph_new nodes es = Ok g → (source < nodes → candidate < nodes → sink < nodes →
  (graph_dominates g source candidate sink = Ok None ↔ ∀ l, ¬ walk es source l sink) ∧
  (graph_dominates g source candidate sink = Ok (Some true) ↔
     (∃ l, walk es source l sink) ∧ ∀ l, walk es source l sink → candidate ∈ l) ∧
  (graph_dominates g source candidate sink = Ok (Some false) ↔
     ∃ l, walk es source l sink ∧ candidate ∉ l))%nat.
Proof.
  intros Hnew Hs Hc Ht. unfold graph_dominates.
  rewrite (go_length _ _ _ (graph_new_spec _ _ _ Hnew)).
  rewrite (proj2 (Nat.leb_gt nodes candidate)), (proj2 (Nat.leb_gt nodes sink)) by lia. simpl.
  destruct (graph_reachable_walks nodes es g [source] ∅ Hnew) as (r1 & -> & H1);
    [done|by intros ? ->%list_elem_of_singleton|set_solver|].
  destruct (graph_reachable_walks nodes es g [source] {[candidate]} Hnew) as (r2 & E2 & H2);
    [done|by intros ? ->%list_elem_of_singleton|by intros ? ->%elem_of_singleton|].
  assert (sink ∈ r1 ↔ ∃ l, walk es source l sink) as Hin1.
  { rewrite H1. split; [intros (? & l & ->%list_elem_of_singleton & ? & _); eauto|].
    intros [l Hl]. exists source, l. set_solver. }
  assert (sink ∈ r2 ↔ ∃ l, walk es source l sink ∧ candidate ∉ l) as Hin2.
  { rewrite H2. split.
    - intros (? & l & ->%list_elem_of_singleton & ? & Hl). exists l. set_solver.
    - intros (l & ? & ?). exists source, l. set_solver. }
  munfold_goal. case_bool_decide as Hr1; simpl.
  - rewrite E2. pose proof (proj1 Hin1 Hr1) as [l1 Hl1]. case_bool_decide as Hr2; simpl.
    + pose proof (proj1 Hin2 Hr2) as (l2 & Hl2 & Hno). split_and!; split.
      * done.
      * intros H. by destruct (H l1).
      * done.
      * intros [_ H]. by destruct (Hno (H l2 Hl2)).
      * eauto.
      * done.
    + split_and!; split.
      * done.
      * intros H. by destruct (H l1).
      * intros _. split; [eauto|]. intros l Hl. apply dec_stable. intros Hno. apply Hr2, Hin2. eauto.
      * done.
      * done.
      * intros Hex. by destruct (Hr2 (proj2 Hin2 Hex)).
  - split_and!; split; try done.
    + intros _ l Hl. apply Hr1, Hin1. eauto.
    + intros [Hex _]. by destruct (Hr1 (proj2 Hin1 Hex)).
    + intros (l & Hl & _). destruct Hr1. apply Hin1. eauto.
Qed.

Lemma graph_dominates_exact_witness :
  ∃ g, graph_new 3 [(0, 1); (1, 2); (0, 2)]%nat = Ok g ∧
    graph_dominates g 0 1 2 = Ok (Some false) ∧
    ∃ l, walk [(0, 1); (1, 2); (0, 2)]%nat 0 l 2 ∧ 1%nat ∉ l.
Proof.
  exists (mkGraph [[1; 2]; [2]; []]%nat).
  assert (graph_new 3 [(0, 1); (1, 2); (0, 2)]%nat = Ok (mkGraph [[1; 2]; [2]; []]%nat)) as Hg
    by (vm_compute; reflexivity).
  split; [done|]. split; [vm_compute; reflexivity|].
  apply (graph_dominates_exact _ _ _ 0 1 2 Hg); [lia|lia|lia|vm_compute; reflexivity].
Defined.

(** On in-range arguments [cut_disconnects] holds exactly when every
    walk of the declared edges from a source to a sink visits the cut. *)
Theorem graph_cut_exact (nodes : nat) (es : list (nat * nat)) (g : Graph)
    (sources sinks : list nat) (cut : gset nat) :
  graph_new nodes es = Ok g → sources ≠ [] → sinks ≠ [] →
  (∀ n, n ∈ sources ++ sinks ∨ n ∈ cut → n < nodes)%nat →
  ∃ answer, graph_cut_disconnects g sources sinks cut = Ok answer ∧
    (answer = true ↔
     ∀ s t l, s ∈ sources → t ∈ sinks → walk es s l t → ∃ x, x ∈ l ∧ x ∈ cut).
Proof.
  intros Hnew Hs Ht Hall. unfold graph_cut_disconnects.
  rewrite (go_length _ _ _ (graph_new_spec _ _ _ Hnew)), bool_decide_eq_false_2 by done. simpl.
  destruct (existsb _ _) eqn:E.
  { apply existsb_exists in E as (n & Hn%list_elem_of_In & Hle%Nat.leb_le).
    specialize (Hall n). set_solver by lia. }
  destruct (graph_reachable_walks nodes es g sources cut Hnew) as (r & -> & Hr);
    [done|set_solver|set_solver|].
  munfold_goal. eexists. split; [done|]. rewrite forallb_forall. split.
  - intros Hno s t l Hsin Htin Hw.
    destruct (decide (Exists (λ x, x ∈ cut) l)) as [Hex%Exists_exists|Hex]; [done|].
    apply list_elem_of_In in Htin. specialize (Hno t Htin).
    apply negb_true_iff, bool_decide_eq_false in Hno. destruct Hno. apply Hr. exists s, l.
    split_and!; [done|done|]. intros x Hx Hcut. apply Hex, Exists_exists. eauto.
  - intros Hyes t Htin%list_elem_of_In. apply negb_true_iff, bool_decide_eq_false.
    rewrite Hr. intros (s & l & Hsin & Hw & Hl). destruct (Hyes s t l) as (x & Hx & Hc); [done..|]. by apply (Hl x).
Qed.

Lemma graph_cut_exact_witness :
  ∃ g, graph_new 4 [(0, 1); (1, 2); (2, 3)]%nat = Ok g ∧
    graph_cut_disconnects g [0%nat] [3%nat] {[1%nat]} = Ok true ∧
    ∃ answer, graph_cut_disconnects g [0%nat] [3%nat] {[1%nat]} = Ok answer.
Proof.
  exists (mkGraph [[1]; [2]; [3]; []]%nat).
  assert (graph_new 4 [(0, 1); (1, 2); (2, 3)]%nat = Ok (mkGraph [[1]; [2]; [3]; []]%nat)) as Hg
    by (vm_compute; reflexivity).
  split; [done|]. split; [vm_compute; reflexivity|].
  destruct (graph_cut_exact _ _ _ [0%nat] [3%nat] {[1%nat]} Hg) as (a & ? & _);
    [done|done| |by exists a].
  intros n. rewrite elem_of_app, !list_elem_of_singleton, elem_of_singleton. lia.
Defined.

(** [independent] justifies reordering: any two transformers of the
    store and the consumable resources that respect the declarations of two
    independent operations commute. *)
Theorem independent_commutes {A B : Type} (a b : Operation)
    (f g : gmap Z A * gmap Z B → gmap Z A * gmap Z B) (s : gmap Z A * gmap Z B) :
  independent a b = true → respects a f → respects b g → f (g s) = g (f s).
Proof.
  intros (_ & _ & Hba & Hab & Hres)%independent_spec Ha Hb.
  destruct (respects_after a b f g s Ha Hb Hba ltac:(done)) as [Hfw Hfr].
  destruct (respects_after b a g f s Hb Ha Hab Hres) as [Hgw Hgr].
  apply injective_projections; apply map_eq; intros k.
  - destruct (decide (k ∈ op_writes a)) as [Hk|Hk].
    + rewrite Hfw by done. symmetry. apply (rs_store_frame _ _ Hb). set_solver.
    + rewrite (rs_store_frame _ _ Ha) by done.
      destruct (decide (k ∈ op_writes b)) as [Hk'|Hk']; [by rewrite Hgw|].
      by rewrite !(rs_store_frame _ _ Hb), (rs_store_frame _ _ Ha) by done.
  - destruct (decide (k ∈ op_consuming_resources a)) as [Hk|Hk].
    + rewrite Hfr by done. symmetry. apply (rs_resource_frame _ _ Hb). set_solver.
    + rewrite (rs_resource_frame _ _ Ha) by done.
      destruct (decide (k ∈ op_consuming_resources b)) as [Hk'|Hk']; [by rewrite Hgr|].
      by rewrite !(rs_resource_frame _ _ Hb), (rs_resource_frame _ _ Ha) by done.
Qed.

(** Incrementing one key of the store. *)
Definition bump (k : Z) (s : gmap Z nat * gmap Z nat) : gmap Z nat * gmap Z nat :=
  (alter S k s.1, s.2).

Lemma bump_respects k reads resources o :
  respects (mkOperation reads {[k]} resources o) (bump k).
Proof.
  unfold bump. split; simpl; [intros s i Hi; apply lookup_alter_ne; set_solver|done|].
  intros s s' Hst Hrs. split; [|done]. intros i ->%elem_of_singleton.
  rewrite !lookup_alter_eq, Hst by set_solver. done.
Qed.

Lemma independent_commutes_witness :
  let a := mkOperation {[1%Z]} {[2%Z]} ∅ false in
  let b := mkOperation {[3%Z]} {[4%Z]} {[7%Z]} false in
  let s := ({[2%Z := 0; 4%Z := 5]}, ∅)%nat in
  independent a b = true ∧ bump 2 (bump 4 s) = bump 4 (bump 2 s).
Proof.
  intros a b s. split; [vm_compute; reflexivity|].
  apply (independent_commutes a b (bump 2) (bump 4) s);
    [vm_compute; reflexivity|apply bump_respects|apply bump_respects].
Defined.
