(* ===== verification/Probe.v ===== *)
(** * The certified linear probe

    [linear_sign] of [crates/fa-reference/src/logical_core.rs]: the sign of an
    integer linear probe under a per-coordinate error bound, in [i128]
    arithmetic over [i64] weights and coordinates. *)

From stdpp Require Import base tactics numbers list.
From S2P Require Import Prelude Judgment.

Local Open Scope Z_scope.

(** ** Model *)

Definition is_i64 (z : Z) : Prop := -9223372036854775808 ≤ z ≤ 9223372036854775807.
Definition is_i128 (z : Z) : Prop := I128_MIN ≤ z ≤ I128_MAX.

Definition i128_checked (z : Z) : option Z :=
  if (I128_MIN <=? z) && (z <=? I128_MAX) then Some z else None.
(** An unchecked [i128] operation with result [z] panics when it overflows. *)
Definition i128_unchecked {E} (z : Z) : res E Z :=
  if (I128_MIN <=? z) && (z <=? I128_MAX) then Ok z else Panic.

(** The loop over [weights.iter().zip(reconstruction)]. *)
Fixpoint probe_loop (weights reconstruction : list Z) (dot norm : Z) : res Error (Z * Z) :=
  match weights, reconstruction with
  | w :: weights, x :: reconstruction =>
    product ← i128_unchecked (w * x);
    dot ← ok_or (i128_checked (dot + product)) Overflow;
    abs ← i128_unchecked (Z.abs w);
    norm ← ok_or (i128_checked (norm + abs)) Overflow;
    probe_loop weights reconstruction dot norm
  | _, _ => Ok (dot, norm)
  end.

Definition linear_sign (weights reconstruction : list Z) (threshold max_coordinate_error : Z)
    : res Error (option bool) :=
  if bool_decide (weights = []) || negb (length weights =? length reconstruction)%nat
  then Err InvalidInput
  else
    '(dot, norm) ← probe_loop weights reconstruction 0 0;
    margin ← ok_or (i128_checked (dot - threshold)) Overflow;
    bound ← ok_or (i128_checked (norm * max_coordinate_error)) Overflow;
    if bound <? margin then Ok (Some true)
    else
      minus_bound ← i128_unchecked (- bound);
      if margin <? minus_bound then Ok (Some false) else Ok None.

(** ** The probe it approximates *)

Definition dotZ (ws xs : list Z) : Z := sumZ (zip_with Z.mul ws xs).
Definition norm1 (ws : list Z) : Z := sumZ (Z.abs <$> ws).

(** The vectors the error bound allows for a reconstruction. *)
Definition within (e : Z) (xs ys : list Z) : Prop := Forall2 (λ x y, Z.abs (y - x) ≤ e) xs ys.

Lemma dotZ_within ws xs ys e :
  0 ≤ e → length ws = length xs → within e xs ys → Z.abs (dotZ ws ys - dotZ ws xs) ≤ norm1 ws * e.
Proof.
  intros He Hlen Hw. revert ws Hlen. unfold dotZ, norm1.
  induction Hw as [|x y xs ys Hxy Hw IH]; intros [|w ws] Hlen; csimpl in *; try lia.
  specialize (IH ws ltac:(lia)).
  assert (Z.abs (w * y - w * x) ≤ Z.abs w * e).
  { rewrite <-Z.mul_sub_distr_l, Z.abs_mul. apply Z.mul_le_mono_nonneg_l; lia. }
  rewrite Z.mul_add_distr_r. lia.
Qed.

(** The bound is attained, on both sides. *)
Lemma dotZ_extreme ws xs e d :
  0 ≤ e → (d = 1 ∨ d = -1) → length ws = length xs →
  ∃ ys, within e xs ys ∧ dotZ ws ys = dotZ ws xs + d * (norm1 ws * e).
Proof.
  intros He Hd. revert xs. unfold dotZ, norm1.
  induction ws as [|w ws IH]; intros [|x xs] Hlen; csimpl in *; try lia.
  { exists []. split; [constructor|simpl; lia]. }
  destruct (IH xs) as (ys & Hw & Hdot); [lia|].
  exists (x + d * (Z.sgn w * e) :: ys). split.
  - constructor; [|done]. pose proof (Z.sgn_spec w). nia.
  - simpl. rewrite Hdot. pose proof (Z.sgn_abs w). nia.
Qed.

Lemma i128_checked_Some z z' : i128_checked z = Some z' ↔ z' = z ∧ is_i128 z.
Proof.
  unfold i128_checked, is_i128.
  destruct (Z.leb_spec I128_MIN z), (Z.leb_spec z I128_MAX); simpl; split;
    first [intros [= <-]; split; first [done|lia]|intros [-> ?]; first [done|exfalso; lia]].
Qed.

Lemma i128_unchecked_ok {E} z : is_i128 z → i128_unchecked (E:=E) z = Ok z.
Proof.
  unfold i128_unchecked, is_i128. intros [].
  by rewrite (proj2 (Z.leb_le I128_MIN z)), (proj2 (Z.leb_le z I128_MAX)).
Qed.

(** The loop computes the dot product and the norm, or reports an overflow. *)
Lemma probe_loop_spec ws xs dot norm :
  Forall is_i64 ws → Forall is_i64 xs → length ws = length xs →
  probe_loop ws xs dot norm = Err Overflow ∨
  probe_loop ws xs dot norm = Ok (dot + dotZ ws xs, norm + norm1 ws).
Proof.
  intros Hws. revert xs dot norm. unfold dotZ, norm1.
  induction Hws as [|w ws Hw _ IH]; intros [|x xs] dot norm Hxs Hlen; csimpl in *; try lia.
  { right. by rewrite !Z.add_0_r. }
  apply Forall_cons in Hxs as [Hx Hxs]. unfold is_i64 in *.
  rewrite (i128_unchecked_ok (w * x)) by (unfold is_i128; nia). munfold_goal.
  destruct (i128_checked (dot + w * x)) as [d|] eqn:E1; [|by left].
  apply i128_checked_Some in E1 as [-> _].
  rewrite i128_unchecked_ok by (unfold is_i128; lia). munfold_goal.
  destruct (i128_checked (norm + Z.abs w)) as [n|] eqn:E2; [|by left].
  apply i128_checked_Some in E2 as [-> _].
  destruct (IH xs (dot + w * x) (norm + Z.abs w) Hxs ltac:(lia)) as [->| ->]; [left; done|right].
  f_equal. f_equal; lia.
Qed.

Lemma norm1_nonneg ws : 0 ≤ norm1 ws.
Proof. apply sumZ_nonneg, Forall_fmap, Forall_forall. intros x _. simpl. lia. Qed.

(** The computation on in-range, nonempty inputs of equal length. *)
Lemma linear_sign_eq ws xs th e :
  ws ≠ [] → length ws = length xs → Forall is_i64 ws → Forall is_i64 xs → 0 ≤ e →
  linear_sign ws xs th e = Err Overflow ∨
  linear_sign ws xs th e = Ok
    (if norm1 ws * e <? dotZ ws xs - th then Some true
     else if dotZ ws xs - th <? - (norm1 ws * e) then Some false else None).
Proof.
  intros Hne Hlen Hws Hxs He. unfold linear_sign.
  rewrite bool_decide_eq_false_2, Hlen, Nat.eqb_refl by done. simpl.
  pose proof (norm1_nonneg ws).
  destruct (probe_loop_spec ws xs 0 0 Hws Hxs Hlen) as [->| ->]; [by left|].
  rewrite !Z.add_0_l. munfold_goal.
  destruct (i128_checked (dotZ ws xs - th)) as [m|] eqn:E1; [|by left].
  apply i128_checked_Some in E1 as [-> _].
  destruct (i128_checked (norm1 ws * e)) as [b|] eqn:E2; [|by left].
  apply i128_checked_Some in E2 as [-> Hb]. right.
  destruct (_ <? _); [done|]. unfold is_i128 in Hb.
  rewrite i128_unchecked_ok by (unfold is_i128; nia). by destruct (_ <? _).
Qed.

(** ** Properties *)

(** On [i64] inputs [linear_sign] never panics, and whenever it
    returns a verdict the verdict is exact for the declared error box: positive
    when every vector in the box scores above the threshold, negative when
    every one scores below it, and undecided exactly when neither holds. *)
Theorem linear_sign_certifies (ws xs : list Z) (th e : Z) :
  Forall is_i64 ws → Forall is_i64 xs → is_u64 e →
  linear_sign ws xs th e ≠ Panic ∧
  (linear_sign ws xs th e = Err InvalidInput ↔ ws = [] ∨ length ws ≠ length xs) ∧
  ∀ verdict, linear_sign ws xs th e = Ok verdict →
    (verdict = Some true ↔ ∀ ys, within e xs ys → th < dotZ ws ys) ∧
    (verdict = Some false ↔ ∀ ys, within e xs ys → dotZ ws ys < th).
Proof.
  intros Hws Hxs [He _].
  destruct (decide (ws = [] ∨ length ws ≠ length xs)) as [Hbad|Hgood].
  { assert (linear_sign ws xs th e = Err InvalidInput) as ->; [|done].
    unfold linear_sign. destruct Hbad as [->|Hlen]; [done|].
    rewrite (proj2 (Nat.eqb_neq _ _) Hlen). by rewrite orb_true_r. }
  assert (ws ≠ [] ∧ length ws = length xs) as [Hne Hlen].
  { split; [naive_solver|]. destruct (decide (length ws = length xs)); naive_solver. }
  destruct (linear_sign_eq ws xs th e Hne Hlen Hws Hxs He) as [->| ->]; [naive_solver|].
  split; [done|]. split; [split; [done|naive_solver]|]. intros verdict [= <-].
  destruct (dotZ_extreme ws xs e 1 He ltac:(auto) Hlen) as (yhi & Hhi & Ehi).
  destruct (dotZ_extreme ws xs e (-1) He ltac:(auto) Hlen) as (ylo & Hlo & Elo).
  assert (∀ ys, within e xs ys → Z.abs (dotZ ws ys - dotZ ws xs) ≤ norm1 ws * e) as Hbox.
  { intros ys. by apply dotZ_within. }
  assert (Hself : within e xs xs).
  { unfold within. clear -He. induction xs; constructor; [lia|done]. }
  destruct (Z.ltb_spec (norm1 ws * e) (dotZ ws xs - th)) as [H1|H1];
    [|destruct (Z.ltb_spec (dotZ ws xs - th) (- (norm1 ws * e))) as [H2|H2]].
  - split; split; try done; [intros _ ys Hys; specialize (Hbox ys Hys); lia|].
    intros Hall. specialize (Hall xs Hself). pose proof (norm1_nonneg ws). nia.
  - split; split; try done; [|intros _ ys Hys; specialize (Hbox ys Hys); lia].
    intros Hall. specialize (Hall xs Hself). pose proof (norm1_nonneg ws). nia.
  - split; split; try done; intros Hall; exfalso.
    + specialize (Hall ylo Hlo). lia.
    + specialize (Hall yhi Hhi). lia.
Qed.

Lemma linear_sign_certifies_witness :
  linear_sign [2; -1] [10; 2] 0 1 = Ok (Some true) ∧
  ∀ ys, within 1 [10; 2] ys → 0 < dotZ [2; -1] ys.
Proof.
  assert (linear_sign [2; -1] [10; 2] 0 1 = Ok (Some true)) as E by (vm_compute; reflexivity).
  split; [done|].
  destruct (linear_sign_certifies [2; -1] [10; 2] 0 1) as (_ & _ & H).
  - repeat constructor; vm_compute; discriminate.
  - repeat constructor; vm_compute; discriminate.
  - split; vm_compute; discriminate.
  - by apply (H (Some true) E).
Defined.
