(* ===== verification/Reader.v ===== *)
(** * Byte sources

    The [std::io::Read] a replay is given.  A reader is the script of what its
    [read] calls will return: chunks of bytes, a call that returns no bytes, a
    transient interruption, or an error.  [read_exact] is the standard
    library's loop over [read], and [read_retrying] the loop that retries an
    interrupted one-byte read. *)

From stdpp Require Import base tactics numbers list.
From S2P Require Import Prelude Bytes.

Local Open Scope Z_scope.

(** The kinds of [io::Error] the code distinguishes, and every other one. *)
Inductive IoKind := UnexpectedEof | Interrupted | OtherIo (code : Z).

#[global] Instance IoKind_eq_dec : EqDecision IoKind.
Proof. solve_decision. Defined.

Inductive ReadStep := Data (chunk : bytes) | Fault (kind : IoKind).

#[global] Instance ReadStep_eq_dec : EqDecision ReadStep.
Proof. solve_decision. Defined.

Abbreviation Reader := (list ReadStep).

(** One [read] into a buffer of [n] bytes.  A chunk longer than the buffer is
    delivered over several calls; a script that is used up is at end of file. *)
Definition reader_read (n : Z) : st Reader IoKind bytes := λ reader,
  match reader with
  | [] => (Ok [], [])
  | Fault kind :: reader => (Err kind, reader)
  | Data chunk :: reader =>
    if n <? len chunk then (Ok (take (Z.to_nat n) chunk), Data (drop (Z.to_nat n) chunk) :: reader)
    else (Ok chunk, reader)
  end.

(** [loop { match read(buf) { Err(Interrupted) => continue, other => break other? } }] *)
Fixpoint read_retrying_loop (n : Z) (reader : Reader) : res IoKind bytes * Reader :=
  match reader with
  | Fault Interrupted :: reader => read_retrying_loop n reader
  | _ => reader_read n reader
  end.
Definition read_retrying (n : Z) : st Reader IoKind bytes := read_retrying_loop n.

(** [Read::read_exact] into a buffer of [n] bytes. *)
Fixpoint read_exact_loop (n : Z) (reader : Reader) : res IoKind bytes * Reader :=
  if n <=? 0 then (Ok [], reader)
  else match reader with
  | [] => (Err UnexpectedEof, [])
  | Fault Interrupted :: reader => read_exact_loop n reader
  | Fault kind :: reader => (Err kind, reader)
  | Data [] :: reader => (Err UnexpectedEof, reader)
  | Data chunk :: reader =>
    if n <? len chunk then (Ok (take (Z.to_nat n) chunk), Data (drop (Z.to_nat n) chunk) :: reader)
    else
      match read_exact_loop (n - len chunk) reader with
      | (Ok rest, reader) => (Ok (chunk ++ rest), reader)
      | other => other
      end
  end.
Definition read_exact (n : Z) : st Reader IoKind bytes := read_exact_loop n.

(** ** What a script delivers

    [delivered reader] is the byte string its calls return, up to the first
    call that returns no bytes or a lasting error; [outcome_error] is that
    error, if there is one. *)

Fixpoint delivered (reader : Reader) : bytes :=
  match reader with
  | Fault Interrupted :: reader => delivered reader
  | Data (b :: chunk) :: reader => b :: chunk ++ delivered reader
  | _ => []
  end.

Fixpoint fault_of (reader : Reader) : option IoKind :=
  match reader with
  | Fault Interrupted :: reader => fault_of reader
  | Fault kind :: _ => Some kind
  | Data (_ :: _) :: reader => fault_of reader
  | _ => None
  end.

(** How many reads a script can still answer, an upper bound. *)
Fixpoint reader_size (reader : Reader) : nat :=
  match reader with
  | [] => 0
  | Data chunk :: reader => S (length chunk) + reader_size reader
  | Fault _ :: reader => S (reader_size reader)
  end.

Lemma delivered_size reader : (length (delivered reader) ≤ reader_size reader)%nat.
Proof.
  induction reader as [|[[|b chunk]|[]] reader IH]; simpl; rewrite ?length_app; lia.
Qed.

(** What one read of a nonempty buffer returns and leaves. *)
Inductive read_result (n : Z) (reader : Reader) : res IoKind bytes * Reader → Prop :=
  | read_eof reader' :
      delivered reader = [] → fault_of reader = None → read_result n reader (Ok [], reader')
  | read_interrupted reader' :
      delivered reader' = delivered reader → fault_of reader' = fault_of reader →
      (reader_size reader' < reader_size reader)%nat →
      read_result n reader (Err Interrupted, reader')
  | read_fault kind reader' :
      kind ≠ Interrupted → delivered reader = [] → fault_of reader = Some kind →
      read_result n reader (Err kind, reader')
  | read_data w reader' :
      w ≠ [] → len w ≤ n → delivered reader = w ++ delivered reader' →
      fault_of reader' = fault_of reader → (length w + reader_size reader' ≤ reader_size reader)%nat →
      read_result n reader (Ok w, reader').

Lemma reader_read_spec n reader : 1 ≤ n → read_result n reader (reader_read n reader).
Proof.
  intros Hn. destruct reader as [|[chunk|kind] reader]; simpl.
  - by apply read_eof.
  - destruct (Z.ltb_spec n (len chunk)) as [Hlt|Hge].
    + destruct chunk as [|b chunk]; [unfold len in *; simpl in *; lia|].
      pose proof (length_drop (b :: chunk) (Z.to_nat n)) as Hd. unfold len in Hlt.
      destruct (drop (Z.to_nat n) (b :: chunk)) as [|b' d] eqn:E; [simpl in *; lia|].
      apply read_data.
      * destruct (Z.to_nat n) eqn:E'; [lia|done].
      * unfold len. rewrite length_take. lia.
      * simpl delivered at 2. rewrite app_comm_cons, app_assoc, <-E, take_drop. done.
      * done.
      * rewrite length_take. simpl in *. lia.
    + destruct chunk as [|b chunk]; [by apply read_eof|].
      apply read_data; try done. simpl. lia.
  - destruct kind; try (by apply read_fault). apply read_interrupted; try done. simpl. lia.
Qed.

Lemma read_retrying_spec n reader :
  1 ≤ n →
  ∃ reader',
    (delivered reader = [] ∧
     read_retrying n reader = (match fault_of reader with None => Ok [] | Some k => Err k end, reader')) ∨
    (∃ w rest, delivered reader = w ++ rest ∧ w ≠ [] ∧ len w ≤ n ∧
      read_retrying n reader = (Ok w, reader') ∧
      delivered reader' = rest ∧ fault_of reader' = fault_of reader ∧
      (reader_size reader' < reader_size reader)%nat).
Proof.
  intros Hn. unfold read_retrying. induction reader as [|step reader IH].
  { exists []. by left. }
  destruct (decide (step = Fault Interrupted)) as [->|Hstep].
  { destruct IH as (reader' & [[? ?]|(w & rest & ? & ? & ? & ? & ? & ? & ?)]); exists reader'; [by left|].
    right. exists w, rest. simpl. split_and!; try done. lia. }
  assert (read_retrying_loop n (step :: reader) = reader_read n (step :: reader)) as ->.
  { by destruct step as [|[]]. }
  pose proof (reader_read_spec n (step :: reader) Hn) as Hs.
  destruct (reader_read n (step :: reader)) as [r rd] eqn:E. exists rd.
  inversion Hs as [rd' Hd Hf|rd' ? ? ?|kind rd' Hk Hd Hf|w rd' Hw Hl Hd Hf Hsz]; subst.
  - left. by rewrite Hf.
  - exfalso. destruct step as [chunk|kind]; simpl in E; [by destruct (_ <? _)|congruence].
  - left. by rewrite Hf.
  - right. exists w, (delivered rd). destruct w; [done|]. split_and!; try done. simpl in *. lia.
Qed.

Lemma read_exact_spec n reader :
  0 ≤ n →
  (n ≤ len (delivered reader) ∧
   ∃ reader', read_exact n reader = (Ok (take (Z.to_nat n) (delivered reader)), reader') ∧
     delivered reader' = drop (Z.to_nat n) (delivered reader) ∧
     fault_of reader' = fault_of reader ∧ (reader_size reader' ≤ reader_size reader)%nat) ∨
  (len (delivered reader) < n ∧
   (read_exact n reader).1 = Err (default UnexpectedEof (fault_of reader))).
Proof.
  unfold read_exact. intros Hn. revert n Hn. induction reader as [|[chunk|kind] reader IH]; intros n Hn; simpl.
  - destruct (Z.leb_spec n 0).
    + left. replace n with 0 by lia. split; [done|]. by exists [].
    + right. split; [done|done].
  - destruct (Z.leb_spec n 0).
    { left. replace n with 0 by lia. destruct chunk; (split; [apply len_nonneg|]); by eexists. }
    destruct chunk as [|b chunk]; [right; split; [done|done]|].
    destruct (Z.ltb_spec n (len (b :: chunk))) as [Hlt|Hge].
    + left. change (b :: chunk ++ delivered reader) with ((b :: chunk) ++ delivered reader).
      rewrite len_app. pose proof (len_nonneg (delivered reader)). split; [lia|].
      assert (Hle : (Z.to_nat n < length (b :: chunk))%nat) by (unfold len in Hlt; lia).
      exists (Data (drop (Z.to_nat n) (b :: chunk)) :: reader).
      rewrite take_app_le, drop_app_le by lia. split; [done|].
      pose proof (length_drop (b :: chunk) (Z.to_nat n)) as Hd.
      destruct (drop (Z.to_nat n) (b :: chunk)) as [|b' d] eqn:E; [simpl in Hd, Hle; lia|].
      split_and!; [done|done|]. simpl in *. lia.
    + change (b :: chunk ++ delivered reader) with ((b :: chunk) ++ delivered reader).
      rewrite len_app.
      assert (Hn' : 0 ≤ n - len (b :: chunk)) by lia.
      destruct (IH (n - len (b :: chunk)) Hn') as [(Hle & reader' & -> & Hd & Hf & Hs)|[Hlt Herr]].
      * left. split; [lia|]. exists reader'.
        assert (Z.to_nat n = length (b :: chunk) + Z.to_nat (n - len (b :: chunk)))%nat as ->.
        { unfold len in *. lia. }
        rewrite take_app_add, drop_app_add. split_and!; try done. simpl. lia.
      * right. split; [lia|]. destruct (read_exact_loop (n - len (b :: chunk)) reader) as [[]]; simpl in *; done.
  - destruct (Z.leb_spec n 0).
    { left. replace n with 0 by lia. destruct kind; (split; [apply len_nonneg|]); by eexists. }
    destruct kind; try (right; split; [done|done]).
    destruct (IH n Hn) as [(Hle & reader' & -> & Hd & Hf & Hs)|?]; [left|by right].
    split; [done|]. exists reader'. split_and!; try done. lia.
Qed.
