(* ===== verification/Reads.v ===== *)
(** * Readers and the grammar they accept

    A reader of bytes is a state transformer on the unread ones.  The relation of
    a composed reader follows from those of its parts by instance resolution. *)

From Stdlib Require Import Strings.Byte.
From stdpp Require Import base tactics numbers list.
From S2P Require Import Prelude Bytes.

(** [Reads m R] says that the reader [m] accepts exactly the words of the
    relation [R]: it consumes a word of [R] for the value it returns, accepts
    every word of [R] in front of anything, and never panics. *)

Class Reads {E A} (m : st bytes E A) (R : A → bytes → Prop) : Prop := {
  reads_no_panic cur : (m cur).1 ≠ Panic;
  reads_sound cur a rest : m cur = (Ok a, rest) → ∃ w, R a w ∧ cur = w ++ rest;
  reads_complete a w rest : R a w → m (w ++ rest) = (Ok a, rest);
}.

Lemma reads_ext {E A} (m : st bytes E A) (R R' : A → bytes → Prop) :
  Reads m R → (∀ a w, R a w ↔ R' a w) → Reads m R'.
Proof.
  intros [Hn Hs Hc] HR. split.
  - done.
  - intros cur a rest (w & Hw & ->)%Hs. exists w. by rewrite <-HR.
  - intros a w rest Hw%HR. by apply Hc.
Qed.

#[global] Instance reads_ret {E A} (x : A) : Reads (E:=E) (mret x) (λ a w, a = x ∧ w = []).
Proof.
  split; munfold_goal.
  - done.
  - intros cur a rest [= <- <-]. by exists [].
  - by intros a w rest [-> ->].
Qed.

#[global] Instance reads_throw {E A} (e : E) : Reads (A:=A) (mthrow e) (λ _ _, False).
Proof. by split. Qed.

#[global] Instance reads_refuse {E} b (e : E) : Reads (refuse_if b e) (λ _ w, b = false ∧ w = []).
Proof.
  destruct b.
  - split; [done..|]. by intros a w rest [? _].
  - split; munfold_goal; [done| |by intros [] w rest [_ ->]].
    intros cur a rest [= <- <-]. by exists [].
Qed.

(** The rest of a reader may depend on what was read. *)
Lemma reads_bind_read {E A B} (m : st bytes E A) (k : A → st bytes E B) Rm Rk :
  Reads m Rm → (∀ a w, Rm a w → Reads (k a) (Rk a)) →
  Reads (m ≫= k) (λ b w, ∃ a w1 w2, w = w1 ++ w2 ∧ Rm a w1 ∧ Rk a b w2).
Proof.
  intros [Hn Hs Hc] Hk. split; munfold_goal.
  - intros cur. specialize (Hn cur). destruct (m cur) as [[a|e|] rest] eqn:Hm; [|done..].
    apply Hs in Hm as (w & Ha%Hk & _). apply (reads_no_panic (m := k a)).
  - intros cur b rest. destruct (m cur) as [[a|e|] rest1] eqn:Hm; [|done..].
    apply Hs in Hm as (w1 & HR1 & ->). specialize (Hk _ _ HR1). intros (w2 & HR2 & ->)%(reads_sound (m := k a)).
    exists (w1 ++ w2). rewrite <-app_assoc. eauto 10.
  - intros b w rest (a & w1 & w2 & -> & HR1 & HR2). specialize (Hk _ _ HR1).
    rewrite <-app_assoc, (Hc a) by done. by apply (reads_complete (m := k a)).
Qed.

#[global] Instance reads_bind {E A B} (m : st bytes E A) (k : A → st bytes E B) Rm Rk :
  Reads m Rm → (∀ a, Reads (k a) (Rk a)) →
  Reads (m ≫= k) (λ b w, ∃ a w1 w2, w = w1 ++ w2 ∧ Rm a w1 ∧ Rk a b w2).
Proof. intros Hm Hk. apply reads_bind_read; [done|]. intros a _ _. apply Hk. Qed.

#[global] Instance reads_if {E A} (c : bool) (m1 m2 : st bytes E A) R1 R2 :
  Reads m1 R1 → Reads m2 R2 → Reads (if c then m1 else m2) (λ a w, if c then R1 a w else R2 a w).
Proof. by destruct c. Qed.

(** A check of the remaining bytes that no accepted word fails. *)
Lemma reads_peek {E A} (m : st bytes E A) R (check : bytes → bool) (e : E) :
  Reads m R → (∀ a w rest, R a w → check (w ++ rest) = false) →
  Reads (rest ← get; refuse_if (check rest) e;; m) R.
Proof.
  intros [Hn Hs Hc] Hcheck. split; munfold_goal.
  - intros cur. destruct (check cur); [done|apply Hn].
  - intros cur a rest. destruct (check cur); [done|apply Hs].
  - intros a w rest Hw. rewrite (Hcheck a w rest Hw). by apply Hc.
Qed.

(** The next [n] bytes. *)
Lemma reads_taken {E} (e : E) n :
  Reads (rest ← get; refuse_if (len rest <? n)%Z e;; put (drop (Z.to_nat n) rest);; mret (take (Z.to_nat n) rest))
    (λ v w, v = w ∧ len w = Z.max 0 n).
Proof.
  unfold len. split; munfold_goal.
  - intros cur. by destruct (_ <? _)%Z.
  - intros cur v rest. destruct (Z.ltb_spec (Z.of_nat (length cur)) n); [done|].
    intros [= <- <-]. exists (take (Z.to_nat n) cur). rewrite take_drop, length_take.
    split_and!; [done|lia|done].
  - intros v w rest [-> Hw].
    destruct (Z.ltb_spec (Z.of_nat (length (w ++ rest))) n); [rewrite length_app in *; lia|].
    replace (Z.to_nat n) with (length w) by lia. by rewrite take_app_length, drop_app_length.
Qed.

#[global] Instance reads_ok_or {E A} (o : option A) (e : E) : Reads (ok_or o e) (λ a w, o = Some a ∧ w = []).
Proof.
  destruct o as [x|]; split; munfold_goal.
  - done.
  - intros cur a rest [= <- <-]. by exists [].
  - by intros a w rest [[= ->] ->].
  - done.
  - done.
  - by intros a w rest [? _].
Qed.

Lemma reads_lift {E A} (m : res E A) : m ≠ Panic → Reads (lift m) (λ a w, m = Ok a ∧ w = []).
Proof.
  intros Hm. split; munfold_goal.
  - done.
  - intros cur a rest [= -> <-]. by exists [].
  - by intros a w rest [-> ->].
Qed.

(** What a reader does with an input, as one equivalence. *)
Lemma reads_iff {E A} (m : st bytes E A) R `{!Reads m R} cur a rest :
  m cur = (Ok a, rest) ↔ ∃ w, R a w ∧ cur = w ++ rest.
Proof. split; [apply reads_sound|]. intros (w & Hw & ->). by apply reads_complete. Qed.

(** One step of a reader that is not of this kind as a whole. *)
Lemma run_reads {E A B} (m : st bytes E A) {R} `{!Reads m R} (k : A → st bytes E B) cur b rest :
  (m ≫= k) cur = (Ok b, rest) ↔ ∃ a w mid, R a w ∧ cur = w ++ mid ∧ k a mid = (Ok b, rest).
Proof.
  munfold_goal. split.
  - destruct (m cur) as [[a|e|] mid] eqn:Hm; [|done..]. intros Hk. apply (reads_iff m R) in Hm as (w & Hw & ->). eauto 10.
  - intros (a & w & mid & Hw & -> & Hk). by rewrite (reads_complete a).
Qed.
Lemma run_then {E A B} (m : st bytes E A) (k : A → st bytes E B) cur b rest :
  (m ≫= k) cur = (Ok b, rest) ↔ ∃ a mid, m cur = (Ok a, mid) ∧ k a mid = (Ok b, rest).
Proof.
  munfold_goal. split; [|by intros (a & mid & -> & Hk)]. destruct (m cur) as [[a|e|] mid]; [|done..]. eauto.
Qed.
Lemma run_refuse {E A} (c : bool) (e : E) (m : st bytes E A) cur b rest :
  (refuse_if c e;; m) cur = (Ok b, rest) ↔ c = false ∧ m cur = (Ok b, rest).
Proof. destruct c; munfold_goal; naive_solver. Qed.
Lemma run_get {E A} (k : bytes → st bytes E A) cur b rest : (x ← get; k x) cur = (Ok b, rest) ↔ k cur cur = (Ok b, rest).
Proof. done. Qed.
Lemma run_lift {E A} (m : res E A) cur b rest : lift m cur = (Ok (E:=E) b, rest) ↔ m = Ok b ∧ rest = (cur : bytes).
Proof. unfold lift. naive_solver. Qed.
