(* ===== verification/Crc.v ===== *)
(** * The journal checksum

    [crc32] and [crc32_parts] of [crates/fa-journal/src/journal_core.rs]: the
    bitwise CRC-32 of the reflected polynomial [0xedb88320].  The development
    reads the register update as a linear map over bits, which gives the
    guarantee a frame checksum is there for: any corruption confined to four
    adjacent bytes changes it. *)

From Stdlib Require Import Strings.Byte.
From stdpp Require Import base tactics numbers list.
From S2P Require Import Prelude Bytes.

Local Open Scope Z_scope.

(** ** Model *)

Definition u32_wrapping_sub (a b : Z) : Z := (a - b) mod 4294967296.
(** [!crc] on [u32]. *)
Definition u32_not (z : Z) : Z := Z.lxor z U32_MAX.

Definition crc_poly : Z := 3988292384.

(** One round of the inner loop. *)
Definition crc_bit (crc : Z) : Z :=
  Z.lxor (Z.shiftr crc 1) (Z.land crc_poly (u32_wrapping_sub 0 (Z.land crc 1))).

Definition crc_bits (n : nat) (crc : Z) : Z := Nat.iter n crc_bit crc.

Definition crc_byte (crc : Z) (b : byte) : Z := crc_bits 8 (Z.lxor crc (byte_val b)).

Definition crc_part (crc : Z) (bs : bytes) : Z := foldl crc_byte crc bs.

Definition crc32_parts (parts : list bytes) : Z := u32_not (foldl crc_part U32_MAX parts).

Definition crc32 (bs : bytes) : Z := crc32_parts [bs].

(** ** Words of 32 bits *)

Lemma is_u32_mod z : is_u32 z ↔ z mod 2 ^ 32 = z.
Proof.
  unfold is_u32. split; [intros; apply Z.mod_small; lia|].
  intros <-. pose proof (Z.mod_pos_bound z (2 ^ 32)). lia.
Qed.

Lemma is_u32_testbit z i : is_u32 z → 32 ≤ i → Z.testbit z i = false.
Proof. intros Hz Hi. apply is_u32_mod in Hz as <-. by apply Z.mod_pow2_bits_high. Qed.

Lemma is_u32_bits z : (∀ i, 32 ≤ i → Z.testbit z i = false) → is_u32 z.
Proof.
  intros Hz. apply is_u32_mod, Z.bits_inj'. intros i Hi.
  destruct (decide (i < 32)).
  - by apply Z.mod_pow2_bits_low.
  - rewrite Z.mod_pow2_bits_high, Hz by lia. done.
Qed.

Lemma is_u32_lxor a b : is_u32 a → is_u32 b → is_u32 (Z.lxor a b).
Proof.
  intros Ha Hb. apply is_u32_bits. intros i Hi.
  by rewrite Z.lxor_spec, !is_u32_testbit.
Qed.

Lemma byte_is_u32 b : is_u32 (byte_val b).
Proof. pose proof (byte_val_range b). unfold is_u32. lia. Qed.

(** ** The register update is linear *)

Lemma crc_bit_eq c :
  crc_bit c = Z.lxor (Z.shiftr c 1) (if Z.testbit c 0 then crc_poly else 0).
Proof.
  unfold crc_bit. f_equal. change 1 with (Z.ones 1) at 1. rewrite Z.land_ones by lia.
  rewrite <-Z.bit0_mod. by destruct (Z.testbit c 0).
Qed.

Lemma crc_bit_lxor a b : crc_bit (Z.lxor a b) = Z.lxor (crc_bit a) (crc_bit b).
Proof.
  rewrite !crc_bit_eq. apply Z.bits_inj'. intros i Hi.
  rewrite Z.shiftr_lxor, !Z.lxor_spec.
  destruct (Z.testbit a 0), (Z.testbit b 0), (Z.testbit (Z.shiftr a 1) i),
    (Z.testbit (Z.shiftr b 1) i), (Z.testbit crc_poly i) eqn:E; simpl;
    rewrite ?E, ?Z.bits_0; reflexivity.
Qed.

Lemma crc_bit_u32 c : is_u32 c → is_u32 (crc_bit c).
Proof.
  intros Hc. rewrite crc_bit_eq. apply is_u32_lxor.
  - apply is_u32_bits. intros i Hi. rewrite Z.shiftr_spec by lia. apply is_u32_testbit; [done|lia].
  - unfold is_u32. destruct (Z.testbit c 0); vm_compute; split; discriminate.
Qed.

(** The top bit of the polynomial records the bit that was shifted out. *)
Lemma crc_bit_kernel c : is_u32 c → crc_bit c = 0 → c = 0.
Proof.
  intros Hc H0. rewrite crc_bit_eq in H0.
  assert (Z.testbit c 0 = false) as Hb.
  { apply (f_equal (λ z, Z.testbit z 31)) in H0.
    rewrite Z.lxor_spec, Z.shiftr_spec, is_u32_testbit, Z.bits_0 in H0 by (done || lia).
    by destruct (Z.testbit c 0). }
  rewrite Hb, Z.lxor_0_r in H0. apply Z.bits_inj'. intros i Hi. rewrite Z.bits_0.
  destruct (decide (i = 0)) as [->|]; [done|].
  apply (f_equal (λ z, Z.testbit z (i - 1))) in H0.
  rewrite Z.shiftr_spec, Z.bits_0, Z.sub_add in H0 by lia. done.
Qed.

Lemma crc_bits_S n c : crc_bits (S n) c = crc_bits n (crc_bit c).
Proof. unfold crc_bits. by rewrite Nat.iter_succ_r. Qed.

Lemma crc_bits_add m n c : crc_bits (m + n) c = crc_bits m (crc_bits n c).
Proof. unfold crc_bits. apply Nat.iter_add. Qed.

Lemma crc_bits_lxor n a b : crc_bits n (Z.lxor a b) = Z.lxor (crc_bits n a) (crc_bits n b).
Proof.
  revert a b. induction n as [|n IH]; intros a b; [done|].
  by rewrite !crc_bits_S, crc_bit_lxor, IH.
Qed.

Lemma crc_bits_u32 n c : is_u32 c → is_u32 (crc_bits n c).
Proof.
  revert c. induction n as [|n IH]; intros c Hc; [done|].
  rewrite crc_bits_S. by apply IH, crc_bit_u32.
Qed.

Lemma crc_bits_kernel n c : is_u32 c → crc_bits n c = 0 → c = 0.
Proof.
  revert c. induction n as [|n IH]; intros c Hc H0; [done|].
  rewrite crc_bits_S in H0. apply crc_bit_kernel; [done|]. apply IH; [by apply crc_bit_u32|done].
Qed.

Lemma crc_bits_inj n a b : is_u32 (Z.lxor a b) → crc_bits n a = crc_bits n b → a = b.
Proof.
  intros Hab E. apply Z.lxor_eq, (crc_bits_kernel n); [done|].
  by rewrite crc_bits_lxor, E, Z.lxor_nilpotent.
Qed.

(** Bits that were shifted in below are shifted out again, unchanged. *)
Lemma crc_bits_shiftl n x : crc_bits n (Z.shiftl x (Z.of_nat n)) = x.
Proof.
  induction n as [|n IH]; [apply Z.shiftl_0_r|].
  rewrite crc_bits_S, crc_bit_eq, Z.shiftl_spec_low by lia. rewrite Z.lxor_0_r.
  rewrite Z.shiftr_shiftl_l by lia.
  replace (Z.of_nat (S n) - 1) with (Z.of_nat n) by lia. done.
Qed.

(** ** Bytes enter the register as one little-endian word *)

Lemma byte_word b v : byte_val b + 256 * v = Z.lxor (byte_val b) (Z.shiftl v 8).
Proof.
  rewrite Z.shiftl_mul_pow2 by lia. change (2 ^ 8) with 256.
  rewrite (Z.mul_comm v). apply Z.add_nocarry_lxor, Z.bits_inj'. intros i Hi.
  rewrite Z.land_spec, Z.bits_0. change 256 with (2 ^ 8).
  rewrite (Z.mul_comm (2 ^ 8)), <-Z.shiftl_mul_pow2 by lia.
  destruct (decide (i < 8)).
  - by rewrite Z.shiftl_spec_low, andb_false_r by done.
  - rewrite <-(Z.mod_small (byte_val b) (2 ^ 8)) by apply byte_val_range.
    by rewrite Z.mod_pow2_bits_high by lia.
Qed.

Lemma crc_part_word c bs : crc_part c bs = crc_bits (8 * length bs) (Z.lxor c (le_val bs)).
Proof.
  revert c. induction bs as [|b bs IH]; intros c.
  { cbn. by rewrite Z.lxor_0_r. }
  change (crc_part c (b :: bs)) with (crc_part (crc_byte c b) bs).
  rewrite IH. change (le_val (b :: bs)) with (byte_val b + 256 * le_val bs).
  rewrite byte_word. simpl length. rewrite Nat.mul_succ_r, crc_bits_add.
  f_equal. unfold crc_byte. rewrite <-Z.lxor_assoc, (crc_bits_lxor 8 (Z.lxor c (byte_val b))).
  f_equal. symmetry. apply (crc_bits_shiftl 8).
Qed.

Lemma crc_part_app c xs ys : crc_part c (xs ++ ys) = crc_part (crc_part c xs) ys.
Proof. apply foldl_app. Qed.

Lemma crc_byte_u32 c b : is_u32 c → is_u32 (crc_byte c b).
Proof. intros Hc. apply crc_bits_u32, is_u32_lxor; [done|apply byte_is_u32]. Qed.

Lemma crc_part_u32 c bs : is_u32 c → is_u32 (crc_part c bs).
Proof. revert c. induction bs as [|b bs IH]; intros c Hc; [done|]. by apply IH, crc_byte_u32. Qed.

Lemma crc_byte_inj c c' b : is_u32 c → is_u32 c' → crc_byte c b = crc_byte c' b → c = c'.
Proof.
  unfold crc_byte. intros Hc Hc' E%crc_bits_inj.
  - apply (f_equal (Z.lxor (byte_val b))) in E.
    by rewrite (Z.lxor_comm c), (Z.lxor_comm c'), <-!Z.lxor_assoc, Z.lxor_nilpotent, !Z.lxor_0_l in E.
  - apply is_u32_lxor; apply is_u32_lxor; auto using byte_is_u32.
Qed.

Lemma crc_part_cons c b bs : crc_part c (b :: bs) = crc_part (crc_byte c b) bs.
Proof. reflexivity. Qed.

Lemma crc_part_inj c c' bs :
  is_u32 c → is_u32 c' → crc_part c bs = crc_part c' bs → c = c'.
Proof.
  revert c c'. induction bs as [|b bs IH]; intros c c' Hc Hc' E; [done|].
  rewrite !crc_part_cons in E.
  apply (crc_byte_inj c c' b Hc Hc'), IH; [by apply crc_byte_u32..|done].
Qed.

Lemma le_val_is_u32 bs : (length bs ≤ 4)%nat → is_u32 (le_val bs).
Proof.
  intros Hlen. pose proof (le_val_range bs). unfold is_u32, len in *.
  assert (256 ^ Z.of_nat (length bs) ≤ 256 ^ 4); [|lia].
  apply Z.pow_le_mono_r; lia.
Qed.

Lemma u32_max_u32 : is_u32 U32_MAX.
Proof. unfold is_u32. lia. Qed.

Lemma u32_not_u32 z : is_u32 z → is_u32 (u32_not z).
Proof. intros. by apply is_u32_lxor, u32_max_u32. Qed.

Lemma u32_not_inj a b : u32_not a = u32_not b → a = b.
Proof.
  unfold u32_not. intros E. apply (f_equal (λ z, Z.lxor z U32_MAX)) in E.
  by rewrite !Z.lxor_assoc, Z.lxor_nilpotent, !Z.lxor_0_r in E.
Qed.

Lemma crc32_parts_concat parts : crc32_parts parts = crc32 (concat parts).
Proof.
  unfold crc32, crc32_parts. f_equal. simpl. generalize U32_MAX as c.
  induction parts as [|p parts IH]; intros c; simpl; [done|]. by rewrite IH, crc_part_app.
Qed.

Lemma crc32_parts_two a b : crc32_parts [a; b] = crc32 (a ++ b).
Proof. rewrite crc32_parts_concat. simpl. by rewrite app_nil_r. Qed.

Lemma crc32_parts_u32 parts : is_u32 (crc32_parts parts).
Proof.
  rewrite crc32_parts_concat. apply u32_not_u32, crc_part_u32, u32_max_u32.
Qed.
Lemma crc32_u32 bs : is_u32 (crc32 bs).
Proof. apply crc32_parts_u32. Qed.

(** A burst of at most four bytes changes the register. *)
Lemma crc_part_burst c w w' :
  length w = length w' → (length w ≤ 4)%nat → crc_part c w = crc_part c w' → w = w'.
Proof.
  intros Hlen Hle E. rewrite !crc_part_word, <-Hlen in E. apply crc_bits_inj in E.
  - apply (f_equal (Z.lxor c)) in E. rewrite <-!Z.lxor_assoc, Z.lxor_nilpotent, !Z.lxor_0_l in E.
    by rewrite <-(le_bytes_le_val w), <-(le_bytes_le_val w'), Hlen, E.
  - rewrite (Z.lxor_comm c), Z.lxor_assoc, <-(Z.lxor_assoc c), Z.lxor_nilpotent, Z.lxor_0_l.
    apply is_u32_lxor; apply le_val_is_u32; lia.
Qed.

(** A message followed by its checksum leaves a fixed residue. *)
Lemma crc_residue m cks :
  length cks = 4%nat →
  le_val cks = crc32 m ↔ crc_part U32_MAX (m ++ cks) = crc_bits 32 U32_MAX.
Proof.
  intros Hlen. rewrite crc_part_app, crc_part_word, Hlen. change (8 * 4)%nat with 32%nat.
  assert (crc32 m = u32_not (crc_part U32_MAX m)) as -> by done.
  pose proof (crc_part_u32 U32_MAX m u32_max_u32) as Hc. set (c := crc_part U32_MAX m) in *.
  assert (is_u32 (le_val cks)) as Hv by (apply le_val_is_u32; lia). unfold u32_not. split.
  - intros ->. by rewrite <-Z.lxor_assoc, Z.lxor_nilpotent, Z.lxor_0_l.
  - intros E%crc_bits_inj.
    + by rewrite <-E, <-Z.lxor_assoc, Z.lxor_nilpotent, Z.lxor_0_l.
    + by repeat apply is_u32_lxor; try apply u32_max_u32.
Qed.

(** ** Properties *)

(** The checksum of several parts is the checksum of their
    concatenation and fits its four bytes, and it detects every burst: two
    messages that differ only inside one window of at most four bytes never
    have the same checksum. *)
Theorem crc32_detects_bursts (pre w w' post : bytes) (parts : list bytes) :
  length w = length w' → (length w ≤ 4)%nat → w ≠ w' →
  crc32 (pre ++ w ++ post) ≠ crc32 (pre ++ w' ++ post) ∧
  crc32_parts parts = crc32 (concat parts) ∧ is_u32 (crc32_parts parts).
Proof.
  intros Hlen Hle Hne. split; [|auto using crc32_parts_concat, crc32_parts_u32].
  intros E. apply u32_not_inj in E. simpl in E. rewrite !crc_part_app in E.
  apply crc_part_inj in E; [|by repeat apply crc_part_u32; apply u32_max_u32..].
  by apply crc_part_burst in E.
Qed.

Lemma crc32_detects_bursts_witness :
  crc32 (ascii_bytes "123456789") = 3421780262 ∧
  crc32 (ascii_bytes "123456789") ≠ crc32 (ascii_bytes "12x45y789").
Proof.
  split; [vm_compute; reflexivity|].
  refine (proj1 (crc32_detects_bursts (ascii_bytes "12") (ascii_bytes "3456") (ascii_bytes "x45y")
    (ascii_bytes "789") [] eq_refl _ _)); [simpl; lia|discriminate].
Defined.
