(* ===== verification/Wire.v ===== *)
(** * The journal's event codec

    [Error], [Event], [encode_event], [put_bytes], [Cursor] and [decode_event]
    of [crates/fa-journal/src/journal_core.rs].  The encoder appends to a
    buffer under a byte limit; the decoder is a cursor over the rest of the
    record body, here a state monad over the bytes that are left. *)

From Stdlib Require Import Strings.Byte Strings.String.
From stdpp Require Import base tactics numbers list gmap sets strings.
From S2P Require Import Prelude Bytes Reads Reader Judgment Rights.

Local Open Scope Z_scope.

(** ** Errors and events *)

Inductive JournalError :=
  | JIo (kind : IoKind)
  | JModel (error : Error)
  | JInvalidInput
  | JLimit
  | JCorrupt (what : string)
  | JBinding
  | JBehindAnchor.

#[global] Instance JournalError_eq_dec : EqDecision JournalError.
Proof. solve_decision. Defined.

Inductive Event :=
  | EReserve (id : Z) (effect : Effect)
  | EDispatch (id : Z) (effect : Effect)
  | EMarkUnknown (id : Z)
  | EAbortBeforeDispatch (id : Z)
  | EReconcile (id : Z) (occurred : bool)
  | ERevokeEpoch
  | EResetToCheckpoint (keep : gset Z).

#[global] Instance Event_eq_dec : EqDecision Event.
Proof. solve_decision. Defined.

(** ** Encoder *)

Definition put_bytes (out bs : bytes) (limit : Z) : res JournalError bytes :=
  let stop := n ← u64_checked_add (len out) 4; u64_checked_add n (len bs) in
  refuse_if (is_none_or stop (λ n, limit <? n)) JLimit;;
  mret (out ++ le_bytes 4 (len bs) ++ bs).

Definition encode_effect (tag : byte) (id : Z) (effect : Effect) (limit : Z)
    : res JournalError bytes :=
  let out := [tag] ++ le_bytes 8 id ++ le_bytes 8 (ef_units effect) in
  out ← put_bytes out (ef_principal effect) limit;
  out ← put_bytes out (ef_resolved_target effect) limit;
  put_bytes out (ef_payload effect) limit.

Definition encode_event (event : Event) (limit : Z) : res JournalError bytes :=
  out ← match event with
    | EReserve id effect => encode_effect x01 id effect limit
    | EDispatch id effect => encode_effect x02 id effect limit
    | EMarkUnknown id => mret (x03 :: le_bytes 8 id)
    | EAbortBeforeDispatch id => mret (x04 :: le_bytes 8 id)
    | EReconcile id occurred => mret (x05 :: le_bytes 8 id ++ [if occurred then x01 else x00])
    | ERevokeEpoch => mret [x06]
    | EResetToCheckpoint keep =>
      let ids := set_values keep in
      let required := n ← u64_checked_mul (len ids) 8; u64_checked_add n 5 in
      refuse_if (is_none_or required (λ n, limit <? n)) JLimit;;
      mret (x07 :: le_bytes 4 (len ids) ++ concat (le_bytes 8 <$> ids))
    end;
  refuse_if (limit <? len out) JLimit;;
  mret out.

(** ** Decoder *)

(** The rest of a record body. *)
Abbreviation Cursor := (st bytes JournalError).

Definition cursor_take (count : Z) : Cursor bytes :=
  rest ← get;
  refuse_if (len rest <? count) (JCorrupt "short event");;
  put (drop (Z.to_nat count) rest);;
  mret (take (Z.to_nat count) rest).

Definition cursor_u8 : Cursor Z :=
  v ← cursor_take 1;
  match v with b :: _ => mret (byte_val b) | [] => lift Panic end.

Definition cursor_u32 : Cursor Z := v ← cursor_take 4; mret (le_val v).

Definition cursor_u64 : Cursor Z := v ← cursor_take 8; mret (le_val v).

Definition cursor_bytes : Cursor bytes := length ← cursor_u32; cursor_take length.

Definition cursor_string : Cursor bytes :=
  v ← cursor_bytes;
  refuse_if (negb (utf8_valid v)) (JCorrupt "invalid UTF-8");;
  mret v.

(** The loop that reads a checkpoint set. *)
Fixpoint decode_keep (count : nat) (keep : gset Z) (previous : option Z) : Cursor (gset Z) :=
  match count with
  | O => mret keep
  | S count =>
    id ← cursor_u64;
    refuse_if (match previous with Some last => id <=? last | None => false end)
      (JCorrupt "noncanonical checkpoint set");;
    decode_keep count ({[id]} ∪ keep) (Some id)
  end.

Definition decode_effect : Cursor (Z * Effect) :=
  id ← cursor_u64;
  units ← cursor_u64;
  principal ← cursor_string;
  resolved_target ← cursor_string;
  payload ← cursor_bytes;
  mret (id, mkEffect principal resolved_target payload units).

Definition decode_body (tag : Z) : Cursor Event :=
  if tag =? 1 then '(id, effect) ← decode_effect; mret (EReserve id effect)
  else if tag =? 2 then '(id, effect) ← decode_effect; mret (EDispatch id effect)
  else if tag =? 3 then id ← cursor_u64; mret (EMarkUnknown id)
  else if tag =? 4 then id ← cursor_u64; mret (EAbortBeforeDispatch id)
  else if tag =? 5 then
    id ← cursor_u64;
    v ← cursor_u8;
    if v =? 0 then mret (EReconcile id false)
    else if v =? 1 then mret (EReconcile id true)
    else mthrow (JCorrupt "noncanonical boolean")
  else if tag =? 6 then mret ERevokeEpoch
  else if tag =? 7 then
    count ← cursor_u32;
    rest ← get;
    refuse_if (len rest / 8 <? count) (JCorrupt "checkpoint length");;
    keep ← decode_keep (Z.to_nat count) ∅ None;
    mret (EResetToCheckpoint keep)
  else mthrow (JCorrupt "unknown event").

Definition decode_event_cursor : Cursor Event :=
  tag ← cursor_u8;
  event ← decode_body tag;
  rest ← get;
  refuse_if (negb (bytes_is_empty rest)) (JCorrupt "trailing event bytes");;
  mret event.

Definition decode_event (bs : bytes) : res JournalError Event := (decode_event_cursor bs).1.

(** ** The canonical form of an event *)

Definition wire_bytes (bs : bytes) : bytes := le_bytes 4 (len bs) ++ bs.

Definition wire_effect (effect : Effect) : bytes :=
  le_bytes 8 (ef_units effect) ++ wire_bytes (ef_principal effect) ++
  wire_bytes (ef_resolved_target effect) ++ wire_bytes (ef_payload effect).

Definition wire_event (event : Event) : bytes :=
  match event with
  | EReserve id effect => x01 :: le_bytes 8 id ++ wire_effect effect
  | EDispatch id effect => x02 :: le_bytes 8 id ++ wire_effect effect
  | EMarkUnknown id => x03 :: le_bytes 8 id
  | EAbortBeforeDispatch id => x04 :: le_bytes 8 id
  | EReconcile id occurred => x05 :: le_bytes 8 id ++ [if occurred then x01 else x00]
  | ERevokeEpoch => [x06]
  | EResetToCheckpoint keep =>
    x07 :: le_bytes 4 (len (set_values keep)) ++ concat (le_bytes 8 <$> set_values keep)
  end.

(** The fields are in the range of their Rust types. *)
Definition effect_typed (e : Effect) : Prop :=
  is_u64 (ef_units e) ∧ utf8_valid (ef_principal e) = true ∧ utf8_valid (ef_resolved_target e) = true.
Definition event_typed (e : Event) : Prop :=
  match e with
  | EReserve id effect | EDispatch id effect => is_u64 id ∧ effect_typed effect
  | EMarkUnknown id | EAbortBeforeDispatch id | EReconcile id _ => is_u64 id
  | ERevokeEpoch => True
  | EResetToCheckpoint keep => set_Forall is_u64 keep
  end.

(** The lengths fit the four bytes that record them. *)
Definition effect_fits (e : Effect) : Prop :=
  is_u32 (len (ef_principal e)) ∧ is_u32 (len (ef_resolved_target e)) ∧ is_u32 (len (ef_payload e)).
Definition event_fits (e : Event) : Prop :=
  match e with
  | EReserve _ effect | EDispatch _ effect => effect_fits effect
  | EResetToCheckpoint keep => is_u32 (len (set_values keep))
  | _ => True
  end.

(** ** The readers of an event *)

#[global] Instance reads_take n : Reads (cursor_take n) (λ v w, v = w ∧ len w = Z.max 0 n).
Proof. apply reads_taken. Qed.

#[global] Instance reads_u8 : Reads cursor_u8 (λ z w, ∃ b, w = [b] ∧ z = byte_val b).
Proof.
  unfold cursor_u8. split; munfold_goal.
  - intros cur. destruct (cursor_take 1 cur) as [[v|e|] rest] eqn:E; [|done|].
    + apply (reads_sound (m := cursor_take 1)) in E as (w & [<- Hw] & _). by destruct v.
    + by destruct (reads_no_panic (m := cursor_take 1) cur); rewrite E.
  - intros cur z rest. destruct (cursor_take 1 cur) as [[v|e|] rest'] eqn:E; [|done..].
    apply (reads_sound (m := cursor_take 1)) in E as (w & [<- Hw] & ->).
    destruct v as [|b [|]]; [done| |by unfold len in Hw; simpl in Hw; lia].
    intros [= <- <-]. eauto.
  - intros z w rest (b & -> & ->). by rewrite (reads_complete [b] [b] rest).
Qed.

Lemma reads_le n (m : Cursor Z) :
  m = (v ← cursor_take (Z.of_nat n); mret (le_val v)) →
  Reads m (λ z w, 0 ≤ z < 256 ^ Z.of_nat n ∧ w = le_bytes n z).
Proof.
  intros ->. eapply reads_ext; [apply _|]. intros z w. simpl. split.
  - intros (v & w1 & w2 & -> & [-> Hw] & -> & ->). rewrite app_nil_r.
    assert (n = length w1) as -> by (unfold len in Hw; lia).
    rewrite le_bytes_le_val. split; [apply le_val_range|done].
  - intros [Hz ->]. exists (le_bytes n z), (le_bytes n z), [].
    rewrite app_nil_r, le_val_le_bytes, Z.mod_small by done.
    unfold len. rewrite length_le_bytes. split_and!; done || lia.
Qed.

#[global] Instance reads_u32 : Reads cursor_u32 (λ z w, is_u32 z ∧ w = le_bytes 4 z).
Proof.
  eapply reads_ext; [by apply (reads_le 4)|]. intros z w. unfold is_u32. simpl. intuition lia.
Qed.
#[global] Instance reads_u64 : Reads cursor_u64 (λ z w, is_u64 z ∧ w = le_bytes 8 z).
Proof.
  eapply reads_ext; [by apply (reads_le 8)|]. intros z w. unfold is_u64. simpl. intuition lia.
Qed.

#[global] Instance reads_bytes : Reads cursor_bytes (λ v w, is_u32 (len v) ∧ w = wire_bytes v).
Proof.
  eapply reads_ext; [unfold cursor_bytes; apply _|]. intros v w. simpl. unfold wire_bytes. split.
  - intros (z & w1 & w2 & -> & [Hz ->] & <- & Hlen). rewrite Hlen, Z.max_r by apply Hz. done.
  - intros [Hv ->]. exists (len v), (le_bytes 4 (len v)), v. rewrite Z.max_r by apply Hv. done.
Qed.

#[global] Instance reads_string :
  Reads cursor_string (λ v w, utf8_valid v = true ∧ is_u32 (len v) ∧ w = wire_bytes v).
Proof.
  eapply reads_ext; [unfold cursor_string; apply _|]. intros v w. simpl. split.
  - intros (v' & w1 & w2 & -> & [Hv ->] & [] & ? & ? & -> & [Hu ->] & -> & ->).
    rewrite !app_nil_r. by apply negb_false_iff in Hu.
  - intros (Hu & Hv & ->). exists v, (wire_bytes v), []. rewrite Hu, app_nil_r.
    split_and!; [done..|]. by exists tt, [], [].
Qed.

#[global] Instance reads_effect :
  Reads decode_effect (λ p w, is_u64 p.1 ∧ effect_typed p.2 ∧ effect_fits p.2 ∧
    w = le_bytes 8 p.1 ++ wire_effect p.2).
Proof.
  eapply reads_ext; [unfold decode_effect; apply _|]. intros [id e] w. cbn [fst snd]. split.
  - intros (? & ? & ? & -> & [? ->] & ? & ? & ? & -> & [? ->] & ? & ? & ? & -> & (? & ? & ->) &
      ? & ? & ? & -> & (? & ? & ->) & ? & ? & ? & -> & (? & ->) & [= -> ->] & ->).
    unfold effect_typed, effect_fits, wire_effect.
    cbn [ef_units ef_principal ef_resolved_target ef_payload]. by rewrite app_nil_r.
  - intros (Hid & (Hu & Hp & Ht) & (Hlp & Hlt & Hlq) & ->). destruct e as [p t q u].
    unfold wire_effect; cbn [ef_units ef_principal ef_resolved_target ef_payload] in *.
    exists id; do 2 eexists; split; [done|]. split; [done|].
    exists u; do 2 eexists; split; [done|]. split; [done|].
    exists p; do 2 eexists; split; [done|]. split; [done|].
    exists t; do 2 eexists; split; [done|]. split; [done|].
    exists q; do 2 eexists; split; [by rewrite app_nil_r|]. done.
Qed.

(** The checkpoint loop reads ascending identifiers above [previous]. *)
Lemma reads_keep count keep previous :
  Reads (decode_keep count keep previous) (λ keep' w, ∃ ids,
    length ids = count ∧ Forall is_u64 ids ∧ ascending previous ids ∧
    keep' = keep ∪ list_to_set ids ∧ w = concat (le_bytes 8 <$> ids)).
Proof.
  revert keep previous. induction count as [|count IH]; intros keep previous; simpl.
  { eapply reads_ext; [apply _|]. intros keep' w. simpl. split.
    - intros [-> ->]. exists []. split_and!; try done. simpl. set_solver.
    - intros ([|] & ? & _ & _ & -> & ->); [|done]. simpl. split; [set_solver|done]. }
  eapply reads_ext; [apply _|]. intros keep' w. simpl. split.
  - intros (id & ? & ? & -> & [Hid ->] & [] & ? & ? & -> & [Hasc ->] & ids & <- & Hids & Hasc' & -> & ->).
    exists (id :: ids). split_and!; simpl; try done.
    + by constructor.
    + split; [|done]. destruct previous; [|done]. by apply Z.leb_gt in Hasc.
    + set_solver.
  - intros ([|id ids] & Hlen & Hids & Hasc & -> & ->); simplify_eq/=.
    apply Forall_cons in Hids as [Hid Hids]. destruct Hasc as [Hp Hasc].
    exists id, (le_bytes 8 id), (concat (le_bytes 8 <$> ids)). split_and!; [done..|].
    exists tt, [], (concat (le_bytes 8 <$> ids)). split_and!; [done| |done|].
    + destruct previous; [|done]. by apply Z.leb_gt.
    + exists ids. split_and!; try done. set_solver.
Qed.

Lemma length_concat_le8 ids : len (concat (le_bytes 8 <$> ids)) = 8 * len ids.
Proof.
  induction ids as [|id ids IH]; [done|].
  rewrite fmap_cons, concat_cons, len_app, IH. unfold len. rewrite length_le_bytes. simpl. lia.
Qed.

#[local] Instance reads_checkpoint :
  Reads
    (count ← cursor_u32;
     rest ← get;
     refuse_if (len rest / 8 <? count) (JCorrupt "checkpoint length");;
     keep ← decode_keep (Z.to_nat count) ∅ None;
     mret (EResetToCheckpoint keep))
    (λ e w, ∃ keep, e = EResetToCheckpoint keep ∧ set_Forall is_u64 keep ∧
      is_u32 (len (set_values keep)) ∧
      w = le_bytes 4 (len (set_values keep)) ++ concat (le_bytes 8 <$> set_values keep)).
Proof.
  eapply reads_ext; [apply reads_bind; [apply _|intros count]|].
  { apply (reads_peek _ (λ e w, ∃ ids, length ids = Z.to_nat count ∧ Forall is_u64 ids ∧
      ascending None ids ∧ e = EResetToCheckpoint (list_to_set ids) ∧
      w = concat (le_bytes 8 <$> ids)) (λ rest, len rest / 8 <? count)).
    - eapply reads_ext; [apply reads_bind; [apply reads_keep|intros; apply _]|].
      intros e w. split.
      + intros (? & ? & ? & -> & (ids & ? & ? & ? & -> & ->) & -> & ->).
        exists ids. rewrite union_empty_l_L, app_nil_r. done.
      + intros (ids & ? & ? & ? & -> & ->). eexists (list_to_set ids), _, [].
        rewrite app_nil_r. split; [done|]. split; [|done].
        exists ids. by rewrite union_empty_l_L.
    - intros e w rest (ids & Hlen & _ & _ & _ & ->). apply Z.ltb_ge.
      rewrite len_app, length_concat_le8.
      apply Z.div_le_lower_bound; [lia|]. unfold len. lia. }
  intros e w. split.
  - intros (count & ? & ? & -> & [Hc ->] & ids & Hlen & Hids & Hasc & -> & ->).
    exists (list_to_set ids). rewrite set_values_ascending by done.
    assert (len ids = count) as -> by (unfold len, is_u32 in *; lia).
    split_and!; try done. intros id Hin%elem_of_list_to_set. by apply (proj1 (Forall_forall _ _) Hids).
  - intros (keep & -> & Hids & Hc & ->). exists (len (set_values keep)); do 2 eexists; split; [done|]. split; [done|].
    exists (set_values keep). rewrite list_to_set_set_values.
    split_and!; try done; [unfold len; lia| |apply ascending_set_values].
    apply Forall_forall. intros id Hin%elem_of_set_values. by apply Hids.
Qed.

#[local] Instance reads_pair {A B C} (m : Cursor (A * B)) (k : A → B → Cursor C) Rm Rk :
  Reads m Rm → (∀ a b, Reads (k a b) (Rk a b)) →
  Reads ('(a, b) ← m; k a b) (λ c w, ∃ p w1 w2, w = w1 ++ w2 ∧ Rm p w1 ∧ Rk p.1 p.2 c w2).
Proof.
  intros Hm Hk. apply reads_bind; [done|]. intros [a b]. apply Hk.
Qed.

Lemma byte_val_eqb b n : (byte_val b =? n) = bool_decide (b = byte_of n ∧ 0 ≤ n < 256).
Proof.
  destruct (Z.eqb_spec (byte_val b) n) as [<-|Hne]; symmetry.
  - apply bool_decide_eq_true. rewrite byte_of_val. split; [done|apply byte_val_range].
  - apply bool_decide_eq_false. intros [-> Hn]. rewrite byte_val_of, Z.mod_small in Hne; done.
Qed.

#[local] Instance reads_bool id :
  Reads
    (v ← cursor_u8;
     if v =? 0 then mret (EReconcile id false)
     else if v =? 1 then mret (EReconcile id true)
     else mthrow (JCorrupt "noncanonical boolean"))
    (λ e w, ∃ occurred : bool, e = EReconcile id occurred ∧ w = [if occurred then x01 else x00]).
Proof.
  eapply reads_ext; [apply _|]. intros e w. split.
  - intros (z & w1 & w2 & -> & (b & -> & ->) & Hw). rewrite !byte_val_eqb in Hw.
    case_bool_decide as H0; [destruct H0 as [-> _]|case_bool_decide as H1; [destruct H1 as [-> _]|done]];
      destruct Hw as [-> ->]; eauto.
  - intros (occurred & -> & ->). exists (if occurred then 1 else 0), [if occurred then x01 else x00], [].
    split; [done|]. destruct occurred; (split; [eauto|by simpl]).
Qed.

(** The body decoder accepts the canonical form of the events with its tag. *)
Lemma reads_body tag :
  Reads (decode_body tag) (λ e w, event_typed e ∧ event_fits e ∧
    ∃ b, byte_val b = tag ∧ wire_event e = b :: w).
Proof.
  eapply reads_ext; [unfold decode_body; apply _|]. intros e w. split.
  - destruct (Z.eqb_spec tag 1) as [->|]; [|destruct (Z.eqb_spec tag 2) as [->|]];
      [intros ([id ef] & ? & ? & -> & (? & ? & ? & ->) & -> & ->);
       rewrite app_nil_r; split_and!; try done; eexists; split; [|reflexivity]; reflexivity..|].
    destruct (Z.eqb_spec tag 3) as [->|]; [|destruct (Z.eqb_spec tag 4) as [->|]];
      [intros (id & ? & ? & -> & [? ->] & -> & ->);
       rewrite app_nil_r; split_and!; try done; eexists; split; [|reflexivity]; reflexivity..|].
    destruct (Z.eqb_spec tag 5) as [->|].
    { intros (id & ? & ? & -> & [? ->] & occurred & -> & ->). split_and!; try done. eexists; split; [|reflexivity]; reflexivity. }
    destruct (Z.eqb_spec tag 6) as [->|].
    { intros [-> ->]. split_and!; try done. eexists; split; [|reflexivity]; reflexivity. }
    destruct (Z.eqb_spec tag 7) as [->|]; [|done].
    intros (keep & -> & ? & ? & ->). split_and!; try done. eexists; split; [|reflexivity]; reflexivity.
  - intros (Hty & Hfit & b & <- & Hw).
    destruct e as [id ef|id ef|id|id|id occurred| |keep]; cbn [wire_event] in Hw;
      injection Hw as <- <-; cbn [event_typed event_fits] in *.
    + change (byte_val x01) with 1. cbn [Z.eqb Pos.eqb]. destruct Hty.
      exists (id, ef); do 2 eexists; split; [by rewrite app_nil_r|]. done.
    + change (byte_val x02) with 2. cbn [Z.eqb Pos.eqb]. destruct Hty.
      exists (id, ef); do 2 eexists; split; [by rewrite app_nil_r|]. done.
    + change (byte_val x03) with 3. cbn [Z.eqb Pos.eqb].
      exists id; do 2 eexists; split; [by rewrite app_nil_r|]. done.
    + change (byte_val x04) with 4. cbn [Z.eqb Pos.eqb].
      exists id; do 2 eexists; split; [by rewrite app_nil_r|]. done.
    + change (byte_val x05) with 5. cbn [Z.eqb Pos.eqb].
      exists id, (le_bytes 8 id), [if occurred then x01 else x00].
      split; [done|]. split; [done|]. by exists occurred.
    + done.
    + change (byte_val x07) with 7. cbn [Z.eqb Pos.eqb]. by exists keep.
Qed.

(** Strict decoding: a body decodes to an event exactly when it is that
    event's canonical form. *)
Lemma decode_event_iff bs e :
  decode_event bs = Ok e ↔ event_typed e ∧ event_fits e ∧ bs = wire_event e.
Proof.
  pose proof (reads_bind cursor_u8 decode_body _ _ reads_u8 reads_body) as Hr.
  assert (decode_event bs = Ok e ↔ (tag ← cursor_u8; decode_body tag) bs = (Ok e, [])) as ->.
  { unfold decode_event, decode_event_cursor. munfold_goal.
    destruct (cursor_u8 bs) as [[tag|er|] rest]; [|done..].
    destruct (decode_body tag rest) as [[e'|er|] [|b rest']]; simpl; [|done..].
    split; [by intros [= ->]|by intros [= ->]]. }
  split.
  - intros (w & (tag & w1 & w2 & -> & (b & -> & ->) & Hty & Hfit & b' & <-%byte_val_inj & ->) & ->)%(reads_sound (m := tag ← cursor_u8; decode_body tag)).
    by rewrite app_nil_r.
  - intros (Hty & Hfit & ->). rewrite <-(app_nil_r (wire_event e)).
    apply (reads_complete (m := tag ← cursor_u8; decode_body tag)).
    destruct (wire_event e) as [|b w] eqn:E; [by destruct e|].
    exists (byte_val b), [b], w. split_and!; try done; by eexists.
Qed.

Lemma decode_event_no_panic bs : decode_event bs ≠ Panic.
Proof.
  pose proof (reads_no_panic (m := tag ← cursor_u8; decode_body tag)
    (Reads := reads_bind cursor_u8 decode_body _ _ reads_u8 reads_body) bs) as Hn.
  revert Hn. unfold decode_event, decode_event_cursor. munfold_goal.
  destruct (cursor_u8 bs) as [[tag|er|] rest]; [|done..].
  destruct (decode_body tag rest) as [[e'|er|] [|b rest']]; done.
Qed.

(** ** The encoder writes the canonical form, or refuses at the limit *)

Lemma put_bytes_eq out bs limit :
  is_u64 limit →
  put_bytes out bs limit =
    if len out + 4 + len bs <=? limit then Ok (out ++ wire_bytes bs) else Err JLimit.
Proof.
  intros [_ Hl]. unfold put_bytes, wire_bytes, u64_checked_add. munfold_goal.
  pose proof (len_nonneg bs).
  destruct (Z.leb_spec (len out + 4 + len bs) limit).
  - destruct (Z.leb_spec (len out + 4) U64_MAX); [simpl|lia].
    destruct (Z.leb_spec (len out + 4 + len bs) U64_MAX); [simpl|lia].
    by destruct (Z.ltb_spec limit (len out + 4 + len bs)); [lia|].
  - destruct (Z.leb_spec (len out + 4) U64_MAX); [simpl|done].
    destruct (Z.leb_spec (len out + 4 + len bs) U64_MAX); [simpl|done].
    by destruct (Z.ltb_spec limit (len out + 4 + len bs)); [|lia].
Qed.

Lemma len_cons {A} (x : A) l : len (x :: l) = 1 + len l.
Proof. unfold len. simpl. lia. Qed.
Lemma len_le_bytes n z : len (le_bytes n z) = Z.of_nat n.
Proof. unfold len. by rewrite length_le_bytes. Qed.
Lemma len_wire_bytes bs : len (wire_bytes bs) = 4 + len bs.
Proof. unfold wire_bytes. by rewrite len_app, len_le_bytes. Qed.

Lemma encode_effect_eq tag id ef limit :
  is_u64 limit →
  encode_effect tag id ef limit =
    if len (tag :: le_bytes 8 id ++ wire_effect ef) <=? limit
    then Ok (tag :: le_bytes 8 id ++ wire_effect ef) else Err JLimit.
Proof.
  intros Hl. unfold encode_effect, wire_effect.
  rewrite len_cons, !len_app, !len_wire_bytes, !len_le_bytes.
  pose proof (len_nonneg (ef_principal ef)). pose proof (len_nonneg (ef_resolved_target ef)).
  pose proof (len_nonneg (ef_payload ef)).
  assert (∀ z, len ([tag] ++ le_bytes 8 id ++ le_bytes 8 z) = 17) as Hpre.
  { intros z. rewrite !len_app, !len_le_bytes. reflexivity. }
  rewrite put_bytes_eq, Hpre by done.
  destruct (Z.leb_spec (17 + 4 + len (ef_principal ef)) limit); munfold_goal;
    [|by zcompare; try lia].
  rewrite put_bytes_eq, len_app, len_wire_bytes, Hpre by done.
  match goal with |- context [if ?a <=? limit then Ok (_ ++ _) else _] =>
    destruct (Z.leb_spec a limit) end; [|by zcompare; try lia].
  rewrite put_bytes_eq, !len_app, !len_wire_bytes, !len_le_bytes by done.
  change (len [tag]) with 1. zcompare; try lia; try done. by rewrite <-!app_assoc.
Qed.

Lemma keep_exceeds n limit :
  0 ≤ n → limit ≤ U64_MAX →
  is_none_or (n ← u64_checked_mul n 8; u64_checked_add n 5) (λ n, limit <? n) = (limit <? n * 8 + 5).
Proof.
  intros Hn Hl. unfold u64_checked_mul, u64_checked_add.
  destruct (Z.leb_spec (n * 8) U64_MAX); simpl; [|symmetry; apply Z.ltb_lt; lia].
  destruct (Z.leb_spec (n * 8 + 5) U64_MAX); simpl; [done|symmetry; apply Z.ltb_lt; lia].
Qed.

Lemma encode_event_eq e limit :
  is_u64 limit →
  encode_event e limit = if len (wire_event e) <=? limit then Ok (wire_event e) else Err JLimit.
Proof.
  intros Hl. unfold encode_event.
  destruct e as [id ef|id ef|id|id|id occurred| |keep]; cbn [wire_event].
  1,2: rewrite encode_effect_eq by done; munfold_goal; zcompare; (done || lia).
  1-4: munfold_goal; zcompare; (done || lia).
  rewrite keep_exceeds by (apply len_nonneg || apply Hl).
  assert (len (x07 :: le_bytes 4 (len (set_values keep)) ++ concat (le_bytes 8 <$> set_values keep))
    = len (set_values keep) * 8 + 5) as Hlen.
  { rewrite len_cons, len_app, length_concat_le8, len_le_bytes. lia. }
  destruct (Z.ltb_spec limit (len (set_values keep) * 8 + 5)); munfold_goal; rewrite Hlen;
    zcompare; (done || lia).
Qed.

(** Every length field of an event is bounded by the encoded length. *)
Lemma wire_event_fits e : len (wire_event e) ≤ U32_MAX → event_fits e.
Proof.
  unfold is_u32.
  destruct e as [id ef|id ef|id|id|id occurred| |keep]; cbn [event_fits]; try done;
    unfold effect_fits, wire_event, wire_effect, is_u32;
    rewrite ?len_cons, ?len_app, ?len_wire_bytes, ?len_le_bytes, ?length_concat_le8.
  1,2: pose proof (len_nonneg (ef_principal ef)); pose proof (len_nonneg (ef_resolved_target ef));
    pose proof (len_nonneg (ef_payload ef)); lia.
  pose proof (len_nonneg (set_values keep)). lia.
Qed.

Lemma wire_event_nonempty e : 1 ≤ len (wire_event e).
Proof.
  destruct e; cbn [wire_event]; rewrite len_cons;
    match goal with |- context [len ?l] => pose proof (len_nonneg l) end; lia.
Qed.

(** ** Properties *)

(** C26: for every byte limit below 2^32 and every event, encoding
    and strict decoding are inverse to each other in both directions: the
    encoder returns exactly the one byte string, within the limit, that
    decodes to the event; no second byte string decodes to it; the encoder
    refuses nothing but oversized events; whatever decodes has well-typed
    fields; and the decoder never panics on any input. *)
Theorem event_codec_exact (limit : Z) (e : Event) (bs : bytes) :
  is_u32 limit → event_typed e →
  (encode_event e limit = Ok bs ↔ len bs ≤ limit ∧ decode_event bs = Ok e) ∧
  (is_ok (encode_event e limit) = false → encode_event e limit = Err JLimit) ∧
  (∀ e', decode_event bs = Ok e' → event_typed e') ∧
  decode_event bs ≠ Panic.
Proof.
  intros Hl Hty. rewrite encode_event_eq by (unfold is_u64, is_u32 in *; lia).
  split_and!; [|by case_match|by intros e' (? & _)%decode_event_iff|apply decode_event_no_panic].
  rewrite decode_event_iff. destruct (Z.leb_spec (len (wire_event e)) limit) as [Hle|Hgt].
  - split; [intros [= <-]|by intros (_ & _ & _ & ->)].
    split_and!; try done. apply wire_event_fits. unfold is_u32 in Hl. lia.
  - split; [done|]. intros (Hle & _ & _ & ->). lia.
Qed.

Lemma event_codec_exact_witness :
  let e := EResetToCheckpoint {[3; 258]} in
  let bs := [x07; x02; x00; x00; x00; x03; x00; x00; x00; x00; x00; x00; x00;
             x02; x01; x00; x00; x00; x00; x00; x00] in
  encode_event e 21 = Ok bs ∧ decode_event bs = Ok e ∧
  decode_event (bs ++ [x00]) = Err (JCorrupt "trailing event bytes").
Proof.
  intros e bs. assert (encode_event e 21 = Ok bs) as E by (vm_compute; reflexivity).
  split; [done|]. split; [|vm_compute; reflexivity].
  refine (proj2 (proj1 (proj1 (event_codec_exact 21 e bs _ _)) E)).
  - unfold is_u32; lia.
  - apply set_Forall_union; apply set_Forall_singleton; unfold is_u64; lia.
Defined.
