(* ===== verification/Journal.v ===== *)
(** * The rights journal

    [Journal] of [crates/fa-journal/src/journal_core.rs] and its recovery
    reserve of [crates/fa-journal/src/reserve.rs]: an append-only sequence of
    framed, checksummed and chained events, the rights ledger they rebuild, the
    capacity the journal may still use, and the strict streaming replay. *)

From Stdlib Require Import Strings.Byte Strings.String.
From stdpp Require Import base tactics numbers list gmap sets strings.
From S2P Require Import Prelude Bytes Reader Judgment Rights Crc Wire.

Local Open Scope Z_scope.

(** ** Data *)

Record Identity := mkIdentity { i_run : bytes; i_policy : bytes; i_total_units : Z }.

Record Head := mkHead { h_sequence : Z; h_checksum : Z }.

#[global] Instance Head_eq_dec : EqDecision Head.
Proof. solve_decision. Defined.

Record Limits := mkLimits {
  l_max_frame_bytes : Z;
  l_max_records : Z;
  l_max_total_bytes : Z;
}.

Record RecoveryReserve := mkRecoveryReserve { rr_records : Z; rr_bytes : Z }.

Record RemainingCapacity := mkRemainingCapacity { rc_records : Z; rc_bytes : Z }.

Record JournalCapacity := mkJournalCapacity {
  jc_ordinary : RemainingCapacity;
  jc_recovery : RemainingCapacity;
}.

Record Journal := mkJournal {
  jn_identity : Identity;
  jn_limits : Limits;
  jn_head : Head;
  jn_encoded_len : Z;
  jn_rights : Rights;
  jn_recovery_reserve : option RecoveryReserve;
}.

Definition HEADER_LEN : Z := 84.
Definition RESERVE_HEADER_LEN : Z := 120.
Definition HARD_FRAME_LIMIT : Z := 1048576.
Definition MAGIC : bytes := ascii_bytes "FARJ" ++ [x00; x00; x00; x01].
Definition RESERVE_MAGIC : bytes := ascii_bytes "FARJ" ++ [x00; x00; x00; x02].

Definition set_head (h : Head) (j : Journal) : Journal :=
  mkJournal (jn_identity j) (jn_limits j) h (jn_encoded_len j) (jn_rights j) (jn_recovery_reserve j).
Definition set_encoded_len (n : Z) (j : Journal) : Journal :=
  mkJournal (jn_identity j) (jn_limits j) (jn_head j) n (jn_rights j) (jn_recovery_reserve j).
Definition set_rights (r : Rights) (j : Journal) : Journal :=
  mkJournal (jn_identity j) (jn_limits j) (jn_head j) (jn_encoded_len j) r (jn_recovery_reserve j).

(** ** Construction *)

Definition reserve_check (self : RecoveryReserve) (limits : Limits) : res JournalError unit :=
  refuse_if ((rr_records self =? 0)
    || (l_max_records limits <? rr_records self)
    || is_none_or (u64_checked_mul (rr_records self) 21) (λ minimum, rr_bytes self <? minimum)
    || is_none_or (u64_checked_add RESERVE_HEADER_LEN (rr_bytes self))
         (λ minimum, l_max_total_bytes limits <? minimum)) JLimit.

Definition encode_header (identity : Identity) (limits : Limits) (reserve : option RecoveryReserve)
    : bytes :=
  let header :=
    (match reserve with Some _ => RESERVE_MAGIC | None => MAGIC end)
    ++ i_run identity ++ i_policy identity ++ le_bytes 8 (i_total_units identity)
    ++ match reserve with
       | Some reserve =>
         le_bytes 4 (l_max_frame_bytes limits) ++ le_bytes 8 (l_max_records limits)
         ++ le_bytes 8 (l_max_total_bytes limits)
         ++ le_bytes 8 (rr_records reserve) ++ le_bytes 8 (rr_bytes reserve)
       | None => []
       end in
  header ++ le_bytes 4 (crc32 header).

Definition zeros32 : bytes := replicate 32 x00.

Definition journal_configured (identity : Identity) (limits : Limits)
    (reserve : option RecoveryReserve) : res JournalError Journal :=
  refuse_if (bool_decide (i_run identity = zeros32) || bool_decide (i_policy identity = zeros32))
    JInvalidInput;;
  refuse_if ((l_max_frame_bytes limits <? 13)
    || (HARD_FRAME_LIMIT <? l_max_frame_bytes limits)
    || (l_max_records limits =? 0)
    || (1000000 <? l_max_records limits)
    || (l_max_total_bytes limits <? HEADER_LEN)) JLimit;;
  match reserve with Some reserve => reserve_check reserve limits | None => mret tt end;;
  let header := encode_header identity limits reserve in
  mret (mkJournal identity limits
    (mkHead 0 (crc32 (take (length header - 4) header)))
    (len header) (rights_new (i_total_units identity)) reserve).

Definition journal_new (identity : Identity) (limits : Limits) : res JournalError Journal :=
  journal_configured identity limits None.

Definition journal_new_with_recovery_reserve (identity : Identity) (limits : Limits)
    (reserve : RecoveryReserve) : res JournalError Journal :=
  journal_configured identity limits (Some reserve).

Definition journal_header (self : Journal) : bytes :=
  encode_header (jn_identity self) (jn_limits self) (jn_recovery_reserve self).

(** ** Capacity *)

Definition journal_capacity (self : Journal) : res JournalError JournalCapacity :=
  let reserve := default (mkRecoveryReserve 0 0) (jn_recovery_reserve self) in
  records ← u64_sub (l_max_records (jn_limits self)) (rr_records reserve);
  bytes ← u64_sub (l_max_total_bytes (jn_limits self)) (rr_bytes reserve);
  recovery_records ← u64_sub (l_max_records (jn_limits self)) (h_sequence (jn_head self));
  recovery_bytes ← u64_sub (l_max_total_bytes (jn_limits self)) (jn_encoded_len self);
  mret (mkJournalCapacity
    (mkRemainingCapacity (u64_saturating_sub records (h_sequence (jn_head self)))
                         (u64_saturating_sub bytes (jn_encoded_len self)))
    (mkRemainingCapacity recovery_records recovery_bytes)).

(** The fixed allowlist of recovery events. *)
Definition is_recovery (event : Event) : bool :=
  match event with
  | ERevokeEpoch | EMarkUnknown _ | EAbortBeforeDispatch _ | EReconcile _ _ => true
  | EReserve _ _ | EDispatch _ _ | EResetToCheckpoint _ => false
  end.

Definition journal_remaining_for (self : Journal) (event : Event) : res JournalError RemainingCapacity :=
  capacity ← journal_capacity self;
  mret (if is_recovery event then jc_recovery capacity else jc_ordinary capacity).

Definition journal_check_growth (self : Journal) (body_len : Z) : res JournalError Z :=
  refuse_if ((body_len <? 13)
    || (l_max_frame_bytes (jn_limits self) <? body_len)
    || (l_max_records (jn_limits self) <=? h_sequence (jn_head self))) JLimit;;
  growth ← u64_add body_len 8;
  match u64_checked_add (jn_encoded_len self) growth with
  | Some length => if length <=? l_max_total_bytes (jn_limits self) then mret length else mthrow JLimit
  | None => mthrow JLimit
  end.

Definition journal_check_event_growth (self : Journal) (event : Event) (body_len : Z)
    : res JournalError Z :=
  encoded_len ← journal_check_growth self body_len;
  remaining ← journal_remaining_for self event;
  if rc_records remaining =? 0 then mthrow JLimit
  else
    growth ← u64_sub encoded_len (jn_encoded_len self);
    refuse_if (rc_bytes remaining <? growth) JLimit;;
    mret encoded_len.

(** ** The reducer *)

Definition rights_method {A} (m : st Rights Error A) : st Rights JournalError A :=
  zoom (λ r, r) (λ r _, r) JModel m.

(** [for id in keep { rights.state(id)?; }] *)
Fixpoint states_known (ids : list Z) : st Rights JournalError unit :=
  match ids with
  | [] => mret tt
  | id :: ids => self ← get; rights_method (lift (rights_state self id));; states_known ids
  end.

Definition apply_event (event : Event) : st Rights JournalError unit :=
  match event with
  | EReserve id effect => rights_method (rights_reserve id effect)
  | EDispatch id effect => rights_method (rights_dispatch id effect)
  | EMarkUnknown id => rights_method (rights_mark_unknown id)
  | EAbortBeforeDispatch id => rights_method (rights_abort_before_dispatch id)
  | EReconcile id occurred => rights_method (rights_reconcile id occurred)
  | ERevokeEpoch => rights_method rights_revoke_epoch
  | EResetToCheckpoint keep =>
    states_known (set_values keep);;
    rights_method (rights_reset_to_checkpoint keep)
  end;;
  self ← get;
  refuse_if (negb (rights_conserved self)) (JCorrupt "rights conservation").

(** ** Append *)

Definition journal_append (event : Event) : st Journal JournalError bytes :=
  self ← get;
  remaining ← lift (journal_remaining_for self event);
  refuse_if ((rc_records remaining =? 0) || (rc_bytes remaining <? 21)) JLimit;;
  bytes_left ← lift (u64_sub (rc_bytes remaining) 20);
  frame_left ← lift (u64_sub (l_max_frame_bytes (jn_limits self)) 12);
  payload ← lift (encode_event event (Z.min bytes_left frame_left));
  sequence ← ok_or (u64_checked_add (h_sequence (jn_head self)) 1) JLimit;
  body_len ← lift (u64_add 12 (len payload));
  encoded_len ← lift (journal_check_event_growth self event body_len);
  let frame := le_bytes 4 body_len ++ le_bytes 8 sequence
    ++ le_bytes 4 (h_checksum (jn_head self)) ++ payload in
  let checksum := crc32 frame in
  let frame := frame ++ le_bytes 4 checksum in
  candidate ← lift (exec (apply_event event) (jn_rights self));
  modify (set_rights candidate);;
  modify (set_head (mkHead sequence checksum));;
  modify (set_encoded_len encoded_len);;
  mret frame.

(** ** Replay *)

Definition io {A} (m : st Reader IoKind A) : st Reader JournalError A :=
  zoom (λ r, r) (λ r _, r) JIo m.

(** The sequence number and the chained checksum that open a record body. *)
Definition record_prefix : Cursor (Z * Z) :=
  sequence ← cursor_u64;
  previous ← cursor_u32;
  mret (sequence, previous).

(** The check of one complete record, and the reducer step it admits.  The
    state is the journal under reconstruction and whether the anchor was met. *)
Definition check_record (minimum : Head) (length body checksum_bytes : bytes) (encoded_len : Z)
    : st (Journal * bool) JournalError unit :=
  let checksum := le_val checksum_bytes in
  refuse_if (negb (checksum =? crc32_parts [length; body])) (JCorrupt "record checksum");;
  '(journal, anchor_seen) ← get;
  let '(r, rest) := record_prefix body in
  '(sequence, previous) ← lift r;
  refuse_if (negb (bool_decide (u64_checked_add (h_sequence (jn_head journal)) 1 = Some sequence))
             || negb (previous =? h_checksum (jn_head journal)))
    (JCorrupt "record ordering or chain");;
  event ← lift (decode_event rest);
  lift (journal_check_event_growth journal event (len body));;
  zoom (λ s : Journal * bool, jn_rights s.1) (λ r s, (set_rights r s.1, s.2)) id (apply_event event);;
  let head := mkHead sequence checksum in
  modify (λ s : Journal * bool, (set_encoded_len encoded_len (set_head head s.1), s.2));;
  if sequence =? h_sequence minimum then
    refuse_if (negb (bool_decide (head = minimum))) JBinding;;
    modify (λ s : Journal * bool, (s.1, true))
  else mret tt.

(** The record loop.  Every round consumes a byte of the reader, so a fuel
    beyond its size is never used up ([replay_records_eq]). *)
Fixpoint replay_records (fuel : nat) (minimum : Head) (state : Journal * bool)
    : st Reader JournalError (Journal * bool) :=
  match fuel with
  | O => lift Panic
  | S fuel =>
    first ← io (read_retrying 1);
    if bool_decide (first = []) then mret state
    else
      more ← io (read_exact 3);
      let length := first ++ more in
      let body_len := le_val length in
      encoded_len ← lift (journal_check_growth state.1 body_len);
      body ← io (read_exact body_len);
      checksum_bytes ← io (read_exact 4);
      state ← lift (exec (check_record minimum length body checksum_bytes encoded_len) state);
      replay_records fuel minimum state
  end.

Definition replay_from (self : Journal) (minimum : Head) : st Reader JournalError Journal :=
  header ← io (read_exact (len (journal_header self)));
  refuse_if (negb (bool_decide (header = journal_header self))) JBinding;;
  let anchor_seen := bool_decide (minimum = jn_head self) in
  refuse_if ((h_sequence minimum =? 0) && negb anchor_seen) JBinding;;
  reader ← get;
  '(journal, anchor_seen) ← replay_records (S (reader_size reader)) minimum (self, anchor_seen);
  refuse_if (negb anchor_seen) JBehindAnchor;;
  mret journal.

Definition journal_replay (identity : Identity) (minimum : Head) (limits : Limits)
    : st Reader JournalError Journal :=
  self ← lift (journal_new identity limits);
  replay_from self minimum.

Definition journal_replay_with_recovery_reserve (identity : Identity) (minimum : Head)
    (limits : Limits) (reserve : RecoveryReserve) : st Reader JournalError Journal :=
  self ← lift (journal_new_with_recovery_reserve identity limits reserve);
  replay_from self minimum.

(** ** Well-formed journals *)

Record limits_wf (l : Limits) : Prop := {
  lwf_frame : 13 ≤ l_max_frame_bytes l ≤ 1048576;
  lwf_records : 1 ≤ l_max_records l ≤ 1000000;
  lwf_bytes : 84 ≤ l_max_total_bytes l ≤ U64_MAX;
}.

Record reserve_wf (l : Limits) (rr : RecoveryReserve) : Prop := {
  rrwf_records : 1 ≤ rr_records rr ≤ l_max_records l;
  rrwf_bytes : 21 * rr_records rr ≤ rr_bytes rr;
  rrwf_total : 120 + rr_bytes rr ≤ l_max_total_bytes l;
}.

Definition reserve_of (j : Journal) : RecoveryReserve :=
  default (mkRecoveryReserve 0 0) (jn_recovery_reserve j).

Record journal_wf (j : Journal) : Prop := {
  jwf_limits : limits_wf (jn_limits j);
  jwf_reserve : ∀ rr, jn_recovery_reserve j = Some rr → reserve_wf (jn_limits j) rr;
  jwf_sequence : 0 ≤ h_sequence (jn_head j) ≤ l_max_records (jn_limits j);
  jwf_checksum : is_u32 (h_checksum (jn_head j));
  jwf_len : 0 ≤ jn_encoded_len j ≤ l_max_total_bytes (jn_limits j);
  jwf_rights : rights_wf (jn_rights j);
}.

(** What the caller passes is in the range of its types. *)
Record config_typed (identity : Identity) (limits : Limits) (reserve : option RecoveryReserve) : Prop := {
  ct_run : len (i_run identity) = 32;
  ct_policy : len (i_policy identity) = 32;
  ct_total : is_u64 (i_total_units identity);
  ct_frame : is_u32 (l_max_frame_bytes limits);
  ct_records : is_u64 (l_max_records limits);
  ct_bytes : is_u64 (l_max_total_bytes limits);
  ct_reserve : ∀ rr, reserve = Some rr → is_u64 (rr_records rr) ∧ is_u64 (rr_bytes rr);
}.

Lemma len_encode_header identity limits reserve :
  config_typed identity limits reserve →
  len (encode_header identity limits reserve) = match reserve with Some _ => 120 | None => 84 end.
Proof.
  intros Ht. unfold encode_header.
  destruct reserve; rewrite !len_app, ?len_le_bytes, (ct_run _ _ _ Ht), (ct_policy _ _ _ Ht); reflexivity.
Qed.

Lemma reserve_check_ok rr l :
  rr_records rr ≤ U64_MAX → 0 ≤ rr_records rr → 0 ≤ rr_bytes rr →
  reserve_check rr l = Ok tt → l_max_total_bytes l ≤ U64_MAX → reserve_wf l rr.
Proof.
  intros Hr Hr0 Hb. unfold reserve_check, u64_checked_mul, u64_checked_add. munfold_goal.
  destruct (_ || _) eqn:E; [done|intros _ Ht].
  rewrite !orb_false_iff in E. destruct E as [[[E1 E2] E3] E4].
  destruct (Z.leb_spec (rr_records rr * 21) U64_MAX); [simpl in E3|done].
  destruct (Z.leb_spec (RESERVE_HEADER_LEN + rr_bytes rr) U64_MAX); [simpl in E4|done].
  unfold RESERVE_HEADER_LEN in *. split; lia.
Qed.

Lemma journal_configured_wf identity limits reserve j :
  config_typed identity limits reserve →
  journal_configured identity limits reserve = Ok j →
  journal_wf j ∧ h_sequence (jn_head j) = 0 ∧ jn_encoded_len j = len (journal_header j) ∧
  jn_rights j = rights_new (i_total_units identity) ∧
  jn_recovery_reserve j = reserve ∧ jn_limits j = limits ∧ jn_identity j = identity.
Proof.
  intros Ht. unfold journal_configured. munfold_goal.
  destruct (_ || _) eqn:E0; [done|]. clear E0.
  destruct (_ || _) eqn:E; [done|].
  rewrite !orb_false_iff in E. destruct E as [[[[E1 E2] E3] E4] E5]. unfold HARD_FRAME_LIMIT, HEADER_LEN in *.
  pose proof (len_encode_header _ _ _ Ht) as Hlen.
  destruct Ht as [_ _ Htot Hf Hr Hb Hrr]. unfold is_u64, is_u32 in *.
  assert (limits_wf limits) as Hl by (split; lia).
  destruct reserve as [rr|].
  - destruct (reserve_check rr limits) as [[]| |] eqn:Hc; [|done..].
    destruct (Hrr rr eq_refl) as [Hrr1 Hrr2].
    apply reserve_check_ok in Hc; [|lia..]. pose proof Hc as [? ? ?].
    intros [= <-]. split_and!; try done.
    split; simpl; [done|by intros ? [= <-]|lia|apply crc32_u32|rewrite Hlen; lia|by apply rights_new_wf].
  - intros [= <-]. split_and!; try done.
    split; simpl; [done|done|lia|apply crc32_u32|rewrite Hlen; lia|by apply rights_new_wf].
Qed.

(** ** Capacity, without its panics *)

Definition capacity_of (j : Journal) : JournalCapacity :=
  mkJournalCapacity
    (mkRemainingCapacity
      (Z.max 0 (l_max_records (jn_limits j) - rr_records (reserve_of j) - h_sequence (jn_head j)))
      (Z.max 0 (l_max_total_bytes (jn_limits j) - rr_bytes (reserve_of j) - jn_encoded_len j)))
    (mkRemainingCapacity (l_max_records (jn_limits j) - h_sequence (jn_head j))
                         (l_max_total_bytes (jn_limits j) - jn_encoded_len j)).

Definition remaining_of (j : Journal) (e : Event) : RemainingCapacity :=
  if is_recovery e then jc_recovery (capacity_of j) else jc_ordinary (capacity_of j).

Lemma reserve_of_bounds j :
  journal_wf j →
  0 ≤ rr_records (reserve_of j) ≤ l_max_records (jn_limits j) ∧
  0 ≤ rr_bytes (reserve_of j) ≤ l_max_total_bytes (jn_limits j).
Proof.
  intros [Hl Hr _ _ _ _]. unfold reserve_of. destruct (jn_recovery_reserve j) as [rr|]; simpl.
  - destruct (Hr rr eq_refl). lia.
  - destruct Hl. lia.
Qed.

Lemma u64_sub_ok {E} a b : b ≤ a → u64_sub (E:=E) a b = Ok (a - b).
Proof. intros ?. unfold u64_sub. by rewrite (proj2 (Z.leb_le b a)). Qed.
Lemma u64_add_ok {E} a b : a + b ≤ U64_MAX → u64_add (E:=E) a b = Ok (a + b).
Proof. intros ?. unfold u64_add. by rewrite (proj2 (Z.leb_le (a + b) U64_MAX)). Qed.

Lemma journal_capacity_eq j : journal_wf j → journal_capacity j = Ok (capacity_of j).
Proof.
  intros Hwf. destruct (reserve_of_bounds j Hwf). destruct Hwf as [_ _ Hs _ Hl _].
  unfold journal_capacity, capacity_of, reserve_of in *. rewrite !u64_sub_ok by lia. done.
Qed.

Lemma journal_remaining_for_eq j e : journal_wf j → journal_remaining_for j e = Ok (remaining_of j e).
Proof. intros Hwf. unfold journal_remaining_for. rewrite journal_capacity_eq by done. done. Qed.

Lemma remaining_of_bounds j e :
  journal_wf j →
  0 ≤ rc_records (remaining_of j e) ≤ l_max_records (jn_limits j) - h_sequence (jn_head j) ∧
  0 ≤ rc_bytes (remaining_of j e) ≤ l_max_total_bytes (jn_limits j) - jn_encoded_len j.
Proof.
  intros Hwf. pose proof (reserve_of_bounds j Hwf). destruct Hwf as [_ _ Hs _ Hl _].
  unfold remaining_of, capacity_of. destruct (is_recovery e); simpl; lia.
Qed.

(** There is room for a record body of [n] bytes that holds the event. *)
Definition grows (j : Journal) (e : Event) (n : Z) : Prop :=
  13 ≤ n ≤ l_max_frame_bytes (jn_limits j) ∧
  0 < rc_records (remaining_of j e) ∧ n + 8 ≤ rc_bytes (remaining_of j e).
#[global] Instance grows_dec j e n : Decision (grows j e n).
Proof. unfold grows. apply _. Defined.

(** The bounds that are checked before the event is known. *)
Definition fits (j : Journal) (n : Z) : Prop :=
  13 ≤ n ≤ l_max_frame_bytes (jn_limits j) ∧ h_sequence (jn_head j) < l_max_records (jn_limits j) ∧
  jn_encoded_len j + n + 8 ≤ l_max_total_bytes (jn_limits j).
#[global] Instance fits_dec j n : Decision (fits j n).
Proof. unfold fits. apply _. Defined.

Lemma grows_fits j e n : journal_wf j → grows j e n → fits j n.
Proof. intros Hwf (? & ? & ?). pose proof (remaining_of_bounds j e Hwf). unfold fits. lia. Qed.

Lemma journal_check_growth_eq j n :
  journal_wf j →
  journal_check_growth j n =
    if decide (fits j n) then Ok (jn_encoded_len j + n + 8) else Err JLimit.
Proof.
  intros [[] _ Hs _ Hl _]. unfold journal_check_growth. munfold_goal.
  destruct (_ || _) eqn:E.
  { rewrite decide_False; [done|]. rewrite !orb_true_iff in E. unfold fits. lia. }
  rewrite !orb_false_iff in E. rewrite u64_add_ok by lia. unfold u64_checked_add.
  assert (jn_encoded_len j + (n + 8) = jn_encoded_len j + n + 8) as -> by lia.
  destruct (Z.leb_spec (jn_encoded_len j + n + 8) U64_MAX); simpl.
  - destruct (Z.leb_spec (jn_encoded_len j + n + 8) (l_max_total_bytes (jn_limits j))); simpl.
    + rewrite decide_True; [done|]. unfold fits. lia.
    + rewrite decide_False; [done|]. unfold fits. lia.
  - rewrite decide_False; [done|]. unfold fits. lia.
Qed.

Lemma journal_check_event_growth_eq j e n :
  journal_wf j →
  journal_check_event_growth j e n =
    if decide (grows j e n) then Ok (jn_encoded_len j + n + 8) else Err JLimit.
Proof.
  intros Hwf. unfold journal_check_event_growth. rewrite journal_check_growth_eq by done.
  pose proof (remaining_of_bounds j e Hwf).
  destruct (decide (fits j n)) as [Hfit|Hfit]; munfold_goal.
  2: { rewrite decide_False; [done|]. contradict Hfit. by eapply grows_fits. }
  rewrite journal_remaining_for_eq by done.
  destruct (Z.eqb_spec (rc_records (remaining_of j e)) 0).
  { rewrite decide_False; [done|]. unfold grows. lia. }
  rewrite u64_sub_ok by (unfold fits in Hfit; lia).
  destruct (Z.ltb_spec (rc_bytes (remaining_of j e)) (jn_encoded_len j + n + 8 - jn_encoded_len j)).
  - rewrite decide_False; [done|]. unfold grows. lia.
  - rewrite decide_True; [done|]. unfold grows, fits in *. lia.
Qed.

(** ** The reducer is one ledger call *)

Definition call_of (e : Event) : rights_call :=
  match e with
  | EReserve id effect => CallReserve id effect
  | EDispatch id effect => CallDispatch id effect
  | EMarkUnknown id => CallMarkUnknown id
  | EAbortBeforeDispatch id => CallAbortBeforeDispatch id
  | EReconcile id occurred => CallReconcile id occurred
  | ERevokeEpoch => CallRevokeEpoch
  | EResetToCheckpoint keep => CallResetToCheckpoint keep
  end.

(** Every identifier a checkpoint keeps is one the ledger knows. *)
Definition event_known (e : Event) (r : Rights) : bool :=
  match e with
  | EResetToCheckpoint keep =>
    forallb (λ id, bool_decide (is_Some (r_reservations r !! id))) (set_values keep)
  | _ => true
  end.

Lemma event_typed_call e : event_typed e → rights_call_typed (call_of e).
Proof. destruct e; simpl; try done. by intros [_ [? _]]. Qed.

Lemma states_known_eq ids r :
  states_known ids r =
    (if forallb (λ id, bool_decide (is_Some (r_reservations r !! id))) ids
     then Ok tt else Err (JModel Missing), r).
Proof.
  induction ids as [|id ids IH]; [done|]. cbn [states_known forallb]. unfold rights_method, rights_state.
  case_bool_decide as Hid.
  - munfold_goal. destruct Hid as [rv ->]. simpl. by rewrite IH.
  - munfold_goal. apply eq_None_not_Some in Hid. by rewrite Hid.
Qed.

Lemma apply_event_eq e r :
  rights_wf r → event_typed e →
  apply_event e r =
    if event_known e r
    then (map_err JModel (rights_step (call_of e) r).1, (rights_step (call_of e) r).2)
    else (Err (JModel Missing), r).
Proof.
  intros Hwf Hty.
  assert (∀ c, rights_call_typed c →
    (rights_method (rights_step c);; self ← get;
     refuse_if (negb (rights_conserved self)) (JCorrupt "rights conservation")) r
    = (map_err JModel (rights_step c r).1, (rights_step c r).2)) as Hstep.
  { intros c Hc. pose proof (rights_step_sound c r Hwf Hc) as Hs. unfold rights_method. munfold_goal.
    destruct (rights_step c r) as [out r']. destruct Hs as [Hwf' _ Hat _ _ _ _ _ _]. simpl.
    destruct out as [[]|er|]; simpl; [|done..]. by rewrite rights_wf_conserved. }
  apply event_typed_call in Hty. unfold apply_event.
  destruct e; simpl event_known; try exact (Hstep _ Hty).
  specialize (Hstep _ Hty). revert Hstep. simpl call_of. unfold rights_method. munfold_goal.
  rewrite states_known_eq. by destruct (forallb _ _).
Qed.

Lemma apply_event_sound e r :
  rights_wf r → event_typed e →
  match exec (apply_event e) r with
  | Ok r' => rights_wf r' ∧ rights_step (call_of e) r = (Ok tt, r')
  | Err _ => True
  | Panic => False
  end.
Proof.
  intros Hwf Hty. unfold exec. rewrite apply_event_eq by done.
  destruct (event_known e r); [|done].
  pose proof (rights_step_sound _ r Hwf (event_typed_call e Hty)) as Hs.
  destruct (rights_step (call_of e) r) as [[[]|er|] r']; destruct Hs; simpl; done.
Qed.

(** ** The canonical record, and the journal after it *)

Definition record_of (j : Journal) (e : Event) : bytes :=
  le_bytes 4 (12 + len (wire_event e)) ++ le_bytes 8 (h_sequence (jn_head j) + 1)
  ++ le_bytes 4 (h_checksum (jn_head j)) ++ wire_event e.

Definition frame_of (j : Journal) (e : Event) : bytes :=
  record_of j e ++ le_bytes 4 (crc32 (record_of j e)).

Definition advance (j : Journal) (e : Event) (r : Rights) : Journal :=
  mkJournal (jn_identity j) (jn_limits j)
    (mkHead (h_sequence (jn_head j) + 1) (crc32 (record_of j e)))
    (jn_encoded_len j + (12 + len (wire_event e)) + 8) r (jn_recovery_reserve j).

Lemma len_frame_of j e : len (frame_of j e) = 12 + len (wire_event e) + 8.
Proof. unfold frame_of, record_of. rewrite !len_app, !len_le_bytes. lia. Qed.

Lemma journal_append_eq j e :
  journal_wf j → event_typed e →
  journal_append e j =
    if decide (grows j e (12 + len (wire_event e))) then
      match exec (apply_event e) (jn_rights j) with
      | Ok r => (Ok (frame_of j e), advance j e r)
      | Err er => (Err er, j)
      | Panic => (Panic, j)
      end
    else (Err JLimit, j).
Proof.
  intros Hwf Hty. unfold journal_append. munfold_goal.
  rewrite journal_remaining_for_eq by done.
  pose proof (remaining_of_bounds j e Hwf). pose proof (wire_event_nonempty e).
  pose proof Hwf as [[] _ Hs _ Hl _].
  destruct (_ || _) eqn:E0.
  { rewrite decide_False; [done|]. rewrite orb_true_iff in E0. unfold grows. lia. }
  rewrite orb_false_iff in E0. rewrite !u64_sub_ok by lia.
  rewrite encode_event_eq by (unfold is_u64; lia).
  destruct (Z.leb_spec (len (wire_event e))
    (Z.min (rc_bytes (remaining_of j e) - 20) (l_max_frame_bytes (jn_limits j) - 12))); simpl.
  2: { rewrite decide_False; [done|]. unfold grows. lia. }
  rewrite u64_checked_add_fits, u64_add_ok by lia.
  rewrite journal_check_event_growth_eq by done.
  rewrite decide_True by (unfold grows; lia). rewrite decide_True by (unfold grows; lia).
  by destruct (exec (apply_event e) (jn_rights j)).
Qed.

Lemma advance_wf j e r :
  journal_wf j → grows j e (12 + len (wire_event e)) → rights_wf r → journal_wf (advance j e r).
Proof.
  intros Hwf Hg Hr. apply grows_fits in Hg as (? & ? & ?); [|done].
  destruct Hwf as [Hl Hrr Hs Hc Hlen _]. split; simpl; try done; [lia|apply crc32_u32|lia].
Qed.

(** ** Series of appends *)

(** [appends j log j']: appending the events of the log one after the other
    succeeds from [j], returns the frames of the log and leaves [j']. *)
Inductive appends : Journal → list (Event * bytes) → Journal → Prop :=
  | appends_nil j : appends j [] j
  | appends_cons j e f j1 log j' :
      event_typed e → journal_append e j = (Ok f, j1) → appends j1 log j' →
      appends j ((e, f) :: log) j'.

Lemma appends_app j log1 j1 log2 j2 :
  appends j log1 j1 → appends j1 log2 j2 → appends j (log1 ++ log2) j2.
Proof. induction 1; simpl; [done|]. intros. econstructor; eauto. Qed.

Lemma appends_app_inv j log1 log2 j2 :
  appends j (log1 ++ log2) j2 → ∃ j1, appends j log1 j1 ∧ appends j1 log2 j2.
Proof.
  revert j. induction log1 as [|[e f] log1 IH]; intros j; simpl.
  - exists j. split; [constructor|done].
  - inversion 1; subst. edestruct IH as (j1' & ? & ?); [done|]. exists j1'. split; [|done].
    econstructor; eauto.
Qed.

(** What one successful append does. *)
Record append_spec (j : Journal) (e : Event) (f : bytes) (j' : Journal) : Prop := {
  as_wf : journal_wf j';
  as_grows : grows j e (12 + len (wire_event e));
  as_frame : f = frame_of j e;
  as_rights : exec (apply_event e) (jn_rights j) = Ok (jn_rights j');
  as_journal : j' = advance j e (jn_rights j');
}.

Lemma journal_append_ok j e f j' :
  journal_wf j → event_typed e → journal_append e j = (Ok f, j') ↔ append_spec j e f j'.
Proof.
  intros Hwf Hty. rewrite journal_append_eq by done.
  pose proof (apply_event_sound e (jn_rights j) (jwf_rights j Hwf) Hty) as Hs. split.
  - destruct (decide _) as [Hg|]; [|done].
    destruct (exec _ _) as [r| |] eqn:E; [|done..]. intros [= <- <-]. destruct Hs as [Hr _].
    split; try done. by apply advance_wf.
  - intros [_ Hg -> Hr Hj]. rewrite decide_True by done. rewrite Hr, <-Hj. done.
Qed.

Definition frames (log : list (Event * bytes)) : bytes := concat log.*2.

Lemma frames_cons e f log : frames ((e, f) :: log) = f ++ frames log.
Proof. reflexivity. Qed.
Lemma frames_app log1 log2 : frames (log1 ++ log2) = frames log1 ++ frames log2.
Proof. unfold frames. by rewrite fmap_app, concat_app. Qed.

Record appends_spec (j : Journal) (log : list (Event * bytes)) (j' : Journal) : Prop := {
  aps_wf : journal_wf j';
  aps_identity : jn_identity j' = jn_identity j;
  aps_limits : jn_limits j' = jn_limits j;
  aps_reserve : jn_recovery_reserve j' = jn_recovery_reserve j;
  aps_sequence : h_sequence (jn_head j') = h_sequence (jn_head j) + len log;
  aps_encoded : jn_encoded_len j' = jn_encoded_len j + len (frames log);
  aps_rights : jn_rights j' = rights_run (call_of <$> log.*1) (jn_rights j);
  aps_typed : Forall (λ p, event_typed p.1) log;
}.

Lemma appends_sound j log j' : journal_wf j → appends j log j' → appends_spec j log j'.
Proof.
  intros Hwf Happ. revert Hwf. induction Happ as [j|j e f j1 log j' Hty Hap _ IH]; intros Hwf.
  { split; simpl; try done; unfold frames, len; simpl; lia. }
  apply journal_append_ok in Hap as [Hwf1 _ -> Hr Hj1]; [|done..].
  pose proof (apply_event_sound e (jn_rights j) (jwf_rights j Hwf) Hty) as Hs. rewrite Hr in Hs.
  destruct Hs as [_ Hstep]. specialize (IH Hwf1). destruct IH as [? Hi Hl Hrr Hsq He Hrun Htys].
  assert (h_sequence (jn_head j1) = h_sequence (jn_head j) + 1) by (by rewrite Hj1).
  assert (jn_encoded_len j1 = jn_encoded_len j + len (frame_of j e)).
  { rewrite len_frame_of, Hj1. simpl. lia. }
  split; try done.
  - by rewrite Hi, Hj1.
  - by rewrite Hl, Hj1.
  - by rewrite Hrr, Hj1.
  - rewrite len_cons. lia.
  - rewrite frames_cons, len_app. lia.
  - rewrite Hrun. csimpl. unfold rights_run. simpl. by rewrite Hstep.
  - by constructor.
Qed.

(** ** Reachable journals *)

(** A journal that was configured and then appended to. *)
Record reached (identity : Identity) (limits : Limits) (reserve : option RecoveryReserve)
    (j0 : Journal) (log : list (Event * bytes)) (j : Journal) : Prop := {
  rch_typed : config_typed identity limits reserve;
  rch_new : journal_configured identity limits reserve = Ok j0;
  rch_appends : appends j0 log j;
}.

Lemma reached_wf identity limits reserve j0 log j :
  reached identity limits reserve j0 log j →
  journal_wf j0 ∧ journal_wf j ∧ appends_spec j0 log j ∧ h_sequence (jn_head j0) = 0 ∧
  jn_encoded_len j0 = len (journal_header j0) ∧ jn_rights j0 = rights_new (i_total_units identity) ∧
  jn_recovery_reserve j0 = reserve.
Proof.
  intros [Ht Hn Ha]. apply journal_configured_wf in Hn as (Hwf & Hs & He & Hr & Hrr & _ & _); [|done].
  pose proof (appends_sound _ _ _ Hwf Ha) as Hsound. split_and!; try done. apply Hsound.
Qed.

(** One call raises the epoch by at most one. *)
Lemma rights_step_epoch c r : rights_wf r → r_epoch (rights_step c r).2 ≤ r_epoch r + 1.
Proof.
  intros Hwf. destruct c as [id e|id e|id|id|id occ| |keep]; simpl.
  7: { rewrite rights_reset_eq by done. split_match; lia. }
  6: { unfold rights_revoke_epoch, u64_checked_add. munfold_goal. split_match; simpl; lia. }
  all: unfold rights_reserve, rights_dispatch, rights_mark_unknown, rights_abort_before_dispatch,
    rights_reconcile, u64_sub; munfold_goal; repeat split_match; lia.
Qed.

(** ** Recovery capacity *)

Definition recovery_part (log : list (Event * bytes)) : list (Event * bytes) :=
  filter (λ p, is_recovery p.1 = true) log.

(** What is left of the reserve after [records] and [bytes] of recovery events. *)
Definition reserve_left (rr : RecoveryReserve) (records bytes : Z) (j : Journal) : Prop :=
  0 ≤ records ∧ 0 ≤ bytes ∧
  rr_records rr - records ≤ l_max_records (jn_limits j) - h_sequence (jn_head j) ∧
  rr_bytes rr - bytes ≤ l_max_total_bytes (jn_limits j) - jn_encoded_len j.

(** An ordinary event takes nothing of the reserve. *)
Lemma append_reserve_left j e f j' rr records bytes :
  journal_wf j → jn_recovery_reserve j = Some rr → append_spec j e f j' →
  reserve_left rr records bytes j →
  if is_recovery e then reserve_left rr (records + 1) (bytes + len f) j'
  else reserve_left rr records bytes j'.
Proof.
  intros Hwf Hrr [_ (_ & Hg1 & Hg2) -> _ Hj] (Hr & Hb & Hlr & Hlb).
  rewrite len_frame_of. pose proof (wire_event_nonempty e).
  unfold remaining_of, capacity_of, reserve_of in Hg1, Hg2. rewrite Hrr in Hg1, Hg2.
  unfold reserve_left. rewrite Hj. simpl.
  destruct (is_recovery e); simpl in *; lia.
Qed.

Lemma appends_reserve_left j log j' rr records bytes :
  journal_wf j → jn_recovery_reserve j = Some rr → appends j log j' →
  reserve_left rr records bytes j →
  reserve_left rr (records + len (recovery_part log)) (bytes + len (frames (recovery_part log))) j'.
Proof.
  intros Hwf Hrr Happ. revert records bytes Hwf Hrr.
  induction Happ as [j|j e f j1 log j' Hty Hap _ IH]; intros records bytes Hwf Hrr Hleft.
  { unfold recovery_part, frames, len. simpl. by rewrite !Z.add_0_r. }
  apply journal_append_ok in Hap; [|done..].
  pose proof (append_reserve_left _ _ _ _ _ _ _ Hwf Hrr Hap Hleft) as Hleft1.
  destruct Hap as [Hwf1 _ _ _ Hj1].
  assert (jn_recovery_reserve j1 = Some rr) as Hrr1 by (by rewrite Hj1).
  unfold recovery_part. rewrite filter_cons. simpl. destruct (is_recovery e); simpl in Hleft1.
  - rewrite decide_True by done. rewrite frames_cons, len_app, len_cons, !Z.add_assoc.
    by apply IH.
  - rewrite decide_False by done. by apply IH.
Qed.

Lemma revoke_append_ok j :
  journal_wf j → r_epoch (jn_rights j) < U64_MAX →
  1 ≤ l_max_records (jn_limits j) - h_sequence (jn_head j) →
  21 ≤ l_max_total_bytes (jn_limits j) - jn_encoded_len j →
  ∃ f j', journal_append ERevokeEpoch j = (Ok f, j') ∧ len f = 21 ∧
    r_epoch (jn_rights j') = r_epoch (jn_rights j) + 1.
Proof.
  intros Hwf He Hr Hb. rewrite journal_append_eq by done.
  assert (len (wire_event ERevokeEpoch) = 1) as Hlen by done.
  rewrite decide_True.
  - unfold exec. rewrite apply_event_eq by (apply Hwf || done). simpl.
    unfold rights_revoke_epoch. munfold_goal. rewrite u64_checked_add_fits by lia. simpl.
    eexists _, _. split; [done|]. rewrite len_frame_of, Hlen. by split.
  - unfold grows, remaining_of, capacity_of. rewrite Hlen. simpl. destruct Hwf as [[] _ _ _ _ _]. lia.
Qed.

(** Epochs do not outnumber records. *)
Lemma appends_epoch j log j' :
  journal_wf j → appends j log j' →
  r_epoch (jn_rights j') ≤ r_epoch (jn_rights j) + len log.
Proof.
  intros Hwf Happ. revert Hwf. induction Happ as [j|j e f j1 log j' Hty Hap _ IH]; intros Hwf.
  { unfold len. simpl. lia. }
  apply journal_append_ok in Hap as [Hwf1 _ _ Hr _]; [|done..]. specialize (IH Hwf1).
  pose proof (apply_event_sound e (jn_rights j) (jwf_rights j Hwf) Hty) as Hs. rewrite Hr in Hs.
  destruct Hs as [_ Hstep]. pose proof (rights_step_epoch (call_of e) (jn_rights j) (jwf_rights j Hwf)).
  rewrite Hstep in H. rewrite len_cons. simpl in H. lia.
Qed.

(** ** Properties *)

(** C2: on every journal that appends can reach, an append never
    panics, a refused one leaves the journal exactly as it was, and it succeeds
    exactly when the record fits the capacity its event may use, a checkpoint
    names only known identifiers and the rights ledger accepts the call.  It
    then returns the canonical frame and advances the journal by that record;
    and the journal as a whole counts its records, its bytes and the ledger
    calls of its log. *)
Theorem journal_append_exact (identity : Identity) (limits : Limits)
    (reserve : option RecoveryReserve) (j0 j : Journal) (log : list (Event * bytes)) (e : Event) :
  reached identity limits reserve j0 log j → event_typed e →
  let '(out, j') := journal_append e j in
  out ≠ Panic ∧
  (∀ er, out = Err er → j' = j) ∧
  (is_ok out = true ↔
     grows j e (12 + len (wire_event e)) ∧ event_known e (jn_rights j) = true ∧
     (rights_step (call_of e) (jn_rights j)).1 = Ok tt) ∧
  (∀ f, out = Ok f → f = frame_of j e ∧
     j' = advance j e (rights_step (call_of e) (jn_rights j)).2) ∧
  h_sequence (jn_head j) = len log ∧
  jn_encoded_len j = len (journal_header j0 ++ frames log) ∧
  jn_rights j = rights_run (call_of <$> log.*1) (rights_new (i_total_units identity)).
Proof.
  intros Hreach Hty. apply reached_wf in Hreach as (Hwf0 & Hwf & Hs & Hseq & Henc & Hr0 & _).
  destruct Hs as [_ _ _ _ Hsq He Hrun _]. rewrite Hr0 in Hrun. rewrite len_app.
  assert (exec (apply_event e) (jn_rights j) =
    if event_known e (jn_rights j)
    then map_err JModel (exec (rights_step (call_of e)) (jn_rights j))
    else Err (JModel Missing)) as Hexec.
  { unfold exec. rewrite apply_event_eq by (apply Hwf || done).
    destruct (event_known e _); [|done]. by destruct (rights_step _ _) as [[]]. }
  pose proof (rights_step_sound _ _ (jwf_rights j Hwf) (event_typed_call e Hty)) as Hstep.
  rewrite journal_append_eq by done. rewrite Hexec. unfold exec.
  destruct (rights_step (call_of e) (jn_rights j)) as [[[]|er|] r']; destruct Hstep as [_ Hnp _ _ _ _ _ _ _];
    [| |done]; (destruct (decide (grows j e (12 + len (wire_event e)))) as [Hg|Hg]);
    destruct (event_known e (jn_rights j)) eqn:Hk; simpl;
    (split_and!; try done; try lia; try (by intros ? [= <-]);
      try (split; [done|by intros (? & ? & ?)])).
Qed.

Definition example_identity : Identity := mkIdentity (replicate 32 x01) (replicate 32 x02) 10.
Definition example_limits : Limits := mkLimits 100 3 220.

Lemma example_config_typed reserve :
  match reserve with Some rr => is_u64 (rr_records rr) ∧ is_u64 (rr_bytes rr) | None => True end →
  config_typed example_identity example_limits reserve.
Proof.
  intros Hr. split; [reflexivity|reflexivity|split; vm_compute; discriminate..|]. by intros rr ->.
Qed.

Definition example_event : Event := EReserve 1 example_effect.

Lemma example_event_typed : event_typed example_event.
Proof. split; [split; vm_compute; discriminate|]. split; [split; vm_compute; discriminate|by vm_compute]. Qed.

Definition example_journal (reserve : option RecoveryReserve) : Journal :=
  match journal_configured example_identity example_limits reserve with
  | Ok j => j
  | _ => mkJournal example_identity example_limits (mkHead 0 0) 0 (rights_new 0) None
  end.

Definition example_reserve : RecoveryReserve := mkRecoveryReserve 1 21.

Lemma example_reached reserve :
  reserve = None ∨ reserve = Some example_reserve →
  reached example_identity example_limits reserve (example_journal reserve) [] (example_journal reserve).
Proof.
  intros Hr. split; [apply example_config_typed| |constructor].
  - destruct Hr as [->| ->]; [done|]. repeat split; vm_compute; discriminate.
  - destruct Hr as [->| ->]; vm_compute; reflexivity.
Qed.

Lemma journal_append_exact_witness :
  ∃ f j, journal_append example_event (example_journal None) = (Ok f, j) ∧
    f = frame_of (example_journal None) example_event.
Proof.
  assert (is_ok (journal_append example_event (example_journal None)).1 = true) as Hok
    by (vm_compute; reflexivity).
  pose proof (journal_append_exact _ _ _ _ _ [] _ (example_reached None (or_introl eq_refl))
    example_event_typed) as H.
  destruct (journal_append example_event (example_journal None)) as [[f|er|] j]; [|discriminate..].
  exists f, j. destruct H as (_ & _ & _ & Hf & _). split; [done|]. by apply Hf.
Defined.

(** The capacity report never panics, and capacity only
    shrinks: every record takes exactly one record and its encoded bytes from
    the recovery capacity, ordinary capacity never grows, and an ordinary
    event is only ever admitted when the whole reserve stays untouched. *)
Theorem journal_capacity_exact (identity : Identity) (limits : Limits)
    (reserve : option RecoveryReserve) (j0 j j' : Journal) (log : list (Event * bytes))
    (e : Event) (f : bytes) :
  reached identity limits reserve j0 log j → event_typed e → journal_append e j = (Ok f, j') →
  ∃ c c', journal_capacity j = Ok c ∧ journal_capacity j' = Ok c' ∧
    rc_records (jc_recovery c') = rc_records (jc_recovery c) - 1 ∧
    rc_bytes (jc_recovery c') = rc_bytes (jc_recovery c) - len f ∧
    0 ≤ rc_records (jc_recovery c') ∧ 0 ≤ rc_bytes (jc_recovery c') ∧
    0 ≤ rc_records (jc_ordinary c') ≤ rc_records (jc_ordinary c) ∧
    0 ≤ rc_bytes (jc_ordinary c') ≤ rc_bytes (jc_ordinary c) ∧
    (is_recovery e = false →
       rr_records (reserve_of j) ≤ rc_records (jc_recovery c') ∧
       rr_bytes (reserve_of j) ≤ rc_bytes (jc_recovery c')).
Proof.
  intros Hreach Hty Hap. apply reached_wf in Hreach as (_ & Hwf & _).
  apply journal_append_ok in Hap as [Hwf' (_ & Hg1 & Hg2) -> _ Hj]; [|done..].
  exists (capacity_of j), (capacity_of j'). rewrite !journal_capacity_eq by done.
  split; [done|]. split; [done|]. rewrite len_frame_of.
  pose proof (wire_event_nonempty e). unfold remaining_of in Hg1, Hg2.
  assert (reserve_of j' = reserve_of j) as Hrr by (by rewrite Hj).
  pose proof (reserve_of_bounds j Hwf). pose proof (jwf_sequence j' Hwf'). pose proof (jwf_len j' Hwf').
  unfold capacity_of in *. rewrite Hrr. rewrite Hj in *. simpl in *.
  destruct (is_recovery e); simpl in *; split_and!; try lia; intros; lia.
Qed.

Lemma journal_capacity_exact_witness :
  let j := example_journal (Some example_reserve) in
  ∃ f j' c c', journal_append example_event j = (Ok f, j') ∧
    journal_capacity j = Ok c ∧ journal_capacity j' = Ok c' ∧
    rc_bytes (jc_recovery c') = rc_bytes (jc_recovery c) - len f.
Proof.
  intros j. assert (is_ok (journal_append example_event j).1 = true) as Hok by (vm_compute; reflexivity).
  destruct (journal_append example_event j) as [[f|er|] j'] eqn:Ea; [|discriminate..].
  destruct (journal_capacity_exact _ _ _ _ _ j' [] example_event f
    (example_reached (Some example_reserve) (or_intror eq_refl)) example_event_typed Ea)
    as (c & c' & Hc & Hc' & _ & Hb & _).
  by exists f, j', c, c'.
Defined.

(** C28: the reserve keeps its promise.  In a journal configured
    with a recovery reserve, as long as the recovery events appended so far
    have used fewer records and 21 bytes less than the reserve, the authority
    epoch can still be revoked, however many ordinary events were appended
    and however full the journal is. *)
Theorem journal_revocation_always_possible (identity : Identity) (limits : Limits)
    (rr : RecoveryReserve) (j0 j : Journal) (log : list (Event * bytes)) :
  reached identity limits (Some rr) j0 log j →
  len (recovery_part log) < rr_records rr →
  len (frames (recovery_part log)) + 21 ≤ rr_bytes rr →
  ∃ f j', journal_append ERevokeEpoch j = (Ok f, j') ∧ len f = 21 ∧
    r_epoch (jn_rights j') = r_epoch (jn_rights j) + 1.
Proof.
  intros Hreach Hrec Hbytes. pose proof Hreach as [Htyped Hnew Happ].
  apply journal_configured_wf in Hnew as (_ & _ & _ & _ & _ & Hlim & Hid); [|done].
  apply reached_wf in Hreach as (Hwf0 & Hwf & Hs & Hseq & Henc & Hr0 & Hrr).
  pose proof (jwf_reserve j0 Hwf0 rr Hrr) as [? ? ?].
  assert (jn_encoded_len j0 = 120) as Hlen.
  { rewrite Henc. unfold journal_header. rewrite Hrr, Hid, Hlim.
    apply (len_encode_header identity limits (Some rr)), Htyped. }
  assert (reserve_left rr 0 0 j0) as Hleft0.
  { unfold reserve_left. rewrite Hseq, Hlen. lia. }
  pose proof (appends_reserve_left _ _ _ _ _ _ Hwf0 Hrr Happ Hleft0) as (_ & _ & Hr & Hb).
  pose proof (appends_epoch _ _ _ Hwf0 Happ) as He. rewrite Hr0 in He. simpl in He.
  pose proof (aps_sequence _ _ _ Hs). pose proof (jwf_sequence j Hwf).
  pose proof (lwf_records _ (jwf_limits j Hwf)).
  apply revoke_append_ok; [done|lia..].
Qed.

Lemma journal_revocation_always_possible_witness :
  let j0 := example_journal (Some example_reserve) in
  ∃ f j, journal_append example_event j0 = (Ok f, j) ∧
    (journal_append (EReserve 2 example_effect) j).1 = Err JLimit ∧
    ∃ g j', journal_append ERevokeEpoch j = (Ok g, j') ∧ len g = 21.
Proof.
  intros j0. assert (is_ok (journal_append example_event j0).1 = true ∧
    (journal_append (EReserve 2 example_effect) (journal_append example_event j0).2).1 = Err JLimit)
    as [Hok Hfull] by (vm_compute; split; reflexivity).
  destruct (journal_append example_event j0) as [[f|er|] j] eqn:Ea; [|discriminate..].
  exists f, j. split; [done|]. split; [done|].
  destruct (journal_revocation_always_possible example_identity example_limits example_reserve
    j0 j [(example_event, f)]) as (g & j' & Hg & Hl & _).
  - destruct (example_reached (Some example_reserve) (or_intror eq_refl)) as [Ht Hn _].
    split; [done|done|econstructor; [apply example_event_typed|exact Ea|constructor]].
  - vm_compute; reflexivity.
  - vm_compute; discriminate.
  - by exists g, j'.
Defined.
