(* ===== verification/Recovery.v ===== *)
(** * Recovery: what a replay accepts

    The refinement of the streaming replay of [Journal.v] to a function of the
    bytes the reader delivers ([replay_stream]), and the theorems about it:
    replay accepts exactly the streams that a series of appends wrote, and
    refuses rolled-back, truncated and corrupted ones. *)

From Stdlib Require Import Strings.Byte Strings.String.
From stdpp Require Import base tactics numbers list gmap sets strings.
From S2P Require Import Prelude Bytes Reader Judgment Rights Reads Crc Wire Journal.

Local Open Scope Z_scope.

(** ** Replay as a function of the bytes *)

(** The error of a read that the stream ends in. *)
Definition short (stop : option IoKind) : JournalError := JIo (default UnexpectedEof stop).

Fixpoint replay_bytes (fuel : nat) (minimum : Head) (state : Journal * bool)
    (stop : option IoKind) (bs : bytes) : res JournalError (Journal * bool) :=
  match fuel with
  | O => Panic
  | S fuel =>
    if bool_decide (bs = []) then
      match stop with None => Ok state | Some kind => Err (JIo kind) end
    else if len bs <? 4 then Err (short stop)
    else
      let length := take 4 bs in
      let body_len := le_val length in
      encoded_len ← journal_check_growth state.1 body_len;
      let rest := drop 4 bs in
      if len rest <? body_len then Err (short stop)
      else
        let body := take (Z.to_nat body_len) rest in
        let rest := drop (Z.to_nat body_len) rest in
        if len rest <? 4 then Err (short stop)
        else
          state ← exec (check_record minimum length body (take 4 rest) encoded_len) state;
          replay_bytes fuel minimum state stop (drop 4 rest)
  end.

Definition replay_stream (self : Journal) (minimum : Head) (stop : option IoKind) (bs : bytes)
    : res JournalError Journal :=
  let header := journal_header self in
  if len bs <? len header then Err (short stop)
  else if bool_decide (take (length header) bs = header) then
    let anchor_seen := bool_decide (minimum = jn_head self) in
    if (h_sequence minimum =? 0) && negb anchor_seen then Err JBinding
    else
      '(journal, anchor_seen) ←
        replay_bytes (S (length bs)) minimum (self, anchor_seen) stop (drop (length header) bs);
      if negb anchor_seen then Err JBehindAnchor else Ok journal
  else Err JBinding.

Lemma replay_bytes_fuel fuel fuel' minimum state stop bs :
  (length bs < fuel)%nat → (length bs < fuel')%nat →
  replay_bytes fuel minimum state stop bs = replay_bytes fuel' minimum state stop bs.
Proof.
  revert fuel' state bs. induction fuel as [|fuel IH]; intros fuel' state bs H1 H2; [lia|].
  destruct fuel' as [|fuel']; [lia|]. cbn [replay_bytes].
  case_bool_decide as Hbs; [done|]. destruct (Z.ltb_spec (len bs) 4) as [|Hlen]; [done|].
  destruct (journal_check_growth _ _) as [enc| |]; [|done..]. munfold_goal.
  destruct (_ <? _); [done|]. destruct (_ <? _); [done|].
  destruct (exec _ _) as [s'| |]; [|done..].
  apply IH; rewrite !length_drop; unfold len in Hlen; lia.
Qed.

(** The streaming loop depends on the reader only through the bytes it
    delivers and the error it ends in, whatever the sizes of its chunks and
    however often it is interrupted; its fuel is never used up. *)
Lemma replay_records_eq fuel fuel' minimum state reader :
  (reader_size reader < fuel)%nat → (length (delivered reader) < fuel')%nat →
  (replay_records fuel minimum state reader).1 =
    replay_bytes fuel' minimum state (fault_of reader) (delivered reader).
Proof.
  revert fuel' state reader. induction fuel as [|fuel IH]; intros fuel' state reader H1 H2; [lia|].
  destruct fuel' as [|fuel']; [lia|]. cbn [replay_records replay_bytes]. unfold io. munfold_goal.
  destruct (read_retrying_spec 1 reader) as (rd1 & [[Hd Hr]|(w & rest & Hd & Hw & Hlw & Hr & Hd1 & Hf1 & Hs1)]);
    [lia|rewrite Hr, Hd; by destruct (fault_of reader)|].
  rewrite Hr, Hd. assert (∃ b, w = [b]) as [b ->].
  { destruct w as [|b [|b' w]]; [done|by exists b|unfold len in Hlw; simpl in Hlw; lia]. }
  rewrite bool_decide_eq_false_2 by done. rewrite (bool_decide_eq_false_2 ([b] ++ rest = [])) by done.
  destruct (read_exact_spec 3 rd1) as [(Hle & rd2 & -> & Hd2 & Hf2 & Hs2)|[Hlt He]]; [lia| |]; rewrite Hd1 in *.
  2: { destruct (read_exact 3 rd1) as [r2 rd2]. simpl in He. subst r2.
       rewrite (proj2 (Z.ltb_lt (len ([b] ++ rest)) 4)) by (rewrite len_app; unfold len in *; simpl; lia).
       simpl. unfold short. by rewrite Hf1. }
  rewrite (proj2 (Z.ltb_ge (len ([b] ++ rest)) 4)) by (rewrite len_app; unfold len in *; simpl; lia).
  change (take 4 ([b] ++ rest)) with ([b] ++ take 3 rest).
  change (drop 4 ([b] ++ rest)) with (drop 3 rest).
  change (Z.to_nat 3) with 3%nat in *.
  set (body_len := le_val ([b] ++ take 3 rest)). 
  assert (0 ≤ body_len) as Hbl by apply le_val_range.
  destruct (journal_check_growth state.1 body_len) as [enc| |]; [|done..].
  destruct (read_exact_spec body_len rd2) as [(Hle3 & rd3 & -> & Hd3 & Hf3 & Hs3)|[Hlt He]]; [done| |];
    rewrite Hd2 in *.
  2: { destruct (read_exact body_len rd2) as [r3 rd3]. simpl in He. subst r3.
       rewrite (proj2 (Z.ltb_lt _ _)) by done. simpl. unfold short. by rewrite Hf2, Hf1. }
  rewrite (proj2 (Z.ltb_ge (len (drop 3 rest)) body_len)) by done.
  destruct (read_exact_spec 4 rd3) as [(Hle4 & rd4 & -> & Hd4 & Hf4 & Hs4)|[Hlt He]]; [done| |];
    rewrite Hd3 in *.
  2: { destruct (read_exact 4 rd3) as [r4 rd4]. simpl in He. subst r4.
       rewrite (proj2 (Z.ltb_lt _ _)) by done. simpl. unfold short. by rewrite Hf3, Hf2, Hf1. }
  rewrite (proj2 (Z.ltb_ge (len (drop (Z.to_nat body_len) (drop 3 rest))) 4)) by done.
  change (Z.to_nat 4) with 4%nat in *.
  destruct (exec _ _) as [s'| |]; [|done..].
  rewrite (IH fuel' s' rd4); [|lia|].
  - by rewrite Hd4, Hf4, Hf3, Hf2, Hf1.
  - rewrite Hd4, !length_drop. rewrite Hd, length_app in H2. simpl in H2. lia.
Qed.

#[global] Arguments replay_records : simpl never.
#[global] Arguments replay_bytes : simpl never.

Lemma replay_from_eq self minimum reader :
  (replay_from self minimum reader).1 =
    replay_stream self minimum (fault_of reader) (delivered reader).
Proof.
  unfold replay_from, replay_stream, io. munfold_goal.
  assert (Z.to_nat (len (journal_header self)) = length (journal_header self)) as Hn by (unfold len; lia).
  destruct (read_exact_spec (len (journal_header self)) reader)
    as [(Hle & rd & -> & Hd & Hf & Hs)|[Hlt He]]; [apply len_nonneg| |].
  2: { rewrite (proj2 (Z.ltb_lt _ _)) by done.
       destruct (read_exact _ _) as [r rd]. simpl in He. by subst r. }
  rewrite (proj2 (Z.ltb_ge _ _)) by done. rewrite Hn in *.
  case_bool_decide; [|done]. simpl. destruct (_ && _); [done|].
  match goal with |- context [replay_records ?n ?m ?s rd] =>
    pose proof (replay_records_eq n (S (length (delivered reader))) m s rd) as Heq;
    destruct (replay_records n m s rd) as [[[j seen]| |] rd'] end;
    simpl in Heq; rewrite Hd, Hf in Heq; rewrite <-Heq by (rewrite ?length_drop; lia);
    simpl; by try destruct seen.
Qed.

(** ** One record *)

(** What the anchor check makes of the new head. *)
Definition anchored (minimum : Head) (j : Journal) (seen : bool) (s : Journal * bool) : Prop :=
  (h_sequence (jn_head j) = h_sequence minimum → jn_head j = minimum) ∧
  s = (j, seen || bool_decide (jn_head j = minimum)).

Lemma reads_prefix :
  Reads record_prefix
    (λ p w, is_u64 p.1 ∧ is_u32 p.2 ∧ w = le_bytes 8 p.1 ++ le_bytes 4 p.2).
Proof.
  eapply reads_ext; [unfold record_prefix; apply _|]. intros [q p] w. cbn [fst snd]. split.
  - intros (? & ? & ? & -> & [? ->] & ? & ? & ? & -> & [? ->] & [= -> ->] & ->). by rewrite app_nil_r.
  - intros (Hq & Hp & ->). exists q; do 2 eexists; split; [done|]. split; [done|].
    exists p, (le_bytes 4 p), []. rewrite app_nil_r. done.
Qed.

Section one_record.
Context (j : Journal) (Hwf : journal_wf j) (seen : bool) (minimum : Head).
Context (length body checksum_bytes : bytes) (encoded_len : Z).
Context (Hlen4 : len length = 4) (Hcks4 : len checksum_bytes = 4).
Context (Hbody : len body = le_val length).

Let out := exec (check_record minimum length body checksum_bytes encoded_len) (j, seen).

(** A record is admitted only if it is the canonical frame of its event. *)
Lemma check_record_sound :
  encoded_len = jn_encoded_len j + len body + 8 →
  match out with
  | Panic => False
  | Err _ => True
  | Ok s => ∃ e j', event_typed e ∧ append_spec j e (length ++ body ++ checksum_bytes) j' ∧
      anchored minimum j' seen s
  end.
Proof.
  intros Henc. unfold out, exec, check_record. munfold_goal.
  destruct (Z.eqb_spec (le_val checksum_bytes) (crc32_parts [length; body])) as [Hcrc|]; simpl; [|done].
  rewrite crc32_parts_two in Hcrc.
  pose proof reads_prefix as Hp. destruct (record_prefix body) as [[[q p]|er|] rest] eqn:Epre; simpl; [|done|].
  2: { by apply (reads_no_panic (Reads := Hp) body); rewrite Epre. }
  apply (reads_sound (Reads := Hp)) in Epre as (w & (Hq & Hpr & ->) & Hb). cbn [fst snd] in *.
  case_bool_decide as Hseq; simpl; [|done].
  destruct (Z.eqb_spec p (h_checksum (jn_head j))) as [->|]; simpl; [|done].
  destruct (decode_event rest) as [e| |] eqn:Ed; simpl; [|done|by apply (decode_event_no_panic rest)].
  apply decode_event_iff in Ed as (Hty & _ & ->).
  rewrite journal_check_event_growth_eq by done.
  destruct (decide (grows j e (len body))) as [Hg|]; simpl; [|done].
  pose proof (apply_event_sound e (jn_rights j) (jwf_rights j Hwf) Hty) as Hs.
  assert (q = h_sequence (jn_head j) + 1) as ->.
  { unfold u64_checked_add in Hseq. destruct (Z.leb _ _) in Hseq; congruence. }
  assert (len body = 12 + len (wire_event e)) as Hlb.
  { rewrite Hb, !len_app, !len_le_bytes. lia. }
  assert (length ++ body = record_of j e) as Hrec.
  { unfold record_of. rewrite <-Hlb, Hbody, Hb, <-app_assoc. f_equal.
    assert (List.length length = 4%nat) as <- by (unfold len in Hlen4; lia).
    by rewrite le_bytes_le_val. }
  destruct (apply_event e (jn_rights j)) as [[[]|er|] r] eqn:Ea; unfold exec in Hs; rewrite Ea in Hs;
    simpl; [|done|done].
  assert (append_spec j e (length ++ body ++ checksum_bytes) (advance j e r)) as Has.
  { destruct Hs as [Hrw _]. rewrite Hlb in Hg. split; simpl; try done.
    - by apply advance_wf.
    - unfold frame_of. rewrite <-Hrec, <-app_assoc, <-Hcrc. do 2 f_equal.
      assert (List.length checksum_bytes = 4%nat) as <- by (unfold len in Hcks4; lia).
      by rewrite le_bytes_le_val.
    - unfold exec. by rewrite Ea. }
  assert (set_encoded_len encoded_len (set_head
    (mkHead (h_sequence (jn_head j) + 1) (le_val checksum_bytes)) (set_rights r j)) = advance j e r) as Hadv.
  { unfold advance. rewrite <-Hrec, <-Hcrc, <-Hlb, <-Henc. reflexivity. }
  rewrite Hadv. 
  assert (mkHead (h_sequence (jn_head j) + 1) (le_val checksum_bytes) = jn_head (advance j e r)) as Hhead.
  { by rewrite <-Hadv. }
  rewrite Hhead. change (h_sequence (jn_head j) + 1) with (h_sequence (jn_head (advance j e r))).
  destruct (Z.eqb_spec (h_sequence (jn_head (advance j e r))) (h_sequence minimum)) as [Hsm|Hsm]; simpl.
  - case_bool_decide as Hm; simpl; [|done]. exists e, (advance j e r). split_and!; try done.
    unfold anchored. rewrite bool_decide_eq_true_2, orb_true_r by done. done.
  - exists e, (advance j e r). split_and!; try done.
    unfold anchored. rewrite bool_decide_eq_false_2 by (intros Hm; by rewrite Hm in Hsm).
    by rewrite orb_false_r.
Qed.
End one_record.

(** The three fields of a canonical frame. *)
Definition body_of (j : Journal) (e : Event) : bytes :=
  le_bytes 8 (h_sequence (jn_head j) + 1) ++ le_bytes 4 (h_checksum (jn_head j)) ++ wire_event e.

Lemma frame_of_fields j e :
  frame_of j e =
    le_bytes 4 (len (body_of j e)) ++ body_of j e ++ le_bytes 4 (crc32 (record_of j e)).
Proof.
  unfold frame_of, record_of, body_of. rewrite <-!app_assoc, !len_app, !len_le_bytes.
  do 2 f_equal. lia.
Qed.

Lemma len_body_of j e : len (body_of j e) = 12 + len (wire_event e).
Proof. unfold body_of. rewrite !len_app, !len_le_bytes. lia. Qed.

Lemma grows_body_u32 j e :
  journal_wf j → grows j e (12 + len (wire_event e)) → is_u32 (len (body_of j e)).
Proof.
  intros [[] _ _ _ _ _] [? _]. rewrite len_body_of. unfold is_u32. pose proof (len_nonneg (wire_event e)). lia.
Qed.

(** A canonical frame is admitted. *)
Lemma check_record_complete j e f j' minimum seen s :
  journal_wf j → event_typed e → append_spec j e f j' → anchored minimum j' seen s →
  exec (check_record minimum (le_bytes 4 (len (body_of j e))) (body_of j e)
    (le_bytes 4 (crc32 (record_of j e))) (jn_encoded_len j + len (body_of j e) + 8)) (j, seen) = Ok s.
Proof.
  intros Hwf Hty [Hwf' Hg Hf Hr Hj] [Hanch ->]. unfold exec, check_record. munfold_goal.
  pose proof (grows_body_u32 j e Hwf Hg) as Hu32. pose proof (len_body_of j e) as Hlb.
  rewrite le_val_u32 by apply crc32_u32.
  rewrite crc32_parts_two.
  assert (le_bytes 4 (len (body_of j e)) ++ body_of j e = record_of j e) as ->.
  { unfold record_of. by rewrite Hlb. }
  rewrite Z.eqb_refl. cbn [negb orb]. cbv beta iota zeta.
  pose proof (jwf_limits j Hwf) as [_ Hmr _]. pose proof (jwf_sequence j Hwf) as Hsq.
  unfold body_of at 1.
  rewrite app_assoc, (reads_complete (Reads := reads_prefix) (h_sequence (jn_head j) + 1, h_checksum (jn_head j))).
  2: { cbn [fst snd]. split; [unfold is_u64; lia|]. split; [apply Hwf|done]. }
  rewrite u64_checked_add_fits by lia. rewrite bool_decide_eq_true_2 by done.
  rewrite Z.eqb_refl. cbn [negb orb]. cbv beta iota zeta.
  assert (decode_event (wire_event e) = Ok e) as ->.
  { apply decode_event_iff. split_and!; [done| |done]. apply wire_event_fits. unfold is_u32 in Hu32. lia. }
  rewrite Hlb. rewrite journal_check_event_growth_eq, decide_True by done.
  cbn [fst snd]. unfold exec in Hr. destruct (apply_event e (jn_rights j)) as [[[]| |] r]; [|done..].
  injection Hr as ->. 
  assert (set_encoded_len (jn_encoded_len j + (12 + len (wire_event e)) + 8)
    (set_head (mkHead (h_sequence (jn_head j) + 1) (crc32 (record_of j e))) (set_rights (jn_rights j') j)) = j') as Hadv.
  { by rewrite Hj at 2. }
  cbn [fst snd]. rewrite Hadv.
  assert (jn_head j' = mkHead (h_sequence (jn_head j) + 1) (crc32 (record_of j e))) as Hhead by (by rewrite Hj).
  rewrite <-Hhead. rewrite Hhead in Hanch at 1. simpl in Hanch.
  destruct (Z.eqb_spec (h_sequence (jn_head j) + 1) (h_sequence minimum)) as [Hsm|Hsm].
  - rewrite (Hanch Hsm), bool_decide_eq_true_2 by done. simpl. by rewrite orb_true_r.
  - rewrite (bool_decide_eq_false_2 (jn_head j' = minimum)), orb_false_r; [done|].
    intros Hm. apply Hsm. by rewrite <-Hm, Hhead.
Qed.

(** ** The loop follows a log of appends *)

Inductive tracks (minimum : Head) : Journal * bool → list (Event * bytes) → Journal * bool → Prop :=
  | tracks_nil s : tracks minimum s [] s
  | tracks_cons j seen e f j1 s1 log s' :
      event_typed e → append_spec j e f j1 → anchored minimum j1 seen s1 →
      tracks minimum s1 log s' → tracks minimum (j, seen) ((e, f) :: log) s'.

Lemma replay_bytes_S fuel minimum state stop bs :
  replay_bytes (S fuel) minimum state stop bs =
    if bool_decide (bs = []) then
      match stop with None => Ok state | Some kind => Err (JIo kind) end
    else if len bs <? 4 then Err (short stop)
    else
      encoded_len ← journal_check_growth state.1 (le_val (take 4 bs));
      if len (drop 4 bs) <? le_val (take 4 bs) then Err (short stop)
      else if len (drop (Z.to_nat (le_val (take 4 bs))) (drop 4 bs)) <? 4 then Err (short stop)
      else
        state ← exec (check_record minimum (take 4 bs) (take (Z.to_nat (le_val (take 4 bs))) (drop 4 bs))
          (take 4 (drop (Z.to_nat (le_val (take 4 bs))) (drop 4 bs))) encoded_len) state;
        replay_bytes fuel minimum state stop
          (drop 4 (drop (Z.to_nat (le_val (take 4 bs))) (drop 4 bs))).
Proof. reflexivity. Qed.

Lemma len_take {A} n (l : list A) : n ≤ len l → 0 ≤ n → len (take (Z.to_nat n) l) = n.
Proof. unfold len. intros. rewrite length_take. lia. Qed.

(** Soundness: what the loop accepts are the frames of a log. *)
Lemma replay_bytes_sound fuel minimum state stop bs :
  journal_wf state.1 → (length bs < fuel)%nat →
  match replay_bytes fuel minimum state stop bs with
  | Panic => False
  | Err _ => True
  | Ok s => stop = None ∧ journal_wf s.1 ∧ ∃ log, tracks minimum state log s ∧ bs = frames log
  end.
Proof.
  revert state bs. induction fuel as [|fuel IH]; intros [j seen] bs Hwf Hfuel; [lia|]. simpl in Hwf.
  rewrite replay_bytes_S. case_bool_decide as Hbs.
  { subst bs. destruct stop; [done|]. split_and!; try done. exists []. split; [constructor|done]. }
  destruct (Z.ltb_spec (len bs) 4) as [|Hlen]; [done|]. cbn [fst].
  set (length_ := take 4 bs) in *. set (rest := drop 4 bs) in *.
  rewrite journal_check_growth_eq by done. case_decide as Hfit; [|done]. munfold_goal.
  assert (0 ≤ le_val length_) as Hn by apply le_val_range.
  destruct (Z.ltb_spec (len rest) (le_val length_)) as [|Hrest]; [done|].
  set (body := take (Z.to_nat (le_val length_)) rest) in *.
  set (rest2 := drop (Z.to_nat (le_val length_)) rest) in *.
  destruct (Z.ltb_spec (len rest2) 4) as [|Hrest2]; [done|].
  assert (len body = le_val length_) as Hbody by (by apply len_take).
  rewrite <-Hbody.
  pose proof (check_record_sound j Hwf seen minimum length_ body (take 4 rest2)
    (jn_encoded_len j + len body + 8)
    (len_take 4 bs Hlen ltac:(lia)) (len_take 4 rest2 Hrest2 ltac:(lia)) Hbody eq_refl) as Hrec.
  destruct (exec _ _) as [s1| |]; [|done..].
  destruct Hrec as (e & j1 & Hty & Hap & Hanch). pose proof Hap as [Hwf1 _ _ _ _].
  pose proof Hanch as [_ Hs1].
  assert (bs = (length_ ++ body ++ take 4 rest2) ++ drop 4 rest2) as Hsplit.
  { by rewrite <-!app_assoc, take_drop; unfold body, rest2; rewrite take_drop; unfold length_, rest; rewrite take_drop. }
  specialize (IH s1 (drop 4 rest2)).
  destruct (replay_bytes fuel minimum s1 stop (drop 4 rest2)) as [s'| |].
  - destruct IH as (-> & Hwf' & log & Htr & Hd); [by subst s1| |].
    { unfold rest2, rest. rewrite !length_drop. unfold len in Hlen. lia. }
    split_and!; try done. exists ((e, length_ ++ body ++ take 4 rest2) :: log).
    split; [by econstructor|]. by rewrite frames_cons, <-Hd.
  - done.
  - apply IH; [by subst s1|]. unfold rest2, rest. rewrite !length_drop. unfold len in Hlen. lia.
Qed.

Lemma take_drop_app {A} n (l k : list A) : length l = n → take n (l ++ k) = l ∧ drop n (l ++ k) = k.
Proof. intros <-. by rewrite take_app_length, drop_app_length. Qed.

(** Completeness: the frames of a log are accepted. *)
Lemma replay_bytes_complete fuel minimum state log s :
  journal_wf state.1 → tracks minimum state log s → (length (frames log) < fuel)%nat →
  replay_bytes fuel minimum state None (frames log) = Ok s.
Proof.
  intros Hwf Htr. revert fuel Hwf.
  induction Htr as [s|j seen e f j1 s1 log s' Hty Hap Hanch _ IH]; intros fuel Hwf Hfuel;
    (destruct fuel as [|fuel]; [lia|]); rewrite replay_bytes_S; [done|].
  simpl in Hwf. pose proof Hap as [Hwf1 Hg Hf _ _]. pose proof Hanch as [_ Hs1].
  rewrite frames_cons, Hf, frame_of_fields in *. rewrite <-!app_assoc in *.
  set (L := le_bytes 4 (len (body_of j e))) in *. set (C := le_bytes 4 (crc32 (record_of j e))) in *.
  assert (length L = 4%nat) as HL by apply length_le_bytes.
  assert (length C = 4%nat) as HC by apply length_le_bytes.
  rewrite bool_decide_eq_false_2 by (intros E; apply (f_equal length) in E; rewrite length_app, HL in E; done).
  destruct (take_drop_app 4 L (body_of j e ++ C ++ frames log) HL) as [-> ->].
  assert (le_val L = len (body_of j e)) as -> by (by apply le_val_u32, grows_body_u32).
  assert (Z.to_nat (len (body_of j e)) = length (body_of j e)) as -> by (unfold len; lia).
  destruct (take_drop_app (length (body_of j e)) (body_of j e) (C ++ frames log) eq_refl) as [-> ->].
  destruct (take_drop_app 4 C (frames log) HC) as [-> ->].
  pose proof (len_nonneg (frames log)). pose proof (len_nonneg (body_of j e)).
  assert (len L = 4) as HL' by (unfold len; lia). assert (len C = 4) as HC' by (unfold len; lia).
  rewrite (proj2 (Z.ltb_ge (len (L ++ _)) 4)) by (rewrite !len_app; lia).
  rewrite (proj2 (Z.ltb_ge (len (body_of j e ++ _)) _)) by (rewrite !len_app; lia).
  rewrite (proj2 (Z.ltb_ge (len (C ++ _)) 4)) by (rewrite !len_app; lia).
  rewrite journal_check_growth_eq, decide_True by (done || (rewrite len_body_of; by eapply grows_fits)).
  munfold_goal. cbn [fst]. unfold L, C.
  rewrite (check_record_complete j e _ j1 minimum seen s1 Hwf Hty Hap Hanch).
  apply IH; [by subst s1|]. rewrite !length_app in Hfuel. lia.
Qed.

(** ** The anchor *)

Lemma append_spec_appends j e f j1 log j' :
  journal_wf j → event_typed e → append_spec j e f j1 → appends j1 log j' →
  appends j ((e, f) :: log) j'.
Proof. intros Hwf Hty Hap Happ. econstructor; [done|by apply journal_append_ok|done]. Qed.

Lemma append_spec_sequence j e f j1 :
  append_spec j e f j1 → h_sequence (jn_head j1) = h_sequence (jn_head j) + 1.
Proof. intros [_ _ _ _ ->]. done. Qed.

(** A tracked log is a log of appends; the anchor was met at the start or
    after one of its records. *)
Lemma tracks_appends minimum j seen log j' seen' :
  journal_wf j → tracks minimum (j, seen) log (j', seen') →
  appends j log j' ∧
  (seen' = true → seen = true ∨ ∃ log1 log2 jm, log = log1 ++ log2 ∧
     appends j log1 jm ∧ appends jm log2 j' ∧ jn_head jm = minimum).
Proof.
  intros Hwf Htr. remember (j, seen) as s eqn:Es. remember (j', seen') as s' eqn:Es'.
  revert j seen Es Hwf. induction Htr as [s|j0 seen0 e f j1 s1 log s2 Hty Hap Hanch _ IH];
    intros j seen Es Hwf; simplify_eq.
  { split; [constructor|by left]. }
  destruct Hanch as [_ ->]. pose proof Hap as [Hwf1 _ _ _ _].
  destruct (IH eq_refl j1 _ eq_refl Hwf1) as [Happ Hseen]. split; [by eapply append_spec_appends|].
  intros Ht. destruct (Hseen Ht) as [Hor|(log1 & log2 & jm & -> & H1 & H2 & Hm)].
  - apply orb_true_iff in Hor as [->|Hm%bool_decide_eq_true]; [by left|]. right.
    exists [(e, f)], log, j1. split_and!; try done. eapply append_spec_appends; try done. constructor.
  - right. exists ((e, f) :: log1), log2, jm. split_and!; try done. by eapply append_spec_appends.
Qed.

(** Past the anchor the sequence numbers are larger. *)
Lemma appends_tracks_after minimum j log j' seen :
  journal_wf j → appends j log j' → h_sequence minimum ≤ h_sequence (jn_head j) →
  tracks minimum (j, seen) log (j', seen).
Proof.
  intros Hwf Happ. revert Hwf. induction Happ as [j|j e f j1 log j' Hty Hap _ IH]; intros Hwf Hle.
  { constructor. }
  apply journal_append_ok in Hap; [|done..]. pose proof (append_spec_sequence _ _ _ _ Hap).
  pose proof Hap as [Hwf1 _ _ _ _].
  econstructor; [done|done| |apply IH; [done|lia]]. split; [lia|].
  rewrite bool_decide_eq_false_2; [by rewrite orb_false_r|]. intros Hm. rewrite Hm in *. lia.
Qed.

Lemma appends_tracks_before minimum j log jm seen :
  journal_wf j → appends j log jm → jn_head jm = minimum → (log = [] → seen = true) →
  tracks minimum (j, seen) log (jm, true).
Proof.
  intros Hwf Happ. revert seen Hwf.
  induction Happ as [j|j e f j1 log j' Hty Hap Happ IH]; intros seen Hwf Hm Hseen.
  { rewrite Hseen by done. constructor. }
  apply journal_append_ok in Hap; [|done..]. pose proof Hap as [Hwf1 _ _ _ _].
  econstructor; [done|done| |apply IH; [done|done|]].
  - split; [|done]. intros Hq. destruct log as [|p log].
    + by inversion Happ; subst.
    + apply appends_sound in Happ; [|done]. pose proof (aps_sequence _ _ _ Happ) as Hs.
      rewrite Hm, len_cons in Hs. pose proof (len_nonneg log). lia.
  - intros ->. inversion Happ; subst. rewrite bool_decide_eq_true_2 by done. apply orb_true_r.
Qed.

Lemma tracks_app minimum s1 log1 s2 log2 s3 :
  tracks minimum s1 log1 s2 → tracks minimum s2 log2 s3 → tracks minimum s1 (log1 ++ log2) s3.
Proof. induction 1; simpl; [done|]. intros. by econstructor; eauto. Qed.

(** ** What a replay accepts *)

(** The stream [bs] is the header of [j0] and the frames of appends that lead
    from it to [j] through a journal whose head is [minimum]. *)
Definition written (j0 : Journal) (minimum : Head) (bs : bytes) (j : Journal) : Prop :=
  ∃ log1 log2 jm, appends j0 log1 jm ∧ appends jm log2 j ∧ jn_head jm = minimum ∧
    bs = journal_header j0 ++ frames (log1 ++ log2).

Lemma replay_stream_iff j0 minimum stop bs j :
  journal_wf j0 → h_sequence (jn_head j0) = 0 →
  replay_stream j0 minimum stop bs = Ok j ↔ stop = None ∧ written j0 minimum bs j.
Proof.
  intros Hwf Hseq. unfold replay_stream. split.
  - destruct (_ <? _); [done|]. case_bool_decide as Hh; [|done]. destruct (_ && _); [done|].
    pose proof (replay_bytes_sound (S (length bs)) minimum (j0, bool_decide (minimum = jn_head j0)) stop
      (drop (length (journal_header j0)) bs) Hwf ltac:(rewrite length_drop; lia)) as Hs.
    destruct (replay_bytes _ _ _ _ _) as [[j1 seen]| |]; [|done..]. munfold_goal.
    destruct seen; simpl; [intros [= ->]|done].
    destruct Hs as (-> & _ & log & Htr & Hd). split; [done|].
    apply tracks_appends in Htr as [Happ Hseen]; [|done].
    assert (bs = journal_header j0 ++ frames log) as ->.
    { rewrite <-Hd, <-Hh at 1. by rewrite take_drop. }
    destruct (Hseen eq_refl) as [Hm%bool_decide_eq_true|(log1 & log2 & jm & -> & H1 & H2 & Hm)].
    + exists [], log, j0. split_and!; try done. constructor.
    + by exists log1, log2, jm.
  - intros (-> & log1 & log2 & jm & H1 & H2 & Hm & ->).
    rewrite (proj2 (Z.ltb_ge _ _)) by (rewrite len_app; pose proof (len_nonneg (frames (log1 ++ log2))); lia).
    rewrite take_app_length, drop_app_length, bool_decide_eq_true_2 by done.
    pose proof (appends_sound _ _ _ Hwf H1) as Hs1. pose proof (aps_sequence _ _ _ Hs1) as Hsq.
    rewrite Hm, Hseq, Z.add_0_l in Hsq.
    assert (log1 = [] → bool_decide (minimum = jn_head j0) = true) as Hseen.
    { intros ->. inversion H1; subst. by apply bool_decide_eq_true_2. }
    destruct ((_ =? _) && _) eqn:E.
    { apply andb_true_iff in E as [E1%Z.eqb_eq E2%negb_true_iff]. rewrite Hseen in E2; [done|].
      destruct log1; [done|]. rewrite len_cons in Hsq. pose proof (len_nonneg log1). lia. }
    rewrite (replay_bytes_complete _ _ _ _ (j, true)); [done|done| |rewrite length_app; lia].
    eapply tracks_app; [by apply appends_tracks_before|].
    apply appends_tracks_after; [apply Hs1|done|]. by rewrite Hm.
Qed.

(** ** Frames are self-delimiting *)

Definition framed (f : bytes) : Prop :=
  ∃ t, is_u32 (len t - 4) ∧ f = le_bytes 4 (len t - 4) ++ t ∧
    crc_part U32_MAX f = crc_bits 32 U32_MAX.

Lemma frame_of_framed j e :
  journal_wf j → grows j e (12 + len (wire_event e)) → framed (frame_of j e).
Proof.
  intros Hwf Hg. pose proof (grows_body_u32 j e Hwf Hg) as Hu.
  exists (body_of j e ++ le_bytes 4 (crc32 (record_of j e))).
  assert (len (body_of j e ++ le_bytes 4 (crc32 (record_of j e))) - 4 = len (body_of j e)) as ->.
  { rewrite len_app, len_le_bytes. lia. }
  split; [done|]. split; [apply frame_of_fields|]. unfold frame_of.
  apply crc_residue; [apply length_le_bytes|]. apply le_val_u32, crc32_u32.
Qed.

Lemma appends_framed j log j' : journal_wf j → appends j log j' → Forall framed log.*2.
Proof.
  intros Hwf Happ. revert Hwf. induction Happ as [|j e f j1 log j' Hty Hap _ IH]; intros Hwf; csimpl.
  { constructor. }
  apply journal_append_ok in Hap as [Hwf1 Hg -> _ _]; [|done..].
  constructor; [by apply frame_of_framed|by apply IH].
Qed.

(** A stream of frames starts with only one frame. *)
Lemma framed_app_inj f g x y : framed f → framed g → f ++ x = g ++ y → f = g ∧ x = y.
Proof.
  intros (t & Ht & -> & _) (u & Hu & -> & _) E. rewrite <-!app_assoc in E.
  apply app_inj_1 in E as [E1 E2]; [|by rewrite !length_le_bytes].
  assert (len t = len u) as Hlen.
  { apply (f_equal le_val) in E1. rewrite !le_val_u32 in E1 by done. lia. }
  apply app_inj_1 in E2 as [-> ->]; [done|]. unfold len in Hlen. lia.
Qed.

Lemma frames_cancel fs gs x :
  Forall framed fs → Forall framed gs → concat gs = concat fs ++ x →
  ∃ hs, gs = fs ++ hs ∧ concat hs = x.
Proof.
  intros Hf. revert gs x. induction Hf as [|f fs Hf Hfs IH]; intros gs x Hg E; simpl in *.
  { by exists gs. }
  destruct Hg as [|g gs Hg Hgs]; simpl in E.
  { exfalso. destruct Hf as (t & _ & -> & _). by apply (f_equal length) in E. }
  rewrite <-app_assoc in E. apply framed_app_inj in E as [-> E]; [|done..].
  destruct (IH gs x Hgs E) as (hs & -> & Hx). by exists hs.
Qed.

(** ** Properties *)

(** The public entry points: a journal with or without a recovery reserve. *)
Definition replay_any (identity : Identity) (minimum : Head) (limits : Limits)
    (reserve : option RecoveryReserve) : st Reader JournalError Journal :=
  match reserve with
  | None => journal_replay identity minimum limits
  | Some reserve => journal_replay_with_recovery_reserve identity minimum limits reserve
  end.

Lemma replay_any_eq identity minimum limits reserve j0 reader :
  journal_configured identity limits reserve = Ok j0 →
  replay_any identity minimum limits reserve reader = replay_from j0 minimum reader.
Proof.
  intros Hn. destruct reserve; simpl; unfold journal_replay, journal_replay_with_recovery_reserve,
    journal_new, journal_new_with_recovery_reserve; munfold_goal; by rewrite Hn.
Qed.

Lemma replay_any_iff identity minimum limits reserve j0 reader j :
  config_typed identity limits reserve → journal_configured identity limits reserve = Ok j0 →
  (replay_any identity minimum limits reserve reader).1 = Ok j ↔
    fault_of reader = None ∧ written j0 minimum (delivered reader) j.
Proof.
  intros Ht Hn. rewrite (replay_any_eq _ _ _ _ j0) by done. rewrite replay_from_eq.
  apply journal_configured_wf in Hn as (Hwf & Hs & _); [|done]. by apply replay_stream_iff.
Qed.

Lemma replay_any_no_panic identity minimum limits reserve j0 reader :
  config_typed identity limits reserve → journal_configured identity limits reserve = Ok j0 →
  (replay_any identity minimum limits reserve reader).1 ≠ Panic.
Proof.
  intros Ht Hn. rewrite (replay_any_eq _ _ _ _ j0), replay_from_eq by done.
  apply journal_configured_wf in Hn as (Hwf & _); [|done]. unfold replay_stream.
  destruct (_ <? _); [done|]. case_bool_decide; [|done]. destruct (_ && _); [done|].
  match goal with |- context [replay_bytes ?n ?m ?s ?k ?b] =>
    pose proof (replay_bytes_sound n m s k b Hwf ltac:(rewrite length_drop; lia)) as Hs;
    destruct (replay_bytes n m s k b) as [[j1 []]| |] end; simpl; done.
Qed.

(** C1: replay accepts exactly the history that was appended.  For
    every reader, whatever the sizes of its chunks, its interruptions and its
    errors, replay terminates without a panic, and it returns a journal [j] if
    and only if the reader ends cleanly and the bytes it delivered are the
    header and the frames of a series of successful appends that ends in
    exactly [j] and passes through the anchored head. *)
Theorem replay_accepts_exactly_appended (identity : Identity) (minimum : Head) (limits : Limits)
    (reserve : option RecoveryReserve) (j0 : Journal) (reader : Reader) :
  config_typed identity limits reserve → journal_configured identity limits reserve = Ok j0 →
  (replay_any identity minimum limits reserve reader).1 ≠ Panic ∧
  ∀ j, (replay_any identity minimum limits reserve reader).1 = Ok j ↔
    fault_of reader = None ∧
    ∃ log1 log2 jm, appends j0 log1 jm ∧ appends jm log2 j ∧ jn_head jm = minimum ∧
      delivered reader = journal_header j0 ++ frames (log1 ++ log2).
Proof.
  intros Ht Hn. split; [by eapply replay_any_no_panic|].
  intros j. by rewrite (replay_any_iff _ _ _ _ j0).
Qed.

Definition example_frame : bytes :=
  match (journal_append example_event (example_journal None)).1 with Ok f => f | _ => [] end.

Lemma replay_accepts_exactly_appended_witness :
  let j0 := example_journal None in
  let j := (journal_append example_event j0).2 in
  let stream := journal_header j0 ++ example_frame in
  (replay_any example_identity (jn_head j) example_limits None
    [Data (take 70 stream); Fault Interrupted; Data (drop 70 stream)]).1 = Ok j.
Proof.
  intros j0 j stream.
  destruct (example_reached None (or_introl eq_refl)) as [Ht Hn _].
  destruct (replay_accepts_exactly_appended example_identity (jn_head j) example_limits None j0
    [Data (take 70 stream); Fault Interrupted; Data (drop 70 stream)] Ht Hn) as [_ H].
  apply (proj2 (H j)). split; [vm_compute; reflexivity|].
  exists [(example_event, example_frame)], [], j. split_and!.
  - econstructor; [apply example_event_typed| |constructor].
    vm_compute. reflexivity.
  - constructor.
  - done.
  - vm_compute. reflexivity.
Defined.

(** C27: a journal cannot be rolled back behind an acknowledged
    head.  When the reader delivers any proper prefix of the stream that was
    written up to a head, cut between two records or inside one, replay with
    that head as its anchor returns an error. *)
Theorem replay_refuses_rollback (identity : Identity) (limits : Limits)
    (reserve : option RecoveryReserve) (j0 j : Journal) (log : list (Event * bytes))
    (reader : Reader) (lost : bytes) :
  reached identity limits reserve j0 log j → lost ≠ [] →
  journal_header j0 ++ frames log = delivered reader ++ lost →
  ∃ er, (replay_any identity (jn_head j) limits reserve reader).1 = Err er.
Proof.
  intros Hreach Hlost Hcut. pose proof Hreach as [Ht Hn Happ].
  destruct (replay_any _ _ _ _ reader).1 as [j'|er|] eqn:E; [|by eexists|by eapply replay_any_no_panic in E].
  exfalso. apply (replay_any_iff _ _ _ _ j0) in E as (_ & log1 & log2 & jm & H1 & H2 & Hm & Hd); [|done..].
  apply reached_wf in Hreach as (Hwf0 & _ & Hs & _).
  pose proof (appends_sound _ _ _ Hwf0 H1) as Hs1.
  rewrite Hd, <-app_assoc in Hcut. apply app_inv_head in Hcut.
  rewrite frames_app, <-app_assoc in Hcut.
  destruct (frames_cancel log1.*2 log.*2 (frames log2 ++ lost)) as (hs & Hlog & Hhs);
    [by eapply appends_framed..|done|].
  assert (length log = length log1) as Hlen.
  { pose proof (aps_sequence _ _ _ Hs) as Hq. pose proof (aps_sequence _ _ _ Hs1) as Hq1.
    rewrite Hm in Hq1. unfold len in *. lia. }
  apply (f_equal length) in Hlog. rewrite length_app, !length_fmap in Hlog.
  destruct hs; [|simpl in Hlog; lia]. simpl in Hhs. symmetry in Hhs.
  apply app_eq_nil in Hhs as [_ Hl]. done.
Qed.

Lemma replay_refuses_rollback_witness :
  let j0 := example_journal None in
  let j := (journal_append example_event j0).2 in
  replay_any example_identity (jn_head j) example_limits None [Data (journal_header j0)]
    = (Err JBehindAnchor, []) ∧
  ∃ er, (replay_any example_identity (jn_head j) example_limits None [Data (journal_header j0)]).1 = Err er.
Proof.
  intros j0 j. split; [vm_compute; reflexivity|].
  destruct (example_reached None (or_introl eq_refl)) as [Ht Hn _].
  refine (replay_refuses_rollback example_identity example_limits None j0 j
    [(example_event, example_frame)] [Data (journal_header j0)] example_frame _ _ _).
  - split; [done|done|]. econstructor; [apply example_event_typed| |constructor].
    vm_compute. reflexivity.
  - vm_compute. discriminate.
  - vm_compute. reflexivity.
Defined.

(** A damaged record is never replayed.  When the reader
    delivers a written stream in which a burst of at most four bytes has been
    changed anywhere in one record's body or checksum, replay returns an
    error, whatever its anchor is. *)
Theorem replay_refuses_corruption (identity : Identity) (minimum : Head) (limits : Limits)
    (reserve : option RecoveryReserve) (j0 j : Journal) (log1 log2 : list (Event * bytes))
    (e : Event) (length_field pre w w' post : bytes) (reader : Reader) :
  reached identity limits reserve j0 (log1 ++ (e, length_field ++ pre ++ w ++ post) :: log2) j →
  length length_field = 4%nat → length w = length w' → (length w ≤ 4)%nat → w ≠ w' →
  delivered reader =
    journal_header j0 ++ frames log1 ++ (length_field ++ pre ++ w' ++ post) ++ frames log2 →
  ∃ er, (replay_any identity minimum limits reserve reader).1 = Err er.
Proof.
  intros Hreach Hl4 Hw Hw4 Hne Hd. pose proof Hreach as [Ht Hn Happ].
  destruct (replay_any _ _ _ _ reader).1 as [j'|er|] eqn:E; [|by eexists|by eapply replay_any_no_panic in E].
  exfalso. apply (replay_any_iff _ _ _ _ j0) in E as (_ & log1' & log2' & jm & H1 & H2 & _ & Hd'); [|done..].
  apply reached_wf in Hreach as (Hwf0 & _ & _ & _).
  rewrite Hd in Hd'. apply app_inv_head in Hd'.
  pose proof (appends_framed _ _ _ Hwf0 Happ) as Hfr. rewrite fmap_app in Hfr.
  apply Forall_app in Hfr as [Hfr1 Hfr2]. csimpl in Hfr2. apply Forall_cons in Hfr2 as [Hf _].
  pose proof (appends_framed _ _ _ Hwf0 (appends_app _ _ _ _ _ H1 H2)) as Hfr'.
  destruct (frames_cancel log1.*2 (log1' ++ log2').*2
    ((length_field ++ pre ++ w' ++ post) ++ frames log2)) as (hs & Hlog & Hhs); [done..|].
  rewrite Hlog in Hfr'. apply Forall_app in Hfr' as [_ Hgs].
  destruct Hgs as [|g gs Hg _].
  { simpl in Hhs. apply (f_equal length) in Hhs. rewrite !length_app, Hl4 in Hhs. done. }
  simpl in Hhs.
  destruct Hf as (t & Hu & Ef & Hcrc). destruct Hg as (u & Hu' & -> & Hcrc').
  apply app_inj_1 in Ef as [-> <-]; [|by rewrite length_le_bytes].
  rewrite <-!app_assoc in Hhs. apply app_inj_1 in Hhs as [El Eb]; [|by rewrite !length_le_bytes].
  assert (len u = len (pre ++ w ++ post)) as Hlen.
  { apply (f_equal le_val) in El. rewrite !le_val_u32 in El by done. lia. }
  rewrite !app_assoc in Eb. rewrite <-(app_assoc pre) in Eb.
  apply app_inj_1 in Eb as [-> _]; [|rewrite !len_app in Hlen; unfold len in Hlen; rewrite !length_app; lia].
  rewrite El in Hcrc'. rewrite <-Hcrc in Hcrc'. revert Hcrc'.
  rewrite !app_assoc, !(crc_part_app _ (_ ++ _) post). intros E%crc_part_inj;
    [|by apply crc_part_u32, u32_max_u32..].
  rewrite !crc_part_app in E. apply crc_part_burst in E; [congruence|congruence|lia].
Qed.

Lemma replay_refuses_corruption_witness :
  let j0 := example_journal None in
  let f := example_frame in
  let damaged := take 30 f ++ [xff] ++ drop 31 f in
  (replay_any example_identity (jn_head j0) example_limits None [Data (journal_header j0 ++ damaged)]).1
    = Err (JCorrupt "record checksum") ∧
  ∃ er, (replay_any example_identity (jn_head j0) example_limits None
    [Data (journal_header j0 ++ damaged)]).1 = Err er.
Proof.
  intros j0 f damaged. split; [vm_compute; reflexivity|].
  destruct (example_reached None (or_introl eq_refl)) as [Ht Hn _].
  refine (replay_refuses_corruption example_identity (jn_head j0) example_limits None j0
    (journal_append example_event j0).2 [] [] example_event
    (take 4 f) (take 26 (drop 4 f)) (take 1 (drop 30 f)) [xff] (drop 31 f) _ _ _ _ _ _ _).
  - split; [done|done|]. econstructor; [apply example_event_typed| |constructor].
    vm_compute. reflexivity.
  - vm_compute. reflexivity.
  - vm_compute. reflexivity.
  - vm_compute. lia.
  - vm_compute. discriminate.
  - vm_compute. reflexivity.
Defined.
