(* ===== verification/Replay.v ===== *)
(** * Cooperative replay

    [Replay] of [crates/fa-journal/src/replay.rs] and [HistoryAnchor] of
    [crates/fa-journal/src/replay/anchor.rs]: a replay that is advanced in
    budgeted steps by a host, keeps its partial reconstruction to itself and
    may compare what it reads with an exact retained prefix.  The theorems
    relate it to the synchronous replay of [Journal.v]. *)

From Stdlib Require Import Strings.Byte Strings.String.
From stdpp Require Import base tactics numbers list gmap sets strings.
From S2P Require Import Prelude Bytes Reader Judgment Rights Crc Wire Journal Recovery.

Local Open Scope Z_scope.

(** ** Data *)

Record ReplayBudget := mkReplayBudget {
  rb_read_calls : Z;
  rb_read_bytes : Z;
  rb_checked_records : Z;
}.
Definition UNLIMITED : ReplayBudget := mkReplayBudget U64_MAX U64_MAX U64_MAX.

Record ReplayWork := mkReplayWork {
  rw_read_calls : Z;
  rw_read_bytes : Z;
  rw_checked_records : Z;
}.
Definition no_work : ReplayWork := mkReplayWork 0 0 0.

#[global] Instance ReplayWork_eq_dec : EqDecision ReplayWork.
Proof. solve_decision. Defined.

Inductive ReplayStatus := Reading | Ready | Failed.

#[global] Instance ReplayStatus_eq_dec : EqDecision ReplayStatus.
Proof. solve_decision. Defined.

Record ReplayReport := mkReplayReport {
  rr_status : ReplayStatus;
  rr_spent : ReplayWork;
  rr_total : ReplayWork;
}.

Inductive ReplayError := RJournal (error : JournalError) | RNotReady | RFailed.

Inductive Phase := PHeader | PLength | PRecord (body_len encoded_len : Z).

Record HistoryAnchor := mkHistoryAnchor {
  ha_bytes : bytes;
  ha_head : Head;
  ha_limits : Limits;
}.

Record Replay := mkReplay {
  rp_reader : Reader;
  rp_journal : Journal;
  rp_minimum : Head;
  rp_anchor_seen : bool;
  rp_exact_anchor : option HistoryAnchor;
  rp_captured_history : option bytes;
  rp_phase : Phase;
  rp_buffer : bytes;
  rp_filled : Z;
  rp_length : bytes;
  rp_status : ReplayStatus;
  rp_total : ReplayWork;
}.

Definition with_reader (x : Reader) (r : Replay) : Replay :=
  mkReplay x (rp_journal r) (rp_minimum r) (rp_anchor_seen r) (rp_exact_anchor r)
    (rp_captured_history r) (rp_phase r) (rp_buffer r) (rp_filled r) (rp_length r) (rp_status r) (rp_total r).
Definition with_state (x : Journal * bool) (r : Replay) : Replay :=
  mkReplay (rp_reader r) x.1 (rp_minimum r) x.2 (rp_exact_anchor r)
    (rp_captured_history r) (rp_phase r) (rp_buffer r) (rp_filled r) (rp_length r) (rp_status r) (rp_total r).
Definition with_exact_anchor (x : option HistoryAnchor) (r : Replay) : Replay :=
  mkReplay (rp_reader r) (rp_journal r) (rp_minimum r) (rp_anchor_seen r) x
    (rp_captured_history r) (rp_phase r) (rp_buffer r) (rp_filled r) (rp_length r) (rp_status r) (rp_total r).
Definition with_history (x : option bytes) (r : Replay) : Replay :=
  mkReplay (rp_reader r) (rp_journal r) (rp_minimum r) (rp_anchor_seen r) (rp_exact_anchor r)
    x (rp_phase r) (rp_buffer r) (rp_filled r) (rp_length r) (rp_status r) (rp_total r).
Definition with_phase (x : Phase) (r : Replay) : Replay :=
  mkReplay (rp_reader r) (rp_journal r) (rp_minimum r) (rp_anchor_seen r) (rp_exact_anchor r)
    (rp_captured_history r) x (rp_buffer r) (rp_filled r) (rp_length r) (rp_status r) (rp_total r).
Definition with_buffer (x : bytes) (n : Z) (r : Replay) : Replay :=
  mkReplay (rp_reader r) (rp_journal r) (rp_minimum r) (rp_anchor_seen r) (rp_exact_anchor r)
    (rp_captured_history r) (rp_phase r) x n (rp_length r) (rp_status r) (rp_total r).
Definition with_length (x : bytes) (r : Replay) : Replay :=
  mkReplay (rp_reader r) (rp_journal r) (rp_minimum r) (rp_anchor_seen r) (rp_exact_anchor r)
    (rp_captured_history r) (rp_phase r) (rp_buffer r) (rp_filled r) x (rp_status r) (rp_total r).
Definition with_status (x : ReplayStatus) (r : Replay) : Replay :=
  mkReplay (rp_reader r) (rp_journal r) (rp_minimum r) (rp_anchor_seen r) (rp_exact_anchor r)
    (rp_captured_history r) (rp_phase r) (rp_buffer r) (rp_filled r) (rp_length r) x (rp_total r).
Definition with_total (x : ReplayWork) (r : Replay) : Replay :=
  mkReplay (rp_reader r) (rp_journal r) (rp_minimum r) (rp_anchor_seen r) (rp_exact_anchor r)
    (rp_captured_history r) (rp_phase r) (rp_buffer r) (rp_filled r) (rp_length r) (rp_status r) x.

(** ** History anchors *)

Definition anchor_encoded_len (self : HistoryAnchor) : Z := len (ha_bytes self).

Definition history_anchor_checked (bs : bytes) (journal : Journal) (owner : option Journal)
    : res JournalError HistoryAnchor :=
  refuse_if (l_max_total_bytes (jn_limits journal) <? len bs) JLimit;;
  checked ← (replay_from journal (jn_head journal) [Data bs]).1;
  refuse_if (match owner with
    | Some owner =>
      negb (bool_decide (jn_head checked = jn_head owner))
      || negb (jn_encoded_len checked =? jn_encoded_len owner)
      || negb (bool_decide (jn_rights checked = jn_rights owner))
    | None => false
    end) JBinding;;
  mret (mkHistoryAnchor bs (jn_head checked) (jn_limits checked)).

Definition history_anchor_from_bytes (bs : bytes) (identity : Identity) (limits : Limits)
    : res JournalError HistoryAnchor :=
  journal ← journal_new identity limits;
  history_anchor_checked bs journal None.

Definition history_anchor_from_bytes_with_recovery_reserve (bs : bytes) (identity : Identity)
    (limits : Limits) (reserve : RecoveryReserve) : res JournalError HistoryAnchor :=
  journal ← journal_new_with_recovery_reserve identity limits reserve;
  history_anchor_checked bs journal None.

Definition history_anchor_from_acknowledged (bs : bytes) (owner : Journal)
    : res JournalError HistoryAnchor :=
  initial ← journal_configured (jn_identity owner) (jn_limits owner) (jn_recovery_reserve owner);
  history_anchor_checked bs initial (Some owner).

Definition anchor_check_context (self : HistoryAnchor) (journal : Journal) : res JournalError unit :=
  refuse_if (negb (l_max_frame_bytes (ha_limits self) =? l_max_frame_bytes (jn_limits journal))
    || negb (l_max_records (ha_limits self) =? l_max_records (jn_limits journal))
    || negb (l_max_total_bytes (ha_limits self) =? l_max_total_bytes (jn_limits journal))
    || negb (bool_decide (journal_header journal `prefix_of` ha_bytes self))) JBinding.

Definition anchor_check_read (self : HistoryAnchor) (offset : Z) (bs : bytes) : res JournalError unit :=
  if anchor_encoded_len self <=? offset then mret tt
  else
    let count := Z.to_nat (Z.min (len bs) (len (ha_bytes self) - offset)) in
    refuse_if (negb (bool_decide
      (take count bs = take count (drop (Z.to_nat offset) (ha_bytes self))))) JBinding.

(** ** Construction *)

Definition replay_cursor (self : Journal) (reader : Reader) (minimum : Head) : Replay :=
  mkReplay reader self minimum (bool_decide (minimum = jn_head self)) None None PHeader
    (replicate (length (journal_header self)) x00) 0 (replicate 4 x00) Reading no_work.

Definition replay_cursor_anchored (self : Journal) (reader : Reader) (anchor : HistoryAnchor)
    : res JournalError Replay :=
  anchor_check_context anchor self;;
  mret (with_exact_anchor (Some anchor) (replay_cursor self reader (ha_head anchor))).

Definition replay_enable_history_capture : st Replay JournalError unit :=
  self ← get;
  refuse_if (negb (bool_decide (rp_status self = Reading))
    || negb (bool_decide (rp_total self = no_work))
    || negb (rp_filled self =? 0)
    || match rp_phase self with PHeader => false | _ => true end) JInvalidInput;;
  match rp_captured_history self with
  | None => modify (with_history (Some []))
  | Some _ => mret tt
  end.

Definition replay_cursor_capturing (self : Journal) (reader : Reader) (minimum : Head)
    : res JournalError Replay :=
  exec replay_enable_history_capture (replay_cursor self reader minimum).

(** ** The loop of [advance_inner] *)

Definition resize_buffer (size : Z) : Replay → Replay :=
  with_buffer (replicate (Z.to_nat size) x00) 0.

(** The local state of a call: the cursor and the work of this call. *)
Abbreviation Polling := (Replay * ReplayWork)%type.
Definition on_replay (f : Replay → Replay) (p : Polling) : Polling := (f p.1, p.2).
Definition on_spent (f : ReplayWork → ReplayWork) (p : Polling) : Polling := (p.1, f p.2).

(** The buffer is full: one phase is complete.  [Some status] returns. *)
Definition advance_phase (budget : ReplayBudget) : st Polling JournalError (option ReplayStatus) :=
  '(self, spent) ← get;
  match rp_phase self with
  | PHeader =>
    refuse_if (negb (bool_decide (rp_buffer self = journal_header (rp_journal self)))
      || ((h_sequence (rp_minimum self) =? 0) && negb (rp_anchor_seen self))) JBinding;;
    modify (on_replay (resize_buffer 4));;
    modify (on_replay (with_phase PLength));;
    mret None
  | PLength =>
    modify (on_replay (with_length (rp_buffer self)));;
    let body_len := le_val (rp_buffer self) in
    encoded_len ← lift (journal_check_growth (rp_journal self) body_len);
    modify (on_replay (resize_buffer (body_len + 4)));;
    modify (on_replay (with_phase (PRecord body_len encoded_len)));;
    mret None
  | PRecord body_len encoded_len =>
    if rw_checked_records spent =? rb_checked_records budget then mret (Some Reading)
    else
      let total := rp_total self in
      checked ← ok_or (u64_checked_add (rw_checked_records total) 1) JLimit;
      modify (on_replay (with_total
        (mkReplayWork (rw_read_calls total) (rw_read_bytes total) checked)));;
      checked ← lift (u64_add (rw_checked_records spent) 1);
      modify (on_spent (λ spent, mkReplayWork (rw_read_calls spent) (rw_read_bytes spent) checked));;
      zoom (λ p : Polling, (rp_journal p.1, rp_anchor_seen p.1))
           (λ s p, on_replay (with_state s) p) id
        (check_record (rp_minimum self) (rp_length self)
          (take (Z.to_nat body_len) (rp_buffer self)) (drop (Z.to_nat body_len) (rp_buffer self))
          encoded_len);;
      modify (on_replay (resize_buffer 4));;
      modify (on_replay (with_phase PLength));;
      mret None
  end.

(** The bytes of a successful read enter the buffer. *)
Definition advance_bytes (got : bytes) : st Polling JournalError (option ReplayStatus) :=
  '(self, spent) ← get;
  let total := rp_total self in
  let offset := rw_read_bytes total in
  read_bytes ← ok_or (u64_checked_add offset (len got)) JLimit;
  modify (on_replay (with_total
    (mkReplayWork (rw_read_calls total) read_bytes (rw_checked_records total))));;
  read_bytes ← lift (u64_add (rw_read_bytes spent) (len got));
  modify (on_spent (λ spent, mkReplayWork (rw_read_calls spent) read_bytes (rw_checked_records spent)));;
  lift (match rp_exact_anchor self with
        | Some anchor => anchor_check_read anchor offset got
        | None => mret tt
        end);;
  match rp_captured_history self with
  | Some history =>
    length ← ok_or (u64_checked_add (len history) (len got)) JLimit;
    refuse_if (l_max_total_bytes (jn_limits (rp_journal self)) <? length) JLimit;;
    modify (on_replay (with_history (Some (history ++ got))))
  | None => mret tt
  end;;
  let filled := Z.to_nat (rp_filled self) in
  modify (on_replay (with_buffer
    (take filled (rp_buffer self) ++ got ++ drop (filled + length got) (rp_buffer self))
    (rp_filled self + len got)));;
  mret None.

(** The buffer is not full: one read. *)
Definition advance_read (budget : ReplayBudget) : st Polling JournalError (option ReplayStatus) :=
  '(self, spent) ← get;
  if (rw_read_calls spent =? rb_read_calls budget) || (rw_read_bytes spent =? rb_read_bytes budget)
  then mret (Some Reading)
  else
    allowed ← lift (u64_sub (rb_read_bytes budget) (rw_read_bytes spent));
    missing ← lift (u64_sub (len (rp_buffer self)) (rp_filled self));
    let amount := Z.min allowed missing in
    let total := rp_total self in
    calls ← ok_or (u64_checked_add (rw_read_calls total) 1) JLimit;
    modify (on_replay (with_total
      (mkReplayWork calls (rw_read_bytes total) (rw_checked_records total))));;
    calls ← lift (u64_add (rw_read_calls spent) 1);
    modify (on_spent (λ spent, mkReplayWork calls (rw_read_bytes spent) (rw_checked_records spent)));;
    let '(r, reader) := reader_read amount (rp_reader self) in
    modify (on_replay (with_reader reader));;
    match r with
    | Err Interrupted => mret None
    | Err kind => mthrow (JIo kind)
    | Panic => lift Panic
    | Ok got =>
      refuse_if (amount <? len got) (JCorrupt "reader overreported length");;
      if len got =? 0 then
        if match rp_phase self with PLength => rp_filled self =? 0 | _ => false end then
          if rp_anchor_seen self
             && match rp_exact_anchor self with
                | Some anchor => anchor_encoded_len anchor <=? rw_read_bytes total
                | None => true
                end
          then mret (Some Ready) else mthrow JBehindAnchor
        else mthrow (JIo UnexpectedEof)
      else advance_bytes got
    end.

Definition advance_round (budget : ReplayBudget) : st Polling JournalError (option ReplayStatus) :=
  '(self, spent) ← get;
  if rp_filled self =? len (rp_buffer self) then advance_phase budget else advance_read budget.

(** A full phase is followed by a read or a return, and a read consumes a step
    of the reader or a byte of it: see [advance_inner_total] for the fuel. *)
Fixpoint advance_inner (fuel : nat) (budget : ReplayBudget) : st Polling JournalError ReplayStatus :=
  match fuel with
  | O => lift Panic
  | S fuel =>
    done ← advance_round budget;
    match done with
    | Some status => mret status
    | None => advance_inner fuel budget
    end
  end.

Definition advance_fuel (self : Replay) : nat := S (S (S (2 * reader_size (rp_reader self)))).

(** ** The public operations *)

Definition replay_progress (self : Replay) : ReplayReport :=
  mkReplayReport (rp_status self) no_work (rp_total self).

Definition replay_advance (budget : ReplayBudget) : st Replay ReplayError ReplayReport := λ self,
  match rp_status self with
  | Ready => (Ok (replay_progress self), self)
  | Failed => (Err RFailed, self)
  | Reading =>
    match advance_inner (advance_fuel self) budget (with_status Failed self, no_work) with
    | (Ok status, (self, spent)) =>
      (Ok (mkReplayReport status spent (rp_total self)), with_status status self)
    | (Err error, (self, _)) => (Err (RJournal error), self)
    | (Panic, (self, _)) => (Panic, self)
    end
  end.

Definition replay_into_parts (self : Replay) : res ReplayError (Reader * Journal) :=
  match rp_status self with
  | Ready => Ok (rp_reader self, rp_journal self)
  | Reading => Err RNotReady
  | Failed => Err RFailed
  end.

Definition replay_finish (self : Replay) : res ReplayError Journal :=
  parts ← replay_into_parts self;
  mret parts.2.

Definition replay_cancel (self : Replay) : ReplayWork := rp_total self.

Definition replay_into_parts_with_history_anchor (self : Replay)
    : res ReplayError (Reader * Journal * HistoryAnchor) :=
  match rp_status self with
  | Reading => Err RNotReady
  | Failed => Err RFailed
  | Ready =>
    bs ← ok_or (rp_captured_history self) (RJournal JBinding);
    refuse_if (negb (len bs =? jn_encoded_len (rp_journal self))) (RJournal JBinding);;
    mret (rp_reader self, rp_journal self,
          mkHistoryAnchor bs (jn_head (rp_journal self)) (jn_limits (rp_journal self)))
  end.

Definition replay_finish_with_history_anchor (self : Replay)
    : res ReplayError (Journal * HistoryAnchor) :=
  '(_, journal, anchor) ← replay_into_parts_with_history_anchor self;
  mret (journal, anchor).

(** The entry points of the two journal profiles. *)
Definition journal_begin_replay (identity : Identity) (limits : Limits)
    (reserve : option RecoveryReserve) (reader : Reader) (minimum : Head) : res JournalError Replay :=
  journal ← journal_configured identity limits reserve;
  mret (replay_cursor journal reader minimum).

Definition journal_begin_replay_anchored (identity : Identity) (limits : Limits)
    (reserve : option RecoveryReserve) (reader : Reader) (anchor : HistoryAnchor)
    : res JournalError Replay :=
  journal ← journal_configured identity limits reserve;
  replay_cursor_anchored journal reader anchor.

Definition journal_begin_replay_with_history_anchor (identity : Identity) (limits : Limits)
    (reserve : option RecoveryReserve) (reader : Reader) (minimum : Head) : res JournalError Replay :=
  journal ← journal_configured identity limits reserve;
  replay_cursor_capturing journal reader minimum.

(** ** The simulation

    [resume] is what the synchronous replay would return from where the
    cooperative one stands: the buffered part of the current phase followed by
    the bytes the reader has yet to deliver.  Every round preserves it. *)

Definition replay_tail (minimum : Head) (state : Journal * bool) (stop : option IoKind) (bs : bytes)
    : res JournalError Journal :=
  '(journal, anchor_seen) ← replay_bytes (S (length bs)) minimum state stop bs;
  if negb anchor_seen then Err JBehindAnchor else Ok journal.

Definition buffered (rp : Replay) : bytes := take (Z.to_nat (rp_filled rp)) (rp_buffer rp).

Definition resume (rp : Replay) : res JournalError Journal :=
  let bs := buffered rp ++ delivered (rp_reader rp) in
  let stop := fault_of (rp_reader rp) in
  match rp_phase rp with
  | PHeader => replay_stream (rp_journal rp) (rp_minimum rp) stop bs
  | PLength => replay_tail (rp_minimum rp) (rp_journal rp, rp_anchor_seen rp) stop bs
  | PRecord _ _ =>
    replay_tail (rp_minimum rp) (rp_journal rp, rp_anchor_seen rp) stop (rp_length rp ++ bs)
  end.

(** What each phase knows about its buffer. *)
Definition phase_inv (rp : Replay) : Prop :=
  match rp_phase rp with
  | PHeader => len (rp_buffer rp) = len (journal_header (rp_journal rp)) ∧
      rp_anchor_seen rp = bool_decide (rp_minimum rp = jn_head (rp_journal rp)) ∧
      0 < len (rp_buffer rp)
  | PLength => len (rp_buffer rp) = 4
  | PRecord n encoded_len =>
      len (rp_buffer rp) = n + 4 ∧ len (rp_length rp) = 4 ∧ le_val (rp_length rp) = n ∧
      fits (rp_journal rp) n ∧ encoded_len = jn_encoded_len (rp_journal rp) + n + 8
  end.

(** Two byte strings of which one continues the other. *)
Definition agree (a b : bytes) : Prop := a `prefix_of` b ∨ b `prefix_of` a.

(** Projects the fields of an updated cursor. *)
Ltac cursor_simpl :=
  unfold on_replay, on_spent, with_reader, with_state, with_history, with_buffer, with_total;
  cbn [fst snd rp_reader rp_journal rp_minimum rp_anchor_seen rp_exact_anchor rp_captured_history
       rp_phase rp_buffer rp_filled rp_length rp_status rp_total
       rw_read_calls rw_read_bytes rw_checked_records].

(** Unfolding the synchronous loop by one complete record. *)
Lemma replay_tail_record minimum j seen stop length_ body cks bs :
  journal_wf j → len length_ = 4 → fits j (len body) → le_val length_ = len body → len cks = 4 →
  replay_tail minimum (j, seen) stop (length_ ++ body ++ cks ++ bs) =
    (state ← exec (check_record minimum length_ body cks (jn_encoded_len j + len body + 8)) (j, seen);
     replay_tail minimum state stop bs).
Proof.
  intros Hwf Hl Hfit Hv Hc. unfold replay_tail. rewrite replay_bytes_S.
  pose proof (len_nonneg body). pose proof (len_nonneg bs).
  assert (length length_ = 4%nat) as Hl4 by (unfold len in Hl; lia).
  assert (length cks = 4%nat) as Hc4 by (unfold len in Hc; lia).
  destruct (take_drop_app 4 length_ (body ++ cks ++ bs) Hl4) as [-> ->].
  rewrite Hv. assert (Z.to_nat (len body) = length body) as -> by (unfold len; lia).
  destruct (take_drop_app (length body) body (cks ++ bs) eq_refl) as [-> ->].
  destruct (take_drop_app 4 cks bs Hc4) as [-> ->].
  rewrite bool_decide_eq_false_2 by (intros E; apply (f_equal length) in E; rewrite length_app, Hl4 in E; done).
  rewrite !(proj2 (Z.ltb_ge _ _)) by (rewrite ?len_app; lia).
  cbn [fst]. rewrite journal_check_growth_eq, decide_True by done. munfold_goal.
  destruct (exec _ _) as [s| |]; [|done..].
  by rewrite (replay_bytes_fuel (length (length_ ++ body ++ cks ++ bs)) (S (length bs)))
    by (rewrite ?length_app; lia).
Qed.

(** A stream that ends inside a phase, or in an error, has no result. *)
Lemma replay_tail_short minimum j seen stop bs :
  journal_wf j → bs ≠ [] →
  (len bs < 4 ∨ fits j (le_val (take 4 bs)) ∧ 4 ≤ len bs ∧ len bs < 4 + le_val (take 4 bs) + 4) →
  replay_tail minimum (j, seen) stop bs = Err (short stop).
Proof.
  intros Hwf Hne Hb. unfold replay_tail. rewrite replay_bytes_S, bool_decide_eq_false_2 by done.
  destruct (Z.ltb_spec (len bs) 4) as [|Hge]; [done|]. destruct Hb as [|(Hfit & _ & Hlt)]; [lia|].
  cbn [fst]. rewrite journal_check_growth_eq, decide_True by done. munfold_goal.
  destruct (Z.ltb_spec (len (drop 4 bs)) (le_val (take 4 bs))) as [|Hge2]; [done|].
  rewrite (proj2 (Z.ltb_lt _ _)); [done|].
  unfold len in *. rewrite !length_drop in *. lia.
Qed.

Section simulation.
Context (j0 : Journal) (minimum : Head) (stream : bytes) (stop : option IoKind).
Context (exact : option HistoryAnchor) (capturing : bool).
Context (Hj0 : journal_wf j0) (Hseq0 : h_sequence (jn_head j0) = 0)
  (Henc0 : jn_encoded_len j0 = len (journal_header j0)).

Let answer := replay_stream j0 minimum stop stream.

Record cursor_inv (rp : Replay) : Prop := {
  ci_wf : journal_wf (rp_journal rp);
  ci_limits : jn_limits (rp_journal rp) = jn_limits j0;
  ci_minimum : rp_minimum rp = minimum;
  ci_stop : fault_of (rp_reader rp) = stop;
  ci_filled : 0 ≤ rp_filled rp ≤ len (rp_buffer rp);
  ci_phase : phase_inv rp;
  ci_resume : resume rp = answer;
  ci_exact : rp_exact_anchor rp = exact;
  ci_capturing : is_Some (rp_captured_history rp) ↔ capturing = true;
  ci_calls : 0 ≤ rw_read_calls (rp_total rp) ∧
    rw_read_calls (rp_total rp) + Z.of_nat (reader_size (rp_reader rp)) < U64_MAX;
  ci_bytes : rw_read_bytes (rp_total rp) + Z.of_nat (reader_size (rp_reader rp)) < U64_MAX;
  ci_checked : rw_checked_records (rp_total rp) = h_sequence (jn_head (rp_journal rp));
  ci_consumed : ∃ consumed, stream = consumed ++ delivered (rp_reader rp) ∧
    len consumed = rw_read_bytes (rp_total rp) ∧
    (∀ h, rp_captured_history rp = Some h → h = consumed) ∧
    (∀ a, exact = Some a → agree (ha_bytes a) consumed);
}.

(** The work of a call never exceeds its budget, nor the work in total. *)
Definition work_within (budget : ReplayBudget) (total spent : ReplayWork) : Prop :=
  (0 ≤ rw_read_calls spent ≤ rb_read_calls budget ∧ rw_read_calls spent ≤ rw_read_calls total) ∧
  (0 ≤ rw_read_bytes spent ≤ rb_read_bytes budget ∧ rw_read_bytes spent ≤ rw_read_bytes total) ∧
  (0 ≤ rw_checked_records spent ≤ rb_checked_records budget ∧
   rw_checked_records spent ≤ rw_checked_records total).
Definition budget_typed (budget : ReplayBudget) : Prop :=
  is_u64 (rb_read_calls budget) ∧ is_u64 (rb_read_bytes budget) ∧ is_u64 (rb_checked_records budget).

(** One dimension of the budget is used up. *)
Definition exhausted (budget : ReplayBudget) (spent : ReplayWork) : Prop :=
  rw_read_calls spent = rb_read_calls budget ∨ rw_read_bytes spent = rb_read_bytes budget ∨
  rw_checked_records spent = rb_checked_records budget.

(** The bytes conform to the exact anchor, when there is one. *)
Definition conforms : Prop := ∀ a, exact = Some a → ha_bytes a `prefix_of` stream.

(** An error is the synchronous one, or the retained prefix or the archive
    cannot hold what a complete replay would need. *)
Definition error_ok (e : JournalError) : Prop :=
  answer = Err e ∨ ¬ conforms ∨ (capturing = true ∧ ∀ j, answer ≠ Ok j).

Record ready_ok (rp : Replay) : Prop := {
  ro_answer : answer = Ok (rp_journal rp);
  ro_conforms : conforms;
  ro_history : ∀ h, rp_captured_history rp = Some h → h = stream;
  ro_capturing : is_Some (rp_captured_history rp) ↔ capturing = true;
  ro_encoded : jn_limits (rp_journal rp) = jn_limits j0;
}.

(** How many rounds can follow. *)
Definition rounds (rp : Replay) : nat :=
  (2 * reader_size (rp_reader rp) + if (rp_filled rp =? len (rp_buffer rp))%Z then 1 else 0)%nat.

Definition round_ok (budget : ReplayBudget) (p : Polling)
    (out : res JournalError (option ReplayStatus) * Polling) : Prop :=
  match out with
  | (Ok None, (rp', spent')) =>
      cursor_inv rp' ∧ work_within budget (rp_total rp') spent' ∧ (rounds rp' < rounds p.1)%nat
  | (Ok (Some Reading), (rp', spent')) =>
      cursor_inv rp' ∧ work_within budget (rp_total rp') spent' ∧ exhausted budget spent'
  | (Ok (Some Ready), (rp', spent')) => ready_ok rp' ∧ work_within budget (rp_total rp') spent'
  | (Ok (Some Failed), _) | (Panic, _) => False
  | (Err e, _) => error_ok e
  end.

Lemma agree_prefix a b c : agree a (b ++ c) → agree a b.
Proof.
  intros [Hp|Hp].
  - destruct (prefix_weak_total a b (b ++ c)) as [?|?]; [done|by apply prefix_app_r|by left|by right].
  - right. etransitivity; [|done]. by apply prefix_app_r.
Qed.

Lemma agree_min a b n :
  n = Nat.min (length a) (length b) → agree a b ↔ take n a = take n b.
Proof.
  intros ->. unfold agree. split.
  - intros [[k ->]|[k ->]]; rewrite length_app.
    + replace (Nat.min _ _) with (length a) by lia. by rewrite take_app_length, take_ge.
    + replace (Nat.min _ _) with (length b) by lia. by rewrite take_app_length, take_ge.
  - intros E. destruct (Nat.min_spec (length a) (length b)) as [[? Hm]|[? Hm]]; rewrite Hm in E.
    + left. rewrite (take_ge a) in E by lia. rewrite E. apply prefix_take.
    + right. rewrite (take_ge b) in E by lia. rewrite <-E. apply prefix_take.
Qed.

Lemma anchor_check_read_spec a consumed got :
  agree (ha_bytes a) consumed →
  match anchor_check_read a (len consumed) got with
  | Ok _ => agree (ha_bytes a) (consumed ++ got)
  | Err e => ¬ agree (ha_bytes a) (consumed ++ got)
  | Panic => False
  end.
Proof.
  intros Ha. unfold anchor_check_read, anchor_encoded_len.
  destruct (Z.leb_spec (len (ha_bytes a)) (len consumed)) as [Hle|Hlt].
  - left. destruct Ha as [Hp|Hp]; [by apply prefix_app_r|].
    apply prefix_length_eq in Hp; [subst; by apply prefix_app_r|unfold len in Hle; lia].
  - destruct Ha as [Hp|[rest Hrest]]; [apply prefix_length in Hp; unfold len in Hlt; lia|].
    rewrite Hrest, drop_len_app, len_app.
    assert (agree (consumed ++ rest) (consumed ++ got) ↔ agree rest got) as Heq.
    { unfold agree. split; intros [Hp|Hp]; [left|right|left|right];
        by (apply prefix_app_inv in Hp || apply prefix_app). }
    rewrite (agree_min rest got) in Heq by reflexivity.
    replace (Z.to_nat (Z.min _ _)) with (Nat.min (length rest) (length got)) by (unfold len; lia).
    munfold_goal. case_bool_decide as E; simpl; rewrite Heq; congruence.
Qed.

Lemma buffered_full rp : rp_filled rp = len (rp_buffer rp) → buffered rp = rp_buffer rp.
Proof. intros E. unfold buffered. apply take_ge. rewrite E. unfold len. lia. Qed.

Lemma len_replicate_x00 n : 0 ≤ n → len (replicate (Z.to_nat n) x00) = n.
Proof. intros. unfold len. rewrite length_replicate. lia. Qed.

(** A cursor whose buffer was just emptied for its next phase. *)
Lemma cursor_inv_phase rp rp' :
  cursor_inv rp → journal_wf (rp_journal rp') → jn_limits (rp_journal rp') = jn_limits j0 →
  rp_reader rp' = rp_reader rp → rp_minimum rp' = rp_minimum rp →
  rp_exact_anchor rp' = rp_exact_anchor rp → rp_captured_history rp' = rp_captured_history rp →
  rw_read_calls (rp_total rp') = rw_read_calls (rp_total rp) →
  rw_read_bytes (rp_total rp') = rw_read_bytes (rp_total rp) →
  rw_checked_records (rp_total rp') = h_sequence (jn_head (rp_journal rp')) →
  rp_filled rp' = 0 → phase_inv rp' → resume rp' = answer →
  cursor_inv rp'.
Proof.
  intros [] Hwf Hl Hr Hm He Hc Hcalls Hbytes Hch Hf Hp Hres.
  split; rewrite ?Hr, ?Hm, ?He, ?Hc, ?Hcalls, ?Hbytes; try done.
  rewrite Hf. split; [done|apply len_nonneg].
Qed.

Lemma rounds_refilled rp rp' :
  rp_filled rp = len (rp_buffer rp) → rp_reader rp' = rp_reader rp →
  rp_filled rp' = 0 → 0 < len (rp_buffer rp') → (rounds rp' < rounds rp)%nat.
Proof.
  intros Hf Hr Hf' Hb. unfold rounds. rewrite Hr, Hf', Hf, Z.eqb_refl.
  destruct (Z.eqb_spec 0 (len (rp_buffer rp'))); lia.
Qed.

Lemma advance_header_ok budget rp spent :
  cursor_inv rp → work_within budget (rp_total rp) spent → rp_filled rp = len (rp_buffer rp) →
  rp_phase rp = PHeader → round_ok budget (rp, spent) (advance_phase budget (rp, spent)).
Proof.
  intros Hinv Hw Hf Hph. unfold advance_phase. munfold_goal. cbn [fst snd]. rewrite Hph.
  pose proof Hinv as [Hwf Hl Hm Hs _ Hp Hres _ _ _ _ Hch _].
  unfold phase_inv in Hp. rewrite Hph in Hp. destruct Hp as (Hlen & Hseen & _).
  unfold resume in Hres. rewrite Hph, (buffered_full rp Hf) in Hres.
  assert (length (journal_header (rp_journal rp)) = length (rp_buffer rp)) as Hlen' by (unfold len in Hlen; lia).
  unfold replay_stream in Hres. rewrite Hlen', take_app_length, drop_app_length, Hm, Hs in Hres.
  rewrite (proj2 (Z.ltb_ge _ _)) in Hres by (rewrite len_app; pose proof (len_nonneg (delivered (rp_reader rp))); lia).
  case_bool_decide as Hb; simpl; [|by left].
  rewrite Hm, Hseen, Hm.
  destruct (_ && _) eqn:E; simpl; [by left|].
  split; [|split; [done|apply rounds_refilled; done]].
  apply (cursor_inv_phase rp); try done.
  rewrite <-Hres. unfold resume, replay_tail, buffered. simpl.
  rewrite Hm, Hs, Hseen, Hm.
  by rewrite (replay_bytes_fuel (S (length (delivered (rp_reader rp))))
    (S (length (rp_buffer rp ++ delivered (rp_reader rp))))) by (rewrite ?length_app; lia).
Qed.

Lemma advance_length_ok budget rp spent :
  cursor_inv rp → work_within budget (rp_total rp) spent → rp_filled rp = len (rp_buffer rp) →
  rp_phase rp = PLength → round_ok budget (rp, spent) (advance_phase budget (rp, spent)).
Proof.
  intros Hinv Hw Hf Hph. unfold advance_phase. munfold_goal. cbn [fst snd]. rewrite Hph.
  cbn [fst snd].
  pose proof Hinv as [Hwf Hl Hm Hs _ Hp Hres _ _ _ _ Hch _].
  unfold phase_inv in Hp. rewrite Hph in Hp.
  unfold resume in Hres. rewrite Hph, (buffered_full rp Hf) in Hres.
  assert (length (rp_buffer rp) = 4%nat) as H4 by (unfold len in Hp; lia).
  rewrite journal_check_growth_eq by done. case_decide as Hfit; simpl.
  - split; [|split; [done|apply rounds_refilled; [done..|]]].
    + apply (cursor_inv_phase rp); try done.
      * unfold phase_inv. simpl. pose proof (le_val_range (rp_buffer rp)).
        rewrite len_replicate_x00 by lia. done.
    + simpl. pose proof (le_val_range (rp_buffer rp)). rewrite len_replicate_x00; lia.
  - left. rewrite <-Hres. unfold replay_tail. rewrite replay_bytes_S.
    destruct (take_drop_app 4 (rp_buffer rp) (delivered (rp_reader rp)) H4) as [-> ->].
    rewrite bool_decide_eq_false_2 by (intros E; apply (f_equal length) in E; rewrite length_app, H4 in E; done).
    rewrite (proj2 (Z.ltb_ge _ _)) by (rewrite len_app; pose proof (len_nonneg (delivered (rp_reader rp))); lia).
    cbn [fst]. rewrite journal_check_growth_eq, decide_False by done. done.
Qed.

Lemma advance_record_ok budget rp spent n encoded_len :
  budget_typed budget → cursor_inv rp → work_within budget (rp_total rp) spent → rp_filled rp = len (rp_buffer rp) →
  rp_phase rp = PRecord n encoded_len → round_ok budget (rp, spent) (advance_phase budget (rp, spent)).
Proof.
  intros (_ & _ & [_ Hb]) Hinv Hw Hf Hph. unfold advance_phase. munfold_goal. cbn [fst snd]. rewrite Hph.
  pose proof Hinv as [Hwf Hl Hm Hs _ Hp Hres _ _ _ _ Hch _].
  unfold phase_inv in Hp. rewrite Hph in Hp. destruct Hp as (Hlen & Hl4 & Hv & Hfit & ->).
  destruct Hw as (Hw1 & Hw2 & Hw3).
  destruct (Z.eqb_spec (rw_checked_records spent) (rb_checked_records budget)) as [He|Hne].
  { split; [done|]. split; [done|]. right. by right. }
  pose proof (jwf_sequence _ Hwf). pose proof (lwf_records _ (jwf_limits _ Hwf)).
  rewrite u64_checked_add_fits by lia. cbn [fst snd]. rewrite u64_add_ok by lia. cbn [fst snd].
  assert (0 ≤ n) as Hn0 by (unfold fits in Hfit; lia).
  set (body := take (Z.to_nat n) (rp_buffer rp)). set (cks := drop (Z.to_nat n) (rp_buffer rp)).
  assert (len body = n) as Hbody by (apply len_take; lia).
  assert (len cks = 4) as Hcks by (unfold cks, len in *; rewrite length_drop; lia).
  unfold resume in Hres. rewrite Hph, (buffered_full rp Hf) in Hres.
  rewrite <-(take_drop (Z.to_nat n) (rp_buffer rp)) in Hres. fold body cks in Hres.
  rewrite <-app_assoc, replay_tail_record in Hres by (congruence || done).
  pose proof (check_record_sound (rp_journal rp) Hwf (rp_anchor_seen rp) (rp_minimum rp)
    (rp_length rp) body cks _ Hl4 Hcks ltac:(congruence) eq_refl) as Hrec.
  rewrite Hbody in Hrec, Hres. unfold on_replay, with_total, with_state, resize_buffer, with_buffer, with_phase. cbn [fst snd rp_journal rp_anchor_seen rp_minimum rp_length rp_buffer].
  fold body cks. unfold exec in Hrec, Hres.
  destruct (check_record _ _ _ _ _ _) as [[[]|e|] s1]; cbn [fst snd]; [|left; by rewrite <-Hres|done].
  destruct Hrec as (e & j1 & _ & Hap & _ & ->). cbn [fst snd] in *.
  pose proof Hap as [Hwf1 _ _ _ _]. pose proof (append_spec_sequence _ _ _ _ Hap) as Hseq.
  assert (jn_limits j1 = jn_limits (rp_journal rp)) as Hl1 by (destruct Hap as [_ _ _ _ ->]; done).
  split; [|split].
  - apply (cursor_inv_phase rp); simpl; try done; try lia. by rewrite Hl1.
  - unfold work_within. simpl. lia.
  - apply rounds_refilled; done.
Qed.

Lemma len_buffered rp : 0 ≤ rp_filled rp ≤ len (rp_buffer rp) → len (buffered rp) = rp_filled rp.
Proof. intros []. unfold buffered. by apply len_take. Qed.

(** A reader that ends before the buffer is full. *)
Lemma resume_short rp :
  cursor_inv rp → delivered (rp_reader rp) = [] → rp_filled rp < len (rp_buffer rp) →
  (rp_phase rp = PLength → rp_filled rp = 0 → stop ≠ None) →
  answer = Err (short stop).
Proof.
  intros [Hwf _ Hm Hs Hf Hp <- _ _ _ _ _ _] Hd Hlt Hno. unfold resume.
  pose proof (len_buffered rp Hf) as Hbl. rewrite Hd, app_nil_r, Hs. unfold phase_inv in Hp.
  destruct (rp_phase rp) as [| |n enc] eqn:Hph.
  - unfold replay_stream. by rewrite (proj2 (Z.ltb_lt _ _)) by lia.
  - destruct (decide (rp_filled rp = 0)) as [H0|H0].
    + specialize (Hno eq_refl H0). assert (buffered rp = []) as ->.
      { apply length_zero_iff_nil. unfold len in Hbl. lia. }
      unfold replay_tail. rewrite replay_bytes_S. simpl. by destruct stop.
    + apply replay_tail_short; [done| |left; lia]. intros E. rewrite E in Hbl. unfold len in Hbl. simpl in Hbl. lia.
  - destruct Hp as (Hlen & Hl4 & Hv & Hfit & _).
    assert (length (rp_length rp) = 4%nat) as Hl4' by (unfold len in Hl4; lia).
    apply replay_tail_short; [done| |right].
    + intros E. apply (f_equal length) in E. rewrite length_app, Hl4' in E. done.
    + destruct (take_drop_app 4 (rp_length rp) (buffered rp) Hl4') as [-> _].
      rewrite Hv, len_app, Hl4, Hbl. split; [done|lia].
Qed.

(** A written stream is no longer than the journal may be. *)
Lemma answer_length j : answer = Ok j → len stream ≤ l_max_total_bytes (jn_limits j0).
Proof.
  intros Ha. apply replay_stream_iff in Ha as (_ & log1 & log2 & jm & H1 & H2 & _ & Hd); [|done..].
  pose proof (appends_sound _ _ _ Hj0 (appends_app _ _ _ _ _ H1 H2)) as Hs.
  pose proof (jwf_len j (aps_wf _ _ _ Hs)) as Hle. rewrite (aps_limits _ _ _ Hs) in Hle.
  rewrite (aps_encoded _ _ _ Hs), Henc0 in Hle. rewrite Hd, len_app. lia.
Qed.

Lemma conforms_agree a consumed rest :
  conforms → exact = Some a → stream = consumed ++ rest → agree (ha_bytes a) consumed.
Proof.
  intros Hc He Hs. apply (agree_prefix _ _ rest). left. rewrite <-Hs. by apply Hc.
Qed.

Lemma advance_bytes_ok budget rp spent w reader calls calls' :
  budget_typed budget → cursor_inv rp → work_within budget (rp_total rp) spent →
  rp_filled rp + len w ≤ len (rp_buffer rp) → w ≠ [] →
  rw_read_bytes spent + len w ≤ rb_read_bytes budget →
  delivered (rp_reader rp) = w ++ delivered reader → fault_of reader = fault_of (rp_reader rp) →
  (length w + reader_size reader ≤ reader_size (rp_reader rp))%nat →
  calls = rw_read_calls (rp_total rp) + 1 →
  0 ≤ calls' ≤ rb_read_calls budget → calls' ≤ rw_read_calls (rp_total rp) + 1 →
  round_ok budget (rp, spent) (advance_bytes w
    (with_reader reader (with_total (mkReplayWork calls (rw_read_bytes (rp_total rp))
       (rw_checked_records (rp_total rp))) rp),
     mkReplayWork calls' (rw_read_bytes spent) (rw_checked_records spent))).
Proof.
  intros (_ & [_ Hb] & _) [Hwf Hl Hm Hs Hf Hp Hres Hex Hcap Hcalls Hbytes Hch (consumed & Hst & Hlc & Hh & Ha)]
    (Hw1 & Hw2 & Hw3) Hfit Hne Hspent Hd Hfault Hsize -> Hcalls' Hcalls''.
  assert (1 ≤ len w) as Hw1'.
  { destruct w; [done|]. rewrite len_cons. pose proof (len_nonneg w). lia. }
  assert (stream = (consumed ++ w) ++ delivered reader) as Hst' by (by rewrite Hst, Hd, <-app_assoc).
  pose proof (len_nonneg consumed).
  assert (Hfilled : Z.to_nat (rp_filled rp) = length (buffered rp)).
  { pose proof (len_buffered rp Hf). unfold len in *. lia. }
  set (buffer' := take (Z.to_nat (rp_filled rp)) (rp_buffer rp) ++ w ++
    drop (Z.to_nat (rp_filled rp) + length w) (rp_buffer rp)).
  assert (len buffer' = len (rp_buffer rp)) as Hlb.
  { unfold buffer', len in *. rewrite !length_app, length_take, length_drop. lia. }
  assert (∀ history,
    (∀ h, history = Some h → h = consumed ++ w) → (is_Some history ↔ capturing = true) →
    (∀ a, exact = Some a → agree (ha_bytes a) (consumed ++ w)) →
    cursor_inv (mkReplay reader (rp_journal rp) (rp_minimum rp) (rp_anchor_seen rp) exact history
      (rp_phase rp) buffer' (rp_filled rp + len w) (rp_length rp) (rp_status rp)
      (mkReplayWork (rw_read_calls (rp_total rp) + 1) (rw_read_bytes (rp_total rp) + len w)
         (rw_checked_records (rp_total rp))))) as Hnew.
  { intros history Hh' Hcap' Ha'. split; cursor_simpl; try done; try (unfold len in *; lia).
    - congruence.
    - unfold phase_inv in *. cursor_simpl. by rewrite Hlb.
    - rewrite <-Hres. unfold resume, buffered. cursor_simpl. rewrite Hd, Hfault.
      assert (take (Z.to_nat (rp_filled rp + len w)) buffer' =
        take (Z.to_nat (rp_filled rp)) (rp_buffer rp) ++ w) as ->.
      { unfold buffer'. rewrite app_assoc. apply take_app_length'.
        unfold buffered in Hfilled. rewrite length_app, <-Hfilled. unfold len. lia. }
      by rewrite <-app_assoc.
    - exists (consumed ++ w). rewrite len_app. split_and!; try done. lia. }
  assert (∀ rp', cursor_inv rp' → rp_reader rp' = reader →
    rp_total rp' = mkReplayWork (rw_read_calls (rp_total rp) + 1) (rw_read_bytes (rp_total rp) + len w)
         (rw_checked_records (rp_total rp)) →
    round_ok budget (rp, spent) (Ok None, (rp',
      mkReplayWork calls' (rw_read_bytes spent + len w) (rw_checked_records spent)))) as Hround.
  { intros rp' Hinv' Hr' Ht'. split; [done|]. unfold work_within, rounds. rewrite Ht', Hr'. cursor_simpl.
    split; [lia|]. destruct (_ =? _), (_ =? _); unfold len in *; lia. }
  unfold advance_bytes. munfold_goal. cursor_simpl.
  rewrite u64_checked_add_fits by (unfold len in *; lia). cursor_simpl.
  rewrite u64_add_ok by lia. cursor_simpl. rewrite Hex.
  assert (∀ a, exact = Some a →
    match anchor_check_read a (rw_read_bytes (rp_total rp)) w with
    | Ok _ => agree (ha_bytes a) (consumed ++ w)
    | Err e => ¬ agree (ha_bytes a) (consumed ++ w)
    | Panic => False
    end) as Hcheck.
  { intros a He. rewrite <-Hlc. apply anchor_check_read_spec. by apply Ha. }
  assert (match match exact with
      | Some anchor => anchor_check_read anchor (rw_read_bytes (rp_total rp)) w
      | None => Ok tt
      end with
    | Ok _ => ∀ a, exact = Some a → agree (ha_bytes a) (consumed ++ w)
    | Err e => ¬ conforms
    | Panic => False
    end) as Hanchor.
  { destruct exact as [a|] eqn:He; [|done]. specialize (Hcheck a eq_refl).
    destruct (anchor_check_read _ _ _); [by intros ? [= <-]| |done].
    intros Hc. by apply Hcheck, (conforms_agree a _ (delivered reader)). }
  destruct (match exact with Some _ => _ | None => _ end) as [u|e|]; [|by right; left|done].
  destruct (rp_captured_history rp) as [history|] eqn:Hhist; cursor_simpl.
  - assert (history = consumed) as -> by (by apply Hh).
    rewrite u64_checked_add_fits by (unfold len in *; lia). rewrite Hl.
    destruct (Z.ltb_spec (l_max_total_bytes (jn_limits j0)) (len consumed + len w)); cursor_simpl.
    + right. right. split; [by apply Hcap|]. intros j Hj%answer_length.
      rewrite Hst', !len_app in Hj. pose proof (len_nonneg (delivered reader)). lia.
    + apply Hround; [|done..]. apply Hnew; [by intros ? [= <-]|by rewrite <-Hcap|done].
  - apply Hround; [|done..]. apply Hnew; done.
Qed.


(** A read that ends the stream. *)
Lemma advance_eof_ok rp :
  cursor_inv rp → delivered (rp_reader rp) = [] → fault_of (rp_reader rp) = None →
  rp_phase rp = PLength → rp_filled rp = 0 →
  (rp_anchor_seen rp = false → answer = Err JBehindAnchor) ∧
  (rp_anchor_seen rp = true → answer = Ok (rp_journal rp)) ∧
  len stream = rw_read_bytes (rp_total rp) ∧
  (conforms ↔ ∀ a, exact = Some a → anchor_encoded_len a ≤ rw_read_bytes (rp_total rp)).
Proof.
  intros [Hwf Hl Hm Hs Hf Hp Hres Hex Hcap Hcalls Hbytes Hch (consumed & Hst & Hlc & Hh & Ha)] Hd Hn Hph H0.
  rewrite Hd, app_nil_r in Hst.
  assert (answer = if rp_anchor_seen rp then Ok (rp_journal rp) else Err JBehindAnchor) as Hans.
  { rewrite <-Hres. unfold resume. rewrite Hph, Hd, Hn, app_nil_r.
    assert (buffered rp = []) as ->.
    { pose proof (len_buffered rp Hf) as Hb. apply length_zero_iff_nil. unfold len in Hb. lia. }
    unfold replay_tail. rewrite replay_bytes_S. simpl. by destruct (rp_anchor_seen rp). }
  split_and!; [by intros E; rewrite Hans, E|by intros E; rewrite Hans, E|congruence|].
  rewrite <-Hlc, <-Hst. unfold conforms, anchor_encoded_len. split; intros Hc a He; specialize (Hc a He).
  - apply prefix_length in Hc. unfold len. lia.
  - destruct (Ha a He) as [|Hp']; [by rewrite Hst|]. rewrite <-Hst in Hp'.
    apply prefix_length_eq in Hp'; [by rewrite Hp'|]. unfold len in Hc. lia.
Qed.

Lemma advance_read_ok budget rp spent :
  budget_typed budget → cursor_inv rp → work_within budget (rp_total rp) spent → rp_filled rp ≠ len (rp_buffer rp) →
  round_ok budget (rp, spent) (advance_read budget (rp, spent)).
Proof.
  intros Hb Hinv Hw Hf. pose proof Hinv as [Hwf _ _ Hstop Hfl _ _ Hex Hcap Hcalls _ _ _].
  pose proof Hb as (Hb1 & Hb2 & _). pose proof Hw as (Hw1 & Hw2 & Hw3). unfold is_u64 in *.
  unfold advance_read. munfold_goal. cursor_simpl.
  destruct (_ || _) eqn:E.
  { split; [done|]. split; [done|]. unfold exhausted. rewrite orb_true_iff in E. lia. }
  rewrite orb_false_iff in E. rewrite !u64_sub_ok by lia. cursor_simpl.
  rewrite u64_checked_add_fits by lia. cursor_simpl. rewrite u64_add_ok by lia. cursor_simpl.
  set (amount := Z.min _ _). assert (1 ≤ amount) as Ham by lia.
  pose proof (reader_read_spec amount (rp_reader rp) Ham) as Hr.
  destruct (reader_read amount (rp_reader rp)) as [out rd].
  inversion Hr as [rd' Hd Hn|rd' Hd Hn Hsz|kind rd' Hk Hd Hn|w rd' Hne Hlw Hd Hn Hsz]; subst; cursor_simpl.
  - destruct (Z.ltb_spec amount (len ([] : bytes))) as [Hlt|_]; [unfold len in Hlt; simpl in Hlt; lia|].
    cursor_simpl. destruct (match rp_phase rp with PLength => rp_filled rp =? 0 | _ => false end) eqn:Ehere.
    + destruct (rp_phase rp) eqn:Hph; [done| |done]. apply Z.eqb_eq in Ehere.
      destruct (advance_eof_ok rp Hinv Hd Hn Hph Ehere) as (Hu & Hseen & Hlen & Hconf).
      destruct (rp_anchor_seen rp); cursor_simpl; [|left; by apply Hu].
      rewrite Hex. destruct (match exact with Some _ => _ | None => _ end) eqn:Ea; cursor_simpl.
      * split; [|unfold work_within; cursor_simpl; lia]. pose proof Hinv as [_ Hl _ _ _ _ _ _ _ _ _ _ (consumed & Hst & Hlc & Hh & _)].
        rewrite Hd, app_nil_r in Hst. split; cursor_simpl; try done.
        -- by apply Hseen.
        -- apply Hconf. intros a ->. by apply Z.leb_le.
        -- by rewrite Hst.
      * right. left. intros Hc. rewrite Hconf in Hc. destruct exact as [a|]; [|done].
        specialize (Hc a eq_refl). apply Z.leb_gt in Ea. lia.
    + left. rewrite (resume_short rp) by (done || lia || (intros Hph H0; by rewrite Hph, H0 in Ehere)).
      unfold short. by rewrite <-(ci_stop rp Hinv), Hn.
  - destruct Hinv as [? ? ? ? ? ? Hres ? ? ? ? ? (consumed & Hst & ? & ? & ?)].
    split; [|split; [unfold work_within; cursor_simpl; lia|unfold rounds; cursor_simpl; repeat case_match; lia]].
    split; cursor_simpl; try done; try lia.
    + by rewrite Hn.
    + rewrite <-Hres. unfold resume, buffered. cursor_simpl. by rewrite Hd, Hn.
    + exists consumed. by rewrite Hd.
  - assert (answer = Err (JIo kind)) as Hans.
    { rewrite (resume_short rp) by (done || lia || (intros; by rewrite <-(ci_stop rp Hinv), Hn)).
      unfold short. by rewrite <-(ci_stop rp Hinv), Hn. }
    destruct kind; [by left|done|by left].
  - destruct (Z.ltb_spec amount (len w)); [lia|]. cursor_simpl.
    destruct (Z.eqb_spec (len w) 0) as [H0|_].
    { destruct w; [done|]. rewrite len_cons in H0. pose proof (len_nonneg w). lia. }
    apply (advance_bytes_ok budget rp spent w rd); try done; lia.
Qed.

Lemma advance_round_ok budget p :
  budget_typed budget → cursor_inv p.1 → work_within budget (rp_total p.1) p.2 →
  round_ok budget p (advance_round budget p).
Proof.
  destruct p as [rp spent]. intros Hb Hinv Hw. unfold advance_round. munfold_goal. simpl.
  destruct (Z.eqb_spec (rp_filled rp) (len (rp_buffer rp))) as [Hf|Hf].
  - destruct (rp_phase rp) eqn:Hph; [by apply advance_header_ok|by apply advance_length_ok|
      by eapply advance_record_ok].
  - by apply advance_read_ok.
Qed.

(** The whole call: its fuel is enough. *)
Lemma advance_inner_total fuel budget p :
  budget_typed budget → cursor_inv p.1 → work_within budget (rp_total p.1) p.2 → (rounds p.1 < fuel)%nat →
  match advance_inner fuel budget p with
  | (Ok Reading, (rp', spent')) =>
      cursor_inv rp' ∧ work_within budget (rp_total rp') spent' ∧ exhausted budget spent'
  | (Ok Ready, (rp', spent')) => ready_ok rp' ∧ work_within budget (rp_total rp') spent'
  | (Ok Failed, _) | (Panic, _) => False
  | (Err e, _) => error_ok e
  end.
Proof.
  intros Hb. revert p. induction fuel as [|fuel IH]; intros p Hinv Hw Hfuel; [lia|]. simpl. munfold_goal.
  pose proof (advance_round_ok budget p Hb Hinv Hw) as Hr.
  destruct (advance_round budget p) as [[[status|]|e|] [rp' spent']]; simpl in Hr; [|..|done|done].
  - by destruct status.
  - destruct Hr as (Hinv' & Hw' & Hlt). apply (IH (rp', spent')); simpl; [done|done|lia].
Qed.
End simulation.

(** A call never changes the status it runs under. *)
Lemma advance_round_status budget : preserves (λ p : Polling, rp_status p.1) (advance_round budget).
Proof.
  unfold advance_round, advance_phase, advance_read, advance_bytes. preserves_steps.
Qed.

Lemma advance_inner_status fuel budget p :
  rp_status (advance_inner fuel budget p).2.1 = rp_status p.1.
Proof.
  revert p. induction fuel as [|fuel IH]; intros p; [done|]. simpl. munfold_goal.
  pose proof (advance_round_status budget p) as Hs.
  destruct (advance_round budget p) as [[[status|]|e|] p']; simpl in *; try done. by rewrite IH.
Qed.

(** A round that stops a poll early does nothing and is out of budget. *)
Definition goes_on (m : st Polling JournalError (option ReplayStatus)) : Prop :=
  ∀ p p', m p ≠ (Ok (Some Reading), p').

Lemma goes_on_bind {A} (m : st Polling JournalError A) f : (∀ x, goes_on (f x)) → goes_on (m ≫= f).
Proof. intros Hf p p'. munfold_goal. destruct (m p) as [[x|e|] p1]; [apply Hf|done..]. Qed.
Lemma goes_on_ret o : o ≠ Some Reading → goes_on (mret o).
Proof. intros Ho p p' [=]. congruence. Qed.
Lemma goes_on_throw (e : JournalError) : goes_on (mthrow e).
Proof. done. Qed.
Lemma goes_on_panic : goes_on (lift Panic).
Proof. done. Qed.

Ltac goes_on_steps :=
  repeat first
    [ apply goes_on_throw | apply goes_on_panic | apply goes_on_ret; discriminate
    | apply goes_on_bind; intros | progress case_match ].

Lemma goes_on_absurd m p p' P : goes_on m → m p = (Ok (Some Reading), p') → P.
Proof. by intros Hm []%Hm. Qed.
Lemma get_bind {A} (f : Polling → st Polling JournalError A) p : (get ≫= f) p = f p p.
Proof. done. Qed.

Lemma advance_round_reading budget p p' :
  advance_round budget p = (Ok (Some Reading), p') → p' = p ∧ exhausted budget p.2.
Proof.
  destruct p as [rp spent]. unfold advance_round, exhausted. rewrite get_bind.
  destruct (rp_filled rp =? len (rp_buffer rp)).
  - unfold advance_phase. rewrite get_bind. destruct (rp_phase rp) as [| |n encoded_len].
    + apply goes_on_absurd. goes_on_steps.
    + apply goes_on_absurd. goes_on_steps.
    + destruct (Z.eqb_spec (rw_checked_records spent) (rb_checked_records budget)); [intros [= <-]; auto|].
      apply goes_on_absurd. goes_on_steps.
  - unfold advance_read. rewrite get_bind. destruct (_ || _) eqn:E.
    + intros [= <-]. split; [done|]. rewrite orb_true_iff, !Z.eqb_eq in E. simpl. tauto.
    + apply goes_on_absurd. goes_on_steps.
Qed.

(** A call that was not out of budget from the start leaves fewer rounds. *)
Section progress.
Context (j0 : Journal) (minimum : Head) (stream : bytes) (stop : option IoKind).
Context (exact : option HistoryAnchor) (capturing : bool).
Context (Hj0 : journal_wf j0) (Hseq0 : h_sequence (jn_head j0) = 0)
  (Henc0 : jn_encoded_len j0 = len (journal_header j0)).

Lemma advance_inner_progress fuel budget p p' :
  budget_typed budget → cursor_inv j0 minimum stream stop exact capturing p.1 →
  work_within budget (rp_total p.1) p.2 →
  advance_inner fuel budget p = (Ok Reading, p') →
  (rounds p'.1 ≤ rounds p.1)%nat ∧ (exhausted budget p.2 ∨ (rounds p'.1 < rounds p.1)%nat).
Proof.
  intros Hb. revert p. induction fuel as [|fuel IH]; intros p Hinv Hw; [done|]. simpl. munfold_goal.
  pose proof (advance_round_ok j0 minimum stream stop exact capturing Hj0 Hseq0 Henc0 budget p Hb Hinv Hw) as Hr.
  destruct (advance_round budget p) as [[[status|]|e|] p1] eqn:E; [|..|done|done].
  - intros [= -> ->]. apply advance_round_reading in E as [-> Hex]. auto.
  - destruct p1 as [rp1 spent1]. destruct Hr as (Hinv1 & Hw1 & Hlt). intros Hin.
    destruct (IH (rp1, spent1) Hinv1 Hw1 Hin) as [Hle _]. simpl in *. lia.
Qed.
End progress.

(** ** Schedules of polls *)

(** A host that advances the replay with a series of budgets. *)
Definition replay_run (budgets : list ReplayBudget) (rp : Replay) : Replay :=
  foldl (λ rp b, (replay_advance b rp).2) rp budgets.

(** A reader that a replay can be begun on, and its journal. *)
Record replayable (identity : Identity) (limits : Limits) (reserve : option RecoveryReserve)
    (j0 : Journal) (reader : Reader) : Prop := {
  rpl_typed : config_typed identity limits reserve;
  rpl_new : journal_configured identity limits reserve = Ok j0;
  rpl_size : Z.of_nat (reader_size reader) < U64_MAX;
}.

Section schedules.
Context {identity : Identity} {limits : Limits} {reserve : option RecoveryReserve}.
Context {j0 : Journal} {reader : Reader} (Hrp : replayable identity limits reserve j0 reader).
Context (minimum : Head).

Let stream := delivered reader.
Let stop := fault_of reader.
Let answer := (replay_any identity minimum limits reserve reader).1.

Lemma replayable_facts :
  journal_wf j0 ∧ h_sequence (jn_head j0) = 0 ∧ jn_encoded_len j0 = len (journal_header j0) ∧
  0 < len (journal_header j0) ∧ answer = replay_stream j0 minimum stop stream.
Proof.
  destruct Hrp as [Ht Hn _].
  pose proof (journal_configured_wf _ _ _ _ Ht Hn) as (Hwf & Hs & He & _ & Hr & Hl & Hi).
  split_and!; try done.
  - unfold journal_header. rewrite Hi, Hl, Hr, len_encode_header by done. by destruct reserve.
  - unfold answer. rewrite (replay_any_eq _ _ _ _ j0) by done. apply replay_from_eq.
Qed.

Definition run_inv (exact : option HistoryAnchor) (capturing : bool) (rp : Replay) : Prop :=
  match rp_status rp with
  | Reading => cursor_inv j0 minimum stream stop exact capturing rp
  | Ready => ready_ok j0 minimum stream stop exact capturing rp
  | Failed => ∃ e, error_ok j0 minimum stream stop exact capturing e
  end.

Lemma replay_advance_sound exact capturing budget rp :
  budget_typed budget → run_inv exact capturing rp →
  let '(out, rp') := replay_advance budget rp in
  run_inv exact capturing rp' ∧ out ≠ Panic ∧
  (∀ e, out = Err (RJournal e) →
     error_ok j0 minimum stream stop exact capturing e ∧ rp_status rp' = Failed) ∧
  (∀ report, out = Ok report → rr_status report = rp_status rp' ∧
     (rp_status rp = Reading → work_within budget (rp_total rp') (rr_spent report))) ∧
  (budget = UNLIMITED → rp_status rp' ≠ Reading).
Proof.
  intros Hb Hinv. destruct replayable_facts as (Hwf & Hs & He & _ & _). unfold replay_advance.
  unfold run_inv in Hinv |- *. destruct (rp_status rp) eqn:Hst.
  - assert (cursor_inv j0 minimum stream stop exact capturing (with_status Failed rp)) as Hc.
    { destruct Hinv. split; done. }
    assert (work_within budget (rp_total (with_status Failed rp)) no_work) as Hw.
    { destruct Hb as (? & ? & ?). pose proof (ci_calls _ _ _ _ _ _ _ Hinv).
      pose proof (ci_checked _ _ _ _ _ _ _ Hinv) as Hck.
      pose proof (jwf_sequence _ (ci_wf _ _ _ _ _ _ _ Hinv)).
      destruct (ci_consumed _ _ _ _ _ _ _ Hinv) as (consumed & _ & Hlc & _).
      pose proof (len_nonneg consumed).
      unfold work_within, is_u64 in *. simpl. lia. }
    pose proof (advance_inner_total j0 minimum stream stop exact capturing Hwf Hs He
      (advance_fuel rp) budget (with_status Failed rp, no_work) Hb Hc Hw) as Hout.
    assert (rounds (with_status Failed rp) < advance_fuel rp)%nat as Hfuel.
    { unfold rounds, advance_fuel. simpl. destruct (_ =? _); lia. }
    specialize (Hout Hfuel).
    pose proof (advance_inner_status (advance_fuel rp) budget (with_status Failed rp, no_work)) as Hkeep.
    destruct (advance_inner _ _ _) as [[status|e|] [rp' spent]]; [|simpl in *|done].
    + destruct status; simpl; [| |done].
      * destruct Hout as (Hc' & Hw' & Hex). split; [destruct Hc'; by split|]. split_and!; try done.
        -- by intros report [= <-].
        -- intros -> _. unfold exhausted in Hex. simpl in Hex.
           destruct Hw' as ((_ & ?) & (_ & ?) & (_ & ?)).
           pose proof (ci_calls _ _ _ _ _ _ _ Hc'). pose proof (ci_bytes _ _ _ _ _ _ _ Hc').
           pose proof (ci_checked _ _ _ _ _ _ _ Hc').
           pose proof (jwf_sequence _ (ci_wf _ _ _ _ _ _ _ Hc')).
           pose proof (lwf_records _ (jwf_limits _ (ci_wf _ _ _ _ _ _ _ Hc'))). lia.
      * destruct Hout as (Hr & Hw'). split; [destruct Hr; by split|]. split_and!; try done.
        by intros report [= <-].
    + rewrite Hkeep. split_and!; try done; [by exists e|by intros e' [= <-]].
  - rewrite Hst. split_and!; try done. by intros report [= <-].
  - rewrite Hst. split_and!; try done.
Qed.

Lemma replay_run_sound exact capturing budgets rp :
  Forall budget_typed budgets → run_inv exact capturing rp →
  run_inv exact capturing (replay_run budgets rp).
Proof.
  intros Hb. revert rp. induction Hb as [|b budgets Hb _ IH]; intros rp Hinv; simpl; [done|].
  apply IH. pose proof (replay_advance_sound exact capturing b rp Hb Hinv) as Hs.
  destruct (replay_advance b rp). apply Hs.
Qed.

Lemma replay_cursor_inv exact capturing rp :
  rp = with_exact_anchor exact (with_history (if (capturing : bool) then Some [] else None)
    (replay_cursor j0 reader minimum)) →
  run_inv exact capturing rp.
Proof.
  intros ->. destruct replayable_facts as (Hwf & Hs & He & Hpos & Hans). destruct Hrp as [_ _ Hsize].
  assert (len (replicate (length (journal_header j0)) x00) = len (journal_header j0)) as Hlen.
  { unfold len. by rewrite length_replicate. }
  unfold run_inv. simpl. split; cursor_simpl; try done; unfold replay_cursor, with_exact_anchor; cursor_simpl.
  - rewrite Hlen. lia.
  - unfold phase_inv. cursor_simpl. rewrite Hlen. split_and!; done || lia.
  - destruct capturing; simpl; [by split; eauto|]. split; [by intros []|done].
  - exists []. simpl. split_and!; try done.
    + by destruct capturing; intros h [= <-].
    + intros a _. right. apply prefix_nil.
Qed.

Lemma run_inv_finish exact capturing rp j :
  run_inv exact capturing rp → replay_finish rp = Ok j →
  answer = Ok j ∧ conforms stream exact ∧ (∀ h, rp_captured_history rp = Some h → h = stream).
Proof.
  destruct replayable_facts as (_ & _ & _ & _ & Hans). unfold run_inv, replay_finish, replay_into_parts.
  destruct (rp_status rp); [done| |done]. munfold_goal. intros [Ha Hc Hh _ _] [= <-].
  split_and!; [by rewrite Hans|done..].
Qed.

(** With an unlimited last budget a replay that can succeed has succeeded. *)
Lemma run_inv_complete exact capturing budgets rp j :
  Forall budget_typed budgets → run_inv exact capturing rp →
  answer = Ok j → conforms stream exact →
  replay_finish (replay_run (budgets ++ [UNLIMITED]) rp) = Ok j.
Proof.
  destruct replayable_facts as (_ & _ & _ & _ & Hans).
  intros Hb Hinv Ha Hc. unfold replay_run. rewrite foldl_app. fold (replay_run budgets rp). simpl.
  pose proof (replay_run_sound exact capturing budgets rp Hb Hinv) as Hinv1.
  assert (budget_typed UNLIMITED) as Hu by (repeat split; vm_compute; discriminate).
  pose proof (replay_advance_sound exact capturing UNLIMITED _ Hu Hinv1) as Hs.
  destruct (replay_advance UNLIMITED _) as [out rp']. destruct Hs as (Hinv2 & _ & _ & _ & Hdone).
  specialize (Hdone eq_refl). simpl. unfold run_inv in Hinv2.
  unfold replay_finish, replay_into_parts. destruct (rp_status rp'); [done| |].
  - destruct Hinv2 as [Hj _ _ _ _]. rewrite Hans, Hj in Ha. by injection Ha as ->.
  - exfalso. rewrite Hans in Ha. destruct Hinv2 as (e & [Hj|[Hn|[_ Hn]]]);
      [by rewrite Hj in Ha|done|by eapply Hn].
Qed.

(** A budget that allows at least one step of each kind. *)
Definition budget_positive (budget : ReplayBudget) : Prop :=
  budget_typed budget ∧ 0 < rb_read_calls budget ∧ 0 < rb_read_bytes budget ∧ 0 < rb_checked_records budget.

Lemma replay_advance_progress exact capturing budget rp :
  budget_positive budget → run_inv exact capturing rp →
  rp_status (replay_advance budget rp).2 = Reading →
  rp_status rp = Reading ∧ (rounds (replay_advance budget rp).2 < rounds rp)%nat.
Proof.
  intros (Hb & Hc & Hy & Hk) Hinv. destruct replayable_facts as (Hwf & Hs & He & _ & _).
  unfold replay_advance, run_inv in *. destruct (rp_status rp) eqn:Hst; [|simpl; congruence..].
  set (p := (with_status Failed rp, no_work)).
  assert (cursor_inv j0 minimum stream stop exact capturing p.1) as Hinv' by (destruct Hinv; split; done).
  assert (work_within budget (rp_total p.1) p.2) as Hw.
  { pose proof (ci_calls _ _ _ _ _ _ _ Hinv). pose proof (ci_checked _ _ _ _ _ _ _ Hinv).
    pose proof (jwf_sequence _ (ci_wf _ _ _ _ _ _ _ Hinv)).
    destruct (ci_consumed _ _ _ _ _ _ _ Hinv) as (consumed & _ & Hlc & _). pose proof (len_nonneg consumed).
    unfold work_within. simpl. lia. }
  pose proof (advance_inner_progress j0 minimum stream stop exact capturing Hwf Hs He (advance_fuel rp) budget p) as Hp.
  pose proof (advance_inner_status (advance_fuel rp) budget p) as Hkeep.
  destruct (advance_inner _ _ _) as [[status|e|] [rp' spent]]; simpl in *; [|congruence..].
  intros ->. destruct (Hp _ Hb Hinv' Hw eq_refl) as [_ [Hex|Hlt]]; [|done].
  unfold exhausted in Hex. simpl in Hex. lia.
Qed.

Lemma replay_run_done budgets rp : rp_status rp ≠ Reading → replay_run budgets rp = rp.
Proof.
  intros Hst. induction budgets as [|b budgets IH]; [done|]. simpl. unfold replay_advance.
  by destruct (rp_status rp).
Qed.

Lemma replay_run_progress exact capturing budgets rp :
  Forall budget_positive budgets → run_inv exact capturing rp →
  rp_status (replay_run budgets rp) = Reading → (length budgets ≤ rounds rp)%nat.
Proof.
  intros Hbs. revert rp. induction Hbs as [|b budgets Hb _ IH]; intros rp Hinv Hst; simpl in *; [lia|].
  pose proof (replay_advance_sound exact capturing b rp (proj1 Hb) Hinv) as Hadv.
  pose proof (replay_advance_progress exact capturing b rp Hb Hinv) as Hp.
  assert (run_inv exact capturing (replay_advance b rp).2) as Hinv' by (destruct (replay_advance b rp); apply Hadv).
  specialize (IH _ Hinv' Hst). assert (rp_status (replay_advance b rp).2 = Reading) as Hst'.
  { destruct (decide (rp_status (replay_advance b rp).2 = Reading)) as [|Hne]; [done|].
    fold (replay_run budgets (replay_advance b rp).2) in Hst. by rewrite replay_run_done in Hst. }
  destruct (Hp Hst') as [_ Hlt]. lia.
Qed.
End schedules.

(** ** Archives *)

(** Import under either profile. *)
Definition history_anchor_import (bs : bytes) (identity : Identity) (limits : Limits)
    (reserve : option RecoveryReserve) : res JournalError HistoryAnchor :=
  match reserve with
  | None => history_anchor_from_bytes bs identity limits
  | Some reserve => history_anchor_from_bytes_with_recovery_reserve bs identity limits reserve
  end.

Lemma delivered_slice bs : delivered [Data bs] = bs ∧ fault_of [Data bs] = None.
Proof. destruct bs as [|b bs]; simpl; [done|]. by rewrite app_nil_r. Qed.

Lemma appends_encoded j0 log j :
  journal_wf j0 → jn_encoded_len j0 = len (journal_header j0) → appends j0 log j →
  jn_encoded_len j = len (journal_header j0 ++ frames log) ∧
  jn_encoded_len j ≤ l_max_total_bytes (jn_limits j0) ∧ jn_limits j = jn_limits j0.
Proof.
  intros Hwf He Ha. pose proof (appends_sound _ _ _ Hwf Ha) as [Hwf' _ Hl _ _ Hen _ _].
  pose proof (jwf_len j Hwf') as Hlen. rewrite Hl in Hlen. rewrite len_app. split_and!; [lia|lia|done].
Qed.

Lemma history_anchor_import_iff identity limits reserve j0 bs a :
  config_typed identity limits reserve → journal_configured identity limits reserve = Ok j0 →
  history_anchor_import bs identity limits reserve = Ok a ↔
  ∃ log j, appends j0 log j ∧ bs = journal_header j0 ++ frames log ∧
    a = mkHistoryAnchor bs (jn_head j) limits.
Proof.
  intros Ht Hn. pose proof (journal_configured_wf _ _ _ _ Ht Hn) as (Hwf & Hs & He & _ & _ & Hl & _).
  assert (history_anchor_import bs identity limits reserve = history_anchor_checked bs j0 None) as ->.
  { destruct reserve; simpl; unfold history_anchor_from_bytes, history_anchor_from_bytes_with_recovery_reserve,
      journal_new, journal_new_with_recovery_reserve; by rewrite Hn. }
  destruct (delivered_slice bs) as [Hd Hf].
  unfold history_anchor_checked. rewrite replay_from_eq, Hd, Hf. munfold_goal.
  split.
  - destruct (_ <? _); [done|].
    destruct (replay_stream j0 (jn_head j0) None bs) as [j| |] eqn:E; [|done..]. intros [= <-].
    apply replay_stream_iff in E as (_ & log1 & log2 & jm & H1 & H2 & _ & Hb); [|done..].
    pose proof (appends_app _ _ _ _ _ H1 H2) as Ha.
    destruct (appends_encoded j0 _ j Hwf He Ha) as (_ & _ & Hlj).
    exists (log1 ++ log2), j. by rewrite Hlj, Hl.
  - intros (log & j & Ha & -> & ->). destruct (appends_encoded j0 _ j Hwf He Ha) as (Hen & Hle & Hlj).
    rewrite (proj2 (Z.ltb_ge _ _)) by lia.
    assert (replay_stream j0 (jn_head j0) None (journal_header j0 ++ frames log) = Ok j) as ->.
    { apply replay_stream_iff; [done..|]. split; [done|]. exists [], log, j0.
      split_and!; try done. constructor. }
    by rewrite Hlj, Hl.
Qed.

(** ** Properties *)

(** C25: cooperative replay is the synchronous replay.  On any reader,
    whatever budgets the host polls with: a journal that can be finished is the
    one the synchronous replay returns; a poll never panics and the error it
    reports is the synchronous one, after which nothing can be finished; and
    an unlimited poll finishes exactly when the synchronous replay succeeds. *)
Theorem cooperative_replay_is_replay (identity : Identity) (limits : Limits)
    (reserve : option RecoveryReserve) (j0 : Journal) (reader : Reader) (minimum : Head)
    (budgets : list ReplayBudget) (budget : ReplayBudget) :
  replayable identity limits reserve j0 reader → Forall budget_typed budgets → budget_typed budget →
  let sync := (replay_any identity minimum limits reserve reader).1 in
  ∃ rp0, journal_begin_replay identity limits reserve reader minimum = Ok rp0 ∧
  let rp := replay_run budgets rp0 in
  (∀ j, replay_finish rp = Ok j → sync = Ok j) ∧
  (replay_advance budget rp).1 ≠ Panic ∧
  (∀ e, (replay_advance budget rp).1 = Err (RJournal e) →
     sync = Err e ∧ replay_finish (replay_advance budget rp).2 = Err RFailed) ∧
  (∀ j, replay_finish (replay_run (budgets ++ [UNLIMITED]) rp0) = Ok j ↔ sync = Ok j).
Proof.
  intros Hrp Hbs Hb sync. exists (replay_cursor j0 reader minimum).
  split; [unfold journal_begin_replay; by rewrite (rpl_new _ _ _ _ _ Hrp)|]. intros rp.
  assert (run_inv minimum (j0 := j0) (reader := reader) None false (replay_cursor j0 reader minimum)) as Hinv0
    by (by eapply replay_cursor_inv).
  pose proof (replay_run_sound Hrp minimum _ _ _ _ Hbs Hinv0) as Hinv. fold rp in Hinv.
  pose proof (replay_advance_sound Hrp minimum _ _ budget rp Hb Hinv) as Hadv.
  destruct (replay_advance budget rp) as [out rp']. destruct Hadv as (_ & Hnp & Herr & _ & _).
  split_and!.
  - intros j Hj. by apply (run_inv_finish Hrp minimum None false rp j).
  - done.
  - intros e He. destruct (Herr e He) as [Hok Hst]. split.
    + destruct Hok as [Hok|[Hok|[? _]]]; [|exfalso; by apply Hok|done].
      destruct (replayable_facts Hrp minimum) as (_ & _ & _ & _ & Hans). unfold sync. by rewrite Hans.
    + unfold replay_finish, replay_into_parts. simpl. by rewrite Hst.
  - intros j. split.
    + apply (run_inv_finish Hrp minimum None false). apply (replay_run_sound Hrp); [|done].
      apply Forall_app. split; [done|]. apply Forall_singleton. repeat split; vm_compute; discriminate.
    + intros Hj. by eapply (run_inv_complete Hrp minimum None false).
Qed.

(** Cooperative replay terminates.  However small the budgets
    are, as long as each allows one read call, one byte and one record, more
    than twice as many polls as the reader has steps and bytes leave no replay
    reading, and it has then finished with exactly the journal the synchronous
    replay returns, if that returns one. *)
Theorem cooperative_replay_terminates (identity : Identity) (limits : Limits)
    (reserve : option RecoveryReserve) (j0 : Journal) (reader : Reader) (minimum : Head)
    (budgets : list ReplayBudget) :
  replayable identity limits reserve j0 reader → Forall budget_positive budgets →
  (2 * reader_size reader < length budgets)%nat →
  ∃ rp0, journal_begin_replay identity limits reserve reader minimum = Ok rp0 ∧
  rp_status (replay_run budgets rp0) ≠ Reading ∧
  ∀ j, replay_finish (replay_run budgets rp0) = Ok j ↔ (replay_any identity minimum limits reserve reader).1 = Ok j.
Proof.
  intros Hrp Hbs Hlen. exists (replay_cursor j0 reader minimum).
  split; [unfold journal_begin_replay; by rewrite (rpl_new _ _ _ _ _ Hrp)|].
  assert (run_inv minimum (j0 := j0) (reader := reader) None false (replay_cursor j0 reader minimum)) as Hinv0
    by (by eapply replay_cursor_inv).
  assert (Forall budget_typed budgets) as Hty by (eapply Forall_impl; [exact Hbs|by intros b []]).
  assert (rp_status (replay_run budgets (replay_cursor j0 reader minimum)) ≠ Reading) as Hdone.
  { intros Hst. pose proof (replay_run_progress Hrp minimum _ _ _ _ Hbs Hinv0 Hst) as Hle.
    destruct (replayable_facts Hrp minimum) as (_ & _ & _ & Hpos & _).
    assert (rounds (replay_cursor j0 reader minimum) = 2 * reader_size reader)%nat as Hr; [|lia].
    unfold rounds, replay_cursor. cursor_simpl. unfold len at 1. rewrite length_replicate. fold (len (journal_header j0)).
    destruct (Z.eqb_spec 0 (len (journal_header j0))); lia. }
  split; [done|]. intros j. split.
  - apply (run_inv_finish Hrp minimum None false). by apply (replay_run_sound Hrp).
  - intros Hj.
    assert (replay_finish (replay_run (budgets ++ [UNLIMITED]) (replay_cursor j0 reader minimum)) = Ok j) as Hu
      by (by eapply (run_inv_complete Hrp minimum None false)).
    unfold replay_run in Hu. rewrite foldl_app in Hu. fold (replay_run budgets (replay_cursor j0 reader minimum)) in Hu.
    fold (replay_run [UNLIMITED] (replay_run budgets (replay_cursor j0 reader minimum))) in Hu.
    by rewrite replay_run_done in Hu.
Qed.

Definition small_budget : ReplayBudget := mkReplayBudget 2 5 1.

Lemma small_budget_typed : budget_typed small_budget.
Proof. repeat split; vm_compute; discriminate. Qed.

Definition example_stream : bytes := journal_header (example_journal None) ++ example_frame.
Definition example_reader : Reader :=
  [Data (take 70 example_stream); Fault Interrupted; Data (drop 70 example_stream)].

Lemma example_replayable : replayable example_identity example_limits None (example_journal None) example_reader.
Proof.
  destruct (example_reached None (or_introl eq_refl)) as [Ht Hn _]. split; [done|done|vm_compute; reflexivity].
Qed.

Lemma cooperative_replay_is_replay_witness :
  let j := (journal_append example_event (example_journal None)).2 in
  (replay_any example_identity (jn_head j) example_limits None example_reader).1 = Ok j ∧
  ∃ rp0, journal_begin_replay example_identity example_limits None example_reader (jn_head j) = Ok rp0 ∧
    replay_finish (replay_run ([small_budget; small_budget] ++ [UNLIMITED]) rp0) = Ok j.
Proof.
  intros j. assert ((replay_any example_identity (jn_head j) example_limits None example_reader).1 = Ok j) as Hj
    by (vm_compute; reflexivity).
  split; [done|].
  destruct (cooperative_replay_is_replay example_identity example_limits None (example_journal None)
    example_reader (jn_head j) [small_budget; small_budget] small_budget example_replayable)
    as (rp0 & Hb & _ & _ & _ & Hu).
  - repeat constructor; vm_compute; discriminate.
  - apply small_budget_typed.
  - exists rp0. split; [done|]. by apply Hu.
Defined.

(** One read call, one byte and one record per poll. *)
Definition least_budget : ReplayBudget := mkReplayBudget 1 1 1.

Lemma cooperative_replay_terminates_witness :
  ∃ rp0, journal_begin_replay example_identity example_limits None example_reader (mkHead 1 0) = Ok rp0 ∧
    rp_status (replay_run (replicate (S (2 * reader_size example_reader)) least_budget) rp0) ≠ Reading.
Proof.
  destruct (cooperative_replay_terminates example_identity example_limits None (example_journal None) example_reader
    (mkHead 1 0) (replicate (S (2 * reader_size example_reader)) least_budget) example_replayable)
    as (rp0 & Hb & Hst & _).
  - apply Forall_replicate. repeat split; vm_compute; congruence.
  - rewrite length_replicate. lia.
  - exists rp0. split; [exact Hb|exact Hst].
Defined.

(** A poll keeps to its budget.  Whatever polls came before, a
    poll that returns has made no more read calls, taken no more bytes and
    checked no more records than its budget allows, has not spent more than
    the totals the cursor keeps, and reports the status it leaves behind. *)
Theorem replay_budget_respected (identity : Identity) (limits : Limits)
    (reserve : option RecoveryReserve) (j0 : Journal) (reader : Reader) (minimum : Head)
    (budgets : list ReplayBudget) (budget : ReplayBudget) :
  replayable identity limits reserve j0 reader → Forall budget_typed budgets → budget_typed budget →
  ∃ rp0, journal_begin_replay identity limits reserve reader minimum = Ok rp0 ∧
  let rp := replay_run budgets rp0 in
  ∀ report, (replay_advance budget rp).1 = Ok report →
    rr_status report = rp_status (replay_advance budget rp).2 ∧
    (rp_status rp = Reading →
       rw_read_calls (rr_spent report) ≤ rb_read_calls budget ∧
       rw_read_bytes (rr_spent report) ≤ rb_read_bytes budget ∧
       rw_checked_records (rr_spent report) ≤ rb_checked_records budget ∧
       rw_read_calls (rr_spent report) ≤ rw_read_calls (rp_total (replay_advance budget rp).2) ∧
       rw_read_bytes (rr_spent report) ≤ rw_read_bytes (rp_total (replay_advance budget rp).2)).
Proof.
  intros Hrp Hbs Hb. exists (replay_cursor j0 reader minimum).
  split; [unfold journal_begin_replay; by rewrite (rpl_new _ _ _ _ _ Hrp)|]. intros rp report Hrep.
  assert (run_inv minimum (j0 := j0) (reader := reader) None false (replay_cursor j0 reader minimum)) as Hinv0
    by (by eapply replay_cursor_inv).
  pose proof (replay_run_sound Hrp minimum _ _ _ _ Hbs Hinv0) as Hinv. fold rp in Hinv.
  pose proof (replay_advance_sound Hrp minimum _ _ budget rp Hb Hinv) as Hadv.
  destruct (replay_advance budget rp) as [out rp']. destruct Hadv as (_ & _ & _ & Hok & _).
  destruct (Hok report Hrep) as [Hs Hw]. split; [done|]. intros Hst.
  destruct (Hw Hst) as (? & ? & ?). simpl. lia.
Qed.

Lemma replay_budget_respected_witness :
  ∃ rp0 report, journal_begin_replay example_identity example_limits None example_reader (mkHead 1 0) = Ok rp0 ∧
    (replay_advance small_budget rp0).1 = Ok report ∧ rr_status report = Reading ∧
    rw_read_bytes (rr_spent report) ≤ 5.
Proof.
  destruct (replay_budget_respected example_identity example_limits None (example_journal None)
    example_reader (mkHead 1 0) [] small_budget example_replayable)
    as (rp0 & Hb & Hr); [constructor|apply small_budget_typed|].
  assert (is_ok (replay_advance small_budget rp0).1 = true ∧ rp_status rp0 = Reading ∧
    rp_status (replay_advance small_budget rp0).2 = Reading) as (Hok & Hst & Hst').
  { revert Hb. unfold journal_begin_replay. destruct (example_reached None (or_introl eq_refl)) as [_ -> _].
    intros [= <-]. vm_compute. split_and!; reflexivity. }
  destruct (replay_advance small_budget rp0).1 as [report| |] eqn:E; [|discriminate..].
  exists rp0, report. destruct (Hr report E) as [Hs Hw]. simpl in Hs, Hw.
  split; [done|]. split; [done|]. split; [by rewrite Hs|]. apply (Hw Hst).
Defined.

(** An anchored replay admits exactly the histories that
    contain the retained prefix byte for byte.  An anchor of another context is
    refused before anything is read; under a matching one a replay finishes
    with a journal, for some schedule and for every schedule that ends in an
    unlimited poll, exactly when the synchronous replay past the anchor's head
    returns that journal and the reader delivered the anchor's bytes first:
    an equal head and checksum alone are not enough. *)
Theorem anchored_replay_exact (identity : Identity) (limits : Limits)
    (reserve : option RecoveryReserve) (j0 : Journal) (reader : Reader) (anchor : HistoryAnchor)
    (budgets : list ReplayBudget) :
  replayable identity limits reserve j0 reader → Forall budget_typed budgets →
  let accepts j := (replay_any identity (ha_head anchor) limits reserve reader).1 = Ok j ∧
    ha_bytes anchor `prefix_of` delivered reader in
  match journal_begin_replay_anchored identity limits reserve reader anchor with
  | Ok rp0 =>
      anchor_check_context anchor j0 = Ok tt ∧
      (∀ j, replay_finish (replay_run budgets rp0) = Ok j → accepts j) ∧
      (∀ j, replay_finish (replay_run (budgets ++ [UNLIMITED]) rp0) = Ok j ↔ accepts j)
  | Err e => e = JBinding ∧ anchor_check_context anchor j0 = Err JBinding
  | Panic => False
  end.
Proof.
  intros Hrp Hbs accepts. unfold journal_begin_replay_anchored, replay_cursor_anchored.
  rewrite (rpl_new _ _ _ _ _ Hrp). munfold_goal.
  destruct (anchor_check_context anchor j0) as [[]|e|] eqn:Hctx.
  2: { revert Hctx. unfold anchor_check_context. munfold_goal. destruct (_ || _); [|done]. by intros [= <-]. }
  2: { revert Hctx. unfold anchor_check_context. munfold_goal. by destruct (_ || _). }
  set (rp0 := with_exact_anchor (Some anchor) (replay_cursor j0 reader (ha_head anchor))).
  assert (run_inv (ha_head anchor) (j0 := j0) (reader := reader) (Some anchor) false rp0) as Hinv0
    by (by eapply replay_cursor_inv).
  assert (∀ bs j, Forall budget_typed bs → replay_finish (replay_run bs rp0) = Ok j → accepts j) as Hsound.
  { intros bs j Hb Hj.
    apply (run_inv_finish Hrp (ha_head anchor) (Some anchor) false) in Hj as (Ha & Hc & _).
    - split; [done|]. by apply Hc.
    - by apply (replay_run_sound Hrp). }
  split; [done|]. split; [intros j; by apply Hsound|]. intros j. split.
  - apply Hsound. apply Forall_app. split; [done|]. apply Forall_singleton.
    repeat split; vm_compute; discriminate.
  - intros [Ha Hp]. eapply (run_inv_complete Hrp (ha_head anchor) (Some anchor) false); try done.
    by intros a [= <-].
Qed.

Lemma anchored_replay_exact_witness :
  let j := (journal_append example_event (example_journal None)).2 in
  let anchor := mkHistoryAnchor example_stream (jn_head j) example_limits in
  ∃ rp0, journal_begin_replay_anchored example_identity example_limits None example_reader anchor = Ok rp0 ∧
    replay_finish (replay_run ([small_budget] ++ [UNLIMITED]) rp0) = Ok j.
Proof.
  intros j anchor.
  pose proof (anchored_replay_exact example_identity example_limits None (example_journal None)
    example_reader anchor [small_budget] example_replayable) as H.
  assert (is_ok (journal_begin_replay_anchored example_identity example_limits None example_reader anchor)
    = true) as Hok by (vm_compute; reflexivity).
  destruct (journal_begin_replay_anchored _ _ _ _ _) as [rp0| |]; [|discriminate..].
  exists rp0. split; [done|]. apply H; [repeat constructor; vm_compute; discriminate|].
  split; [vm_compute; reflexivity|]. exists []. vm_compute. reflexivity.
Defined.

(** A history anchor is a complete canonical history.  Bytes
    can be imported exactly when they are the header and all the frames of a
    series of appends, with no partial record; the anchor then holds these
    bytes, the head they reach and the limits they were checked under. *)
Theorem history_anchor_import_exact (identity : Identity) (limits : Limits)
    (reserve : option RecoveryReserve) (j0 : Journal) (bs : bytes) (a : HistoryAnchor) :
  config_typed identity limits reserve → journal_configured identity limits reserve = Ok j0 →
  history_anchor_import bs identity limits reserve = Ok a ↔
  ∃ log j, appends j0 log j ∧ bs = journal_header j0 ++ frames log ∧
    a = mkHistoryAnchor bs (jn_head j) limits.
Proof. apply history_anchor_import_iff. Qed.

Lemma history_anchor_import_exact_witness :
  ∃ a log j, history_anchor_import example_stream example_identity example_limits None = Ok a ∧
    appends (example_journal None) log j ∧
    example_stream = journal_header (example_journal None) ++ frames log.
Proof.
  destruct (example_reached None (or_introl eq_refl)) as [Ht Hn _].
  pose proof (history_anchor_import_exact example_identity example_limits None (example_journal None)
    example_stream) as H.
  assert (is_ok (history_anchor_import example_stream example_identity example_limits None) = true) as Hok
    by (vm_compute; reflexivity).
  destruct (history_anchor_import example_stream example_identity example_limits None) as [a| |];
    [|discriminate..].
  destruct (proj1 (H a Ht Hn) eq_refl) as (log & j & Ha & Hb & _).
  exists a, log, j. split; [reflexivity|]. split; assumption.
Defined.

(** An exported archive is the exact input.  A capturing
    replay that finishes exports the journal the synchronous replay returns
    together with exactly the bytes the reader delivered, and importing these
    bytes again yields the same anchor; with an unlimited last poll it exports
    whenever the synchronous replay succeeds. *)
Theorem captured_history_roundtrip (identity : Identity) (limits : Limits)
    (reserve : option RecoveryReserve) (j0 : Journal) (reader : Reader) (minimum : Head)
    (budgets : list ReplayBudget) :
  replayable identity limits reserve j0 reader → Forall budget_typed budgets →
  let sync := (replay_any identity minimum limits reserve reader).1 in
  ∃ rp0, journal_begin_replay_with_history_anchor identity limits reserve reader minimum = Ok rp0 ∧
  (∀ j a, replay_finish_with_history_anchor (replay_run budgets rp0) = Ok (j, a) →
     sync = Ok j ∧ a = mkHistoryAnchor (delivered reader) (jn_head j) limits ∧
     history_anchor_import (ha_bytes a) identity limits reserve = Ok a) ∧
  (∀ j, sync = Ok j →
     replay_finish_with_history_anchor (replay_run (budgets ++ [UNLIMITED]) rp0)
       = Ok (j, mkHistoryAnchor (delivered reader) (jn_head j) limits)).
Proof.
  intros Hrp Hbs sync. pose proof Hrp as [Ht Hn _].
  pose proof (journal_configured_wf _ _ _ _ Ht Hn) as (Hwf & _ & He & _ & _ & Hl & _).
  exists (with_history (Some []) (replay_cursor j0 reader minimum)).
  split; [unfold journal_begin_replay_with_history_anchor; by rewrite Hn|].
  set (rp0 := with_history (Some []) (replay_cursor j0 reader minimum)).
  assert (run_inv minimum (j0 := j0) (reader := reader) None true rp0) as Hinv0
    by (by eapply replay_cursor_inv).
  assert (∀ j, sync = Ok j → jn_encoded_len j = len (delivered reader) ∧ jn_limits j = limits ∧
    history_anchor_import (delivered reader) identity limits reserve
      = Ok (mkHistoryAnchor (delivered reader) (jn_head j) limits)) as Hsync.
  { intros j Hj. apply (replay_any_iff _ _ _ _ j0) in Hj as (_ & log1 & log2 & jm & H1 & H2 & _ & Hd); [|done..].
    pose proof (appends_app _ _ _ _ _ H1 H2) as Ha.
    destruct (appends_encoded j0 _ j Hwf He Ha) as (Hen & _ & Hlj).
    rewrite Hd. split; [done|]. split; [by rewrite Hlj, Hl|].
    apply (history_anchor_import_iff _ _ _ j0); [done..|]. by exists (log1 ++ log2), j. }
  split.
  - intros j a Hfin. pose proof (replay_run_sound Hrp minimum _ _ _ _ Hbs Hinv0) as Hinv.
    set (rp := replay_run budgets rp0) in *.
    assert (replay_finish rp = Ok (rp_journal rp) ∧ j = rp_journal rp ∧
      ∃ h, rp_captured_history rp = Some h ∧ a = mkHistoryAnchor h (jn_head (rp_journal rp)) (jn_limits (rp_journal rp)))
      as (Hf & -> & h & Hh & ->).
    { revert Hfin. unfold replay_finish_with_history_anchor, replay_into_parts_with_history_anchor,
        replay_finish, replay_into_parts. destruct (rp_status rp); [done| |done]. munfold_goal.
      destruct (rp_captured_history rp) as [h|]; [|done]. destruct (negb _); [done|].
      intros [= <- <-]. split_and!; try done. by exists h. }
    apply (run_inv_finish Hrp minimum None true) in Hf as (Ha & _ & Hcap); [|done].
    rewrite (Hcap h Hh). destruct (Hsync _ Ha) as (_ & -> & Himp). done.
  - intros j Hj. destruct (Hsync j Hj) as (Hen & Hlj & _).
    assert (Forall budget_typed (budgets ++ [UNLIMITED])) as Hbs'.
    { apply Forall_app. split; [done|]. apply Forall_singleton. repeat split; vm_compute; discriminate. }
    pose proof (run_inv_complete Hrp minimum None true budgets rp0 j Hbs Hinv0 Hj ltac:(done)) as Hfin.
    pose proof (replay_run_sound Hrp minimum _ _ _ _ Hbs' Hinv0) as Hinv.
    set (rp := replay_run (budgets ++ [UNLIMITED]) rp0) in *.
    revert Hfin Hinv. unfold run_inv, replay_finish, replay_into_parts,
      replay_finish_with_history_anchor, replay_into_parts_with_history_anchor.
    destruct (rp_status rp); [done| |done]. munfold_goal. intros [= Hjr] [_ _ Hcap [_ Hsome] _].
    destruct Hsome as [h Hh]; [done|]. rewrite Hh, (Hcap h Hh), Hjr, Hen, Z.eqb_refl. simpl.
    by rewrite Hlj.
Qed.

Lemma captured_history_roundtrip_witness :
  let j := (journal_append example_event (example_journal None)).2 in
  ∃ rp0, journal_begin_replay_with_history_anchor example_identity example_limits None example_reader
    (jn_head j) = Ok rp0 ∧
    replay_finish_with_history_anchor (replay_run ([small_budget] ++ [UNLIMITED]) rp0)
      = Ok (j, mkHistoryAnchor (delivered example_reader) (jn_head j) example_limits).
Proof.
  intros j.
  destruct (captured_history_roundtrip example_identity example_limits None (example_journal None)
    example_reader (jn_head j) [small_budget] example_replayable) as (rp0 & Hb & _ & Hc).
  - repeat constructor; vm_compute; discriminate.
  - exists rp0. split; [done|]. apply Hc. vm_compute. reflexivity.
Defined.
