(* ===== verification/Batch.v ===== *)
(** * Batches

    [append_batch], its [Encoder] and the cooperative [BatchPreparation] of
    [crates/fa-journal/src/batch.rs] and [crates/fa-journal/src/batch/preparation.rs]:
    an ordered group of events that is encoded and reduced on a private clone
    of the journal and published as a whole or not at all. *)

From Stdlib Require Import Strings.Byte Strings.String.
From stdpp Require Import base tactics numbers list gmap sets strings.
From S2P Require Import Prelude Bytes Reader Judgment Rights Crc Wire Journal.

Local Open Scope Z_scope.

(** ** The encoder *)

Definition MAX_BATCH_RECORDS : Z := 1024.
Definition MAX_BATCH_ENCODED_BYTES : Z := 8388608.

Record BatchLimits := mkBatchLimits { bl_max_records : Z; bl_max_encoded_bytes : Z }.

Definition default_batch_limits : BatchLimits :=
  mkBatchLimits MAX_BATCH_RECORDS MAX_BATCH_ENCODED_BYTES.

Record Encoder := mkEncoder {
  en_candidate : Journal;
  en_bytes : bytes;
  en_limits : BatchLimits;
}.

Definition encoder_new (journal : Journal) (count : Z) (limits : BatchLimits)
    : res JournalError Encoder :=
  refuse_if (count =? 0) JInvalidInput;;
  refuse_if ((bl_max_records limits =? 0)
    || (MAX_BATCH_RECORDS <? bl_max_records limits)
    || (bl_max_encoded_bytes limits =? 0)
    || (MAX_BATCH_ENCODED_BYTES <? bl_max_encoded_bytes limits)
    || (bl_max_records limits <? count)) JLimit;;
  refuse_if (is_none_or (u64_checked_add (h_sequence (jn_head journal)) count)
    (λ stop, l_max_records (jn_limits journal) <? stop)) JLimit;;
  minimum ← ok_or (u64_checked_mul count 21) JLimit;
  refuse_if ((bl_max_encoded_bytes limits <? minimum)
    || is_none_or (u64_checked_add (jn_encoded_len journal) minimum)
         (λ stop, l_max_total_bytes (jn_limits journal) <? stop)) JLimit;;
  mret (mkEncoder journal [] limits).

Definition set_candidate (j : Journal) (en : Encoder) : Encoder :=
  mkEncoder j (en_bytes en) (en_limits en).
Definition extend_bytes (bs : bytes) (en : Encoder) : Encoder :=
  mkEncoder (en_candidate en) (en_bytes en ++ bs) (en_limits en).

Definition encoder_push (event : Event) : st Encoder JournalError unit :=
  self ← get;
  let candidate := en_candidate self in
  capacity ← lift (journal_remaining_for candidate event);
  refuse_if (rc_records capacity =? 0) JLimit;;
  remaining ← lift (u64_sub (bl_max_encoded_bytes (en_limits self)) (len (en_bytes self)));
  let remaining := Z.min remaining (rc_bytes capacity) in
  refuse_if (remaining <? 21) JLimit;;
  bytes_left ← lift (u64_sub remaining 20);
  frame_left ← lift (u64_sub (l_max_frame_bytes (jn_limits candidate)) 12);
  payload ← lift (encode_event event (Z.min bytes_left frame_left));
  body_len ← lift (u64_add 12 (len payload));
  encoded_len ← lift (journal_check_event_growth candidate event body_len);
  sequence ← ok_or (u64_checked_add (h_sequence (jn_head candidate)) 1) JLimit;
  let record := le_bytes 4 body_len ++ le_bytes 8 sequence
    ++ le_bytes 4 (h_checksum (jn_head candidate)) ++ payload in
  modify (extend_bytes record);;
  let checksum := crc32 record in
  modify (extend_bytes (le_bytes 4 checksum));;
  zoom (λ en, jn_rights (en_candidate en))
       (λ r en, set_candidate (set_rights r (en_candidate en)) en) id (apply_event event);;
  modify (λ en, set_candidate (set_head (mkHead sequence checksum) (en_candidate en)) en);;
  modify (λ en, set_candidate (set_encoded_len encoded_len (en_candidate en)) en).

Definition encoder_finish (self : Encoder) : Journal * bytes := (en_candidate self, en_bytes self).

(** [for event in events { encoder.push(event)?; }] *)
Fixpoint encoder_push_all (events : list Event) : st Encoder JournalError unit :=
  match events with
  | [] => mret tt
  | event :: events => encoder_push event;; encoder_push_all events
  end.

Definition journal_prepare_batch (self : Journal) (events : list Event) (limits : BatchLimits)
    : res JournalError (Journal * bytes) :=
  encoder ← encoder_new self (len events) limits;
  encoder ← exec (encoder_push_all events) encoder;
  mret (encoder_finish encoder).

Definition journal_append_batch (events : list Event) (limits : BatchLimits)
    : st Journal JournalError bytes :=
  self ← get;
  '(candidate, bs) ← lift (journal_prepare_batch self events limits);
  put candidate;;
  mret bs.

(** ** Cooperative preparation *)

Inductive BatchPreparationStage := BPreparing | BReady | BFailed.

#[global] Instance BatchPreparationStage_eq_dec : EqDecision BatchPreparationStage.
Proof. solve_decision. Defined.

Record BatchPreparationReport := mkBatchPreparationReport {
  bpr_stage : BatchPreparationStage;
  bpr_total_records : Z;
  bpr_prepared_records : Z;
  bpr_attempted_records : Z;
}.

Inductive BatchPreparationError := BJournal (error : JournalError) | BNotReady | BFailedError.

Record BatchPreparation := mkBatchPreparation {
  bp_encoder : Encoder;
  bp_events : list Event;
  bp_prepared : Z;
  bp_attempted : Z;
  bp_stage : BatchPreparationStage;
}.

Definition with_encoder (x : Encoder) (b : BatchPreparation) : BatchPreparation :=
  mkBatchPreparation x (bp_events b) (bp_prepared b) (bp_attempted b) (bp_stage b).
Definition with_prepared (x : Z) (b : BatchPreparation) : BatchPreparation :=
  mkBatchPreparation (bp_encoder b) (bp_events b) x (bp_attempted b) (bp_stage b).
Definition with_attempted (x : Z) (b : BatchPreparation) : BatchPreparation :=
  mkBatchPreparation (bp_encoder b) (bp_events b) (bp_prepared b) x (bp_stage b).
Definition with_stage (x : BatchPreparationStage) (b : BatchPreparation) : BatchPreparation :=
  mkBatchPreparation (bp_encoder b) (bp_events b) (bp_prepared b) (bp_attempted b) x.

Definition journal_begin_append_batch (self : Journal) (events : list Event) (limits : BatchLimits)
    : res JournalError BatchPreparation :=
  encoder ← encoder_new self (len events) limits;
  mret (mkBatchPreparation encoder events 0 0 BPreparing).

Definition preparation_progress (self : BatchPreparation) : BatchPreparationReport :=
  mkBatchPreparationReport (bp_stage self) (len (bp_events self)) (bp_prepared self) (bp_attempted self).

(** One round of the loop of [advance]. *)
Definition preparation_step : st BatchPreparation BatchPreparationError unit :=
  modify (with_stage BFailed);;
  self ← get;
  attempted ← lift (u64_add (bp_attempted self) 1);
  modify (with_attempted attempted);;
  event ← lift (expect (bp_events self !! Z.to_nat (bp_prepared self)));
  zoom bp_encoder with_encoder BJournal (encoder_push event);;
  self ← get;
  prepared ← lift (u64_add (bp_prepared self) 1);
  modify (with_prepared prepared);;
  modify (with_stage (if prepared =? len (bp_events self) then BReady else BPreparing)).

Fixpoint preparation_loop (count : nat) : st BatchPreparation BatchPreparationError unit :=
  match count with
  | O => mret tt
  | S count => preparation_step;; preparation_loop count
  end.

Definition preparation_advance (max_records : Z)
    : st BatchPreparation BatchPreparationError BatchPreparationReport :=
  self ← get;
  match bp_stage self with
  | BReady => mret (preparation_progress self)
  | BFailed => mthrow BFailedError
  | BPreparing =>
    missing ← lift (u64_sub (len (bp_events self)) (bp_prepared self));
    let count := Z.min max_records missing in
    preparation_loop (Z.to_nat count);;
    self ← get;
    mret (preparation_progress self)
  end.

Definition preparation_finish (self : BatchPreparation) : res BatchPreparationError (Journal * bytes) :=
  match bp_stage self with
  | BReady => Ok (encoder_finish (bp_encoder self))
  | BPreparing => Err BNotReady
  | BFailed => Err BFailedError
  end.

Definition preparation_cancel (self : BatchPreparation) : BatchPreparationReport :=
  preparation_progress self.

(** ** One event of a batch is one append *)

Definition batch_limits_wf (l : BatchLimits) : Prop :=
  1 ≤ bl_max_records l ≤ 1024 ∧ 1 ≤ bl_max_encoded_bytes l ≤ 8388608.

Record encoder_wf (en : Encoder) : Prop := {
  ew_candidate : journal_wf (en_candidate en);
  ew_limits : batch_limits_wf (en_limits en);
  ew_bytes : len (en_bytes en) ≤ bl_max_encoded_bytes (en_limits en);
}.

(** The record fits the journal and the group. *)
Definition batch_fits (en : Encoder) (e : Event) : Prop :=
  grows (en_candidate en) e (12 + len (wire_event e)) ∧
  len (en_bytes en) + (12 + len (wire_event e) + 8) ≤ bl_max_encoded_bytes (en_limits en).
#[global] Instance batch_fits_dec en e : Decision (batch_fits en e).
Proof. unfold batch_fits. apply _. Defined.

Lemma encoder_push_spec en e :
  encoder_wf en → event_typed e →
  let '(out, en') := encoder_push e en in
  match out with
  | Ok _ => ∃ j', append_spec (en_candidate en) e (frame_of (en_candidate en) e) j' ∧
      en' = mkEncoder j' (en_bytes en ++ frame_of (en_candidate en) e) (en_limits en) ∧ encoder_wf en'
  | Err er => ∀ f j', append_spec (en_candidate en) e f j' →
      er = JLimit ∧ bl_max_encoded_bytes (en_limits en) < len (en_bytes en) + len f
  | Panic => False
  end.
Proof.
  intros [Hwf [Hl1 Hl2] Hb] Hty. unfold encoder_push. munfold_goal.
  rewrite journal_remaining_for_eq by done. set (j := en_candidate en) in *.
  pose proof (remaining_of_bounds j e Hwf). pose proof (wire_event_nonempty e).
  pose proof Hwf as [[] _ Hs _ Hl _].
  pose proof (len_nonneg (en_bytes en)).
  assert (∀ f j', append_spec j e f j' →
    grows j e (12 + len (wire_event e)) ∧ len f = 12 + len (wire_event e) + 8) as Hgrow.
  { intros f j' [_ Hg -> _ _]. by rewrite len_frame_of. }
  destruct (Z.eqb_spec (rc_records (remaining_of j e)) 0).
  { intros f j' [Hg _]%Hgrow. unfold grows in Hg. lia. }
  rewrite u64_sub_ok by lia.
  set (remaining := Z.min _ _).
  destruct (Z.ltb_spec remaining 21).
  { intros f j' [Hg Hf]%Hgrow. unfold grows in Hg. split; [done|]. lia. }
  rewrite !u64_sub_ok by lia. rewrite encode_event_eq by (unfold is_u64; lia).
  destruct (Z.leb_spec (len (wire_event e))
    (Z.min (remaining - 20) (l_max_frame_bytes (jn_limits j) - 12))); cbv beta iota.
  2: { intros f j' [Hg Hf]%Hgrow. unfold grows in Hg. split; [done|]. lia. }
  assert (grows j e (12 + len (wire_event e))) as Hg by (unfold grows; lia).
  rewrite u64_add_ok by lia.
  rewrite journal_check_event_growth_eq by done. rewrite decide_True by done.
  rewrite u64_checked_add_fits by lia. cbv beta iota.
  pose proof (apply_event_sound e (jn_rights j) (jwf_rights j Hwf) Hty) as Hap. unfold exec in Hap.
  cbn [extend_bytes en_candidate]. fold j.
  destruct (apply_event e (jn_rights j)) as [[[]|er|] r] eqn:Ea; cbv beta iota; [| |done].
  - destruct Hap as [Hr _]. exists (advance j e r). split; [|split].
    + split; try done; [by apply advance_wf|unfold exec; by rewrite Ea].
    + unfold set_candidate, extend_bytes. cbn [en_candidate en_bytes en_limits].
      fold (record_of j e). by rewrite <-app_assoc.
    + unfold set_candidate, extend_bytes. split; cbn [en_candidate en_bytes en_limits];
        [exact (advance_wf j e r Hwf Hg Hr)|done|].
      fold (record_of j e). unfold record_of. rewrite !len_app, !len_le_bytes. lia.
  - intros f j' [_ _ _ Hr _]. unfold exec in Hr. by rewrite Ea in Hr.
Qed.

(** ** A batch is a series of appends *)

Lemma append_spec_frame j e f j' : append_spec j e f j' → f = frame_of j e.
Proof. by intros []. Qed.

Lemma encoder_push_all_sound events en :
  encoder_wf en → Forall event_typed events →
  let '(out, en') := encoder_push_all events en in
  match out with
  | Ok _ => ∃ log, log.*1 = events ∧ appends (en_candidate en) log (en_candidate en') ∧
      en_bytes en' = en_bytes en ++ frames log ∧ en_limits en' = en_limits en ∧ encoder_wf en'
  | Err _ => True
  | Panic => False
  end.
Proof.
  intros Hwf Htys. revert en Hwf. induction Htys as [|e events Hty _ IH]; intros en Hwf; simpl.
  { exists []. split_and!; try done; [constructor|by rewrite app_nil_r]. }
  munfold_goal. pose proof (encoder_push_spec en e Hwf Hty) as Hp.
  destruct (encoder_push e en) as [[[]|er|] en1]; [|done..].
  destruct Hp as (j1 & Hap & -> & Hwf1). specialize (IH _ Hwf1).
  destruct (encoder_push_all events _) as [[[]|er|] en2]; [|done..].
  destruct IH as (log & <- & Happ & Hb & Hl & Hwf2). simpl in *.
  exists ((e, frame_of (en_candidate en) e) :: log). split_and!; try done.
  - econstructor; [done| |done]. apply journal_append_ok; [apply Hwf|done|done].
  - rewrite Hb, frames_cons. by rewrite <-app_assoc.
Qed.

Lemma encoder_push_all_complete log en j' :
  encoder_wf en → appends (en_candidate en) log j' →
  len (en_bytes en) + len (frames log) ≤ bl_max_encoded_bytes (en_limits en) →
  exec (encoder_push_all log.*1) en = Ok (mkEncoder j' (en_bytes en ++ frames log) (en_limits en)).
Proof.
  intros Hwf Happ. remember (en_candidate en) as j eqn:Ej. revert en Ej Hwf.
  induction Happ as [j|j e f j1 log j' Hty Hap _ IH]; intros en -> Hwf Hlen.
  { unfold frames. simpl. rewrite app_nil_r. by destruct en. }
  apply journal_append_ok in Hap; [|apply Hwf|done]. csimpl. unfold exec. munfold_goal.
  pose proof (encoder_push_spec en e Hwf Hty) as Hp.
  rewrite frames_cons, len_app in Hlen. pose proof (len_nonneg (frames log)).
  destruct (encoder_push e en) as [[[]|er|] en1]; [| |done].
  - destruct Hp as (j1' & Hap' & -> & Hwf1).
    assert (j1' = j1) as ->.
    { apply journal_append_ok in Hap, Hap'; try done; try apply Hwf. congruence. }
    rewrite (append_spec_frame _ _ _ _ Hap) in *.
    specialize (IH (mkEncoder j1 (en_bytes en ++ frame_of (en_candidate en) e) (en_limits en)) eq_refl Hwf1).
    unfold exec in IH. simpl in IH.
    rewrite len_app in IH. specialize (IH ltac:(lia)).
    destruct (encoder_push_all _ _) as [[]]; [|done..]. rewrite IH, frames_cons. by rewrite <-app_assoc.
  - destruct (Hp f j1 Hap). lia.
Qed.

(** The bounds that are checked before any event is encoded. *)
Lemma encoder_new_spec journal count limits :
  journal_wf journal → is_u64 count → is_u64 (bl_max_records limits) → is_u64 (bl_max_encoded_bytes limits) →
  match encoder_new journal count limits with
  | Ok en => en = mkEncoder journal [] limits ∧ encoder_wf en ∧ 1 ≤ count ≤ bl_max_records limits
  | Err _ => ¬ (batch_limits_wf limits ∧ 1 ≤ count ≤ bl_max_records limits ∧
      h_sequence (jn_head journal) + count ≤ l_max_records (jn_limits journal) ∧
      21 * count ≤ bl_max_encoded_bytes limits ∧
      jn_encoded_len journal + 21 * count ≤ l_max_total_bytes (jn_limits journal))
  | Panic => False
  end.
Proof.
  intros Hwf Hc Hr Hb. pose proof Hwf as [[] _ Hs _ Hl _].
  unfold encoder_new, batch_limits_wf, MAX_BATCH_RECORDS, MAX_BATCH_ENCODED_BYTES, is_u64 in *. munfold_goal.
  destruct (Z.eqb_spec count 0); [lia|].
  destruct (_ || _) eqn:E; [rewrite !orb_true_iff in E; lia|]. rewrite !orb_false_iff in E.
  rewrite u64_checked_add_fits by lia. simpl.
  destruct (Z.ltb_spec (l_max_records (jn_limits journal)) (h_sequence (jn_head journal) + count)); [lia|].
  unfold u64_checked_mul. rewrite (proj2 (Z.leb_le _ _)) by lia.
  destruct (_ || _) eqn:E2.
  - apply orb_true_iff in E2 as [E2|E2]; [lia|]. unfold u64_checked_add in E2.
    destruct (Z.leb_spec (jn_encoded_len journal + count * 21) U64_MAX); simpl in E2; lia.
  - split; [done|]. split; [|lia]. split; simpl; [done|unfold batch_limits_wf; lia|unfold len; simpl; lia].
Qed.

(** Every frame has at least 21 bytes. *)
Lemma appends_frames_length j log j' : journal_wf j → appends j log j' → 21 * len log ≤ len (frames log).
Proof.
  intros Hwf Happ. revert Hwf. induction Happ as [j|j e f j1 log j' Hty Hap _ IH]; intros Hwf.
  { unfold frames, len. simpl. lia. }
  apply journal_append_ok in Hap as [Hwf1 _ -> _ _]; [|done..]. specialize (IH Hwf1).
  rewrite frames_cons, len_app, len_frame_of, len_cons. pose proof (wire_event_nonempty e). lia.
Qed.

(** The appends a batch stands for. *)
Definition batch_of (j : Journal) (events : list Event) (limits : BatchLimits) (bs : bytes) (j' : Journal) : Prop :=
  ∃ log, log.*1 = events ∧ appends j log j' ∧ bs = frames log ∧ batch_limits_wf limits ∧
    1 ≤ len events ≤ bl_max_records limits ∧ len bs ≤ bl_max_encoded_bytes limits.

Record batch_typed (events : list Event) (limits : BatchLimits) : Prop := {
  bt_events : Forall event_typed events;
  bt_count : is_u64 (len events);
  bt_records : is_u64 (bl_max_records limits);
  bt_bytes : is_u64 (bl_max_encoded_bytes limits);
}.

Lemma journal_prepare_batch_iff j events limits :
  journal_wf j → batch_typed events limits →
  journal_prepare_batch j events limits ≠ Panic ∧
  ∀ bs j', journal_prepare_batch j events limits = Ok (j', bs) ↔ batch_of j events limits bs j'.
Proof.
  intros Hwf [Htys Hc Hr Hb]. unfold journal_prepare_batch. munfold_goal.
  pose proof (encoder_new_spec j (len events) limits Hwf Hc Hr Hb) as Hnew.
  destruct (encoder_new j (len events) limits) as [en|er|]; [|split; [done|]|done].
  - destruct Hnew as (-> & Hen & Hcount).
    pose proof (encoder_push_all_sound events _ Hen Htys) as Hs. unfold exec.
    destruct (encoder_push_all events _) as [[[]|er|] en'] eqn:E; [|split; [done|]|done].
    + split; [done|]. destruct Hs as (log & <- & Happ & Hbs & Hl & Hwf'). simpl in *. intros bs j'. split.
      * intros [= <- <-]. exists log. pose proof (ew_bytes _ Hwf') as Hle. rewrite Hl in Hle.
        split; [done|]. split; [done|]. split; [done|]. split; [apply Hen|done].
      * intros (log' & Hlog & Happ' & -> & _ & _ & Hle).
        pose proof (encoder_push_all_complete log' _ j' Hen Happ' Hle) as Hcomp. unfold exec in Hcomp.
        rewrite Hlog, E in Hcomp. injection Hcomp as ->. done.
    + intros bs j'. split; [done|]. intros (log' & <- & Happ' & -> & _ & _ & Hle).
      pose proof (encoder_push_all_complete log' _ j' Hen Happ' Hle) as Hcomp. unfold exec in Hcomp.
      by rewrite E in Hcomp.
  - intros bs j'. split; [done|]. intros (log & <- & Happ & -> & Hl & Hcount & Hle). exfalso. apply Hnew.
    pose proof (appends_sound _ _ _ Hwf Happ) as Hs. pose proof (appends_frames_length _ _ _ Hwf Happ).
    pose proof (aps_sequence _ _ _ Hs) as Hq. pose proof (aps_encoded _ _ _ Hs) as He.
    pose proof (jwf_sequence _ (aps_wf _ _ _ Hs)) as Hq'. pose proof (jwf_len _ (aps_wf _ _ _ Hs)) as Hl'.
    rewrite (aps_limits _ _ _ Hs) in Hq', Hl'.
    assert (len log.*1 = len log) as Hlen by (unfold len; by rewrite length_fmap).
    split_and!; try apply Hl; lia.
Qed.

(** ** Cooperative preparation follows the synchronous encoder *)

Section preparation.
Context (j : Journal) (Hwf : journal_wf j) (events : list Event) (limits : BatchLimits).
Context (Hty : batch_typed events limits).

Let answer := journal_prepare_batch j events limits.

(** What is left to do from where the preparation stands. *)
Definition rest_of (bp : BatchPreparation) : res JournalError (Journal * bytes) :=
  encoder ← exec (encoder_push_all (drop (Z.to_nat (bp_prepared bp)) events)) (bp_encoder bp);
  mret (encoder_finish encoder).

Record preparation_inv (bp : BatchPreparation) : Prop := {
  pi_events : bp_events bp = events;
  pi_prepared : 0 ≤ bp_prepared bp ≤ len events;
  pi_attempted : bp_prepared bp ≤ bp_attempted bp ≤ bp_prepared bp + 1;
  pi_state : match bp_stage bp with
    | BPreparing => bp_prepared bp < len events ∧ bp_attempted bp = bp_prepared bp ∧
        encoder_wf (bp_encoder bp) ∧ rest_of bp = answer
    | BReady => bp_prepared bp = len events ∧ bp_attempted bp = bp_prepared bp ∧ answer = Ok (encoder_finish (bp_encoder bp))
    | BFailed => ∃ e, answer = Err e
    end;
}.

Lemma preparation_step_ok bp :
  preparation_inv bp → bp_stage bp = BPreparing →
  let '(out, bp') := preparation_step bp in
  preparation_inv bp' ∧
  match out with
  | Ok _ => bp_stage bp' ≠ BFailed ∧ bp_prepared bp' = bp_prepared bp + 1
  | Err e => bp_stage bp' = BFailed ∧ ∃ er, e = BJournal er ∧ answer = Err er
  | Panic => False
  end.
Proof.
  intros [He Hp Ha Hst] Hstage. rewrite Hstage in Hst. destruct Hst as (Hlt & Hat & Hen & Hrest).
  destruct Hty as [Htys [_ Hc] _ _].
  unfold preparation_step, expect, rest_of in *. munfold_goal.
  rewrite u64_add_ok by (simpl; lia). simpl.
  destruct (lookup_lt_is_Some_2 events (Z.to_nat (bp_prepared bp))) as [e Hlook]; [unfold len in *; lia|].
  rewrite (drop_S _ e) in Hrest by done. simpl in Hrest.
  rewrite He, Hlook. simpl. unfold exec in Hrest. munfold. revert Hrest.
  assert (event_typed e) as Hte by (eapply Forall_lookup_1; done).
  pose proof (encoder_push_spec (bp_encoder bp) e Hen Hte) as Hpush.
  destruct (encoder_push e (bp_encoder bp)) as [[[]|er|] en']; [| |done]; intros Hrest; cbn.
  - destruct Hpush as (j' & _ & _ & Hen'). rewrite u64_add_ok by lia.
    split; [|by destruct (_ =? _)]. split; simpl; try done; try lia.
    rewrite He. destruct (Z.eqb_spec (bp_prepared bp + 1) (len events)) as [Hend|Hend].
    + split; [done|]. split; [lia|]. rewrite <-Hrest, drop_ge by (unfold len in *; lia). done.
    + split_and!; try done; try lia. unfold rest_of. simpl.
      replace (Z.to_nat (bp_prepared bp + 1)) with (S (Z.to_nat (bp_prepared bp))) by lia. done.
  - split; [|by eauto]. split; simpl; try done; try lia. by exists er.
Qed.

Lemma preparation_loop_ok count bp :
  preparation_inv bp → bp_stage bp = BPreparing → Z.of_nat count ≤ len events - bp_prepared bp →
  let '(out, bp') := preparation_loop count bp in
  preparation_inv bp' ∧
  match out with
  | Ok _ => bp_stage bp' ≠ BFailed ∧ bp_prepared bp' = bp_prepared bp + Z.of_nat count
  | Err e => bp_stage bp' = BFailed ∧ ∃ er, e = BJournal er ∧ answer = Err er
  | Panic => False
  end.
Proof.
  revert bp. induction count as [|count IH]; intros bp Hinv Hst Hc; simpl; munfold_goal.
  { split; [done|]. rewrite Hst. split; [done|lia]. }
  pose proof (preparation_step_ok bp Hinv Hst) as Hs.
  destruct (preparation_step bp) as [[[]|e|] bp1]; [|done..].
  destruct Hs as (Hinv1 & Hns & Hp1).
  destruct (bp_stage bp1) eqn:Hst1; [| |done].
  - specialize (IH bp1 Hinv1 Hst1 ltac:(lia)). destruct (preparation_loop count bp1) as [[[]|e|] bp2]; [|done..].
    destruct IH as (? & ? & ?). split_and!; try done. lia.
  - pose proof (pi_state _ Hinv1) as Hr. rewrite Hst1 in Hr. destruct Hr as (Hend & _ & _).
    assert (count = 0%nat) as -> by lia. simpl. split; [done|]. rewrite Hst1. split; [done|lia].
Qed.

Lemma preparation_advance_ok max_records bp :
  0 ≤ max_records → preparation_inv bp →
  let '(out, bp') := preparation_advance max_records bp in
  preparation_inv bp' ∧ out ≠ Panic ∧
  (∀ er, out = Err (BJournal er) → answer = Err er ∧ bp_stage bp' = BFailed) ∧
  (∀ report, out = Ok report → report = preparation_progress bp' ∧
     bp_prepared bp' ≤ bp_prepared bp + max_records ∧ bp_attempted bp' ≤ bp_attempted bp + max_records) ∧
  (len events ≤ max_records → bp_stage bp' ≠ BPreparing).
Proof.
  intros Hm Hinv. unfold preparation_advance. munfold_goal. destruct (bp_stage bp) eqn:Hst.
  - pose proof Hinv as [He Hp Ha _]. rewrite u64_sub_ok by (rewrite He; lia). rewrite He.
    pose proof (preparation_loop_ok (Z.to_nat (Z.min max_records (len events - bp_prepared bp))) bp Hinv Hst
      ltac:(lia)) as Hl.
    pose proof (pi_state _ Hinv) as Hs. rewrite Hst in Hs. destruct Hs as (_ & Hat & _).
    destruct (preparation_loop _ bp) as [[[]|e|] bp']; destruct Hl as [Hinv' Hl]; [| |done].
    + destruct Hl as [Hns Hp']. split_and!; try done.
      * intros report [= <-]. split; [done|]. pose proof (pi_attempted _ Hinv') as Ha'.
        pose proof (pi_state _ Hinv') as Hs'.
        destruct (bp_stage bp'); [destruct Hs' as (_ & ? & _); lia|destruct Hs' as (_ & ? & _); lia|done].
      * intros Hall Hpr. pose proof (pi_state _ Hinv') as Hs. rewrite Hpr in Hs. lia.
    + destruct Hl as (Hf & er & -> & Hans). split_and!; try done; [by intros ? [= <-]|by rewrite Hf].
  - split_and!; try done; [|by rewrite Hst]. intros report [= <-]. split; [done|lia].
  - split_and!; try done. by rewrite Hst.
Qed.
End preparation.

(** ** Properties *)

(** C29: a batch is all or nothing, and nothing but a series of
    appends.  On every reachable journal [append_batch] never panics; it
    succeeds exactly when the group is within its bounds and its events could
    be appended one by one, and then returns the same frames and leaves the
    same journal; when it fails the journal is unchanged. *)
Theorem append_batch_is_repeated_append (identity : Identity) (limits : Limits)
    (reserve : option RecoveryReserve) (j0 j : Journal) (log0 : list (Event * bytes))
    (events : list Event) (blimits : BatchLimits) :
  reached identity limits reserve j0 log0 j → batch_typed events blimits →
  let '(out, j') := journal_append_batch events blimits j in
  out ≠ Panic ∧
  (∀ e, out = Err e → j' = j) ∧
  (∀ bs, out = Ok bs → batch_of j events blimits bs j') ∧
  (∀ bs j1, batch_of j events blimits bs j1 → out = Ok bs ∧ j' = j1).
Proof.
  intros Hreach Hty. apply reached_wf in Hreach as (_ & Hwf & _).
  destruct (journal_prepare_batch_iff j events blimits Hwf Hty) as [Hnp Hiff].
  unfold journal_append_batch. munfold_goal.
  destruct (journal_prepare_batch j events blimits) as [[c bs]|e|] eqn:E; [| |done].
  - split_and!; try done.
    + intros bs' [= <-]. by apply Hiff.
    + intros bs' j1 Hb. apply Hiff in Hb. by injection Hb as -> ->.
  - split_and!; try done. intros bs' j1 Hb. by apply Hiff in Hb.
Qed.

Definition example_batch : list Event := [example_event; EDispatch 1 example_effect].
Definition example_batch_limits : BatchLimits := mkBatchLimits 4 400.

Lemma example_batch_typed : batch_typed example_batch example_batch_limits.
Proof.
  assert (event_typed (EDispatch 1 example_effect)) as Hd by apply example_event_typed.
  split; [|split; vm_compute; discriminate..].
  constructor; [apply example_event_typed|]. constructor; [done|constructor].
Qed.

Lemma append_batch_is_repeated_append_witness :
  let j := example_journal None in
  ∃ bs j', journal_append_batch example_batch example_batch_limits j = (Ok bs, j') ∧
    batch_of j example_batch example_batch_limits bs j'.
Proof.
  intros j.
  pose proof (append_batch_is_repeated_append _ _ _ j j [] example_batch example_batch_limits
    (example_reached None (or_introl eq_refl)) example_batch_typed) as H.
  assert (is_ok (journal_append_batch example_batch example_batch_limits j).1 = true) as Hok
    by (vm_compute; reflexivity).
  destruct (journal_append_batch example_batch example_batch_limits j) as [[bs| |] j']; [|discriminate..].
  exists bs, j'. destruct H as (_ & _ & Hb & _). split; [reflexivity|]. apply Hb. reflexivity.
Defined.

(** A host that advances the preparation with a series of allowances. *)
Definition preparation_run (allowances : list Z) (bp : BatchPreparation) : BatchPreparation :=
  foldl (λ bp n, (preparation_advance n bp).2) bp allowances.

(** Cooperative preparation is the synchronous batch.  For
    every series of allowances: a preparation that finishes yields exactly the
    journal and the bytes of [append_batch]; an advance never panics, prepares
    and attempts no more records than it was allowed, and reports only the
    error of [append_batch], after which nothing can be finished; and an
    advance that allows the whole group finishes exactly when [append_batch]
    succeeds. *)
Theorem preparation_is_append_batch (identity : Identity) (limits : Limits)
    (reserve : option RecoveryReserve) (j0 j : Journal) (log0 : list (Event * bytes))
    (events : list Event) (blimits : BatchLimits) (allowances : list Z) (n : Z) (bp0 : BatchPreparation) :
  reached identity limits reserve j0 log0 j → batch_typed events blimits →
  Forall (λ n, 0 ≤ n) allowances → 0 ≤ n →
  journal_begin_append_batch j events blimits = Ok bp0 →
  let sync := journal_append_batch events blimits j in
  let bp := preparation_run allowances bp0 in
  (∀ j' bs, preparation_finish bp = Ok (j', bs) → sync = (Ok bs, j')) ∧
  (preparation_advance n bp).1 ≠ Panic ∧
  (∀ e, (preparation_advance n bp).1 = Err (BJournal e) →
     sync = (Err e, j) ∧ preparation_finish (preparation_advance n bp).2 = Err BFailedError) ∧
  (∀ report, (preparation_advance n bp).1 = Ok report →
     bpr_prepared_records report ≤ bp_prepared bp + n ∧ bpr_attempted_records report ≤ bp_attempted bp + n) ∧
  (len events ≤ n → ∀ j' bs,
     preparation_finish (preparation_advance n bp).2 = Ok (j', bs) ↔ sync = (Ok bs, j')).
Proof.
  intros Hreach Hty Hal Hn Hbegin sync bp. apply reached_wf in Hreach as (_ & Hwf & _).
  assert (preparation_inv j events blimits bp0) as Hinv0.
  { revert Hbegin. unfold journal_begin_append_batch. munfold_goal.
    destruct Hty as [? Hc Hr Hb].
    pose proof (encoder_new_spec j (len events) blimits Hwf Hc Hr Hb) as Hnew.
    destruct (encoder_new j (len events) blimits) as [en| |] eqn:E; [|done..]. intros [= <-].
    destruct Hnew as (_ & Hen & Hcount). split; simpl; try done; [lia|].
    split_and!; try done; [lia|]. unfold rest_of, journal_prepare_batch. rewrite E. done. }
  assert (preparation_inv j events blimits bp) as Hinv.
  { unfold bp. clear -Hinv0 Hal Hwf Hty. revert bp0 Hinv0.
    induction Hal as [|m allowances Hm _ IH]; intros bp0 Hinv0; simpl; [done|]. apply IH.
    pose proof (preparation_advance_ok j events blimits Hty m bp0 Hm Hinv0) as Ha.
    destruct (preparation_advance m bp0). apply Ha. }
  assert (∀ j' bs, journal_prepare_batch j events blimits = Ok (j', bs) ↔ sync = (Ok bs, j')) as Hsync.
  { intros j' bs. unfold sync, journal_append_batch. munfold_goal.
    destruct (journal_prepare_batch j events blimits) as [[c b]| |]; split; try done;
      by intros [= -> ->]. }
  assert (∀ bp', preparation_inv j events blimits bp' → ∀ j' bs,
    preparation_finish bp' = Ok (j', bs) → sync = (Ok bs, j')) as Hfin.
  { intros bp' Hinv' j' bs. unfold preparation_finish. pose proof (pi_state _ _ _ _ Hinv') as Hs.
    destruct (bp_stage bp'); [done| |done]. destruct Hs as (_ & _ & Ha). intros [= <- <-].
    apply Hsync. by rewrite Ha. }
  pose proof (preparation_advance_ok j events blimits Hty n bp Hn Hinv) as Hadv.
  destruct (preparation_advance n bp) as [out bp']. destruct Hadv as (Hinv' & Hnp & Herr & Hrep & Hall).
  split_and!; simpl; try done.
  - by apply Hfin.
  - intros e He. destruct (Herr e He) as [Ha Hst]. split.
    + unfold sync, journal_append_batch. munfold_goal. by rewrite Ha.
    + unfold preparation_finish. by rewrite Hst.
  - intros report Hr. by destruct (Hrep report Hr) as (-> & ? & ?).
  - intros Hlen j' bs. split; [by apply Hfin|]. intros Hs. apply Hsync in Hs.
    pose proof (pi_state _ _ _ _ Hinv') as Hst. unfold preparation_finish.
    specialize (Hall Hlen). destruct (bp_stage bp'); [done| |].
    + destruct Hst as (_ & _ & Ha). rewrite Ha in Hs. by injection Hs as <- <-.
    + destruct Hst as [e He]. by rewrite He in Hs.
Qed.

Lemma preparation_is_append_batch_witness :
  let j := example_journal None in
  ∃ bp0 bs j', journal_begin_append_batch j example_batch example_batch_limits = Ok bp0 ∧
    preparation_finish (preparation_run [0; 1; 1] bp0) = Ok (j', bs) ∧
    journal_append_batch example_batch example_batch_limits j = (Ok bs, j').
Proof.
  intros j.
  destruct (journal_begin_append_batch j example_batch example_batch_limits) as [bp0| |] eqn:E;
    [|vm_compute in E; discriminate..].
  assert (is_ok (preparation_finish (preparation_run [0; 1; 1] bp0)) = true) as Hok.
  { assert (is_ok (bp ← journal_begin_append_batch j example_batch example_batch_limits;
      map_err (λ _, JLimit) (preparation_finish (preparation_run [0; 1; 1] bp))) = true) as H
      by (vm_compute; reflexivity).
    rewrite E in H. simpl in H. by destruct (preparation_finish _). }
  destruct (preparation_finish (preparation_run [0; 1; 1] bp0)) as [[j' bs]| |] eqn:Ef; [|discriminate..].
  exists bp0, bs, j'. split; [reflexivity|]. split; [exact Ef|].
  refine (proj1 (preparation_is_append_batch _ _ _ j j [] example_batch example_batch_limits
    [0; 1; 1] 0 bp0 (example_reached None (or_introl eq_refl)) example_batch_typed _ _ E) j' bs Ef).
  - repeat constructor; lia.
  - lia.
Defined.
