(* ===== verification/Action.v ===== *)
(** * Actions, permits and the reference authority

    [crates/fa-reference/src/action.rs] and [action/retirement.rs]: an action
    is frozen once and compared by structure ever after; an authority drives
    each attempt through its stages, holding the units of the authorized ones
    in the rights ledger of [Rights.v], and hands out permits that only the
    issuing authority accepts.  The identity of the [Rc] that brands an
    authority's permits is a number supplied at construction. *)

From stdpp Require Import base tactics numbers list gmap sorting.
From S2P Require Import Prelude Bytes Decimal Judgment Rights.

Local Open Scope Z_scope.

(** ** Actions *)

Definition ACTION_VERSION : Z := 1.
Definition MAX_PAYLOAD_BYTES : Z := 65536.
Definition MAX_ATTEMPTS : Z := 1024.
Definition MAX_REQUIRED_WITNESSES : Z := 64.
Definition MAX_WITNESS_BYTES : Z := 65536.

(** [Purpose::Effect] is [EffectPurpose]: [Effect] is the ledger's record. *)
Inductive Purpose := EffectPurpose | Experiment.

#[global] Instance Purpose_eq_dec : EqDecision Purpose.
Proof. solve_decision. Defined.

Record Scope := mkScope {
  sc_tenant : Z;
  sc_principal : Z;
  sc_run : Z;
  sc_branch : Z;
  sc_authority : Z;
  sc_purpose : Purpose;
}.

#[global] Instance Scope_eq_dec : EqDecision Scope.
Proof. solve_decision. Defined.

(** [[..].contains(&0)] *)
Definition contains_zero (l : list Z) : bool := existsb (Z.eqb 0) l.

Definition scope_validate (self : Scope) : res Error unit :=
  refuse_if (contains_zero [sc_tenant self; sc_principal self; sc_run self;
                            sc_branch self; sc_authority self]) InvalidInput.

Record ResolvedTarget := mkResolvedTarget {
  rt_adapter : Z;
  rt_object : Z;
  rt_contract_version : Z;
  rt_expected_version : Z;
  rt_generation : Z;
}.

#[global] Instance ResolvedTarget_eq_dec : EqDecision ResolvedTarget.
Proof. solve_decision. Defined.

Record ActionSpec := mkActionSpec {
  sp_version : Z;
  sp_scope : Scope;
  sp_target : option ResolvedTarget;
  sp_payload : bytes;
  sp_required_witnesses : list ReadWitness;
  sp_policy_epoch : Z;
  sp_deadline : Z;
  sp_units : Z;
}.

#[global] Instance ActionSpec_eq_dec : EqDecision ActionSpec.
Proof. solve_decision. Defined.

Record FrozenAction := mkFrozenAction { spec : ActionSpec }.

#[global] Instance FrozenAction_eq_dec : EqDecision FrozenAction.
Proof. solve_decision. Defined.

(** The loop of [FrozenAction::freeze] over the required witnesses. *)
Fixpoint freeze_witnesses (witness_bytes : Z) (ws : list ReadWitness) : res Error unit :=
  match ws with
  | [] => Ok tt
  | Exact _ (Some value) :: ws =>
    witness_bytes ← ok_or (u64_checked_add witness_bytes (len value)) Limit;
    refuse_if (MAX_WITNESS_BYTES <? witness_bytes) Limit;;
    freeze_witnesses witness_bytes ws
  | EmptyRange start stop :: ws =>
    if stop <=? start then Err InvalidInput else freeze_witnesses witness_bytes ws
  | _ :: ws => freeze_witnesses witness_bytes ws
  end.

Definition freeze (spec : ActionSpec) : res Error FrozenAction :=
  scope_validate (sp_scope spec);;
  target ← ok_or (sp_target spec) Incomplete;
  refuse_if (negb (sp_version spec =? ACTION_VERSION) || (sp_units spec =? 0)
             || (sp_deadline spec =? 0)
             || contains_zero [rt_adapter target; rt_object target; rt_contract_version target;
                               rt_expected_version target; rt_generation target]) InvalidInput;;
  refuse_if (MAX_PAYLOAD_BYTES <? len (sp_payload spec)) Limit;;
  refuse_if (MAX_REQUIRED_WITNESSES <? len (sp_required_witnesses spec)) Limit;;
  freeze_witnesses 0 (sp_required_witnesses spec);;
  Ok (mkFrozenAction spec).

Definition frozen_effect (self : FrozenAction) : res Error Effect :=
  target ← expect (sp_target (spec self));
  Ok (mkEffect (u64_to_string (sc_principal (sp_scope (spec self))))
               (u64_to_string (rt_object target))
               (sp_payload (spec self)) (sp_units (spec self))).

(** ** The authority *)

(** [ActionState::Unknown] is [ActionUnknown]: [Unknown] is the ledger's state. *)
Inductive ActionState :=
  | Proposed
  | Prepared
  | Reviewing
  | Authorized
  | Dispatching
  | Confirmed
  | Denied
  | Cancelled
  | ActionUnknown
  | ConfirmedNotExecuted
  | IrrecoverablyUnknown.

#[global] Instance ActionState_eq_dec : EqDecision ActionState.
Proof. solve_decision. Defined.

Inductive TrustedOutcome := Executed | NotExecuted.

Record Inspection := mkInspection {
  in_available : Z;
  in_reserved : Z;
  in_charged : Z;
  in_epoch : Z;
  in_elapsed : option Z;
  in_stages : gmap Z ActionState;
}.

Record Attempt := mkAttempt {
  at_action : FrozenAction;
  at_stage : ActionState;
  at_judgment : option Judgment;
}.

Record Permit := mkPermit {
  pm_issuer : Z;
  pm_attempt : Z;
  pm_action : FrozenAction;
}.

Record ReferenceAuthority := mkReferenceAuthority {
  ra_scope : Scope;
  ra_total : Z;
  ra_max_attempts : Z;
  ra_elapsed : option Z;
  ra_issuer : Z;
  ra_rights : Rights;
  ra_attempts : gmap Z Attempt;
}.

Definition set_elapsed (t : Z) (a : ReferenceAuthority) : ReferenceAuthority :=
  mkReferenceAuthority (ra_scope a) (ra_total a) (ra_max_attempts a) (Some t)
    (ra_issuer a) (ra_rights a) (ra_attempts a).
Definition set_rights (r : Rights) (a : ReferenceAuthority) : ReferenceAuthority :=
  mkReferenceAuthority (ra_scope a) (ra_total a) (ra_max_attempts a) (ra_elapsed a)
    (ra_issuer a) r (ra_attempts a).
Definition set_attempts (m : gmap Z Attempt) (a : ReferenceAuthority) : ReferenceAuthority :=
  mkReferenceAuthority (ra_scope a) (ra_total a) (ra_max_attempts a) (ra_elapsed a)
    (ra_issuer a) (ra_rights a) m.

(** [self.rights.<call>?] *)
Definition on_rights {A} (m : st Rights Error A) : st ReferenceAuthority Error A :=
  zoom ra_rights set_rights (λ e, e) m.
(** Assignment through [self.attempts.get_mut(&id).expect("checked attempt")]. *)
Definition update_attempt (id : Z) (f : Attempt → Attempt) : st ReferenceAuthority Error unit :=
  self ← get;
  attempt ← lift (expect (ra_attempts self !! id));
  modify (set_attempts (<[id := f attempt]> (ra_attempts self))).
Definition set_stage (s : ActionState) (at_ : Attempt) : Attempt :=
  mkAttempt (at_action at_) s (at_judgment at_).

Definition authority_new (issuer : Z) (scope : Scope) (total max_attempts : Z)
    : res Error ReferenceAuthority :=
  scope_validate scope;;
  refuse_if (bool_decide (sc_purpose scope ≠ EffectPurpose)) Binding;;
  refuse_if ((total =? 0) || (max_attempts =? 0) || (MAX_ATTEMPTS <? max_attempts)) InvalidInput;;
  Ok (mkReferenceAuthority scope total max_attempts None issuer (rights_new total) ∅).

Definition observe_time (elapsed : Z) : st ReferenceAuthority Error unit :=
  self ← get;
  refuse_if (match ra_elapsed self with Some previous => elapsed <? previous | None => false end) Stale;;
  modify (set_elapsed elapsed).

Definition propose (id : Z) (action : FrozenAction) : st ReferenceAuthority Error unit :=
  self ← get;
  refuse_if (id =? 0) InvalidInput;;
  refuse_if (bool_decide (is_Some (ra_attempts self !! id))) Duplicate;;
  refuse_if (ra_max_attempts self <=? Z.of_nat (size (ra_attempts self))) Limit;;
  modify (set_attempts (<[id := mkAttempt action Proposed None]> (ra_attempts self))).

Definition validate_current (self : ReferenceAuthority) (action : FrozenAction) : res Error unit :=
  refuse_if (bool_decide (sp_scope (spec action) ≠ ra_scope self)
             || bool_decide (sc_purpose (sp_scope (spec action)) ≠ EffectPurpose)) Binding;;
  refuse_if (negb (sp_policy_epoch (spec action) =? r_epoch (ra_rights self))) Stale;;
  elapsed ← ok_or (ra_elapsed self) Incomplete;
  refuse_if (sp_deadline (spec action) <=? elapsed) Stale.

Definition attempt_at (self : ReferenceAuthority) (id : Z) (stage : ActionState) : res Error Attempt :=
  attempt ← ok_or (ra_attempts self !! id) Missing;
  refuse_if (bool_decide (at_stage attempt ≠ stage)) WrongState;;
  Ok attempt.

Definition prepare (id : Z) : st ReferenceAuthority Error unit :=
  self ← get;
  attempt ← lift (attempt_at self id Proposed);
  lift (validate_current self (at_action attempt));;
  update_attempt id (set_stage Prepared).

Definition begin_review (id : Z) : st ReferenceAuthority Error unit :=
  self ← get;
  lift (attempt_at self id Prepared);;
  update_attempt id (set_stage Reviewing).

Definition authorize (id : Z) (judgment : Judgment) (snapshot : Snapshot)
    : st ReferenceAuthority Error Permit :=
  self ← get;
  attempt ← lift (attempt_at self id Reviewing);
  lift (validate_current self (at_action attempt));;
  refuse_if (bool_decide (j_witnesses judgment
                          ≠ sp_required_witnesses (spec (at_action attempt)))) Binding;;
  valid ← lift (judgment_valid_at judgment snapshot);
  refuse_if (negb valid) Binding;;
  let action := at_action attempt in
  effect ← lift (frozen_effect action);
  on_rights (rights_reserve id effect);;
  update_attempt id (λ attempt, mkAttempt (at_action attempt) Authorized (Some judgment));;
  mret (mkPermit (ra_issuer self) id action).

Definition dispatch (permit : Permit) (final_action : FrozenAction) (snapshot : Snapshot)
    : st ReferenceAuthority Error unit :=
  self ← get;
  refuse_if (negb (ra_issuer self =? pm_issuer permit)) Binding;;
  attempt ← lift (attempt_at self (pm_attempt permit) Authorized);
  refuse_if (bool_decide (at_action attempt ≠ pm_action permit)
             || bool_decide (at_action attempt ≠ final_action)) Binding;;
  lift (validate_current self final_action);;
  judgment ← ok_or (at_judgment attempt) Incomplete;
  valid ← lift (judgment_valid_at judgment snapshot);
  refuse_if (negb valid) Binding;;
  effect ← lift (frozen_effect final_action);
  on_rights (rights_dispatch (pm_attempt permit) effect);;
  update_attempt (pm_attempt permit) (set_stage Dispatching).

Definition stop_before_dispatch (id : Z) (terminal : ActionState) : st ReferenceAuthority Error unit :=
  self ← get;
  attempt ← ok_or (ra_attempts self !! id) Missing;
  match at_stage attempt with
  | Authorized => on_rights (rights_abort_before_dispatch id)
  | Proposed | Prepared | Reviewing => mret tt
  | _ => mthrow WrongState
  end;;
  update_attempt id (set_stage terminal).

Definition cancel (id : Z) : st ReferenceAuthority Error unit := stop_before_dispatch id Cancelled.
Definition deny (id : Z) : st ReferenceAuthority Error unit := stop_before_dispatch id Denied.

Definition mark_unknown (id : Z) : st ReferenceAuthority Error unit :=
  self ← get;
  lift (attempt_at self id Dispatching);;
  on_rights (rights_mark_unknown id);;
  update_attempt id (set_stage ActionUnknown).

Definition record_trusted_outcome (id : Z) (outcome : TrustedOutcome) : st ReferenceAuthority Error unit :=
  self ← get;
  attempt ← ok_or (ra_attempts self !! id) Missing;
  refuse_if (negb (bool_decide (at_stage attempt = Dispatching)
                   || bool_decide (at_stage attempt = ActionUnknown))) WrongState;;
  on_rights (rights_reconcile id (match outcome with Executed => true | NotExecuted => false end));;
  update_attempt id (set_stage (match outcome with
                                | Executed => Confirmed
                                | NotExecuted => ConfirmedNotExecuted
                                end)).

Definition mark_irrecoverable (id : Z) : st ReferenceAuthority Error unit :=
  self ← get;
  lift (attempt_at self id ActionUnknown);;
  update_attempt id (set_stage IrrecoverablyUnknown).

Definition revoke_epoch : st ReferenceAuthority Error unit := on_rights rights_revoke_epoch.

(** [iter.sum::<u64>()]: an overflow aborts. *)
Definition u64_sum {E} (l : list Z) : res E Z := expect (u64_try_sum 0 l).

Definition inspect (self : ReferenceAuthority) : res Error Inspection :=
  reserved ← u64_sum ((λ a, sp_units (spec (at_action a))) <$>
    filter (λ a, at_stage a = Authorized) (map_values (ra_attempts self)));
  let available := r_available (ra_rights self) in
  rest ← u64_sub (ra_total self) available;
  charged ← u64_sub rest reserved;
  Ok (mkInspection available reserved charged (r_epoch (ra_rights self)) (ra_elapsed self)
        (at_stage <$> ra_attempts self)).

(** ** Retirement *)

Record RetiredAttempt := mkRetiredAttempt {
  rd_attempt : Z;
  rd_action : FrozenAction;
  rd_before : ActionState;
  rd_deadline_reached : bool;
  rd_epoch_revoked : bool;
  rd_refunded_units : Z;
}.

Record RetirementBatch := mkRetirementBatch {
  rb_elapsed : Z;
  rb_policy_epoch : Z;
  rb_retired : list RetiredAttempt;
  rb_refunded_units : Z;
}.

Record PendingRetirement := mkPendingRetirement {
  pr_rights : Rights;
  pr_report : RetirementBatch;
}.

Definition before_dispatch (s : ActionState) : bool :=
  match s with Proposed | Prepared | Reviewing | Authorized => true | _ => false end.

(** The refund of one retired attempt, and the ledger it leaves. *)
Definition retire_refund (id : Z) (attempt : Attempt) (rights : Rights) : res Error (Z * Rights) :=
  if bool_decide (at_stage attempt = Authorized) then
    reservation ← ok_or (r_reservations rights !! id) Missing;
    effect ← frozen_effect (at_action attempt);
    refuse_if (bool_decide (rv_state reservation ≠ Reserved)
               || negb (rv_epoch reservation =? sp_policy_epoch (spec (at_action attempt)))
               || bool_decide (rv_effect reservation ≠ effect)) WrongState;;
    rights ← exec (rights_abort_before_dispatch id) rights;
    Ok (sp_units (spec (at_action attempt)), rights)
  else
    refuse_if (bool_decide (is_Some (r_reservations rights !! id))) WrongState;;
    Ok (0, rights).

(** The loop of [prepare_retirement] over the attempts. *)
Fixpoint retire_loop (elapsed policy_epoch : Z) (attempts : list (Z * Attempt))
    (rights : Rights) (retired : list RetiredAttempt) (refunded_units : Z)
    : res Error (Rights * list RetiredAttempt * Z) :=
  match attempts with
  | [] => Ok (rights, retired, refunded_units)
  | (id, attempt) :: attempts =>
    if negb (before_dispatch (at_stage attempt)) then
      retire_loop elapsed policy_epoch attempts rights retired refunded_units
    else
      let s := spec (at_action attempt) in
      let deadline_reached := sp_deadline s <=? elapsed in
      let epoch_revoked := sp_policy_epoch s <? policy_epoch in
      if negb deadline_reached && negb epoch_revoked then
        retire_loop elapsed policy_epoch attempts rights retired refunded_units
      else
        '(refund, rights) ← retire_refund id attempt rights;
        refunded_units ← ok_or (u64_checked_add refunded_units refund) Overflow;
        retire_loop elapsed policy_epoch attempts rights
          (retired ++ [mkRetiredAttempt id (at_action attempt) (at_stage attempt)
                         deadline_reached epoch_revoked refund]) refunded_units
  end.

Definition prepare_retirement (self : ReferenceAuthority) : res Error PendingRetirement :=
  elapsed ← ok_or (ra_elapsed self) Incomplete;
  refuse_if (negb (rights_conserved (ra_rights self))) WrongState;;
  let policy_epoch := r_epoch (ra_rights self) in
  '(rights, retired, refunded_units) ←
    retire_loop elapsed policy_epoch (entries (ra_attempts self)) (ra_rights self) [] 0;
  refuse_if (negb (rights_conserved rights)
             || bool_decide (u64_checked_sub (r_available rights) (r_available (ra_rights self))
                             ≠ Some refunded_units)) WrongState;;
  Ok (mkPendingRetirement rights (mkRetirementBatch elapsed policy_epoch retired refunded_units)).

(** The loop of [apply_retirement] over the rows of the report. *)
Fixpoint apply_rows (rows : list RetiredAttempt) : st ReferenceAuthority Error unit :=
  match rows with
  | [] => mret tt
  | row :: rows =>
    update_attempt (rd_attempt row) (λ attempt, mkAttempt (at_action attempt) Cancelled None);;
    apply_rows rows
  end.

Definition apply_retirement (pending : PendingRetirement) : st ReferenceAuthority Error RetirementBatch :=
  modify (set_rights (pr_rights pending));;
  apply_rows (rb_retired (pr_report pending));;
  mret (pr_report pending).

Definition retire_invalidated : st ReferenceAuthority Error RetirementBatch :=
  self ← get;
  pending ← lift (prepare_retirement self);
  apply_retirement pending.

(** ** What freezing guarantees *)

(** The fields of a specification are in the range of their types. *)
Record spec_typed (s : ActionSpec) : Prop := {
  st_units : is_u64 (sp_units s);
  st_epoch : is_u64 (sp_policy_epoch s);
  st_deadline : is_u64 (sp_deadline s);
}.

(** Every [FrozenAction] a caller can hold came from [freeze]. *)
Definition frozen (action : FrozenAction) : Prop :=
  spec_typed (spec action) ∧ freeze (spec action) = Ok action.

Lemma frozen_effect_ok action :
  frozen action →
  ∃ effect, frozen_effect action = Ok effect ∧ ef_units effect = sp_units (spec action) ∧
    1 ≤ ef_units effect ≤ U64_MAX ∧ ef_principal effect ≠ [] ∧ ef_resolved_target effect ≠ [].
Proof.
  intros [[Hu _ _] Hf]. unfold freeze in Hf. unfold frozen_effect.
  destruct (sp_target (spec action)) as [target|]; munfold;
    [|by destruct (scope_validate _)].
  destruct (scope_validate _); [|done..]. split_match_in Hf; [done|].
  apply orb_false_iff in E as [[[_ Hz]%orb_false_iff _]%orb_false_iff _].
  apply Z.eqb_neq in Hz. unfold is_u64 in Hu.
  eexists. split; [done|]. simpl. split_and!; [done|lia|lia|apply u64_to_string_nonempty..].
Qed.

(** ** Coherence

    How the stage of an attempt determines the reservation the ledger holds
    under its identifier. *)

Definition held_as (at_ : Attempt) (s : State) (rv : option Reservation) : Prop :=
  ∃ effect, frozen_effect (at_action at_) = Ok effect ∧
    rv = Some (mkReservation effect (sp_policy_epoch (spec (at_action at_))) s).

Definition linked (at_ : Attempt) (rv : option Reservation) : Prop :=
  match at_stage at_ with
  | Proposed | Prepared | Reviewing => rv = None
  | Authorized => held_as at_ Reserved rv
  | Dispatching => held_as at_ Dispatched rv
  | ActionUnknown | IrrecoverablyUnknown => held_as at_ Unknown rv
  | Confirmed => held_as at_ Committed rv
  | ConfirmedNotExecuted => held_as at_ Aborted rv
  | Denied | Cancelled => rv = None ∨ held_as at_ Aborted rv
  end.

(** An authorized attempt keeps the judgment it was authorized with. *)
Definition judged (at_ : Attempt) : Prop :=
  at_stage at_ = Authorized →
  ∃ j, at_judgment at_ = Some j ∧ j_witnesses j = sp_required_witnesses (spec (at_action at_)).

Record coherent (a : ReferenceAuthority) : Prop := {
  co_rights : rights_wf (ra_rights a);
  co_total : r_total (ra_rights a) = ra_total a;
  co_size : Z.of_nat (size (ra_attempts a)) ≤ ra_max_attempts a;
  co_frozen : map_Forall (λ _ at_, frozen (at_action at_) ∧ judged at_) (ra_attempts a);
  co_linked : ∀ id at_, ra_attempts a !! id = Some at_ → linked at_ (r_reservations (ra_rights a) !! id);
  co_fresh : ∀ id, ra_attempts a !! id = None → r_reservations (ra_rights a) !! id = None;
}.

(** The units an attempt has reserved, and those it has charged. *)
Definition reserved_units (at_ : Attempt) : Z :=
  match at_stage at_ with Authorized => sp_units (spec (at_action at_)) | _ => 0 end.
Definition charged_units (at_ : Attempt) : Z :=
  match at_stage at_ with
  | Dispatching | ActionUnknown | IrrecoverablyUnknown | Confirmed => sp_units (spec (at_action at_))
  | _ => 0
  end.

(** One attempt and its reservation change; nothing else does. *)
Lemma coherent_update a id at_ at' r' elapsed :
  coherent a → ra_attempts a !! id = Some at_ →
  at_action at' = at_action at_ → judged at' →
  rights_wf r' → r_total r' = r_total (ra_rights a) →
  (∀ id', id' ≠ id → r_reservations r' !! id' = r_reservations (ra_rights a) !! id') →
  linked at' (r_reservations r' !! id) →
  coherent (mkReferenceAuthority (ra_scope a) (ra_total a) (ra_max_attempts a) elapsed
              (ra_issuer a) r' (<[id := at']> (ra_attempts a))).
Proof.
  intros [_ Ht Hsz Hfr Hl Hn] Hid Hact Hj Hwf Ht' Hoth Hlink.
  split; simpl; [done|congruence| | | |].
  - by rewrite map_size_insert_Some.
  - apply map_Forall_insert_2; [|done]. destruct (Hfr id at_ Hid) as [? _].
    rewrite Hact. by split.
  - intros id' at''. destruct (decide (id' = id)) as [->|].
    + rewrite lookup_insert_eq. by intros [= <-].
    + rewrite lookup_insert_ne, Hoth by done. apply Hl.
  - intros id'. destruct (decide (id' = id)) as [->|].
    + by rewrite lookup_insert_eq.
    + rewrite lookup_insert_ne, Hoth by done. apply Hn.
Qed.

(** ** Calls *)

Inductive authority_call :=
  | CallObserveTime (elapsed : Z)
  | CallPropose (id : Z) (action : FrozenAction)
  | CallPrepare (id : Z)
  | CallBeginReview (id : Z)
  | CallAuthorize (id : Z) (judgment : Judgment) (snapshot : Snapshot)
  | CallActionDispatch (permit : Permit) (final_action : FrozenAction) (snapshot : Snapshot)
  | CallCancel (id : Z)
  | CallDeny (id : Z)
  | CallActionUnknown (id : Z)
  | CallTrustedOutcome (id : Z) (outcome : TrustedOutcome)
  | CallIrrecoverable (id : Z)
  | CallRevoke
  | CallRetire.

Definition authority_step (c : authority_call) : st ReferenceAuthority Error unit :=
  match c with
  | CallObserveTime elapsed => observe_time elapsed
  | CallPropose id action => propose id action
  | CallPrepare id => prepare id
  | CallBeginReview id => begin_review id
  | CallAuthorize id judgment snapshot => authorize id judgment snapshot;; mret tt
  | CallActionDispatch permit final snapshot => dispatch permit final snapshot
  | CallCancel id => cancel id
  | CallDeny id => deny id
  | CallActionUnknown id => mark_unknown id
  | CallTrustedOutcome id outcome => record_trusted_outcome id outcome
  | CallIrrecoverable id => mark_irrecoverable id
  | CallRevoke => revoke_epoch
  | CallRetire => retire_invalidated;; mret tt
  end.

(** A proposed action is one that [freeze] returned. *)
Definition authority_call_typed (c : authority_call) : Prop :=
  match c with CallPropose _ action => frozen action | _ => True end.

Definition authority_run (calls : list authority_call) (a : ReferenceAuthority) : ReferenceAuthority :=
  foldl (λ a c, (authority_step c a).2) a calls.

(** The stage recorded for an identifier. *)
Definition stage_of (a : ReferenceAuthority) (id : Z) : option ActionState :=
  at_stage <$> ra_attempts a !! id.

(** What a successful call may do to the stage of one identifier. *)
Inductive stage_step (id : Z) : authority_call → option ActionState → option ActionState → Prop :=
  | StageSame c s : stage_step id c s s
  | StagePropose action : stage_step id (CallPropose id action) None (Some Proposed)
  | StagePrepare : stage_step id (CallPrepare id) (Some Proposed) (Some Prepared)
  | StageReview : stage_step id (CallBeginReview id) (Some Prepared) (Some Reviewing)
  | StageAuthorize j s : stage_step id (CallAuthorize id j s) (Some Reviewing) (Some Authorized)
  | StageDispatch permit final s : pm_attempt permit = id →
      stage_step id (CallActionDispatch permit final s) (Some Authorized) (Some Dispatching)
  | StageCancel s : before_dispatch s = true →
      stage_step id (CallCancel id) (Some s) (Some Cancelled)
  | StageDeny s : before_dispatch s = true → stage_step id (CallDeny id) (Some s) (Some Denied)
  | StageUnknown : stage_step id (CallActionUnknown id) (Some Dispatching) (Some ActionUnknown)
  | StageExecuted s : s = Dispatching ∨ s = ActionUnknown →
      stage_step id (CallTrustedOutcome id Executed) (Some s) (Some Confirmed)
  | StageNotExecuted s : s = Dispatching ∨ s = ActionUnknown →
      stage_step id (CallTrustedOutcome id NotExecuted) (Some s) (Some ConfirmedNotExecuted)
  | StageIrrecoverable :
      stage_step id (CallIrrecoverable id) (Some ActionUnknown) (Some IrrecoverablyUnknown)
  | StageRetire s : before_dispatch s = true →
      stage_step id CallRetire (Some s) (Some Cancelled).
#[export] Hint Constructors stage_step : fa.

(** What every call guarantees on a coherent authority. *)
Record action_sound (c : authority_call) (a : ReferenceAuthority) (out : res Error unit)
    (a' : ReferenceAuthority) : Prop := {
  as_coherent : coherent a';
  as_no_panic : out ≠ Panic;
  as_atomic : ∀ e, out = Err e → a' = a;
  as_scope : ra_scope a' = ra_scope a ∧ ra_total a' = ra_total a ∧
    ra_max_attempts a' = ra_max_attempts a ∧ ra_issuer a' = ra_issuer a;
  as_epoch : r_epoch (ra_rights a) ≤ r_epoch (ra_rights a');
  as_actions : ∀ id at_, ra_attempts a !! id = Some at_ →
    ∃ at', ra_attempts a' !! id = Some at' ∧ at_action at' = at_action at_;
  as_stage : ∀ id, stage_step id c (stage_of a id) (stage_of a' id);
}.

Lemma action_refused c a e : coherent a → action_sound c a (Err e) a.
Proof. intros Hco. split; try done; eauto. constructor. Qed.

Ltac a_refused := apply action_refused; done.

(** A successful call that moves one attempt along an edge of its life. *)
Lemma action_moved c a id at_ at' r' :
  coherent a → ra_attempts a !! id = Some at_ →
  at_action at' = at_action at_ → judged at' →
  rights_wf r' → r_total r' = r_total (ra_rights a) → r_epoch (ra_rights a) ≤ r_epoch r' →
  (∀ id', id' ≠ id → r_reservations r' !! id' = r_reservations (ra_rights a) !! id') →
  linked at' (r_reservations r' !! id) →
  stage_step id c (Some (at_stage at_)) (Some (at_stage at')) →
  action_sound c a (Ok tt)
    (mkReferenceAuthority (ra_scope a) (ra_total a) (ra_max_attempts a) (ra_elapsed a)
              (ra_issuer a) r' (<[id := at']> (ra_attempts a))).
Proof.
  intros Hco Hid Hact Hj Hwf Ht He Hoth Hl Hst. split; simpl; try done.
  - by eapply coherent_update.
  - intros id' at''. destruct (decide (id' = id)) as [->|].
    + rewrite lookup_insert_eq, Hid. intros [= <-]. eauto.
    + rewrite lookup_insert_ne by done. eauto.
  - intros id'. unfold stage_of. simpl. destruct (decide (id' = id)) as [->|].
    + by rewrite lookup_insert_eq, Hid.
    + rewrite lookup_insert_ne by done. constructor.
Qed.

(** The ledger is untouched. *)
Lemma action_moved_same c a id at_ at' :
  coherent a → ra_attempts a !! id = Some at_ →
  at_action at' = at_action at_ → judged at' →
  linked at' (r_reservations (ra_rights a) !! id) →
  stage_step id c (Some (at_stage at_)) (Some (at_stage at')) →
  action_sound c a (Ok tt) (set_attempts (<[id := at']> (ra_attempts a)) a).
Proof. intros Hco ?????. pose proof (co_rights a Hco). by eapply action_moved. Qed.

(** ** Every call but retirement *)

(** Decides the next guard of a handler. *)
Ltac next_guard :=
  match goal with
  | |- context [(if ?b then _ else _) ?a] => let E := fresh "E" in destruct b eqn:E; cbv beta iota
  end.

(** Evaluates the guards a handler starts with. *)
Ltac attempt_guard a id at_ Hid Hst :=
  unfold attempt_at; munfold_goal;
  destruct (ra_attempts a !! id) as [at_|] eqn:Hid; [|a_refused];
  case_bool_decide as Hst; [a_refused|]; simpl.

(** What coherence says about one recorded attempt. *)
Lemma coherent_lookup a id at_ :
  coherent a → ra_attempts a !! id = Some at_ →
  frozen (at_action at_) ∧ judged at_ ∧ linked at_ (r_reservations (ra_rights a) !! id).
Proof. intros [_ _ _ Hfr Hl _] Hid. destruct (Hfr id at_ Hid). eauto. Qed.

Lemma validate_current_outcome self action :
  validate_current self action = Ok tt ∨ ∃ e, validate_current self action = Err e.
Proof. unfold validate_current. munfold_goal. repeat split_match; eauto. Qed.

Lemma judged_other at_ : at_stage at_ ≠ Authorized → judged at_.
Proof. by intros ??. Qed.
#[export] Hint Resolve judged_other : fa.

Lemma observe_time_sound elapsed a :
  coherent a →
  let '(out, a') := observe_time elapsed a in action_sound (CallObserveTime elapsed) a out a'.
Proof.
  intros Hco. unfold observe_time. munfold_goal. next_guard; [a_refused|].
  destruct Hco. split; try done; eauto. constructor.
Qed.

Lemma propose_sound id action a :
  coherent a → frozen action →
  let '(out, a') := propose id action a in action_sound (CallPropose id action) a out a'.
Proof.
  intros Hco Hf. unfold propose. munfold_goal. next_guard; [a_refused|].
  case_bool_decide as Hid; [a_refused|]. apply eq_None_not_Some in Hid.
  destruct (Z.leb_spec (ra_max_attempts a) (Z.of_nat (size (ra_attempts a)))); [a_refused|].
  pose proof (co_fresh a Hco id Hid) as Hnone.
  destruct Hco as [Hwf Ht Hsz Hfr Hl Hn]. split; simpl; try done.
  - split; simpl; try done.
    + rewrite map_size_insert_None by done. lia.
    + apply map_Forall_insert_2; [split; [done|]|done]. by apply judged_other.
    + intros id' at_. destruct (decide (id' = id)) as [->|];
        rewrite ?lookup_insert_eq, ?lookup_insert_ne by done; [by intros [= <-]|apply Hl].
    + intros id'. destruct (decide (id' = id)) as [->|];
        rewrite ?lookup_insert_eq, ?lookup_insert_ne by done; [done|apply Hn].
  - intros id' at_ Hid'. exists at_. by rewrite lookup_insert_ne by congruence.
  - intros id'. unfold stage_of. simpl. destruct (decide (id' = id)) as [->|].
    + rewrite lookup_insert_eq, Hid. constructor.
    + rewrite lookup_insert_ne by done. constructor.
Qed.

Lemma prepare_sound id a :
  coherent a →
  let '(out, a') := prepare id a in action_sound (CallPrepare id) a out a'.
Proof.
  intros Hco. unfold prepare, update_attempt. attempt_guard a id at_ Hid Hst.
  destruct (validate_current_outcome a (at_action at_)) as [->|[e ->]]; [|a_refused].
  destruct (coherent_lookup a id at_ Hco Hid) as (_ & _ & Hl).
  unfold linked in Hl. rewrite Hst in Hl.
  apply (action_moved_same _ _ _ at_); auto with fa. simpl. rewrite Hst. constructor.
Qed.

Lemma begin_review_sound id a :
  coherent a →
  let '(out, a') := begin_review id a in action_sound (CallBeginReview id) a out a'.
Proof.
  intros Hco. unfold begin_review, update_attempt. attempt_guard a id at_ Hid Hst.
  destruct (coherent_lookup a id at_ Hco Hid) as (_ & _ & Hl).
  unfold linked in Hl. rewrite Hst in Hl.
  apply (action_moved_same _ _ _ at_); auto with fa. simpl. rewrite Hst. constructor.
Qed.

Lemma mark_irrecoverable_sound id a :
  coherent a →
  let '(out, a') := mark_irrecoverable id a in action_sound (CallIrrecoverable id) a out a'.
Proof.
  intros Hco. unfold mark_irrecoverable, update_attempt. attempt_guard a id at_ Hid Hst.
  destruct (coherent_lookup a id at_ Hco Hid) as (_ & _ & Hl).
  unfold linked in Hl. rewrite Hst in Hl.
  apply (action_moved_same _ _ _ at_); auto with fa. simpl. rewrite Hst. constructor.
Qed.

(** *** The calls that settle a reservation

    [rights_step_sound] gives the ledger's side; what is added is where the
    reservation ends. *)

Lemma rights_reserve_eq id effect r :
  r_reservations r !! id = None → ef_units effect ≠ 0 →
  ef_principal effect ≠ [] → ef_resolved_target effect ≠ [] →
  rights_reserve id effect r =
    if r_available r <? ef_units effect then (Err Limit, r)
    else (Ok tt, mkRights (r_total r) (r_available r - ef_units effect) (r_spent r) (r_epoch r)
                   (r_incident_count r)
                   (<[id := mkReservation effect (r_epoch r) Reserved]> (r_reservations r))).
Proof.
  intros Hid Hu Hp Ht. unfold rights_reserve, u64_sub. munfold_goal. rewrite Hid.
  rewrite bool_decide_eq_false_2 by (by intros [? ?]).
  assert ((ef_units effect =? 0) || bytes_is_empty (ef_principal effect)
    || bytes_is_empty (ef_resolved_target effect) = false) as ->.
  { apply Z.eqb_neq in Hu. rewrite Hu. by destruct (ef_principal _), (ef_resolved_target _). }
  destruct (Z.ltb_spec (r_available r) (ef_units effect)); [done|].
  by destruct (Z.leb_spec (ef_units effect) (r_available r)); [|lia].
Qed.

(** The ledger after the reservation of [id] moved to [s]. *)
Definition moved_rights (r : Rights) (id : Z) (rv : Reservation) (s : State) (available spent : Z) : Rights :=
  mkRights (r_total r) available spent (r_epoch r) (r_incident_count r)
    (<[id := set_state s rv]> (r_reservations r)).

Lemma rights_dispatch_eq id rv r :
  r_reservations r !! id = Some rv → rv_state rv = Reserved → rv_epoch rv = r_epoch r →
  rights_dispatch id (rv_effect rv) r =
    (Ok tt, moved_rights r id rv Dispatched (r_available r) (r_spent r)).
Proof.
  intros Hid Hs He. unfold rights_dispatch. munfold_goal. rewrite Hid, Hs, He, Z.eqb_refl. simpl.
  by rewrite bool_decide_eq_false_2 by auto.
Qed.

Lemma rights_mark_unknown_eq id rv r :
  r_reservations r !! id = Some rv → rv_state rv = Dispatched →
  rights_mark_unknown id r = (Ok tt, moved_rights r id rv Unknown (r_available r) (r_spent r)).
Proof. intros Hid Hs. unfold rights_mark_unknown. munfold_goal. by rewrite Hid, Hs. Qed.

Lemma rights_abort_eq id rv r :
  rights_wf r → r_reservations r !! id = Some rv → rv_state rv = Reserved →
  rights_abort_before_dispatch id r =
    (Ok tt, moved_rights r id rv Aborted (r_available r + ef_units (rv_effect rv)) (r_spent r)).
Proof.
  intros Hwf Hid Hs. unfold rights_abort_before_dispatch. munfold_goal. rewrite Hid, Hs. simpl.
  destruct (held_fits r id rv Hwf Hid) as (_ & ? & _); [by rewrite Hs|].
  by rewrite u64_checked_add_fits.
Qed.

Lemma rights_reconcile_eq id rv r (occurred : bool) :
  rights_wf r → r_reservations r !! id = Some rv → rv_state rv = Dispatched ∨ rv_state rv = Unknown →
  rights_reconcile id occurred r =
    (Ok tt, if occurred
            then moved_rights r id rv Committed (r_available r) (r_spent r + ef_units (rv_effect rv))
            else moved_rights r id rv Aborted (r_available r + ef_units (rv_effect rv)) (r_spent r)).
Proof.
  intros Hwf Hid Hs. unfold rights_reconcile. munfold_goal. rewrite Hid.
  destruct (held_fits r id rv Hwf Hid) as (_ & ? & ?); [by destruct Hs as [-> | ->]|].
  assert (negb (bool_decide (rv_state rv = Dispatched) || bool_decide (rv_state rv = Unknown)) = false) as ->
    by (by destruct Hs as [-> | ->]).
  by destruct occurred; rewrite u64_checked_add_fits.
Qed.

(** The common case of an attempt whose reservation moves with it. *)
Lemma action_settled c a id at_ at' rv s rc available spent :
  coherent a → ra_attempts a !! id = Some at_ →
  r_reservations (ra_rights a) !! id = Some rv →
  at_action at' = at_action at_ → judged at' →
  rights_step rc (ra_rights a) = (Ok tt, moved_rights (ra_rights a) id rv s available spent) →
  rights_call_typed rc →
  linked at' (Some (set_state s rv)) →
  stage_step id c (Some (at_stage at_)) (Some (at_stage at')) →
  action_sound c a (Ok tt)
    (set_attempts (<[id := at']> (ra_attempts a))
      (set_rights (moved_rights (ra_rights a) id rv s available spent) a)).
Proof.
  intros Hco Hid Hrv Hact Hj Hstep Hty Hl Hst.
  pose proof (rights_step_sound rc (ra_rights a) (co_rights a Hco) Hty) as Hs.
  rewrite Hstep in Hs. destruct Hs as [Hwf' _ _ _ Ht' He' _ _ _].
  unfold set_attempts, set_rights. simpl. eapply action_moved; try done; simpl.
  - intros id' Hne. by rewrite lookup_insert_ne.
  - by rewrite lookup_insert_eq.
Qed.

Lemma judgment_valid_at_no_panic j s : judgment_valid_at j s ≠ Panic.
Proof.
  unfold judgment_valid_at. do 2 (case_match; [done|]).
  by destruct (witnesses_valid_outcomes (s_values s) (j_witnesses j)) as [->|[->| ->]].
Qed.

(** [validate_current], as a condition. *)
Definition current (self : ReferenceAuthority) (action : FrozenAction) : Prop :=
  sp_scope (spec action) = ra_scope self ∧ sc_purpose (ra_scope self) = EffectPurpose ∧
  sp_policy_epoch (spec action) = r_epoch (ra_rights self) ∧
  ∃ elapsed, ra_elapsed self = Some elapsed ∧ elapsed < sp_deadline (spec action).

Lemma validate_current_ok self action :
  validate_current self action = Ok tt ↔ current self action.
Proof.
  unfold validate_current, current. munfold_goal.
  destruct (_ || _) eqn:E.
  - split; [done|]. intros (Hs & Hp & _). revert E. rewrite orb_true_iff, !bool_decide_eq_true.
    rewrite Hs. naive_solver.
  - rewrite orb_false_iff, !bool_decide_eq_false in E. destruct E as [E1%dec_stable E2%dec_stable].
    destruct (Z.eqb_spec (sp_policy_epoch (spec action)) (r_epoch (ra_rights self))); simpl.
    + destruct (ra_elapsed self) as [t|]; [|naive_solver].
      destruct (Z.leb_spec (sp_deadline (spec action)) t); split; try done; intros.
      * destruct_and?. match goal with H : ∃ _, _ |- _ => destruct H as (? & ? & ?) end. simplify_eq. lia.
      * split_and!; [done|congruence|done|eauto].
    + split; [done|]. naive_solver.
Qed.

(** Everything an authorization checks, and the attempt it authorizes. *)
Definition authorizable (a : ReferenceAuthority) (id : Z) (j : Judgment) (s : Snapshot) (at_ : Attempt) : Prop :=
  ra_attempts a !! id = Some at_ ∧ at_stage at_ = Reviewing ∧ current a (at_action at_) ∧
  j_witnesses j = sp_required_witnesses (spec (at_action at_)) ∧
  judgment_valid_at j s = Ok true ∧
  sp_units (spec (at_action at_)) ≤ r_available (ra_rights a).

Definition authorized_rights (r : Rights) (id : Z) (effect : Effect) : Rights :=
  mkRights (r_total r) (r_available r - ef_units effect) (r_spent r) (r_epoch r) (r_incident_count r)
    (<[id := mkReservation effect (r_epoch r) Reserved]> (r_reservations r)).

(** [authorize] either refuses without an effect or performs the whole step. *)
Lemma authorize_outcome id j s a :
  coherent a →
  (∃ e, authorize id j s a = (Err e, a) ∧ ¬ ∃ at_, authorizable a id j s at_) ∨
  (∃ at_ effect, authorizable a id j s at_ ∧ frozen_effect (at_action at_) = Ok effect ∧
    rights_reserve id effect (ra_rights a) = (Ok tt, authorized_rights (ra_rights a) id effect) ∧
    authorize id j s a = (Ok (mkPermit (ra_issuer a) id (at_action at_)),
      set_attempts (<[id := mkAttempt (at_action at_) Authorized (Some j)]> (ra_attempts a))
        (set_rights (authorized_rights (ra_rights a) id effect) a))).
Proof.
  intros Hco. unfold authorize, on_rights, update_attempt, attempt_at, authorizable. munfold_goal.
  destruct (ra_attempts a !! id) as [at_|] eqn:Hid; [|left; naive_solver].
  case_bool_decide as Hst; [left; naive_solver|]. simpl.
  destruct (coherent_lookup a id at_ Hco Hid) as (Hf & _ & Hl).
  destruct (validate_current_outcome a (at_action at_)) as [Hv|[e Hv]]; rewrite Hv;
    [|left; exists e; split; [done|]; intros (? & [= <-] & _ & Hc%validate_current_ok & _); congruence].
  apply validate_current_ok in Hv.
  case_bool_decide as Hw; [left; naive_solver|]. simpl.
  pose proof (judgment_valid_at_no_panic j s).
  destruct (judgment_valid_at j s) as [[]|e|] eqn:Hj; [|left; naive_solver..|done].
  destruct (frozen_effect_ok (at_action at_) Hf) as (effect & He & Hu & Hu1 & Hp & Ht). rewrite He. simpl.
  unfold linked in Hl. rewrite Hst in Hl. rewrite rights_reserve_eq by (done || lia).
  destruct (Z.ltb_spec (r_available (ra_rights a)) (ef_units effect)).
  - left. exists Limit. split; [by destruct a|]. intros (? & [= <-] & _ & _ & _ & _ & ?). lia.
  - right. exists at_, effect. split_and!; try done; [lia| |].
    + rewrite rights_reserve_eq by (done || lia).
      by destruct (Z.ltb_spec (r_available (ra_rights a)) (ef_units effect)); [lia|].
    + cbn [ra_attempts set_rights]. by rewrite Hid.
Qed.

Lemma authorize_sound id j s a :
  coherent a →
  let '(out, a') := (authorize id j s;; mret tt) a in action_sound (CallAuthorize id j s) a out a'.
Proof.
  intros Hco. munfold_goal.
  destruct (authorize_outcome id j s a Hco) as [(e & -> & _)|(at_ & effect & Hok & He & Hr & ->)]; [a_refused|].
  destruct Hok as (Hid & Hst & (_ & _ & Hep & _) & Hw & _ & _).
  destruct (coherent_lookup a id at_ Hco Hid) as (Hf & _ & _).
  destruct (frozen_effect_ok (at_action at_) Hf) as (effect' & He' & _ & Hu & _).
  assert (effect' = effect) as -> by congruence.
  pose proof (rights_reserve_sound id effect (ra_rights a) (co_rights a Hco)) as Hs.
  rewrite Hr in Hs. destruct Hs as [Hwf' _ _ _ Ht' He'' _ _ _]; [unfold is_u64; lia|].
  unfold set_attempts, set_rights. simpl. eapply action_moved; try done; simpl.
  - intros _. eauto.
  - intros id' Hne. by rewrite lookup_insert_ne.
  - rewrite lookup_insert_eq. exists effect. simpl. by rewrite Hep.
  - rewrite Hst. constructor.
Qed.

(** Everything a dispatch checks, and the attempt it dispatches. *)
Definition dispatchable (a : ReferenceAuthority) (permit : Permit) (final_action : FrozenAction)
    (s : Snapshot) (at_ : Attempt) : Prop :=
  pm_issuer permit = ra_issuer a ∧
  ra_attempts a !! pm_attempt permit = Some at_ ∧ at_stage at_ = Authorized ∧
  pm_action permit = at_action at_ ∧ final_action = at_action at_ ∧ current a final_action ∧
  ∃ j, at_judgment at_ = Some j ∧ judgment_valid_at j s = Ok true.

Lemma dispatch_outcome permit final s a :
  coherent a →
  (∃ e, dispatch permit final s a = (Err e, a) ∧ ¬ ∃ at_, dispatchable a permit final s at_) ∨
  (∃ at_ rv, dispatchable a permit final s at_ ∧
    r_reservations (ra_rights a) !! pm_attempt permit = Some rv ∧
    held_as at_ Reserved (Some rv) ∧
    rights_dispatch (pm_attempt permit) (rv_effect rv) (ra_rights a) =
      (Ok tt, moved_rights (ra_rights a) (pm_attempt permit) rv Dispatched
                (r_available (ra_rights a)) (r_spent (ra_rights a))) ∧
    dispatch permit final s a = (Ok tt,
      set_attempts (<[pm_attempt permit := set_stage Dispatching at_]> (ra_attempts a))
        (set_rights (moved_rights (ra_rights a) (pm_attempt permit) rv Dispatched
                (r_available (ra_rights a)) (r_spent (ra_rights a))) a))).
Proof.
  intros Hco. unfold dispatch, on_rights, update_attempt, attempt_at, dispatchable. munfold_goal.
  destruct (Z.eqb_spec (ra_issuer a) (pm_issuer permit)); simpl; [|left; naive_solver].
  destruct (ra_attempts a !! pm_attempt permit) as [at_|] eqn:Hid; [|left; naive_solver].
  case_bool_decide as Hst; [left; naive_solver|]. simpl.
  destruct (coherent_lookup a _ at_ Hco Hid) as (Hf & Hjd & Hl).
  case_bool_decide as Hp; simpl; [left; naive_solver|].
  case_bool_decide as Hfa; simpl; [left; naive_solver|]. subst final.
  destruct (validate_current_outcome a (at_action at_)) as [Hv|[err Hv]]; rewrite Hv;
    [|left; exists err; split; [done|]; intros (? & _ & [= <-] & _ & _ & _ & Hc%validate_current_ok & _); congruence].
  apply validate_current_ok in Hv. destruct (Hjd Hst) as (j & Hj & _). rewrite Hj.
  pose proof (judgment_valid_at_no_panic j s).
  destruct (judgment_valid_at j s) as [[]|err|] eqn:Hjv;
    [|left; eexists; (split; [reflexivity|]); intros (? & _ & [= <-] & _ & _ & _ & _ & ? & ? & ?); congruence..|done].
  unfold linked in Hl. rewrite Hst in Hl. destruct Hl as (effect & He & Hrv). rewrite He. simpl.
  right. exists at_, (mkReservation effect (sp_policy_epoch (spec (at_action at_))) Reserved).
  pose proof (rights_dispatch_eq _ _ _ Hrv eq_refl) as Hd. simpl in Hd.
  rewrite Hd by (by destruct Hv as (_ & _ & ? & _)).
  cbn [ra_attempts set_rights]. rewrite Hid. split_and!; try done; [eauto|by exists effect|apply Hd; by destruct Hv as (_ & _ & ? & _)].
Qed.

Lemma held_as_moved at_ at' s s' rv :
  held_as at_ s (Some rv) → at_action at' = at_action at_ → held_as at' s' (Some (set_state s' rv)).
Proof. intros (effect & He & [= ->]) Hact. exists effect. by rewrite Hact. Qed.

Lemma dispatch_sound permit final s a :
  coherent a →
  let '(out, a') := dispatch permit final s a in action_sound (CallActionDispatch permit final s) a out a'.
Proof.
  intros Hco.
  destruct (dispatch_outcome permit final s a Hco) as [(e & -> & _)|(at_ & rv & Hok & Hrv & Hl & Hr & ->)];
    [a_refused|].
  destruct Hok as (_ & Hid & Hst & _).
  eapply (action_settled _ _ _ at_ _ rv _ (CallDispatch (pm_attempt permit) (rv_effect rv))); try done.
  - unfold linked. simpl. by eapply held_as_moved.
  - simpl. rewrite Hst. by constructor.
Qed.

Lemma stop_sound id terminal c a :
  coherent a → terminal = Cancelled ∨ terminal = Denied →
  (∀ s, before_dispatch s = true → stage_step id c (Some s) (Some terminal)) →
  let '(out, a') := stop_before_dispatch id terminal a in action_sound c a out a'.
Proof.
  intros Hco Hterm Hc. unfold stop_before_dispatch, on_rights, update_attempt. munfold_goal.
  destruct (ra_attempts a !! id) as [at_|] eqn:Hid; [|a_refused].
  destruct (coherent_lookup a id at_ Hco Hid) as (Hf & _ & Hl).
  assert (judged (set_stage terminal at_)) by (apply judged_other; by destruct Hterm as [-> | ->]).
  unfold linked in Hl. destruct (at_stage at_) eqn:Hst; try a_refused; simpl.
  1-3: rewrite Hid; apply (action_moved_same _ _ _ at_); try done;
    [unfold linked; simpl; destruct Hterm as [-> | ->]; by left|rewrite Hst; by apply Hc].
  destruct Hl as (effect & He & Hrv). rewrite (rights_abort_eq _ _ _ (co_rights a Hco) Hrv) by done.
  simpl. rewrite Hid.
  eapply (action_settled _ _ _ at_ _ _ _ (CallAbortBeforeDispatch id)); try done.
  - simpl. by rewrite (rights_abort_eq _ _ _ (co_rights a Hco) Hrv).
  - unfold linked. simpl. destruct Hterm as [-> | ->]; right; by exists effect.
  - simpl. rewrite Hst. by apply Hc.
Qed.

Lemma mark_unknown_sound id a :
  coherent a →
  let '(out, a') := mark_unknown id a in action_sound (CallActionUnknown id) a out a'.
Proof.
  intros Hco. unfold mark_unknown, on_rights, update_attempt. attempt_guard a id at_ Hid Hst.
  destruct (coherent_lookup a id at_ Hco Hid) as (_ & _ & Hl). unfold linked in Hl. rewrite Hst in Hl.
  destruct Hl as (effect & He & Hrv). rewrite (rights_mark_unknown_eq _ _ _ Hrv) by done. simpl. rewrite Hid.
  eapply (action_settled _ _ _ at_ _ _ _ (CallMarkUnknown id)); try done.
  - simpl. by rewrite (rights_mark_unknown_eq _ _ _ Hrv).
  - unfold linked. simpl. by exists effect.
  - simpl. rewrite Hst. constructor.
Qed.

Lemma record_trusted_outcome_sound id outcome a :
  coherent a →
  let '(out, a') := record_trusted_outcome id outcome a in
  action_sound (CallTrustedOutcome id outcome) a out a'.
Proof.
  intros Hco. unfold record_trusted_outcome, on_rights, update_attempt. munfold_goal.
  destruct (ra_attempts a !! id) as [at_|] eqn:Hid; [|a_refused].
  destruct (negb _) eqn:Hneg; [a_refused|].
  assert (at_stage at_ = Dispatching ∨ at_stage at_ = ActionUnknown) as Hst.
  { apply negb_false_iff, orb_true_iff in Hneg. by rewrite !bool_decide_eq_true in Hneg. }
  destruct (coherent_lookup a id at_ Hco Hid) as (_ & _ & Hl).
  assert (∃ s, (s = Dispatched ∨ s = Unknown) ∧ held_as at_ s (r_reservations (ra_rights a) !! id))
    as (s & Hs & effect & He & Hrv).
  { unfold linked in Hl. destruct Hst as [Hst|Hst]; rewrite Hst in Hl; eauto. }
  rewrite (rights_reconcile_eq _ _ _ _ (co_rights a Hco) Hrv) by done. simpl.
  destruct outcome; simpl; rewrite Hid;
    [eapply (action_settled _ _ _ at_ _ _ _ (CallReconcile id true))
    |eapply (action_settled _ _ _ at_ _ _ _ (CallReconcile id false))]; try done;
    first [ simpl; by rewrite (rights_reconcile_eq _ _ _ _ (co_rights a Hco) Hrv)
          | unfold linked; simpl; by exists effect
          | by constructor ].
Qed.

Lemma revoke_epoch_sound a :
  coherent a → let '(out, a') := revoke_epoch a in action_sound CallRevoke a out a'.
Proof.
  intros Hco. unfold revoke_epoch, on_rights, zoom.
  pose proof (rights_revoke_epoch_sound (ra_rights a) (co_rights a Hco)) as Hs.
  unfold rights_revoke_epoch, u64_checked_add in *. munfold_goal. munfold.
  destruct (_ <=? _); simpl in *; [|destruct a; a_refused].
  destruct Hs as [Hwf' _ _ _ Ht' He' _ _ _]. destruct Hco as [Hwf Ht Hsz Hfr Hl Hn].
  split; simpl; try done; eauto; first [by constructor|split; simpl; congruence || done].
Qed.

(** ** Retirement *)

Definition deadline_reached (elapsed : Z) (at_ : Attempt) : bool :=
  sp_deadline (spec (at_action at_)) <=? elapsed.
Definition epoch_revoked (policy_epoch : Z) (at_ : Attempt) : bool :=
  sp_policy_epoch (spec (at_action at_)) <? policy_epoch.

Section retirement.
Context (elapsed policy_epoch : Z).

(** The attempts a retirement takes, the row it reports for each, and what it
    leaves of them. *)
Definition invalidated (at_ : Attempt) : Prop :=
  before_dispatch (at_stage at_) = true ∧
  (deadline_reached elapsed at_ = true ∨ epoch_revoked policy_epoch at_ = true).
#[global] Instance invalidated_dec at_ : Decision (invalidated at_).
Proof. unfold invalidated. apply _. Defined.

Definition retired_row (p : Z * Attempt) : RetiredAttempt :=
  mkRetiredAttempt p.1 (at_action p.2) (at_stage p.2)
    (deadline_reached elapsed p.2) (epoch_revoked policy_epoch p.2) (reserved_units p.2).

Definition retired_attempt (at_ : Attempt) : Attempt :=
  if decide (invalidated at_) then mkAttempt (at_action at_) Cancelled None else at_.

Definition selected (attempts : list (Z * Attempt)) : list (Z * Attempt) :=
  filter (λ p, invalidated p.2) attempts.

(** The refunds of the selected attempts. *)
Definition refunds (attempts : list (Z * Attempt)) : Z :=
  sumZ ((λ p, reserved_units p.2) <$> selected attempts).

(** How the ledger before and after a retirement of these attempts compare. *)
Record ledger_retired (attempts : list (Z * Attempt)) (r r' : Rights) : Prop := {
  lr_wf : rights_wf r';
  lr_total : r_total r' = r_total r;
  lr_available : r_available r' = r_available r + refunds attempts;
  lr_spent : r_spent r' = r_spent r;
  lr_epoch : r_epoch r' = r_epoch r;
  lr_incident : r_incident_count r' = r_incident_count r;
  lr_selected : ∀ id at_, (id, at_) ∈ attempts → invalidated at_ → at_stage at_ = Authorized →
    r_reservations r' !! id = set_state Aborted <$> r_reservations r !! id;
  lr_other : ∀ id, (∀ at_, (id, at_) ∈ attempts → ¬ (invalidated at_ ∧ at_stage at_ = Authorized)) →
    r_reservations r' !! id = r_reservations r !! id;
}.

Lemma ledger_retired_refl attempts r :
  rights_wf r → (∀ p, p ∈ attempts → ¬ (invalidated p.2 ∧ at_stage p.2 = Authorized)) →
  refunds attempts = 0 → ledger_retired attempts r r.
Proof.
  intros Hwf Hno Hz. split; try done; [lia|]. intros id at_ Hin ??. by destruct (Hno (id, at_)).
Qed.

Lemma selected_cons p attempts :
  selected (p :: attempts) =
    if decide (invalidated p.2) then p :: selected attempts else selected attempts.
Proof. unfold selected. rewrite filter_cons. by repeat case_decide. Qed.

(** The ledger before and after the refund of one attempt. *)
Record ledger_refunded (id : Z) (at_ : Attempt) (r r' : Rights) : Prop := {
  lf_wf : rights_wf r';
  lf_total : r_total r' = r_total r;
  lf_available : r_available r' = r_available r + reserved_units at_;
  lf_spent : r_spent r' = r_spent r;
  lf_epoch : r_epoch r' = r_epoch r;
  lf_incident : r_incident_count r' = r_incident_count r;
  lf_other : ∀ id', id' ≠ id → r_reservations r' !! id' = r_reservations r !! id';
  lf_self : r_reservations r' !! id =
    (if decide (at_stage at_ = Authorized)
     then set_state Aborted <$> r_reservations r !! id else r_reservations r !! id);
}.

Lemma retire_refund_eq id at_ r :
  rights_wf r → linked at_ (r_reservations r !! id) → frozen (at_action at_) → invalidated at_ →
  ∃ r', retire_refund id at_ r = Ok (reserved_units at_, r') ∧ ledger_refunded id at_ r r'.
Proof.
  intros Hwf Hl Hf [Hb _]. unfold retire_refund.
  unfold reserved_units at 1. case_bool_decide as Hst.
  - unfold linked in Hl. rewrite Hst in Hl |- *. destruct Hl as (effect & He & Hrv).
    destruct (frozen_effect_ok _ Hf) as (effect' & He' & Hu & _). assert (effect' = effect) as -> by congruence.
    munfold_goal. rewrite Hrv, He. simpl.
    rewrite Z.eqb_refl. simpl. rewrite bool_decide_eq_false_2 by auto. simpl.
    unfold exec. rewrite (rights_abort_eq _ _ _ Hwf Hrv) by done. simpl. eexists. split; [done|].
    pose proof (rights_abort_sound id r Hwf) as Hs. rewrite (rights_abort_eq _ _ _ Hwf Hrv) in Hs by done.
    destruct Hs as [Hwf' _ _ _ _ _ _ _ _]. simpl in *.
    split; simpl; try done.
    + unfold reserved_units. rewrite Hst. lia.
    + intros id' ?. by rewrite lookup_insert_ne.
    + by rewrite lookup_insert_eq, decide_True, Hrv by done.
  - exists r. assert (r_reservations r !! id = None) as Hrv.
    { unfold linked in Hl. by destruct (at_stage at_). }
    munfold_goal. rewrite Hrv, bool_decide_eq_false_2 by (by intros [? ?]).
    assert (match at_stage at_ with Authorized => sp_units (spec (at_action at_)) | _ => 0 end = 0) as Hz.
    { by destruct (at_stage at_). }
    rewrite Hz. split; [done|]. split; try done; [|by rewrite decide_False].
    unfold reserved_units. lia.
Qed.

Lemma rights_available_u64 r : rights_wf r → r_available r ≤ U64_MAX.
Proof.
  intros Hwf. pose proof (rights_held_nonneg r Hwf). pose proof (rights_committed_nonneg r Hwf).
  destruct Hwf as [Ht _ _ _ _ _ Hsum]. unfold is_u64 in Ht. lia.
Qed.

Lemma ledger_retired_cons id at_ attempts r r1 r' :
  (∀ at', (id, at') ∉ attempts) → invalidated at_ →
  ledger_refunded id at_ r r1 → ledger_retired attempts r1 r' →
  ledger_retired ((id, at_) :: attempts) r r'.
Proof.
  intros Hfresh Hinv [F1 F2 F3 F4 F5 F6 Foth Fid] [L1 L2 L3 L4 L5 L6 L7 L8].
  split; [done|congruence| |congruence..| |].
  - rewrite L3, F3. unfold refunds. rewrite selected_cons, decide_True by done. csimpl. lia.
  - intros id' at' [[= -> ->]|Hin]%elem_of_cons Hi Hst.
    + rewrite L8, Fid by (intros at'' Hin; by destruct (Hfresh at'')). by rewrite decide_True.
    + rewrite (L7 _ _ Hin) by done. by rewrite Foth by (intros ->; by destruct (Hfresh at')).
  - intros id' Hno. rewrite L8 by (intros at' Hin; apply Hno; by right).
    destruct (decide (id' = id)) as [->|]; [|by apply Foth].
    rewrite Fid, decide_False; [done|]. intros Hst. by apply (Hno at_); [left|].
Qed.

Lemma ledger_retired_skip id at_ attempts r r' :
  ¬ invalidated at_ → ledger_retired attempts r r' → ledger_retired ((id, at_) :: attempts) r r'.
Proof.
  intros Hinv [L1 L2 L3 L4 L5 L6 L7 L8]. split; [done|congruence| |congruence..| |].
  - rewrite L3. unfold refunds. by rewrite selected_cons, decide_False.
  - intros id' at' [[= -> ->]|Hin]%elem_of_cons; [done|eauto].
  - intros id' Hno. apply L8. intros at' Hin. apply Hno. by right.
Qed.

(** The guards of one round of the loop. *)
Lemma retire_loop_cons id at_ attempts r retired refunded :
  retire_loop elapsed policy_epoch ((id, at_) :: attempts) r retired refunded =
  if decide (invalidated at_) then
    '(refund, r) ← retire_refund id at_ r;
    refunded ← ok_or (u64_checked_add refunded refund) Overflow;
    retire_loop elapsed policy_epoch attempts r
      (retired ++ [mkRetiredAttempt id (at_action at_) (at_stage at_)
                     (deadline_reached elapsed at_) (epoch_revoked policy_epoch at_) refund]) refunded
  else retire_loop elapsed policy_epoch attempts r retired refunded.
Proof.
  simpl. destruct (decide (invalidated at_)) as [H|H];
    unfold invalidated, deadline_reached, epoch_revoked in *;
    destruct (before_dispatch (at_stage at_)); simpl;
    destruct (_ <=? _), (_ <? _); simpl; first [reflexivity|exfalso; intuition congruence].
Qed.

(** The loop selects, reports and refunds exactly the invalidated attempts. *)
Lemma retire_loop_eq attempts r retired refunded :
  rights_wf r → NoDup attempts.*1 → 0 ≤ refunded ≤ r_available r →
  (∀ id at_, (id, at_) ∈ attempts → frozen (at_action at_) ∧ linked at_ (r_reservations r !! id)) →
  ∃ r', retire_loop elapsed policy_epoch attempts r retired refunded =
      Ok (r', retired ++ (retired_row <$> selected attempts), refunded + refunds attempts) ∧
    ledger_retired attempts r r'.
Proof.
  revert r retired refunded.
  induction attempts as [|[id at_] attempts IH]; intros r retired refunded Hwf Hnd Href Hall.
  { exists r. simpl. rewrite app_nil_r, Z.add_0_r. split; [done|].
    apply ledger_retired_refl; [done|by intros ? ?%elem_of_nil|done]. }
  apply NoDup_cons in Hnd as [Hnin Hnd]. simpl in Hnin, Hnd.
  assert (∀ at', (id, at') ∉ attempts) as Hfresh.
  { intros at' Hin. apply Hnin, list_elem_of_fmap. by exists (id, at'). }
  rewrite retire_loop_cons. unfold refunds. rewrite selected_cons. simpl.
  destruct (decide (invalidated at_)) as [Hinv|Hinv].
  - destruct (Hall id at_) as [Hf Hl]; [left|].
    destruct (retire_refund_eq id at_ r Hwf Hl Hf Hinv) as (r1 & Hr1 & Hled1).
    pose proof Hled1 as [Hwf1 Ht1 Ha1 _ _ _ Hoth1 _].
    pose proof (rights_available_u64 r1 Hwf1).
    assert (0 ≤ reserved_units at_) as Hnn.
    { destruct (frozen_effect_ok _ Hf) as (ef & _ & ? & ? & _). unfold reserved_units.
      destruct (at_stage at_); lia. }
    destruct (IH r1 (retired ++ [retired_row (id, at_)]) (refunded + reserved_units at_))
      as (r' & Hloop & Hled); [done|done|lia| |].
    { intros id' at' Hin. destruct (Hall id' at') as [? ?]; [by right|].
      rewrite Hoth1 by (intros ->; by destruct (Hfresh at')). done. }
    exists r'. split; [|by eapply ledger_retired_cons].
    rewrite Hr1. munfold_goal. rewrite u64_checked_add_fits by lia. cbn beta iota.
    etransitivity; [exact Hloop|]. csimpl. unfold refunds. by rewrite <-app_assoc, Z.add_assoc.
  - destruct (IH r retired refunded) as (r' & Hloop & Hled); [done|done|done| |].
    { intros id' at' Hin. apply Hall. by right. }
    exists r'. split; [exact Hloop|by apply ledger_retired_skip].
Qed.
End retirement.

Definition cancelled (at_ : Attempt) : Attempt := mkAttempt (at_action at_) Cancelled None.

Lemma apply_rows_eq rows a :
  (∀ row, row ∈ rows → is_Some (ra_attempts a !! rd_attempt row)) →
  ∃ m, apply_rows rows a = (Ok tt, set_attempts m a) ∧
    ∀ id, m !! id = if decide (id ∈ rd_attempt <$> rows)
                    then cancelled <$> ra_attempts a !! id else ra_attempts a !! id.
Proof.
  revert a. induction rows as [|row rows IH]; intros a Hrows.
  { exists (ra_attempts a). by destruct a. }
  destruct (Hrows row) as [at_ Hat]; [left|]. simpl. unfold update_attempt.
  set (a1 := set_attempts (<[rd_attempt row := cancelled at_]> (ra_attempts a)) a).
  destruct (IH a1) as (m & Hm & Hlook).
  { intros row' Hin. simpl. destruct (decide (rd_attempt row' = rd_attempt row)) as [->|].
    - rewrite lookup_insert_eq. eauto.
    - rewrite lookup_insert_ne by done. apply Hrows. by right. }
  exists m. split; [munfold_goal; rewrite Hat; exact Hm|].
  intros id. rewrite Hlook. csimpl.
  destruct (decide (id = rd_attempt row)) as [->|].
  - rewrite lookup_insert_eq, Hat, (decide_True (P := rd_attempt row ∈ _ :: _)) by left. by case_decide.
  - rewrite lookup_insert_ne by done. repeat case_decide; set_solver.
Qed.

(** Retirement, from its inputs to the state it leaves. *)
Definition retirement_report (a : ReferenceAuthority) (t : Z) : RetirementBatch :=
  let e := r_epoch (ra_rights a) in
  mkRetirementBatch t e (retired_row t e <$> selected t e (entries (ra_attempts a)))
    (refunds t e (entries (ra_attempts a))).

Lemma retire_ids t e (m : gmap Z Attempt) id :
  id ∈ rd_attempt <$> (retired_row t e <$> selected t e (entries m)) ↔
  ∃ at_, m !! id = Some at_ ∧ invalidated t e at_.
Proof.
  rewrite <-list_fmap_compose, list_elem_of_fmap. unfold selected. split.
  - intros ([id' at_] & -> & [Hi Hin%elem_of_entries]%list_elem_of_filter). eauto.
  - intros (at_ & Hid & Hi). exists (id, at_). split; [done|].
    by apply list_elem_of_filter; split; [|apply elem_of_entries].
Qed.

Lemma retire_outcome a :
  coherent a →
  match ra_elapsed a with
  | None => retire_invalidated a = (Err Incomplete, a)
  | Some t => ∃ r',
      retire_invalidated a = (Ok (retirement_report a t),
        set_attempts (retired_attempt t (r_epoch (ra_rights a)) <$> ra_attempts a) (set_rights r' a)) ∧
      ledger_retired t (r_epoch (ra_rights a)) (entries (ra_attempts a)) (ra_rights a) r'
  end.
Proof.
  intros Hco. unfold retire_invalidated, prepare_retirement. munfold_goal.
  destruct (ra_elapsed a) as [t|]; [|done].
  pose proof Hco as [Hwf _ _ Hfr Hl _]. rewrite (rights_wf_conserved _ Hwf). simpl.
  set (e := r_epoch (ra_rights a)).
  destruct (retire_loop_eq t e (entries (ra_attempts a)) (ra_rights a) [] 0) as (r' & Hloop & Hled).
  { done. } { apply entries_NoDup. } { destruct Hwf. lia. }
  { intros id at_ Hin%elem_of_entries. destruct (Hfr id at_ Hin). eauto. }
  rewrite Hloop. simpl. exists r'. split; [|done].
  pose proof Hled as [Hwf' _ Ha _ _ _ _ _]. rewrite (rights_wf_conserved _ Hwf'). simpl.
  assert (0 ≤ refunds t e (entries (ra_attempts a))) as Hnn.
  { apply sumZ_nonneg, Forall_fmap, Forall_filter_keep, Forall_forall.
    intros [id at_] Hin%elem_of_entries. destruct (Hfr id at_ Hin) as [Hf _].
    destruct (frozen_effect_ok _ Hf) as (ef & _ & ? & ? & _). simpl. unfold reserved_units.
    destruct (at_stage at_); lia. }
  unfold u64_checked_sub. destruct (Z.leb_spec (r_available (ra_rights a)) (r_available r')); [|lia].
  rewrite Z.add_0_l, bool_decide_eq_false_2 by (intros []; f_equal; lia). unfold apply_retirement. munfold_goal.
  cbn [pr_report pr_rights rb_retired].
  destruct (apply_rows_eq (retired_row t e <$> selected t e (entries (ra_attempts a))) (set_rights r' a))
    as (m & Hm & Hlook).
  { intros row Hrow. assert (rd_attempt row ∈ rd_attempt <$> (retired_row t e <$> selected t e (entries (ra_attempts a))))
      as Hin by (by apply list_elem_of_fmap_2).
    apply retire_ids in Hin as (at_ & Hid & _). simpl. rewrite Hid. eauto. }
  rewrite Hm. f_equal. f_equal. apply map_eq. intros id. rewrite Hlook, lookup_fmap. simpl.
  case_decide as Hin.
  - apply retire_ids in Hin as (at_ & Hid & Hi). rewrite Hid. simpl. unfold retired_attempt. by rewrite decide_True.
  - destruct (ra_attempts a !! id) as [at_|] eqn:Hid; [|done]. simpl. unfold retired_attempt.
    rewrite decide_False; [done|]. intros Hi. apply Hin, retire_ids. eauto.
Qed.

(** The attempts of a retired authority are still linked to its ledger. *)
Lemma retired_linked t e a r' id at_ :
  coherent a → ledger_retired t e (entries (ra_attempts a)) (ra_rights a) r' →
  ra_attempts a !! id = Some at_ → linked (retired_attempt t e at_) (r_reservations r' !! id).
Proof.
  intros Hco [_ _ _ _ _ _ Hsel Hoth] Hid.
  destruct (coherent_lookup a id at_ Hco Hid) as (_ & _ & Hl).
  assert (∀ at', (id, at') ∈ entries (ra_attempts a) → at' = at_) as Huniq.
  { intros at' Hin%elem_of_entries. congruence. }
  unfold retired_attempt. destruct (decide (invalidated t e at_)) as [Hi|Hi].
  - destruct (decide (at_stage at_ = Authorized)) as [Hst|Hst].
    + rewrite (Hsel id at_) by (try apply elem_of_entries; done).
      unfold linked in Hl. rewrite Hst in Hl. destruct Hl as (ef & He & ->). right. by exists ef.
    + rewrite Hoth by (intros at' ->%Huniq; tauto). left.
      unfold linked in Hl. destruct Hi as [Hb _]. by destruct (at_stage at_).
  - by rewrite Hoth by (intros at' ->%Huniq; tauto).
Qed.

Lemma retire_sound a :
  coherent a →
  let '(out, a') := (retire_invalidated;; mret tt) a in action_sound CallRetire a out a'.
Proof.
  intros Hco. munfold_goal. pose proof (retire_outcome a Hco) as Hout.
  destruct (ra_elapsed a) as [t|]; [|rewrite Hout; a_refused].
  destruct Hout as (r' & -> & Hled). pose proof Hled as [Hwf' Ht' _ _ He' _ _ Hoth].
  pose proof Hco as [Hwf Ht Hsz Hfr Hl Hn]. split; simpl; try done; [|lia| |].
  - split; simpl; [done|congruence|by rewrite map_size_fmap| | |].
    + intros id at'. rewrite lookup_fmap. intros (at_ & Hid & ->)%fmap_Some. destruct (Hfr id at_ Hid).
      unfold retired_attempt. by case_decide.
    + intros id at'. rewrite lookup_fmap. intros (at_ & Hid & ->)%fmap_Some. by apply (retired_linked _ _ a).
    + intros id. rewrite lookup_fmap. intros Hid%fmap_None. rewrite Hoth; [by apply Hn|].
      intros at_ Hin%elem_of_entries. congruence.
  - intros id at_ Hid. rewrite lookup_fmap, Hid. eexists. split; [done|].
    unfold retired_attempt. by case_decide.
  - intros id. unfold stage_of. simpl. rewrite lookup_fmap.
    destruct (ra_attempts a !! id) as [at_|]; simpl; [|constructor].
    unfold retired_attempt. case_decide as Hi; [|constructor]. constructor. by destruct Hi.
Qed.

(** ** Every call, every run *)

Lemma authority_step_sound c a :
  coherent a → authority_call_typed c →
  let '(out, a') := authority_step c a in action_sound c a out a'.
Proof.
  intros Hco Hty. destruct c; simpl in *.
  - by apply observe_time_sound.
  - by apply propose_sound.
  - by apply prepare_sound.
  - by apply begin_review_sound.
  - by apply authorize_sound.
  - by apply dispatch_sound.
  - apply (stop_sound id Cancelled (CallCancel id) a); [done|by left|by constructor].
  - apply (stop_sound id Denied (CallDeny id) a); [done|by right|by constructor].
  - by apply mark_unknown_sound.
  - by apply record_trusted_outcome_sound.
  - by apply mark_irrecoverable_sound.
  - by apply revoke_epoch_sound.
  - by apply retire_sound.
Qed.

Lemma authority_new_coherent issuer scope total max a :
  is_u64 total → is_u64 max → authority_new issuer scope total max = Ok a → coherent a.
Proof.
  intros Ht Hm. unfold authority_new. munfold_goal. destruct (scope_validate _); [|done..].
  destruct (bool_decide _); [done|]. destruct (_ || _); [done|]. intros [= <-].
  split; simpl; try done; [by apply rights_new_wf|].
  rewrite map_size_empty. unfold is_u64 in Hm. lia.
Qed.

Lemma authority_run_coherent calls a :
  coherent a → Forall authority_call_typed calls → coherent (authority_run calls a).
Proof.
  unfold authority_run. intros Hco Hall. revert a Hco.
  induction Hall as [|c calls Hc _ IH]; intros a Hco; simpl; [done|].
  apply IH. pose proof (authority_step_sound c a Hco Hc) as Hs.
  destruct (authority_step c a). by destruct Hs.
Qed.

(** ** Accounting *)

Lemma linked_units at_ rv :
  frozen (at_action at_) → linked at_ rv →
  reserved_units at_ + charged_units at_ =
  from_option (λ rv, held_units rv + committed_units rv) 0 rv.
Proof.
  intros Hf Hl. destruct (frozen_effect_ok _ Hf) as (ef & He & Hu & _).
  assert (∀ s, held_as at_ s rv → from_option (λ rv, held_units rv + committed_units rv) 0 rv =
    match s with Aborted => 0 | _ => sp_units (spec (at_action at_)) end) as Hheld.
  { intros s (ef' & He' & ->). assert (ef' = ef) as -> by congruence.
    unfold held_units, committed_units. simpl. rewrite Hu. by destruct s; simpl; lia. }
  unfold linked in Hl. unfold reserved_units, charged_units.
  destruct (at_stage at_); try (rewrite (Hheld _ Hl); lia); try (by rewrite Hl);
    (destruct Hl as [->|Hl]; [done|by rewrite (Hheld _ Hl)]).
Qed.

Lemma units_nonneg at_ :
  frozen (at_action at_) → 0 ≤ reserved_units at_ ∧ 0 ≤ charged_units at_.
Proof.
  intros Hf. destruct (frozen_effect_ok _ Hf) as (ef & _ & ? & ? & _).
  unfold reserved_units, charged_units. destruct (at_stage at_); lia.
Qed.

Lemma authority_accounting a :
  coherent a →
  0 ≤ r_available (ra_rights a) ∧ 0 ≤ map_sum reserved_units (ra_attempts a) ∧
  0 ≤ map_sum charged_units (ra_attempts a) ∧
  r_available (ra_rights a) + map_sum reserved_units (ra_attempts a)
    + map_sum charged_units (ra_attempts a) = ra_total a.
Proof.
  intros Hco. pose proof Hco as [Hwf Ht _ Hfr Hl Hn]. split; [by destruct Hwf|].
  assert (∀ id at_, ra_attempts a !! id = Some at_ → 0 ≤ reserved_units at_ ∧ 0 ≤ charged_units at_) as Hnn.
  { intros id at_ Hid. destruct (Hfr id at_ Hid). by apply units_nonneg. }
  split; [apply map_sum_nonneg; intros id at_ ?; by apply (Hnn id)|].
  split; [apply map_sum_nonneg; intros id at_ ?; by apply (Hnn id)|].
  assert (map_sum (λ at_, reserved_units at_ + charged_units at_) (ra_attempts a) =
          map_sum (λ rv, held_units rv + committed_units rv) (r_reservations (ra_rights a))) as Hsum.
  { apply map_sum_agree. intros id. destruct (ra_attempts a !! id) as [at_|] eqn:Hid; simpl.
    - destruct (Hfr id at_ Hid) as [Hf _]. apply linked_units; eauto.
    - by rewrite Hn. }
  destruct Hwf as [_ _ _ _ _ _ Htot]. unfold rights_held, rights_committed in Htot.
  unfold map_sum in *. rewrite !sumZ_fmap_add in Hsum. lia.
Qed.

Lemma inspect_ok a :
  coherent a →
  inspect a = Ok (mkInspection (r_available (ra_rights a)) (map_sum reserved_units (ra_attempts a))
    (map_sum charged_units (ra_attempts a)) (r_epoch (ra_rights a)) (ra_elapsed a)
    (at_stage <$> ra_attempts a)).
Proof.
  intros Hco. destruct (authority_accounting a Hco) as (Ha & Hr & Hc & Hsum).
  pose proof Hco as [Hwf Ht _ Hfr _ _]. destruct Hwf as [Htu _ _ _ _ _ _]. unfold is_u64 in Htu.
  unfold inspect, u64_sum, u64_sub.
  rewrite u64_try_sum_eq; [|apply Forall_fmap, Forall_filter_keep, (Forall_map_values (λ a,
    0 ≤ sp_units (spec (at_action a)))); intros id at_ Hid; destruct (Hfr id at_ Hid) as [[[Hu _ _] _] _];
    unfold is_u64 in Hu; lia|lia].
  assert (sumZ ((λ a0, sp_units (spec (at_action a0))) <$>
    filter (λ a0, at_stage a0 = Authorized) (map_values (ra_attempts a)))
    = map_sum reserved_units (ra_attempts a)) as ->.
  { rewrite sumZ_filter_fmap. unfold map_sum, map_values.
    rewrite <-list_fmap_compose, entries_perm. apply sumZ_fmap_ext. intros [i at_] _. simpl.
    unfold reserved_units. by destruct (at_stage at_). }
  rewrite Z.add_0_l. destruct (Z.leb_spec (map_sum reserved_units (ra_attempts a)) U64_MAX); [|lia].
  munfold_goal.
  destruct (Z.leb_spec (r_available (ra_rights a)) (ra_total a)); [|lia].
  destruct (Z.leb_spec (map_sum reserved_units (ra_attempts a)) (ra_total a - r_available (ra_rights a))); [|lia].
  f_equal. f_equal. lia.
Qed.

(** ** Histories *)

(** What an authority can become, by any calls a caller can make. *)
Definition authority_reached (a : ReferenceAuthority) : Prop :=
  ∃ issuer scope total max a0 calls,
    is_u64 total ∧ is_u64 max ∧ authority_new issuer scope total max = Ok a0 ∧
    Forall authority_call_typed calls ∧ a = authority_run calls a0.

Lemma reached_coherent a : authority_reached a → coherent a.
Proof.
  intros (issuer & scope & total & max & a0 & calls & Ht & Hm & Hnew & Hall & ->).
  apply authority_run_coherent; [by eapply authority_new_coherent, Hnew|done].
Qed.

(** Facts about every run, one call at a time. *)
Lemma authority_run_ind (P : ReferenceAuthority → Prop) calls a :
  coherent a → Forall authority_call_typed calls → P a →
  (∀ c a out a', coherent a → action_sound c a out a' → P a → P a') →
  P (authority_run calls a).
Proof.
  unfold authority_run. intros Hco Hall HP Hstep. revert a Hco HP.
  induction Hall as [|c calls Hc _ IH]; intros a Hco HP; simpl; [done|].
  pose proof (authority_step_sound c a Hco Hc) as Hs. destruct (authority_step c a) as [out a'].
  simpl. apply IH; [by destruct Hs|by eapply Hstep].
Qed.

(** An attempt that left the stages before dispatch never returns to them. *)
Lemma stage_step_left id c s o :
  stage_step id c (Some s) o → before_dispatch s = false →
  ∃ s', o = Some s' ∧ before_dispatch s' = false.
Proof. inversion 1; subst; intros; try (by eauto); simpl in *; try done; try congruence. Qed.

Lemma left_forever calls a id s :
  coherent a → Forall authority_call_typed calls →
  stage_of a id = Some s → before_dispatch s = false →
  ∃ s', stage_of (authority_run calls a) id = Some s' ∧ before_dispatch s' = false.
Proof.
  intros Hco Hall Hs Hb.
  apply (authority_run_ind (λ a, ∃ s', stage_of a id = Some s' ∧ before_dispatch s' = false)); [done..|eauto|].
  intros c a1 out a2 _ Hsound (s' & Hs' & Hb'). pose proof (as_stage _ _ _ _ Hsound id) as Hst.
  rewrite Hs' in Hst. by eapply stage_step_left.
Qed.

Lemma epoch_and_action_kept calls a id at_ :
  coherent a → Forall authority_call_typed calls → ra_attempts a !! id = Some at_ →
  r_epoch (ra_rights a) ≤ r_epoch (ra_rights (authority_run calls a)) ∧
  ∃ at', ra_attempts (authority_run calls a) !! id = Some at' ∧ at_action at' = at_action at_.
Proof.
  intros Hco Hall Hid.
  apply (authority_run_ind (λ a', r_epoch (ra_rights a) ≤ r_epoch (ra_rights a') ∧
    ∃ at', ra_attempts a' !! id = Some at' ∧ at_action at' = at_action at_)); [done|done|split; [lia|eauto]|].
  intros c a1 out a2 _ Hsound (He & at1 & Hat1 & Hact). pose proof (as_epoch _ _ _ _ Hsound).
  destruct (as_actions _ _ _ _ Hsound id at1 Hat1) as (at2 & Hat2 & Hact2).
  split; [lia|]. exists at2. split; [done|congruence].
Qed.

Definition refused {A} (out : res Error A) : Prop := ∃ e, out = Err e.

Lemma dispatch_refused permit final s a :
  coherent a → (∀ at_, ¬ dispatchable a permit final s at_) → refused (dispatch permit final s a).1.
Proof.
  intros Hco Hno. destruct (dispatch_outcome permit final s a Hco) as [(e & -> & _)|(at_ & ? & Hok & _)].
  - by exists e.
  - by destruct (Hno at_).
Qed.

(** An attempt's reservation was made in an epoch that has been reached. *)
Lemma authorized_epoch a id at_ :
  coherent a → ra_attempts a !! id = Some at_ → at_stage at_ = Authorized →
  sp_policy_epoch (spec (at_action at_)) ≤ r_epoch (ra_rights a).
Proof.
  intros Hco Hid Hst. destruct (coherent_lookup a id at_ Hco Hid) as (_ & _ & Hl).
  unfold linked in Hl. rewrite Hst in Hl. destruct Hl as (ef & _ & Hrv).
  destruct (rwf_reservations _ (co_rights a Hco) _ _ Hrv) as [_ _ _ He]. simpl in He. lia.
Qed.

(** ** Properties *)

(** C5: whatever calls an authority has received, no further call
    aborts the process - every [expect] of an attempt checked before holds, the
    unchecked sums and subtractions of [inspect] stay in range - and [inspect]
    always returns: the units available, those reserved by authorized attempts
    and those charged to dispatched, unknown, irrecoverable and confirmed ones
    add up to the authority's budget. *)
Theorem authority_accounting_always (a : ReferenceAuthority) :
  authority_reached a →
  (∀ c, authority_call_typed c → (authority_step c a).1 ≠ Panic) ∧
  ∃ i, inspect a = Ok i ∧
    in_reserved i = map_sum reserved_units (ra_attempts a) ∧
    in_charged i = map_sum charged_units (ra_attempts a) ∧
    0 ≤ in_available i ∧ 0 ≤ in_reserved i ∧ 0 ≤ in_charged i ∧
    in_available i + in_reserved i + in_charged i = ra_total a ∧
    in_stages i = at_stage <$> ra_attempts a.
Proof.
  intros Hco%reached_coherent. split.
  - intros c Hc. pose proof (authority_step_sound c a Hco Hc) as Hs.
    destruct (authority_step c a). by destruct Hs.
  - eexists. split; [by apply inspect_ok|]. simpl.
    destruct (authority_accounting a Hco) as (? & ? & ? & ?). by split_and!.
Qed.

(** C23: a refused call leaves the whole authority as it was.  Any call
    keeps the scope, the budget, the attempt limit and the permit brand, never
    lowers the policy epoch, never forgets an attempt or replaces its action,
    and moves a stage only along the edges of [stage_step]: a stage that
    follows dispatch, a denial or a cancellation never leads back to one that
    precedes it. *)
Theorem authority_lifecycle (a : ReferenceAuthority) (c : authority_call) :
  authority_reached a → authority_call_typed c →
  let '(out, a') := authority_step c a in
  (refused out → a' = a) ∧
  (ra_scope a' = ra_scope a ∧ ra_total a' = ra_total a ∧
   ra_max_attempts a' = ra_max_attempts a ∧ ra_issuer a' = ra_issuer a) ∧
  r_epoch (ra_rights a) ≤ r_epoch (ra_rights a') ∧
  (∀ id at_, ra_attempts a !! id = Some at_ →
     ∃ at', ra_attempts a' !! id = Some at' ∧ at_action at' = at_action at_) ∧
  (∀ id, stage_step id c (stage_of a id) (stage_of a' id)).
Proof.
  intros Hco%reached_coherent Hc. pose proof (authority_step_sound c a Hco Hc) as Hs.
  destruct (authority_step c a) as [out a']. destruct Hs as [_ _ Hat ? ? ? ?].
  split_and!; try done; try tauto. intros [e He]. by eapply Hat.
Qed.

(** C4: authorization and dispatch succeed exactly on their stated
    conditions and otherwise refuse without an effect.  [authorize] needs an
    attempt under review whose action is in this scope, at this policy epoch
    and strictly before its deadline, a judgment with exactly the required
    witnesses that is valid at the snapshot, and the units in the budget; it
    reserves those units and returns the branded permit.  [dispatch] needs a
    permit of this authority for an authorized attempt, the permit's action and
    the freshly resolved final action both equal to the one authorized, the
    same currency conditions again, and the stored judgment still valid; it
    moves no unit. *)
Theorem permits_issued_and_honoured_exactly (a : ReferenceAuthority) :
  authority_reached a →
  (∀ id j s,
     let '(out, a') := authorize id j s a in
     (is_ok out = true ↔ ∃ at_, authorizable a id j s at_) ∧
     (refused out → a' = a) ∧
     (∀ at_, authorizable a id j s at_ →
        out = Ok (mkPermit (ra_issuer a) id (at_action at_)) ∧
        ra_attempts a' = <[id := mkAttempt (at_action at_) Authorized (Some j)]> (ra_attempts a) ∧
        r_available (ra_rights a') = r_available (ra_rights a) - sp_units (spec (at_action at_)))) ∧
  (∀ permit final s,
     let '(out, a') := dispatch permit final s a in
     (out = Ok tt ↔ ∃ at_, dispatchable a permit final s at_) ∧
     (refused out → a' = a) ∧
     (∀ at_, dispatchable a permit final s at_ →
        ra_attempts a' = <[pm_attempt permit := set_stage Dispatching at_]> (ra_attempts a) ∧
        r_available (ra_rights a') = r_available (ra_rights a))).
Proof.
  intros Hco%reached_coherent. split.
  - intros id j s.
    destruct (authorize_outcome id j s a Hco) as [(e & -> & Hno)|(at_ & ef & Hok & He & _ & ->)].
    + split_and!; [naive_solver|done|]. intros at_ Hat. destruct Hno. eauto.
    + split_and!; [naive_solver|by intros [? ?]|]. intros at' [Hid' _].
      pose proof Hok as [Hid _]. assert (at' = at_) as -> by congruence. simpl. split_and!; [done..|].
      destruct (coherent_lookup a id at_ Hco Hid) as (Hf & _).
      destruct (frozen_effect_ok _ Hf) as (ef' & He' & Hu & _). congruence.
  - intros permit final s.
    destruct (dispatch_outcome permit final s a Hco) as [(e & -> & Hno)|(at_ & rv & Hok & _ & _ & _ & ->)].
    + split_and!; [naive_solver|done|]. intros at_ Hat. destruct Hno. eauto.
    + split_and!; [naive_solver|by intros [? ?]|]. intros at' (_ & Hid' & _).
      pose proof Hok as (_ & Hid & _). by assert (at' = at_) as -> by congruence.
Qed.

(** A permit is spent by the dispatch that honours it: after any
    further calls it is refused, whatever final action and snapshot come with
    it.  And revoking the epoch withdraws every permit for an attempt authorized
    before, without touching the permit itself: after the revocation and any
    further calls, dispatch refuses it. *)
Theorem permits_one_shot_and_revocable (a : ReferenceAuthority) (calls : list authority_call)
    (permit : Permit) :
  authority_reached a → Forall authority_call_typed calls →
  (∀ final s final' s' a', dispatch permit final s a = (Ok tt, a') →
     refused (dispatch permit final' s' (authority_run calls a')).1) ∧
  (∀ final s a', stage_of a (pm_attempt permit) = Some Authorized →
     revoke_epoch a = (Ok tt, a') →
     refused (dispatch permit final s (authority_run calls a')).1).
Proof.
  intros Hco%reached_coherent Hall. split.
  - intros final s final' s' a' Hd. pose proof (dispatch_sound permit final s a Hco) as Hs.
    rewrite Hd in Hs. destruct Hs as [Hco' _ _ _ _ _ _].
    destruct (dispatch_outcome permit final s a Hco) as [(? & Hd' & _)|(at_ & rv & (_ & Hid & _) & _ & _ & _ & Hd')];
      rewrite Hd' in Hd; simplify_eq.
    destruct (left_forever calls _ (pm_attempt permit) Dispatching Hco' Hall) as (s1 & Hs1 & Hb1); [|done|].
    { unfold stage_of. simpl. by rewrite lookup_insert_eq. }
    apply dispatch_refused; [by apply authority_run_coherent|]. intros at' (_ & Hat' & Hst & _).
    unfold stage_of in Hs1. rewrite Hat' in Hs1. simpl in Hs1. simplify_eq. by rewrite Hst in Hb1.
  - intros final s a' Hst Hrev. pose proof (revoke_epoch_sound a Hco) as Hs. rewrite Hrev in Hs.
    destruct Hs as [Hco' _ _ _ _ Hact _]. unfold stage_of in Hst.
    apply fmap_Some in Hst as (at_ & Hid & Hst). symmetry in Hst.
    pose proof (authorized_epoch a _ at_ Hco Hid Hst).
    destruct (Hact _ _ Hid) as (at1 & Hid1 & Hact1).
    destruct (epoch_and_action_kept calls a' _ at1 Hco' Hall Hid1) as (He & at2 & Hid2 & Hact2).
    assert (r_epoch (ra_rights a') = r_epoch (ra_rights a) + 1) as He'.
    { revert Hrev. unfold revoke_epoch, on_rights, rights_revoke_epoch, u64_checked_add. munfold_goal.
      destruct (_ <=? _); [|done]. by intros [= <-]. }
    apply dispatch_refused; [by apply authority_run_coherent|].
    intros at' (_ & Hat' & _ & _ & -> & (_ & _ & Hep & _) & _).
    assert (at' = at2) as -> by congruence. rewrite Hact2, Hact1 in Hep. lia.
Qed.

(** C24: retirement cancels exactly the attempts that were never
    dispatched and whose deadline has been reached or whose epoch has been
    revoked, reports them in ascending order of identifier with both causes and
    their refunds, returns to the budget the reservations of the authorized
    ones among them and no others, and leaves every other attempt, reservation
    and account as it was.  Without a clock observation it refuses and changes
    nothing. *)
Theorem retirement_exact (a : ReferenceAuthority) :
  authority_reached a →
  match ra_elapsed a with
  | None => retire_invalidated a = (Err Incomplete, a)
  | Some t =>
    let e := r_epoch (ra_rights a) in
    ∃ a', retire_invalidated a = (Ok (retirement_report a t), a') ∧
      ra_attempts a' = retired_attempt t e <$> ra_attempts a ∧
      ledger_retired t e (entries (ra_attempts a)) (ra_rights a) (ra_rights a') ∧
      StronglySorted Z.le (rd_attempt <$> rb_retired (retirement_report a t)) ∧
      rb_refunded_units (retirement_report a t) =
        sumZ (rd_refunded_units <$> rb_retired (retirement_report a t))
  end.
Proof.
  intros Hco%reached_coherent. pose proof (retire_outcome a Hco) as Hout.
  destruct (ra_elapsed a) as [t|]; [|done]. destruct Hout as (r' & Hout & Hled).
  eexists. split; [exact Hout|]. split_and!; [done|done| |]; simpl.
  - rewrite <-list_fmap_compose. unfold selected.
    clear Hout Hled. pose proof (entries_sorted (ra_attempts a)) as Hs. induction Hs as [|p l Hl IH Hp]; [constructor|].
    rewrite filter_cons. case_decide; [|done]. csimpl. constructor; [exact IH|].
    apply Forall_fmap, Forall_filter_keep. eapply Forall_impl; [exact Hp|].
    intros q Hq. unfold entry_le, key_le, key_leb, Z_key_order in Hq. simpl. lia.
  - unfold refunds. by rewrite <-list_fmap_compose.
Qed.

(** ** Witnesses *)

Definition example_scope : Scope := mkScope 1 2 3 4 5 EffectPurpose.

Definition example_action (units deadline : Z) : FrozenAction :=
  mkFrozenAction (mkActionSpec 1 example_scope (Some (mkResolvedTarget 7 42 1 1 1))
    (ascii_bytes "write") [Exact 10 (Some (ascii_bytes "approved"))] 0 deadline units).

Definition example_view : Snapshot := mkSnapshot 3 true {[ 10 := ascii_bytes "approved" ]}.
Definition example_review : Judgment := mkJudgment 3 [Exact 10 (Some (ascii_bytes "approved"))].

Definition example_new_authority : ReferenceAuthority :=
  mkReferenceAuthority example_scope 10 4 None 99 (rights_new 10) ∅.

(** Two authorized attempts (one of them close to its deadline) and a proposal. *)
Definition example_calls : list authority_call :=
  [CallObserveTime 1;
   CallPropose 1 (example_action 4 100); CallPrepare 1; CallBeginReview 1;
   CallAuthorize 1 example_review example_view;
   CallPropose 2 (example_action 3 50); CallPrepare 2; CallBeginReview 2;
   CallAuthorize 2 example_review example_view;
   CallPropose 3 (example_action 9 50)].

Definition example_permit : Permit := mkPermit 99 1 (example_action 4 100).

Lemma example_frozen units deadline :
  0 < units ≤ U64_MAX → 0 < deadline ≤ U64_MAX → frozen (example_action units deadline).
Proof.
  intros Hu Hd. split; [split; simpl; unfold is_u64; lia|].
  unfold freeze. simpl. destruct (Z.eqb_spec units 0); [lia|]. by destruct (Z.eqb_spec deadline 0); [lia|].
Qed.

Lemma example_reached_by calls :
  Forall authority_call_typed calls → authority_reached (authority_run calls example_new_authority).
Proof.
  intros Hall. exists 99, example_scope, 10, 4, example_new_authority, calls.
  split_and!; try done; by vm_compute.
Qed.

Lemma example_calls_typed : Forall authority_call_typed example_calls.
Proof.
  unfold example_calls. repeat (apply Forall_cons_2 || apply Forall_nil_2);
    first [exact I|apply example_frozen; lia].
Qed.

Definition example_authority : ReferenceAuthority := authority_run example_calls example_new_authority.

Lemma example_authority_reached : authority_reached example_authority.
Proof. apply example_reached_by, example_calls_typed. Qed.

Lemma authority_accounting_always_witness :
  authority_reached example_authority ∧
  ∃ i, inspect example_authority = Ok i ∧ in_reserved i = map_sum reserved_units (ra_attempts example_authority) ∧
    in_available i = 3 ∧ in_reserved i = 7 ∧ in_charged i = 0.
Proof.
  split; [exact example_authority_reached|].
  destruct (authority_accounting_always example_authority) as (_ & i & Hi & Hr & _ & _ & _ & _ & _ & _);
    [exact example_authority_reached|].
  exists i. split; [exact Hi|]. split; [exact Hr|]. vm_compute in Hi. injection Hi as <-.
  split_and!; reflexivity.
Defined.

Lemma authority_lifecycle_witness :
  let a' := (authority_step (CallCancel 1) example_authority).2 in
  ra_issuer a' = 99 ∧ (∀ id, stage_step id (CallCancel 1) (stage_of example_authority id) (stage_of a' id)) ∧
  stage_of a' 1 = Some Cancelled ∧ stage_of a' 2 = Some Authorized.
Proof.
  intros a'.
  pose proof (authority_lifecycle example_authority (CallCancel 1) example_authority_reached I) as H.
  rewrite (surjective_pairing (authority_step (CallCancel 1) example_authority)) in H.
  destruct H as (_ & (_ & _ & _ & Hi) & _ & _ & Hst).
  split; [exact Hi|]. split; [exact Hst|]. split; vm_compute; reflexivity.
Defined.

Lemma permits_issued_and_honoured_exactly_witness :
  (dispatch example_permit (example_action 4 100) example_view example_authority).1 = Ok tt ∧
  ∃ at_, dispatchable example_authority example_permit (example_action 4 100) example_view at_.
Proof.
  assert ((dispatch example_permit (example_action 4 100) example_view example_authority).1 = Ok tt)
    as Hok by (vm_compute; reflexivity).
  split; [exact Hok|].
  destruct (permits_issued_and_honoured_exactly example_authority example_authority_reached) as [_ H].
  specialize (H example_permit (example_action 4 100) example_view).
  rewrite (surjective_pairing (dispatch example_permit _ _ _)) in H.
  destruct H as [H _]. apply H, Hok.
Defined.

Definition example_dispatched : ReferenceAuthority :=
  (dispatch example_permit (example_action 4 100) example_view example_authority).2.
Definition example_revoked : ReferenceAuthority := (revoke_epoch example_authority).2.

Lemma permits_one_shot_and_revocable_witness :
  refused (dispatch example_permit (example_action 4 100) example_view
    (authority_run [CallObserveTime 2] example_dispatched)).1 ∧
  refused (dispatch example_permit (example_action 4 100) example_view
    (authority_run [CallObserveTime 2] example_revoked)).1.
Proof.
  destruct (permits_one_shot_and_revocable example_authority [CallObserveTime 2] example_permit) as [H1 H2];
    [exact example_authority_reached|repeat constructor|].
  assert (dispatch example_permit (example_action 4 100) example_view example_authority
          = (Ok tt, example_dispatched)) as E1.
  { apply injective_projections; [vm_compute; reflexivity|reflexivity]. }
  assert (revoke_epoch example_authority = (Ok tt, example_revoked)) as E2.
  { apply injective_projections; [vm_compute; reflexivity|reflexivity]. }
  assert (stage_of example_authority (pm_attempt example_permit) = Some Authorized) as E3
    by (vm_compute; reflexivity).
  exact (conj (H1 _ _ (example_action 4 100) example_view _ E1)
              (H2 (example_action 4 100) example_view _ E3 E2)).
Defined.

Definition example_expired : ReferenceAuthority :=
  authority_run (example_calls ++ [CallObserveTime 50]) example_new_authority.

Lemma example_expired_reached : authority_reached example_expired.
Proof.
  assert (Forall authority_call_typed (example_calls ++ [CallObserveTime 50])) as H.
  { apply Forall_app. split; [exact example_calls_typed|repeat constructor]. }
  exact (example_reached_by _ H).
Qed.

Lemma retirement_exact_witness :
  ∃ a', retire_invalidated example_expired = (Ok (retirement_report example_expired 50), a') ∧
    rd_attempt <$> rb_retired (retirement_report example_expired 50) = [2; 3] ∧
    rb_refunded_units (retirement_report example_expired 50) = 3 ∧
    stage_of a' 1 = Some Authorized ∧ stage_of a' 2 = Some Cancelled.
Proof.
  pose proof (retirement_exact example_expired example_expired_reached) as H.
  assert (ra_elapsed example_expired = Some 50) as E by (vm_compute; reflexivity).
  rewrite E in H. destruct H as (a' & H & Hm & _). exists a'. split; [exact H|].
  assert (∀ id, stage_of a' id = at_stage <$>
    (retired_attempt 50 (r_epoch (ra_rights example_expired)) <$> ra_attempts example_expired) !! id) as Hst.
  { intros id. unfold stage_of. rewrite Hm. reflexivity. }
  rewrite !Hst. split_and!; vm_compute; reflexivity.
Defined.
