(* ===== verification/ProductFrontier.v ===== *)
(** * Products of stream frontiers

    [crates/fa-reference/src/product_frontier.rs] and
    [product_frontier/contiguous.rs]: one frontier of [Frontier.v] per
    projection of a source stream and per evidence stage, explicit closing
    markers, and the ingestion of a whole contiguous interval at once. *)

From stdpp Require Import base tactics numbers list gmap sets.
From S2P Require Import Prelude Judgment Frontier.

Local Open Scope Z_scope.

(** ** Model *)

Record ProjectionKey := mkProjectionKey {
  pk_source : Z;
  pk_branch : Z;
  pk_projection : Z;
  pk_source_epoch : Z;
}.

#[global] Instance ProjectionKey_eq_dec : EqDecision ProjectionKey.
Proof. solve_decision. Defined.
#[global] Program Instance ProjectionKey_countable : Countable ProjectionKey :=
  inj_countable' (λ k, (pk_source k, pk_branch k, pk_projection k, pk_source_epoch k))
    (λ '(a, b, c, d), mkProjectionKey a b c d) _.
Next Obligation. by intros []. Qed.

Inductive FrontierStage :=
  | Captured
  | Authenticated
  | DurableRequired
  | Presented
  | Judged
  | EffectBound.

#[global] Instance FrontierStage_eq_dec : EqDecision FrontierStage.
Proof. solve_decision. Defined.

(** The six stages, in their order. *)
Definition ALL_STAGES : list FrontierStage :=
  [Captured; Authenticated; DurableRequired; Presented; Judged; EffectBound].

Definition stage_index (s : FrontierStage) : nat :=
  match s with
  | Captured => 0 | Authenticated => 1 | DurableRequired => 2
  | Presented => 3 | Judged => 4 | EffectBound => 5
  end.

#[global] Program Instance FrontierStage_countable : Countable FrontierStage :=
  inj_countable stage_index (λ n, ALL_STAGES !! n) _.
Next Obligation. by intros []. Qed.

Record TrustedClosingMarker := mkTrustedClosingMarker {
  tm_key : ProjectionKey;
  tm_final_sequence : Z;
  tm_marker_generation : Z;
}.

Record FrontierRequirement := mkFrontierRequirement {
  fr_key : ProjectionKey;
  fr_stage : FrontierStage;
  fr_through : Z;
  fr_closure : option Z;
}.

Record StageFrontier := mkStageFrontier {
  sf_frontier : Frontier;
  sf_greatest_accepted : Z;
}.

Definition stage_frontier_new (max_gap : Z) : res Error StageFrontier :=
  frontier ← frontier_new max_gap;
  Ok (mkStageFrontier frontier 0).

Definition stage_frontier_accept (sequence : Z) : st StageFrontier Error unit :=
  zoom sf_frontier (λ f s, mkStageFrontier f (sf_greatest_accepted s)) (λ e, e)
    (frontier_accept sequence);;
  modify (λ s, mkStageFrontier (sf_frontier s) (Z.max (sf_greatest_accepted s) sequence)).

(** [StageFrontier::accept_contiguous]; the draining loop is the one of
    [Frontier::accept]. *)
Definition stage_frontier_accept_contiguous (first last : Z) : st StageFrontier Error unit :=
  self ← get;
  let frontier := sf_frontier self in
  let prefix := f_contiguous frontier in
  if last <=? prefix then mret tt
  else
    next ← ok_or (u64_checked_add prefix 1) Overflow;
    refuse_if (next <? first) Incomplete;;
    let pending := filter (λ position, last < position) (f_pending frontier) in
    put (mkStageFrontier
      (frontier_drain (S (size pending)) (mkFrontier last pending (f_max_gap frontier)))
      (Z.max (sf_greatest_accepted self) last)).

Record ProjectionFrontiers := mkProjectionFrontiers {
  pj_stages : gmap FrontierStage StageFrontier;
  pj_close : option TrustedClosingMarker;
}.

(** The loop of [ProjectionFrontiers::new] over the stages. *)
Fixpoint insert_stages (max_gap : Z) (stages : list FrontierStage)
    (m : gmap FrontierStage StageFrontier) : res Error (gmap FrontierStage StageFrontier) :=
  match stages with
  | [] => Ok m
  | stage :: stages =>
    s ← stage_frontier_new max_gap;
    insert_stages max_gap stages (<[stage := s]> m)
  end.

Definition projection_new (max_gap : Z) : res Error ProjectionFrontiers :=
  stages ← insert_stages max_gap ALL_STAGES ∅;
  Ok (mkProjectionFrontiers stages None).

Definition projection_greatest_accepted (self : ProjectionFrontiers) : Z :=
  foldr Z.max 0 (sf_greatest_accepted <$> (map_to_list (pj_stages self)).*2).

Record ProductFrontiers := mkProductFrontiers {
  pf_max_streams : Z;
  pf_max_gap : Z;
  pf_projections : gmap ProjectionKey ProjectionFrontiers;
}.

Definition set_projection (key : ProjectionKey) (p : ProjectionFrontiers) (s : ProductFrontiers)
    : ProductFrontiers :=
  mkProductFrontiers (pf_max_streams s) (pf_max_gap s) (<[key := p]> (pf_projections s)).

Definition product_new (max_streams max_gap : Z) : res Error ProductFrontiers :=
  refuse_if (max_streams =? 0) InvalidInput;;
  frontier_new max_gap;;
  Ok (mkProductFrontiers max_streams max_gap ∅).

(** [projection.stages.get_mut(&stage).ok_or(Missing)?.<call>] on a projection
    held by the caller. *)
Definition on_stage (stage : FrontierStage) (m : st StageFrontier Error unit)
    : st ProjectionFrontiers Error unit :=
  self ← get;
  s ← ok_or (pj_stages self !! stage) Missing;
  zoom (λ _, s) (λ s p, mkProjectionFrontiers (<[stage := s]> (pj_stages p)) (pj_close p)) (λ e, e) m.

(** The same through [self.projections.get_mut(&key)]. *)
Definition on_projection (key : ProjectionKey) (p : ProjectionFrontiers)
    (m : st ProjectionFrontiers Error unit) : st ProductFrontiers Error unit :=
  zoom (λ _, p) (set_projection key) (λ e, e) m.

(** [Option::is_some_and] *)
Definition is_some_and {A} (o : option A) (p : A → bool) : bool :=
  match o with Some a => p a | None => false end.

Definition product_accept (key : ProjectionKey) (stage : FrontierStage) (sequence : Z)
    : st ProductFrontiers Error unit :=
  self ← get;
  refuse_if (sequence =? 0) InvalidInput;;
  match pf_projections self !! key with
  | Some existing =>
    refuse_if (is_some_and (pj_close existing) (λ marker, tm_final_sequence marker <? sequence)) WrongState;;
    on_projection key existing (on_stage stage (stage_frontier_accept sequence))
  | None =>
    refuse_if (pf_max_streams self <=? Z.of_nat (size (pf_projections self))) Limit;;
    projection ← lift (projection_new (pf_max_gap self));
    projection ← lift (exec (on_stage stage (stage_frontier_accept sequence)) projection);
    modify (set_projection key projection)
  end.

Definition product_accept_contiguous (key : ProjectionKey) (stage : FrontierStage) (first last : Z)
    : st ProductFrontiers Error unit :=
  self ← get;
  refuse_if ((first =? 0) || (last <? first)) InvalidInput;;
  match pf_projections self !! key with
  | Some projection =>
    refuse_if (is_some_and (pj_close projection) (λ marker, tm_final_sequence marker <? last)) WrongState;;
    on_projection key projection (on_stage stage (stage_frontier_accept_contiguous first last))
  | None =>
    refuse_if (negb (first =? 1)) Incomplete;;
    refuse_if (pf_max_streams self <=? Z.of_nat (size (pf_projections self))) Limit;;
    projection ← lift (projection_new (pf_max_gap self));
    projection ← lift (exec (on_stage stage (stage_frontier_accept_contiguous first last)) projection);
    modify (set_projection key projection)
  end.

Definition product_record_close (marker : TrustedClosingMarker) : st ProductFrontiers Error unit :=
  self ← get;
  refuse_if (tm_marker_generation marker =? 0) InvalidInput;;
  match pf_projections self !! tm_key marker with
  | None =>
    refuse_if (negb (tm_final_sequence marker =? 0)) Missing;;
    refuse_if (pf_max_streams self <=? Z.of_nat (size (pf_projections self))) Limit;;
    projection ← lift (projection_new (pf_max_gap self));
    modify (set_projection (tm_key marker) (mkProjectionFrontiers (pj_stages projection) (Some marker)))
  | Some projection =>
    refuse_if (bool_decide (is_Some (pj_close projection))) WrongState;;
    refuse_if (tm_final_sequence marker <? projection_greatest_accepted projection) InvalidInput;;
    authenticated ← ok_or (pj_stages projection !! Authenticated) Missing;
    refuse_if (f_contiguous (sf_frontier authenticated) <? tm_final_sequence marker) Incomplete;;
    modify (set_projection (tm_key marker) (mkProjectionFrontiers (pj_stages projection) (Some marker)))
  end.

Definition product_closing_marker (self : ProductFrontiers) (key : ProjectionKey)
    : option TrustedClosingMarker :=
  pf_projections self !! key ≫= pj_close.

Definition product_satisfies (self : ProductFrontiers) (requirement : FrontierRequirement)
    : res Error bool :=
  refuse_if (bool_decide (fr_closure requirement = Some 0)
             || ((fr_through requirement =? 0) && bool_decide (fr_closure requirement = None))) InvalidInput;;
  match pf_projections self !! fr_key requirement with
  | None => Ok false
  | Some projection =>
    stage ← ok_or (pj_stages projection !! fr_stage requirement) Missing;
    if f_contiguous (sf_frontier stage) <? fr_through requirement then Ok false
    else
      match fr_closure requirement with
      | None => Ok true
      | Some generation => Ok (is_some_and (pj_close projection) (λ marker,
          (tm_marker_generation marker =? generation)
          && (fr_through requirement <=? tm_final_sequence marker)))
      end
  end.

Definition product_frontier (self : ProductFrontiers) (key : ProjectionKey) (stage : FrontierStage)
    : res Error Z :=
  ok_or ((λ s, f_contiguous (sf_frontier s)) <$>
         (pf_projections self !! key ≫= λ p, pj_stages p !! stage)) Missing.

(** ** One stage

    A well-formed frontier is determined by what it has accepted, so two ways
    of accepting the same positions end in the same state. *)

Lemma frontier_ext f f' :
  frontier_wf f → frontier_wf f' → f_max_gap f = f_max_gap f' →
  (∀ x, frontier_contains f x = true ↔ frontier_contains f' x = true) → f = f'.
Proof.
  intros Hwf Hwf' Hgap Hsame.
  assert (f_contiguous f = f_contiguous f') as Hc.
  { pose proof (fwf_contiguous _ Hwf) as Hc. pose proof (fwf_contiguous _ Hwf') as Hc'. unfold is_u64 in *.
    pose proof (proj1 (frontier_contiguous_maximal f _ Hwf Hc) ltac:(lia)) as H1.
    pose proof (proj1 (frontier_contiguous_maximal f' _ Hwf' Hc') ltac:(lia)) as H2.
    assert (f_contiguous f ≤ f_contiguous f').
    { apply (frontier_contiguous_maximal f'); [done|lia|]. intros i Hi. by apply Hsame, H1. }
    assert (f_contiguous f' ≤ f_contiguous f); [|lia].
    apply (frontier_contiguous_maximal f); [done|lia|]. intros i Hi. by apply Hsame, H2. }
  assert (∀ g, frontier_wf g → ∀ x, x ∈ f_pending g ↔ frontier_contains g x = true ∧ f_contiguous g < x) as Hpend.
  { intros g [Hg _ Hp] x. rewrite frontier_contains_spec. unfold is_u64 in Hg. split.
    - intros Hx. specialize (Hp x Hx). split; [split; [lia|by right]|lia].
    - intros [[_ [?|?]] ?]; [lia|done]. }
  assert (f_pending f = f_pending f') as Hp.
  { apply set_eq. intros x. by rewrite !Hpend, Hsame, Hc. }
  destruct f, f'. simpl in *. by subst.
Qed.

Definition stage_contains (s : StageFrontier) (x : Z) : Prop :=
  frontier_contains (sf_frontier s) x = true.

(** The greatest accepted position is the greatest one contained. *)
Record stage_wf (gap : Z) (s : StageFrontier) : Prop := {
  sw_frontier : frontier_wf (sf_frontier s);
  sw_gap : f_max_gap (sf_frontier s) = gap;
  sw_nonneg : 0 ≤ sf_greatest_accepted s;
  sw_bound : ∀ x, stage_contains s x → x ≤ sf_greatest_accepted s;
  sw_reached : 0 < sf_greatest_accepted s → stage_contains s (sf_greatest_accepted s);
}.

Lemma stage_ext gap s s' :
  stage_wf gap s → stage_wf gap s' → (∀ x, stage_contains s x ↔ stage_contains s' x) → s = s'.
Proof.
  intros [Hwf Hg Hn Hb Hr] [Hwf' Hg' Hn' Hb' Hr'] Hsame.
  assert (sf_frontier s = sf_frontier s') as Hf by (apply frontier_ext; [done|done|congruence|done]).
  assert (sf_greatest_accepted s = sf_greatest_accepted s') as Hgr.
  { assert (sf_greatest_accepted s ≤ sf_greatest_accepted s').
    { destruct (Z.le_gt_cases (sf_greatest_accepted s) 0); [lia|]. by apply Hb', Hsame, Hr. }
    assert (sf_greatest_accepted s' ≤ sf_greatest_accepted s); [|lia].
    destruct (Z.le_gt_cases (sf_greatest_accepted s') 0); [lia|]. by apply Hb, Hsame, Hr'. }
  destruct s, s'. simpl in *. by subst.
Qed.

Lemma stage_contains_positive s x : stage_contains s x → 0 < x.
Proof. unfold stage_contains. rewrite frontier_contains_spec. tauto. Qed.

(** What an ingestion of the positions [P], none beyond [bound], does to a
    stage: all of them are accepted, or nothing changes. *)
Definition ingests (gap : Z) (P : Z → Prop) (bound : Z) (m : st StageFrontier Error unit) : Prop :=
  ∀ s, stage_wf gap s →
    (∃ e, m s = (Err e, s)) ∨
    (∃ s', m s = (Ok tt, s') ∧ stage_wf gap s' ∧ (∀ x, stage_contains s' x ↔ stage_contains s x ∨ P x) ∧
      sf_greatest_accepted s' ≤ Z.max (sf_greatest_accepted s) bound ∧
      f_contiguous (sf_frontier s) ≤ f_contiguous (sf_frontier s')).

(** Where a stage contains [last], so much is true of the new greatest one. *)
Lemma stage_wf_extend gap s f last :
  stage_wf gap s → frontier_wf f → f_max_gap f = gap → 0 ≤ last →
  (∀ x, frontier_contains f x = true → stage_contains s x ∨ x ≤ last) →
  (∀ x, stage_contains s x → frontier_contains f x = true) →
  (0 < last → frontier_contains f last = true) →
  stage_wf gap (mkStageFrontier f (Z.max (sf_greatest_accepted s) last)).
Proof.
  intros [Hwf Hg Hn Hb Hr] Hf Hgap Hl Hdown Hup Hlast. split; simpl; [done|done|lia| |].
  - intros x [Hx|Hx]%Hdown; [specialize (Hb x Hx)|]; lia.
  - intros Hpos. destruct (Z.max_spec (sf_greatest_accepted s) last) as [[? ->]|[? ->]]; [apply Hlast; lia|].
    apply Hup, Hr. lia.
Qed.

Lemma stage_accept_cases gap sequence s :
  stage_wf gap s → is_u64 sequence →
  (∃ e, stage_frontier_accept sequence s = (Err e, s) ∧
        (sequence = 0 ∨ gap < sequence - f_contiguous (sf_frontier s))) ∨
  (∃ s', stage_frontier_accept sequence s = (Ok tt, s') ∧ stage_wf gap s' ∧ 0 < sequence ∧
    (∀ x, stage_contains s' x ↔ stage_contains s x ∨ x = sequence) ∧
    sf_greatest_accepted s' = Z.max (sf_greatest_accepted s) sequence ∧
    f_contiguous (sf_frontier s) ≤ f_contiguous (sf_frontier s')).
Proof.
  intros Hwf Hs. pose proof Hwf as [Hf Hg _ _ _].
  destruct (frontier_accept_spec (sf_frontier s) sequence Hf Hs) as (r & f' & E & Hf' & Hg' & Hle & Hcase).
  unfold stage_frontier_accept. munfold_goal. rewrite E.
  destruct Hcase as [(-> & -> & ->)|[(-> & Hgap & _ & ->)|(-> & Hpos & _ & Hin)]].
  - left. exists InvalidInput. split; [by destruct s|by left].
  - left. exists Limit. split; [by destruct s|right; lia].
  - right. eexists. split; [reflexivity|]. cbn [sf_frontier sf_greatest_accepted].
    split_and!; [|done|done|done|done].
    apply (stage_wf_extend gap); [done|done|congruence|lia| | |].
    + intros x Hx. apply Hin in Hx as [Hx| ->]; [by left|right; lia].
    + intros x Hx. apply Hin. by left.
    + intros _. apply Hin. by right.
Qed.

Lemma stage_accept_ingests gap sequence :
  is_u64 sequence → ingests gap (λ x, x = sequence) sequence (stage_frontier_accept sequence).
Proof.
  intros Hs s Hwf. destruct (stage_accept_cases gap sequence s Hwf Hs) as
    [(e & E & _)|(s' & E & Hwf' & _ & Hin & Hgr & Hle)]; [left; eauto|right].
  exists s'. split_and!; try done. lia.
Qed.

(** [accept_contiguous] refuses exactly an interval that leaves a hole. *)
Lemma stage_contiguous_cases gap first last s :
  stage_wf gap s → 1 ≤ first ≤ last → last ≤ U64_MAX →
  (stage_frontier_accept_contiguous first last s = (Err Incomplete, s) ∧
   f_contiguous (sf_frontier s) + 1 < first) ∨
  (first ≤ f_contiguous (sf_frontier s) + 1 ∧
   ∃ s', stage_frontier_accept_contiguous first last s = (Ok tt, s') ∧ stage_wf gap s' ∧
    (∀ x, stage_contains s' x ↔ stage_contains s x ∨ first ≤ x ≤ last) ∧
    sf_greatest_accepted s' ≤ Z.max (sf_greatest_accepted s) last ∧
    f_contiguous (sf_frontier s) ≤ f_contiguous (sf_frontier s')).
Proof.
  intros Hwf Hfl Hl. pose proof Hwf as [Hf Hg Hn Hb Hr]. pose proof Hf as [Hc Hgp Hp].
  unfold is_u64 in Hc. unfold stage_frontier_accept_contiguous, u64_checked_add. munfold_goal.
  destruct (Z.leb_spec last (f_contiguous (sf_frontier s))) as [Hle|Hgt].
  { right. split; [lia|]. exists s. split_and!; try done; [|lia].
    intros x. split; [by left|]. intros [?|?]; [done|]. apply frontier_contains_spec. lia. }
  destruct (Z.leb_spec (f_contiguous (sf_frontier s) + 1) U64_MAX); [|lia].
  destruct (Z.ltb_spec (f_contiguous (sf_frontier s) + 1) first); [left; split; [done|lia]|].
  right. split; [lia|]. set (pending := filter _ _).
  set (f0 := mkFrontier last pending (f_max_gap (sf_frontier s))).
  assert (frontier_pre f0) as Hpre.
  { split; simpl; [unfold is_u64; lia|done|]. intros x [Hx Hin]%elem_of_filter.
    specialize (Hp x Hin). lia. }
  destruct (frontier_drain_spec (S (size (f_pending f0))) f0 Hpre) as (Hwf' & Hgap & Hle & Hsame); [lia|].
  assert (∀ x, frontier_contains (frontier_drain (S (size pending)) f0) x = true ↔
    stage_contains s x ∨ first ≤ x ≤ last) as Hin.
  { intros x. change (size pending) with (size (f_pending f0)). rewrite Hsame.
    unfold stage_contains. rewrite !frontier_contains_spec. simpl. unfold pending. rewrite elem_of_filter.
    split; [intros (Hpos & [?|[? ?]])|intros [[Hpos [?|?]]|?]].
    - destruct (Z.le_gt_cases x (f_contiguous (sf_frontier s))); [left|right]; lia.
    - by left; split; [|right].
    - split; [done|left; lia].
    - destruct (Z.le_gt_cases x last); (split; [done|]); [by left|by right].
    - split; [lia|left; lia]. }
  eexists. split; [reflexivity|]. cbn [sf_frontier sf_greatest_accepted].
  split_and!; [|done|lia|etrans; [|exact Hle]; simpl; lia].
  apply (stage_wf_extend gap); [done|done|exact (eq_trans Hgap Hg)|lia| | |].
  - intros x Hx. apply Hin in Hx as [Hx|Hx]; [by left|right; lia].
  - intros x Hx. apply Hin. by left.
  - intros _. apply Hin. right. lia.
Qed.

Lemma stage_contiguous_ingests gap first last :
  1 ≤ first ≤ last → last ≤ U64_MAX →
  ingests gap (λ x, first ≤ x ≤ last) last (stage_frontier_accept_contiguous first last).
Proof.
  intros Hfl Hl s Hwf. destruct (stage_contiguous_cases gap first last s Hwf Hfl Hl) as
    [[E _]|[_ (s' & E & ?)]]; [left; eauto|right; eauto].
Qed.

(** A series of accepts that all succeed. *)
Fixpoint stage_accept_all (xs : list Z) : st StageFrontier Error unit :=
  match xs with
  | [] => mret tt
  | x :: xs => stage_frontier_accept x;; stage_accept_all xs
  end.

Lemma stage_accept_all_interval gap n first s :
  stage_wf gap s → 1 ≤ first ≤ f_contiguous (sf_frontier s) + 1 → first + Z.of_nat n - 1 ≤ U64_MAX →
  ∃ s', stage_accept_all (seqZ first (Z.of_nat n)) s = (Ok tt, s') ∧ stage_wf gap s' ∧
    ∀ x, stage_contains s' x ↔ stage_contains s x ∨ first ≤ x < first + Z.of_nat n.
Proof.
  revert first s. induction n as [|n IH]; intros first s Hwf Hf Hn.
  { exists s. split_and!; [done|done|]. intros x. split; [by left|intros [?|?]; [done|lia]]. }
  rewrite seqZ_cons by lia. simpl. munfold_goal.
  pose proof (sw_frontier _ _ Hwf) as [_ Hgap _]. pose proof (sw_gap _ _ Hwf) as Hg.
  destruct (stage_accept_cases gap first s Hwf) as
    [(e & _ & Hbad)|(s1 & -> & Hwf1 & _ & Hin1 & _ & Hle1)]; [unfold is_u64; lia|lia|].
  assert (first ≤ f_contiguous (sf_frontier s1)) as Hc1.
  { apply frontier_contiguous_maximal; [apply Hwf1|lia|]. intros i Hi. apply Hin1.
    destruct (decide (i = first)) as [->|]; [by right|left]. apply frontier_contains_spec. lia. }
  replace (Z.pred (Z.of_nat (S n))) with (Z.of_nat n) by lia. rewrite <-Z.add_1_r.
  destruct (IH (first + 1) s1) as (s' & -> & Hwf' & Hin'); [done|lia|lia|].
  exists s'. split_and!; [done|done|]. intros x. rewrite Hin', Hin1.
  split; [intros [[?| ->]|?]|intros [?|?]].
  - by left.
  - right. lia.
  - right. lia.
  - left. by left.
  - destruct (decide (x = first)) as [->|]; [left; by right|right; lia].
Qed.

(** The interval's positions one by one end in the same state. *)
Lemma stage_accept_all_eq gap first last s :
  stage_wf gap s → 1 ≤ first ≤ last → last ≤ U64_MAX → first ≤ f_contiguous (sf_frontier s) + 1 →
  stage_accept_all (seqZ first (last - first + 1)) s = stage_frontier_accept_contiguous first last s.
Proof.
  intros Hwf Hfl Hl Htouch.
  destruct (stage_contiguous_cases gap first last s Hwf Hfl Hl) as [[_ ?]|[_ (s' & -> & Hwf' & Hin & _)]]; [lia|].
  destruct (stage_accept_all_interval gap (Z.to_nat (last - first + 1)) first s) as (s1 & E & Hwf1 & Hin1);
    [done|lia|lia|].
  rewrite Z2Nat.id in E by lia. rewrite E. f_equal. apply (stage_ext gap); [done..|].
  intros x. rewrite Hin1, Hin. rewrite Z2Nat.id by lia. split; (intros [?|?]; [by left|right; lia]).
Qed.

(** ** The product *)

Definition stage_at (pf : ProductFrontiers) (key : ProjectionKey) (stage : FrontierStage) : option StageFrontier :=
  pf_projections pf !! key ≫= λ p, pj_stages p !! stage.

Definition product_contains (pf : ProductFrontiers) (key : ProjectionKey) (stage : FrontierStage) (x : Z) : Prop :=
  ∃ s, stage_at pf key stage = Some s ∧ stage_contains s x.

(** A closed projection: nothing was accepted beyond its end at any stage, and
    everything up to it was authenticated. *)
Record projection_closed (p : ProjectionFrontiers) (key : ProjectionKey) (m : TrustedClosingMarker) : Prop := {
  pc_key : tm_key m = key;
  pc_generation : tm_marker_generation m ≠ 0;
  pc_bound : ∀ stage s, pj_stages p !! stage = Some s → sf_greatest_accepted s ≤ tm_final_sequence m;
  pc_authenticated : ∀ s, pj_stages p !! Authenticated = Some s →
    tm_final_sequence m ≤ f_contiguous (sf_frontier s);
}.

Record projection_wf (gap : Z) (key : ProjectionKey) (p : ProjectionFrontiers) : Prop := {
  pw_stages : ∀ stage, ∃ s, pj_stages p !! stage = Some s ∧ stage_wf gap s;
  pw_close : ∀ m, pj_close p = Some m → projection_closed p key m;
}.

Record product_wf (pf : ProductFrontiers) : Prop := {
  pdw_gap : 1 ≤ pf_max_gap pf ≤ 1000000;
  pdw_size : Z.of_nat (size (pf_projections pf)) ≤ pf_max_streams pf;
  pdw_projections : map_Forall (projection_wf (pf_max_gap pf)) (pf_projections pf);
}.

Definition empty_stage (gap : Z) : StageFrontier := mkStageFrontier (mkFrontier 0 ∅ gap) 0.
Definition empty_projection (gap : Z) : ProjectionFrontiers :=
  mkProjectionFrontiers (list_to_map ((λ stage, (stage, empty_stage gap)) <$> reverse ALL_STAGES)) None.

Lemma stage_contains_empty gap x : ¬ stage_contains (empty_stage gap) x.
Proof. unfold stage_contains. rewrite frontier_contains_spec. simpl. intros [? [?|?]]; [lia|set_solver]. Qed.

Lemma empty_stage_wf gap : 1 ≤ gap ≤ 1000000 → stage_wf gap (empty_stage gap).
Proof.
  intros Hg. split; simpl; [split; simpl; [unfold is_u64; lia|done|set_solver]|done|done| |lia].
  intros x Hx. by destruct (stage_contains_empty gap x).
Qed.

Lemma empty_projection_lookup gap stage : pj_stages (empty_projection gap) !! stage = Some (empty_stage gap).
Proof. by destruct stage. Qed.

Lemma projection_new_eq gap : 1 ≤ gap ≤ 1000000 → projection_new gap = Ok (empty_projection gap).
Proof.
  intros Hg. unfold projection_new, ALL_STAGES, insert_stages, stage_frontier_new, frontier_new.
  assert ((gap =? 0) || (1000000 <? gap) = false) as -> by (zcompare; destruct (Z.eqb_spec gap 0); simpl; lia).
  reflexivity.
Qed.

Lemma empty_projection_wf gap key : 1 ≤ gap ≤ 1000000 → projection_wf gap key (empty_projection gap).
Proof.
  intros Hg. split; [|done]. intros stage. exists (empty_stage gap).
  split; [apply empty_projection_lookup|by apply empty_stage_wf].
Qed.

Lemma projection_greatest_le p stage s :
  pj_stages p !! stage = Some s → sf_greatest_accepted s ≤ projection_greatest_accepted p.
Proof.
  intros Hs. unfold projection_greatest_accepted.
  assert (s ∈ (map_to_list (pj_stages p)).*2) as Hin.
  { apply list_elem_of_fmap. exists (stage, s). by rewrite elem_of_map_to_list. }
  clear Hs. induction Hin; csimpl; lia.
Qed.

(** The state after one stage of one projection became [s]. *)
Definition put_stage (key : ProjectionKey) (p : ProjectionFrontiers) (stage : FrontierStage)
    (s : StageFrontier) (pf : ProductFrontiers) : ProductFrontiers :=
  set_projection key (mkProjectionFrontiers (<[stage := s]> (pj_stages p)) (pj_close p)) pf.

Lemma put_stage_same key p stage s pf :
  pf_projections pf !! key = Some p → pj_stages p !! stage = Some s → put_stage key p stage s pf = pf.
Proof.
  intros Hp Hs. unfold put_stage, set_projection. rewrite (insert_id (pj_stages p)) by done.
  destruct p, pf. simpl in *. by rewrite insert_id.
Qed.

Lemma on_stage_eq stage m p s :
  pj_stages p !! stage = Some s →
  on_stage stage m p =
    let '(r, s') := m s in (r, mkProjectionFrontiers (<[stage := s']> (pj_stages p)) (pj_close p)).
Proof.
  intros Hs. unfold on_stage. munfold_goal. rewrite Hs. by destruct (m s) as [[] ?].
Qed.

(** What an ingestion at one stage does to the product: all of [P] is accepted
    there, or the product stays as it was; nothing else changes. *)
Record product_ingested (key : ProjectionKey) (stage : FrontierStage) (P : Z → Prop)
    (pf : ProductFrontiers) (out : res Error unit) (pf' : ProductFrontiers) : Prop := {
  pi_wf : product_wf pf';
  pi_no_panic : out ≠ Panic;
  pi_atomic : ∀ e, out = Err e → pf' = pf;
  pi_contains : out = Ok tt → ∀ key' stage' x, product_contains pf' key' stage' x ↔
    product_contains pf key' stage' x ∨ (key' = key ∧ stage' = stage ∧ P x);
  pi_close : ∀ key', product_closing_marker pf' key' = product_closing_marker pf key';
}.

Lemma ingested_refused key stage P pf e :
  product_wf pf → product_ingested key stage P pf (Err e) pf.
Proof. by intros. Qed.

(** Storing a stage that took in [P] into a projection, old or new. *)
Lemma put_stage_ingested key stage P bound pf p s s' :
  product_wf pf →
  pf_projections pf !! key = Some p ∨
    (pf_projections pf !! key = None ∧ p = empty_projection (pf_max_gap pf) ∧
     Z.of_nat (size (pf_projections pf)) < pf_max_streams pf) →
  projection_wf (pf_max_gap pf) key p → pj_stages p !! stage = Some s → stage_wf (pf_max_gap pf) s' →
  (∀ x, stage_contains s' x ↔ stage_contains s x ∨ P x) →
  sf_greatest_accepted s' ≤ Z.max (sf_greatest_accepted s) bound →
  f_contiguous (sf_frontier s) ≤ f_contiguous (sf_frontier s') →
  (∀ m, pj_close p = Some m → bound ≤ tm_final_sequence m) →
  product_ingested key stage P pf (Ok tt) (put_stage key p stage s' pf).
Proof.
  intros Hwf Hold Hpw Hs Hs' Hin Hgr Hle Hclose.
  assert (∀ stage', stage' ≠ stage → stage_at (put_stage key p stage s' pf) key stage' = pj_stages p !! stage') as Hother.
  { intros stage' Hne. unfold stage_at, put_stage. simpl. rewrite lookup_insert_eq. simpl. by rewrite lookup_insert_ne. }
  assert (stage_at (put_stage key p stage s' pf) key stage = Some s') as Hself.
  { unfold stage_at, put_stage. simpl. rewrite lookup_insert_eq. simpl. by rewrite lookup_insert_eq. }
  assert (∀ stage' x, (∃ s0, pj_stages p !! stage' = Some s0 ∧ stage_contains s0 x) ↔ product_contains pf key stage' x) as Hpc.
  { intros stage' x. unfold product_contains, stage_at. destruct Hold as [->|(-> & -> & _)]; [done|].
    split; [|by intros (? & ? & _)]. intros (s0 & Hs0 & Hx). rewrite empty_projection_lookup in Hs0. simplify_eq.
    by destruct (stage_contains_empty (pf_max_gap pf) x). }
  split; [|done|done| |].
  - destruct Hwf as [Hg Hsz Hall]. split; simpl; [done| |].
    + destruct Hold as [Hp|(Hp & _ & ?)]; [by rewrite map_size_insert_Some|rewrite map_size_insert_None by done; lia].
    + apply map_Forall_insert_2; [|done]. destruct Hpw as [Hst Hcl]. split; simpl.
      * intros stage'. destruct (decide (stage' = stage)) as [->|];
          [rewrite lookup_insert_eq; eauto|rewrite lookup_insert_ne by done; apply Hst].
      * intros m Hm. destruct (Hcl m Hm) as [C1 C2 C3 C4]. specialize (Hclose m Hm). split; simpl; [done|done| |].
        -- intros stage' s0. destruct (decide (stage' = stage)) as [->|].
           ++ rewrite lookup_insert_eq. intros [= <-]. specialize (C3 _ _ Hs). lia.
           ++ rewrite lookup_insert_ne by done. apply C3.
        -- intros s0. destruct (decide (stage = Authenticated)) as [->|].
           ++ rewrite lookup_insert_eq. intros [= <-]. specialize (C4 _ Hs). lia.
           ++ rewrite lookup_insert_ne by done. apply C4.
  - intros _ key' stage' x. destruct (decide (key' = key)) as [->|Hk].
    + rewrite <-Hpc. unfold product_contains. destruct (decide (stage' = stage)) as [->|Hne].
      * rewrite Hself, Hs. naive_solver.
      * rewrite Hother by done. naive_solver.
    + unfold product_contains, stage_at, put_stage. simpl. rewrite lookup_insert_ne by done. naive_solver.
  - intros key'. unfold product_closing_marker, put_stage. simpl. destruct (decide (key' = key)) as [->|].
    + rewrite lookup_insert_eq. by destruct Hold as [->|(-> & -> & _)].
    + by rewrite lookup_insert_ne.
Qed.

(** The branch of an ingestion on a projection that exists. *)
Lemma ingest_existing key stage P bound m pf p :
  product_wf pf → pf_projections pf !! key = Some p → ingests (pf_max_gap pf) P bound m →
  is_some_and (pj_close p) (λ marker, tm_final_sequence marker <? bound) = false →
  let '(out, pf') := on_projection key p (on_stage stage m) pf in product_ingested key stage P pf out pf'.
Proof.
  intros Hwf Hp Hm Hclose. pose proof (pdw_projections _ Hwf _ _ Hp) as Hpw.
  destruct (pw_stages _ _ _ Hpw stage) as (s & Hs & Hsw).
  unfold on_projection, zoom. rewrite (on_stage_eq _ _ _ s) by done.
  destruct (Hm s Hsw) as [(e & ->)|(s' & -> & Hsw' & Hin & Hgr & Hle)]; simpl.
  - fold (put_stage key p stage s pf). rewrite put_stage_same by done. by apply ingested_refused.
  - fold (put_stage key p stage s' pf). apply (put_stage_ingested _ _ _ bound _ _ s); try done; [by left|].
    intros mk Hmk. rewrite Hmk in Hclose. simpl in Hclose. lia.
Qed.

(** The branch that admits a projection. *)
Lemma ingest_new key stage P bound m pf :
  product_wf pf → pf_projections pf !! key = None → ingests (pf_max_gap pf) P bound m →
  Z.of_nat (size (pf_projections pf)) < pf_max_streams pf →
  let '(out, pf') := (projection ← lift (projection_new (pf_max_gap pf));
    projection ← lift (exec (on_stage stage m) projection);
    modify (set_projection key projection)) pf in product_ingested key stage P pf out pf'.
Proof.
  intros Hwf Hp Hm Hsz. munfold_goal. rewrite projection_new_eq by apply Hwf. cbn beta iota.
  unfold exec. rewrite (on_stage_eq _ _ _ (empty_stage (pf_max_gap pf))) by apply empty_projection_lookup.
  pose proof (empty_stage_wf _ (pdw_gap _ Hwf)) as Hsw.
  destruct (Hm _ Hsw) as [(e & ->)|(s' & -> & Hsw' & Hin & Hgr & Hle)]; cbn beta iota.
  - by apply ingested_refused.
  - apply (put_stage_ingested key stage P bound pf (empty_projection (pf_max_gap pf)) (empty_stage (pf_max_gap pf)));
      try done; [by right|apply empty_projection_wf, Hwf|apply empty_projection_lookup].
Qed.

(** The two branches of an ingestion, after the argument checks. *)
Lemma ingest_branches key stage P bound m (check_new : res Error unit) pf :
  product_wf pf → ingests (pf_max_gap pf) P bound m → check_new ≠ Panic →
  let '(out, pf') :=
    match pf_projections pf !! key with
    | Some p =>
      refuse_if (is_some_and (pj_close p) (λ marker, tm_final_sequence marker <? bound)) WrongState;;
      on_projection key p (on_stage stage m)
    | None =>
      lift check_new;;
      refuse_if (pf_max_streams pf <=? Z.of_nat (size (pf_projections pf))) Limit;;
      projection ← lift (projection_new (pf_max_gap pf));
      projection ← lift (exec (on_stage stage m) projection);
      modify (set_projection key projection)
    end pf in
  product_ingested key stage P pf out pf'.
Proof.
  intros Hwf Hm Hnew. destruct (pf_projections pf !! key) as [p|] eqn:Hp.
  - pose proof (ingest_existing key stage P bound m pf p Hwf Hp Hm) as Hex. munfold. munfold_goal.
    destruct (is_some_and _ _); [by apply ingested_refused|by apply Hex].
  - pose proof (ingest_new key stage P bound m pf Hwf Hp Hm) as Hin. munfold. munfold_goal.
    destruct check_new; [|by apply ingested_refused|done].
    destruct (Z.leb_spec (pf_max_streams pf) (Z.of_nat (size (pf_projections pf))));
      [by apply ingested_refused|by apply Hin].
Qed.

Lemma product_accept_sound key stage sequence pf :
  product_wf pf → is_u64 sequence →
  let '(out, pf') := product_accept key stage sequence pf in
  product_ingested key stage (λ x, x = sequence) pf out pf'.
Proof.
  intros Hwf Hs.
  pose proof (ingest_branches key stage _ sequence _ (Ok tt) pf Hwf (stage_accept_ingests _ _ Hs)) as Hb.
  unfold product_accept. munfold. munfold_goal.
  destruct (sequence =? 0); [by apply ingested_refused|by apply Hb].
Qed.

Lemma product_accept_contiguous_sound key stage first last pf :
  product_wf pf → is_u64 first → is_u64 last →
  let '(out, pf') := product_accept_contiguous key stage first last pf in
  product_ingested key stage (λ x, first ≤ x ≤ last) pf out pf'.
Proof.
  intros Hwf Hf Hl. unfold is_u64 in *. unfold product_accept_contiguous.
  destruct ((first =? 0) || (last <? first)) eqn:E; munfold_goal; [by apply ingested_refused|].
  apply orb_false_iff in E as [E1%Z.eqb_neq E2%Z.ltb_ge].
  pose proof (ingest_branches key stage _ last _ (if negb (first =? 1) then Err Incomplete else Ok tt) pf Hwf
    (stage_contiguous_ingests _ first last ltac:(lia) ltac:(lia))) as Hb.
  munfold. destruct (negb (first =? 1)); by apply Hb.
Qed.

(** *** Closing *)

Definition closed_by (m : TrustedClosingMarker) (pf : ProductFrontiers) (key : ProjectionKey)
    : option TrustedClosingMarker :=
  if decide (key = tm_key m) then Some m else product_closing_marker pf key.

Record product_closed (m : TrustedClosingMarker) (pf : ProductFrontiers) (out : res Error unit)
    (pf' : ProductFrontiers) : Prop := {
  pcl_wf : product_wf pf';
  pcl_no_panic : out ≠ Panic;
  pcl_atomic : ∀ e, out = Err e → pf' = pf;
  pcl_contains : ∀ key stage x, product_contains pf' key stage x ↔ product_contains pf key stage x;
  pcl_fresh : out = Ok tt → product_closing_marker pf (tm_key m) = None;
  pcl_close : out = Ok tt → ∀ key, product_closing_marker pf' key = closed_by m pf key;
}.

Lemma closed_refused m pf e : product_wf pf → product_closed m pf (Err e) pf.
Proof. by intros. Qed.

(** Storing the marker with the projection it closes, old or new. *)
Lemma put_close_closed m pf p :
  product_wf pf →
  pf_projections pf !! tm_key m = Some p ∨
    (pf_projections pf !! tm_key m = None ∧ p = empty_projection (pf_max_gap pf) ∧
     Z.of_nat (size (pf_projections pf)) < pf_max_streams pf) →
  projection_wf (pf_max_gap pf) (tm_key m) p → pj_close p = None →
  projection_closed p (tm_key m) m →
  product_closed m pf (Ok tt)
    (set_projection (tm_key m) (mkProjectionFrontiers (pj_stages p) (Some m)) pf).
Proof.
  intros Hwf Hold Hpw Hopen Hclosed. split; try done.
  - destruct Hwf as [Hg Hsz Hall]. split; simpl; [done| |].
    + destruct Hold as [Hp|(Hp & _ & ?)]; [by rewrite map_size_insert_Some|rewrite map_size_insert_None by done; lia].
    + apply map_Forall_insert_2; [|done]. destruct Hpw as [Hst _]. split; [exact Hst|].
      intros m' [= <-]. by destruct Hclosed.
  - intros key stage x. unfold product_contains, stage_at. simpl. destruct (decide (key = tm_key m)) as [->|];
      [|by rewrite lookup_insert_ne].
    rewrite lookup_insert_eq. destruct Hold as [->|(-> & -> & _)]; [done|].
    split; [|by intros (? & ? & _)]. intros (s & Hs & Hx).
    change (pj_stages (empty_projection (pf_max_gap pf)) !! stage = Some s) in Hs.
    rewrite empty_projection_lookup in Hs. simplify_eq. by destruct (stage_contains_empty (pf_max_gap pf) x).
  - intros _. unfold product_closing_marker. by destruct Hold as [->|(-> & _)].
  - intros _ key. unfold product_closing_marker, closed_by. simpl. destruct (decide (key = tm_key m)) as [->|];
      [by rewrite lookup_insert_eq|by rewrite lookup_insert_ne].
Qed.

Lemma product_record_close_sound m pf :
  product_wf pf → is_u64 (tm_final_sequence m) →
  let '(out, pf') := product_record_close m pf in product_closed m pf out pf'.
Proof.
  intros Hwf Hm. unfold is_u64 in Hm. unfold product_record_close. munfold_goal.
  destruct (Z.eqb_spec (tm_marker_generation m) 0); [by apply closed_refused|].
  destruct (pf_projections pf !! tm_key m) as [p|] eqn:Hp.
  - pose proof (pdw_projections _ Hwf _ _ Hp) as Hpw.
    case_bool_decide as Hopen; [by apply closed_refused|]. apply eq_None_not_Some in Hopen.
    destruct (Z.ltb_spec (tm_final_sequence m) (projection_greatest_accepted p)); [by apply closed_refused|].
    destruct (pw_stages _ _ _ Hpw Authenticated) as (s & Hs & _). rewrite Hs.
    destruct (Z.ltb_spec (f_contiguous (sf_frontier s)) (tm_final_sequence m)); [by apply closed_refused|].
    apply put_close_closed; try done; [by left|]. split; [done|done| |].
    + intros stage s' Hs'. pose proof (projection_greatest_le p stage s' Hs'). lia.
    + intros s' Hs'. simplify_eq. done.
  - destruct (Z.eqb_spec (tm_final_sequence m) 0); simpl; [|by apply closed_refused].
    destruct (Z.leb_spec (pf_max_streams pf) (Z.of_nat (size (pf_projections pf)))); [by apply closed_refused|].
    rewrite projection_new_eq by apply Hwf.
    apply (put_close_closed m pf (empty_projection (pf_max_gap pf))); try done;
      [by right|apply empty_projection_wf, Hwf|]. split; [done|done| |].
    + intros stage s'. rewrite empty_projection_lookup. intros [= <-]. simpl. lia.
    + intros s'. rewrite empty_projection_lookup. intros [= <-]. simpl. lia.
Qed.

(** ** Runs *)

Inductive product_call :=
  | CallAccept (key : ProjectionKey) (stage : FrontierStage) (sequence : Z)
  | CallContiguous (key : ProjectionKey) (stage : FrontierStage) (first last : Z)
  | CallClose (marker : TrustedClosingMarker).

Definition product_step (c : product_call) : st ProductFrontiers Error unit :=
  match c with
  | CallAccept key stage sequence => product_accept key stage sequence
  | CallContiguous key stage first last => product_accept_contiguous key stage first last
  | CallClose marker => product_record_close marker
  end.

Definition product_call_typed (c : product_call) : Prop :=
  match c with
  | CallAccept _ _ sequence => is_u64 sequence
  | CallContiguous _ _ first last => is_u64 first ∧ is_u64 last
  | CallClose marker => is_u64 (tm_final_sequence marker)
  end.

(** The calls that succeeded, and the state they left. *)
Fixpoint product_run (calls : list product_call) (pf : ProductFrontiers) : list product_call * ProductFrontiers :=
  match calls with
  | [] => ([], pf)
  | c :: calls =>
    let '(r, pf1) := product_step c pf in
    let '(oks, pf2) := product_run calls pf1 in
    (if is_ok r then c :: oks else oks, pf2)
  end.

(** What a call observed. *)
Definition observes (c : product_call) (key : ProjectionKey) (stage : FrontierStage) (x : Z) : Prop :=
  match c with
  | CallAccept k s sequence => key = k ∧ stage = s ∧ x = sequence
  | CallContiguous k s first last => key = k ∧ stage = s ∧ first ≤ x ≤ last
  | CallClose _ => False
  end.

Definition observed (oks : list product_call) (key : ProjectionKey) (stage : FrontierStage) (x : Z) : Prop :=
  ∃ c, c ∈ oks ∧ observes c key stage x.

Lemma product_step_sound c pf :
  product_wf pf → product_call_typed c →
  let '(out, pf') := product_step c pf in
  product_wf pf' ∧ out ≠ Panic ∧ (∀ e, out = Err e → pf' = pf) ∧
  (out = Ok tt →
    (∀ key stage x, product_contains pf' key stage x ↔ product_contains pf key stage x ∨ observes c key stage x) ∧
    (∀ key m, product_closing_marker pf' key = Some m ↔
       product_closing_marker pf key = Some m ∨ (c = CallClose m ∧ tm_key m = key))).
Proof.
  intros Hwf Hty. destruct c as [key stage x|key stage first last|m]; simpl in *.
  - pose proof (product_accept_sound key stage x pf Hwf Hty) as Hs. destruct (product_accept _ _ _ _).
    destruct Hs as [? ? ? Hc Hm]. split_and!; try done. intros Ho. split; [by apply Hc|].
    intros key' m. rewrite Hm. naive_solver.
  - destruct Hty as [Hf Hl]. pose proof (product_accept_contiguous_sound key stage first last pf Hwf Hf Hl) as Hs.
    destruct (product_accept_contiguous _ _ _ _ _).
    destruct Hs as [? ? ? Hc Hm]. split_and!; try done. intros Ho. split; [by apply Hc|].
    intros key' m. rewrite Hm. naive_solver.
  - pose proof (product_record_close_sound m pf Hwf Hty) as Hs. destruct (product_record_close _ _).
    destruct Hs as [? ? ? Hc Hfr Hm]. split_and!; try done. intros Ho. split.
    + intros key stage x. rewrite Hc. naive_solver.
    + intros key m'. rewrite (Hm Ho). unfold closed_by. specialize (Hfr Ho).
      case_decide; subst; naive_solver congruence.
Qed.

Lemma product_run_spec calls pf :
  product_wf pf → Forall product_call_typed calls →
  let '(oks, pf') := product_run calls pf in
  product_wf pf' ∧
  (∀ key stage x, product_contains pf' key stage x ↔ product_contains pf key stage x ∨ observed oks key stage x) ∧
  (∀ key m, product_closing_marker pf' key = Some m ↔
     product_closing_marker pf key = Some m ∨ (CallClose m ∈ oks ∧ tm_key m = key)).
Proof.
  revert pf. induction calls as [|c calls IH]; intros pf Hwf Hall; simpl.
  { split_and!; [done| |]; unfold observed; set_solver. }
  apply Forall_cons in Hall as [Hc Hall]. pose proof (product_step_sound c pf Hwf Hc) as Hs.
  destruct (product_step c pf) as [r pf1]. destruct Hs as (Hwf1 & Hnp & Herr & Hok).
  specialize (IH pf1 Hwf1 Hall). destruct (product_run calls pf1) as [oks pf2].
  destruct IH as (Hwf2 & Hcon & Hcl). split; [done|].
  destruct r as [[]|e|]; simpl; [|by rewrite (Herr e eq_refl) in *|done].
  destruct (Hok eq_refl) as [Hcon1 Hcl1]. split.
  - intros key stage x. rewrite Hcon, Hcon1. unfold observed. set_solver.
  - intros key m. rewrite Hcl, Hcl1. set_solver.
Qed.

Lemma product_new_wf streams gap pf :
  is_u64 streams → is_u64 gap → product_new streams gap = Ok pf →
  pf = mkProductFrontiers streams gap ∅ ∧ product_wf pf.
Proof.
  intros Hs Hg. unfold product_new, frontier_new. munfold_goal. unfold is_u64 in *.
  destruct (streams =? 0); [done|]. destruct (Z.eqb_spec gap 0), (Z.ltb_spec 1000000 gap); try done.
  intros [= <-]. split; [done|]. split; simpl; [lia| |done]. rewrite map_size_empty. lia.
Qed.

(** The run of a new product, in terms of the calls that succeeded. *)
Lemma product_run_new streams gap pf0 calls :
  is_u64 streams → is_u64 gap → product_new streams gap = Ok pf0 → Forall product_call_typed calls →
  let '(oks, pf) := product_run calls pf0 in
  product_wf pf ∧ pf_max_streams pf0 = streams ∧
  (∀ key stage x, product_contains pf key stage x ↔ observed oks key stage x) ∧
  (∀ key m, product_closing_marker pf key = Some m ↔ CallClose m ∈ oks ∧ tm_key m = key).
Proof.
  intros Hs Hg Hnew Hall. destruct (product_new_wf _ _ _ Hs Hg Hnew) as [-> Hwf].
  pose proof (product_run_spec calls _ Hwf Hall) as Hrun. destruct (product_run _ _) as [oks pf].
  destruct Hrun as (Hwf' & Hcon & Hcl). split_and!; [done|done| |].
  - intros key stage x. rewrite Hcon. split; [|by right]. intros [(s & Hs' & _)|?]; [|done].
    unfold stage_at in Hs'. simpl in Hs'. by rewrite lookup_empty in Hs'.
  - intros key m. rewrite Hcl. split; [|by right]. intros [Hm|?]; [|done].
    unfold product_closing_marker in Hm. simpl in Hm. by rewrite lookup_empty in Hm.
Qed.

(** A prefix is covered exactly when its positions are contained. *)
Lemma stage_prefix pf key stage n :
  product_wf pf → 1 ≤ n ≤ U64_MAX →
  (∃ s, stage_at pf key stage = Some s ∧ n ≤ f_contiguous (sf_frontier s)) ↔
  ∀ i, 1 ≤ i ≤ n → product_contains pf key stage i.
Proof.
  intros Hwf Hn. unfold product_contains.
  assert (∀ s, stage_at pf key stage = Some s → frontier_wf (sf_frontier s)) as Hsw.
  { intros s (p & Hp & Hs)%bind_Some. destruct (pw_stages _ _ _ (pdw_projections _ Hwf _ _ Hp) stage) as (s' & Hs' & ?).
    simplify_eq. by destruct H. }
  split.
  - intros (s & Hs & Hle) i Hi. exists s. split; [done|].
    apply (frontier_contiguous_maximal (sf_frontier s) n); [by apply Hsw|lia|done|lia].
  - intros Hall. destruct (Hall 1) as (s & Hs & _); [lia|]. exists s. split; [done|].
    apply frontier_contiguous_maximal; [by apply Hsw|lia|]. intros i Hi.
    destruct (Hall i Hi) as (s' & Hs' & ?). by simplify_eq.
Qed.

(** The obligations of a requirement that can be asked. *)
Definition requirement_valid (req : FrontierRequirement) : Prop :=
  fr_closure req ≠ Some 0 ∧ (fr_through req ≠ 0 ∨ fr_closure req ≠ None).

Lemma product_satisfies_invalid pf req :
  ¬ requirement_valid req → product_satisfies pf req = Err InvalidInput.
Proof.
  intros Hno. unfold product_satisfies. munfold_goal.
  destruct (bool_decide (fr_closure req = Some 0)) eqn:E1; [done|]. apply bool_decide_eq_false in E1. simpl.
  destruct (Z.eqb_spec (fr_through req) 0), (bool_decide (fr_closure req = None)) eqn:E2; simpl; try done;
    rewrite ?bool_decide_eq_false in E2; destruct Hno; split; tauto.
Qed.

Lemma product_satisfies_spec pf req :
  product_wf pf → is_u64 (fr_through req) → requirement_valid req →
  is_ok (product_satisfies pf req) = true ∧
  (product_satisfies pf req = Ok true ↔
    (∀ i, 1 ≤ i ≤ fr_through req → product_contains pf (fr_key req) (fr_stage req) i) ∧
    (∀ g, fr_closure req = Some g → ∃ m, product_closing_marker pf (fr_key req) = Some m ∧
       tm_marker_generation m = g ∧ fr_through req ≤ tm_final_sequence m)).
Proof.
  intros Hwf Hth [Hc0 Hor]. unfold is_u64 in Hth. unfold product_satisfies.
  assert (bool_decide (fr_closure req = Some 0)
    || ((fr_through req =? 0) && bool_decide (fr_closure req = None)) = false) as ->.
  { rewrite bool_decide_eq_false_2 by done. simpl.
    destruct (Z.eqb_spec (fr_through req) 0); [|done]. rewrite bool_decide_eq_false_2; [done|tauto]. }
  munfold_goal. unfold product_closing_marker.
  pose proof (stage_prefix pf (fr_key req) (fr_stage req) (fr_through req) Hwf) as Hpre.
  unfold stage_at in Hpre. destruct (pf_projections pf !! fr_key req) as [p|] eqn:Hp; simpl in *.
  - destruct (pw_stages _ _ _ (pdw_projections _ Hwf _ _ Hp) (fr_stage req)) as (s & Hs & Hsw). rewrite Hs in *.
    assert ((∀ i, 1 ≤ i ≤ fr_through req → product_contains pf (fr_key req) (fr_stage req) i) ↔
      fr_through req ≤ f_contiguous (sf_frontier s)) as ->.
    { destruct (decide (fr_through req = 0)) as [->|].
      - destruct Hsw as [[[? _] _ _] _ _ _ _]. split; intros; lia.
      - rewrite <-Hpre by lia. naive_solver. }
    destruct (Z.ltb_spec (f_contiguous (sf_frontier s)) (fr_through req)); [split; [done|]; split; [done|lia]|].
    destruct (fr_closure req) as [g|]; simpl; [|naive_solver]. split; [done|].
    destruct (pj_close p) as [m|]; simpl; [|naive_solver].
    destruct (Z.eqb_spec (tm_marker_generation m) g), (Z.leb_spec (fr_through req) (tm_final_sequence m)); simpl;
      naive_solver lia.
  - split; [done|]. split; [done|]. intros [H1 H2]. destruct (decide (fr_through req = 0)) as [Hz|Hz].
    + destruct (fr_closure req) as [g|]; [|tauto]. by destruct (H2 g eq_refl) as (? & ? & _).
    + by destruct (proj2 (Hpre ltac:(lia)) H1) as (? & ? & _).
Qed.

(** What a recorded close says of its projection. *)
Lemma product_closed_spec pf m :
  product_wf pf → is_u64 (tm_final_sequence m) → product_closing_marker pf (tm_key m) = Some m →
  (∀ stage x, product_contains pf (tm_key m) stage x → x ≤ tm_final_sequence m) ∧
  (∀ i, 1 ≤ i ≤ tm_final_sequence m → product_contains pf (tm_key m) Authenticated i).
Proof.
  intros Hwf Hm (p & Hp & Hcl)%bind_Some. pose proof (pdw_projections _ Hwf _ _ Hp) as [Hst Hclosed].
  destruct (Hclosed m Hcl) as [_ _ Hbound Hauth]. split.
  - intros stage x (s & (p' & Hp' & Hs)%bind_Some & Hx). simplify_eq. destruct (Hst stage) as (s' & Hs' & Hsw).
    simplify_eq. specialize (Hbound _ _ Hs). pose proof (sw_bound _ _ Hsw x Hx). lia.
  - intros i Hi. destruct (Hst Authenticated) as (s & Hs & _).
    unfold is_u64 in Hm. apply (stage_prefix pf (tm_key m) Authenticated (tm_final_sequence m)); [done|lia| |done].
    exists s. unfold stage_at. rewrite Hp. simpl. auto.
Qed.

(** Only typed calls succeed. *)
Lemma product_run_typed calls pf :
  Forall product_call_typed calls → Forall product_call_typed (product_run calls pf).1.
Proof.
  intros Hall. revert pf. induction Hall as [|c calls Hc _ IH]; intros pf; simpl; [constructor|].
  destruct (product_step c pf) as [r pf1]. specialize (IH pf1). destruct (product_run calls pf1) as [oks pf2].
  simpl in *. destruct (is_ok r); [by constructor|done].
Qed.

(** ** Properties *)

(** After any calls on a new product, each stage of each projection
    holds exactly the positions that successful calls observed for that
    projection and stage - nothing leaks between projections or stages -, the
    reported frontier is the longest gap-free prefix of them, the closing
    marker of a projection is exactly the one a successful close recorded, and
    no more projections are admitted than the bound. *)
Theorem product_tracks_observations (streams gap : Z) (pf0 : ProductFrontiers) (calls : list product_call) :
  is_u64 streams → is_u64 gap → product_new streams gap = Ok pf0 → Forall product_call_typed calls →
  let '(oks, pf) := product_run calls pf0 in
  (∀ key stage x, product_contains pf key stage x ↔ observed oks key stage x) ∧
  (∀ key stage n, product_frontier pf key stage = Ok n →
     ∀ k, 1 ≤ k ≤ U64_MAX → (k ≤ n ↔ ∀ i, 1 ≤ i ≤ k → observed oks key stage i)) ∧
  (∀ key m, product_closing_marker pf key = Some m ↔ CallClose m ∈ oks ∧ tm_key m = key) ∧
  Z.of_nat (size (pf_projections pf)) ≤ pf_max_streams pf.
Proof.
  intros Hs Hg Hnew Hall. pose proof (product_run_new _ _ _ _ Hs Hg Hnew Hall) as Hrun.
  destruct (product_run calls pf0) as [oks pf]. destruct Hrun as (Hwf & _ & Hcon & Hcl).
  split_and!; [done| |done|by destruct Hwf].
  intros key stage n Hn k Hk. setoid_rewrite <-Hcon. rewrite <-stage_prefix by done.
  unfold product_frontier in Hn. fold (stage_at pf key stage) in Hn. munfold.
  destruct (stage_at pf key stage) as [s|]; simpl in Hn; naive_solver.
Qed.

(** C30: [satisfies] claims exactly what was observed.  It refuses only an
    empty or zero-generation requirement, and otherwise answers true exactly
    when every position of the required prefix was observed at that stage and,
    for a closed claim, a close of that generation reaching that far was
    recorded.  A recorded close makes the negative claim sound: no position
    beyond its end was or will be observed at any stage, everything up to it
    was authenticated, and it is never replaced. *)
Theorem closed_claims_are_sound (streams gap : Z) (pf0 : ProductFrontiers) (calls : list product_call) :
  is_u64 streams → is_u64 gap → product_new streams gap = Ok pf0 → Forall product_call_typed calls →
  let '(oks, pf) := product_run calls pf0 in
  (∀ req, is_u64 (fr_through req) →
     (¬ requirement_valid req → product_satisfies pf req = Err InvalidInput) ∧
     (requirement_valid req → is_ok (product_satisfies pf req) = true ∧
       (product_satisfies pf req = Ok true ↔
        (∀ i, 1 ≤ i ≤ fr_through req → observed oks (fr_key req) (fr_stage req) i) ∧
        (∀ g, fr_closure req = Some g → ∃ m, CallClose m ∈ oks ∧ tm_key m = fr_key req ∧
           tm_marker_generation m = g ∧ fr_through req ≤ tm_final_sequence m)))) ∧
  (∀ m, CallClose m ∈ oks →
     (∀ stage x, observed oks (tm_key m) stage x → x ≤ tm_final_sequence m) ∧
     (∀ i, 1 ≤ i ≤ tm_final_sequence m → observed oks (tm_key m) Authenticated i) ∧
     (∀ m', CallClose m' ∈ oks → tm_key m' = tm_key m → m' = m)).
Proof.
  intros Hs Hg Hnew Hall. pose proof (product_run_new _ _ _ _ Hs Hg Hnew Hall) as Hrun.
  pose proof (product_run_typed calls pf0 Hall) as Hty.
  destruct (product_run calls pf0) as [oks pf]. destruct Hrun as (Hwf & _ & Hcon & Hcl).
  split.
  - intros req Hth. split; [apply product_satisfies_invalid|]. intros Hv.
    destruct (product_satisfies_spec pf req Hwf Hth Hv) as [Hok Hiff]. split; [done|]. rewrite Hiff.
    setoid_rewrite Hcon. setoid_rewrite Hcl. naive_solver.
  - intros m Hm. simpl in Hty. rewrite Forall_forall in Hty.
    destruct (product_closed_spec pf m Hwf (Hty _ Hm)) as [Hb Ha]; [by apply Hcl|].
    setoid_rewrite Hcon in Hb. setoid_rewrite Hcon in Ha. split_and!; [done|done|].
    intros m' Hm' Hk. assert (product_closing_marker pf (tm_key m) = Some m') by (by apply Hcl).
    assert (product_closing_marker pf (tm_key m) = Some m) by (by apply Hcl). congruence.
Qed.

(** ** Whole intervals *)

Fixpoint product_accept_all (key : ProjectionKey) (stage : FrontierStage) (xs : list Z)
    : st ProductFrontiers Error unit :=
  match xs with
  | [] => mret tt
  | x :: xs => product_accept key stage x;; product_accept_all key stage xs
  end.

Lemma put_stage_twice key p stage s s' pf :
  put_stage key (mkProjectionFrontiers (<[stage := s]> (pj_stages p)) (pj_close p)) stage s' (put_stage key p stage s pf)
  = put_stage key p stage s' pf.
Proof. unfold put_stage, set_projection. simpl. by rewrite !insert_insert_eq. Qed.

Lemma product_accept_existing key stage x pf p s :
  pf_projections pf !! key = Some p → pj_stages p !! stage = Some s → 0 < x →
  (∀ m, pj_close p = Some m → x ≤ tm_final_sequence m) →
  product_accept key stage x pf =
    let '(r, s') := stage_frontier_accept x s in (r, put_stage key p stage s' pf).
Proof.
  intros Hp Hs Hx Hm. unfold product_accept, on_projection. munfold_goal.
  destruct (Z.eqb_spec x 0); [lia|]. rewrite Hp.
  assert (is_some_and (pj_close p) (λ marker, tm_final_sequence marker <? x) = false) as ->.
  { destruct (pj_close p) as [m|]; [|done]. simpl. specialize (Hm m eq_refl). lia. }
  rewrite (on_stage_eq _ _ _ s Hs). by destruct (stage_frontier_accept x s) as [[] ?].
Qed.

Lemma product_accept_all_existing key stage xs pf p s :
  pf_projections pf !! key = Some p → pj_stages p !! stage = Some s → Forall (λ x, 0 < x) xs →
  (∀ m x, pj_close p = Some m → x ∈ xs → x ≤ tm_final_sequence m) →
  product_accept_all key stage xs pf =
    let '(r, s') := stage_accept_all xs s in (r, put_stage key p stage s' pf).
Proof.
  intros Hp Hs Hall. revert pf p s Hp Hs. induction Hall as [|x xs Hx _ IH]; intros pf p s Hp Hs Hm; simpl.
  { munfold_goal. by rewrite put_stage_same. }
  munfold_goal. rewrite (product_accept_existing key stage x pf p s); [|done..|intros m ?; apply (Hm m x); [done|left]].
  destruct (stage_frontier_accept x s) as [[[]|e|] s1]; [|done..].
  rewrite (IH _ (mkProjectionFrontiers (<[stage := s1]> (pj_stages p)) (pj_close p)) s1).
  - destruct (stage_accept_all xs s1) as [r s2]. by rewrite put_stage_twice.
  - unfold put_stage. simpl. by rewrite lookup_insert_eq.
  - simpl. by rewrite lookup_insert_eq.
  - intros m y ? ?. apply (Hm m y); [done|by right].
Qed.

(** Accepts beyond a closing marker do not all succeed. *)
Lemma product_accept_all_closed key stage xs pf m :
  product_wf pf → Forall is_u64 xs → product_closing_marker pf key = Some m →
  (product_accept_all key stage xs pf).1 = Ok tt → ∀ x, x ∈ xs → x ≤ tm_final_sequence m.
Proof.
  intros Hwf Hall. revert pf Hwf. induction Hall as [|y xs Hy _ IH]; intros pf Hwf Hm; simpl.
  { by intros _ x ?%elem_of_nil. }
  pose proof (product_accept_sound key stage y pf Hwf Hy) as Hs.
  destruct (product_accept key stage y pf) as [r pf1] eqn:E. destruct Hs as [Hwf1 _ _ _ Hcl].
  munfold_goal. rewrite E. destruct r as [[]|e|]; [|done..]. intros Hok x [->|Hx]%elem_of_cons.
  - revert E. unfold product_accept. munfold_goal. destruct (y =? 0); [done|].
    apply bind_Some in Hm as (p & Hp & Hm). rewrite Hp, Hm. simpl.
    destruct (Z.ltb_spec (tm_final_sequence m) y); [done|]. by intros _.
  - apply (IH pf1); [done|by rewrite Hcl|done|done].
Qed.

(** The prefix of a stage; an unknown projection has none. *)
Definition prefix_of (pf : ProductFrontiers) (key : ProjectionKey) (stage : FrontierStage) : Z :=
  from_option (λ s, f_contiguous (sf_frontier s)) 0 (stage_at pf key stage).

Section interval.
Context (key : ProjectionKey) (stage : FrontierStage) (first last : Z) (pf : ProductFrontiers).
Context (Hwf : product_wf pf) (Hfl : 1 ≤ first ≤ last) (Hl : last ≤ U64_MAX).

(** The interval as a list of positions. *)
Definition interval : list Z := seqZ first (last - first + 1).

Lemma interval_spec x : x ∈ interval ↔ first ≤ x ≤ last.
Proof. unfold interval. rewrite elem_of_seqZ. lia. Qed.
Lemma interval_positive : Forall (λ x, 0 < x) interval.
Proof. apply Forall_forall. intros x Hx%interval_spec. lia. Qed.
Lemma interval_u64 : Forall is_u64 interval.
Proof. apply Forall_forall. intros x Hx%interval_spec. unfold is_u64. lia. Qed.

(** What the equivalence says of an outcome. *)
Definition interval_equivalent (r : res Error unit * ProductFrontiers) : Prop :=
  (r.1 = Ok tt ↔ first ≤ prefix_of pf key stage + 1 ∧ (product_accept_all key stage interval pf).1 = Ok tt) ∧
  (r.1 = Ok tt → product_accept_all key stage interval pf = r).

Lemma interval_existing p :
  pf_projections pf !! key = Some p →
  interval_equivalent (product_accept_contiguous key stage first last pf).
Proof.
  intros Hp. pose proof (pdw_projections _ Hwf _ _ Hp) as Hpw.
  destruct (pw_stages _ _ _ Hpw stage) as (s & Hs & Hsw).
  assert (prefix_of pf key stage = f_contiguous (sf_frontier s)) as Hpre.
  { unfold prefix_of, stage_at. rewrite Hp. simpl. by rewrite Hs. }
  unfold interval_equivalent, product_accept_contiguous, on_projection. rewrite Hpre. munfold_goal.
  assert ((first =? 0) || (last <? first) = false) as ->.
  { destruct (Z.eqb_spec first 0), (Z.ltb_spec last first); simpl; lia. }
  rewrite Hp. destruct (is_some_and (pj_close p) _) eqn:Hclose.
  - split; [|done]. split; [done|]. intros [_ Hall]. exfalso.
    destruct (pj_close p) as [m|] eqn:Hm; simpl in Hclose; [|done]. apply Z.ltb_lt in Hclose.
    assert (product_closing_marker pf key = Some m) as Hmk by (unfold product_closing_marker; by rewrite Hp).
    pose proof (product_accept_all_closed key stage interval pf m Hwf interval_u64 Hmk Hall last) as Hle.
    rewrite interval_spec in Hle. lia.
  - rewrite (on_stage_eq _ _ _ s Hs). rewrite (product_accept_all_existing key stage interval pf p s);
      [|done|done|exact interval_positive|].
    2:{ intros m x Hm Hx%interval_spec. rewrite Hm in Hclose. simpl in Hclose. lia. }
    destruct (stage_contiguous_cases _ first last s Hsw Hfl Hl) as [[-> Hgap]|[Htouch (s' & E & _)]].
    + split; [|done]. split; [done|]. intros [? _]. lia.
    + pose proof (stage_accept_all_eq _ first last s Hsw Hfl Hl Htouch) as Heq. fold interval in Heq.
      rewrite E, Heq, E. done.
Qed.

Lemma interval_new :
  pf_projections pf !! key = None →
  interval_equivalent (product_accept_contiguous key stage first last pf).
Proof.
  intros Hp. assert (prefix_of pf key stage = 0) as Hpre by (unfold prefix_of, stage_at; by rewrite Hp).
  unfold interval_equivalent, product_accept_contiguous. rewrite Hpre. munfold_goal.
  assert ((first =? 0) || (last <? first) = false) as ->.
  { destruct (Z.eqb_spec first 0), (Z.ltb_spec last first); simpl; lia. }
  rewrite Hp. destruct (Z.eqb_spec first 1) as [Hf|]; simpl; [|split; [|done]; split; [done|intros [? _]; lia]].
  assert (interval = 1 :: seqZ 2 (last - 1)) as Hint.
  { unfold interval. rewrite Hf, seqZ_cons by lia. f_equal. f_equal; lia. }
  assert (product_accept key stage 1 pf =
    if pf_max_streams pf <=? Z.of_nat (size (pf_projections pf)) then (Err Limit, pf) else
    (match exec (on_stage stage (stage_frontier_accept 1)) (empty_projection (pf_max_gap pf)) with
     | Ok p => (Ok tt, set_projection key p pf) | Err e => (Err e, pf) | Panic => (Panic, pf) end)) as Haccept.
  { unfold product_accept. munfold_goal. rewrite Hp. simpl. destruct (_ <=? _); [done|].
    rewrite projection_new_eq by apply Hwf. by destruct (exec _ _). }
  destruct (Z.leb_spec (pf_max_streams pf) (Z.of_nat (size (pf_projections pf)))).
  { split; [|done]. split; [done|]. intros [_ Hall]. rewrite Hint in Hall. simpl in Hall. munfold.
    by rewrite Haccept in Hall. }
  rewrite projection_new_eq by apply Hwf. cbn beta iota.
  set (s0 := empty_stage (pf_max_gap pf)). pose proof (empty_stage_wf _ (pdw_gap _ Hwf)) as Hsw. fold s0 in Hsw.
  pose proof (empty_projection_lookup (pf_max_gap pf) stage) as Hs0. fold s0 in Hs0.
  unfold exec. rewrite (on_stage_eq _ _ _ s0 Hs0).
  destruct (stage_contiguous_cases _ first last s0 Hsw Hfl Hl) as [[_ Hgap]|[Htouch (s' & E & _)]]; [simpl in Hgap; lia|].
  rewrite E. cbn beta iota.
  pose proof (stage_accept_all_eq _ first last s0 Hsw Hfl Hl Htouch) as Heq. fold interval in Heq.
  rewrite E, Hint in Heq. simpl in Heq.
  assert (product_accept_all key stage interval pf =
    (Ok tt, put_stage key (empty_projection (pf_max_gap pf)) stage s' pf)) as Hall.
  { rewrite Hint. simpl. munfold. munfold_goal. rewrite Haccept. unfold exec. rewrite (on_stage_eq _ _ _ s0 Hs0).
    destruct (stage_frontier_accept 1 s0) as [[[]|e|] s1]; [|done..].
    rewrite (product_accept_all_existing key stage _ _
      (mkProjectionFrontiers (<[stage := s1]> (pj_stages (empty_projection (pf_max_gap pf)))) None) s1).
    - rewrite Heq. f_equal. apply put_stage_twice.
    - simpl. by rewrite lookup_insert_eq.
    - simpl. by rewrite lookup_insert_eq.
    - apply Forall_forall. intros x ?%elem_of_seqZ. lia.
    - done. }
  rewrite Hall. done.
Qed.
End interval.

(** On every product a client can reach, [accept_contiguous] of a
    nonempty interval succeeds exactly when the interval touches the stage's
    prefix and accepting its positions one by one, in ascending order, would
    succeed, and then leaves the same state as doing so; otherwise it refuses
    and changes nothing.  It never aborts. *)
Theorem accept_contiguous_is_repeated_accept (streams gap : Z) (pf0 : ProductFrontiers)
    (calls : list product_call) (key : ProjectionKey) (stage : FrontierStage) (first last : Z) :
  is_u64 streams → is_u64 gap → product_new streams gap = Ok pf0 → Forall product_call_typed calls →
  1 ≤ first ≤ last → last ≤ U64_MAX →
  let pf := (product_run calls pf0).2 in
  let '(out, pf') := product_accept_contiguous key stage first last pf in
  (out = Ok tt ↔ first ≤ prefix_of pf key stage + 1 ∧
     (product_accept_all key stage (interval first last) pf).1 = Ok tt) ∧
  (out = Ok tt → product_accept_all key stage (interval first last) pf = (Ok tt, pf')) ∧
  (out ≠ Ok tt → pf' = pf) ∧ out ≠ Panic.
Proof.
  intros Hs Hg Hnew Hall Hfl Hl. cbv zeta.
  assert (product_wf (product_run calls pf0).2) as Hwf.
  { pose proof (product_run_new _ _ _ _ Hs Hg Hnew Hall) as Hrun.
    destruct (product_run calls pf0). by destruct Hrun. }
  revert Hwf. generalize (product_run calls pf0).2. intros pf Hwf.
  assert (interval_equivalent key stage first last pf (product_accept_contiguous key stage first last pf)) as [H1 H2].
  { destruct (pf_projections pf !! key) eqn:Hp; [by eapply interval_existing|by apply interval_new]. }
  assert (is_u64 first ∧ is_u64 last) as [Hf Hl'] by (unfold is_u64; lia).
  pose proof (product_accept_contiguous_sound key stage first last pf Hwf Hf Hl') as Hsound.
  destruct (product_accept_contiguous key stage first last pf) as [out pf'].
  destruct Hsound as [_ Hnp Hat _ _]. simpl in *.
  split_and!; [done| | |done].
  - intros ->. by apply H2.
  - intros Hno. destruct out as [[]|e|]; [done|by eapply Hat|done].
Qed.

(** ** Witnesses *)

Definition example_key : ProjectionKey := mkProjectionKey 1 1 1 7.
Definition example_marker : TrustedClosingMarker := mkTrustedClosingMarker example_key 3 9.
Definition example_product : ProductFrontiers := mkProductFrontiers 4 8 ∅.
Definition example_product_calls : list product_call :=
  [CallAccept example_key Captured 2; CallContiguous example_key Authenticated 1 3;
   CallClose example_marker; CallAccept example_key Judged 4; CallAccept example_key Judged 1].

Lemma example_product_calls_typed : Forall product_call_typed example_product_calls.
Proof. unfold example_product_calls. repeat constructor; simpl; unfold is_u64; lia. Qed.

Lemma product_tracks_observations_witness :
  let '(oks, pf) := product_run example_product_calls example_product in
  length oks = 4%nat ∧
  (∀ key stage x, product_contains pf key stage x ↔ observed oks key stage x) ∧
  product_frontier pf example_key Authenticated = Ok 3.
Proof.
  pose proof (product_tracks_observations 4 8 example_product example_product_calls) as H.
  destruct (product_run example_product_calls example_product) as [oks pf] eqn:E.
  assert (oks = (product_run example_product_calls example_product).1) as Ho by (rewrite E; reflexivity).
  assert (pf = (product_run example_product_calls example_product).2) as Hp by (rewrite E; reflexivity).
  split; [rewrite Ho; vm_compute; reflexivity|]. split; [|rewrite Hp; vm_compute; reflexivity].
  apply H; [unfold is_u64; lia|unfold is_u64; lia|reflexivity|exact example_product_calls_typed].
Defined.

Lemma closed_claims_are_sound_witness :
  let '(oks, pf) := product_run example_product_calls example_product in
  CallClose example_marker ∈ oks ∧
  product_satisfies pf (mkFrontierRequirement example_key Authenticated 3 (Some 9)) = Ok true ∧
  (∀ stage x, observed oks example_key stage x → x ≤ 3).
Proof.
  pose proof (closed_claims_are_sound 4 8 example_product example_product_calls) as H.
  destruct (product_run example_product_calls example_product) as [oks pf] eqn:E.
  assert (oks = (product_run example_product_calls example_product).1) as Ho by (rewrite E; reflexivity).
  assert (pf = (product_run example_product_calls example_product).2) as Hp by (rewrite E; reflexivity).
  assert (CallClose example_marker ∈ oks) as Hin.
  { rewrite Ho. apply (list_elem_of_lookup_2 _ 2). vm_compute. reflexivity. }
  split; [exact Hin|]. split; [rewrite Hp; vm_compute; reflexivity|].
  destruct H as [_ H]; [unfold is_u64; lia|unfold is_u64; lia|reflexivity|exact example_product_calls_typed|].
  exact (proj1 (H example_marker Hin)).
Defined.

Lemma accept_contiguous_is_repeated_accept_witness :
  let pf := (product_run [CallAccept example_key Captured 3] example_product).2 in
  let '(out, pf') := product_accept_contiguous example_key Captured 1 2 pf in
  out = Ok tt ∧ product_accept_all example_key Captured (interval 1 2) pf = (Ok tt, pf') ∧
  prefix_of pf' example_key Captured = 3.
Proof.
  pose proof (accept_contiguous_is_repeated_accept 4 8 example_product [CallAccept example_key Captured 3]
    example_key Captured 1 2) as H.
  cbv zeta in *.
  destruct (product_accept_contiguous example_key Captured 1 2
    (product_run [CallAccept example_key Captured 3] example_product).2) as [out pf'] eqn:E.
  assert (out = (product_accept_contiguous example_key Captured 1 2
    (product_run [CallAccept example_key Captured 3] example_product).2).1) as Ho by (rewrite E; reflexivity).
  assert (pf' = (product_accept_contiguous example_key Captured 1 2
    (product_run [CallAccept example_key Captured 3] example_product).2).2) as Hp by (rewrite E; reflexivity).
  assert (out = Ok tt) as Hok by (rewrite Ho; vm_compute; reflexivity).
  split; [exact Hok|]. split; [|rewrite Hp; vm_compute; reflexivity].
  apply H; [unfold is_u64; lia|unfold is_u64; lia|reflexivity| |lia|lia|exact Hok].
  repeat constructor; simpl; unfold is_u64; lia.
Defined.
