(* ===== verification/Round.v ===== *)
(** * Commit and reveal rounds

    [crates/fa-reference/src/round.rs]: a round with a fixed membership in
    which every member commits to a verdict before any verdict is revealed.
    The digest is FNV-1a-64 of a framed preimage, as in the source; nothing
    below assumes that it is collision resistant. *)

From stdpp Require Import base tactics numbers list gmap.
From S2P Require Import Prelude Bytes Judgment.

Local Open Scope Z_scope.

(** ** Model *)

Definition COMMITMENT_DOMAIN : bytes := ascii_bytes "fa-reference/congress/round/commitment/v1".
Definition MAX_MEMBERS : Z := 256.
Definition MAX_FIELD_LEN : Z := 4096.

Inductive Verdict := Allow | Hold | Deny | Abstain.

#[global] Instance Verdict_eq_dec : EqDecision Verdict.
Proof. solve_decision. Defined.

Definition canonical_tag (v : Verdict) : Z :=
  match v with Allow => 1 | Hold => 2 | Deny => 3 | Abstain => 4 end.

(** The phases [Commit] and [Reveal] of a round. *)
Inductive RoundPhase := CommitPhase | RevealPhase.

#[global] Instance RoundPhase_eq_dec : EqDecision RoundPhase.
Proof. solve_decision. Defined.

(** [MemberOutcome::Missing] is [NotRevealed]: [Missing] is the error. *)
Inductive MemberOutcome := NotRevealed | Revealed (v : Verdict).

#[global] Instance MemberOutcome_eq_dec : EqDecision MemberOutcome.
Proof. solve_decision. Defined.

Record MemberSlot := mkMemberSlot {
  ms_commitment : option Z;
  ms_outcome : MemberOutcome;
}.

Record Round := mkRound {
  rd_id : Z;
  rd_evidence_root : bytes;
  rd_phase : RoundPhase;
  rd_membership_frozen : bool;
  rd_members : gmap bytes MemberSlot;
}.

Definition set_round_phase (p : RoundPhase) (r : Round) : Round :=
  mkRound (rd_id r) (rd_evidence_root r) p (rd_membership_frozen r) (rd_members r).
Definition set_membership_frozen (b : bool) (r : Round) : Round :=
  mkRound (rd_id r) (rd_evidence_root r) (rd_phase r) b (rd_members r).
Definition set_member (m : bytes) (s : MemberSlot) (r : Round) : Round :=
  mkRound (rd_id r) (rd_evidence_root r) (rd_phase r) (rd_membership_frozen r) (<[m := s]> (rd_members r)).

Definition validate_field_len (field : bytes) : res Error unit :=
  refuse_if (MAX_FIELD_LEN <? len field) Limit.

Definition validate_nonempty_field (field : bytes) : res Error unit :=
  refuse_if (match field with [] => true | _ => false end) InvalidInput;;
  validate_field_len field.

(** [frame] appends to the preimage; here it is what it appends. *)
Definition frame (field : bytes) : bytes := be_bytes 8 (len field) ++ field.

Definition fnv1a64 (bs : bytes) : Z :=
  foldl (λ digest byte, (Z.lxor digest (byte_val byte) * 1099511628211) mod 2 ^ 64)
    14695981039346656037 bs.

Definition commitment_preimage (round_id : Z) (member evidence_root : bytes) (verdict : Verdict)
    (salt : bytes) : bytes :=
  frame COMMITMENT_DOMAIN ++ frame (be_bytes 8 round_id) ++ frame member ++ frame evidence_root
  ++ frame [byte_of (canonical_tag verdict)] ++ frame salt.

Definition commitment (round_id : Z) (member evidence_root : bytes) (verdict : Verdict)
    (salt : bytes) : res Error Z :=
  validate_nonempty_field member;;
  validate_nonempty_field evidence_root;;
  validate_field_len salt;;
  Ok (fnv1a64 (commitment_preimage round_id member evidence_root verdict salt)).

Definition round_new (id : Z) (evidence_root : bytes) : res Error Round :=
  validate_nonempty_field evidence_root;;
  Ok (mkRound id evidence_root CommitPhase false ∅).

Definition add_member (member : bytes) : st Round Error unit :=
  self ← get;
  refuse_if (bool_decide (rd_phase self ≠ CommitPhase) || rd_membership_frozen self) WrongState;;
  lift (validate_nonempty_field member);;
  refuse_if (bool_decide (is_Some (rd_members self !! member))) Duplicate;;
  refuse_if (MAX_MEMBERS <=? Z.of_nat (size (rd_members self))) Limit;;
  modify (set_member member (mkMemberSlot None NotRevealed)).

Definition commit (member : bytes) (digest : Z) : st Round Error unit :=
  self ← get;
  refuse_if (bool_decide (rd_phase self ≠ CommitPhase)) WrongState;;
  slot ← ok_or (rd_members self !! member) Missing;
  refuse_if (bool_decide (is_Some (ms_commitment slot))) Duplicate;;
  modify (set_membership_frozen true);;
  modify (set_member member (mkMemberSlot (Some digest) (ms_outcome slot))).

Definition open_reveals : st Round Error unit :=
  self ← get;
  refuse_if (bool_decide (rd_phase self ≠ CommitPhase)) WrongState;;
  refuse_if (bool_decide (rd_members self = ∅)) Missing;;
  modify (set_membership_frozen true);;
  modify (set_round_phase RevealPhase).

Definition reveal (member : bytes) (verdict : Verdict) (salt : bytes) : st Round Error unit :=
  self ← get;
  refuse_if (bool_decide (rd_phase self ≠ RevealPhase)) WrongState;;
  slot ← ok_or (rd_members self !! member) Missing;
  expected ← ok_or (ms_commitment slot) Missing;
  actual ← lift (commitment (rd_id self) member (rd_evidence_root self) verdict salt);
  refuse_if (negb (actual =? expected)) Binding;;
  slot ← ok_or (rd_members self !! member) Missing;
  refuse_if (bool_decide (ms_outcome slot ≠ NotRevealed)) Duplicate;;
  modify (set_member member (mkMemberSlot (ms_commitment slot) (Revealed verdict))).

Definition round_outcome (self : Round) (member : bytes) : res Error MemberOutcome :=
  ok_or (ms_outcome <$> rd_members self !! member) Missing.

Definition round_outcomes (self : Round) : gmap bytes MemberOutcome := ms_outcome <$> rd_members self.

(** ** Calls and runs *)

Inductive round_call :=
  | CallAddMember (member : bytes)
  | CallCommit (member : bytes) (digest : Z)
  | CallOpenReveals
  | CallReveal (member : bytes) (verdict : Verdict) (salt : bytes).

Definition round_step (c : round_call) : st Round Error unit :=
  match c with
  | CallAddMember m => add_member m
  | CallCommit m d => commit m d
  | CallOpenReveals => open_reveals
  | CallReveal m v s => reveal m v s
  end.

(** The calls that succeeded, oldest first, and the round they left. *)
Fixpoint round_run (calls : list round_call) (r : Round) : list round_call * Round :=
  match calls with
  | [] => ([], r)
  | c :: calls =>
    let '(out, r1) := round_step c r in
    let '(oks, r2) := round_run calls r1 in
    (if is_ok out then c :: oks else oks, r2)
  end.

(** ** What the transcript says of the round

    The calls that succeeded so far determine every field of the round. *)

Definition is_reveal (c : round_call) : bool := match c with CallReveal _ _ _ => true | _ => false end.
Definition is_commit (c : round_call) : bool := match c with CallCommit _ _ => true | _ => false end.

Record round_inv (id : Z) (root : bytes) (oks : list round_call) (r : Round) : Prop := {
  ri_id : rd_id r = id;
  ri_root : rd_evidence_root r = root;
  ri_phase : rd_phase r = RevealPhase ↔ CallOpenReveals ∈ oks;
  ri_frozen : rd_membership_frozen r = true ↔ ∃ c, c ∈ oks ∧ (is_commit c = true ∨ c = CallOpenReveals);
  ri_members : ∀ m, is_Some (rd_members r !! m) ↔ CallAddMember m ∈ oks;
  ri_commitments : ∀ m d, (∃ s, rd_members r !! m = Some s ∧ ms_commitment s = Some d) ↔ CallCommit m d ∈ oks;
  ri_outcomes : ∀ m v, (∃ s, rd_members r !! m = Some s ∧ ms_outcome s = Revealed v) ↔
    ∃ salt, CallReveal m v salt ∈ oks;
  ri_size : Z.of_nat (size (rd_members r)) ≤ MAX_MEMBERS;
}.

(** The order of a transcript: members are added first, then commitments are
    made, then reveals are opened, and every reveal matches a commitment. *)
Inductive transcript (id : Z) (root : bytes) : list round_call → Prop :=
  | TranscriptStart : transcript id root []
  | TranscriptAdd oks m :
      transcript id root oks → CallAddMember m ∉ oks → CallOpenReveals ∉ oks →
      (∀ c, c ∈ oks → is_commit c = false) → transcript id root (oks ++ [CallAddMember m])
  | TranscriptCommit oks m d :
      transcript id root oks → CallAddMember m ∈ oks → CallOpenReveals ∉ oks →
      (∀ d', CallCommit m d' ∉ oks) → transcript id root (oks ++ [CallCommit m d])
  | TranscriptOpen oks m :
      transcript id root oks → CallAddMember m ∈ oks → CallOpenReveals ∉ oks →
      transcript id root (oks ++ [CallOpenReveals])
  | TranscriptReveal oks m d v salt :
      transcript id root oks → CallOpenReveals ∈ oks → CallCommit m d ∈ oks →
      commitment id m root v salt = Ok d → (∀ v' salt', CallReveal m v' salt' ∉ oks) →
      transcript id root (oks ++ [CallReveal m v salt]).

(** What a call may add to a transcript. *)
Definition extends (id : Z) (root : bytes) (oks : list round_call) (c : round_call) : Prop :=
  match c with
  | CallAddMember m =>
      (CallAddMember m ∉ oks) ∧ (CallOpenReveals ∉ oks) ∧ ∀ c, c ∈ oks → is_commit c = false
  | CallCommit m d => CallAddMember m ∈ oks ∧ (CallOpenReveals ∉ oks) ∧ ∀ d', CallCommit m d' ∉ oks
  | CallOpenReveals => (∃ m, CallAddMember m ∈ oks) ∧ CallOpenReveals ∉ oks
  | CallReveal m v salt =>
      CallOpenReveals ∈ oks ∧ (∃ d, CallCommit m d ∈ oks ∧ commitment id m root v salt = Ok d) ∧
      ∀ v' salt', CallReveal m v' salt' ∉ oks
  end.

Lemma transcript_extend id root oks c :
  transcript id root oks → extends id root oks c → transcript id root (oks ++ [c]).
Proof.
  intros Ht. destruct c; simpl.
  - intros (? & ? & ?). by constructor.
  - intros (? & ? & ?). by constructor.
  - intros [[m ?] ?]. by econstructor.
  - intros (? & (d & ? & ?) & ?). by econstructor.
Qed.

(** The bounds that only the state knows. *)
Definition within_bounds (r : Round) (c : round_call) : Prop :=
  match c with
  | CallAddMember m =>
      validate_nonempty_field m = Ok tt ∧ Z.of_nat (size (rd_members r)) < MAX_MEMBERS
  | _ => True
  end.

Section step.
Context (id : Z) (root : bytes) (oks : list round_call) (r : Round) (Hinv : round_inv id root oks r).

Lemma phase_commit : rd_phase r = CommitPhase ↔ CallOpenReveals ∉ oks.
Proof. rewrite <-(ri_phase _ _ _ _ Hinv). destruct (rd_phase r); naive_solver. Qed.

Lemma phase_commit_dec : bool_decide (rd_phase r ≠ CommitPhase) = false ↔ CallOpenReveals ∉ oks.
Proof. rewrite <-phase_commit, bool_decide_eq_false. split; [apply dec_stable|auto]. Qed.

Lemma member_none m : rd_members r !! m = None ↔ CallAddMember m ∉ oks.
Proof. rewrite <-(ri_members _ _ _ _ Hinv), eq_None_not_Some. done. Qed.

(** What a step guarantees, and what makes it succeed. *)
Definition step_ok (c : round_call) (p : res Error unit * Round) : Prop :=
  p.1 ≠ Panic ∧ (p.1 ≠ Ok tt → p.2 = r) ∧
  (p.1 = Ok tt ↔ extends id root oks c ∧ within_bounds r c) ∧
  (p.1 = Ok tt → round_inv id root (oks ++ [c]) p.2).

Lemma step_refused c e : ¬ (extends id root oks c ∧ within_bounds r c) → step_ok c (Err e, r).
Proof. intros Hno. by split_and!. Qed.

Lemma validate_field_outcome f : validate_nonempty_field f = Ok tt ∨ ∃ e, validate_nonempty_field f = Err e.
Proof. unfold validate_nonempty_field, validate_field_len. munfold_goal. destruct f; [eauto|]. case_match; eauto. Qed.

Lemma add_member_ok m : step_ok (CallAddMember m) (add_member m r).
Proof.
  unfold add_member. munfold_goal.
  destruct (bool_decide (rd_phase r ≠ CommitPhase)) eqn:Hph; simpl.
  { apply step_refused. intros [(_ & Ho & _) _]. by rewrite (proj2 phase_commit_dec Ho) in Hph. }
  apply phase_commit_dec in Hph. destruct (rd_membership_frozen r) eqn:Hfr.
  { apply step_refused. intros [(_ & Ho & Hc) _]. apply (ri_frozen _ _ _ _ Hinv) in Hfr as (c & Hin & [Hk| ->]); [|done].
    by rewrite (Hc c Hin) in Hk. }
  destruct (validate_field_outcome m) as [Hv|[e Hv]]; rewrite Hv; [|apply step_refused; simpl; rewrite Hv; naive_solver].
  case_bool_decide as Hm; [apply step_refused; intros [(Hno & _) _]; by apply member_none in Hno as Hn; rewrite Hn in Hm; destruct Hm|].
  apply eq_None_not_Some in Hm.
  destruct (Z.leb_spec MAX_MEMBERS (Z.of_nat (size (rd_members r)))) as [|Hsz]; [apply step_refused; simpl; lia|].
  pose proof (proj1 (member_none m) Hm) as Hno.
  assert (∀ c, c ∈ oks → is_commit c = false) as Hnc.
  { intros c Hc. destruct (is_commit c) eqn:E; [|done].
    assert (rd_membership_frozen r = true); [|congruence]. apply (ri_frozen _ _ _ _ Hinv). eauto. }
  split_and!; try done. intros _. destruct Hinv as [H1 H2 H3 H4 H5 H6 H7 H8].
  split; simpl; [done|done| | | | | |].
  - rewrite H3. set_solver.
  - rewrite H4. set_solver.
  - intros m'. destruct (decide (m' = m)) as [->|].
    + rewrite lookup_insert_eq. set_solver.
    + rewrite lookup_insert_ne, H5 by done. set_solver.
  - intros m' d. destruct (decide (m' = m)) as [->|].
    + rewrite lookup_insert_eq. split; [by intros (? & [= <-] & ?)|]. intros [Hc|Hc]%elem_of_app; [|set_solver].
      by specialize (Hnc _ Hc).
    + rewrite lookup_insert_ne, H6 by done. set_solver.
  - intros m' v. destruct (decide (m' = m)) as [->|].
    + rewrite lookup_insert_eq. split; [by intros (? & [= <-] & ?)|]. intros (salt & [Hc|Hc]%elem_of_app); [|set_solver].
      assert (∃ s, rd_members r !! m = Some s ∧ ms_outcome s = Revealed v) as (s & Hs & _) by (apply H7; eauto).
      congruence.
    + rewrite lookup_insert_ne, H7 by done. set_solver.
  - rewrite map_size_insert_None by done. lia.
Qed.

Lemma commit_ok m d : step_ok (CallCommit m d) (commit m d r).
Proof.
  unfold commit. munfold_goal.
  destruct (bool_decide (rd_phase r ≠ CommitPhase)) eqn:Hph; simpl.
  { apply step_refused. intros [(_ & Ho & _) _]. by rewrite (proj2 phase_commit_dec Ho) in Hph. }
  apply phase_commit_dec in Hph.
  destruct (rd_members r !! m) as [s|] eqn:Hm.
  2:{ apply step_refused. apply member_none in Hm. intros [(? & _) _]. done. }
  assert (CallAddMember m ∈ oks) as Hadd by (apply (ri_members _ _ _ _ Hinv); eauto).
  case_bool_decide as Hc.
  { apply step_refused. destruct Hc as [d' Hd']. intros [(_ & _ & Hno) _]. apply (Hno d').
    apply (ri_commitments _ _ _ _ Hinv). eauto. }
  apply eq_None_not_Some in Hc.
  assert (∀ d', CallCommit m d' ∉ oks) as Hno.
  { intros d' (s' & Hs' & Hd')%(ri_commitments _ _ _ _ Hinv). congruence. }
  split_and!; try done. intros _. destruct Hinv as [H1 H2 H3 H4 H5 H6 H7 H8].
  split; simpl; [done|done| | | | | |].
  - rewrite H3. set_solver.
  - split; [|done]. intros _. exists (CallCommit m d). set_solver.
  - intros m'. destruct (decide (m' = m)) as [->|].
    + rewrite lookup_insert_eq. set_solver.
    + rewrite lookup_insert_ne, H5 by done. set_solver.
  - intros m' d'. destruct (decide (m' = m)) as [->|].
    + rewrite lookup_insert_eq. rewrite elem_of_app, list_elem_of_singleton. split.
      * intros (? & [= <-] & [= <-]). by right.
      * intros [?|[= ->]]; [by destruct (Hno d')|eauto].
    + rewrite lookup_insert_ne, H6 by done. set_solver.
  - intros m' v. destruct (decide (m' = m)) as [->|].
    + rewrite lookup_insert_eq. setoid_rewrite elem_of_app. setoid_rewrite list_elem_of_singleton. split.
      * intros (? & [= <-] & Hv). destruct (proj1 (H7 m v)) as [salt ?]; eauto.
      * intros (salt & [Hr|]); [|done]. destruct (proj2 (H7 m v)) as (s' & Hs' & ?); [eauto|]. simplify_eq. eauto.
    + rewrite lookup_insert_ne, H7 by done. set_solver.
  - by rewrite map_size_insert_Some.
Qed.

Lemma open_reveals_ok : step_ok CallOpenReveals (open_reveals r).
Proof.
  unfold open_reveals. munfold_goal.
  destruct (bool_decide (rd_phase r ≠ CommitPhase)) eqn:Hph; simpl.
  { apply step_refused. intros [(_ & Ho) _]. by rewrite (proj2 phase_commit_dec Ho) in Hph. }
  apply phase_commit_dec in Hph. case_bool_decide as Hempty.
  { apply step_refused. intros [([m Hm] & _) _]. apply (ri_members _ _ _ _ Hinv) in Hm.
    rewrite Hempty, lookup_empty in Hm. by destruct Hm. }
  apply map_choose in Hempty as (m & s & Hm).
  assert (CallAddMember m ∈ oks) as Hadd by (apply (ri_members _ _ _ _ Hinv); eauto).
  split_and!; try done; [split; [|done]; intros _; split; [by split; [exists m|]|done]|].
  intros _. destruct Hinv as [H1 H2 H3 H4 H5 H6 H7 H8].
  split; simpl; [done|done| | | | | |done].
  - split; [|done]. set_solver.
  - split; [|done]. intros _. exists CallOpenReveals. set_solver.
  - intros m'. rewrite H5. set_solver.
  - intros m' d'. rewrite H6. set_solver.
  - intros m' v. rewrite H7. set_solver.
Qed.

Lemma commitment_no_panic i m rt v salt : commitment i m rt v salt ≠ Panic.
Proof. unfold commitment, validate_nonempty_field, validate_field_len. munfold_goal. repeat case_match; congruence. Qed.

Lemma reveal_ok m v salt : step_ok (CallReveal m v salt) (reveal m v salt r).
Proof.
  unfold reveal. munfold_goal. case_bool_decide as Hph.
  { apply step_refused. intros [(Ho & _) _]. by apply (ri_phase _ _ _ _ Hinv) in Ho. }
  assert (CallOpenReveals ∈ oks) as Hopen by (apply (ri_phase _ _ _ _ Hinv); by destruct (rd_phase r)).
  assert (∀ s d, rd_members r !! m = Some s → CallCommit m d ∈ oks → ms_commitment s = Some d) as Hcom.
  { intros s d Hs (s' & Hs' & ?)%(ri_commitments _ _ _ _ Hinv). congruence. }
  destruct (rd_members r !! m) as [s|] eqn:Hm.
  2:{ apply step_refused. intros [(_ & (d & (? & ? & _)%(ri_commitments _ _ _ _ Hinv) & _) & _) _]. congruence. }
  destruct (ms_commitment s) as [d|] eqn:Hd.
  2:{ apply step_refused. intros [(_ & (d & Hd' & _) & _) _]. specialize (Hcom s d eq_refl Hd'). congruence. }
  assert (CallCommit m d ∈ oks) as Hcd by (apply (ri_commitments _ _ _ _ Hinv); eauto).
  rewrite (ri_id _ _ _ _ Hinv), (ri_root _ _ _ _ Hinv).
  pose proof (commitment_no_panic id m root v salt).
  destruct (commitment id m root v salt) as [actual|e|] eqn:Hact; 
    [|apply step_refused; intros [(_ & (d' & _ & Ha') & _) _]; congruence|done].
  destruct (Z.eqb_spec actual d) as [->|Hne]; simpl.
  2:{ apply step_refused. intros [(_ & (d' & Hd' & Ha') & _) _]. specialize (Hcom s d' eq_refl Hd'). congruence. }
  case_bool_decide as Hout.
  { apply step_refused. destruct (ms_outcome s) as [|v0] eqn:Hv0; [done|]. intros [(_ & _ & Hno) _].
    destruct (proj1 (ri_outcomes _ _ _ _ Hinv m v0)) as [salt0 ?]; [eauto|]. by apply (Hno v0 salt0). }
  assert (∀ v' salt', CallReveal m v' salt' ∉ oks) as Hno.
  { intros v' salt' Hin. destruct (proj2 (ri_outcomes _ _ _ _ Hinv m v')) as (s' & Hs' & ?); [eauto|]. congruence. }
  split_and!; try done; [split; [|done]; intros _; split; [|done]; split_and!; eauto|].
  intros _. destruct Hinv as [H1 H2 H3 H4 H5 H6 H7 H8].
  split; simpl; [done|done| | | | | |].
  - rewrite H3. set_solver.
  - rewrite H4. set_solver.
  - intros m'. destruct (decide (m' = m)) as [->|].
    + rewrite lookup_insert_eq. rewrite elem_of_app, list_elem_of_singleton, <-H5. naive_solver.
    + rewrite lookup_insert_ne, H5 by done. set_solver.
  - intros m' d'. destruct (decide (m' = m)) as [->|].
    + rewrite lookup_insert_eq. rewrite elem_of_app, list_elem_of_singleton. split.
      * intros (? & [= <-] & Hd'). simpl in Hd'. left. congruence.
      * intros [Hd'|]; [|done]. specialize (Hcom s d' eq_refl Hd'). eexists. split; [done|]. simpl. congruence.
    + rewrite lookup_insert_ne, H6 by done. set_solver.
  - intros m' v'. destruct (decide (m' = m)) as [->|].
    + rewrite lookup_insert_eq. setoid_rewrite elem_of_app. setoid_rewrite list_elem_of_singleton. split.
      * intros (? & [= <-] & [= ->]). eauto.
      * intros (salt' & [Hr|[= -> ->]]); [by destruct (Hno v' salt')|eauto].
    + rewrite lookup_insert_ne, H7 by done. set_solver.
  - by rewrite map_size_insert_Some.
Qed.

Lemma round_step_ok c : step_ok c (round_step c r).
Proof. destruct c; simpl; [apply add_member_ok|apply commit_ok|apply open_reveals_ok|apply reveal_ok]. Qed.
End step.

Lemma round_new_inv id root r : round_new id root = Ok r → round_inv id root [] r.
Proof.
  unfold round_new. munfold_goal. destruct (validate_nonempty_field root) as [[]| |]; [|done..].
  intros [= <-]. split; simpl; [done|done| | | | | |done].
  - split; [done|by intros ?%elem_of_nil].
  - split; [done|by intros (? & ?%elem_of_nil & _)].
  - intros m. rewrite lookup_empty. split; [by intros []|by intros ?%elem_of_nil].
  - intros m d. rewrite lookup_empty. split; [by intros (? & ? & _)|by intros ?%elem_of_nil].
  - intros m v. rewrite lookup_empty. split; [by intros (? & ? & _)|by intros (? & ?%elem_of_nil)].
Qed.

Lemma round_run_inv id root oks0 calls r :
  round_inv id root oks0 r → transcript id root oks0 →
  let '(oks, r') := round_run calls r in
  round_inv id root (oks0 ++ oks) r' ∧ transcript id root (oks0 ++ oks).
Proof.
  revert oks0 r. induction calls as [|c calls IH]; intros oks0 r Hinv Ht; simpl; [by rewrite app_nil_r|].
  destruct (round_step_ok _ _ _ _ Hinv c) as (Hnp & Hsame & Hiff & Hok).
  destruct (round_step c r) as [out r1]. simpl in *.
  destruct out as [[]|e|]; simpl; [| |done].
  2:{ rewrite Hsame by done. specialize (IH oks0 r Hinv Ht). by destruct (round_run calls r). }
  pose proof (Hok eq_refl) as Hinv1. pose proof (proj1 (proj1 Hiff eq_refl)) as Hext.
  specialize (IH (oks0 ++ [c]) r1 Hinv1 (transcript_extend _ _ _ _ Ht Hext)).
  destruct (round_run calls r1) as [oks r2]. by rewrite <-app_assoc in IH.
Qed.

Lemma transcript_no_reveal id root oks :
  transcript id root oks → CallOpenReveals ∉ oks → Forall (λ c, is_reveal c = false) oks.
Proof.
  induction 1 as [|? ? ? IH|? ? ? ? IH|? ? ? IH|? ? ? ? ? ? IH]; intros Hn; [constructor|..];
    apply not_elem_of_app in Hn as [Hn Hc]; try (by apply Forall_app; split; [apply IH|by repeat constructor]).
Qed.

Lemma transcript_split id root oks :
  transcript id root oks → CallOpenReveals ∈ oks →
  ∃ pre post, oks = pre ++ CallOpenReveals :: post ∧
    Forall (λ c, is_reveal c = false) pre ∧ Forall (λ c, is_reveal c = true) post.
Proof.
  induction 1 as [|oks m Ht IH|oks m d Ht IH|oks m Ht IH ? Hn|oks m d v salt Ht IH Ho];
    intros Hin; [by apply elem_of_nil in Hin|..].
  1,2: apply elem_of_app in Hin as [?|?%list_elem_of_singleton]; done.
  - exists oks, []. split_and!; [done|by eapply transcript_no_reveal|constructor].
  - destruct (IH Ho) as (pre & post & -> & Hpre & Hpost). exists pre, (post ++ [CallReveal m v salt]).
    split_and!; [by rewrite <-app_assoc|done|]. apply Forall_app. split; [done|by repeat constructor].
Qed.

Lemma transcript_matched id root oks m v salt :
  transcript id root oks → CallReveal m v salt ∈ oks →
  CallOpenReveals ∈ oks ∧ ∃ d, CallCommit m d ∈ oks ∧ commitment id m root v salt = Ok d.
Proof.
  induction 1 as [|? ? ? IH|? ? ? ? IH|? ? ? IH|oks m' d' v' salt' ? IH]; [by intros ?%elem_of_nil|..].
  1-3: intros [Hin|?%list_elem_of_singleton]%elem_of_app; [|done];
    destruct (IH Hin) as (? & d' & ? & ?); split; [|exists d']; rewrite ?elem_of_app; auto.
  intros [Hin|Heq%list_elem_of_singleton]%elem_of_app.
  - destruct (IH Hin) as (? & d & ? & ?). split; [|exists d]; rewrite ?elem_of_app; auto.
  - simplify_eq. split; [|exists d']; rewrite ?elem_of_app; auto.
Qed.

(** A reveal opens a commitment made before reveals were opened. *)
Lemma transcript_reveal id root oks m v salt :
  transcript id root oks → CallReveal m v salt ∈ oks →
  ∃ pre post d, oks = pre ++ CallOpenReveals :: post ∧ CallReveal m v salt ∈ post ∧
    CallCommit m d ∈ pre ∧ commitment id m root v salt = Ok d ∧ Forall (λ c, is_reveal c = false) pre.
Proof.
  intros Ht Hin. destruct (transcript_matched _ _ _ _ _ _ Ht Hin) as (Ho & d & Hd & Heq).
  destruct (transcript_split _ _ _ Ht Ho) as (pre & post & -> & Hpre & Hpost).
  exists pre, post, d. split; [done|]. rewrite Forall_forall in Hpre, Hpost.
  rewrite elem_of_app, elem_of_cons in Hin, Hd. rewrite Forall_forall. split_and!; try done.
  - destruct Hin as [Hin|[?|?]]; [|done..]. by specialize (Hpre _ Hin).
  - destruct Hd as [?|[?|Hd]]; [done..|]. by specialize (Hpost _ Hd).
Qed.

(** ** Framing *)

Lemma frame_inj f g xs ys :
  len f ≤ U64_MAX → len g ≤ U64_MAX → frame f ++ xs = frame g ++ ys → f = g ∧ xs = ys.
Proof.
  unfold frame. intros Hf Hg. rewrite <-!app_assoc. intros [Hl Heq]%app_inj_1; [|by rewrite !length_be_bytes].
  apply be_bytes_inj in Hl; [|unfold len in *; lia..]. unfold len in Hl.
  apply app_inj_1 in Heq; [done|lia].
Qed.

Lemma commitment_preimage_inj id id' m m' root root' v v' salt salt' :
  is_u64 id → is_u64 id' → Forall (λ f, len f ≤ U64_MAX) [m; m'; root; root'; salt; salt'] →
  commitment_preimage id m root v salt = commitment_preimage id' m' root' v' salt' →
  id = id' ∧ m = m' ∧ root = root' ∧ v = v' ∧ salt = salt'.
Proof.
  intros Hid Hid' Hlen. repeat (apply Forall_cons in Hlen as [? Hlen]). unfold commitment_preimage.
  assert (∀ n z, len (be_bytes n z) = Z.of_nat n) as Hbe by (intros n z; unfold len; by rewrite length_be_bytes).
  intros [_ G]%frame_inj; [|by vm_compute..].
  apply frame_inj in G as [E1 G]; [|rewrite Hbe; lia..]. apply frame_inj in G as [-> G]; [|done..].
  apply frame_inj in G as [-> G]; [|done..]. apply frame_inj in G as [E2 G]; [|by vm_compute..].
  assert (frame salt ++ [] = frame salt' ++ []) as G2 by (by rewrite !app_nil_r).
  apply frame_inj in G2 as [-> _]; [|done..].
  apply be_bytes_inj in E1; [|unfold is_u64 in *; lia..]. split_and!; try done. destruct v, v'; done.
Qed.

Lemma round_outcome_revealed r m v :
  round_outcome r m = Ok (Revealed v) ↔ ∃ s, rd_members r !! m = Some s ∧ ms_outcome s = Revealed v.
Proof.
  unfold round_outcome. munfold_goal. destruct (rd_members r !! m) as [s|]; simpl.
  - split; [intros [= Hs]; eauto|intros (? & [= <-] & Hs); by rewrite <-Hs].
  - split; [done|by intros (? & ? & _)].
Qed.

(** ** Properties *)

(** C35: after any calls on a new round, the calls that succeeded form an
    ordered transcript - members are added before the first commitment, every
    member commits at most once and only before reveals open, and reveals come
    last - which determines the round: its members, their commitments and
    their outcomes are exactly those of the transcript.  Any further call
    succeeds exactly when it extends the transcript (a new member must also
    fit the bounds); a refused one changes nothing and none aborts. *)
Theorem round_is_its_transcript (id : Z) (root : bytes) (r0 : Round) (calls : list round_call) :
  round_new id root = Ok r0 →
  let '(oks, r) := round_run calls r0 in
  transcript id root oks ∧
  (∀ m, is_Some (rd_members r !! m) ↔ CallAddMember m ∈ oks) ∧
  (∀ m v, round_outcome r m = Ok (Revealed v) ↔ ∃ salt, CallReveal m v salt ∈ oks) ∧
  (∀ m, round_outcome r m = Ok NotRevealed ↔
     CallAddMember m ∈ oks ∧ ∀ v salt, CallReveal m v salt ∉ oks) ∧
  (∀ c, let '(out, r') := round_step c r in
     (out = Ok tt ↔ extends id root oks c ∧ within_bounds r c) ∧
     (out ≠ Ok tt → r' = r) ∧ out ≠ Panic).
Proof.
  intros Hnew. pose proof (round_run_inv id root [] calls r0 (round_new_inv _ _ _ Hnew) (TranscriptStart _ _)) as Hrun.
  destruct (round_run calls r0) as [oks r]. destruct Hrun as [Hinv Ht]. simpl in Hinv, Ht.
  assert (∀ m v, round_outcome r m = Ok (Revealed v) ↔ ∃ salt, CallReveal m v salt ∈ oks) as Hout.
  { intros m v. by rewrite <-(ri_outcomes _ _ _ _ Hinv), round_outcome_revealed. }
  split_and!; [done|apply Hinv|done| |].
  - intros m. rewrite <-(ri_members _ _ _ _ Hinv). unfold round_outcome in *. munfold_goal. munfold.
    specialize (Hout m). destruct (rd_members r !! m) as [s|]; simpl in *.
    + destruct (ms_outcome s) as [|v]; split; try done; [|intros [_ Hno]; destruct (proj1 (Hout v) eq_refl) as [salt ?]; by destruct (Hno v salt)].
      intros _. split; [eauto|]. intros v salt Hin. by assert (@Ok Error _ NotRevealed = Ok (Revealed v)) by (apply Hout; eauto).
    + split; [done|]. by intros [[? ?] _].
  - intros c. destruct (round_step_ok id root oks r Hinv c) as (? & ? & ? & ?). by destruct (round_step c r).
Qed.

(** C34: a revealed verdict is the one its member committed to.  Whenever
    the round reports a verdict for a member, the transcript has a reveal of it
    whose digest over this round's identity, evidence root, verdict and salt is
    the one that member committed to, and the commitment was made before reveals
    opened, hence before any member's verdict was revealed. *)
Theorem revealed_verdict_was_committed (id : Z) (root : bytes) (r0 : Round) (calls : list round_call)
    (m : bytes) (v : Verdict) :
  round_new id root = Ok r0 →
  let '(oks, r) := round_run calls r0 in
  round_outcome r m = Ok (Revealed v) →
  ∃ pre post salt d, oks = pre ++ CallOpenReveals :: post ∧ CallReveal m v salt ∈ post ∧
    CallCommit m d ∈ pre ∧ commitment id m root v salt = Ok d ∧
    Forall (λ c, is_reveal c = false) pre.
Proof.
  intros Hnew. pose proof (round_run_inv id root [] calls r0 (round_new_inv _ _ _ Hnew) (TranscriptStart _ _)) as Hrun.
  destruct (round_run calls r0) as [oks r]. destruct Hrun as [Hinv Ht]. simpl in Hinv, Ht. intros Hout.
  assert (∃ salt, CallReveal m v salt ∈ oks) as [salt Hin].
  { by apply (ri_outcomes _ _ _ _ Hinv), round_outcome_revealed. }
  destruct (transcript_reveal _ _ _ _ _ _ Ht Hin) as (pre & post & d & ?). by exists pre, post, salt, d.
Qed.

(** The committed preimage is unambiguous.  [commitment] succeeds
    exactly on a nonempty bounded member and evidence root and a bounded salt,
    and its result is the digest of a framed preimage from which round, member,
    evidence root, verdict and salt can be recovered: two preimages that agree
    agree in every field.  (Nothing is claimed about digests.) *)
Theorem commitment_preimage_unambiguous (id id' : Z) (m m' root root' : bytes) (v v' : Verdict) (salt salt' : bytes) :
  is_u64 id → is_u64 id' →
  let ok m root salt := m ≠ [] ∧ len m ≤ MAX_FIELD_LEN ∧ root ≠ [] ∧ len root ≤ MAX_FIELD_LEN ∧
                        len salt ≤ MAX_FIELD_LEN in
  (commitment id m root v salt = Ok (fnv1a64 (commitment_preimage id m root v salt)) ↔ ok m root salt) ∧
  (is_ok (commitment id m root v salt) = true ↔ ok m root salt) ∧
  (ok m root salt → ok m' root' salt' →
   commitment_preimage id m root v salt = commitment_preimage id' m' root' v' salt' →
   id = id' ∧ m = m' ∧ root = root' ∧ v = v' ∧ salt = salt').
Proof.
  intros Hid Hid' ok. assert (∀ f, validate_nonempty_field f = Ok tt ↔ f ≠ [] ∧ len f ≤ MAX_FIELD_LEN) as Hne.
  { intros f. unfold validate_nonempty_field, validate_field_len. munfold_goal.
    destruct f as [|b f]; [naive_solver|]. destruct (Z.ltb_spec MAX_FIELD_LEN (len (b :: f))); naive_solver lia. }
  assert (∀ f, validate_field_len f = Ok tt ↔ len f ≤ MAX_FIELD_LEN) as Hl.
  { intros f. unfold validate_field_len. munfold_goal. destruct (Z.ltb_spec MAX_FIELD_LEN (len f)); naive_solver lia. }
  unfold commitment, ok. munfold_goal.
  pose proof (Hne m) as H1. pose proof (Hne root) as H2. pose proof (Hl salt) as H3.
  split_and!.
  - destruct (validate_nonempty_field m) as [[]| |]; [|naive_solver..].
    destruct (validate_nonempty_field root) as [[]| |]; [|naive_solver..].
    destruct (validate_field_len salt) as [[]| |]; naive_solver.
  - destruct (validate_nonempty_field m) as [[]| |]; [|naive_solver..].
    destruct (validate_nonempty_field root) as [[]| |]; [|naive_solver..].
    destruct (validate_field_len salt) as [[]| |]; naive_solver.
  - unfold MAX_FIELD_LEN. intros ??. apply commitment_preimage_inj; [done..|].
    repeat (apply Forall_cons_2 || apply Forall_nil_2); lia.
Qed.

(** ** Witnesses *)

Definition example_round : Round := mkRound 7 (ascii_bytes "root") CommitPhase false ∅.
Definition example_digest (v : Verdict) : Z :=
  fnv1a64 (commitment_preimage 7 (ascii_bytes "alice") (ascii_bytes "root") v (ascii_bytes "salt")).
Definition example_round_calls : list round_call :=
  [CallAddMember (ascii_bytes "alice"); CallAddMember (ascii_bytes "bob");
   CallCommit (ascii_bytes "alice") (example_digest Deny);
   CallReveal (ascii_bytes "alice") Deny (ascii_bytes "salt");
   CallOpenReveals;
   CallReveal (ascii_bytes "alice") Allow (ascii_bytes "salt");
   CallReveal (ascii_bytes "alice") Deny (ascii_bytes "salt")].

Lemma round_is_its_transcript_witness :
  let '(oks, r) := round_run example_round_calls example_round in
  length oks = 5%nat ∧ transcript 7 (ascii_bytes "root") oks ∧
  round_outcome r (ascii_bytes "bob") = Ok NotRevealed.
Proof.
  pose proof (round_is_its_transcript 7 (ascii_bytes "root") example_round example_round_calls) as H.
  destruct (round_run example_round_calls example_round) as [oks r] eqn:E.
  assert (oks = (round_run example_round_calls example_round).1) as Ho by (rewrite E; reflexivity).
  assert (r = (round_run example_round_calls example_round).2) as Hr by (rewrite E; reflexivity).
  destruct H as [Ht _]; [reflexivity|].
  split; [rewrite Ho; vm_compute; reflexivity|]. split; [exact Ht|]. rewrite Hr. vm_compute. reflexivity.
Defined.

Lemma revealed_verdict_was_committed_witness :
  let '(oks, r) := round_run example_round_calls example_round in
  round_outcome r (ascii_bytes "alice") = Ok (Revealed Deny) ∧
  ∃ pre post salt d, oks = pre ++ CallOpenReveals :: post ∧ CallReveal (ascii_bytes "alice") Deny salt ∈ post ∧
    CallCommit (ascii_bytes "alice") d ∈ pre ∧
    commitment 7 (ascii_bytes "alice") (ascii_bytes "root") Deny salt = Ok d ∧
    Forall (λ c, is_reveal c = false) pre.
Proof.
  pose proof (revealed_verdict_was_committed 7 (ascii_bytes "root") example_round example_round_calls
    (ascii_bytes "alice") Deny) as H.
  destruct (round_run example_round_calls example_round) as [oks r] eqn:E.
  assert (r = (round_run example_round_calls example_round).2) as Hr by (rewrite E; reflexivity).
  assert (round_outcome r (ascii_bytes "alice") = Ok (Revealed Deny)) as Ho
    by (rewrite Hr; vm_compute; reflexivity).
  split; [exact Ho|]. apply H; [reflexivity|exact Ho].
Defined.

Lemma commitment_preimage_unambiguous_witness :
  commitment 7 (ascii_bytes "ab") (ascii_bytes "c") Allow [] =
    Ok (fnv1a64 (commitment_preimage 7 (ascii_bytes "ab") (ascii_bytes "c") Allow [])) ∧
  commitment_preimage 7 (ascii_bytes "ab") (ascii_bytes "c") Allow []
    ≠ commitment_preimage 7 (ascii_bytes "a") (ascii_bytes "bc") Allow [].
Proof.
  assert (is_u64 7) as H7 by (unfold is_u64; lia).
  destruct (commitment_preimage_unambiguous 7 7 (ascii_bytes "ab") (ascii_bytes "a") (ascii_bytes "c")
    (ascii_bytes "bc") Allow Allow [] [] H7 H7) as (H1 & _ & H3). split.
  - apply H1. unfold len, MAX_FIELD_LEN. simpl. split_and!; [discriminate|lia|discriminate|lia|lia].
  - intros E. destruct H3 as (_ & Hm & _); [..|exact E|discriminate Hm];
      unfold len, MAX_FIELD_LEN; simpl; (split_and!; [discriminate|lia|discriminate|lia|lia]).
Defined.
