(* ===== verification/Address.v ===== *)
(** * Canonical addresses

    [crates/fa-reference/src/address.rs]: the addresses
    [fa://<tenant>/<kind>/<id>[@generation]] of the registered nouns, their
    parser and their printer. *)

From Stdlib Require Import Strings.Byte.
From stdpp Require Import base tactics numbers list sets.
From S2P Require Import Prelude Bytes Decimal Judgment.

Local Open Scope Z_scope.

(** ** Model *)

Definition PREFIX : bytes := ascii_bytes "fa://".

Inductive AddressKind :=
  | Run | Attempt | Effect | Permit | Closure | Receipt | Round | Consequence | Helper | Evidence
  | View | Witness | Frontier | Observation | Passport | Policy | Profile | Grade | Fence | Branch
  | Checkpoint | Incident | Finding | Ledger | Annotation | Handoff.

#[global] Instance AddressKind_eq_dec : EqDecision AddressKind.
Proof. solve_decision. Defined.

(** [AddressKind::ALL] *)
Definition ALL : list AddressKind :=
  [Run; Attempt; Effect; Permit; Closure; Receipt; Round; Consequence; Helper; Evidence;
   View; Witness; Frontier; Observation; Passport; Policy; Profile; Grade; Fence; Branch;
   Checkpoint; Incident; Finding; Ledger; Annotation; Handoff].

Definition as_str (k : AddressKind) : bytes :=
  match k with
  | Run => ascii_bytes "run"
  | Attempt => ascii_bytes "attempt"
  | Effect => ascii_bytes "effect"
  | Permit => ascii_bytes "permit"
  | Closure => ascii_bytes "closure"
  | Receipt => ascii_bytes "receipt"
  | Round => ascii_bytes "round"
  | Consequence => ascii_bytes "consequence"
  | Helper => ascii_bytes "helper"
  | Evidence => ascii_bytes "evidence"
  | View => ascii_bytes "view"
  | Witness => ascii_bytes "witness"
  | Frontier => ascii_bytes "frontier"
  | Observation => ascii_bytes "observation"
  | Passport => ascii_bytes "passport"
  | Policy => ascii_bytes "policy"
  | Profile => ascii_bytes "profile"
  | Grade => ascii_bytes "grade"
  | Fence => ascii_bytes "fence"
  | Branch => ascii_bytes "branch"
  | Checkpoint => ascii_bytes "checkpoint"
  | Incident => ascii_bytes "incident"
  | Finding => ascii_bytes "finding"
  | Ledger => ascii_bytes "ledger"
  | Annotation => ascii_bytes "annotation"
  | Handoff => ascii_bytes "handoff"
  end.

(** The arms of the [match] in [AddressKind::parse], in order. *)
Definition kind_arms : list (bytes * AddressKind) :=
  [(ascii_bytes "run", Run); (ascii_bytes "attempt", Attempt); (ascii_bytes "effect", Effect);
   (ascii_bytes "permit", Permit); (ascii_bytes "closure", Closure); (ascii_bytes "receipt", Receipt);
   (ascii_bytes "round", Round); (ascii_bytes "consequence", Consequence); (ascii_bytes "helper", Helper);
   (ascii_bytes "evidence", Evidence); (ascii_bytes "view", View); (ascii_bytes "witness", Witness);
   (ascii_bytes "frontier", Frontier); (ascii_bytes "observation", Observation);
   (ascii_bytes "passport", Passport); (ascii_bytes "policy", Policy); (ascii_bytes "profile", Profile);
   (ascii_bytes "grade", Grade); (ascii_bytes "fence", Fence); (ascii_bytes "branch", Branch);
   (ascii_bytes "checkpoint", Checkpoint); (ascii_bytes "incident", Incident);
   (ascii_bytes "finding", Finding); (ascii_bytes "ledger", Ledger);
   (ascii_bytes "annotation", Annotation); (ascii_bytes "handoff", Handoff)].

Definition address_kind_parse (value : bytes) : res Error AddressKind :=
  match list_find (λ arm, arm.1 = value) kind_arms with
  | Some (_, arm) => Ok arm.2
  | None => Err InvalidInput
  end.

Record Address := mkAddress {
  ad_tenant : Z;
  ad_kind : AddressKind;
  ad_id : Z;
  ad_generation : option Z;
}.

#[global] Instance Address_eq_dec : EqDecision Address.
Proof. solve_decision. Defined.

Definition address_new (tenant : Z) (kind : AddressKind) (id : Z) (generation : option Z)
    : res Error Address :=
  refuse_if ((tenant =? 0) || (id =? 0) || bool_decide (generation = Some 0)) InvalidInput;;
  Ok (mkAddress tenant kind id generation).

Definition decimal (value : bytes) : res Error Z :=
  refuse_if (match value with [] => true | b :: _ => byte_val b =? 48 end
             || negb (forallb is_ascii_digit value)) InvalidInput;;
  ok_or (u64_parse value) InvalidInput.

(** [str::split] by one ASCII character; the pieces, never none. *)
Fixpoint split_on (c : byte) (bs : bytes) : list bytes :=
  match bs with
  | [] => [[]]
  | b :: bs =>
    if bool_decide (b = c) then [] :: split_on c bs
    else match split_on c bs with
         | piece :: pieces => (b :: piece) :: pieces
         | [] => [[b]]
         end
  end.

(** [u8::is_ascii], [u8::is_ascii_whitespace] and [str::starts_with]. *)
Definition is_ascii (b : byte) : bool := byte_val b <? 128.
Definition is_ascii_whitespace (b : byte) : bool :=
  bool_decide (byte_val b ∈ [9; 10; 12; 13; 32]).
Definition starts_with (prefix value : bytes) : bool :=
  bool_decide (take (length prefix) value = prefix).

Definition slash : byte := byte_of 47.
Definition at_sign : byte := byte_of 64.

Definition address_parse (value : bytes) : res Error Address :=
  refuse_if ((256 <? len value) || negb (forallb is_ascii value)
             || negb (starts_with PREFIX value)) InvalidInput;;
  let body := drop (length PREFIX) value in
  refuse_if (existsb is_ascii_whitespace body) InvalidInput;;
  let parts := split_on slash body in
  tenant ← ok_or (parts !! 0%nat) InvalidInput;
  tenant ← decimal tenant;
  kind ← ok_or (parts !! 1%nat) InvalidInput;
  kind ← address_kind_parse kind;
  tail ← ok_or (parts !! 2%nat) InvalidInput;
  refuse_if (bool_decide (is_Some (parts !! 3%nat)) || bool_decide (tail = [])) InvalidInput;;
  let id_generation := split_on at_sign tail in
  id ← ok_or (id_generation !! 0%nat) InvalidInput;
  id ← decimal id;
  generation ← match id_generation !! 1%nat with
               | Some value => v ← decimal value; Ok (Some v)
               | None => Ok None
               end;
  refuse_if (bool_decide (is_Some (id_generation !! 2%nat))) InvalidInput;;
  address_new tenant kind id generation.

Definition address_with_generation (self : Address) (generation : Z) : res Error Address :=
  address_new (ad_tenant self) (ad_kind self) (ad_id self) (Some generation).
Definition address_without_generation (self : Address) : Address :=
  mkAddress (ad_tenant self) (ad_kind self) (ad_id self) None.

(** [Display for Address] *)
Definition address_display (self : Address) : bytes :=
  PREFIX ++ u64_to_string (ad_tenant self) ++ [slash] ++ as_str (ad_kind self) ++ [slash]
  ++ u64_to_string (ad_id self)
  ++ match ad_generation self with Some g => at_sign :: u64_to_string g | None => [] end.

(** ** Splitting *)

Fixpoint join (c : byte) (pieces : list bytes) : bytes :=
  match pieces with
  | [] => []
  | [p] => p
  | p :: pieces => p ++ c :: join c pieces
  end.

Lemma split_on_nonempty c bs : split_on c bs ≠ [].
Proof. destruct bs as [|b bs]; simpl; [done|]. repeat case_match; done. Qed.

Lemma split_on_join c bs : bs = join c (split_on c bs) ∧ Forall (λ p, c ∉ p) (split_on c bs).
Proof.
  induction bs as [|b bs [IH1 IH2]]; simpl; [split; [done|repeat constructor; set_solver]|].
  pose proof (split_on_nonempty c bs). case_bool_decide as Hb.
  - subst b. split; [|constructor; [set_solver|done]]. rewrite IH1 at 1.
    by destruct (split_on c bs).
  - destruct (split_on c bs) as [|p ps]; [done|]. apply Forall_cons in IH2 as [Hp Hps]. split.
    + rewrite IH1 at 1. by destruct ps.
    + constructor; [set_solver|done].
Qed.

Lemma split_on_none c p : c ∉ p → split_on c p = [p].
Proof.
  induction p as [|b p IH]; intros Hp; simpl; [done|]. apply not_elem_of_cons in Hp as [Hb Hp].
  rewrite bool_decide_eq_false_2 by congruence. by rewrite IH.
Qed.

Lemma split_on_app c p rest : c ∉ p → split_on c (p ++ c :: rest) = p :: split_on c rest.
Proof.
  induction p as [|b p IH]; intros Hp; simpl; [by rewrite bool_decide_eq_true_2|].
  apply not_elem_of_cons in Hp as [Hb Hp]. rewrite bool_decide_eq_false_2 by congruence. by rewrite IH.
Qed.

(** ** The fields *)

Lemma decimal_guard s :
  match s with [] => true | b :: _ => byte_val b =? 48 end || negb (forallb is_ascii_digit s) = false ↔
  canonical s.
Proof.
  rewrite orb_false_iff, negb_false_iff, forallb_forall. unfold canonical, digits. rewrite Forall_forall.
  setoid_rewrite list_elem_of_In. split.
  - intros [Hh Hd]. split; [done|]. destruct s as [|b s]; [done|]. apply Z.eqb_neq in Hh. eauto.
  - intros [Hd (b & rest & -> & Hb)]. split; [by apply Z.eqb_neq|done].
Qed.

Lemma decimal_ok s n : decimal s = Ok n ↔ 1 ≤ n ≤ U64_MAX ∧ s = u64_to_string n.
Proof.
  unfold decimal. munfold_goal.
  destruct (match s with [] => true | b :: _ => byte_val b =? 48 end || negb (forallb is_ascii_digit s)) eqn:E.
  - split; [done|]. intros [Hn ->]. destruct (proj2 (canonical_printed _ n Hn) eq_refl) as [Hc _].
    apply decimal_guard in Hc. congruence.
  - apply decimal_guard in E. pose proof E as [Hd (b & rest & Heq & _)].
    rewrite u64_parse_digits by (done || by rewrite Heq).
    assert (1 ≤ dec_val s) as Hpos.
    { pose proof (canonical_lower s E). assert (0 < 10 ^ (len s - 1)); [|lia].
      apply Z.pow_pos_nonneg; [lia|]. rewrite Heq. unfold len. simpl. lia. }
    destruct (Z.leb_spec (dec_val s) U64_MAX).
    + split; [intros [= <-]; split; [lia|by apply canonical_printed]|].
      intros [Hn Hs]. apply canonical_printed in Hs as [_ <-]; done.
    + split; [done|]. intros [Hn Hs]. apply canonical_printed in Hs as [_ <-]; [lia|done].
Qed.

Lemma kind_arms_eq : kind_arms = (λ k, (as_str k, k)) <$> ALL.
Proof. reflexivity. Qed.

Lemma address_kind_parse_ok s k : address_kind_parse s = Ok k ↔ s = as_str k.
Proof.
  split; [|intros ->; by destruct k].
  unfold address_kind_parse. destruct (list_find _ kind_arms) as [[i [s' k']]|] eqn:E; [|done].
  intros [= <-]. apply list_find_Some in E as (Hi & Hs & _). simpl in Hs. subst s'.
  apply list_elem_of_lookup_2 in Hi. rewrite kind_arms_eq in Hi.
  apply list_elem_of_fmap in Hi as (k & [= -> ->] & _). done.
Qed.

Lemma decimal_outcome s : (∃ n, decimal s = Ok n) ∨ decimal s = Err InvalidInput.
Proof. unfold decimal. munfold_goal. destruct (_ || _); [by right|]. destruct (u64_parse s); eauto. Qed.

(** ** Canonical text *)

(** The values a caller can construct. *)
Definition address_wf (a : Address) : Prop :=
  1 ≤ ad_tenant a ≤ U64_MAX ∧ 1 ≤ ad_id a ≤ U64_MAX ∧
  match ad_generation a with Some g => 1 ≤ g ≤ U64_MAX | None => True end.

Lemma address_new_ok tenant kind id generation a :
  is_u64 tenant → is_u64 id → match generation with Some g => is_u64 g | None => True end →
  address_new tenant kind id generation = Ok a ↔ a = mkAddress tenant kind id generation ∧ address_wf a.
Proof.
  intros Ht Hi Hg. unfold address_new, address_wf, is_u64 in *. munfold_goal.
  destruct (Z.eqb_spec tenant 0); simpl; [split; [done|intros [-> ?]; simpl in *; lia]|].
  destruct (Z.eqb_spec id 0); simpl; [split; [done|intros [-> ?]; simpl in *; lia]|].
  case_bool_decide; [subst; split; [done|intros [-> ?]; simpl in *; lia]|].
  split; [|by intros [-> _]]. intros [= <-]. split; [done|]. simpl. split_and!; [lia..|].
  destruct generation as [g|]; [|done]. assert (g ≠ 0) by congruence. lia.
Qed.

(** What follows the id. *)
Definition generation_text (g : option Z) : bytes :=
  match g with Some g => at_sign :: u64_to_string g | None => [] end.

(** Characters of a numeral or of a noun: no separator among them. *)
Definition plain (b : byte) : bool :=
  is_ascii b && negb (is_ascii_whitespace b) && negb (bool_decide (b = slash)) && negb (bool_decide (b = at_sign)).

Lemma plain_not_in p c : Forall (λ b, plain b = true) p → plain c = false → c ∉ p.
Proof. rewrite Forall_forall. intros Hp Hc Hin. specialize (Hp c Hin). congruence. Qed.

Lemma digit_plain b : is_ascii_digit b = true → plain b = true.
Proof.
  intros Hb%is_ascii_digit_spec. unfold plain, is_ascii, is_ascii_whitespace.
  assert (byte_val slash = 47 ∧ byte_val at_sign = 64) as [Hs Ha] by done.
  rewrite !andb_true_iff, !negb_true_iff, !bool_decide_eq_false. split_and!.
  - lia.
  - rewrite !elem_of_cons, elem_of_nil. lia.
  - intros ->. lia.
  - intros ->. lia.
Qed.

Lemma u64_plain z : is_u64 z → Forall (λ b, plain b = true) (u64_to_string z).
Proof.
  intros Hz. destruct (u64_to_string_spec z Hz) as [Hd _].
  eapply Forall_impl; [exact Hd|]. intros b. apply digit_plain.
Qed.

Lemma kind_plain k : Forall (λ b, plain b = true) (as_str k) ∧ (length (as_str k) ≤ 11)%nat.
Proof.
  split; [|destruct k; vm_compute; lia].
  assert (forallb plain (as_str k) = true) as Hk by (by destruct k).
  rewrite forallb_forall in Hk. apply Forall_forall. intros b Hb. by apply Hk, list_elem_of_In.
Qed.

(** The parser, after the checks on the text as a whole. *)
Definition parse_body (body : bytes) : res Error Address :=
  let parts := split_on slash body in
  tenant ← ok_or (parts !! 0%nat) InvalidInput;
  tenant ← decimal tenant;
  kind ← ok_or (parts !! 1%nat) InvalidInput;
  kind ← address_kind_parse kind;
  tail ← ok_or (parts !! 2%nat) InvalidInput;
  refuse_if (bool_decide (is_Some (parts !! 3%nat)) || bool_decide (tail = [])) InvalidInput;;
  let id_generation := split_on at_sign tail in
  id ← ok_or (id_generation !! 0%nat) InvalidInput;
  id ← decimal id;
  generation ← match id_generation !! 1%nat with
               | Some value => v ← decimal value; Ok (Some v)
               | None => Ok None
               end;
  refuse_if (bool_decide (is_Some (id_generation !! 2%nat))) InvalidInput;;
  address_new tenant kind id generation.

Definition body_text (a : Address) : bytes :=
  u64_to_string (ad_tenant a) ++ slash :: as_str (ad_kind a) ++ slash ::
  u64_to_string (ad_id a) ++ generation_text (ad_generation a).

Lemma address_display_body a : address_display a = PREFIX ++ body_text a.
Proof. reflexivity. Qed.

Lemma parse_tail tail id generation :
  (tail ≠ [] ∧ (i ← ok_or (split_on at_sign tail !! 0%nat) InvalidInput; decimal i) = Ok id ∧
   (match split_on at_sign tail !! 1%nat with Some value => v ← decimal value; Ok (Some v) | None => Ok None end)
     = Ok generation ∧ split_on at_sign tail !! 2%nat = None) ↔
  1 ≤ id ≤ U64_MAX ∧ match generation with Some g => 1 ≤ g ≤ U64_MAX | None => True end ∧
  tail = u64_to_string id ++ generation_text generation.
Proof.
  assert (∀ n, 1 ≤ n ≤ U64_MAX → at_sign ∉ u64_to_string n) as Hat.
  { intros n Hn. apply plain_not_in; [|done]. apply u64_plain. unfold is_u64. lia. }
  split.
  - intros (Hne & Hid & Hgen & Hlast). pose proof (split_on_join at_sign tail) as [Hj _].
    destruct (split_on at_sign tail) as [|i [|g [|]]] eqn:Hs; simpl in *; munfold; try done.
    + apply decimal_ok in Hid as [Hid ->]. simplify_eq. split; [done|]. split; [done|]. simpl. by rewrite app_nil_r.
    + apply decimal_ok in Hid as [Hid ->]. destruct (decimal g) as [gen| |] eqn:Hg; simplify_eq.
      apply decimal_ok in Hg as [Hg ->]. done.
  - intros (Hid & Hgen & ->). destruct generation as [g|]; simpl.
    + rewrite split_on_app, split_on_none by eauto. simpl. munfold_goal.
      assert (decimal (u64_to_string g) = Ok g) as -> by (by apply decimal_ok).
      split_and!; [by destruct (u64_to_string id)|by apply decimal_ok|done|done].
    + rewrite app_nil_r, split_on_none by eauto. simpl. munfold_goal.
      split_and!; [apply u64_to_string_nonempty|by apply decimal_ok|done|done].
Qed.

Lemma parse_body_ok body a : parse_body body = Ok a ↔ address_wf a ∧ body = body_text a.
Proof.
  assert (∀ n, 1 ≤ n ≤ U64_MAX → slash ∉ u64_to_string n) as Hsl.
  { intros n Hn. apply plain_not_in; [|done]. apply u64_plain. unfold is_u64. lia. }
  split.
  - unfold parse_body. pose proof (split_on_join slash body) as [Hj _]. cbv zeta.
    destruct (split_on slash body) as [|t [|k [|tail [|]]]] eqn:Hs; simpl; munfold_goal; try done.
    1-2: by (destruct (decimal t); try done; destruct (address_kind_parse k)).
    all: destruct (decimal t) as [tenant| |] eqn:Ht; try done; apply decimal_ok in Ht as [Ht ->];
      destruct (address_kind_parse k) as [kind| |] eqn:Hk; try done; apply address_kind_parse_ok in Hk as ->.
    case_bool_decide as Hne; simpl; [done|].
    destruct (split_on at_sign tail !! 0%nat) as [i|] eqn:Hi; [|done].
    destruct (decimal i) as [id| |] eqn:Hid; [|done..].
    destruct (match split_on at_sign tail !! 1%nat with
              | Some value => match decimal value with Ok a => Ok (Some a) | Err e => Err e | Panic => Panic end
              | None => Ok None end) as [generation| |] eqn:Hgen; [|done..].
    case_bool_decide as Hlast; [done|]. apply eq_None_not_Some in Hlast.
    destruct (proj1 (parse_tail tail id generation)) as (Hid' & Hg' & Htail).
    { split_and!; [done|by rewrite Hi|exact Hgen|done]. }
    intros Hnew. apply address_new_ok in Hnew as [-> Hwf];
      [|unfold is_u64; lia|unfold is_u64; lia|destruct generation; [unfold is_u64; lia|done]].
    split; [done|]. rewrite Hj, Htail. reflexivity.
  - intros [Hwf ->]. destruct a as [tenant kind id generation]. pose proof Hwf as (Ht & Hi & Hg). simpl in Ht, Hi, Hg.
    set (tail := u64_to_string id ++ generation_text generation).
    assert (slash ∉ as_str kind) as Hk by (apply plain_not_in; [apply kind_plain|done]).
    assert (slash ∉ tail) as Htl.
    { unfold tail. apply not_elem_of_app. split; [by apply Hsl|]. destruct generation as [g|]; simpl; [|apply not_elem_of_nil].
      apply not_elem_of_cons. split; [done|by apply Hsl]. }
    assert (split_on slash (body_text (mkAddress tenant kind id generation)) =
      [u64_to_string tenant; as_str kind; tail]) as Hsplit.
    { unfold body_text. cbn [ad_tenant ad_kind ad_id ad_generation]. fold tail.
      by rewrite split_on_app, split_on_app, split_on_none by eauto. }
    unfold parse_body. rewrite Hsplit. cbv zeta. simpl. munfold_goal.
    rewrite (proj2 (decimal_ok _ tenant)) by done. rewrite (proj2 (address_kind_parse_ok _ kind)) by done.
    destruct (proj2 (parse_tail tail id generation)) as (Hne & Hid & Hgen & Hlast); [done|].
    rewrite bool_decide_eq_false_2 by done. munfold.
    destruct (split_on at_sign tail !! 0%nat) as [i|]; [|done]. rewrite Hid, Hgen, Hlast.
    rewrite bool_decide_eq_false_2 by (by intros [? ?]).
    apply address_new_ok; [unfold is_u64; lia|unfold is_u64; lia|destruct generation; [unfold is_u64; lia|done]|done].
Qed.

(** The parser has a single error and never aborts. *)
Lemma parse_body_err body : (∀ a, parse_body body ≠ Ok a) → parse_body body = Err InvalidInput.
Proof.
  assert (∀ s, (∃ n, decimal s = Ok n) ∨ decimal s = Err InvalidInput) as Hd by apply decimal_outcome.
  assert (∀ s, (∃ k, address_kind_parse s = Ok k) ∨ address_kind_parse s = Err InvalidInput) as Hk.
  { intros s. unfold address_kind_parse. destruct (list_find _ _) as [[? ?]|]; eauto. }
  unfold parse_body, address_new. munfold_goal. intros Hno.
  destruct (split_on slash body !! 0%nat) as [t|]; [|done]. destruct (Hd t) as [[tenant Ht]|Ht]; rewrite Ht in *; [|done].
  destruct (split_on slash body !! 1%nat) as [k|]; [|done]. destruct (Hk k) as [[kind Hk']|Hk']; rewrite Hk' in *; [|done].
  destruct (split_on slash body !! 2%nat) as [tail|]; [|done]. destruct (_ || _); [done|].
  destruct (split_on at_sign tail !! 0%nat) as [i|]; [|done]. destruct (Hd i) as [[id Hi]|Hi]; rewrite Hi in *; [|done].
  destruct (split_on at_sign tail !! 1%nat) as [g|]; [destruct (Hd g) as [[gen Hg]|Hg]; rewrite Hg in *; [|done]|];
    (destruct (bool_decide _); [done|]; destruct (_ || _); [done|]; by edestruct Hno).
Qed.

Lemma address_parse_body value :
  address_parse value =
    if (256 <? len value) || negb (forallb is_ascii value) || negb (starts_with PREFIX value)
       || existsb is_ascii_whitespace (drop (length PREFIX) value)
    then Err InvalidInput else parse_body (drop (length PREFIX) value).
Proof.
  unfold address_parse, parse_body. munfold_goal.
  destruct ((256 <? len value) || negb (forallb is_ascii value) || negb (starts_with PREFIX value)); [done|].
  by destruct (existsb _ _).
Qed.

Lemma generation_text_plain g :
  match g with Some g => 1 ≤ g ≤ U64_MAX | None => True end →
  Forall (λ b, is_ascii b = true ∧ is_ascii_whitespace b = false) (generation_text g) ∧
  (length (generation_text g) ≤ 21)%nat.
Proof.
  destruct g as [g|]; simpl; [|intros _; split; [constructor|lia]]. intros Hg.
  assert (is_u64 g) as Hu by (unfold is_u64; lia).
  destruct (u64_to_string_spec g Hu) as (_ & _ & _ & Hl & _). split; [|lia]. constructor; [done|].
  eapply Forall_impl; [exact (u64_plain g Hu)|]. intros b. unfold plain.
  rewrite !andb_true_iff, !negb_true_iff. tauto.
Qed.

(** The printed body passes the checks on the text as a whole. *)
Lemma body_text_checks a :
  address_wf a →
  Forall (λ b, is_ascii b = true ∧ is_ascii_whitespace b = false) (body_text a) ∧ len (body_text a) ≤ 74.
Proof.
  intros (Ht & Hi & Hg). unfold body_text.
  assert (∀ n, 1 ≤ n ≤ U64_MAX → Forall (λ b, plain b = true) (u64_to_string n) ∧ (length (u64_to_string n) ≤ 20)%nat) as Hn.
  { intros n Hn. assert (is_u64 n) as Hu by (unfold is_u64; lia). split; [by apply u64_plain|].
    by destruct (u64_to_string_spec n Hu) as (_ & _ & _ & ? & _). }
  assert (∀ p, Forall (λ b, plain b = true) p →
    Forall (λ b, is_ascii b = true ∧ is_ascii_whitespace b = false) p) as Hplain.
  { intros p Hp. eapply Forall_impl; [exact Hp|]. intros b. unfold plain. rewrite !andb_true_iff, !negb_true_iff. tauto. }
  destruct (Hn _ Ht) as [Ht1 Ht2]. destruct (Hn _ Hi) as [Hi1 Hi2].
  destruct (kind_plain (ad_kind a)) as [Hk1 Hk2]. destruct (generation_text_plain _ Hg) as [Hg1 Hg2]. split.
  - assert (is_ascii slash = true ∧ is_ascii_whitespace slash = false) as Hsl by (split; reflexivity).
    exact (Forall_app_2 _ _ _ (Hplain _ Ht1) (Forall_cons_2 _ _ _ Hsl (Forall_app_2 _ _ _ (Hplain _ Hk1)
      (Forall_cons_2 _ _ _ Hsl (Forall_app_2 _ _ _ (Hplain _ Hi1) Hg1))))).
  - unfold len. rewrite !length_app. simpl. rewrite length_app. simpl. rewrite length_app. lia.
Qed.

(** ** Property *)

(** C39: the parser accepts exactly the canonical texts.  [parse] returns an
    address if and only if its fields are nonzero [u64]s and the text is what
    [Display] prints for it - so parsing inverts printing, no two texts denote
    the same address, and signs, leading zeroes, other cases of a noun, white
    space and extra separators are all refused -, and every other text gets
    [InvalidInput]. *)
Theorem address_parse_is_inverse_of_display (value : bytes) :
  (∀ a, address_parse value = Ok a ↔ address_wf a ∧ value = address_display a) ∧
  ((¬ (∃ a, address_wf a ∧ value = address_display a)) → address_parse value = Err InvalidInput) ∧
  (∀ a, address_wf a → address_parse (address_display a) = Ok a).
Proof.
  assert (∀ value a, address_parse value = Ok a ↔ address_wf a ∧ value = address_display a) as Hiff.
  { clear value. intros value a. rewrite address_parse_body.
    destruct (_ || existsb _ _) eqn:E.
    - split; [done|]. intros [Hwf ->]. exfalso. rewrite address_display_body in E.
      destruct (body_text_checks a Hwf) as [Hc Hl].
      assert ((256 <? len (PREFIX ++ body_text a)) = false) as E1 by (rewrite len_app; change (len PREFIX) with 5; lia).
      assert (forallb is_ascii (PREFIX ++ body_text a) = true) as E2.
      { apply forallb_forall. intros b Hb%list_elem_of_In. apply elem_of_app in Hb as [Hb|Hb].
        - rewrite Forall_forall in Hc. clear Hc.
          assert (Forall (λ b, is_ascii b = true) PREFIX) as Hp by (repeat constructor).
          rewrite Forall_forall in Hp. by apply Hp.
        - rewrite Forall_forall in Hc. by apply Hc. }
      assert (existsb is_ascii_whitespace (drop (length PREFIX) (PREFIX ++ body_text a)) = false) as E3.
      { rewrite drop_app_length. apply not_true_iff_false. rewrite existsb_exists.
        intros (b & Hb%list_elem_of_In & Hw). rewrite Forall_forall in Hc. destruct (Hc b Hb). congruence. }
      rewrite E1, E2, E3 in E. unfold starts_with in E.
      rewrite take_app_length, bool_decide_eq_true_2 in E; done.
    - apply orb_false_iff in E as [[_ Hs%negb_false_iff]%orb_false_iff _].
      unfold starts_with in Hs. apply bool_decide_eq_true in Hs.
      rewrite parse_body_ok, address_display_body. split; intros [Hwf Heq]; (split; [done|]).
      + by rewrite <-Hs, <-Heq, take_drop at 1.
      + by rewrite Heq, drop_app_length. }
  split_and!; [apply Hiff| |].
  - intros Hno. rewrite address_parse_body. destruct (_ || existsb _ _) eqn:E; [done|].
    pose proof (λ a, proj1 (Hiff value a)) as Hno'. rewrite address_parse_body in Hno'.
    setoid_rewrite E in Hno'. apply parse_body_err. intros a Ha. apply Hno. exists a. by apply Hno'.
  - intros a Hwf. by apply Hiff.
Qed.

Example address_text :
  address_parse (ascii_bytes "fa://7/checkpoint/18446744073709551615@3")
    = Ok (mkAddress 7 Checkpoint 18446744073709551615 (Some 3)) ∧
  address_parse (ascii_bytes "fa://7/checkpoint/18446744073709551616") = Err InvalidInput ∧
  address_parse (ascii_bytes "fa://7/run/+1") = Err InvalidInput ∧
  address_parse (ascii_bytes "fa://07/run/1") = Err InvalidInput.
Proof. vm_compute. done. Qed.
