(* ===== verification/Reducer.v ===== *)
(** * The empirical reducer

    [crates/fa-reference/src/reducer.rs]: votes of registered members are
    clipped per member, then proportionally per cohort, and tallied.  Nothing
    here decides anything: the result is two capped sums and what each member
    and cohort was admitted with. *)

From Stdlib Require Import Strings.Byte.
From stdpp Require Import base tactics numbers list gmap sorting.
From S2P Require Import Prelude Bytes Judgment.

Local Open Scope Z_scope.

(** ** Model *)

Definition MAX_VOTES : Z := 128.
Definition MAX_IDENTIFIER_BYTES : Z := 128.

Inductive Recommendation := Permit | Hold.

#[global] Instance Recommendation_eq_dec : EqDecision Recommendation.
Proof. solve_decision. Defined.

Inductive Vote :=
  | Empirical (member cohort : bytes) (recommendation : Recommendation)
  | ActorStatement (text : bytes).

Record Caps := mkCaps { cp_per_member : Z; cp_per_cohort : Z }.

(** [Outcome::Empirical] is [EmpiricalOutcome]. *)
Inductive Outcome := EmpiricalOutcome | Disqualified.

Record Reduction := mkReduction {
  rn_outcome : Outcome;
  rn_permit_weight : Z;
  rn_hold_weight : Z;
  rn_admitted_weights : gmap bytes Z;
  rn_admitted_cohort_weights : gmap bytes Z;
}.

(** The first loop of [reduce]: the members, each voting once. *)
Fixpoint collect_members (votes : list Vote) (members : gmap bytes (bytes * Recommendation))
    : res Error (gmap bytes (bytes * Recommendation)) :=
  match votes with
  | [] => Ok members
  | ActorStatement _ :: _ => Err InvalidInput
  | Empirical member cohort recommendation :: votes =>
    refuse_if (bool_decide (member = []) || bool_decide (cohort = [])) InvalidInput;;
    refuse_if ((MAX_IDENTIFIER_BYTES <? len member) || (MAX_IDENTIFIER_BYTES <? len cohort)) Limit;;
    refuse_if (bool_decide (is_Some (members !! member))) Duplicate;;
    collect_members votes (<[member := (cohort, recommendation)]> members)
  end.

(** A member of a cohort, with the recommendation and the clipped weight. *)
Definition Ballot : Type := bytes * Recommendation * Z.

(** The second loop: the ballots of each cohort. *)
Fixpoint group_cohorts (weights : gmap bytes Z) (caps : Caps)
    (members : list (bytes * (bytes * Recommendation))) (cohorts : gmap bytes (list Ballot))
    : res Error (gmap bytes (list Ballot)) :=
  match members with
  | [] => Ok cohorts
  | (member, (cohort, recommendation)) :: members =>
    requested ← ok_or (weights !! member) Missing;
    let member_weight := Z.min requested (cp_per_member caps) in
    group_cohorts weights caps members
      (<[cohort := default [] (cohorts !! cohort) ++ [(member, recommendation, member_weight)]]> cohorts)
  end.

(** Unchecked [u128] multiplication and division; [u64::try_from]. *)
Definition u128_mul {E} (a b : Z) : res E Z := if a * b <=? U128_MAX then Ok (a * b) else Panic.
Definition u128_div {E} (a b : Z) : res E Z := if b =? 0 then Panic else Ok (a / b).
Definition u64_try_from (a : Z) : option Z := if a <=? U64_MAX then Some a else None.

(** The accumulators of the third loop. *)
Record Tally := mkTally {
  ta_permit : Z;
  ta_hold : Z;
  ta_admitted : gmap bytes Z;
  ta_cohorts : gmap bytes Z;
}.

(** The loop over the members of one cohort. *)
Fixpoint admit_ballots (per_cohort cohort_sum : Z) (members : list Ballot) (cohort_weight : Z) (t : Tally)
    : res Error (Z * Tally) :=
  match members with
  | [] => Ok (cohort_weight, t)
  | (member, recommendation, member_weight) :: members =>
    admitted ← (if per_cohort <? cohort_sum then
                  numerator ← u128_mul member_weight per_cohort;
                  quotient ← u128_div numerator cohort_sum;
                  ok_or (u64_try_from quotient) Overflow
                else Ok member_weight);
    cohort_weight ← ok_or (u64_checked_add cohort_weight admitted) Overflow;
    let admitted_weights := <[member := admitted]> (ta_admitted t) in
    t ← match recommendation with
        | Permit =>
          permit ← ok_or (u64_checked_add (ta_permit t) admitted) Overflow;
          Ok (mkTally permit (ta_hold t) admitted_weights (ta_cohorts t))
        | Hold =>
          hold ← ok_or (u64_checked_add (ta_hold t) admitted) Overflow;
          Ok (mkTally (ta_permit t) hold admitted_weights (ta_cohorts t))
        end;
    admit_ballots per_cohort cohort_sum members cohort_weight t
  end.

(** The third loop, over the cohorts. *)
Fixpoint admit_cohorts (per_cohort : Z) (cohorts : list (bytes * list Ballot)) (t : Tally) : res Error Tally :=
  match cohorts with
  | [] => Ok t
  | (cohort, members) :: cohorts =>
    cohort_sum ← u128_try_sum Overflow 0 ((λ b : Ballot, b.2) <$> members);
    '(cohort_weight, t) ← admit_ballots per_cohort cohort_sum members 0 t;
    admit_cohorts per_cohort cohorts
      (mkTally (ta_permit t) (ta_hold t) (ta_admitted t) (<[cohort := cohort_weight]> (ta_cohorts t)))
  end.

Definition reduce (votes : list Vote) (weights : gmap bytes Z) (caps : Caps) (exact_disqualifier : bool)
    : res Error Reduction :=
  refuse_if ((MAX_VOTES <? len votes) || (MAX_VOTES <? Z.of_nat (size weights))) Limit;;
  refuse_if (existsb (λ p, MAX_IDENTIFIER_BYTES <? len p.1) (entries weights)) Limit;;
  members ← collect_members votes ∅;
  refuse_if (bool_decide (dom members ≠ dom weights)) Missing;;
  cohorts ← group_cohorts weights caps (entries members) ∅;
  t ← admit_cohorts (cp_per_cohort caps) (entries cohorts) (mkTally 0 0 ∅ ∅);
  Ok (mkReduction (if exact_disqualifier then Disqualified else EmpiricalOutcome)
        (ta_permit t) (ta_hold t) (ta_admitted t) (ta_cohorts t)).

(** ** A reference definition

    What a member is admitted with depends on the members and their cohorts
    only, not on any order. *)

(** A member with its cohort and recommendation. *)
Abbreviation Member := (bytes * (bytes * Recommendation))%type.

Section reference.
Context (weights : gmap bytes Z) (caps : Caps).

Definition clip (m : bytes) : Z := Z.min (default 0 (weights !! m)) (cp_per_member caps).

Definition cohort_total (ms : list Member) (c : bytes) : Z :=
  sumZ ((λ p, if decide (p.2.1 = c) then clip p.1 else 0) <$> ms).

(** The proportional share of a clipped weight, rounded down. *)
Definition share (total w : Z) : Z :=
  if cp_per_cohort caps <? total then w * cp_per_cohort caps / total else w.

Definition admitted (ms : list Member) (p : Member) : Z := share (cohort_total ms p.2.1) (clip p.1).

Definition tally (ms : list Member) (r : Recommendation) : Z :=
  sumZ ((λ p, if decide (p.2.2 = r) then admitted ms p else 0) <$> ms).

Definition cohort_admitted (ms : list Member) (c : bytes) : Z :=
  sumZ ((λ p, if decide (p.2.1 = c) then admitted ms p else 0) <$> ms).

Definition reference_reduction (ms : gmap bytes (bytes * Recommendation)) (exact_disqualifier : bool) : Reduction :=
  let l := entries ms in
  mkReduction (if exact_disqualifier then Disqualified else EmpiricalOutcome) (tally l Permit) (tally l Hold)
    (list_to_map ((λ p, (p.1, admitted l p)) <$> l))
    (list_to_map ((λ p, (p.2.1, cohort_admitted l p.2.1)) <$> l)).

(** ** Grouping *)

Definition ballot_of (p : Member) : Ballot := (p.1, p.2.2, clip p.1).
Definition ballots (c : bytes) (ms : list Member) : list Ballot :=
  ballot_of <$> filter (λ p, p.2.1 = c) ms.

(** Every ballot with its cohort. *)
Definition flat (l : list (bytes * list Ballot)) : list (bytes * Ballot) :=
  l ≫= λ g, (λ b, (g.1, b)) <$> g.2.

Lemma flat_cons c bs l : flat ((c, bs) :: l) = ((λ b, (c, b)) <$> bs) ++ flat l.
Proof. reflexivity. Qed.

#[global] Instance flat_proper : Proper ((≡ₚ) ==> (≡ₚ)) flat.
Proof. intros l k Hlk. unfold flat. by rewrite Hlk. Qed.

Lemma flat_push (cohorts : gmap bytes (list Ballot)) c b :
  flat (map_to_list (<[c := default [] (cohorts !! c) ++ [b]]> cohorts)) ≡ₚ (c, b) :: flat (map_to_list cohorts).
Proof.
  destruct (cohorts !! c) as [bs|] eqn:Hc; simpl.
  - rewrite <-(insert_delete_eq cohorts), map_to_list_insert by apply lookup_delete_eq.
    rewrite <-(insert_delete_id cohorts c bs) at 2 by done.
    rewrite map_to_list_insert by apply lookup_delete_eq.
    rewrite !flat_cons, fmap_app. simpl. by rewrite <-Permutation_middle, app_nil_r.
  - by rewrite map_to_list_insert.
Qed.

Lemma group_cohorts_eq ms acc :
  (∀ p, p ∈ ms → is_Some (weights !! p.1)) → (∀ c, acc !! c ≠ Some []) →
  ∃ acc', group_cohorts weights caps ms acc = Ok acc' ∧ (∀ c, acc' !! c ≠ Some []) ∧
    (∀ c, default [] (acc' !! c) = default [] (acc !! c) ++ ballots c ms) ∧
    flat (map_to_list acc') ≡ₚ flat (map_to_list acc) ++ ((λ p, (p.2.1, ballot_of p)) <$> ms).
Proof.
  revert acc. induction ms as [|[m [c r]] ms IH]; intros acc Hw Hne.
  { exists acc. split_and!; [done|done|intros c; by rewrite app_nil_r|by rewrite app_nil_r]. }
  destruct (Hw (m, (c, r))) as [w Hm]; [left|]. simpl in Hm.
  destruct (IH (<[c := default [] (acc !! c) ++ [(m, r, clip m)]]> acc)) as (acc' & Hg & Hne' & Hb & Hf).
  { intros p ?. apply Hw. by right. }
  { intros c'. destruct (decide (c' = c)) as [->|]; [rewrite lookup_insert_eq|by rewrite lookup_insert_ne].
    intros [= Happ]. by destruct (default [] (acc !! c)). }
  exists acc'. split_and!; [|done| |].
  - simpl. munfold_goal. rewrite Hm. unfold clip in Hg. by rewrite Hm in Hg.
  - intros c'. rewrite Hb. unfold ballots. rewrite filter_cons. simpl.
    destruct (decide (c = c')) as [->|].
    + rewrite lookup_insert_eq. csimpl. by rewrite <-app_assoc.
    + by rewrite lookup_insert_ne.
  - rewrite Hf, flat_push. csimpl. by rewrite <-Permutation_middle.
Qed.

(** The groups of the members of a map. *)
Lemma group_entries (ms : gmap bytes (bytes * Recommendation)) :
  (∀ m, is_Some (ms !! m) → is_Some (weights !! m)) →
  ∃ cohorts, group_cohorts weights caps (entries ms) ∅ = Ok cohorts ∧
    (∀ c bs, (c, bs) ∈ entries cohorts ↔ bs = ballots c (entries ms) ∧ bs ≠ []) ∧
    flat (entries cohorts) ≡ₚ (λ p, (p.2.1, ballot_of p)) <$> entries ms.
Proof.
  intros Hw. destruct (group_cohorts_eq (entries ms) ∅) as (cohorts & Hg & Hne & Hb & Hf).
  { intros [m v] Hin%elem_of_entries. apply Hw. simpl. eauto. }
  { intros c. by rewrite lookup_empty. }
  exists cohorts. split; [done|]. split.
  - intros c bs. rewrite elem_of_entries. specialize (Hb c). rewrite lookup_empty in Hb. simpl in Hb. split.
    + intros Hc. rewrite Hc in Hb. simpl in Hb. split; [done|]. intros ->. by apply (Hne c).
    + intros [-> Hne']. destruct (cohorts !! c) as [bs|]; simpl in Hb; congruence.
  - rewrite entries_perm, Hf, map_to_list_empty. done.
Qed.

Lemma ballots_total c ms : sumZ ((λ b : Ballot, b.2) <$> ballots c ms) = cohort_total ms c.
Proof.
  unfold ballots, cohort_total. rewrite <-list_fmap_compose, sumZ_filter_fmap. done.
Qed.
End reference.

(** ** Admitting *)

Section admission.
Context (caps : Caps) (tot : bytes → Z) (Hcap : is_u64 (cp_per_cohort caps)).

Lemma share_bounds total w : 0 ≤ w ≤ total → 0 ≤ share caps total w ≤ w.
Proof.
  intros Hw. unfold is_u64 in Hcap. unfold share. destruct (Z.ltb_spec (cp_per_cohort caps) total); [|lia].
  split; [apply Z.div_pos; nia|]. apply Z.div_le_upper_bound; nia.
Qed.

(** The shares of a cohort stay within its cap, whatever was rounded away. *)
Lemma shares_capped total ws :
  0 ≤ total → Forall (λ w, 0 ≤ w) ws → sumZ ws ≤ total →
  sumZ (share caps total <$> ws) ≤ cp_per_cohort caps ∧ sumZ (share caps total <$> ws) ≤ sumZ ws.
Proof.
  intros Ht Hws Hsum. unfold is_u64 in Hcap. unfold share.
  destruct (Z.ltb_spec (cp_per_cohort caps) total).
  - assert (sumZ ((λ w, w * cp_per_cohort caps / total) <$> ws) * total ≤ sumZ ws * cp_per_cohort caps) as Hmul.
    { clear Hsum. induction Hws as [|w ws Hw _ IH]; csimpl; [lia|].
      pose proof (Z.mul_div_le (w * cp_per_cohort caps) total). lia. }
    split; [nia|]. clear Hsum Hmul. induction Hws as [|w ws Hw _ IH]; csimpl; [lia|].
    assert (w * cp_per_cohort caps / total ≤ w); [|lia]. apply Z.div_le_upper_bound; nia.
  - rewrite list_fmap_id. lia.
Qed.

(** What a ballot of a cohort is admitted with. *)
Definition val (x : bytes * Ballot) : Z := share caps (tot x.1) x.2.2.
Definition rec_sum (r : Recommendation) (xs : list (bytes * Ballot)) : Z :=
  sumZ ((λ x : bytes * Ballot, if decide (x.2.1.2 = r) then val x else 0) <$> xs).
Definition insert_all (m : gmap bytes Z) (xs : list (bytes * Ballot)) : gmap bytes Z :=
  foldl (λ m (x : bytes * Ballot), <[x.2.1.1 := val x]> m) m xs.

(** The tally after the ballots [xs]. *)
Definition tallied (t : Tally) (xs : list (bytes * Ballot)) (cohorts : gmap bytes Z) : Tally :=
  mkTally (ta_permit t + rec_sum Permit xs) (ta_hold t + rec_sum Hold xs)
    (insert_all (ta_admitted t) xs) cohorts.

Definition fits (t : Tally) : bool := (ta_permit t <=? U64_MAX) && (ta_hold t <=? U64_MAX).

Record tally_ok (t : Tally) : Prop := {
  tok_permit : is_u64 (ta_permit t);
  tok_hold : is_u64 (ta_hold t);
}.

(** A ballot whose clipped weight is part of its cohort's total. *)
Definition ballot_ok (x : bytes * Ballot) : Prop := 0 ≤ x.2.2 ≤ tot x.1 ∧ x.2.2 ≤ U64_MAX.

Lemma val_bounds x : ballot_ok x → 0 ≤ val x ≤ U64_MAX.
Proof. intros [Hx Hu]. pose proof (share_bounds (tot x.1) x.2.2 Hx). unfold val. lia. Qed.

Lemma rec_sum_nonneg r xs : Forall ballot_ok xs → 0 ≤ rec_sum r xs.
Proof.
  intros Hxs. apply sumZ_nonneg, Forall_fmap. eapply Forall_impl; [exact Hxs|].
  intros x Hx%val_bounds. simpl. case_decide; lia.
Qed.

(** The admitted weight of one ballot, as the code computes it. *)
Lemma admitted_eq c (b : Ballot) :
  ballot_ok (c, b) →
  (if cp_per_cohort caps <? tot c then
     numerator ← u128_mul b.2 (cp_per_cohort caps);
     quotient ← u128_div numerator (tot c);
     ok_or (u64_try_from quotient) Overflow
   else Ok b.2) = @Ok Error Z (val (c, b)).
Proof.
  intros [Hb Hu]. simpl in Hb, Hu. unfold val, share, is_u64 in *. simpl.
  destruct (Z.ltb_spec (cp_per_cohort caps) (tot c)); [|done]. unfold u128_mul, u128_div. munfold_goal.
  destruct (Z.leb_spec (b.2 * cp_per_cohort caps) U128_MAX); [|nia].
  destruct (Z.eqb_spec (tot c) 0); [lia|]. unfold u64_try_from.
  assert (b.2 * cp_per_cohort caps / tot c ≤ b.2) by (apply Z.div_le_upper_bound; nia).
  by destruct (Z.leb_spec (b.2 * cp_per_cohort caps / tot c) U64_MAX); [|lia].
Qed.

Lemma admit_ballots_eq c bs cw t :
  Forall ballot_ok ((λ b, (c, b)) <$> bs) → tally_ok t → 0 ≤ cw →
  cw + sumZ (val <$> ((λ b, (c, b)) <$> bs)) ≤ U64_MAX →
  let t' := tallied t ((λ b, (c, b)) <$> bs) (ta_cohorts t) in
  admit_ballots (cp_per_cohort caps) (tot c) bs cw t =
    if fits t' then Ok (cw + sumZ (val <$> ((λ b, (c, b)) <$> bs)), t') else Err Overflow.
Proof.
  revert cw t. induction bs as [|[[m r] w] bs IH]; intros cw t Hbs Ht Hcw Hsum.
  { unfold tallied, fits, rec_sum, insert_all. simpl. destruct Ht as [Hp Hh]. unfold is_u64 in *.
    rewrite !Z.add_0_r. destruct (Z.leb_spec (ta_permit t) U64_MAX), (Z.leb_spec (ta_hold t) U64_MAX); try lia.
    simpl. by destruct t. }
  csimpl in Hbs. apply Forall_cons in Hbs as [Hb Hbs]. csimpl in Hsum.
  pose proof (val_bounds _ Hb) as Hv.
  assert (0 ≤ sumZ (val <$> ((λ b : Ballot, (c, b)) <$> bs))) as Hrest.
  { apply sumZ_nonneg, Forall_fmap. eapply Forall_impl; [exact Hbs|]. intros x Hx%val_bounds. simpl. lia. }
  pose proof (admitted_eq c (m, r, w) Hb) as Hadm. simpl in Hadm.
  simpl. rewrite Hadm. munfold_goal. rewrite u64_checked_add_fits by lia.
  destruct Ht as [Hp Hh]. unfold is_u64 in *.
  pose proof (rec_sum_nonneg Permit _ Hbs). pose proof (rec_sum_nonneg Hold _ Hbs).
  unfold u64_checked_add. unfold tallied, fits, rec_sum, insert_all. csimpl.
  fold (rec_sum Permit ((λ b, (c, b)) <$> bs)) (rec_sum Hold ((λ b, (c, b)) <$> bs)).
  clear Hadm Hb. unfold Ballot in *. generalize dependent (val (c, (m, r, w))). intros v Hsum' Hv'. destruct r; simpl.
  - destruct (Z.leb_spec (ta_permit t + v) U64_MAX).
    + rewrite IH; [|done|split; unfold is_u64; simpl; lia|lia|lia].
      unfold tallied, fits. simpl. rewrite !Z.add_assoc, !Z.add_0_r. done.
    + destruct (Z.leb_spec (ta_permit t + (v + rec_sum Permit ((λ b, (c, b)) <$> bs))) U64_MAX); [lia|done].
  - destruct (Z.leb_spec (ta_hold t + v) U64_MAX).
    + rewrite IH; [|done|split; unfold is_u64; simpl; lia|lia|lia].
      unfold tallied, fits. simpl. rewrite !Z.add_assoc, !Z.add_0_r. done.
    + destruct (Z.leb_spec (ta_hold t + (v + rec_sum Hold ((λ b, (c, b)) <$> bs))) U64_MAX); [lia|].
      by rewrite andb_false_r.
Qed.

Lemma rec_sum_app r xs ys : rec_sum r (xs ++ ys) = rec_sum r xs + rec_sum r ys.
Proof. unfold rec_sum. by rewrite fmap_app, sumZ_app. Qed.

(** What a cohort was admitted with. *)
Definition group_sum (g : bytes * list Ballot) : Z := sumZ (val <$> ((λ b, (g.1, b)) <$> g.2)).

Lemma admit_cohorts_eq gs t :
  Forall ballot_ok (flat gs) → (∀ c bs, (c, bs) ∈ gs → sumZ ((λ b : Ballot, b.2) <$> bs) = tot c ∧ tot c ≤ U128_MAX) →
  tally_ok t →
  let t' := tallied t (flat gs) (foldl (λ m g, <[g.1 := group_sum g]> m) (ta_cohorts t) gs) in
  admit_cohorts (cp_per_cohort caps) gs t = if fits t' then Ok t' else Err Overflow.
Proof.
  revert t. induction gs as [|[c bs] gs IH]; intros t Hok Htot Ht.
  { unfold tallied, fits, rec_sum, insert_all. simpl. destruct Ht as [Hp Hh]. unfold is_u64 in *.
    rewrite !Z.add_0_r. destruct (Z.leb_spec (ta_permit t) U64_MAX), (Z.leb_spec (ta_hold t) U64_MAX); try lia.
    simpl. by destruct t. }
  rewrite flat_cons in *. apply Forall_app in Hok as [Hbs Hok].
  destruct (Htot c bs) as [Hc Hc128]; [left|].
  assert (Forall (λ w, 0 ≤ w) ((λ b : Ballot, b.2) <$> bs)) as Hnn.
  { apply Forall_fmap, Forall_forall. intros b Hin. rewrite Forall_forall in Hbs.
    destruct (Hbs (c, b)) as [Hb _]; [by apply list_elem_of_fmap_2|]. simpl in *. lia. }
  pose proof (sumZ_nonneg _ Hnn) as Hpos.
  assert (group_sum (c, bs) ≤ cp_per_cohort caps) as Hcapped.
  { unfold group_sum. simpl. rewrite <-list_fmap_compose.
    destruct (shares_capped (tot c) ((λ b : Ballot, b.2) <$> bs)) as [Hle _]; [lia|done|lia|].
    by rewrite <-list_fmap_compose in Hle. }
  unfold is_u64 in Hcap. simpl. munfold_goal. rewrite u128_try_sum_eq, Z.add_0_l, Hc by (done || lia).
  rewrite admit_ballots_eq; [|done|done|lia|rewrite Z.add_0_l; etrans; [exact Hcapped|lia]].
  set (t1 := tallied t ((λ b, (c, b)) <$> bs) (ta_cohorts t)).
  pose proof (rec_sum_nonneg Permit _ Hok). pose proof (rec_sum_nonneg Hold _ Hok).
  pose proof (rec_sum_nonneg Permit _ Hbs). pose proof (rec_sum_nonneg Hold _ Hbs).
  destruct Ht as [Hp Hh]. unfold is_u64 in Hp, Hh.
  destruct (fits t1) eqn:Hfit; unfold fits in Hfit; simpl in Hfit.
  - apply andb_true_iff in Hfit as [Hfp Hfh]. rewrite IH; [|done|intros; apply Htot; by right|split; unfold is_u64; simpl; lia].
    unfold tallied, fits. simpl. rewrite !rec_sum_app, !Z.add_assoc. unfold insert_all. by rewrite foldl_app, Z.add_0_l.
  - unfold fits, tallied. simpl. rewrite !rec_sum_app.
    apply andb_false_iff in Hfit as [Hf|Hf]; apply Z.leb_gt in Hf.
    + destruct (Z.leb_spec (ta_permit t + (rec_sum Permit ((λ b, (c, b)) <$> bs) + rec_sum Permit (flat gs))) U64_MAX); [lia|done].
    + destruct (Z.leb_spec (ta_hold t + (rec_sum Hold ((λ b, (c, b)) <$> bs) + rec_sum Hold (flat gs))) U64_MAX); [lia|].
      by rewrite andb_false_r.
Qed.
End admission.

(** ** The loops and the reference agree *)

Lemma foldl_insert_eq {A} (k : A → bytes) (v : A → Z) (m : gmap bytes Z) (xs : list A) :
  NoDup (k <$> xs) →
  foldl (λ m x, <[k x := v x]> m) m xs = list_to_map ((λ x, (k x, v x)) <$> xs) ∪ m.
Proof.
  revert m. induction xs as [|x xs IH]; intros m Hnd; csimpl; [by rewrite map_empty_union|].
  csimpl in Hnd. apply NoDup_cons in Hnd as [Hx Hnd]. rewrite IH by done.
  rewrite <-insert_union_l, insert_union_r; [done|]. apply not_elem_of_list_to_map_1.
  by rewrite <-list_fmap_compose.
Qed.

(** A list whose values depend on its keys only. *)
Lemma list_to_map_keyed {A} (k : A → bytes) (f : bytes → Z) (xs : list A) c :
  let m : gmap bytes Z := list_to_map ((λ x, (k x, f (k x))) <$> xs) in
  (c ∈ k <$> xs → m !! c = Some (f c)) ∧ (c ∉ k <$> xs → m !! c = None).
Proof.
  simpl. induction xs as [|x xs [IH1 IH2]]; csimpl; [split; [by intros ?%elem_of_nil|by rewrite lookup_empty]|].
  rewrite elem_of_cons. destruct (decide (c = k x)) as [->|Hne].
  - rewrite lookup_insert_eq. tauto.
  - rewrite lookup_insert_ne by done. tauto.
Qed.

Section agree.
Context (weights : gmap bytes Z) (caps : Caps) (ms : gmap bytes (bytes * Recommendation)).
Context (Hcohort : is_u64 (cp_per_cohort caps)) (Hmember : is_u64 (cp_per_member caps)).
Context (Hweights : map_Forall (λ _ w, is_u64 w) weights).
Context (Hregistered : ∀ m, is_Some (ms !! m) → is_Some (weights !! m)).
Context (Hsize : Z.of_nat (size ms) ≤ MAX_VOTES).

Abbreviation l := (entries ms).
Abbreviation total := (cohort_total weights caps l).

Lemma clip_bounds m : 0 ≤ clip weights caps m ≤ U64_MAX.
Proof.
  unfold clip, is_u64 in *. destruct (weights !! m) as [w|] eqn:Hw; simpl; [|lia].
  specialize (Hweights m w Hw). simpl in Hweights. lia.
Qed.

Lemma total_bounds c : 0 ≤ total c ≤ U128_MAX.
Proof.
  assert (∀ xs : list Member, 0 ≤ cohort_total weights caps xs c ≤ len xs * U64_MAX) as Hb.
  { intros xs. unfold cohort_total, len. induction xs as [|p xs IH]; csimpl; [lia|].
    pose proof (clip_bounds p.1). case_decide; lia. }
  specialize (Hb l). unfold len in Hb. rewrite entries_length in Hb. unfold MAX_VOTES in Hsize. lia.
Qed.

Lemma clip_le_total p : p ∈ l → clip weights caps p.1 ≤ total p.2.1.
Proof.
  unfold cohort_total. generalize l. intros xs Hp.
  assert (∀ ys : list Member, 0 ≤ sumZ ((λ q, if decide (q.2.1 = p.2.1) then clip weights caps q.1 else 0) <$> ys)) as Hnn.
  { intros ys. apply sumZ_nonneg, Forall_fmap, Forall_forall. intros q _. simpl.
    pose proof (clip_bounds q.1). case_decide; lia. }
  apply list_elem_of_split in Hp as (xs1 & xs2 & ->). rewrite fmap_app, sumZ_app. csimpl.
  rewrite decide_True by done. pose proof (Hnn xs1). pose proof (Hnn xs2). lia.
Qed.

Definition tagged (p : Member) : bytes * Ballot := (p.2.1, ballot_of weights caps p).

Lemma tagged_ok : Forall (ballot_ok total) (tagged <$> l).
Proof.
  apply Forall_fmap, Forall_forall. intros p Hp. pose proof (clip_bounds p.1). pose proof (clip_le_total p Hp).
  split; simpl; lia.
Qed.

Lemma val_tagged p : val caps total (tagged p) = admitted weights caps l p.
Proof. reflexivity. Qed.

Lemma rec_sum_tagged r : rec_sum caps total r (tagged <$> l) = tally weights caps l r.
Proof. unfold rec_sum, tally. by rewrite <-list_fmap_compose. Qed.

(** The loops from the grouped members on. *)
Lemma loops_eq :
  (cohorts ← group_cohorts weights caps l ∅;
   t ← admit_cohorts (cp_per_cohort caps) (entries cohorts) (mkTally 0 0 ∅ ∅);
   mret (M:=res Error) t) =
  if (tally weights caps l Permit <=? U64_MAX) && (tally weights caps l Hold <=? U64_MAX)
  then Ok (mkTally (tally weights caps l Permit) (tally weights caps l Hold)
        (list_to_map ((λ p, (p.1, admitted weights caps l p)) <$> l))
        (list_to_map ((λ p, (p.2.1, cohort_admitted weights caps l p.2.1)) <$> l)))
  else Err Overflow.
Proof.
  destruct (group_entries weights caps ms Hregistered) as (cohorts & Hg & Hin & Hflat).
  rewrite Hg. munfold_goal.
  rewrite (admit_cohorts_eq caps total Hcohort); [|by rewrite Hflat; apply tagged_ok| |by split].
  2:{ intros c bs [-> _]%Hin. split; [apply ballots_total|]. apply total_bounds. }
  unfold fits, tallied. simpl.
  assert (∀ r, rec_sum caps total r (flat (entries cohorts)) = tally weights caps l r) as Hr.
  { intros r. rewrite <-rec_sum_tagged. unfold rec_sum. by rewrite Hflat. }
  rewrite !Hr, !Z.add_0_l. destruct (_ && _); [|done]. f_equal. f_equal.
  - unfold insert_all. pose proof (entries_NoDup ms) as Hnd.
    assert ((λ x : bytes * Ballot, x.2.1.1) <$> flat (entries cohorts) ≡ₚ l.*1) as Hkeys.
    { by rewrite Hflat, <-list_fmap_compose. }
    rewrite (foldl_insert_eq (λ x : bytes * Ballot, x.2.1.1)) by (by rewrite Hkeys).
    rewrite map_union_empty. apply list_to_map_proper.
    + by rewrite <-list_fmap_compose, Hkeys.
    + by rewrite Hflat, <-list_fmap_compose.
  - rewrite (foldl_insert_eq (λ g : bytes * list Ballot, g.1)) by apply entries_NoDup. rewrite map_union_empty.
    assert ((λ g : bytes * list Ballot, (g.1, group_sum caps total g)) <$> entries cohorts =
            (λ g : bytes * list Ballot, (g.1, cohort_admitted weights caps l g.1)) <$> entries cohorts) as ->.
    { apply list_fmap_ext. intros i [c bs] [-> _]%list_elem_of_lookup_2%Hin. simpl. f_equal.
      unfold group_sum, cohort_admitted, ballots. simpl. rewrite <-!list_fmap_compose, sumZ_filter_fmap.
      apply sumZ_fmap_ext. intros p _. case_decide as Hc; [|done]. simpl. rewrite <-Hc. done. }
    apply map_eq. intros c.
    destruct (list_to_map_keyed (λ g : bytes * list Ballot, g.1) (cohort_admitted weights caps l) (entries cohorts) c)
      as [A1 A2].
    destruct (list_to_map_keyed (λ p : Member, p.2.1) (cohort_admitted weights caps l) l c) as [B1 B2].
    assert (c ∈ (entries cohorts).*1 ↔ c ∈ (λ p : Member, p.2.1) <$> l) as Hiff.
    { rewrite !list_elem_of_fmap. split.
      - intros ([c' bs] & -> & [-> Hne]%Hin). unfold ballots in Hne. simpl.
        destruct (filter (λ p, p.2.1 = c') l) as [|p ps] eqn:Hf; [done|].
        assert (p ∈ filter (λ p, p.2.1 = c') l) as [? ?]%list_elem_of_filter by (rewrite Hf; left). eauto.
      - intros (p & -> & Hp). exists (p.2.1, ballots weights caps p.2.1 l). split; [done|]. apply Hin. split; [done|].
        assert (p ∈ filter (λ q, q.2.1 = p.2.1) l) as Hp' by (by apply list_elem_of_filter).
        unfold ballots. by destruct (filter _ _); [apply elem_of_nil in Hp'|]. }
    destruct (decide (c ∈ (λ p : Member, p.2.1) <$> l)) as [Hc|Hc].
    + by rewrite A1, B1 by tauto.
    + by rewrite A2, B2 by tauto.
Qed.
End agree.

(** ** Which inputs are reduced *)

Definition vote_of (p : Member) : Vote := Empirical p.1 p.2.1 p.2.2.

Definition identifiers_ok (p : Member) : Prop :=
  p.1 ≠ [] ∧ p.2.1 ≠ [] ∧ len p.1 ≤ MAX_IDENTIFIER_BYTES ∧ len p.2.1 ≤ MAX_IDENTIFIER_BYTES.

#[global] Instance identifiers_ok_dec p : Decision (identifiers_ok p).
Proof. unfold identifiers_ok. apply _. Defined.

(** The votes are exactly one empirical vote of each registered member. *)
Record registered (votes : list Vote) (weights : gmap bytes Z) (ms : gmap bytes (bytes * Recommendation)) : Prop := {
  rg_votes : votes ≡ₚ vote_of <$> map_to_list ms;
  rg_identifiers : Forall identifiers_ok (map_to_list ms);
  rg_members : dom ms = dom weights;
  rg_size : Z.of_nat (size ms) ≤ MAX_VOTES;
}.

Lemma collect_members_cases votes acc :
  (∃ ms xs, collect_members votes acc = Ok ms ∧ votes = vote_of <$> xs ∧ Forall identifiers_ok xs ∧
     NoDup xs.*1 ∧ Forall (λ p, acc !! p.1 = None) xs ∧ ms = list_to_map xs ∪ acc) ∨
  (∃ e, collect_members votes acc = Err e ∧ e ≠ Overflow ∧
     ∀ xs, votes = vote_of <$> xs → Forall identifiers_ok xs → NoDup xs.*1 →
       Forall (λ p : Member, acc !! p.1 = None) xs → False).
Proof.
  revert acc. induction votes as [|[m c r|text] votes IH]; intros acc.
  { left. exists acc, []. split_and!; try constructor. simpl. by rewrite map_empty_union. }
  2:{ right. eexists. split_and!; [done|done|]. intros [|p xs]; [done|]. csimpl. by intros [= ? ?]. }
  simpl. munfold_goal.
  destruct (bool_decide (m = []) || bool_decide (c = [])) eqn:Hempty.
  { right. eexists. split_and!; [done|done|]. intros [|p xs] Hv Hids _ _; [done|]. csimpl in Hv.
    injection Hv as -> -> -> Hv. apply Forall_cons in Hids as [(H1 & H2 & _) _].
    apply orb_true_iff in Hempty as [H%bool_decide_eq_true|H%bool_decide_eq_true]; done. }
  destruct ((MAX_IDENTIFIER_BYTES <? len m) || (MAX_IDENTIFIER_BYTES <? len c)) eqn:Hlong.
  { right. eexists. split_and!; [done|done|]. intros [|p xs] Hv Hids _ _; [done|]. csimpl in Hv.
    injection Hv as -> -> -> Hv. apply Forall_cons in Hids as [(_ & _ & H1 & H2) _].
    apply orb_true_iff in Hlong as [H%Z.ltb_lt|H%Z.ltb_lt]; lia. }
  destruct (bool_decide_reflect (is_Some (acc !! m))) as [Hdup|Hdup].
  { right. eexists. split_and!; [done|done|]. intros [|p xs] Hv _ _ Hacc; [done|]. csimpl in Hv.
    injection Hv as -> -> -> Hv. apply Forall_cons in Hacc as [Hacc _]. destruct p as [? [? ?]]. simpl in *. destruct Hdup; congruence. }
  apply orb_false_iff in Hempty as [Hm%bool_decide_eq_false Hc%bool_decide_eq_false].
  apply orb_false_iff in Hlong as [Hml%Z.ltb_ge Hcl%Z.ltb_ge]. apply eq_None_not_Some in Hdup.
  destruct (IH (<[m := (c, r)]> acc)) as [(ms & xs & Hcol & -> & Hids & Hnd & Hacc & ->)|(e & Hcol & Hne & Hno)].
  - left. exists (list_to_map ((m, (c, r)) :: xs) ∪ acc), ((m, (c, r)) :: xs).
    assert (m ∉ xs.*1) as Hfresh.
    { intros ([m' v] & -> & Hin)%list_elem_of_fmap. rewrite Forall_forall in Hacc. specialize (Hacc _ Hin).
      simpl in Hacc. by rewrite lookup_insert_eq in Hacc. }
    split_and!; [|done|by constructor|csimpl; by constructor| |done].
    + rewrite Hcol. csimpl. rewrite <-insert_union_l, insert_union_r; [done|]. by apply not_elem_of_list_to_map_1.
    + constructor; [done|]. eapply Forall_impl; [exact Hacc|]. simpl. intros p Hp.
      destruct (decide (p.1 = m)) as [->|]; [done|]. by rewrite lookup_insert_ne in Hp.
  - right. exists e. split_and!; [done|done|]. intros [|p xs] Hv Hids Hnd Hacc; [done|]. csimpl in Hv. csimpl in Hnd.
    destruct p as [m' [c' r']]. injection Hv as <- <- <- Hv. apply Forall_cons in Hids as [_ Hids]. apply NoDup_cons in Hnd as [Hfresh Hnd].
    apply Forall_cons in Hacc as [_ Hacc]. apply (Hno xs Hv Hids Hnd).
    apply Forall_forall. intros q Hq. rewrite Forall_forall in Hacc.
    rewrite lookup_insert_ne; [by apply Hacc|]. intros Hmq. apply Hfresh. simpl. rewrite Hmq. by apply list_elem_of_fmap_2.
Qed.

(** The first loop succeeds exactly on one vote of each of its members. *)
Lemma collect_members_ok votes ms :
  collect_members votes ∅ = Ok ms ↔
  votes ≡ₚ vote_of <$> map_to_list ms ∧ Forall identifiers_ok (map_to_list ms).
Proof.
  assert (∀ ms', votes ≡ₚ vote_of <$> map_to_list ms' → Forall identifiers_ok (map_to_list ms') →
    ∃ xs, votes = vote_of <$> xs ∧ Forall identifiers_ok xs ∧ NoDup xs.*1 ∧ list_to_map xs = ms') as Hof.
  { intros ms' (xs & -> & Hxs)%Permutation_map_inv Hids. exists xs. split_and!; [done|by rewrite <-Hxs| |].
    - rewrite <-Hxs. apply NoDup_fst_map_to_list.
    - rewrite <-(list_to_map_to_list ms'). symmetry. apply list_to_map_proper; [apply NoDup_fst_map_to_list|done]. }
  split.
  - intros Hcol. destruct (collect_members_cases votes ∅) as [(ms' & xs & Hcol' & -> & Hids & Hnd & _ & ->)|(e & He & _)];
      [|congruence]. rewrite map_union_empty in Hcol'. assert (ms = list_to_map xs) as -> by congruence.
    by rewrite map_to_list_to_map.
  - intros [Hperm Hids]. destruct (Hof ms Hperm Hids) as (xs & Hv & Hxs & Hnd & <-).
    destruct (collect_members_cases votes ∅) as [(ms' & ys & Hcol' & Hv' & _ & _ & _ & ->)|(e & _ & _ & Hno)].
    + rewrite Hcol', map_union_empty. f_equal. f_equal. rewrite Hv in Hv'. clear -Hv'.
      revert ys Hv'. induction xs as [|[m [c r]] xs IH]; intros [|[m' [c' r']] ys]; csimpl; [done|done|done|].
      unfold vote_of at 1 3. simpl. intros [= -> -> -> Hxs]. f_equal. by apply IH.
    + exfalso. apply (Hno xs Hv Hxs Hnd). by apply Forall_forall.
Qed.

Section outcome.
Context (weights : gmap bytes Z) (caps : Caps).
Context (Hcohort : is_u64 (cp_per_cohort caps)) (Hmember : is_u64 (cp_per_member caps)).
Context (Hweights : map_Forall (λ _ w, is_u64 w) weights).

(** Whether both tallies fit their accumulators. *)
Definition tallies_fit (ms : gmap bytes (bytes * Recommendation)) : bool :=
  (tally weights caps (entries ms) Permit <=? U64_MAX) && (tally weights caps (entries ms) Hold <=? U64_MAX).

Lemma registered_length votes ms : registered votes weights ms → len votes = Z.of_nat (size ms).
Proof.
  intros [Hv _ _ _]. unfold len. by rewrite Hv, length_fmap, length_map_to_list.
Qed.

Lemma dom_size (ms : gmap bytes (bytes * Recommendation)) : dom ms = dom weights → size ms = size weights.
Proof. intros Hd. by rewrite <-!size_dom, Hd. Qed.

Lemma registered_keys votes ms :
  registered votes weights ms → existsb (λ p, MAX_IDENTIFIER_BYTES <? len p.1) (entries weights) = false.
Proof.
  intros [_ Hids Hdom _]. apply not_true_iff_false. intros ([m w] & Hin%list_elem_of_In%elem_of_entries & Hlong)%existsb_exists.
  assert (m ∈ dom ms) as [v Hm]%elem_of_dom by (rewrite Hdom; by apply elem_of_dom_2 in Hin).
  rewrite Forall_forall in Hids. destruct (Hids (m, v)) as (_ & _ & Hle & _); [by apply elem_of_map_to_list|].
  simpl in *. apply Z.ltb_lt in Hlong. lia.
Qed.

Lemma reduce_cases votes dq :
  (∃ ms, registered votes weights ms ∧
     reduce votes weights caps dq =
       if tallies_fit ms then Ok (reference_reduction weights caps ms dq) else Err Overflow) ∨
  (∃ e, reduce votes weights caps dq = Err e ∧ e ≠ Overflow ∧ ∀ ms, ¬ registered votes weights ms).
Proof.
  unfold reduce. munfold_goal.
  destruct ((MAX_VOTES <? len votes) || (MAX_VOTES <? Z.of_nat (size weights))) eqn:Hlim.
  { right. eexists. split_and!; [done|done|]. intros ms Hreg. pose proof (registered_length _ _ Hreg).
    destruct Hreg as [_ _ Hdom Hsize]. apply dom_size in Hdom.
    apply orb_true_iff in Hlim as [H1%Z.ltb_lt|H1%Z.ltb_lt]; lia. }
  apply orb_false_iff in Hlim as [Hv%Z.ltb_ge Hw%Z.ltb_ge].
  destruct (existsb _ _) eqn:Hkeys.
  { right. eexists. split_and!; [done|done|]. intros ms Hreg%registered_keys. congruence. }
  destruct (collect_members_cases votes ∅) as [(ms & xs & Hcol & _)|(e & -> & Hne & Hno)].
  2:{ right. exists e. split_and!; [done|done|]. intros ms [Hperm Hids _ _].
      assert (collect_members votes ∅ = Ok ms) as Hcol by (by apply collect_members_ok).
      destruct (collect_members_cases votes ∅) as [(ms' & xs & Hcol' & -> & Hids' & Hnd & _)|(e' & Hcol' & _)];
        [|congruence]. apply (Hno xs); [done..|]. by apply Forall_forall. }
  rewrite Hcol. clear xs. pose proof Hcol as [Hperm Hids]%collect_members_ok.
  case_bool_decide as Hdom.
  { right. eexists. split_and!; [done|done|]. intros ms' [Hperm' Hids' Hdom' _].
    assert (collect_members votes ∅ = Ok ms') by (by apply collect_members_ok). congruence. }
  left. exists ms. pose proof (dom_size _ Hdom) as Hsize.
  split; [split; [done|done|done|lia]|].
  assert (∀ m, is_Some (ms !! m) → is_Some (weights !! m)) as Hsub.
  { intros m Hm. apply elem_of_dom. rewrite <-Hdom. by apply elem_of_dom. }
  pose proof (loops_eq weights caps ms Hcohort Hmember Hweights Hsub ltac:(lia)) as Hloops.
  munfold. fold (tallies_fit ms) in Hloops.
  destruct (group_cohorts _ _ _ _); [destruct (admit_cohorts _ _ _)|..];
    destruct (tallies_fit ms); simplify_eq; done.
Qed.

(** The votes determine the members. *)
Lemma registered_unique votes ms ms' : registered votes weights ms → registered votes weights ms' → ms' = ms.
Proof.
  intros [Hv Hi _ _] [Hv' Hi' _ _]. assert (@Ok Error _ ms' = Ok ms) as [= ->]; [|done].
  transitivity (collect_members votes ∅); [symmetry|]; by apply collect_members_ok.
Qed.

Lemma reduce_registered votes dq ms :
  registered votes weights ms →
  reduce votes weights caps dq =
    if tallies_fit ms then Ok (reference_reduction weights caps ms dq) else Err Overflow.
Proof.
  intros Hreg. destruct (reduce_cases votes dq) as [(ms' & Hreg' & ->)|(e & _ & _ & Hno)]; [|by destruct (Hno ms)].
  by rewrite (registered_unique votes ms ms' Hreg Hreg').
Qed.
End outcome.

(** ** Bounds of the reference *)

Section bounds.
Context (weights : gmap bytes Z) (caps : Caps) (ms : gmap bytes (bytes * Recommendation)).
Context (Hcohort : is_u64 (cp_per_cohort caps)) (Hmember : is_u64 (cp_per_member caps)).
Context (Hweights : map_Forall (λ _ w, is_u64 w) weights).

Abbreviation l := (entries ms).

Lemma admitted_clipped p : p ∈ l → 0 ≤ admitted weights caps l p ≤ clip weights caps p.1.
Proof.
  intros Hp. apply share_bounds; [done|]. pose proof (clip_bounds weights caps ms Hmember Hweights p.1).
  pose proof (clip_le_total weights caps ms Hmember Hweights p Hp). lia.
Qed.

Lemma cohort_admitted_capped c : 0 ≤ cohort_admitted weights caps l c ≤ cp_per_cohort caps.
Proof.
  split.
  { apply sumZ_nonneg, Forall_fmap, Forall_forall. intros p Hp. simpl.
    pose proof (admitted_clipped p Hp). case_decide; lia. }
  unfold cohort_admitted. rewrite <-sumZ_filter_fmap.
  set (ws := (λ p : Member, clip weights caps p.1) <$> filter (λ p, p.2.1 = c) l).
  assert (sumZ ws = cohort_total weights caps l c) as Htot by apply sumZ_filter_fmap.
  assert (Forall (λ w, 0 ≤ w) ws) as Hws.
  { apply Forall_fmap, Forall_forall. intros p _. simpl. pose proof (clip_bounds weights caps ms Hmember Hweights p.1). lia. }
  assert (sumZ (admitted weights caps l <$> filter (λ p, p.2.1 = c) l) =
          sumZ (share caps (cohort_total weights caps l c) <$> ws)) as ->.
  { unfold ws. rewrite <-list_fmap_compose. apply sumZ_fmap_ext.
    intros p [<- _]%list_elem_of_filter. reflexivity. }
  pose proof (sumZ_nonneg ws Hws).
  by apply (shares_capped caps Hcohort (cohort_total weights caps l c) ws); [lia|done|lia].
Qed.

Lemma tallies_total :
  tally weights caps l Permit + tally weights caps l Hold =
  map_sum id (list_to_map ((λ p, (p.1, admitted weights caps l p)) <$> l) : gmap bytes Z).
Proof.
  unfold map_sum. rewrite map_to_list_to_map.
  2:{ rewrite <-list_fmap_compose. apply entries_NoDup. }
  rewrite <-list_fmap_compose. unfold tally. rewrite <-sumZ_fmap_add. apply sumZ_fmap_ext.
  intros [m [c []]] _; simpl; unfold id; lia.
Qed.

Lemma admitted_lookup m :
  (list_to_map ((λ p, (p.1, admitted weights caps l p)) <$> l) : gmap bytes Z) !! m =
  (λ v, admitted weights caps l (m, v)) <$> ms !! m.
Proof.
  destruct (ms !! m) as [v|] eqn:Hm; simpl.
  - apply elem_of_list_to_map_1.
    + rewrite <-list_fmap_compose. apply entries_NoDup.
    + apply list_elem_of_fmap. exists (m, v). split; [done|]. by apply elem_of_entries.
  - apply not_elem_of_list_to_map_1. rewrite <-list_fmap_compose. intros ([m' v] & -> & Hin)%list_elem_of_fmap.
    apply elem_of_entries in Hin. simpl in *. congruence.
Qed.
End bounds.

(** ** Properties *)

(** C36: [reduce] never panics.  It succeeds exactly when the votes are one
    empirical vote, with bounded non-empty identifiers, of each registered
    member, and both tallies fit 64 bits, and then returns the reference
    reduction; it answers [Overflow] exactly when only the tallies do not
    fit. *)
Theorem reduce_exact votes weights caps dq
    (Hcohort : is_u64 (cp_per_cohort caps)) (Hmember : is_u64 (cp_per_member caps))
    (Hweights : map_Forall (λ _ w, is_u64 w) weights) :
  reduce votes weights caps dq ≠ Panic ∧
  (∀ r, reduce votes weights caps dq = Ok r ↔
     ∃ ms, registered votes weights ms ∧ tallies_fit weights caps ms = true ∧
       r = reference_reduction weights caps ms dq) ∧
  (reduce votes weights caps dq = Err Overflow ↔
     ∃ ms, registered votes weights ms ∧ tallies_fit weights caps ms = false).
Proof.
  destruct (reduce_cases weights caps Hcohort Hmember Hweights votes dq) as [(ms & Hreg & ->)|(e & -> & Hne & Hno)].
  - assert (∀ ms', registered votes weights ms' → ms' = ms) as Huniq by (intros ms' ?; by eapply registered_unique).
    destruct (tallies_fit weights caps ms) eqn:Hfit; split_and!; try done.
    + intros r. split; [intros [= <-]; eauto|]. by intros (ms' & ->%Huniq & _ & ->).
    + split; [done|]. intros (ms' & ->%Huniq & ?). congruence.
    + intros r. split; [done|]. intros (ms' & ->%Huniq & ? & _). congruence.
    + split; [eauto|done].
  - split_and!; [done| |].
    + intros r. split; [done|]. by intros (ms & ?%Hno & _).
    + split; [congruence|]. by intros (ms & ?%Hno & _).
Qed.

(** A reduction admits each member with at most its registered weight and
    the member cap, each cohort with at most the cohort cap, and nobody else;
    the two tallies split exactly what was admitted; and the result does not
    depend on the order of the votes. *)
Theorem reduction_capped votes weights caps dq r
    (Hcohort : is_u64 (cp_per_cohort caps)) (Hmember : is_u64 (cp_per_member caps))
    (Hweights : map_Forall (λ _ w, is_u64 w) weights)
    (Hr : reduce votes weights caps dq = Ok r) :
  dom (rn_admitted_weights r) = dom weights ∧
  (∀ m a, rn_admitted_weights r !! m = Some a →
     ∃ w, weights !! m = Some w ∧ 0 ≤ a ≤ w ∧ a ≤ cp_per_member caps) ∧
  (∀ c a, rn_admitted_cohort_weights r !! c = Some a → 0 ≤ a ≤ cp_per_cohort caps) ∧
  rn_permit_weight r + rn_hold_weight r = map_sum id (rn_admitted_weights r) ∧
  (∀ votes', votes' ≡ₚ votes → reduce votes' weights caps dq = Ok r).
Proof.
  destruct (reduce_cases weights caps Hcohort Hmember Hweights votes dq) as [(ms & Hreg & Hred)|(e & Hred & _)]; [|congruence].
  rewrite Hr in Hred. destruct (tallies_fit weights caps ms) eqn:Hfit; [|done]. injection Hred as ->.
  assert (dom ms = dom weights) as Hdom by apply Hreg. unfold reference_reduction; simpl. split_and!.
  - rewrite <-Hdom. apply set_eq. intros m. rewrite !elem_of_dom, admitted_lookup. by rewrite fmap_is_Some.
  - intros m a. rewrite admitted_lookup. intros (v & Hm & ->)%fmap_Some.
    assert (m ∈ dom weights) as [w Hw]%elem_of_dom by (rewrite <-Hdom; by apply elem_of_dom_2 in Hm).
    exists w. split; [done|].
    pose proof (admitted_clipped weights caps ms Hcohort Hmember Hweights (m, v) ltac:(by apply elem_of_entries)) as Ha.
    unfold clip in Ha. simpl in Ha. rewrite Hw in Ha. simpl in Ha. lia.
  - intros c a (p & [= -> ->] & _)%elem_of_list_to_map_2%list_elem_of_fmap.
    by apply cohort_admitted_capped.
  - apply tallies_total.
  - intros votes' Hperm. assert (registered votes' weights ms) as Hreg'.
    { destruct Hreg. split; [by rewrite Hperm|done..]. }
    rewrite (reduce_registered weights caps Hcohort Hmember Hweights votes' dq ms Hreg'), Hfit. done.
Qed.

(** A cohort of two above its cap, and a member on its own. *)
Definition red_weights : gmap bytes Z := list_to_map [([x61], 5); ([x62], 9); ([x63], 3)].
Definition red_caps : Caps := mkCaps 6 7.
Definition red_votes : list Vote :=
  [Empirical [x62] [x78] Hold; Empirical [x63] [x79] Permit; Empirical [x61] [x78] Permit].
Definition red_result : Reduction :=
  mkReduction EmpiricalOutcome 6 3 (list_to_map [([x61], 3); ([x62], 3); ([x63], 3)])
    (list_to_map [([x78], 6); ([x79], 3)]).

Lemma red_weights_u64 : map_Forall (λ _ w, is_u64 w) red_weights.
Proof. apply (bool_decide_unpack _). vm_compute. exact I. Qed.

Lemma reduce_exact_witness :
  reduce red_votes red_weights red_caps false ≠ Panic ∧
  (∀ r, reduce red_votes red_weights red_caps false = Ok r ↔
     ∃ ms, registered red_votes red_weights ms ∧ tallies_fit red_weights red_caps ms = true ∧
       r = reference_reduction red_weights red_caps ms false) ∧
  (reduce red_votes red_weights red_caps false = Err Overflow ↔
     ∃ ms, registered red_votes red_weights ms ∧ tallies_fit red_weights red_caps ms = false).
Proof. apply reduce_exact; [split; vm_compute; congruence..|apply red_weights_u64]. Defined.

Lemma reduction_capped_witness :
  reduce red_votes red_weights red_caps false = Ok red_result ∧
  rn_permit_weight red_result + rn_hold_weight red_result = map_sum id (rn_admitted_weights red_result).
Proof.
  assert (reduce red_votes red_weights red_caps false = Ok red_result) as Hr by (vm_compute; reflexivity).
  split; [exact Hr|].
  exact (proj1 (proj2 (proj2 (proj2 (reduction_capped red_votes red_weights red_caps false red_result
    ltac:(split; vm_compute; congruence) ltac:(split; vm_compute; congruence) red_weights_u64 Hr))))).
Defined.
