(* ===== verification/FullInput.v ===== *)
(** * Actual helper inputs

    [crates/fa-reference/src/full_input.rs]: the whole input view of an opaque
    helper.  The metadata only partitions and describes the submitted bytes:
    an input is built exactly when its parts are consecutive non-empty pieces
    of them. *)

From Stdlib Require Import Strings.Byte.
From stdpp Require Import base tactics numbers list gmap.
From S2P Require Import Prelude Bytes Judgment.

Local Open Scope Z_scope.

(** ** Model *)

Definition MAX_SUBMITTED_BYTES : Z := 64 * 1024.
Definition MAX_PROFILE_BYTES : Z := 8 * 1024.
Definition MAX_SUBMITTED_PARTS : Z := 128.
Definition MAX_OMISSIONS : Z := 64.

Record ByteSpan := mkByteSpan { bs_start : Z; bs_end : Z }.

(** The variants are prefixed: [PartKind::Question] is [PartQuestion]. *)
Inductive PartKind :=
  | PartQuestion
  | PartPrompt
  | PartInstruction
  | PartToolSchema (schema_id : Z)
  | PartEvidence (source_id transform_id : Z)
  | PartDelimiter
  | PartOther.

Record SubmittedPart := mkSubmittedPart { sp_span : ByteSpan; sp_kind : PartKind }.

Record InputProfileBinding := mkInputProfileBinding {
  ip_profile_id : Z;
  ip_profile_bytes : bytes;
  ip_tokenizer_epoch : Z;
  ip_policy_epoch : Z;
  ip_model_epoch : Z;
}.

Inductive Omission :=
  | ClosedAbsent (domain_id trusted_closure_marker_id : Z)
  | Gapped (domain_id first_missing : Z)
  | Unsupported (domain_id : Z)
  | Redacted (domain_id transform_id : Z).

Definition omission_domain_id (self : Omission) : Z :=
  match self with
  | ClosedAbsent domain_id _ | Gapped domain_id _ | Unsupported domain_id | Redacted domain_id _ => domain_id
  end.

Record ActualHelperInput := mkActualHelperInput {
  ai_submitted_bytes : bytes;
  ai_input_profile : InputProfileBinding;
  ai_ordered_parts : list SubmittedPart;
  ai_omissions : list Omission;
}.

#[global] Instance ByteSpan_eq_dec : EqDecision ByteSpan.
Proof. solve_decision. Defined.
#[global] Instance PartKind_eq_dec : EqDecision PartKind.
Proof. solve_decision. Defined.
#[global] Instance SubmittedPart_eq_dec : EqDecision SubmittedPart.
Proof. solve_decision. Defined.
#[global] Instance InputProfileBinding_eq_dec : EqDecision InputProfileBinding.
Proof. solve_decision. Defined.
#[global] Instance Omission_eq_dec : EqDecision Omission.
Proof. solve_decision. Defined.
#[global] Instance ActualHelperInput_eq_dec : EqDecision ActualHelperInput.
Proof. solve_decision. Defined.

Definition I32_MAX : Z := 2 ^ 31 - 1.
(** [question_count += 1]: an [i32], checked. *)
Definition i32_add {E} (a b : Z) : res E Z := if a + b <=? I32_MAX then Ok (a + b) else Panic.

Definition is_question (kind : PartKind) : bool := match kind with PartQuestion => true | _ => false end.

(** The loop over the parts: where the next one has to start, and how many
    questions were seen. *)
Fixpoint check_parts (submitted_len : Z) (parts : list SubmittedPart) (expected_start question_count : Z)
    : res Error (Z * Z) :=
  match parts with
  | [] => Ok (expected_start, question_count)
  | part :: parts =>
    let span := sp_span part in
    refuse_if (negb (bs_start span =? expected_start) || (bs_end span <=? bs_start span)
      || (submitted_len <? bs_end span)) InvalidInput;;
    question_count ← (if is_question (sp_kind part) then i32_add question_count 1 else Ok question_count);
    check_parts submitted_len parts (bs_end span) question_count
  end.

Definition unmarked_absence (omission : Omission) : bool :=
  match omission with ClosedAbsent _ marker => marker =? 0 | _ => false end.

(** The loop over the omissions. *)
Fixpoint check_omissions (omissions : list Omission) (domains : gset Z) : res Error unit :=
  match omissions with
  | [] => Ok tt
  | omission :: omissions =>
    refuse_if (unmarked_absence omission || bool_decide (omission_domain_id omission ∈ domains)) InvalidInput;;
    check_omissions omissions ({[omission_domain_id omission]} ∪ domains)
  end.

Definition actual_input_new (submitted_bytes : bytes) (input_profile : InputProfileBinding)
    (ordered_parts : list SubmittedPart) (omissions : list Omission) : res Error ActualHelperInput :=
  refuse_if ((MAX_SUBMITTED_BYTES <? len submitted_bytes)
    || (MAX_PROFILE_BYTES <? len (ip_profile_bytes input_profile))
    || (MAX_SUBMITTED_PARTS <? len ordered_parts) || (MAX_OMISSIONS <? len omissions)) Limit;;
  '(expected_start, question_count) ← check_parts (len submitted_bytes) ordered_parts 0 0;
  refuse_if (negb (question_count =? 1) || negb (expected_start =? len submitted_bytes)) InvalidInput;;
  check_omissions omissions ∅;;
  Ok (mkActualHelperInput submitted_bytes input_profile ordered_parts omissions).

(** [slice.get(start..end)] *)
Definition slice_get (l : bytes) (first last : Z) : option bytes :=
  if (first <=? last) && (last <=? len l)
  then Some (take (Z.to_nat (last - first)) (drop (Z.to_nat first) l)) else None.

Definition part_bytes (self : ActualHelperInput) (part_index : nat) : res Error bytes :=
  part ← ok_or (ai_ordered_parts self !! part_index) Missing;
  ok_or (slice_get (ai_submitted_bytes self) (bs_start (sp_span part)) (bs_end (sp_span part))) Binding.

Record OpaqueInputWitness := mkOpaqueInputWitness { ow_actual_input : ActualHelperInput }.

#[global] Instance OpaqueInputWitness_eq_dec : EqDecision OpaqueInputWitness.
Proof. solve_decision. Defined.

Record OpaqueJudgment := mkOpaqueJudgment { oj_witness : OpaqueInputWitness }.

Definition opaque_judgment_capture (actual_input : ActualHelperInput) (_untrusted_explanation : bytes) : OpaqueJudgment :=
  mkOpaqueJudgment (mkOpaqueInputWitness actual_input).

Definition opaque_judgment_valid_at (self : OpaqueJudgment) (actual_input : ActualHelperInput) : bool :=
  bool_decide (ow_actual_input (oj_witness self) = actual_input).

(** ** Specification: the parts cut the submission into pieces *)

(** The spans of consecutive pieces. *)
Fixpoint spans_of (start : Z) (pieces : list bytes) : list ByteSpan :=
  match pieces with
  | [] => []
  | piece :: pieces => mkByteSpan start (start + len piece) :: spans_of (start + len piece) pieces
  end.

(** [parts] cuts [submitted] into the non-empty [pieces]. *)
Definition cuts (submitted : bytes) (parts : list SubmittedPart) (pieces : list bytes) : Prop :=
  submitted = concat pieces ∧ Forall (λ piece, piece ≠ []) pieces ∧ sp_span <$> parts = spans_of 0 pieces.

Record input_sound (i : ActualHelperInput) : Prop := {
  is_bytes : len (ai_submitted_bytes i) ≤ MAX_SUBMITTED_BYTES;
  is_profile : len (ip_profile_bytes (ai_input_profile i)) ≤ MAX_PROFILE_BYTES;
  is_part_count : len (ai_ordered_parts i) ≤ MAX_SUBMITTED_PARTS;
  is_omission_count : len (ai_omissions i) ≤ MAX_OMISSIONS;
  is_cut : ∃ pieces, cuts (ai_submitted_bytes i) (ai_ordered_parts i) pieces;
  is_one_question : length (filter (λ p, is_question (sp_kind p) = true) (ai_ordered_parts i)) = 1%nat;
  is_marked : Forall (λ o, unmarked_absence o = false) (ai_omissions i);
  is_distinct : NoDup (omission_domain_id <$> ai_omissions i);
}.

(** ** The checks *)

Abbreviation questions parts := (length (filter (λ p : SubmittedPart, is_question (sp_kind p) = true) parts)).

Lemma questions_cons part parts :
  questions (part :: parts) = ((if is_question (sp_kind part) then 1 else 0) + questions parts)%nat.
Proof. rewrite filter_cons. by destruct (is_question (sp_kind part)); case_decide. Qed.

Lemma piece_len_pos (piece : bytes) : piece ≠ [] → 0 < len piece.
Proof. unfold len. destruct piece; [done|simpl; lia]. Qed.

(** The loop accepts exactly the parts that cut what comes next. *)
Lemma check_parts_ok (rest : bytes) parts start total count stop count' :
  total = start + len rest → 0 ≤ start → 0 ≤ count → count + len parts ≤ I32_MAX →
  check_parts total parts start count = Ok (stop, count') ↔
  ∃ pieces, concat pieces `prefix_of` rest ∧ Forall (λ piece, piece ≠ []) pieces ∧
    sp_span <$> parts = spans_of start pieces ∧ stop = start + len (concat pieces) ∧
    count' = count + Z.of_nat (questions parts).
Proof.
  revert rest start count. induction parts as [|[[first last] kind] parts IH]; intros rest start count Htot Hst Hc Hcount.
  { simpl. split.
    - intros [= <- <-]. exists []. split_and!; [apply prefix_nil|constructor|done|unfold len; simpl; lia|simpl; lia].
    - intros ([|piece pieces] & _ & _ & Hsp & -> & ->); [|done]. simpl. unfold len. simpl. by rewrite !Z.add_0_r. }
  pose proof (len_nonneg rest). pose proof (len_nonneg parts).
  assert (len (mkSubmittedPart (mkByteSpan first last) kind :: parts) = 1 + len parts) as Hlen by (unfold len; simpl; lia).
  assert (∀ c : Z, 0 ≤ c ≤ count + 1 →
    c = count + (if is_question kind then 1 else 0) →
    (if is_question kind then i32_add count 1 else Ok count) = @Ok Error Z c) as Hadd.
  { intros c Hcb ->. destruct (is_question kind); [|by rewrite Z.add_0_r]. unfold i32_add.
    by destruct (Z.leb_spec (count + 1) I32_MAX); [|lia]. }
  simpl. munfold_goal. rewrite (Hadd (count + (if is_question kind then 1 else 0))) by (destruct (is_question kind); lia).
  rewrite questions_cons. simpl. split.
  - destruct (_ || _) eqn:Hg; [done|]. apply orb_false_iff in Hg as [[Hg1 Hg2%Z.leb_gt]%orb_false_iff Hg3%Z.ltb_ge].
    apply negb_false_iff, Z.eqb_eq in Hg1. subst first. intros Hrec.
    set (piece := take (Z.to_nat (last - start)) rest).
    assert (len piece = last - start) as Hp by (unfold piece, len in *; rewrite length_take; lia).
    apply (IH (drop (Z.to_nat (last - start)) rest)) in Hrec as (pieces & Hpre & Hne & Hsp & -> & ->).
    + exists (piece :: pieces). simpl. split_and!.
      * rewrite <-(take_drop (Z.to_nat (last - start)) rest) at 1. by apply prefix_app.
      * constructor; [|done]. intros Hnil. rewrite Hnil in Hp. unfold len in Hp. simpl in Hp. lia.
      * rewrite Hp. replace (start + (last - start)) with last by lia. by rewrite <-Hsp.
      * rewrite len_app. lia.
      * destruct (is_question kind); lia.
    + unfold len in *. rewrite length_drop. lia.
    + lia.
    + destruct (is_question kind); lia.
    + destruct (is_question kind); lia.
  - intros ([|piece pieces] & Hpre & Hne & Hsp & -> & ->); [done|]. simpl in *. injection Hsp as -> -> Hsp.
    apply Forall_cons in Hne as [Hp%piece_len_pos Hne]. destruct Hpre as [tail ->].
    rewrite !len_app in *. pose proof (len_nonneg (concat pieces)). pose proof (len_nonneg tail).
    rewrite Z.eqb_refl. destruct (Z.leb_spec (start + len piece) start); [lia|].
    destruct (Z.ltb_spec total (start + len piece)); [lia|]. simpl.
    apply (IH (concat pieces ++ tail)); [rewrite len_app; lia|lia|destruct (is_question kind); lia..|].
    exists pieces. split_and!; [by exists tail|done|done|lia|destruct (is_question kind); lia].
Qed.

Lemma check_parts_no_panic total parts start count :
  0 ≤ count → count + len parts ≤ I32_MAX → check_parts total parts start count ≠ Panic.
Proof.
  revert start count. induction parts as [|part parts IH]; intros start count Hc Hcount; [done|].
  assert (len (part :: parts) = 1 + len parts) as Hlen by (unfold len; simpl; lia). pose proof (len_nonneg parts).
  simpl. munfold_goal. destruct (_ || _); [done|]. unfold i32_add. destruct (is_question _).
  - destruct (Z.leb_spec (count + 1) I32_MAX); [|lia]. apply IH; lia.
  - apply IH; lia.
Qed.

Lemma check_omissions_ok omissions domains :
  check_omissions omissions domains = Ok tt ↔
  Forall (λ o, unmarked_absence o = false) omissions ∧ NoDup (omission_domain_id <$> omissions) ∧
  Forall (λ o, omission_domain_id o ∉ domains) omissions.
Proof.
  revert domains. induction omissions as [|o omissions IH]; intros domains; simpl.
  { split; [|done]. intros _. split_and!; constructor. }
  munfold_goal. rewrite !Forall_cons, NoDup_cons. destruct (unmarked_absence o); simpl; [naive_solver|].
  case_bool_decide as Hin; [naive_solver|]. rewrite IH. rewrite list_elem_of_fmap. setoid_rewrite not_elem_of_union.
  setoid_rewrite not_elem_of_singleton. rewrite !Forall_forall. split.
  - intros (Hm & Hnd & Hfresh). split_and!; try done.
    + intros (o' & Heq & Hin'). by destruct (Hfresh o' Hin').
    + intros o' Hin'. by apply Hfresh.
  - intros ((_ & Hm) & (Hnew & Hnd) & (_ & Hd)). split_and!; try done. intros o' Hin'.
    split; [|by apply Hd]. intros Heq. apply Hnew. eauto.
Qed.

Lemma check_omissions_no_panic omissions domains : check_omissions omissions domains ≠ Panic.
Proof.
  revert domains. induction omissions as [|o omissions IH]; intros domains; simpl; [done|]. munfold_goal.
  destruct (_ || _); [done|apply IH].
Qed.

(** Construction accepts exactly the sound inputs, unchanged. *)
Lemma actual_input_new_ok submitted profile parts omissions i :
  actual_input_new submitted profile parts omissions = Ok i ↔
  i = mkActualHelperInput submitted profile parts omissions ∧ input_sound i.
Proof.
  unfold actual_input_new. munfold_goal.
  destruct (_ || _) eqn:Hg.
  { split; [done|]. intros [-> []]. simpl in *. rewrite !orb_true_iff, !Z.ltb_lt in Hg. lia. }
  rewrite !orb_false_iff, !Z.ltb_ge in Hg. destruct Hg as (((Hb & Hp) & Hn) & Ho).
  assert (len parts ≤ I32_MAX) as Hi by (unfold MAX_SUBMITTED_PARTS, I32_MAX in *; lia).
  pose proof (λ s c, check_parts_ok submitted parts 0 (len submitted) 0 s c eq_refl (Z.le_refl _) (Z.le_refl _) Hi) as Hok.
  split.
  - destruct (check_parts _ _ _ _) as [[stop count]|e|] eqn:Hc; [|done..].
    destruct (_ || _) eqn:Hq; [done|]. apply orb_false_iff in Hq as [Hq1%negb_false_iff%Z.eqb_eq Hq2%negb_false_iff%Z.eqb_eq].
    destruct (check_omissions omissions ∅) as [[]|e|] eqn:Hom; [|done..]. intros [= <-]. split; [done|].
    apply check_omissions_ok in Hom as (Hm & Hnd & _).
    destruct (proj1 (Hok stop count) eq_refl) as (pieces & [tail Hsub] & Hne & Hsp & Hstop & Hcount).
    split; simpl; try done.
    + exists pieces. split_and!; [|done|done]. rewrite Hsub in Hq2 |- *. rewrite len_app in Hq2.
      destruct tail as [|b tail]; [by rewrite app_nil_r|].
      assert (0 < len (b :: tail)) by by apply piece_len_pos. lia.
    + lia.
  - intros [-> [_ _ _ _ (pieces & Hsub & Hne & Hsp) Hq Hm Hnd]]. simpl in *.
    rewrite (proj2 (Hok (len submitted) 1)).
    2:{ exists pieces. rewrite Hq, Hsub. split_and!; try done. }
    rewrite !Z.eqb_refl. simpl. rewrite (proj2 (check_omissions_ok omissions ∅)); [done|].
    split_and!; try done. apply Forall_forall. intros o _ ?%elem_of_empty. done.
Qed.

(** ** Reading the parts back *)

Lemma spans_of_lookup start pieces k :
  spans_of start pieces !! k =
  (λ piece, mkByteSpan (start + len (concat (take k pieces))) (start + len (concat (take k pieces)) + len piece)) <$> pieces !! k.
Proof.
  revert start k. induction pieces as [|piece pieces IH]; intros start [|k]; simpl; try done.
  - unfold len at 2 4. simpl. by rewrite !Z.add_0_r.
  - rewrite IH, len_app. by rewrite !Z.add_assoc.
Qed.

Lemma part_bytes_piece i pieces k :
  cuts (ai_submitted_bytes i) (ai_ordered_parts i) pieces →
  part_bytes i k = match pieces !! k with Some piece => Ok piece | None => Err Missing end.
Proof.
  intros (Hsub & _ & Hsp). unfold part_bytes. munfold_goal.
  pose proof (spans_of_lookup 0 pieces k) as Hk. rewrite <-Hsp, list_lookup_fmap in Hk.
  destruct (ai_ordered_parts i !! k) as [part|], (pieces !! k) as [piece|] eqn:Hpiece; simpl in Hk; [|done..].
  injection Hk as ->. simpl. set (before := concat (take k pieces)). set (after := concat (drop (S k) pieces)).
  assert (concat pieces = before ++ piece ++ after) as Hcat.
  { rewrite <-(take_drop_middle pieces k piece) at 1 by done. by rewrite concat_app. }
  rewrite Hsub, Hcat. unfold slice_get. rewrite Z.add_0_l, !len_app.
  pose proof (len_nonneg before). pose proof (len_nonneg piece). pose proof (len_nonneg after).
  destruct (Z.leb_spec (len before) (len before + len piece)); [|lia].
  destruct (Z.leb_spec (len before + len piece) (len before + (len piece + len after))); [|lia].
  simpl. replace (len before + len piece - len before) with (len piece) by lia.
  unfold len. rewrite !Nat2Z.id. rewrite drop_app_length. by rewrite take_app_length.
Qed.

(** ** Properties *)

(** Construction never panics and succeeds exactly on sound
    input: within the bounds, with exactly one question, each omitted domain
    named once and every closed absence marked, and the parts consecutive
    non-empty pieces of the submission.  The input then holds the arguments
    unchanged, its parts read back as these pieces, and nothing of the
    submission is outside them. *)
Theorem actual_input_exact submitted profile parts omissions :
  actual_input_new submitted profile parts omissions ≠ Panic ∧
  ∀ i, actual_input_new submitted profile parts omissions = Ok i ↔
    i = mkActualHelperInput submitted profile parts omissions ∧ input_sound i ∧
    ∃ pieces, concat pieces = submitted ∧
      ∀ k, part_bytes i k = match pieces !! k with Some piece => Ok piece | None => Err Missing end.
Proof.
  split.
  - unfold actual_input_new. munfold_goal. destruct (_ || _) eqn:Hg; [done|].
    rewrite !orb_false_iff, !Z.ltb_ge in Hg. destruct Hg as ((_ & Hn) & _).
    pose proof (check_parts_no_panic (len submitted) parts 0 0) as Hp.
    destruct (check_parts _ _ _ _) as [[stop count]|e|]; [|done|].
    + destruct (_ || _); [done|]. pose proof (check_omissions_no_panic omissions ∅).
      by destruct (check_omissions _ _).
    + exfalso. apply Hp; [done| |done]. unfold MAX_SUBMITTED_PARTS, I32_MAX in *. lia.
  - intros i. rewrite actual_input_new_ok. split; [|tauto]. intros [-> Hs]. split_and!; [done|done|].
    destruct (is_cut _ Hs) as [pieces Hcut]. exists pieces. split; [by destruct Hcut|].
    intros k. by apply part_bytes_piece.
Qed.
