(* ===== verification/Traces.v ===== *)
(** * Traces

    What the trace components share: the pairs of positions of a list, runs of
    a step function under an independence relation, and the schedule that
    always takes the first ready element. *)

From stdpp Require Import base tactics numbers list sorting.
From S2P Require Import Prelude.

(** ** Pairs of positions *)

(** Every element with every later one: two nested loops over positions. *)
Fixpoint position_pairs {A} (l : list A) : list (A * A) :=
  match l with [] => [] | x :: l => ((λ y, (x, y)) <$> l) ++ position_pairs l end.

Section position_pairs.
Context {A : Type}.

Lemma position_pairs_length (l : list A) :
  (2 * length (position_pairs l) = length l * (length l - 1))%nat.
Proof. induction l as [|x l IH]; [done|]. simpl. rewrite length_app, length_fmap. nia. Qed.

Lemma elem_of_position_pairs (l : list A) x y :
  (x, y) ∈ position_pairs l ↔ ∃ i j, (i < j)%nat ∧ l !! i = Some x ∧ l !! j = Some y.
Proof.
  induction l as [|z l IH]; simpl.
  { rewrite elem_of_nil. split; [done|]. by intros (i & j & _ & Hi & _). }
  rewrite elem_of_app, list_elem_of_fmap, IH. split.
  - intros [(w & [= -> ->] & (j & Hj)%list_elem_of_lookup)|(i & j & Hlt & Hi & Hj)].
    + exists 0%nat, (S j). split_and!; [lia|done|done].
    + exists (S i), (S j). split_and!; [lia|done|done].
  - intros ([|i] & [|j] & Hlt & Hi & Hj); [lia| |lia|].
    + left. injection Hi as ->. exists y. split; [done|]. by apply (list_elem_of_lookup_2 l j).
    + right. exists i, j. split_and!; [lia|done|done].
Qed.

Lemma position_pairs_app (l k : list A) x y :
  (x, y) ∈ position_pairs (l ++ k) ↔ (x, y) ∈ position_pairs l ∨ (x, y) ∈ position_pairs k ∨ (x ∈ l ∧ y ∈ k).
Proof.
  induction l as [|z l IH]; simpl; [rewrite !elem_of_nil; tauto|].
  rewrite !elem_of_app, IH, elem_of_cons, !list_elem_of_fmap. setoid_rewrite elem_of_app. naive_solver.
Qed.

Lemma position_pairs_elem (l : list A) x y : (x, y) ∈ position_pairs l → x ∈ l ∧ y ∈ l.
Proof.
  intros (i & j & _ & Hi & Hj)%elem_of_position_pairs. split; by eapply list_elem_of_lookup_2.
Qed.

Lemma position_pairs_cons (l : list A) z x y :
  (x, y) ∈ position_pairs (z :: l) ↔ (x = z ∧ y ∈ l) ∨ (x, y) ∈ position_pairs l.
Proof. simpl. rewrite elem_of_app, list_elem_of_fmap. naive_solver. Qed.

(** Two elements of a list without repetition come in one order. *)
Lemma position_pairs_antisym (l : list A) x y :
  NoDup l → (x, y) ∈ position_pairs l → (y, x) ∉ position_pairs l.
Proof.
  intros Hnd (i & j & Hlt & Hi & Hj)%elem_of_position_pairs (i' & j' & Hlt' & Hi' & Hj')%elem_of_position_pairs.
  pose proof (NoDup_lookup l i j' x Hnd Hi Hj'). pose proof (NoDup_lookup l j i' y Hnd Hj Hi'). lia.
Qed.

Lemma position_pairs_total (l : list A) x y :
  x ∈ l → y ∈ l → x ≠ y → (x, y) ∈ position_pairs l ∨ (y, x) ∈ position_pairs l.
Proof.
  intros (i & Hi)%list_elem_of_lookup (j & Hj)%list_elem_of_lookup Hne. rewrite !elem_of_position_pairs.
  destruct (Nat.lt_total i j) as [|[->|]]; [left; eauto|congruence|right; exists j, i; eauto].
Qed.
End position_pairs.

(** ** Runs *)

Section runs.
Context {A R : Type} (step : R → A → R) (equiv : relation R) `{!Equivalence equiv}.
Context (step_proper : ∀ a r r', equiv r r' → equiv (step r a) (step r' a)).
Context (indep : A → A → Prop).

Lemma run_proper l r r' : equiv r r' → equiv (foldl step r l) (foldl step r' l).
Proof. revert r r'. induction l as [|a l IH]; intros r r' Hr; simpl; [done|]. by apply IH, step_proper. Qed.

Context (P : A → Prop) (commute : ∀ a b r, P a → P b → indep a b → equiv (step (step r a) b) (step (step r b) a)).

(** A step moves to the front over steps it is independent of. *)
Lemma run_move p x r :
  P x → Forall P p → (∀ z, z ∈ p → indep x z) → equiv (step (foldl step r p) x) (foldl step (step r x) p).
Proof.
  intros Hx Hp. revert r. induction Hp as [|z p Hz Hp IH]; intros r Hind; simpl; [done|].
  rewrite IH by (intros z' ?; apply Hind; by right). apply run_proper. symmetry. apply commute; [done..|].
  apply Hind. left.
Qed.

(** Two orders of the same elements run alike when every pair they order
    differently is independent. *)
Lemma run_reorder l k r :
  NoDup l → Forall P l → l ≡ₚ k →
  (∀ x y, (x, y) ∈ position_pairs l → (y, x) ∈ position_pairs k → indep x y) →
  equiv (foldl step r l) (foldl step r k).
Proof.
  revert k r. induction l as [|x l IH]; intros k r Hnd HP Hperm Hind.
  { by apply Permutation_nil_l in Hperm as ->. }
  apply NoDup_cons in Hnd as [Hx Hnd]. apply Forall_cons in HP as [HPx HP].
  assert (x ∈ k) as (p & q & ->)%list_elem_of_split by (rewrite <-Hperm; left).
  apply Permutation_cons_app_inv in Hperm as Hperm'. rewrite foldl_app. simpl.
  assert (Forall P (p ++ q)) as [HPp _]%Forall_app by (by rewrite <-Hperm').
  assert (equiv (step (foldl step r p) x) (foldl step (step r x) p)) as Hmove.
  { apply run_move; [done..|]. intros z Hz. apply Hind.
    - apply position_pairs_cons. left. split; [done|]. rewrite Hperm'. apply elem_of_app. by left.
    - apply position_pairs_app. right. right. split; [done|left]. }
  rewrite (run_proper q _ _ Hmove), <-foldl_app. apply IH; [done..|]. intros a b Hab Hba. apply Hind.
  - apply position_pairs_cons. by right.
  - apply position_pairs_app in Hba. apply position_pairs_app.
    destruct Hba as [?|[?|[? ?]]]; [by left|right; left; apply position_pairs_cons; by right|].
    right. right. split; [done|]. by right.
Qed.
End runs.

(** ** Lexicographic order *)

Fixpoint lex_le (a b : list Z) : Prop :=
  match a, b with
  | [], _ => True
  | _ :: _, [] => False
  | x :: a, y :: b => (x < y)%Z ∨ x = y ∧ lex_le a b
  end.

Fixpoint lex_lt (a b : list Z) : Prop :=
  match a, b with
  | _, [] => False
  | [], _ :: _ => True
  | x :: a, y :: b => (x < y)%Z ∨ x = y ∧ lex_lt a b
  end.

#[global] Instance lex_le_refl : Reflexive lex_le.
Proof. intros a. induction a; simpl; auto. Qed.

Lemma lex_lt_irrefl a : ¬ lex_lt a a.
Proof. induction a as [|x a IH]; [by intros []|]. intros [?|[_ ?]]; [lia|done]. Qed.

Lemma lex_lt_trans a b c : lex_lt a b → lex_lt b c → lex_lt a c.
Proof.
  revert b c. induction a as [|x a IH]; intros [|y b] [|z c]; simpl; try done.
  intros [?|[-> ?]] [?|[-> ?]]; [left; lia|by left|by left|right; eauto].
Qed.

Lemma lex_le_lt_eq a b : lex_le a b ↔ a = b ∨ lex_lt a b.
Proof.
  revert b. induction a as [|x a IH]; intros [|y b]; simpl; [naive_solver|tauto|naive_solver|]. rewrite IH. split.
  - intros [?|[-> [->|?]]]; auto.
  - intros [[= -> ->]|[?|[-> ?]]]; auto.
Qed.

Lemma lex_le_antisym a b : lex_le a b → lex_le b a → a = b.
Proof.
  rewrite !lex_le_lt_eq. intros [->|Hab] [Heq|Hba]; [done|done|done|].
  destruct (lex_lt_irrefl a). by apply (lex_lt_trans a b).
Qed.

Lemma lex_total a b : length a = length b → lex_le a b ∨ lex_lt b a.
Proof.
  revert b. induction a as [|x a IH]; intros [|y b]; simpl; try done; [auto|]. intros [= Hl].
  destruct (Z.lt_total x y) as [?|[->|?]]; [auto| |auto]. destruct (IH b Hl); auto.
Qed.

(** ** Always the first ready element *)

Lemma find_sorted {A} (R : relation A) (f : A → bool) l c d :
  StronglySorted R l → List.find f l = Some c → d ∈ l → f d = true → c = d ∨ R c d.
Proof.
  intros Hs. induction Hs as [|x l Hs IH Hall]; simpl; [done|]. rewrite Forall_forall in Hall. intros Hf Hd Hfd.
  destruct (f x) eqn:Ex.
  - injection Hf as ->. apply elem_of_cons in Hd as [->|Hd]; [by left|right; auto].
  - apply elem_of_cons in Hd as [->|Hd]; [congruence|auto].
Qed.

Section greedy.
Context {A : Type} `{!EqDecision A} (key : A → Z) (choices : list A) (preds : A → A → bool).
(** [preds c p]: [p] has to come before [c]. *)

Definition ready (done : list A) (c : A) : bool :=
  bool_decide (c ∉ done) && forallb (λ p, implb (preds c p) (bool_decide (p ∈ done))) choices.

Definition next_choice (done : list A) : option A := List.find (ready done) choices.

Fixpoint greedy (steps : nat) (done : list A) : list A :=
  match steps with
  | O => done
  | S steps =>
    match next_choice done with
    | Some c => greedy steps (done ++ [c])
    | None => greedy steps done
    end
  end.

Lemma greedy_prefix steps done : ∃ g, greedy steps done = done ++ g.
Proof.
  revert done. induction steps as [|steps IH]; intros done; simpl; [exists []; by rewrite app_nil_r|].
  destruct (next_choice done) as [c|]; [|apply IH]. destruct (IH (done ++ [c])) as [g ->].
  exists (c :: g). by rewrite <-app_assoc.
Qed.

Lemma ready_spec done c :
  ready done c = true ↔ (c ∉ done) ∧ ∀ p, p ∈ choices → preds c p = true → p ∈ done.
Proof.
  unfold ready. rewrite andb_true_iff, bool_decide_eq_true, forallb_forall. setoid_rewrite <-list_elem_of_In.
  split; intros [Hc Hp]; (split; [done|]); intros p Hin.
  - intros Hpre. specialize (Hp p Hin). rewrite Hpre in Hp. by apply bool_decide_eq_true in Hp.
  - destruct (preds c p) eqn:E; [|done]. simpl. apply bool_decide_eq_true. auto.
Qed.

Context (l : list A) (Hnd : NoDup l) (Hl : choices ≡ₚ l) (Hsorted : StronglySorted (λ a b, key a ≤ key b)%Z choices).
Context (Hpreds : ∀ c p, preds c p = true → (p, c) ∈ position_pairs l).

(** While something is left, its first element in the order [l] is ready. *)
Lemma next_choice_some done c0 :
  c0 ∈ l → c0 ∉ done → ∃ c, next_choice done = Some c.
Proof.
  intros Hc0 Hnot. unfold next_choice. destruct (List.find (ready done) choices) as [c|] eqn:E; [eauto|].
  exfalso. pose proof (find_none _ _ E) as Hnone.
  assert (∃ p c q, l = p ++ c :: q ∧ (c ∉ done) ∧ ∀ x, x ∈ p → x ∈ done) as (p & c & q & Hsplit & Hc & Hp).
  { clear -Hc0 Hnot EqDecision0. induction l as [|x l' IH]; [by apply elem_of_nil in Hc0|].
    destruct (decide (x ∈ done)) as [Hx|Hx].
    - apply elem_of_cons in Hc0 as [->|Hc0]; [done|]. destruct (IH Hc0) as (p & c & q & -> & ? & Hp).
      exists (x :: p), c, q. split_and!; [done|done|]. intros y [->|?]%elem_of_cons; auto.
    - exists [], x, l'. split_and!; [done|done|]. by intros y ?%elem_of_nil. }
  assert (c ∈ choices) as Hin by (rewrite Hl, Hsplit; apply elem_of_app; right; left).
  apply list_elem_of_In in Hin. specialize (Hnone c Hin). apply not_true_iff_false in Hnone. apply Hnone.
  apply ready_spec. split; [done|]. intros z _ Hz%Hpreds. rewrite Hsplit in Hz.
  apply position_pairs_app in Hz as [Hz|[Hz|[? ?]]]; [apply position_pairs_elem in Hz as [? _]; auto| |auto].
  rewrite Hsplit in Hnd. apply NoDup_app in Hnd as (_ & _ & Hcq). apply NoDup_cons in Hcq as [Hcq _].
  apply position_pairs_cons in Hz as [[_ ?]|[_ ?]%position_pairs_elem]; done.
Qed.

Lemma next_choice_sound done c :
  next_choice done = Some c →
  c ∈ l ∧ (c ∉ done) ∧ (∀ p, preds c p = true → p ∈ done) ∧
  (∀ d, d ∈ l → ready done d = true → (key c ≤ key d)%Z).
Proof.
  intros Hf. unfold next_choice in Hf. pose proof (find_some _ _ Hf) as [Hin%list_elem_of_In Hr%ready_spec].
  destruct Hr as [Hc Hp]. split_and!; [by rewrite <-Hl|done| |].
  - intros p Hpre. apply Hp; [|done]. rewrite Hl. by apply Hpreds, position_pairs_elem in Hpre as [].
  - intros d Hd Hrd. rewrite <-Hl in Hd.
    by destruct (find_sorted _ _ _ _ _ Hsorted Hf Hd Hrd) as [->|]; [reflexivity|].
Qed.

(** The elements taken so far: distinct, from [l], each with what has to come
    before it in front of it. *)
Record taken (done : list A) : Prop := {
  tk_nodup : NoDup done;
  tk_from : ∀ x, x ∈ done → x ∈ l;
  tk_before : ∀ c p, c ∈ done → preds c p = true → (p, c) ∈ position_pairs done;
}.

Lemma taken_nil : taken [].
Proof. split; [constructor|by intros x ?%elem_of_nil|by intros c p ?%elem_of_nil]. Qed.

Lemma taken_snoc done c : taken done → next_choice done = Some c → taken (done ++ [c]).
Proof.
  intros [Hn Hf Hb] (Hin & Hc & Hp & _)%next_choice_sound. split.
  - apply NoDup_app. split_and!; [done| |apply NoDup_singleton]. intros x Hx Hxc%list_elem_of_singleton. by subst x.
  - intros x [?|Hxc%list_elem_of_singleton]%elem_of_app; [auto|by subst x].
  - intros x p [Hx|Hxc%list_elem_of_singleton]%elem_of_app Hpre; apply position_pairs_app; [left; auto|subst x].
    right. right. split; [auto|left].
Qed.

Lemma taken_all done : taken done → length done = length l → done ≡ₚ l.
Proof.
  intros [Hn Hf _] Hlen. apply submseteq_length_Permutation; [|lia]. by apply NoDup_submseteq.
Qed.

Lemma taken_short done : taken done → (length done < length l)%nat → ∃ c, c ∈ l ∧ c ∉ done.
Proof.
  intros [Hn Hf _] Hlen.
  destruct (decide (Exists (λ c, c ∉ done) l)) as [(c & ? & ?)%Exists_exists|Hno]; [eauto|].
  assert (∀ c, c ∈ l → c ∈ done) as Hall.
  { intros c Hc. destruct (decide (c ∈ done)); [done|]. destruct Hno. apply Exists_exists. eauto. }
  pose proof (submseteq_length _ _ (NoDup_submseteq l done Hnd Hall)). lia.
Qed.

Lemma greedy_taken steps done :
  taken done → (length done + steps = length l)%nat →
  taken (greedy steps done) ∧ length (greedy steps done) = length l.
Proof.
  revert done. induction steps as [|steps IH]; intros done Ht Hlen; simpl.
  { split; [assumption|lia]. }
  destruct (taken_short done Ht) as (c0 & Hc0 & Hnot); [lia|].
  destruct (next_choice_some done c0 Hc0 Hnot) as [c Hc]. rewrite Hc. apply IH; [by apply taken_snoc|].
  rewrite length_app. simpl. lia.
Qed.

(** A linear extension is never smaller. *)
Lemma greedy_least steps done m :
  taken done → (length done + steps = length l)%nat → done ++ m ≡ₚ l →
  (∀ c p, preds c p = true → (p, c) ∈ position_pairs (done ++ m)) →
  (∀ c d, c ∈ l → d ∈ l → key c = key d → c = d) →
  ∃ g, greedy steps done = done ++ g ∧ lex_le (key <$> g) (key <$> m).
Proof.
  intros Ht Hlen Hperm Hext Hinj. revert done m Ht Hlen Hperm Hext.
  induction steps as [|steps IH]; intros done m Ht Hlen Hperm Hext; simpl.
  { exists []. split; [by rewrite app_nil_r|done]. }
  assert (NoDup (done ++ m)) as Hndm by (by rewrite Hperm).
  destruct m as [|d m].
  { apply Permutation_length in Hperm. rewrite length_app in Hperm. simpl in Hperm. lia. }
  assert (d ∈ l) as Hd by (rewrite <-Hperm; apply elem_of_app; right; left).
  assert (d ∉ done) as Hdn.
  { intros Hin. apply NoDup_app in Hndm as (_ & Hdis & _). apply (Hdis d Hin). left. }
  assert (ready done d = true) as Hr.
  { apply ready_spec. split; [done|]. intros p _ Hpre. apply Hext in Hpre. apply position_pairs_app in Hpre.
    apply NoDup_app in Hndm as (_ & Hdis & Hndd). apply NoDup_cons in Hndd as [Hdm _].
    destruct Hpre as [[_ ?]%position_pairs_elem|[Hpre|[? _]]]; [done| |done].
    apply position_pairs_cons in Hpre as [[_ ?]|[_ ?]%position_pairs_elem]; done. }
  destruct (next_choice_some done d Hd Hdn) as [c Hc]. rewrite Hc.
  destruct (next_choice_sound done c Hc) as (Hcl & Hcn & _ & Hmin).
  specialize (Hmin d Hd Hr). pose proof (taken_snoc done c Ht Hc) as Ht'.
  assert (length (done ++ [c]) + steps = length l)%nat as Hlen' by (rewrite length_app; simpl; lia).
  destruct (decide (c = d)) as [->|Hne].
  - destruct (IH (done ++ [d]) m Ht' Hlen') as (g & -> & Hle); [by rewrite <-app_assoc|by rewrite <-app_assoc|].
    exists (d :: g). split; [by rewrite <-app_assoc|]. csimpl. auto.
  - assert (key c < key d)%Z as Hlt by (destruct (decide (key c = key d)); [by destruct Hne; auto|lia]).
    destruct (greedy_prefix steps (done ++ [c])) as [g ->]. exists (c :: g).
    split; [by rewrite <-app_assoc|]. csimpl. auto.
Qed.
End greedy.
