(* ===== verification/TraceIndependence.v ===== *)
(** * Registered trace operations

    [crates/fa-reference/src/trace_independence.rs]: operations registered with
    the whole domains they read, write, draw from and consume, together with
    the barriers their retained inputs force, and the conservative relation
    that allows two of them to be reordered.  Domains and operators are their
    nonzero identifiers. *)

From stdpp Require Import base tactics numbers list gmap.
From S2P Require Import Prelude Bytes Judgment FullInput Traces.

Local Open Scope Z_scope.

(** ** Model *)

Definition MAX_TRACE_DOMAINS : Z := 256.
Definition MAX_TRACE_INPUT_BINDINGS : Z := 16.
Definition MAX_TRACE_OPERATOR_PAIRS : Z := 128.
Definition MAX_TRACE_OPERATIONS : Z := 16.

Abbreviation OperatorId := Z (only parsing).
Abbreviation DomainId := Z (only parsing).

(** [NonZeroU64::new] *)
Definition operator_id_new (value : Z) : res Error OperatorId :=
  if value =? 0 then Err InvalidInput else Ok value.
Definition domain_id_new (value : Z) : res Error DomainId :=
  if value =? 0 then Err InvalidInput else Ok value.

Record OperatorPair := mkOperatorPair { pr_first : OperatorId; pr_second : OperatorId }.

#[global] Instance OperatorPair_eq_dec : EqDecision OperatorPair.
Proof. solve_decision. Defined.
#[global] Program Instance OperatorPair_countable : Countable OperatorPair :=
  inj_countable' (A:=(Z * Z)%type) (λ p, (pr_first p, pr_second p)) (λ p, mkOperatorPair p.1 p.2) _.
Next Obligation. by intros []. Qed.

Definition operator_pair_new (left right : OperatorId) : res Error OperatorPair :=
  refuse_if (left =? right) InvalidInput;;
  let '(first, second) := if left <? right then (left, right) else (right, left) in
  Ok (mkOperatorPair first second).

Record TraceInputBindingSpec := mkTraceInputBindingSpec {
  tb_witness : OpaqueInputWitness;
  tb_evidence_source_domains : gmap Z DomainId;
  tb_omission_domains : gmap Z DomainId;
}.

Record TraceOperationSpec := mkTraceOperationSpec {
  ts_operator : OperatorId;
  ts_positive_read_domains : gset Z;
  ts_write_domains : gset Z;
  ts_rng_streams : gset Z;
  ts_consuming_resources : gset Z;
  ts_authority_transition : bool;
  ts_ordered_effect : bool;
  ts_external_effect : bool;
  ts_unknown_dependencies : bool;
  ts_inputs : list TraceInputBindingSpec;
}.

Record TraceRelationRegistry := mkTraceRelationRegistry { tr_reviewed_commutative_pairs : gset OperatorPair }.

Definition registry_new (pairs : gset OperatorPair) : res Error TraceRelationRegistry :=
  refuse_if (MAX_TRACE_OPERATOR_PAIRS <? Z.of_nat (size pairs)) Limit;;
  Ok (mkTraceRelationRegistry pairs).

(** [OperatorPair::new(..).map(..).unwrap_or(false)] *)
Definition registry_contains (self : TraceRelationRegistry) (left right : OperatorId) : bool :=
  match operator_pair_new left right with
  | Ok reviewed => bool_decide (reviewed ∈ tr_reviewed_commutative_pairs self)
  | _ => false
  end.

(** [RegisteredTraceOperation], whose only field is a
    [ValidatedTraceOperation]. *)
Record RegisteredTraceOperation := mkRegisteredTraceOperation {
  to_operator : OperatorId;
  to_positive_read_domains : gset Z;
  to_negative_read_domains : gset Z;
  to_write_domains : gset Z;
  to_rng_streams : gset Z;
  to_consuming_resources : gset Z;
  to_authority_transition : bool;
  to_ordered_effect : bool;
  to_external_effect : bool;
  to_unknown_dependencies : bool;
  to_retained_inputs : list OpaqueInputWitness;
}.

Definition check_domain_set (domains : gset Z) : res Error unit :=
  refuse_if (MAX_TRACE_DOMAINS <? Z.of_nat (size domains)) Limit.

Definition exact_mapping (keys : gset Z) (mapping : gmap Z DomainId) : bool :=
  bool_decide (size keys = size mapping) && forallb (λ key, bool_decide (is_Some (mapping !! key))) (elements keys).

Definition evidence_source (part : SubmittedPart) : option Z :=
  match sp_kind part with PartEvidence source_id _ => Some source_id | _ => None end.
Definition evidence_sources (input : ActualHelperInput) : gset Z :=
  list_to_set (omap evidence_source (ai_ordered_parts input)).
Definition omission_ids (input : ActualHelperInput) : gset Z :=
  list_to_set (omission_domain_id <$> ai_omissions input).

Definition is_closed_absent (omission : Omission) : bool :=
  match omission with ClosedAbsent _ _ => true | _ => false end.

(** The loop over the omissions of one input; the index into the map panics
    on a missing key. *)
Fixpoint bind_omissions (domains : gmap Z DomainId) (omissions : list Omission) (negative : gset Z) (unknown : bool)
    : res Error (gset Z * bool) :=
  match omissions with
  | [] => Ok (negative, unknown)
  | omission :: omissions =>
    domain ← expect (domains !! omission_domain_id omission);
    if is_closed_absent omission
    then bind_omissions domains omissions ({[domain]} ∪ negative) unknown
    else bind_omissions domains omissions negative true
  end.

(** What the loop over the inputs accumulates. *)
Record Bound := mkBound {
  bd_positive : gset Z;
  bd_negative : gset Z;
  bd_unknown : bool;
  bd_retained : list OpaqueInputWitness;
}.

Fixpoint bind_inputs (inputs : list TraceInputBindingSpec) (acc : Bound) : res Error Bound :=
  match inputs with
  | [] => Ok acc
  | binding :: inputs =>
    let actual_input := ow_actual_input (tb_witness binding) in
    refuse_if (negb (exact_mapping (evidence_sources actual_input) (tb_evidence_source_domains binding))) Binding;;
    let positive := bd_positive acc ∪ list_to_set (map_to_list (tb_evidence_source_domains binding)).*2 in
    refuse_if (negb (exact_mapping (omission_ids actual_input) (tb_omission_domains binding))) Binding;;
    '(negative, unknown) ← bind_omissions (tb_omission_domains binding) (ai_omissions actual_input)
      (bd_negative acc) (bd_unknown acc);
    bind_inputs inputs (mkBound positive negative unknown (bd_retained acc ++ [tb_witness binding]))
  end.

Definition try_from_spec (spec : TraceOperationSpec) : res Error RegisteredTraceOperation :=
  refuse_if (MAX_TRACE_INPUT_BINDINGS <? len (ts_inputs spec)) Limit;;
  check_domain_set (ts_positive_read_domains spec);;
  check_domain_set (ts_write_domains spec);;
  check_domain_set (ts_rng_streams spec);;
  check_domain_set (ts_consuming_resources spec);;
  b ← bind_inputs (ts_inputs spec) (mkBound (ts_positive_read_domains spec) ∅ (ts_unknown_dependencies spec) []);
  check_domain_set (bd_positive b);;
  check_domain_set (bd_negative b);;
  Ok (mkRegisteredTraceOperation (ts_operator spec) (bd_positive b) (bd_negative b) (ts_write_domains spec)
        (ts_rng_streams spec) (ts_consuming_resources spec) (ts_authority_transition spec) (ts_ordered_effect spec)
        (ts_external_effect spec) (bd_unknown b) (bd_retained b)).

(** [left.write_domains.iter().chain(..).chain(..).any(..)] *)
Definition mutation_conflicts (left right : RegisteredTraceOperation) : bool :=
  existsb (λ domain,
    bool_decide (domain ∈ to_positive_read_domains right) || bool_decide (domain ∈ to_negative_read_domains right)
    || bool_decide (domain ∈ to_write_domains right) || bool_decide (domain ∈ to_rng_streams right)
    || bool_decide (domain ∈ to_consuming_resources right))
    (elements (to_write_domains left) ++ elements (to_rng_streams left) ++ elements (to_consuming_resources left)).

(** [independent] *)
Definition trace_independent (registry : TraceRelationRegistry) (left right : RegisteredTraceOperation) : bool :=
  registry_contains registry (to_operator left) (to_operator right)
  && negb (to_unknown_dependencies left) && negb (to_unknown_dependencies right)
  && negb (to_authority_transition left) && negb (to_authority_transition right)
  && negb (to_ordered_effect left) && negb (to_ordered_effect right)
  && negb (to_external_effect left) && negb (to_external_effect right)
  && negb (mutation_conflicts left right) && negb (mutation_conflicts right left).

Record RelationEvaluation := mkRelationEvaluation {
  re_evaluated_pairs : Z;
  re_independent_pairs : Z;
  re_ordered_pairs : Z;
}.

Definition evaluate_bounded_pairs (registry : TraceRelationRegistry) (operations : list RegisteredTraceOperation)
    : res Error RelationEvaluation :=
  refuse_if (MAX_TRACE_OPERATIONS <? len operations) Limit;;
  product ← ok_or (u64_checked_mul (len operations) (u64_saturating_sub (len operations) 1)) Overflow;
  let evaluated_pairs := product / 2 in
  let independent_pairs := len (List.filter (λ p, trace_independent registry p.1 p.2) (position_pairs operations)) in
  ordered_pairs ← u64_sub evaluated_pairs independent_pairs;
  Ok (mkRelationEvaluation evaluated_pairs independent_pairs ordered_pairs).

(** ** The relation *)

(** Everything an operation may change, and everything it may look at. *)
Definition mutated (o : RegisteredTraceOperation) : gset Z :=
  to_write_domains o ∪ to_rng_streams o ∪ to_consuming_resources o.
Definition observed (o : RegisteredTraceOperation) : gset Z :=
  to_positive_read_domains o ∪ to_negative_read_domains o.

Lemma mutation_conflicts_false left right :
  mutation_conflicts left right = false ↔ mutated left ## mutated right ∪ observed right.
Proof.
  unfold mutation_conflicts. rewrite <-not_true_iff_false, existsb_exists. unfold mutated, observed.
  setoid_rewrite <-list_elem_of_In. repeat setoid_rewrite elem_of_app. repeat setoid_rewrite elem_of_elements.
  repeat setoid_rewrite orb_true_iff. repeat setoid_rewrite bool_decide_eq_true. set_solver.
Qed.

Lemma operator_pair_new_sym left right : operator_pair_new left right = operator_pair_new right left.
Proof.
  unfold operator_pair_new. munfold_goal. rewrite (Z.eqb_sym right left).
  destruct (Z.eqb_spec left right); [done|]. destruct (Z.ltb_spec left right), (Z.ltb_spec right left); done || lia.
Qed.

Record independent_ops (registry : TraceRelationRegistry) (left right : RegisteredTraceOperation) : Prop := {
  io_reviewed : registry_contains registry (to_operator left) (to_operator right) = true;
  io_known : to_unknown_dependencies left = false ∧ to_unknown_dependencies right = false;
  io_authority : to_authority_transition left = false ∧ to_authority_transition right = false;
  io_ordered : to_ordered_effect left = false ∧ to_ordered_effect right = false;
  io_external : to_external_effect left = false ∧ to_external_effect right = false;
  io_left : mutated left ## mutated right ∪ observed right;
  io_right : mutated right ## mutated left ∪ observed left;
}.

Lemma trace_independent_spec registry left right :
  trace_independent registry left right = true ↔ independent_ops registry left right.
Proof.
  unfold trace_independent. rewrite !andb_true_iff, !negb_true_iff, !mutation_conflicts_false.
  split; [intros (((((((((( ? & ?) & ?) & ?) & ?) & ?) & ?) & ?) & ?) & ?) & ?); by split|].
  intros [? [] [] [] [] ? ?]. tauto.
Qed.

Lemma trace_independent_sym registry left right :
  trace_independent registry left right = trace_independent registry right left.
Proof.
  apply eq_true_iff_eq. rewrite !trace_independent_spec.
  split; intros [Hr [] [] [] [] ? ?]; split; try done; unfold registry_contains in *;
    by rewrite operator_pair_new_sym.
Qed.

(** ** Registration *)

(** The caller mapped exactly the evidence sources and the omissions. *)
Definition mapped (b : TraceInputBindingSpec) : Prop :=
  dom (tb_evidence_source_domains b) = evidence_sources (ow_actual_input (tb_witness b)) ∧
  dom (tb_omission_domains b) = omission_ids (ow_actual_input (tb_witness b)).

#[global] Instance mapped_dec b : Decision (mapped b).
Proof. unfold mapped. apply _. Defined.

(** What one input adds to the operation. *)
Definition evidence_domains (b : TraceInputBindingSpec) : gset Z :=
  list_to_set (map_to_list (tb_evidence_source_domains b)).*2.
Definition absent_domains (b : TraceInputBindingSpec) : gset Z :=
  list_to_set (omap (λ o, if is_closed_absent o then tb_omission_domains b !! omission_domain_id o else None)
    (ai_omissions (ow_actual_input (tb_witness b)))).
Definition opaque_input (b : TraceInputBindingSpec) : bool :=
  existsb (λ o, negb (is_closed_absent o)) (ai_omissions (ow_actual_input (tb_witness b))).

(** The operation a specification describes. *)
Definition described (spec : TraceOperationSpec) : RegisteredTraceOperation :=
  mkRegisteredTraceOperation (ts_operator spec)
    (ts_positive_read_domains spec ∪ ⋃ (evidence_domains <$> ts_inputs spec))
    (⋃ (absent_domains <$> ts_inputs spec))
    (ts_write_domains spec) (ts_rng_streams spec) (ts_consuming_resources spec)
    (ts_authority_transition spec) (ts_ordered_effect spec) (ts_external_effect spec)
    (ts_unknown_dependencies spec || existsb opaque_input (ts_inputs spec))
    (tb_witness <$> ts_inputs spec).

Definition domains_bounded (s : gset Z) : Prop := Z.of_nat (size s) ≤ MAX_TRACE_DOMAINS.

Lemma check_domain_set_eq s : check_domain_set s = if decide (domains_bounded s) then Ok tt else Err Limit.
Proof.
  unfold check_domain_set, domains_bounded. munfold_goal.
  destruct (Z.ltb_spec MAX_TRACE_DOMAINS (Z.of_nat (size s))); case_decide; done || lia.
Qed.

Lemma exact_mapping_spec keys mapping : exact_mapping keys mapping = bool_decide (dom mapping = keys).
Proof.
  apply eq_true_iff_eq. unfold exact_mapping.
  rewrite andb_true_iff, !bool_decide_eq_true, forallb_forall. setoid_rewrite <-list_elem_of_In.
  setoid_rewrite elem_of_elements. setoid_rewrite bool_decide_eq_true. split.
  - intros [Hsize Hin]. symmetry. apply leibniz_equiv, set_subseteq_size_equiv.
    + intros k Hk. apply elem_of_dom. auto.
    + rewrite size_dom. lia.
  - intros <-. split; [by rewrite size_dom|]. intros k. by rewrite elem_of_dom.
Qed.

Lemma bind_omissions_eq domains omissions negative unknown :
  (∀ o, o ∈ omissions → is_Some (domains !! omission_domain_id o)) →
  bind_omissions domains omissions negative unknown =
    Ok (negative ∪ list_to_set (omap (λ o, if is_closed_absent o then domains !! omission_domain_id o else None) omissions),
        unknown || existsb (λ o, negb (is_closed_absent o)) omissions).
Proof.
  revert negative unknown. induction omissions as [|o omissions IH]; intros negative unknown Hm; simpl.
  { by rewrite (union_empty_r_L negative), orb_false_r. }
  munfold_goal. destruct (Hm o) as [d Hd]; [left|]. rewrite Hd.
  assert (∀ o, o ∈ omissions → is_Some (domains !! omission_domain_id o)) as Hm' by (intros o' ?; apply Hm; by right).
  destruct (is_closed_absent o) eqn:Ho; rewrite IH by done; simpl; rewrite ?Hd; simpl; f_equal; f_equal.
  - set_solver.
  - by rewrite orb_true_r.
Qed.

Lemma bind_inputs_eq inputs acc :
  bind_inputs inputs acc =
    if decide (Forall mapped inputs)
    then Ok (mkBound (bd_positive acc ∪ ⋃ (evidence_domains <$> inputs)) (bd_negative acc ∪ ⋃ (absent_domains <$> inputs))
           (bd_unknown acc || existsb opaque_input inputs) (bd_retained acc ++ (tb_witness <$> inputs)))
    else Err Binding.
Proof.
  revert acc. induction inputs as [|b inputs IH]; intros acc.
  { rewrite decide_True by constructor. destruct acc as [p n u r]. simpl.
    by rewrite !union_empty_r_L, orb_false_r, app_nil_r. }
  simpl. munfold_goal. rewrite !exact_mapping_spec.
  case_bool_decide as He; simpl; [|rewrite decide_False; [done|]; rewrite Forall_cons; unfold mapped; tauto].
  case_bool_decide as Ho; simpl; [|rewrite decide_False; [done|]; rewrite Forall_cons; unfold mapped; tauto].
  rewrite bind_omissions_eq.
  2:{ intros o Hin. apply elem_of_dom. rewrite Ho. unfold omission_ids. apply elem_of_list_to_set.
      by apply list_elem_of_fmap_2. }
  rewrite IH. simpl. fold (absent_domains b) (opaque_input b) (evidence_domains b).
  destruct (decide (Forall mapped inputs)) as [Hall|Hall].
  - rewrite decide_True by (by constructor). csimpl. by rewrite !union_assoc_L, !orb_assoc, <-!app_assoc.
  - rewrite decide_False; [done|]. by intros [_ ?]%Forall_cons.
Qed.

(** ** Counting pairs *)

Lemma filter_all {A} (f : A → bool) l : (∀ x, x ∈ l → f x = true) → List.filter f l = l.
Proof.
  induction l as [|x l IH]; intros Hf; [done|]. simpl. rewrite Hf by left. f_equal. apply IH.
  intros y ?. apply Hf. by right.
Qed.
Lemma filter_full_length {A} (f : A → bool) l : (length l ≤ length (List.filter f l))%nat → List.filter f l = l.
Proof.
  induction l as [|x l IH]; [done|]. simpl. pose proof (List.filter_length_le f l).
  destruct (f x); simpl; intros Hl; [f_equal; apply IH; lia|lia].
Qed.

Section pairs.
Context {A : Type} (f : A → A → bool) (Hsym : ∀ x y, f x y = f y x).

Definition related_pairs (l : list A) : nat := length (List.filter (λ p, f p.1 p.2) (position_pairs l)).

Lemma related_pairs_cons x l :
  related_pairs (x :: l) = (length (List.filter (f x) l) + related_pairs l)%nat.
Proof.
  unfold related_pairs. simpl. rewrite List.filter_app, length_app. f_equal.
  induction l as [|y l IH]; [done|]. csimpl. destruct (f x y); csimpl; by rewrite IH.
Qed.

Lemma filter_perm_length (g : A → bool) l k : l ≡ₚ k → length (List.filter g l) = length (List.filter g k).
Proof. intros Hp. induction Hp as [|x l k _ IH|x y l|l k m _ IH1 _ IH2]; simpl; repeat case_match; simpl; congruence. Qed.

Lemma related_pairs_perm l k : l ≡ₚ k → related_pairs l = related_pairs k.
Proof.
  intros Hp. induction Hp as [|x l k Hlk IH|x y l|l k m _ IH1 _ IH2]; [done| | |congruence].
  - by rewrite !related_pairs_cons, IH, (filter_perm_length (f x) l k).
  - rewrite !related_pairs_cons. simpl. rewrite (Hsym y x). destruct (f x y); simpl; lia.
Qed.

Lemma related_pairs_le l : (related_pairs l ≤ length (position_pairs l))%nat.
Proof. apply List.filter_length_le. Qed.

End pairs.

Lemma evaluate_bounded_pairs_eq registry ops :
  evaluate_bounded_pairs registry ops =
    if decide (len ops ≤ MAX_TRACE_OPERATIONS)
    then let total := Z.of_nat (length (position_pairs ops)) in
         let related := Z.of_nat (related_pairs (trace_independent registry) ops) in
         Ok (mkRelationEvaluation total related (total - related))
    else Err Limit.
Proof.
  unfold evaluate_bounded_pairs. munfold_goal. unfold MAX_TRACE_OPERATIONS.
  destruct (Z.ltb_spec 16 (len ops)); case_decide as Hl; [lia|done| |lia].
  pose proof (len_nonneg ops). unfold u64_checked_mul, u64_saturating_sub.
  assert (len ops * Z.max 0 (len ops - 1) = 2 * Z.of_nat (length (position_pairs ops))) as ->.
  { pose proof (position_pairs_length ops). unfold len in *. nia. }
  pose proof (position_pairs_length ops) as Hpp.
  destruct (Z.leb_spec (2 * Z.of_nat (length (position_pairs ops))) U64_MAX) as [|Hbig].
  2:{ unfold len in *. nia. }
  rewrite Z.mul_comm, Z.div_mul by lia. unfold u64_sub.
  pose proof (related_pairs_le (trace_independent registry) ops) as Hle. unfold related_pairs in *. unfold len at 1 2 3.
  by destruct (Z.leb_spec (Z.of_nat (length (List.filter (λ p, trace_independent registry p.1 p.2) (position_pairs ops))))
    (Z.of_nat (length (position_pairs ops)))); [|lia].
Qed.

(** ** Properties *)

(** Registration never panics, and succeeds exactly when the
    declared and derived domain sets are bounded, there are at most sixteen
    inputs and each is mapped exactly: every evidence source and every omission
    of it, and nothing else, has a domain.  The operation is then the described
    one: its reads are the declared ones with every evidence domain, its
    negative reads the domains of the closed absences, and any other omission
    makes its dependencies unknown, whatever the caller declared. *)
Theorem registration_exact spec :
  try_from_spec spec ≠ Panic ∧
  ∀ o, try_from_spec spec = Ok o ↔
    o = described spec ∧ len (ts_inputs spec) ≤ MAX_TRACE_INPUT_BINDINGS ∧ Forall mapped (ts_inputs spec) ∧
    Forall domains_bounded
      [ts_positive_read_domains spec; ts_write_domains spec; ts_rng_streams spec; ts_consuming_resources spec;
       to_positive_read_domains o; to_negative_read_domains o].
Proof.
  unfold try_from_spec. munfold_goal. rewrite bind_inputs_eq, !check_domain_set_eq. simpl. rewrite union_empty_l_L.
  assert (∀ a b c d e f, Forall domains_bounded [a; b; c; d; e; f] ↔
    domains_bounded a ∧ domains_bounded b ∧ domains_bounded c ∧ domains_bounded d ∧ domains_bounded e ∧
    domains_bounded f) as Hall.
  { intros. rewrite !Forall_cons. pose proof (Forall_nil domains_bounded). tauto. }
  setoid_rewrite Hall. clear Hall.
  destruct (Z.ltb_spec MAX_TRACE_INPUT_BINDINGS (len (ts_inputs spec))).
  { split; [done|]. intros o. split; [done|]. intros (_ & Hl & _). lia. }
  destruct (decide (domains_bounded (ts_positive_read_domains spec))); [|split; [done|]; intros o; split; [done|tauto]].
  destruct (decide (domains_bounded (ts_write_domains spec))); [|split; [done|]; intros o; split; [done|tauto]].
  destruct (decide (domains_bounded (ts_rng_streams spec))); [|split; [done|]; intros o; split; [done|tauto]].
  destruct (decide (domains_bounded (ts_consuming_resources spec))); [|split; [done|]; intros o; split; [done|tauto]].
  destruct (decide (Forall mapped (ts_inputs spec))); [|split; [done|]; intros o; split; [done|tauto]]. simpl.
  rewrite !check_domain_set_eq.
  destruct (decide (domains_bounded (ts_positive_read_domains spec ∪ ⋃ (evidence_domains <$> ts_inputs spec))));
    [|split; [done|]; intros o; split; [done|intros [-> Hb]; unfold described in Hb; simpl in Hb; tauto]].
  destruct (decide (domains_bounded (⋃ (absent_domains <$> ts_inputs spec))));
    [|split; [done|]; intros o; split; [done|intros [-> Hb]; unfold described in Hb; simpl in Hb; tauto]].
  split; [done|]. intros o. fold (described spec). split.
  - intros [= <-]. simpl. tauto.
  - by intros [-> _].
Qed.

(** Evaluating a bounded set of operations never panics or overflows.
    It counts every unordered pair of positions once, splits the pairs into
    independent and ordered ones, two positions counting as independent
    whichever of them comes first, and does not depend on the order of the
    operations. *)
Theorem pair_evaluation_exact registry ops :
  (evaluate_bounded_pairs registry ops = Err Limit ↔ MAX_TRACE_OPERATIONS < len ops) ∧
  (len ops ≤ MAX_TRACE_OPERATIONS → ∃ ev, evaluate_bounded_pairs registry ops = Ok ev ∧
    2 * re_evaluated_pairs ev = len ops * (len ops - 1) ∧
    re_evaluated_pairs ev = re_independent_pairs ev + re_ordered_pairs ev ∧ 0 ≤ re_ordered_pairs ev ∧
    (re_ordered_pairs ev = 0 ↔
      ∀ i j a b, i ≠ j → ops !! i = Some a → ops !! j = Some b → trace_independent registry a b = true) ∧
    ∀ ops', ops' ≡ₚ ops → evaluate_bounded_pairs registry ops' = Ok ev).
Proof.
  rewrite evaluate_bounded_pairs_eq. split.
  { case_decide; split; done || lia. }
  intros Hl. rewrite decide_True by done. eexists. split; [reflexivity|]. simpl.
  pose proof (position_pairs_length ops) as Hpp.
  pose proof (related_pairs_le (trace_independent registry) ops) as Hle. split_and!.
  - unfold len. nia.
  - lia.
  - lia.
  - split.
    + intros H0 i j a b Hij Hi Hj.
      assert (List.filter (λ p, trace_independent registry p.1 p.2) (position_pairs ops) = position_pairs ops) as Hall.
      { apply filter_full_length. unfold related_pairs in *. lia. }
      assert (∀ x y, (x, y) ∈ position_pairs ops → trace_independent registry x y = true) as Hin.
      { intros x y Hxy. rewrite <-Hall in Hxy. apply list_elem_of_In, filter_In in Hxy. apply Hxy. }
      destruct (Nat.lt_total i j) as [Hlt|[->|Hlt]]; [|done|].
      * apply Hin, elem_of_position_pairs. eauto.
      * rewrite trace_independent_sym. apply Hin, elem_of_position_pairs. eauto.
    + intros Hall. unfold related_pairs. rewrite filter_all; [lia|]. intros [x y] Hxy. simpl.
      apply elem_of_position_pairs in Hxy as (i & j & Hlt & Hi & Hj). apply (Hall i j); [lia|done..].
  - intros ops' Hperm. assert (length ops' = length ops) as Hlen by (by rewrite Hperm).
    pose proof (position_pairs_length ops') as Hpp'. rewrite Hlen in Hpp'.
    rewrite evaluate_bounded_pairs_eq, decide_True by (unfold len in *; lia).
    rewrite (related_pairs_perm _ (trace_independent_sym registry) ops' ops) by done.
    by replace (length (position_pairs ops')) with (length (position_pairs ops)) by lia.
Qed.

(** A writer of one domain, a reader of it, and a reader of another. *)
Definition example_operation (operator : Z) (reads writes : gset Z) : RegisteredTraceOperation :=
  mkRegisteredTraceOperation operator reads ∅ writes ∅ ∅ false false false false [].
Definition example_registry : TraceRelationRegistry :=
  mkTraceRelationRegistry {[mkOperatorPair 1 2; mkOperatorPair 1 3; mkOperatorPair 2 3]}.
Definition example_operations : list RegisteredTraceOperation :=
  [example_operation 1 ∅ {[7]}; example_operation 2 {[7]} ∅; example_operation 3 {[8]} ∅].

Lemma pair_evaluation_exact_witness :
  evaluate_bounded_pairs example_registry example_operations = Ok (mkRelationEvaluation 3 2 1) ∧
  ∃ ev, evaluate_bounded_pairs example_registry example_operations = Ok ev ∧
    re_evaluated_pairs ev = re_independent_pairs ev + re_ordered_pairs ev.
Proof.
  split; [vm_compute; reflexivity|].
  destruct (proj2 (pair_evaluation_exact example_registry example_operations)) as (ev & Hev & _ & Hsum & _);
    [vm_compute; discriminate|].
  exists ev. split; [exact Hev|exact Hsum].
Defined.
