(* ===== verification/Consequence.v ===== *)
(** * Consequences

    [crates/fa-reference/src/action/consequence.rs]: the chain of authority
    restrictions, the operations that answer them, their two-byte encoding,
    and the decision rule that joins what the votes recommend with what exact
    and missing evidence require. *)

From Stdlib Require Import Strings.Byte.
From stdpp Require Import base tactics numbers list.
From S2P Require Import Prelude Bytes Judgment.

Local Open Scope Z_scope.

(** ** Model *)

Definition CONSEQUENCE_ENCODING_V1 : Z := 1.

(** [Restriction::Continue] is [RContinue], and so on. *)
Inductive Restriction := RContinue | RHoldEffect | RDeny | RNarrowAuthority | RSuspendRun.

#[global] Instance Restriction_eq_dec : EqDecision Restriction.
Proof. solve_decision. Defined.

(** The discriminants, which the derived order compares. *)
Definition restriction_discriminant (r : Restriction) : Z :=
  match r with RContinue => 0 | RHoldEffect => 1 | RDeny => 2 | RNarrowAuthority => 3 | RSuspendRun => 4 end.

Definition restriction_le (a b : Restriction) : Prop := restriction_discriminant a ≤ restriction_discriminant b.

(** [self.max(other)] *)
Definition restriction_join (self other : Restriction) : Restriction :=
  if restriction_discriminant other <? restriction_discriminant self then self else other.

Inductive Consequence :=
  | CContinue | CHoldEffect | CDeny | CNarrowAuthority | CSuspendRun | CResetToCheckpoint.

#[global] Instance Consequence_eq_dec : EqDecision Consequence.
Proof. solve_decision. Defined.

Record ConsequenceRequirements := mkConsequenceRequirements {
  cr_authority_floor : Restriction;
  cr_functional_restart_required : bool;
}.

Definition ALL_CONSEQUENCES : list Consequence :=
  [CContinue; CHoldEffect; CDeny; CNarrowAuthority; CSuspendRun; CResetToCheckpoint].

Definition consequence_requires (self : Consequence) : ConsequenceRequirements :=
  mkConsequenceRequirements
    match self with
    | CContinue => RContinue
    | CHoldEffect => RHoldEffect
    | CDeny => RDeny
    | CNarrowAuthority | CResetToCheckpoint => RNarrowAuthority
    | CSuspendRun => RSuspendRun
    end
    (bool_decide (self = CResetToCheckpoint)).

(** [self as u8] *)
Definition consequence_discriminant (self : Consequence) : Z :=
  match self with
  | CContinue => 0 | CHoldEffect => 1 | CDeny => 2 | CNarrowAuthority => 3 | CSuspendRun => 4
  | CResetToCheckpoint => 5
  end.

Definition consequence_encode (self : Consequence) : bytes :=
  [byte_of CONSEQUENCE_ENCODING_V1; byte_of (consequence_discriminant self)].

(** [bytes[i]] panics out of range. *)
Definition consequence_decode (bs : bytes) : res Error Consequence :=
  version ← (if len bs =? 2 then expect (bs !! 0%nat) else Err InvalidInput);
  refuse_if (negb (byte_val version =? CONSEQUENCE_ENCODING_V1)) InvalidInput;;
  tag ← expect (bs !! 1%nat);
  ok_or (ALL_CONSEQUENCES !! Z.to_nat (byte_val tag)) InvalidInput.

Definition consequence_from (restriction : Restriction) : Consequence :=
  match restriction with
  | RContinue => CContinue
  | RHoldEffect => CHoldEffect
  | RDeny => CDeny
  | RNarrowAuthority => CNarrowAuthority
  | RSuspendRun => CSuspendRun
  end.

Definition reduce_reference (disqualifier : bool) (empirical : Restriction) : Restriction :=
  if disqualifier then restriction_join empirical RDeny else empirical.

Inductive Rule := EmpiricalRecommendation | ExactDisqualifier | MandatoryAbsent | Contradiction.

#[global] Instance Rule_eq_dec : EqDecision Rule.
Proof. solve_decision. Defined.

Record DecisionInputs := mkDecisionInputs {
  di_empirical : Restriction;
  di_exact_disqualifier : bool;
  di_mandatory_absent : bool;
  di_contradiction : bool;
}.

Record ConsequenceDecision := mkConsequenceDecision { dc_consequence : Consequence; dc_rules : list Rule }.

#[global] Instance ConsequenceDecision_eq_dec : EqDecision ConsequenceDecision.
Proof. solve_decision. Defined.

Definition decide_consequence (inputs : DecisionInputs) : ConsequenceDecision :=
  let restriction := reduce_reference (di_exact_disqualifier inputs) (di_empirical inputs) in
  let rules := [EmpiricalRecommendation] in
  let rules := if di_exact_disqualifier inputs then rules ++ [ExactDisqualifier] else rules in
  let '(restriction, rules) :=
    if di_mandatory_absent inputs
    then (restriction_join restriction RHoldEffect, rules ++ [MandatoryAbsent]) else (restriction, rules) in
  let '(restriction, rules) :=
    if di_contradiction inputs
    then (restriction_join restriction RHoldEffect, rules ++ [Contradiction]) else (restriction, rules) in
  mkConsequenceDecision (consequence_from restriction) rules.

(** ** The chain *)

#[global] Instance restriction_le_preorder : PreOrder restriction_le.
Proof. split; [intros r|intros r1 r2 r3]; unfold restriction_le; lia. Qed.
#[global] Instance restriction_le_antisymm : AntiSymm (=) restriction_le.
Proof. intros [] []; unfold restriction_le; simpl; lia || done. Qed.

(** [join] is the least upper bound. *)
Lemma restriction_join_lub a b c :
  restriction_le (restriction_join a b) c ↔ restriction_le a c ∧ restriction_le b c.
Proof. destruct a, b, c; unfold restriction_le, restriction_join; simpl; lia. Qed.

(** What a rule requires at least. *)
Definition rule_floor (inputs : DecisionInputs) (rule : Rule) : Restriction :=
  match rule with
  | EmpiricalRecommendation => di_empirical inputs
  | ExactDisqualifier => RDeny
  | MandatoryAbsent | Contradiction => RHoldEffect
  end.

(** When a rule applies. *)
Definition rule_applies (inputs : DecisionInputs) (rule : Rule) : Prop :=
  match rule with
  | EmpiricalRecommendation => True
  | ExactDisqualifier => di_exact_disqualifier inputs = true
  | MandatoryAbsent => di_mandatory_absent inputs = true
  | Contradiction => di_contradiction inputs = true
  end.

Lemma consequence_decode_encode c : consequence_decode (consequence_encode c) = Ok c.
Proof. by destruct c. Qed.

Lemma consequence_discriminant_lookup n c :
  ALL_CONSEQUENCES !! n = Some c → Z.of_nat n = consequence_discriminant c.
Proof.
  unfold ALL_CONSEQUENCES. intros Hn. do 6 (destruct n as [|n]; [by injection Hn as <-|]). done.
Qed.

(** ** Properties *)

(** The decision is the least restriction that meets the floor of
    every rule that applies, it lists exactly those rules, and it is never the
    reset, which no vote and no missing evidence can bring about. *)
Theorem decision_is_least inputs :
  let d := decide_consequence inputs in
  (∀ r, rule_applies inputs r ↔ r ∈ dc_rules d) ∧
  ∃ restriction, dc_consequence d = consequence_from restriction ∧
    cr_authority_floor (consequence_requires (dc_consequence d)) = restriction ∧
    cr_functional_restart_required (consequence_requires (dc_consequence d)) = false ∧
    ∀ bound, restriction_le restriction bound ↔ ∀ r, rule_applies inputs r → restriction_le (rule_floor inputs r) bound.
Proof.
  destruct inputs as [empirical disqualifier absent contradiction]. simpl. split.
  - intros []; destruct disqualifier, absent, contradiction; simpl;
      rewrite ?elem_of_cons, ?elem_of_nil; naive_solver.
  - assert (∀ r, cr_authority_floor (consequence_requires (consequence_from r)) = r) as Hfloor by (by intros []).
    assert (∀ r, cr_functional_restart_required (consequence_requires (consequence_from r)) = false) as Hrestart
      by (by intros []).
    unfold decide_consequence, reduce_reference. destruct disqualifier, absent, contradiction; simpl;
      (eexists; split; [reflexivity|]; split; [apply Hfloor|]; split; [apply Hrestart|]);
      intros bound; rewrite ?restriction_join_lub; split.
    all: try (intros Hb []; simpl; naive_solver).
    all: intros Hb; pose proof (Hb EmpiricalRecommendation); pose proof (Hb ExactDisqualifier);
      pose proof (Hb MandatoryAbsent); pose proof (Hb Contradiction); simpl in *; naive_solver.
Qed.

(** Decoding inverts encoding, and nothing else is decoded: a byte
    string is accepted exactly when it is the encoding of the consequence. *)
Theorem consequence_codec_exact bs :
  consequence_decode bs ≠ Panic ∧ ∀ c, consequence_decode bs = Ok c ↔ bs = consequence_encode c.
Proof.
  split.
  - unfold consequence_decode. munfold_goal. destruct (Z.eqb_spec (len bs) 2) as [Hl|]; [|done].
    destruct bs as [|v [|t [|]]]; try (unfold len in Hl; simpl in Hl; lia). simpl.
    destruct (negb _); [done|]. by destruct (ALL_CONSEQUENCES !! _).
  - intros c. split; [|intros ->; apply consequence_decode_encode].
    unfold consequence_decode. munfold_goal. destruct (Z.eqb_spec (len bs) 2) as [Hl|]; [|done].
    destruct bs as [|v [|t [|]]]; try (unfold len in Hl; simpl in Hl; lia). simpl.
    destruct (Z.eqb_spec (byte_val v) CONSEQUENCE_ENCODING_V1) as [Hv|]; [|done]. simpl.
    destruct (ALL_CONSEQUENCES !! _) as [c'|] eqn:Hc; [|done]. intros [= ->].
    apply consequence_discriminant_lookup in Hc. pose proof (byte_val_range t).
    rewrite Z2Nat.id in Hc by lia. unfold consequence_encode. by rewrite <-Hv, <-Hc, !byte_of_val.
Qed.
