(* ===== verification/Quotient.v ===== *)
(** * Quotient replay

    [crates/fa-reference/src/trace_independence/quotient.rs]: a closed logical
    machine whose occurrences execute typed instructions under registered
    operations, the canonical order of a schedule under the independence
    relation, and the admission estimate of an exhaustive comparison.

    Occurrences are addressed by their position, as in the code; a position
    outside of a slice is a panic. *)

From Stdlib Require Import Strings.Byte.
From stdpp Require Import base tactics numbers list gmap sorting.
From S2P Require Import Prelude Bytes Judgment FullInput Traces TraceIndependence Consequence.

Local Open Scope Z_scope.

(** ** Model: occurrences and states *)

Definition MAX_QUOTIENT_OPERATIONS : Z := 8.
Definition MAX_QUOTIENT_SCHEDULES : Z := 40320.
Definition MAX_QUOTIENT_CELLS : Z := 32.
Definition MAX_QUOTIENT_RETAINED_BYTES : Z := 64 * 1048576.
Definition TRACE_HEADER : bytes := ascii_bytes "FAQTRC01".

(** [ReplayInstruction::Read] is [IRead], and so on. *)
Inductive ReplayInstruction :=
  | IRead (domain : DomainId)
  | IWrite (domain : DomainId) (value : option Z)
  | ICopyAdd (source target : DomainId) (addend : Z)
  | ICheck (domain : DomainId) (expected : option Z)
  | IConsume (resource : DomainId) (units : Z)
  | IDraw (stream : DomainId)
  | IAuthority (enabled : bool)
  | IOrdered (domain : DomainId)
  | IExternal (domain : DomainId).

Record ReplayOccurrence := mkReplayOccurrence {
  oc_id : Z;
  oc_operation : RegisteredTraceOperation;
  oc_instruction : ReplayInstruction;
}.

(** The instruction stays within what its operation declares. *)
Definition instruction_covered (declared : RegisteredTraceOperation) (instruction : ReplayInstruction) : bool :=
  match instruction with
  | IRead domain => bool_decide (domain ∈ to_positive_read_domains declared)
  | IWrite domain _ => bool_decide (domain ∈ to_write_domains declared)
  | ICopyAdd source target _ =>
    bool_decide (source ∈ to_positive_read_domains declared) && bool_decide (target ∈ to_write_domains declared)
  | ICheck domain expected =>
    match expected with
    | Some _ => bool_decide (domain ∈ to_positive_read_domains declared)
    | None => bool_decide (domain ∈ to_negative_read_domains declared)
    end
  | IConsume resource _ => bool_decide (resource ∈ to_consuming_resources declared)
  | IDraw stream => bool_decide (stream ∈ to_rng_streams declared)
  | IAuthority _ => to_authority_transition declared
  | IOrdered domain => to_ordered_effect declared && bool_decide (domain ∈ to_positive_read_domains declared)
  | IExternal domain => to_external_effect declared && bool_decide (domain ∈ to_positive_read_domains declared)
  end.

Definition occurrence_new (id : Z) (operation : RegisteredTraceOperation) (instruction : ReplayInstruction)
    : res Error ReplayOccurrence :=
  refuse_if (id =? 0) InvalidInput;;
  refuse_if (negb (instruction_covered operation instruction)) Binding;;
  Ok (mkReplayOccurrence id operation instruction).

Record ReplayState := mkReplayState { qs_cells : gmap Z Z; qs_authority_enabled : bool }.

Definition replay_state_new (cells : gmap Z Z) (authority_enabled : bool) : res Error ReplayState :=
  refuse_if (MAX_QUOTIENT_CELLS <? Z.of_nat (size cells)) Limit;;
  Ok (mkReplayState cells authority_enabled).

Inductive ReplayValue :=
  | VObserved (value : option Z)
  | VWritten
  | VConsumed (remaining : Z)
  | VDrawn (value : Z)
  | VDecision (decision : ConsequenceDecision)
  | VRejected (error : Error).

Record OccurrenceResult := mkOccurrenceResult { or_occurrence : Z; or_value : ReplayValue }.

Record OrderedObservation := mkOrderedObservation {
  oo_occurrence : Z;
  oo_domain : DomainId;
  oo_observed : option Z;
  oo_external : bool;
  oo_admitted : bool;
}.

Record LogicalReplay := mkLogicalReplay {
  lr_state : ReplayState;
  lr_results : list OccurrenceResult;
  lr_ordered : list OrderedObservation;
}.

#[global] Instance ReplayState_eq_dec : EqDecision ReplayState.
Proof. solve_decision. Defined.
#[global] Instance ReplayValue_eq_dec : EqDecision ReplayValue.
Proof. solve_decision. Defined.
#[global] Instance OccurrenceResult_eq_dec : EqDecision OccurrenceResult.
Proof. solve_decision. Defined.
#[global] Instance OrderedObservation_eq_dec : EqDecision OrderedObservation.
Proof. solve_decision. Defined.
#[global] Instance LogicalReplay_eq_dec : EqDecision LogicalReplay.
Proof. solve_decision. Defined.

(** ** Model: execution *)

Definition RNG_MULTIPLIER : Z := 6364136223846793005.
Definition RNG_INCREMENT : Z := 1442695040888963407.
(** [previous.wrapping_mul(..).wrapping_add(..)] *)
Definition draw (previous : Z) : Z := ((previous * RNG_MULTIPLIER) mod 2 ^ 64 + RNG_INCREMENT) mod 2 ^ 64.

Definition set_cell (domain : DomainId) (value : Z) (s : ReplayState) : ReplayState :=
  mkReplayState (<[domain := value]> (qs_cells s)) (qs_authority_enabled s).
Definition remove_cell (domain : DomainId) (s : ReplayState) : ReplayState :=
  mkReplayState (delete domain (qs_cells s)) (qs_authority_enabled s).

Definition is_none {A} (o : option A) : bool := match o with Some _ => false | None => true end.

(** The arms of the match that leave the ordered log alone: the value and the
    state after it. *)
Definition execute_instruction (instruction : ReplayInstruction) (s : ReplayState) : ReplayValue * ReplayState :=
  match instruction with
  | IRead domain => (VObserved (qs_cells s !! domain), s)
  | IWrite domain value =>
    (VWritten, match value with Some value => set_cell domain value s | None => remove_cell domain s end)
  | ICopyAdd source target addend =>
    match qs_cells s !! source with
    | None => (VRejected Missing, s)
    | Some value =>
      match u64_checked_add value addend with
      | None => (VRejected Overflow, s)
      | Some value => (VWritten, set_cell target value s)
      end
    end
  | ICheck domain expected =>
    let actual := qs_cells s !! domain in
    let mandatory_absent := is_none actual && negb (is_none expected) in
    (VDecision (decide_consequence (mkDecisionInputs RContinue
       (bool_decide (actual ≠ expected) && negb mandatory_absent) mandatory_absent false)), s)
  | IConsume resource units =>
    match qs_cells s !! resource with
    | None => (VRejected Missing, s)
    | Some available =>
      match u64_checked_sub available units with
      | None => (VRejected Limit, s)
      | Some remaining => (VConsumed remaining, set_cell resource remaining s)
      end
    end
  | IDraw stream =>
    match qs_cells s !! stream with
    | None => (VRejected Missing, s)
    | Some previous => (VDrawn (draw previous), set_cell stream (draw previous) s)
    end
  | IAuthority enabled => (VWritten, mkReplayState (qs_cells s) enabled)
  | IOrdered domain => (VObserved (qs_cells s !! domain), s)
  | IExternal domain =>
    (VDecision (decide_consequence (mkDecisionInputs
       (if qs_authority_enabled s then RContinue else RHoldEffect) false (is_none (qs_cells s !! domain)) false)), s)
  end.

(** The observation an ordered or external instruction appends. *)
Definition ordered_observation (id : Z) (instruction : ReplayInstruction) (s : ReplayState) : list OrderedObservation :=
  match instruction with
  | IOrdered domain => [mkOrderedObservation id domain (qs_cells s !! domain) false true]
  | IExternal domain =>
    let observed := qs_cells s !! domain in
    [mkOrderedObservation id domain observed true (qs_authority_enabled s && negb (is_none observed))]
  | _ => []
  end.

(** The body of the loop of [execute]. *)
Definition execute_one (result : LogicalReplay) (occurrence : ReplayOccurrence) : LogicalReplay :=
  let '(value, s) := execute_instruction (oc_instruction occurrence) (lr_state result) in
  mkLogicalReplay s (lr_results result ++ [mkOccurrenceResult (oc_id occurrence) value])
    (lr_ordered result ++ ordered_observation (oc_id occurrence) (oc_instruction occurrence) (lr_state result)).

Fixpoint execute_loop {E} (occurrences : list ReplayOccurrence) (order : list nat) (result : LogicalReplay)
    : res E LogicalReplay :=
  match order with
  | [] => Ok result
  | index :: order =>
    occurrence ← expect (occurrences !! index);
    execute_loop occurrences order (execute_one result occurrence)
  end.

(** [results.sort_by_key(|row| row.occurrence)], a stable sort. *)
Definition result_le (a b : OccurrenceResult) : Prop := or_occurrence a ≤ or_occurrence b.
#[global] Instance result_le_dec : RelDecision result_le.
Proof. intros a b. unfold result_le. apply _. Defined.
Definition sort_results (results : list OccurrenceResult) : list OccurrenceResult := merge_sort result_le results.

Definition execute {E} (occurrences : list ReplayOccurrence) (initial : ReplayState) (order : list nat)
    : res E LogicalReplay :=
  result ← execute_loop occurrences order (mkLogicalReplay initial [] []);
  Ok (mkLogicalReplay (lr_state result) (sort_results (lr_results result)) (lr_ordered result)).

(** ** Model: schedules and their canonical order *)

Record TraceSchedule := mkTraceSchedule { sc_occurrences : list Z }.

Definition schedule_encode (self : TraceSchedule) : bytes :=
  TRACE_HEADER ++ be_bytes 8 (len (sc_occurrences self)) ++ concat (be_bytes 8 <$> sc_occurrences self).

Fixpoint validate_occurrences_loop (occurrences : list ReplayOccurrence) (seen : gset Z) : res Error unit :=
  match occurrences with
  | [] => Ok tt
  | occurrence :: occurrences =>
    refuse_if (bool_decide (oc_id occurrence ∈ seen)) Duplicate;;
    validate_occurrences_loop occurrences ({[oc_id occurrence]} ∪ seen)
  end.

Definition validate_occurrences (occurrences : list ReplayOccurrence) : res Error unit :=
  refuse_if (MAX_QUOTIENT_OPERATIONS <? len occurrences) Limit;;
  validate_occurrences_loop occurrences ∅.

(** [iter().position(..)] *)
Fixpoint position_of (occurrences : list ReplayOccurrence) (id : Z) : option nat :=
  match occurrences with
  | [] => None
  | occurrence :: occurrences =>
    if oc_id occurrence =? id then Some 0%nat else S <$> position_of occurrences id
  end.

Fixpoint validate_schedule_loop (occurrences : list ReplayOccurrence) (schedule : list Z) (seen : gset Z)
    (order : list nat) : res Error (list nat) :=
  match schedule with
  | [] => Ok order
  | occurrence_id :: schedule =>
    refuse_if (bool_decide (occurrence_id ∈ seen)) Duplicate;;
    index ← ok_or (position_of occurrences occurrence_id) Binding;
    validate_schedule_loop occurrences schedule ({[occurrence_id]} ∪ seen) (order ++ [index])
  end.

Definition validate_schedule (occurrences : list ReplayOccurrence) (schedule : list Z) : res Error (list nat) :=
  validate_occurrences occurrences;;
  refuse_if (negb (len schedule =? len occurrences)) Binding;;
  validate_schedule_loop occurrences schedule ∅ [].

(** [[[bool; 8]; 8]] *)
Abbreviation Matrix := (list (list bool)).

Definition empty_matrix : Matrix := replicate 8 (replicate 8 false).
Definition matrix_get {E} (matrix : Matrix) (i j : nat) : res E bool :=
  row ← expect (matrix !! i); expect (row !! j).
Definition matrix_set {E} (matrix : Matrix) (i j : nat) (value : bool) : res E Matrix :=
  row ← expect (matrix !! i); _ ← expect (row !! j); Ok (<[i := <[j := value]> row]> matrix).

(** The two nested loops of [relation], over the position pairs. *)
Fixpoint relation_loop {E} (registry : TraceRelationRegistry) (occurrences : list ReplayOccurrence)
    (pairs : list (nat * nat)) (matrix : Matrix) (evaluated_pairs independent_pairs : Z)
    : res E (Matrix * Z * Z) :=
  match pairs with
  | [] => Ok (matrix, evaluated_pairs, independent_pairs)
  | (lhs, rhs) :: pairs =>
    a ← expect (occurrences !! lhs);
    b ← expect (occurrences !! rhs);
    let commutes := trace_independent registry (oc_operation a) (oc_operation b) in
    matrix ← matrix_set matrix lhs rhs commutes;
    matrix ← matrix_set matrix rhs lhs commutes;
    relation_loop registry occurrences pairs matrix (evaluated_pairs + 1)
      (independent_pairs + (if commutes then 1 else 0))
  end.

Definition relation {E} (registry : TraceRelationRegistry) (occurrences : list ReplayOccurrence)
    : res E (Matrix * RelationEvaluation) :=
  '(matrix, evaluated_pairs, independent_pairs) ←
    relation_loop registry occurrences (position_pairs (seq 0 (length occurrences))) empty_matrix 0 0;
  ordered_pairs ← u64_sub evaluated_pairs independent_pairs;
  Ok (matrix, mkRelationEvaluation evaluated_pairs independent_pairs ordered_pairs).

(** [predecessors[right] |= 1u16 << left] for every dependent pair. *)
Fixpoint predecessors_loop {E} (matrix : Matrix) (pairs : list (nat * nat)) (predecessors : list Z) (checks : Z)
    : res E (list Z * Z) :=
  match pairs with
  | [] => Ok (predecessors, checks)
  | (lhs, rhs) :: pairs =>
    commutes ← matrix_get matrix lhs rhs;
    predecessors ← (if commutes : bool then Ok predecessors
                    else mask ← expect (predecessors !! rhs);
                         Ok (<[rhs := Z.lor mask (Z.shiftl 1 (Z.of_nat lhs))]> predecessors));
    predecessors_loop matrix pairs predecessors (checks + 1)
  end.

Definition u16_not (z : Z) : Z := Z.lxor z 65535.

(** The scan for the next occurrence: not done, and all predecessors done. *)
Fixpoint pick_choice {E} (predecessors : list Z) (done : Z) (choices : list nat) (checks : Z)
    : res E (option nat * Z) :=
  match choices with
  | [] => Ok (None, checks)
  | index :: choices =>
    let bit := Z.shiftl 1 (Z.of_nat index) in
    eligible ← (if Z.land done bit =? 0
                then mask ← expect (predecessors !! index); Ok (Z.land mask (u16_not done) =? 0)
                else Ok false);
    if eligible : bool then Ok (Some index, checks + 1)
    else pick_choice predecessors done choices (checks + 1)
  end.

Fixpoint canonical_loop {E} (steps : nat) (predecessors : list Z) (choices : list nat) (done : Z)
    (canonical : list nat) (checks : Z) : res E (list nat * Z) :=
  match steps with
  | O => Ok (canonical, checks)
  | S steps =>
    '(picked, checks) ← pick_choice predecessors done choices checks;
    match picked with
    | Some index =>
      canonical_loop steps predecessors choices (Z.lor done (Z.shiftl 1 (Z.of_nat index))) (canonical ++ [index]) checks
    | None => canonical_loop steps predecessors choices done canonical checks
    end
  end.

(** The identity at a position of the slice itself. *)
Definition id_at (occurrences : list ReplayOccurrence) (index : nat) : Z := default 0 (oc_id <$> occurrences !! index).
Definition index_le (occurrences : list ReplayOccurrence) (a b : nat) : Prop := id_at occurrences a ≤ id_at occurrences b.
#[global] Instance index_le_dec occurrences : RelDecision (index_le occurrences).
Proof. intros a b. unfold index_le. apply _. Defined.

(** [(0..occurrences.len()).collect()], then [sort_by_key] by the identity:
    every position is in range. *)
Definition sorted_positions (occurrences : list ReplayOccurrence) : list nat :=
  merge_sort (index_le occurrences) (seq 0 (length occurrences)).

Definition canonical_order {E} (occurrences : list ReplayOccurrence) (matrix : Matrix) (order : list nat) (checks : Z)
    : res E (list nat * Z) :=
  '(predecessors, checks) ← predecessors_loop matrix (position_pairs order) (replicate 8 0) checks;
  '(canonical, checks) ← canonical_loop (length order) predecessors (sorted_positions occurrences) 0 [] checks;
  (* [debug_assert_eq!] *)
  if (length canonical =? length order)%nat then Ok (canonical, checks) else Panic.

Fixpoint trace_ids {E} (occurrences : list ReplayOccurrence) (order : list nat) : res E (list Z) :=
  match order with
  | [] => Ok []
  | index :: order =>
    occurrence ← expect (occurrences !! index);
    ids ← trace_ids occurrences order;
    Ok (oc_id occurrence :: ids)
  end.
Definition trace {E} (occurrences : list ReplayOccurrence) (order : list nat) : res E TraceSchedule :=
  ids ← trace_ids occurrences order; Ok (mkTraceSchedule ids).

Definition canonicalize (registry : TraceRelationRegistry) (occurrences : list ReplayOccurrence) (schedule : list Z)
    : res Error TraceSchedule :=
  order ← validate_schedule occurrences schedule;
  '(matrix, _) ← relation registry occurrences;
  '(canonical, _) ← canonical_order occurrences matrix order 0;
  trace occurrences canonical.

(** ** Model: admission *)

(** The budget of [verify]; [ReplayBudget] of the cooperative replay is
    another type. *)
Record QuotientBudget := mkQuotientBudget {
  qb_schedules : Z;
  qb_replay_steps : Z;
  qb_canonical_checks : Z;
  qb_comparison_entries : Z;
  qb_retained_bytes : Z;
}.

Definition default_budget : QuotientBudget :=
  mkQuotientBudget MAX_QUOTIENT_SCHEDULES (2 * MAX_QUOTIENT_SCHEDULES * MAX_QUOTIENT_OPERATIONS)
    (MAX_QUOTIENT_SCHEDULES * 92 + 28) (MAX_QUOTIENT_SCHEDULES * 49) MAX_QUOTIENT_RETAINED_BYTES.

Record ReplayAdmission := mkReplayAdmission {
  ra_occurrences : Z;
  ra_maximum_cells : Z;
  ra_schedule_bytes : Z;
  ra_required : QuotientBudget;
}.

Definition budget_fits (required limit : QuotientBudget) : bool :=
  (qb_schedules required <=? qb_schedules limit) && (qb_replay_steps required <=? qb_replay_steps limit)
  && (qb_canonical_checks required <=? qb_canonical_checks limit)
  && (qb_comparison_entries required <=? qb_comparison_entries limit)
  && (qb_retained_bytes required <=? qb_retained_bytes limit).

(** The domains an instruction names. *)
Definition instruction_domains (instruction : ReplayInstruction) : gset Z :=
  match instruction with
  | IRead domain | IWrite domain _ | ICheck domain _ | IOrdered domain | IExternal domain => {[domain]}
  | ICopyAdd source target _ => {[source; target]}
  | IConsume resource _ => {[resource]}
  | IDraw stream => {[stream]}
  | IAuthority _ => ∅
  end.

Definition program_domains (occurrences : list ReplayOccurrence) (initial : ReplayState) : gset Z :=
  foldl (λ domains occurrence, domains ∪ instruction_domains (oc_instruction occurrence))
    (dom (qs_cells initial)) occurrences.

(** [(1..=n).try_fold(1, checked_mul)] *)
Fixpoint u64_try_product (acc : Z) (l : list Z) : res Error Z :=
  match l with
  | [] => Ok acc
  | x :: l => acc ← ok_or (u64_checked_mul acc x) Overflow; u64_try_product acc l
  end.

(** Unchecked [usize] arithmetic on nonnegative operands: an expression of
    sums and products panics exactly when its value does not fit, the
    intermediate values being no larger. *)
Definition usize_expr {E} (z : Z) : res E Z := if z <=? U64_MAX then Ok z else Panic.

Definition estimate (occurrences : list ReplayOccurrence) (initial : ReplayState) : res Error ReplayAdmission :=
  validate_occurrences occurrences;;
  let n := len occurrences in
  let domains := Z.of_nat (size (program_domains occurrences initial)) in
  refuse_if (MAX_QUOTIENT_CELLS <? domains) Limit;;
  schedules ← u64_try_product 1 (Z.of_nat <$> seq 1 (length occurrences));
  product ← usize_expr (n * u64_saturating_sub n 1);
  let pairs := product / 2 in
  schedule_bytes ← usize_expr (16 + 8 * n);
  result_bytes ← usize_expr (32 + 16 * domains + 64 * n);
  replay_steps ← usize_expr (2 * schedules * n);
  canonical_checks ← usize_expr (pairs + schedules * (pairs + n * n));
  comparison_entries ← usize_expr (schedules * (domains + 2 * n + 1));
  retained_bytes ← usize_expr (schedules * (64 + schedule_bytes + result_bytes) + 2 * result_bytes + 512);
  let required := mkQuotientBudget schedules replay_steps canonical_checks comparison_entries retained_bytes in
  refuse_if (negb (budget_fits required default_budget)) Limit;;
  Ok (mkReplayAdmission n domains schedule_bytes required).

(** [replay] of the quotient *)
Definition quotient_replay (occurrences : list ReplayOccurrence) (initial : ReplayState) (schedule : list Z)
    : res Error LogicalReplay :=
  estimate occurrences initial;;
  order ← validate_schedule occurrences schedule;
  execute occurrences initial order.

(** ** Footprints: independent instructions commute *)

(** What [occurrence_new] guarantees. *)
Definition occurrence_valid (o : ReplayOccurrence) : Prop :=
  oc_id o ≠ 0 ∧ instruction_covered (oc_operation o) (oc_instruction o) = true.

Lemma occurrence_new_ok id operation instruction o :
  occurrence_new id operation instruction = Ok o ↔
  o = mkReplayOccurrence id operation instruction ∧ occurrence_valid o.
Proof.
  unfold occurrence_new, occurrence_valid. munfold_goal. destruct (Z.eqb_spec id 0); simpl.
  { split; [done|]. by intros (-> & ? & _). }
  destruct (instruction_covered operation instruction) eqn:E; simpl.
  - split; [by intros [= <-]|by intros [-> _]].
  - split; [done|]. intros (-> & _ & ?). simpl in *. congruence.
Qed.

(** Nothing but cells is involved. *)
Definition plain (operation : RegisteredTraceOperation) : Prop :=
  to_authority_transition operation = false ∧ to_ordered_effect operation = false ∧
  to_external_effect operation = false.

Section footprint.
Context (operation : RegisteredTraceOperation) (instruction : ReplayInstruction).
Context (Hplain : plain operation) (Hcov : instruction_covered operation instruction = true).

Abbreviation exec := (execute_instruction instruction).

Ltac coverage :=
  destruct Hplain as (Ha & Ho & He); simpl in Hcov;
  rewrite ?Ha, ?Ho, ?He, ?andb_true_iff, ?bool_decide_eq_true in Hcov; unfold mutated, observed in *.

(** Only mutated domains change. *)
Lemma execute_frame s d : d ∉ mutated operation → qs_cells (exec s).2 !! d = qs_cells s !! d.
Proof.
  intros Hd. destruct instruction as [dom|dom [v|]|src tgt add|dom [v|]|res units|stream|en|dom|dom]; coverage;
    simpl; try done; repeat case_match; simpl; try done;
    try (apply lookup_insert_ne; set_solver); apply lookup_delete_ne; set_solver.
Qed.

Lemma execute_authority s : qs_authority_enabled (exec s).2 = qs_authority_enabled s.
Proof.
  destruct instruction as [dom|dom [v|]|src tgt add|dom [v|]|res units|stream|en|dom|dom]; coverage;
    simpl; try done; repeat case_match; done.
Qed.

(** The value and the mutated domains depend on the footprint only. *)
Lemma execute_local s s' :
  (∀ d, d ∈ mutated operation ∪ observed operation → qs_cells s !! d = qs_cells s' !! d) →
  (exec s).1 = (exec s').1 ∧ ∀ d, d ∈ mutated operation → qs_cells (exec s).2 !! d = qs_cells (exec s').2 !! d.
Proof.
  intros Hag.
  assert (∀ d, d ∈ mutated operation → qs_cells s !! d = qs_cells s' !! d) as Hmut by (intros d ?; apply Hag; set_solver).
  assert (∀ dom v d, d ∈ mutated operation → <[dom:=v]> (qs_cells s) !! d = <[dom:=v]> (qs_cells s') !! d) as Hins.
  { intros dom v d ?. destruct (decide (d = dom)) as [->|]; [by rewrite !lookup_insert_eq|].
    rewrite !lookup_insert_ne by done. auto. }
  assert (∀ dom d, d ∈ mutated operation → delete dom (qs_cells s) !! d = delete dom (qs_cells s') !! d) as Hdel.
  { intros dom d ?. destruct (decide (d = dom)) as [->|]; [by rewrite !lookup_delete_eq|].
    rewrite !lookup_delete_ne by done. auto. }
  destruct instruction as [dom|dom [v|]|src tgt add|dom [v|]|res units|stream|en|dom|dom]; coverage; simpl.
  1: rewrite (Hag dom) by set_solver.
  4: rewrite (Hag src) by set_solver.
  5, 6: rewrite (Hag dom) by set_solver.
  7: rewrite (Hag res) by set_solver.
  8: rewrite (Hag stream) by set_solver.
  all: repeat case_match; simpl; auto; naive_solver.
Qed.

Lemma execute_unordered id s : ordered_observation id instruction s = [].
Proof. destruct instruction; coverage; done || naive_solver. Qed.
End footprint.

(** Replays that differ in the order of their result rows only. *)
Record replay_equiv (r r' : LogicalReplay) : Prop := {
  rq_state : lr_state r = lr_state r';
  rq_results : lr_results r ≡ₚ lr_results r';
  rq_ordered : lr_ordered r = lr_ordered r';
}.

#[global] Instance replay_equiv_equivalence : Equivalence replay_equiv.
Proof.
  split; [intros r; by split|intros r r' []; by split|].
  intros r1 r2 r3 [H1 H2 H3] [H4 H5 H6]. split; [by rewrite H1|by rewrite H2|by rewrite H3].
Qed.

#[global] Instance execute_one_proper : Proper (replay_equiv ==> (=) ==> replay_equiv) execute_one.
Proof.
  intros r r' [Hs Hr Ho] o _ <-. unfold execute_one. rewrite Hs.
  destruct (execute_instruction _ _). split; simpl; [done|by rewrite Hr|by rewrite Ho].
Qed.

Lemma execute_one_state r o : lr_state (execute_one r o) = (execute_instruction (oc_instruction o) (lr_state r)).2.
Proof. unfold execute_one. by destruct (execute_instruction _ _). Qed.
Lemma execute_one_results r o :
  lr_results (execute_one r o) =
  lr_results r ++ [mkOccurrenceResult (oc_id o) (execute_instruction (oc_instruction o) (lr_state r)).1].
Proof. unfold execute_one. by destruct (execute_instruction _ _). Qed.
Lemma execute_one_ordered r o :
  lr_ordered (execute_one r o) = lr_ordered r ++ ordered_observation (oc_id o) (oc_instruction o) (lr_state r).
Proof. unfold execute_one. by destruct (execute_instruction _ _). Qed.

Lemma replay_state_ext s s' :
  qs_authority_enabled s = qs_authority_enabled s' → (∀ d, qs_cells s !! d = qs_cells s' !! d) → s = s'.
Proof. destruct s, s'. simpl. intros -> Hc. f_equal. by apply map_eq. Qed.

(** What an operation sees is not changed by one independent of it. *)
Lemma execute_other (a b : ReplayOccurrence) s :
  plain (oc_operation a) → occurrence_valid a →
  mutated (oc_operation a) ## mutated (oc_operation b) ∪ observed (oc_operation b) →
  ∀ d, d ∈ mutated (oc_operation b) ∪ observed (oc_operation b) →
  qs_cells (execute_instruction (oc_instruction a) s).2 !! d = qs_cells s !! d.
Proof. intros Hp [_ Hc] Hdis d Hd. apply (execute_frame (oc_operation a)); [done..|]. set_solver. Qed.

Lemma execute_commute registry a b r :
  occurrence_valid a → occurrence_valid b → independent_ops registry (oc_operation a) (oc_operation b) →
  replay_equiv (execute_one (execute_one r a) b) (execute_one (execute_one r b) a).
Proof.
  intros Ha Hb [_ _ [Hau1 Hau2] [Ho1 Ho2] [He1 He2] Hab Hba].
  assert (plain (oc_operation a)) as Hpa by done. assert (plain (oc_operation b)) as Hpb by done.
  pose proof (execute_other a b (lr_state r) Hpa Ha Hab) as Hfa.
  pose proof (execute_other b a (lr_state r) Hpb Hb Hba) as Hfb.
  destruct (execute_local _ _ Hpb (proj2 Hb) _ _ Hfa) as [Hvb Hcb].
  destruct (execute_local _ _ Hpa (proj2 Ha) _ _ Hfb) as [Hva Hca].
  pose proof (execute_frame _ _ Hpa (proj2 Ha)) as Fa. pose proof (execute_frame _ _ Hpb (proj2 Hb)) as Fb.
  pose proof (execute_authority _ _ Hpa (proj2 Ha)) as Aa. pose proof (execute_authority _ _ Hpb (proj2 Hb)) as Ab.
  pose proof (execute_unordered _ _ Hpa (proj2 Ha)) as Ua. pose proof (execute_unordered _ _ Hpb (proj2 Hb)) as Ub.
  split.
  - rewrite !execute_one_state. apply replay_state_ext; [by rewrite Aa, Ab, Ab, Aa|].
    intros d. destruct (decide (d ∈ mutated (oc_operation b))) as [Hd|Hd].
    + rewrite Hcb by done. symmetry. apply Fa. set_solver.
    + rewrite Fb by done. destruct (decide (d ∈ mutated (oc_operation a))) as [Hd'|Hd']; [by rewrite Hca|].
      by rewrite !Fa, Fb.
  - rewrite !execute_one_results, !execute_one_state, Hvb, Hva, <-!app_assoc.
    apply Permutation_app_head. simpl. apply perm_swap.
  - by rewrite !execute_one_ordered, !Ua, !Ub.
Qed.
