(* ===== verification/Canonical.v ===== *)
(** * Canonical orders

    The proofs about [Quotient.v]: the executions of a program under two orders
    agree when independence justifies the difference, [canonical_order] is the
    greedy schedule, it reorders independent occurrences only, and it is the
    least order that does. *)

From stdpp Require Import base tactics numbers list gmap sorting.
From S2P Require Import Prelude Bytes Judgment FullInput Traces TraceIndependence Consequence Quotient.

Local Open Scope Z_scope.

(** ** Programs *)

(** What [validate_occurrences] and the constructor of occurrences establish. *)
Record program_valid (occurrences : list ReplayOccurrence) : Prop := {
  pv_valid : Forall occurrence_valid occurrences;
  pv_distinct : NoDup (oc_id <$> occurrences);
  pv_size : (length occurrences ≤ 8)%nat;
}.

Lemma validate_occurrences_loop_ok occurrences seen :
  validate_occurrences_loop occurrences seen =
    if decide (NoDup (oc_id <$> occurrences) ∧ Forall (λ o, oc_id o ∉ seen) occurrences) then Ok tt else Err Duplicate.
Proof.
  revert seen. induction occurrences as [|o occurrences IH]; intros seen.
  { by rewrite decide_True by (split; constructor). }
  cbn [validate_occurrences_loop]. rewrite fmap_cons. munfold_goal.
  destruct (bool_decide_reflect (oc_id o ∈ seen)) as [Hin|Hin].
  { rewrite decide_False; [done|]. by intros [_ [? _]%Forall_cons]. }
  rewrite IH. apply decide_ext. rewrite NoDup_cons, Forall_cons, list_elem_of_fmap, !Forall_forall.
  setoid_rewrite not_elem_of_union. setoid_rewrite not_elem_of_singleton. split.
  - intros (Hnd & Hf). split_and!; try done; [|intros o' Ho; by apply Hf].
    intros (o' & Heq & Ho). by destruct (Hf o' Ho).
  - intros ((Hno & Hnd) & _ & Hf). split; [done|]. intros o' Ho. split; [|by apply Hf].
    intros Heq. apply Hno. eauto.
Qed.

Lemma validate_occurrences_eq occurrences :
  validate_occurrences occurrences =
    if decide (len occurrences ≤ MAX_QUOTIENT_OPERATIONS)
    then if decide (NoDup (oc_id <$> occurrences)) then Ok tt else Err Duplicate
    else Err Limit.
Proof.
  unfold validate_occurrences. munfold_goal. rewrite validate_occurrences_loop_ok.
  destruct (decide (len occurrences ≤ MAX_QUOTIENT_OPERATIONS)) as [Hl|Hl];
    destruct (Z.ltb_spec MAX_QUOTIENT_OPERATIONS (len occurrences)); try done; try lia.
  apply decide_ext. split; [tauto|]. intros ?. split; [done|]. apply Forall_forall. intros o _ ?%elem_of_empty. done.
Qed.

(** ** Executions by position *)

Definition step_at (occurrences : list ReplayOccurrence) (r : LogicalReplay) (i : nat) : LogicalReplay :=
  match occurrences !! i with Some o => execute_one r o | None => r end.

Definition commutes (registry : TraceRelationRegistry) (occurrences : list ReplayOccurrence) (i j : nat) : bool :=
  match occurrences !! i, occurrences !! j with
  | Some a, Some b => trace_independent registry (oc_operation a) (oc_operation b)
  | _, _ => false
  end.

Lemma commutes_sym registry occurrences i j : commutes registry occurrences i j = commutes registry occurrences j i.
Proof.
  unfold commutes. destruct (occurrences !! i), (occurrences !! j); [apply trace_independent_sym|done..].
Qed.

(** Every position of the program, once. *)
Definition order_of (occurrences : list ReplayOccurrence) (order : list nat) : Prop :=
  order ≡ₚ seq 0 (length occurrences).

Section executions.
Context (occurrences : list ReplayOccurrence) (Hprog : program_valid occurrences).

Lemma order_of_elem order i : order_of occurrences order → i ∈ order ↔ (i < length occurrences)%nat.
Proof. intros Ho. rewrite Ho, elem_of_seq. lia. Qed.

Lemma order_of_NoDup order : order_of occurrences order → NoDup order.
Proof. intros Ho. rewrite Ho. apply NoDup_seq. Qed.

Lemma order_of_length order : order_of occurrences order → length order = length occurrences.
Proof. intros Ho. by rewrite Ho, length_seq. Qed.

Lemma in_range_lookup i : (i < length occurrences)%nat → ∃ o, occurrences !! i = Some o ∧ occurrence_valid o.
Proof.
  intros [o Ho]%lookup_lt_is_Some_2. exists o. split; [done|].
  pose proof (pv_valid _ Hprog) as Hv. rewrite Forall_forall in Hv. by eapply Hv, list_elem_of_lookup_2.
Qed.

Lemma id_at_inj i j :
  (i < length occurrences)%nat → (j < length occurrences)%nat → id_at occurrences i = id_at occurrences j → i = j.
Proof.
  intros (a & Ha & _)%in_range_lookup (b & Hb & _)%in_range_lookup. unfold id_at. rewrite Ha, Hb. simpl. intros Hid.
  apply (NoDup_lookup _ i j (oc_id a) (pv_distinct _ Hprog)); rewrite list_lookup_fmap, ?Ha, ?Hb; simpl; congruence.
Qed.

Lemma execute_loop_eq {E} order r :
  Forall (λ i, (i < length occurrences)%nat) order →
  execute_loop (E:=E) occurrences order r = Ok (foldl (step_at occurrences) r order).
Proof.
  intros Ho. revert r. induction Ho as [|i order Hi Ho IH]; intros r; simpl; [done|]. munfold_goal.
  apply in_range_lookup in Hi as (o & Hi & _). unfold step_at at 2. rewrite Hi. apply IH.
Qed.

Lemma order_in_range order : order_of occurrences order → Forall (λ i, (i < length occurrences)%nat) order.
Proof. intros Ho. apply Forall_forall. intros i. by rewrite order_of_elem. Qed.

#[global] Instance step_at_proper : Proper (replay_equiv ==> (=) ==> replay_equiv) (step_at occurrences).
Proof. intros r r' Hr i _ <-. unfold step_at. destruct (occurrences !! i); [by rewrite Hr|done]. Qed.

Lemma step_at_commute registry i j r :
  commutes registry occurrences i j = true →
  replay_equiv (step_at occurrences (step_at occurrences r i) j) (step_at occurrences (step_at occurrences r j) i).
Proof.
  unfold commutes, step_at. destruct (occurrences !! i) as [a|] eqn:Ha; [|done].
  destruct (occurrences !! j) as [b|] eqn:Hb; [|done]. intros Hi%trace_independent_spec.
  apply (execute_commute registry); [| |done].
  - destruct (in_range_lookup i) as (a' & ? & ?); [by eapply lookup_lt_Some|]. congruence.
  - destruct (in_range_lookup j) as (b' & ? & ?); [by eapply lookup_lt_Some|]. congruence.
Qed.

(** The rows of a run carry the identities of its positions. *)
Lemma run_result_ids order r :
  Forall (λ i, (i < length occurrences)%nat) order →
  or_occurrence <$> lr_results (foldl (step_at occurrences) r order) =
  (or_occurrence <$> lr_results r) ++ (id_at occurrences <$> order).
Proof.
  intros Ho. revert r. induction Ho as [|i order Hi Ho IH]; intros r; simpl; [by rewrite app_nil_r|].
  rewrite IH. apply in_range_lookup in Hi as (o & Hi & _). unfold step_at, id_at at 2. rewrite Hi.
  rewrite execute_one_results, fmap_app, <-app_assoc. done.
Qed.

Lemma id_at_NoDup order : order_of occurrences order → NoDup (id_at occurrences <$> order).
Proof.
  intros Ho. apply NoDup_fmap_2_strong; [|by apply order_of_NoDup]. intros i j.
  rewrite !order_of_elem by done. intros. by apply id_at_inj.
Qed.

#[global] Instance result_le_trans : Transitive result_le.
Proof. intros a b c. unfold result_le. lia. Qed.
#[global] Instance result_le_total : Total result_le.
Proof. intros a b. unfold result_le. lia. Qed.

(** Sorting forgets the order of rows with distinct identities. *)
Lemma sort_results_perm rows rows' :
  NoDup (or_occurrence <$> rows) → rows ≡ₚ rows' → sort_results rows = sort_results rows'.
Proof.
  intros Hnd Hp. unfold sort_results.
  apply (StronglySorted_unique_strong result_le); [|apply StronglySorted_merge_sort; apply _..|
    by rewrite !merge_sort_Permutation].
  intros x y. rewrite !merge_sort_Permutation, <-Hp. unfold result_le.
  intros (i & Hi)%list_elem_of_lookup (j & Hj)%list_elem_of_lookup Hxy Hyx.
  assert (i = j) as ->; [|congruence].
  apply (NoDup_lookup _ i j (or_occurrence x) Hnd); rewrite list_lookup_fmap, ?Hi, ?Hj; simpl; f_equal; lia.
Qed.

(** What the execution of an order is. *)
Definition run_of (initial : ReplayState) (order : list nat) : LogicalReplay :=
  let r := foldl (step_at occurrences) (mkLogicalReplay initial [] []) order in
  mkLogicalReplay (lr_state r) (sort_results (lr_results r)) (lr_ordered r).

Lemma execute_eq {E} initial order :
  order_of occurrences order → execute (E:=E) occurrences initial order = Ok (run_of initial order).
Proof. intros Ho%order_in_range. unfold execute. munfold_goal. by rewrite execute_loop_eq. Qed.

(** Orders that differ on independent pairs only give the same replay. *)
Lemma run_of_reorder registry initial order order' :
  order_of occurrences order → order_of occurrences order' →
  (∀ i j, (i, j) ∈ position_pairs order → (j, i) ∈ position_pairs order' → commutes registry occurrences i j = true) →
  run_of initial order = run_of initial order'.
Proof.
  intros Ho Ho' Hind. set (r0 := mkLogicalReplay initial [] []).
  assert (replay_equiv (foldl (step_at occurrences) r0 order) (foldl (step_at occurrences) r0 order')) as [Hs Hr Hl].
  { apply (run_reorder _ _ (λ a r r' Hr, step_at_proper r r' Hr a a eq_refl)
      (λ i j, commutes registry occurrences i j = true) (λ _, True)).
    - intros i j r _ _. apply step_at_commute.
    - by apply order_of_NoDup.
    - by apply Forall_forall.
    - by rewrite Ho, Ho'.
    - done. }
  unfold run_of. fold r0. rewrite Hs, Hl. f_equal. apply sort_results_perm; [|done].
  rewrite run_result_ids by by apply order_in_range. simpl. by apply id_at_NoDup.
Qed.
End executions.

(** ** The relation matrix *)

Definition square (matrix : Matrix) : Prop := length matrix = 8%nat ∧ Forall (λ row, length row = 8%nat) matrix.
Definition entry (matrix : Matrix) (i j : nat) : bool := default false (matrix !! i ≫= λ row, row !! j).

Lemma square_lookup matrix i : square matrix → (i < 8)%nat → ∃ row, matrix !! i = Some row ∧ length row = 8%nat.
Proof.
  intros [Hl Hrows] Hi. destruct (lookup_lt_is_Some_2 matrix i) as [row Hrow]; [lia|]. exists row. split; [done|].
  rewrite Forall_forall in Hrows. by eapply Hrows, list_elem_of_lookup_2.
Qed.

Lemma matrix_get_eq {E} matrix i j :
  square matrix → (i < 8)%nat → (j < 8)%nat → matrix_get (E:=E) matrix i j = Ok (entry matrix i j).
Proof.
  intros Hsq Hi Hj. destruct (square_lookup _ _ Hsq Hi) as (row & Hrow & Hlen).
  destruct (lookup_lt_is_Some_2 row j) as [b Hb]; [lia|].
  unfold matrix_get, entry. munfold_goal. rewrite Hrow. simpl. by rewrite Hb.
Qed.

Lemma matrix_set_eq {E} matrix i j b :
  square matrix → (i < 8)%nat → (j < 8)%nat →
  ∃ matrix', matrix_set (E:=E) matrix i j b = Ok matrix' ∧ square matrix' ∧
    ∀ i' j', entry matrix' i' j' = if decide (i' = i ∧ j' = j) then b else entry matrix i' j'.
Proof.
  intros Hsq Hi Hj. destruct (square_lookup _ _ Hsq Hi) as (row & Hrow & Hlen).
  destruct (lookup_lt_is_Some_2 row j) as [b0 Hb]; [lia|]. destruct Hsq as [Hl Hrows].
  unfold matrix_set. munfold_goal. rewrite Hrow, Hb. eexists. split; [done|]. split.
  - split; [by rewrite length_insert|]. apply Forall_insert; [done|]. by rewrite length_insert.
  - intros i' j'. unfold entry. destruct (decide (i' = i ∧ j' = j)) as [[-> ->]|Hne].
    { rewrite list_lookup_insert_eq by lia. simpl. by rewrite list_lookup_insert_eq by lia. }
    destruct (decide (i' = i)) as [->|Hi']; [|by rewrite list_lookup_insert_ne].
    rewrite list_lookup_insert_eq, Hrow by lia. simpl. rewrite list_lookup_insert_ne; [done|]. naive_solver.
Qed.

(** The pairs of one position with the later ones. *)
Lemma related_row registry (occurrences : list ReplayOccurrence) i o k m :
  occurrences !! i = Some o → drop k occurrences = m →
  length (List.filter (λ p, commutes registry occurrences p.1 p.2) ((λ y, (i, y)) <$> seq k (length m))) =
  length (List.filter (trace_independent registry (oc_operation o)) (oc_operation <$> m)).
Proof.
  intros Ho. revert k. induction m as [|b m IH]; intros k Hd; [done|].
  assert (occurrences !! k = Some b) as Hb by (by rewrite <-(Nat.add_0_r k), <-lookup_drop, Hd).
  assert (drop (S k) occurrences = m) as Hm by (by rewrite <-Nat.add_1_r, <-drop_drop, Hd).
  csimpl. unfold commutes at 1. cbn [fst snd]. rewrite Ho, Hb.
  destruct (trace_independent _ _ _); simpl; by rewrite IH.
Qed.

(** The related pairs of a list, counted on positions. *)
Lemma related_positions registry (occurrences : list ReplayOccurrence) :
  length (List.filter (λ p, commutes registry occurrences p.1 p.2) (position_pairs (seq 0 (length occurrences)))) =
  related_pairs (trace_independent registry) (oc_operation <$> occurrences).
Proof.
  assert (∀ pre l, length (List.filter (λ p, commutes registry (pre ++ l) p.1 p.2)
      (position_pairs (seq (length pre) (length l)))) =
    related_pairs (trace_independent registry) (oc_operation <$> l)) as Hgen; [|apply (Hgen [])].
  intros pre l. revert pre. induction l as [|o l IH]; intros pre; [done|].
  rewrite fmap_cons, related_pairs_cons. cbn [length seq position_pairs]. rewrite List.filter_app, length_app. f_equal.
  - assert ((pre ++ o :: l) !! length pre = Some o) as Ho by by apply list_lookup_middle.
    apply related_row; [done|]. by rewrite (cons_middle o), app_assoc, drop_app_length' by (rewrite length_app; simpl; lia).
  - specialize (IH (pre ++ [o])). rewrite <-app_assoc, length_app in IH. simpl in IH. rewrite Nat.add_1_r in IH. done.
Qed.

Section matrix.
Context (registry : TraceRelationRegistry) (occurrences : list ReplayOccurrence).
Context (Hsize : (length occurrences ≤ 8)%nat).

Abbreviation n := (length occurrences).

Lemma relation_loop_eq {E} pairs matrix evaluated related :
  square matrix → Forall (λ p : nat * nat, p.1 < n ∧ p.2 < n)%nat pairs →
  ∃ matrix', relation_loop (E:=E) registry occurrences pairs matrix evaluated related =
    Ok (matrix', evaluated + len pairs,
        related + len (List.filter (λ p, commutes registry occurrences p.1 p.2) pairs)) ∧ square matrix' ∧
    ∀ i j, entry matrix' i j =
      if decide ((i, j) ∈ pairs ∨ (j, i) ∈ pairs) then commutes registry occurrences i j else entry matrix i j.
Proof.
  intros Hsq Hp. revert matrix evaluated related Hsq.
  induction Hp as [|[a b] pairs [Ha Hb] _ IH]; intros matrix evaluated related Hsq.
  { exists matrix. split; [by rewrite !Z.add_0_r|]. split; [done|].
    intros i j. rewrite decide_False; [done|]. rewrite !elem_of_nil. tauto. }
  simpl in Ha, Hb. destruct (lookup_lt_is_Some_2 occurrences a Ha) as [oa Hoa].
  destruct (lookup_lt_is_Some_2 occurrences b Hb) as [ob Hob].
  assert (commutes registry occurrences a b = trace_independent registry (oc_operation oa) (oc_operation ob)) as Hc
    by (unfold commutes; by rewrite Hoa, Hob).
  destruct (matrix_set_eq (E:=E) matrix a b (commutes registry occurrences a b) Hsq) as (m1 & Hm1 & Hsq1 & He1); [lia..|].
  destruct (matrix_set_eq (E:=E) m1 b a (commutes registry occurrences a b) Hsq1) as (m2 & Hm2 & Hsq2 & He2); [lia..|].
  destruct (IH m2 (evaluated + 1) (related + if commutes registry occurrences a b then 1 else 0) Hsq2)
    as (m' & Hm' & Hsq' & He').
  exists m'. split; [|split; [done|]].
  - cbn [relation_loop]. munfold_goal. rewrite Hoa, Hob, <-Hc, Hm1, Hm2, Hm'. cbn [List.filter fst snd].
    do 2 f_equal; [f_equal; unfold len; simpl; lia|].
    destruct (commutes registry occurrences a b); unfold len; simpl; lia.
  - intros i j. rewrite He', He2, He1.
    destruct (decide ((i, j) ∈ (a, b) :: pairs ∨ (j, i) ∈ (a, b) :: pairs)) as [Hin|Hin]; rewrite !elem_of_cons in Hin;
      destruct (decide ((i, j) ∈ pairs ∨ (j, i) ∈ pairs)) as [Hin'|Hin']; [done| |tauto|].
    + destruct (decide (i = b ∧ j = a)) as [[-> ->]|H1]; [apply commutes_sym|].
      destruct (decide (i = a ∧ j = b)) as [[-> ->]|H2]; [done|].
      exfalso. destruct Hin as [[[= -> ->]|?]|[[= -> ->]|?]]; tauto.
    + destruct (decide (i = b ∧ j = a)) as [[-> ->]|H1]; [tauto|].
      destruct (decide (i = a ∧ j = b)) as [[-> ->]|H2]; [tauto|done].
Qed.

Lemma empty_matrix_square : square empty_matrix.
Proof. split; [done|]. by repeat constructor. Qed.

Lemma empty_matrix_entry i j : entry empty_matrix i j = false.
Proof. unfold entry, empty_matrix. do 8 (destruct i as [|i]; [simpl; do 8 (destruct j as [|j]; [done|]); done|]). done. Qed.

Lemma program_pairs p : p ∈ position_pairs (seq 0 n) → (p.1 < n ∧ p.2 < n ∧ p.1 ≠ p.2)%nat.
Proof.
  destruct p as [i j]. intros (x & y & Hlt & [-> ?]%lookup_seq & [-> ?]%lookup_seq)%elem_of_position_pairs. simpl. lia.
Qed.

(** The matrix holds the relation, and the counts are those of
    [evaluate_bounded_pairs] on the registered operations. *)
Lemma relation_eq {E} :
  ∃ matrix ev, relation (E:=E) registry occurrences = Ok (matrix, ev) ∧ square matrix ∧
    evaluate_bounded_pairs registry (oc_operation <$> occurrences) = Ok ev ∧
    ∀ i j, (i < n)%nat → (j < n)%nat → i ≠ j → entry matrix i j = commutes registry occurrences i j.
Proof.
  destruct (relation_loop_eq (E:=E) (position_pairs (seq 0 n)) empty_matrix 0 0) as (matrix & Hm & Hsq & He).
  { apply empty_matrix_square. }
  { apply Forall_forall. intros p Hp%program_pairs. lia. }
  assert (length (position_pairs (oc_operation <$> occurrences)) = length (position_pairs (seq 0 n))) as Hlen.
  { pose proof (position_pairs_length (oc_operation <$> occurrences)) as H1.
    pose proof (position_pairs_length (seq 0 n)) as H2. rewrite length_fmap in H1. rewrite length_seq in H2. lia. }
  assert (length (List.filter (λ p, commutes registry occurrences p.1 p.2) (position_pairs (seq 0 n))) =
          related_pairs (trace_independent registry) (oc_operation <$> occurrences)) as Hrel by apply related_positions.
  pose proof (related_pairs_le (trace_independent registry) (oc_operation <$> occurrences)) as Hle.
  unfold relation. munfold_goal. rewrite Hm. unfold u64_sub, len. rewrite Hrel, !Z.add_0_l, <-Hlen.
  destruct (Z.leb_spec (Z.of_nat (related_pairs (trace_independent registry) (oc_operation <$> occurrences)))
    (Z.of_nat (length (position_pairs (oc_operation <$> occurrences))))); [|lia].
  do 2 eexists. split; [done|]. split; [done|]. split.
  - rewrite evaluate_bounded_pairs_eq, decide_True; [done|].
    unfold len, MAX_TRACE_OPERATIONS. rewrite length_fmap. lia.
  - intros i j Hi Hj Hij. rewrite He, decide_True; [done|]. rewrite !elem_of_position_pairs.
    destruct (Nat.lt_total i j) as [?|[?|?]]; [left; exists i, j|done|right; exists j, i];
      (split_and!; [done|apply lookup_seq; lia..]).
Qed.
End matrix.

(** ** Masks *)

(** The mask of a set of positions below eight. *)
Definition mask_is (mask : Z) (P : nat → bool) : Prop :=
  ∀ p : Z, 0 ≤ p → Z.testbit mask p = (p <? 8) && P (Z.to_nat p).

Lemma mask_is_zero : mask_is 0 (λ _, false).
Proof. intros p Hp. by rewrite Z.bits_0, andb_false_r. Qed.

Lemma bit_spec i p : 0 ≤ p → Z.testbit (Z.shiftl 1 (Z.of_nat i)) p = bool_decide (Z.to_nat p = i).
Proof.
  intros Hp. rewrite Z.shiftl_spec by done. apply eq_true_iff_eq. rewrite bool_decide_eq_true.
  destruct (Z.lt_total p (Z.of_nat i)) as [Hlt|[->|Hgt]].
  - rewrite Z.testbit_neg_r by lia. split; [done|lia].
  - rewrite Z.sub_diag, Nat2Z.id. done.
  - rewrite (Z.bits_above_log2 1) by (simpl; lia). split; [done|lia].
Qed.

Lemma mask_is_add mask P i :
  (i < 8)%nat → mask_is mask P → mask_is (Z.lor mask (Z.shiftl 1 (Z.of_nat i))) (λ p, P p || bool_decide (p = i)).
Proof.
  intros Hi Hm p Hp. rewrite Z.lor_spec, bit_spec, (Hm p Hp) by done.
  destruct (Z.ltb_spec p 8); simpl; [done|]. apply bool_decide_eq_false. lia.
Qed.

Lemma mask_is_ext mask P Q : (∀ p, (p < 8)%nat → P p = Q p) → mask_is mask P → mask_is mask Q.
Proof.
  intros HPQ Hm p Hp. rewrite (Hm p Hp). destruct (Z.ltb_spec p 8); simpl; [|done]. apply HPQ. lia.
Qed.

(** [mask & bit == 0] *)
Lemma mask_bit_clear mask P i :
  (i < 8)%nat → mask_is mask P → (Z.land mask (Z.shiftl 1 (Z.of_nat i)) =? 0) = negb (P i).
Proof.
  intros Hi Hm. apply eq_true_iff_eq. rewrite Z.eqb_eq, negb_true_iff. split.
  - intros H0. assert (Z.testbit (Z.land mask (Z.shiftl 1 (Z.of_nat i))) (Z.of_nat i) = false) as Hb by (by rewrite H0, Z.bits_0).
    rewrite Z.land_spec, bit_spec, (Hm (Z.of_nat i)), Nat2Z.id, bool_decide_true, andb_true_r in Hb by lia.
    destruct (Z.ltb_spec (Z.of_nat i) 8); [done|lia].
  - intros HP. apply Z.bits_inj'. intros p Hp. rewrite Z.bits_0, Z.land_spec, bit_spec, (Hm p Hp) by done.
    case_bool_decide as Heq; [|by rewrite andb_false_r]. rewrite Heq, HP. by rewrite andb_false_r.
Qed.

(** [mask & !done == 0] on 16-bit masks *)
Lemma mask_within mask finished P Q :
  mask_is mask P → mask_is finished Q →
  (Z.land mask (u16_not finished) =? 0) = forallb (λ p, implb (P p) (Q p)) (seq 0 8).
Proof.
  intros Hm Hd. apply eq_true_iff_eq. rewrite Z.eqb_eq, forallb_forall. setoid_rewrite <-list_elem_of_In.
  setoid_rewrite elem_of_seq. unfold u16_not.
  assert (∀ p, 0 ≤ p → Z.testbit (Z.land mask (Z.lxor finished 65535)) p = (p <? 8) && P (Z.to_nat p) && negb (Q (Z.to_nat p))) as Hbits.
  { intros p Hp. rewrite Z.land_spec, Z.lxor_spec, (Hm p Hp), (Hd p Hp).
    destruct (Z.ltb_spec p 8); [|done]. simpl. f_equal. replace 65535 with (Z.ones 16) by done.
    rewrite Z.ones_spec_low by lia. by destruct (Q (Z.to_nat p)). }
  split.
  - intros H0 p Hp. specialize (Hbits (Z.of_nat p)). rewrite H0, Z.bits_0, Nat2Z.id in Hbits.
    destruct (Z.ltb_spec (Z.of_nat p) 8); [|lia]. destruct (P p), (Q p); simpl in *; try done. by rewrite Hbits by lia.
  - intros Hall. apply Z.bits_inj'. intros p Hp. rewrite Z.bits_0, Hbits by done.
    destruct (Z.ltb_spec p 8); [|done]. specialize (Hall (Z.to_nat p)). simpl.
    destruct (P (Z.to_nat p)), (Q (Z.to_nat p)); simpl in *; try done. symmetry. apply Hall. lia.
Qed.

(** ** Predecessors *)

(** [p] comes before [r] in one of [pairs], and may not be swapped with it. *)
Definition precedes (matrix : Matrix) (pairs : list (nat * nat)) (r p : nat) : bool :=
  bool_decide ((p, r) ∈ pairs) && negb (entry matrix p r).

Definition masks_are (predecessors : list Z) (P : nat → nat → bool) : Prop :=
  length predecessors = 8%nat ∧ ∀ r mask, predecessors !! r = Some mask → mask_is mask (P r).

Lemma masks_lookup predecessors P r :
  masks_are predecessors P → (r < 8)%nat → ∃ mask, predecessors !! r = Some mask ∧ mask_is mask (P r).
Proof.
  intros [Hl Hm] Hr. destruct (lookup_lt_is_Some_2 predecessors r) as [mask Hmask]; [lia|]. eauto.
Qed.

Lemma masks_are_ext predecessors P Q :
  (∀ r p, (p < 8)%nat → P r p = Q r p) → masks_are predecessors P → masks_are predecessors Q.
Proof. intros HPQ [Hl Hm]. split; [done|]. intros r mask Hr. eapply mask_is_ext; [|by apply Hm]. auto. Qed.

Lemma predecessors_loop_eq {E} matrix pairs predecessors checks P :
  square matrix → Forall (λ p : nat * nat, p.1 < 8 ∧ p.2 < 8)%nat pairs → masks_are predecessors P →
  ∃ predecessors', predecessors_loop (E:=E) matrix pairs predecessors checks = Ok (predecessors', checks + len pairs) ∧
    masks_are predecessors' (λ r p, P r p || precedes matrix pairs r p).
Proof.
  intros Hsq Hpairs. revert predecessors checks P.
  induction Hpairs as [|[a b] pairs [Ha Hb] _ IH]; intros predecessors checks P Hm.
  { exists predecessors. split; [by rewrite Z.add_0_r|]. eapply masks_are_ext; [|exact Hm].
    intros r p _. unfold precedes. by rewrite bool_decide_false, orb_false_r by apply not_elem_of_nil. }
  simpl in Ha, Hb. cbn [predecessors_loop]. munfold_goal. rewrite matrix_get_eq by (done || lia).
  replace (checks + len ((a, b) :: pairs)) with (checks + 1 + len pairs) by (unfold len; simpl; lia).
  destruct (entry matrix a b) eqn:Hab.
  - destruct (IH predecessors (checks + 1) P Hm) as (preds' & -> & Hm'). exists preds'. split; [done|].
    eapply masks_are_ext; [|exact Hm']. intros r p _. simpl. f_equal. unfold precedes.
    destruct (decide ((p, r) = (a, b))) as [[= -> ->]|Hne]; [by rewrite Hab, !andb_false_r|]. f_equal.
    apply bool_decide_ext. rewrite elem_of_cons. tauto.
  - destruct (masks_lookup _ _ b Hm Hb) as (mask & Hmask & Hmb). rewrite Hmask.
    destruct Hm as [Hl Hm].
    destruct (IH (<[b := Z.lor mask (Z.shiftl 1 (Z.of_nat a))]> predecessors) (checks + 1)
      (λ r p, P r p || bool_decide ((p, r) = (a, b)))) as (preds' & -> & Hm').
    { split; [by rewrite length_insert|]. intros r mask'. destruct (decide (r = b)) as [->|Hne].
      - rewrite list_lookup_insert_eq by lia. intros [= <-].
        eapply mask_is_ext; [|by apply mask_is_add]. intros p _. simpl. f_equal. apply bool_decide_ext. naive_solver.
      - rewrite list_lookup_insert_ne by done. intros Hr%Hm. eapply mask_is_ext; [|exact Hr]. intros p _. simpl.
        by rewrite bool_decide_false, orb_false_r by congruence. }
    exists preds'. split; [done|]. eapply masks_are_ext; [|exact Hm']. intros r p _. simpl. rewrite <-orb_assoc. f_equal.
    unfold precedes. destruct (decide ((p, r) = (a, b))) as [[= -> ->]|Hne].
    + rewrite Hab. rewrite !(bool_decide_true (_ = _)), (bool_decide_true (_ ∈ _ :: _)) by (done || left). done.
    + rewrite (bool_decide_false (_ = _)) by done. simpl. f_equal. apply bool_decide_ext. rewrite elem_of_cons. tauto.
Qed.

(** ** The canonical order is the greedy schedule *)

Section picking.
Context (predecessors : list Z) (P : nat → nat → bool) (Hmasks : masks_are predecessors P).
Context (all : list nat) (Hall : ∀ i, i ∈ all → (i < 8)%nat) (HP : ∀ c p, P c p = true → p ∈ all).

Lemma ready_mask acc c :
  ready all P acc c =
  negb (bool_decide (c ∈ acc)) && forallb (λ p, implb (P c p) (bool_decide (p ∈ acc))) (seq 0 8).
Proof.
  apply eq_true_iff_eq. rewrite ready_spec, andb_true_iff, negb_true_iff, bool_decide_eq_false, forallb_forall.
  setoid_rewrite <-list_elem_of_In. split; intros [Hc Hp]; (split; [done|]); intros p Hin.
  - destruct (P c p) eqn:E; [|done]. simpl. apply bool_decide_eq_true, Hp; [|done]. by apply (HP c).
  - intros Hpre. specialize (Hp p). rewrite elem_of_seq, Hpre in Hp. pose proof (Hall p Hin).
    apply (bool_decide_eq_true_1 _), Hp. lia.
Qed.

Lemma pick_choice_eq {E} finished acc choices checks :
  mask_is finished (λ p, bool_decide (p ∈ acc)) → (∀ i, i ∈ choices → (i < 8)%nat) →
  ∃ checks', pick_choice (E:=E) predecessors finished choices checks = Ok (List.find (ready all P acc) choices, checks') ∧
    checks ≤ checks' ≤ checks + len choices.
Proof.
  intros Hf. revert checks. induction choices as [|c choices IH]; intros checks Hc.
  { exists checks. split; [done|]. unfold len. simpl. lia. }
  assert (len (c :: choices) = 1 + len choices) as Hlen by (unfold len; simpl; lia). pose proof (len_nonneg choices).
  assert (c < 8)%nat as Hc8 by (apply Hc; left). destruct (masks_lookup _ _ c Hmasks Hc8) as (mask & Hmask & Hm).
  cbn [pick_choice List.find]. munfold_goal. rewrite (mask_bit_clear _ _ c Hc8 Hf), Hmask.
  rewrite (mask_within _ _ _ _ Hm Hf), ready_mask.
  generalize (forallb (λ p, implb (P c p) (bool_decide (p ∈ acc))) (seq 0 8)). intros within.
  destruct (negb (bool_decide (c ∈ acc))); simpl.
  - destruct within; [exists (checks + 1); split; [done|lia]|].
    destruct (IH (checks + 1)) as (checks' & -> & Hb); [intros i ?; apply Hc; by right|].
    exists checks'. split; [done|lia].
  - destruct (IH (checks + 1)) as (checks' & -> & Hb); [intros i ?; apply Hc; by right|].
    exists checks'. split; [done|lia].
Qed.

Lemma canonical_loop_eq {E} steps finished acc checks :
  mask_is finished (λ p, bool_decide (p ∈ acc)) →
  ∃ checks', canonical_loop (E:=E) steps predecessors all finished acc checks = Ok (greedy all P steps acc, checks') ∧
    checks ≤ checks' ≤ checks + Z.of_nat steps * len all.
Proof.
  revert finished acc checks. induction steps as [|steps IH]; intros finished acc checks Hf.
  { exists checks. split; [done|lia]. }
  pose proof (len_nonneg all). destruct (pick_choice_eq (E:=E) finished acc all checks Hf Hall) as (c1 & Hpick & Hb).
  cbn [canonical_loop greedy]. munfold_goal. rewrite Hpick. unfold next_choice.
  destruct (List.find (ready all P acc) all) as [c|] eqn:Hfind.
  - destruct (IH (Z.lor finished (Z.shiftl 1 (Z.of_nat c))) (acc ++ [c]) c1) as (c2 & -> & Hb').
    { apply find_some in Hfind as [Hin%list_elem_of_In _].
      eapply mask_is_ext; [|apply mask_is_add; [by apply Hall|exact Hf]]. intros p _. simpl.
      apply eq_true_iff_eq. rewrite orb_true_iff, !bool_decide_eq_true, elem_of_app, list_elem_of_singleton. done. }
    exists c2. split; [done|lia].
  - destruct (IH finished acc c1 Hf) as (c2 & -> & Hb'). exists c2. split; [done|lia].
Qed.
End picking.

Section canonical.
Context (registry : TraceRelationRegistry) (occurrences : list ReplayOccurrence) (Hprog : program_valid occurrences).
Abbreviation n := (length occurrences).

#[global] Instance index_le_trans : Transitive (index_le occurrences).
Proof. intros a b c. unfold index_le. lia. Qed.
#[global] Instance index_le_total : Total (index_le occurrences).
Proof. intros a b. unfold index_le. lia. Qed.

Lemma sorted_positions_order : order_of occurrences (sorted_positions occurrences).
Proof. apply merge_sort_Permutation. Qed.

Lemma sorted_positions_sorted : StronglySorted (λ a b, id_at occurrences a ≤ id_at occurrences b) (sorted_positions occurrences).
Proof. apply (StronglySorted_merge_sort (index_le occurrences)). Qed.

(** The canonical order of [order] in closed form. *)
Definition must_precede (order : list nat) (r p : nat) : bool :=
  bool_decide ((p, r) ∈ position_pairs order) && negb (commutes registry occurrences p r).
Definition canonical_of (order : list nat) : list nat :=
  greedy (sorted_positions occurrences) (must_precede order) n [].

(** Two orders of the program that differ on independent pairs only. *)
Definition same_class (order order' : list nat) : Prop :=
  ∀ i j, (i, j) ∈ position_pairs order → (j, i) ∈ position_pairs order' → commutes registry occurrences i j = true.

Lemma same_class_precede order order' :
  order_of occurrences order → order_of occurrences order' →
  same_class order order' ↔ ∀ r p, must_precede order r p = true → (p, r) ∈ position_pairs order'.
Proof.
  intros Ho Ho'. unfold must_precede. split.
  - intros Hc r p [Hpr%bool_decide_eq_true Hdep%negb_true_iff]%andb_true_iff.
    pose proof (position_pairs_elem _ _ _ Hpr) as [Hp Hr]. rewrite Ho in Hp, Hr. rewrite <-Ho' in Hp, Hr.
    destruct (position_pairs_total order' p r Hp Hr) as [?|Hrp]; [|done|].
    + intros ->. by apply (position_pairs_antisym order r r (order_of_NoDup _ _ Ho) Hpr).
    + specialize (Hc p r Hpr Hrp). congruence.
  - intros Hext i j Hij Hji. apply not_false_iff_true. intros Hdep.
    apply (position_pairs_antisym order' j i (order_of_NoDup _ _ Ho') Hji), Hext.
    by rewrite bool_decide_true, Hdep.
Qed.

Lemma same_class_sym order order' :
  same_class order order' → same_class order' order.
Proof. intros Hc i j Hij Hji. rewrite commutes_sym. by apply Hc. Qed.

Section one_order.
Context (order : list nat) (Ho : order_of occurrences order).

Lemma choices_order : sorted_positions occurrences ≡ₚ order.
Proof. by rewrite Ho, sorted_positions_order. Qed.

Lemma must_precede_pairs r p : must_precede order r p = true → (p, r) ∈ position_pairs order.
Proof. intros [Hpr%bool_decide_eq_true _]%andb_true_iff. done. Qed.

Lemma canonical_of_facts : order_of occurrences (canonical_of order) ∧ same_class order (canonical_of order).
Proof.
  destruct (greedy_taken (id_at occurrences) (sorted_positions occurrences) (must_precede order) order
    (order_of_NoDup _ _ Ho) choices_order sorted_positions_sorted must_precede_pairs n [] (taken_nil _ _))
    as [Ht Hl]; [by rewrite (order_of_length _ _ Ho)|].
  fold (canonical_of order) in Ht, Hl.
  assert (order_of occurrences (canonical_of order)) as Hc.
  { unfold order_of. rewrite <-Ho. by eapply taken_all. }
  split; [done|]. apply same_class_precede; [done..|]. intros r p Hpr. apply (tk_before _ _ _ Ht); [|done].
  apply must_precede_pairs, position_pairs_elem in Hpr as [_ Hr]. by rewrite Hc, <-Ho.
Qed.

(** It is the least order of its class. *)
Lemma canonical_of_least order' :
  order_of occurrences order' → same_class order order' →
  lex_le (id_at occurrences <$> canonical_of order) (id_at occurrences <$> order').
Proof.
  intros Ho' Hclass. destruct (greedy_least (id_at occurrences) (sorted_positions occurrences) (must_precede order) order
    (order_of_NoDup _ _ Ho) choices_order sorted_positions_sorted must_precede_pairs n [] order' (taken_nil _ _))
    as (g & Hg & Hle).
  - by rewrite (order_of_length _ _ Ho).
  - simpl. by rewrite Ho, Ho'.
  - simpl. by apply same_class_precede.
  - intros i j. rewrite !(order_of_elem _ _ _ Ho). by apply id_at_inj.
  - unfold canonical_of. by rewrite Hg.
Qed.

(** Its replay is that of the order itself. *)
Lemma run_of_canonical initial : run_of occurrences initial order = run_of occurrences initial (canonical_of order).
Proof.
  destruct canonical_of_facts as [Hc Hclass]. by apply (run_of_reorder occurrences Hprog registry).
Qed.
End one_order.

Lemma canonical_order_eq {E} matrix order checks :
  square matrix →
  (∀ i j, (i < n)%nat → (j < n)%nat → i ≠ j → entry matrix i j = commutes registry occurrences i j) →
  order_of occurrences order →
  ∃ checks', canonical_order (E:=E) occurrences matrix order checks = Ok (canonical_of order, checks') ∧
    checks ≤ checks' ≤ checks + len (position_pairs order) + len occurrences * len occurrences.
Proof.
  intros Hsq Hentry Ho. pose proof (pv_size _ Hprog) as Hsize.
  assert (∀ i, i ∈ order → (i < 8)%nat) as Hin8 by (intros i ?%(order_of_elem _ _ _ Ho); lia).
  destruct (canonical_of_facts order Ho) as [Hcan _].
  unfold canonical_order. munfold_goal.
  destruct (predecessors_loop_eq (E:=E) matrix (position_pairs order) (replicate 8 0) checks (λ _ _, false) Hsq)
    as (preds & Hp & Hm).
  { apply Forall_forall. intros [i j] [? ?]%position_pairs_elem. simpl. auto. }
  { split; [done|]. intros r mask [-> _]%lookup_replicate. apply mask_is_zero. }
  rewrite Hp.
  assert (masks_are preds (must_precede order)) as Hm'.
  { eapply masks_are_ext; [|exact Hm]. intros r p _. simpl. unfold precedes, must_precede.
    case_bool_decide as Hpr; [|done]. simpl. f_equal. pose proof (position_pairs_elem _ _ _ Hpr) as [Hpo Hro].
    apply (order_of_elem _ _ _ Ho) in Hpo, Hro. apply Hentry; [done..|]. intros ->.
    by apply (position_pairs_antisym order r r (order_of_NoDup _ _ Ho) Hpr). }
  destruct (canonical_loop_eq preds (must_precede order) Hm' (sorted_positions occurrences)) with (E:=E)
    (steps := length order) (finished := 0) (acc := @nil nat) (checks := checks + len (position_pairs order))
    as (checks' & -> & Hb).
  - intros i Hi. apply Hin8. rewrite (order_of_elem _ _ _ Ho). by rewrite (order_of_elem _ _ _ sorted_positions_order) in Hi.
  - intros c p [Hpr%bool_decide_eq_true _]%andb_true_iff. apply position_pairs_elem in Hpr as [Hpo _].
    rewrite (order_of_elem _ _ _ Ho) in Hpo. by rewrite (order_of_elem _ _ _ sorted_positions_order).
  - eapply mask_is_ext; [|apply mask_is_zero]. done.
  - exists checks'. rewrite (order_of_length _ _ Ho). fold (canonical_of order). rewrite (order_of_length _ _ Hcan), Nat.eqb_refl. split; [done|].
    pose proof (len_nonneg (position_pairs order)). unfold len in *.
    rewrite (order_of_length _ _ Ho), (order_of_length _ _ sorted_positions_order) in Hb. lia.
Qed.

Lemma ids_inj order order' :
  order_of occurrences order → order_of occurrences order' →
  id_at occurrences <$> order = id_at occurrences <$> order' → order = order'.
Proof.
  intros Ho Ho'. assert (∀ l l', Forall (λ i, (i < n)%nat) l → Forall (λ i, (i < n)%nat) l' →
    id_at occurrences <$> l = id_at occurrences <$> l' → l = l') as H.
  { intros l l' Hl. revert l'. induction Hl as [|i l Hi Hl IH]; intros [|j l'] Hl'; csimpl; [done..|].
    apply Forall_cons in Hl' as [Hj Hl']. intros [= Hid Heq]. f_equal; [by apply (id_at_inj occurrences Hprog)|by apply IH]. }
  intros Heq. apply H; [by apply order_in_range..|done].
Qed.

Lemma same_class_trans o1 o2 o3 :
  order_of occurrences o1 → order_of occurrences o2 → order_of occurrences o3 →
  same_class o1 o2 → same_class o2 o3 → same_class o1 o3.
Proof.
  intros H1 H2 H3 H12 H23 i j Hij Hji. pose proof (position_pairs_elem _ _ _ Hij) as [Hi Hj].
  rewrite H1, <-H2 in Hi, Hj. destruct (position_pairs_total o2 i j Hi Hj) as [Hij2|Hji2].
  - intros ->. by apply (position_pairs_antisym o1 j j (order_of_NoDup _ _ H1) Hij).
  - by apply H23.
  - by apply H12.
Qed.

(** Two orders have the same canonical order exactly when they are of the same
    class. *)
Lemma canonical_of_class order order' :
  order_of occurrences order → order_of occurrences order' →
  canonical_of order = canonical_of order' ↔ same_class order order'.
Proof.
  intros Ho Ho'. destruct (canonical_of_facts order Ho) as [Hc Hcl]. destruct (canonical_of_facts order' Ho') as [Hc' Hcl'].
  split.
  - intros Heq. apply (same_class_trans order (canonical_of order) order'); [done..|].
    rewrite Heq. by apply same_class_sym.
  - intros Hclass. apply ids_inj; [done..|]. apply lex_le_antisym; apply canonical_of_least; try done.
    + by apply (same_class_trans order order' (canonical_of order')).
    + apply (same_class_trans order' order (canonical_of order)); try done. by apply same_class_sym.
Qed.
End canonical.

(** ** Admission *)

(** What [estimate] admits: the worst case in closed form. *)
Definition admission_of (n : nat) (domains : Z) : ReplayAdmission :=
  let schedules := Z.of_nat (fact n) in
  let pairs := Z.of_nat (n * (n - 1) / 2) in
  let result_bytes := 32 + 16 * domains + 64 * Z.of_nat n in
  mkReplayAdmission (Z.of_nat n) domains (16 + 8 * Z.of_nat n)
    (mkQuotientBudget schedules (2 * schedules * Z.of_nat n) (pairs + schedules * (pairs + Z.of_nat (n * n)))
       (schedules * (domains + 2 * Z.of_nat n + 1))
       (schedules * (64 + (16 + 8 * Z.of_nat n) + result_bytes) + 2 * result_bytes + 512)).

Lemma usize_expr_eq {E} z : z ≤ U64_MAX → usize_expr (E:=E) z = Ok z.
Proof. intros Hz. unfold usize_expr. by destruct (Z.leb_spec z U64_MAX); [|lia]. Qed.

Lemma admission_arithmetic n d :
  (n ≤ 8)%nat → 0 ≤ d ≤ 32 →
  (schedules ← u64_try_product 1 (Z.of_nat <$> seq 1 n);
   product ← usize_expr (Z.of_nat n * u64_saturating_sub (Z.of_nat n) 1);
   let pairs := product / 2 in
   schedule_bytes ← usize_expr (16 + 8 * Z.of_nat n);
   result_bytes ← usize_expr (32 + 16 * d + 64 * Z.of_nat n);
   replay_steps ← usize_expr (2 * schedules * Z.of_nat n);
   canonical_checks ← usize_expr (pairs + schedules * (pairs + Z.of_nat n * Z.of_nat n));
   comparison_entries ← usize_expr (schedules * (d + 2 * Z.of_nat n + 1));
   retained_bytes ← usize_expr (schedules * (64 + schedule_bytes + result_bytes) + 2 * result_bytes + 512);
   let required := mkQuotientBudget schedules replay_steps canonical_checks comparison_entries retained_bytes in
   refuse_if (M:=res Error) (negb (budget_fits required default_budget)) Limit;;
   Ok (mkReplayAdmission (Z.of_nat n) d schedule_bytes required)) = Ok (admission_of n d).
Proof.
  intros Hn Hd.
  assert (u64_try_product 1 (Z.of_nat <$> seq 1 n) = Ok (Z.of_nat (fact n)) ∧ Z.of_nat (fact n) ≤ 40320) as [-> Hf].
  { do 9 (destruct n as [|n]; [vm_compute; split; [done|discriminate]|]). lia. }
  assert (Z.of_nat n * u64_saturating_sub (Z.of_nat n) 1 = Z.of_nat (n * (n - 1))) as Hprod
    by (unfold u64_saturating_sub; lia).
  assert (Z.of_nat (n * (n - 1)) / 2 = Z.of_nat (n * (n - 1) / 2)) as Hpairs by (by rewrite Nat2Z.inj_div).
  assert (Z.of_nat (n * (n - 1)) ≤ 56) as Hp by nia.
  assert (Z.of_nat (n * (n - 1) / 2) ≤ 28 ∧ 0 ≤ Z.of_nat (n * (n - 1) / 2)) as [Hp2 Hp0].
  { split; [|lia]. rewrite <-Hpairs. apply Z.div_le_upper_bound; lia. }
  assert (0 ≤ Z.of_nat (fact n)) as Hf0 by lia. unfold admission_of.
  rewrite Hprod, (Nat2Z.inj_mul n n). munfold_goal. rewrite usize_expr_eq by lia. rewrite Hpairs.
  generalize dependent (Z.of_nat (fact n)). intros f Hf Hf0.
  generalize dependent (Z.of_nat (n * (n - 1) / 2)). intros pairs _ Hp2 Hp0. clear Hprod.
  assert (0 ≤ Z.of_nat n ≤ 8) as HN by lia. generalize dependent (Z.of_nat n). intros N HN.
  rewrite !usize_expr_eq by nia.
  unfold budget_fits, default_budget. simpl.
  unfold MAX_QUOTIENT_SCHEDULES, MAX_QUOTIENT_OPERATIONS, MAX_QUOTIENT_RETAINED_BYTES.
  rewrite !(proj2 (Z.leb_le _ _)) by nia. done.
Qed.

Lemma estimate_eq occurrences initial :
  let d := Z.of_nat (size (program_domains occurrences initial)) in
  estimate occurrences initial =
    if decide (len occurrences ≤ MAX_QUOTIENT_OPERATIONS)
    then if decide (NoDup (oc_id <$> occurrences))
         then if decide (d ≤ MAX_QUOTIENT_CELLS) then Ok (admission_of (length occurrences) d) else Err Limit
         else Err Duplicate
    else Err Limit.
Proof.
  intros d. unfold estimate. fold d. munfold_goal. rewrite validate_occurrences_eq.
  destruct (decide (len occurrences ≤ MAX_QUOTIENT_OPERATIONS)) as [Hl|]; [|done].
  destruct (decide (NoDup (oc_id <$> occurrences))); [|done].
  destruct (Z.ltb_spec MAX_QUOTIENT_CELLS d), (decide (d ≤ MAX_QUOTIENT_CELLS)); try done; try lia.
  unfold len in *. unfold MAX_QUOTIENT_OPERATIONS, MAX_QUOTIENT_CELLS in *.
  pose proof (admission_arithmetic (length occurrences) d ltac:(lia) ltac:(lia)) as Harith. munfold. exact Harith.
Qed.

(** ** Schedules *)

Lemma position_of_spec occurrences id :
  NoDup (oc_id <$> occurrences) →
  match position_of occurrences id with
  | Some i => (i < length occurrences)%nat ∧ id_at occurrences i = id
  | None => ∀ i, (i < length occurrences)%nat → id_at occurrences i ≠ id
  end.
Proof.
  induction occurrences as [|o occurrences IH]; intros Hnd; simpl; [intros i Hi; lia|].
  apply NoDup_cons in Hnd as [_ Hnd]. specialize (IH Hnd). destruct (Z.eqb_spec (oc_id o) id) as [Heq|Hne].
  - split; [lia|done].
  - destruct (position_of occurrences id) as [i|]; simpl.
    + destruct IH as [Hi Hid]. split; [lia|done].
    + intros [|i] Hi; [done|]. apply (IH i). lia.
Qed.

Lemma lookup_id occurrences i :
  (i < length occurrences)%nat → (oc_id <$> occurrences) !! i = Some (id_at occurrences i).
Proof. intros [o Ho]%lookup_lt_is_Some_2. rewrite list_lookup_fmap. unfold id_at. by rewrite Ho. Qed.

Lemma validate_schedule_loop_ok occurrences schedule seen order order' :
  NoDup (oc_id <$> occurrences) →
  validate_schedule_loop occurrences schedule seen order = Ok order' ↔
  ∃ tail, order' = order ++ tail ∧ schedule = id_at occurrences <$> tail ∧
    Forall (λ i, (i < length occurrences)%nat) tail ∧ NoDup schedule ∧ Forall (λ id, id ∉ seen) schedule.
Proof.
  intros Hnd. revert seen order. induction schedule as [|id schedule IH]; intros seen order.
  { simpl. split.
    - intros [= <-]. exists []. rewrite app_nil_r. split_and!; constructor.
    - intros ([|] & -> & ? & _); [by rewrite app_nil_r|done]. }
  cbn [validate_schedule_loop]. munfold_goal. setoid_rewrite NoDup_cons. setoid_rewrite Forall_cons.
  destruct (bool_decide_reflect (id ∈ seen)) as [Hseen|Hseen].
  { split; [done|]. naive_solver. }
  pose proof (position_of_spec occurrences id Hnd) as Hpos. destruct (position_of occurrences id) as [i|].
  - destruct Hpos as [Hi Hid]. rewrite IH. split.
    + intros (tail & -> & -> & Ht & Hn & Hf). exists (i :: tail).
      split_and!; [by rewrite <-app_assoc|csimpl; by rewrite Hid|by constructor| |done|done|].
      * intros Hin. rewrite Forall_forall in Hf. specialize (Hf id Hin). set_solver.
      * eapply Forall_impl; [exact Hf|]. intros x. set_solver.
    + intros ([|j tail] & -> & Hsch & Ht & (Hnew & Hn) & _ & Hf); [done|]. csimpl in Hsch. injection Hsch as Hj ->.
      apply Forall_cons in Ht as [Hj' Ht].
      assert (j = i) as ->.
      { apply (NoDup_lookup _ j i id Hnd); rewrite lookup_id by done; congruence. }
      exists tail. split_and!; [by rewrite <-app_assoc|done|done|done|]. apply Forall_forall. intros x Hx.
      rewrite Forall_forall in Hf. specialize (Hf x Hx). intros [->%elem_of_singleton|?]%elem_of_union; done.
  - split; [done|]. intros ([|j tail] & -> & Hsch & Ht & _); [done|]. csimpl in Hsch. injection Hsch as Hj _.
    apply Forall_cons in Ht as [Hj' _]. by destruct (Hpos j).
Qed.

Lemma validate_schedule_ok occurrences schedule order :
  validate_schedule occurrences schedule = Ok order ↔
  len occurrences ≤ MAX_QUOTIENT_OPERATIONS ∧ NoDup (oc_id <$> occurrences) ∧
  order_of occurrences order ∧ schedule = id_at occurrences <$> order.
Proof.
  unfold validate_schedule. munfold_goal. rewrite validate_occurrences_eq.
  destruct (decide (len occurrences ≤ MAX_QUOTIENT_OPERATIONS)); [|naive_solver].
  destruct (decide (NoDup (oc_id <$> occurrences))) as [Hnd|]; [|naive_solver].
  destruct (Z.eqb_spec (len schedule) (len occurrences)) as [Hlen|Hlen]; simpl.
  - rewrite validate_schedule_loop_ok by done. split.
    + intros (tail & -> & -> & Ht & Hn & _). simpl. split_and!; try done.
      unfold len in Hlen. rewrite length_fmap in Hlen.
      apply submseteq_length_Permutation; [|rewrite length_seq; lia].
      apply NoDup_submseteq; [by eapply NoDup_fmap_1|]. intros i Hi. rewrite Forall_forall in Ht.
      specialize (Ht i Hi). apply elem_of_seq. lia.
    + intros (_ & _ & Ho & ->). exists order. split_and!; [done|done|by apply order_in_range| |].
      * apply NoDup_fmap_2_strong; [|by apply (order_of_NoDup occurrences)]. intros i j.
        rewrite !(order_of_elem occurrences order) by done. intros Hi Hj Heq.
        apply (NoDup_lookup _ i j (id_at occurrences i) Hnd); rewrite lookup_id by done; congruence.
      * apply Forall_forall. intros x _ ?%elem_of_empty. done.
  - split; [done|]. intros (_ & _ & Ho & ->). destruct Hlen. unfold len. rewrite length_fmap.
    by rewrite (order_of_length _ _ Ho).
Qed.

Lemma trace_ids_eq {E} occurrences order :
  Forall (λ i, (i < length occurrences)%nat) order → trace_ids (E:=E) occurrences order = Ok (id_at occurrences <$> order).
Proof.
  induction 1 as [|i order Hi _ IH]; [done|]. cbn [trace_ids]. munfold_goal. unfold id_at.
  destruct (lookup_lt_is_Some_2 _ _ Hi) as [o Ho]. rewrite Ho, IH. csimpl. by rewrite Ho.
Qed.

(** A program whose occurrences were built by their constructor. *)
Lemma program_valid_intro occurrences :
  Forall occurrence_valid occurrences → len occurrences ≤ MAX_QUOTIENT_OPERATIONS → NoDup (oc_id <$> occurrences) →
  program_valid occurrences.
Proof. intros Hv Hl Hn. split; [done|done|]. unfold len, MAX_QUOTIENT_OPERATIONS in Hl. lia. Qed.

(** The public canonicalizer and the public replay, on a valid schedule. *)
Lemma canonicalize_eq registry occurrences order :
  program_valid occurrences → order_of occurrences order →
  canonicalize registry occurrences (id_at occurrences <$> order) =
    Ok (mkTraceSchedule (id_at occurrences <$> canonical_of registry occurrences order)).
Proof.
  intros Hprog Ho. pose proof (pv_size _ Hprog) as Hsize. unfold canonicalize. munfold_goal.
  rewrite (proj2 (validate_schedule_ok occurrences (id_at occurrences <$> order) order)).
  2:{ split_and!; [unfold len, MAX_QUOTIENT_OPERATIONS; lia|by apply pv_distinct|done|done]. }
  destruct (relation_eq (E:=Error) registry occurrences Hsize) as (matrix & ev & -> & Hsq & _ & Hentry).
  destruct (canonical_order_eq registry occurrences Hprog (E:=Error) matrix order 0 Hsq Hentry Ho) as (checks & -> & _).
  destruct (canonical_of_facts registry occurrences order Ho) as [Hc _].
  unfold trace. munfold_goal. by rewrite trace_ids_eq by (by apply order_in_range).
Qed.

Lemma quotient_replay_eq occurrences initial adm order :
  program_valid occurrences → estimate occurrences initial = Ok adm → order_of occurrences order →
  quotient_replay occurrences initial (id_at occurrences <$> order) = Ok (run_of occurrences initial order).
Proof.
  intros Hprog Hest Ho. pose proof (pv_size _ Hprog) as Hsize. unfold quotient_replay. munfold_goal. rewrite Hest.
  rewrite (proj2 (validate_schedule_ok occurrences (id_at occurrences <$> order) order)).
  2:{ split_and!; [unfold len, MAX_QUOTIENT_OPERATIONS; lia|by apply pv_distinct|done|done]. }
  by rewrite execute_eq.
Qed.

(** ** Schedules of identities *)

Lemma position_pairs_fmap {A B} (f : A → B) l x y :
  (x, y) ∈ position_pairs (f <$> l) ↔ ∃ a b, x = f a ∧ y = f b ∧ (a, b) ∈ position_pairs l.
Proof.
  induction l as [|z l IH]; [csimpl; setoid_rewrite elem_of_nil; naive_solver|].
  rewrite fmap_cons, position_pairs_cons, IH. setoid_rewrite position_pairs_cons. rewrite list_elem_of_fmap. naive_solver.
Qed.

Section schedules.
Context (registry : TraceRelationRegistry) (occurrences : list ReplayOccurrence).
Abbreviation n := (length occurrences).

(** Every pair that two schedules order differently is independent. *)
Definition reorders (schedule schedule' : list Z) : Prop :=
  ∀ a b, a ∈ occurrences → b ∈ occurrences →
    (oc_id a, oc_id b) ∈ position_pairs schedule → (oc_id b, oc_id a) ∈ position_pairs schedule' →
    trace_independent registry (oc_operation a) (oc_operation b) = true.

Lemma ids_of_positions : oc_id <$> occurrences = id_at occurrences <$> seq 0 n.
Proof.
  apply list_eq. intros i. rewrite (list_lookup_fmap (id_at occurrences)). destruct (decide (i < n)%nat) as [Hi|Hi].
  - rewrite (lookup_id occurrences i Hi), lookup_seq_lt by lia. done.
  - rewrite (lookup_ge_None_2 (seq 0 n)) by (rewrite length_seq; lia). simpl.
    apply lookup_ge_None_2. rewrite length_fmap. lia.
Qed.

Lemma schedule_order schedule :
  schedule ≡ₚ oc_id <$> occurrences → ∃ order, order_of occurrences order ∧ schedule = id_at occurrences <$> order.
Proof. rewrite ids_of_positions. intros (order & -> & Ho)%Permutation_map_inv. exists order. split; [unfold order_of; by symmetry|done]. Qed.

Lemma order_schedule order : order_of occurrences order → id_at occurrences <$> order ≡ₚ oc_id <$> occurrences.
Proof. intros Ho. by rewrite ids_of_positions, Ho. Qed.

Context (Hprog : program_valid occurrences).

Lemma reorders_class order order' :
  order_of occurrences order → order_of occurrences order' →
  reorders (id_at occurrences <$> order) (id_at occurrences <$> order') ↔ same_class registry occurrences order order'.
Proof.
  intros Ho Ho'. split.
  - intros Hr i j Hij Hji. pose proof (position_pairs_elem _ _ _ Hij) as [Hi Hj].
    apply (order_of_elem _ _ _ Ho) in Hi, Hj. destruct (lookup_lt_is_Some_2 _ _ Hi) as [a Ha].
    destruct (lookup_lt_is_Some_2 _ _ Hj) as [b Hb]. unfold commutes. rewrite Ha, Hb.
    apply Hr; [by eapply list_elem_of_lookup_2..| |]; apply position_pairs_fmap.
    + exists i, j. unfold id_at. by rewrite Ha, Hb.
    + exists j, i. unfold id_at. by rewrite Ha, Hb.
  - intros Hc a b (i & Ha)%list_elem_of_lookup (j & Hb)%list_elem_of_lookup.
    pose proof (lookup_lt_Some _ _ _ Ha) as Hi. pose proof (lookup_lt_Some _ _ _ Hb) as Hj.
    assert (∀ k, (k < n)%nat → oc_id a = id_at occurrences k → k = i) as Hia.
    { intros k Hk Hid. apply (id_at_inj occurrences Hprog); [done..|]. rewrite <-Hid. unfold id_at. by rewrite Ha. }
    assert (∀ k, (k < n)%nat → oc_id b = id_at occurrences k → k = j) as Hjb.
    { intros k Hk Hid. apply (id_at_inj occurrences Hprog); [done..|]. rewrite <-Hid. unfold id_at. by rewrite Hb. }
    intros (i1 & j1 & H1 & H2 & Hij)%position_pairs_fmap (j2 & i2 & H3 & H4 & Hji)%position_pairs_fmap.
    pose proof (position_pairs_elem _ _ _ Hij) as [Hi1 Hj1]. pose proof (position_pairs_elem _ _ _ Hji) as [Hj2 Hi2].
    apply (order_of_elem _ _ _ Ho) in Hi1, Hj1. apply (order_of_elem _ _ _ Ho') in Hi2, Hj2.
    apply Hia in H1 as ->; [|done]. apply Hjb in H2 as ->; [|done]. apply Hjb in H3 as ->; [|done]. apply Hia in H4 as ->; [|done].
    specialize (Hc i j Hij Hji). unfold commutes in Hc. by rewrite Ha, Hb in Hc.
Qed.
End schedules.

(** ** Properties *)

(** C6: The independence relation is sound for the machine: on an
    admitted program of constructed occurrences, two schedules that order only
    independent occurrences differently replay to the same state, the same
    result of every occurrence and the same ordered observations. *)
Theorem independent_reordering_replays_alike registry occurrences initial adm schedule schedule'
    (Hvalid : Forall occurrence_valid occurrences) (Hadm : estimate occurrences initial = Ok adm)
    (Hs : schedule ≡ₚ oc_id <$> occurrences) (Hs' : schedule' ≡ₚ oc_id <$> occurrences)
    (Hind : reorders registry occurrences schedule schedule') :
  ∃ replayed, quotient_replay occurrences initial schedule = Ok replayed ∧
    quotient_replay occurrences initial schedule' = Ok replayed.
Proof.
  pose proof Hadm as Hprog. rewrite estimate_eq in Hprog.
  destruct (decide (len occurrences ≤ _)) as [Hl|]; [|done]. destruct (decide (NoDup _)) as [Hn|]; [|done].
  pose proof (program_valid_intro occurrences Hvalid Hl Hn) as Hpv. clear Hprog.
  apply schedule_order in Hs as (order & Ho & ->), Hs' as (order' & Ho' & ->).
  exists (run_of occurrences initial order). split; [by eapply quotient_replay_eq|].
  rewrite (run_of_reorder occurrences Hpv registry initial order order'); [by eapply quotient_replay_eq|done|done|].
  by apply (reorders_class registry occurrences Hpv).
Qed.

(** C7: [canonicalize] computes the representative of a class of
    schedules.  On a valid program it succeeds exactly on the permutations of
    the identities; the canonical schedule only swaps independent occurrences;
    it is the lexicographically least schedule that does; and two schedules
    have the same one exactly when they differ by such swaps. *)
Theorem canonicalize_exact registry occurrences schedule
    (Hvalid : Forall occurrence_valid occurrences) (Hl : len occurrences ≤ MAX_QUOTIENT_OPERATIONS)
    (Hn : NoDup (oc_id <$> occurrences)) :
  (is_ok (canonicalize registry occurrences schedule) = true ↔ schedule ≡ₚ oc_id <$> occurrences) ∧
  ∀ canonical, canonicalize registry occurrences schedule = Ok canonical →
    sc_occurrences canonical ≡ₚ oc_id <$> occurrences ∧
    reorders registry occurrences schedule (sc_occurrences canonical) ∧
    ∀ schedule', schedule' ≡ₚ oc_id <$> occurrences →
      (reorders registry occurrences schedule schedule' ↔ canonicalize registry occurrences schedule' = Ok canonical) ∧
      (reorders registry occurrences schedule schedule' → lex_le (sc_occurrences canonical) schedule').
Proof.
  pose proof (program_valid_intro occurrences Hvalid Hl Hn) as Hpv.
  assert (schedule ≡ₚ oc_id <$> occurrences ∨
    (is_ok (canonicalize registry occurrences schedule) = false ∧ ¬ schedule ≡ₚ oc_id <$> occurrences)) as [Hs|[Hno Hs]].
  { destruct (validate_schedule occurrences schedule) as [order| |] eqn:Hv.
    - apply validate_schedule_ok in Hv as (_ & _ & Ho & ->). left. by apply order_schedule.
    - right. split; [unfold canonicalize; munfold_goal; by rewrite Hv|].
      intros (order & Ho & ->)%schedule_order. rewrite (proj2 (validate_schedule_ok _ _ order)) in Hv; done.
    - right. split; [unfold canonicalize; munfold_goal; by rewrite Hv|].
      intros (order & Ho & ->)%schedule_order. rewrite (proj2 (validate_schedule_ok _ _ order)) in Hv; done. }
  2:{ split; [by rewrite Hno|]. intros c Hc. by rewrite Hc in Hno. }
  apply schedule_order in Hs as (order & Ho & ->). pose proof (canonical_of_facts registry occurrences order Ho) as [Hc Hcl].
  rewrite canonicalize_eq by done. split; [split; [intros _; by apply order_schedule|done]|].
  intros canonical [= <-]. simpl. split_and!; [by apply order_schedule|by apply reorders_class|].
  intros schedule' (order' & Ho' & ->)%schedule_order. rewrite reorders_class, canonicalize_eq by done. split.
  - rewrite <-canonical_of_class by done. split; [by intros ->|].
    intros [= Hids]. symmetry. apply (ids_inj occurrences Hpv); [by apply canonical_of_facts|done..].
  - by apply canonical_of_least.
Qed.

(** A writer of a domain, a check of it, and a reader of another domain. *)
Definition example_program : list ReplayOccurrence :=
  [mkReplayOccurrence 10 (example_operation 1 ∅ {[7]}) (IWrite 7 (Some 2));
   mkReplayOccurrence 20 (example_operation 2 {[7]} ∅) (ICheck 7 (Some 1));
   mkReplayOccurrence 30 (example_operation 3 {[8]} ∅) (IRead 8)].
Definition example_state : ReplayState := mkReplayState {[7 := 1; 8 := 5]} true.

Lemma example_program_valid : Forall occurrence_valid example_program.
Proof. repeat constructor; vm_compute; congruence. Qed.

Lemma example_program_distinct : NoDup (oc_id <$> example_program).
Proof. apply (bool_decide_unpack _). vm_compute. exact I. Qed.

Lemma example_reorders : reorders example_registry example_program [30; 10; 20] [10; 20; 30].
Proof.
  intros a b Ha%list_elem_of_In Hb%list_elem_of_In H1%list_elem_of_In H2%list_elem_of_In.
  destruct Ha as [<-|[<-|[<-|[]]]], Hb as [<-|[<-|[<-|[]]]]; simpl in H1, H2;
    solve [vm_compute; reflexivity|exfalso; naive_solver].
Qed.

Lemma independent_reordering_replays_alike_witness :
  ∃ replayed, quotient_replay example_program example_state [30; 10; 20] = Ok replayed ∧
    quotient_replay example_program example_state [10; 20; 30] = Ok replayed.
Proof.
  apply (independent_reordering_replays_alike example_registry example_program example_state (admission_of 3 2)).
  - exact example_program_valid.
  - vm_compute. reflexivity.
  - apply (bool_decide_unpack _). vm_compute. exact I.
  - reflexivity.
  - exact example_reorders.
Defined.

Lemma canonicalize_exact_witness :
  canonicalize example_registry example_program [30; 10; 20] = Ok (mkTraceSchedule [10; 20; 30]) ∧
  lex_le [10; 20; 30] [30; 10; 20].
Proof.
  assert (canonicalize example_registry example_program [30; 10; 20] = Ok (mkTraceSchedule [10; 20; 30])) as Hc
    by (vm_compute; reflexivity).
  split; [exact Hc|].
  destruct (canonicalize_exact example_registry example_program [30; 10; 20] example_program_valid) as [Hok Hrest];
    [vm_compute; discriminate|exact example_program_distinct|].
  rewrite Hc in Hok. destruct (Hrest _ Hc) as (_ & _ & Hall).
  apply (Hall [30; 10; 20]); [apply (proj1 Hok); reflexivity|].
  intros a b _ _ H1 H2. exfalso. revert H1 H2. apply position_pairs_antisym. apply (bool_decide_unpack _). vm_compute. exact I.
Defined.
