(* ===== verification/Permute.v ===== *)
(** * The next permutation

    Permutations of a list under a key that tells its elements apart, in
    lexicographic order: the successor of one, and what repeated successors
    visit.  The recursive successor here is what the index arithmetic of
    [next_order] computes, see [QuotientVerify.v]. *)

From Stdlib Require Import Factorial.
From stdpp Require Import base tactics numbers list sorting.
From S2P Require Import Prelude Traces.

Section successor.
Context {A : Type} (key : A → Z).

(** Exchanges [x] with the last element of a greater key. *)
Fixpoint exchange_last (x : A) (l : list A) : option (A * list A) :=
  match l with
  | [] => None
  | y :: l =>
    match exchange_last x l with
    | Some (z, l') => Some (z, y :: l')
    | None => if (key x <? key y)%Z then Some (y, x :: l) else None
    end
  end.

Fixpoint successor (l : list A) : option (list A) :=
  match l with
  | [] => None
  | x :: l =>
    match successor l with
    | Some l' => Some (x :: l')
    | None =>
      match exchange_last x l with
      | Some (y, l') => Some (y :: rev l')
      | None => None
      end
    end
  end.

Abbreviation keys l := (key <$> l).
Abbreviation descending l := (StronglySorted (λ a b, (key b < key a)%Z) l).
Abbreviation ascends l := (StronglySorted (λ a b, (key a < key b)%Z) l).

Lemma exchange_last_none x l : exchange_last x l = None ↔ Forall (λ y, (key y ≤ key x)%Z) l.
Proof.
  induction l as [|y l IH]; simpl; [split; [constructor|done]|]. rewrite Forall_cons.
  destruct (exchange_last x l) as [[z l']|]; [split; [done|]; intros [_ Hall]; by apply IH in Hall|].
  destruct (Z.ltb_spec (key x) (key y)); split; try done; [lia|intros _; split; [done|by apply IH]].
Qed.

(** In a descending list, the exchange takes the least of the greater
    elements, and the list stays descending. *)
Lemma exchange_last_some x l z l' :
  descending l → (∀ y, y ∈ l → key y ≠ key x) → exchange_last x l = Some (z, l') →
  z ∈ l ∧ (key x < key z)%Z ∧ z :: l' ≡ₚ x :: l ∧ descending l' ∧
  ∀ y, y ∈ l → (key x < key y)%Z → (key z ≤ key y)%Z.
Proof.
  intros Hd. revert l'. induction Hd as [|y l Hd IH Hall]; intros l' Hne; simpl; [done|].
  rewrite Forall_forall in Hall. assert (∀ y, y ∈ l → key y ≠ key x) as Hne' by (intros y' ?; apply Hne; by right).
  destruct (exchange_last x l) as [[z' l'']|] eqn:E.
  - intros [= -> <-]. destruct (IH l'' Hne' eq_refl) as (Hz & Hlt & Hp & Hd' & Hmin). split_and!.
    + by right.
    + done.
    + rewrite (perm_swap y z), Hp. apply perm_swap.
    + constructor; [done|]. apply Forall_forall. intros w Hw.
      assert (w ∈ x :: l) as [->|Hwl]%elem_of_cons by (rewrite <-Hp; by right); [|auto].
      specialize (Hall z Hz). lia.
    + intros y' [->|Hy']%elem_of_cons Hlt'; [specialize (Hall z Hz); lia|auto].
  - destruct (Z.ltb_spec (key x) (key y)) as [Hlt|]; [|done]. intros [= -> <-].
    apply exchange_last_none in E. rewrite Forall_forall in E. split_and!.
    + left.
    + done.
    + apply perm_swap.
    + constructor; [done|]. apply Forall_forall. intros w Hw. specialize (E w Hw). specialize (Hne' w Hw). lia.
    + intros y' [->|Hy']%elem_of_cons Hlt'; [done|]. specialize (E y' Hy'). lia.
Qed.

Definition distinct (l : list A) : Prop := NoDup (keys l).

Lemma distinct_cons x l : distinct (x :: l) ↔ (∀ y, y ∈ l → key y ≠ key x) ∧ distinct l.
Proof.
  unfold distinct. rewrite fmap_cons, NoDup_cons, list_elem_of_fmap. split; intros [Hx Hl]; (split; [|done]).
  - intros y Hy Heq. apply Hx. eauto.
  - intros (y & Heq & Hy). by apply (Hx y).
Qed.

Lemma distinct_perm l k : l ≡ₚ k → distinct l → distinct k.
Proof. unfold distinct. by intros ->. Qed.

(** No successor: the list is descending. *)
Lemma successor_none l : distinct l → successor l = None ↔ descending l.
Proof.
  induction l as [|x l IH]; intros Hd; [split; [constructor|done]|]. apply distinct_cons in Hd as [Hx Hd].
  specialize (IH Hd). simpl. destruct (successor l) as [l'|].
  { split; [done|]. intros [Hs _]%StronglySorted_inv. by apply IH in Hs. }
  pose proof (exchange_last_none x l) as Hn. rewrite Forall_forall in Hn.
  destruct (exchange_last x l) as [[y l']|]; split; try done.
  - intros [_ Hall]%StronglySorted_inv. rewrite Forall_forall in Hall.
    assert (Some (y, l') = None) as [=]. apply Hn. intros y' Hy'. specialize (Hall y' Hy'). lia.
  - intros _. constructor; [by apply IH|]. apply Forall_forall. intros y Hy. pose proof (proj1 Hn eq_refl y Hy).
    specialize (Hx y Hy). lia.
Qed.

(** Descending lists are greatest, ascending ones least. *)
Lemma descending_greatest l m : descending l → m ≡ₚ l → lex_le (keys m) (keys l).
Proof.
  revert m. induction l as [|x l IH]; intros m Hd Hm; [by apply Permutation_nil_r in Hm as ->|].
  apply StronglySorted_inv in Hd as [Hd Hall]. rewrite Forall_forall in Hall.
  destruct m as [|y m]; [done|]. csimpl.
  assert (y ∈ x :: l) as [->|Hy]%elem_of_cons by (rewrite <-Hm; left).
  - right. split; [done|]. apply IH; [done|]. by apply Permutation_cons_inv in Hm.
  - left. by apply Hall.
Qed.

Lemma ascends_least l m : ascends l → m ≡ₚ l → lex_le (keys l) (keys m).
Proof.
  revert m. induction l as [|x l IH]; intros m Hd Hm; [done|].
  apply StronglySorted_inv in Hd as [Hd Hall]. rewrite Forall_forall in Hall.
  destruct m as [|y m]; [by apply Permutation_nil_l in Hm|]. csimpl.
  assert (y ∈ x :: l) as [->|Hy]%elem_of_cons by (rewrite <-Hm; left).
  - right. split; [done|]. apply IH; [done|]. by apply Permutation_cons_inv in Hm.
  - left. by apply Hall.
Qed.

Lemma descending_rev l : descending l → ascends (rev l).
Proof.
  induction 1 as [|x l Hd IH Hall]; simpl; [constructor|]. rewrite Forall_forall in Hall.
  apply StronglySorted_app. split_and!; [|done|repeat constructor].
  intros a b Ha%list_elem_of_In Hb%list_elem_of_singleton. rewrite <-in_rev in Ha. subst b.
  apply Hall. by apply list_elem_of_In.
Qed.

(** The successor is the next permutation in lexicographic order. *)
Lemma successor_some l l' :
  distinct l → successor l = Some l' →
  l' ≡ₚ l ∧ lex_lt (keys l) (keys l') ∧
  ∀ m, m ≡ₚ l → lex_lt (keys l) (keys m) → lex_le (keys l') (keys m).
Proof.
  revert l'. induction l as [|x l IH]; intros l' Hd; [done|]. apply distinct_cons in Hd as [Hx Hd]. simpl.
  destruct (successor l) as [l1|] eqn:E.
  - intros [= <-]. destruct (IH l1 Hd eq_refl) as (Hp & Hlt & Hnext). split_and!; [by rewrite Hp|csimpl; auto|].
    intros [|y m] Hm; [by apply Permutation_nil_l in Hm|]. csimpl. intros [?|[Hxy Hlm]]; [by left|]. right. split; [done|].
    assert (y ∈ x :: l) as [->|Hy]%elem_of_cons by (rewrite <-Hm; left).
    + apply Hnext; [by apply Permutation_cons_inv in Hm|done].
    + by destruct (Hx y Hy).
  - apply successor_none in E; [|done].
    destruct (exchange_last x l) as [[z l1]|] eqn:Ex; [|done]. intros [= <-].
    destruct (exchange_last_some x l z l1 E Hx Ex) as (Hz & Hlt & Hp & Hd1 & Hmin). split_and!.
    + by rewrite <-Hp, <-Permutation_rev.
    + csimpl. by left.
    + intros [|y m] Hm; [by apply Permutation_nil_l in Hm|]. csimpl.
      assert (y ∈ x :: l) as [->|Hy]%elem_of_cons by (rewrite <-Hm; left).
      * intros [?|[_ Hlm]]; [lia|]. apply Permutation_cons_inv in Hm.
        destruct (lex_lt_irrefl (keys l)). pose proof (descending_greatest l m E Hm) as [Heq|Hgt]%lex_le_lt_eq.
        -- by rewrite Heq in Hlm.
        -- by eapply lex_lt_trans.
      * intros [Hxy|[Heq _]]; [|by destruct (Hx y Hy)]. specialize (Hmin y Hy Hxy).
        destruct (decide (key z = key y)) as [Heq|Hne]; [|left; lia]. right. split; [done|].
        assert (y = z) as ->.
        { destruct (list_elem_of_lookup_1 _ _ Hy) as [i Hi], (list_elem_of_lookup_1 _ _ Hz) as [j Hj].
          assert (i = j) as ->; [|congruence].
          apply (NoDup_lookup _ i j (key y) Hd); rewrite list_lookup_fmap, ?Hi, ?Hj; simpl; congruence. }
        apply ascends_least; [by apply descending_rev|]. rewrite <-Permutation_rev.
        rewrite <-Hp in Hm. by apply Permutation_cons_inv in Hm.
Qed.
End successor.

(** ** Counting permutations *)

Section counting.
Context {A : Type} `{!EqDecision A}.
Implicit Types (l : list A).

Lemma length_interleave (x : A) l : length (interleave x l) = S (length l).
Proof. induction l as [|y l IH]; simpl; [done|]. by rewrite length_fmap, IH. Qed.

Lemma length_bind_const {B} (f : A → list B) l n :
  (∀ x, x ∈ l → length (f x) = n) → length (l ≫= f) = (length l * n)%nat.
Proof.
  induction l as [|x l IH]; intros Hf; [done|]. csimpl. rewrite length_app, Hf by left.
  rewrite IH by (intros y ?; apply Hf; by right). lia.
Qed.
End counting.

Lemma length_permutations {A} (l : list A) : length (permutations l) = fact (length l).
Proof.
  induction l as [|x l IH]; [done|]. cbn [permutations].
  rewrite (length_bind_const (interleave x) _ (S (length l))), IH.
  - simpl. lia.
  - intros p Hp. rewrite length_interleave. apply permutations_Permutation in Hp. by rewrite Hp.
Qed.

Lemma NoDup_interleave {A} (x : A) l : x ∉ l → NoDup (interleave x l).
Proof.
  induction l as [|y l IH]; intros Hx; simpl; [apply NoDup_singleton|]. rewrite not_elem_of_cons in Hx.
  apply NoDup_cons. split; [|apply NoDup_fmap; [intros a b [=]; done|apply IH, Hx]].
  intros (p & [= -> _] & _)%list_elem_of_fmap. by destruct Hx.
Qed.

Lemma filter_keeps {A} (P : A → Prop) `{!∀ x, Decision (P x)} (l : list A) : (∀ x, x ∈ l → P x) → filter P l = l.
Proof.
  induction l as [|x l IH]; intros HP; [done|]. rewrite filter_cons_True by (apply HP; left).
  f_equal. apply IH. intros y ?. apply HP. by right.
Qed.

Lemma NoDup_permutations {A} `{!EqDecision A} (l : list A) : NoDup l → NoDup (permutations l).
Proof.
  induction 1 as [|x l Hx Hl IH]; cbn [permutations]; [apply NoDup_singleton|].
  assert (∀ p, p ∈ permutations l → x ∉ p) as Hfresh.
  { intros p Hp%permutations_Permutation. by rewrite <-Hp. }
  apply NoDup_bind; [|intros p Hp; by apply NoDup_interleave, Hfresh|done].
  assert (∀ p q, x ∉ p → q ∈ interleave x p → filter (λ y, y ≠ x) q = p) as Hfilter.
  { intros p q Hxp (a & b & -> & ->)%elem_of_interleave. rewrite filter_app, filter_cons_False by auto.
    rewrite <-filter_app. apply filter_keeps. intros y Hy ->. done. }
  intros p1 p2 q Hp1 Hp2 Hq1 Hq2. by rewrite <-(Hfilter p1 q), <-(Hfilter p2 q) by auto.
Qed.

Lemma permutations_perm {A} `{!EqDecision A} (l k : list A) : NoDup l → l ≡ₚ k → permutations l ≡ₚ permutations k.
Proof.
  intros Hl Hlk. apply NoDup_Permutation; [by apply NoDup_permutations|apply NoDup_permutations; by rewrite <-Hlk|].
  intros p. rewrite !permutations_Permutation. by rewrite Hlk.
Qed.

(** ** All successors *)

Section visits.
Context {A : Type} (key : A → Z).
Abbreviation keys l := (key <$> l).

Inductive visits : list A → list (list A) → Prop :=
  | visits_last l : successor key l = None → visits l [l]
  | visits_next l l' ls : successor key l = Some l' → visits l' ls → visits l (l :: ls).

Lemma visits_exists_upto n (R : list (list Z)) l :
  (length R ≤ n)%nat → distinct key l → (∀ m, m ≡ₚ l → lex_lt (keys l) (keys m) → keys m ∈ R) → ∃ ls, visits l ls.
Proof.
  revert R l. induction n as [|n IH]; intros R l Hn Hd HR.
  - destruct (successor key l) as [l'|] eqn:E; [|exists [l]; by constructor].
    destruct (successor_some key l l' Hd E) as (Hp & Hlt & _). specialize (HR l' Hp Hlt).
    destruct R; [by apply elem_of_nil in HR|simpl in Hn; lia].
  - destruct (successor key l) as [l'|] eqn:E; [|exists [l]; by constructor].
    destruct (successor_some key l l' Hd E) as (Hp & Hlt & _).
    destruct (IH (filter (λ k, k ≠ keys l') R) l') as (ls & Hls).
    + assert (length (filter (λ k, k ≠ keys l') R) < length R)%nat; [|lia].
      apply (length_filter_lt _ _ (keys l')); [by apply HR|naive_solver].
    + by apply (distinct_perm key l).
    + intros m Hm Hlm. apply list_elem_of_filter. split.
      * intros Heq. rewrite Heq in Hlm. by apply lex_lt_irrefl in Hlm.
      * apply HR; [by rewrite Hm|]. by eapply lex_lt_trans.
    + exists (l :: ls). by econstructor.
Qed.

(** Repeated successors end. *)
Lemma visits_exists l : distinct key l → ∃ ls, visits l ls.
Proof.
  intros Hd. apply (visits_exists_upto (length (permutations (keys l))) (permutations (keys l))); [done|done|].
  intros m Hm _. apply permutations_Permutation. by rewrite Hm.
Qed.

(** They visit greater and greater permutations, and leave none out. *)
Lemma visits_sound l ls :
  visits l ls → distinct key l →
  (∀ m, m ∈ ls → m ≡ₚ l ∧ lex_le (keys l) (keys m)) ∧ NoDup ls ∧
  (∀ m, m ≡ₚ l → lex_le (keys l) (keys m) → keys m ∈ (λ l : list A, keys l) <$> ls).
Proof.
  induction 1 as [l E|l l' ls E _ IH]; intros Hd.
  - split_and!; [|apply NoDup_singleton|].
    + by intros m ->%list_elem_of_singleton.
    + intros m Hm Hle. apply successor_none in E; [|done]. pose proof (descending_greatest key l m E Hm) as Hge.
      rewrite (lex_le_antisym _ _ Hge Hle). left.
  - destruct (successor_some key l l' Hd E) as (Hp & Hlt & Hnext).
    destruct (IH (distinct_perm key l l' (symmetry Hp) Hd)) as (Hin & Hnd & Hall). split_and!.
    + intros m [->|Hm]%elem_of_cons; [done|]. destruct (Hin m Hm) as [Hm' Hle]. split; [by rewrite Hm'|].
      apply lex_le_lt_eq in Hle as [<-|Hle]; apply lex_le_lt_eq; right; [done|by eapply lex_lt_trans].
    + apply NoDup_cons. split; [|done]. intros Hl. destruct (Hin l Hl) as [_ [Heq|Hle]%lex_le_lt_eq].
      * rewrite Heq in Hlt. by apply lex_lt_irrefl in Hlt.
      * apply (lex_lt_irrefl (keys l)). by eapply lex_lt_trans.
    + intros m Hm [Heq|Hlm]%lex_le_lt_eq; [rewrite <-Heq; left|]. right. apply Hall; [by rewrite Hm|by apply Hnext].
Qed.

(** From the ascending list: every permutation once, as many as the factorial
    of the length. *)
Lemma visits_ascending l ls :
  visits l ls → distinct key l → StronglySorted (λ a b, (key a < key b)%Z) l →
  length ls = fact (length l) ∧ (∀ m, m ∈ ls → m ≡ₚ l) ∧
  (λ l : list A, keys l) <$> ls ≡ₚ permutations (keys l).
Proof.
  intros Hv Hd Hs. destruct (visits_sound l ls Hv Hd) as (Hin & Hnd & Hall).
  assert (∀ m, m ≡ₚ l → keys m ∈ (λ l : list A, keys l) <$> ls) as Hall'.
  { intros m Hm. apply Hall; [done|]. by apply ascends_least. }
  assert ((λ l : list A, keys l) <$> ls ≡ₚ permutations (keys l)) as Hperm.
  { apply NoDup_Permutation.
    - apply NoDup_fmap_2_strong; [|done]. intros m1 m2 Hm1 Hm2 Heq.
      destruct (Hin m1 Hm1) as [Hp1 _], (Hin m2 Hm2) as [Hp2 _].
      assert (NoDup (keys m1)) as Hn by (by rewrite Hp1).
      assert (m1 ≡ₚ m2) as Hp12 by (by rewrite Hp1, Hp2).
      apply list_eq_same_length with (n := length m1); [by rewrite Hp12|done|].
      intros i x y _ Hx Hy.
      assert (keys m1 !! i = Some (key x)) as Hkx by (by rewrite list_lookup_fmap, Hx).
      assert (keys m1 !! i = Some (key y)) as Hky by (by rewrite Heq, list_lookup_fmap, Hy).
      assert (y ∈ m1) as (j & Hj)%list_elem_of_lookup by (rewrite Hp12; by eapply list_elem_of_lookup_2).
      assert (keys m1 !! j = Some (key y)) as Hkj by (by rewrite list_lookup_fmap, Hj).
      pose proof (NoDup_lookup _ _ _ _ Hn Hky Hkj) as ->. congruence.
    - by apply NoDup_permutations.
    - intros k. rewrite list_elem_of_fmap, permutations_Permutation. split.
      + intros (m & -> & Hm). destruct (Hin m Hm) as [Hp _]. by rewrite Hp.
      + intros Hk. symmetry in Hk. apply Permutation_map_inv in Hk as (m & -> & Hm). symmetry in Hm.
        by apply Hall', list_elem_of_fmap in Hm. }
  split_and!; [|intros m Hm; by apply Hin|done].
  apply Permutation_length in Hperm. by rewrite length_fmap, length_permutations, length_fmap in Hperm.
Qed.
End visits.
