(* ===== verification/QuotientVerify.v ===== *)
(** * Exhaustive quotient verification

    [verify] of [crates/fa-reference/src/trace_independence/quotient.rs]: every
    permutation of the occurrences is replayed and compared with the replay of
    its canonical order.  The loop visits all permutations, in lexicographic
    order of the identities, and no comparison can fail. *)

From Stdlib Require Import Factorial.
From stdpp Require Import base tactics numbers list gmap sorting.
From S2P Require Import Prelude Bytes Judgment FullInput Traces TraceIndependence Consequence Quotient Canonical Permute.

Local Open Scope Z_scope.

(** ** Model: the next order *)

(** [occurrences[order[i]].id] *)
Definition id_of {E} (occurrences : list ReplayOccurrence) (order : list nat) (i : nat) : res E Z :=
  index ← expect (order !! i);
  occurrence ← expect (occurrences !! index);
  Ok (oc_id occurrence).

(** [(..).rev().find(..)] *)
Fixpoint rfind {E} (f : nat → res E bool) (l : list nat) : res E (option nat) :=
  match l with
  | [] => Ok None
  | i :: l =>
    found ← rfind f l;
    match found with
    | Some j => Ok (Some j)
    | None => b ← f i; Ok (if b : bool then Some i else None)
    end
  end.

(** [slice.swap(a, b)] *)
Definition slice_swap {E A} (l : list A) (a b : nat) : res E (list A) :=
  x ← expect (l !! a);
  y ← expect (l !! b);
  Ok (<[b := x]> (<[a := y]> l)).

(** [Some order] is [true] with the slice updated, [None] is [false]. *)
Definition next_order {E} (occurrences : list ReplayOccurrence) (order : list nat) : res E (option (list nat)) :=
  if (length order <? 2)%nat then Ok None
  else
    pivot ← rfind (λ index, a ← id_of occurrences order index; b ← id_of occurrences order (S index); Ok (a <? b))
      (seq 0 (length order - 1));
    match pivot with
    | None => Ok None
    | Some pivot =>
      successor ← rfind (λ index, a ← id_of occurrences order pivot; b ← id_of occurrences order index; Ok (a <? b))
        (seq (S pivot) (length order - S pivot));
      successor ← expect successor;
      order ← slice_swap order pivot successor;
      Ok (Some (take (S pivot) order ++ rev (drop (S pivot) order)))
    end.

(** ** Model: the comparison *)

Record ReplayProgress := mkReplayProgress {
  pg_unreduced_replays : Z;
  pg_representative_replays : Z;
  pg_compared_schedules : Z;
  pg_replay_steps : Z;
  pg_canonical_checks : Z;
  pg_comparison_entries : Z;
}.

Record ReplayRepresentative := mkReplayRepresentative {
  rr_schedule : TraceSchedule;
  rr_replay : LogicalReplay;
  rr_members : Z;
}.

Record QuotientReport := mkQuotientReport {
  qr_admission : ReplayAdmission;
  qr_relation : RelationEvaluation;
  qr_progress : ReplayProgress;
  qr_representatives : list ReplayRepresentative;
}.

#[global] Instance TraceSchedule_eq_dec : EqDecision TraceSchedule.
Proof. solve_decision. Defined.

Record ReplayMismatch := mkReplayMismatch {
  mm_admission : ReplayAdmission;
  mm_progress : ReplayProgress;
  mm_schedule : TraceSchedule;
  mm_representative : TraceSchedule;
  mm_actual : LogicalReplay;
  mm_expected : LogicalReplay;
}.

Inductive ReplayFailure := FAdmission (error : Error) | FMismatch (mismatch : ReplayMismatch).

(** [key[position] = occurrences[index].id], the rest zero. *)
Definition order_key {E} (occurrences : list ReplayOccurrence) (canonical : list nat) : res E (list Z) :=
  ids ← trace_ids occurrences canonical;
  if (length ids <=? 8)%nat then Ok (ids ++ replicate (8 - length ids) 0) else Panic.

(** What the loop of [verify_relation] updates. *)
Record Comparison := mkComparison {
  cm_order : list nat;
  cm_progress : ReplayProgress;
  cm_representatives : list ReplayRepresentative;
  cm_by_order : gmap (list Z) nat;
}.

(** One round: the canonical order and its representative, the replay of the
    order itself, and the comparison.  [Some c] goes on with [c], and the
    counters are [usize], which the bounds of the admission keep in range. *)
Definition verify_round (occurrences : list ReplayOccurrence) (initial : ReplayState) (admission : ReplayAdmission)
    (matrix : Matrix) (c : Comparison) : res ReplayFailure (Comparison * option (list nat)) :=
  let n := len occurrences in
  let p := cm_progress c in
  '(canonical, checks) ← canonical_order occurrences matrix (cm_order c) (pg_canonical_checks p);
  key ← order_key occurrences canonical;
  '(index, p, representatives, by_order) ←
    match cm_by_order c !! key with
    | Some index =>
      Ok (index, mkReplayProgress (pg_unreduced_replays p) (pg_representative_replays p) (pg_compared_schedules p)
            (pg_replay_steps p) checks (pg_comparison_entries p), cm_representatives c, cm_by_order c)
    | None =>
      replay ← execute occurrences initial canonical;
      schedule ← trace occurrences canonical;
      let index := length (cm_representatives c) in
      Ok (index, mkReplayProgress (pg_unreduced_replays p) (pg_representative_replays p + 1) (pg_compared_schedules p)
            (pg_replay_steps p + n) checks (pg_comparison_entries p),
          cm_representatives c ++ [mkReplayRepresentative schedule replay 0], <[key := index]> (cm_by_order c))
    end;
  actual ← execute occurrences initial (cm_order c);
  let p := mkReplayProgress (pg_unreduced_replays p + 1) (pg_representative_replays p) (pg_compared_schedules p)
    (pg_replay_steps p + n) (pg_canonical_checks p) (pg_comparison_entries p + (ra_maximum_cells admission + 2 * n + 1)) in
  representative ← expect (representatives !! index);
  if bool_decide (actual ≠ rr_replay representative) then
    schedule ← trace occurrences (cm_order c);
    Err (FMismatch (mkReplayMismatch admission p schedule (rr_schedule representative) actual (rr_replay representative)))
  else
    let p := mkReplayProgress (pg_unreduced_replays p) (pg_representative_replays p) (pg_compared_schedules p + 1)
      (pg_replay_steps p) (pg_canonical_checks p) (pg_comparison_entries p) in
    let representatives := <[index := mkReplayRepresentative (rr_schedule representative) (rr_replay representative)
      (rr_members representative + 1)]> representatives in
    next ← next_order occurrences (cm_order c);
    Ok (mkComparison (default (cm_order c) next) p representatives by_order, next).

(** The loop; [verify_exact] shows that as many rounds as there are schedules
    are enough. *)
Fixpoint verify_loop (fuel : nat) (occurrences : list ReplayOccurrence) (initial : ReplayState)
    (admission : ReplayAdmission) (matrix : Matrix) (c : Comparison) : res ReplayFailure Comparison :=
  match fuel with
  | O => Panic
  | S fuel =>
    '(c, next) ← verify_round occurrences initial admission matrix c;
    match next with
    | Some _ => verify_loop fuel occurrences initial admission matrix c
    | None => Ok c
    end
  end.

Definition verify_relation (occurrences : list ReplayOccurrence) (initial : ReplayState) (admission : ReplayAdmission)
    (matrix : Matrix) (evaluation : RelationEvaluation) : res ReplayFailure QuotientReport :=
  c ← verify_loop (Z.to_nat (qb_schedules (ra_required admission))) occurrences initial admission matrix
    (mkComparison (sorted_positions occurrences) (mkReplayProgress 0 0 0 0 (re_evaluated_pairs evaluation) 0) [] ∅);
  (* [debug_assert_eq!] *)
  if pg_compared_schedules (cm_progress c) =? qb_schedules (ra_required admission)
  then Ok (mkQuotientReport admission evaluation (cm_progress c) (cm_representatives c))
  else Panic.

Definition verify (registry : TraceRelationRegistry) (occurrences : list ReplayOccurrence) (initial : ReplayState)
    (budget : QuotientBudget) : res ReplayFailure QuotientReport :=
  admission ← map_err FAdmission (estimate occurrences initial);
  refuse_if (negb (budget_fits budget default_budget) || negb (budget_fits (ra_required admission) budget))
    (FAdmission Limit);;
  '(matrix, evaluation) ← relation registry occurrences;
  verify_relation occurrences initial admission matrix evaluation.

(** ** The next order is the successor *)

Section next.
Context {A : Type} (key : A → Z).

(** The last of [l] with [g]. *)
Fixpoint last_with (g : nat → bool) (l : list nat) : option nat :=
  match l with
  | [] => None
  | i :: l => match last_with g l with Some j => Some j | None => if g i then Some i else None end
  end.

Lemma rfind_eq {E} (f : nat → res E bool) g l :
  (∀ i, i ∈ l → f i = Ok (g i)) → rfind f l = Ok (last_with g l).
Proof.
  induction l as [|i l IH]; intros Hf; [done|]. cbn [rfind last_with]. munfold_goal.
  rewrite IH by (intros j ?; apply Hf; by right). destruct (last_with g l); [done|]. by rewrite Hf by left.
Qed.

Lemma last_with_shift g k m : last_with g (seq (S k) m) = S <$> last_with (λ i, g (S i)) (seq k m).
Proof.
  revert k. induction m as [|m IH]; intros k; [done|]. cbn [seq last_with]. rewrite IH.
  destruct (last_with (λ i, g (S i)) (seq (S k) m)); [done|]. by destruct (g (S k)).
Qed.

Lemma last_with_ext g h l : (∀ i, i ∈ l → g i = h i) → last_with g l = last_with h l.
Proof.
  induction l as [|i l IH]; intros Hgh; [done|]. cbn [last_with]. rewrite IH by (intros j ?; apply Hgh; by right).
  by rewrite Hgh by left.
Qed.

Lemma last_with_none g l : last_with g l = None → ∀ i, i ∈ l → g i = false.
Proof.
  induction l as [|j l IH]; [by intros _ i ?%elem_of_nil|]. cbn [last_with].
  destruct (last_with g l); [done|]. destruct (g j) eqn:E; [done|].
  intros _ i [->|Hi]%elem_of_cons; [done|by apply IH].
Qed.

Lemma last_with_some g l i : last_with g l = Some i → i ∈ l ∧ g i = true.
Proof.
  induction l as [|j l IH]; [done|]. cbn [last_with]. destruct (last_with g l) as [k|].
  - intros [= ->]. destruct (IH eq_refl). split; [by right|done].
  - destruct (g j) eqn:E; [|done]. intros [= ->]. split; [left|done].
Qed.

(** The key at a position, and [next_order] on keys. *)
Definition key_at (l : list A) (i : nat) : Z := default 0 (key <$> l !! i).
Definition pivot_of (l : list A) : option nat :=
  last_with (λ i, key_at l i <? key_at l (S i)) (seq 0 (length l - 1)).
Definition swap_of (l : list A) (p : nat) : option nat :=
  last_with (λ i, key_at l p <? key_at l i) (seq (S p) (length l - S p)).

Definition exchange (l : list A) (a b : nat) : list A :=
  match l !! a, l !! b with Some x, Some y => <[b := x]> (<[a := y]> l) | _, _ => l end.
Definition next_of (l : list A) (p j : nat) : list A :=
  take (S p) (exchange l p j) ++ rev (drop (S p) (exchange l p j)).

Lemma exchange_last_eq x l :
  exchange_last key x l =
    match last_with (λ i, key x <? key_at l i) (seq 0 (length l)) with
    | Some j => y ← l !! j; Some (y, <[j := x]> l)
    | None => None
    end.
Proof.
  induction l as [|y l IH]; [done|]. cbn [exchange_last length seq last_with]. rewrite last_with_shift.
  rewrite IH. change (λ i, key x <? key_at (y :: l) (S i)) with (λ i, key x <? key_at l i).
  destruct (last_with _ (seq 0 (length l))) as [j|] eqn:E; cbn [fmap option_fmap option_map].
  - apply last_with_some in E as [Hj%elem_of_seq _]. destruct (lookup_lt_is_Some_2 l j) as [z Hz]; [lia|].
    simpl. by rewrite Hz.
  - unfold key_at. simpl. by destruct (key x <? key y).
Qed.

Lemma pivot_of_cons x y l :
  pivot_of (x :: y :: l) =
    match pivot_of (y :: l) with Some p => Some (S p) | None => if key x <? key y then Some O else None end.
Proof.
  unfold pivot_of. cbn [length]. rewrite !Nat.sub_succ, !Nat.sub_0_r. cbn [seq last_with]. rewrite last_with_shift.
  change (λ i, key_at (x :: y :: l) (S i) <? key_at (x :: y :: l) (S (S i)))
    with (λ i, key_at (y :: l) i <? key_at (y :: l) (S i)).
  by destruct (last_with _ (seq 0 (length l))).
Qed.

Lemma swap_of_cons x l p : swap_of (x :: l) (S p) = S <$> swap_of l p.
Proof. unfold swap_of. cbn [length]. rewrite Nat.sub_succ, last_with_shift. done. Qed.

Lemma swap_of_head x l : swap_of (x :: l) 0 = S <$> last_with (λ i, key x <? key_at l i) (seq 0 (length l)).
Proof. unfold swap_of. cbn [length]. by rewrite Nat.sub_succ, Nat.sub_0_r, last_with_shift. Qed.

Lemma swap_of_some l p : pivot_of l = Some p → ∃ j, swap_of l p = Some j ∧ (p < j < length l)%nat.
Proof.
  intros [Hp%elem_of_seq Hlt]%last_with_some. destruct (swap_of l p) as [j|] eqn:E.
  - exists j. split; [done|]. apply last_with_some in E as [Hj%elem_of_seq _]. lia.
  - apply last_with_none with (i := S p) in E; [congruence|]. apply elem_of_seq. lia.
Qed.

Lemma next_of_cons x l p j : (p < length l)%nat → (j < length l)%nat → next_of (x :: l) (S p) (S j) = x :: next_of l p j.
Proof.
  intros [a Ha]%lookup_lt_is_Some_2 [b Hb]%lookup_lt_is_Some_2. unfold next_of, exchange. simpl. by rewrite Ha, Hb.
Qed.

Lemma successor_eq l :
  distinct key l →
  successor key l = match pivot_of l with Some p => next_of l p <$> swap_of l p | None => None end.
Proof.
  induction l as [|x l IH]; intros Hd; [done|]. apply distinct_cons in Hd as [Hx Hd]. specialize (IH Hd).
  cbn [successor]. destruct l as [|y l]; [done|]. rewrite pivot_of_cons, IH.
  destruct (pivot_of (y :: l)) as [p|] eqn:Hp.
  - destruct (swap_of_some _ _ Hp) as (j & Hj & Hpj). rewrite swap_of_cons, Hj. cbn [fmap option_fmap option_map].
    by rewrite next_of_cons by lia.
  - apply successor_none in IH; [|done]. pose proof (swap_of_head x (y :: l)) as Hswap. rewrite exchange_last_eq.
    destruct (last_with (λ i, key x <? key_at (y :: l) i) (seq 0 (length (y :: l)))) as [j|] eqn:Hj.
    + apply last_with_some in Hj as [Hj%elem_of_seq Hlt]. destruct (lookup_lt_is_Some_2 (y :: l) j) as [z Hz]; [lia|].
      unfold key_at in Hlt. rewrite Hz in Hlt |- *. simpl in Hlt.
      assert (key z ≤ key y) as Hzy.
      { apply StronglySorted_inv in IH as [_ Hall]. rewrite Forall_forall in Hall.
        apply list_elem_of_lookup_2 in Hz. apply elem_of_cons in Hz as [->|Hz]; [done|]. specialize (Hall z Hz). lia. }
      assert ((key x <? key y) = true) as -> by lia. rewrite Hswap. unfold next_of, exchange.
      simpl in Hz |- *. rewrite Hz. done.
    + apply last_with_none with (i := O) in Hj; [|apply elem_of_seq; simpl; lia]. unfold key_at in Hj. simpl in Hj. by rewrite Hj.
Qed.
End next.

Lemma id_of_eq {E} occurrences order i :
  Forall (λ i, (i < length occurrences)%nat) order → (i < length order)%nat →
  id_of (E:=E) occurrences order i = Ok (key_at (id_at occurrences) order i).
Proof.
  intros Ho [k Hk]%lookup_lt_is_Some_2. unfold id_of, key_at, id_at. munfold_goal. rewrite Hk. simpl.
  rewrite Forall_forall in Ho. destruct (lookup_lt_is_Some_2 occurrences k) as [o Hko].
  { apply Ho. by eapply list_elem_of_lookup_2. }
  by rewrite Hko.
Qed.

Lemma next_order_eq {E} occurrences order :
  Forall (λ i, (i < length occurrences)%nat) order → distinct (id_at occurrences) order →
  next_order (E:=E) occurrences order = Ok (successor (id_at occurrences) order).
Proof.
  intros Ho Hd. unfold next_order. destruct (Nat.ltb_spec (length order) 2) as [Hl|Hl].
  { destruct order as [|x [|y order]]; [done..|]. simpl in Hl. lia. }
  rewrite successor_eq by done. munfold_goal.
  rewrite (rfind_eq _ (λ i, key_at (id_at occurrences) order i <? key_at (id_at occurrences) order (S i))).
  2:{ intros i [_ Hi]%elem_of_seq. by rewrite !id_of_eq by (done || lia). }
  fold (pivot_of (id_at occurrences) order). destruct (pivot_of _ order) as [p|] eqn:Hp; [|done].
  destruct (swap_of_some _ _ _ Hp) as (j & Hj & Hpj).
  rewrite (rfind_eq _ (λ i, key_at (id_at occurrences) order p <? key_at (id_at occurrences) order i)).
  2:{ intros i [_ Hi]%elem_of_seq. by rewrite !id_of_eq by (done || lia). }
  fold (swap_of (id_at occurrences) order p). rewrite Hj. unfold slice_swap, next_of, exchange.
  munfold_goal. destruct (lookup_lt_is_Some_2 order p) as [a Ha]; [lia|].
  destruct (lookup_lt_is_Some_2 order j) as [b Hb]; [lia|]. rewrite Ha, Hb. simpl. by rewrite ?Ha, ?Hb.
Qed.

(** ** The comparison never fails *)

Section comparison.
Context (registry : TraceRelationRegistry) (occurrences : list ReplayOccurrence) (initial : ReplayState).
Context (Hprog : program_valid occurrences) (adm : ReplayAdmission).
Abbreviation n := (length occurrences).

(** The identities of the canonical order of [order]. *)
Definition canon (order : list nat) : list Z := id_at occurrences <$> canonical_of registry occurrences order.
Definition padded (ids : list Z) : list Z := ids ++ replicate (8 - length ids) 0.
Definition members_of (seen : list (list nat)) (order : list nat) : Z :=
  len (filter (λ o, canon o = canon order) seen).

Lemma canon_length order : order_of occurrences order → length (canon order) = n.
Proof. intros Ho. unfold canon. rewrite length_fmap. by apply order_of_length, canonical_of_facts. Qed.

Lemma padded_inj ids ids' : length ids = length ids' → padded ids = padded ids' → ids = ids'.
Proof. intros Hl. unfold padded. rewrite Hl. apply app_inv_tail. Qed.

(** What the loop has established when the classes of [known] are represented
    and the orders [seen] are compared. *)
Record compared (known seen : list (list nat)) (p : ReplayProgress) (representatives : list ReplayRepresentative)
    (by_order : gmap (list Z) nat) : Prop := {
  cp_known : Forall (order_of occurrences) known;
  cp_replays : pg_unreduced_replays p = len seen;
  cp_schedules : pg_compared_schedules p = len seen;
  cp_classes : pg_representative_replays p = len representatives;
  cp_steps : pg_replay_steps p = (len seen + len representatives) * len occurrences;
  cp_entries : pg_comparison_entries p = len seen * (ra_maximum_cells adm + 2 * len occurrences + 1);
  cp_checks : pg_canonical_checks p ≤ len (position_pairs occurrences) +
    len known * (len (position_pairs occurrences) + len occurrences * len occurrences);
  cp_representative : ∀ i representative, representatives !! i = Some representative → ∃ order, order ∈ known ∧
    representative = mkReplayRepresentative (mkTraceSchedule (canon order))
      (run_of occurrences initial (canonical_of registry occurrences order)) (members_of seen order);
  cp_index : ∀ order i, order_of occurrences order →
    by_order !! padded (canon order) = Some i ↔
    rr_schedule <$> representatives !! i = Some (mkTraceSchedule (canon order));
  cp_all : ∀ order, order ∈ known → is_Some (by_order !! padded (canon order));
}.

Lemma compared_distinct known seen p representatives by_order :
  compared known seen p representatives by_order → NoDup (rr_schedule <$> representatives).
Proof.
  intros Hc. apply NoDup_alt. intros i j s Hi Hj. rewrite list_lookup_fmap in Hi, Hj.
  destruct (representatives !! i) as [a|] eqn:Ha; [|done].
  destruct (cp_representative _ _ _ _ _ Hc i a Ha) as (o & Ho & ->). simpl in Hi. injection Hi as <-.
  pose proof (cp_known _ _ _ _ _ Hc) as Hseen. rewrite Forall_forall in Hseen. specialize (Hseen o Ho).
  pose proof (cp_index _ _ _ _ _ Hc o) as Hidx.
  pose proof (proj2 (Hidx i Hseen)) as Hbi. rewrite Ha in Hbi. specialize (Hbi eq_refl).
  pose proof (proj2 (Hidx j Hseen) Hj) as Hbj. congruence.
Qed.

(** No more classes than orders. *)
Lemma compared_classes known seen p representatives by_order :
  compared known seen p representatives by_order → len representatives ≤ len known.
Proof.
  intros Hc. pose proof (compared_distinct _ _ _ _ _ Hc) as Hnd.
  assert (rr_schedule <$> representatives ⊆+ (λ o, mkTraceSchedule (canon o)) <$> known) as Hsub.
  { apply NoDup_submseteq; [done|]. intros s (r & -> & Hr)%list_elem_of_fmap.
    apply list_elem_of_lookup in Hr as [i Hi]. destruct (cp_representative _ _ _ _ _ Hc i r Hi) as (o & Ho & ->).
    apply list_elem_of_fmap. eauto. }
  apply submseteq_length in Hsub. rewrite !length_fmap in Hsub. unfold len. lia.
Qed.

Lemma members_of_add seen order order' :
  members_of (order' :: seen) order = members_of seen order + if decide (canon order' = canon order) then 1 else 0.
Proof. unfold members_of, len. rewrite filter_cons. destruct (decide _); simpl; lia. Qed.

Lemma compared_empty ev :
  ev = len (position_pairs occurrences) → compared [] [] (mkReplayProgress 0 0 0 0 ev 0) [] ∅.
Proof.
  intros ->. split; try done.
  - simpl. change (len (@nil (list nat))) with 0. lia.
  - intros o ?%elem_of_nil. done.
Qed.

(** The representative of a further order: found, or executed. *)
Lemma compared_class {E} known p representatives by_order order checks :
  compared known known p representatives by_order → order_of occurrences order →
  checks ≤ pg_canonical_checks p + (len (position_pairs occurrences) + len occurrences * len occurrences) →
  let canonical := canonical_of registry occurrences order in
  ∃ index p' representatives' by_order',
    match by_order !! padded (canon order) with
    | Some index =>
      Ok (index, mkReplayProgress (pg_unreduced_replays p) (pg_representative_replays p) (pg_compared_schedules p)
            (pg_replay_steps p) checks (pg_comparison_entries p), representatives, by_order)
    | None =>
      replay ← execute occurrences initial canonical;
      schedule ← trace occurrences canonical;
      let index := length representatives in
      Ok (index, mkReplayProgress (pg_unreduced_replays p) (pg_representative_replays p + 1) (pg_compared_schedules p)
            (pg_replay_steps p + len occurrences) checks (pg_comparison_entries p),
          representatives ++ [mkReplayRepresentative schedule replay 0], <[padded (canon order) := index]> by_order)
    end = Ok (E:=E) (index, p', representatives', by_order') ∧
    compared (order :: known) known p' representatives' by_order' ∧
    by_order' !! padded (canon order) = Some index.
Proof.
  intros Hc Ho Hch canonical. pose proof (canonical_of_facts registry occurrences order Ho) as [Hcan _].
  assert (len (order :: known) = len known + 1) as Hlen by (unfold len; simpl; lia).
  pose proof (cp_checks _ _ _ _ _ Hc) as Hchecks.
  destruct (by_order !! padded (canon order)) as [index|] eqn:Hi.
  - do 4 eexists. split; [reflexivity|]. split; [|done]. destruct Hc; split; simpl; try done.
    + by constructor.
    + rewrite Hlen. lia.
    + intros i r Hr. destruct (cp_representative0 i r Hr) as (o & Hok & ->). exists o. split; [by right|done].
    + intros o [->|Hok]%elem_of_cons; [by rewrite Hi|auto].
  - munfold_goal. unfold trace. munfold_goal. rewrite execute_eq, trace_ids_eq by (done || by apply order_in_range).
    do 4 eexists. split; [reflexivity|]. split; [|by rewrite lookup_insert_eq]. fold (canon order).
    assert (∀ o, o ∈ known → canon o ≠ canon order) as Hne.
    { intros o Hok Heq. destruct (cp_all _ _ _ _ _ Hc o Hok) as [i Hio]. by rewrite Heq, Hi in Hio. }
    assert (∀ r, len (representatives ++ [r]) = len representatives + 1) as Hlr
      by (intros r; unfold len; rewrite length_app; simpl; lia).
    destruct Hc; split; simpl; try done.
    + by constructor.
    + rewrite Hlr. lia.
    + rewrite Hlr. lia.
    + rewrite Hlen. lia.
    + intros i r [Hr|[? Hr]]%lookup_app_Some.
      { destruct (cp_representative0 i r Hr) as (o & Hok & ->). exists o. split; [by right|done]. }
      apply list_lookup_singleton_Some in Hr as [_ <-]. exists order. split; [left|]. f_equal.
      unfold members_of. rewrite filter_none; [done|]. intros o Hok. by apply Hne.
    + intros o i Hoo. destruct (decide (canon o = canon order)) as [->|Hdiff].
      * rewrite lookup_insert_eq. split.
        -- intros [= <-]. by rewrite lookup_app_r, Nat.sub_diag by done.
        -- intros Hr. f_equal. destruct (decide (i < length representatives)%nat) as [Hlt|Hge].
           { rewrite lookup_app_l in Hr by done. apply cp_index0 in Hr; [congruence|done]. }
           rewrite lookup_app_r in Hr by lia. destruct (i - length representatives)%nat eqn:Hd; [lia|done].
      * rewrite lookup_insert_ne.
        2:{ intros Heq. apply Hdiff. symmetry. eapply padded_inj; [|done]. by rewrite !canon_length. }
        rewrite cp_index0 by done. destruct (decide (i < length representatives)%nat) as [Hlt|Hge].
        { by rewrite lookup_app_l. }
        rewrite lookup_app_r, lookup_ge_None_2 by lia. destruct (i - length representatives)%nat; simpl; [|done].
        split; [done|]. intros [= Heq]. destruct Hdiff. symmetry. exact Heq.
    + intros o [->|Hok]%elem_of_cons; [by rewrite lookup_insert_eq|].
      rewrite lookup_insert_ne; [auto|]. intros Heq. apply (Hne o Hok). symmetry. eapply padded_inj; [|done].
      rewrite !canon_length; [done| |done]. rewrite Forall_forall in cp_known0. by apply cp_known0.
Qed.

(** The comparison of an order with its representative: it agrees, and counts
    as a member. *)
Lemma compared_member known p representatives by_order order index :
  compared (order :: known) known p representatives by_order →
  by_order !! padded (canon order) = Some index →
  ∃ representative, representatives !! index = Some representative ∧
    rr_replay representative = run_of occurrences initial order ∧
    compared (order :: known) (order :: known)
      (mkReplayProgress (pg_unreduced_replays p + 1) (pg_representative_replays p) (pg_compared_schedules p + 1)
        (pg_replay_steps p + len occurrences) (pg_canonical_checks p)
        (pg_comparison_entries p + (ra_maximum_cells adm + 2 * len occurrences + 1)))
      (<[index := mkReplayRepresentative (rr_schedule representative) (rr_replay representative)
        (rr_members representative + 1)]> representatives) by_order.
Proof.
  intros Hc Hi. pose proof (cp_known _ _ _ _ _ Hc) as Hknown. apply Forall_cons in Hknown as [Ho _].
  pose proof (proj1 (cp_index _ _ _ _ _ Hc order index Ho) Hi) as Hr.
  destruct (representatives !! index) as [r|] eqn:Hri; [|done]. exists r. split; [done|].
  destruct (cp_representative _ _ _ _ _ Hc index r Hri) as (o & Hok & Hreq).
  rewrite Hreq in Hr. simpl in Hr. injection Hr as Hcanon. fold (canon o) (canon order) in Hcanon.
  assert (order_of occurrences o) as Hoo.
  { pose proof (cp_known _ _ _ _ _ Hc) as Hk. rewrite Forall_forall in Hk. by apply Hk. }
  assert (canonical_of registry occurrences o = canonical_of registry occurrences order) as Hcan.
  { apply (ids_inj occurrences Hprog); [by apply canonical_of_facts..|done]. }
  split.
  { rewrite Hreq. simpl. rewrite Hcan. symmetry. by apply run_of_canonical. }
  assert (len (order :: known) = len known + 1) as Hlen by (unfold len; simpl; lia).
  assert (∀ r', len (<[index := r']> representatives) = len representatives) as Hlr
    by (intros r'; unfold len; by rewrite length_insert).
  pose proof (compared_distinct _ _ _ _ _ Hc) as Hnd.
  destruct Hc; split; simpl; rewrite ?Hlr, ?Hlen in *; try done; try lia.
  - intros i r' Hr'. destruct (decide (i = index)) as [->|Hne].
    + rewrite list_lookup_insert_eq in Hr' by (by eapply lookup_lt_Some). injection Hr' as <-.
      exists order. split; [left|]. rewrite Hreq. simpl. rewrite members_of_add, decide_True, Hcan by done.
      unfold members_of. fold (canon o). by rewrite Hcanon.
    + rewrite list_lookup_insert_ne in Hr' by done. destruct (cp_representative0 i r' Hr') as (o' & Ho' & Hreq').
      exists o'. split; [done|]. rewrite members_of_add, decide_False, Z.add_0_r; [done|].
      intros Heq. destruct Hne. apply (NoDup_lookup _ i index (rr_schedule r) Hnd); rewrite list_lookup_fmap; [|by rewrite Hri].
      rewrite Hr', Hreq, Hreq'. simpl. do 2 f_equal. congruence.
  - intros o' i Ho'. rewrite cp_index0 by done. destruct (decide (i = index)) as [->|Hne].
    + rewrite list_lookup_insert_eq by (by eapply lookup_lt_Some). by rewrite Hri.
    + by rewrite list_lookup_insert_ne.
Qed.

(** ** The loop *)

Context (matrix : Matrix) (Hsquare : square matrix).
Context (Hentry : ∀ i j, (i < n)%nat → (j < n)%nat → i ≠ j → entry matrix i j = commutes registry occurrences i j).

Definition compared_at (known : list (list nat)) (c : Comparison) : Prop :=
  compared known known (cm_progress c) (cm_representatives c) (cm_by_order c).

Lemma position_pairs_order order : order_of occurrences order → len (position_pairs order) = len (position_pairs occurrences).
Proof.
  intros Ho. pose proof (position_pairs_length order) as H1. pose proof (position_pairs_length occurrences) as H2.
  rewrite (order_of_length _ _ Ho) in H1. unfold len. lia.
Qed.

Lemma order_key_eq {E} order :
  order_of occurrences order →
  order_key (E:=E) occurrences (canonical_of registry occurrences order) = Ok (padded (canon order)).
Proof.
  intros Ho. pose proof (canonical_of_facts registry occurrences order Ho) as [Hcan _]. unfold order_key. munfold_goal.
  rewrite trace_ids_eq by by apply order_in_range. fold (canon order). rewrite canon_length by done.
  pose proof (pv_size _ Hprog) as Hn. unfold padded. rewrite canon_length by done.
  by destruct (Nat.leb_spec n 8); [|lia].
Qed.

Lemma verify_round_eq known c :
  compared_at known c → order_of occurrences (cm_order c) →
  ∃ c', verify_round occurrences initial adm matrix c = Ok (c', successor (id_at occurrences) (cm_order c)) ∧
    compared_at (cm_order c :: known) c' ∧
    cm_order c' = default (cm_order c) (successor (id_at occurrences) (cm_order c)).
Proof.
  intros Hc Ho. unfold verify_round.
  destruct (canonical_order_eq registry occurrences Hprog (E:=ReplayFailure) matrix (cm_order c)
    (pg_canonical_checks (cm_progress c)) Hsquare Hentry Ho) as (checks & Hcan & Hchecks).
  rewrite position_pairs_order in Hchecks by done.
  destruct (compared_class (E:=ReplayFailure) known (cm_progress c) (cm_representatives c) (cm_by_order c) (cm_order c)
    checks Hc Ho) as (index & p & reps & by_order & Hfound & Hc1 & Hidx); [lia|].
  destruct (compared_member known p reps by_order (cm_order c) index Hc1 Hidx) as (r & Hr & Hrun & Hc2).
  unfold trace in Hfound |- *. munfold_goal. rewrite Hcan, order_key_eq by done. cbv beta iota zeta delta [mbind res_bind mret res_ret] in Hfound.
  rewrite Hfound, (execute_eq occurrences Hprog) by done. rewrite Hr, <-Hrun, bool_decide_false by tauto.
  rewrite next_order_eq by first [by apply order_in_range|by apply id_at_NoDup].
  eexists. split; [reflexivity|]. split; [exact Hc2|done].
Qed.

Lemma verify_loop_eq known c ls fuel :
  compared_at known c → visits (id_at occurrences) (cm_order c) ls → Forall (order_of occurrences) ls →
  (length ls ≤ fuel)%nat →
  ∃ c', verify_loop fuel occurrences initial adm matrix c = Ok c' ∧ compared_at (rev ls ++ known) c'.
Proof.
  revert known c ls. induction fuel as [|fuel IH]; intros known c ls Hc Hv Hls Hfuel.
  { destruct Hv; simpl in Hfuel; lia. }
  cbn [verify_loop]. munfold_goal.
  assert (order_of occurrences (cm_order c)) as Ho by (destruct Hv; by apply Forall_cons in Hls as [? _]).
  destruct (verify_round_eq known c Hc Ho) as (c1 & -> & Hc1 & Hord).
  inversion Hv as [l Hnone|l l' ls' Hsome Hv']; subst; clear Hv; [rewrite Hnone|rewrite Hsome].
  - exists c1. split; [done|]. exact Hc1.
  - rewrite Hsome in Hord. simpl in Hord. subst l'. apply Forall_cons in Hls as [_ Hls].
    destruct (IH (cm_order c :: known) c1 ls' Hc1 Hv' Hls) as (c' & Hc' & Hcc); [simpl in Hfuel; lia|].
    exists c'. split; [exact Hc'|]. simpl. by rewrite <-app_assoc.
Qed.
End comparison.

(** ** The report *)

(** The members of a class: the permutations with that canonical schedule. *)
Definition class_members (registry : TraceRelationRegistry) (occurrences : list ReplayOccurrence)
    (canonical : TraceSchedule) : list (list Z) :=
  filter (λ schedule, canonicalize registry occurrences schedule = Ok canonical) (permutations (oc_id <$> occurrences)).

(** The counters stay within the admission, the exact ones are met. *)
Definition progress_within (p : ReplayProgress) (classes : Z) (required : QuotientBudget) : Prop :=
  pg_unreduced_replays p = qb_schedules required ∧ pg_compared_schedules p = qb_schedules required ∧
  pg_representative_replays p = classes ∧ pg_comparison_entries p = qb_comparison_entries required ∧
  pg_replay_steps p ≤ qb_replay_steps required ∧ pg_canonical_checks p ≤ qb_canonical_checks required.

(** A report that describes the quotient of the program. *)
Record report_exact (registry : TraceRelationRegistry) (occurrences : list ReplayOccurrence) (initial : ReplayState)
    (report : QuotientReport) : Prop := {
  rx_admission : estimate occurrences initial = Ok (qr_admission report);
  rx_progress : progress_within (qr_progress report) (len (qr_representatives report)) (ra_required (qr_admission report));
  rx_distinct : NoDup (rr_schedule <$> qr_representatives report);
  rx_complete : ∀ schedule, schedule ≡ₚ oc_id <$> occurrences →
    ∃ r, r ∈ qr_representatives report ∧ canonicalize registry occurrences schedule = Ok (rr_schedule r);
  rx_replay : ∀ r schedule, r ∈ qr_representatives report → schedule ≡ₚ oc_id <$> occurrences →
    canonicalize registry occurrences schedule = Ok (rr_schedule r) →
    quotient_replay occurrences initial schedule = Ok (rr_replay r);
  rx_members : ∀ r, r ∈ qr_representatives report →
    rr_members r = len (class_members registry occurrences (rr_schedule r)) ∧ 0 < rr_members r;
}.

Lemma sorted_positions_ascend occurrences :
  program_valid occurrences →
  StronglySorted (λ a b, id_at occurrences a < id_at occurrences b) (sorted_positions occurrences).
Proof.
  intros Hprog. pose proof (id_at_NoDup occurrences Hprog _ (sorted_positions_order occurrences)) as Hnd.
  pose proof (sorted_positions_sorted occurrences) as Hs. revert Hnd.
  induction Hs as [|i l Hs IH Hall]; intros Hnd; [constructor|]. rewrite fmap_cons, NoDup_cons in Hnd.
  destruct Hnd as [Hi Hnd]. constructor; [by apply IH|]. rewrite Forall_forall in Hall |- *. intros j Hj.
  specialize (Hall j Hj). assert (id_at occurrences i ≠ id_at occurrences j); [|lia].
  intros Heq. apply Hi. rewrite Heq. by apply list_elem_of_fmap_2.
Qed.

Section report.
Context (registry : TraceRelationRegistry) (occurrences : list ReplayOccurrence) (initial : ReplayState).
Context (Hprog : program_valid occurrences) (adm : ReplayAdmission) (Hadm : estimate occurrences initial = Ok adm).

Lemma class_members_eq known order :
  (λ o : list nat, id_at occurrences <$> o) <$> known ≡ₚ permutations (oc_id <$> occurrences : list Z) →
  Forall (order_of occurrences) known →
  len (class_members registry occurrences (mkTraceSchedule (canon registry occurrences order))) =
  members_of registry occurrences known order.
Proof.
  intros Hperm Hknown. unfold class_members, members_of, len. rewrite <-Hperm, length_filter_fmap.
  do 2 f_equal. clear Hperm. induction Hknown as [|o known Ho _ IH]; [done|]. rewrite !filter_cons, IH.
  apply decide_ext. rewrite canonicalize_eq by done. unfold canon. split; [by intros [= ->]|by intros ->].
Qed.

Lemma progress_within_intro known p representatives by_order :
  compared registry occurrences initial adm known known p representatives by_order →
  (λ o : list nat, id_at occurrences <$> o) <$> known ≡ₚ permutations (oc_id <$> occurrences : list Z) →
  progress_within p (len representatives) (ra_required adm).
Proof.
  intros Hc Hperm%Permutation_length. rewrite length_fmap, length_permutations, length_fmap in Hperm.
  pose proof (compared_classes _ _ _ _ _ _ _ _ _ Hc) as Hclasses. destruct Hc.
  pose proof (position_pairs_length occurrences) as Hpairs.
  assert (length (position_pairs occurrences) = (length occurrences * (length occurrences - 1)) / 2)%nat as Hdiv
    by (rewrite <-Hpairs, Nat.mul_comm; symmetry; by apply Nat.div_mul).
  assert (len known = Z.of_nat (fact (length occurrences))) as Hknown by (unfold len; by rewrite Hperm).
  rewrite estimate_eq in Hadm. repeat (destruct (decide _) in Hadm; [|done]). injection Hadm as Heq.
  rewrite <-Heq in *. unfold progress_within, admission_of. simpl in *. rewrite <-Hdiv. unfold len in *. split_and!; nia.
Qed.

Lemma report_exact_intro known p representatives by_order ev :
  compared registry occurrences initial adm known known p representatives by_order →
  (λ o : list nat, id_at occurrences <$> o) <$> known ≡ₚ permutations (oc_id <$> occurrences : list Z) →
  report_exact registry occurrences initial (mkQuotientReport adm ev p representatives).
Proof.
  intros Hc Hperm. pose proof (cp_known _ _ _ _ _ _ _ _ _ Hc) as Hknown.
  pose proof (canonicalize_eq registry occurrences) as Hcanonicalize.
  assert (∀ schedule, schedule ≡ₚ oc_id <$> occurrences → ∃ o, schedule = id_at occurrences <$> o ∧ o ∈ known) as Hsched.
  { intros s Hs. symmetry in Hs. apply permutations_Permutation in Hs. rewrite <-Hperm in Hs.
    by apply list_elem_of_fmap in Hs. }
  assert (∀ r, r ∈ representatives → ∃ o, o ∈ known ∧ order_of occurrences o ∧ r = mkReplayRepresentative
    (mkTraceSchedule (canon registry occurrences o))
    (run_of occurrences initial (canonical_of registry occurrences o)) (members_of registry occurrences known o)) as Hrep.
  { intros r [i Hi]%list_elem_of_lookup. destruct (cp_representative _ _ _ _ _ _ _ _ _ Hc i r Hi) as (o & Hok & ->).
    exists o. rewrite Forall_forall in Hknown. auto. }
  rewrite Forall_forall in Hknown. split; simpl.
  - done.
  - by eapply progress_within_intro.
  - by eapply compared_distinct.
  - intros s (o & -> & Hok)%Hsched. destruct (cp_all _ _ _ _ _ _ _ _ _ Hc o Hok) as [i Hi].
    apply (cp_index _ _ _ _ _ _ _ _ _ Hc) in Hi; [|auto]. destruct (representatives !! i) as [r|] eqn:Hr; [|done].
    exists r. split; [by eapply list_elem_of_lookup_2|]. rewrite Hcanonicalize by auto. simpl in Hi.
    injection Hi as Hi. by rewrite Hi.
  - intros r s (o & Hok & Ho & ->)%Hrep (o' & -> & Hok')%Hsched. rewrite Hcanonicalize by auto. simpl.
    intros [= Heq]. rewrite (quotient_replay_eq occurrences initial adm) by auto. f_equal.
    rewrite (run_of_canonical registry occurrences Hprog) by auto. f_equal.
    apply (ids_inj occurrences Hprog); [by apply canonical_of_facts; auto..|done].
  - intros r (o & Hok & Ho & ->)%Hrep. simpl. rewrite (class_members_eq known) by (done || by apply Forall_forall). split; [done|].
    unfold members_of, len. assert (o ∈ filter (λ o', canon registry occurrences o' = canon registry occurrences o) known) as Hin
      by (by apply list_elem_of_filter).
    destruct (filter _ known); [by apply elem_of_nil in Hin|simpl; lia].
Qed.
End report.

(** ** Properties *)

(** C9: [verify] checks the whole quotient and always accepts it.  On
    constructed occurrences it returns exactly the errors of [estimate] and of
    an insufficient budget; otherwise a report, never a mismatch and never a
    panic: every permutation is compared once (the counters meet the admitted
    ones), the representatives are distinct and cover every schedule, each
    schedule of a class replays to its representative's replay, and the member
    counts are the sizes of the classes. *)
Theorem verify_exact registry occurrences initial budget (Hvalid : Forall occurrence_valid occurrences) :
  match estimate occurrences initial with
  | Ok admission =>
    if budget_fits budget default_budget && budget_fits (ra_required admission) budget
    then ∃ report, verify registry occurrences initial budget = Ok report ∧
      report_exact registry occurrences initial report
    else verify registry occurrences initial budget = Err (FAdmission Limit)
  | Err e => verify registry occurrences initial budget = Err (FAdmission e)
  | Panic => False
  end.
Proof.
  unfold verify. munfold_goal. destruct (estimate occurrences initial) as [adm|e|] eqn:Hadm; [|done|].
  2:{ rewrite estimate_eq in Hadm. by repeat (destruct (decide _) in Hadm; [|done]). }
  rewrite <-negb_andb. destruct (budget_fits budget default_budget && _); [simpl|done].
  pose proof Hadm as Hest. rewrite estimate_eq in Hest.
  destruct (decide (len occurrences ≤ _)) as [Hl|] in Hest; [|done].
  destruct (decide (NoDup _)) as [Hn|] in Hest; [|done]. destruct (decide _) as [_|] in Hest; [|done].
  pose proof (program_valid_intro occurrences Hvalid Hl Hn) as Hprog. pose proof (pv_size _ Hprog) as Hsize.
  destruct (relation_eq (E:=ReplayFailure) registry occurrences Hsize) as (matrix & ev & -> & Hsq & Hev & Hentry).
  pose proof (sorted_positions_order occurrences) as Hsorted.
  pose proof (id_at_NoDup occurrences Hprog _ Hsorted) as Hdist.
  destruct (visits_exists (id_at occurrences) (sorted_positions occurrences) Hdist) as [ls Hv].
  destruct (visits_ascending _ _ _ Hv Hdist (sorted_positions_ascend _ Hprog)) as (Hlen & Hin & Hperm).
  rewrite (order_of_length _ _ Hsorted) in Hlen. unfold verify_relation. munfold_goal.
  destruct (verify_loop_eq registry occurrences initial Hprog adm matrix Hsq Hentry []
    (mkComparison (sorted_positions occurrences) (mkReplayProgress 0 0 0 0 (re_evaluated_pairs ev) 0) [] ∅) ls
    (Z.to_nat (qb_schedules (ra_required adm)))) as (c & -> & Hc).
  - apply compared_empty. rewrite evaluate_bounded_pairs_eq in Hev. destruct (decide _) in Hev; [|done].
    injection Hev as <-. simpl. pose proof (position_pairs_length (oc_operation <$> occurrences)) as H1.
    pose proof (position_pairs_length occurrences) as H2. rewrite length_fmap in H1. unfold len. lia.
  - done.
  - apply Forall_forall. intros m Hm. unfold order_of. by rewrite Hin.
  - injection Hest as <-. simpl. lia.
  - rewrite app_nil_r in Hc. unfold compared_at in Hc.
    assert (report_exact registry occurrences initial (mkQuotientReport adm ev (cm_progress c) (cm_representatives c)))
      as Hreport.
    { eapply report_exact_intro; [done|done|exact Hc|]. rewrite <-Permutation_rev, Hperm.
      apply permutations_perm; [done|]. by apply order_schedule. }
    destruct (rx_progress _ _ _ _ Hreport) as (_ & Hcount & _). simpl in Hcount. rewrite Hcount, Z.eqb_refl. eauto.
Qed.

Lemma verify_exact_witness :
  ∃ report, verify example_registry example_program example_state default_budget = Ok report ∧
    report_exact example_registry example_program example_state report ∧ len (qr_representatives report) = 2.
Proof.
  pose proof (verify_exact example_registry example_program example_state default_budget example_program_valid) as H.
  assert (estimate example_program example_state = Ok (admission_of 3 2)) as Hest by (vm_compute; reflexivity).
  rewrite Hest in H.
  assert (budget_fits default_budget default_budget && budget_fits (ra_required (admission_of 3 2)) default_budget = true)
    as Hfits by (vm_compute; reflexivity).
  rewrite Hfits in H. destruct H as (report & Hreport & Hexact).
  exists report. split; [exact Hreport|]. split; [exact Hexact|].
  assert (match verify example_registry example_program example_state default_budget with
    | Ok r => len (qr_representatives r) | _ => 0 end = 2) as Hlen by (vm_compute; reflexivity).
  rewrite Hreport in Hlen. exact Hlen.
Defined.
