(* ===== verification/Review.v ===== *)
(** * Congress reviews

    [crates/fa-reference/src/round/review.rs]: a policy with weighted members
    in cohorts, frozen before a commit and reveal round, and the evaluation
    that turns the revealed verdicts into a reduction.  Strings are byte
    strings, ordered as Rust orders them. *)

From Stdlib Require Import Strings.Byte.
From stdpp Require Import base tactics numbers list gmap.
From S2P Require Import Prelude Bytes Judgment Round Reducer.

Local Open Scope Z_scope.

(** ** Model *)

(** [Member] *)
Record ReviewMember := mkReviewMember { rm_id : bytes; rm_cohort : bytes; rm_weight : Z }.

(** [Requirements] *)
Record ReviewRequirements := mkReviewRequirements {
  rq_caps : Caps;
  rq_min_permit_weight : Z;
  rq_max_hold_weight : Z;
  rq_min_permit_cohorts : Z;
}.

Record ReviewPolicy := mkReviewPolicy {
  rp_members : gmap bytes ReviewMember;
  rp_requirements : ReviewRequirements;
}.

(** The registration loop of [ReviewPolicy::new]. *)
Fixpoint register_members (members : list ReviewMember) (registered : gmap bytes ReviewMember)
    : res Error (gmap bytes ReviewMember) :=
  match members with
  | [] => Ok registered
  | member :: members =>
    refuse_if (bool_decide (rm_id member = []) || bool_decide (rm_cohort member = [])) InvalidInput;;
    refuse_if ((MAX_IDENTIFIER_BYTES <? len (rm_id member)) || (MAX_IDENTIFIER_BYTES <? len (rm_cohort member))) Limit;;
    refuse_if (bool_decide (is_Some (registered !! rm_id member))) Duplicate;;
    register_members members (<[rm_id member := member]> registered)
  end.

Definition policy_weights (self : ReviewPolicy) : gmap bytes Z := rm_weight <$> rp_members self.

(** [votes] calls its argument on the members in order; the calls of
    [evaluate] index a map and may abort. *)
Fixpoint collect_votes (recommendation : bytes → res Error Recommendation) (members : list (bytes * ReviewMember))
    : res Error (list Vote) :=
  match members with
  | [] => Ok []
  | (id, member) :: members =>
    r ← recommendation id;
    votes ← collect_votes recommendation members;
    Ok (Empirical id (rm_cohort member) r :: votes)
  end.
Definition policy_votes (self : ReviewPolicy) (recommendation : bytes → res Error Recommendation) : res Error (list Vote) :=
  collect_votes recommendation (entries (rp_members self)).

Definition review_policy_new (members : list ReviewMember) (requirements : ReviewRequirements) : res Error ReviewPolicy :=
  refuse_if (match members with [] => true | _ => false end) Missing;;
  refuse_if (MAX_VOTES <? len members) Limit;;
  refuse_if ((cp_per_member (rq_caps requirements) =? 0) || (cp_per_cohort (rq_caps requirements) =? 0)
             || (rq_min_permit_weight requirements =? 0) || (rq_min_permit_cohorts requirements =? 0)) InvalidInput;;
  registered ← register_members members ∅;
  let policy := mkReviewPolicy registered requirements in
  votes ← policy_votes policy (λ _, Ok Permit);
  maximum ← reduce votes (policy_weights policy) (rq_caps requirements) false;
  let active_cohorts := len (filter (λ w, 0 < w) (map_values (rn_admitted_cohort_weights maximum))) in
  refuse_if ((rn_permit_weight maximum <? rq_min_permit_weight requirements)
             || (active_cohorts <? rq_min_permit_cohorts requirements)) InvalidInput;;
  Ok policy.

Inductive ExactStatus := ExactClear | ExactDisqualified | ExactUnknown.

Inductive HoldReason :=
  | ExactEvidenceUnknown
  | IndependentPhaseOpen
  | MissingReveals (members : list bytes)
  | Abstentions (members : list bytes)
  | InsufficientPermitWeight
  | ExcessHoldWeight
  | InsufficientPermitCohorts.

(** [Ready], [Hold] and [Disqualified]. *)
Inductive ReviewDecision :=
  | ReviewReady (reduction : Reduction)
  | ReviewHold (reason : HoldReason)
  | ReviewDisqualified.

Record CongressReview := mkCongressReview { cg_policy : ReviewPolicy; cg_round : Round }.

(** [for member in policy.members.keys() { round.add_member(member)?; }] *)
Fixpoint add_members (members : list bytes) : st Round Error unit :=
  match members with
  | [] => mret tt
  | member :: members => add_member member;; add_members members
  end.

Definition congress_review_new (policy : ReviewPolicy) (round_id : Z) (evidence_root : bytes) : res Error CongressReview :=
  refuse_if (round_id =? 0) InvalidInput;;
  round ← round_new round_id evidence_root;
  round ← exec (add_members (entries (rp_members policy)).*1) round;
  Ok (mkCongressReview policy round).

Definition on_round {A} (m : st Round Error A) : st CongressReview Error A :=
  zoom cg_round (λ round self, mkCongressReview (cg_policy self) round) (λ e, e) m.

Definition review_commit (member : bytes) (digest : Z) : st CongressReview Error unit := on_round (commit member digest).
Definition review_open_reveals : st CongressReview Error unit := on_round open_reveals.
Definition review_reveal (member : bytes) (verdict : Verdict) (salt : bytes) : st CongressReview Error unit :=
  on_round (reveal member verdict salt).

(** The loop of [evaluate] over the members: who is missing, who abstains, and
    what the others recommend. *)
Fixpoint sort_outcomes (round : Round) (members : list bytes) (missing abstaining : list bytes)
    (recommendations : gmap bytes Recommendation)
    : res Error (list bytes * list bytes * gmap bytes Recommendation) :=
  match members with
  | [] => Ok (missing, abstaining, recommendations)
  | member :: members =>
    outcome ← round_outcome round member;
    match outcome with
    | NotRevealed => sort_outcomes round members (missing ++ [member]) abstaining recommendations
    | Revealed Abstain => sort_outcomes round members missing (abstaining ++ [member]) recommendations
    | Revealed Allow => sort_outcomes round members missing abstaining (<[member := Permit]> recommendations)
    | Revealed Round.Hold | Revealed Deny =>
      sort_outcomes round members missing abstaining (<[member := Hold]> recommendations)
    end
  end.

(** The cohorts of the members that permit with a positive admitted weight;
    both lookups index a map. *)
Fixpoint collect_permit_cohorts (recommendations : gmap bytes Recommendation) (admitted_weights : gmap bytes Z)
    (members : list (bytes * ReviewMember)) : res Error (gset bytes) :=
  match members with
  | [] => Ok ∅
  | (id, member) :: members =>
    recommendation ← expect (recommendations !! id);
    counted ← (if bool_decide (recommendation = Permit)
               then weight ← expect (admitted_weights !! id); Ok (0 <? weight)
               else Ok false);
    cohorts ← collect_permit_cohorts recommendations admitted_weights members;
    Ok (if counted : bool then {[rm_cohort member]} ∪ cohorts else cohorts)
  end.

Definition evaluate (self : CongressReview) (exact : ExactStatus) : res Error ReviewDecision :=
  match exact with
  | ExactDisqualified => Ok ReviewDisqualified
  | ExactUnknown => Ok (ReviewHold ExactEvidenceUnknown)
  | ExactClear =>
    if bool_decide (rd_phase (cg_round self) ≠ RevealPhase) then Ok (ReviewHold IndependentPhaseOpen)
    else
      let policy := cg_policy self in
      '(missing, abstaining, recommendations) ←
        sort_outcomes (cg_round self) (entries (rp_members policy)).*1 [] [] ∅;
      if bool_decide (missing ≠ []) then Ok (ReviewHold (MissingReveals missing))
      else if bool_decide (abstaining ≠ []) then Ok (ReviewHold (Abstentions abstaining))
      else
        votes ← policy_votes policy (λ member, expect (recommendations !! member));
        let requirements := rp_requirements policy in
        reduction ← reduce votes (policy_weights policy) (rq_caps requirements) false;
        if rn_permit_weight reduction <? rq_min_permit_weight requirements
        then Ok (ReviewHold InsufficientPermitWeight)
        else if rq_max_hold_weight requirements <? rn_hold_weight reduction
        then Ok (ReviewHold ExcessHoldWeight)
        else
          permit_cohorts ← collect_permit_cohorts recommendations (rn_admitted_weights reduction)
            (entries (rp_members policy));
          if Z.of_nat (size permit_cohorts) <? rq_min_permit_cohorts requirements
          then Ok (ReviewHold InsufficientPermitCohorts)
          else Ok (ReviewReady reduction)
  end.

(** Calls on a review; [transcript] and [evaluate] only read it. *)
Inductive review_call :=
  | ReviewCommit (member : bytes) (digest : Z)
  | ReviewOpen
  | ReviewReveal (member : bytes) (verdict : Verdict) (salt : bytes).

Definition review_step (c : review_call) : st CongressReview Error unit :=
  match c with
  | ReviewCommit m d => review_commit m d
  | ReviewOpen => review_open_reveals
  | ReviewReveal m v salt => review_reveal m v salt
  end.
Definition review_run (calls : list review_call) (self : CongressReview) : CongressReview :=
  foldl (λ self c, (review_step c self).2) self calls.

(** ** The reference decision *)

(** What a revealed verdict counts as; an abstention never gets this far. *)
Definition recommended (outcome : MemberOutcome) : Recommendation :=
  if decide (outcome = Revealed Allow) then Permit else Hold.

Section policy.
Context (p : ReviewPolicy).

Definition roster : list (bytes * ReviewMember) := entries (rp_members p).
Definition caps_of : Caps := rq_caps (rp_requirements p).

(** The votes as the map that the reducer collects. *)
Definition ballot_map (f : bytes → Recommendation) : gmap bytes (bytes * Recommendation) :=
  map_imap (λ id m, Some (rm_cohort m, f id)) (rp_members p).

(** What a member is admitted with, whatever anyone recommends. *)
Definition roster_total (c : bytes) : Z :=
  sumZ ((λ q : bytes * ReviewMember, if decide (rm_cohort q.2 = c) then clip (policy_weights p) caps_of q.1 else 0) <$> roster).
Definition admitted_weight (q : bytes * ReviewMember) : Z :=
  share caps_of (roster_total (rm_cohort q.2)) (clip (policy_weights p) caps_of q.1).

(** The cohorts that count towards the quorum. *)
Definition permitting (f : bytes → Recommendation) (q : bytes * ReviewMember) : Prop :=
  f q.1 = Permit ∧ 0 < admitted_weight q.
#[global] Instance permitting_dec f q : Decision (permitting f q).
Proof. unfold permitting. apply _. Defined.
Definition permit_cohorts (f : bytes → Recommendation) : gset bytes :=
  list_to_set ((λ q : bytes * ReviewMember, rm_cohort q.2) <$> filter (permitting f) roster).

Definition recommended_weight (f : bytes → Recommendation) (r : Recommendation) : Z :=
  sumZ ((λ q : bytes * ReviewMember, if decide (f q.1 = r) then admitted_weight q else 0) <$> roster).

Definition member_ok (id : bytes) (m : ReviewMember) : Prop :=
  rm_id m = id ∧ id ≠ [] ∧ rm_cohort m ≠ [] ∧ len id ≤ MAX_IDENTIFIER_BYTES ∧ len (rm_cohort m) ≤ MAX_IDENTIFIER_BYTES.
Definition member_typed (m : ReviewMember) : Prop := is_u64 (rm_weight m).

(** Bounded members and caps in the range of their types. *)
Record policy_sound : Prop := {
  ps_keys : map_Forall member_ok (rp_members p);
  ps_members : rp_members p ≠ ∅;
  ps_count : Z.of_nat (size (rp_members p)) ≤ MAX_VOTES;
  ps_weights : map_Forall (λ _, member_typed) (rp_members p);
  ps_member_cap : 0 < cp_per_member caps_of ≤ U64_MAX;
  ps_cohort_cap : 0 < cp_per_cohort caps_of ≤ U64_MAX;
}.

(** What [review_policy_new] establishes: thresholds that unanimous approval
    meets. *)
Record policy_valid : Prop := {
  pv_sound : policy_sound;
  pv_total : recommended_weight (λ _, Permit) Permit ≤ U64_MAX;
  pv_weight_reachable : 0 < rq_min_permit_weight (rp_requirements p) ≤ recommended_weight (λ _, Permit) Permit;
  pv_cohorts_reachable : 0 < rq_min_permit_cohorts (rp_requirements p) ≤ Z.of_nat (size (permit_cohorts (λ _, Permit)));
}.

Lemma ballot_entries f : entries (ballot_map f) = (λ q, (q.1, (rm_cohort q.2, f q.1))) <$> roster.
Proof. apply (entries_imap (λ id m, (rm_cohort m, f id))). Qed.

Lemma ballot_total f c : cohort_total (policy_weights p) caps_of (entries (ballot_map f)) c = roster_total c.
Proof. unfold cohort_total, roster_total. by rewrite ballot_entries, <-list_fmap_compose. Qed.

Lemma ballot_admitted f q :
  admitted (policy_weights p) caps_of (entries (ballot_map f)) (q.1, (rm_cohort q.2, f q.1)) = admitted_weight q.
Proof. unfold admitted. simpl. by rewrite ballot_total. Qed.

Lemma ballot_tally f r : tally (policy_weights p) caps_of (entries (ballot_map f)) r = recommended_weight f r.
Proof.
  unfold tally, recommended_weight. rewrite (sumZ_fmap_ext _ (λ q : bytes * (bytes * Recommendation),
    if decide (q.2.2 = r) then share caps_of (roster_total q.2.1) (clip (policy_weights p) caps_of q.1) else 0)).
  - by rewrite ballot_entries, <-list_fmap_compose.
  - intros q _. unfold admitted. by rewrite ballot_total.
Qed.

Lemma ballot_dom f : dom (ballot_map f) = dom (policy_weights p).
Proof.
  apply set_eq. intros m. rewrite !elem_of_dom. unfold ballot_map, policy_weights.
  rewrite map_lookup_imap, lookup_fmap. destruct (rp_members p !! m); simpl; split; intros []; eauto; done.
Qed.

Definition votes_for (f : bytes → Recommendation) : list Vote :=
  (λ q, Empirical q.1 (rm_cohort q.2) (f q.1)) <$> roster.

Lemma policy_votes_eq recommendation f :
  (∀ id m, rp_members p !! id = Some m → recommendation id = Ok (f id)) →
  policy_votes p recommendation = Ok (votes_for f).
Proof.
  intros Hrec. unfold policy_votes, votes_for, roster.
  assert (∀ q, q ∈ entries (rp_members p) → recommendation q.1 = Ok (f q.1)) as Hq.
  { intros [id m] Hq%elem_of_entries. by eapply Hrec. }
  revert Hq. generalize (entries (rp_members p)). intros ms.
  induction ms as [|[id m] ms IH]; intros Hq; [done|]. cbn [collect_votes]. munfold_goal.
  pose proof (Hq (id, m) ltac:(left)) as Hid. simpl in Hid. rewrite Hid. by rewrite IH by (intros q ?; apply Hq; by right).
Qed.

Lemma recommended_weight_permit : recommended_weight (λ _, Permit) Permit = sumZ (admitted_weight <$> roster).
Proof. apply sumZ_fmap_ext. intros q _. by rewrite decide_True. Qed.
Lemma recommended_weight_hold : recommended_weight (λ _, Permit) Hold = 0.
Proof.
  unfold recommended_weight. rewrite (sumZ_fmap_ext _ (λ _, 0)) by (intros q _; by rewrite decide_False).
  generalize roster. intros qs. induction qs; csimpl; [done|lia].
Qed.

Section sound.
Context (Hsound : policy_sound).

Lemma policy_weights_u64 : map_Forall (λ _ w, is_u64 w) (policy_weights p).
Proof.
  intros id w. unfold policy_weights. rewrite lookup_fmap. intros (m & Hm & ->)%fmap_Some.
  by apply (ps_weights Hsound id).
Qed.

Lemma member_cap_u64 : is_u64 (cp_per_member caps_of).
Proof. pose proof (ps_member_cap Hsound). unfold is_u64. lia. Qed.
Lemma cohort_cap_u64 : is_u64 (cp_per_cohort caps_of).
Proof. pose proof (ps_cohort_cap Hsound). unfold is_u64. lia. Qed.

Lemma votes_registered f : registered (votes_for f) (policy_weights p) (ballot_map f).
Proof.
  assert (map_to_list (ballot_map f) ≡ₚ (λ q, (q.1, (rm_cohort q.2, f q.1))) <$> roster) as Hl
    by (by rewrite <-entries_perm, ballot_entries).
  split.
  - rewrite Hl, <-list_fmap_compose. done.
  - rewrite Hl. apply Forall_fmap, Forall_forall. intros [id m] Hin%elem_of_entries.
    destruct (ps_keys Hsound id m Hin) as (_ & ?). unfold identifiers_ok. simpl. tauto.
  - apply ballot_dom.
  - rewrite <-(length_map_to_list (ballot_map f)), Hl, length_fmap. unfold roster. rewrite entries_length. by apply ps_count.
Qed.

Lemma admitted_weight_bounds q : q ∈ roster → 0 ≤ admitted_weight q.
Proof.
  intros Hq. rewrite <-(ballot_admitted (λ _, Permit) q).
  apply (admitted_clipped (policy_weights p) caps_of _ cohort_cap_u64 member_cap_u64 policy_weights_u64).
  rewrite ballot_entries. by apply (list_elem_of_fmap_2 (λ q, (q.1, (rm_cohort q.2, Permit)))).
Qed.

(** No recommendation weighs more than unanimous approval. *)
Lemma recommended_weight_bounds f r : 0 ≤ recommended_weight f r ≤ recommended_weight (λ _, Permit) Permit.
Proof.
  unfold recommended_weight. pose proof admitted_weight_bounds as Hb. revert Hb. generalize roster. intros qs Hb.
  induction qs as [|q qs IH]; [done|]. csimpl. specialize (Hb q ltac:(left)) as Hq. simpl in *.
  assert (∀ q', q' ∈ qs → 0 ≤ admitted_weight q') as Hqs by (intros q' ?; apply Hb; by right). specialize (IH Hqs).
  destruct (decide (f q.1 = r)); lia.
Qed.

(** The reducer on the votes of the roster: it only overflows when unanimous
    approval would. *)
Lemma reduce_unanimous :
  reduce (votes_for (λ _, Permit)) (policy_weights p) caps_of false =
    if recommended_weight (λ _, Permit) Permit <=? U64_MAX
    then Ok (reference_reduction (policy_weights p) caps_of (ballot_map (λ _, Permit)) false) else Err Overflow.
Proof.
  rewrite (reduce_registered (policy_weights p) caps_of cohort_cap_u64 member_cap_u64 policy_weights_u64 _ _ _ (votes_registered _)).
  unfold tallies_fit. rewrite !ballot_tally.
  by rewrite recommended_weight_hold, andb_true_r.
Qed.

(** A cohort has an admitted weight when one of its members does. *)
Lemma cohort_positive c :
  0 < cohort_admitted (policy_weights p) caps_of (entries (ballot_map (λ _, Permit))) c ↔
  c ∈ permit_cohorts (λ _, Permit).
Proof.
  unfold cohort_admitted. rewrite (sumZ_fmap_ext _ (λ q : bytes * (bytes * Recommendation),
    if decide (q.2.1 = c) then share caps_of (roster_total q.2.1) (clip (policy_weights p) caps_of q.1) else 0)).
  2:{ intros q _. unfold admitted. by rewrite ballot_total. }
  rewrite ballot_entries, <-list_fmap_compose, sumZ_positive.
  2:{ apply Forall_fmap, Forall_forall. intros q Hq. simpl. case_decide; [|done]. by apply (admitted_weight_bounds q). }
  unfold permit_cohorts. rewrite elem_of_list_to_set, list_elem_of_fmap. setoid_rewrite list_elem_of_fmap.
  setoid_rewrite list_elem_of_filter. simpl. split.
  - intros (x & (q & -> & Hq) & Hpos). case_decide as Hc; [|lia]. exists q. split; [done|]. split; [|done]. done.
  - intros (q & -> & [_ Hpos] & Hq). eexists. split; [exists q; split; [reflexivity|done]|]. by rewrite decide_True.
Qed.

Lemma active_cohorts_eq :
  len (filter (λ w, 0 < w) (map_values (rn_admitted_cohort_weights
    (reference_reduction (policy_weights p) caps_of (ballot_map (λ _, Permit)) false)))) =
  Z.of_nat (size (permit_cohorts (λ _, Permit))).
Proof.
  unfold map_values, len. rewrite length_filter_fmap. f_equal. simpl.
  set (M := list_to_map _). rewrite <-(length_fmap fst).
  change (size (permit_cohorts (λ _, Permit))) with (length (elements (permit_cohorts (λ _, Permit)))).
  apply Permutation_length, NoDup_Permutation.
  - eapply sublist_NoDup; [apply (entries_NoDup M)|]. apply fmap_sublist, sublist_filter.
  - apply NoDup_elements.
  - intros c. rewrite elem_of_elements, <-cohort_positive, list_elem_of_fmap.
    setoid_rewrite list_elem_of_filter.
    set (l := entries (ballot_map (λ _, Permit))) in *.
    destruct (list_to_map_keyed (λ q : bytes * (bytes * Recommendation), q.2.1)
      (cohort_admitted (policy_weights p) caps_of l) l c) as [Hin Hout]. fold M in Hin, Hout. split.
    + intros ([c' w] & -> & Hpos & Hc%elem_of_entries). simpl in *.
      destruct (decide (c' ∈ (λ q : bytes * (bytes * Recommendation), q.2.1) <$> l)) as [Hk|Hk].
      * rewrite Hin in Hc by done. congruence.
      * rewrite Hout in Hc by done. done.
    + intros Hpos. exists (c, cohort_admitted (policy_weights p) caps_of l c). split; [done|]. split; [done|].
      apply elem_of_entries, Hin.
      destruct (decide (c ∈ (λ q : bytes * (bytes * Recommendation), q.2.1) <$> l)) as [Hk|Hk]; [done|].
      exfalso. revert Hpos. unfold cohort_admitted. rewrite (sumZ_fmap_ext _ (λ _, 0)).
      * clear. induction l; csimpl; lia.
      * intros q Hq. rewrite decide_False; [done|]. intros <-. apply Hk. by apply (list_elem_of_fmap_2 (λ q : bytes * (bytes * Recommendation), q.2.1)).
Qed.

Context (Hfit : recommended_weight (λ _, Permit) Permit ≤ U64_MAX).

Lemma reduce_votes f :
  reduce (votes_for f) (policy_weights p) caps_of false =
    Ok (reference_reduction (policy_weights p) caps_of (ballot_map f) false).
Proof.
  rewrite (reduce_registered (policy_weights p) caps_of cohort_cap_u64 member_cap_u64 policy_weights_u64 _ _ _ (votes_registered f)).
  unfold tallies_fit. rewrite !ballot_tally.
  pose proof (recommended_weight_bounds f Permit). pose proof (recommended_weight_bounds f Hold).
  rewrite !(proj2 (Z.leb_le _ _)) by lia. done.
Qed.
End sound.

Lemma reference_admitted f id m :
  rp_members p !! id = Some m →
  rn_admitted_weights (reference_reduction (policy_weights p) caps_of (ballot_map f) false) !! id =
    Some (admitted_weight (id, m)).
Proof.
  intros Hm. simpl. rewrite admitted_lookup. unfold ballot_map at 2. rewrite map_lookup_imap, Hm. simpl.
  f_equal. apply (ballot_admitted f (id, m)).
Qed.

Lemma collect_permit_cohorts_eq recommendations weights f :
  (∀ id m, rp_members p !! id = Some m →
    recommendations !! id = Some (f id) ∧ weights !! id = Some (admitted_weight (id, m))) →
  collect_permit_cohorts recommendations weights roster = Ok (permit_cohorts f).
Proof.
  intros Hm. unfold permit_cohorts.
  assert (∀ q, q ∈ roster → recommendations !! q.1 = Some (f q.1) ∧ weights !! q.1 = Some (admitted_weight q)) as Hq.
  { intros [id m] Hq%elem_of_entries. by apply Hm. }
  revert Hq. generalize roster. intros qs. induction qs as [|[id m] qs IH]; intros Hq; [done|].
  destruct (Hq (id, m) ltac:(left)) as [Hr Hw]. simpl in Hr, Hw. cbn [collect_permit_cohorts]. munfold_goal.
  rewrite Hr, IH by (intros q ?; apply Hq; by right). rewrite filter_cons.
  destruct (bool_decide_reflect (f id = Permit)) as [Hf|Hf].
  - rewrite Hw. destruct (Z.ltb_spec 0 (admitted_weight (id, m))).
    + rewrite decide_True by done. done.
    + rewrite decide_False by (intros [_ Hpos]; lia). done.
  - rewrite decide_False by (by intros [? _]). done.
Qed.
End policy.

(** ** Policies *)

Definition requirements_typed (r : ReviewRequirements) : Prop :=
  is_u64 (cp_per_member (rq_caps r)) ∧ is_u64 (cp_per_cohort (rq_caps r)) ∧
  0 ≤ rq_min_permit_weight r ∧ 0 ≤ rq_max_hold_weight r ∧ 0 ≤ rq_min_permit_cohorts r.

Abbreviation keyed members := ((λ m, (rm_id m, m)) <$> members).

Lemma register_members_ok members registered0 registered :
  register_members members registered0 = Ok registered ↔
  Forall (λ m, member_ok (rm_id m) m) members ∧ NoDup (rm_id <$> members) ∧
  Forall (λ m, registered0 !! rm_id m = None) members ∧ registered = list_to_map (keyed members) ∪ registered0.
Proof.
  revert registered0. induction members as [|m members IH]; intros reg0; cbn [register_members]; munfold_goal.
  { simpl. rewrite (left_id_L ∅ (∪)). split; [intros [= <-]; repeat constructor|intros (_ & _ & _ & ->); done]. }
  csimpl. rewrite !Forall_cons, NoDup_cons. unfold member_ok at 1.
  case_bool_decide as Hid; [split; [done|tauto]|]. case_bool_decide as Hco; [split; [done|tauto]|]. simpl.
  destruct (Z.ltb_spec MAX_IDENTIFIER_BYTES (len (rm_id m))); [split; [done|lia]|].
  destruct (Z.ltb_spec MAX_IDENTIFIER_BYTES (len (rm_cohort m))); [split; [done|lia]|]. simpl.
  case_bool_decide as Hdup.
  { split; [done|]. intros (_ & _ & [Hno _] & _). rewrite Hno in Hdup. by destruct Hdup. }
  apply eq_None_not_Some in Hdup. rewrite IH, !Forall_forall, list_elem_of_fmap. split.
  - intros (Hall & Hnd & Hfresh & ->). split_and!; try done.
    + intros (m' & Heq & Hm'). specialize (Hfresh m' Hm'). by rewrite Heq, lookup_insert_eq in Hfresh.
    + intros m' Hm'. specialize (Hfresh m' Hm'). by apply lookup_insert_None in Hfresh as [? _].
    + rewrite <-insert_union_l, insert_union_r; [done|]. apply not_elem_of_list_to_map_1. rewrite <-list_fmap_compose.
      intros (m' & Heq & Hm')%list_elem_of_fmap. specialize (Hfresh m' Hm'). simpl in Heq. by rewrite <-Heq, lookup_insert_eq in Hfresh.
  - intros ((_ & Hall) & (Hm & Hnd) & (_ & Hfresh) & ->). split_and!; try done.
    + intros m' Hm'. apply lookup_insert_None. split; [by apply Hfresh|]. intros Heq. apply Hm. eauto.
    + rewrite <-insert_union_l, insert_union_r; [done|]. apply not_elem_of_list_to_map_1. rewrite <-list_fmap_compose.
      intros (m' & Heq & Hm')%list_elem_of_fmap. apply Hm. simpl in Heq. eauto.
Qed.

(** The policies that are accepted. *)
Lemma review_policy_new_ok members requirements p :
  Forall member_typed members → requirements_typed requirements →
  review_policy_new members requirements = Ok p ↔
  NoDup (rm_id <$> members) ∧ p = mkReviewPolicy (list_to_map (keyed members)) requirements ∧ policy_valid p.
Proof.
  intros Hty (Hm & Hc & Hw & _ & Hk). unfold review_policy_new. munfold_goal.
  destruct members as [|m0 members0] eqn:Hmembers.
  { split; [done|]. intros (_ & -> & Hv). by destruct (ps_members _ (pv_sound _ Hv)). }
  rewrite <-Hmembers in *. assert (members ≠ []) as Hne by (by rewrite Hmembers). clear m0 members0 Hmembers.
  set (p0 := mkReviewPolicy (list_to_map (keyed members)) requirements).
  assert (∀ id m, list_to_map (M:=gmap bytes ReviewMember) (keyed members) !! id = Some m → m ∈ members ∧ rm_id m = id) as Hlook.
  { intros id m (m' & [= -> ->] & Hm')%elem_of_list_to_map_2%list_elem_of_fmap. done. }
  assert (NoDup (rm_id <$> members) → size (list_to_map (M:=gmap bytes ReviewMember) (keyed members)) = length members) as Hsize.
  { intros Hnd. rewrite <-length_map_to_list, map_to_list_to_map, length_fmap; [done|]. by rewrite <-list_fmap_compose. }
  destruct (Z.ltb_spec MAX_VOTES (len members)) as [Hlen|Hlen].
  { split; [done|]. intros (Hnd & -> & Hv). pose proof (ps_count _ (pv_sound _ Hv)) as Hcount. simpl in Hcount.
    unfold len in Hlen. rewrite Hsize in Hcount by done. lia. }
  destruct ((cp_per_member (rq_caps requirements) =? 0) || _ || _ || _) eqn:Hzero.
  { split; [done|]. intros (_ & -> & Hv). destruct Hv as [[_ _ _ _ H1 H2] _ H3 H4]. unfold caps_of in *. simpl in *. lia. }
  assert (NoDup (rm_id <$> members) → policy_valid p0 →
    register_members members ∅ = Ok (list_to_map (keyed members))) as Hregistered.
  { intros Hnd Hv. apply register_members_ok. split_and!; [|done|by apply Forall_forall|by rewrite (right_id_L ∅ (∪))].
    apply Forall_forall. intros m Hm'. apply (ps_keys _ (pv_sound _ Hv)). simpl.
    apply elem_of_list_to_map_1; [by rewrite <-list_fmap_compose|]. by apply (list_elem_of_fmap_2 (λ m, (rm_id m, m))). }
  destruct (register_members members ∅) as [registered|e|] eqn:Hreg; [|split; [done|]; intros (Hnd & -> & Hv); by specialize (Hregistered Hnd Hv)..].
  clear Hregistered. apply register_members_ok in Hreg as (Hall & Hnd & _ & ->). rewrite (right_id_L ∅ (∪)). fold p0.
  assert (policy_sound p0) as Hsound.
  { apply orb_false_iff in Hzero as [[[H1 H2]%orb_false_iff H3]%orb_false_iff H4]. unfold is_u64 in *. split; simpl.
    - intros id m Hin%Hlook. destruct Hin as [Hin <-]. rewrite Forall_forall in Hall. by apply Hall.
    - destruct members as [|m ms]; [done|]. csimpl. apply insert_non_empty.
    - rewrite Hsize by done. done.
    - intros id m Hin%Hlook. destruct Hin as [Hin _]. rewrite Forall_forall in Hty. by apply Hty.
    - unfold caps_of. simpl. lia.
    - unfold caps_of. simpl. lia. }
  rewrite (policy_votes_eq p0 _ (λ _, Permit)) by done. change (rq_caps requirements) with (caps_of p0).
  rewrite (reduce_unanimous p0 Hsound). destruct (Z.leb_spec (recommended_weight p0 (λ _, Permit) Permit) U64_MAX) as [Hfit|Hfit].
  2:{ split; [done|]. intros (_ & -> & Hv). pose proof (pv_total _ Hv). lia. }
  rewrite (active_cohorts_eq p0 Hsound). cbn [rn_permit_weight reference_reduction]. rewrite ballot_tally.
  destruct ((recommended_weight p0 (λ _, Permit) Permit <? rq_min_permit_weight requirements) || _) eqn:Hreach.
  - split; [done|]. intros (_ & -> & [_ _ H1 H2]). simpl in *. lia.
  - split; [|intros (_ & -> & _); done]. intros [= <-]. split_and!; [done|done|]. split; [done|done|simpl; lia|simpl; lia].
Qed.

(** ** Reviews *)

Section outcomes.
Context (outcome : bytes → MemberOutcome).

(** Who did not reveal, and who revealed an abstention. *)
Definition silent (members : list bytes) : list bytes := filter (λ m, outcome m = NotRevealed) members.
Definition abstained (members : list bytes) : list bytes := filter (λ m, outcome m = Revealed Abstain) members.

(** The recommendations of the others. *)
Definition recommends (members : list bytes) (before after : gmap bytes Recommendation) : Prop :=
  ∀ m, (m ∉ members → after !! m = before !! m) ∧
    (m ∈ members → outcome m ≠ NotRevealed → outcome m ≠ Revealed Abstain →
     after !! m = Some (recommended (outcome m))).

Lemma recommends_cons id members before middle after :
  id ∉ members → (∀ m, m ≠ id → middle !! m = before !! m) →
  (outcome id ≠ NotRevealed → outcome id ≠ Revealed Abstain → middle !! id = Some (recommended (outcome id))) →
  recommends members middle after → recommends (id :: members) before after.
Proof.
  intros Hid Hother Hhead Hrec m. destruct (Hrec m) as [Hno Hyes]. rewrite elem_of_cons. split.
  - intros Hm. rewrite Hno, Hother by tauto. done.
  - intros [->|Hm]; [|by apply Hyes]. by rewrite Hno.
Qed.

Lemma sort_outcomes_eq round members missing abstaining recommendations :
  (∀ m, m ∈ members → round_outcome round m = Ok (outcome m)) → NoDup members →
  ∃ recommendations',
    sort_outcomes round members missing abstaining recommendations =
      Ok (missing ++ silent members, abstaining ++ abstained members, recommendations') ∧
    recommends members recommendations recommendations'.
Proof.
  intros Hout Hnd. revert missing abstaining recommendations.
  induction Hnd as [|id members Hid Hnd IH]; intros missing abstaining recs.
  { exists recs. rewrite !app_nil_r. split; [done|]. intros m. split; [done|]. by intros ?%elem_of_nil. }
  assert (∀ missing' abstaining' recs', missing' ++ silent members = missing ++ silent (id :: members) →
    abstaining' ++ abstained members = abstaining ++ abstained (id :: members) →
    (∀ m, m ≠ id → recs' !! m = recs !! m) →
    (outcome id ≠ NotRevealed → outcome id ≠ Revealed Abstain → recs' !! id = Some (recommended (outcome id))) →
    ∃ recs'', sort_outcomes round members missing' abstaining' recs' =
      Ok (missing ++ silent (id :: members), abstaining ++ abstained (id :: members), recs'') ∧
      recommends (id :: members) recs recs'') as Hstep.
  { intros missing' abstaining' recs' <- <- Hother Hhead.
    destruct (IH (λ m Hm, Hout m (list_elem_of_further _ _ _ Hm)) missing' abstaining' recs') as (recs'' & -> & Hrec).
    exists recs''. split; [done|]. by eapply recommends_cons. }
  cbn [sort_outcomes]. munfold_goal. rewrite Hout by left. unfold silent, abstained in *. rewrite !filter_cons in *.
  destruct (outcome id) as [|[]]; apply Hstep; try done; try (by rewrite <-app_assoc);
    try (by intros m Hm; rewrite lookup_insert_ne); by intros _ _; rewrite lookup_insert_eq.
Qed.
End outcomes.

Lemma elem_of_roster p m : m ∈ (roster p).*1 ↔ is_Some (rp_members p !! m).
Proof.
  rewrite list_elem_of_fmap. split.
  - intros ([m' v] & -> & Hq%elem_of_entries). simpl. eauto.
  - intros [v Hq]. exists (m, v). split; [done|]. by apply elem_of_entries.
Qed.

(** A review of a policy: its round has exactly the members of the policy. *)
Record review_inv (p : ReviewPolicy) (id : Z) (root : bytes) (oks : list round_call) (r : CongressReview) : Prop := {
  rv_policy : cg_policy r = p;
  rv_round : round_inv id root oks (cg_round r);
  rv_transcript : transcript id root oks;
  rv_members : ∀ m, is_Some (rd_members (cg_round r) !! m) ↔ is_Some (rp_members p !! m);
}.

Lemma add_members_inv id root oks ms r r' :
  round_inv id root oks r → transcript id root oks → exec (add_members ms) r = Ok r' →
  round_inv id root (oks ++ (CallAddMember <$> ms)) r' ∧ transcript id root (oks ++ (CallAddMember <$> ms)).
Proof.
  revert oks r. induction ms as [|m ms IH]; intros oks r Hinv Ht; unfold exec; cbn [add_members]; munfold_goal.
  { intros [= <-]. simpl. by rewrite app_nil_r. }
  destruct (round_step_ok id root oks r Hinv (CallAddMember m)) as (_ & _ & Hiff & Hok). cbn [round_step] in Hiff, Hok.
  destruct (add_member m r) as [[[]| |] r1]; [|done..]. intros Hrest. cbn [fst snd] in *.
  pose proof (transcript_extend _ _ _ _ Ht (proj1 (proj1 Hiff eq_refl))) as Ht1.
  csimpl. rewrite cons_middle, app_assoc. apply (IH _ r1); [by apply Hok|done|exact Hrest].
Qed.

Lemma congress_review_new_inv p id root r :
  congress_review_new p id root = Ok r →
  ∃ oks, review_inv p id root oks r ∧ rd_phase (cg_round r) = CommitPhase ∧
    (∀ c, c ∈ oks → ∃ m, c = CallAddMember m).
Proof.
  unfold congress_review_new. munfold_goal. destruct (id =? 0); [done|].
  destruct (round_new id root) as [r0| |] eqn:Hnew; [|done..].
  destruct (exec _ r0) as [r1| |] eqn:Hadd; [|done..]. intros [= <-].
  pose proof (add_members_inv id root [] _ r0 r1 (round_new_inv _ _ _ Hnew) (TranscriptStart _ _) Hadd) as [Hinv Ht].
  simpl in Hinv, Ht. exists (CallAddMember <$> (entries (rp_members p)).*1). split_and!.
  - split; [done|done|done|]. intros m. simpl. rewrite (ri_members _ _ _ _ Hinv), !list_elem_of_fmap. split.
    + intros (m' & [= <-] & ([k v] & -> & Hq%elem_of_entries)%list_elem_of_fmap). simpl. eauto.
    + intros [v Hv]. exists m. split; [done|]. apply list_elem_of_fmap. exists (m, v). split; [done|]. by apply elem_of_entries.
  - simpl. apply (phase_commit id root _ _ Hinv). by intros (m & ? & _)%list_elem_of_fmap.
  - intros c (m & -> & _)%list_elem_of_fmap. eauto.
Qed.

Definition call_of_review (c : review_call) : round_call :=
  match c with
  | ReviewCommit m d => CallCommit m d
  | ReviewOpen => CallOpenReveals
  | ReviewReveal m v salt => CallReveal m v salt
  end.

Lemma review_step_eq c r :
  review_step c r = ((round_step (call_of_review c) (cg_round r)).1,
    mkCongressReview (cg_policy r) (round_step (call_of_review c) (cg_round r)).2).
Proof.
  destruct c; cbn [review_step call_of_review round_step];
    unfold review_commit, review_open_reveals, review_reveal, on_round, zoom, map_err;
    match goal with |- context [let '(_, _) := ?x in _] => destruct x as [[[]| |] ?] end; done.
Qed.

Lemma review_run_inv p id root oks calls r :
  review_inv p id root oks r → ∃ oks', review_inv p id root oks' (review_run calls r).
Proof.
  revert oks r. induction calls as [|c calls IH]; intros oks r Hinv; [by exists oks|]. simpl.
  destruct Hinv as [Hp Hr Ht Hm].
  destruct (round_step_ok id root oks _ Hr (call_of_review c)) as (_ & Hsame & Hiff & Hok).
  rewrite review_step_eq. simpl.
  destruct (round_step (call_of_review c) (cg_round r)) as [out r1]. cbn [fst snd] in *.
  assert (out = Ok tt ∨ out ≠ Ok tt) as [->|Hno] by (destruct out as [[]| |]; auto).
  - apply (IH (oks ++ [call_of_review c])). pose proof (Hok eq_refl) as Hr1. split; simpl; [done|done| |].
    + apply transcript_extend; [done|]. by apply Hiff.
    + intros m. rewrite <-Hm, (ri_members _ _ _ _ Hr1), (ri_members _ _ _ _ Hr), elem_of_app, list_elem_of_singleton.
      destruct c; simpl; intuition discriminate.
  - rewrite Hsame by done. apply (IH oks). by split.
Qed.

(** ** The reference decision *)

(** What the round says of a member; every member of a review is known. *)
Definition outcome_of (round : Round) (m : bytes) : MemberOutcome :=
  match rd_members round !! m with Some slot => ms_outcome slot | None => NotRevealed end.

Definition decision_of (p : ReviewPolicy) (round : Round) (exact : ExactStatus) : ReviewDecision :=
  let requirements := rp_requirements p in
  let f m := recommended (outcome_of round m) in
  let missing := silent (outcome_of round) (roster p).*1 in
  let abstaining := abstained (outcome_of round) (roster p).*1 in
  match exact with
  | ExactDisqualified => ReviewDisqualified
  | ExactUnknown => ReviewHold ExactEvidenceUnknown
  | ExactClear =>
    if decide (rd_phase round = CommitPhase) then ReviewHold IndependentPhaseOpen
    else if decide (missing ≠ []) then ReviewHold (MissingReveals missing)
    else if decide (abstaining ≠ []) then ReviewHold (Abstentions abstaining)
    else if decide (recommended_weight p f Permit < rq_min_permit_weight requirements)
    then ReviewHold InsufficientPermitWeight
    else if decide (rq_max_hold_weight requirements < recommended_weight p f Hold)
    then ReviewHold ExcessHoldWeight
    else if decide (Z.of_nat (size (permit_cohorts p f)) < rq_min_permit_cohorts requirements)
    then ReviewHold InsufficientPermitCohorts
    else ReviewReady (reference_reduction (policy_weights p) (caps_of p) (ballot_map p f) false)
  end.

Lemma evaluate_eq p id root oks r exact :
  policy_valid p → review_inv p id root oks r → evaluate r exact = Ok (decision_of p (cg_round r) exact).
Proof.
  intros Hv [Hp Hr Ht Hm]. unfold evaluate, decision_of. rewrite Hp. destruct exact; [|done..].
  destruct (rd_phase (cg_round r)); [done|]. rewrite bool_decide_false, decide_False by (intros H; by apply H || done).
  fold (roster p). munfold_goal.
  pose proof (elem_of_roster p) as Hroster.
  destruct (sort_outcomes_eq (outcome_of (cg_round r)) (cg_round r) (roster p).*1 [] [] ∅) as (recs & -> & Hrecs).
  { intros m [s Hs]%Hroster%Hm. unfold round_outcome, outcome_of. munfold_goal. by rewrite Hs. }
  { apply entries_NoDup. }
  set (missing := silent _ _). set (abst := abstained _ _). simpl.
  destruct (bool_decide_reflect (missing ≠ [])) as [Hmis|Hmis]; [by rewrite decide_True|].
  destruct (bool_decide_reflect (abst ≠ [])) as [Habs|Habs]; [by rewrite decide_False, decide_True|].
  rewrite !(decide_False (P := _ ≠ [])) by done.
  apply dec_stable in Hmis, Habs.
  set (f m := recommended (outcome_of (cg_round r) m)).
  assert (∀ id m, rp_members p !! id = Some m → recs !! id = Some (f id)) as Hf.
  { intros i m Hi. assert (i ∈ (roster p).*1) as Hin by (apply Hroster; eauto). destruct (Hrecs i) as [_ Hyes].
    apply Hyes; [done| |]; intros Ho.
    - assert (i ∈ missing) as Hbad by (by apply list_elem_of_filter). by rewrite Hmis in Hbad; apply elem_of_nil in Hbad.
    - assert (i ∈ abst) as Hbad by (by apply list_elem_of_filter). by rewrite Habs in Hbad; apply elem_of_nil in Hbad. }
  pose proof (policy_votes_eq p (λ member, match recs !! member with Some a => Ok a | None => Panic end) f) as Hvotes.
  rewrite Hvotes by (intros i m Hi; by rewrite (Hf i m Hi)). clear Hvotes.
  pose proof (reduce_votes p (pv_sound _ Hv) (pv_total _ Hv) f) as Hred. unfold caps_of at 1 in Hred. rewrite Hred. clear Hred.
  cbn [rn_permit_weight rn_hold_weight reference_reduction]. rewrite !ballot_tally.
  destruct (Z.ltb_spec (recommended_weight p f Permit) (rq_min_permit_weight (rp_requirements p)));
    [by rewrite decide_True|rewrite decide_False by lia].
  destruct (Z.ltb_spec (rq_max_hold_weight (rp_requirements p)) (recommended_weight p f Hold));
    [by rewrite decide_True|rewrite decide_False by lia].
  rewrite (collect_permit_cohorts_eq p recs _ f).
  2:{ intros i m Hi. split; [by eapply Hf|]. by apply reference_admitted. }
  destruct (Z.ltb_spec (Z.of_nat (size (permit_cohorts p f))) (rq_min_permit_cohorts (rp_requirements p)));
    [by rewrite decide_True|by rewrite decide_False by lia].
Qed.

(** ** Unanimous approval *)

Lemma review_run_app calls calls' r : review_run (calls ++ calls') r = review_run calls' (review_run calls r).
Proof. apply foldl_app. Qed.

Section unanimous.
Context (p : ReviewPolicy) (id : Z) (root : bytes).

Lemma review_step_extends oks r c :
  review_inv p id root oks r → extends id root oks (call_of_review c) →
  review_inv p id root (oks ++ [call_of_review c]) (review_step c r).2.
Proof.
  intros [Hp Hr Ht Hm] Hext. destruct (round_step_ok id root oks _ Hr (call_of_review c)) as (_ & _ & Hiff & Hok).
  rewrite review_step_eq. cbn [snd cg_policy cg_round].
  assert (within_bounds (cg_round r) (call_of_review c)) as Hb by (by destruct c).
  pose proof (Hok (proj2 Hiff (conj Hext Hb))) as Hr1. split; simpl; [done|done|by apply transcript_extend|].
  intros m. rewrite <-Hm, (ri_members _ _ _ _ Hr1), (ri_members _ _ _ _ Hr), elem_of_app, list_elem_of_singleton.
  destruct c; simpl; intuition discriminate.
Qed.

Lemma run_commits (digest : bytes → Z) ms oks r :
  review_inv p id root oks r → CallOpenReveals ∉ oks → NoDup ms →
  (∀ m, m ∈ ms → CallAddMember m ∈ oks ∧ ∀ d, CallCommit m d ∉ oks) →
  review_inv p id root (oks ++ ((λ m, CallCommit m (digest m)) <$> ms))
    (review_run ((λ m, ReviewCommit m (digest m)) <$> ms) r).
Proof.
  intros Hr Ho Hnd. revert oks r Hr Ho. induction Hnd as [|m ms Hm Hnd IH]; intros oks r Hr Ho Hms.
  { by rewrite app_nil_r. }
  csimpl. rewrite cons_middle, app_assoc. unfold review_run. cbn [foldl]. apply IH.
  - apply (review_step_extends oks r (ReviewCommit m (digest m)) Hr). simpl. destruct (Hms m ltac:(left)). done.
  - rewrite elem_of_app, list_elem_of_singleton. intros [?|?]; done.
  - intros m' Hm'. destruct (Hms m' ltac:(by right)) as [Hadd Hno]. split; [apply elem_of_app; by left|].
    intros d. rewrite elem_of_app, list_elem_of_singleton. intros [Hd|[= -> ->]]; [by apply (Hno d)|done].
Qed.

Lemma run_reveals (digest : bytes → Z) ms oks r :
  review_inv p id root oks r → CallOpenReveals ∈ oks → NoDup ms →
  (∀ m, m ∈ ms → CallCommit m (digest m) ∈ oks ∧ commitment id m root Allow [] = Ok (digest m) ∧
    ∀ v salt, CallReveal m v salt ∉ oks) →
  review_inv p id root (oks ++ ((λ m, CallReveal m Allow []) <$> ms))
    (review_run ((λ m, ReviewReveal m Allow []) <$> ms) r).
Proof.
  intros Hr Ho Hnd. revert oks r Hr Ho. induction Hnd as [|m ms Hm Hnd IH]; intros oks r Hr Ho Hms.
  { by rewrite app_nil_r. }
  csimpl. rewrite cons_middle, app_assoc. unfold review_run. cbn [foldl]. apply IH.
  - apply (review_step_extends oks r (ReviewReveal m Allow []) Hr). simpl.
    destruct (Hms m ltac:(left)) as (? & ? & ?). eauto.
  - apply elem_of_app. by left.
  - intros m' Hm'. destruct (Hms m' ltac:(by right)) as (Hc & Hd & Hno). split; [apply elem_of_app; by left|]. split; [done|].
    intros v salt. rewrite elem_of_app, list_elem_of_singleton. intros [Hin|[= -> -> ->]]; [by apply (Hno v salt)|done].
Qed.

(** Everyone commits to approval, reveals are opened, and everyone reveals. *)
Definition unanimous_calls (members : list bytes) : list review_call :=
  let digest m := fnv1a64 (commitment_preimage id m root Allow []) in
  ((λ m, ReviewCommit m (digest m)) <$> members) ++ [ReviewOpen] ++ ((λ m, ReviewReveal m Allow []) <$> members).

Lemma unanimous_run oks r ms :
  review_inv p id root oks r → (∀ c, c ∈ oks → ∃ m, c = CallAddMember m) → NoDup ms → ms ≠ [] →
  (∀ m, m ∈ ms → CallAddMember m ∈ oks ∧
    commitment id m root Allow [] = Ok (fnv1a64 (commitment_preimage id m root Allow []))) →
  ∃ oks', review_inv p id root oks' (review_run (unanimous_calls ms) r) ∧ CallOpenReveals ∈ oks' ∧
    ∀ m, m ∈ ms → CallReveal m Allow [] ∈ oks'.
Proof.
  intros Hinv Honly Hnd Hne Hms. set (digest m := fnv1a64 (commitment_preimage id m root Allow [])).
  assert (∀ c, (∀ m, c ≠ CallAddMember m) → c ∉ oks) as Hno by (intros c Hc [m ?]%Honly; by apply (Hc m)).
  destruct ms as [|m0 ms0] eqn:Hmseq; [done|]. rewrite <-Hmseq in *.
  assert (m0 ∈ ms) as Hm0 by (rewrite Hmseq; left). clear Hne Hmseq.
  assert (review_inv p id root (oks ++ ((λ m, CallCommit m (digest m)) <$> ms))
    (review_run ((λ m, ReviewCommit m (digest m)) <$> ms) r)) as Hinv1.
  { apply run_commits; [done|by apply Hno|done|]. intros m Hm. split; [by apply Hms|]. intros d. by apply Hno. }
  set (oks1 := oks ++ _) in *. assert (CallOpenReveals ∉ oks1) as Hopen.
  { unfold oks1. rewrite elem_of_app, list_elem_of_fmap. intros [Hin|(? & ? & _)]; [|done]. by apply (Hno CallOpenReveals). }
  assert (CallAddMember m0 ∈ oks1) as Hadd by (apply elem_of_app; left; by apply Hms).
  assert (review_inv p id root (oks1 ++ [CallOpenReveals])
    (review_run [ReviewOpen] (review_run ((λ m, ReviewCommit m (digest m)) <$> ms) r))) as Hinv2.
  { apply (review_step_extends oks1 _ ReviewOpen Hinv1). simpl. eauto. }
  unfold unanimous_calls. rewrite !review_run_app. eexists. split; [|split].
  - apply (run_reveals digest ms _ _ Hinv2); [apply elem_of_app; right; left|done|]. intros m Hm. split_and!.
    + apply elem_of_app. left. apply elem_of_app. right. apply list_elem_of_fmap. eauto.
    + by apply Hms.
    + intros v salt. unfold oks1. rewrite !elem_of_app, list_elem_of_fmap, list_elem_of_singleton.
      intros [[Hin|(? & ? & _)]|?]; [|done..]. by apply (Hno (CallReveal m v salt)).
  - apply elem_of_app. left. apply elem_of_app. right. left.
  - intros m Hm. apply elem_of_app. right. apply list_elem_of_fmap. eauto.
Qed.
End unanimous.

Section unanimous_decision.
Context (p : ReviewPolicy) (f g : bytes → Recommendation) (Hfg : ∀ m, is_Some (rp_members p !! m) → f m = g m).

Lemma roster_agree q : q ∈ roster p → f q.1 = g q.1.
Proof. destruct q as [m v]. intros Hq%elem_of_entries. apply Hfg. eauto. Qed.

Lemma recommended_weight_ext r : recommended_weight p f r = recommended_weight p g r.
Proof. apply sumZ_fmap_ext. intros q Hq. by rewrite (roster_agree q Hq). Qed.

Lemma permit_cohorts_ext : permit_cohorts p f = permit_cohorts p g.
Proof.
  apply set_eq. intros c. unfold permit_cohorts. rewrite !elem_of_list_to_set, !list_elem_of_fmap.
  setoid_rewrite list_elem_of_filter. unfold permitting.
  split; intros (q & -> & [Hf Hpos] & Hq); (exists q; split; [done|]; split; [|done]); (split; [|done]);
    pose proof (roster_agree q Hq); congruence.
Qed.
End unanimous_decision.

Lemma congress_review_new_root p id root r : congress_review_new p id root = Ok r → validate_nonempty_field root = Ok tt.
Proof.
  unfold congress_review_new, round_new. munfold_goal. destruct (id =? 0); [done|].
  by destruct (validate_nonempty_field root) as [[]| |].
Qed.

(** Every member can commit to approval. *)
Lemma member_commitment p id m v root :
  policy_valid p → rp_members p !! m = Some v → validate_nonempty_field root = Ok tt →
  commitment id m root Allow [] = Ok (fnv1a64 (commitment_preimage id m root Allow [])).
Proof.
  intros Hv Hm Hroot. destruct (ps_keys _ (pv_sound _ Hv) m v Hm) as (_ & Hne & _ & Hlen & _).
  unfold commitment. munfold_goal. rewrite Hroot. unfold validate_nonempty_field, validate_field_len. munfold_goal.
  destruct m as [|b m]; [done|]. unfold MAX_IDENTIFIER_BYTES in Hlen.
  by destruct (Z.ltb_spec MAX_FIELD_LEN (len (b :: m))); [unfold MAX_FIELD_LEN in *; lia|].
Qed.

(** Whoever revealed, the decision of a round whose members all approve. *)
Lemma unanimous_decision p round :
  policy_valid p → 0 ≤ rq_max_hold_weight (rp_requirements p) → rd_phase round = RevealPhase →
  (∀ m, is_Some (rp_members p !! m) → outcome_of round m = Revealed Allow) →
  decision_of p round ExactClear =
    ReviewReady (reference_reduction (policy_weights p) (caps_of p)
      (ballot_map p (λ m, recommended (outcome_of round m))) false).
Proof.
  intros Hv Hhold Hphase Hall. unfold decision_of. rewrite Hphase, decide_False by done.
  assert (∀ m, m ∈ (roster p).*1 → outcome_of round m = Revealed Allow) as Hroster.
  { intros m Hm%elem_of_roster. by apply Hall. }
  unfold silent, abstained. rewrite !filter_none by (intros m Hm; by rewrite (Hroster m Hm)).
  rewrite !(decide_False (P := [] ≠ [])) by (intros H; by apply H).
  set (f m := recommended (outcome_of round m)).
  assert (∀ m, is_Some (rp_members p !! m) → f m = Permit) as Hf by (intros m Hm; unfold f; by rewrite Hall).
  rewrite !(recommended_weight_ext p f (λ _, Permit)), (permit_cohorts_ext p f (λ _, Permit)) by done.
  pose proof (pv_weight_reachable _ Hv). pose proof (pv_cohorts_reachable _ Hv).
  rewrite recommended_weight_hold. by rewrite !decide_False by lia.
Qed.

(** ** What a ready decision rests on *)

Lemma ready_supported p id root oks r exact reduction :
  policy_valid p → review_inv p id root oks r → evaluate r exact = Ok (ReviewReady reduction) →
  let outcome := outcome_of (cg_round r) in
  exact = ExactClear ∧
  (∀ m, is_Some (rp_members p !! m) → ∃ v d salt, outcome m = Revealed v ∧ v ≠ Abstain ∧
     commitment id m root v salt = Ok d ∧
     ms_commitment <$> rd_members (cg_round r) !! m = Some (Some d)) ∧
  rq_min_permit_weight (rp_requirements p) ≤ rn_permit_weight reduction ∧
  rn_hold_weight reduction ≤ rq_max_hold_weight (rp_requirements p) ∧
  rn_permit_weight reduction =
    sumZ ((λ q : bytes * ReviewMember, if decide (outcome q.1 = Revealed Allow) then admitted_weight p q else 0) <$> roster p) ∧
  rn_hold_weight reduction =
    sumZ ((λ q : bytes * ReviewMember, if decide (outcome q.1 = Revealed Allow) then 0 else admitted_weight p q) <$> roster p) ∧
  ∃ cohorts : gset bytes, rq_min_permit_cohorts (rp_requirements p) ≤ Z.of_nat (size cohorts) ∧
    ∀ c, c ∈ cohorts → ∃ m v, rp_members p !! m = Some v ∧ rm_cohort v = c ∧ outcome m = Revealed Allow ∧
      0 < admitted_weight p (m, v).
Proof.
  intros Hv Hinv Hready.
  rewrite (evaluate_eq p id root oks) in Hready by done. injection Hready as Hdec. intros outcome.
  unfold decision_of in Hdec. destruct exact; [|done..]. fold outcome in Hdec.
  destruct (decide (rd_phase _ = _)); [done|]. destruct (decide (silent _ _ ≠ [])) as [|Hs]; [done|].
  destruct (decide (abstained _ _ ≠ [])) as [|Ha]; [done|]. apply dec_stable in Hs, Ha.
  destruct (decide (recommended_weight _ _ Permit < _)) as [|Hpermit]; [done|].
  destruct (decide (_ < recommended_weight _ _ Hold)) as [|Hhold]; [done|].
  destruct (decide (_ < rq_min_permit_cohorts _)) as [|Hquorum]; [done|]. injection Hdec as <-.
  cbn [rn_permit_weight rn_hold_weight reference_reduction]. rewrite !ballot_tally.
  set (f m := recommended (outcome m)) in *.
  assert (∀ m, f m = Permit ↔ outcome m = Revealed Allow) as Hf by (intros m; unfold f, recommended; by case_decide).
  split_and!; [done| |lia|lia| | |].
  - intros m Hm. pose proof (proj2 (rv_members _ _ _ _ _ Hinv m) Hm) as [slot Hslot].
    pose proof (proj2 (elem_of_roster p m) Hm) as Hin.
    assert (outcome m ≠ NotRevealed) as Hsilent.
    { intros Ho. apply (elem_of_nil m). rewrite <-Hs. by apply list_elem_of_filter. }
    assert (outcome m ≠ Revealed Abstain) as Habst.
    { intros Ho. apply (elem_of_nil m). rewrite <-Ha. by apply list_elem_of_filter. }
    destruct (outcome m) as [|v] eqn:Ho; [done|]. unfold outcome, outcome_of in Ho. rewrite Hslot in Ho.
    pose proof (rv_round _ _ _ _ _ Hinv) as Hround.
    assert (∃ salt, CallReveal m v salt ∈ oks) as [salt Hsalt] by (apply (ri_outcomes _ _ _ _ Hround); eauto).
    destruct (transcript_matched _ _ _ _ _ _ (rv_transcript _ _ _ _ _ Hinv) Hsalt) as (_ & d & Hd & Hcommit).
    exists v, d, salt. split_and!; [done|congruence|done|].
    apply (ri_commitments _ _ _ _ Hround) in Hd as (slot' & -> & Hd). by rewrite <-Hd.
  - apply sumZ_fmap_ext. intros q _. apply decide_ext, Hf.
  - apply sumZ_fmap_ext. intros q _. unfold f, recommended. repeat case_decide; congruence.
  - exists (permit_cohorts p f). split; [lia|]. intros c. unfold permit_cohorts.
    rewrite elem_of_list_to_set, list_elem_of_fmap. setoid_rewrite list_elem_of_filter.
    intros ([m v] & -> & [Hpf Hpos] & Hq%elem_of_entries). exists m, v. split_and!; try done. by apply Hf.
Qed.

(** ** Properties *)

Section properties.
Context (members : list ReviewMember) (requirements : ReviewRequirements) (p : ReviewPolicy).
Context (id : Z) (root : bytes) (r0 : CongressReview).

(** C31: [evaluate] is the reference decision.  For every accepted
    policy and every series of calls on a review of it, [evaluate] returns -
    it neither fails nor aborts, and the reducer cannot overflow - exactly what
    the verdicts of the round say: who is missing, who abstains, and otherwise
    the comparison of the capped weights and of the permitting cohorts with the
    thresholds. *)
Theorem review_evaluates_exactly calls exact
    (Hmembers : Forall member_typed members) (Hrequirements : requirements_typed requirements)
    (Hpolicy : review_policy_new members requirements = Ok p)
    (Hreview : congress_review_new p id root = Ok r0) :
  evaluate (review_run calls r0) exact = Ok (decision_of p (cg_round (review_run calls r0)) exact).
Proof.
  apply review_policy_new_ok in Hpolicy as (_ & _ & Hv); [|done..].
  destruct (congress_review_new_inv _ _ _ _ Hreview) as (oks & Hinv & _).
  destruct (review_run_inv _ _ _ _ calls _ Hinv) as (oks' & Hinv'). by eapply evaluate_eq.
Qed.

(** C32: A ready decision is supported.  Whenever [evaluate] says ready, the
    exact status is clear, every member of the policy revealed a verdict other
    than an abstention, and the commitment recorded for the member is the digest
    of exactly this verdict with some salt; the admitted weight of the approving
    members meets the minimum, that of all the others the maximum, and the
    approvals with a positive admitted weight come from enough cohorts. *)
Theorem review_ready_is_supported calls exact reduction
    (Hmembers : Forall member_typed members) (Hrequirements : requirements_typed requirements)
    (Hpolicy : review_policy_new members requirements = Ok p)
    (Hreview : congress_review_new p id root = Ok r0)
    (Hready : evaluate (review_run calls r0) exact = Ok (ReviewReady reduction)) :
  let outcome := outcome_of (cg_round (review_run calls r0)) in
  exact = ExactClear ∧
  (∀ m, is_Some (rp_members p !! m) → ∃ v d salt, outcome m = Revealed v ∧ v ≠ Abstain ∧
     commitment id m root v salt = Ok d ∧
     ms_commitment <$> rd_members (cg_round (review_run calls r0)) !! m = Some (Some d)) ∧
  rq_min_permit_weight requirements ≤ rn_permit_weight reduction ∧
  rn_hold_weight reduction ≤ rq_max_hold_weight requirements ∧
  rn_permit_weight reduction =
    sumZ ((λ q : bytes * ReviewMember, if decide (outcome q.1 = Revealed Allow) then admitted_weight p q else 0) <$> roster p) ∧
  rn_hold_weight reduction =
    sumZ ((λ q : bytes * ReviewMember, if decide (outcome q.1 = Revealed Allow) then 0 else admitted_weight p q) <$> roster p) ∧
  ∃ cohorts : gset bytes, rq_min_permit_cohorts requirements ≤ Z.of_nat (size cohorts) ∧
    ∀ c, c ∈ cohorts → ∃ m v, rp_members p !! m = Some v ∧ rm_cohort v = c ∧ outcome m = Revealed Allow ∧
      0 < admitted_weight p (m, v).
Proof.
  apply review_policy_new_ok in Hpolicy as (_ & Hp & Hv); [|done..].
  destruct (congress_review_new_inv _ _ _ _ Hreview) as (oks & Hinv & _).
  destruct (review_run_inv _ _ _ _ calls _ Hinv) as (oks' & Hinv').
  assert (rp_requirements p = requirements) as <- by by rewrite Hp.
  exact (ready_supported p id root oks' _ _ _ Hv Hinv' Hready).
Qed.

(** An accepted policy can be satisfied.  When every member commits to
    approval, reveals are opened, and everyone reveals, the decision is ready,
    with the whole admitted weight permitting and nothing on hold. *)
Theorem unanimous_review_is_ready
    (Hmembers : Forall member_typed members) (Hrequirements : requirements_typed requirements)
    (Hpolicy : review_policy_new members requirements = Ok p)
    (Hreview : congress_review_new p id root = Ok r0) :
  ∃ reduction, evaluate (review_run (unanimous_calls id root (roster p).*1) r0) ExactClear = Ok (ReviewReady reduction) ∧
    rn_permit_weight reduction = sumZ (admitted_weight p <$> roster p) ∧ rn_hold_weight reduction = 0.
Proof.
  apply review_policy_new_ok in Hpolicy as (_ & Hp & Hv); [|done..].
  destruct (congress_review_new_inv _ _ _ _ Hreview) as (oks & Hinv & _ & Honly).
  destruct (unanimous_run p id root oks r0 (roster p).*1 Hinv Honly) as (oks' & Hinv' & Hopen & Hreveal).
  - apply entries_NoDup.
  - intros Hnil. destruct (map_choose (rp_members p) (ps_members _ (pv_sound _ Hv))) as (m & v & Hm).
    apply (elem_of_nil m). rewrite <-Hnil. apply elem_of_roster. eauto.
  - intros m Hm. split.
    + apply (ri_members _ _ _ _ (rv_round _ _ _ _ _ Hinv)), (rv_members _ _ _ _ _ Hinv). by apply elem_of_roster.
    + apply elem_of_roster in Hm as [v Hm]. eapply member_commitment; [done|done|].
      by eapply congress_review_new_root.
  - assert (∀ m, is_Some (rp_members p !! m) → outcome_of (cg_round (review_run (unanimous_calls id root (roster p).*1) r0)) m = Revealed Allow) as Hall.
    { intros m Hm%elem_of_roster. assert (∃ salt, CallReveal m Allow salt ∈ oks') as Hin by eauto.
      apply (ri_outcomes _ _ _ _ (rv_round _ _ _ _ _ Hinv')) in Hin as (s & Hs & Ho). unfold outcome_of. by rewrite Hs. }
    rewrite (evaluate_eq p id root oks') by done. rewrite unanimous_decision; [|done| | |done].
    + eexists. split; [reflexivity|]. cbn [rn_permit_weight rn_hold_weight reference_reduction]. rewrite !ballot_tally.
      set (f m := recommended (outcome_of _ m)).
      assert (∀ m, is_Some (rp_members p !! m) → f m = Permit) as Hf by (intros m Hm; unfold f; by rewrite Hall).
      rewrite !(recommended_weight_ext p f (λ _, Permit) Hf).
      split; [by apply recommended_weight_permit|apply recommended_weight_hold].
    + rewrite Hp. simpl. by destruct Hrequirements as (_ & _ & _ & ? & _).
    + by apply (ri_phase _ _ _ _ (rv_round _ _ _ _ _ Hinv')).
Qed.
End properties.

(** Two members of a capped cohort and one on its own. *)
Definition example_members : list ReviewMember :=
  [mkReviewMember [x61] [x78] 5; mkReviewMember [x62] [x78] 9; mkReviewMember [x63] [x79] 3].
Definition example_requirements : ReviewRequirements := mkReviewRequirements (mkCaps 6 7) 4 3 2.
Definition example_policy : ReviewPolicy := mkReviewPolicy (list_to_map (keyed example_members)) example_requirements.
Definition example_root : bytes := ascii_bytes "root".
Definition example_review : CongressReview :=
  match congress_review_new example_policy 7 example_root with
  | Ok r => r | _ => mkCongressReview example_policy (mkRound 0 [] CommitPhase false ∅) end.
(** The second member holds; the others approve. *)
Definition example_review_calls : list review_call :=
  let digest m v := fnv1a64 (commitment_preimage 7 m example_root v []) in
  [ReviewCommit [x61] (digest [x61] Allow); ReviewCommit [x62] (digest [x62] Deny);
   ReviewReveal [x61] Allow []; ReviewCommit [x63] (digest [x63] Allow); ReviewOpen;
   ReviewReveal [x62] Allow []; ReviewReveal [x61] Allow []; ReviewReveal [x62] Deny []; ReviewReveal [x63] Allow []].

Lemma example_members_typed : Forall member_typed example_members.
Proof. repeat constructor; vm_compute; congruence. Qed.
Lemma example_requirements_typed : requirements_typed example_requirements.
Proof. unfold requirements_typed, is_u64. vm_compute. intuition congruence. Qed.
Lemma example_policy_new : review_policy_new example_members example_requirements = Ok example_policy.
Proof. vm_compute. reflexivity. Qed.
Lemma example_review_new : congress_review_new example_policy 7 example_root = Ok example_review.
Proof. vm_compute. reflexivity. Qed.

Lemma review_evaluates_exactly_witness :
  evaluate (review_run example_review_calls example_review) ExactClear =
    Ok (decision_of example_policy (cg_round (review_run example_review_calls example_review)) ExactClear) ∧
  decision_of example_policy (cg_round (review_run [] example_review)) ExactClear = ReviewHold IndependentPhaseOpen.
Proof.
  split; [|vm_compute; reflexivity].
  exact (review_evaluates_exactly example_members example_requirements example_policy 7 example_root example_review
    example_review_calls ExactClear example_members_typed example_requirements_typed example_policy_new example_review_new).
Defined.

Definition example_ready : Reduction :=
  mkReduction EmpiricalOutcome 6 3 (list_to_map [([x61], 3); ([x62], 3); ([x63], 3)])
    (list_to_map [([x78], 6); ([x79], 3)]).

Lemma review_ready_is_supported_witness :
  evaluate (review_run example_review_calls example_review) ExactClear = Ok (ReviewReady example_ready) ∧
  rq_min_permit_weight example_requirements ≤ rn_permit_weight example_ready.
Proof.
  assert (evaluate (review_run example_review_calls example_review) ExactClear = Ok (ReviewReady example_ready)) as Hready
    by (vm_compute; reflexivity).
  split; [exact Hready|].
  exact (proj1 (proj2 (proj2 (review_ready_is_supported example_members example_requirements example_policy 7
    example_root example_review example_review_calls ExactClear example_ready example_members_typed
    example_requirements_typed example_policy_new example_review_new Hready)))).
Defined.

Lemma unanimous_review_is_ready_witness :
  ∃ reduction, evaluate (review_run (unanimous_calls 7 example_root (roster example_policy).*1) example_review) ExactClear =
      Ok (ReviewReady reduction) ∧
    rn_permit_weight reduction = sumZ (admitted_weight example_policy <$> roster example_policy) ∧
    rn_hold_weight reduction = 0.
Proof.
  exact (unanimous_review_is_ready example_members example_requirements example_policy 7 example_root example_review
    example_members_typed example_requirements_typed example_policy_new example_review_new).
Defined.
