(* ===== verification/Andon.v ===== *)
(** * False-stop accounting

    The module [andon] of [crates/fa-reference/src/round/review.rs]: a ledger
    of independently confirmed false holds, charged to disjoint windows of
    occurrence time, that opens an incident when a window's allowance is
    reached. *)

From Stdlib Require Import Strings.Byte.
From stdpp Require Import base tactics numbers list gmap sorting.
From S2P Require Import Prelude Bytes Judgment Round Reducer Review.

Local Open Scope Z_scope.

(** ** Model *)

Definition MAX_WINDOWS : Z := 128.
Definition MAX_FALSE_HOLDS : Z := 4096.

Record LedgerIdentity := mkLedgerIdentity { li_deployment : Z; li_evaluator : Z }.

Record AndonBudget := mkAndonBudget {
  ab_window : Z;
  ab_start : Z;
  ab_end : Z;
  ab_false_stops_allowed : Z;
  ab_cost_per_stop : Z;
}.

Record TrustedFalseHold := mkTrustedFalseHold {
  fh_identity : LedgerIdentity;
  fh_report : Z;
  fh_round : Z;
  fh_occurred_at : Z;
  fh_confirmed_at : Z;
  fh_evidence_root : bytes;
  fh_helper_generations : gmap bytes Z;
}.

#[global] Instance LedgerIdentity_eq_dec : EqDecision LedgerIdentity.
Proof. solve_decision. Defined.
#[global] Instance AndonBudget_eq_dec : EqDecision AndonBudget.
Proof. solve_decision. Defined.
#[global] Instance TrustedFalseHold_eq_dec : EqDecision TrustedFalseHold.
Proof. solve_decision. Defined.

Record CalibrationIncident := mkCalibrationIncident {
  ci_window : Z;
  ci_opened_by_round : Z;
  ci_rounds : gset Z;
}.

Record WindowAccounting := mkWindowAccounting {
  wa_budget : AndonBudget;
  wa_false_stops : Z;
  wa_total_cost : Z;
  wa_incident : option CalibrationIncident;
  wa_rounds : gset Z;
}.

Inductive RecordResult :=
  | Recorded (window : Z) (incident_opened : bool)
  | AlreadyRecorded (window : Z).

Record AndonLedger := mkAndonLedger {
  al_identity : LedgerIdentity;
  al_windows : gmap Z WindowAccounting;
  al_confirmations : gmap Z (Z * TrustedFalseHold);
}.

Definition andon_new (identity : LedgerIdentity) : res Error AndonLedger :=
  refuse_if ((li_deployment identity =? 0) || (li_evaluator identity =? 0)) InvalidInput;;
  Ok (mkAndonLedger identity ∅ ∅).

Definition confirmation_of (self : AndonLedger) (round : Z) : option TrustedFalseHold :=
  snd <$> al_confirmations self !! round.

Definition overlaps (budget : AndonBudget) (existing : WindowAccounting) : bool :=
  (ab_start budget <? ab_end (wa_budget existing)) && (ab_start (wa_budget existing) <? ab_end budget).

Definition register_window (budget : AndonBudget) : st AndonLedger Error bool :=
  self ← get;
  match al_windows self !! ab_window budget with
  | Some existing => if bool_decide (wa_budget existing = budget) then mret false else mthrow Binding
  | None =>
    refuse_if ((ab_window budget =? 0) || (ab_end budget <=? ab_start budget)) InvalidInput;;
    refuse_if (MAX_WINDOWS <=? Z.of_nat (size (al_windows self))) Limit;;
    refuse_if (existsb (overlaps budget) (map_values (al_windows self))) Binding;;
    modify (λ self, mkAndonLedger (al_identity self)
      (<[ab_window budget := mkWindowAccounting budget 0 0 None ∅]> (al_windows self)) (al_confirmations self));;
    mret true
  end.

(** [state.budget.start <= occurred_at && occurred_at < state.budget.end] *)
Definition in_window (occurred_at : Z) (state : WindowAccounting) : bool :=
  (ab_start (wa_budget state) <=? occurred_at) && (occurred_at <? ab_end (wa_budget state)).

Definition record_trusted (confirmation : TrustedFalseHold) : st AndonLedger Error RecordResult :=
  self ← get;
  refuse_if (bool_decide (fh_identity confirmation ≠ al_identity self)) Binding;;
  match al_confirmations self !! fh_round confirmation with
  | Some (window, existing) =>
    if bool_decide (existing = confirmation) then mret (AlreadyRecorded window) else mthrow Binding
  | None =>
    refuse_if ((fh_report confirmation =? 0) || (fh_round confirmation =? 0)
               || (fh_confirmed_at confirmation <? fh_occurred_at confirmation)
               || bool_decide (fh_helper_generations confirmation = ∅)
               || bool_decide (fh_evidence_root confirmation = [])) InvalidInput;;
    refuse_if ((MAX_FALSE_HOLDS <=? Z.of_nat (size (al_confirmations self)))
               || (MAX_VOTES <? Z.of_nat (size (fh_helper_generations confirmation)))
               || (MAX_FIELD_LEN <? len (fh_evidence_root confirmation))
               || existsb (λ p, MAX_IDENTIFIER_BYTES <? len p.1) (entries (fh_helper_generations confirmation))) Limit;;
    refuse_if (existsb (λ p, bool_decide (p.1 = []) || (p.2 =? 0)) (entries (fh_helper_generations confirmation)))
      InvalidInput;;
    window ← ok_or ((λ state, ab_window (wa_budget state)) <$>
      List.find (in_window (fh_occurred_at confirmation)) (map_values (al_windows self))) Missing;
    state ← lift (expect (al_windows self !! window));
    count ← ok_or (u64_checked_add (wa_false_stops state) 1) Overflow;
    cost ← ok_or (u128_checked_add (wa_total_cost state) (ab_cost_per_stop (wa_budget state))) Overflow;
    let incident_opened := bool_decide (wa_incident state = None)
                           && (ab_false_stops_allowed (wa_budget state) <=? count) in
    let rounds := {[fh_round confirmation]} ∪ wa_rounds state in
    let incident :=
      if incident_opened then Some (mkCalibrationIncident window (fh_round confirmation) rounds)
      else (λ incident, mkCalibrationIncident (ci_window incident) (ci_opened_by_round incident)
              ({[fh_round confirmation]} ∪ ci_rounds incident)) <$> wa_incident state in
    modify (λ self, mkAndonLedger (al_identity self)
      (<[window := mkWindowAccounting (wa_budget state) count cost incident rounds]> (al_windows self))
      (<[fh_round confirmation := (window, confirmation)]> (al_confirmations self)));;
    mret (Recorded window incident_opened)
  end.

(** The members whose verdict held or denied, collected into a set: its
    iteration order is that of the names. *)
Definition is_holder (outcome : MemberOutcome) : bool :=
  match outcome with Revealed Round.Hold | Revealed Deny => true | _ => false end.
Definition holders (round : Round) : list bytes :=
  (entries (filter (λ p, is_holder p.2 = true) (round_outcomes round))).*1.

Definition record_review (review : CongressReview) (exact : ExactStatus) (confirmation : TrustedFalseHold)
    : st AndonLedger Error RecordResult :=
  refuse_if (negb (rd_id (cg_round review) =? fh_round confirmation)
             || bool_decide (rd_evidence_root (cg_round review) ≠ fh_evidence_root confirmation)) Binding;;
  decision ← lift (evaluate review exact);
  match decision with
  | ReviewHold InsufficientPermitWeight | ReviewHold ExcessHoldWeight | ReviewHold InsufficientPermitCohorts => mret tt
  | ReviewHold _ => mthrow Incomplete
  | _ => mthrow Binding
  end;;
  refuse_if (bool_decide (holders (cg_round review) ≠ (entries (fh_helper_generations confirmation)).*1)) Binding;;
  record_trusted confirmation.

(** ** Calls and runs *)

Inductive andon_call :=
  | RegisterWindow (budget : AndonBudget)
  | RecordReview (review : CongressReview) (exact : ExactStatus) (confirmation : TrustedFalseHold)
  | RecordTrusted (confirmation : TrustedFalseHold).

Definition andon_step (c : andon_call) : st AndonLedger Error unit :=
  match c with
  | RegisterWindow budget => register_window budget;; mret tt
  | RecordReview review exact confirmation => record_review review exact confirmation;; mret tt
  | RecordTrusted confirmation => record_trusted confirmation;; mret tt
  end.
Definition andon_run (calls : list andon_call) (self : AndonLedger) : AndonLedger :=
  foldl (λ self c, (andon_step c self).2) self calls.

(** ** The accounting invariant *)

Record window_ok (l : AndonLedger) (w : Z) (s : WindowAccounting) : Prop := {
  wo_window : ab_window (wa_budget s) = w;
  wo_order : ab_start (wa_budget s) < ab_end (wa_budget s);
  wo_cost_typed : is_u64 (ab_cost_per_stop (wa_budget s));
  wo_rounds : ∀ r, r ∈ wa_rounds s ↔ ∃ c, al_confirmations l !! r = Some (w, c);
  wo_stops : wa_false_stops s = Z.of_nat (size (wa_rounds s));
  wo_cost : wa_total_cost s = wa_false_stops s * ab_cost_per_stop (wa_budget s);
  wo_incident :
    match wa_incident s with
    | None => wa_false_stops s < Z.max 1 (ab_false_stops_allowed (wa_budget s))
    | Some i => Z.max 1 (ab_false_stops_allowed (wa_budget s)) ≤ wa_false_stops s ∧
        ci_window i = w ∧ ci_rounds i = wa_rounds s ∧ ci_opened_by_round i ∈ wa_rounds s
    end;
}.

(** A retained confirmation: it is bound to its round and its occurrence falls
    in the window it is charged to. *)
Definition confirmation_ok (l : AndonLedger) (r : Z) (p : Z * TrustedFalseHold) : Prop :=
  fh_round p.2 = r ∧ r ≠ 0 ∧ fh_identity p.2 = al_identity l ∧ fh_occurred_at p.2 ≤ fh_confirmed_at p.2 ∧
  ∃ s, al_windows l !! p.1 = Some s ∧ in_window (fh_occurred_at p.2) s = true.

Record ledger_wf (l : AndonLedger) : Prop := {
  lw_windows : map_Forall (window_ok l) (al_windows l);
  lw_disjoint : ∀ w w' s s' t, al_windows l !! w = Some s → al_windows l !! w' = Some s' →
    in_window t s = true → in_window t s' = true → w = w';
  lw_confirmations : map_Forall (confirmation_ok l) (al_confirmations l);
  lw_window_count : Z.of_nat (size (al_windows l)) ≤ MAX_WINDOWS;
  lw_confirmation_count : Z.of_nat (size (al_confirmations l)) ≤ MAX_FALSE_HOLDS;
}.

(** Nothing that a ledger has recorded is taken back. *)
Record keeps (l l' : AndonLedger) : Prop := {
  kp_identity : al_identity l' = al_identity l;
  kp_confirmations : al_confirmations l ⊆ al_confirmations l';
  kp_windows : ∀ w s, al_windows l !! w = Some s → ∃ s', al_windows l' !! w = Some s' ∧
    wa_budget s' = wa_budget s ∧ wa_false_stops s ≤ wa_false_stops s' ∧ wa_rounds s ⊆ wa_rounds s' ∧
    ∀ i, wa_incident s = Some i → ∃ i', wa_incident s' = Some i' ∧ ci_opened_by_round i' = ci_opened_by_round i;
}.

#[global] Instance keeps_preorder : PreOrder keeps.
Proof.
  split.
  - intros l. split; [done|done|]. intros w s Hs. exists s. split_and!; try done. eauto.
  - intros l1 l2 l3 [H1 H2 H3] [H4 H5 H6]. split; [congruence|by transitivity (al_confirmations l2)|].
    intros w s Hs. destruct (H3 w s Hs) as (s2 & Hs2 & Hb2 & Hf2 & Hr2 & Hi2).
    destruct (H6 w s2 Hs2) as (s3 & Hs3 & Hb3 & Hf3 & Hr3 & Hi3). exists s3. split_and!; [done|congruence|lia|set_solver|].
    intros i (i2 & Hi & Ho)%Hi2. apply Hi3 in Hi as (i3 & Hi & Ho3). exists i3. split; [done|congruence].
Qed.

Lemma andon_new_wf identity l : andon_new identity = Ok l → ledger_wf l.
Proof.
  unfold andon_new. munfold_goal. destruct (_ || _); [done|]. intros [= <-]. split; simpl; try done.
Qed.

(** What an outcome of a call means. *)
Definition andon_sound {A} (l : AndonLedger) (p : res Error A * AndonLedger) : Prop :=
  p.1 ≠ Panic ∧ p.1 ≠ Err Overflow ∧ (is_ok p.1 = false → p.2 = l) ∧ ledger_wf p.2 ∧ keeps l p.2.

Lemma andon_refused {A} l e : ledger_wf l → e ≠ Overflow → andon_sound l (@Err Error A e, l).
Proof. intros Hl He. split_and!; [done|simpl; congruence|done|done|reflexivity]. Qed.
Lemma andon_same {A} l (a : A) : ledger_wf l → andon_sound l (Ok a, l).
Proof. intros Hl. by split_and!. Qed.

Section step.
Context (l : AndonLedger) (Hl : ledger_wf l).

Lemma window_of_value s :
  s ∈ map_values (al_windows l) ↔ ∃ w, al_windows l !! w = Some s.
Proof.
  unfold map_values. rewrite list_elem_of_fmap. split.
  - intros ([w s'] & -> & Hw%elem_of_entries). eauto.
  - intros [w Hw]. exists (w, s). split; [done|]. by apply elem_of_entries.
Qed.

Definition budget_typed (b : AndonBudget) : Prop := is_u64 (ab_cost_per_stop b).

Lemma register_window_sound budget : budget_typed budget → andon_sound l (register_window budget l).
Proof.
  intros Hty. unfold register_window. munfold_goal.
  destruct (al_windows l !! ab_window budget) as [s|] eqn:Hs.
  { case_bool_decide; [by apply andon_same|by apply andon_refused]. }
  destruct (_ || _) eqn:Hin; [by apply andon_refused|].
  destruct (Z.leb_spec MAX_WINDOWS (Z.of_nat (size (al_windows l)))); [by apply andon_refused|].
  destruct (existsb _ _) eqn:Hover; [by apply andon_refused|].
  apply orb_false_iff in Hin as [Hw Hord%Z.leb_gt].
  assert (∀ w s t, al_windows l !! w = Some s → in_window t s = true →
    ab_start budget ≤ t → t < ab_end budget → False) as Hfree.
  { intros w s t Hw' Hin H1 H2. apply not_true_iff_false in Hover. apply Hover, existsb_exists. exists s. split.
    - apply list_elem_of_In, window_of_value. eauto.
    - unfold in_window, overlaps in *. lia. }
  split_and!; [done|done|done| |].
  - destruct Hl as [H1 H2 H3 H4 H5]. split; simpl.
    + apply map_Forall_insert_2.
      * split; simpl; try done.
        -- intros r. split; [by intros ?%elem_of_empty|]. intros (c & Hc).
           destruct (H3 _ _ Hc) as (_ & _ & _ & _ & s & Hs' & _). simpl in Hs'. congruence.
        -- lia.
      * intros w s Hs'. destruct (H1 w s Hs'). by split.
    + intros w w' s s' t. destruct (decide (w = ab_window budget)) as [->|Hne], (decide (w' = ab_window budget)) as [->|Hne'];
        rewrite ?lookup_insert_eq, ?lookup_insert_ne by done; try done.
      * intros [= <-] Hs' Ht Ht'. unfold in_window in Ht. simpl in Ht. exfalso. eapply Hfree; [done|done|lia|lia].
      * intros Hs' [= <-] Ht Ht'. unfold in_window in Ht'. simpl in Ht'. exfalso. eapply Hfree; [done|done|lia|lia].
      * by apply H2.
    + intros r [w c] Hc. destruct (H3 r _ Hc) as (? & ? & ? & ? & s & Hs' & ?). split_and!; try done.
      exists s. split; [|done]. simpl in *. rewrite lookup_insert_ne; [done|]. congruence.
    + rewrite map_size_insert_None by done. lia.
    + done.
  - split; simpl; [done|done|]. intros w s Hs'. exists s. rewrite lookup_insert_ne by congruence. split_and!; try done. eauto.
Qed.

Lemma find_window_some t s :
  List.find (in_window t) (map_values (al_windows l)) = Some s →
  al_windows l !! ab_window (wa_budget s) = Some s ∧ in_window t s = true.
Proof.
  intros [Hs%list_elem_of_In Ht]%find_some. apply window_of_value in Hs as [w Hw].
  pose proof (lw_windows _ Hl w s Hw) as Hok. by rewrite (wo_window _ _ _ Hok).
Qed.

(** The counters of a window stay far from their widths. *)
Lemma window_bounds w s :
  al_windows l !! w = Some s → 0 ≤ wa_false_stops s ≤ MAX_FALSE_HOLDS ∧
  0 ≤ wa_total_cost s ≤ MAX_FALSE_HOLDS * U64_MAX.
Proof.
  intros Hs. destruct (lw_windows _ Hl w s Hs) as [_ _ Hcost Hr Hstops Htotal _].
  assert (wa_rounds s ⊆ dom (al_confirmations l)) as Hsub.
  { intros r (c & Hc)%Hr. apply elem_of_dom. eauto. }
  apply subseteq_size in Hsub. rewrite size_dom in Hsub. pose proof (lw_confirmation_count _ Hl).
  assert (0 ≤ wa_false_stops s ≤ MAX_FALSE_HOLDS) as Hb by lia. split; [done|]. rewrite Htotal.
  unfold is_u64 in Hcost. unfold MAX_FALSE_HOLDS in *. nia.
Qed.

(** The ledger after a recorded confirmation. *)
Definition recorded (c : TrustedFalseHold) (s : WindowAccounting) (opened : bool) : AndonLedger :=
  let w := ab_window (wa_budget s) in
  let rounds := {[fh_round c]} ∪ wa_rounds s in
  mkAndonLedger (al_identity l)
    (<[w := mkWindowAccounting (wa_budget s) (wa_false_stops s + 1)
        (wa_total_cost s + ab_cost_per_stop (wa_budget s))
        (if opened then Some (mkCalibrationIncident w (fh_round c) rounds)
         else (λ i, mkCalibrationIncident (ci_window i) (ci_opened_by_round i) ({[fh_round c]} ∪ ci_rounds i)) <$> wa_incident s)
        rounds]> (al_windows l))
    (<[fh_round c := (w, c)]> (al_confirmations l)).

Section recorded.
Context (c : TrustedFalseHold) (s : WindowAccounting).
Context (Hs : al_windows l !! ab_window (wa_budget s) = Some s) (Hin : in_window (fh_occurred_at c) s = true).
Context (Hc : al_confirmations l !! fh_round c = None).

Let opened := bool_decide (wa_incident s = None) && (ab_false_stops_allowed (wa_budget s) <=? wa_false_stops s + 1).

Lemma recorded_fresh : fh_round c ∉ wa_rounds s.
Proof. intros (c' & Hc')%(wo_rounds _ _ _ (lw_windows _ Hl _ _ Hs)). congruence. Qed.

Lemma recorded_window_ok : map_Forall (window_ok (recorded c s opened)) (al_windows (recorded c s opened)).
Proof.
  pose proof (lw_windows _ Hl _ _ Hs) as Hok. pose proof recorded_fresh as Hfresh. intros w s'. simpl.
  destruct (decide (w = ab_window (wa_budget s))) as [->|Hne].
  - rewrite lookup_insert_eq. intros [= <-].
    assert (Z.of_nat (size ({[fh_round c]} ∪ wa_rounds s)) = wa_false_stops s + 1) as Hsize.
    { rewrite (wo_stops _ _ _ Hok), size_union, size_singleton by set_solver. lia. }
    split; simpl; [done|apply Hok|apply Hok| |done| |].
    + intros r. rewrite elem_of_union, elem_of_singleton, (wo_rounds _ _ _ Hok).
      destruct (decide (r = fh_round c)) as [->|Hne]; [rewrite lookup_insert_eq|rewrite lookup_insert_ne by done]; naive_solver.
    + rewrite (wo_cost _ _ _ Hok). lia.
    + pose proof (wo_incident _ _ _ Hok) as Hi. unfold opened. destruct (wa_incident s) as [i|]; simpl.
      * destruct Hi as (? & ? & -> & ?). split_and!; [lia|done|done|set_solver].
      * pose proof (window_bounds _ _ Hs).
        destruct (Z.leb_spec (ab_false_stops_allowed (wa_budget s)) (wa_false_stops s + 1)); simpl; [|lia].
        split_and!; [lia|done|done|set_solver].
  - rewrite lookup_insert_ne by done. intros Hs'. destruct (lw_windows _ Hl w s' Hs') as [H1 H2 H3 H4 H5 H6 H7].
    split; try done. intros r. rewrite H4. simpl.
    destruct (decide (r = fh_round c)) as [->|]; [rewrite lookup_insert_eq|by rewrite lookup_insert_ne].
    split; intros [c' Hc']; [congruence|]. injection Hc' as ? ?. congruence.
Qed.

Lemma recorded_wf :
  fh_round c ≠ 0 → fh_identity c = al_identity l → fh_occurred_at c ≤ fh_confirmed_at c →
  Z.of_nat (size (al_confirmations l)) < MAX_FALSE_HOLDS → ledger_wf (recorded c s opened).
Proof.
  intros Hr Hid Hat Hcount.
  assert (∀ w s', al_windows (recorded c s opened) !! w = Some s' →
    ∃ s0, al_windows l !! w = Some s0 ∧ wa_budget s' = wa_budget s0) as Hbudget.
  { intros w s'. simpl. destruct (decide (w = ab_window (wa_budget s))) as [->|Hne].
    - rewrite lookup_insert_eq. intros [= <-]. exists s. done.
    - rewrite lookup_insert_ne by done. eauto. }
  assert (∀ w s0, al_windows l !! w = Some s0 → ∃ s', al_windows (recorded c s opened) !! w = Some s' ∧
    wa_budget s' = wa_budget s0) as Hbudget'.
  { intros w s0 Hw. simpl. destruct (decide (w = ab_window (wa_budget s))) as [->|Hne].
    - rewrite lookup_insert_eq. assert (s0 = s) as -> by congruence. eauto.
    - rewrite lookup_insert_ne by done. eauto. }
  split.
  - apply recorded_window_ok.
  - intros w w' s1 s2 t (s1' & H1 & E1)%Hbudget (s2' & H2 & E2)%Hbudget. unfold in_window. rewrite E1, E2.
    by apply (lw_disjoint _ Hl).
  - intros r p. simpl. destruct (decide (r = fh_round c)) as [->|Hne].
    + rewrite lookup_insert_eq. intros [= <-]. destruct (Hbudget' _ _ Hs) as (s' & Hs' & E).
      split_and!; try done. exists s'. split; [exact Hs'|]. unfold in_window. by rewrite E.
    + rewrite lookup_insert_ne by done. intros Hp. destruct (lw_confirmations _ Hl r p Hp) as (? & ? & ? & ? & s0 & Hs0 & Hin0).
      destruct (Hbudget' _ _ Hs0) as (s' & Hs' & E). split_and!; try done. exists s'. split; [exact Hs'|].
      unfold in_window. by rewrite E.
  - simpl. rewrite map_size_insert_Some by eauto. apply Hl.
  - simpl. rewrite map_size_insert_None by done. lia.
Qed.

Lemma recorded_keeps : keeps l (recorded c s opened).
Proof.
  split; simpl; [done|by apply insert_subseteq|]. intros w s0 Hw.
  destruct (decide (w = ab_window (wa_budget s))) as [->|Hne].
  - assert (s0 = s) as -> by congruence. rewrite lookup_insert_eq. eexists. split; [done|]. simpl.
    split_and!; [done|lia|set_solver|]. intros i Hi. unfold opened. rewrite Hi. simpl. eauto.
  - rewrite lookup_insert_ne by done. exists s0. split_and!; try done. eauto.
Qed.
End recorded.

(** When a new confirmation is recorded, and in which window. *)
Definition recordable (c : TrustedFalseHold) (s : WindowAccounting) : Prop :=
  fh_identity c = al_identity l ∧ al_confirmations l !! fh_round c = None ∧
  fh_report c ≠ 0 ∧ fh_round c ≠ 0 ∧ fh_occurred_at c ≤ fh_confirmed_at c ∧
  fh_helper_generations c ≠ ∅ ∧ fh_evidence_root c ≠ [] ∧
  Z.of_nat (size (al_confirmations l)) < MAX_FALSE_HOLDS ∧
  Z.of_nat (size (fh_helper_generations c)) ≤ MAX_VOTES ∧ len (fh_evidence_root c) ≤ MAX_FIELD_LEN ∧
  map_Forall (λ id generation, id ≠ [] ∧ len id ≤ MAX_IDENTIFIER_BYTES ∧ generation ≠ 0) (fh_helper_generations c) ∧
  al_windows l !! ab_window (wa_budget s) = Some s ∧ in_window (fh_occurred_at c) s = true.

(** The three outcomes of [record_trusted]. *)
Inductive recording (c : TrustedFalseHold) : res Error RecordResult * AndonLedger → Prop :=
  | RecordingRefused e : e ≠ Overflow → (∀ s, ¬ recordable c s) →
      (∀ w, al_confirmations l !! fh_round c = Some (w, c) → fh_identity c ≠ al_identity l) → recording c (Err e, l)
  | RecordingKnown w : al_confirmations l !! fh_round c = Some (w, c) → recording c (Ok (AlreadyRecorded w), l)
  | RecordingNew s : recordable c s →
      let opened := bool_decide (wa_incident s = None) && (ab_false_stops_allowed (wa_budget s) <=? wa_false_stops s + 1) in
      recording c (Ok (Recorded (ab_window (wa_budget s)) opened), recorded c s opened).

Lemma record_trusted_cases c : recording c (record_trusted c l).
Proof.
  unfold record_trusted. munfold_goal. case_bool_decide as Hid.
  { apply RecordingRefused; [done| |done]. intros s (? & _). done. }
  destruct (al_confirmations l !! fh_round c) as [[w c']|] eqn:Hc.
  { case_bool_decide as Heq; [subst c'; by apply RecordingKnown|].
    apply RecordingRefused; [done| |]; [intros s (_ & ? & _); congruence|intros w'; congruence]. }
  assert (∀ e, e ≠ Overflow → (∀ s, ¬ recordable c s) → recording c (Err e, l)) as Hrefuse.
  { intros e He Hs. apply RecordingRefused; [done|done|congruence]. }
  destruct ((fh_report c =? 0) || _ || _ || _ || _) eqn:Hbad.
  { apply Hrefuse; [done|]. intros s (_ & _ & H1 & H2 & H3 & H4 & H5 & _).
    rewrite !orb_true_iff, !bool_decide_eq_true in Hbad. destruct Hbad as [[[[?|?]|?]|?]|?]; [lia..|done|done]. }
  destruct ((MAX_FALSE_HOLDS <=? _) || _ || _ || _) eqn:Hlim.
  { apply Hrefuse; [done|]. intros s (_ & _ & _ & _ & _ & _ & _ & H1 & H2 & H3 & H4 & _).
    assert (existsb (λ p, MAX_IDENTIFIER_BYTES <? len p.1) (entries (fh_helper_generations c)) = false) as Hno.
    { apply existsb_entries. intros id g Hg. destruct (H4 id g Hg) as (_ & ? & _). simpl. lia. }
    rewrite Hno in Hlim. lia. }
  destruct (existsb (λ p : bytes * Z, bool_decide (p.1 = []) || (p.2 =? 0)) _) eqn:Hgen.
  { apply Hrefuse; [done|]. intros s (_ & _ & _ & _ & _ & _ & _ & _ & _ & _ & H4 & _).
    apply not_false_iff_true in Hgen. apply Hgen, existsb_entries. intros id g Hg. destruct (H4 id g Hg) as (? & _ & ?). simpl.
    apply orb_false_iff. split; [by apply bool_decide_eq_false|lia]. }
  destruct (List.find _ _) as [s|] eqn:Hfind; simpl.
  2:{ apply Hrefuse; [done|]. intros s (_ & _ & _ & _ & _ & _ & _ & _ & _ & _ & _ & Hs & Hin).
      assert (s ∈ map_values (al_windows l)) as Hv by (apply window_of_value; eauto).
      apply list_elem_of_In in Hv. pose proof (find_none _ _ Hfind s Hv). congruence. }
  apply find_window_some in Hfind as [Hs Hin]. rewrite Hs. destruct (window_bounds _ _ Hs) as [Hstops Htotal].
  pose proof (wo_cost_typed _ _ _ (lw_windows _ Hl _ _ Hs)) as Hcost. unfold is_u64 in Hcost.
  unfold u64_checked_add, u128_checked_add. unfold MAX_FALSE_HOLDS in Hstops, Htotal.
  destruct (Z.leb_spec (wa_false_stops s + 1) U64_MAX); [|lia].
  destruct (Z.leb_spec (wa_total_cost s + ab_cost_per_stop (wa_budget s)) U128_MAX); [|lia].
  apply (RecordingNew c s). rewrite !orb_false_iff, !bool_decide_eq_false in Hbad. rewrite !orb_false_iff in Hlim.
  destruct Hbad as [[[[? ?] ?] ?] ?], Hlim as [[[? ?] ?] Hids].
  split_and!; try done; try lia. rewrite existsb_entries in Hids, Hgen.
  intros id g Hg. specialize (Hids id g Hg). specialize (Hgen id g Hg). simpl in Hids, Hgen.
  apply orb_false_iff in Hgen as [?%bool_decide_eq_false ?]. split_and!; [done|lia|lia].
Qed.

Lemma record_trusted_sound c : andon_sound l (record_trusted c l).
Proof.
  destruct (record_trusted_cases c) as [e He|w|s Hs]; [by apply andon_refused|by apply andon_same|].
  destruct Hs as (Hid & Hc & _ & Hr & Hat & _ & _ & Hcount & _ & _ & _ & Hs & Hin).
  split_and!; [done|done|done|by apply recorded_wf|by apply recorded_keeps].
Qed.
End step.

(** ** Reviews and runs *)

(** A hold that the thresholds decided. *)
Definition threshold_hold (reason : HoldReason) : bool :=
  match reason with InsufficientPermitWeight | ExcessHoldWeight | InsufficientPermitCohorts => true | _ => false end.

(** What a completed review must say of a confirmation. *)
Definition attributed (review : CongressReview) (exact : ExactStatus) (c : TrustedFalseHold) : Prop :=
  rd_id (cg_round review) = fh_round c ∧ rd_evidence_root (cg_round review) = fh_evidence_root c ∧
  (∃ reason, evaluate review exact = Ok (ReviewHold reason) ∧ threshold_hold reason = true) ∧
  ∀ m, is_Some (fh_helper_generations c !! m) ↔
    ∃ v, round_outcome (cg_round review) m = Ok (Revealed v) ∧ (v = Round.Hold ∨ v = Deny).

Lemma entries_keys_eq {A B : Type} (m : gmap bytes A) (m' : gmap bytes B) :
  (entries m).*1 = (entries m').*1 ↔ ∀ k, is_Some (m !! k) ↔ is_Some (m' !! k).
Proof.
  assert (∀ (C : Type) (n : gmap bytes C) k, k ∈ (entries n).*1 ↔ is_Some (n !! k)) as Hk.
  { intros C n k. rewrite list_elem_of_fmap. split.
    - intros ([k' c] & -> & Hin%elem_of_entries). simpl. eauto.
    - intros [c Hc]. exists (k, c). split; [done|]. by apply elem_of_entries. }
  split; [intros Heq k; by rewrite <-!Hk, Heq|]. intros Hiff.
  assert (∀ (C : Type) (n : gmap bytes C), StronglySorted key_le (entries n).*1) as Hsorted.
  { intros C n. generalize (entries_sorted n). generalize (entries n). intros l Hl.
    induction Hl as [|p l Hl IH Hall]; csimpl; constructor; [done|]. by apply Forall_fmap. }
  apply (StronglySorted_unique key_le); [apply Hsorted..|].
  apply NoDup_Permutation; [apply entries_NoDup..|]. intros k. by rewrite !Hk, Hiff.
Qed.

Lemma holder_lookup round m :
  is_Some (filter (λ p : bytes * MemberOutcome, is_holder p.2 = true) (round_outcomes round) !! m) ↔
  ∃ v, round_outcome round m = Ok (Revealed v) ∧ (v = Round.Hold ∨ v = Deny).
Proof.
  unfold round_outcome, round_outcomes. munfold_goal. split.
  - intros [o [Hin Ho]%map_lookup_filter_Some]. rewrite lookup_fmap in Hin.
    destruct (rd_members round !! m) as [s|]; [|done]. simpl in *. injection Hin as ->. destruct o as [|[]]; try done; eauto.
  - intros (v & Hv & Hhold). exists (Revealed v). apply map_lookup_filter_Some. rewrite lookup_fmap.
    destruct (rd_members round !! m) as [s|]; [|done]. simpl in *. split; [congruence|by destruct Hhold as [-> | ->]].
Qed.


Lemma holders_match round c :
  holders round = (entries (fh_helper_generations c)).*1 ↔
  ∀ m, is_Some (fh_helper_generations c !! m) ↔
    ∃ v, round_outcome round m = Ok (Revealed v) ∧ (v = Round.Hold ∨ v = Deny).
Proof.
  unfold holders. rewrite entries_keys_eq. setoid_rewrite holder_lookup. split; intros H m; by rewrite H.
Qed.

(** [record_review] is [record_trusted] behind the check of the review. *)
Lemma record_review_cases review exact c l :
  evaluate review exact ≠ Panic → evaluate review exact ≠ Err Overflow →
  (attributed review exact c ∧ record_review review exact c l = record_trusted c l) ∨
  (¬ attributed review exact c ∧ ∃ e, e ≠ Overflow ∧ record_review review exact c l = (Err e, l)).
Proof.
  intros Hpanic Hover. unfold record_review. munfold_goal.
  destruct (Z.eqb_spec (rd_id (cg_round review)) (fh_round c)) as [Hid|Hid]; simpl.
  2:{ right. split; [by intros (? & _)|]. by exists Binding. }
  case_bool_decide as Hroot.
  { right. split; [by intros (_ & ? & _)|]. by exists Binding. }
  destruct (evaluate review exact) as [decision|e|] eqn:Heval; [| |done].
  2:{ right. split; [intros (_ & _ & (? & ? & _) & _); congruence|]. exists e. split; [congruence|done]. }
  assert ((∃ reason, decision = ReviewHold reason ∧ threshold_hold reason = true) ∨
    (∀ reason, decision = ReviewHold reason → threshold_hold reason = false)) as [(reason & -> & Hreason)|Hno].
  { destruct decision as [|reason|]; [by right| |by right].
    destruct (threshold_hold reason) eqn:E; [left; eauto|right]. by intros ? [= <-]. }
  2:{ right. split; [intros (_ & _ & (reason & Hr & Ht) & _); rewrite Heval in Hr; injection Hr as ->; by rewrite Hno in Ht|].
      destruct decision as [|[]|]; try (by specialize (Hno _ eq_refl)); (eexists; split; [|reflexivity]; done). }
  assert (attributed review exact c ↔ holders (cg_round review) = (entries (fh_helper_generations c)).*1) as Hiff.
  { rewrite holders_match. unfold attributed. split; [tauto|]. intros H. split_and!; try done. eauto. }
  destruct reason; try done;
    (destruct (bool_decide_reflect (holders (cg_round review) ≠ (entries (fh_helper_generations c)).*1)) as [Hdiff|Hsame];
     [right; split; [by rewrite Hiff|by exists Binding]|left; split; [by apply Hiff, dec_stable|done]]).
Qed.

(** A review that the public constructors and methods made. *)
Definition reviewed (review : CongressReview) : Prop :=
  ∃ members requirements p id root r0 calls,
    Forall member_typed members ∧ requirements_typed requirements ∧
    review_policy_new members requirements = Ok p ∧ congress_review_new p id root = Ok r0 ∧
    review = review_run calls r0.

Lemma reviewed_evaluates review exact : reviewed review → ∃ decision, evaluate review exact = Ok decision.
Proof.
  intros (members & requirements & p & id & root & r0 & calls & Hm & Hreq & Hp & Hr & ->).
  apply review_policy_new_ok in Hp as (_ & _ & Hv); [|done..].
  destruct (congress_review_new_inv _ _ _ _ Hr) as (oks & Hinv & _).
  destruct (review_run_inv _ _ _ _ calls _ Hinv) as (oks' & Hinv'). eexists. by eapply evaluate_eq.
Qed.

Lemma record_review_outcome review exact c l :
  reviewed review →
  (attributed review exact c ∧ record_review review exact c l = record_trusted c l) ∨
  (¬ attributed review exact c ∧ ∃ e, e ≠ Overflow ∧ record_review review exact c l = (Err e, l)).
Proof.
  intros Hreview. destruct (reviewed_evaluates review exact Hreview) as [decision Heval].
  apply record_review_cases; by rewrite Heval.
Qed.

Definition andon_call_typed (call : andon_call) : Prop :=
  match call with
  | RegisterWindow budget => budget_typed budget
  | RecordReview review _ _ => reviewed review
  | RecordTrusted _ => True
  end.

Lemma andon_sound_unit {A} (m : st AndonLedger Error A) l : andon_sound l (m l) → andon_sound l ((m;; mret tt) l).
Proof. unfold andon_sound. munfold_goal. intros H. destruct (m l) as [[a|e|] l']; simpl in *; tauto || intuition congruence. Qed.

Lemma andon_step_sound call l : ledger_wf l → andon_call_typed call → andon_sound l (andon_step call l).
Proof.
  intros Hl Hty. destruct call as [budget|review exact c|c]; simpl; apply andon_sound_unit.
  - by apply register_window_sound.
  - destruct (record_review_outcome review exact c l Hty) as [[_ ->]|[_ (e & He & ->)]];
      [by apply record_trusted_sound|by apply andon_refused].
  - by apply record_trusted_sound.
Qed.

Lemma andon_run_sound calls l : ledger_wf l → Forall andon_call_typed calls → ledger_wf (andon_run calls l) ∧ keeps l (andon_run calls l).
Proof.
  intros Hl Hty. revert l Hl. induction Hty as [|call calls Hcall _ IH]; intros l Hl; [split; [done|reflexivity]|]. simpl.
  destruct (andon_step_sound call l Hl Hcall) as (_ & _ & _ & Hwf & Hkeeps). destruct (IH _ Hwf) as [H1 H2].
  split; [done|]. by transitivity (andon_step call l).2.
Qed.

(** ** Properties *)

(** C33: The books always balance.  After any calls on a new ledger, every
    window's stops are exactly the retained confirmations charged to it, its
    cost is their number times the cost per stop, its incident is open exactly
    from the stop that reaches the allowance and lists all contributors, and a
    confirmation is charged to the one window its occurrence falls in.  A
    further call changes nothing when it is refused, never aborts and never
    overflows. *)
Theorem andon_accounting_always identity l0 calls call
    (Hnew : andon_new identity = Ok l0) (Hcalls : Forall andon_call_typed calls) (Hcall : andon_call_typed call) :
  let l := andon_run calls l0 in
  ledger_wf l ∧
  (andon_step call l).1 ≠ Panic ∧ (andon_step call l).1 ≠ Err Overflow ∧
  (is_ok (andon_step call l).1 = false → (andon_step call l).2 = l).
Proof.
  destruct (andon_run_sound calls l0 (andon_new_wf _ _ Hnew) Hcalls) as [Hwf _]. intros l. split; [done|].
  destruct (andon_step_sound call l Hwf Hcall) as (? & ? & ? & _). done.
Qed.

(** A new confirmation is recorded exactly when it is well formed, belongs
    to this deployment and evaluator, and occurred in a registered window, and
    it is charged to that window; an identical retry is free at any time, and
    what was recorded is never taken back: budgets, confirmations and the round
    that opened an incident stay, counts only grow. *)
Theorem andon_records_are_permanent identity l0 calls calls' c
    (Hnew : andon_new identity = Ok l0) (Hcalls : Forall andon_call_typed calls) (Hcalls' : Forall andon_call_typed calls') :
  let l := andon_run calls l0 in
  let later := andon_run calls' (record_trusted c l).2 in
  (∀ w opened, (record_trusted c l).1 = Ok (Recorded w opened) ↔
     ∃ s, recordable l c s ∧ ab_window (wa_budget s) = w ∧
       opened = bool_decide (wa_incident s = None) && (ab_false_stops_allowed (wa_budget s) <=? wa_false_stops s + 1)) ∧
  (is_ok (record_trusted c l).1 = true →
     ∃ w, confirmation_of later (fh_round c) = Some c ∧ record_trusted c later = (Ok (AlreadyRecorded w), later)) ∧
  keeps l later.
Proof.
  destruct (andon_run_sound calls l0 (andon_new_wf _ _ Hnew) Hcalls) as [Hwf _]. intros l.
  pose proof (record_trusted_sound l Hwf c) as (_ & _ & _ & Hwf1 & Hkeeps1).
  pose proof (record_trusted_cases l Hwf c) as Hcases. intros later.
  destruct (andon_run_sound calls' _ Hwf1 Hcalls') as [Hwf2 Hkeeps2].
  assert (∀ s s', recordable l c s → recordable l c s' → s = s') as Huniq.
  { intros s s' (_ & _ & _ & _ & _ & _ & _ & _ & _ & _ & _ & Hs & Hin) (_ & _ & _ & _ & _ & _ & _ & _ & _ & _ & _ & Hs' & Hin').
    pose proof (lw_disjoint _ Hwf _ _ _ _ _ Hs Hs' Hin Hin') as Heq. rewrite Heq in Hs. congruence. }
  split_and!; [| |by transitivity (record_trusted c l).2].
  - intros w opened. destruct Hcases as [e _ Hno _|w' Hc|s Hs o]; simpl; split; try done.
    + by intros (s & Hs%Hno & _).
    + intros (s & (_ & Hnone & _) & _). congruence.
    + intros [= <- <-]. by exists s.
    + intros (s' & Hs' & <- & ->). by rewrite (Huniq s' s Hs' Hs).
  - intros Hok. assert (∃ w, al_confirmations (record_trusted c l).2 !! fh_round c = Some (w, c) ∧ fh_identity c = al_identity l) as (w & Hw & Hid).
    { destruct Hcases as [e|w' Hc|s Hs o]; [done| |].
      - exists w'. split; [done|]. by destruct (lw_confirmations _ Hwf _ _ Hc) as (_ & _ & ? & _).
      - exists (ab_window (wa_budget s)). simpl. rewrite lookup_insert_eq. split; [done|]. by destruct Hs. }
    assert (al_confirmations later !! fh_round c = Some (w, c)) as Hlater
      by (eapply lookup_weaken; [exact Hw|apply Hkeeps2]).
    exists w. unfold confirmation_of. rewrite Hlater. split; [done|].
    unfold record_trusted. munfold_goal.
    assert (al_identity later = al_identity l) as Hsame.
    { transitivity (al_identity (record_trusted c l).2); [apply Hkeeps2|apply Hkeeps1]. }
    rewrite (bool_decide_false (fh_identity c ≠ _)) by (rewrite Hsame, Hid; tauto).
    by rewrite Hlater, bool_decide_true.
Qed.

(** Only attributed stops are charged.  [record_review] acts as
    [record_trusted] when the review is of the confirmation's round and
    evidence, its decision is a hold that the thresholds made, and the helpers
    named are exactly the members whose verdict held or denied; otherwise it is
    refused and the ledger unchanged. *)
Theorem record_review_is_bound review exact c l (Hreview : reviewed review) :
  (attributed review exact c → record_review review exact c l = record_trusted c l) ∧
  (¬ attributed review exact c → ∃ e, record_review review exact c l = (Err e, l)).
Proof.
  destruct (record_review_outcome review exact c l Hreview) as [[? ->]|[? (e & _ & ->)]]; split; try done. eauto.
Qed.

Definition example_ledger_identity : LedgerIdentity := mkLedgerIdentity 1 2.
Definition example_new_ledger : AndonLedger := mkAndonLedger example_ledger_identity ∅ ∅.
Definition example_windows : list andon_call :=
  [RegisterWindow (mkAndonBudget 1 0 10 1 5); RegisterWindow (mkAndonBudget 2 10 20 0 7)].
(** A false hold of round 7, attributed to the member that denied. *)
Definition example_false_hold : TrustedFalseHold :=
  mkTrustedFalseHold example_ledger_identity 3 7 4 12 example_root {[ [x62] := 1 ]}.

Lemma example_windows_typed : Forall andon_call_typed example_windows.
Proof. repeat constructor; vm_compute; congruence. Qed.

Lemma andon_accounting_always_witness :
  ledger_wf (andon_run example_windows example_new_ledger) ∧
  (andon_step (RecordTrusted example_false_hold) (andon_run example_windows example_new_ledger)).1 = Ok tt.
Proof.
  split; [|vm_compute; reflexivity].
  exact (proj1 (andon_accounting_always example_ledger_identity example_new_ledger example_windows
    (RecordTrusted example_false_hold) eq_refl example_windows_typed I)).
Defined.

Lemma andon_records_are_permanent_witness :
  ∃ w, record_trusted example_false_hold (record_trusted example_false_hold (andon_run example_windows example_new_ledger)).2 =
    (Ok (AlreadyRecorded w), (record_trusted example_false_hold (andon_run example_windows example_new_ledger)).2).
Proof.
  destruct (proj1 (proj2 (andon_records_are_permanent example_ledger_identity example_new_ledger example_windows []
    example_false_hold eq_refl example_windows_typed (Forall_nil_2 _)))) as (w & _ & Hw); [vm_compute; reflexivity|].
  exists w. exact Hw.
Defined.

(** Tighter thresholds: the example's denial stops the action. *)
Definition strict_requirements : ReviewRequirements := mkReviewRequirements (mkCaps 6 7) 4 2 2.
Definition strict_policy : ReviewPolicy := mkReviewPolicy (list_to_map (keyed example_members)) strict_requirements.
Definition strict_review : CongressReview :=
  match congress_review_new strict_policy 7 example_root with
  | Ok r => r | _ => mkCongressReview strict_policy (mkRound 0 [] CommitPhase false ∅) end.

Lemma strict_reviewed : reviewed (review_run example_review_calls strict_review).
Proof.
  exists example_members, strict_requirements, strict_policy, 7, example_root, strict_review, example_review_calls.
  split_and!; [exact example_members_typed| |vm_compute; reflexivity|vm_compute; reflexivity|reflexivity].
  unfold requirements_typed, is_u64. vm_compute. intuition congruence.
Qed.

Lemma record_review_is_bound_witness :
  record_review (review_run example_review_calls strict_review) ExactClear example_false_hold example_new_ledger =
    record_trusted example_false_hold example_new_ledger.
Proof.
  apply (record_review_is_bound _ ExactClear example_false_hold example_new_ledger strict_reviewed).
  split; [vm_compute; reflexivity|]. split; [vm_compute; reflexivity|].
  split; [exists ExcessHoldWeight; split; vm_compute; reflexivity|].
  apply holders_match. vm_compute. reflexivity.
Defined.
