(* ===== verification/Perimeter.v ===== *)
(** * The effect perimeter

    [crates/fa-reference/src/perimeter.rs]: the declared inventory of effect
    families, their routes, credentials and residual nonclaims, the validation
    every declaration goes through, and the lookup of a route.  Text is its
    UTF-8 bytes. *)

From Stdlib Require Import Strings.Byte.
From stdpp Require Import base tactics numbers list.
From S2P Require Import Prelude Bytes Judgment.

Local Open Scope Z_scope.

(** ** Model *)

Definition MAX_FAMILIES : Z := 64.
Definition MAX_ROUTES_PER_FAMILY : Z := 32.
Definition MAX_TEXT_BYTES : Z := 128.
Definition MAX_FAMILY_TEXT_BYTES : Z := 4096.
Definition MAX_CREDENTIALS_PER_FAMILY : Z := 16.
Definition MAX_RESIDUAL_NONCLAIMS : Z := 16.

Record PerimeterScope := mkPerimeterScope {
  ps_tenant : Z;
  ps_principal : Z;
  ps_purpose : Z;
}.

#[global] Instance PerimeterScope_eq_dec : EqDecision PerimeterScope.
Proof. solve_decision. Defined.

Definition perimeter_scope_validate (self : PerimeterScope) : res Error unit :=
  if existsb (Z.eqb 0) [ps_tenant self; ps_principal self; ps_purpose self]
  then Err InvalidInput else Ok tt.

Inductive TrustDomain := Actor | ObservationAndAnalysis | Enforcement | GovernanceAndInvestigation.

#[global] Instance TrustDomain_eq_dec : EqDecision TrustDomain.
Proof. solve_decision. Defined.

Inductive CredentialHolder := ActorDirect | Broker.

#[global] Instance CredentialHolder_eq_dec : EqDecision CredentialHolder.
Proof. solve_decision. Defined.

Record CredentialExposure := mkCredentialExposure {
  ce_credential : bytes;
  ce_holder : CredentialHolder;
}.

Inductive ThreatClass :=
  | GuardrailRemoval
  | PromptInjection
  | PayloadSubstitution
  | DirectCredentialOrEgress
  | UnknownRemoteOutcome.

Inductive BypassDisposition := Blocked | ResidualUncovered | Unmodeled.

#[global] Instance BypassDisposition_eq_dec : EqDecision BypassDisposition.
Proof. solve_decision. Defined.

Inductive Mediation := ObserveOnly | CooperativeGate | BrokeredEffects.

#[global] Instance Mediation_eq_dec : EqDecision Mediation.
Proof. solve_decision. Defined.

Record RouteRecord := mkRouteRecord {
  rr_route : bytes;
  rr_threat : option ThreatClass;
  rr_mediation : Mediation;
  rr_bypass : BypassDisposition;
}.

Record EffectFamilyRecord := mkEffectFamilyRecord {
  ef_scope : PerimeterScope;
  ef_family : bytes;
  ef_trust_domains : list TrustDomain;
  ef_credentials : list CredentialExposure;
  ef_routes : list RouteRecord;
  ef_residual_nonclaims : list bytes;
}.

Record PerimeterInventory := mkPerimeterInventory { pi_records : list EffectFamilyRecord }.

Definition validate_text (text : bytes) : res Error unit :=
  refuse_if (bool_decide (text = [])) InvalidInput;;
  refuse_if (MAX_TEXT_BYTES <? len text) Limit.

Definition add_text (total added : Z) : res Error Z :=
  total ← ok_or (u64_checked_add total added) Overflow;
  if MAX_FAMILY_TEXT_BYTES <? total then Err Limit else Ok total.

(** The loops that charge the text of the credentials and of the nonclaims. *)
Fixpoint validate_texts (texts : list bytes) (total : Z) : res Error Z :=
  match texts with
  | [] => Ok total
  | text :: texts => validate_text text;; total ← add_text total (len text); validate_texts texts total
  end.

(** The loop over the routes; [prior] is [record.routes\[..index\]]. *)
Fixpoint validate_routes (prior routes : list RouteRecord) (total : Z) : res Error Z :=
  match routes with
  | [] => Ok total
  | route :: routes =>
    validate_text (rr_route route);;
    total ← add_text total (len (rr_route route));
    refuse_if (match rr_threat route with None => true | Some _ => false end) Incomplete;;
    refuse_if (existsb (λ prior, bool_decide (rr_route prior = rr_route route)) prior) Duplicate;;
    refuse_if (bool_decide (rr_bypass route = Unmodeled))
      (if bool_decide (rr_mediation route = BrokeredEffects) then Binding else Incomplete);;
    refuse_if (bool_decide (rr_mediation route = BrokeredEffects)
               && negb (bool_decide (rr_bypass route = Blocked))) Binding;;
    validate_routes (prior ++ [route]) routes total
  end.

(** The loop that looks for repeated credential names. *)
Fixpoint validate_credential_names (prior credentials : list CredentialExposure) : res Error unit :=
  match credentials with
  | [] => Ok tt
  | credential :: credentials =>
    refuse_if (existsb (λ prior, bool_decide (ce_credential prior = ce_credential credential)) prior)
      Duplicate;;
    validate_credential_names (prior ++ [credential]) credentials
  end.

Definition validate_record (record : EffectFamilyRecord) : res Error unit :=
  perimeter_scope_validate (ef_scope record);;
  validate_text (ef_family record);;
  refuse_if (bool_decide (ef_routes record = []) || bool_decide (ef_residual_nonclaims record = []))
    Incomplete;;
  refuse_if ((MAX_ROUTES_PER_FAMILY <? len (ef_routes record))
             || (MAX_CREDENTIALS_PER_FAMILY <? len (ef_credentials record))
             || (MAX_RESIDUAL_NONCLAIMS <? len (ef_residual_nonclaims record))) Limit;;
  refuse_if (negb (len (ef_trust_domains record) =? 4)) Incomplete;;
  refuse_if (existsb (λ domain,
               negb (len (filter (λ seen, seen = domain) (ef_trust_domains record)) =? 1))
               [Actor; ObservationAndAnalysis; Enforcement; GovernanceAndInvestigation]) Incomplete;;
  total ← validate_texts (ce_credential <$> ef_credentials record) (len (ef_family record));
  total ← validate_texts (ef_residual_nonclaims record) total;
  validate_routes [] (ef_routes record) total;;
  validate_credential_names [] (ef_credentials record);;
  if existsb (λ route, bool_decide (rr_mediation route = BrokeredEffects)) (ef_routes record) then
    refuse_if (existsb (λ credential, bool_decide (ce_holder credential = ActorDirect))
                 (ef_credentials record)) Binding;;
    refuse_if (negb (existsb (λ credential, bool_decide (ce_holder credential = Broker))
                       (ef_credentials record))) Incomplete
  else Ok tt.

(** The loop of [PerimeterInventory::new]; [prior] is [records\[..index\]]. *)
Fixpoint validate_records (prior records : list EffectFamilyRecord) : res Error unit :=
  match records with
  | [] => Ok tt
  | record :: records =>
    validate_record record;;
    refuse_if (existsb (λ prior, bool_decide (ef_scope prior = ef_scope record)
                                 && bool_decide (ef_family prior = ef_family record)) prior) Duplicate;;
    validate_records (prior ++ [record]) records
  end.

Definition perimeter_inventory_new (records : list EffectFamilyRecord) : res Error PerimeterInventory :=
  refuse_if (bool_decide (records = [])) InvalidInput;;
  refuse_if (MAX_FAMILIES <? len records) Limit;;
  validate_records [] records;;
  Ok (mkPerimeterInventory records).

Definition route_for (self : PerimeterInventory) (scope : PerimeterScope) (family route : bytes)
    : res Error RouteRecord :=
  perimeter_scope_validate scope;;
  validate_text family;;
  validate_text route;;
  record ← ok_or (snd <$> list_find (λ record, ef_scope record = scope ∧ ef_family record = family)
                    (pi_records self)) Missing;
  ok_or (snd <$> list_find (λ candidate, rr_route candidate = route) (ef_routes record)) Missing.

Definition mediation_for (self : PerimeterInventory) (scope : PerimeterScope) (family route : bytes)
    : res Error Mediation :=
  record ← route_for self scope family route; Ok (rr_mediation record).

(** ** What an inventory has to be *)

Definition text_ok (text : bytes) : Prop := text ≠ [] ∧ len text ≤ MAX_TEXT_BYTES.

Record route_ok (route : RouteRecord) : Prop := {
  ro_text : text_ok (rr_route route);
  ro_threat : rr_threat route ≠ None;
  ro_modeled : rr_bypass route ≠ Unmodeled;
  ro_blocked : rr_mediation route = BrokeredEffects → rr_bypass route = Blocked;
}.

(** All the text a record owns. *)
Definition record_texts (record : EffectFamilyRecord) : list bytes :=
  (ce_credential <$> ef_credentials record) ++ ef_residual_nonclaims record ++
  (rr_route <$> ef_routes record).

Record record_ok (record : EffectFamilyRecord) : Prop := {
  rc_scope : ps_tenant (ef_scope record) ≠ 0 ∧ ps_principal (ef_scope record) ≠ 0 ∧
    ps_purpose (ef_scope record) ≠ 0;
  rc_family : text_ok (ef_family record);
  rc_some : ef_routes record ≠ [] ∧ ef_residual_nonclaims record ≠ [];
  rc_counts : len (ef_routes record) ≤ MAX_ROUTES_PER_FAMILY ∧
    len (ef_credentials record) ≤ MAX_CREDENTIALS_PER_FAMILY ∧
    len (ef_residual_nonclaims record) ≤ MAX_RESIDUAL_NONCLAIMS;
  rc_domains : ef_trust_domains record ≡ₚ
    [Actor; ObservationAndAnalysis; Enforcement; GovernanceAndInvestigation];
  rc_texts : Forall text_ok (record_texts record);
  rc_total : len (ef_family record) + sumZ (len <$> record_texts record) ≤ MAX_FAMILY_TEXT_BYTES;
  rc_routes : Forall route_ok (ef_routes record);
  rc_route_names : NoDup (rr_route <$> ef_routes record);
  rc_credential_names : NoDup (ce_credential <$> ef_credentials record);
  rc_brokered : ∀ route, route ∈ ef_routes record → rr_mediation route = BrokeredEffects →
    (∀ c, c ∈ ef_credentials record → ce_holder c = Broker) ∧ ef_credentials record ≠ [];
}.

Definition inventory_ok (records : list EffectFamilyRecord) : Prop :=
  records ≠ [] ∧ len records ≤ MAX_FAMILIES ∧ Forall record_ok records ∧
  NoDup ((λ record, (ef_scope record, ef_family record)) <$> records).

(** ** Lemmas *)

Lemma repeated_name {A} (f : A → bytes) prior x :
  existsb (λ p, bool_decide (f p = f x)) prior = false ↔ f x ∉ f <$> prior.
Proof.
  rewrite <-not_true_iff_false, existsb_exists, list_elem_of_fmap. apply not_iff_compat. split.
  - intros (p & Hin%list_elem_of_In & E%bool_decide_eq_true). eauto.
  - intros (p & E & Hin). exists p. split; [by apply list_elem_of_In|]. by apply bool_decide_eq_true.
Qed.

(** One step of a loop that compares an element with all prior ones. *)
Lemma no_repeat_step {A B} (f : A → B) prior x l :
  NoDup (f <$> prior) →
  (¬ (f x ∈ f <$> prior) ∧ NoDup (f <$> (prior ++ [x]) ++ l)) ↔ NoDup (f <$> prior ++ x :: l).
Proof.
  intros Hp. rewrite <-(assoc_L (++)). simpl. split; [by intros [_ ?]|]. intros Hnd. split; [|done].
  rewrite fmap_app, fmap_cons in Hnd. apply NoDup_app in Hnd as (_ & Hno & _). intros Hin. apply (Hno _ Hin). left.
Qed.

Lemma no_repeat_snoc {A B} (f : A → B) prior x :
  NoDup (f <$> prior) → f x ∉ f <$> prior → NoDup (f <$> prior ++ [x]).
Proof.
  intros Hp Hx. rewrite fmap_app. apply NoDup_app. split_and!; [done| |apply NoDup_singleton].
  intros y Hy ->%list_elem_of_singleton. done.
Qed.

Lemma perimeter_scope_validate_ok scope :
  perimeter_scope_validate scope = Ok tt ↔ ps_tenant scope ≠ 0 ∧ ps_principal scope ≠ 0 ∧ ps_purpose scope ≠ 0.
Proof.
  unfold perimeter_scope_validate. cbn [existsb]. destruct (Z.eqb_spec 0 (ps_tenant scope)),
    (Z.eqb_spec 0 (ps_principal scope)), (Z.eqb_spec 0 (ps_purpose scope)); simpl; naive_solver lia.
Qed.

Lemma validate_text_ok text : validate_text text = Ok tt ↔ text_ok text.
Proof.
  unfold validate_text, text_ok. rewrite refuse_ok, bool_decide_eq_false. f_equiv.
  unfold refuse_if. destruct (Z.ltb_spec MAX_TEXT_BYTES (len text)); naive_solver lia.
Qed.

Lemma add_text_ok total added total' :
  total ≤ MAX_FAMILY_TEXT_BYTES → added ≤ MAX_TEXT_BYTES →
  add_text total added = Ok total' ↔ total' = total + added ∧ total' ≤ MAX_FAMILY_TEXT_BYTES.
Proof.
  unfold add_text, MAX_FAMILY_TEXT_BYTES, MAX_TEXT_BYTES. intros Ht Ha.
  rewrite u64_checked_add_fits by lia. simpl.
  destruct (Z.ltb_spec 4096 (total + added)); naive_solver lia.
Qed.

Lemma validate_texts_ok texts total total' :
  total ≤ MAX_FAMILY_TEXT_BYTES →
  validate_texts texts total = Ok total' ↔
  Forall text_ok texts ∧ total' = total + sumZ (len <$> texts) ∧ total' ≤ MAX_FAMILY_TEXT_BYTES.
Proof.
  revert total. induction texts as [|text texts IH]; intros total Ht; csimpl.
  { split; [intros [= <-]; split_and!; [done|lia|done]|]. intros (_ & -> & _). f_equal. lia. }
  rewrite then_unit_ok, validate_text_ok, Forall_cons, then_ok.
  assert (0 ≤ sumZ (len <$> texts)) as Hs.
  { apply sumZ_nonneg, Forall_fmap, Forall_forall. intros t _. apply len_nonneg. }
  split.
  - intros (Htext & mid & (-> & Hm)%add_text_ok & Hrest); [|done|by destruct Htext].
    apply IH in Hrest as (? & -> & ?); [|done]. split_and!; [done|done|lia|done].
  - intros ([Htext Hall] & -> & Hle). split; [done|]. exists (total + len text).
    rewrite add_text_ok by (done || by destruct Htext). rewrite IH by lia. split_and!; [done|lia|done|lia|lia].
Qed.

Lemma validate_routes_ok prior routes total total' :
  total ≤ MAX_FAMILY_TEXT_BYTES → NoDup (rr_route <$> prior) →
  validate_routes prior routes total = Ok total' ↔
  Forall route_ok routes ∧ NoDup (rr_route <$> prior ++ routes) ∧
  total' = total + sumZ ((λ r, len (rr_route r)) <$> routes) ∧ total' ≤ MAX_FAMILY_TEXT_BYTES.
Proof.
  revert prior total. induction routes as [|route routes IH]; intros prior total Ht Hnd; csimpl.
  { rewrite app_nil_r. split; [intros [= <-]; split_and!; [done|done|lia|done]|].
    intros (_ & _ & -> & _). f_equal. lia. }
  rewrite then_unit_ok, validate_text_ok, Forall_cons, <-no_repeat_step, then_ok by done.
  assert (0 ≤ sumZ ((λ r, len (rr_route r)) <$> routes)) as Hs.
  { apply sumZ_nonneg, Forall_fmap, Forall_forall. intros r _. apply len_nonneg. }
  split.
  - intros (Htext & mid & (-> & Hm)%add_text_ok & Hrest); [|done|by destruct Htext].
    rewrite !refuse_ok in Hrest. destruct Hrest as (Hthreat & Hfresh & Hmod & Hbl & Hrest).
    apply repeated_name in Hfresh. apply bool_decide_eq_false in Hmod.
    apply IH in Hrest as (? & ? & -> & ?); [|done|by apply no_repeat_snoc].
    split_and!; [|done|done|done|lia|done]. split; [done|by destruct (rr_threat route)|done|].
    intros Hb. rewrite (bool_decide_eq_true_2 _ Hb) in Hbl. simpl in Hbl. by apply negb_false_iff, bool_decide_eq_true in Hbl.
  - intros ([[Htext Hthreat Hmod Hbl] Hall] & [Hfresh Hnd'] & -> & Hle). split; [done|].
    exists (total + len (rr_route route)). rewrite add_text_ok by (done || by destruct Htext).
    rewrite !refuse_ok, repeated_name, bool_decide_eq_false, IH by (lia || by apply no_repeat_snoc).
    split_and!; [done|lia|by destruct (rr_threat route)|done|done| |done|done|lia|done].
    case_bool_decide; [|done]. by rewrite bool_decide_eq_true_2 by auto.
Qed.

Lemma validate_credential_names_ok prior credentials :
  NoDup (ce_credential <$> prior) →
  validate_credential_names prior credentials = Ok tt ↔ NoDup (ce_credential <$> prior ++ credentials).
Proof.
  revert prior. induction credentials as [|c credentials IH]; intros prior Hnd; simpl.
  { rewrite app_nil_r. naive_solver. }
  rewrite refuse_ok, repeated_name, <-no_repeat_step by done.
  split; intros [? H]; (split; [done|]); apply (IH (prior ++ [c])); (done || by apply no_repeat_snoc).
Qed.

Lemma domains_ok domains :
  negb (len domains =? 4) = false ∧
  existsb (λ domain, negb (len (filter (λ seen, seen = domain) domains) =? 1))
    [Actor; ObservationAndAnalysis; Enforcement; GovernanceAndInvestigation] = false ↔
  domains ≡ₚ [Actor; ObservationAndAnalysis; Enforcement; GovernanceAndInvestigation].
Proof.
  split.
  - rewrite negb_false_iff, Z.eqb_eq. intros [Hlen Hno]. symmetry.
    apply submseteq_length_Permutation; [|unfold len in Hlen; simpl; lia].
    apply NoDup_submseteq; [apply (bool_decide_unpack _); by vm_compute|].
    intros d Hd. rewrite <-not_true_iff_false, existsb_exists in Hno.
    destruct (filter (λ seen, seen = d) domains) as [|d' l] eqn:Ef.
    + destruct Hno. exists d. rewrite Ef. split; [by apply list_elem_of_In|done].
    + assert (d' ∈ filter (λ seen, seen = d) domains) as [<- ?]%list_elem_of_filter; [|done].
      rewrite Ef. left.
  - intros Hp. assert (len domains = 4) as -> by (unfold len; by rewrite Hp).
    split; [done|]. apply not_true_iff_false. rewrite existsb_exists. intros (d & _ & Hd).
    assert (len (filter (λ seen, seen = d) domains) = 1) as E; [|by rewrite E in Hd].
    unfold len. rewrite Hp. by destruct d.
Qed.

Lemma route_lengths routes :
  sumZ (len <$> (rr_route <$> routes)) = sumZ ((λ r, len (rr_route r)) <$> routes).
Proof. by rewrite <-list_fmap_compose. Qed.

Lemma brokered_ok record :
  (if existsb (λ route, bool_decide (rr_mediation route = BrokeredEffects)) (ef_routes record) then
    refuse_if (M:=res Error) (existsb (λ credential, bool_decide (ce_holder credential = ActorDirect))
                 (ef_credentials record)) Binding;;
    refuse_if (negb (existsb (λ credential, bool_decide (ce_holder credential = Broker))
                       (ef_credentials record))) Incomplete
  else Ok tt) = Ok tt ↔
  ∀ route, route ∈ ef_routes record → rr_mediation route = BrokeredEffects →
    (∀ c, c ∈ ef_credentials record → ce_holder c = Broker) ∧ ef_credentials record ≠ [].
Proof.
  destruct (existsb _ (ef_routes record)) eqn:Er.
  - apply existsb_exists in Er as (r & Hr%list_elem_of_In & Hb%bool_decide_eq_true).
    assert (existsb (λ c, bool_decide (ce_holder c = ActorDirect)) (ef_credentials record) = false ↔
      ∀ c, c ∈ ef_credentials record → ce_holder c = Broker) as Hd.
    { rewrite <-not_true_iff_false, existsb_exists. split.
      - intros Hno c Hc. destruct (ce_holder c) eqn:E; [|done]. destruct Hno. exists c.
        rewrite E. split; [by apply list_elem_of_In|done].
      - intros Hall (c & Hc%list_elem_of_In & E%bool_decide_eq_true). rewrite Hall in E; done. }
    rewrite refuse_ok, Hd. split.
    + intros [Hall Hsome] _ _ _. split; [done|]. intros E. by rewrite E in Hsome.
    + intros H. destruct (H r Hr Hb) as [Hall Hne]. split; [done|].
      destruct (ef_credentials record) as [|c l]; [done|]. simpl. by rewrite (Hall c) by left.
  - split; [|done]. intros _ route Hroute Hb. rewrite <-not_true_iff_false, existsb_exists in Er.
    destruct Er. exists route. rewrite Hb. split; [by apply list_elem_of_In|done].
Qed.

Lemma validate_record_ok record : validate_record record = Ok tt ↔ record_ok record.
Proof.
  unfold validate_record. rewrite then_unit_ok, perimeter_scope_validate_ok, then_unit_ok, validate_text_ok.
  rewrite !refuse_ok, !orb_false_iff, !bool_decide_eq_false, !Z.ltb_ge.
  split.
  - intros (Hs & Hf & Hsome & Hcounts & Hd1 & Hd2 & Hrest).
    apply then_ok in Hrest as (t1 & Ht1 & (t2 & Ht2 & (t3 & Ht3 & (Hn & Hb)%then_unit_ok)%then_ok)%then_ok).
    assert (len (ef_family record) ≤ MAX_FAMILY_TEXT_BYTES) as Hle.
    { destruct Hf. unfold MAX_TEXT_BYTES, MAX_FAMILY_TEXT_BYTES in *. lia. }
    apply validate_texts_ok in Ht1 as (? & -> & ?); [|done].
    apply validate_texts_ok in Ht2 as (? & -> & ?); [|done].
    apply validate_routes_ok in Ht3 as (? & ? & -> & ?); [|done|constructor].
    apply validate_credential_names_ok in Hn; [|constructor].
    split; try done.
    + destruct Hcounts as [[? ?] ?]. done.
    + by apply domains_ok.
    + unfold record_texts. rewrite !Forall_app. split_and!; [done..|].
      apply Forall_fmap. eapply Forall_impl; [done|]. by intros ? [].
    + unfold record_texts. rewrite !fmap_app, !sumZ_app, route_lengths. lia.
    + by apply brokered_ok.
  - intros [Hs Hf Hsome Hcounts Hd Htexts Htotal Hroutes Hrn Hcn Hb].
    unfold record_texts in *. rewrite !fmap_app, !sumZ_app in Htotal.
    apply Forall_app in Htexts as [Hct [Hnt Hrt]%Forall_app].
    assert (∀ l : list bytes, 0 ≤ sumZ (len <$> l)) as Hpos.
    { intros l. apply sumZ_nonneg, Forall_fmap, Forall_forall. intros x _. apply len_nonneg. }
    pose proof (Hpos (ce_credential <$> ef_credentials record)).
    pose proof (Hpos (ef_residual_nonclaims record)). pose proof (Hpos (rr_route <$> ef_routes record)) as Hr0.
    rewrite route_lengths in Htotal, Hr0.
    apply domains_ok in Hd as [Hd1 Hd2]. split_and!; [tauto..|].
    apply then_ok. eexists. split; [apply validate_texts_ok; [lia|]; split_and!; [done|reflexivity|lia]|].
    apply then_ok. eexists. split; [apply validate_texts_ok; [lia|]; split_and!; [done|reflexivity|lia]|].
    apply then_ok. eexists. split.
    { apply validate_routes_ok; [lia|constructor|]. split_and!; [done|done|reflexivity|lia]. }
    apply then_unit_ok. split; [by apply validate_credential_names_ok; [constructor|]|].
    by apply brokered_ok.
Qed.

Lemma validate_records_ok prior records :
  let key := λ record, (ef_scope record, ef_family record) in
  NoDup (key <$> prior) →
  validate_records prior records = Ok tt ↔ Forall record_ok records ∧ NoDup (key <$> prior ++ records).
Proof.
  intros key. revert prior. induction records as [|r records IH]; intros prior Hnd; simpl.
  { rewrite app_nil_r. naive_solver. }
  rewrite then_unit_ok, validate_record_ok, refuse_ok, Forall_cons, <-no_repeat_step by done.
  assert (existsb (λ p, bool_decide (ef_scope p = ef_scope r) && bool_decide (ef_family p = ef_family r)) prior
    = false ↔ ¬ (key r ∈ key <$> prior)) as ->.
  { rewrite <-not_true_iff_false, existsb_exists, list_elem_of_fmap. apply not_iff_compat. split.
    - intros (p & Hin%list_elem_of_In & [E1%bool_decide_eq_true E2%bool_decide_eq_true]%andb_true_iff).
      exists p. split; [unfold key; congruence|done].
    - intros (p & [= E1 E2] & Hin). exists p. split; [by apply list_elem_of_In|].
      rewrite E1, E2. by rewrite !bool_decide_eq_true_2. }
  split.
  - intros (? & Hno & [? ?]%IH); [done|by apply no_repeat_snoc].
  - intros ([? ?] & Hno & ?). split_and!; [done..|]. apply IH; [by apply no_repeat_snoc|done].
Qed.

Lemma inventory_new_ok records inventory :
  perimeter_inventory_new records = Ok inventory ↔
  inventory = mkPerimeterInventory records ∧ inventory_ok records.
Proof.
  unfold perimeter_inventory_new, inventory_ok.
  rewrite !refuse_ok, bool_decide_eq_false, Z.ltb_ge, then_unit_ok, validate_records_ok by constructor.
  simpl. naive_solver.
Qed.

Lemma find_unique {A B} (P : A → Prop) `{!∀ x, Decision (P x)} (f : A → B) k l x :
  (∀ y, P y ↔ f y = k) → NoDup (f <$> l) → snd <$> list_find P l = Some x ↔ x ∈ l ∧ P x.
Proof.
  intros HP Hnd. split.
  - intros ([i y] & (Hi & Hy & _)%list_find_Some & ->)%fmap_Some. split; [by apply list_elem_of_lookup_2 with i|done].
  - intros [[i Hi]%list_elem_of_lookup Hx]. apply fmap_Some. exists (i, x). split; [|done].
    apply list_find_Some. split_and!; [done|done|]. intros j y Hj Hlt Hy.
    assert (j = i); [|lia]. apply (NoDup_lookup _ _ _ k Hnd); rewrite list_lookup_fmap.
    + rewrite Hj. simpl. f_equal. by apply HP.
    + rewrite Hi. simpl. f_equal. by apply HP.
Qed.

Lemma record_text_ok record r :
  record_ok record → r ∈ ef_routes record → text_ok (rr_route r).
Proof. intros Hrec Hr. by destruct (proj1 (Forall_forall _ _) (rc_routes _ Hrec) r Hr). Qed.

Lemma route_for_ok records scope family route r :
  inventory_ok records →
  route_for (mkPerimeterInventory records) scope family route = Ok r ↔
  ∃ record, record ∈ records ∧ ef_scope record = scope ∧ ef_family record = family ∧
    r ∈ ef_routes record ∧ rr_route r = route.
Proof.
  intros (_ & _ & Hall & Hnd). rewrite Forall_forall in Hall. unfold route_for.
  assert (∀ record, snd <$> list_find (λ record, ef_scope record = scope ∧ ef_family record = family)
    records = Some record ↔ record ∈ records ∧ ef_scope record = scope ∧ ef_family record = family) as Hrecord.
  { intros record.
    apply (find_unique (λ record, ef_scope record = scope ∧ ef_family record = family)
      (λ record, (ef_scope record, ef_family record)) (scope, family)); [|done].
    intros y. naive_solver. }
  assert (∀ record, record ∈ records →
    snd <$> list_find (λ candidate, rr_route candidate = route) (ef_routes record) = Some r ↔
    r ∈ ef_routes record ∧ rr_route r = route) as Hroute.
  { intros record Hin. apply (find_unique (λ candidate, rr_route candidate = route) rr_route route); [done|]. apply (rc_route_names _ (Hall _ Hin)). }
  rewrite then_unit_ok, perimeter_scope_validate_ok, then_unit_ok, validate_text_ok, then_unit_ok, validate_text_ok.
  rewrite then_ok. simpl. split.
  - intros (_ & _ & _ & record & Hrec & Hr). exists record.
    apply ok_or_ok, Hrecord in Hrec as (Hin & ? & ?). by apply ok_or_ok, Hroute in Hr as [? ?].
  - intros (record & Hin & Es & Ef & Hr & Er). pose proof (Hall _ Hin) as Hok.
    split_and!; [by rewrite <-Es; apply (rc_scope _ Hok)..|by rewrite <-Ef; apply (rc_family _ Hok)| |].
    + rewrite <-Er. by apply (record_text_ok record).
    + exists record. split; apply ok_or_ok; [by apply Hrecord|by apply Hroute].
Qed.

(** ** Properties *)

(** [PerimeterInventory::new] accepts exactly the bounded, complete and
    unambiguous declarations; in an accepted one [route_for] finds a route
    exactly when a record of that scope and family declares it, and a route
    that [mediation_for] reports as brokered is blocked against bypass and in
    a family with credentials, none of which the actor holds. *)
Theorem inventory_classifies_exactly (records : list EffectFamilyRecord) :
  (∀ inventory, perimeter_inventory_new records = Ok inventory ↔
     inventory = mkPerimeterInventory records ∧ inventory_ok records) ∧
  ∀ inventory, perimeter_inventory_new records = Ok inventory →
    (∀ scope family route r,
       route_for inventory scope family route = Ok r ↔
       ∃ record, record ∈ records ∧ ef_scope record = scope ∧ ef_family record = family ∧
         r ∈ ef_routes record ∧ rr_route r = route) ∧
    (∀ scope family route,
       mediation_for inventory scope family route = Ok BrokeredEffects →
       ∃ record r, record ∈ records ∧ ef_scope record = scope ∧ ef_family record = family ∧
         r ∈ ef_routes record ∧ rr_route r = route ∧ rr_bypass r = Blocked ∧
         ef_credentials record ≠ [] ∧ ∀ c, c ∈ ef_credentials record → ce_holder c = Broker).
Proof.
  split; [intros inventory; apply inventory_new_ok|].
  intros inventory [-> Hok]%inventory_new_ok. split; [intros; by apply route_for_ok|].
  intros scope family route (r & Hr & Hm)%then_ok. injection Hm as Hm.
  apply route_for_ok in Hr as (record & Hin & ? & ? & Hr & ?); [|done]. exists record, r.
  destruct Hok as (_ & _ & Hall & _). rewrite Forall_forall in Hall. specialize (Hall _ Hin).
  destruct (rc_brokered _ Hall r Hr Hm) as [? ?].
  destruct (proj1 (Forall_forall _ _) (rc_routes _ Hall) r Hr) as [_ _ _ Hb]. split_and!; auto.
Qed.

Lemma inventory_classifies_exactly_witness :
  let scope := mkPerimeterScope 1 2 3 in
  let route := mkRouteRecord (ascii_bytes "adapter:disposable") (Some DirectCredentialOrEgress) BrokeredEffects Blocked in
  let records := [mkEffectFamilyRecord scope (ascii_bytes "publication")
    [Actor; ObservationAndAnalysis; Enforcement; GovernanceAndInvestigation]
    [mkCredentialExposure (ascii_bytes "publish-token") Broker] [route] [ascii_bytes "No live perimeter claim"]] in
  ∃ inventory, perimeter_inventory_new records = Ok inventory ∧
    ∃ r, route_for inventory scope (ascii_bytes "publication") (ascii_bytes "adapter:disposable") = Ok r ∧ rr_bypass r = Blocked.
Proof.
  intros scope route records. exists (mkPerimeterInventory records). split; [by vm_compute|].
  destruct (inventory_classifies_exactly records) as [_ H].
  destruct (H (mkPerimeterInventory records) ltac:(by vm_compute)) as [_ Hm].
  destruct (Hm scope (ascii_bytes "publication") (ascii_bytes "adapter:disposable") ltac:(by vm_compute))
    as (record & r & Hin & _ & _ & Hr & _ & Hb & _).
  exists r. split; [|done]. apply list_elem_of_singleton in Hin as ->. apply list_elem_of_singleton in Hr as ->.
  by vm_compute.
Defined.
