(* ===== verification/Forest.v ===== *)
(** * Search forests

    What the two breadth-first searches of the perimeter share: a vector of
    parents over the nodes of a graph, in which a root is its own parent, with
    a queue of the nodes whose edges are still to be followed.  The invariant
    carries the depth of every node, which makes the paths of the finished
    forest shortest ones. *)

From stdpp Require Import base tactics numbers list sets sorting relations.
From S2P Require Import Prelude.

(** ** The parent vector *)

(** [parents\[v\]] is [Some(p)]. *)
Definition parent_of (parents : list (option nat)) (v p : nat) : Prop :=
  parents !! v = Some (Some p).
Definition found (parents : list (option nat)) (v : nat) : Prop :=
  ∃ p, parent_of parents v p.

(** The nodes that are still free. *)
Fixpoint free_nodes (parents : list (option nat)) : nat :=
  match parents with
  | [] => 0
  | None :: parents => S (free_nodes parents)
  | Some _ :: parents => free_nodes parents
  end.

Lemma free_nodes_length parents : free_nodes parents ≤ length parents.
Proof. induction parents as [|[p|] parents IH]; simpl; lia. Qed.

Lemma free_nodes_insert parents v p :
  parents !! v = Some None → free_nodes parents = S (free_nodes (<[v:=Some p]> parents)).
Proof.
  revert v. induction parents as [|o parents IH]; intros [|v]; simpl; [done|done| |].
  - by intros [= ->].
  - intros Hv. rewrite (IH v Hv). by destruct o.
Qed.

Lemma free_nodes_insert_some parents v p q :
  parents !! v = Some (Some q) → free_nodes (<[v := Some p]> parents) = free_nodes parents.
Proof.
  revert v. induction parents as [|o parents IH]; intros [|v]; simpl; [done|done| |].
  - by intros [= ->].
  - intros Hv. rewrite (IH v Hv). by destruct o.
Qed.

Lemma free_nodes_replicate n : free_nodes (replicate n None) = n.
Proof. induction n; simpl; lia. Qed.

(** ** Chains of parents *)

(** The chain from a node back to its root, as a list of nodes. *)
Inductive chain (parents : list (option nat)) : nat → list nat → Prop :=
  | chain_root s : parent_of parents s s → chain parents s [s]
  | chain_step v p l : parent_of parents v p → p ≠ v → chain parents p l → chain parents v (v :: l).

(** The last node of a chain. *)
Lemma chain_last parents v l : chain parents v l → ∃ s, last l = Some s ∧ parent_of parents s s.
Proof.
  induction 1 as [s Hs|v p l Hv Hne Hc (s & Hl & Hs)]; [by exists s|].
  exists s. split; [|done]. destruct l; [done|]. by simpl in *.
Qed.

Lemma chain_head parents v l : chain parents v l → ∃ l', l = v :: l'.
Proof. destruct 1; eauto. Qed.

(** ** The search invariant *)

Section forest.
Context (edge : nat → nat → Prop) (roots : list nat).

Record forest (parents : list (option nat)) (depth : nat → nat) : Prop := {
  fo_root : ∀ s, s ∈ roots → parent_of parents s s ∧ depth s = 0;
  fo_parent : ∀ v p, parent_of parents v p →
    (v ∈ roots ∧ p = v) ∨ (¬ (v ∈ roots) ∧ edge p v ∧ found parents p ∧ depth v = S (depth p));
}.

Record searching (parents : list (option nat)) (depth : nat → nat) (queue : list nat) : Prop := {
  sg_forest : forest parents depth;
  sg_queue : ∀ v, v ∈ queue → found parents v;
  sg_sorted : StronglySorted (λ u v, depth u ≤ depth v) queue;
  sg_window : ∀ u v, u ∈ queue → v ∈ queue → depth v ≤ S (depth u);
  sg_behind : ∀ u v, found parents u → ¬ (u ∈ queue) → v ∈ queue → depth u ≤ depth v;
  sg_closed : ∀ u v, found parents u → ¬ (u ∈ queue) → edge u v →
    found parents v ∧ depth v ≤ S (depth u);
}.

(** What following the edges of a node does to the vectors. *)
Record follows (node : nat) (parents parents' : list (option nat)) (new : list nat) : Prop := {
  fl_new : ∀ v, v ∈ new → edge node v ∧ parents !! v = Some None;
  fl_lookup : ∀ v, parents' !! v = if decide (v ∈ new) then Some (Some node) else parents !! v;
  fl_count : free_nodes parents = free_nodes parents' + length new;
}.

Lemma follows_length node parents parents' new :
  follows node parents parents' new → length parents' = length parents.
Proof.
  intros [Hn Hl _]. apply Nat.le_antisymm; apply Nat.le_ngt; intros Hlt.
  - apply lookup_lt_is_Some in Hlt as [o Ho]. rewrite Hl in Ho. case_decide as Hin.
    + destruct (Hn _ Hin) as [_ E]. apply lookup_lt_Some in E. lia.
    + apply lookup_lt_Some in Ho. lia.
  - apply lookup_lt_is_Some in Hlt as [o Ho]. specialize (Hl (length parents')).
    rewrite lookup_ge_None_2 in Hl by lia. case_decide; congruence.
Qed.

Lemma follows_nil node parents : follows node parents parents [].
Proof.
  split; [by intros ? ?%elem_of_nil| |simpl; lia].
  intros v. rewrite decide_False; [done|]. apply not_elem_of_nil.
Qed.

Lemma follows_cons node parents v parents' new :
  edge node v → parents !! v = Some None →
  follows node (<[v := Some node]> parents) parents' new →
  follows node parents parents' (v :: new).
Proof.
  intros He Hv [Hn Hl Hc]. pose proof (lookup_lt_Some _ _ _ Hv) as Hlt.
  assert (∀ u, u ∈ new → u ≠ v) as Hne.
  { intros u Hu ->. destruct (Hn _ Hu) as [_ E]. by rewrite list_lookup_insert_eq in E. }
  split.
  - intros u [->|Hu]%elem_of_cons; [done|]. destruct (Hn _ Hu) as [? E]. split; [done|].
    rewrite list_lookup_insert_ne in E; [done|]. intros ->. by eapply Hne.
  - intros u. rewrite Hl. destruct (decide (u = v)) as [->|Huv].
    + rewrite (decide_False (P:=v ∈ new)) by (intros ?; by eapply Hne).
      rewrite decide_True by left. by apply list_lookup_insert_eq.
    + rewrite list_lookup_insert_ne by done.
      destruct (decide (u ∈ new)); [by rewrite decide_True by (by right)|].
      rewrite decide_False; [done|]. by rewrite elem_of_cons; intros [?|?].
  - rewrite (free_nodes_insert _ _ node Hv), Hc. simpl. lia.
Qed.

Lemma follows_found node parents parents' new v :
  follows node parents parents' new → found parents' v ↔ found parents v ∨ v ∈ new.
Proof.
  intros [Hn Hl _]. unfold found, parent_of. rewrite Hl. case_decide as Hin.
  - split; [by right|eauto].
  - naive_solver.
Qed.

Lemma follows_parent node parents parents' new v p :
  follows node parents parents' new →
  parent_of parents' v p ↔ parent_of parents v p ∨ (v ∈ new ∧ p = node).
Proof.
  intros [Hn Hl _]. unfold parent_of. rewrite Hl. case_decide as Hin.
  - destruct (Hn v Hin) as [_ E]. rewrite E. naive_solver.
  - naive_solver.
Qed.

(** The depths after following a node's edges. *)
Definition deepen (depth : nat → nat) (node : nat) (new : list nat) (v : nat) : nat :=
  if decide (v ∈ new) then S (depth node) else depth v.

Lemma deepen_old depth node new parents parents' v :
  follows node parents parents' new → found parents v → deepen depth node new v = depth v.
Proof.
  intros [Hn _ _] [p Hp]. unfold deepen. rewrite decide_False; [done|].
  intros Hin. destruct (Hn v Hin) as [_ E]. unfold parent_of in Hp. congruence.
Qed.

Lemma forest_follows node parents parents' new depth :
  forest parents depth → found parents node → follows node parents parents' new →
  forest parents' (deepen depth node new).
Proof.
  intros [Hr Hp] Hnode Hf.
  pose proof (λ v, deepen_old depth node new _ _ v Hf) as Hold. split.
  - intros s Hs. destruct (Hr s Hs) as [Hps Hd]. split; [apply (follows_parent _ _ _ _ _ _ Hf); by left|].
    rewrite Hold by (by exists s). done.
  - intros v p [Hvp|[Hv ->]]%(follows_parent _ _ _ _ _ _ Hf).
    + destruct (Hp v p Hvp) as [?|(? & ? & ? & Hd)]; [by left|right]. split_and!; [done..| |].
      * apply (follows_found _ _ _ _ _ Hf). by left.
      * rewrite !Hold; [done|done|by exists p].
    + right. split_and!.
      * intros Hs. destruct (Hr v Hs) as [E _]. destruct (fl_new _ _ _ _ Hf v Hv). unfold parent_of in E. congruence.
      * by destruct (fl_new _ _ _ _ Hf v Hv).
      * apply (follows_found _ _ _ _ _ Hf). by left.
      * rewrite (Hold node) by done. unfold deepen. by rewrite decide_True.
Qed.

(** One round of the search: a node leaves the queue, what it leads to enters. *)
Lemma searching_step parents depth node queue parents' new :
  searching parents depth (node :: queue) → follows node parents parents' new →
  (∀ v, edge node v → found parents' v) →
  searching parents' (deepen depth node new) (queue ++ new).
Proof.
  intros [Hfo Hq Hs Hw Hb Hc] Hf Hall.
  assert (found parents node) as Hnode by (apply Hq; left).
  pose proof (λ v, deepen_old depth node new _ _ v Hf) as Hold.
  assert (∀ v, v ∈ new → deepen depth node new v = S (depth node)) as Hnew.
  { intros v Hv. unfold deepen. by rewrite decide_True. }
  apply StronglySorted_inv in Hs as [Hs Hhead]. rewrite Forall_forall in Hhead.
  assert (∀ v, v ∈ queue → deepen depth node new v = depth v) as Hqueue.
  { intros v Hv. apply Hold, Hq. by right. }
  assert (∀ v, v ∈ queue → depth node ≤ depth v ∧ depth v ≤ S (depth node)) as Hnear.
  { intros v Hv. split; [by apply Hhead|]. apply Hw; [left|by right]. }
  assert (∀ u, found parents u → u ∉ queue → depth u ≤ depth node) as Hpast.
  { intros u Hu Hnq. destruct (decide (u = node)) as [->|]; [done|].
    apply Hb; [done|by rewrite elem_of_cons; intros [?|?]|left]. }
  split.
  - by apply forest_follows with parents.
  - intros v Hv. apply (follows_found _ _ _ _ _ Hf). apply elem_of_app in Hv as [Hv|Hv]; [|by right].
    left. apply Hq. by right.
  - apply StronglySorted_app. split_and!.
    + intros u v Hu Hv. rewrite (Hqueue u), Hnew by done. by apply Hnear.
    + clear -Hs Hqueue. induction Hs as [|v l Hs IH Hv]; constructor.
      * apply IH. intros u Hu. apply Hqueue. by right.
      * rewrite Forall_forall in *. intros u Hu. rewrite !Hqueue by (try left; by right). by apply Hv.
    + assert (∀ l, (∀ v, v ∈ l → v ∈ new) →
        StronglySorted (λ u v, deepen depth node new u ≤ deepen depth node new v) l) as Hl; [|by apply Hl].
      induction l as [|v l IH]; intros Hl; constructor; [set_solver|].
      apply Forall_forall. intros u Hu. rewrite !Hnew; set_solver.
  - intros u v [Hu|Hu]%elem_of_app [Hv|Hv]%elem_of_app.
    + rewrite !Hqueue by done. apply Hw; by right.
    + rewrite (Hqueue u), Hnew by done. destruct (Hnear u Hu). lia.
    + rewrite (Hqueue v), Hnew by done. destruct (Hnear v Hv). lia.
    + rewrite !Hnew by done. lia.
  - intros u v Hu Huq Hv. rewrite elem_of_app in Huq.
    apply (follows_found _ _ _ _ _ Hf) in Hu as [Hu|Hu]; [|naive_solver].
    rewrite (Hold u) by done. specialize (Hpast u Hu ltac:(naive_solver)).
    apply elem_of_app in Hv as [Hv|Hv].
    + rewrite Hqueue by done. destruct (Hnear v Hv). lia.
    + rewrite Hnew by done. lia.
  - intros u v Hu Huq He. rewrite elem_of_app in Huq.
    apply (follows_found _ _ _ _ _ Hf) in Hu as [Hu|Hu]; [|naive_solver].
    destruct (decide (u = node)) as [->|Hne].
    + pose proof (Hall v He) as Hv. split; [done|]. rewrite (Hold node) by done.
      apply (follows_found _ _ _ _ _ Hf) in Hv as [Hv|Hv]; [|by rewrite Hnew].
      rewrite Hold by done. destruct (decide (v ∈ queue)) as [Hin|Hnin]; [apply (Hnear v Hin)|].
      specialize (Hpast v Hv Hnin). lia.
    + destruct (Hc u v Hu) as [Hv Hd]; [by rewrite elem_of_cons; naive_solver|done|].
      split; [apply (follows_found _ _ _ _ _ Hf); by left|]. by rewrite !Hold.
Qed.

(** ** The finished forest *)

Lemma forest_chain parents depth v :
  forest parents depth → found parents v →
  ∃ l, chain parents v l ∧ length l = S (depth v) ∧ Forall (found parents) l ∧
    StronglySorted (λ u w, depth w < depth u) l.
Proof.
  intros [Hr Hp]. remember (depth v) as d eqn:Hd. revert v Hd.
  induction d as [|d IH]; intros v Hd [p Hv]; destruct (Hp v p Hv) as [[Hin ->]|(Hin & He & Hrp & Hdp)].
  - exists [v]. split_and!; [by constructor|done| |]; repeat constructor. by exists v.
  - lia.
  - destruct (Hr v Hin) as [_ E]. lia.
  - destruct (IH p) as (l & Hc & Hlen & Hall & Hs); [lia|done|]. exists (v :: l). split_and!.
    + apply chain_step with p; [done|intros ->; lia|done].
    + simpl. lia.
    + constructor; [by exists p|done].
    + constructor; [done|]. destruct (chain_head _ _ _ Hc) as [l' ->].
      apply StronglySorted_inv in Hs as [_ Hs]. rewrite Forall_forall in *.
      intros u [->|Hu]%elem_of_cons; [lia|]. specialize (Hs u Hu). lia.
Qed.

(** A chain never visits a node twice, so it is no longer than the vector. *)
Lemma descending_NoDup (depth : nat → nat) l : StronglySorted (λ u w, depth w < depth u) l → NoDup l.
Proof.
  induction 1 as [|u l Hs IH Hu]; constructor; [|done].
  rewrite Forall_forall in Hu. intros Hin. specialize (Hu u Hin). lia.
Qed.

Lemma forest_chain_bound parents depth v :
  forest parents depth → found parents v → depth v < length parents.
Proof.
  intros Hf Hv. destruct (forest_chain _ _ _ Hf Hv) as (l & _ & Hlen & Hall & Hs).
  apply descending_NoDup in Hs as Hnd.
  assert (l ⊆ seq 0 (length parents)) as Hsub.
  { rewrite Forall_forall in Hall. intros u Hu. destruct (Hall u Hu) as [p Hp].
    apply elem_of_seq. apply lookup_lt_Some in Hp. lia. }
  pose proof (submseteq_length _ _ (NoDup_submseteq _ _ Hnd Hsub)) as H.
  rewrite length_seq in H. lia.
Qed.

(** A node of the forest is reached from a root in as many steps as it is deep. *)
Lemma forest_steps parents depth v :
  forest parents depth → found parents v → ∃ s, s ∈ roots ∧ nsteps edge (depth v) s v.
Proof.
  intros [Hr Hp]. remember (depth v) as d eqn:Hd. revert v Hd.
  induction d as [|d IH]; intros v Hd [p Hv]; destruct (Hp v p Hv) as [[Hin ->]|(Hin & He & Hrp & Hdp)].
  - exists v. split; [done|constructor].
  - lia.
  - destruct (Hr v Hin) as [_ E]. lia.
  - destruct (IH p) as (s & Hs & Hn); [lia|done|]. exists s. split; [done|].
    by apply nsteps_r with p.
Qed.

(** A finished search is complete, and no walk is shorter than the depth. *)
Lemma searching_done parents depth n s v :
  searching parents depth [] → s ∈ roots → nsteps edge n s v → found parents v ∧ depth v ≤ n.
Proof.
  intros [[Hr _] _ _ _ _ Hc] Hs. revert v. induction n as [|n IH]; intros v.
  { inversion 1; subst. destruct (Hr v Hs) as [E Hd]. split; [by exists v|lia]. }
  intros (u & Hu & He)%nsteps_inv_r. destruct (IH u Hu) as [Hru Hd].
  destruct (Hc u v) as [Hrv Hdv]; [done|apply not_elem_of_nil|done|]. split; [done|lia].
Qed.

Lemma searching_found parents depth v :
  searching parents depth [] → found parents v ↔ ∃ s, s ∈ roots ∧ rtc edge s v.
Proof.
  intros Hs. split.
  - intros (s & Hin & Hn)%(forest_steps _ _ _ (sg_forest _ _ _ Hs)). exists s. split; [done|].
    apply rtc_nsteps. eauto.
  - intros (s & Hin & (n & Hn)%rtc_nsteps). by apply (searching_done _ _ _ _ _ Hs Hin Hn).
Qed.

(** The start of a search. *)
Lemma searching_start parents :
  (∀ v p, parent_of parents v p ↔ v ∈ roots ∧ p = v) → searching parents (λ _, 0) roots.
Proof.
  intros Hp. assert (∀ v, found parents v ↔ v ∈ roots) as Hr.
  { intros v. split; [intros [p [? _]%Hp]; done|]. intros Hv. exists v. by apply Hp. }
  split.
  - split; [|intros v p Hv; left; by apply Hp]. intros s Hs. split; [by apply Hp|done].
  - intros v Hv. by apply Hr.
  - clear. induction roots; constructor; [done|]. by apply Forall_forall.
  - lia.
  - lia.
  - by intros u v ?%Hr ?.
Qed.
End forest.
