(* ===== verification/Coverage.v ===== *)
(** * Perimeter coverage

    [crates/fa-reference/src/perimeter/coverage.rs]: audits and certificates
    that declared barriers lie on every path from the sources to the sinks of a
    declared topology.  Nodes are indices below the 128 of [Graph::new], so
    their arithmetic is that of the natural numbers. *)

From stdpp Require Import base tactics numbers list gmap sets sorting relations.
From S2P Require Import Prelude Bytes Judgment Graph Perimeter Forest.

(** ** Model *)

Record CoverageIdentity := mkCoverageIdentity {
  ci_scope : PerimeterScope;
  ci_projection : Z;
  ci_semantic_epoch : Z;
  ci_topology_generation : Z;
}.

Record CoverageDeclaration := mkCoverageDeclaration {
  cd_identity : CoverageIdentity;
  cd_sources : gset nat;
  cd_sinks : gset nat;
  cd_candidates : gset nat;
  cd_complete : bool;
}.

Record CoverageProblem := mkCoverageProblem {
  cp_graph : Graph;
  cp_declaration : CoverageDeclaration;
}.

Inductive SinkCoverage :=
  | AlreadyUnreachable
  | Mediated (baseline_path : list nat)
  | Bypass (path : list nat).

Record CoverageAudit := mkCoverageAudit {
  ca_identity : CoverageIdentity;
  ca_barriers : gset nat;
  ca_sinks : gmap nat SinkCoverage;
}.

Record CoverageCertificate := mkCoverageCertificate {
  cc_problem : CoverageProblem;
  cc_audit : CoverageAudit;
}.

#[global] Instance CoverageIdentity_eq_dec : EqDecision CoverageIdentity.
Proof. solve_decision. Defined.
#[global] Instance CoverageDeclaration_eq_dec : EqDecision CoverageDeclaration.
Proof. solve_decision. Defined.
#[global] Instance Graph_eq_dec : EqDecision Graph.
Proof. solve_decision. Defined.
#[global] Instance CoverageProblem_eq_dec : EqDecision CoverageProblem.
Proof. solve_decision. Defined.
#[global] Instance SinkCoverage_eq_dec : EqDecision SinkCoverage.
Proof. solve_decision. Defined.
#[global] Instance CoverageAudit_eq_dec : EqDecision CoverageAudit.
Proof. solve_decision. Defined.
#[global] Instance CoverageCertificate_eq_dec : EqDecision CoverageCertificate.
Proof. solve_decision. Defined.

(** The iteration order of a [BTreeSet<usize>]. *)
Definition node_values (s : gset nat) : list nat := merge_sort le (elements s).

(** [!matches!(status, AlreadyUnreachable)] and [matches!(status, Bypass { .. })] *)
Definition is_active (status : SinkCoverage) : bool :=
  match status with AlreadyUnreachable => false | _ => true end.
Definition is_bypass (status : SinkCoverage) : bool :=
  match status with Bypass _ => true | _ => false end.

Definition active_sinks (self : CoverageAudit) : nat :=
  size (filter (λ p, is_active p.2 = true) (ca_sinks self)).

Definition has_bypass (self : CoverageAudit) : bool :=
  existsb is_bypass (map_to_list (ca_sinks self)).*2.

Definition covers_active_sinks (self : CoverageAudit) : bool :=
  negb (active_sinks self =? 0) && negb (has_bypass self).

Definition coverage_problem_new (graph : Graph) (declaration : CoverageDeclaration)
    : res Error CoverageProblem :=
  let identity := cd_identity declaration in
  let nodes := length (g_edges graph) in
  perimeter_scope_validate (ci_scope identity);;
  refuse_if (existsb (Z.eqb 0) [ci_projection identity; ci_semantic_epoch identity;
                                ci_topology_generation identity]) InvalidInput;;
  refuse_if (negb (cd_complete declaration)) Incomplete;;
  refuse_if ((nodes <? size (cd_sources declaration)) || (nodes <? size (cd_sinks declaration))
             || (nodes <? size (cd_candidates declaration))) Limit;;
  refuse_if (bool_decide (cd_sources declaration = ∅) || bool_decide (cd_sinks declaration = ∅)
             || existsb (λ node, nodes <=? node)
                  (elements (cd_sources declaration) ++ elements (cd_sinks declaration)
                   ++ elements (cd_candidates declaration))) InvalidInput;;
  refuse_if (negb (bool_decide (cd_candidates declaration ∩ cd_sources declaration = ∅))
             || negb (bool_decide (cd_candidates declaration ∩ cd_sinks declaration = ∅))) Binding;;
  Ok (mkCoverageProblem graph declaration).

(** The loop that makes every source its own parent and enqueues it. *)
Fixpoint seed_sources (sources : list nat) (parents : list (option nat)) (queue : list nat)
    : res Error (list (option nat) * list nat) :=
  match sources with
  | [] => Ok (parents, queue)
  | source :: sources =>
    _ ← expect (parents !! source);
    seed_sources sources (<[source:=Some source]> parents) (queue ++ [source])
  end.

(** The loop over the edges of a node. *)
Fixpoint visit_edges (barriers : gset nat) (node : nat) (row : list nat)
    (parents : list (option nat)) (queue : list nat) : res Error (list (option nat) * list nat) :=
  match row with
  | [] => Ok (parents, queue)
  | next :: row =>
    parent ← expect (parents !! next);
    if bool_decide (parent = None) && negb (bool_decide (next ∈ barriers)) then
      visit_edges barriers node row (<[next:=Some node]> parents) (queue ++ [next])
    else visit_edges barriers node row parents queue
  end.

(** The search loop.  A node enters the queue at most once, so as many rounds
    as there are nodes are enough. *)
Fixpoint search_predecessors (fuel : nat) (edges : list (list nat)) (barriers : gset nat)
    (parents : list (option nat)) (queue : list nat) : res Error (list (option nat)) :=
  match queue with
  | [] => Ok parents
  | node :: queue =>
    match fuel with
    | O => Panic
    | S fuel =>
      row ← expect (edges !! node);
      '(parents, queue) ← visit_edges barriers node row parents queue;
      search_predecessors fuel edges barriers parents queue
    end
  end.

Definition predecessors (self : CoverageProblem) (barriers : gset nat) : res Error (list (option nat)) :=
  let edges := g_edges (cp_graph self) in
  '(parents, queue) ←
    seed_sources (node_values (cd_sources (cp_declaration self))) (replicate (length edges) None) [];
  search_predecessors (length edges) edges barriers parents queue.

(** The loop of [path_to]; [path] is what has been pushed so far.  A chain of
    parents never repeats a node, so it is no longer than the vector. *)
Fixpoint path_loop (fuel : nat) (parents : list (option nat)) (node : nat) (path : list nat)
    : res Error (list nat) :=
  match fuel with
  | O => Panic
  | S fuel =>
    let path := path ++ [node] in
    slot ← expect (parents !! node);
    parent ← expect slot;
    if parent =? node then Ok (reverse path) else path_loop fuel parents parent path
  end.

Definition path_to (parents : list (option nat)) (node : nat) : res Error (list nat) :=
  path_loop (length parents) parents node [].

(** The body of the closure in [audit], and the map it is collected into. *)
Definition sink_status (original surviving : list (option nat)) (sink : nat) : res Error SinkCoverage :=
  before ← expect (original !! sink);
  match before with
  | None => Ok AlreadyUnreachable
  | Some _ =>
    after ← expect (surviving !! sink);
    match after with
    | Some _ => path ← path_to surviving sink; Ok (Bypass path)
    | None => baseline_path ← path_to original sink; Ok (Mediated baseline_path)
    end
  end.

Fixpoint collect_statuses (original surviving : list (option nat)) (sinks : list nat)
    (statuses : gmap nat SinkCoverage) : res Error (gmap nat SinkCoverage) :=
  match sinks with
  | [] => Ok statuses
  | sink :: sinks =>
    status ← sink_status original surviving sink;
    collect_statuses original surviving sinks (<[sink:=status]> statuses)
  end.

Definition coverage_audit (self : CoverageProblem) (barriers : gset nat) : res Error CoverageAudit :=
  let declaration := cp_declaration self in
  refuse_if (length (g_edges (cp_graph self)) <? size barriers) Limit;;
  refuse_if (negb (bool_decide (barriers ⊆ cd_candidates declaration))) Binding;;
  original ← predecessors self ∅;
  surviving ← predecessors self barriers;
  sinks ← collect_statuses original surviving (node_values (cd_sinks declaration)) ∅;
  Ok (mkCoverageAudit (cd_identity declaration) barriers sinks).

Definition coverage_certify (self : CoverageProblem) (barriers : gset nat) : res Error CoverageCertificate :=
  checked ← coverage_audit self barriers;
  refuse_if (negb (covers_active_sinks checked)) Incomplete;;
  disconnects ← graph_cut_disconnects (cp_graph self) (node_values (cd_sources (cp_declaration self)))
    (node_values (cd_sinks (cp_declaration self))) barriers;
  refuse_if (negb disconnects) Binding;;
  Ok (mkCoverageCertificate self checked).

Definition coverage_verify (self : CoverageProblem) (certificate : CoverageCertificate) : res Error unit :=
  refuse_if (negb (bool_decide (self = cc_problem certificate))) Binding;;
  checked ← coverage_certify self (ca_barriers (cc_audit certificate));
  refuse_if (negb (bool_decide (cc_audit checked = cc_audit certificate))) Binding.

(** ** What an audit says *)

(** [l] is a path along declared edges from a source to [sink]. *)
Definition route (es : list (nat * nat)) (sources : gset nat) (sink : nat) (l : list nat) : Prop :=
  ∃ s, s ∈ sources ∧ walk es s l sink.
Definition avoids (barriers : gset nat) (l : list nat) : Prop := ∀ x, x ∈ l → ¬ (x ∈ barriers).
Definition crosses (barriers : gset nat) (l : list nat) : Prop := ∃ x, x ∈ l ∧ x ∈ barriers.
Definition shortest (P : list nat → Prop) (l : list nat) : Prop :=
  P l ∧ ∀ l', P l' → length l ≤ length l'.

Definition status_right (es : list (nat * nat)) (sources barriers : gset nat) (sink : nat)
    (status : SinkCoverage) : Prop :=
  match status with
  | AlreadyUnreachable => ∀ l, ¬ route es sources sink l
  | Mediated p =>
    shortest (route es sources sink) p ∧ ∀ l, route es sources sink l → crosses barriers l
  | Bypass p => shortest (λ l, route es sources sink l ∧ avoids barriers l) p
  end.

(** The barriers cut every path from a source to a sink. *)
Definition separates (es : list (nat * nat)) (sources sinks barriers : gset nat) : Prop :=
  ∀ sink l, sink ∈ sinks → route es sources sink l → crosses barriers l.
Definition some_route (es : list (nat * nat)) (sources sinks : gset nat) : Prop :=
  ∃ sink l, sink ∈ sinks ∧ route es sources sink l.

(** ** The search *)

Lemma elem_of_node_values s x : x ∈ node_values s ↔ x ∈ s.
Proof. unfold node_values. by rewrite (merge_sort_Permutation le), elem_of_elements. Qed.
Lemma NoDup_node_values s : NoDup (node_values s).
Proof. unfold node_values. rewrite (merge_sort_Permutation le). apply NoDup_elements. Qed.
Lemma length_node_values s : length (node_values s) = size s.
Proof. unfold node_values. by rewrite (merge_sort_Permutation le). Qed.

(** Any number of bounded nodes is bounded. *)
Lemma size_bounded (s : gset nat) n : (∀ v, v ∈ s → v < n) → size s ≤ n.
Proof.
  intros Hs. rewrite <-(length_seq n 0), <-length_node_values. apply submseteq_length, NoDup_submseteq.
  - apply NoDup_node_values.
  - intros v Hv%elem_of_node_values. apply elem_of_seq. specialize (Hs v Hv). lia.
Qed.

Lemma seed_sources_spec sources parents queue :
  NoDup sources → (∀ s, s ∈ sources → parents !! s = Some None) →
  ∃ parents', seed_sources sources parents queue = Ok (parents', queue ++ sources) ∧
    length parents' = length parents ∧
    free_nodes parents = free_nodes parents' + length sources ∧
    ∀ v, parents' !! v = if decide (v ∈ sources) then Some (Some v) else parents !! v.
Proof.
  revert parents queue. induction sources as [|s sources IH]; intros parents queue Hnd Hs; simpl.
  { exists parents. rewrite app_nil_r. split_and!; [done|done|lia|done]. }
  apply NoDup_cons in Hnd as [Hns Hnd]. pose proof (Hs s ltac:(left)) as Hps. rewrite Hps. simpl.
  destruct (IH (<[s:=Some s]> parents) (queue ++ [s])) as (parents' & -> & Hlen & Hfree & Hl); [done| |].
  { intros v Hv. rewrite list_lookup_insert_ne by congruence. apply Hs. by right. }
  exists parents'. rewrite <-(assoc_L (++)). simpl. split_and!.
  - done.
  - by rewrite Hlen, length_insert.
  - rewrite (free_nodes_insert _ _ s Hps), Hfree. lia.
  - intros v. rewrite Hl. destruct (decide (v = s)) as [->|Hne].
    + rewrite (decide_False (P:=s ∈ sources)) by done. rewrite decide_True by left.
      apply list_lookup_insert_eq. by apply lookup_lt_Some in Hps.
    + rewrite list_lookup_insert_ne by done.
      destruct (decide (v ∈ sources)); [by rewrite decide_True by (by right)|].
      rewrite decide_False; [done|]. by rewrite elem_of_cons; intros [?|?].
Qed.

Lemma visit_edges_spec es barriers node row parents queue :
  (∀ v, v ∈ row → (node, v) ∈ es ∧ v < length parents) →
  ∃ parents' new, visit_edges barriers node row parents queue = Ok (parents', queue ++ new) ∧
    follows (open_edge es barriers) node parents parents' new ∧
    ∀ v, v ∈ row → ¬ (v ∈ barriers) → found parents' v.
Proof.
  revert parents queue. induction row as [|next row IH]; intros parents queue Hrow; simpl.
  { exists parents, []. rewrite app_nil_r. split_and!; [done|apply follows_nil|].
    by intros v ?%elem_of_nil. }
  destruct (Hrow next) as [He Hlt]; [left|].
  apply lookup_lt_is_Some in Hlt as [parent Hp]. rewrite Hp. simpl.
  destruct (bool_decide (parent = None) && negb (bool_decide (next ∈ barriers))) eqn:Hb.
  - apply andb_true_iff in Hb as [->%bool_decide_eq_true Hb%negb_true_iff%bool_decide_eq_false].
    destruct (IH (<[next:=Some node]> parents) (queue ++ [next])) as (parents' & new & -> & Hf & Hr).
    { intros v Hv. rewrite length_insert. apply Hrow. by right. }
    pose proof (follows_cons (open_edge es barriers) _ _ _ _ _ ltac:(by split) Hp Hf) as Hf'.
    exists parents', (next :: new). rewrite <-(assoc_L (++)). split_and!; [done|done|].
    intros v [->|Hv]%elem_of_cons Hnb; [|by apply Hr].
    apply (follows_found _ _ _ _ _ _ Hf'). right. left.
  - destruct (IH parents queue) as (parents' & new & -> & Hf & Hr).
    { intros v Hv. apply Hrow. by right. }
    exists parents', new. split_and!; [done|done|].
    intros v [->|Hv]%elem_of_cons Hnb; [|by apply Hr].
    apply (follows_found _ _ _ _ _ _ Hf). left.
    apply andb_false_iff in Hb as [Hb%bool_decide_eq_false|Hb%negb_false_iff%bool_decide_eq_true]; [|done].
    destruct parent as [p|]; [by exists p|done].
Qed.

Section coverage.
Context {nodes : nat} {es : list (nat * nat)} {g : Graph} (Hg : graph_of nodes es g).

Lemma search_predecessors_spec roots barriers fuel parents depth queue :
  searching (open_edge es barriers) roots parents depth queue → length parents = nodes →
  length queue + free_nodes parents ≤ fuel →
  ∃ parents' depth', search_predecessors fuel (g_edges g) barriers parents queue = Ok parents' ∧
    length parents' = nodes ∧ searching (open_edge es barriers) roots parents' depth' [].
Proof using Hg.
  revert parents depth queue. induction fuel as [|fuel IH]; intros parents depth [|node queue] Hs Hlen Hf;
    simpl in *; [by exists parents, depth|lia|by exists parents, depth|].
  assert (node < nodes) as Hlt.
  { destruct (sg_queue _ _ _ _ _ Hs node) as [p Hp]; [left|]. apply lookup_lt_Some in Hp. lia. }
  rewrite <-(go_length _ _ _ Hg) in Hlt. apply lookup_lt_is_Some in Hlt as [row Hrow]. rewrite Hrow. simpl.
  destruct (visit_edges_spec es barriers node row parents queue) as (parents' & new & -> & Hfo & Hr).
  { intros v Hv%(go_rows _ _ _ Hg _ _ Hrow). split; [done|].
    pose proof (go_bound _ _ _ Hg) as Hb. rewrite Forall_forall in Hb. specialize (Hb _ Hv). simpl in Hb. lia. }
  simpl. apply (IH _ (deepen depth node new)).
  - apply searching_step with parents; [done|done|]. intros v [He Hv]. apply Hr; [|done].
    by apply (go_rows _ _ _ Hg _ _ Hrow).
  - by rewrite (follows_length _ _ _ _ _ Hfo).
  - rewrite length_app. pose proof (fl_count _ _ _ _ _ Hfo). lia.
Qed.

Lemma predecessors_spec declaration barriers :
  (∀ s, s ∈ cd_sources declaration → s < nodes) →
  ∃ parents depth, predecessors (mkCoverageProblem g declaration) barriers = Ok parents ∧
    length parents = nodes ∧
    searching (open_edge es barriers) (node_values (cd_sources declaration)) parents depth [].
Proof using Hg.
  intros Hsrc. unfold predecessors. simpl. rewrite (go_length _ _ _ Hg).
  destruct (seed_sources_spec (node_values (cd_sources declaration)) (replicate nodes None) [])
    as (parents & -> & Hlen & Hfree & Hl); [apply NoDup_node_values| |].
  { intros s Hs%elem_of_node_values. apply lookup_replicate. split; [done|by apply Hsrc]. }
  simpl. rewrite length_replicate in Hlen. rewrite free_nodes_replicate in Hfree.
  apply search_predecessors_spec with (λ _, 0); [|done|lia].
  apply searching_start. intros v p. unfold parent_of. rewrite Hl. case_decide as Hv.
  - naive_solver.
  - split; [|naive_solver]. intros E. by apply lookup_replicate in E as [? _].
Qed.

(** ** Paths *)

Lemma walk_snoc s l u v : walk es s l u → (u, v) ∈ es → walk es s (l ++ [v]) v.
Proof. induction 1; simpl; intros; econstructor; eauto using walk_here. Qed.

Lemma walk_nsteps s l t : walk es s l t → ∃ n, length l = S n ∧ ∀ barriers,
  avoids barriers l → nsteps (open_edge es barriers) n s t.
Proof.
  induction 1 as [s|s u l t He Hw (n & Hn & IH)].
  { exists 0. split; [done|]. constructor. }
  exists (S n). split; [simpl; lia|]. intros barriers Hav. apply nsteps_l with u.
  - split; [done|]. intros Hu. apply (Hav u); [|done]. right. destruct Hw; left.
  - apply IH. intros x Hx. apply Hav. by right.
Qed.

Lemma chain_walk barriers roots parents depth v l :
  forest (open_edge es barriers) roots parents depth →
  (∀ s, s ∈ roots → ¬ (s ∈ barriers)) → chain parents v l →
  ∃ s, s ∈ roots ∧ walk es s (reverse l) v ∧ avoids barriers (reverse l).
Proof.
  intros Hf Hroots. induction 1 as [s Hs|v p l Hv Hne Hc (s & Hin & Hw & Hav)].
  - destruct (fo_parent _ _ _ _ Hf _ _ Hs) as [[Hin _]|(_ & _ & _ & Hd)]; [|lia].
    exists s. split_and!; [done|constructor|]. intros x ->%list_elem_of_singleton. by apply Hroots.
  - destruct (fo_parent _ _ _ _ Hf _ _ Hv) as [[_ ->]|(_ & [He Hvb] & _ & _)]; [done|].
    exists s. rewrite reverse_cons. split_and!; [done|by apply walk_snoc with p|].
    intros x [Hx| ->%list_elem_of_singleton]%elem_of_app; [by apply Hav|done].
Qed.

Lemma path_loop_spec parents v l fuel path :
  chain parents v l → length l ≤ fuel → path_loop fuel parents v path = Ok (reverse (path ++ l)).
Proof.
  intros Hc. revert fuel path. induction Hc as [s Hs|v p l Hv Hne Hc IH]; intros [|fuel] path Hf;
    simpl in *; [lia| |lia|].
  - unfold parent_of in Hs. rewrite Hs. simpl. by rewrite Nat.eqb_refl.
  - unfold parent_of in Hv. rewrite Hv. simpl. rewrite (proj2 (Nat.eqb_neq p v)) by done.
    rewrite IH by lia. by rewrite <-(assoc_L (++)).
Qed.

(** A reached node has a path back, and it is a shortest one that avoids the
    barriers. *)
Lemma path_to_spec barriers sources parents depth v :
  (∀ s, s ∈ sources → ¬ (s ∈ barriers)) →
  searching (open_edge es barriers) (node_values sources) parents depth [] → found parents v →
  ∃ p, path_to parents v = Ok p ∧ shortest (λ l, route es sources v l ∧ avoids barriers l) p.
Proof.
  intros Hsb Hs Hv. pose proof (sg_forest _ _ _ _ _ Hs) as Hf.
  destruct (forest_chain _ _ _ _ _ Hf Hv) as (l & Hc & Hlen & _ & _).
  pose proof (forest_chain_bound _ _ _ _ _ Hf Hv) as Hb.
  exists (reverse l). split; [apply (path_loop_spec _ _ _ _ [] Hc); lia|].
  destruct (chain_walk _ _ _ _ v l Hf) as (s & Hin & Hw & Hav); [|done|].
  { intros s Hin%elem_of_node_values. by apply Hsb. }
  split; [split; [|done]; exists s; split; [by apply elem_of_node_values|done]|].
  intros l' [(s' & Hs' & Hw') Hav']. destruct (walk_nsteps _ _ _ Hw') as (n & Hn & Hsteps).
  rewrite length_reverse, Hn, Hlen. apply le_n_S.
  by apply (searching_done _ _ _ _ n s' v Hs); [apply elem_of_node_values|apply Hsteps].
Qed.

Lemma found_route barriers sources parents depth v :
  (∀ s, s ∈ sources → ¬ (s ∈ barriers)) →
  searching (open_edge es barriers) (node_values sources) parents depth [] →
  found parents v ↔ ∃ l, route es sources v l ∧ avoids barriers l.
Proof.
  intros Hsb Hs. split.
  - intros Hv. destruct (path_to_spec _ _ _ _ _ Hsb Hs Hv) as (p & _ & [? _]). eauto.
  - intros (l & (s & Hin & Hw) & Hav). destruct (walk_nsteps _ _ _ Hw) as (n & _ & Hn).
    by apply (searching_done _ _ _ _ n s v Hs); [apply elem_of_node_values|apply Hn].
Qed.

Lemma avoids_empty l : avoids ∅ l.
Proof. unfold avoids. set_solver. Qed.

Lemma not_avoids barriers l : ¬ avoids barriers l ↔ crosses barriers l.
Proof.
  unfold avoids, crosses. split.
  - intros Hno. destruct (decide (Exists (λ x, x ∈ barriers) l)) as [(x & ? & ?)%Exists_exists|Hex]; [by exists x|].
    destruct Hno. intros x Hx Hb. apply Hex, Exists_exists. eauto.
  - intros (x & Hx & Hb) Hav. by apply (Hav x).
Qed.

Section statuses.
Context (sources barriers : gset nat) (original surviving : list (option nat)) (depth depth' : nat → nat).
Context (Hdisjoint : ∀ s, s ∈ sources → ¬ (s ∈ barriers)).
Context (Horiginal : searching (open_edge es ∅) (node_values sources) original depth []).
Context (Hsurviving : searching (open_edge es barriers) (node_values sources) surviving depth' []).
Context (Hlen : length original = nodes) (Hlen' : length surviving = nodes).

Lemma sink_status_spec sink :
  sink < nodes → ∃ status, sink_status original surviving sink = Ok status ∧
    status_right es sources barriers sink status.
Proof using All.
  intros Hlt. unfold sink_status. assert (∀ s, s ∈ sources → ¬ (s ∈ (∅ : gset nat))) as Hempty by set_solver.
  pose proof (found_route _ _ _ _ sink Hempty Horiginal) as Hfo.
  pose proof (found_route _ _ _ _ sink Hdisjoint Hsurviving) as Hfs.
  destruct (lookup_lt_is_Some_2 original sink) as [before Hb]; [lia|].
  destruct (lookup_lt_is_Some_2 surviving sink) as [after Ha]; [lia|].
  rewrite Hb, Ha. simpl. destruct before as [p|]; [destruct after as [q|]|].
  - destruct (path_to_spec _ _ _ _ sink Hdisjoint Hsurviving) as (path & -> & Hp); [by exists q|].
    exists (Bypass path). done.
  - destruct (path_to_spec _ _ _ _ sink Hempty Horiginal) as (path & -> & [[Hr _] Hp]); [by exists p|].
    exists (Mediated path). split; [done|]. split; [split; [done|]|].
    + intros l' Hl'. apply Hp. split; [done|apply avoids_empty].
    + intros l Hl. apply not_avoids. intros Hav. destruct Hfs as [_ [q Hq]]; [by exists l|].
      unfold parent_of in Hq. congruence.
  - exists AlreadyUnreachable. split; [done|]. intros l Hl.
    destruct Hfo as [_ [q Hq]]; [exists l; split; [done|apply avoids_empty]|].
    unfold parent_of in Hq. congruence.
Qed.

Lemma collect_statuses_spec sinks statuses :
  (∀ sink, sink ∈ sinks → sink < nodes) →
  (∀ sink status, statuses !! sink = Some status → status_right es sources barriers sink status) →
  ∃ statuses', collect_statuses original surviving sinks statuses = Ok statuses' ∧
    dom statuses' = dom statuses ∪ list_to_set sinks ∧
    ∀ sink status, statuses' !! sink = Some status → status_right es sources barriers sink status.
Proof using All.
  revert statuses. induction sinks as [|sink sinks IH]; intros statuses Hlt Hall; simpl.
  { exists statuses. split_and!; [done|set_solver|done]. }
  destruct (sink_status_spec sink) as (status & -> & Hst); [apply Hlt; left|]. simpl.
  destruct (IH (<[sink:=status]> statuses)) as (statuses' & -> & Hdom & Hall').
  - intros s Hs. apply Hlt. by right.
  - intros s st [[<- <-]|[_ ?]]%lookup_insert_Some; [done|by apply Hall].
  - exists statuses'. split_and!; [done|set_solver|done].
Qed.
End statuses.

(** An admitted problem over the graph. *)
Context (declaration : CoverageDeclaration).
Let problem := mkCoverageProblem g declaration.

Record problem_admitted : Prop := {
  ad_sources : cd_sources declaration ≠ ∅ ∧ ∀ s, s ∈ cd_sources declaration → s < nodes;
  ad_sinks : cd_sinks declaration ≠ ∅ ∧ ∀ s, s ∈ cd_sinks declaration → s < nodes;
  ad_candidates : ∀ s, s ∈ cd_candidates declaration → s < nodes;
  ad_protected : cd_candidates declaration ## cd_sources declaration ∪ cd_sinks declaration;
}.

Lemma coverage_problem_new_ok problem' :
  coverage_problem_new g declaration = Ok problem' →
  problem' = problem ∧ problem_admitted.
Proof using Hg.
  unfold coverage_problem_new. rewrite then_unit_ok, !refuse_ok, !orb_false_iff.
  rewrite !bool_decide_eq_false, !negb_false_iff, !bool_decide_eq_true, (go_length _ _ _ Hg).
  intros (_ & _ & _ & _ & ((Hs & Ht) & Hb) & [Hcs Hct] & [= <-]). split; [done|].
  assert (∀ n, n ∈ elements (cd_sources declaration) ++ elements (cd_sinks declaration)
    ++ elements (cd_candidates declaration) → n < nodes) as Hall.
  { intros n Hn. rewrite <-not_true_iff_false, existsb_exists in Hb. apply Nat.nle_gt. intros Hle.
    apply Hb. exists n. split; [by apply list_elem_of_In|by apply Nat.leb_le]. }
  split; [split; [done|]|split; [done|]| |set_solver]; intros s Hin; apply Hall; set_solver.
Qed.

Context (Hadmitted : problem_admitted).

Lemma coverage_audit_spec barriers :
  barriers ⊆ cd_candidates declaration →
  ∃ statuses, coverage_audit problem barriers =
      Ok (mkCoverageAudit (cd_identity declaration) barriers statuses) ∧
    dom statuses = cd_sinks declaration ∧
    ∀ sink status, statuses !! sink = Some status →
      status_right es (cd_sources declaration) barriers sink status.
Proof using Hg Hadmitted.
  intros Hsub. destruct Hadmitted as [[_ Hs] [_ Ht] Hc Hd]. unfold coverage_audit, problem. simpl.
  rewrite (go_length _ _ _ Hg), (proj2 (Nat.ltb_ge _ _)).
  2: { apply size_bounded. intros v Hv. apply Hc. set_solver. }
  rewrite bool_decide_eq_true_2 by done. simpl.
  destruct (predecessors_spec declaration ∅ Hs) as (original & d & -> & Hlen & Hso).
  destruct (predecessors_spec declaration barriers Hs) as (surviving & d' & -> & Hlen' & Hss). simpl.
  destruct (collect_statuses_spec (cd_sources declaration) barriers _ _ _ _ ltac:(set_solver) Hso Hss Hlen Hlen'
    (node_values (cd_sinks declaration)) ∅) as (statuses & -> & Hdom & Hall); [|done|].
  { intros s Hin%elem_of_node_values. by apply Ht. }
  exists statuses. simpl. split_and!; [done| |done].
  rewrite Hdom, dom_empty_L, union_empty_l_L. apply set_eq. intros x.
  by rewrite elem_of_list_to_set, elem_of_node_values.
Qed.
End coverage.

(** ** Reading an audit *)

Section reading.
Context (es : list (nat * nat)) (sources sinks barriers : gset nat) (checked : CoverageAudit).
Context (Hdom : dom (ca_sinks checked) = sinks).
Context (Hright : ∀ sink status, ca_sinks checked !! sink = Some status →
  status_right es sources barriers sink status).

Lemma active_sinks_spec : active_sinks checked ≠ 0 ↔ some_route es sources sinks.
Proof using All.
  unfold active_sinks. rewrite map_size_empty_iff. split.
  - intros (sink & status & (Hst & Hact)%map_lookup_filter_Some)%map_choose. simpl in Hact.
    assert (sink ∈ sinks) as Hin by (rewrite <-Hdom; by apply elem_of_dom_2 in Hst).
    pose proof (Hright sink status Hst) as Hr.
    destruct status as [|p|p]; simpl in *; [done| |]; exists sink, p; (split; [done|]); apply Hr.
  - intros (sink & l & Hin & Hl) E%map_empty_filter. rewrite <-Hdom in Hin. apply elem_of_dom in Hin as [status Hst].
    specialize (E sink status Hst). specialize (Hright sink status Hst).
    destruct status; simpl in *; [by apply (Hright l)|done|done].
Qed.

Lemma has_bypass_spec : has_bypass checked = false ↔ separates es sources sinks barriers.
Proof using All.
  unfold has_bypass. rewrite <-not_true_iff_false, existsb_exists. split.
  - intros Hno sink l Hin Hl. apply not_avoids. intros Hav.
    rewrite <-Hdom in Hin. apply elem_of_dom in Hin as [status Hst]. pose proof (Hright sink status Hst) as Hr.
    destruct status as [|p|p]; simpl in Hr; [by apply (Hr l)| |].
    + destruct Hr as [_ Hr]. apply Hr in Hl. by apply not_avoids in Hl.
    + apply Hno. exists (Bypass p). split; [|done]. apply list_elem_of_In, list_elem_of_fmap.
      exists (sink, Bypass p). split; [done|]. by apply elem_of_map_to_list.
  - intros Hsep (status & Hin%list_elem_of_In & Hb). destruct status as [|p|p]; try done.
    apply list_elem_of_fmap in Hin as ([sink st] & E & Hst%elem_of_map_to_list). simpl in E. subst st.
    destruct (Hright _ _ Hst) as [[Hl Hav] _].
    apply (not_avoids barriers p); [|done]. apply (Hsep sink); [|done]. rewrite <-Hdom. by apply elem_of_dom_2 in Hst.
Qed.

Lemma covers_active_sinks_spec :
  covers_active_sinks checked = true ↔ some_route es sources sinks ∧ separates es sources sinks barriers.
Proof using All.
  unfold covers_active_sinks. by rewrite andb_true_iff, !negb_true_iff, has_bypass_spec, Nat.eqb_neq, active_sinks_spec.
Qed.
End reading.

(** ** Certificates *)

Section certificates.
Context {nodes : nat} {es : list (nat * nat)} {g : Graph} (Hnew : graph_new nodes es = Ok g).
Context (declaration : CoverageDeclaration) (problem : CoverageProblem).
Context (Hproblem : coverage_problem_new g declaration = Ok problem).
Let sources := cd_sources declaration.
Let sinks := cd_sinks declaration.

Lemma admitted_problem :
  problem = mkCoverageProblem g declaration ∧ problem_admitted (nodes:=nodes) declaration.
Proof using All. apply (coverage_problem_new_ok (graph_new_spec _ _ _ Hnew)), Hproblem. Qed.

Lemma audit_foreign barriers :
  ¬ (barriers ⊆ cd_candidates declaration) →
  coverage_audit problem barriers = Err Limit ∨ coverage_audit problem barriers = Err Binding.
Proof using All.
  intros Hno. destruct admitted_problem as [-> _]. unfold coverage_audit. simpl.
  rewrite bool_decide_eq_false_2 by done.
  destruct (_ <? _); [by left|by right].
Qed.

(** What [audit] answers for eligible barriers. *)
Lemma audit_eligible barriers :
  barriers ⊆ cd_candidates declaration →
  ∃ statuses, coverage_audit problem barriers =
      Ok (mkCoverageAudit (cd_identity declaration) barriers statuses) ∧
    dom statuses = sinks ∧
    ∀ sink status, statuses !! sink = Some status → status_right es sources barriers sink status.
Proof using All.
  destruct admitted_problem as [-> Had]. by apply (coverage_audit_spec (graph_new_spec _ _ _ Hnew)).
Qed.

(** The cut oracle agrees. *)
Lemma cut_oracle barriers :
  barriers ⊆ cd_candidates declaration →
  ∃ answer, graph_cut_disconnects g (node_values sources) (node_values sinks) barriers = Ok answer ∧
    (answer = true ↔ separates es sources sinks barriers).
Proof using All.
  intros Hsub. destruct admitted_problem as [_ [[Hsne Hs] [Htne Ht] Hc _]].
  destruct (graph_cut_exact nodes es g (node_values sources) (node_values sinks) barriers Hnew)
    as (answer & Heq & Hiff).
  - intros E. apply Hsne, set_eq. intros x. rewrite <-elem_of_node_values.
    fold sources. rewrite E. set_solver.
  - intros E. apply Htne, set_eq. intros x. rewrite <-elem_of_node_values.
    fold sinks. rewrite E. set_solver.
  - intros n. rewrite elem_of_app, !elem_of_node_values. intros [[?|?]|?]; [by apply Hs|by apply Ht|].
    apply Hc. by apply Hsub.
  - exists answer. split; [done|]. rewrite Hiff. unfold separates, route, crosses. split.
    + intros H sink l Hsink (s & Hsrc & Hw). apply (H s sink l); [..|done]; by apply elem_of_node_values.
    + intros H s t l Hsrc Hsink Hw. apply elem_of_node_values in Hsrc, Hsink. apply (H t l); [done|]. by exists s.
Qed.

(** [certify] says whether the barriers cut every path there is. *)
Lemma certify_eligible barriers statuses :
  barriers ⊆ cd_candidates declaration →
  let checked := mkCoverageAudit (cd_identity declaration) barriers statuses in
  coverage_audit problem barriers = Ok checked → dom statuses = sinks →
  (∀ sink status, statuses !! sink = Some status → status_right es sources barriers sink status) →
  coverage_certify problem barriers =
    if covers_active_sinks checked then Ok (mkCoverageCertificate problem checked) else Err Incomplete.
Proof using All.
  intros Hsub checked Haudit Hdom Hall. unfold coverage_certify. rewrite Haudit. simpl.
  pose proof (covers_active_sinks_spec es sources sinks barriers checked Hdom Hall) as Hcov.
  destruct (covers_active_sinks checked); [|done]. simpl.
  destruct (cut_oracle barriers Hsub) as (answer & Heq & Hiff).
  destruct admitted_problem as [Hp _]. rewrite Hp at 1 2 3. simpl. fold sources sinks. rewrite Heq.
  simpl. rewrite (proj2 Hiff) by (by apply Hcov). done.
Qed.

Lemma certify_spec barriers certificate :
  coverage_certify problem barriers = Ok certificate ↔
  barriers ⊆ cd_candidates declaration ∧ some_route es sources sinks ∧
  separates es sources sinks barriers ∧
  ∃ checked, coverage_audit problem barriers = Ok checked ∧ certificate = mkCoverageCertificate problem checked.
Proof using All.
  destruct (decide (barriers ⊆ cd_candidates declaration)) as [Hsub|Hno].
  - destruct (audit_eligible barriers Hsub) as (statuses & Haudit & Hdom & Hall).
    pose proof (covers_active_sinks_spec es sources sinks barriers
      (mkCoverageAudit (cd_identity declaration) barriers statuses) Hdom Hall) as Hcov.
    rewrite (certify_eligible barriers statuses Hsub Haudit Hdom Hall), Haudit.
    destruct (covers_active_sinks _).
    + split; [|by intros (_ & _ & _ & checked & [= <-] & ->)]. intros [= <-].
      destruct Hcov as [[? ?] _]; [done|]. eauto 8.
    + split; [done|]. intros (_ & ? & ? & _). assert (false = true); [by apply Hcov|done].
  - unfold coverage_certify. split; [|naive_solver].
    by destruct (audit_foreign barriers Hno) as [-> | ->].
Qed.
End certificates.

(** ** Properties *)

(** C38: for a problem admitted by [CoverageProblem::new] over a graph built by
    [Graph::new], [audit] of eligible barriers never fails and says of each
    sink, and of nothing else, whether no path leads to it, whether every path
    to it crosses a barrier (with a shortest path), or which is a shortest path
    that avoids them all; foreign barriers are refused.  [certify] succeeds
    exactly for eligible barriers that cut every path between the endpoints,
    when there is one, and otherwise refuses; [verify] accepts exactly what
    [certify] issues for the same problem. *)
Theorem certify_exact (nodes : nat) (es : list (nat * nat)) (g : Graph)
    (declaration : CoverageDeclaration) (problem : CoverageProblem) (barriers : gset nat) :
  graph_new nodes es = Ok g → coverage_problem_new g declaration = Ok problem →
  let sources := cd_sources declaration in
  let sinks := cd_sinks declaration in
  (barriers ⊆ cd_candidates declaration →
     ∃ statuses, coverage_audit problem barriers =
         Ok (mkCoverageAudit (cd_identity declaration) barriers statuses) ∧
       dom statuses = sinks ∧
       ∀ sink status, statuses !! sink = Some status → status_right es sources barriers sink status) ∧
  ((∃ certificate, coverage_certify problem barriers = Ok certificate) ↔
     barriers ⊆ cd_candidates declaration ∧ some_route es sources sinks ∧
     separates es sources sinks barriers) ∧
  ((∃ certificate, coverage_certify problem barriers = Ok certificate) ∨
   ∃ e, coverage_certify problem barriers = Err e ∧
     (e = Incomplete ↔ barriers ⊆ cd_candidates declaration)) ∧
  (∀ certificate, ca_barriers (cc_audit certificate) = barriers →
     coverage_verify problem certificate = Ok tt ↔
     coverage_certify problem barriers = Ok certificate).
Proof.
  intros Hnew Hp sources sinks.
  pose proof (certify_spec Hnew declaration problem Hp barriers) as Hcert. split_and!.
  - apply (audit_eligible Hnew declaration problem Hp).
  - split; [intros [certificate Hc]; apply Hcert in Hc; naive_solver|].
    intros (Hsub & Hr & Hs). destruct (audit_eligible Hnew declaration problem Hp barriers Hsub) as (st & Ha & _).
    eexists. apply Hcert. eauto 8.
  - destruct (decide (barriers ⊆ cd_candidates declaration)) as [Hsub|Hno].
    + destruct (audit_eligible Hnew declaration problem Hp barriers Hsub) as (st & Ha & Hd & Hst).
      rewrite (certify_eligible Hnew declaration problem Hp barriers st Hsub Ha Hd Hst).
      destruct (covers_active_sinks _); [by left; eexists|right; by eexists].
    + right. unfold coverage_certify.
      destruct (audit_foreign Hnew declaration problem Hp barriers Hno) as [-> | ->]; by eexists.
  - intros certificate <-. unfold coverage_verify. rewrite refuse_ok, then_ok.
    rewrite negb_false_iff, bool_decide_eq_true. split.
    + intros (Hpr & checked & Hc & Hr). rewrite Hc. f_equal.
      unfold refuse_if in Hr. destruct (bool_decide_reflect (cc_audit checked = cc_audit certificate)) as [E|]; [|done].
      apply Hcert in Hc as (_ & _ & _ & a & _ & ->). destruct certificate. simpl in *. congruence.
    + intros Hc. split; [|exists certificate; split; [done|by rewrite bool_decide_eq_true_2]].
      by apply Hcert in Hc as (_ & _ & _ & a & _ & ->).
Qed.

Definition example_declaration : CoverageDeclaration :=
  mkCoverageDeclaration (mkCoverageIdentity (mkPerimeterScope 1 2 3) 4 5 6) {[0]} {[4]} {[1; 2; 3]} true.

Lemma certify_exact_witness :
  ∃ g problem, graph_new 5 [(0, 1); (0, 2); (1, 3); (2, 3); (3, 4)] = Ok g ∧
    coverage_problem_new g example_declaration = Ok problem ∧
    (∃ certificate, coverage_certify problem {[3]} = Ok certificate) ∧
    ¬ (∃ certificate, coverage_certify problem {[1]} = Ok certificate) ∧
    separates [(0, 1); (0, 2); (1, 3); (2, 3); (3, 4)] {[0]} {[4]} {[3]}.
Proof.
  assert (∃ g, graph_new 5 [(0, 1); (0, 2); (1, 3); (2, 3); (3, 4)] = Ok g ∧
    coverage_problem_new g example_declaration = Ok (mkCoverageProblem g example_declaration)) as (g & Hg & Hp).
  { eexists. split; [vm_compute; reflexivity|vm_compute; reflexivity]. }
  exists g, (mkCoverageProblem g example_declaration).
  destruct (certify_exact 5 _ g example_declaration _ {[3]} Hg Hp) as (_ & Hiff & _ & _).
  assert (∃ certificate, coverage_certify (mkCoverageProblem g example_declaration) {[3]} = Ok certificate) as Hc.
  { vm_compute in Hg. injection Hg as <-. eexists. vm_compute. reflexivity. }
  split_and!; [done|done|done| |by apply Hiff].
  intros [c E]. vm_compute in Hg. injection Hg as <-. vm_compute in E. discriminate.
Defined.
