(* ===== verification/Flow.v ===== *)
(** * Flows and cuts

    Sums over the indices of a range, and the duality between flows and cuts
    that the barrier synthesis of [Synthesis.v] rests on.  A network is a
    capacity function on pairs of vertices; what is left of it after a flow is
    a residual function. *)

From stdpp Require Import base tactics numbers list sets.
From S2P Require Import Prelude.

Local Open Scope Z_scope.

(** ** Sums over a range *)

Definition range_sum (n : nat) (f : nat → Z) : Z := sumZ (f <$> seq 0 n).

Lemma range_sum_S n f : range_sum (S n) f = range_sum n f + f n.
Proof. unfold range_sum. rewrite seq_S, fmap_app, sumZ_app. simpl. lia. Qed.

Lemma range_sum_ext n f g : (∀ i, (i < n)%nat → f i = g i) → range_sum n f = range_sum n g.
Proof. intros Hfg. apply sumZ_fmap_ext. intros i Hi%elem_of_seq. apply Hfg. lia. Qed.

Lemma range_sum_le n f g : (∀ i, (i < n)%nat → f i ≤ g i) → range_sum n f ≤ range_sum n g.
Proof.
  induction n as [|n IH]; intros Hfg; [done|]. rewrite !range_sum_S.
  pose proof (Hfg n ltac:(lia)). assert (range_sum n f ≤ range_sum n g); [|lia].
  apply IH. intros i Hi. apply Hfg. lia.
Qed.

Lemma range_sum_add n f g : range_sum n (λ i, f i + g i) = range_sum n f + range_sum n g.
Proof. apply sumZ_fmap_add. Qed.

Lemma range_sum_zero n f : (∀ i, (i < n)%nat → f i = 0) → range_sum n f = 0.
Proof.
  induction n as [|n IH]; intros Hf; [done|]. rewrite range_sum_S, (Hf n), IH by auto with lia. done.
Qed.

Lemma range_sum_opp n f : range_sum n (λ i, - f i) = - range_sum n f.
Proof. induction n as [|n IH]; [done|]. rewrite !range_sum_S. lia. Qed.

Lemma range_sum_nonneg n f : (∀ i, (i < n)%nat → 0 ≤ f i) → 0 ≤ range_sum n f.
Proof. intros Hf. rewrite <-(range_sum_zero n (λ _, 0)) by done. by apply range_sum_le. Qed.

(** One term of a sum that is otherwise unchanged. *)
Lemma range_sum_update n f g i :
  (i < n)%nat → (∀ j, (j < n)%nat → j ≠ i → f j = g j) → range_sum n f = range_sum n g + f i - g i.
Proof.
  induction n as [|n IH]; intros Hi Hfg; [lia|]. rewrite !range_sum_S.
  destruct (decide (i = n)) as [->|].
  - rewrite (range_sum_ext n f g); [lia|]. intros j Hj. apply Hfg; lia.
  - rewrite IH, (Hfg n) by (lia || (intros; apply Hfg; lia)). lia.
Qed.

Lemma range_sum_single n f i :
  (i < n)%nat → (∀ j, j ≠ i → f j = 0) → range_sum n f = f i.
Proof.
  intros Hi Hf. rewrite (range_sum_update n f (λ _, 0) i) by auto.
  rewrite (range_sum_zero n (λ _, 0)) by done. lia.
Qed.

Lemma range_sum_term n f i :
  (i < n)%nat → (∀ j, (j < n)%nat → 0 ≤ f j) → f i ≤ range_sum n f.
Proof.
  intros Hi Hf. rewrite (range_sum_update n f (λ j, if decide (j = i) then 0 else f j) i) by
    (done || (intros; by rewrite decide_False)).
  cbn beta. rewrite decide_True by done.
  assert (0 ≤ range_sum n (λ j, if decide (j = i) then 0 else f j)); [|lia].
  apply range_sum_nonneg. intros j Hj. case_decide; [done|by apply Hf].
Qed.

Lemma range_sum_swap n m (f : nat → nat → Z) :
  range_sum n (λ i, range_sum m (f i)) = range_sum m (λ j, range_sum n (λ i, f i j)).
Proof.
  induction n as [|n IH]; [by rewrite (range_sum_zero m)|].
  rewrite range_sum_S, IH, <-range_sum_add. apply range_sum_ext. intros j _. by rewrite range_sum_S.
Qed.

(** A sum over a set of nodes below [n]. *)
Lemma range_sum_pick n (f : nat → Z) l :
  NoDup l → (∀ i, i ∈ l → (i < n)%nat) →
  sumZ (f <$> l) = range_sum n (λ i, if decide (i ∈ l) then f i else 0).
Proof.
  induction l as [|i l IH]; intros Hnd Hl; csimpl.
  { by rewrite range_sum_zero. }
  apply NoDup_cons in Hnd as [Hi Hnd]. rewrite IH by (done || (intros; apply Hl; by right)).
  rewrite (range_sum_update n (λ j, if decide (j ∈ i :: l) then f j else 0)
    (λ j, if decide (j ∈ l) then f j else 0) i).
  - cbn beta. rewrite (decide_False (P:=i ∈ l)) by done.
    rewrite decide_True by left. lia.
  - apply Hl. left.
  - intros j _ Hj. destruct (decide (j ∈ l)); [by rewrite decide_True by (by right)|].
    rewrite decide_False; [done|]. by rewrite elem_of_cons; intros [?|?].
Qed.

(** Summing over the vertices of a split graph: both halves of every node, and
    the two terminals. *)
Lemma range_sum_split n f :
  range_sum (2 * n + 2) f =
  range_sum n (λ a, f (2 * a)%nat + f (2 * a + 1)%nat) + f (2 * n)%nat + f (2 * n + 1)%nat.
Proof.
  replace (2 * n + 2)%nat with (S (S (2 * n))) by lia. rewrite !range_sum_S.
  replace (S (2 * n)) with (2 * n + 1)%nat by lia.
  assert (range_sum (2 * n) f = range_sum n (λ a, f (2 * a)%nat + f (2 * a + 1)%nat)) as ->; [|lia].
  induction n as [|n IH]; [done|]. replace (2 * S n)%nat with (S (S (2 * n))) by lia.
  rewrite !range_sum_S, IH. replace (S (2 * n)) with (2 * n + 1)%nat by lia. lia.
Qed.

(** ** Duality *)

Section duality.
Context (vertices source sink : nat) (capacity : nat → nat → Z).
Context (Hsource : (source < vertices)%nat) (Hsink : (sink < vertices)%nat).

(** The residual network of a flow of that value. *)
Record residual_of (value : Z) (residual : nat → nat → Z) : Prop := {
  rs_nonneg : ∀ u v, (u < vertices)%nat → (v < vertices)%nat → 0 ≤ residual u v;
  rs_pair : ∀ u v, (u < vertices)%nat → (v < vertices)%nat →
    residual u v + residual v u = capacity u v + capacity v u;
  rs_conserved : ∀ u, (u < vertices)%nat → u ≠ source → u ≠ sink →
    range_sum vertices (residual u) = range_sum vertices (capacity u);
  rs_value : range_sum vertices (residual source) = range_sum vertices (capacity source) - value;
}.

(** What a function between vertices sums to across a cut. *)
Definition crossing (side : nat → bool) (f : nat → nat → Z) : Z :=
  range_sum vertices (λ u, range_sum vertices (λ v, if side u && negb (side v) then f u v else 0)).

Lemma crossing_le side f g :
  (∀ u v, (u < vertices)%nat → (v < vertices)%nat → side u = true → side v = false → f u v ≤ g u v) →
  crossing side f ≤ crossing side g.
Proof using.
  intros Hfg. apply range_sum_le. intros u Hu. apply range_sum_le. intros v Hv.
  destruct (side u) eqn:Eu, (side v) eqn:Ev; simpl; [done| |done|done]. by apply Hfg.
Qed.

Lemma crossing_term side f u v :
  (∀ u v, (u < vertices)%nat → (v < vertices)%nat → 0 ≤ f u v) →
  (u < vertices)%nat → (v < vertices)%nat → side u = true → side v = false → f u v ≤ crossing side f.
Proof using.
  intros Hf Hu Hv Eu Ev.
  assert (∀ u v, (u < vertices)%nat → (v < vertices)%nat → 0 ≤ if side u && negb (side v) then f u v else 0) as Hpos.
  { intros u' v' Hu' Hv'. destruct (_ && _); [by apply Hf|done]. }
  etrans; [|apply (range_sum_term vertices _ u Hu)].
  - cbn beta. etrans; [|apply (range_sum_term vertices _ v Hv)]; [by rewrite Eu, Ev|]. intros j Hj. by apply Hpos.
  - intros i Hi. apply range_sum_nonneg. intros j Hj. by apply Hpos.
Qed.

(** What is not symmetric cancels. *)
Lemma antisymmetric_sum (f : nat → nat → Z) :
  (∀ u v, (u < vertices)%nat → (v < vertices)%nat → f u v = - f v u) →
  range_sum vertices (λ u, range_sum vertices (f u)) = 0.
Proof using.
  clear Hsource Hsink. intros Hf. assert (range_sum vertices (λ u, range_sum vertices (f u)) =
    - range_sum vertices (λ u, range_sum vertices (f u))) as E; [|lia].
  rewrite range_sum_swap at 1. rewrite <-range_sum_opp. apply range_sum_ext. intros v Hv.
  rewrite <-range_sum_opp. apply range_sum_ext. intros u Hu. by apply Hf.
Qed.

(** The value of a flow is what crosses any cut. *)
Lemma value_crosses value residual side :
  residual_of value residual → side source = true → side sink = false →
  value = crossing side (λ u v, capacity u v - residual u v).
Proof using Hsource Hsink.
  intros [_ Hp Hc Hv] Hs Ht. set (f := λ u v, capacity u v - residual u v).
  assert (∀ u, range_sum vertices (f u) = range_sum vertices (capacity u) - range_sum vertices (residual u)) as Hrow.
  { intros u. unfold f. rewrite <-Z.add_opp_r, <-range_sum_opp, <-range_sum_add.
    apply range_sum_ext. intros v _. lia. }
  assert (range_sum vertices (λ u, if side u then range_sum vertices (f u) else 0) = value) as Hvalue.
  { rewrite (range_sum_ext _ _ (λ u, if decide (u = source) then value else 0)).
    - rewrite (range_sum_single _ _ source); cbn beta; [by rewrite decide_True|done|]. intros j Hj. by rewrite decide_False.
    - intros u Hu. rewrite Hrow. case_decide as E; [subst; rewrite Hs; lia|].
      destruct (side u) eqn:Eu; [|done]. rewrite Hc; [lia|done|done|]. congruence. }
  assert (range_sum vertices (λ u, range_sum vertices
    (λ v, if side u && side v then f u v else 0)) = 0) as Hin.
  { apply antisymmetric_sum. intros u v Hu Hv'. rewrite (andb_comm (side v)).
    destruct (side u && side v); [|done]. unfold f. specialize (Hp u v Hu Hv'). lia. }
  enough (value = crossing side f + range_sum vertices (λ u, range_sum vertices
    (λ v, if side u && side v then f u v else 0))) by lia.
  rewrite <-Hvalue. unfold crossing. rewrite <-range_sum_add. apply range_sum_ext. intros u Hu.
  destruct (side u); simpl; [|by rewrite !range_sum_zero].
  rewrite <-range_sum_add. apply range_sum_ext. intros v Hv'. destruct (side v); simpl; lia.
Qed.

(** Weak duality: no flow is worth more than a cut. *)
Lemma value_le_cut value residual side :
  residual_of value residual → side source = true → side sink = false →
  value ≤ crossing side capacity.
Proof using Hsource Hsink.
  intros Hr Hs Ht. rewrite (value_crosses value residual side Hr Hs Ht). apply crossing_le.
  intros u v Hu Hv _ _. pose proof (rs_nonneg _ _ Hr u v Hu Hv). lia.
Qed.

(** A cut that leaves no residual capacity is worth the flow. *)
Lemma value_saturates value residual side :
  residual_of value residual → side source = true → side sink = false →
  (∀ u v, (u < vertices)%nat → (v < vertices)%nat → side u = true → side v = false → residual u v = 0) →
  value = crossing side capacity.
Proof using Hsource Hsink.
  intros Hr Hs Ht Hz. rewrite (value_crosses value residual side Hr Hs Ht).
  apply Z.le_antisymm; apply crossing_le; intros u v Hu Hv Eu Ev; rewrite (Hz u v) by done; lia.
Qed.
End duality.
