(* ===== verification/Synthesis.v ===== *)
(** * Barrier synthesis

    [crates/fa-reference/src/perimeter/coverage/synthesis.rs]: a maximal flow
    through the graph with its nodes split in two, of which the barriers of
    least total cost are read off.  The residual network is a flat matrix of
    [u128] cells, as in the code.  The work counters are the state of the
    solver, so what a failure has spent is part of the model.  Node and cell
    indices are those of a graph of at most 128 nodes and cannot overflow. *)

From stdpp Require Import base tactics numbers list gmap sets sorting.
From S2P Require Import Prelude Bytes Judgment Graph Perimeter Forest Coverage Flow.

Local Open Scope Z_scope.

(** ** Model *)

Definition MAX_CUT_RESIDUAL_CELLS : Z := 258 * 258.
Definition MAX_CUT_RESIDUAL_SCANS : Z := 50000000.
Definition MAX_CUT_AUGMENTATIONS : Z := 4096.

Record CutBudget := mkCutBudget {
  cb_residual_cells : Z;
  cb_residual_scans : Z;
  cb_augmentations : Z;
}.

Record CutWork := mkCutWork {
  cw_residual_cells : Z;
  cw_residual_scans : Z;
  cw_augmentations : Z;
  cw_topology_audits : Z;
  cw_independent_cut_checks : Z;
}.

Definition cut_work_default : CutWork := mkCutWork 0 0 0 0 0.

Record CutFailure := mkCutFailure { cf_error : Error; cf_work : CutWork }.

Record CutPlan := mkCutPlan {
  pl_certificate : CoverageCertificate;
  pl_costs : gmap nat Z;
  pl_total_cost : Z;
  pl_work : CutWork;
}.

Definition plan_barriers (self : CutPlan) : gset nat := ca_barriers (cc_audit (pl_certificate self)).

Inductive CutSynthesis :=
  | CutAlreadyUnreachable (audit : CoverageAudit) (work : CutWork)
  | CutImpossible (audit : CoverageAudit) (work : CutWork)
  | CutPlanned (plan : CutPlan).

(** [work.residual_scans += 1] and the other counters. *)
Definition charge_scan : st CutWork Error unit :=
  work ← get;
  scans ← lift (u64_add (cw_residual_scans work) 1);
  put (mkCutWork (cw_residual_cells work) scans (cw_augmentations work)
         (cw_topology_audits work) (cw_independent_cut_checks work)).
Definition charge_augmentation : st CutWork Error unit :=
  work ← get;
  augmentations ← lift (u64_add (cw_augmentations work) 1);
  put (mkCutWork (cw_residual_cells work) (cw_residual_scans work) augmentations
         (cw_topology_audits work) (cw_independent_cut_checks work)).
Definition charge_audit : st CutWork Error unit :=
  work ← get;
  audits ← lift (u64_add (cw_topology_audits work) 1);
  put (mkCutWork (cw_residual_cells work) (cw_residual_scans work) (cw_augmentations work)
         audits (cw_independent_cut_checks work)).
Definition charge_check : st CutWork Error unit :=
  work ← get;
  checks ← lift (u64_add (cw_independent_cut_checks work) 1);
  put (mkCutWork (cw_residual_cells work) (cw_residual_scans work) (cw_augmentations work)
         (cw_topology_audits work) checks).
Definition record_cells (cells : Z) : st CutWork Error unit :=
  modify (λ work, mkCutWork cells (cw_residual_scans work) (cw_augmentations work)
         (cw_topology_audits work) (cw_independent_cut_checks work)).

(** [residual\[index\]], [residual\[index\] = value] and the row of a vertex. *)
Definition cell (residual : list Z) (index : nat) : res Error Z := expect (residual !! index).
Definition set_residual (residual : list Z) (index : nat) (value : Z) : res Error (list Z) :=
  _ ← cell residual index; Ok (<[index:=value]> residual).
Definition residual_row (residual : list Z) (vertices node : nat) : res Error (list Z) :=
  if ((node + 1) * vertices <=? length residual)%nat
  then Ok (take vertices (drop (node * vertices) residual)) else Panic.

(** The loop over the cells of a row, counted from [next]; true when it ended
    at the sink. *)
Fixpoint scan_row (budget : CutBudget) (node sink : nat) (row : list Z) (next : nat)
    (parents : list (option nat)) (queue : list nat)
    : st CutWork Error (bool * list (option nat) * list nat) :=
  match row with
  | [] => mret (false, parents, queue)
  | capacity :: row =>
    work ← get;
    refuse_if (cw_residual_scans work =? cb_residual_scans budget) Limit;;
    charge_scan;;
    free ← (if 0 <? capacity
            then parent ← lift (expect (parents !! next)); mret (bool_decide (parent = None))
            else mret false);
    if (free : bool) then
      let parents := <[next:=Some node]> parents in
      if (next =? sink)%nat then mret (true, parents, queue)
      else scan_row budget node sink row (S next) parents (queue ++ [next])
    else scan_row budget node sink row (S next) parents queue
  end.

(** The search loop of [residual_search]; every vertex enters the queue once. *)
Fixpoint residual_loop (fuel : nat) (residual : list Z) (vertices sink : nat) (budget : CutBudget)
    (parents : list (option nat)) (queue : list nat) : st CutWork Error (list (option nat)) :=
  match queue with
  | [] => mret parents
  | node :: queue =>
    match fuel with
    | O => lift Panic
    | S fuel =>
      row ← lift (residual_row residual vertices node);
      '(ended, parents, queue) ← scan_row budget node sink row 0 parents queue;
      if (ended : bool) then mret parents
      else residual_loop fuel residual vertices sink budget parents queue
    end
  end.

Definition residual_search (residual : list Z) (vertices source sink : nat) (budget : CutBudget)
    : st CutWork Error (list (option nat)) :=
  let parents := replicate vertices None in
  _ ← lift (expect (parents !! source));
  residual_loop vertices residual vertices sink budget (<[source:=Some source]> parents) [source].

(** The two walks from the sink back to the source: the least residual
    capacity on the way, and the augmentation by it. *)
Fixpoint bottleneck (fuel : nat) (residual : list Z) (vertices source : nat)
    (parents : list (option nat)) (node : nat) (amount : Z) : res Error Z :=
  if (node =? source)%nat then Ok amount
  else match fuel with
  | O => Panic
  | S fuel =>
    slot ← expect (parents !! node);
    previous ← ok_or slot Binding;
    capacity ← cell residual (previous * vertices + node);
    bottleneck fuel residual vertices source parents previous (Z.min amount capacity)
  end.

Fixpoint push_flow (fuel : nat) (residual : list Z) (vertices source : nat)
    (parents : list (option nat)) (node : nat) (amount : Z) : res Error (list Z) :=
  if (node =? source)%nat then Ok residual
  else match fuel with
  | O => Panic
  | S fuel =>
    slot ← expect (parents !! node);
    previous ← ok_or slot Binding;
    capacity ← cell residual (previous * vertices + node);
    lowered ← u64_sub capacity amount;
    residual ← set_residual residual (previous * vertices + node) lowered;
    reverse ← cell residual (node * vertices + previous);
    raised ← ok_or (u128_checked_add reverse amount) Overflow;
    residual ← set_residual residual (node * vertices + previous) raised;
    push_flow fuel residual vertices source parents previous amount
  end.

(** The loop that augments until no path is left. *)
Fixpoint augment_loop (fuel : nat) (budget : CutBudget) (total infinite : Z)
    (vertices source sink : nat) (residual : list Z) (flow : Z)
    : st CutWork Error (list (option nat) * Z) :=
  match fuel with
  | O => lift Panic
  | S fuel =>
    parents ← residual_search residual vertices source sink budget;
    slot ← lift (expect (parents !! sink));
    if bool_decide (slot = None) then mret (parents, flow)
    else
      work ← get;
      refuse_if (cw_augmentations work =? cb_augmentations budget) Limit;;
      amount ← lift (bottleneck vertices residual vertices source parents sink infinite);
      refuse_if (amount =? 0) Binding;;
      residual ← lift (push_flow vertices residual vertices source parents sink amount);
      charge_augmentation;;
      flow ← ok_or (u128_checked_add flow amount) Overflow;
      refuse_if (total <? flow) Binding;;
      augment_loop fuel budget total infinite vertices source sink residual flow
  end.

(** The loops that enter the capacities. *)
Fixpoint link_cells (vertices node : nat) (row : list nat) (infinite : Z) (residual : list Z)
    : res Error (list Z) :=
  match row with
  | [] => Ok residual
  | next :: row =>
    residual ← set_residual residual ((2 * node + 1) * vertices + 2 * next) infinite;
    link_cells vertices node row infinite residual
  end.

Fixpoint node_cells (vertices node : nat) (edges : list (list nat)) (costs : gmap nat Z) (infinite : Z)
    (residual : list Z) : res Error (list Z) :=
  match edges with
  | [] => Ok residual
  | row :: edges =>
    residual ← set_residual residual (2 * node * vertices + 2 * node + 1) (default infinite (costs !! node));
    residual ← link_cells vertices node row infinite residual;
    node_cells vertices (S node) edges costs infinite residual
  end.

Fixpoint source_cells (vertices source : nat) (sources : list nat) (infinite : Z) (residual : list Z)
    : res Error (list Z) :=
  match sources with
  | [] => Ok residual
  | node :: sources =>
    residual ← set_residual residual (source * vertices + 2 * node) infinite;
    source_cells vertices source sources infinite residual
  end.

Fixpoint sink_cells (vertices sink : nat) (sinks : list nat) (infinite : Z) (residual : list Z)
    : res Error (list Z) :=
  match sinks with
  | [] => Ok residual
  | node :: sinks =>
    residual ← set_residual residual ((2 * node + 1) * vertices + sink) infinite;
    sink_cells vertices sink sinks infinite residual
  end.

(** [try_fold] of checked additions over the costs of chosen nodes, [costs\[node\]]. *)
Fixpoint selected_cost (costs : gmap nat Z) (acc : Z) (nodes : list nat) : res Error Z :=
  match nodes with
  | [] => Ok acc
  | node :: nodes =>
    cost ← expect (costs !! node);
    acc ← ok_or (u128_checked_add acc cost) Overflow;
    selected_cost costs acc nodes
  end.

(** [reachable\[2 * node\].is_some() && reachable\[2 * node + 1\].is_none()] *)
Definition is_barrier (reachable : list (option nat)) (node : nat) : res Error bool :=
  inner ← expect (reachable !! (2 * node)%nat);
  match inner with
  | None => Ok false
  | Some _ => outer ← expect (reachable !! (2 * node + 1)%nat); Ok (bool_decide (outer = None))
  end.

Fixpoint select_barriers (reachable : list (option nat)) (candidates : list nat) : res Error (gset nat) :=
  match candidates with
  | [] => Ok ∅
  | node :: candidates =>
    chosen ← is_barrier reachable node;
    barriers ← select_barriers reachable candidates;
    Ok (if (chosen : bool) then {[node]} ∪ barriers else barriers)
  end.

Definition synthesize (self : CoverageProblem) (costs : gmap nat Z) (budget : CutBudget)
    : st CutWork Error CutSynthesis :=
  let declaration := cp_declaration self in
  let edges := g_edges (cp_graph self) in
  refuse_if ((MAX_CUT_RESIDUAL_CELLS <? cb_residual_cells budget)
             || (MAX_CUT_RESIDUAL_SCANS <? cb_residual_scans budget)
             || (MAX_CUT_AUGMENTATIONS <? cb_augmentations budget)) Limit;;
  refuse_if (negb (size costs =? size (cd_candidates declaration))%nat
             || negb (bool_decide (node_values (dom costs) = node_values (cd_candidates declaration))))
    Binding;;
  all ← lift (coverage_audit self (cd_candidates declaration));
  charge_audit;;
  if (active_sinks all =? 0)%nat then work ← get; mret (CutAlreadyUnreachable all work)
  else if has_bypass all then work ← get; mret (CutImpossible all work)
  else
    let nodes := length edges in
    let vertices := (2 * nodes + 2)%nat in
    let cells := Z.of_nat (vertices * vertices) in
    refuse_if (cb_residual_cells budget <? cells) Limit;;
    let residual := replicate (vertices * vertices) 0 in
    record_cells cells;;
    total ← lift (u128_try_sum Overflow 0 (map_values costs));
    infinite ← ok_or (u128_checked_add total 1) Overflow;
    let source := (2 * nodes)%nat in
    let sink := (source + 1)%nat in
    residual ← lift (node_cells vertices 0 edges costs infinite residual);
    residual ← lift (source_cells vertices source (node_values (cd_sources declaration)) infinite residual);
    residual ← lift (sink_cells vertices sink (node_values (cd_sinks declaration)) infinite residual);
    '(reachable, flow) ←
      augment_loop (S (Z.to_nat (cb_augmentations budget))) budget total infinite vertices source sink residual 0;
    barriers ← lift (select_barriers reachable (node_values (cd_candidates declaration)));
    cost ← lift (selected_cost costs 0 (node_values barriers));
    refuse_if (negb (cost =? flow)) Binding;;
    certificate ← lift (coverage_certify self barriers);
    charge_audit;;
    charge_check;;
    work ← get;
    mret (CutPlanned (mkCutPlan certificate costs cost work)).

Definition minimum_cost_cut (self : CoverageProblem) (costs : gmap nat Z) (budget : CutBudget)
    : res CutFailure CutSynthesis :=
  let '(result, work) := synthesize self costs budget cut_work_default in
  map_err (λ error, mkCutFailure error work) result.

Definition synthesis_work (checked : CutSynthesis) : CutWork :=
  match checked with
  | CutPlanned plan => pl_work plan
  | CutAlreadyUnreachable _ work | CutImpossible _ work => work
  end.

Definition verify_cut_plan (self : CoverageProblem) (plan : CutPlan) (costs : gmap nat Z) (budget : CutBudget)
    : res CutFailure unit :=
  refuse_if (negb (bool_decide (self = cc_problem (pl_certificate plan)))
             || negb (bool_decide (costs = pl_costs plan))) (mkCutFailure Binding cut_work_default);;
  checked ← minimum_cost_cut self costs budget;
  match checked with
  | CutPlanned checked_plan =>
    if (pl_total_cost checked_plan =? pl_total_cost plan)
       && bool_decide (pl_certificate checked_plan = pl_certificate plan) then Ok tt
    else Err (mkCutFailure Binding (pl_work checked_plan))
  | checked => Err (mkCutFailure Binding (synthesis_work checked))
  end.

(** ** The residual matrix *)

Definition value_at (vertices : nat) (residual : list Z) (u v : nat) : Z :=
  default 0 (residual !! (u * vertices + v)%nat).

Section matrix.
Context (vertices : nat).
Implicit Types (residual : list Z) (u v p q : nat).

Lemma index_bound u v :
  (u < vertices)%nat → (v < vertices)%nat → (u * vertices + v < vertices * vertices)%nat.
Proof using. intros. nia. Qed.

Lemma index_unique u v p q :
  (v < vertices)%nat → (q < vertices)%nat →
  (u * vertices + v)%nat = (p * vertices + q)%nat → u = p ∧ v = q.
Proof using. intros. destruct (Nat.lt_trichotomy u p) as [|[->|]]; [nia|lia|nia]. Qed.

Lemma cell_ok residual u v :
  length residual = (vertices * vertices)%nat → (u < vertices)%nat → (v < vertices)%nat →
  cell residual (u * vertices + v) = Ok (value_at vertices residual u v).
Proof using.
  intros Hlen Hu Hv. unfold cell, value_at.
  destruct (lookup_lt_is_Some_2 residual (u * vertices + v)) as [x ->]; [|done].
  rewrite Hlen. by apply index_bound.
Qed.

Lemma set_cell_ok residual u v x :
  length residual = (vertices * vertices)%nat → (u < vertices)%nat → (v < vertices)%nat →
  set_residual residual (u * vertices + v) x = Ok (<[(u * vertices + v)%nat:=x]> residual).
Proof using. intros Hlen Hu Hv. unfold set_residual. by rewrite cell_ok. Qed.

Lemma value_at_set residual p q x u v :
  length residual = (vertices * vertices)%nat →
  (p < vertices)%nat → (q < vertices)%nat → (v < vertices)%nat →
  value_at vertices (<[(p * vertices + q)%nat:=x]> residual) u v =
  if decide (u = p ∧ v = q) then x else value_at vertices residual u v.
Proof using.
  intros Hlen Hp Hq Hv. unfold value_at. case_decide as E.
  - destruct E as [-> ->]. rewrite list_lookup_insert_eq; [done|]. rewrite Hlen. by apply index_bound.
  - rewrite list_lookup_insert_ne; [done|]. intros Heq. by apply E; apply index_unique.
Qed.

Lemma residual_row_ok residual u :
  length residual = (vertices * vertices)%nat → (u < vertices)%nat →
  ∃ row, residual_row residual vertices u = Ok row ∧ length row = vertices ∧
    ∀ v x, row !! v = Some x → (v < vertices)%nat ∧ x = value_at vertices residual u v.
Proof using.
  intros Hlen Hu. unfold residual_row. rewrite (proj2 (Nat.leb_le _ _)) by nia.
  eexists. split; [done|]. split.
  - rewrite length_take, length_drop. nia.
  - intros v x Hx. assert (v < vertices)%nat as Hv.
    { apply lookup_lt_Some in Hx. rewrite length_take in Hx. lia. }
    rewrite lookup_take_lt, lookup_drop in Hx by done. split; [done|]. unfold value_at. by rewrite Hx.
Qed.
End matrix.

(** ** The search *)

(** The work after that many more scans. *)
Definition scanned (work : CutWork) (scans : Z) : CutWork :=
  mkCutWork (cw_residual_cells work) (cw_residual_scans work + scans) (cw_augmentations work)
    (cw_topology_audits work) (cw_independent_cut_checks work).

Lemma scanned_0 work : scanned work 0 = work.
Proof. destruct work. unfold scanned. simpl. by rewrite Z.add_0_r. Qed.
Lemma scanned_add work a b : scanned (scanned work a) b = scanned work (a + b).
Proof. unfold scanned. simpl. by rewrite Z.add_assoc. Qed.

Section search.
Context (budget : CutBudget) (sink : nat).
Context (Hbudget : cb_residual_scans budget ≤ MAX_CUT_RESIDUAL_SCANS).

(** What a scan of a row answers, and the scans it took. *)
Lemma scan_row_spec (edge : nat → nat → Prop) node row next parents queue work :
  cw_residual_scans work ≤ cb_residual_scans budget →
  (∀ i x, row !! i = Some x → (next + i < length parents)%nat ∧ (0 < x ↔ edge node (next + i)%nat)) →
  match scan_row budget node sink row next parents queue work with
  | (Ok (ended, parents', queue'), work') =>
    ∃ scans new, work' = scanned work scans ∧ 0 ≤ scans ≤ len row ∧
      cw_residual_scans work' ≤ cb_residual_scans budget ∧
      follows edge node parents parents' new ∧
      if ended then found parents' sink
      else queue' = queue ++ new ∧
        ∀ i x, row !! i = Some x → 0 < x → found parents' (next + i)
  | (Err e, _) => e = Limit ∧ cb_residual_scans budget < cw_residual_scans work + len row
  | (Panic, _) => False
  end.
Proof using Hbudget.
  unfold MAX_CUT_RESIDUAL_SCANS in Hbudget. revert next parents queue work.
  induction row as [|x row IH]; intros next parents queue work Hw Hrow; cbn [scan_row]; munfold_goal.
  { exists 0, []. rewrite scanned_0, app_nil_r. unfold len. simpl.
    split_and!; [done|done|done|done|apply follows_nil|done|done]. }
  assert (len (x :: row) = len row + 1) as Hlen by (unfold len; simpl; lia). rewrite Hlen.
  destruct (Z.eqb_spec (cw_residual_scans work) (cb_residual_scans budget)) as [E|E].
  { split; [done|]. pose proof (len_nonneg row). lia. }
  unfold charge_scan. munfold_goal. unfold u64_add.
  rewrite (proj2 (Z.leb_le _ _)) by lia.
  change (mkCutWork _ _ _ _ _) with (scanned work 1).
  destruct (Hrow 0%nat x eq_refl) as [Hlt Hedge]. rewrite Nat.add_0_r in Hlt, Hedge.
  assert (∀ parents' : list (option nat), length parents' = length parents → ∀ i x, row !! i = Some x →
    (S next + i < length parents')%nat ∧ (0 < x ↔ edge node (S next + i)%nat)) as Hrest.
  { intros parents' -> i y Hy. destruct (Hrow (S i) y Hy) as [H1 H2].
    rewrite Nat.add_succ_r in H1, H2. by split. }
  assert (∀ parents', found parents' next → (∀ i y, row !! i = Some y → 0 < y → found parents' (S next + i)) →
    ∀ i y, (x :: row) !! i = Some y → 0 < y → found parents' (next + i)) as Hshift.
  { intros parents' Hf Hr [|i] y Hy Hpos; [by rewrite Nat.add_0_r|].
    rewrite Nat.add_succ_r. by apply (Hr i y). }
  destruct (lookup_lt_is_Some_2 parents next Hlt) as [parent Hp].
  destruct (Z.ltb_spec 0 x) as [Hpos|Hpos]; [rewrite Hp; case_bool_decide as Hfree|].
  - subst parent. destruct (Nat.eqb_spec next sink) as [->|Hns].
    { exists 1, [sink]. pose proof (len_nonneg row). unfold scanned. simpl.
      assert (follows edge node parents (<[sink:=Some node]> parents) [sink]) as Hf.
      { apply follows_cons; [by apply Hedge|done|apply follows_nil]. }
      split_and!; [done|lia|lia|lia|done|]. apply (follows_found _ _ _ _ _ _ Hf). right. left. }
    specialize (IH (S next) (<[next:=Some node]> parents) (queue ++ [next]) (scanned work 1) ltac:(simpl; lia)
      (Hrest _ (length_insert _ _ _))).
    destruct (scan_row _ _ _ _ _ _ _ _) as [[[[ended parents'] queue']|e|] work']; [|simpl in IH; split; [apply IH|lia]|done].
    destruct IH as (scans & new & -> & Hs & Hb & Hf & Hend). rewrite scanned_add.
    pose proof (follows_cons edge _ _ _ _ _ (proj1 Hedge Hpos) Hp Hf) as Hf'.
    exists (1 + scans), (next :: new). rewrite scanned_add in Hb. split_and!; [done|lia|lia|done|done|].
    destruct ended; [done|]. destruct Hend as [-> Hr]. rewrite <-(assoc_L (++)). split; [done|].
    apply Hshift; [|done]. apply (follows_found _ _ _ _ _ _ Hf'). right. left.
  - specialize (IH (S next) parents queue (scanned work 1) ltac:(simpl; lia) (Hrest _ eq_refl)).
    destruct (scan_row _ _ _ _ _ _ _ _) as [[[[ended parents'] queue']|e|] work']; [|simpl in IH; split; [apply IH|lia]|done].
    destruct IH as (scans & new & -> & Hs & Hb & Hf & Hend). rewrite scanned_add in *.
    exists (1 + scans), new. split_and!; [done|lia|lia|done|done|].
    destruct ended; [done|]. destruct Hend as [-> Hr]. split; [done|]. apply Hshift; [|done].
    apply (follows_found _ _ _ _ _ _ Hf). left. destruct parent as [p|]; [by exists p|done].
  - specialize (IH (S next) parents queue (scanned work 1) ltac:(simpl; lia) (Hrest _ eq_refl)).
    destruct (scan_row _ _ _ _ _ _ _ _) as [[[[ended parents'] queue']|e|] work']; [|simpl in IH; split; [apply IH|lia]|done].
    destruct IH as (scans & new & -> & Hs & Hb & Hf & Hend). rewrite scanned_add in *.
    exists (1 + scans), new. split_and!; [done|lia|lia|done|done|].
    destruct ended; [done|]. destruct Hend as [-> Hr]. split; [done|].
    intros [|i] y Hy Hy'; [simpl in Hy; injection Hy as ->; lia|].
    rewrite Nat.add_succ_r. by apply (Hr i y).
Qed.

(** Residual edges. *)
Definition residual_edge (vertices : nat) (residual : list Z) (u v : nat) : Prop :=
  (v < vertices)%nat ∧ 0 < value_at vertices residual u v.

Context (vertices : nat) (residual : list Z) (source : nat).
Context (Hlen : length residual = (vertices * vertices)%nat).
Let edge := residual_edge vertices residual.

Lemma residual_loop_spec fuel parents depth queue work :
  cw_residual_scans work ≤ cb_residual_scans budget →
  searching edge [source] parents depth queue → length parents = vertices →
  (length queue + free_nodes parents ≤ fuel)%nat →
  match residual_loop fuel residual vertices sink budget parents queue work with
  | (Ok parents', work') =>
    ∃ scans depth', work' = scanned work scans ∧
      0 ≤ scans ≤ Z.of_nat vertices * Z.of_nat (length queue + free_nodes parents) ∧
      cw_residual_scans work' ≤ cb_residual_scans budget ∧
      length parents' = vertices ∧ forest edge [source] parents' depth' ∧
      (found parents' sink ∨ searching edge [source] parents' depth' [])
  | (Err e, _) => e = Limit ∧ cb_residual_scans budget <
      cw_residual_scans work + Z.of_nat vertices * Z.of_nat (length queue + free_nodes parents)
  | (Panic, _) => False
  end.
Proof using Hbudget Hlen.
  revert parents depth queue work. induction fuel as [|fuel IH];
    intros parents depth [|node queue] work Hw Hs Hlp Hf; simpl in *; munfold_goal; try lia.
  1,2: exists 0, depth; rewrite scanned_0; split_and!;
    [done|done|lia|done|done|apply Hs|by right].
  assert (node < vertices)%nat as Hnode.
  { destruct (sg_queue _ _ _ _ _ Hs node) as [p Hp]; [left|]. apply lookup_lt_Some in Hp. lia. }
  destruct (residual_row_ok vertices residual node Hlen Hnode) as (row & -> & Hrl & Hrow).
  assert (len row = Z.of_nat vertices) as Hlr by (unfold len; by rewrite Hrl).
  pose proof (scan_row_spec edge node row 0 parents queue work Hw) as Hscan.
  assert (∀ i x, row !! i = Some x → (0 + i < length parents)%nat ∧ (0 < x ↔ edge node (0 + i)%nat)) as Hpre.
  { intros i x Hx. destruct (Hrow i x Hx) as [Hi ->]. simpl. split; [lia|]. unfold edge, residual_edge. naive_solver. }
  specialize (Hscan Hpre).
  destruct (scan_row _ _ _ _ _ _ _ _) as [[[[ended parents'] queue']|e|] work1];
    [|destruct Hscan as [-> ?]; split; [done|nia]|done].
  destruct Hscan as (scans & new & -> & Hsc & Hb & Hfo & Hend).
  pose proof (fl_count _ _ _ _ _ Hfo) as Hcount. pose proof (follows_length _ _ _ _ _ Hfo) as Hlp'.
  destruct ended.
  { exists scans, (deepen depth node new). split_and!; [done|lia|nia|done|lia| |by left].
    apply forest_follows with parents; [apply Hs|apply (sg_queue _ _ _ _ _ Hs); left|done]. }
  destruct Hend as [-> Hr].
  assert (searching edge [source] parents' (deepen depth node new) (queue ++ new)) as Hs'.
  { apply searching_step with parents; [done|done|]. intros v [Hv Hpos].
    destruct (lookup_lt_is_Some_2 row v) as [x Hx]; [lia|].
    apply (Hr v x Hx). by destruct (Hrow v x Hx) as [_ ->]. }
  specialize (IH parents' _ (queue ++ new) (scanned work scans) Hb Hs' ltac:(lia)).
  rewrite length_app in IH. specialize (IH ltac:(lia)).
  destruct (residual_loop _ _ _ _ _ _ _ _) as [[parents''|e|] work2];
    [|simpl in IH; split; [apply IH|]; destruct IH; nia|done].
  destruct IH as (scans' & depth' & -> & Hsc' & Hrest). rewrite scanned_add in *.
  exists (scans + scans'), depth'. split_and!; [done|lia|nia|apply Hrest..].
Qed.

Lemma residual_search_spec work :
  cw_residual_scans work ≤ cb_residual_scans budget → (source < vertices)%nat →
  match residual_search residual vertices source sink budget work with
  | (Ok parents, work') =>
    ∃ scans depth, work' = scanned work scans ∧
      0 ≤ scans ≤ Z.of_nat vertices * Z.of_nat vertices ∧
      cw_residual_scans work' ≤ cb_residual_scans budget ∧
      length parents = vertices ∧ forest edge [source] parents depth ∧
      (found parents sink ∨ searching edge [source] parents depth [])
  | (Err e, _) => e = Limit ∧ cb_residual_scans budget <
      cw_residual_scans work + Z.of_nat vertices * Z.of_nat vertices
  | (Panic, _) => False
  end.
Proof using Hbudget Hlen.
  intros Hw Hsrc. unfold residual_search. munfold_goal.
  assert (replicate vertices (None : option nat) !! source = Some None) as Hr by (by apply lookup_replicate).
  rewrite Hr. set (parents := <[source:=Some source]> (replicate vertices None)).
  pose proof (free_nodes_insert _ _ source Hr) as Hfree. rewrite free_nodes_replicate in Hfree. fold parents in Hfree.
  assert (length parents = vertices) as Hlp by (unfold parents; by rewrite length_insert, length_replicate).
  assert (searching edge [source] parents (λ _, 0%nat) [source]) as Hs.
  { apply searching_start. intros v p. unfold parent_of, parents. rewrite list_elem_of_singleton.
    destruct (decide (v = source)) as [->|Hne].
    - rewrite list_lookup_insert_eq by (by rewrite length_replicate). naive_solver.
    - rewrite list_lookup_insert_ne by done. split; [|naive_solver]. by intros [? _]%lookup_replicate. }
  pose proof (residual_loop_spec vertices parents _ [source] work Hw Hs Hlp ltac:(simpl; lia)) as H.
  simpl length in H. rewrite <-Nat.add_1_l, Nat.add_comm in Hfree.
  replace (1 + free_nodes parents)%nat with vertices in H by lia. exact H.
Qed.
End search.

(** ** Augmenting along a chain of parents *)

Lemma chain_parent parents v l x y :
  chain parents v l → x ∈ l → parent_of parents x y → y ∈ l.
Proof.
  induction 1 as [s Hs|v p l Hv Hne Hc IH]; intros Hx Hy.
  - apply list_elem_of_singleton in Hx as ->. unfold parent_of in *.
    apply list_elem_of_singleton. congruence.
  - apply elem_of_cons in Hx as [->|Hx]; [|right; by apply IH].
    assert (y = p) as -> by (unfold parent_of in *; congruence). right.
    destruct (chain_head _ _ _ Hc) as [l' ->]. left.
Qed.

Lemma chain_found parents v l : chain parents v l → ∀ x, x ∈ l → found parents x.
Proof.
  induction 1 as [s Hs|v p l Hv Hne Hc IH]; intros x Hx.
  - apply list_elem_of_singleton in Hx as ->. by exists s.
  - apply elem_of_cons in Hx as [->|Hx]; [by exists p|by apply IH].
Qed.

Section augmentation.
Context (vertices source : nat) (parents : list (option nat)).
Context (Hlp : length parents = vertices).

(** The residual capacity of the links of a chain. *)
Definition links (residual : list Z) (l : list nat) (amount : Z) : Prop :=
  ∀ x y, x ∈ l → parent_of parents x y → x ≠ y → amount ≤ value_at vertices residual y x.

Lemma found_bound v : found parents v → (v < vertices)%nat.
Proof using Hlp. intros [p Hp]. apply lookup_lt_Some in Hp. lia. Qed.

(** A chain whose root, and only whose root, is the source. *)
Context (Hroots : ∀ s, parent_of parents s s → s = source).
Context (Hsource : parent_of parents source source).

Lemma chain_interior v p : parent_of parents v p → p ≠ v → v ≠ source.
Proof using Hsource. unfold parent_of in *. intros Hv Hne ->. congruence. Qed.

Lemma bottleneck_spec residual v l fuel amount :
  length residual = (vertices * vertices)%nat → chain parents v l → (length l ≤ S fuel)%nat →
  (∀ x y, x ∈ l → parent_of parents x y → x ≠ y → 0 < value_at vertices residual y x) → 0 < amount →
  ∃ least, bottleneck fuel residual vertices source parents v amount = Ok least ∧
    0 < least ≤ amount ∧ links residual l least.
Proof using Hlp Hroots Hsource.
  intros Hlen Hc. revert fuel amount. induction Hc as [s Hs|v p l Hv Hne Hc IH]; intros fuel amount Hf Hpos Ha.
  - exists amount. rewrite (Hroots s Hs). split_and!; [destruct fuel; simpl; by rewrite Nat.eqb_refl|done|done|].
    intros x y ->%list_elem_of_singleton Hy Hxy. unfold parent_of in *. congruence.
  - destruct (chain_head _ _ _ Hc) as [l' El]. destruct fuel as [|fuel]; [rewrite El in Hf; simpl in Hf; lia|].
    cbn [bottleneck]. rewrite (proj2 (Nat.eqb_neq v source)) by (by apply (chain_interior v p)).
    unfold parent_of in Hv. rewrite Hv. munfold_goal.
    assert (p < vertices)%nat as Hp by (apply found_bound, (chain_found _ _ _ Hc); rewrite El; left).
    assert (v < vertices)%nat as Hvb by (apply found_bound; by exists p).
    rewrite cell_ok by done.
    pose proof (Hpos v p ltac:(left) Hv ltac:(done)) as Hpv.
    destruct (IH fuel (Z.min amount (value_at vertices residual p v))) as (least & -> & Hle & Hlinks);
      [simpl in Hf; lia| |lia|].
    { intros x y Hx. apply Hpos. by right. }
    exists least. split_and!; [done|lia|lia|]. intros x y [->|Hx]%elem_of_cons Hy Hxy; [|by apply Hlinks].
    assert (y = p) as -> by (unfold parent_of in *; congruence). lia.
Qed.

Lemma push_flow_spec residual v l fuel amount bound :
  length residual = (vertices * vertices)%nat → chain parents v l → NoDup l → (length l ≤ S fuel)%nat →
  0 < amount → links residual l amount → bound ≤ U128_MAX →
  (∀ x y, (x < vertices)%nat → (y < vertices)%nat → 0 ≤ value_at vertices residual x y) →
  (∀ x y, (x < vertices)%nat → (y < vertices)%nat →
     value_at vertices residual x y + value_at vertices residual y x ≤ bound) →
  ∃ residual', push_flow fuel residual vertices source parents v amount = Ok residual' ∧
    length residual' = (vertices * vertices)%nat ∧
    (∀ x y, (x < vertices)%nat → (y < vertices)%nat → 0 ≤ value_at vertices residual' x y) ∧
    (∀ x y, (x < vertices)%nat → (y < vertices)%nat →
       value_at vertices residual' x y + value_at vertices residual' y x =
       value_at vertices residual x y + value_at vertices residual y x) ∧
    (∀ x, (x < vertices)%nat →
       range_sum vertices (value_at vertices residual' x) =
       range_sum vertices (value_at vertices residual x)
       + (if decide (x = v) then amount else 0) - (if decide (x = source) then amount else 0)).
Proof using Hlp Hroots Hsource.
  intros Hlen Hc. revert residual fuel Hlen.
  induction Hc as [s Hs|v p l Hv Hne Hc IH]; intros residual fuel Hlen Hnd Hf Ha Hlinks Hbound Hpos Hsum.
  - exists residual. rewrite (Hroots s Hs). split_and!; [destruct fuel; simpl; by rewrite Nat.eqb_refl|done|done|done|].
    intros x _. case_decide; lia.
  - destruct (chain_head _ _ _ Hc) as [l' El]. destruct fuel as [|fuel]; [rewrite El in Hf; simpl in Hf; lia|].
    apply NoDup_cons in Hnd as [Hvl Hnd].
    pose proof (chain_interior v p Hv Hne) as Hvs.
    assert (p ∈ l) as Hpl by (rewrite El; left).
    assert (p < vertices)%nat as Hp by (apply found_bound, (chain_found _ _ _ Hc); done).
    assert (v < vertices)%nat as Hvb by (apply found_bound; by exists p).
    pose proof (Hlinks v p ltac:(left) Hv ltac:(done)) as Hpv.
    cbn [push_flow]. rewrite (proj2 (Nat.eqb_neq v source)) by done.
    unfold parent_of in Hv. rewrite Hv. munfold_goal. rewrite cell_ok by done. unfold u64_sub.
    rewrite (proj2 (Z.leb_le _ _)) by done. rewrite set_cell_ok by done.
    set (lowered := <[_ := _]> residual).
    assert (length lowered = (vertices * vertices)%nat) as Hll by (unfold lowered; by rewrite length_insert).
    rewrite (cell_ok vertices lowered) by done.
    assert (∀ x y, (y < vertices)%nat → value_at vertices lowered x y =
      if decide (x = p ∧ y = v) then value_at vertices residual p v - amount else value_at vertices residual x y) as Hlow.
    { intros x y Hy. by apply value_at_set. }
    rewrite (Hlow v p), (decide_False (P:=v = p ∧ p = v)) by (done || naive_solver).
    specialize (Hsum p v Hp Hvb) as Hpair. unfold u128_checked_add.
    rewrite (proj2 (Z.leb_le _ _)) by lia. rewrite set_cell_ok by done.
    set (raised := <[_ := _]> lowered).
    assert (length raised = (vertices * vertices)%nat) as Hlr by (unfold raised; by rewrite length_insert).
    assert (∀ x y, (y < vertices)%nat → value_at vertices raised x y =
      if decide (x = v ∧ y = p) then value_at vertices residual v p + amount
      else if decide (x = p ∧ y = v) then value_at vertices residual p v - amount
      else value_at vertices residual x y) as Hraise.
    { intros x y Hy. rewrite <-Hlow by done. by apply value_at_set. }
    clearbody lowered raised.
    destruct (IH raised fuel Hlr Hnd) as (residual' & Hres & Hlen' & Hpos' & Hsum' & Hrow'); try done.
    + simpl in Hf. lia.
    + intros x y Hx Hy Hxy. rewrite Hraise by (apply found_bound, (chain_found _ _ _ Hc); done).
      pose proof (chain_parent _ _ _ _ _ Hc Hx Hy) as Hyl.
      rewrite !decide_False by (intros [-> ->]; done). apply Hlinks; [by right|done|done].
    + intros x y Hx Hy. rewrite Hraise by done. pose proof (Hpos x y Hx Hy). pose proof (Hpos v p Hvb Hp).
      repeat case_decide; lia.
    + intros x y Hx Hy. rewrite !Hraise by done. pose proof (Hsum x y Hx Hy).
      repeat case_decide; destruct_and?; subst; lia.
    + exists residual'. split_and!; [done|done|done| |].
      * intros x y Hx Hy. rewrite Hsum', !Hraise by done.
        repeat case_decide; destruct_and?; subst; try done; try lia; naive_solver.
      * intros x Hx. rewrite Hrow' by done.
        assert (range_sum vertices (value_at vertices raised x) = range_sum vertices (value_at vertices residual x)
          + (if decide (x = v) then amount else 0) - (if decide (x = p) then amount else 0)) as ->; [|lia].
        pose proof (λ y, Hraise x y) as Hx'.
        destruct (decide (x = v)) as [->|Hxv]; [|destruct (decide (x = p)) as [->|Hxp]].
        -- rewrite (range_sum_update vertices _ (value_at vertices residual v) p Hp).
           { rewrite Hx', decide_True, decide_False by (done || congruence). lia. }
           intros y Hy Hyp. rewrite Hx', !decide_False by (done || naive_solver). done.
        -- rewrite (range_sum_update vertices _ (value_at vertices residual p) v Hvb).
           { rewrite Hx', decide_False, decide_True by (done || naive_solver). lia. }
           intros y Hy Hyv. rewrite Hx', !decide_False by (done || naive_solver). done.
        -- rewrite Z.add_0_r, Z.sub_0_r. apply range_sum_ext. intros y Hy.
           rewrite Hx', !decide_False by (done || naive_solver). done.
Qed.
End augmentation.

(** ** The augmenting loop *)

Section flow.
Context (budget : CutBudget) (vertices source sink : nat) (capacity : nat → nat → Z) (total : Z).
Let infinite := total + 1.
Context (Hscans : cb_residual_scans budget ≤ MAX_CUT_RESIDUAL_SCANS).
Context (Haugmentations : cb_augmentations budget ≤ MAX_CUT_AUGMENTATIONS).
Context (Hsource : (source < vertices)%nat) (Hsink : (sink < vertices)%nat) (Hne : source ≠ sink).
Context (Htotal : 0 ≤ total) (Hwidth : 2 * infinite ≤ U128_MAX).
Context (Hcapacity : ∀ u v, (u < vertices)%nat → (v < vertices)%nat → capacity u v ≤ infinite).
(** Some cut of the network is worth no more than the total. *)
Context (Hcut : ∀ value residual, residual_of vertices source sink capacity value residual → value ≤ total).

Let edge residual := residual_edge vertices residual.

(** One augmentation: what the two walks compute from a forest that reached
    the sink. *)
Lemma augment_spec residual parents depth flow :
  length residual = (vertices * vertices)%nat →
  residual_of vertices source sink capacity flow (value_at vertices residual) →
  length parents = vertices → forest (edge residual) [source] parents depth → found parents sink →
  ∃ amount residual',
    bottleneck vertices residual vertices source parents sink infinite = Ok amount ∧
    push_flow vertices residual vertices source parents sink amount = Ok residual' ∧
    0 < amount ≤ infinite ∧ length residual' = (vertices * vertices)%nat ∧
    residual_of vertices source sink capacity (flow + amount) (value_at vertices residual').
Proof using Hsource Hsink Hne Htotal Hwidth Hcapacity.
  intros Hlen Hr Hlp Hf Hfound.
  destruct (forest_chain _ _ _ _ _ Hf Hfound) as (l & Hc & Hll & _ & Hsort).
  pose proof (forest_chain_bound _ _ _ _ _ Hf Hfound) as Hdepth.
  apply descending_NoDup in Hsort as Hnd.
  assert (∀ s, parent_of parents s s → s = source) as Hroots.
  { intros s Hs. destruct (fo_parent _ _ _ _ Hf s s Hs) as [[Hin _]|(_ & _ & _ & ?)]; [|lia].
    by apply list_elem_of_singleton in Hin. }
  assert (parent_of parents source source) as Hroot by (apply (fo_root _ _ _ _ Hf); left).
  destruct (bottleneck_spec vertices source parents Hlp Hroots Hroot residual sink l vertices infinite Hlen Hc)
    as (amount & Hb & Hpos & Hlinks); [lia| |unfold infinite; lia|].
  { intros x y Hx Hy Hxy. destruct (fo_parent _ _ _ _ Hf x y Hy) as [[_ ->]|(_ & [_ He] & _ & _)]; [done|done]. }
  destruct (push_flow_spec vertices source parents Hlp Hroots Hroot residual sink l vertices amount (2 * infinite)
    Hlen Hc Hnd) as (residual' & Hpush & Hlen' & Hnn & Hpair & Hrow); [lia|lia|done|done| | |].
  { apply Hr. }
  { intros x y Hx Hy. rewrite (rs_pair _ _ _ _ _ _ Hr) by done.
    pose proof (Hcapacity x y Hx Hy). pose proof (Hcapacity y x Hy Hx). lia. }
  exists amount, residual'. split_and!; [done|done|lia|lia|done|]. split.
  - done.
  - intros u v Hu Hv. rewrite Hpair by done. by apply Hr.
  - intros u Hu Hus Hut. rewrite Hrow, !decide_False by done. rewrite <-(rs_conserved _ _ _ _ _ _ Hr u) by done. lia.
  - rewrite Hrow, decide_False, decide_True by done. rewrite (rs_value _ _ _ _ _ _ Hr). lia.
Qed.

Definition augmented (work : CutWork) : CutWork :=
  mkCutWork (cw_residual_cells work) (cw_residual_scans work) (cw_augmentations work + 1)
    (cw_topology_audits work) (cw_independent_cut_checks work).

(** What the loop reaches: a flow with no augmenting path left, or a spent
    budget. *)
Lemma augment_loop_spec fuel residual flow work :
  length residual = (vertices * vertices)%nat →
  residual_of vertices source sink capacity flow (value_at vertices residual) →
  0 ≤ cw_augmentations work ≤ flow → cw_augmentations work ≤ cb_augmentations budget →
  cw_residual_scans work ≤ cb_residual_scans budget →
  cb_augmentations budget - cw_augmentations work < Z.of_nat fuel →
  match augment_loop fuel budget total infinite vertices source sink residual flow work with
  | (Ok (parents, value), work') =>
    ∃ residual' depth, length residual' = (vertices * vertices)%nat ∧
      residual_of vertices source sink capacity value (value_at vertices residual') ∧
      length parents = vertices ∧ parents !! sink = Some None ∧
      searching (edge residual') [source] parents depth [] ∧
      cw_topology_audits work' = cw_topology_audits work ∧
      cw_independent_cut_checks work' = cw_independent_cut_checks work
  | (Err e, _) => e = Limit ∧ (cb_augmentations budget < total ∨
      cb_residual_scans budget < cw_residual_scans work
        + Z.of_nat vertices * Z.of_nat vertices * (total - flow + 1))
  | (Panic, _) => False
  end.
Proof using All.
  revert residual flow work. induction fuel as [|fuel IH]; intros residual flow work Hlen Hr Ha Hab Hs Hfuel; [lia|].
  cbn [augment_loop]. munfold_goal. pose proof (Hcut _ _ Hr) as Hflow.
  pose proof (residual_search_spec budget sink Hscans vertices residual source Hlen work Hs Hsource) as Hsearch.
  destruct (residual_search _ _ _ _ _ _) as [[parents|e|] work1]; [|destruct Hsearch as [-> ?]; split; [done|right; nia]|done].
  destruct Hsearch as (scans & depth & -> & Hsc & Hs' & Hlp & Hf & Hend).
  destruct (lookup_lt_is_Some_2 parents sink) as [slot Hslot]; [lia|]. rewrite Hslot.
  case_bool_decide as Hnone.
  { subst slot. exists residual, depth. split_and!; try done.
    destruct Hend as [[p Hp]|?]; [|done]. unfold parent_of in Hp. congruence. }
  assert (found parents sink) as Hfound by (destruct slot as [p|]; [by exists p|done]).
  destruct (augment_spec residual parents depth flow Hlen Hr Hlp Hf Hfound)
    as (amount & residual' & Hb & Hp & Hamount & Hlen' & Hr').
  pose proof (Hcut _ _ Hr') as Hflow'.
  unfold scanned. simpl. destruct (Z.eqb_spec (cw_augmentations work) (cb_augmentations budget)) as [E|E].
  { split; [done|]. left. lia. }
  rewrite Hb. destruct (Z.eqb_spec amount 0); [lia|]. rewrite Hp. unfold charge_augmentation. munfold_goal. unfold u64_add. simpl.
  unfold MAX_CUT_AUGMENTATIONS in Haugmentations. rewrite (proj2 (Z.leb_le _ _)) by lia.
  unfold u128_checked_add. rewrite (proj2 (Z.leb_le _ _)) by lia.
  destruct (Z.ltb_spec total (flow + amount)); [lia|].
  specialize (IH residual' (flow + amount) (augmented (scanned work scans)) Hlen' Hr').
  unfold augmented, scanned in IH. simpl in *.
  specialize (IH ltac:(lia) ltac:(lia) ltac:(lia) ltac:(lia)).
  destruct (augment_loop _ _ _ _ _ _ _ _ _ _) as [[[parents' value]|e|] work2]; [done| |done].
  destruct IH as [-> [?|?]]; split; [done|by left|done|right; nia].
Qed.
End flow.
