(* ===== verification/CutNetwork.v ===== *)
(** * The cut network

    The capacities that [synthesize] of [Synthesis.v] enters into its residual
    matrix, and what cuts of that network have to do with barriers: every
    eligible barrier set that separates the endpoints gives a cut worth its
    cost, and the cut a finished search leaves gives such a barrier set. *)

From stdpp Require Import base tactics numbers list gmap sets sorting.
From S2P Require Import Prelude Bytes Judgment Graph Perimeter Forest Coverage Flow Synthesis.

Local Open Scope Z_scope.

Section network.
Context {nodes : nat} {es : list (nat * nat)} {g : Graph} (Hg : graph_of nodes es g).
Context (sources sinks : gset nat) (costs : gmap nat Z) (infinite : Z).
Context (Hsources : ∀ s, s ∈ sources → (s < nodes)%nat) (Hsinks : ∀ s, s ∈ sinks → (s < nodes)%nat).
Let vertices := (2 * nodes + 2)%nat.
Let source := (2 * nodes)%nat.
Let sink := (2 * nodes + 1)%nat.

(** ** The arcs *)

(** Node [a] is split into [2 * a] and [2 * a + 1]; crossing it costs its
    price.  The other arcs are meant to be too expensive for any cut. *)
Definition price (a : nat) : Z := default infinite (costs !! a).

Inductive hard : nat → nat → Prop :=
  | hard_link a b : (a, b) ∈ es → hard (2 * a + 1) (2 * b)
  | hard_source b : b ∈ sources → hard source (2 * b)
  | hard_sink a : a ∈ sinks → hard (2 * a + 1) sink.

Inductive arc : nat → nat → Z → Prop :=
  | arc_split a : (a < nodes)%nat → arc (2 * a) (2 * a + 1) (price a)
  | arc_hard u v : hard u v → arc u v infinite.

Lemma link_bound a b : (a, b) ∈ es → (a < nodes)%nat ∧ (b < nodes)%nat.
Proof using Hg. intros H. pose proof (go_bound _ _ _ Hg) as Hb. rewrite Forall_forall in Hb. by apply (Hb (a, b)). Qed.

Lemma hard_shape u v : hard u v →
  (u < vertices)%nat ∧ (v < vertices)%nat ∧ ¬ (∃ a, u = (2 * a)%nat ∧ v = (2 * a + 1)%nat ∧ (a < nodes)%nat).
Proof using Hg Hsources Hsinks.
  destruct 1 as [a b H%link_bound|b Hb%Hsources|a Ha%Hsinks]; unfold vertices, source, sink;
    (split_and!; [lia|lia|]); intros (a' & ? & ? & ?); lia.
Qed.

Lemma arc_bound u v x : arc u v x → (u < vertices)%nat ∧ (v < vertices)%nat.
Proof using Hg Hsources Hsinks.
  destruct 1 as [a Ha|u v [? [? _]]%hard_shape]; [unfold vertices; lia|done].
Qed.

Lemma arc_unique u v x y : arc u v x → arc u v y → x = y.
Proof using Hg Hsources Hsinks.
  destruct 1 as [a Ha|u v Hh]; inversion 1 as [a' Ha' E1 E2 E3|u' v' Hh' E1 E2 E3]; subst.
  - by assert (a' = a) as -> by lia.
  - destruct (hard_shape _ _ Hh') as (_ & _ & []). by exists a.
  - destruct (hard_shape _ _ Hh) as (_ & _ & []). exists a'. split_and!; lia.
  - done.
Qed.

(** ** Entering the capacities *)

(** A matrix whose cells are those of arcs, or still zero. *)
Record entered (m : list Z) : Prop := {
  en_length : length m = (vertices * vertices)%nat;
  en_arc : ∀ u v, (u < vertices)%nat → (v < vertices)%nat →
    value_at vertices m u v ≠ 0 → arc u v (value_at vertices m u v);
}.

(** A later matrix that keeps the arcs an earlier one has. *)
Definition extends (m m' : list Z) : Prop :=
  entered m' ∧ ∀ u v x, arc u v x → value_at vertices m u v = x → value_at vertices m' u v = x.

Lemma extends_trans m m' m'' : extends m m' → extends m' m'' → extends m m''.
Proof using. intros [_ H1] [Hr H2]. split; [done|]. intros. apply H2; auto. Qed.

Lemma enter_arc m u v x :
  entered m → arc u v x →
  ∃ m', set_residual m (u * vertices + v) x = Ok m' ∧ extends m m' ∧ value_at vertices m' u v = x.
Proof using Hg Hsources Hsinks.
  intros [Hlen Harc] Hx. destruct (arc_bound _ _ _ Hx) as [Hu Hv].
  rewrite set_cell_ok by done. eexists. split; [done|].
  assert (∀ p q, (q < vertices)%nat → value_at vertices (<[(u * vertices + v)%nat:=x]> m) p q =
    if decide (p = u ∧ q = v) then x else value_at vertices m p q) as Hset.
  { intros p q Hq. by apply value_at_set. }
  split; [split; [split|]|].
  - by rewrite length_insert.
  - intros p q Hp Hq. rewrite Hset by done. case_decide as E; [|by apply Harc]. by destruct E as [-> ->].
  - intros p q y Hy Hm. rewrite Hset by (by eapply arc_bound). case_decide as E; [|done].
    destruct E as [-> ->]. by eapply arc_unique.
  - rewrite Hset by done. by rewrite decide_True.
Qed.

Lemma link_cells_spec node row m :
  entered m → (∀ next, next ∈ row → (node, next) ∈ es) →
  ∃ m', link_cells vertices node row infinite m = Ok m' ∧ extends m m' ∧ entered m' ∧
    ∀ next, next ∈ row → value_at vertices m' (2 * node + 1) (2 * next) = infinite.
Proof using Hg Hsources Hsinks.
  revert m. induction row as [|next row IH]; intros m Hm Hrow; cbn [link_cells].
  { exists m. split_and!; [done|by split|done|by intros ? ?%elem_of_nil]. }
  assert (arc (2 * node + 1) (2 * next) infinite) as Harc by (constructor 2; constructor; apply Hrow; left).
  destruct (enter_arc m _ _ _ Hm Harc) as (m1 & -> & Hext & Hval). munfold_goal.
  destruct (IH m1) as (m2 & -> & Hext2 & Hm2 & Hall); [apply Hext|intros; apply Hrow; by right|].
  exists m2. split_and!; [done|by eapply extends_trans|done|].
  intros k [->|Hk]%elem_of_cons; [|by apply Hall]. by apply Hext2.
Qed.

Lemma node_cells_spec node edges m :
  entered m → (∀ i row, edges !! i = Some row → g_edges g !! (node + i)%nat = Some row) →
  ∃ m', node_cells vertices node edges costs infinite m = Ok m' ∧ extends m m' ∧ entered m' ∧
    (∀ i row, edges !! i = Some row →
       value_at vertices m' (2 * (node + i)) (2 * (node + i) + 1) = price (node + i) ∧
       ∀ next, next ∈ row → value_at vertices m' (2 * (node + i) + 1) (2 * next) = infinite).
Proof using Hg Hsources Hsinks.
  revert node m. induction edges as [|row edges IH]; intros node m Hm Hedges; cbn [node_cells].
  { exists m. by split_and!. }
  pose proof (Hedges 0%nat row eq_refl) as Hrow. rewrite Nat.add_0_r in Hrow.
  assert (node < nodes)%nat as Hnode by (apply lookup_lt_Some in Hrow; by rewrite (go_length _ _ _ Hg) in Hrow).
  replace (2 * node * vertices + 2 * node + 1)%nat with (2 * node * vertices + (2 * node + 1))%nat by lia.
  destruct (enter_arc m _ _ _ Hm (arc_split node Hnode)) as (m1 & Hset & Hext & Hval).
  unfold price in Hset at 1. rewrite Hset. munfold_goal.
  destruct (link_cells_spec node row m1) as (m2 & -> & Hext2 & Hm2 & Hlinks); [apply Hext|by apply (go_rows _ _ _ Hg)|].
  destruct (IH (S node) m2 Hm2) as (m3 & -> & Hext3 & Hm3 & Hall).
  { intros i r Hi. rewrite Nat.add_succ_l, <-Nat.add_succ_r. by apply Hedges. }
  exists m3. split_and!; [done|by eapply extends_trans, extends_trans|done|].
  intros [|i] r Hr.
  - injection Hr as <-. rewrite Nat.add_0_r. split.
    + apply Hext3; [by constructor|]. apply Hext2; [by constructor|done].
    + intros next Hn. apply Hext3; [|by apply Hlinks]. constructor 2. constructor. by apply (go_rows _ _ _ Hg _ _ Hrow).
  - rewrite Nat.add_succ_r. by apply Hall.
Qed.

Lemma source_cells_spec l m :
  entered m → (∀ b, b ∈ l → b ∈ sources) →
  ∃ m', source_cells vertices source l infinite m = Ok m' ∧ extends m m' ∧ entered m' ∧
    ∀ b, b ∈ l → value_at vertices m' source (2 * b) = infinite.
Proof using Hg Hsources Hsinks.
  revert m. induction l as [|b l IH]; intros m Hm Hl; cbn [source_cells].
  { exists m. split_and!; [done|by split|done|by intros ? ?%elem_of_nil]. }
  assert (arc source (2 * b) infinite) as Harc by (constructor 2; constructor; apply Hl; left).
  destruct (enter_arc m _ _ _ Hm Harc) as (m1 & -> & Hext & Hval). munfold_goal.
  destruct (IH m1) as (m2 & -> & Hext2 & Hm2 & Hall); [apply Hext|intros; apply Hl; by right|].
  exists m2. split_and!; [done|by eapply extends_trans|done|].
  intros k [->|Hk]%elem_of_cons; [|by apply Hall]. by apply Hext2.
Qed.

Lemma sink_cells_spec l m :
  entered m → (∀ a, a ∈ l → a ∈ sinks) →
  ∃ m', sink_cells vertices sink l infinite m = Ok m' ∧ extends m m' ∧ entered m' ∧
    ∀ a, a ∈ l → value_at vertices m' (2 * a + 1) sink = infinite.
Proof using Hg Hsources Hsinks.
  revert m. induction l as [|a l IH]; intros m Hm Hl; cbn [sink_cells].
  { exists m. split_and!; [done|by split|done|by intros ? ?%elem_of_nil]. }
  assert (arc (2 * a + 1) sink infinite) as Harc by (constructor 2; constructor; apply Hl; left).
  destruct (enter_arc m _ _ _ Hm Harc) as (m1 & -> & Hext & Hval). munfold_goal.
  destruct (IH m1) as (m2 & -> & Hext2 & Hm2 & Hall); [apply Hext|intros; apply Hl; by right|].
  exists m2. split_and!; [done|by eapply extends_trans|done|].
  intros k [->|Hk]%elem_of_cons; [|by apply Hall]. by apply Hext2.
Qed.

(** The finished network: exactly the arcs. *)
Record network (m : list Z) : Prop := {
  nw_entered : entered m;
  nw_arc : ∀ u v x, arc u v x → value_at vertices m u v = x;
}.

Lemma network_built :
  ∃ m1 m2 m3,
    node_cells vertices 0 (g_edges g) costs infinite (replicate (vertices * vertices) 0) = Ok m1 ∧
    source_cells vertices source (node_values sources) infinite m1 = Ok m2 ∧
    sink_cells vertices sink (node_values sinks) infinite m2 = Ok m3 ∧ network m3.
Proof using Hg Hsources Hsinks.
  assert (entered (replicate (vertices * vertices) 0)) as H0.
  { split; [apply length_replicate|]. intros u v Hu Hv. unfold value_at.
    rewrite lookup_replicate_2 by (by apply index_bound). done. }
  destruct (node_cells_spec 0 (g_edges g) _ H0) as (m1 & E1 & _ & Hm1 & Hnodes); [done|].
  destruct (source_cells_spec (node_values sources) m1 Hm1) as (m2 & E2 & Hx2 & Hm2 & Hsrc).
  { intros b. by rewrite elem_of_node_values. }
  destruct (sink_cells_spec (node_values sinks) m2 Hm2) as (m3 & E3 & Hx3 & Hm3 & Hsnk).
  { intros b. by rewrite elem_of_node_values. }
  exists m1, m2, m3. split_and!; [done..|]. split; [done|]. intros u v x Harc.
  destruct Harc as [a Ha|u v [a b Hab|b Hb|a Ha]].
  - destruct (lookup_lt_is_Some_2 (g_edges g) a) as [row Hrow]; [by rewrite (go_length _ _ _ Hg)|].
    apply Hx3; [by constructor|]. apply Hx2; [by constructor|]. by apply (Hnodes a row).
  - destruct (link_bound _ _ Hab) as [Ha _].
    destruct (lookup_lt_is_Some_2 (g_edges g) a) as [row Hrow]; [by rewrite (go_length _ _ _ Hg)|].
    assert (arc (2 * a + 1) (2 * b) infinite) by (constructor 2; by constructor).
    apply Hx3; [done|]. apply Hx2; [done|]. apply (Hnodes a row Hrow). by apply (go_rows _ _ _ Hg _ _ Hrow).
  - apply Hx3; [constructor 2; by constructor|]. apply Hsrc. by apply elem_of_node_values.
  - apply Hsnk. by apply elem_of_node_values.
Qed.

(** ** Cuts *)

(** The declared cost of a set of nodes. *)
Definition cost_of (barriers : gset nat) : Z := sumZ ((λ a, default 0 (costs !! a)) <$> node_values barriers).

Lemma cost_of_range barriers :
  (∀ a, a ∈ barriers → (a < nodes)%nat) →
  cost_of barriers = range_sum nodes (λ a, if decide (a ∈ barriers) then default 0 (costs !! a) else 0).
Proof using.
  intros Hb. unfold cost_of. rewrite (range_sum_pick nodes).
  - apply range_sum_ext. intros a _. pose proof (elem_of_node_values barriers a). repeat case_decide; tauto.
  - apply NoDup_node_values.
  - intros a. rewrite elem_of_node_values. apply Hb.
Qed.

Lemma price_eligible a : a ∈ dom costs → price a = default 0 (costs !! a).
Proof using. unfold price. intros [x ->]%elem_of_dom. done. Qed.

(** *** The cut of a barrier set *)

(** Which vertices a source reaches when the barriers' nodes cannot be
    crossed: [outer] nodes are reached and crossed, [inner] ones entered. *)
Definition outer (parents : list (option nat)) (a : nat) : bool :=
  match parents !! a with Some (Some _) => true | _ => false end.
Definition inner (parents : list (option nat)) (b : nat) : bool :=
  bool_decide (b ∈ sources) || existsb (λ e, outer parents e.1 && (e.2 =? b)%nat) es.
Definition barrier_side (parents : list (option nat)) (u : nat) : bool :=
  if (u =? source)%nat then true else if (u =? sink)%nat then false
  else if Nat.even u then inner parents (Nat.div2 u) else outer parents (Nat.div2 u).

Lemma outer_found parents a : outer parents a = true ↔ found parents a.
Proof using.
  unfold outer, found, parent_of. destruct (parents !! a) as [[p|]|]; naive_solver.
Qed.

Lemma side_inner parents a : (a < nodes)%nat → barrier_side parents (2 * a) = inner parents a.
Proof using.
  intros Ha. unfold barrier_side, source, sink.
  rewrite (proj2 (Nat.eqb_neq _ _)), (proj2 (Nat.eqb_neq _ _)) by lia.
  rewrite Nat.div2_double, Nat.even_mul. done.
Qed.
Lemma side_outer parents a : (a < nodes)%nat → barrier_side parents (2 * a + 1) = outer parents a.
Proof using.
  intros Ha. unfold barrier_side, source, sink.
  rewrite (proj2 (Nat.eqb_neq _ _)), (proj2 (Nat.eqb_neq _ _)) by lia.
  rewrite Nat.add_1_r, Nat.div2_succ_double, Nat.even_succ, Nat.odd_mul. done.
Qed.

Lemma route_snoc a b l : route es sources a l → (a, b) ∈ es → route es sources b (l ++ [b]).
Proof using. intros (s & Hs & Hw) He. exists s. split; [done|]. by apply walk_snoc with a. Qed.

Context (m : list Z) (Hnetwork : network m).
Context (Hprice : ∀ a, 0 ≤ price a ≤ infinite) (Hinfinite : 0 < infinite).
Let capacity := value_at vertices m.

Lemma capacity_bounds u v :
  (u < vertices)%nat → (v < vertices)%nat → 0 ≤ capacity u v ≤ infinite.
Proof using All.
  intros Hu Hv. destruct (decide (capacity u v = 0)) as [->|Hne]; [lia|].
  pose proof (en_arc _ (nw_entered _ Hnetwork) u v Hu Hv Hne) as Harc. fold capacity in Harc.
  remember (capacity u v) as x eqn:E. clear E. destruct Harc as [a Ha|]; [apply Hprice|lia].
Qed.

Lemma residual_start : residual_of vertices source sink capacity 0 capacity.
Proof using All. split; [|done|done|lia]. intros. by apply capacity_bounds. Qed.

(** A side that no expensive arc leaves. *)
Definition uncut (side : nat → bool) : Prop := ∀ u v, hard u v → side u = true → side v = true.

(** What such a side cuts is a set of nodes. *)
Lemma crossing_uncut side :
  uncut side →
  crossing vertices side capacity =
  range_sum nodes (λ a, if side (2 * a)%nat && negb (side (2 * a + 1)%nat) then price a else 0).
Proof using All.
  intros Hun. unfold crossing, vertices. rewrite range_sum_split. fold vertices.
  assert (∀ u v, (u < vertices)%nat → (v < vertices)%nat →
    ¬ (∃ a, u = (2 * a)%nat ∧ v = (2 * a + 1)%nat ∧ (a < nodes)%nat) →
    (if side u && negb (side v) then capacity u v else 0) = 0) as Hzero.
  { intros u v Hu Hv Hno. destruct (side u) eqn:Eu; [|done]. destruct (side v) eqn:Ev; [done|]. simpl.
    destruct (decide (capacity u v = 0)) as [|Hne]; [done|].
    destruct (en_arc _ (nw_entered _ Hnetwork) u v Hu Hv Hne) as [a Ha|u v Hh]; [destruct Hno; by exists a|].
    rewrite (Hun u v Hh Eu) in Ev. done. }
  rewrite (range_sum_zero _ (λ v, if side (2 * nodes)%nat && _ then _ else _)),
    (range_sum_zero _ (λ v, if side (2 * nodes + 1)%nat && _ then _ else _)).
  - rewrite !Z.add_0_r. apply range_sum_ext. intros a Ha.
    rewrite (range_sum_zero _ (λ v, if side (2 * a + 1)%nat && _ then _ else _)), Z.add_0_r.
    + rewrite (range_sum_update _ _ (λ _, 0) (2 * a + 1)).
      * rewrite (range_sum_zero _ (λ _, 0)) by done. unfold capacity.
        rewrite (nw_arc _ Hnetwork (2 * a) (2 * a + 1) (price a)) by (by constructor). lia.
      * unfold vertices. lia.
      * intros v Hv Hne. apply Hzero; [unfold vertices; lia|done|]. intros (a' & ? & ? & _). lia.
    + intros v Hv. apply Hzero; [unfold vertices; lia|done|]. intros (a' & ? & ? & _). lia.
  - intros v Hv. apply Hzero; [unfold vertices; lia|done|]. intros (a' & ? & ? & ?). lia.
  - intros v Hv. apply Hzero; [unfold vertices; lia|done|]. intros (a' & ? & ? & ?). lia.
Qed.

(** No flow is worth more than an eligible separating barrier set. *)
Lemma barriers_bound barriers value residual :
  barriers ⊆ dom costs → dom costs ## sources → (∀ a, a ∈ dom costs → (a < nodes)%nat) →
  separates es sources sinks barriers →
  residual_of vertices source sink capacity value residual → value ≤ cost_of barriers.
Proof using All.
  intros Hsub Hdis Hdom Hsep Hr.
  destruct (predecessors_spec Hg (mkCoverageDeclaration (mkCoverageIdentity (mkPerimeterScope 0 0 0) 0 0 0)
    sources ∅ ∅ true) barriers Hsources) as (parents & depth & _ & _ & Hs). simpl in Hs.
  pose proof (found_route (es:=es) barriers sources parents depth) as Hfound.
  assert (∀ v, outer parents v = true ↔ ∃ l, route es sources v l ∧ avoids barriers l) as Hout.
  { intros v. rewrite outer_found. apply Hfound; [set_solver|done]. }
  assert (∀ b, inner parents b = true ↔ b ∈ sources ∨ ∃ a, (a, b) ∈ es ∧ outer parents a = true) as Hin.
  { intros b. unfold inner. rewrite orb_true_iff, bool_decide_eq_true, existsb_exists. f_equiv. split.
    - intros ([a b'] & He%list_elem_of_In & [Ho E%Nat.eqb_eq]%andb_true_iff). simpl in *. subst. eauto.
    - intros (a & He%list_elem_of_In & Ho). exists (a, b). simpl. by rewrite Ho, Nat.eqb_refl. }
  assert (uncut (barrier_side parents)) as Hun.
  { intros u v [a b Hab|b Hb|a Ha].
    - destruct (link_bound _ _ Hab). rewrite side_outer, side_inner by done. intros Ho. apply Hin. eauto.
    - intros _. rewrite side_inner by auto. apply Hin. by left.
    - rewrite side_outer by auto. intros (l & Hl & Hav)%Hout.
      destruct (not_avoids barriers l) as [_ Hna]. destruct (Hna (Hsep a l Ha Hl) Hav). }
  assert (barrier_side parents source = true) as Hss by (unfold barrier_side; by rewrite Nat.eqb_refl).
  assert (barrier_side parents sink = false) as Hst.
  { unfold barrier_side. rewrite (proj2 (Nat.eqb_neq _ _)) by (unfold source, sink; lia). by rewrite Nat.eqb_refl. }
  assert (source < vertices ∧ sink < vertices)%nat as [Hsb Htb] by (unfold vertices, source, sink; lia).
  etrans; [apply (value_le_cut vertices source sink capacity Hsb Htb value residual (barrier_side parents) Hr Hss Hst)|].
  rewrite (crossing_uncut _ Hun), cost_of_range by set_solver.
  apply range_sum_le. intros a Ha. rewrite side_inner, side_outer by done.
  assert (0 ≤ if decide (a ∈ barriers) then default 0 (costs !! a) else 0) as Hpos.
  { case_decide as Hab; [|done]. rewrite <-price_eligible by set_solver. apply Hprice. }
  destruct (inner parents a) eqn:Ei; [|done]. destruct (outer parents a) eqn:Eo; [done|]. simpl.
  assert (a ∈ barriers) as Hab.
  { apply dec_stable. intros Hab. assert (outer parents a = true); [|congruence]. apply Hout.
    apply Hin in Ei as [Hs'|(u & Hua & (l & Hl & Hav)%Hout)].
    - exists [a]. split; [exists a; split; [done|constructor]|]. intros x ->%list_elem_of_singleton. done.
    - exists (l ++ [a]). split; [by apply route_snoc with u|].
      intros x [Hx| ->%list_elem_of_singleton]%elem_of_app; [by apply Hav|done]. }
  rewrite decide_True by done. rewrite price_eligible by set_solver. done.
Qed.

(** *** The barriers of a finished search *)

Context (residual : list Z) (parents : list (option nat)) (depth : nat → nat) (value : Z).
Context (Hresidual : residual_of vertices source sink capacity value (value_at vertices residual)).
Context (Hlength : length parents = vertices) (Hfree : parents !! sink = Some None).
Context (Hsearched : searching (residual_edge vertices residual) [source] parents depth []).
Context (Hvalue : value < infinite).

Lemma reached_sides : outer parents source = true ∧ outer parents sink = false.
Proof using All.
  split.
  - apply outer_found. exists source. by apply (fo_root _ _ _ _ (sg_forest _ _ _ _ _ Hsearched)); left.
  - unfold outer. by rewrite Hfree.
Qed.

Lemma reached_saturated : value = crossing vertices (outer parents) capacity.
Proof using All.
  destruct reached_sides as [Hs Ht].
  assert (source < vertices ∧ sink < vertices)%nat as [Hsb Htb] by (unfold vertices, source, sink; lia).
  apply (value_saturates vertices source sink capacity Hsb Htb value _ _ Hresidual Hs Ht).
  intros u v Hu Hv Eu%outer_found Ev.
  pose proof (rs_nonneg _ _ _ _ _ _ Hresidual u v Hu Hv).
  destruct (decide (0 < value_at vertices residual u v)) as [Hpos|]; [|lia].
  apply not_true_iff_false in Ev. destruct Ev. apply outer_found.
  apply (sg_closed _ _ _ _ _ Hsearched u v Eu); [apply not_elem_of_nil|]. by split.
Qed.

(** No expensive arc leaves the reached side: the cut would be worth more than
    the flow. *)
Lemma reached_uncut : uncut (outer parents).
Proof using All.
  intros u v Hh Eu. apply not_false_iff_true. intros Ev.
  destruct (hard_shape _ _ Hh) as (Hu & Hv & _).
  pose proof (crossing_term vertices (outer parents) capacity u v
    (λ u v Hu Hv, proj1 (capacity_bounds u v Hu Hv)) Hu Hv Eu Ev) as H.
  rewrite <-reached_saturated in H. unfold capacity in H.
  rewrite (nw_arc _ Hnetwork u v infinite) in H by (by constructor 2). lia.
Qed.

Lemma select_barriers_spec l :
  (∀ a, a ∈ l → (a < nodes)%nat) →
  ∃ barriers, select_barriers parents l = Ok barriers ∧
    ∀ a, a ∈ barriers ↔ a ∈ l ∧ outer parents (2 * a) = true ∧ outer parents (2 * a + 1) = false.
Proof using All.
  induction l as [|a l IH]; intros Hl; cbn [select_barriers]; munfold_goal.
  { exists ∅. split; [done|]. set_solver. }
  destruct IH as (barriers & -> & Hb); [intros; apply Hl; by right|].
  assert (a < nodes)%nat as Ha by (apply Hl; left). unfold is_barrier. munfold_goal.
  destruct (lookup_lt_is_Some_2 parents (2 * a)) as [i Hi]; [unfold vertices in Hlength; lia|].
  destruct (lookup_lt_is_Some_2 parents (2 * a + 1)) as [o Ho]; [unfold vertices in Hlength; lia|].
  assert (outer parents (2 * a) = (if i is Some _ then true else false)) as Ei by (unfold outer; rewrite Hi; by destruct i).
  assert (outer parents (2 * a + 1) = (if o is Some _ then true else false)) as Eo by (unfold outer; rewrite Ho; by destruct o).
  rewrite Hi. destruct i as [i|]; [rewrite Ho; destruct o as [o|]|]; cbv beta iota in Ei, Eo |- *;
    try case_bool_decide; try done; eexists; (split; [done|]);
    intros x; rewrite ?elem_of_union, elem_of_cons, ?elem_of_singleton, Hb;
    destruct (decide (x = a)) as [->|]; rewrite ?Ei, ?Eo; intuition (congruence || done).
Qed.

Context (barriers : gset nat) (Hdom : ∀ a, a ∈ dom costs → (a < nodes)%nat).
Context (Hbarriers : ∀ a, a ∈ barriers ↔
  a ∈ dom costs ∧ outer parents (2 * a) = true ∧ outer parents (2 * a + 1) = false).

(** A node that the cut splits is eligible: others cost too much. *)
Lemma reached_eligible a :
  (a < nodes)%nat → outer parents (2 * a) = true → outer parents (2 * a + 1) = false → a ∈ barriers.
Proof using All.
  intros Ha Ei Eo. apply Hbarriers. split; [|done]. apply dec_stable. intros Hno.
  assert (2 * a < vertices ∧ 2 * a + 1 < vertices)%nat as [H1 H2] by (unfold vertices; lia).
  pose proof (crossing_term vertices (outer parents) capacity _ _
    (λ u v Hu Hv, proj1 (capacity_bounds u v Hu Hv)) H1 H2 Ei Eo) as H.
  rewrite <-reached_saturated in H. unfold capacity in H.
  rewrite (nw_arc _ Hnetwork _ _ (price a)) in H by (by constructor).
  unfold price in H. rewrite (proj1 (not_elem_of_dom costs a)) in H by done. simpl in H. lia.
Qed.

Lemma reached_cost : cost_of barriers = value.
Proof using All.
  rewrite cost_of_range by (intros a [? _]%Hbarriers; by apply Hdom).
  rewrite reached_saturated, (crossing_uncut _ reached_uncut). apply range_sum_ext. intros a Ha.
  case_decide as Hb.
  - pose proof (proj1 (Hbarriers a) Hb) as (Hd & -> & ->). simpl. by rewrite price_eligible.
  - destruct (outer parents (2 * a)) eqn:Ei; [|done]. destruct (outer parents (2 * a + 1)) eqn:Eo; [done|].
    destruct Hb. by apply reached_eligible.
Qed.

Lemma reached_separates : separates es sources sinks barriers.
Proof using All.
  intros t l Ht (s & Hs & Hw). apply not_avoids. intros Hav.
  assert (outer parents (2 * s) = true) as Ei by (apply (reached_uncut source); [by constructor|apply reached_sides]).
  assert (s < nodes)%nat as Hsb by auto.
  assert (outer parents (2 * t + 1) = true) as Eo; [|].
  { clear Hs. revert Ei Hsb. induction Hw as [s|s u l t He Hw IH]; intros Ei Hsb.
    - apply not_false_iff_true. intros Eo. apply (Hav s); [left|]. by apply reached_eligible.
    - apply IH; [done|intros x Hx; apply Hav; by right| |by destruct (link_bound _ _ He)].
      apply (reached_uncut (2 * s + 1)%nat); [by constructor|].
      apply not_false_iff_true. intros Eo. apply (Hav s); [left|]. by apply reached_eligible. }
  destruct reached_sides as [_ Hsink'].
  rewrite (reached_uncut (2 * t + 1)%nat sink) in Hsink'; [done|by constructor|done].
Qed.
End network.
