(* ===== verification/MinimumCut.v ===== *)
(** * Least-cost barriers

    The theorems about [minimum_cost_cut] and [verify_cut_plan] of
    [crates/fa-reference/src/perimeter/coverage/synthesis.rs]: a plan is a
    separating set of eligible barriers that no other one undercuts, the other
    answers are exactly the cases in which there is none to be had, and a
    budget in proportion to the declared costs is enough. *)

From stdpp Require Import base tactics numbers list gmap sets sorting.
From S2P Require Import Prelude Bytes Judgment Graph Perimeter Forest Coverage Flow Synthesis CutNetwork.

Local Open Scope Z_scope.

(** ** Costs *)

Lemma node_values_inj s t : node_values s = node_values t → s = t.
Proof. intros E. apply set_eq. intros x. by rewrite <-!elem_of_node_values, E. Qed.

(** The sum over a map is the sum over its keys. *)
Lemma cost_of_dom costs : cost_of costs (dom costs) = sumZ (map_values costs).
Proof.
  unfold cost_of, map_values.
  assert (node_values (dom costs) ≡ₚ (entries costs).*1) as Hp.
  { apply NoDup_Permutation; [apply NoDup_node_values|apply entries_NoDup|]. intros a.
    rewrite elem_of_node_values, elem_of_dom, list_elem_of_fmap. split.
    - intros [x Hx]. exists (a, x). split; [done|]. by apply elem_of_entries.
    - intros ([a' x] & -> & Hx%elem_of_entries). by exists x. }
  rewrite Hp, <-list_fmap_compose. apply sumZ_fmap_ext.
  intros [a x] Hx%elem_of_entries. simpl. by rewrite Hx.
Qed.

Lemma selected_cost_eq costs l acc :
  (∀ a, a ∈ l → a ∈ dom costs) → (∀ a x, costs !! a = Some x → 0 ≤ x) →
  acc + sumZ ((λ a, default 0 (costs !! a)) <$> l) ≤ U128_MAX →
  selected_cost costs acc l = Ok (acc + sumZ ((λ a, default 0 (costs !! a)) <$> l)).
Proof.
  intros Hl Hpos. revert acc. induction l as [|a l IH]; intros acc Hs; cbn [selected_cost]; csimpl in Hs; csimpl; munfold_goal.
  { f_equal. lia. }
  destruct (proj1 (elem_of_dom costs a) (Hl a ltac:(left))) as [x Hx]. rewrite Hx in Hs |- *. simpl in Hs |- *.
  assert (0 ≤ sumZ ((λ a, default 0 (costs !! a)) <$> l)) as Hn.
  { apply sumZ_nonneg, Forall_fmap, Forall_forall. intros b _. simpl. destruct (costs !! b) eqn:E; [by eapply Hpos|done]. }
  unfold u128_checked_add. rewrite (proj2 (Z.leb_le _ _)) by lia.
  rewrite IH; [f_equal; lia|intros; apply Hl; by right|lia].
Qed.

Lemma cost_of_mono costs s t :
  s ⊆ t → (∀ a x, costs !! a = Some x → 0 ≤ x) → 0 ≤ cost_of costs s ≤ cost_of costs t.
Proof.
  intros Hst Hpos. assert (∀ a, 0 ≤ default 0 (costs !! a)) as Hd.
  { intros a. destruct (costs !! a) eqn:E; [by eapply Hpos|done]. }
  set (n := S (max_list (node_values t))).
  assert (∀ a, a ∈ t → (a < n)%nat) as Hn.
  { intros a Ha%elem_of_node_values. unfold n. pose proof (max_list_elem_of_le _ _ Ha). lia. }
  rewrite !(cost_of_range (nodes:=n)) by set_solver. split.
  - apply range_sum_nonneg. intros a _. case_decide; [apply Hd|done].
  - apply range_sum_le. intros a _. specialize (Hd a). repeat case_decide; try lia. set_solver.
Qed.

Lemma sumZ_bounded l bound : Forall (λ x, x ≤ bound) l → sumZ l ≤ len l * bound.
Proof. unfold len. induction 1; simpl; lia. Qed.

(** ** The solver *)

Section solver.
Context {nodes : nat} {es : list (nat * nat)} {g : Graph} (Hnew : graph_new nodes es = Ok g).
Context (declaration : CoverageDeclaration) (problem : CoverageProblem).
Context (Hproblem : coverage_problem_new g declaration = Ok problem).
Context (costs : gmap nat Z) (Hcosts : ∀ a x, costs !! a = Some x → is_u64 x).
Context (budget : CutBudget) (Hcounters : 0 ≤ cb_residual_scans budget ∧ 0 ≤ cb_augmentations budget).
Let sources := cd_sources declaration.
Let sinks := cd_sinks declaration.
Let candidates := cd_candidates declaration.
Let vertices := Z.of_nat (2 * nodes + 2).

(** The budget covers a search of every cell for each unit of cost. *)
Definition sufficient (total : Z) : Prop :=
  cb_residual_cells budget ≤ MAX_CUT_RESIDUAL_CELLS ∧ cb_residual_scans budget ≤ MAX_CUT_RESIDUAL_SCANS ∧
  cb_augmentations budget ≤ MAX_CUT_AUGMENTATIONS ∧
  vertices * vertices ≤ cb_residual_cells budget ∧ total ≤ cb_augmentations budget ∧
  vertices * vertices * (total + 1) ≤ cb_residual_scans budget.

(** A separating set of eligible barriers that no other one undercuts. *)
Definition least_barriers (barriers : gset nat) : Prop :=
  barriers ⊆ candidates ∧ separates es sources sinks barriers ∧
  ∀ other, other ⊆ candidates → separates es sources sinks other → cost_of costs barriers ≤ cost_of costs other.

Definition right_answer (answer : CutSynthesis) : Prop :=
  dom costs = candidates ∧
  match answer with
  | CutAlreadyUnreachable checked _ =>
    coverage_audit problem candidates = Ok checked ∧ ¬ some_route es sources sinks
  | CutImpossible checked _ =>
    coverage_audit problem candidates = Ok checked ∧ some_route es sources sinks ∧
    ¬ separates es sources sinks candidates
  | CutPlanned plan =>
    some_route es sources sinks ∧ least_barriers (plan_barriers plan) ∧
    coverage_certify problem (plan_barriers plan) = Ok (pl_certificate plan) ∧
    pl_costs plan = costs ∧ pl_total_cost plan = cost_of costs (plan_barriers plan)
  end.

Lemma graph_small : (nodes ≤ 128)%nat.
Proof using Hnew.
  unfold graph_new in Hnew. destruct (_ || _) eqn:E; [done|].
  apply orb_false_iff in E as [E _]. apply orb_false_iff in E as [_ E%Z.ltb_ge]. lia.
Qed.

Lemma costs_nonneg a x : costs !! a = Some x → 0 ≤ x.
Proof using Hcosts. intros H. by apply Hcosts in H as [? _]. Qed.

Section eligible.
Context (Hdom : dom costs = candidates).

Lemma candidate_bound a : a ∈ dom costs → (a < nodes)%nat.
Proof using All. rewrite Hdom. apply (admitted_problem Hnew declaration problem Hproblem). Qed.

Lemma cut_total_bounds : 0 ≤ cost_of costs candidates ≤ 128 * U64_MAX.
Proof using All.
  rewrite <-Hdom. split; [by apply (cost_of_mono costs _ _ (reflexivity _) costs_nonneg)|].
  rewrite cost_of_dom. etrans; [apply (sumZ_bounded _ U64_MAX)|].
  - apply Forall_map_values. intros a x Hx. by apply Hcosts in Hx as [_ ?].
  - assert (len (map_values costs) ≤ 128); [|lia]. unfold len, map_values.
    rewrite length_fmap, entries_length, <-size_dom. pose proof graph_small.
    pose proof (size_bounded (dom costs) nodes candidate_bound). lia.
Qed.

Lemma price_bounds a : 0 ≤ price costs (cost_of costs candidates + 1) a ≤ cost_of costs candidates + 1.
Proof using All.
  pose proof cut_total_bounds as Ht. unfold price. destruct (costs !! a) as [x|] eqn:E; simpl; [|lia].
  pose proof (costs_nonneg _ _ E). split; [done|].
  assert (cost_of costs {[a]} = x) as Hx.
  { unfold cost_of. assert (node_values {[a]} = [a]) as -> by (unfold node_values; by rewrite elements_singleton).
    simpl. rewrite E. simpl. lia. }
  assert ({[a]} ⊆ dom costs) as Hsub by (apply singleton_subseteq_l; by apply elem_of_dom_2 in E).
  pose proof (cost_of_mono costs _ _ Hsub costs_nonneg) as [_ Hle]. rewrite Hdom in Hle. lia.
Qed.

Let total := cost_of costs candidates.
Let size_ := (2 * nodes + 2)%nat.
Context (Hseparable : separates es sources sinks candidates).
Context (Hcaps : cb_residual_scans budget ≤ MAX_CUT_RESIDUAL_SCANS ∧ cb_augmentations budget ≤ MAX_CUT_AUGMENTATIONS).

(** The flow from an entered network to the selection. *)
Lemma solve_spec m work :
  network (nodes:=nodes) (es:=es) sources sinks costs (total + 1) m →
  cw_residual_scans work = 0 → cw_augmentations work = 0 →
  match augment_loop (S (Z.to_nat (cb_augmentations budget))) budget total (total + 1)
    size_ (2 * nodes) (2 * nodes + 1) m 0 work with
  | (Ok (parents, value), work') =>
    ∃ barriers, select_barriers parents (node_values candidates) = Ok barriers ∧
      selected_cost costs 0 (node_values barriers) = Ok value ∧
      cost_of costs barriers = value ∧ least_barriers barriers ∧
      cw_topology_audits work' = cw_topology_audits work ∧
      cw_independent_cut_checks work' = cw_independent_cut_checks work
  | (Err e, _) => e = Limit ∧ (cb_augmentations budget < total ∨
      cb_residual_scans budget < vertices * vertices * (total + 1))
  | (Panic, _) => False
  end.
Proof using All.
  intros Hm Hw1 Hw2.
  destruct (admitted_problem Hnew declaration problem Hproblem) as [_ [[_ Hs] [_ Ht] Hc Hdis]].
  pose proof (graph_new_spec _ _ _ Hnew) as Hg. pose proof cut_total_bounds as Htot. fold total in Htot.
  pose proof price_bounds as Hprice. fold total in Hprice.
  set (c := value_at size_ m).
  assert (∀ value residual, residual_of size_ (2 * nodes) (2 * nodes + 1) c value residual →
    ∀ other, other ⊆ candidates → separates es sources sinks other → value ≤ cost_of costs other) as Hdual.
  { intros value residual Hr other Hsub Hsep. rewrite <-Hdom in Hsub.
    apply (barriers_bound Hg sources sinks costs (total + 1) Hs Ht m Hm Hprice ltac:(lia) other value residual);
      [done| |apply candidate_bound|done|done]. rewrite Hdom. set_solver. }
  pose proof (augment_loop_spec budget size_ (2 * nodes) (2 * nodes + 1) c total) as Hloop.
  specialize (Hloop (proj1 Hcaps) (proj2 Hcaps) ltac:(unfold size_; lia) ltac:(unfold size_; lia) ltac:(lia)).
  specialize (Hloop (proj1 Htot) ltac:(lia)).
  specialize (Hloop (λ u v Hu Hv, proj2 (capacity_bounds Hg sources sinks costs (total + 1) Hs Ht m Hm Hprice ltac:(lia) u v Hu Hv))).
  specialize (Hloop (λ value residual Hr, Hdual value residual Hr candidates (reflexivity _) Hseparable)).
  specialize (Hloop (S (Z.to_nat (cb_augmentations budget))) m 0 work (en_length _ _ _ _ _ (nw_entered _ _ _ _ _ Hm))).
  specialize (Hloop (residual_start Hg sources sinks costs (total + 1) Hs Ht m Hm Hprice ltac:(lia))).
  rewrite Hw1, Hw2 in Hloop. specialize (Hloop ltac:(lia) ltac:(lia) ltac:(lia) ltac:(lia)).
  destruct (augment_loop _ _ _ _ _ _ _ _ _ _) as [[[parents value]|e|] work']; [| |done].
  2: { destruct Hloop as [-> [?|H]]; split; [done|by left|done|right].
       unfold vertices. fold size_. nia. }
  destruct Hloop as (residual' & depth & Hlen & Hr & Hlp & Hfree & Hsearched & Ha1 & Ha2).
  pose proof (Hdual value _ Hr candidates (reflexivity _) Hseparable) as Hvalue. fold total in Hvalue.
  destruct (select_barriers_spec Hg sources sinks costs (total + 1) Hs Ht m Hm Hprice ltac:(lia)
    residual' parents depth value Hr Hlp Hfree Hsearched ltac:(lia) (node_values candidates)) as (barriers & Hsel & Hb).
  { intros a Hin%elem_of_node_values. by apply Hc. }
  assert (∀ a, a ∈ barriers ↔ a ∈ dom costs ∧ outer parents (2 * a) = true ∧ outer parents (2 * a + 1) = false) as Hb'.
  { intros a. by rewrite Hb, elem_of_node_values, Hdom. }
  assert (cost_of costs barriers = value) as Hcost.
  { apply (reached_cost Hg sources sinks costs (total + 1) Hs Ht m Hm Hprice ltac:(lia) residual' parents depth value
      Hr Hlp Hfree Hsearched ltac:(lia) barriers candidate_bound Hb'). }
  exists barriers. split_and!; [done| |done| |done|done].
  - rewrite selected_cost_eq; [f_equal; exact Hcost| |apply costs_nonneg|].
    + intros a Ha%elem_of_node_values. by apply Hb'.
    + fold (cost_of costs barriers). lia.
  - split_and!.
    + intros a Ha%Hb'. rewrite <-Hdom. apply Ha.
    + apply (reached_separates Hg sources sinks costs (total + 1) Hs Ht m Hm Hprice ltac:(lia) residual' parents depth value
        Hr Hlp Hfree Hsearched ltac:(lia) barriers candidate_bound Hb').
    + intros other Hsub Hsep. rewrite Hcost. by apply (Hdual value _ Hr).
Qed.
End eligible.

Lemma synthesize_spec :
  match synthesize problem costs budget cut_work_default with
  | (Ok answer, _) => right_answer answer
  | (Err e, _) => (e = Binding ∧ dom costs ≠ candidates) ∨
      (e = Limit ∧ ¬ sufficient (cost_of costs candidates))
  | (Panic, _) => False
  end.
Proof using All.
  pose proof (admitted_problem Hnew declaration problem Hproblem) as [Hp _].
  assert (cp_declaration problem = declaration ∧ cp_graph problem = g) as [Hpd Hpg] by (by rewrite Hp).
  unfold synthesize. remember (S (Z.to_nat (cb_augmentations budget))) as fuel eqn:Hfuel. rewrite Hpd, Hpg. munfold_goal. rewrite (go_length _ _ _ (graph_new_spec _ _ _ Hnew)).
  set (source := (2 * nodes)%nat).
  destruct (Z.ltb_spec MAX_CUT_RESIDUAL_CELLS (cb_residual_cells budget)); simpl;
    [right; split; [done|]; intros (? & _); lia|].
  destruct (Z.ltb_spec MAX_CUT_RESIDUAL_SCANS (cb_residual_scans budget)); simpl;
    [right; split; [done|]; intros (_ & ? & _); lia|].
  destruct (Z.ltb_spec MAX_CUT_AUGMENTATIONS (cb_augmentations budget)); simpl;
    [right; split; [done|]; intros (_ & _ & ? & _); lia|].
  destruct (negb (size costs =? size (cd_candidates declaration))%nat || _) eqn:Ekeys.
  { left. split; [done|]. intros E. apply orb_true_iff in Ekeys as [Ek|Ek]; revert Ek; rewrite negb_true_iff.
    - rewrite <-size_dom, E. unfold candidates. by rewrite Nat.eqb_refl.
    - rewrite bool_decide_eq_false, E. done. }
  apply orb_false_iff in Ekeys as [_ Ekeys%negb_false_iff%bool_decide_eq_true%node_values_inj].
  fold candidates in Ekeys |- *.
  destruct (audit_eligible Hnew declaration problem Hproblem candidates (reflexivity _)) as (statuses & Haudit & Hdom & Hall).
  set (all := mkCoverageAudit (cd_identity declaration) candidates statuses) in *. rewrite Haudit.
  unfold charge_audit, charge_check, record_cells. munfold_goal. unfold u64_add. simpl.
  pose proof (active_sinks_spec es sources sinks candidates all Hdom Hall) as Hactive.
  pose proof (has_bypass_spec es sources sinks candidates all Hdom Hall) as Hbypass.
  destruct (Nat.eqb_spec (active_sinks all) 0) as [E|E].
  { split; [done|]. split; [done|]. by intros ?%Hactive. }
  destruct (has_bypass all) eqn:Eb.
  { split; [done|]. split_and!; [done|by apply Hactive|]. intros Hsep%Hbypass. congruence. }
  destruct (Z.ltb_spec (cb_residual_cells budget) (Z.of_nat ((source + 2) * (source + 2)))) as [Hcells|Hcells].
  { right. split; [done|]. intros (_ & _ & _ & ? & _). unfold vertices, source in *. lia. }
  subst source. pose proof (cut_total_bounds Ekeys) as Htot.
  rewrite u128_try_sum_eq, Z.add_0_l, <-cost_of_dom, Ekeys.
  2: { apply Forall_map_values. intros a x. apply costs_nonneg. }
  2: { rewrite <-cost_of_dom, Ekeys. lia. }
  set (total := cost_of costs candidates) in *. unfold u128_checked_add. rewrite (proj2 (Z.leb_le _ _)) by lia.
  destruct (admitted_problem Hnew declaration problem Hproblem) as [_ [[_ Hs] [_ Ht] Hc _]].
  destruct (network_built (graph_new_spec _ _ _ Hnew) sources sinks costs (total + 1) Hs Ht)
    as (m1 & m2 & m3 & Hm1 & Hm2 & Hm3 & Hm).
  fold sources sinks. rewrite Hm1, Hm2, Hm3.
  pose proof (solve_spec Ekeys (proj1 Hbypass eq_refl) ltac:(lia) m3) as Hsolve.
  fold total in Hsolve. rewrite <-Hfuel in Hsolve.
  match goal with |- context [augment_loop _ _ _ _ _ _ _ _ _ ?w] => specialize (Hsolve w Hm eq_refl eq_refl) end.
  destruct (augment_loop _ _ _ _ _ _ _ _ _ _) as [[[parents value]|e|] work']; [| |done].
  2: { right. destruct Hsolve as [-> Hs']. split; [done|]. intros (_ & _ & _ & _ & ? & ?). lia. }
  destruct Hsolve as (barriers & -> & -> & Hcost & Hleast & Ha1 & Ha2).
  rewrite Z.eqb_refl. simpl.
  assert (some_route es sources sinks) as Hroute by (by apply Hactive).
  destruct Hleast as (Hsub & Hsep & Hleast).
  destruct (audit_eligible Hnew declaration problem Hproblem barriers Hsub) as (st & Hst & _).
  assert (coverage_certify problem barriers = Ok (mkCoverageCertificate problem
    (mkCoverageAudit (cd_identity declaration) barriers st))) as Hcert.
  { apply (certify_spec Hnew declaration problem Hproblem). eauto 8. }
  rewrite Hcert. rewrite Ha1. simpl. rewrite Ha2. simpl.
  split; [done|]. split_and!; [done|by split_and!|done|done|done].
Qed.
End solver.

(** ** Properties *)

(** C10: [minimum_cost_cut] over an admitted problem never aborts and is exact.
    A plan consists of eligible barriers that cut every path, certified, whose
    declared cost no other such set undercuts; "already unreachable" is
    answered only when no path leads to a sink; "impossible" only when paths
    exist and some avoid every eligible site; it is refused only for costs that
    are not those of the eligible sites, or when a counter of the budget is
    above its maximum or less than a search of every cell for each unit of the
    total cost and one more. *)
Theorem minimum_cost_cut_exact (nodes : nat) (es : list (nat * nat)) (g : Graph)
    (declaration : CoverageDeclaration) (problem : CoverageProblem) (costs : gmap nat Z) (budget : CutBudget) :
  graph_new nodes es = Ok g → coverage_problem_new g declaration = Ok problem →
  (∀ a x, costs !! a = Some x → is_u64 x) →
  0 ≤ cb_residual_scans budget → 0 ≤ cb_augmentations budget →
  match minimum_cost_cut problem costs budget with
  | Ok answer => right_answer (es:=es) declaration problem costs answer
  | Err failure =>
    (cf_error failure = Binding ∧ dom costs ≠ cd_candidates declaration) ∨
    (cf_error failure = Limit ∧ ¬ sufficient (nodes:=nodes) budget (cost_of costs (cd_candidates declaration)))
  | Panic => False
  end.
Proof.
  intros Hnew Hp Hcosts Hb1 Hb2. unfold minimum_cost_cut.
  pose proof (synthesize_spec Hnew declaration problem Hp costs Hcosts budget (conj Hb1 Hb2)) as H.
  destruct (synthesize _ _ _ _) as [[answer|e|] work]; simpl; [done| |done].
  done.
Qed.

(** A budget in proportion to the declared costs is enough.  Every
    augmentation adds at least one unit of cost to the flow and takes at most
    one look at every cell, so with as many augmentations as the total cost,
    and a scan of the matrix for each and one more, the solver answers. *)
Theorem sufficient_budget_answers (nodes : nat) (es : list (nat * nat)) (g : Graph)
    (declaration : CoverageDeclaration) (problem : CoverageProblem) (costs : gmap nat Z) (budget : CutBudget) :
  graph_new nodes es = Ok g → coverage_problem_new g declaration = Ok problem →
  (∀ a x, costs !! a = Some x → is_u64 x) → dom costs = cd_candidates declaration →
  let cells := Z.of_nat (2 * nodes + 2) * Z.of_nat (2 * nodes + 2) in
  let total := sumZ (map_values costs) in
  cells ≤ cb_residual_cells budget ≤ MAX_CUT_RESIDUAL_CELLS →
  cells * (total + 1) ≤ cb_residual_scans budget ≤ MAX_CUT_RESIDUAL_SCANS →
  total ≤ cb_augmentations budget ≤ MAX_CUT_AUGMENTATIONS →
  ∃ answer, minimum_cost_cut problem costs budget = Ok answer ∧
    ((∃ plan, answer = CutPlanned plan) ↔
     some_route es (cd_sources declaration) (cd_sinks declaration) ∧
     separates es (cd_sources declaration) (cd_sinks declaration) (cd_candidates declaration)).
Proof.
  intros Hnew Hp Hcosts Hdom cells total Hcells Hscans Haug.
  assert (0 ≤ total) as Ht.
  { apply sumZ_nonneg, Forall_map_values. intros a x Hx. by apply Hcosts in Hx as [? _]. }
  assert (0 ≤ cb_residual_scans budget ∧ 0 ≤ cb_augmentations budget) as Hpos by (unfold cells in *; nia).
  pose proof (synthesize_spec Hnew declaration problem Hp costs Hcosts budget Hpos) as H.
  unfold minimum_cost_cut. destruct (synthesize _ _ _ _) as [[answer|e|] work]; simpl; [|exfalso|done].
  - exists answer. split; [done|]. destruct H as [_ H]. destruct answer as [a w|a w|plan].
    + split; [by intros [? ?]|]. intros [Hr _]. by destruct H as [_ []].
    + split; [by intros [? ?]|]. intros [_ Hs]. by destruct H as (_ & _ & []).
    + split; [|by eexists]. intros _. destruct H as (Hr & (Hsub & Hsep & _) & _). split; [done|].
      intros sink l Hsink Hl. destruct (Hsep sink l Hsink Hl) as (x & Hx & Hb). exists x. split; [done|by apply Hsub].
  - destruct H as [[_ Hno]|[_ Hno]]; [done|]. apply Hno. unfold sufficient.
    rewrite <-Hdom, cost_of_dom. fold total. unfold cells in *. split_and!; lia.
Qed.

(** [verify_cut_plan] accepts a plan only when its barriers are, for the
    current topology and the current costs, certified and of least cost, and
    it accepts every plan that [minimum_cost_cut] proposes. *)
Theorem verified_plans_are_least (nodes : nat) (es : list (nat * nat)) (g : Graph)
    (declaration : CoverageDeclaration) (problem : CoverageProblem) (costs : gmap nat Z) (budget : CutBudget)
    (plan : CutPlan) :
  graph_new nodes es = Ok g → coverage_problem_new g declaration = Ok problem →
  (∀ a x, costs !! a = Some x → is_u64 x) →
  0 ≤ cb_residual_scans budget → 0 ≤ cb_augmentations budget →
  (verify_cut_plan problem plan costs budget = Ok tt →
     least_barriers (es:=es) declaration costs (plan_barriers plan) ∧
     pl_total_cost plan = cost_of costs (plan_barriers plan) ∧
     coverage_certify problem (plan_barriers plan) = Ok (pl_certificate plan)) ∧
  (minimum_cost_cut problem costs budget = Ok (CutPlanned plan) →
     verify_cut_plan problem plan costs budget = Ok tt).
Proof.
  intros Hnew Hp Hcosts Hb1 Hb2.
  pose proof (synthesize_spec Hnew declaration problem Hp costs Hcosts budget (conj Hb1 Hb2)) as H.
  unfold verify_cut_plan, minimum_cost_cut in *.
  destruct (synthesize _ _ _ _) as [[answer|e|] work]; simpl; [| |done].
  2: { rewrite refuse_ok. split; [by intros [_ [=]]|done]. }
  rewrite refuse_ok. destruct H as [_ H]. destruct answer as [a w|a w|checked].
  1,2: split; [by intros [_ [=]]|by intros [=]].
  destruct H as (_ & Hleast & Hcert & Hc & Hcost). split.
  - intros [_ Hr]. destruct (Z.eqb_spec (pl_total_cost checked) (pl_total_cost plan)) as [Et|]; [|done].
    case_bool_decide as Ec; [|done]. clear Hr.
    assert (plan_barriers checked = plan_barriers plan) as Eb by (unfold plan_barriers; congruence).
    rewrite <-Eb, <-Et, <-Ec. done.
  - intros [= ->].
    apply (certify_spec Hnew declaration problem Hp) in Hcert as (_ & _ & _ & checked & _ & Hcert).
    rewrite Hc, Hcert, Z.eqb_refl, !bool_decide_eq_true_2 by done. done.
Qed.

(** A diamond whose sides are cheap one by one and dear together. *)
Definition example_edges : list (nat * nat) := [(0, 1); (0, 2); (1, 3); (2, 3); (3, 4)]%nat.
Definition example_graph : Graph := mkGraph [[1; 2]; [3]; [3]; [4]; []]%nat.
Definition example_problem : CoverageProblem := mkCoverageProblem example_graph example_declaration.
Definition example_costs : gmap nat Z := {[1%nat := 3; 2%nat := 4; 3%nat := 5]}.
Definition example_budget : CutBudget := mkCutBudget 1000 50000 20.

Lemma example_costs_u64 a x : example_costs !! a = Some x → is_u64 x.
Proof.
  unfold example_costs, is_u64. rewrite !lookup_insert_Some, lookup_singleton_Some. intros. lia.
Qed.

Lemma example_built :
  graph_new 5 example_edges = Ok example_graph ∧
  coverage_problem_new example_graph example_declaration = Ok example_problem.
Proof. by vm_compute. Qed.

Lemma minimum_cost_cut_exact_witness :
  ∃ plan, minimum_cost_cut example_problem example_costs example_budget = Ok (CutPlanned plan) ∧
    plan_barriers plan = {[3%nat]} ∧
    (∀ other, other ⊆ cd_candidates example_declaration →
       separates example_edges {[0%nat]} {[4%nat]} other → 5 ≤ cost_of example_costs other).
Proof.
  destruct (minimum_cost_cut example_problem example_costs example_budget) as [[a w|a w|plan]|f|] eqn:E;
    [by vm_compute in E..| |by vm_compute in E|by vm_compute in E].
  exists plan. split; [done|].
  pose proof (minimum_cost_cut_exact 5 example_edges example_graph example_declaration example_problem example_costs
    example_budget (proj1 example_built) (proj2 example_built) example_costs_u64 ltac:(done) ltac:(done)) as H.
  rewrite E in H. destruct H as (_ & _ & (_ & _ & Hleast) & _).
  assert (plan_barriers plan = {[3%nat]}) as Hb.
  { vm_compute in E. injection E as <-. by vm_compute. }
  split; [done|]. intros other Hsub Hsep. specialize (Hleast other Hsub Hsep). by rewrite Hb in Hleast.
Defined.

Lemma sufficient_budget_answers_witness :
  ∃ answer, minimum_cost_cut example_problem example_costs example_budget = Ok answer.
Proof.
  destruct (sufficient_budget_answers 5 example_edges example_graph example_declaration example_problem example_costs
    example_budget (proj1 example_built) (proj2 example_built) example_costs_u64 ltac:(by vm_compute)
    ltac:(by vm_compute) ltac:(by vm_compute) ltac:(by vm_compute)) as (answer & H & _).
  by exists answer.
Defined.

Lemma verified_plans_are_least_witness :
  ∃ plan, verify_cut_plan example_problem plan example_costs example_budget = Ok tt ∧
    pl_total_cost plan = cost_of example_costs (plan_barriers plan).
Proof.
  destruct (minimum_cost_cut example_problem example_costs example_budget) as [[a w|a w|plan]|f|] eqn:E;
    [by vm_compute in E..| |by vm_compute in E|by vm_compute in E].
  exists plan.
  destruct (verified_plans_are_least 5 example_edges example_graph example_declaration example_problem example_costs
    example_budget plan (proj1 example_built) (proj2 example_built) example_costs_u64 ltac:(done) ltac:(done)) as [H1 H2].
  specialize (H2 E). split; [done|]. apply (H1 H2).
Defined.
