(* ===== verification/Utf8.v ===== *)
(** * Characters of a string

    A Rust [str] is valid UTF-8.  Here it is taken apart into characters, the
    encodings of its scalar values: what [chars], [char_indices], slicing at a
    byte index and [String::push] do. *)

From Stdlib Require Import Strings.Byte.
From stdpp Require Import base tactics numbers list.
From S2P Require Import Prelude Bytes.

Local Open Scope Z_scope.

(** ** Model *)

(** The encoding of one scalar value. *)
Definition is_char (c : bytes) : bool :=
  match c with
  | [b0] => in_range 0 127 b0
  | [b0; b1] => in_range 194 223 b0 && utf8_tail b1
  | [b0; b1; b2] => in_range 224 239 b0 && utf8_second b0 b1 && utf8_tail b2
  | [b0; b1; b2; b3] => in_range 240 244 b0 && utf8_second b0 b1 && utf8_tail b2 && utf8_tail b3
  | _ => false
  end.

(** The length that a leading byte announces. *)
Definition char_width (b0 : byte) : nat :=
  if in_range 0 127 b0 then 1 else if in_range 194 223 b0 then 2 else if in_range 224 239 b0 then 3 else 4.

(** [chars()]: a character ends where the next byte is no continuation byte. *)
Fixpoint chars (bs : bytes) : list bytes :=
  match bs with
  | [] => []
  | b :: rest =>
    match chars rest with
    | c :: cs => if from_option utf8_tail false (head rest) then (b :: c) :: cs else [b] :: c :: cs
    | [] => [[b]]
    end
  end.

(** [chars().count()]: the bytes that are not continuation bytes. *)
Definition chars_count (bs : bytes) : Z := len (filter (λ b, utf8_tail b = false) bs).

(** [is_char_boundary] *)
Definition is_char_boundary (bs : bytes) (index : nat) : bool :=
  match bs !! index with
  | Some b => (index =? 0)%nat || negb (utf8_tail b)
  | None => (index =? length bs)%nat
  end.

(** [char::from_u32] *)
Definition char_from_u32 (scalar : Z) : option Z :=
  if ((scalar <? 55296) || (57343 <? scalar)) && (scalar <=? 1114111) then Some scalar else None.

(** [char::encode_utf8] *)
Definition encode_utf8 (scalar : Z) : bytes :=
  if scalar <? 128 then [byte_of scalar]
  else if scalar <? 2048 then [byte_of (192 + scalar / 64); byte_of (128 + scalar mod 64)]
  else if scalar <? 65536 then
    [byte_of (224 + scalar / 4096); byte_of (128 + scalar / 64 mod 64); byte_of (128 + scalar mod 64)]
  else [byte_of (240 + scalar / 262144); byte_of (128 + scalar / 4096 mod 64);
        byte_of (128 + scalar / 64 mod 64); byte_of (128 + scalar mod 64)].

(** [Utf8Error::valid_up_to]: the length of the longest valid prefix. *)
Fixpoint valid_up_to (fuel : nat) (bs : bytes) : nat :=
  match fuel, bs with
  | S fuel, b :: _ =>
    let w := char_width b in
    if is_char (take w bs) then (w + valid_up_to fuel (drop w bs))%nat else O
  | _, _ => O
  end.

(** ** Characters *)

Lemma utf8_valid_char c bs : is_char c = true → utf8_valid (c ++ bs) = utf8_valid bs.
Proof.
  destruct c as [|b0 [|b1 [|b2 [|b3 [|]]]]]; simpl; try done; unfold in_range.
  - intros ->. done.
  - intros [H1 H2]%andb_true_iff. rewrite H2. destruct (Z.leb_spec (byte_val b0) 127); [lia|].
    rewrite andb_false_r, H1. done.
  - intros [[H1 H2]%andb_true_iff H3]%andb_true_iff. rewrite H2, H3.
    destruct (Z.leb_spec (byte_val b0) 127), (Z.leb_spec (byte_val b0) 223); try lia.
    rewrite !andb_false_r, H1. done.
  - intros [[[H1 H2]%andb_true_iff H3]%andb_true_iff H4]%andb_true_iff. rewrite H2, H3, H4.
    destruct (Z.leb_spec (byte_val b0) 127), (Z.leb_spec (byte_val b0) 223), (Z.leb_spec (byte_val b0) 239); try lia.
    rewrite !andb_false_r, H1. done.
Qed.

(** A valid string starts with a character. *)
Lemma utf8_valid_cons b bs :
  utf8_valid (b :: bs) = true → ∃ c rest, b :: bs = c ++ rest ∧ is_char c = true ∧ utf8_valid rest = true ∧
    length c = char_width b.
Proof.
  cbn [utf8_valid]. unfold char_width. destruct (in_range 0 127 b) eqn:H0.
  { intros H. exists [b], bs. split_and!; done. }
  destruct (in_range 194 223 b) eqn:H1.
  { destruct bs as [|b1 bs]; [done|]. intros [? ?]%andb_true_iff. exists [b; b1], bs. simpl.
    split_and!; try done; by rewrite H1. }
  destruct (in_range 224 239 b) eqn:H2.
  { destruct bs as [|b1 [|b2 bs]]; [done..|]. intros [[Ha Hb]%andb_true_iff ?]%andb_true_iff. exists [b; b1; b2], bs. simpl.
    split_and!; try done; by rewrite H2, Ha, Hb. }
  destruct (in_range 240 244 b) eqn:H3; [|done].
  destruct bs as [|b1 [|b2 [|b3 bs]]]; [done..|].
  intros [[[Ha Hb]%andb_true_iff Hc]%andb_true_iff ?]%andb_true_iff. exists [b; b1; b2; b3], bs. simpl.
  split_and!; try done; by rewrite H3, Ha, Hb, Hc.
Qed.

Lemma is_char_nonempty c : is_char c = true → c ≠ [].
Proof. by intros H ->. Qed.

Lemma is_char_width b c : is_char (b :: c) = true → char_width b = length (b :: c).
Proof.
  unfold char_width. destruct c as [|b1 [|b2 [|b3 [|]]]]; simpl; unfold in_range; try done; intros H;
    repeat (apply andb_true_iff in H as [H ?]); repeat case_match; try done; lia.
Qed.

(** The characters of a string are those of its start and of its rest. *)
Lemma is_char_tails b c : is_char (b :: c) = true → Forall (λ b, utf8_tail b = true) c.
Proof.
  destruct c as [|b1 [|b2 [|b3 [|]]]]; simpl; try done; intros H;
    repeat (apply andb_true_iff in H as [H ?]).
  - by repeat constructor.
  - repeat constructor; [|done]. unfold utf8_second, utf8_tail, in_range in *. repeat case_match; lia.
  - repeat constructor; [|done..]. unfold utf8_second, utf8_tail, in_range in *. repeat case_match; lia.
Qed.

Lemma chars_nonempty b bs : chars (b :: bs) ≠ [].
Proof. cbn [chars]. by repeat case_match. Qed.

Lemma chars_char c bs :
  is_char c = true → from_option utf8_tail false (head bs) = false → chars (c ++ bs) = c :: chars bs.
Proof.
  destruct c as [|b c]; [done|]. intros Ht%is_char_tails Hh.
  revert b. induction Ht as [|b1 c Hb Ht IH]; intros b.
  - cbn [app]. destruct bs as [|b1 bs]; [done|]. pose proof (chars_nonempty b1 bs) as Hne.
    remember (b1 :: bs) as rest eqn:Hrest. cbn [chars]. rewrite Hh. by destruct (chars rest).
  - change ((b :: b1 :: c) ++ bs) with (b :: (b1 :: c) ++ bs). cbn [chars]. rewrite IH. simpl. by rewrite Hb.
Qed.

Lemma chars_count_app xs ys : chars_count (xs ++ ys) = chars_count xs + chars_count ys.
Proof. unfold chars_count. by rewrite filter_app, len_app. Qed.

(** Induction on the characters of a string. *)
Lemma utf8_ind (P : bytes → Prop) :
  P [] → (∀ c bs, is_char c = true → utf8_valid bs = true → P bs → P (c ++ bs)) →
  ∀ bs, utf8_valid bs = true → P bs.
Proof.
  intros Hnil Hchar bs. remember (length bs) as n eqn:Hn. revert bs Hn.
  induction (lt_wf n) as [n _ IH]. intros bs -> Hv. destruct bs as [|b bs]; [done|].
  destruct (utf8_valid_cons b bs Hv) as (c & rest & Heq & Hc & Hrest & _). rewrite Heq. apply Hchar; [done..|].
  apply (IH (length rest)); [|done..]. rewrite Heq, length_app. apply is_char_nonempty in Hc. destruct c; [done|simpl; lia].
Qed.

Lemma utf8_valid_app xs ys : utf8_valid xs = true → utf8_valid (xs ++ ys) = utf8_valid ys.
Proof.
  intros Hx. pattern xs. revert xs Hx. apply utf8_ind; [done|]. intros c bs Hc _ IH.
  by rewrite <-app_assoc, utf8_valid_char.
Qed.

(** What follows a valid prefix of a valid string is valid. *)
Lemma utf8_valid_drop xs ys : utf8_valid xs = true → utf8_valid (xs ++ ys) = true → utf8_valid ys = true.
Proof. intros Hx. by rewrite utf8_valid_app. Qed.

(** The first byte of a character is no continuation byte. *)
Lemma is_char_head b c : is_char (b :: c) = true → utf8_tail b = false.
Proof.
  unfold utf8_tail, in_range. destruct c as [|b1 [|b2 [|b3 [|]]]]; simpl; unfold in_range; try done; intros H;
    repeat (apply andb_true_iff in H as [H ?]); apply andb_false_iff; rewrite !Z.leb_gt; lia.
Qed.

Lemma utf8_valid_head b bs : utf8_valid (b :: bs) = true → utf8_tail b = false.
Proof.
  intros (c & rest & Heq & Hc & _)%utf8_valid_cons. destruct c as [|b' c]; [done|]. injection Heq as <- _.
  by eapply is_char_head.
Qed.

Lemma utf8_valid_start bs : utf8_valid bs = true → from_option utf8_tail false (head bs) = false.
Proof. destruct bs as [|b bs]; [done|]. apply utf8_valid_head. Qed.

Lemma chars_cons c bs : is_char c = true → utf8_valid bs = true → chars (c ++ bs) = c :: chars bs.
Proof. intros Hc Hv. apply chars_char; [done|]. by apply utf8_valid_start. Qed.

Lemma chars_count_char c : is_char c = true → chars_count c = 1.
Proof.
  destruct c as [|b c]; [done|]. intros Hc. pose proof (is_char_head b c Hc) as Hb. apply is_char_tails in Hc.
  unfold chars_count. rewrite filter_cons_True by done.
  assert (filter (λ b, utf8_tail b = false) c = []) as ->; [|done].
  induction Hc as [|b' c Hb' _ IH]; [done|]. by rewrite filter_cons_False by congruence.
Qed.

Lemma boundary_split xs ys : utf8_valid ys = true → is_char_boundary (xs ++ ys) (length xs) = true.
Proof.
  intros Hy. unfold is_char_boundary. rewrite lookup_app_r, Nat.sub_diag by done. destruct ys as [|b ys]; simpl.
  - by rewrite app_nil_r, Nat.eqb_refl.
  - apply utf8_valid_head in Hy. by rewrite Hy, orb_true_r.
Qed.

Lemma concat_chars bs : concat (chars bs) = bs.
Proof.
  induction bs as [|b bs IH]; [done|]. cbn [chars]. destruct (chars bs) as [|c cs] eqn:E.
  - simpl in *. by rewrite <-IH.
  - destruct (from_option _ _ _); simpl in *; by rewrite IH.
Qed.

(** A valid string is the concatenation of its characters. *)
Lemma chars_are_chars bs : utf8_valid bs = true → Forall (λ c, is_char c = true) (chars bs).
Proof.
  intros Hv. pattern bs. revert bs Hv. apply utf8_ind; [constructor|]. intros c bs Hc Hv IH.
  rewrite chars_cons by done. by constructor.
Qed.

Lemma concat_valid cs : Forall (λ c, is_char c = true) cs → utf8_valid (concat cs) = true.
Proof. induction 1 as [|c cs Hc _ IH]; simpl; [done|]. by rewrite utf8_valid_char. Qed.

Lemma chars_concat cs : Forall (λ c, is_char c = true) cs → chars (concat cs) = cs.
Proof.
  induction 1 as [|c cs Hc Hcs IH]; [done|]. simpl. rewrite chars_cons, IH; [done..|]. by apply concat_valid.
Qed.

(** The first [k] characters, and what follows them. *)
Lemma chars_split k bs :
  utf8_valid bs = true →
  let n := length (concat (take k (chars bs))) in
  take n bs = concat (take k (chars bs)) ∧ drop n bs = concat (drop k (chars bs)) ∧
  utf8_valid (take n bs) = true ∧ utf8_valid (drop n bs) = true ∧ chars (drop n bs) = drop k (chars bs).
Proof.
  intros Hv n. pose proof (chars_are_chars bs Hv) as Hcs.
  assert (bs = concat (take k (chars bs)) ++ concat (drop k (chars bs))) as Heq.
  { by rewrite <-concat_app, take_drop, concat_chars. }
  assert (take n bs = concat (take k (chars bs))) as Htake by (rewrite Heq at 1; apply take_app_length).
  assert (drop n bs = concat (drop k (chars bs))) as Hdrop by (rewrite Heq at 1; apply drop_app_length).
  rewrite Htake, Hdrop. split_and!; [done|done|apply concat_valid, Forall_take, Hcs|apply concat_valid, Forall_drop, Hcs|].
  apply chars_concat, Forall_drop, Hcs.
Qed.

(** A valid string splits where a character starts. *)
Lemma utf8_valid_split xs ys :
  utf8_valid (xs ++ ys) = true → from_option utf8_tail false (head ys) = false →
  utf8_valid xs = true ∧ utf8_valid ys = true.
Proof.
  remember (xs ++ ys) as bs eqn:Hbs. intros Hv. revert xs Hbs. pattern bs. revert bs Hv. apply utf8_ind.
  - intros xs Hbs Hh. symmetry in Hbs. by apply app_nil in Hbs as [-> ->].
  - intros c bs Hc Hv IH xs Hbs Hh. destruct xs as [|x xs]; [simpl in Hbs; subst; by rewrite utf8_valid_char|].
    apply app_eq_inv in Hbs as [(k & -> & ->)|(k & Heq & ->)].
    + destruct k as [|b k].
      { rewrite app_nil_r in Hc. split; [|done]. by rewrite <-(app_nil_r (x :: xs)), utf8_valid_char. }
      exfalso. apply is_char_tails in Hc as Ht. apply Forall_app in Ht as [_ Ht]. apply Forall_cons in Ht as [Ht _].
      simpl in Hh. congruence.
    + rewrite Heq. rewrite utf8_valid_char by done. by apply IH.
Qed.

(** An ASCII byte is a character. *)
Lemma ascii_char b : byte_val b ≤ 127 → is_char [b] = true.
Proof. intros Hb. pose proof (byte_val_range b). simpl. unfold in_range. lia. Qed.
Lemma ascii_valid b bs : byte_val b ≤ 127 → utf8_valid (b :: bs) = utf8_valid bs.
Proof. intros Hb. apply (utf8_valid_char [b]). by apply ascii_char. Qed.

(** A scalar value is encoded as one character. *)
Lemma encode_utf8_char scalar : is_Some (char_from_u32 scalar) → 0 ≤ scalar → is_char (encode_utf8 scalar) = true.
Proof.
  unfold char_from_u32. destruct (((scalar <? 55296) || (57343 <? scalar)) && (scalar <=? 1114111)) eqn:E; [|by intros []].
  intros _ Hs. apply andb_true_iff in E as [Hsur Hmax]. apply Z.leb_le in Hmax.
  assert (scalar < 55296 ∨ 57343 < scalar) as Hrange by lia. clear Hsur.
  assert (0 ≤ scalar mod 64 < 64 ∧ 0 ≤ scalar / 64 mod 64 < 64 ∧ 0 ≤ scalar / 4096 mod 64 < 64) as (M0 & M1 & M2)
    by (split_and!; apply Z.mod_pos_bound; done).
  unfold encode_utf8. destruct (Z.ltb_spec scalar 128).
  { apply ascii_char. rewrite byte_val_of, Z.mod_small; lia. }
  destruct (Z.ltb_spec scalar 2048).
  { assert (2 ≤ scalar / 64 < 32) by (Z.to_euclidean_division_equations; lia).
    simpl. unfold utf8_tail, in_range. rewrite !byte_val_of, !(Z.mod_small (_ + _)) by lia. lia. }
  destruct (Z.ltb_spec scalar 65536).
  { assert (0 ≤ scalar / 4096 < 16) by (Z.to_euclidean_division_equations; lia).
    assert (scalar / 4096 = 0 → 32 ≤ scalar / 64 mod 64) by (Z.to_euclidean_division_equations; lia).
    assert (scalar / 4096 = 13 → scalar / 64 mod 64 < 32) by (Z.to_euclidean_division_equations; lia).
    simpl. unfold utf8_second, utf8_tail, in_range. rewrite !byte_val_of, !(Z.mod_small (_ + _)) by lia.
    repeat case_match; lia. }
  assert (0 ≤ scalar / 262144 < 5) by (Z.to_euclidean_division_equations; lia).
  assert (scalar / 262144 = 0 → 16 ≤ scalar / 4096 mod 64) by (Z.to_euclidean_division_equations; lia).
  assert (scalar / 262144 = 4 → scalar / 4096 mod 64 < 16) by (Z.to_euclidean_division_equations; lia).
  simpl. unfold utf8_second, utf8_tail, in_range. rewrite !byte_val_of, !(Z.mod_small (_ + _)) by lia.
  repeat case_match; lia.
Qed.

(** [valid_up_to] ends at the boundary of a valid prefix. *)
Lemma valid_up_to_prefix fuel bs :
  (length bs ≤ fuel)%nat → utf8_valid (take (valid_up_to fuel bs) bs) = true ∧ (valid_up_to fuel bs ≤ length bs)%nat.
Proof.
  revert bs. induction fuel as [|fuel IH]; intros bs Hl; [by destruct bs; simpl in *; [|lia]|].
  destruct bs as [|b bs]; [done|]. cbn [valid_up_to]. destruct (is_char (take (char_width b) (b :: bs))) eqn:Hc; [|split; [done|lia]].
  assert (char_width b ≠ 0%nat) as Hw by (unfold char_width; repeat case_match; lia).
  assert (char_width b ≤ length (b :: bs))%nat as Hlen.
  { destruct (decide (char_width b ≤ length (b :: bs))%nat); [done|]. rewrite take_ge in Hc by lia.
    assert (utf8_valid (b :: bs) = true) as Hv by (rewrite <-(app_nil_r (b :: bs)), utf8_valid_char by done; done).
    apply utf8_valid_cons in Hv as (c & rest & Heq & _ & _ & Hcw). rewrite Heq, length_app. lia. }
  destruct (IH (drop (char_width b) (b :: bs))) as [IH1 IH2]; [rewrite length_drop; simpl in *; lia|].
  rewrite length_drop in IH2. split; [|lia].
  rewrite <-(take_drop (char_width b) (b :: bs)) at 2. rewrite take_app_add' by (rewrite length_take; lia).
  by rewrite utf8_valid_char.
Qed.
