(* ===== verification/Json.v ===== *)
(** * Strict JSON

    [crates/fa-reference/src/strict_json.rs]: the bounded parser shared by the
    reference formats.  A string is its UTF-8 bytes; the parser reads bytes at a
    position and moves over whole characters. *)

From Stdlib Require Import Strings.Byte.
From stdpp Require Import base tactics numbers list.
From S2P Require Import Prelude Bytes Decimal Utf8.

Local Open Scope Z_scope.

(** ** Model: values *)

Definition IMPLEMENTATION_MAX_DEPTH : Z := 128.

(** [Limits] *)
Record JsonLimits := mkJsonLimits {
  jl_max_bytes : Z;
  jl_max_depth : Z;
  jl_max_items : Z;
  jl_max_string_bytes : Z;
}.

Definition default_json_limits : JsonLimits := mkJsonLimits (64 * 1024 * 1024) 128 4000000 (8 * 1024 * 1024).

(** [Json]; a number is its lexeme, and a [BTreeMap] the list of its entries in
    the order of the keys. *)
Inductive Json :=
  | JNull
  | JBool (b : bool)
  | JNumber (lexeme : bytes)
  | JString (value : bytes)
  | JArray (values : list Json)
  | JObject (entries : list (bytes * Json)).

(** [BTreeMap::insert] *)
Fixpoint btree_insert {A} (key : bytes) (value : A) (entries : list (bytes * A)) : list (bytes * A) :=
  match entries with
  | [] => [(key, value)]
  | (k, v) :: rest =>
    if bool_decide (k = key) then (key, value) :: rest
    else if bytes_leb key k then (key, value) :: entries
    else (k, v) :: btree_insert key value rest
  end.

(** [BTreeMap::get] *)
Fixpoint btree_get {A} (key : bytes) (entries : list (bytes * A)) : option A :=
  match entries with
  | [] => None
  | (k, v) :: rest => if bool_decide (k = key) then Some v else btree_get key rest
  end.

Definition json_as_object (self : Json) : option (list (bytes * Json)) := match self with JObject v => Some v | _ => None end.
Definition json_as_array (self : Json) : option (list Json) := match self with JArray v => Some v | _ => None end.
Definition json_as_str (self : Json) : option bytes := match self with JString v => Some v | _ => None end.
Definition json_as_bool (self : Json) : option bool := match self with JBool v => Some v | _ => None end.

Definition json_get (self : Json) (key : bytes) : option Json := object ← json_as_object self; btree_get key object.
Definition number_as_u64 (lexeme : bytes) : option Z := u64_parse lexeme.
Definition json_as_u64 (self : Json) : option Z := match self with JNumber v => number_as_u64 v | _ => None end.
Definition json_is_null (self : Json) : bool := match self with JNull => true | _ => false end.
Definition json_kind (self : Json) : bytes :=
  match self with
  | JNull => ascii_bytes "null"
  | JBool _ => ascii_bytes "bool"
  | JNumber _ => ascii_bytes "number"
  | JString _ => ascii_bytes "string"
  | JArray _ => ascii_bytes "array"
  | JObject _ => ascii_bytes "object"
  end.

Inductive JsonErrorKind :=
  | InvalidUtf8
  | JsonUnexpectedEof
  | TrailingValue
  | InvalidEscape
  | LoneSurrogate
  | ControlCharacter
  | InvalidNumber
  | JsonDuplicateKey (key : bytes)
  | DepthLimit
  | SizeLimit
  | ItemLimit
  | StringLimit
  | UnexpectedByte (byte : byte)
  | ExpectedValue.

Record JsonError := mkJsonError {
  je_kind : JsonErrorKind;
  je_offset : Z;
  je_line : Z;
  je_column : Z;
}.

(** [u32::try_from(n).unwrap_or(u32::MAX)] *)
Definition u32_saturate (n : Z) : Z := if n <=? U32_MAX then n else U32_MAX.

(** The tail after the last line break, if there is one. *)
Fixpoint after_last_newline (bs : bytes) : option bytes :=
  match bs with
  | [] => None
  | b :: rest =>
    match after_last_newline rest with
    | Some tail => Some tail
    | None => if bool_decide (b = x0a) then Some rest else None
    end
  end.

(** [Error::at]; slicing off a boundary would abort. *)
Definition error_at (input : bytes) (offset : nat) (kind : JsonErrorKind) : option JsonError :=
  let index := (offset `min` length input)%nat in
  if is_char_boundary input index then
    let prefix := take index input in
    let line := len (filter (λ b, b = x0a) prefix) + 1 in
    let column := chars_count (default prefix (after_last_newline prefix)) + 1 in
    Some (mkJsonError kind (Z.of_nat offset) (u32_saturate line) (u32_saturate column))
  else None.

(** ** Model: the parser *)

Record Parser := mkParser {
  pa_input : bytes;
  pa_position : nat;
  pa_limits : JsonLimits;
  pa_item_count : Z;
}.

Abbreviation parser := (st Parser JsonError).

Definition set_position (n : nat) (p : Parser) : Parser := mkParser (pa_input p) n (pa_limits p) (pa_item_count p).
Definition set_item_count (n : Z) (p : Parser) : Parser := mkParser (pa_input p) (pa_position p) (pa_limits p) n.

(** [return Err(self.error(kind))] *)
Definition fail_with {A} (kind : JsonErrorKind) : parser A := λ self,
  match error_at (pa_input self) (pa_position self) kind with
  | Some e => (Err e, self)
  | None => (Panic, self)
  end.

Definition peek : parser (option byte) := λ self, (Ok (pa_input self !! pa_position self), self).

(** [self.position += n] *)
Definition advance_by (n : nat) : parser unit := modify (λ self, set_position (pa_position self + n) self).

Definition consume (byte : byte) : parser bool :=
  next ← peek;
  if bool_decide (next = Some byte) then advance_by 1;; mret true else mret false.

(** How many bytes from the front satisfy [f]. *)
Fixpoint run_length (f : byte → bool) (bs : bytes) : nat :=
  match bs with b :: rest => if f b then S (run_length f rest) else O | [] => O end.

(** [while matches!(self.peek(), ..) { self.position += 1; }] *)
Definition skip_while (f : byte → bool) : parser unit :=
  self ← get;
  advance_by (run_length f (drop (pa_position self) (pa_input self))).

Definition is_json_whitespace (b : byte) : bool :=
  match b with x20 | x0a | x0d | x09 => true | _ => false end.
Definition skip_whitespace : parser unit := skip_while is_json_whitespace.

Definition charge_item : parser unit :=
  self ← get;
  match u64_checked_add (pa_item_count self) 1 with
  | None => fail_with ItemLimit
  | Some count =>
    modify (set_item_count count);;
    if jl_max_items (pa_limits self) <? count then fail_with ItemLimit else mret tt
  end.

Definition consume_literal (literal : bytes) : parser unit :=
  self ← get;
  match u64_checked_add (Z.of_nat (pa_position self)) (len literal) with
  | None => fail_with SizeLimit
  | Some end_ =>
    if len (pa_input self) <? end_ then fail_with JsonUnexpectedEof
    else if bool_decide (take (length literal) (drop (pa_position self) (pa_input self)) = literal)
    then modify (set_position (Z.to_nat end_))
    else fail_with ExpectedValue
  end.

(** The error of a missing separator. *)
Definition missing {A} : parser A :=
  next ← peek;
  fail_with (match next with None => JsonUnexpectedEof | Some _ => ExpectedValue end).

(** ** Model: strings *)

Definition hex_digit (byte : byte) : option Z :=
  if in_range 48 57 byte then Some (byte_val byte - 48)
  else if in_range 97 102 byte then Some (byte_val byte - 97 + 10)
  else if in_range 65 70 byte then Some (byte_val byte - 65 + 10)
  else None.

(** [for _ in 0..4 { .. }]; a digit fits its four bits, so [(value << 4) | digit]
    adds it. *)
Fixpoint hex_loop (n : nat) (value : Z) : parser Z :=
  match n with
  | O => mret value
  | S n =>
    next ← peek;
    match next with
    | None => fail_with JsonUnexpectedEof
    | Some byte =>
      match hex_digit byte with
      | None => fail_with InvalidEscape
      | Some digit => advance_by 1;; hex_loop n (Z.lor (Z.shiftl value 4 mod 2 ^ 16) digit)
      end
    end
  end.
Definition parse_hex_u16 : parser Z := hex_loop 4 0.

Definition parse_unicode_escape : parser Z :=
  first ← parse_hex_u16;
  if (55296 <=? first) && (first <=? 56319) then
    backslash ← consume x5c;
    u ← (if backslash : bool then consume x75 else mret false);
    if negb u then fail_with LoneSurrogate
    else
      second ← parse_hex_u16;
      if negb ((56320 <=? second) && (second <=? 57343)) then fail_with LoneSurrogate
      else
        let scalar := 65536 + Z.shiftl (first - 55296) 10 + (second - 56320) in
        match char_from_u32 scalar with Some c => mret c | None => fail_with LoneSurrogate end
  else if (56320 <=? first) && (first <=? 57343) then fail_with LoneSurrogate
  else match char_from_u32 first with Some c => mret c | None => fail_with InvalidEscape end.

(** The scalar value after a backslash. *)
Definition parse_escape : parser Z :=
  next ← peek;
  match next with
  | Some x22 => advance_by 1;; mret 34
  | Some x5c => advance_by 1;; mret 92
  | Some x2f => advance_by 1;; mret 47
  | Some x62 => advance_by 1;; mret 8
  | Some x66 => advance_by 1;; mret 12
  | Some x6e => advance_by 1;; mret 10
  | Some x72 => advance_by 1;; mret 13
  | Some x74 => advance_by 1;; mret 9
  | Some x75 => advance_by 1;; parse_unicode_escape
  | Some _ => fail_with InvalidEscape
  | None => fail_with JsonUnexpectedEof
  end.

(** [self.input[self.position..].chars().next()] and the step over it. *)
Definition next_char : parser bytes :=
  self ← get;
  if is_char_boundary (pa_input self) (pa_position self) then
    match drop (pa_position self) (pa_input self) with
    | [] => fail_with JsonUnexpectedEof
    | (b :: _) as rest =>
      let character := take (char_width b) rest in
      advance_by (length character);; mret character
    end
  else λ self, (Panic, self).

(** The loop of [parse_string]; every round moves on, so the length of the
    input is enough fuel. *)
Fixpoint string_loop (fuel : nat) (value : bytes) : parser bytes :=
  match fuel with
  | O => λ self, (Panic, self)
  | S fuel =>
    next ← peek;
    if bool_decide (next = Some x22) then advance_by 1;; mret value
    else
      pushed ← match next with
        | Some x5c => advance_by 1;; escaped ← parse_escape; mret (encode_utf8 escaped)
        | Some byte =>
          if byte_val byte <=? 31 then fail_with ControlCharacter
          else if byte_val byte <=? 127 then advance_by 1;; mret [byte]
          else next_char
        | None => fail_with JsonUnexpectedEof
        end;
      let value := value ++ pushed in
      self ← get;
      if jl_max_string_bytes (pa_limits self) <? len value then fail_with StringLimit
      else string_loop fuel value
  end.

(** The [debug_assert_eq!] on the opening quote is part of it. *)
Definition parse_string : parser bytes :=
  next ← peek;
  if bool_decide (next = Some x22) then
    advance_by 1;;
    self ← get;
    string_loop (S (length (pa_input self))) []
  else λ self, (Panic, self).

(** ** Model: numbers *)

Definition is_digit (b : byte) : bool := in_range 48 57 b.

(** At least one digit, then all of them. *)
Definition require_digits : parser unit :=
  next ← peek;
  match next with
  | Some b => if is_digit b then skip_while is_digit else fail_with InvalidNumber
  | None => fail_with InvalidNumber
  end.

Definition parse_integer : parser unit :=
  next ← peek;
  match next with
  | Some b =>
    if bool_decide (b = x30) then
      advance_by 1;;
      next ← peek;
      match next with Some d => if is_digit d then fail_with InvalidNumber else mret tt | None => mret tt end
    else if in_range 49 57 b then advance_by 1;; skip_while is_digit
    else fail_with InvalidNumber
  | None => fail_with InvalidNumber
  end.

Definition parse_fraction : parser unit :=
  point ← consume x2e;
  if point : bool then require_digits else mret tt.

Definition parse_exponent : parser unit :=
  next ← peek;
  match next with
  | Some x65 | Some x45 =>
    advance_by 1;;
    sign ← peek;
    match sign with Some x2b | Some x2d => advance_by 1 | _ => mret tt end;;
    require_digits
  | _ => mret tt
  end.

(** What may not follow a number. *)
Definition continues_number (b : byte) : bool :=
  match b with x2e | x2b | x2d | x5f => true | _ => in_range 97 122 b || in_range 65 90 b end.

Definition parse_number : parser bytes :=
  start ← get;
  consume x2d;;
  parse_integer;;
  parse_fraction;;
  parse_exponent;;
  next ← peek;
  match next with
  | Some b =>
    if continues_number b then fail_with InvalidNumber
    else self ← get; mret (take (pa_position self - pa_position start) (drop (pa_position start) (pa_input start)))
  | None => self ← get; mret (take (pa_position self - pa_position start) (drop (pa_position start) (pa_input start)))
  end.

(** ** Model: values *)

Definition depth_limit (limits : JsonLimits) : Z := jl_max_depth limits `min` IMPLEMENTATION_MAX_DEPTH.

(** The start of [parse_array] and [parse_object]: the depth test, the opening
    bracket that the caller has matched, and the space after it. *)
Definition open_bracket (depth : Z) : parser unit :=
  self ← get;
  if depth_limit (pa_limits self) <=? depth then fail_with DepthLimit
  else advance_by 1;; skip_whitespace.

(** A separator or the error for its absence. *)
Definition require (byte : byte) : parser unit :=
  present ← consume byte;
  if present : bool then mret tt else missing.

Definition panicking {A} : parser A := λ self, (Panic, self).

(** The recursive descent.  Every call and every round of a loop takes one unit
    of fuel; a call consumes at least one byte before it is nested, so twice
    the length of the input is enough. *)
Fixpoint parse_value (fuel : nat) (depth : Z) : parser Json :=
  match fuel with
  | O => panicking
  | S fuel =>
    charge_item;;
    next ← peek;
    match next with
    | Some x6e => consume_literal [x6e; x75; x6c; x6c];; mret JNull
    | Some x74 => consume_literal [x74; x72; x75; x65];; mret (JBool true)
    | Some x66 => consume_literal [x66; x61; x6c; x73; x65];; mret (JBool false)
    | Some x22 => value ← parse_string; mret (JString value)
    | Some x5b =>
      open_bracket depth;;
      closed ← consume x5d;
      if closed : bool then mret (JArray []) else array_loop fuel depth []
    | Some x7b =>
      open_bracket depth;;
      closed ← consume x7d;
      if closed : bool then mret (JObject []) else object_loop fuel depth [] []
    | Some byte =>
      if bool_decide (byte = x2d) || is_digit byte then
        lexeme ← parse_number; mret (JNumber lexeme)
      else if bool_decide (byte ∈ [x2e; x2b; x4e; x49]) then fail_with InvalidNumber
      else fail_with (UnexpectedByte byte)
    | None => fail_with JsonUnexpectedEof
    end
  end
with array_loop (fuel : nat) (depth : Z) (values : list Json) : parser Json :=
  match fuel with
  | O => panicking
  | S fuel =>
    value ← parse_value fuel (depth + 1);
    let values := values ++ [value] in
    skip_whitespace;;
    closed ← consume x5d;
    if closed : bool then mret (JArray values)
    else
      require x2c;;
      skip_whitespace;;
      array_loop fuel depth values
  end
with object_loop (fuel : nat) (depth : Z) (entries : list (bytes * Json)) (keys : list bytes) : parser Json :=
  match fuel with
  | O => panicking
  | S fuel =>
    next ← peek;
    if negb (bool_decide (next = Some x22)) then missing
    else
      key ← parse_string;
      if bool_decide (key ∈ keys) then fail_with (JsonDuplicateKey key)
      else
        charge_item;;
        skip_whitespace;;
        require x3a;;
        skip_whitespace;;
        value ← parse_value fuel (depth + 1);
        let entries := btree_insert key value entries in
        skip_whitespace;;
        closed ← consume x7d;
        if closed : bool then mret (JObject entries)
        else
          require x2c;;
          skip_whitespace;;
          object_loop fuel depth entries (key :: keys)
  end.

(** [parse] *)
Definition parse_document (fuel : nat) : parser Json :=
  skip_whitespace;;
  value ← parse_value fuel 0;
  skip_whitespace;;
  self ← get;
  if (pa_position self =? length (pa_input self))%nat then mret value
  else fail_with TrailingValue.

Definition parse (input : bytes) (limits : JsonLimits) : res JsonError Json :=
  if jl_max_bytes limits <? len input then Err (mkJsonError SizeLimit (jl_max_bytes limits) 0 0)
  else if utf8_valid input then
    (parse_document (S (2 * length input)) (mkParser input 0 limits 0)).1
  else
    let offset := valid_up_to (length input) input in
    match error_at (take offset input) offset InvalidUtf8 with Some e => Err e | None => Panic end.
