(* ===== verification/JsonGrammar.v ===== *)
(** * The grammar of strict JSON

    What [Json.v]'s parser is to accept, as relations between a value and its
    text, and the measures of a value that the limits are about. *)

From Stdlib Require Import Strings.Byte.
From stdpp Require Import base tactics numbers list.
From S2P Require Import Prelude Bytes Utf8 Json.

Local Open Scope Z_scope.

(** ** Lexemes *)

Definition space (t : bytes) : Prop := Forall (λ b, is_json_whitespace b = true) t.
Definition digits (t : bytes) : Prop := t ≠ [] ∧ Forall (λ b, is_digit b = true) t.

Definition integer_text (t : bytes) : Prop :=
  t = [x30] ∨ ∃ d ds, t = d :: ds ∧ in_range 49 57 d = true ∧ Forall (λ b, is_digit b = true) ds.
Definition fraction_text (t : bytes) : Prop := t = [] ∨ ∃ ds, t = x2e :: ds ∧ digits ds.
Definition exponent_text (t : bytes) : Prop :=
  t = [] ∨ ∃ e sign ds, t = e :: sign ++ ds ∧ (e = x65 ∨ e = x45) ∧
    (sign = [] ∨ sign = [x2b] ∨ sign = [x2d]) ∧ digits ds.
Definition number_text (t : bytes) : Prop :=
  ∃ sign integer fraction exponent, t = sign ++ integer ++ fraction ++ exponent ∧
    (sign = [] ∨ sign = [x2d]) ∧ integer_text integer ∧ fraction_text fraction ∧ exponent_text exponent.

(** Four hexadecimal digits and the unit they denote. *)
Definition hex_text (unit_ : Z) (t : bytes) : Prop :=
  ∃ a b c d p q r s, t = [a; b; c; d] ∧ hex_digit a = Some p ∧ hex_digit b = Some q ∧
    hex_digit c = Some r ∧ hex_digit d = Some s ∧ unit_ = ((p * 16 + q) * 16 + r) * 16 + s.

(** What may follow a backslash, and the scalar value it stands for. *)
Inductive escape_text : Z → bytes → Prop :=
  | escape_quote : escape_text 34 [x22]
  | escape_backslash : escape_text 92 [x5c]
  | escape_slash : escape_text 47 [x2f]
  | escape_backspace : escape_text 8 [x62]
  | escape_feed : escape_text 12 [x66]
  | escape_newline : escape_text 10 [x6e]
  | escape_return : escape_text 13 [x72]
  | escape_tab : escape_text 9 [x74]
  | escape_unit u h : hex_text u h → u < 55296 ∨ 57343 < u → escape_text u (x75 :: h)
  | escape_pair hi lo h1 h2 :
      hex_text hi h1 → hex_text lo h2 → 55296 ≤ hi ≤ 56319 → 56320 ≤ lo ≤ 57343 →
      escape_text (65536 + (hi - 55296) * 1024 + (lo - 56320)) (x75 :: h1 ++ x5c :: x75 :: h2).

(** A character that stands for itself. *)
Definition plain_char (c : bytes) : Prop :=
  is_char c = true ∧ c ≠ [x22] ∧ c ≠ [x5c] ∧ ∀ b, c = [b] → 31 < byte_val b.

(** The characters between the quotes and the string they denote. *)
Inductive string_text : bytes → bytes → Prop :=
  | string_end : string_text [] []
  | string_char c v t : plain_char c → string_text v t → string_text (c ++ v) (c ++ t)
  | string_escape scalar e v t :
      escape_text scalar e → string_text v t → string_text (encode_utf8 scalar ++ v) (x5c :: e ++ t).

Definition quoted (s t : bytes) : Prop := ∃ body, t = x22 :: body ++ [x22] ∧ string_text s body.

(** ** Values *)

(** The object that members in text order build. *)
Definition of_members (members : list (bytes * Json)) : list (bytes * Json) :=
  foldl (λ entries m, btree_insert m.1 m.2 entries) [] members.

Inductive value_text : Json → bytes → Prop :=
  | text_null : value_text JNull [x6e; x75; x6c; x6c]
  | text_true : value_text (JBool true) [x74; x72; x75; x65]
  | text_false : value_text (JBool false) [x66; x61; x6c; x73; x65]
  | text_number t : number_text t → value_text (JNumber t) t
  | text_string s t : quoted s t → value_text (JString s) t
  | text_array_empty w : space w → value_text (JArray []) (x5b :: w ++ [x5d])
  | text_array w vs t : space w → elements_text vs t → value_text (JArray vs) (x5b :: w ++ t ++ [x5d])
  | text_object_empty w : space w → value_text (JObject []) (x7b :: w ++ [x7d])
  | text_object w ms t : space w → members_text ms t → NoDup ms.*1 →
      value_text (JObject (of_members ms)) (x7b :: w ++ t ++ [x7d])
(** Values with the space after each, separated by commas with space after. *)
with elements_text : list Json → bytes → Prop :=
  | elements_last v t w : value_text v t → space w → elements_text [v] (t ++ w)
  | elements_more v t w w' vs t' : value_text v t → space w → space w' → elements_text vs t' →
      elements_text (v :: vs) (t ++ w ++ x2c :: w' ++ t')
with members_text : list (bytes * Json) → bytes → Prop :=
  | members_last k tk w1 w2 v t w : quoted k tk → space w1 → space w2 → value_text v t → space w →
      members_text [(k, v)] (tk ++ w1 ++ x3a :: w2 ++ t ++ w)
  | members_more k tk w1 w2 v t w w' ms t' : quoted k tk → space w1 → space w2 → value_text v t → space w →
      space w' → members_text ms t' →
      members_text ((k, v) :: ms) (tk ++ w1 ++ x3a :: w2 ++ t ++ w ++ x2c :: w' ++ t').

Definition document_text (v : Json) (input : bytes) : Prop :=
  ∃ w t w', input = w ++ t ++ w' ∧ space w ∧ value_text v t ∧ space w'.

Scheme value_text_mut := Induction for value_text Sort Prop
  with elements_text_mut := Induction for elements_text Sort Prop
  with members_text_mut := Induction for members_text Sort Prop.
Combined Scheme text_mutind from value_text_mut, elements_text_mut, members_text_mut.

(** ** Measures *)

(** The items a value is charged for: itself, its elements, and a key and a
    value for each member. *)
Fixpoint json_items (v : Json) : Z :=
  match v with
  | JArray vs => 1 + sumZ (json_items <$> vs)
  | JObject ms => 1 + sumZ ((λ m, 1 + json_items m.2) <$> ms)
  | _ => 1
  end.

(** The brackets around the innermost value. *)
Fixpoint json_depth (v : Json) : Z :=
  match v with
  | JArray vs => 1 + foldr Z.max 0 (json_depth <$> vs)
  | JObject ms => 1 + foldr Z.max 0 ((λ m, json_depth m.2) <$> ms)
  | _ => 0
  end.

(** No string of the value, keys included, is longer than the limit. *)
Fixpoint strings_within (limit : Z) (v : Json) : Prop :=
  match v with
  | JString s => len s ≤ limit
  | JArray vs => foldr (λ v P, strings_within limit v ∧ P) True vs
  | JObject ms => foldr (λ m P, len m.1 ≤ limit ∧ strings_within limit m.2 ∧ P) True ms
  | _ => True
  end.

(** Induction through the lists of a value. *)
Lemma json_induction (P : Json → Prop) :
  P JNull → (∀ b, P (JBool b)) → (∀ t, P (JNumber t)) → (∀ s, P (JString s)) →
  (∀ vs, Forall P vs → P (JArray vs)) → (∀ ms, Forall (λ m, P m.2) ms → P (JObject ms)) → ∀ v, P v.
Proof.
  intros Hn Hb Ht Hs Ha Ho. fix IH 1. intros [|b|t|s|vs|ms]; [done|apply Hb|apply Ht|apply Hs| |].
  - apply Ha. induction vs as [|v vs IHvs]; constructor; [apply IH|apply IHvs].
  - apply Ho. induction ms as [|[k v] ms IHms]; constructor; [apply IH|apply IHms].
Qed.

Lemma json_items_positive v : 1 ≤ json_items v.
Proof.
  induction v as [|b|t|s|vs Hvs|ms Hms] using json_induction; simpl; try lia.
  - assert (0 ≤ sumZ (json_items <$> vs)); [|lia]. apply sumZ_nonneg, Forall_fmap.
    eapply Forall_impl; [done|]. simpl. intros. lia.
  - assert (0 ≤ sumZ ((λ m, 1 + json_items m.2) <$> ms)); [|lia]. apply sumZ_nonneg, Forall_fmap.
    eapply Forall_impl; [done|]. simpl. intros. lia.
Qed.

Lemma json_depth_nonneg v : 0 ≤ json_depth v.
Proof.
  assert (∀ l, 0 ≤ foldr Z.max 0 l) as Hl by (induction l; simpl; lia).
  destruct v; simpl; try done; match goal with |- context [foldr Z.max 0 ?l] => specialize (Hl l) end; lia.
Qed.

(** Building an object permutes its members. *)
Lemma btree_insert_perm {A} k (v : A) es : k ∉ es.*1 → btree_insert k v es ≡ₚ (k, v) :: es.
Proof.
  induction es as [|[k' v'] es IH]; cbn [btree_insert]; [done|]. csimpl. intros Hk.
  apply not_elem_of_cons in Hk as [Hne Hk]. rewrite bool_decide_eq_false_2 by congruence.
  destruct (bytes_leb k k'); [done|]. rewrite IH by done. apply Permutation_swap.
Qed.

Lemma insert_all_perm (ms es : list (bytes * Json)) :
  NoDup (es.*1 ++ ms.*1) → foldl (λ entries m, btree_insert m.1 m.2 entries) es ms ≡ₚ es ++ ms.
Proof.
  revert es. induction ms as [|[k v] ms IH]; intros es Hnd; cbn [foldl]; [by rewrite app_nil_r|].
  csimpl in Hnd. assert (k ∉ es.*1) as Hk.
  { apply NoDup_app in Hnd as (_ & Hno & _). intros Hin. apply (Hno k Hin). left. }
  pose proof (btree_insert_perm k v es Hk) as Hp. rewrite IH.
  - rewrite Hp. apply Permutation_middle.
  - cbn [fst snd]. rewrite Hp. csimpl. by rewrite Permutation_middle.
Qed.

Lemma of_members_perm ms : NoDup ms.*1 → of_members ms ≡ₚ ms.
Proof. intros Hnd. unfold of_members. by rewrite insert_all_perm. Qed.

(** So its measures are those of the members. *)
Lemma members_measures ms limit :
  NoDup ms.*1 →
  json_items (JObject (of_members ms)) = 1 + sumZ ((λ m, 1 + json_items m.2) <$> ms) ∧
  json_depth (JObject (of_members ms)) = 1 + foldr Z.max 0 ((λ m, json_depth m.2) <$> ms) ∧
  (strings_within limit (JObject (of_members ms)) ↔ Forall (λ m, len m.1 ≤ limit ∧ strings_within limit m.2) ms).
Proof.
  intros Hp%of_members_perm. cbn [json_items json_depth strings_within]. split_and!.
  - by rewrite Hp.
  - f_equal. revert Hp. generalize (of_members ms). intros l Hp.
    apply (foldr_permutation_proper (=) Z.max); [solve_proper|lia|by rewrite Hp].
  - assert (∀ l : list (bytes * Json), foldr (λ m P, len m.1 ≤ limit ∧ strings_within limit m.2 ∧ P) True l ↔
      Forall (λ m, len m.1 ≤ limit ∧ strings_within limit m.2) l) as Hl.
    { induction l as [|m l IH]; simpl; [by rewrite Forall_nil|]. rewrite Forall_cons, IH. tauto. }
    by rewrite Hl, Hp.
Qed.

Lemma elements_within vs limit :
  strings_within limit (JArray vs) ↔ Forall (strings_within limit) vs.
Proof. cbn [strings_within]. induction vs as [|v vs IH]; simpl; [by rewrite Forall_nil|]. by rewrite Forall_cons, IH. Qed.
