(* ===== verification/JsonSound.v ===== *)
(** * Strict JSON: what the parser accepts

    Every routine of [Json.v] either fails or consumes a text of the grammar of
    [JsonGrammar.v], moving over whole characters and within the limits; none
    aborts, and the fuel suffices. *)

From Stdlib Require Import Strings.Byte.
From stdpp Require Import base tactics numbers list.
From S2P Require Import Prelude Bytes Utf8 Json JsonGrammar.

Local Open Scope Z_scope.

(** ** Running a parser *)

(** The parser after [pre], before [rest], with [n] items charged. *)
Definition at_ (pre rest : bytes) (limits : JsonLimits) (n : Z) : Parser :=
  mkParser (pre ++ rest) (length pre) limits n.

Section running.
Context (limits : JsonLimits).

(** From there the parser fails, or it consumes some text up to a character
    boundary and the postcondition holds of its value, of the text, of the rest
    and of the items charged; it does not abort. *)
Definition runs {A} (p : parser A) (pre rest : bytes) (n : Z) (Q : A → bytes → bytes → Z → Prop) : Prop :=
  match p (at_ pre rest limits n) with
  | (Ok a, s) => ∃ t rest' n', rest = t ++ rest' ∧ s = at_ (pre ++ t) rest' limits n' ∧
      utf8_valid rest' = true ∧ Q a t rest' n'
  | (Err _, _) => True
  | (Panic, _) => False
  end.

Lemma at_shift pre t rest n : at_ pre (t ++ rest) limits n = mkParser ((pre ++ t) ++ rest) (length pre) limits n.
Proof. unfold at_. by rewrite (assoc_L (++)). Qed.

Lemma runs_ret {A} (a : A) pre rest n (Q : A → bytes → bytes → Z → Prop) :
  utf8_valid rest = true → Q a [] rest n → runs (mret a) pre rest n Q.
Proof using. intros Hv HQ. exists [], rest, n. by rewrite app_nil_r. Qed.

Lemma runs_bind {A B} (p : parser A) (k : A → parser B) pre rest n
    (P : A → bytes → bytes → Z → Prop) (Q : B → bytes → bytes → Z → Prop) :
  runs p pre rest n P →
  (∀ a t rest' n', rest = t ++ rest' → utf8_valid rest' = true → P a t rest' n' →
     runs (k a) (pre ++ t) rest' n' (λ b t' rest'' n'', Q b (t ++ t') rest'' n'')) →
  runs (p ≫= k) pre rest n Q.
Proof using.
  unfold runs, mbind, st_bind. destruct (p _) as [[a|e|] s]; [|done..].
  intros (t & rest' & n' & -> & -> & Hv & HP) Hk. specialize (Hk a t rest' n' eq_refl Hv HP).
  destruct (k a _) as [[b|e|] s']; [|done..].
  destruct Hk as (t' & rest'' & n'' & -> & -> & Hv' & HQ). exists (t ++ t'), rest'', n''.
  by rewrite !(assoc_L (++)).
Qed.

Lemma runs_weaken {A} (p : parser A) pre rest n (P Q : A → bytes → bytes → Z → Prop) :
  runs p pre rest n P → (∀ a t rest' n', rest = t ++ rest' → P a t rest' n' → Q a t rest' n') → runs p pre rest n Q.
Proof using.
  unfold runs. destruct (p _) as [[a|e|] s]; [|done..].
  intros (t & rest' & n' & -> & -> & Hv & HP) HPQ. exists t, rest', n'. auto.
Qed.

Lemma runs_fail {A} kind pre rest n (Q : A → bytes → bytes → Z → Prop) :
  utf8_valid rest = true → runs (fail_with kind) pre rest n Q.
Proof using.
  intros Hv. unfold runs, fail_with, error_at, at_. simpl. rewrite length_app.
  rewrite Nat.min_l by lia. by rewrite boundary_split.
Qed.

Lemma runs_get {A} (k : Parser → parser A) pre rest n Q :
  runs (k (at_ pre rest limits n)) pre rest n Q → runs (get ≫= k) pre rest n Q.
Proof using. done. Qed.

Lemma peek_at pre rest n : peek (at_ pre rest limits n) = (Ok (head rest), at_ pre rest limits n).
Proof using. unfold peek, at_. simpl. rewrite lookup_app_r, Nat.sub_diag by done. by destruct rest. Qed.

Lemma runs_peek {A} (k : option byte → parser A) pre rest n Q :
  runs (k (head rest)) pre rest n Q → runs (peek ≫= k) pre rest n Q.
Proof using. unfold runs, mbind, st_bind. by rewrite peek_at. Qed.

Lemma advance_at pre t rest n :
  advance_by (length t) (at_ pre (t ++ rest) limits n) = (Ok tt, at_ (pre ++ t) rest limits n).
Proof using.
  unfold advance_by, modify. rewrite at_shift. unfold set_position. simpl. unfold at_. by rewrite length_app.
Qed.

Lemma runs_advance t pre rest rest' n Q :
  rest = t ++ rest' → utf8_valid rest' = true → Q tt t rest' n → runs (advance_by (length t)) pre rest n Q.
Proof using. intros -> Hv HQ. unfold runs. rewrite advance_at. exists t, rest', n. done. Qed.

(** Moving over one ASCII byte that was seen. *)
Lemma runs_step {A} b pre rest n (k : unit → parser A) Q :
  byte_val b ≤ 127 → utf8_valid (b :: rest) = true →
  (utf8_valid rest = true → runs (k tt) (pre ++ [b]) rest n (λ a t, Q a (b :: t))) →
  runs (advance_by 1 ≫= k) pre (b :: rest) n Q.
Proof using.
  intros Hb Hv Hk. rewrite ascii_valid in Hv by done.
  unfold runs, mbind, st_bind. pose proof (advance_at pre [b] rest n) as E. cbn [length app] in E. rewrite E.
  specialize (Hk Hv). unfold runs in Hk. destruct (k tt _) as [[a|e|] s]; [|done..].
  destruct Hk as (t & rest' & n' & -> & -> & Hv' & HQ). exists (b :: t), rest', n'. by rewrite <-(assoc_L (++)).
Qed.

Lemma consume_at byte pre rest n :
  consume byte (at_ pre rest limits n) =
  match rest with
  | b :: rest' => if bool_decide (b = byte) then (Ok true, at_ (pre ++ [b]) rest' limits n)
                  else (Ok false, at_ pre rest limits n)
  | [] => (Ok false, at_ pre rest limits n)
  end.
Proof using.
  unfold consume, mbind, st_bind. rewrite peek_at. destruct rest as [|b rest']; [done|]. cbn [head].
  case_bool_decide as E; case_bool_decide as E'; try congruence; [|done].
  pose proof (advance_at pre [b] rest' n) as Ha. cbn [length app] in Ha. by rewrite Ha.
Qed.

(** [consume] of an ASCII byte. *)
Lemma runs_consume byte pre rest n Q :
  byte_val byte ≤ 127 → utf8_valid rest = true →
  (∀ rest', rest = byte :: rest' → utf8_valid rest' = true → Q true [byte] rest' n) →
  (head rest ≠ Some byte → Q false [] rest n) → runs (consume byte) pre rest n Q.
Proof using.
  intros Hb Hv Ht Hf. unfold runs. rewrite consume_at. destruct rest as [|b rest].
  { exists [], [], n. rewrite (app_nil_r pre). split_and!; [done..|]. by apply Hf. }
  case_bool_decide as E.
  - subst b. rewrite ascii_valid in Hv by done. exists [byte], rest, n. split_and!; [done|done|done|]. by apply Ht.
  - exists [], (b :: rest), n. rewrite (app_nil_r pre). split_and!; [done..|]. apply Hf. simpl. congruence.
Qed.

Lemma run_length_split f rest :
  let t := take (run_length f rest) rest in
  let rest' := drop (run_length f rest) rest in
  rest = t ++ rest' ∧ length t = run_length f rest ∧ Forall (λ b, f b = true) t ∧
  (∀ b, head rest' = Some b → f b = false).
Proof using.
  simpl. split; [by rewrite take_drop|]. induction rest as [|b rest (IH1 & IH2 & IH3)]; cbn [run_length].
  { by split_and!; [|constructor|]. }
  destruct (f b) eqn:E; simpl.
  - split_and!; [by rewrite IH1|by constructor|done].
  - split_and!; [done|constructor|]. by intros b' [= <-].
Qed.

Lemma skip_while_at f pre rest n :
  skip_while f (at_ pre rest limits n) =
  (Ok tt, at_ (pre ++ take (run_length f rest) rest) (drop (run_length f rest) rest) limits n).
Proof using.
  unfold skip_while, mbind, st_bind, get.
  assert (drop (pa_position (at_ pre rest limits n)) (pa_input (at_ pre rest limits n)) = rest) as ->
    by apply drop_app_length.
  destruct (run_length_split f rest) as (Hsplit & Hlen & _).
  pose proof (advance_at pre (take (run_length f rest) rest) (drop (run_length f rest) rest) n) as Ha.
  by rewrite <-Hsplit, Hlen in Ha.
Qed.

(** Dropping ASCII bytes keeps a string valid. *)
Lemma ascii_drop (f : byte → bool) t rest :
  (∀ b, f b = true → byte_val b ≤ 127) → Forall (λ b, f b = true) t →
  utf8_valid (t ++ rest) = true → utf8_valid rest = true.
Proof using.
  intros Hf. induction 1 as [|b t Hb Ht IH]; [done|]. simpl app. rewrite ascii_valid by auto. done.
Qed.

Lemma runs_skip_while f pre rest n Q :
  (∀ b, f b = true → byte_val b ≤ 127) → utf8_valid rest = true →
  (∀ t rest', rest = t ++ rest' → utf8_valid rest' = true → Forall (λ b, f b = true) t →
     (∀ b, head rest' = Some b → f b = false) → Q tt t rest' n) →
  runs (skip_while f) pre rest n Q.
Proof using.
  intros Hf Hv HQ. unfold runs. rewrite skip_while_at. destruct (run_length_split f rest) as (Hsplit & _ & Ht & Hh).
  rewrite Hsplit in Hv. pose proof (ascii_drop f _ _ Hf Ht Hv) as Hv'. eexists _, _, n. split_and!; eauto.
Qed.

Lemma space_ascii b : is_json_whitespace b = true → byte_val b ≤ 127.
Proof using. by destruct b. Qed.
Lemma digit_ascii b : is_digit b = true → byte_val b ≤ 127.
Proof using. unfold is_digit, in_range. lia. Qed.

Lemma runs_skip_whitespace pre rest n Q :
  utf8_valid rest = true →
  (∀ t rest', rest = t ++ rest' → utf8_valid rest' = true → space t → Q tt t rest' n) →
  runs skip_whitespace pre rest n Q.
Proof using. intros Hv HQ. apply runs_skip_while; [apply space_ascii|done|]. intros. by apply HQ. Qed.

Context (Hitems : jl_max_items limits < U64_MAX).

Lemma runs_charge pre rest n Q :
  utf8_valid rest = true → n ≤ jl_max_items limits →
  (n + 1 ≤ jl_max_items limits → Q tt [] rest (n + 1)) → runs charge_item pre rest n Q.
Proof using Hitems.
  intros Hv Hn HQ. unfold runs, charge_item. munfold_goal. simpl. rewrite u64_checked_add_fits by lia.
  unfold set_item_count. simpl. destruct (Z.ltb_spec (jl_max_items limits) (n + 1)).
  - change (mkParser _ _ _ _) with (at_ pre rest limits (n + 1)).
    pose proof (runs_fail (A:=unit) ItemLimit pre rest (n + 1) (λ _ _ _ _, True) Hv) as Hf. unfold runs in Hf.
    destruct (fail_with _ _) as [[|e|] s] eqn:E; [|done..].
    unfold fail_with in E. destruct (error_at _ _ _); done.
  - exists [], rest, (n + 1). rewrite (app_nil_r pre). split_and!; [done..|]. apply HQ. lia.
Qed.

(** ** Lexemes *)

Lemma runs_literal literal pre rest n Q :
  utf8_valid rest = true → utf8_valid literal = true →
  (∀ rest', rest = literal ++ rest' → Q tt literal rest' n) → runs (consume_literal literal) pre rest n Q.
Proof using.
  intros Hv Hl HQ. unfold consume_literal. apply runs_get.
  destruct (u64_checked_add _ _) as [end_|] eqn:E; [|by apply runs_fail].
  destruct (_ <? end_); [by apply runs_fail|].
  assert (drop (pa_position (at_ pre rest limits n)) (pa_input (at_ pre rest limits n)) = rest) as ->
    by apply drop_app_length.
  case_bool_decide as Htake; [|by apply runs_fail].
  assert (rest = literal ++ drop (length literal) rest) as Hrest by (by rewrite <-Htake at 1; rewrite take_drop).
  unfold runs, modify. exists literal, (drop (length literal) rest), n. split_and!; [done| | |by apply HQ].
  - f_equal. unfold u64_checked_add in E. destruct (_ <=? _); [|done]. injection E as <-.
    rewrite Hrest at 1. rewrite at_shift. unfold set_position, at_. cbn [pa_input pa_limits pa_item_count pa_position].
    f_equal. rewrite length_app. unfold len. lia.
  - rewrite Hrest, utf8_valid_app in Hv by done. done.
Qed.

Lemma hex_digit_bounds b d : hex_digit b = Some d → 0 ≤ d < 16 ∧ byte_val b ≤ 127.
Proof using.
  unfold hex_digit, in_range. pose proof (byte_val_range b).
  repeat case_match; intros [= <-]; lia.
Qed.

Lemma hex_shift v d : 0 ≤ v < 4096 → 0 ≤ d < 16 → Z.lor (Z.shiftl v 4 mod 2 ^ 16) d = v * 16 + d.
Proof using.
  intros Hv Hd. rewrite Z.shiftl_mul_pow2 by done. change (2 ^ 16) with 65536. change (2 ^ 4) with 16.
  rewrite Z.mod_small by lia. symmetry.
  assert (Z.land (v * 16) d = 0) as H0; [|by rewrite Z.add_nocarry_lxor, Z.lxor_lor]. apply Z.bits_inj'. intros i Hi.
  rewrite Z.land_spec, Z.bits_0. change 16 with (2 ^ 4). rewrite Z.mul_pow2_bits by done.
  destruct (Z.ltb_spec i 4).
  - by rewrite Z.testbit_neg_r by lia.
  - rewrite (Z.bits_above_log2 d i); [apply andb_false_r|lia|].
    destruct (decide (d = 0)) as [->|]; [simpl; lia|]. apply Z.log2_lt_pow2; [lia|].
    apply Z.lt_le_trans with (2 ^ 4); [lia|]. by apply Z.pow_le_mono_r.
Qed.

Lemma runs_hex_step n value pre rest cnt Q :
  utf8_valid rest = true →
  (∀ b d rest', rest = b :: rest' → hex_digit b = Some d → utf8_valid rest' = true →
     runs (hex_loop n (Z.lor (Z.shiftl value 4 mod 2 ^ 16) d)) (pre ++ [b]) rest' cnt (λ a t, Q a (b :: t))) →
  runs (hex_loop (S n) value) pre rest cnt Q.
Proof using.
  intros Hv Hk. cbn [hex_loop]. apply runs_peek. destruct rest as [|b rest]; simpl; [by apply runs_fail|].
  destruct (hex_digit b) as [d|] eqn:Hd; [|by apply runs_fail].
  apply runs_step; [by eapply hex_digit_bounds|done|]. intros Hv'. by apply Hk.
Qed.

Lemma runs_hex pre rest cnt Q :
  utf8_valid rest = true →
  (∀ u t rest', rest = t ++ rest' → utf8_valid rest' = true → hex_text u t → Q u t rest' cnt) →
  runs parse_hex_u16 pre rest cnt Q.
Proof using.
  intros Hv HQ. unfold parse_hex_u16.
  apply runs_hex_step; [done|]. intros a p r1 -> Ha Hv1. apply runs_hex_step; [done|]. intros b q r2 -> Hb Hv2.
  apply runs_hex_step; [done|]. intros c r r3 -> Hc Hv3. apply runs_hex_step; [done|]. intros d s r4 -> Hd Hv4.
  apply runs_ret; [done|]. cbn [hex_loop].
  apply hex_digit_bounds in Ha as Hp, Hb as Hq, Hc as Hr, Hd as Hs.
  rewrite (hex_shift 0 p), (hex_shift _ q), (hex_shift _ r), (hex_shift _ s) by lia.
  apply (HQ _ [a; b; c; d]); [done|done|]. exists a, b, c, d, p, q, r, s. by split_and!.
Qed.

Lemma hex_text_range u t : hex_text u t → 0 ≤ u < 65536.
Proof using.
  intros (a & b & c & d & p & q & r & s & _ & Ha & Hb & Hc & Hd & ->).
  apply hex_digit_bounds in Ha, Hb, Hc, Hd. lia.
Qed.

Lemma runs_unicode_escape pre rest cnt Q :
  utf8_valid rest = true →
  (∀ scalar t rest', rest = t ++ rest' → utf8_valid rest' = true → escape_text scalar (x75 :: t) → Q scalar t rest' cnt) →
  runs parse_unicode_escape pre rest cnt Q.
Proof using.
  intros Hv HQ. unfold parse_unicode_escape.
  eapply runs_bind; [apply (runs_hex _ _ _ (λ u t _ m, hex_text u t ∧ m = cnt)); [done|by intros]|]. cbn beta.
  intros first h1 r1 ? -> Hv1 [Hh1 ->]. pose proof (hex_text_range _ _ Hh1) as Hf.
  destruct ((55296 <=? first) && (first <=? 56319)) eqn:Ehi.
  - eapply runs_bind; [apply (runs_consume _ _ _ _ (λ a t _ m, (a = true → t = [x5c]) ∧ (a = false → t = []) ∧ m = cnt)); [done|done|by intros|by intros]|].
    cbn beta. intros backslash t2 r2 ? -> Hv2 (Ht2 & Ht2' & ->).
    eapply (runs_bind _ _ _ _ _ (λ a t _ m, (a = true → backslash = true ∧ t = [x75]) ∧ m = cnt)).
    { destruct backslash; [apply runs_consume; [done|done|by intros|by intros]|by apply runs_ret]. }
    cbn beta. intros u t3 r3 ? -> Hv3 (Ht3 & ->). destruct u; simpl; [|by apply runs_fail].
    destruct (Ht3 eq_refl) as [-> ->]. rewrite (Ht2 eq_refl) in *.
    eapply runs_bind; [apply (runs_hex _ _ _ (λ u t _ m, hex_text u t ∧ m = cnt)); [done|by intros]|]. cbn beta.
    intros second h2 r4 ? -> Hv4 [Hh2 ->].
    destruct ((56320 <=? second) && (second <=? 57343)) eqn:Elo; simpl; [|by apply runs_fail].
    destruct (char_from_u32 _) as [c|] eqn:Ec; [|by apply runs_fail]. apply runs_ret; [done|].
    unfold char_from_u32 in Ec. destruct (_ && _) in Ec; [|done]. injection Ec as <-.
    rewrite Z.shiftl_mul_pow2 by done. change (2 ^ 10) with 1024.
    apply HQ; [by rewrite app_nil_r, <-!(assoc_L (++))|done|]. rewrite app_nil_r.
    apply (escape_pair first second h1 h2 Hh1 Hh2); lia.
  - destruct ((56320 <=? first) && (first <=? 57343)) eqn:Elo; [by apply runs_fail|].
    destruct (char_from_u32 first) as [c|] eqn:Ec; [|by apply runs_fail]. apply runs_ret; [done|].
    unfold char_from_u32 in Ec. destruct (_ && _) in Ec; [|done]. injection Ec as <-. rewrite app_nil_r.
    apply HQ; [done|done|]. constructor; [done|]. lia.
Qed.

Lemma runs_escape pre rest cnt Q :
  utf8_valid rest = true →
  (∀ scalar t rest', rest = t ++ rest' → utf8_valid rest' = true → escape_text scalar t → Q scalar t rest' cnt) →
  runs parse_escape pre rest cnt Q.
Proof using.
  intros Hv HQ. unfold parse_escape. apply runs_peek. destruct rest as [|b rest]; simpl; [by apply runs_fail|].
  assert (∀ scalar, escape_text scalar [b] → byte_val b ≤ 127 →
    runs (advance_by 1;; mret scalar) pre (b :: rest) cnt Q) as Hsimple.
  { intros scalar He Hb. apply runs_step; [done|done|]. intros Hv'. apply runs_ret; [done|].
    by apply (HQ _ [b]). }
  destruct b; try (by apply runs_fail); try (by apply Hsimple; [constructor|done]).
  apply runs_step; [done|done|]. intros Hv'. apply runs_unicode_escape; [done|].
  intros scalar t rest' -> Hr He. by apply HQ.
Qed.

Lemma runs_next_char b pre rest cnt Q :
  utf8_valid (b :: rest) = true → 127 < byte_val b →
  (∀ c rest', b :: rest = c ++ rest' → utf8_valid rest' = true → plain_char c → Q c c rest' cnt) →
  runs next_char pre (b :: rest) cnt Q.
Proof using.
  intros Hv Hb HQ. unfold next_char. apply runs_get.
  assert (is_char_boundary (pa_input (at_ pre (b :: rest) limits cnt)) (pa_position (at_ pre (b :: rest) limits cnt)) = true)
    as -> by (by apply boundary_split).
  assert (drop (pa_position (at_ pre (b :: rest) limits cnt)) (pa_input (at_ pre (b :: rest) limits cnt)) = b :: rest)
    as -> by apply drop_app_length.
  destruct (utf8_valid_cons b rest Hv) as (c & rest' & Heq & Hc & Hv' & Hw).
  assert (take (char_width b) (b :: rest) = c) as -> by (by rewrite Heq, <-Hw, take_app_length).
  eapply runs_bind; [apply (runs_advance c _ _ rest' cnt (λ _ t _ m, t = c ∧ m = cnt)); done|].
  cbn beta. intros _ t r m Hrest Hr [-> ->]. apply runs_ret; [done|]. rewrite app_nil_r. apply HQ; [done|done|].
  split_and!; [done|intros ->; injection Heq as -> _; by vm_compute in Hb|
    intros ->; injection Heq as -> _; by vm_compute in Hb|].
  intros b' ->. injection Heq as -> _. lia.
Qed.

Lemma not_backslash {A} b (x : A) (f : byte → A) : b ≠ x5c → match b with x5c => x | _ => f b end = f b.
Proof using. by destruct b. Qed.

Lemma runs_string_loop fuel value pre rest cnt Q :
  utf8_valid rest = true → (length rest < fuel)%nat → len value ≤ jl_max_string_bytes limits →
  (∀ v t rest', rest = t ++ x22 :: rest' → utf8_valid rest' = true → string_text v t →
     len (value ++ v) ≤ jl_max_string_bytes limits → Q (value ++ v) (t ++ [x22]) rest' cnt) →
  runs (string_loop fuel value) pre rest cnt Q.
Proof using.
  revert value pre rest Q. induction fuel as [|fuel IH]; intros value pre rest Q Hv Hf Hval HQ; [lia|].
  cbn [string_loop]. apply runs_peek. case_bool_decide as Hquote.
  { destruct rest as [|b rest]; [done|]. injection Hquote as ->. apply runs_step; [done|done|]. intros Hv'.
    apply runs_ret; [done|]. specialize (HQ [] [] rest eq_refl Hv' string_end). rewrite app_nil_r in HQ. by apply HQ. }
  eapply (runs_bind _ _ _ _ _ (λ pushed t _ m, m = cnt ∧ t ≠ [] ∧
    ∀ v t', string_text v t' → string_text (pushed ++ v) (t ++ t'))).
  { destruct rest as [|b rest]; [by apply runs_fail|]. cbn [head] in Hquote |- *.
    destruct (decide (b = x5c)) as [->|Hne].
    - apply runs_step; [done|done|]. intros Hv'.
      eapply runs_bind; [apply (runs_escape _ _ _ (λ scalar t _ m, m = cnt ∧ escape_text scalar t)); [done|by intros]|].
      cbn beta. intros scalar e r m -> Hr [-> He]. apply runs_ret; [done|]. split_and!; [done|done|].
      intros v t' Ht. simpl. rewrite app_nil_r. by constructor.
    - rewrite (not_backslash b _ (λ b, if byte_val b <=? 31 then fail_with ControlCharacter
        else if byte_val b <=? 127 then advance_by 1;; mret [b] else next_char)) by done.
      destruct (Z.leb_spec (byte_val b) 31); [by apply runs_fail|].
      destruct (Z.leb_spec (byte_val b) 127).
      + apply runs_step; [done|done|]. intros Hv'. apply runs_ret; [done|]. split_and!; [done|done|].
        intros v t' Ht. apply (string_char [b]); [|done]. split_and!; [by apply ascii_char|congruence|congruence|].
        by intros b' [= <-].
      + apply runs_next_char; [done|lia|]. intros c rest' _ _ Hc. split_and!; [done| |].
        * intros ->. by destruct Hc as [[=] _].
        * intros v t' Ht. by constructor. }
  cbn beta. intros pushed t r m -> Hr (-> & Hne & Hpush). apply runs_get. cbn [pa_limits at_].
  destruct (Z.ltb_spec (jl_max_string_bytes limits) (len (value ++ pushed))); [by apply runs_fail|].
  apply IH; [done| |done|].
  - rewrite length_app in Hf. destruct t; [done|]. simpl in Hf. lia.
  - intros v t' rest' -> Hv' Ht Hlen. rewrite (assoc_L (++)). rewrite <-(assoc_L (++) value) in Hlen |- *.
    apply HQ; [by rewrite <-(assoc_L (++))|done|by apply Hpush|done].
Qed.

Lemma runs_string pre rest cnt Q :
  utf8_valid rest = true → 0 ≤ jl_max_string_bytes limits → head rest = Some x22 →
  (∀ s t rest', rest = t ++ rest' → utf8_valid rest' = true → quoted s t →
     len s ≤ jl_max_string_bytes limits → Q s t rest' cnt) →
  runs parse_string pre rest cnt Q.
Proof using.
  intros Hv Hmax Hh HQ. unfold parse_string. apply runs_peek. rewrite bool_decide_eq_true_2 by done.
  destruct rest as [|b rest]; [done|]. injection Hh as ->. apply runs_step; [done|done|]. intros Hv'.
  apply runs_get. apply runs_string_loop; [done| |done|].
  { unfold at_. simpl. rewrite !length_app. simpl. lia. }
  intros v t rest' -> Hr Ht Hlen. apply HQ; [by simpl; rewrite <-(assoc_L (++))|done| |done]. by exists t.
Qed.

(** ** Numbers *)

Lemma runs_digits pre rest cnt Q :
  utf8_valid rest = true →
  (∀ t rest', rest = t ++ rest' → utf8_valid rest' = true → digits t → Q tt t rest' cnt) →
  runs require_digits pre rest cnt Q.
Proof using.
  intros Hv HQ. unfold require_digits. apply runs_peek. destruct rest as [|b rest]; simpl; [by apply runs_fail|].
  destruct (is_digit b) eqn:Hb; [|by apply runs_fail].
  apply runs_skip_while; [apply digit_ascii|done|]. intros t rest' Heq Hr Ht Hh. apply HQ; [done|done|].
  split; [|done]. intros ->. simpl in Heq. subst rest'. specialize (Hh b eq_refl). congruence.
Qed.

Lemma runs_integer pre rest cnt Q :
  utf8_valid rest = true →
  (∀ t rest', rest = t ++ rest' → utf8_valid rest' = true → integer_text t → Q tt t rest' cnt) →
  runs parse_integer pre rest cnt Q.
Proof using.
  intros Hv HQ. unfold parse_integer. apply runs_peek. destruct rest as [|b rest]; simpl; [by apply runs_fail|].
  case_bool_decide as Hb.
  - subst b. apply runs_step; [done|done|]. intros Hv'. apply runs_peek.
    assert (Q tt [x30] rest cnt) by (apply HQ; [done|done|by left]).
    destruct rest as [|d rest]; simpl; [by apply runs_ret|].
    destruct (is_digit d); [by apply runs_fail|by apply runs_ret].
  - destruct (in_range 49 57 b) eqn:Hd; [|by apply runs_fail].
    apply runs_step; [unfold in_range in Hd; lia|done|]. intros Hv'.
    apply runs_skip_while; [apply digit_ascii|done|]. intros t rest' -> Hr Ht _. apply (HQ (b :: t)); [done|done|].
    right. by exists b, t.
Qed.

Lemma runs_fraction pre rest cnt Q :
  utf8_valid rest = true →
  (∀ t rest', rest = t ++ rest' → utf8_valid rest' = true → fraction_text t → Q tt t rest' cnt) →
  runs parse_fraction pre rest cnt Q.
Proof using.
  intros Hv HQ. unfold parse_fraction.
  eapply runs_bind; [apply (runs_consume _ _ _ _ (λ a t _ m, t = (if a then [x2e] else []) ∧ m = cnt)); done|].
  cbn beta. intros point t r m -> Hr [-> ->]. destruct point.
  - apply runs_digits; [done|]. intros ds rest' -> Hr' Hds. apply HQ; [done|done|]. right. by exists ds.
  - apply runs_ret; [done|]. apply HQ; [done|done|by left].
Qed.

Lemma runs_exponent pre rest cnt Q :
  utf8_valid rest = true →
  (∀ t rest', rest = t ++ rest' → utf8_valid rest' = true → exponent_text t → Q tt t rest' cnt) →
  runs parse_exponent pre rest cnt Q.
Proof using.
  intros Hv HQ. unfold parse_exponent. apply runs_peek.
  assert (Q tt [] rest cnt) as Hnone by (apply HQ; [done|done|by left]).
  assert (∀ e rest', rest = e :: rest' → e = x65 ∨ e = x45 →
    runs (advance_by 1;; sign ← peek; match sign with Some x2b | Some x2d => advance_by 1 | _ => mret tt end;; require_digits)
      pre rest cnt Q) as Hexp.
  { intros e rest' -> He. apply runs_step; [by destruct He as [->| ->]|done|]. intros Hv'. apply runs_peek.
    eapply (runs_bind _ _ _ _ _ (λ _ t _ m, (t = [] ∨ t = [x2b] ∨ t = [x2d]) ∧ m = cnt)).
    - destruct rest' as [|s rest']; [apply runs_ret; [done|]; by split; [left|]|].
      destruct s; cbn [head]; try (apply runs_ret; [done|]; by split; [left|]).
      + apply (runs_advance [x2b]) with rest'; [done|by rewrite ascii_valid in Hv'|]. by split; [right; left|].
      + apply (runs_advance [x2d]) with rest'; [done|by rewrite ascii_valid in Hv'|]. by split; [right; right|].
    - cbn beta. intros _ sign r m -> Hr [Hsign ->]. apply runs_digits; [done|]. intros ds r' -> Hr' Hds.
      apply (HQ (e :: sign ++ ds)); [by simpl; rewrite <-(assoc_L (++))|done|]. right. exists e, sign, ds. by split_and!. }
  destruct rest as [|b rest]; [by apply runs_ret|]. cbn [head].
  destruct b; try (by apply runs_ret); apply (Hexp _ rest eq_refl); [by right|by left].
Qed.

Lemma runs_number pre rest cnt Q :
  utf8_valid rest = true →
  (∀ t rest', rest = t ++ rest' → utf8_valid rest' = true → number_text t → Q t t rest' cnt) →
  runs parse_number pre rest cnt Q.
Proof using.
  intros Hv HQ. unfold parse_number. apply runs_get.
  eapply runs_bind; [apply (runs_consume _ _ _ _ (λ a t _ m, (t = [] ∨ t = [x2d]) ∧ m = cnt)); [done|done|by intros; split; [right|]|by intros; split; [left|]]|].
  cbn beta. intros _ sign r1 m -> Hr1 [Hsign ->].
  eapply runs_bind; [apply (runs_integer _ _ _ (λ _ t _ m, integer_text t ∧ m = cnt)); [done|by intros]|].
  cbn beta. intros _ int r2 m -> Hr2 [Hint ->].
  eapply runs_bind; [apply (runs_fraction _ _ _ (λ _ t _ m, fraction_text t ∧ m = cnt)); [done|by intros]|].
  cbn beta. intros _ frac r3 m -> Hr3 [Hfrac ->].
  eapply runs_bind; [apply (runs_exponent _ _ _ (λ _ t _ m, exponent_text t ∧ m = cnt)); [done|by intros]|].
  cbn beta. intros _ exp r4 m -> Hr4 [Hexp ->].
  set (t := sign ++ int ++ frac ++ exp).
  assert (number_text t) as Ht by (exists sign, int, frac, exp; by split_and!).
  assert (runs (self ← get; mret (take (pa_position self - pa_position (at_ pre (sign ++ int ++ frac ++ exp ++ r4) limits cnt))
     (drop (pa_position (at_ pre (sign ++ int ++ frac ++ exp ++ r4) limits cnt))
        (pa_input (at_ pre (sign ++ int ++ frac ++ exp ++ r4) limits cnt)))))
     ((((pre ++ sign) ++ int) ++ frac) ++ exp) r4 cnt
     (λ b t' rest'' n'', Q b (sign ++ int ++ frac ++ exp ++ t') rest'' n'')) as Hdone.
  { apply runs_get. apply runs_ret; [done|]. unfold at_. cbn [pa_input pa_position].
    rewrite drop_app_length, <-!(assoc_L (++)), (length_app pre), Nat.add_sub_swap, Nat.sub_diag by lia. simpl.
    assert (sign ++ int ++ frac ++ exp ++ r4 = t ++ r4) as Et by (unfold t; by rewrite <-!(assoc_L (++))).
    rewrite Et, take_app_length, app_nil_r. apply HQ; [done|done|done]. }
  apply runs_peek. destruct r4 as [|b r4]; [exact Hdone|]. cbn [head].
  destruct (continues_number b); [by apply runs_fail|exact Hdone].
Qed.

(** ** Values *)

Context (Hstrings : 0 ≤ jl_max_string_bytes limits).

(** What holds of a value parsed at a depth with [cnt] items charged. *)
Definition value_ok (depth cnt : Z) (v : Json) (n : Z) : Prop :=
  n = cnt + json_items v ∧ n ≤ jl_max_items limits ∧ json_depth v ≤ depth_limit limits - depth ∧
  strings_within (jl_max_string_bytes limits) v.

Definition value_runs (fuel : nat) : Prop := ∀ depth pre rest cnt,
  utf8_valid rest = true → (2 * length rest < fuel)%nat → cnt ≤ jl_max_items limits → depth ≤ depth_limit limits →
  runs (parse_value fuel depth) pre rest cnt (λ v t _ n, value_text v t ∧ value_ok depth cnt v n).

Definition array_runs (fuel : nat) : Prop := ∀ depth values pre rest cnt,
  utf8_valid rest = true → (2 * length rest + 1 < fuel)%nat → cnt ≤ jl_max_items limits → depth < depth_limit limits →
  runs (array_loop fuel depth values) pre rest cnt (λ v t _ n, ∃ vs t', v = JArray (values ++ vs) ∧
    t = t' ++ [x5d] ∧ elements_text vs t' ∧ n = cnt + sumZ (json_items <$> vs) ∧ n ≤ jl_max_items limits ∧
    Forall (λ v, json_depth v ≤ depth_limit limits - (depth + 1) ∧ strings_within (jl_max_string_bytes limits) v) vs).

Definition object_runs (fuel : nat) : Prop := ∀ depth entries keys pre rest cnt,
  utf8_valid rest = true → (2 * length rest + 1 < fuel)%nat → cnt ≤ jl_max_items limits → depth < depth_limit limits →
  runs (object_loop fuel depth entries keys) pre rest cnt (λ v t _ n, ∃ ms t',
    v = JObject (foldl (λ entries m, btree_insert m.1 m.2 entries) entries ms) ∧
    t = t' ++ [x7d] ∧ members_text ms t' ∧ NoDup ms.*1 ∧ (∀ k, k ∈ ms.*1 → ¬ (k ∈ keys)) ∧
    n = cnt + sumZ ((λ m, 1 + json_items m.2) <$> ms) ∧ n ≤ jl_max_items limits ∧
    Forall (λ m, json_depth m.2 ≤ depth_limit limits - (depth + 1) ∧
      len m.1 ≤ jl_max_string_bytes limits ∧ strings_within (jl_max_string_bytes limits) m.2) ms).

Lemma runs_missing {A} pre rest cnt (Q : A → bytes → bytes → Z → Prop) :
  utf8_valid rest = true → runs missing pre rest cnt Q.
Proof using. intros Hv. unfold missing. apply runs_peek. by apply runs_fail. Qed.

Lemma runs_require byte pre rest cnt Q :
  byte_val byte ≤ 127 → utf8_valid rest = true →
  (∀ rest', rest = byte :: rest' → utf8_valid rest' = true → Q tt [byte] rest' cnt) →
  runs (require byte) pre rest cnt Q.
Proof using.
  intros Hb Hv HQ. unfold require.
  eapply runs_bind; [apply (runs_consume _ _ _ _ (λ a t r m, a = true → rest = byte :: r ∧ t = [byte] ∧ m = cnt)); [done|done| |done]|].
  { by intros rest' ->. }
  cbn beta. intros a t r m -> Hr Ha. destruct a; [|by apply runs_missing].
  destruct (Ha eq_refl) as (Heq & -> & ->). apply runs_ret; [done|]. by apply HQ.
Qed.

Lemma runs_open_bracket b depth pre rest cnt Q :
  byte_val b ≤ 127 → utf8_valid (b :: rest) = true →
  (∀ w rest', rest = w ++ rest' → utf8_valid rest' = true → space w → depth < depth_limit limits →
     Q tt (b :: w) rest' cnt) →
  runs (open_bracket depth) pre (b :: rest) cnt Q.
Proof using.
  intros Hb Hv HQ. unfold open_bracket. apply runs_get. cbn [at_ pa_limits].
  destruct (Z.leb_spec (depth_limit limits) depth); [by apply runs_fail|].
  apply runs_step; [done|done|]. intros Hv'. apply runs_skip_whitespace; [done|].
  intros w rest' -> Hr Hw. by apply HQ.
Qed.

Lemma items_sum_nonneg vs : 0 ≤ sumZ (json_items <$> vs).
Proof using.
  apply sumZ_nonneg, Forall_fmap, Forall_true. intros v. pose proof (json_items_positive v). simpl. lia.
Qed.
Lemma member_items_nonneg (ms : list (bytes * Json)) : 0 ≤ sumZ ((λ m, 1 + json_items m.2) <$> ms).
Proof using.
  apply sumZ_nonneg, Forall_fmap, Forall_true. intros [k v]. pose proof (json_items_positive v). simpl. lia.
Qed.

Lemma max_within l bound : 0 ≤ bound → Forall (λ x, x ≤ bound) l → foldr Z.max 0 l ≤ bound.
Proof using. intros Hb. induction 1; simpl; lia. Qed.

Lemma array_step fuel : value_runs fuel → array_runs fuel → array_runs (S fuel).
Proof using Hitems.
  intros HV HA depth values pre rest cnt Hv Hf Hc Hd. cbn [array_loop].
  eapply runs_bind; [apply HV; [done|lia|done|lia]|]. cbn beta.
  intros v t r m -> Hr (Ht & Hm & Hmax & Hdepth & Hs).
  pose proof (json_items_positive v) as Hpos.
  eapply runs_bind; [apply (runs_skip_whitespace _ _ _ (λ _ w _ m', space w ∧ m' = m)); [done|by intros]|]. cbn beta.
  intros _ w r' ? -> Hr' [Hw ->].
  eapply runs_bind; [apply (runs_consume _ _ _ _ (λ a t _ m', (a = true → t = [x5d]) ∧ (a = false → t = []) ∧ m' = m));
    [done|done|by intros|by intros]|]. cbn beta.
  intros closed c r'' ? -> Hr'' (Hyes & Hno & ->). destruct closed.
  - apply runs_ret; [done|]. rewrite (Hyes eq_refl), app_nil_r. exists [v], (t ++ w).
    split_and!; [done|by rewrite <-(assoc_L (++))|by constructor|simpl; lia|done|by repeat constructor; [lia|]].
  - rewrite (Hno eq_refl) in *. cbn [app] in *.
    eapply runs_bind; [apply (runs_require x2c _ _ _ (λ _ t _ m', t = [x2c] ∧ m' = m)); [done|done|by intros]|]. cbn beta.
    intros _ ? r3 ? -> Hr3 [-> ->].
    eapply runs_bind; [apply (runs_skip_whitespace _ _ _ (λ _ w _ m', space w ∧ m' = m)); [done|by intros]|]. cbn beta.
    intros _ w' r4 ? -> Hr4 [Hw' ->].
    eapply runs_weaken; [apply HA; [done| |done|done]|].
    { repeat (rewrite !length_app in Hf; cbn [length] in Hf). lia. }
    cbn beta. intros _ t2 r5 m' _ (vs & t' & -> & -> & Hvs & -> & Hm' & Hall).
    exists (v :: vs), (t ++ w ++ x2c :: w' ++ t'). split_and!.
    + by rewrite <-(assoc_L (++)).
    + by simpl; rewrite <-!(assoc_L (++)); simpl; rewrite <-!(assoc_L (++)).
    + by constructor.
    + csimpl. unfold sumZ. simpl. fold (sumZ (json_items <$> vs)). lia.
    + done.
    + by constructor; [split; [lia|]|].
Qed.

Lemma object_step fuel : value_runs fuel → object_runs fuel → object_runs (S fuel).
Proof using Hitems Hstrings.
  intros HV HO depth entries keys pre rest cnt Hv Hf Hc Hd. cbn [object_loop]. apply runs_peek.
  case_bool_decide as Hq; [|by apply runs_missing]. cbn [negb].
  eapply runs_bind; [apply (runs_string _ _ _ (λ k t _ m, quoted k t ∧ len k ≤ jl_max_string_bytes limits ∧ m = cnt));
    [done|done|done|by intros]|]. cbn beta.
  intros k tk r1 ? -> Hr1 (Hk & Hklen & ->). case_bool_decide as Hdup; [by apply runs_fail|].
  eapply runs_bind; [apply (runs_charge _ _ _ (λ _ t _ m, t = [] ∧ m = cnt + 1 ∧ m ≤ jl_max_items limits)); by try lia|].
  cbn beta. intros _ ? r1' ? -> _ (-> & -> & Hc1). cbn [app] in *. rewrite (app_nil_r (pre ++ tk)).
  eapply runs_bind; [apply (runs_skip_whitespace _ _ _ (λ _ w _ m', space w ∧ m' = cnt + 1)); [done|by intros]|]. cbn beta.
  intros _ w1 r2 ? -> Hr2 [Hw1 ->].
  eapply runs_bind; [apply (runs_require x3a _ _ _ (λ _ t _ m', t = [x3a] ∧ m' = cnt + 1)); [done|done|by intros]|]. cbn beta.
  intros _ ? r3 ? -> Hr3 [-> ->].
  eapply runs_bind; [apply (runs_skip_whitespace _ _ _ (λ _ w _ m', space w ∧ m' = cnt + 1)); [done|by intros]|]. cbn beta.
  intros _ w2 r4 ? -> Hr4 [Hw2 ->].
  repeat (rewrite !length_app in Hf; cbn [length] in Hf).
  eapply runs_bind; [apply HV; [done|lia|done|lia]|]. cbn beta.
  intros v t r5 m -> Hr5 (Ht & Hm & Hmax & Hdepth & Hs). pose proof (json_items_positive v) as Hpos.
  eapply runs_bind; [apply (runs_skip_whitespace _ _ _ (λ _ w _ m', space w ∧ m' = m)); [done|by intros]|]. cbn beta.
  intros _ w r6 ? -> Hr6 [Hw ->].
  eapply runs_bind; [apply (runs_consume _ _ _ _ (λ a t _ m', (a = true → t = [x7d]) ∧ (a = false → t = []) ∧ m' = m));
    [done|done|by intros|by intros]|]. cbn beta.
  intros closed c r7 ? -> Hr7 (Hyes & Hno & ->). destruct closed.
  - apply runs_ret; [done|]. rewrite (Hyes eq_refl). exists [(k, v)], (tk ++ w1 ++ x3a :: w2 ++ t ++ w). csimpl.
    split_and!; [done|by repeat (rewrite <-(assoc_L (++)); simpl)|by apply members_last|apply NoDup_singleton| |simpl; lia|lia|
      by apply Forall_singleton; split_and!; [simpl; lia|..]].
    intros ? ->%list_elem_of_singleton. done.
  - rewrite (Hno eq_refl) in *. cbn [app] in *.
    eapply runs_bind; [apply (runs_require x2c _ _ _ (λ _ t _ m', t = [x2c] ∧ m' = m)); [done|done|by intros]|]. cbn beta.
    intros _ ? r8 ? -> Hr8 [-> ->].
    eapply runs_bind; [apply (runs_skip_whitespace _ _ _ (λ _ w _ m', space w ∧ m' = m)); [done|by intros]|]. cbn beta.
    intros _ w' r9 ? -> Hr9 [Hw' ->].
    repeat (rewrite !length_app in Hf; cbn [length] in Hf).
    eapply runs_weaken; [apply HO; [done|lia|done|done]|].
    cbn beta. intros _ t2 r10 m' _ (ms & t' & -> & -> & Hms & Hnd & Hfresh & -> & Hm' & Hall).
    exists ((k, v) :: ms), (tk ++ w1 ++ x3a :: w2 ++ t ++ w ++ x2c :: w' ++ t'). csimpl. split_and!.
    + done.
    + by repeat (rewrite <-!(assoc_L (++)); simpl).
    + by apply members_more.
    + constructor; [|done]. intros Hin. apply (Hfresh k Hin). left.
    + intros k' [->|Hin]%elem_of_cons; [done|]. intros Hold. apply (Hfresh k' Hin). by right.
    + lia.
    + done.
    + by constructor; [split_and!; [simpl; lia|..]|].
Qed.

(** A value without parts. *)
Lemma scalar_ok depth cnt v :
  cnt + 1 ≤ jl_max_items limits → depth ≤ depth_limit limits → json_items v = 1 → json_depth v = 0 →
  strings_within (jl_max_string_bytes limits) v → value_ok depth cnt v (cnt + 1).
Proof using. intros Hc Hd Hi Hj Hs. split_and!; [lia|lia|lia|done]. Qed.

Lemma literal_step literal v depth pre rest cnt :
  utf8_valid rest = true → cnt + 1 ≤ jl_max_items limits → depth ≤ depth_limit limits → utf8_valid literal = true →
  value_text v literal → json_items v = 1 → json_depth v = 0 → strings_within (jl_max_string_bytes limits) v →
  runs (consume_literal literal;; mret v) pre rest (cnt + 1) (λ v t _ n, value_text v t ∧ value_ok depth cnt v n).
Proof using.
  intros Hv Hc Hd Hl Ht Hi Hj Hs.
  eapply runs_bind; [apply (runs_literal _ _ _ _ (λ _ t _ m, t = literal ∧ m = cnt + 1)); [done|done|by intros]|].
  cbn beta. intros _ t r m -> Hr [-> ->]. apply runs_ret; [done|]. rewrite app_nil_r. split; [done|]. by apply scalar_ok.
Qed.

Lemma array_value_step fuel depth pre rest cnt :
  array_runs fuel → utf8_valid (x5b :: rest) = true → (2 * length rest + 1 < fuel)%nat → cnt + 1 ≤ jl_max_items limits →
  runs (open_bracket depth;; closed ← consume x5d; if closed : bool then mret (JArray []) else array_loop fuel depth [])
    pre (x5b :: rest) (cnt + 1) (λ v t _ n, value_text v t ∧ value_ok depth cnt v n).
Proof using.
  intros HA Hv Hf Hc.
  eapply runs_bind; [apply (runs_open_bracket _ _ _ _ _
    (λ _ t _ m, (∃ w, t = x5b :: w ∧ space w) ∧ depth < depth_limit limits ∧ m = cnt + 1)); [done|done|]|].
  { intros w rest' -> _ Hw Hd. split_and!; [by exists w|done|done]. }
  cbn beta. intros _ ? r ? Heq Hr ((w & -> & Hw) & Hd & ->). injection Heq as ->.
  eapply runs_bind; [apply (runs_consume _ _ _ _ (λ a t _ m', (a = true → t = [x5d]) ∧ (a = false → t = []) ∧ m' = cnt + 1));
    [done|done|by intros|by intros]|]. cbn beta.
  intros closed c r' ? -> Hr' (Hyes & Hno & ->). destruct closed.
  - apply runs_ret; [done|]. rewrite (Hyes eq_refl), app_nil_r. split; [by constructor|].
    split_and!; [done|done|simpl; lia|done].
  - rewrite (Hno eq_refl). cbn [app]. eapply runs_weaken; [apply HA; [done| |done|done]|].
    { rewrite !length_app in Hf. lia. }
    cbn beta. intros _ t2 r2 m _ (vs & t' & -> & -> & Hvs & -> & Hm & Hall).
    split; [by constructor|]. cbn [app]. apply Forall_and in Hall as [Hdepth Hs].
    split_and!; [simpl; lia|done| |by apply elements_within].
    cbn [json_depth]. apply Z.le_trans with (1 + (depth_limit limits - (depth + 1))); [|lia].
    apply Zplus_le_compat_l, max_within; [lia|]. by apply Forall_fmap.
Qed.

Lemma object_value_step fuel depth pre rest cnt :
  object_runs fuel → utf8_valid (x7b :: rest) = true → (2 * length rest + 1 < fuel)%nat → cnt + 1 ≤ jl_max_items limits →
  runs (open_bracket depth;; closed ← consume x7d; if closed : bool then mret (JObject []) else object_loop fuel depth [] [])
    pre (x7b :: rest) (cnt + 1) (λ v t _ n, value_text v t ∧ value_ok depth cnt v n).
Proof using.
  intros HO Hv Hf Hc.
  eapply runs_bind; [apply (runs_open_bracket _ _ _ _ _
    (λ _ t _ m, (∃ w, t = x7b :: w ∧ space w) ∧ depth < depth_limit limits ∧ m = cnt + 1)); [done|done|]|].
  { intros w rest' -> _ Hw Hd. split_and!; [by exists w|done|done]. }
  cbn beta. intros _ ? r ? Heq Hr ((w & -> & Hw) & Hd & ->). injection Heq as ->.
  eapply runs_bind; [apply (runs_consume _ _ _ _ (λ a t _ m', (a = true → t = [x7d]) ∧ (a = false → t = []) ∧ m' = cnt + 1));
    [done|done|by intros|by intros]|]. cbn beta.
  intros closed c r' ? -> Hr' (Hyes & Hno & ->). destruct closed.
  - apply runs_ret; [done|]. rewrite (Hyes eq_refl), app_nil_r. split; [by constructor|].
    split_and!; [done|done|simpl; lia|done].
  - rewrite (Hno eq_refl). cbn [app]. eapply runs_weaken; [apply HO; [done| |done|done]|].
    { rewrite !length_app in Hf. lia. }
    cbn beta. intros _ t2 r2 m _ (ms & t' & -> & -> & Hms & Hnd & _ & -> & Hm & Hall).
    fold (of_members ms). split; [by constructor|].
    destruct (members_measures ms (jl_max_string_bytes limits) Hnd) as (Hi & Hdp & Hs).
    apply Forall_and in Hall as [Hdepth Hstr].
    split_and!; [rewrite Hi; lia|done| |by apply Hs].
    rewrite Hdp. apply Z.le_trans with (1 + (depth_limit limits - (depth + 1))); [|lia].
    apply Zplus_le_compat_l, max_within; [lia|]. by apply Forall_fmap.
Qed.

Lemma value_step fuel : array_runs fuel → object_runs fuel → value_runs (S fuel).
Proof using Hitems Hstrings.
  intros HA HO depth pre rest cnt Hv Hf Hc Hd. cbn [parse_value].
  eapply runs_bind; [apply (runs_charge _ _ _ (λ _ t _ m, t = [] ∧ m = cnt + 1 ∧ m ≤ jl_max_items limits)); by try lia|].
  cbn beta. intros _ ? r ? -> _ (-> & -> & Hc1). cbn [app] in *. rewrite (app_nil_r pre). apply runs_peek.
  destruct r as [|b rest]; [by apply runs_fail|]. cbn [head length] in *.
  assert (runs (if bool_decide (b = x2d) || is_digit b then lexeme ← parse_number; mret (JNumber lexeme)
      else if bool_decide (b ∈ [x2e; x2b; x4e; x49]) then fail_with InvalidNumber else fail_with (UnexpectedByte b))
      pre (b :: rest) (cnt + 1) (λ v t _ n, value_text v t ∧ value_ok depth cnt v n)) as H.
  { destruct (_ || _); [|destruct (bool_decide _); by apply runs_fail].
    eapply runs_bind; [apply (runs_number _ _ _ (λ n t _ m, n = t ∧ number_text t ∧ m = cnt + 1)); [done|by intros]|].
    cbn beta. intros lexeme t r m Heq Hr (-> & Ht & ->). apply runs_ret; [done|]. rewrite app_nil_r.
    split; [by constructor|]. by apply scalar_ok. }
  destruct b; try exact H; clear H.
  - eapply runs_bind; [apply (runs_string _ _ _ (λ s t _ m, quoted s t ∧ len s ≤ jl_max_string_bytes limits ∧ m = cnt + 1));
      [done|done|done|by intros]|].
    cbn beta. intros s t r m Heq Hr (Ht & Hlen & ->). apply runs_ret; [done|]. rewrite app_nil_r.
    split; [by constructor|]. by apply scalar_ok.
  - apply array_value_step; [done|done|lia|done].
  - by apply literal_step; try constructor.
  - by apply literal_step; try constructor.
  - by apply literal_step; try constructor.
  - apply object_value_step; [done|done|lia|done].
Qed.

Lemma descent_runs fuel : value_runs fuel ∧ array_runs fuel ∧ object_runs fuel.
Proof using Hitems Hstrings.
  induction fuel as [|fuel (IHv & IHa & IHo)].
  - split_and!; repeat intro; lia.
  - split_and!; [by apply value_step|by apply array_step|by apply object_step].
Qed.

Lemma document_runs input :
  utf8_valid input = true → 0 ≤ jl_max_items limits → 0 ≤ depth_limit limits →
  runs (parse_document (S (2 * length input))) [] input 0
    (λ v t rest _, rest = [] ∧ document_text v t ∧ json_items v ≤ jl_max_items limits ∧
       json_depth v ≤ depth_limit limits ∧ strings_within (jl_max_string_bytes limits) v).
Proof using Hitems Hstrings.
  intros Hv Hi Hd. remember (S (2 * length input)) as fuel eqn:Hfuel. unfold parse_document.
  eapply runs_bind; [apply (runs_skip_whitespace _ _ _ (λ _ w _ m', space w ∧ m' = 0)); [done|by intros]|]. cbn beta.
  intros _ w r ? -> Hr [Hw ->].
  eapply runs_bind; [apply (proj1 (descent_runs fuel)); [done| |done|done]|].
  { rewrite length_app in Hfuel. lia. }
  cbn beta. intros v t r' m -> Hr' (Ht & Hm & Hmax & Hdepth & Hs).
  eapply runs_bind; [apply (runs_skip_whitespace _ _ _ (λ _ w _ m', space w)); [done|by intros]|]. cbn beta.
  intros _ w' r'' m' -> Hr'' Hw'. apply runs_get. cbn [at_ pa_position pa_input].
  destruct (Nat.eqb_spec (length ((([] ++ w) ++ t) ++ w')) (length (((([] ++ w) ++ t) ++ w') ++ r''))) as [Heq|_];
    [|by apply runs_fail].
  assert (r'' = []) as -> by (destruct r''; [done|]; rewrite (length_app _ (_ :: _)) in Heq; cbn [length] in Heq; lia).
  apply runs_ret; [done|]. split_and!; [done| |lia|lia|done]. rewrite app_nil_r. by exists w, t, w'.
Qed.
End running.

(** What [parse] returns is the value of a document within the limits, and it
    does not abort. *)
Definition within_limits (limits : JsonLimits) (v : Json) (input : bytes) : Prop :=
  len input ≤ jl_max_bytes limits ∧ json_items v ≤ jl_max_items limits ∧ json_depth v ≤ depth_limit limits ∧
  strings_within (jl_max_string_bytes limits) v.

Definition limits_fit (limits : JsonLimits) : Prop :=
  0 ≤ jl_max_items limits < U64_MAX ∧ 0 ≤ jl_max_string_bytes limits ∧ 0 ≤ jl_max_depth limits ∧
  jl_max_bytes limits ≤ U64_MAX.

Lemma parse_sound input limits :
  limits_fit limits →
  match parse input limits with
  | Ok v => utf8_valid input = true ∧ document_text v input ∧ within_limits limits v input
  | Err _ => True
  | Panic => False
  end.
Proof.
  intros (Hi & Hs & Hd & _). unfold parse. destruct (Z.ltb_spec (jl_max_bytes limits) (len input)) as [|Hbytes]; [done|].
  destruct (utf8_valid input) eqn:Hv.
  - assert (0 ≤ depth_limit limits) as Hd' by (unfold depth_limit, IMPLEMENTATION_MAX_DEPTH; lia).
    pose proof (document_runs limits (proj2 Hi) Hs input Hv (proj1 Hi) Hd') as H. unfold runs, at_ in H. simpl app in H.
    cbn [length] in H. remember (S (2 * length input)) as fuel. destruct (parse_document fuel _) as [[v|e|] s]; [|done..].
    destruct H as (t & rest & n & -> & _ & _ & -> & Ht & H1 & H2 & H3). rewrite app_nil_r in *. by split_and!.
  - destruct (valid_up_to_prefix (length input) input) as [Hp Hle]; [done|]. unfold error_at.
    set (offset := valid_up_to (length input) input) in *.
    assert (length (take offset input) = offset) as Hlen by (rewrite length_take; lia).
    rewrite Hlen, Nat.min_id. pose proof (boundary_split (take offset input) [] eq_refl) as Hb.
    by rewrite app_nil_r, Hlen in Hb; rewrite Hb.
Qed.
