(* ===== verification/JsonExact.v ===== *)
(** * Strict JSON: what the parser returns

    The other half: on a text of the grammar every routine of [Json.v] consumes
    that text and returns its value, and so [parse] accepts exactly the
    documents within the limits. *)

From Stdlib Require Import Strings.Byte.
From stdpp Require Import base tactics numbers list.
From S2P Require Import Prelude Bytes Utf8 Json JsonGrammar JsonSound.

Local Open Scope Z_scope.

Ltac flat := repeat (rewrite <-!(assoc_L (++)) || cbn [app]).
Tactic Notation "flat" "in" "*" := repeat (rewrite <-!(assoc_L (++)) in * || cbn [app] in * ).
Ltac fits := unfold len in *; repeat (rewrite !length_app in * || cbn [length] in * ); lia.

Lemma max_nonneg l : 0 ≤ foldr Z.max 0 l.
Proof. induction l; simpl; lia. Qed.
Lemma max_member x l : x ∈ l → x ≤ foldr Z.max 0 l.
Proof. induction 1; simpl; lia. Qed.

Section eating.
Context (limits : JsonLimits).

(** After [pre] the parser consumes [t], stops before [rest] and returns [a]. *)
Definition eats {A} (p : parser A) (pre t rest : bytes) (n : Z) (a : A) (n' : Z) : Prop :=
  p (at_ pre (t ++ rest) limits n) = (Ok a, at_ (pre ++ t) rest limits n').

Lemma eats_ret {A} (a : A) pre rest n : eats (mret a) pre [] rest n a n.
Proof using. unfold eats. by rewrite (app_nil_r pre). Qed.

Lemma eats_bind {A B} (p : parser A) (k : A → parser B) pre t1 t2 rest n a n1 b n2 :
  eats p pre t1 (t2 ++ rest) n a n1 → eats (k a) (pre ++ t1) t2 rest n1 b n2 →
  eats (p ≫= k) pre (t1 ++ t2) rest n b n2.
Proof using. unfold eats, mbind, st_bind. rewrite <-!(assoc_L (++)). by intros ->. Qed.

(** A last step that consumes nothing. *)
Lemma eats_bind_last {A B} (p : parser A) (k : A → parser B) pre t rest n a n1 b n2 :
  eats p pre t rest n a n1 → eats (k a) (pre ++ t) [] rest n1 b n2 → eats (p ≫= k) pre t rest n b n2.
Proof using. intros Hp Hk. rewrite <-(app_nil_r t). by eapply eats_bind; [|exact Hk]. Qed.

Lemma eats_map {A B} (p : parser A) (f : A → B) pre t rest n a n' :
  eats p pre t rest n a n' → eats (x ← p; mret (f x)) pre t rest n (f a) n'.
Proof using. unfold eats, mbind, st_bind. by intros ->. Qed.

Lemma eats_get {A} (k : Parser → parser A) pre t rest n a n' :
  eats (k (at_ pre (t ++ rest) limits n)) pre t rest n a n' → eats (get ≫= k) pre t rest n a n'.
Proof using. done. Qed.

Lemma eats_peek {A} (k : option byte → parser A) pre t rest n a n' :
  eats (k (head (t ++ rest))) pre t rest n a n' → eats (peek ≫= k) pre t rest n a n'.
Proof using. unfold eats, mbind, st_bind. by rewrite peek_at. Qed.

Lemma eats_advance pre t rest n : eats (advance_by (length t)) pre t rest n tt n.
Proof using. apply advance_at. Qed.

Lemma eats_step {A} b (k : unit → parser A) pre t rest n a n' :
  eats (k tt) (pre ++ [b]) t rest n a n' → eats (advance_by 1 ≫= k) pre (b :: t) rest n a n'.
Proof using. intros H. apply (eats_bind _ _ _ [b] t _ _ tt n); [apply (eats_advance _ [b])|done]. Qed.

Lemma eats_consume b pre rest n : eats (consume b) pre [b] rest n true n.
Proof using. unfold eats. rewrite consume_at. simpl. by rewrite bool_decide_eq_true_2. Qed.

Lemma eats_consume_not b pre rest n : head rest ≠ Some b → eats (consume b) pre [] rest n false n.
Proof using.
  intros Hh. unfold eats. rewrite consume_at, (app_nil_r pre). destruct rest as [|b' rest]; [done|]. simpl.
  rewrite bool_decide_eq_false_2; [done|]. simpl in Hh. congruence.
Qed.

Lemma eats_skip_while f pre t rest n :
  Forall (λ b, f b = true) t → (∀ b, head rest = Some b → f b = false) → eats (skip_while f) pre t rest n tt n.
Proof using.
  intros Ht Hr. unfold eats. rewrite skip_while_at.
  assert (run_length f (t ++ rest) = length t) as ->; [|by rewrite take_app_length, drop_app_length].
  induction Ht as [|b t Hb Ht IH]; simpl; [|by rewrite Hb, IH].
  destruct rest as [|b rest]; [done|]. simpl. by rewrite (Hr b eq_refl).
Qed.

(** What does not start with white space. *)
Definition solid (rest : bytes) : Prop := ∀ b, head rest = Some b → is_json_whitespace b = false.

Lemma eats_space pre w rest n : space w → solid rest → eats skip_whitespace pre w rest n tt n.
Proof using. apply eats_skip_while. Qed.

Lemma eats_charge pre rest n :
  jl_max_items limits < U64_MAX → n + 1 ≤ jl_max_items limits → eats charge_item pre [] rest n tt (n + 1).
Proof using.
  intros Hi Hn. unfold eats, charge_item. munfold_goal. simpl. rewrite u64_checked_add_fits by lia.
  unfold set_item_count. simpl. destruct (Z.ltb_spec (jl_max_items limits) (n + 1)); [lia|].
  by rewrite (app_nil_r pre).
Qed.

(** ** Lexemes *)

Lemma eats_literal literal pre rest n :
  len (pre ++ literal ++ rest) ≤ U64_MAX → eats (consume_literal literal) pre literal rest n tt n.
Proof using.
  intros Hlen. unfold eats, consume_literal. munfold_goal.
  assert (Z.of_nat (length pre) + len literal ≤ U64_MAX) as Hfit by (rewrite !len_app in Hlen; unfold len in *; lia).
  unfold at_. cbn [pa_position pa_input]. rewrite u64_checked_add_fits by done.
  destruct (Z.ltb_spec (len (pre ++ literal ++ rest)) (Z.of_nat (length pre) + len literal)) as [H|_];
    [rewrite !len_app in H; unfold len in H; lia|].
  rewrite drop_app_length, take_app_length, bool_decide_eq_true_2 by done.
  unfold set_position. cbn [pa_input pa_limits pa_item_count]. rewrite (assoc_L (++) pre). do 2 f_equal.
  rewrite length_app. unfold len. lia.
Qed.

Lemma eats_hex_step n value pre b d t rest cnt a :
  hex_digit b = Some d → eats (hex_loop n (Z.lor (Z.shiftl value 4 mod 2 ^ 16) d)) (pre ++ [b]) t rest cnt a cnt →
  eats (hex_loop (S n) value) pre (b :: t) rest cnt a cnt.
Proof using. intros Hd H. cbn [hex_loop]. apply eats_peek. simpl. rewrite Hd. by apply eats_step. Qed.

Lemma eats_hex u t pre rest n : hex_text u t → eats parse_hex_u16 pre t rest n u n.
Proof using.
  intros (a & b & c & d & p & q & r & s & -> & Ha & Hb & Hc & Hd & ->).
  apply hex_digit_bounds in Ha as Hp, Hb as Hq, Hc as Hr, Hd as Hs. unfold parse_hex_u16.
  do 4 (eapply eats_hex_step; [done|]). rewrite (hex_shift 0 p), (hex_shift _ q), (hex_shift _ r), (hex_shift _ s) by lia.
  apply eats_ret.
Qed.

Lemma char_from_u32_scalar s : s < 55296 ∨ 57343 < s → s ≤ 1114111 → char_from_u32 s = Some s.
Proof using.
  intros Hs Hm. unfold char_from_u32. assert (((s <? 55296) || (57343 <? s)) && (s <=? 1114111) = true) as ->; [|done].
  apply andb_true_iff, conj; [|lia]. apply orb_true_iff. lia.
Qed.

Lemma eats_escape s e pre rest n : escape_text s e → eats parse_escape pre e rest n s n.
Proof using.
  intros He. unfold parse_escape. apply eats_peek. destruct He as [| | | | | | | |u h Hh Hu|hi lo h1 h2 H1 H2 Hhi Hlo];
    cbn [app head]; apply eats_step; try apply eats_ret.
  - unfold parse_unicode_escape. rewrite <-(app_nil_r h). pose proof (hex_text_range _ _ Hh).
    eapply eats_bind; [by apply eats_hex|]. cbn beta.
    assert ((55296 <=? u) && (u <=? 56319) = false) as -> by lia.
    assert ((56320 <=? u) && (u <=? 57343) = false) as -> by lia.
    rewrite char_from_u32_scalar by lia. apply eats_ret.
  - unfold parse_unicode_escape. eapply eats_bind; [by apply eats_hex|]. cbn beta.
    assert ((55296 <=? hi) && (hi <=? 56319) = true) as -> by lia.
    eapply (eats_bind _ _ _ [x5c]); [apply eats_consume|]. cbn beta.
    eapply (eats_bind _ _ _ [x75]); [apply eats_consume|]. cbn beta. cbn [negb].
    rewrite <-(app_nil_r h2). eapply eats_bind; [by apply eats_hex|]. cbn beta.
    assert ((56320 <=? lo) && (lo <=? 57343) = true) as -> by lia. cbn [negb].
    rewrite Z.shiftl_mul_pow2 by done. change (2 ^ 10) with 1024.
    rewrite char_from_u32_scalar by lia. apply eats_ret.
Qed.

Lemma eats_next_char c pre rest n : is_char c = true → eats next_char pre c rest n c n.
Proof using.
  intros Hc. unfold next_char. apply eats_get.
  destruct c as [|b c]; [done|]. unfold is_char_boundary. cbn [at_ pa_input pa_position].
  rewrite lookup_app_r, Nat.sub_diag, drop_app_length by done. cbn [lookup list_lookup app].
  rewrite (is_char_head b c Hc), orb_true_r, (is_char_width b c Hc).
  change (b :: c ++ rest) with ((b :: c) ++ rest). rewrite take_app_length. eapply (eats_map _ (λ _, b :: c)). apply (eats_advance _ (b :: c)).
Qed.

(** What a round of the loop pushes for the bytes [e]. *)
Definition pushes (e pushed : bytes) (n : Z) : Prop := ∀ pre rest, eats (match head (e ++ rest) with
    | Some x5c => advance_by 1;; escaped ← parse_escape; mret (encode_utf8 escaped)
    | Some byte => if byte_val byte <=? 31 then fail_with ControlCharacter
        else if byte_val byte <=? 127 then advance_by 1;; mret [byte] else next_char
    | None => fail_with JsonUnexpectedEof
    end) pre e rest n pushed n.

Lemma pushes_char c n : plain_char c → pushes c c n.
Proof using.
  intros (Hc & Hq & Hb & Hctl) pre' rest'. destruct c as [|b c]; [done|]. cbn [app head].
  assert (b ≠ x5c) as Hne.
  { intros ->. destruct c as [|b1 c]; [done|]. apply is_char_width in Hc. done. }
  rewrite (not_backslash b _ (λ b, if byte_val b <=? 31 then fail_with ControlCharacter
    else if byte_val b <=? 127 then advance_by 1;; mret [b] else next_char)) by done.
  pose proof (is_char_width b c Hc) as Hw. unfold char_width in Hw.
  pose proof (byte_val_range b) as Hrange. unfold in_range in Hw.
  destruct (Z.leb_spec (byte_val b) 127) as [Hle|Hgt].
  - assert (c = []) as ->.
    { destruct c; [done|]. destruct (Z.leb_spec 0 (byte_val b)); [done|lia]. }
    destruct (Z.leb_spec (byte_val b) 31); [specialize (Hctl b eq_refl); lia|].
    apply eats_step. apply eats_ret.
  - destruct (Z.leb_spec (byte_val b) 31); [lia|]. by apply eats_next_char.
Qed.

Lemma pushes_escape scalar e n : escape_text scalar e → pushes (x5c :: e) (encode_utf8 scalar) n.
Proof using.
  intros He pre rest. cbn [app head]. apply eats_step. apply (eats_map parse_escape). by apply eats_escape.
Qed.

Lemma eats_round fuel e value pre pushed v t rest n :
  head e ≠ Some x22 → e ≠ [] → pushes e pushed n →
  len (value ++ pushed ++ v) ≤ jl_max_string_bytes limits →
  (len ((value ++ pushed) ++ v) ≤ jl_max_string_bytes limits →
     eats (string_loop fuel (value ++ pushed)) (pre ++ e) (t ++ [x22]) rest n ((value ++ pushed) ++ v) n) →
  eats (string_loop (S fuel) value) pre ((e ++ t) ++ [x22]) rest n (value ++ pushed ++ v) n.
Proof using.
  intros Hq Hne He Hlen IH. cbn [string_loop]. apply eats_peek.
  rewrite <-!(assoc_L (++)). destruct e as [|b e]; [done|]. unfold pushes in He. cbn [app head] in *.
  rewrite bool_decide_eq_false_2 by done. change (b :: e ++ t ++ [x22]) with ((b :: e) ++ t ++ [x22]).
  eapply eats_bind; [apply He|]. cbn beta. apply eats_get. cbn [at_ pa_limits].
  rewrite (assoc_L (++) value) in Hlen |- *. pose proof (len_nonneg v).
  destruct (Z.ltb_spec (jl_max_string_bytes limits) (len (value ++ pushed))); [|by apply IH].
  rewrite len_app in Hlen. lia.
Qed.

Lemma eats_string_loop fuel value pre v t rest n :
  string_text v t → (length t < fuel)%nat → len (value ++ v) ≤ jl_max_string_bytes limits →
  eats (string_loop fuel value) pre (t ++ [x22]) rest n (value ++ v) n.
Proof using.
  intros Ht. revert fuel value pre.
  induction Ht as [|c v t Hc Ht IH|scalar e v t He Ht IH]; intros fuel value pre Hf Hlen;
    (destruct fuel as [|fuel]; [lia|]).
  - cbn [string_loop]. apply eats_peek. cbn [app head]. rewrite bool_decide_eq_true_2 by done.
    apply eats_step. rewrite (app_nil_r value). apply eats_ret.
  - destruct c as [|b c]; [by destruct Hc|]. rewrite length_app in Hf. simpl in Hf.
    apply eats_round; [|done|by apply pushes_char|done|intros; apply IH; [lia|done]].
    intros [= ->]. destruct Hc as (Hc & Hq & _). destruct c as [|b1 c]; [done|]. apply is_char_width in Hc. done.
  - simpl in Hf. rewrite length_app in Hf.
    apply (eats_round fuel (x5c :: e)); [done|done|by apply pushes_escape|done|intros; apply IH; [lia|done]].
Qed.

Lemma eats_string s t pre rest n :
  quoted s t → len s ≤ jl_max_string_bytes limits → eats parse_string pre t rest n s n.
Proof using.
  intros (body & -> & Hb) Hlen. unfold parse_string. apply eats_peek. cbn [app head].
  rewrite bool_decide_eq_true_2 by done. apply eats_step. apply eats_get. apply (eats_string_loop _ []); [done| |done].
  unfold at_. cbn [pa_input]. rewrite !length_app. lia.
Qed.

(** ** Numbers *)

(** What may come after a number. *)
Definition stops (rest : bytes) : Prop :=
  ∀ b, head rest = Some b → is_digit b = false ∧ continues_number b = false.

Lemma eats_digits t pre rest n :
  digits t → (∀ b, head rest = Some b → is_digit b = false) → eats require_digits pre t rest n tt n.
Proof using.
  intros [Hne Ht] Hr. unfold require_digits. apply eats_peek. destruct Ht as [|b t Hb Ht]; [done|].
  cbn [app head]. rewrite Hb. apply eats_skip_while; [by constructor|done].
Qed.

Lemma eats_integer t pre rest n :
  integer_text t → (∀ b, head rest = Some b → is_digit b = false) → eats parse_integer pre t rest n tt n.
Proof using.
  intros Ht Hr. unfold parse_integer. apply eats_peek. destruct Ht as [->|(d & ds & -> & Hd & Hds)]; cbn [app head].
  - rewrite bool_decide_eq_true_2 by done. apply eats_step. apply eats_peek. cbn [app].
    destruct (head rest) as [b|] eqn:Hb; [rewrite (Hr b eq_refl)|]; apply eats_ret.
  - rewrite bool_decide_eq_false_2 by (by intros ->). rewrite Hd. apply eats_step. by apply eats_skip_while.
Qed.

Lemma eats_fraction t pre rest n :
  fraction_text t → (∀ b, head rest = Some b → is_digit b = false) → head rest ≠ Some x2e →
  eats parse_fraction pre t rest n tt n.
Proof using.
  intros Ht Hr Hp. unfold parse_fraction. destruct Ht as [->|(ds & -> & Hds)].
  - apply (eats_bind _ _ _ [] [] _ _ false n); [by apply eats_consume_not|]. apply eats_ret.
  - apply (eats_bind _ _ _ [x2e] ds _ _ true n); [apply eats_consume|]. by apply eats_digits.
Qed.

Lemma eats_exponent t pre rest n : exponent_text t → stops rest → eats parse_exponent pre t rest n tt n.
Proof using.
  intros Ht Hr. unfold parse_exponent. apply eats_peek. destruct Ht as [->|(e & sign & ds & -> & He & Hsign & Hds)].
  - cbn [app]. destruct (head rest) as [b|] eqn:Hb; [|apply eats_ret]. destruct (Hr b Hb) as [_ Hc].
    destruct b; try apply eats_ret; done.
  - assert (eats (sign ← peek; match sign with Some x2b | Some x2d => advance_by 1 | _ => mret tt end;; require_digits)
      (pre ++ [e]) (sign ++ ds) rest n tt n) as H; [|by destruct He as [->| ->]; cbn [app head]; apply eats_step].
    apply eats_peek. eapply (eats_bind _ _ _ sign ds).
    + destruct Hsign as [->|[->| ->]]; cbn [app head]; [|apply (eats_advance _ [x2b])|apply (eats_advance _ [x2d])].
      destruct Hds as [Hne Hds']. destruct Hds' as [|b t Hb _]; [done|]. cbn [app head].
      destruct b; try apply eats_ret; done.
    + apply eats_digits; [done|]. intros b Hb. by apply Hr.
Qed.

Lemma eats_number t pre rest n : number_text t → stops rest → eats parse_number pre t rest n t n.
Proof using.
  intros (sign & int & frac & exp & -> & Hsign & Hint & Hfrac & Hexp) Hr. unfold parse_number. apply eats_get.
  assert (∀ b, head (exp ++ rest) = Some b → is_digit b = false ∧ b ≠ x2e) as Hexp1.
  { destruct Hexp as [->|(e & s & ds & -> & He & _)]; simpl; intros b.
    - intros Hb. destruct (Hr b Hb) as [Hd Hc]. split; [done|]. by intros ->.
    - intros [= <-]. by destruct He as [->| ->]. }
  assert (∀ b, head (frac ++ exp ++ rest) = Some b → is_digit b = false) as Hfrac1.
  { destruct Hfrac as [->|(ds & -> & _)]; simpl; intros b; [apply Hexp1|by intros [= <-]]. }
  eapply (eats_bind _ _ _ sign (int ++ frac ++ exp) _ _ (bool_decide (sign = [x2d]))).
  { destruct Hsign as [->| ->]; [|apply eats_consume]. apply eats_consume_not.
    destruct Hint as [->|(d & ds & -> & Hd & _)]; [done|]. cbn [app head]. intros [= ->]. done. }
  cbn beta. eapply eats_bind; [apply eats_integer; [done|by rewrite <-(assoc_L (++))]|]. cbn beta.
  eapply eats_bind; [apply eats_fraction; [done|apply Hexp1|]|]; [intros H; by apply Hexp1 in H as [_ []]|]. cbn beta.
  eapply eats_bind_last; [by apply eats_exponent|]. cbn beta. apply eats_peek. cbn [app].
  assert (eats (self ← get; mret (take (pa_position self - pa_position (at_ pre ((sign ++ int ++ frac ++ exp) ++ rest) limits n))
     (drop (pa_position (at_ pre ((sign ++ int ++ frac ++ exp) ++ rest) limits n))
        (pa_input (at_ pre ((sign ++ int ++ frac ++ exp) ++ rest) limits n)))))
     ((((pre ++ sign) ++ int) ++ frac) ++ exp) [] rest n (sign ++ int ++ frac ++ exp) n) as Hdone.
  { assert ((((pre ++ sign) ++ int) ++ frac) ++ exp = pre ++ sign ++ int ++ frac ++ exp) as -> by (by rewrite <-!(assoc_L (++))).
    generalize (sign ++ int ++ frac ++ exp). intros t. apply eats_get. unfold at_. cbn [pa_input pa_position].
    rewrite drop_app_length, length_app, Nat.add_sub_swap, Nat.sub_diag by lia. cbn [plus].
    rewrite take_app_length. apply eats_ret. }
  destruct (head rest) as [b|] eqn:Hb; [|done]. destruct (Hr b Hb) as [_ ->]. done.
Qed.

(** ** Values *)

Lemma stops_space w b rest :
  space w → b = x2c ∨ b = x5d ∨ b = x7d → stops (w ++ b :: rest).
Proof using.
  intros Hw Hb b' H. destruct Hw as [|c w Hc Hw]; cbn [app head] in H; injection H as <-.
  - by destruct Hb as [->|[->| ->]].
  - by destruct c.
Qed.

Lemma stops_end w : space w → stops (w ++ []).
Proof using. intros Hw b H. destruct Hw as [|c w Hc Hw]; [done|]. cbn [app head] in H. injection H as <-. by destruct c. Qed.

Lemma solid_cons b rest : is_json_whitespace b = false → solid (b :: rest).
Proof using. by intros Hb ? [= <-]. Qed.

(** A value starts with no white space and no closing bracket. *)
Lemma value_head v t : value_text v t →
  ∃ b t', t = b :: t' ∧ is_json_whitespace b = false ∧ b ≠ x5d.
Proof using.
  intros []; try (by do 2 eexists).
  - match goal with H : number_text _ |- _ => destruct H as (sign & int & frac & exp & -> & Hsign & Hint & _) end.
    destruct Hsign as [->| ->]; [|by do 2 eexists].
    destruct Hint as [->|(d & ds & -> & Hd & _)]; [by do 2 eexists|]. cbn [app].
    exists d, (ds ++ frac ++ exp). split_and!; [done|by destruct d|by intros ->].
  - match goal with H : quoted _ _ |- _ => destruct H as (body & -> & _) end. by do 2 eexists.
Qed.

Lemma elements_head vs t : elements_text vs t → ∃ b t', t = b :: t' ∧ is_json_whitespace b = false ∧ b ≠ x5d.
Proof using.
  intros [v ? w Hv|v ? w w' ? ? Hv]; apply value_head in Hv as (b & ? & -> & ? & ?); by do 2 eexists.
Qed.

Lemma members_head ms t : members_text ms t → ∃ t', t = x22 :: t'.
Proof using. intros [? ? ? ? ? ? ? (? & -> & _)|? ? ? ? ? ? ? ? ? ? (? & -> & _)]; by eexists. Qed.

Context (Hitems : jl_max_items limits < U64_MAX).

Definition value_eats (v : Json) (t : bytes) : Prop := ∀ fuel depth pre rest n,
  (2 * length t < fuel)%nat → len (pre ++ t ++ rest) ≤ U64_MAX → stops rest →
  n + json_items v ≤ jl_max_items limits → depth + json_depth v ≤ depth_limit limits →
  strings_within (jl_max_string_bytes limits) v → eats (parse_value fuel depth) pre t rest n v (n + json_items v).

Definition elements_eat (vs : list Json) (t : bytes) : Prop := ∀ fuel depth values pre rest n,
  (2 * length t + 1 < fuel)%nat → len (pre ++ (t ++ [x5d]) ++ rest) ≤ U64_MAX →
  n + sumZ (json_items <$> vs) ≤ jl_max_items limits →
  Forall (λ v, depth + 1 + json_depth v ≤ depth_limit limits ∧ strings_within (jl_max_string_bytes limits) v) vs →
  eats (array_loop fuel depth values) pre (t ++ [x5d]) rest n (JArray (values ++ vs)) (n + sumZ (json_items <$> vs)).

Definition members_eat (ms : list (bytes * Json)) (t : bytes) : Prop := ∀ fuel depth entries keys pre rest n,
  (2 * length t + 1 < fuel)%nat → len (pre ++ (t ++ [x7d]) ++ rest) ≤ U64_MAX →
  n + sumZ ((λ m, 1 + json_items m.2) <$> ms) ≤ jl_max_items limits → NoDup ms.*1 →
  (∀ k, k ∈ ms.*1 → ¬ (k ∈ keys)) →
  Forall (λ m, depth + 1 + json_depth m.2 ≤ depth_limit limits ∧ len m.1 ≤ jl_max_string_bytes limits ∧
    strings_within (jl_max_string_bytes limits) m.2) ms →
  eats (object_loop fuel depth entries keys) pre (t ++ [x7d]) rest n
    (JObject (foldl (λ entries m, btree_insert m.1 m.2 entries) entries ms))
    (n + sumZ ((λ m, 1 + json_items m.2) <$> ms)).

Lemma eats_require b pre rest n : eats (require b) pre [b] rest n tt n.
Proof using. unfold require. eapply eats_bind_last; [apply eats_consume|]. apply eats_ret. Qed.

Lemma eats_open_bracket depth b pre w rest n :
  depth < depth_limit limits → space w → solid rest → eats (open_bracket depth) pre (b :: w) rest n tt n.
Proof using.
  intros Hd Hw Hr. unfold open_bracket. apply eats_get. cbn [at_ pa_limits].
  destruct (Z.leb_spec (depth_limit limits) depth); [lia|]. apply eats_step. by apply eats_space.
Qed.

(** A text whose end is in another shape. *)
Lemma eats_text {A} (p : parser A) pre t t' rest n a n' :
  t = t' → eats p pre t' rest n a n' → eats p pre t rest n a n'.
Proof using. by intros ->. Qed.
Lemma eats_count {A} (p : parser A) pre t rest n a m n' :
  m = n' → eats p pre t rest n a m → eats p pre t rest n a n'.
Proof using. by intros ->. Qed.

Lemma eats_last_element v t w : value_eats v t → space w → elements_eat [v] (t ++ w).
Proof using.
  intros HV Hw fuel depth values pre rest n Hf Hlen Hn Hall. apply Forall_singleton in Hall as [Hd Hs].
  destruct fuel as [|fuel]; [lia|]. cbn [array_loop]. unfold sumZ in *. cbn [fmap list_fmap foldr] in *. rewrite Z.add_0_r in *. flat.
  eapply eats_bind; [apply HV; [fits|fits|flat; apply stops_space; auto|lia|lia|done]|]. cbn beta.
  eapply eats_bind; [apply eats_space; [done|by apply solid_cons]|]. cbn beta.
  eapply eats_bind_last; [apply eats_consume|]. apply eats_ret.
Qed.

Lemma eats_more_elements v t w w' vs t' :
  value_eats v t → space w → space w' → elements_text vs t' → elements_eat vs t' →
  elements_eat (v :: vs) (t ++ w ++ x2c :: w' ++ t').
Proof using.
  intros HV Hw Hw' Htext HE fuel depth values pre rest n Hf Hlen Hn Hall. apply Forall_cons in Hall as [[Hd Hs] Hall].
  destruct fuel as [|fuel]; [lia|]. cbn [array_loop]. unfold sumZ in Hn |- *. cbn [fmap list_fmap foldr] in Hn |- *.
  fold (sumZ (json_items <$> vs)) in Hn |- *. pose proof (items_sum_nonneg vs).
  destruct (elements_head _ _ Htext) as (b & t2 & Heq & Hb & _). flat.
  eapply eats_bind; [apply HV; [fits|fits|flat; apply stops_space; auto|lia|lia|done]|]. cbn beta.
  eapply eats_bind; [apply eats_space; [done|by apply solid_cons]|]. cbn beta.
  apply (eats_bind _ _ _ [] _ _ _ false (n + json_items v)); [by apply eats_consume_not|]. cbn beta.
  apply (eats_bind _ _ _ [x2c] _ _ _ tt (n + json_items v)); [apply eats_require|]. cbn beta.
  apply (eats_bind _ _ _ w' (t' ++ [x5d]) _ _ tt (n + json_items v)).
  { apply eats_space; [done|]. rewrite Heq. by apply solid_cons. }
  cbn beta. rewrite Z.add_assoc, (assoc_L (++) values [v] vs : values ++ v :: vs = _).
  apply HE; [fits|fits|lia|done].
Qed.

Lemma eats_member_start fuel depth entries keys pre tk k w1 w2 v t w c tail rest n m a :
  quoted k tk → space w1 → space w2 → value_text v t → value_eats v t → space w →
  (2 * length (tk ++ w1 ++ x3a :: w2 ++ t ++ w) + 1 < S fuel)%nat →
  len (pre ++ (tk ++ w1 ++ x3a :: w2 ++ t ++ w ++ c :: tail) ++ rest) ≤ U64_MAX →
  n + (1 + json_items v) ≤ jl_max_items limits → ¬ (k ∈ keys) → depth + 1 + json_depth v ≤ depth_limit limits →
  len k ≤ jl_max_string_bytes limits → strings_within (jl_max_string_bytes limits) v →
  c = x2c ∨ c = x7d →
  eats (closed ← consume x7d;
        if closed : bool then mret (JObject (btree_insert k v entries))
        else require x2c;; skip_whitespace;; object_loop fuel depth (btree_insert k v entries) (k :: keys))
    (((((pre ++ tk) ++ w1) ++ [x3a]) ++ w2 ++ t) ++ w) (c :: tail) rest (n + (1 + json_items v)) a m →
  eats (object_loop (S fuel) depth entries keys) pre (tk ++ w1 ++ x3a :: w2 ++ t ++ w ++ c :: tail) rest n a m.
Proof using Hitems.
  intros Hk Hw1 Hw2 Htext HV Hw Hf Hlen Hn Hfresh Hd Hkl Hs Hc Hrest. cbn [object_loop]. apply eats_peek.
  pose proof (json_items_positive v).
  assert (head ((tk ++ w1 ++ x3a :: w2 ++ t ++ w ++ c :: tail) ++ rest) = Some x22) as ->
    by (destruct Hk as (body & -> & _); done).
  rewrite bool_decide_eq_true_2 by done. cbn [negb].
  destruct (value_head _ _ Htext) as (b & t2 & Heq & Hb & _).
  eapply eats_bind; [by apply eats_string|]. cbn beta. rewrite bool_decide_eq_false_2 by done.
  apply (eats_bind _ _ _ [] _ _ _ tt (n + 1)); [apply eats_charge; [done|lia]|]. cbn beta. rewrite (app_nil_r (pre ++ tk)).
  eapply eats_bind; [apply eats_space; [done|by apply solid_cons]|]. cbn beta.
  apply (eats_bind _ _ _ [x3a] _ _ _ tt (n + 1)); [apply eats_require|]. cbn beta.
  eapply eats_bind; [apply eats_space; [done|flat; rewrite Heq; by apply solid_cons]|]. cbn beta.
  eapply eats_bind; [apply HV; [fits|fits|flat; apply stops_space; intuition|lia|lia|done]|]. cbn beta.
  eapply eats_bind; [apply eats_space; [done|apply solid_cons; by destruct Hc as [->| ->]]|]. cbn beta.
  rewrite <-Z.add_assoc, <-(assoc_L (++) _ w2 t). exact Hrest.
Qed.

Lemma eats_last_member k tk w1 w2 v t w :
  quoted k tk → space w1 → space w2 → value_text v t → value_eats v t → space w →
  members_eat [(k, v)] (tk ++ w1 ++ x3a :: w2 ++ t ++ w).
Proof using Hitems.
  intros Hk Hw1 Hw2 Htext HV Hw fuel depth entries keys pre rest n Hf Hlen Hn _ Hfresh Hall.
  apply Forall_singleton in Hall as (Hd & Hkl & Hs). cbn [fst snd] in *.
  destruct fuel as [|fuel]; [lia|]. unfold sumZ in *. cbn [fmap list_fmap foldr fst snd foldl] in *. rewrite Z.add_0_r in *.
  eapply eats_text; [by flat|].
  eapply eats_member_start; eauto; [fits|apply Hfresh; left|].
  eapply eats_bind_last; [apply eats_consume|]. apply eats_ret.
Qed.

Lemma eats_more_members k tk w1 w2 v t w w' ms t' :
  quoted k tk → space w1 → space w2 → value_text v t → value_eats v t → space w → space w' →
  members_text ms t' → members_eat ms t' →
  members_eat ((k, v) :: ms) (tk ++ w1 ++ x3a :: w2 ++ t ++ w ++ x2c :: w' ++ t').
Proof using Hitems.
  intros Hk Hw1 Hw2 Htext HV Hw Hw' Hms HM fuel depth entries keys pre rest n Hf Hlen Hn Hnd Hfresh Hall.
  apply Forall_cons in Hall as [(Hd & Hkl & Hs) Hall]. csimpl in Hnd. apply NoDup_cons in Hnd as [Hkms Hnd].
  unfold sumZ in Hn |- *. csimpl in Hn. csimpl in Hfresh. csimpl.
  fold (sumZ ((λ m, 1 + json_items m.2) <$> ms)) in Hn |- *. pose proof (member_items_nonneg ms).
  destruct fuel as [|fuel]; [lia|].
  destruct (members_head _ _ Hms) as (t2 & Heq).
  eapply eats_text; [by flat|].
  eapply eats_member_start; [done..|fits|fits|lia|apply Hfresh; left|done|done|done|by left|].
  eapply (eats_bind _ _ _ []); [by apply eats_consume_not|]. cbn beta.
  eapply (eats_bind _ _ _ [x2c]); [apply eats_require|]. cbn beta.
  eapply (eats_bind _ _ _ w' (t' ++ [x7d])).
  { apply eats_space; [done|]. rewrite Heq. by apply solid_cons. }
  cbn beta. rewrite (Z.add_assoc n (1 + json_items v)).
  apply HM; [fits|fits|lia|done| |done].
  intros k' Hin [->|Hold]%elem_of_cons; [done|]. apply (Hfresh k'); [by right|done].
Qed.

Lemma eats_array w vs t : space w → elements_text vs t → elements_eat vs t → value_eats (JArray vs) (x5b :: w ++ t ++ [x5d]).
Proof using Hitems.
  intros Hw Ht HE fuel depth pre rest n Hf Hlen _ Hn Hd Hs. destruct fuel as [|fuel]; [lia|]. cbn [parse_value].
  pose proof (items_sum_nonneg vs) as Hpos. cbn [json_items json_depth] in *. apply elements_within in Hs.
  destruct (elements_head _ _ Ht) as (b & t2 & Heq & Hb & Hne).
  pose proof (max_nonneg (json_depth <$> vs)).
  apply (eats_bind _ _ _ [] _ _ _ tt (n + 1)); [apply eats_charge; [done|lia]|]. cbn beta. rewrite (app_nil_r pre).
  apply eats_peek. cbn [app head].
  apply (eats_bind _ _ _ (x5b :: w) (t ++ [x5d]) _ _ tt (n + 1)).
  { apply eats_open_bracket; [lia|done|]. rewrite Heq. by apply solid_cons. }
  cbn beta. apply (eats_bind _ _ _ [] _ _ _ false (n + 1)).
  { apply eats_consume_not. rewrite Heq. cbn [app head]. congruence. }
  cbn beta. rewrite Z.add_assoc. apply (HE fuel depth []); [fits|fits|lia|].
  apply Forall_and. split; [|done].
  apply Forall_forall. intros v Hv. pose proof (max_member _ _ (list_elem_of_fmap_2 json_depth _ _ Hv)). lia.
Qed.

Lemma eats_object w ms t :
  space w → members_text ms t → NoDup ms.*1 → members_eat ms t → value_eats (JObject (of_members ms)) (x7b :: w ++ t ++ [x7d]).
Proof using Hitems.
  intros Hw Ht Hnd HM fuel depth pre rest n Hf Hlen _ Hn Hd Hs. destruct fuel as [|fuel]; [lia|]. cbn [parse_value].
  destruct (members_measures ms (jl_max_string_bytes limits) Hnd) as (Ei & Ed & Es).
  rewrite Ei in Hn |- *. rewrite Ed in Hd. apply Es in Hs. pose proof (member_items_nonneg ms) as Hpos.
  destruct (members_head _ _ Ht) as (t2 & Heq).
  pose proof (max_nonneg ((λ m, json_depth m.2) <$> ms)).
  apply (eats_bind _ _ _ [] _ _ _ tt (n + 1)); [apply eats_charge; [done|lia]|]. cbn beta. rewrite (app_nil_r pre).
  apply eats_peek. cbn [app head].
  apply (eats_bind _ _ _ (x7b :: w) (t ++ [x7d]) _ _ tt (n + 1)).
  { apply eats_open_bracket; [lia|done|]. rewrite Heq. by apply solid_cons. }
  cbn beta. apply (eats_bind _ _ _ [] _ _ _ false (n + 1)).
  { apply eats_consume_not. by rewrite Heq. }
  cbn beta. rewrite Z.add_assoc. apply (HM fuel depth [] []); [fits|fits|lia|done|by intros ? _ ?%not_elem_of_nil|].
  apply Forall_and. split; [|done].
  apply Forall_forall. intros m Hm. pose proof (max_member _ _ (list_elem_of_fmap_2 (λ m, json_depth m.2) _ _ Hm)).
  simpl in *. lia.
Qed.

Lemma eats_literal_value literal (v : Json) pre rest n :
  len (pre ++ literal ++ rest) ≤ U64_MAX → eats (consume_literal literal;; mret v) pre literal rest n v n.
Proof using. intros Hlen. by eapply (eats_map _ (λ _, v)), eats_literal. Qed.

(** The start of [parse_value]. *)
Lemma eats_charged {A} (k : unit → parser A) pre t rest n a n' :
  n + 1 ≤ jl_max_items limits → eats (k tt) pre t rest (n + 1) a n' → eats (charge_item ≫= k) pre t rest n a n'.
Proof using Hitems.
  intros Hn Hk. apply (eats_bind _ _ _ [] _ _ _ tt (n + 1)); [by apply eats_charge|]. by rewrite (app_nil_r pre).
Qed.

Lemma eats_empty_array w : space w → value_eats (JArray []) (x5b :: w ++ [x5d]).
Proof using Hitems.
  intros Hw fuel depth pre rest n Hf Hlen _ Hn Hd _. destruct fuel as [|fuel]; [lia|]. cbn [parse_value].
  cbn [json_items json_depth] in *. unfold sumZ in *. cbn [fmap list_fmap foldr] in *.
  apply eats_charged; [lia|]. apply eats_peek. cbn [app head].
  apply (eats_bind _ _ _ (x5b :: w) [x5d] _ _ tt (n + 1)); [apply eats_open_bracket; [lia|done|by apply solid_cons]|].
  cbn beta. eapply eats_bind_last; [apply eats_consume|]. apply eats_ret.
Qed.

Lemma eats_empty_object w : space w → value_eats (JObject []) (x7b :: w ++ [x7d]).
Proof using Hitems.
  intros Hw fuel depth pre rest n Hf Hlen _ Hn Hd _. destruct fuel as [|fuel]; [lia|]. cbn [parse_value].
  cbn [json_items json_depth] in *. unfold sumZ in *. cbn [fmap list_fmap foldr] in *.
  apply eats_charged; [lia|]. apply eats_peek. cbn [app head].
  apply (eats_bind _ _ _ (x7b :: w) [x7d] _ _ tt (n + 1)); [apply eats_open_bracket; [lia|done|by apply solid_cons]|].
  cbn beta. eapply eats_bind_last; [apply eats_consume|]. apply eats_ret.
Qed.

Lemma eats_number_value t : number_text t → value_eats (JNumber t) t.
Proof using Hitems.
  intros Ht fuel depth pre rest n Hf Hlen Hr Hn Hd _. destruct fuel as [|fuel]; [lia|]. cbn [parse_value json_items] in *.
  apply eats_charged; [lia|]. apply eats_peek.
  assert (∃ b t', t = b :: t' ∧ bool_decide (b = x2d) || is_digit b = true) as (b & t' & -> & Hb).
  { destruct Ht as (sign & int & frac & exp & -> & [->| ->] & Hint & _); [|by do 2 eexists].
    destruct Hint as [->|(d & ds & -> & Hd' & _)]; [by do 2 eexists|]. cbn [app]. do 2 eexists. split; [done|].
    apply orb_true_iff. right. unfold is_digit, in_range in *. lia. }
  assert (eats (lexeme ← parse_number; mret (JNumber lexeme)) pre (b :: t') rest (n + 1) (JNumber (b :: t')) (n + 1)) as H
    by (by apply eats_map, eats_number).
  cbn [app head]. destruct b; try done; exact H.
Qed.

Lemma text_eats :
  (∀ v t, value_text v t → value_eats v t) ∧ (∀ vs t, elements_text vs t → elements_eat vs t) ∧
  (∀ ms t, members_text ms t → members_eat ms t).
Proof using Hitems.
  apply text_mutind; intros.
  1-3: intros fuel depth pre rest n Hf Hlen _ Hn Hd _; destruct fuel as [|fuel]; [lia|]; cbn [parse_value json_items] in *;
    apply eats_charged; [lia|]; apply eats_peek; cbn [app head]; by apply eats_literal_value.
  - by apply eats_number_value.
  - intros fuel depth pre rest n Hf Hlen _ Hn Hd Hs. destruct fuel as [|fuel]; [lia|]. cbn [parse_value json_items] in *.
    apply eats_charged; [lia|]. apply eats_peek.
    assert (head (t ++ rest) = Some x22) as -> by (destruct q as (body & -> & _); done).
    by apply eats_map, eats_string.
  - by apply eats_empty_array.
  - by apply eats_array.
  - by apply eats_empty_object.
  - by apply eats_object.
  - by apply eats_last_element.
  - by apply eats_more_elements.
  - by apply eats_last_member.
  - by apply eats_more_members.
Qed.
End eating.

Lemma parse_complete input limits v :
  limits_fit limits → utf8_valid input = true → document_text v input → within_limits limits v input →
  parse input limits = Ok v.
Proof.
  intros (Hi & _ & _ & Hfit) Hv (w & t & w' & -> & Hw & Ht & Hw') (Hlen & Hitems & Hdepth & Hs). unfold parse.
  destruct (Z.ltb_spec (jl_max_bytes limits) (len (w ++ t ++ w'))) as [|_]; [lia|]. rewrite Hv.
  destruct (value_head _ _ Ht) as (b & t2 & Heq & Hb & _).
  assert (eats limits (parse_document (S (2 * length (w ++ t ++ w')))) [] (w ++ t ++ w') [] 0 v (json_items v)) as H.
  { generalize (eq_refl (S (2 * length (w ++ t ++ w')))). generalize (S (2 * length (w ++ t ++ w'))) at 1 3.
    intros fuel Hfuel. unfold parse_document.
    eapply eats_bind; [apply eats_space; [done|rewrite Heq; by apply solid_cons]|]. cbn beta.
    eapply eats_bind; [apply (proj1 (text_eats limits (proj2 Hi)) v t Ht fuel 0)|]; [fits|fits|by apply stops_end|lia|lia|done|].
    cbn beta. eapply eats_bind_last; [by apply eats_space|]. cbn beta. apply eats_get.
    cbn [at_ pa_position pa_input app]. rewrite (app_nil_r ((w ++ t) ++ w')), Nat.eqb_refl. apply eats_ret. }
  unfold eats, at_ in H. rewrite (app_nil_r (w ++ t ++ w')) in H. cbn [app length] in H. by rewrite H.
Qed.

(** ** Properties *)

(** C11: The parser accepts exactly the language of strict JSON within its limits.
    For every input, [parse] returns a value if and only if the input is valid
    UTF-8 of at most [max_bytes] bytes whose text is that value's, up to white
    space around it, with at most [max_items] items (every value and every key
    of an object is charged), at most [max_depth] brackets and never more than
    128 around a value, and no string of more than [max_string_bytes] bytes.
    Keys of an object are distinct; a number keeps its spelling.  The parser
    never aborts and its recursion ends. *)
Theorem strict_json_accepts_exactly input limits :
  limits_fit limits →
  (∀ v, parse input limits = Ok v ↔
     utf8_valid input = true ∧ document_text v input ∧ within_limits limits v input) ∧
  parse input limits ≠ Panic.
Proof.
  intros Hfit. pose proof (parse_sound input limits Hfit) as Hsound. split; [|by intros E; rewrite E in Hsound].
  intros v. split; [by intros E; rewrite E in Hsound|]. intros (Hv & Ht & Hw). by apply parse_complete.
Qed.

Lemma strict_json_accepts_exactly_witness :
  limits_fit default_json_limits ∧
  document_text (JArray [JNull; JObject [([x61], JNumber [x2d; x30]); ([x62], JString [xc3; xa9])]])
    [x5b; x6e; x75; x6c; x6c; x2c; x20; x7b; x22; x62; x22; x3a; x22; x5c; x75; x30; x30; x45; x39; x22; x2c;
     x22; x61; x22; x3a; x2d; x30; x7d; x5d].
Proof.
  assert (limits_fit default_json_limits) as Hfit by (repeat split; vm_compute; congruence).
  split; [exact Hfit|]. apply (proj1 (strict_json_accepts_exactly _ _ Hfit) _). vm_compute. reflexivity.
Defined.
