(* ===== verification/CanonicalJson.v ===== *)
(** * Canonical JSON

    [crates/fa-reference/src/canonical_json.rs]: the three draft documents, their
    validation from a syntax tree and their canonical encoding.  A routine that
    pushes onto the output is the text it pushes. *)

From Stdlib Require Import Strings.Byte.
From stdpp Require Import base tactics numbers list.
From S2P Require Import Prelude Bytes Decimal Utf8 Json.

Local Open Scope Z_scope.

(** ** Model: documents *)

Definition MAX_DOCUMENT_BYTES : Z := 512 * 1024.
Definition MAX_SAFE_JSON_INTEGER : Z := 9007199254740991.

Inductive DraftBranch := BranchProduction | BranchSandbox.
Inductive ManifestStatus := ExampleOnly | TestedProfile.
Inductive ManifestMediation := ManifestObserveOnly | ManifestCooperativeGate | ManifestBrokeredEffects | ManifestAttestedProfile.
Inductive RestartGrade := GradeUnavailable | GradeDecisionReplay | GradeTraceReplay | GradeFunctionalRestart | GradeExactRestartProfile.
Inductive ClaimClass := ClassInvariant | ClassProof | ClassBoundedModel | ClassStatistical | ClassBenchmark | ClassSlo | ClassHypothesis.
Inductive ClaimStatus := ClaimProposed | ObservedInDeclaredScope.

#[global] Instance restart_grade_eq_dec : EqDecision RestartGrade.
Proof. solve_decision. Defined.

Record ActionProposalV01 := mkActionProposal {
  ap_action_id : bytes;
  ap_tenant_id : bytes;
  ap_run_id : bytes;
  ap_branch : DraftBranch;
  ap_effect_kind : bytes;
  ap_adapter_id : bytes;
  ap_target_binding : bytes;
  ap_payload_sha256 : bytes;
  ap_payload_bytes : Z;
  ap_units : Z;
  ap_policy_epoch : Z;
  ap_required_observations : list bytes;
}.

Record CapabilityManifestV01 := mkCapabilityManifest {
  cm_adapter_id : bytes;
  cm_status : ManifestStatus;
  cm_mediation_mode : ManifestMediation;
  cm_activation_capture : bool;
  cm_restart_grades : list RestartGrade;
  cm_effect_families : list bytes;
  cm_limitations : list bytes;
}.

Record EvidenceClaimV01 := mkEvidenceClaim {
  ec_claim_id : bytes;
  ec_claim_class : ClaimClass;
  ec_status : ClaimStatus;
  ec_assertion : bytes;
  ec_scope : bytes;
  ec_assumptions : list bytes;
  ec_limitations : list bytes;
  ec_source_refs : list bytes;
  ec_evidence_refs : list bytes;
}.

Inductive DraftDocument :=
  | ActionProposal (value : ActionProposalV01)
  | CapabilityManifest (value : CapabilityManifestV01)
  | EvidenceClaim (value : EvidenceClaimV01).

Inductive SchemaVariant := SchemaActionProposal | SchemaCapabilityManifest | SchemaEvidenceClaim.

Definition schema_variant (self : DraftDocument) : SchemaVariant :=
  match self with
  | ActionProposal _ => SchemaActionProposal
  | CapabilityManifest _ => SchemaCapabilityManifest
  | EvidenceClaim _ => SchemaEvidenceClaim
  end.

Inductive CanonicalError :=
  | CeSyntax
  | CeTruncated
  | CeDuplicateKey (key : bytes)
  | CeInputLimit
  | CeMissingField (key : bytes)
  | CeUnknownCriticalField (key : bytes)
  | CeWrongType (key : bytes)
  | CeWrongSchemaVersion (version : bytes)
  | CeInvalidValue (key : bytes)
  | CeIntegerOverflow (key : bytes)
  | CeIntegerOutOfRange (key : bytes)
  | CeDuplicateArrayValue (key : bytes)
  | CeNonCanonical.

Abbreviation canonical_res := (res CanonicalError).
Abbreviation json_map := (list (bytes * Json)).

(** ** Model: what a value may be *)

(** The bytes of one character that is alphanumeric ASCII. *)
Definition is_ascii_alphanumeric (character : bytes) : bool :=
  match character with
  | [b] => in_range 48 57 b || in_range 65 90 b || in_range 97 122 b
  | _ => false
  end.

Definition valid_text (value : bytes) (maximum : Z) : bool :=
  negb (bool_decide (value = [])) && (chars_count value <=? maximum).

Definition valid_identifier (value : bytes) : bool :=
  match chars value with
  | character :: characters =>
    is_ascii_alphanumeric character && (chars_count value <=? 128) &&
    forallb (λ character, is_ascii_alphanumeric character ||
      bool_decide (character ∈ [[x5f]; [x2e]; [x3a]; [x2f]; [x2d]])) characters
  | [] => false
  end.

Definition valid_digest (value : bytes) : bool :=
  (len value =? 64) && forallb (λ byte, is_ascii_digit byte || in_range 97 102 byte) value.

Definition canonical_uint (value : bytes) : bool :=
  bool_decide (value = [x30]) ||
  (negb (bool_decide (head value = Some x30)) && forallb is_ascii_digit value).

Definition branch_of (value : bytes) : canonical_res DraftBranch :=
  if bool_decide (value = ascii_bytes "production") then Ok BranchProduction
  else if bool_decide (value = ascii_bytes "sandbox") then Ok BranchSandbox
  else Err (CeInvalidValue (ascii_bytes "branch")).

Definition manifest_status (value : bytes) : canonical_res ManifestStatus :=
  if bool_decide (value = ascii_bytes "example_only") then Ok ExampleOnly
  else if bool_decide (value = ascii_bytes "tested_profile") then Ok TestedProfile
  else Err (CeInvalidValue (ascii_bytes "status")).

Definition manifest_mediation (value : bytes) : canonical_res ManifestMediation :=
  if bool_decide (value = ascii_bytes "observe_only") then Ok ManifestObserveOnly
  else if bool_decide (value = ascii_bytes "cooperative_gate") then Ok ManifestCooperativeGate
  else if bool_decide (value = ascii_bytes "brokered_effects") then Ok ManifestBrokeredEffects
  else if bool_decide (value = ascii_bytes "attested_profile") then Ok ManifestAttestedProfile
  else Err (CeInvalidValue (ascii_bytes "mediation_mode")).

Definition restart_grade (value : bytes) : canonical_res RestartGrade :=
  if bool_decide (value = ascii_bytes "unavailable") then Ok GradeUnavailable
  else if bool_decide (value = ascii_bytes "decision_replay") then Ok GradeDecisionReplay
  else if bool_decide (value = ascii_bytes "trace_replay") then Ok GradeTraceReplay
  else if bool_decide (value = ascii_bytes "functional_restart") then Ok GradeFunctionalRestart
  else if bool_decide (value = ascii_bytes "exact_restart_profile") then Ok GradeExactRestartProfile
  else Err (CeInvalidValue (ascii_bytes "restart_grades")).

Definition claim_class (value : bytes) : canonical_res ClaimClass :=
  if bool_decide (value = ascii_bytes "invariant") then Ok ClassInvariant
  else if bool_decide (value = ascii_bytes "proof") then Ok ClassProof
  else if bool_decide (value = ascii_bytes "bounded_model") then Ok ClassBoundedModel
  else if bool_decide (value = ascii_bytes "statistical") then Ok ClassStatistical
  else if bool_decide (value = ascii_bytes "benchmark") then Ok ClassBenchmark
  else if bool_decide (value = ascii_bytes "slo") then Ok ClassSlo
  else if bool_decide (value = ascii_bytes "hypothesis") then Ok ClassHypothesis
  else Err (CeInvalidValue (ascii_bytes "claim_class")).

Definition claim_status (value : bytes) : canonical_res ClaimStatus :=
  if bool_decide (value = ascii_bytes "proposed") then Ok ClaimProposed
  else if bool_decide (value = ascii_bytes "observed_in_declared_scope") then Ok ObservedInDeclaredScope
  else Err (CeInvalidValue (ascii_bytes "status")).

(** ** Model: fields of an object *)

Definition root_object (value : Json) : canonical_res json_map :=
  ok_or (json_as_object value) (CeWrongType (ascii_bytes "root")).

(** The loop over the keys present. *)
Fixpoint known_fields (keys expected : list bytes) : canonical_res unit :=
  match keys with
  | [] => Ok tt
  | key :: keys =>
    refuse_if (negb (bool_decide (key ∈ expected))) (CeUnknownCriticalField key);;
    known_fields keys expected
  end.

(** The loop over the keys expected. *)
Fixpoint present_fields (object : json_map) (expected : list bytes) : canonical_res unit :=
  match expected with
  | [] => Ok tt
  | key :: expected =>
    refuse_if (negb (bool_decide (is_Some (btree_get key object)))) (CeMissingField key);;
    present_fields object expected
  end.

Definition fields (object : json_map) (expected : list bytes) : canonical_res unit :=
  known_fields object.*1 expected;;
  present_fields object expected.

Definition string_field (object : json_map) (key : bytes) : canonical_res bytes :=
  value ← ok_or (btree_get key object) (CeMissingField key);
  ok_or (json_as_str value) (CeWrongType key).

Definition bool_field (object : json_map) (key : bytes) : canonical_res bool :=
  ok_or (value ← btree_get key object; json_as_bool value) (CeWrongType key).

Definition text_field (object : json_map) (key : bytes) (maximum : Z) : canonical_res bytes :=
  value ← string_field object key;
  if valid_text value maximum then Ok value else Err (CeInvalidValue key).

Definition identifier_field (object : json_map) (key : bytes) : canonical_res bytes :=
  value ← string_field object key;
  if valid_identifier value then Ok value else Err (CeInvalidValue key).

Definition digest_field (object : json_map) (key : bytes) : canonical_res bytes :=
  value ← string_field object key;
  if valid_digest value then Ok value else Err (CeInvalidValue key).

Definition integer_field (object : json_map) (key : bytes) (minimum maximum : Z) : canonical_res Z :=
  value ← ok_or (btree_get key object) (CeMissingField key);
  match value with
  | JNumber lexeme =>
    refuse_if (negb (canonical_uint lexeme)) (CeInvalidValue key);;
    integer ← ok_or (u64_parse lexeme) (CeIntegerOverflow key);
    if (minimum <=? integer) && (integer <=? maximum) then Ok integer else Err (CeIntegerOutOfRange key)
  | _ => Err (CeWrongType key)
  end.

(** ** Model: arrays *)

(** The loop of [array_strings]; [seen] are the values taken already. *)
Fixpoint take_strings (key : bytes) (validate : bytes → bool) (unique : bool) (values : list Json) (seen : list bytes)
    : canonical_res (list bytes) :=
  match values with
  | [] => Ok []
  | value :: values =>
    value ← ok_or (json_as_str value) (CeWrongType key);
    refuse_if (negb (validate value)) (CeInvalidValue key);;
    refuse_if (unique && bool_decide (value ∈ seen)) (CeDuplicateArrayValue key);;
    result ← take_strings key validate unique values (value :: seen);
    Ok (value :: result)
  end.

Definition array_strings (object : json_map) (key : bytes) (minimum maximum : Z) (validate : bytes → bool)
    (unique : bool) : canonical_res (list bytes) :=
  values ← ok_or (value ← btree_get key object; json_as_array value) (CeWrongType key);
  refuse_if (negb ((minimum <=? len values) && (len values <=? maximum))) (CeIntegerOutOfRange key);;
  take_strings key validate unique values [].

Definition identifier_array (object : json_map) (key : bytes) (maximum : Z) : canonical_res (list bytes) :=
  array_strings object key 0 maximum valid_identifier true.
Definition digest_array (object : json_map) (key : bytes) (maximum : Z) : canonical_res (list bytes) :=
  array_strings object key 0 maximum valid_digest true.
Definition text_array (object : json_map) (key : bytes) (minimum maximum text_maximum : Z) (unique : bool)
    : canonical_res (list bytes) :=
  array_strings object key minimum maximum (λ value, valid_text value text_maximum) unique.

(** The loop of [restart_grades]. *)
Fixpoint take_grades (values : list Json) (seen : list bytes) : canonical_res (list RestartGrade) :=
  match values with
  | [] => Ok []
  | value :: values =>
    value ← ok_or (json_as_str value) (CeWrongType (ascii_bytes "restart_grades"));
    refuse_if (bool_decide (value ∈ seen)) (CeDuplicateArrayValue (ascii_bytes "restart_grades"));;
    grade ← restart_grade value;
    result ← take_grades values (value :: seen);
    Ok (grade :: result)
  end.

Definition restart_grades (object : json_map) : canonical_res (list RestartGrade) :=
  values ← ok_or (value ← btree_get (ascii_bytes "restart_grades") object; json_as_array value)
    (CeWrongType (ascii_bytes "restart_grades"));
  refuse_if (negb ((1 <=? len values) && (len values <=? 5))) (CeIntegerOutOfRange (ascii_bytes "restart_grades"));;
  take_grades values [].

(** ** Model: validation *)

Definition ACTION_FIELDS : list bytes := [
  ascii_bytes "schema_version"; ascii_bytes "action_id"; ascii_bytes "tenant_id"; ascii_bytes "run_id";
  ascii_bytes "branch"; ascii_bytes "effect_kind"; ascii_bytes "adapter_id"; ascii_bytes "target_binding";
  ascii_bytes "payload_sha256"; ascii_bytes "payload_bytes"; ascii_bytes "units"; ascii_bytes "policy_epoch";
  ascii_bytes "required_observations"].
Definition MANIFEST_FIELDS : list bytes := [
  ascii_bytes "schema_version"; ascii_bytes "adapter_id"; ascii_bytes "status"; ascii_bytes "mediation_mode";
  ascii_bytes "activation_capture"; ascii_bytes "restart_grades"; ascii_bytes "effect_families";
  ascii_bytes "limitations"].
Definition CLAIM_FIELDS : list bytes := [
  ascii_bytes "schema_version"; ascii_bytes "claim_id"; ascii_bytes "claim_class"; ascii_bytes "status";
  ascii_bytes "assertion"; ascii_bytes "scope"; ascii_bytes "assumptions"; ascii_bytes "limitations";
  ascii_bytes "source_refs"; ascii_bytes "evidence_refs"].

Definition validate_action (object : json_map) : canonical_res ActionProposalV01 :=
  fields object ACTION_FIELDS;;
  branch_name ← string_field object (ascii_bytes "branch");
  branch ← branch_of branch_name;
  required_observations ← identifier_array object (ascii_bytes "required_observations") 16;
  action_id ← identifier_field object (ascii_bytes "action_id");
  tenant_id ← identifier_field object (ascii_bytes "tenant_id");
  run_id ← identifier_field object (ascii_bytes "run_id");
  effect_kind ← identifier_field object (ascii_bytes "effect_kind");
  adapter_id ← identifier_field object (ascii_bytes "adapter_id");
  target_binding ← identifier_field object (ascii_bytes "target_binding");
  payload_sha256 ← digest_field object (ascii_bytes "payload_sha256");
  payload_bytes ← integer_field object (ascii_bytes "payload_bytes") 0 65536;
  units ← integer_field object (ascii_bytes "units") 1 MAX_SAFE_JSON_INTEGER;
  policy_epoch ← integer_field object (ascii_bytes "policy_epoch") 1 MAX_SAFE_JSON_INTEGER;
  Ok (mkActionProposal action_id tenant_id run_id branch effect_kind adapter_id target_binding payload_sha256
    payload_bytes units policy_epoch required_observations).

Definition validate_manifest (object : json_map) : canonical_res CapabilityManifestV01 :=
  fields object MANIFEST_FIELDS;;
  adapter_id ← identifier_field object (ascii_bytes "adapter_id");
  status_name ← string_field object (ascii_bytes "status");
  status ← manifest_status status_name;
  mediation_name ← string_field object (ascii_bytes "mediation_mode");
  mediation_mode ← manifest_mediation mediation_name;
  activation_capture ← bool_field object (ascii_bytes "activation_capture");
  grades ← restart_grades object;
  effect_families ← identifier_array object (ascii_bytes "effect_families") 128;
  limitations ← text_array object (ascii_bytes "limitations") 1 32 1024 false;
  Ok (mkCapabilityManifest adapter_id status mediation_mode activation_capture grades effect_families limitations).

Definition validate_claim (object : json_map) : canonical_res EvidenceClaimV01 :=
  fields object CLAIM_FIELDS;;
  claim_id ← identifier_field object (ascii_bytes "claim_id");
  class_name ← string_field object (ascii_bytes "claim_class");
  class ← claim_class class_name;
  status_name ← string_field object (ascii_bytes "status");
  status ← claim_status status_name;
  assertion ← text_field object (ascii_bytes "assertion") 2048;
  scope ← text_field object (ascii_bytes "scope") 2048;
  assumptions ← text_array object (ascii_bytes "assumptions") 1 32 1024 false;
  limitations ← text_array object (ascii_bytes "limitations") 1 32 1024 false;
  source_refs ← identifier_array object (ascii_bytes "source_refs") 64;
  evidence_refs ← digest_array object (ascii_bytes "evidence_refs") 64;
  Ok (mkEvidenceClaim claim_id class status assertion scope assumptions limitations source_refs evidence_refs).

Definition validate_json (value : Json) : canonical_res DraftDocument :=
  object ← root_object value;
  version ← string_field object (ascii_bytes "schema_version");
  if bool_decide (version = ascii_bytes "fa.action/0.1") then
    v ← validate_action object; Ok (ActionProposal v)
  else if bool_decide (version = ascii_bytes "fa.capabilities/0.1") then
    v ← validate_manifest object; Ok (CapabilityManifest v)
  else if bool_decide (version = ascii_bytes "fa.claim/0.1") then
    v ← validate_claim object; Ok (EvidenceClaim v)
  else Err (CeWrongSchemaVersion version).

(** ** Model: encoding *)

(** [{:04x}] of a scalar value below 65536. *)
Definition lower_hex_digit (d : Z) : byte := byte_of (if d <? 10 then 48 + d else 87 + d).
Definition lower_hex_4 (n : Z) : bytes :=
  [lower_hex_digit (n / 4096 mod 16); lower_hex_digit (n / 256 mod 16); lower_hex_digit (n / 16 mod 16);
   lower_hex_digit (n mod 16)].

(** What is pushed for one character. *)
Definition json_character (character : bytes) : bytes :=
  match character with
  | [x22] => [x5c; x22]
  | [x5c] => [x5c; x5c]
  | [x08] => [x5c; x62]
  | [x0c] => [x5c; x66]
  | [x0a] => [x5c; x6e]
  | [x0d] => [x5c; x72]
  | [x09] => [x5c; x74]
  | [b] => if byte_val b <=? 31 then [x5c; x75] ++ lower_hex_4 (byte_val b) else character
  | _ => character
  end.

Definition json_string (value : bytes) : bytes := [x22] ++ concat (json_character <$> chars value) ++ [x22].

Definition object_start : bytes := [x7b].
Definition object_end : bytes := [x7d].
Definition comma : bytes := [x2c].
Definition field_name (name : bytes) : bytes := json_string name ++ [x3a].
Definition field_string (name value : bytes) : bytes := field_name name ++ json_string value.
Definition field_uint (name : bytes) (value : Z) : bytes := field_name name ++ u64_to_string value.
Definition field_bool (name : bytes) (value : bool) : bytes :=
  field_name name ++ (if value then ascii_bytes "true" else ascii_bytes "false").

(** The values of an array, a comma before each but the first. *)
Definition array_items (texts : list bytes) : bytes :=
  concat (imap (λ index text, (if (index =? 0)%nat then [] else comma) ++ text) texts).

Definition field_strings (name : bytes) (values : list bytes) : bytes :=
  field_name name ++ [x5b] ++ array_items (json_string <$> values) ++ [x5d].

Definition branch_name (value : DraftBranch) : bytes :=
  match value with BranchProduction => ascii_bytes "production" | BranchSandbox => ascii_bytes "sandbox" end.
Definition manifest_status_name (value : ManifestStatus) : bytes :=
  match value with ExampleOnly => ascii_bytes "example_only" | TestedProfile => ascii_bytes "tested_profile" end.
Definition manifest_mediation_name (value : ManifestMediation) : bytes :=
  match value with
  | ManifestObserveOnly => ascii_bytes "observe_only"
  | ManifestCooperativeGate => ascii_bytes "cooperative_gate"
  | ManifestBrokeredEffects => ascii_bytes "brokered_effects"
  | ManifestAttestedProfile => ascii_bytes "attested_profile"
  end.
Definition restart_grade_name (value : RestartGrade) : bytes :=
  match value with
  | GradeUnavailable => ascii_bytes "unavailable"
  | GradeDecisionReplay => ascii_bytes "decision_replay"
  | GradeTraceReplay => ascii_bytes "trace_replay"
  | GradeFunctionalRestart => ascii_bytes "functional_restart"
  | GradeExactRestartProfile => ascii_bytes "exact_restart_profile"
  end.
Definition claim_class_name (value : ClaimClass) : bytes :=
  match value with
  | ClassInvariant => ascii_bytes "invariant"
  | ClassProof => ascii_bytes "proof"
  | ClassBoundedModel => ascii_bytes "bounded_model"
  | ClassStatistical => ascii_bytes "statistical"
  | ClassBenchmark => ascii_bytes "benchmark"
  | ClassSlo => ascii_bytes "slo"
  | ClassHypothesis => ascii_bytes "hypothesis"
  end.
Definition claim_status_name (value : ClaimStatus) : bytes :=
  match value with
  | ClaimProposed => ascii_bytes "proposed"
  | ObservedInDeclaredScope => ascii_bytes "observed_in_declared_scope"
  end.

Definition field_restart_grades (name : bytes) (values : list RestartGrade) : bytes :=
  field_name name ++ [x5b] ++ array_items ((λ value, json_string (restart_grade_name value)) <$> values) ++ [x5d].

Definition encode_action (value : ActionProposalV01) : bytes :=
  object_start ++
  field_string (ascii_bytes "action_id") (ap_action_id value) ++ comma ++
  field_string (ascii_bytes "adapter_id") (ap_adapter_id value) ++ comma ++
  field_string (ascii_bytes "branch") (branch_name (ap_branch value)) ++ comma ++
  field_string (ascii_bytes "effect_kind") (ap_effect_kind value) ++ comma ++
  field_uint (ascii_bytes "payload_bytes") (ap_payload_bytes value) ++ comma ++
  field_string (ascii_bytes "payload_sha256") (ap_payload_sha256 value) ++ comma ++
  field_uint (ascii_bytes "policy_epoch") (ap_policy_epoch value) ++ comma ++
  field_strings (ascii_bytes "required_observations") (ap_required_observations value) ++ comma ++
  field_string (ascii_bytes "run_id") (ap_run_id value) ++ comma ++
  field_string (ascii_bytes "schema_version") (ascii_bytes "fa.action/0.1") ++ comma ++
  field_string (ascii_bytes "target_binding") (ap_target_binding value) ++ comma ++
  field_string (ascii_bytes "tenant_id") (ap_tenant_id value) ++ comma ++
  field_uint (ascii_bytes "units") (ap_units value) ++
  object_end.

Definition encode_manifest (value : CapabilityManifestV01) : bytes :=
  object_start ++
  field_bool (ascii_bytes "activation_capture") (cm_activation_capture value) ++ comma ++
  field_string (ascii_bytes "adapter_id") (cm_adapter_id value) ++ comma ++
  field_strings (ascii_bytes "effect_families") (cm_effect_families value) ++ comma ++
  field_strings (ascii_bytes "limitations") (cm_limitations value) ++ comma ++
  field_string (ascii_bytes "mediation_mode") (manifest_mediation_name (cm_mediation_mode value)) ++ comma ++
  field_restart_grades (ascii_bytes "restart_grades") (cm_restart_grades value) ++ comma ++
  field_string (ascii_bytes "schema_version") (ascii_bytes "fa.capabilities/0.1") ++ comma ++
  field_string (ascii_bytes "status") (manifest_status_name (cm_status value)) ++
  object_end.

Definition encode_claim (value : EvidenceClaimV01) : bytes :=
  object_start ++
  field_string (ascii_bytes "assertion") (ec_assertion value) ++ comma ++
  field_strings (ascii_bytes "assumptions") (ec_assumptions value) ++ comma ++
  field_string (ascii_bytes "claim_class") (claim_class_name (ec_claim_class value)) ++ comma ++
  field_string (ascii_bytes "claim_id") (ec_claim_id value) ++ comma ++
  field_strings (ascii_bytes "evidence_refs") (ec_evidence_refs value) ++ comma ++
  field_strings (ascii_bytes "limitations") (ec_limitations value) ++ comma ++
  field_string (ascii_bytes "schema_version") (ascii_bytes "fa.claim/0.1") ++ comma ++
  field_string (ascii_bytes "scope") (ec_scope value) ++ comma ++
  field_strings (ascii_bytes "source_refs") (ec_source_refs value) ++ comma ++
  field_string (ascii_bytes "status") (claim_status_name (ec_status value)) ++
  object_end.

Definition canonical_encode (document : DraftDocument) : bytes :=
  match document with
  | ActionProposal value => encode_action value
  | CapabilityManifest value => encode_manifest value
  | EvidenceClaim value => encode_claim value
  end.

(** ** Model: decoding *)

Definition canonical_limits : JsonLimits := mkJsonLimits MAX_DOCUMENT_BYTES 8 1024 8192.

Definition map_syntax_error (error : JsonError) : CanonicalError :=
  match je_kind error with
  | JsonUnexpectedEof => CeTruncated
  | JsonDuplicateKey key => CeDuplicateKey key
  | DepthLimit | SizeLimit | ItemLimit | StringLimit => CeInputLimit
  | _ => CeSyntax
  end.

Definition decode_canonical (bs : bytes) : canonical_res DraftDocument :=
  value ← map_err map_syntax_error (parse bs canonical_limits);
  document ← validate_json value;
  if bool_decide (canonical_encode document = bs) then Ok document else Err CeNonCanonical.
