(* ===== verification/CanonicalText.v ===== *)
(** * Canonical JSON: the text of a document

    What [CanonicalJson.v] writes is a text of the grammar of [JsonGrammar.v],
    that of the members in alphabetical order, and it is within the limits. *)

From Stdlib Require Import Strings.Byte.
From stdpp Require Import base tactics numbers list.
From S2P Require Import Prelude Bytes Decimal Utf8 Json JsonGrammar JsonSound CanonicalJson.

Local Open Scope Z_scope.

(** ** Valid UTF-8 *)

Definition ascii_text (t : bytes) : Prop := Forall (λ b, byte_val b ≤ 127) t.

Lemma ascii_text_valid t rest : ascii_text t → utf8_valid (t ++ rest) = utf8_valid rest.
Proof. induction 1 as [|b t Hb _ IH]; [done|]. cbn [app]. by rewrite ascii_valid. Qed.

Lemma ascii_text_valid' t : ascii_text t → utf8_valid t = true.
Proof. intros Ht. by rewrite <-(app_nil_r t), ascii_text_valid. Qed.

Lemma ascii_text_app s t : ascii_text s → ascii_text t → ascii_text (s ++ t).
Proof. intros. by apply Forall_app. Qed.

Lemma space_ascii_text w : space w → ascii_text w.
Proof. intros Hw. eapply Forall_impl; [done|]. apply space_ascii. Qed.
Lemma digit_ascii_text t : Forall (λ b, is_digit b = true) t → ascii_text t.
Proof. intros Ht. eapply Forall_impl; [done|]. apply digit_ascii. Qed.

Lemma number_ascii t : number_text t → ascii_text t.
Proof.
  intros (sign & int & frac & exp & -> & Hsign & Hint & Hfrac & Hexp). repeat apply ascii_text_app.
  - destruct Hsign as [->| ->]; by repeat constructor.
  - destruct Hint as [->|(d & ds & -> & Hd & Hds)]; [by repeat constructor|].
    constructor; [unfold in_range in Hd; lia|by apply digit_ascii_text].
  - destruct Hfrac as [->|(ds & -> & _ & Hds)]; constructor; [done|by apply digit_ascii_text].
  - destruct Hexp as [->|(e & s & ds & -> & He & Hs & _ & Hds)]; constructor; [by destruct He as [->| ->]|].
    apply ascii_text_app; [destruct Hs as [->|[->| ->]]; by repeat constructor|by apply digit_ascii_text].
Qed.

Lemma hex_ascii u t : hex_text u t → ascii_text t.
Proof.
  intros (a & b & c & d & p & q & r & s & -> & Ha & Hb & Hc & Hd & _).
  apply hex_digit_bounds in Ha as [_ ?], Hb as [_ ?], Hc as [_ ?], Hd as [_ ?]. by repeat constructor.
Qed.

(** An escape is ASCII and stands for one character. *)
Lemma escape_chars scalar e : escape_text scalar e → ascii_text e ∧ is_char (encode_utf8 scalar) = true.
Proof.
  intros [| | | | | | | |u h Hh Hu|hi lo h1 h2 H1 H2 Hhi Hlo]; try (split; [by repeat constructor|done]).
  - pose proof (hex_text_range _ _ Hh). split; [constructor; [done|by eapply hex_ascii]|].
    apply encode_utf8_char; [|lia]. unfold char_from_u32.
    assert (((u <? 55296) || (57343 <? u)) && (u <=? 1114111) = true) as ->; [|done].
    apply andb_true_iff. split; [|lia]. apply orb_true_iff. lia.
  - split.
    + constructor; [done|]. apply ascii_text_app; [by eapply hex_ascii|]. do 2 (constructor; [done|]). by eapply hex_ascii.
    + apply encode_utf8_char; [|lia]. unfold char_from_u32.
      assert (((65536 + (hi - 55296) * 1024 + (lo - 56320) <? 55296) || (57343 <? 65536 + (hi - 55296) * 1024 + (lo - 56320)))
        && (65536 + (hi - 55296) * 1024 + (lo - 56320) <=? 1114111) = true) as ->; [|done].
      apply andb_true_iff. split; [|lia]. apply orb_true_iff. lia.
Qed.

Lemma string_text_valid v t rest :
  string_text v t → utf8_valid v = true ∧ utf8_valid (t ++ rest) = utf8_valid rest.
Proof.
  induction 1 as [|c v t (Hc & _) _ [IHv IHt]|scalar e v t He _ [IHv IHt]]; [done|..].
  - rewrite <-(assoc_L (++)). by rewrite !(utf8_valid_char c) by done.
  - apply escape_chars in He as [He Hc]. rewrite utf8_valid_char by done. split; [done|]. cbn [app].
    by rewrite ascii_valid, <-(assoc_L (++)), ascii_text_valid by done.
Qed.

Lemma quoted_valid s t rest : quoted s t → utf8_valid s = true ∧ utf8_valid (t ++ rest) = utf8_valid rest.
Proof.
  intros (body & -> & Hb). cbn [app]. rewrite ascii_valid, <-(assoc_L (++)) by done.
  destruct (string_text_valid s body ([x22] ++ rest) Hb) as [Hs ->]. split; [done|]. by apply (ascii_valid x22).
Qed.

(** Every string of a value, keys included, is valid. *)
Fixpoint json_utf8 (v : Json) : Prop :=
  match v with
  | JString s => utf8_valid s = true
  | JArray vs => foldr (λ v P, json_utf8 v ∧ P) True vs
  | JObject ms => foldr (λ m P, json_utf8 m.2 ∧ P) True ms
  | _ => True
  end.

Lemma elements_utf8 vs : json_utf8 (JArray vs) ↔ Forall json_utf8 vs.
Proof. cbn [json_utf8]. induction vs as [|v vs IH]; simpl; [by rewrite Forall_nil|]. by rewrite Forall_cons, IH. Qed.
Lemma members_utf8 ms : json_utf8 (JObject ms) ↔ Forall (λ m, json_utf8 m.2) ms.
Proof. cbn [json_utf8]. induction ms as [|v vs IH]; simpl; [by rewrite Forall_nil|]. by rewrite Forall_cons, IH. Qed.

Ltac text_valid := repeat first [ rewrite <-(assoc_L (++)) | progress cbn [app]
  | rewrite ascii_valid by done | rewrite ascii_text_valid by (by apply space_ascii_text) ].

(** A text of the grammar is valid and so are the strings of its value. *)
Lemma text_utf8 :
  (∀ v t, value_text v t → json_utf8 v ∧ ∀ rest, utf8_valid (t ++ rest) = utf8_valid rest) ∧
  (∀ vs t, elements_text vs t → Forall json_utf8 vs ∧ ∀ rest, utf8_valid (t ++ rest) = utf8_valid rest) ∧
  (∀ ms t, members_text ms t → Forall (λ m, json_utf8 m.2) ms ∧ ∀ rest, utf8_valid (t ++ rest) = utf8_valid rest).
Proof.
  apply text_mutind; try (intros; split; [done|intros; by text_valid]).
  - intros t Ht. split; [done|]. intros rest. by apply ascii_text_valid, number_ascii.
  - intros s t Ht. split; [by apply (quoted_valid s t [])|]. intros rest. by apply (quoted_valid s t).
  - intros w vs t Hw _ [IHv IHt]. split; [by apply elements_utf8|]. intros rest. text_valid. rewrite IHt. by text_valid.
  - intros w ms t Hw _ [IHv IHt] Hnd. split; [apply members_utf8; by rewrite of_members_perm|].
    intros rest. text_valid. rewrite IHt. by text_valid.
  - intros v t w _ [IHv IHt] Hw. split; [by constructor|]. intros rest. text_valid. rewrite IHt. by text_valid.
  - intros v t w w' vs t' _ [IHv IHt] Hw Hw' _ [IHvs IHt']. split; [by constructor|]. intros rest. text_valid. rewrite IHt.
    text_valid. by rewrite IHt'.
  - intros k tk w1 w2 v t w Hk Hw1 Hw2 _ [IHv IHt] Hw. split; [by constructor|]. intros rest. text_valid.
    destruct (quoted_valid k tk (w1 ++ x3a :: w2 ++ t ++ w ++ rest) Hk) as [_ ->]. text_valid. rewrite IHt. by text_valid.
  - intros k tk w1 w2 v t w w' ms t' Hk Hw1 Hw2 _ [IHv IHt] Hw Hw' _ [IHms IHt']. split; [by constructor|].
    intros rest. text_valid.
    destruct (quoted_valid k tk (w1 ++ x3a :: w2 ++ t ++ w ++ x2c :: w' ++ t' ++ rest) Hk) as [_ ->]. text_valid.
    rewrite IHt. text_valid. by rewrite IHt'.
Qed.

Lemma document_utf8 v input : document_text v input → json_utf8 v ∧ utf8_valid input = true.
Proof.
  intros (w & t & w' & -> & Hw & Ht & Hw'). destruct (proj1 text_utf8 v t Ht) as [Hv Hvalid]. split; [done|].
  text_valid. rewrite Hvalid. by apply ascii_text_valid', space_ascii_text.
Qed.

(** ** Strings *)

Lemma encode_ascii b : byte_val b ≤ 127 → encode_utf8 (byte_val b) = [b].
Proof. intros Hb. unfold encode_utf8. destruct (Z.ltb_spec (byte_val b) 128); [|lia]. by rewrite byte_of_val. Qed.

(** The escapes that are written. *)
Lemma control_escape b :
  byte_val b ≤ 31 ∨ b = x22 ∨ b = x5c → ∃ e, json_character [b] = x5c :: e ∧ escape_text (byte_val b) e.
Proof.
  intros Hb. assert (∀ n a b p q, hex_digit a = Some p → hex_digit b = Some q → n = p * 16 + q → n < 55296 →
    escape_text n [x75; x30; x30; a; b]) as Hu.
  { intros n a' b' p q Ha Hb' -> Hn. apply escape_unit; [|lia]. by exists x30, x30, a', b', 0, 0, p, q. }
  destruct b; try (exfalso; vm_compute in Hb; naive_solver); eexists; (split; [reflexivity|]);
    first [ constructor; fail | eapply Hu; reflexivity ].
Qed.

Lemma character_text c v t : is_char c = true → string_text v t → string_text (c ++ v) (json_character c ++ t).
Proof.
  intros Hc Ht.
  assert (plain_char c → json_character c = c → string_text (c ++ v) (json_character c ++ t)) as Hplain.
  { intros Hp ->. by constructor. }
  destruct c as [|b [|b1 c]]; [done| |].
  - assert (byte_val b ≤ 127) as Hb by (simpl in Hc; unfold in_range in Hc; lia).
    destruct (decide (byte_val b ≤ 31 ∨ b = x22 ∨ b = x5c)) as [Hesc|Hesc].
    + destruct (control_escape b Hesc) as (e & -> & He). rewrite <-(encode_ascii b Hb). by apply string_escape.
    + apply Hplain; [|].
      * split_and!; [done|intros [= ->]; tauto|intros [= ->]; tauto|intros b' [= <-]; lia].
      * destruct b; try reflexivity; exfalso; vm_compute in Hesc; naive_solver.
  - apply Hplain; [|by destruct b]. by split_and!.
Qed.

Lemma json_string_text s : utf8_valid s = true → quoted s (json_string s).
Proof.
  intros Hs. exists (concat (json_character <$> chars s)). split; [done|]. revert s Hs. apply utf8_ind; [constructor|].
  intros c bs Hc Hv IH. rewrite chars_cons by done. csimpl. by apply character_text.
Qed.

Lemma json_character_length c : is_char c = true → len (json_character c) ≤ 6.
Proof.
  intros Hc. destruct c as [|b [|b1 [|b2 [|b3 [|b4 c]]]]]; try done; by destruct b.
Qed.

Lemma json_string_length s : utf8_valid s = true → len (json_string s) ≤ 6 * chars_count s + 2.
Proof.
  intros Hs. unfold json_string. rewrite !len_app. change (len [x22]) with 1.
  assert (len (concat (json_character <$> chars s)) ≤ 6 * chars_count s); [|lia].
  revert s Hs. apply utf8_ind; [done|]. intros c bs Hc Hv IH. rewrite chars_cons, chars_count_app, chars_count_char by done.
  csimpl. rewrite len_app. pose proof (json_character_length c Hc). lia.
Qed.

(** A string is no longer than four bytes for each character. *)
Lemma string_length s : utf8_valid s = true → len s ≤ 4 * chars_count s.
Proof.
  revert s. apply utf8_ind; [done|]. intros c bs Hc Hv IH. rewrite chars_count_app, chars_count_char, len_app by done.
  assert (len c ≤ 4); [|lia]. by destruct c as [|b [|b1 [|b2 [|b3 [|b4 c]]]]].
Qed.

(** ** Values and members

    A field with the size of its parts: the items it is charged for and the
    length of its text. *)

Definition short (count : Z) (s : bytes) : Prop := utf8_valid s = true ∧ chars_count s ≤ count.

Definition field_ok (v : Json) (t : bytes) (items size : Z) : Prop :=
  value_text v t ∧ json_items v ≤ items ∧ json_depth v ≤ 1 ∧ strings_within 8192 v ∧ len t ≤ size.

Lemma string_ok count s : count ≤ 2048 → short count s → field_ok (JString s) (json_string s) 1 (6 * count + 2).
Proof.
  intros Hc [Hs Hn]. pose proof (string_length s Hs). pose proof (json_string_length s Hs).
  split_and!; [by apply text_string, json_string_text|done|done|simpl; lia|lia].
Qed.

Lemma uint_ok n : 0 ≤ n ≤ U64_MAX → field_ok (JNumber (u64_to_string n)) (u64_to_string n) 1 20.
Proof.
  intros Hn. destruct (u64_to_string_spec n Hn) as (Hd & Hne & Hv & Hl & Hc).
  assert (n = 0 → u64_to_string n = [x30]) as Hzero by (by intros ->).
  remember (u64_to_string n) as bs eqn:Hbs. clear Hbs.
  split_and!; [|done|done|done|unfold len; lia]. apply text_number.
  assert (∀ ds, Forall (λ b, is_ascii_digit b = true) ds → Forall (λ b, is_digit b = true) ds) as Himp.
  { intros ds Hds. eapply Forall_impl; [done|]. intros b. unfold is_ascii_digit, is_digit, in_range. done. }
  exists [], bs, [], []. rewrite !app_nil_r. split_and!; [done|by left| |by left|by left].
  destruct (decide (n = 0)) as [->|Hn0]; [left; by apply Hzero|right].
  destruct Hc as (Hds & b & rest & -> & Hb); [lia|]. exists b, rest. apply Forall_cons in Hds as [Hb' Hds].
  split_and!; [done| |by apply Himp]. unfold is_ascii_digit in Hb'. unfold in_range. lia.
Qed.

Lemma bool_ok b : field_ok (JBool b) (if b then ascii_bytes "true" else ascii_bytes "false") 1 5.
Proof. destruct b; split_and!; try done; constructor. Qed.

(** The items of an array with their separators. *)
Lemma array_items_cons t ts : array_items (t :: ts) = t ++ concat ((λ t, comma ++ t) <$> ts).
Proof.
  assert (∀ f : nat → bytes → bytes, (∀ n t, f n t = comma ++ t) → imap f ts = (λ t, comma ++ t) <$> ts) as Himap.
  { induction ts as [|t' ts IH]; intros f Hf; [done|]. csimpl. rewrite Hf. f_equal. apply IH. intros n s. apply Hf. }
  unfold array_items. cbn [imap concat]. by rewrite Himap.
Qed.

Lemma items_text (f : bytes → bytes) v vs :
  Forall (λ s, value_text (JString s) (f s)) (v :: vs) → elements_text (JString <$> v :: vs) (array_items (f <$> v :: vs)).
Proof.
  csimpl. rewrite array_items_cons. revert v. induction vs as [|v' vs IH]; intros v Hall; csimpl;
    apply Forall_cons in Hall as [Hv Hall].
  - apply (elements_last (JString v) (f v) []); [done|constructor].
  - assert (elements_text (JString v :: (JString <$> v' :: vs))
      (f v ++ [] ++ x2c :: [] ++ f v' ++ concat ((λ t : bytes, comma ++ t) <$> (f <$> vs)))) as H; [|exact H].
    apply elements_more; [done|constructor|constructor|]. by apply IH.
Qed.

Lemma items_length count vs :
  0 ≤ count → Forall (short count) vs → len (array_items (json_string <$> vs)) ≤ len vs * (6 * count + 3).
Proof.
  intros Hc Hall. destruct vs as [|v vs]; [done|]. rewrite fmap_cons, array_items_cons, len_app.
  apply Forall_cons in Hall as [[Hv Hn] Hall]. pose proof (json_string_length v Hv).
  assert (len (concat ((λ t, comma ++ t) <$> (json_string <$> vs))) ≤ len vs * (6 * count + 3)) as Hrest.
  { clear v Hv Hn H. induction Hall as [|v vs [Hv Hn] _ IH]; [done|]. pose proof (json_string_length v Hv).
    change (concat _) with ((comma ++ json_string v) ++ concat ((λ t, comma ++ t) <$> (json_string <$> vs))).
    rewrite !len_app. change (len comma) with 1. change (len (v :: vs)) with (len ([v] ++ vs)). rewrite len_app.
    change (len [v]) with 1. lia. }
  change (len (v :: vs)) with (len ([v] ++ vs)). rewrite len_app. change (len [v]) with 1. lia.
Qed.

Lemma strings_ok maximum count vs :
  0 ≤ count ≤ 2048 → len vs ≤ maximum → Forall (short count) vs →
  field_ok (JArray (JString <$> vs)) ([x5b] ++ array_items (json_string <$> vs) ++ [x5d])
    (1 + maximum) (2 + maximum * (6 * count + 3)).
Proof.
  intros Hc Hm Hall. pose proof (items_length count vs (proj1 Hc) Hall) as Hlen. split_and!.
  - destruct vs as [|v vs]; [apply (text_array_empty []); constructor|].
    apply (JsonGrammar.text_array []); [constructor|]. apply items_text. eapply Forall_impl; [done|].
    intros s [Hs _]. by apply text_string, json_string_text.
  - cbn [json_items]. assert (sumZ (json_items <$> (JString <$> vs)) = len vs) as ->; [|lia].
    clear. induction vs as [|v vs IH]; [done|]. csimpl. unfold sumZ in *. simpl. rewrite IH. unfold len. simpl. lia.
  - cbn [json_depth]. assert (foldr Z.max 0 (json_depth <$> (JString <$> vs)) = 0) as ->; [|done].
    clear. induction vs as [|v vs IH]; [done|]. csimpl. by rewrite IH.
  - apply elements_within, Forall_fmap. eapply Forall_impl; [done|]. intros s [Hs Hn]. simpl.
    pose proof (string_length s Hs). lia.
  - rewrite !len_app. change (len [x5b]) with 1. change (len [x5d]) with 1.
    assert (len vs * (6 * count + 3) ≤ maximum * (6 * count + 3)) by (apply Z.mul_le_mono_nonneg_r; lia). lia.
Qed.

Definition members_ok (ms : json_map) (t : bytes) (items size : Z) : Prop :=
  members_text ms t ∧ sumZ ((λ m, 1 + json_items m.2) <$> ms) ≤ items ∧ len t ≤ size ∧
  Forall (λ m, json_depth m.2 ≤ 1 ∧ len m.1 ≤ 8192 ∧ strings_within 8192 m.2) ms.

Lemma members_ok_last name v t items size :
  utf8_valid name = true → len name ≤ 8192 → field_ok v t items size →
  members_ok [(name, v)] (field_name name ++ t) (1 + items) (len (field_name name) + size).
Proof.
  intros Hn Hl (Ht & Hi & Hd & Hs & Hz). split_and!.
  - unfold field_name. rewrite <-(assoc_L (++)). rewrite <-(app_nil_r t).
    apply (members_last name (json_string name) [] [] v t []); [by apply json_string_text|constructor..| |constructor]. done.
  - unfold sumZ. simpl. lia.
  - rewrite len_app. lia.
  - by apply Forall_singleton.
Qed.

Lemma members_ok_more name v t items size ms t' items' size' :
  utf8_valid name = true → len name ≤ 8192 → field_ok v t items size → members_ok ms t' items' size' →
  members_ok ((name, v) :: ms) ((field_name name ++ t) ++ comma ++ t') (1 + items + items') (len (field_name name) + size + (1 + size')).
Proof.
  intros Hn Hl (Ht & Hi & Hd & Hs & Hz) (Ht' & Hi' & Hz' & Hall). split_and!.
  - unfold field_name. rewrite <-!(assoc_L (++)).
    apply (members_more name (json_string name) [] [] v t [] [] ms t'); [by apply json_string_text|try constructor..|done]. done.
  - csimpl. unfold sumZ in *. cbn [foldr fst snd]. lia.
  - rewrite !len_app. change (len comma) with 1. lia.
  - by constructor.
Qed.

Lemma object_ok ms t items size :
  members_ok ms t items size → NoDup ms.*1 → items < 1024 → size + 2 ≤ MAX_DOCUMENT_BYTES →
  document_text (JObject (of_members ms)) (object_start ++ t ++ object_end) ∧
  within_limits canonical_limits (JObject (of_members ms)) (object_start ++ t ++ object_end).
Proof.
  intros (Ht & Hi & Hz & Hall) Hnd Hitems Hsize. split.
  - exists [], (object_start ++ t ++ object_end), []. rewrite (app_nil_r (object_start ++ _)).
    split_and!; [done|constructor| |constructor]. by apply (text_object []); [constructor|..].
  - destruct (members_measures ms 8192 Hnd) as (Ei & Ed & Es). unfold within_limits. cbn [canonical_limits jl_max_bytes jl_max_items jl_max_string_bytes].
    rewrite Ei, Ed. apply Forall_and in Hall as [Hdepth Hstrings].
    split_and!; [rewrite !len_app; change (len object_start) with 1; change (len object_end) with 1; lia|lia| |by apply Es].
    change (depth_limit canonical_limits) with 8. apply Z.le_trans with (1 + 1); [|done].
    apply Zplus_le_compat_l. apply max_within; [done|]. by apply Forall_fmap.
Qed.
