(* ===== verification/CanonicalDecode.v ===== *)
(** * Canonical JSON: decoding is the inverse of encoding

    The tree of a document, its validation, and the round trip. *)

From Stdlib Require Import Strings.Byte.
From stdpp Require Import base tactics numbers list.
From S2P Require Import Prelude Bytes Decimal Utf8 Json JsonGrammar JsonSound JsonExact CanonicalJson CanonicalText.

Local Open Scope Z_scope.

(** ** Valid documents *)

Definition identifier (s : bytes) : Prop := valid_identifier s = true.
Definition digest (s : bytes) : Prop := valid_digest s = true.
Definition text (maximum : Z) (s : bytes) : Prop := valid_text s maximum = true ∧ utf8_valid s = true.
Definition set_of (maximum : Z) (P : bytes → Prop) (vs : list bytes) : Prop :=
  len vs ≤ maximum ∧ Forall P vs ∧ NoDup vs.
Definition texts (vs : list bytes) : Prop := 1 ≤ len vs ≤ 32 ∧ Forall (text 1024) vs.

Definition valid_action (a : ActionProposalV01) : Prop :=
  identifier (ap_action_id a) ∧ identifier (ap_tenant_id a) ∧ identifier (ap_run_id a) ∧
  identifier (ap_effect_kind a) ∧ identifier (ap_adapter_id a) ∧ identifier (ap_target_binding a) ∧
  digest (ap_payload_sha256 a) ∧ 0 ≤ ap_payload_bytes a ≤ 65536 ∧
  1 ≤ ap_units a ≤ MAX_SAFE_JSON_INTEGER ∧ 1 ≤ ap_policy_epoch a ≤ MAX_SAFE_JSON_INTEGER ∧
  set_of 16 identifier (ap_required_observations a).

Definition valid_manifest (m : CapabilityManifestV01) : Prop :=
  identifier (cm_adapter_id m) ∧ 1 ≤ len (cm_restart_grades m) ≤ 5 ∧ NoDup (cm_restart_grades m) ∧
  set_of 128 identifier (cm_effect_families m) ∧ texts (cm_limitations m).

Definition valid_claim (c : EvidenceClaimV01) : Prop :=
  identifier (ec_claim_id c) ∧ text 2048 (ec_assertion c) ∧ text 2048 (ec_scope c) ∧
  texts (ec_assumptions c) ∧ texts (ec_limitations c) ∧
  set_of 64 identifier (ec_source_refs c) ∧ set_of 64 digest (ec_evidence_refs c).

Definition valid_document (d : DraftDocument) : Prop :=
  match d with
  | ActionProposal a => valid_action a
  | CapabilityManifest m => valid_manifest m
  | EvidenceClaim c => valid_claim c
  end.

(** Their strings are short. *)
Lemma forallb_ok {A} (f : A → bool) xs : forallb f xs = true ↔ Forall (λ x, f x = true) xs.
Proof. induction xs as [|x xs IH]; simpl; [by rewrite Forall_nil|]. by rewrite Forall_cons, <-IH, andb_true_iff. Qed.

Lemma identifier_short s : identifier s → short 128 s.
Proof.
  unfold identifier, valid_identifier. destruct (chars s) as [|c cs] eqn:E; [done|].
  intros [[Hc Hn]%andb_true_iff Hcs]%andb_true_iff. apply Z.leb_le in Hn. split; [|done].
  assert (∀ c, is_ascii_alphanumeric c || bool_decide (c ∈ [[x5f]; [x2e]; [x3a]; [x2f]; [x2d]]) = true → ascii_text c) as Hascii.
  { intros c' [Ha|Hp%bool_decide_eq_true]%orb_true_iff.
    - destruct c' as [|b [|]]; [done| |done]. simpl in Ha. unfold in_range in Ha. repeat constructor. lia.
    - repeat (apply elem_of_cons in Hp as [->|Hp]; [by repeat constructor|]). by apply not_elem_of_nil in Hp. }
  rewrite <-(concat_chars s), E. apply ascii_text_valid'. cbn [concat]. apply ascii_text_app.
  - apply Hascii. by rewrite Hc.
  - apply forallb_ok in Hcs. clear E. induction cs as [|c' cs IH]; [constructor|].
    apply Forall_cons in Hcs as [Hc' Hcs]. cbn [concat]. apply ascii_text_app; [by apply Hascii|by apply IH].
Qed.

Lemma chars_count_length s : chars_count s ≤ len s.
Proof. unfold chars_count, len. pose proof (length_filter (λ b, utf8_tail b = false) s). lia. Qed.

Lemma digest_short s : digest s → short 64 s.
Proof.
  intros [Hl Hd]%andb_true_iff. apply Z.eqb_eq in Hl. pose proof (chars_count_length s). split; [|lia].
  apply ascii_text_valid'. apply forallb_ok in Hd. eapply Forall_impl; [done|]. intros b Hb. simpl in Hb.
  unfold is_ascii_digit, in_range in Hb. lia.
Qed.

Lemma text_short maximum s : text maximum s → short maximum s.
Proof. intros [[_ Hn]%andb_true_iff Hv]. split; [done|]. lia. Qed.

(** ** The tree of a document *)

Definition strings (vs : list bytes) : Json := JArray (JString <$> vs).

Definition action_members (a : ActionProposalV01) : json_map := [
  (ascii_bytes "action_id", JString (ap_action_id a));
  (ascii_bytes "adapter_id", JString (ap_adapter_id a));
  (ascii_bytes "branch", JString (branch_name (ap_branch a)));
  (ascii_bytes "effect_kind", JString (ap_effect_kind a));
  (ascii_bytes "payload_bytes", JNumber (u64_to_string (ap_payload_bytes a)));
  (ascii_bytes "payload_sha256", JString (ap_payload_sha256 a));
  (ascii_bytes "policy_epoch", JNumber (u64_to_string (ap_policy_epoch a)));
  (ascii_bytes "required_observations", strings (ap_required_observations a));
  (ascii_bytes "run_id", JString (ap_run_id a));
  (ascii_bytes "schema_version", JString (ascii_bytes "fa.action/0.1"));
  (ascii_bytes "target_binding", JString (ap_target_binding a));
  (ascii_bytes "tenant_id", JString (ap_tenant_id a));
  (ascii_bytes "units", JNumber (u64_to_string (ap_units a)))].

Definition manifest_members (m : CapabilityManifestV01) : json_map := [
  (ascii_bytes "activation_capture", JBool (cm_activation_capture m));
  (ascii_bytes "adapter_id", JString (cm_adapter_id m));
  (ascii_bytes "effect_families", strings (cm_effect_families m));
  (ascii_bytes "limitations", strings (cm_limitations m));
  (ascii_bytes "mediation_mode", JString (manifest_mediation_name (cm_mediation_mode m)));
  (ascii_bytes "restart_grades", strings (restart_grade_name <$> cm_restart_grades m));
  (ascii_bytes "schema_version", JString (ascii_bytes "fa.capabilities/0.1"));
  (ascii_bytes "status", JString (manifest_status_name (cm_status m)))].

Definition claim_members (c : EvidenceClaimV01) : json_map := [
  (ascii_bytes "assertion", JString (ec_assertion c));
  (ascii_bytes "assumptions", strings (ec_assumptions c));
  (ascii_bytes "claim_class", JString (claim_class_name (ec_claim_class c)));
  (ascii_bytes "claim_id", JString (ec_claim_id c));
  (ascii_bytes "evidence_refs", strings (ec_evidence_refs c));
  (ascii_bytes "limitations", strings (ec_limitations c));
  (ascii_bytes "schema_version", JString (ascii_bytes "fa.claim/0.1"));
  (ascii_bytes "scope", JString (ec_scope c));
  (ascii_bytes "source_refs", strings (ec_source_refs c));
  (ascii_bytes "status", JString (claim_status_name (ec_status c)))].

Definition document_members (d : DraftDocument) : json_map :=
  match d with
  | ActionProposal a => action_members a
  | CapabilityManifest m => manifest_members m
  | EvidenceClaim c => claim_members c
  end.

(** Members in the order of their keys are the object they build. *)
Lemma document_members_sorted d :
  of_members (document_members d) = document_members d ∧ NoDup (document_members d).*1.
Proof. split; [by destruct d|]. by destruct d; apply (bool_decide_unpack _); vm_compute. Qed.

(** ** The encoding of a document is a text of its tree *)

Lemma field_string_ok count s : count ≤ 2048 → short count s → field_ok (JString s) (json_string s) 1 (6 * count + 2).
Proof. apply string_ok. Qed.

Lemma set_ok maximum count P vs :
  0 ≤ count ≤ 2048 → (∀ s, P s → short count s) → set_of maximum P vs →
  field_ok (strings vs) ([x5b] ++ array_items (json_string <$> vs) ++ [x5d]) (1 + maximum) (2 + maximum * (6 * count + 3)).
Proof. intros Hc HP (Hl & Hall & _). apply strings_ok; [done|done|]. by eapply Forall_impl. Qed.

Lemma texts_ok vs :
  texts vs → field_ok (strings vs) ([x5b] ++ array_items (json_string <$> vs) ++ [x5d]) (1 + 32) (2 + 32 * (6 * 1024 + 3)).
Proof.
  intros [Hl Hall]. apply strings_ok; [done|lia|]. eapply Forall_impl; [done|]. intros s. apply text_short.
Qed.

Lemma branch_short b : short 128 (branch_name b).
Proof. by destruct b. Qed.
Lemma status_short s : short 128 (manifest_status_name s).
Proof. by destruct s. Qed.
Lemma mediation_short m : short 128 (manifest_mediation_name m).
Proof. by destruct m. Qed.
Lemma class_short c : short 128 (claim_class_name c).
Proof. by destruct c. Qed.
Lemma claim_status_short s : short 128 (claim_status_name s).
Proof. by destruct s. Qed.
Lemma grade_short g : short 128 (restart_grade_name g).
Proof. by destruct g. Qed.

Lemma grades_ok gs :
  len gs ≤ 5 →
  field_ok (strings (restart_grade_name <$> gs))
    ([x5b] ++ array_items ((λ value, json_string (restart_grade_name value)) <$> gs) ++ [x5d]) (1 + 5) (2 + 5 * (6 * 128 + 3)).
Proof.
  intros Hl. rewrite (list_fmap_compose restart_grade_name json_string gs : (λ value, json_string (restart_grade_name value)) <$> gs = _).
  apply strings_ok; [done|unfold len; by rewrite length_fmap|].
  apply Forall_fmap, Forall_true. intros g. apply grade_short.
Qed.

(** The text of members, in the shape that the encoders write. *)
Definition members_written (ms : json_map) (written : bytes) : Prop :=
  ∃ t items size, written = object_start ++ t ++ object_end ∧ members_ok ms t items size ∧
    items < 1024 ∧ size + 2 ≤ MAX_DOCUMENT_BYTES.

Lemma written_ok ms written :
  members_written ms written → of_members ms = ms → NoDup ms.*1 →
  document_text (JObject ms) written ∧ within_limits canonical_limits (JObject ms) written.
Proof.
  intros (t & items & size & -> & Hms & Hi & Hz) Hsort Hnd. rewrite <-Hsort. by eapply object_ok.
Qed.

(** Literal names. *)
Ltac name_facts := first [ reflexivity | vm_compute; discriminate ].
Lemma safe_u64 n : 1 ≤ n ≤ MAX_SAFE_JSON_INTEGER → 0 ≤ n ≤ U64_MAX.
Proof. unfold MAX_SAFE_JSON_INTEGER. lia. Qed.
Lemma payload_u64 n : 0 ≤ n ≤ 65536 → 0 ≤ n ≤ U64_MAX.
Proof. lia. Qed.

Ltac field_fact := first
  [ apply string_ok; [|first [ by apply identifier_short | by apply digest_short | by apply text_short | apply branch_short
      | apply status_short | apply mediation_short | apply class_short | apply claim_status_short ]]; name_facts
  | apply (string_ok 128); [name_facts|split; name_facts]
  | by apply uint_ok, safe_u64 | by apply uint_ok, payload_u64 | apply bool_ok
  | eapply (set_ok _ 128 identifier); [by split|apply identifier_short|done]
  | eapply (set_ok _ 64 digest); [by split|apply digest_short|done]
  | by apply texts_ok | by apply grades_ok ].

(** The members in their order, then the shape of the whole. *)
Ltac members_fact :=
  repeat first [ eapply members_ok_last; [name_facts|name_facts|field_fact]
               | eapply members_ok_more; [name_facts|name_facts|field_fact|] ].

Lemma written_intro ms t items size written :
  members_ok ms t items size → items < 1024 → size + 2 ≤ MAX_DOCUMENT_BYTES →
  written = object_start ++ t ++ object_end → members_written ms written.
Proof. intros. by exists t, items, size. Qed.

Ltac written_fact :=
  eapply written_intro; [members_fact|vm_compute; reflexivity|vm_compute; discriminate|];
  unfold field_string, field_uint, field_bool, field_strings, field_restart_grades; by rewrite <-!(assoc_L (++)).

Lemma action_written a : valid_action a → members_written (action_members a) (encode_action a).
Proof. intros (? & ? & ? & ? & ? & ? & ? & ? & ? & ? & ?). unfold action_members, encode_action. written_fact. Qed.

Lemma manifest_written m : valid_manifest m → members_written (manifest_members m) (encode_manifest m).
Proof. intros (? & [? ?] & ? & ? & ?). unfold manifest_members, encode_manifest. written_fact. Qed.

Lemma claim_written c : valid_claim c → members_written (claim_members c) (encode_claim c).
Proof. intros (? & ? & ? & ? & ? & ? & ?). unfold claim_members, encode_claim. written_fact. Qed.

Lemma document_written d :
  valid_document d →
  document_text (JObject (document_members d)) (canonical_encode d) ∧
  within_limits canonical_limits (JObject (document_members d)) (canonical_encode d).
Proof.
  intros Hd. destruct (document_members_sorted d) as [Hsort Hnd]. apply written_ok; [|done|done].
  destruct d; [by apply action_written|by apply manifest_written|by apply claim_written].
Qed.

(** ** Validation of the tree of a document *)

Section fields_of_an_object.
Context (o : json_map) (key : bytes).

Lemma string_field_ok s : btree_get key o = Some (JString s) → string_field o key = Ok s.
Proof. unfold string_field. by intros ->. Qed.

Lemma identifier_field_ok s : btree_get key o = Some (JString s) → identifier s → identifier_field o key = Ok s.
Proof. intros Hk Hs. unfold identifier_field. rewrite (string_field_ok s Hk). simpl. by rewrite Hs. Qed.

Lemma digest_field_ok s : btree_get key o = Some (JString s) → digest s → digest_field o key = Ok s.
Proof. intros Hk Hs. unfold digest_field. rewrite (string_field_ok s Hk). simpl. by rewrite Hs. Qed.

Lemma text_field_ok s maximum : btree_get key o = Some (JString s) → text maximum s → text_field o key maximum = Ok s.
Proof. intros Hk [Hs _]. unfold text_field. rewrite (string_field_ok s Hk). simpl. by rewrite Hs. Qed.

Lemma printed_canonical n : 0 ≤ n ≤ U64_MAX → canonical_uint (u64_to_string n) = true ∧ u64_parse (u64_to_string n) = Some n.
Proof.
  intros Hn. destruct (u64_to_string_spec n Hn) as (Hd & Hne & Hv & _ & Hc). split.
  - destruct (decide (n = 0)) as [->|Hn0]; [done|]. unfold canonical_uint. apply orb_true_iff. right.
    destruct Hc as (_ & b & rest & Heq & Hb); [lia|]. apply andb_true_iff. split; [|by apply forallb_ok].
    rewrite Heq. simpl. rewrite bool_decide_eq_false_2; [done|]. intros [= ->]. by apply Hb.
  - rewrite u64_parse_digits, Hv by done. by destruct (Z.leb_spec n U64_MAX); [|lia].
Qed.

Lemma integer_field_ok n minimum maximum :
  btree_get key o = Some (JNumber (u64_to_string n)) → minimum ≤ n ≤ maximum → 0 ≤ n ≤ U64_MAX →
  integer_field o key minimum maximum = Ok n.
Proof.
  intros Hk Hn Hfit. destruct (printed_canonical n Hfit) as [Hc Hp]. unfold integer_field. rewrite Hk. simpl.
  rewrite Hc. simpl. rewrite Hp. simpl. by assert ((minimum <=? n) && (n <=? maximum) = true) as -> by lia.
Qed.

Lemma take_strings_ok validate unique vs seen :
  Forall (λ s, validate s = true) vs → (unique = true → NoDup vs ∧ ∀ s, s ∈ vs → ¬ (s ∈ seen)) →
  take_strings key validate unique (JString <$> vs) seen = Ok vs.
Proof.
  revert seen. induction vs as [|s vs IH]; intros seen Hall Hu; [done|]. apply Forall_cons in Hall as [Hs Hall].
  csimpl. rewrite Hs. simpl.
  assert (unique && bool_decide (s ∈ seen) = false) as ->.
  { destruct unique; [|done]. apply bool_decide_eq_false. apply Hu; [done|left]. }
  simpl. rewrite IH; [done|done|]. intros ->. destruct (Hu eq_refl) as [[Hs' Hnd]%NoDup_cons Hfresh]. split; [done|].
  intros s' Hin [->|Hseen]%elem_of_cons; [done|]. apply (Hfresh s'); [by right|done].
Qed.

Lemma array_strings_ok vs minimum maximum validate unique :
  btree_get key o = Some (strings vs) → minimum ≤ len vs ≤ maximum → Forall (λ s, validate s = true) vs →
  (unique = true → NoDup vs) → array_strings o key minimum maximum validate unique = Ok vs.
Proof.
  intros Hk Hl Hall Hu. unfold array_strings. rewrite Hk. simpl.
  assert (len (JString <$> vs) = len vs) as -> by (unfold len; by rewrite length_fmap).
  assert ((minimum <=? len vs) && (len vs <=? maximum) = true) as -> by lia. simpl.
  apply take_strings_ok; [done|]. intros E. split; [by apply Hu|]. intros s _. apply not_elem_of_nil.
Qed.

Lemma identifier_array_ok vs maximum :
  btree_get key o = Some (strings vs) → set_of maximum identifier vs → identifier_array o key maximum = Ok vs.
Proof. intros Hk (Hl & Hall & Hnd). apply array_strings_ok; [done| |done|done]. split; [apply len_nonneg|done]. Qed.

Lemma digest_array_ok vs maximum :
  btree_get key o = Some (strings vs) → set_of maximum digest vs → digest_array o key maximum = Ok vs.
Proof. intros Hk (Hl & Hall & Hnd). apply array_strings_ok; [done| |done|done]. split; [apply len_nonneg|done]. Qed.

Lemma text_array_ok vs : btree_get key o = Some (strings vs) → texts vs → text_array o key 1 32 1024 false = Ok vs.
Proof.
  intros Hk [Hl Hall]. apply array_strings_ok; [done|done| |done]. eapply Forall_impl; [done|]. by intros s [].
Qed.
End fields_of_an_object.

Lemma restart_grade_named g : restart_grade (restart_grade_name g) = Ok g.
Proof. by destruct g. Qed.
#[global] Instance restart_grade_name_inj : Inj (=) (=) restart_grade_name.
Proof. intros g g' E. pose proof (restart_grade_named g) as H. rewrite E, restart_grade_named in H. by injection H. Qed.

Lemma take_grades_ok gs seen :
  NoDup gs → (∀ g, g ∈ gs → ¬ (restart_grade_name g ∈ seen)) →
  take_grades (JString <$> (restart_grade_name <$> gs)) seen = Ok gs.
Proof.
  intros Hnd. revert seen. induction Hnd as [|g gs Hg Hnd IH]; intros seen Hfresh; [done|]. csimpl.
  rewrite bool_decide_eq_false_2 by (apply Hfresh; left). simpl. rewrite restart_grade_named. simpl.
  rewrite IH; [done|]. intros g' Hin [E%(inj _)|Hseen]%elem_of_cons; [by subst|]. apply (Hfresh g'); [by right|done].
Qed.

Lemma restart_grades_ok o gs :
  btree_get (ascii_bytes "restart_grades") o = Some (strings (restart_grade_name <$> gs)) →
  1 ≤ len gs ≤ 5 → NoDup gs → restart_grades o = Ok gs.
Proof.
  intros Hk Hl Hnd. unfold restart_grades. rewrite Hk. simpl.
  assert (len (JString <$> (restart_grade_name <$> gs)) = len gs) as -> by (unfold len; by rewrite !length_fmap).
  assert ((1 <=? len gs) && (len gs <=? 5) = true) as -> by lia. simpl.
  apply take_grades_ok; [done|]. intros g _. apply not_elem_of_nil.
Qed.

Lemma branch_named b : branch_of (branch_name b) = Ok b.
Proof. by destruct b. Qed.
Lemma status_named s : manifest_status (manifest_status_name s) = Ok s.
Proof. by destruct s. Qed.
Lemma mediation_named m : manifest_mediation (manifest_mediation_name m) = Ok m.
Proof. by destruct m. Qed.
Lemma class_named c : claim_class (claim_class_name c) = Ok c.
Proof. by destruct c. Qed.
Lemma claim_status_named s : claim_status (claim_status_name s) = Ok s.
Proof. by destruct s. Qed.

Ltac field_steps := repeat first
  [ erewrite identifier_field_ok; [|reflexivity|eassumption]
  | erewrite digest_field_ok; [|reflexivity|eassumption]
  | erewrite text_field_ok; [|reflexivity|eassumption]
  | erewrite integer_field_ok; [|reflexivity|eassumption|first [by apply safe_u64|by apply payload_u64]]
  | erewrite identifier_array_ok; [|reflexivity|eassumption]
  | erewrite digest_array_ok; [|reflexivity|eassumption]
  | erewrite text_array_ok; [|reflexivity|eassumption]
  | erewrite restart_grades_ok; [|reflexivity|eassumption|eassumption] ].

Lemma validate_action_ok a : valid_action a → validate_action (action_members a) = Ok a.
Proof.
  intros (? & ? & ? & ? & ? & ? & ? & ? & ? & ? & ?). unfold validate_action. field_steps. by destruct a as [? ? ? []].
Qed.
Lemma validate_manifest_ok m : valid_manifest m → validate_manifest (manifest_members m) = Ok m.
Proof. intros (? & ? & ? & ? & ?). unfold validate_manifest. field_steps. by destruct m as [? [] [] []]. Qed.
Lemma validate_claim_ok c : valid_claim c → validate_claim (claim_members c) = Ok c.
Proof. intros (? & ? & ? & ? & ? & ? & ?). unfold validate_claim. field_steps. by destruct c as [? [] []]. Qed.

Lemma validate_document_ok d : valid_document d → validate_json (JObject (document_members d)) = Ok d.
Proof.
  destruct d as [a|m|c]; cbn [valid_document document_members]; intros Hd.
  - assert (validate_json (JObject (action_members a)) = (v ← validate_action (action_members a); Ok (ActionProposal v)))
      as -> by reflexivity. by rewrite validate_action_ok.
  - assert (validate_json (JObject (manifest_members m)) = (v ← validate_manifest (manifest_members m); Ok (CapabilityManifest v)))
      as -> by reflexivity. by rewrite validate_manifest_ok.
  - assert (validate_json (JObject (claim_members c)) = (v ← validate_claim (claim_members c); Ok (EvidenceClaim v)))
      as -> by reflexivity. by rewrite validate_claim_ok.
Qed.

(** ** What validation establishes *)

Section validated_fields.
Context (o : json_map) (key : bytes).

Lemma string_field_inv s : string_field o key = Ok s → btree_get key o = Some (JString s).
Proof.
  unfold string_field. rewrite then_ok. intros (v & Hv%ok_or_ok & Hs%ok_or_ok). rewrite Hv. destruct v; try done.
  by injection Hs as ->.
Qed.

Lemma btree_get_member v : btree_get key o = Some v → (key, v) ∈ o.
Proof.
  induction o as [|[k w] o' IH]; cbn [btree_get]; [done|]. case_bool_decide as Hk; [intros [= ->]; subst; left|].
  intros H. right. by apply IH.
Qed.

Lemma identifier_field_inv s : identifier_field o key = Ok s → identifier s.
Proof.
  unfold identifier_field. rewrite then_ok. intros (v & _ & Hv). unfold identifier.
  destruct (valid_identifier v) eqn:E; [|done]. by injection Hv as <-.
Qed.

Lemma digest_field_inv s : digest_field o key = Ok s → digest s.
Proof.
  unfold digest_field. rewrite then_ok. intros (v & _ & Hv). unfold digest.
  destruct (valid_digest v) eqn:E; [|done]. by injection Hv as <-.
Qed.

Lemma text_field_inv s maximum : json_utf8 (JObject o) → text_field o key maximum = Ok s → text maximum s.
Proof.
  intros Hu%members_utf8. unfold text_field. rewrite then_ok. intros (v & Hget%string_field_inv%btree_get_member & Hv).
  rewrite Forall_forall in Hu. specialize (Hu _ Hget).
  destruct (valid_text v maximum) eqn:E; [|done]. by injection Hv as <-.
Qed.

Lemma integer_field_inv n minimum maximum : integer_field o key minimum maximum = Ok n → minimum ≤ n ≤ maximum.
Proof.
  unfold integer_field. rewrite then_ok. intros (v & _ & Hv). destruct v; try done.
  apply then_unit_ok in Hv as [_ (n' & _ & Hv)%then_ok]. destruct ((minimum <=? n') && (n' <=? maximum)) eqn:E; [|done].
  injection Hv as ->. lia.
Qed.

Lemma take_strings_inv validate unique vs seen rs :
  take_strings key validate unique vs seen = Ok rs →
  vs = JString <$> rs ∧ Forall (λ s, validate s = true) rs ∧
  (unique = true → NoDup rs ∧ ∀ s, s ∈ rs → ¬ (s ∈ seen)).
Proof.
  revert seen rs. induction vs as [|v vs IH]; intros seen rs; cbn [take_strings].
  { intros [= <-]. split_and!; [done|constructor|]. intros _. split; [constructor|]. by intros s ?%not_elem_of_nil. }
  rewrite then_ok. intros (s & Hs%ok_or_ok & H). apply refuse_ok in H as [Hvalid [Hdup H]%refuse_ok].
  apply then_ok in H as (rs' & Hrs & [= <-]). destruct v; try done. injection Hs as ->.
  apply IH in Hrs as (-> & Hall & Hu). apply negb_false_iff in Hvalid.
  split_and!; [done|by constructor|]. intros ->. destruct (Hu eq_refl) as [Hnd Hfresh].
  rewrite andb_true_l in Hdup. apply bool_decide_eq_false in Hdup. split.
  - constructor; [|done]. intros Hin. apply (Hfresh s Hin). left.
  - intros s' [->|Hin]%elem_of_cons; [done|]. intros Hseen. apply (Hfresh s' Hin). by right.
Qed.

Lemma array_strings_inv minimum maximum validate unique rs :
  array_strings o key minimum maximum validate unique = Ok rs →
  btree_get key o = Some (strings rs) ∧ minimum ≤ len rs ≤ maximum ∧ Forall (λ s, validate s = true) rs ∧
  (unique = true → NoDup rs).
Proof.
  unfold array_strings. rewrite then_ok. intros (vs & Hvs%ok_or_ok & H). apply refuse_ok in H as [Hl H].
  apply bind_Some in Hvs as (v & Hget & Hv). destruct v; try done. injection Hv as ->.
  apply take_strings_inv in H as (-> & Hall & Hu). apply negb_false_iff in Hl.
  assert (len (JString <$> rs) = len rs) as E by (unfold len; by rewrite length_fmap). rewrite E in Hl.
  split_and!; [done|lia|lia|done|]. intros Hun. by apply Hu.
Qed.

Lemma identifier_array_inv maximum rs : identifier_array o key maximum = Ok rs → set_of maximum identifier rs.
Proof. intros (_ & Hl & Hall & Hu)%array_strings_inv. split_and!; [lia|done|by apply Hu]. Qed.
Lemma digest_array_inv maximum rs : digest_array o key maximum = Ok rs → set_of maximum digest rs.
Proof. intros (_ & Hl & Hall & Hu)%array_strings_inv. split_and!; [lia|done|by apply Hu]. Qed.

Lemma text_array_inv rs : json_utf8 (JObject o) → text_array o key 1 32 1024 false = Ok rs → texts rs.
Proof.
  intros Hu%members_utf8 (Hget%btree_get_member & Hl & Hall & _)%array_strings_inv. split; [done|].
  rewrite Forall_forall in Hu. specialize (Hu _ Hget). apply elements_utf8 in Hu. rewrite Forall_fmap in Hu.
  apply Forall_and. by split.
Qed.
End validated_fields.

Lemma restart_grade_inv s g : restart_grade s = Ok g → s = restart_grade_name g.
Proof. unfold restart_grade. repeat case_bool_decide; intros [= <-]; done. Qed.

Lemma take_grades_inv vs seen gs :
  take_grades vs seen = Ok gs →
  length gs = length vs ∧ NoDup gs ∧ ∀ g, g ∈ gs → ¬ (restart_grade_name g ∈ seen).
Proof.
  revert seen gs. induction vs as [|v vs IH]; intros seen gs; cbn [take_grades].
  { intros [= <-]. split_and!; [done|constructor|]. by intros s ?%not_elem_of_nil. }
  rewrite then_ok. intros (s & _ & H). apply refuse_ok in H as [Hdup H].
  apply then_ok in H as (g & Hg%restart_grade_inv & H). subst s. apply then_ok in H as (gs' & Hgs & [= <-]).
  apply IH in Hgs as (Hl & Hnd & Hfresh). apply bool_decide_eq_false in Hdup. split_and!.
  - simpl. by rewrite Hl.
  - constructor; [|done]. intros Hin. apply (Hfresh g Hin). left.
  - intros g' [->|Hin]%elem_of_cons; [done|]. intros Hseen. apply (Hfresh g' Hin). by right.
Qed.

Lemma restart_grades_inv o gs : restart_grades o = Ok gs → 1 ≤ len gs ≤ 5 ∧ NoDup gs.
Proof.
  unfold restart_grades. rewrite then_ok. intros (vs & _ & H). apply refuse_ok in H as [Hl H].
  apply take_grades_inv in H as (Heq & Hnd & _). apply negb_false_iff in Hl. split; [|done]. unfold len in *. lia.
Qed.

(** Takes a successful validation apart. *)
Ltac field_inversion := repeat first
  [ match goal with H : (_;; _) = Ok _ |- _ => apply then_unit_ok in H as [_ H] end
  | match goal with H : (_ ≫= _) = Ok _ |- _ => let x := fresh "x" in let Hx := fresh "Hx" in apply then_ok in H as (x & Hx & H) end ].

Ltac validated := repeat match goal with
  | H : identifier_field _ _ = Ok _ |- _ => apply identifier_field_inv in H
  | H : digest_field _ _ = Ok _ |- _ => apply digest_field_inv in H
  | H : text_field _ _ _ = Ok _ |- _ => apply text_field_inv in H; [|assumption]
  | H : integer_field _ _ _ _ = Ok _ |- _ => apply integer_field_inv in H
  | H : identifier_array _ _ _ = Ok _ |- _ => apply identifier_array_inv in H
  | H : digest_array _ _ _ = Ok _ |- _ => apply digest_array_inv in H
  | H : text_array _ _ _ _ _ _ = Ok _ |- _ => apply text_array_inv in H; [|assumption]
  | H : restart_grades _ = Ok _ |- _ => apply restart_grades_inv in H as [? ?]
  end.

Lemma validated_action o a : validate_action o = Ok a → valid_action a.
Proof.
  unfold validate_action. intros H. field_inversion. injection H as <-. validated. unfold valid_action. simpl. tauto.
Qed.

Lemma validated_manifest o m : json_utf8 (JObject o) → validate_manifest o = Ok m → valid_manifest m.
Proof.
  unfold validate_manifest. intros Hu H. field_inversion. injection H as <-. validated. unfold valid_manifest. simpl. tauto.
Qed.

Lemma validated_claim o c : json_utf8 (JObject o) → validate_claim o = Ok c → valid_claim c.
Proof.
  unfold validate_claim. intros Hu H. field_inversion. injection H as <-. validated. unfold valid_claim. simpl. tauto.
Qed.

Lemma validated_document v d : json_utf8 v → validate_json v = Ok d → valid_document d.
Proof.
  intros Hu. unfold validate_json. rewrite then_ok. intros (o & Ho%ok_or_ok & H). destruct v; try done. injection Ho as ->.
  apply then_ok in H as (version & _ & H).
  repeat case_bool_decide; try done; apply then_ok in H as (x & Hx & [= <-]);
    [by eapply validated_action|by eapply validated_manifest|by eapply validated_claim].
Qed.

(** ** The round trip *)

Lemma canonical_limits_fit : limits_fit canonical_limits.
Proof. repeat split; vm_compute; congruence. Qed.

(** Validation does not abort. *)

Ltac no_panic := repeat first
  [ progress intros | done | apply then_no_panic; [|intros ? _]
  | match goal with |- ok_or ?o _ ≠ _ => by destruct o end
  | match goal with |- refuse_if ?b _ ≠ _ => by destruct b end
  | case_match ].

Lemma fields_no_panic o expected : fields o expected ≠ Panic.
Proof.
  unfold fields. apply then_no_panic; [|intros _ _].
  - generalize o.*1. intros keys. induction keys; cbn [known_fields]; no_panic.
  - induction expected; cbn [present_fields]; no_panic.
Qed.

Lemma array_strings_no_panic o key minimum maximum validate unique :
  array_strings o key minimum maximum validate unique ≠ Panic.
Proof.
  unfold array_strings. no_panic. generalize (@nil bytes). clear. revert unique.
  intros unique seen. revert seen. induction a as [|v vs IH]; intros seen; cbn [take_strings]; no_panic.
Qed.

Lemma restart_grades_no_panic o : restart_grades o ≠ Panic.
Proof.
  unfold restart_grades. no_panic. generalize (@nil bytes). intros seen. revert seen.
  induction a as [|v vs IH]; intros seen; cbn [take_grades]; unfold restart_grade; no_panic.
Qed.

Lemma validate_no_panic v : validate_json v ≠ Panic.
Proof.
  unfold validate_json, root_object, validate_action, validate_manifest, validate_claim, identifier_field, digest_field,
    text_field, string_field, bool_field, integer_field, identifier_array, digest_array, text_array.
  pose proof fields_no_panic. pose proof array_strings_no_panic. pose proof restart_grades_no_panic.
  unfold branch_of, manifest_status, manifest_mediation, claim_class, claim_status. no_panic; auto.
Qed.

(** C17: The canonical encoding and [decode_canonical] are inverse to each other.
    For every byte string and every document, decoding returns that document if
    and only if the document satisfies its schema (identifiers, digests, texts,
    ranges and array sizes as declared, no value twice in a set) and the bytes
    are its encoding.  So every valid document decodes from what [encode]
    writes, within the limits that [decode_canonical] sets itself, two
    different documents have different encodings, and no second spelling of a
    document is accepted.  Decoding never aborts. *)
Theorem canonical_json_roundtrip bs :
  (∀ d, decode_canonical bs = Ok d ↔ valid_document d ∧ canonical_encode d = bs) ∧ decode_canonical bs ≠ Panic.
Proof.
  pose proof (parse_sound bs canonical_limits canonical_limits_fit) as Hsound. split.
  - intros d. unfold decode_canonical. split.
    + intros (v & Hv & (d' & Hd & H)%then_ok)%then_ok. case_bool_decide as Heq; [|done]. injection H as ->. split; [|done].
      destruct (parse bs canonical_limits) as [v'|e|]; [|done..]. injection Hv as ->. destruct Hsound as (_ & Hdoc & _).
      apply document_utf8 in Hdoc as [Hu _]. by eapply validated_document.
    + intros [Hvalid <-]. destruct (document_written d Hvalid) as [Hdoc Hwithin].
      destruct (document_utf8 _ _ Hdoc) as [_ Hutf].
      rewrite (parse_complete _ _ _ canonical_limits_fit Hutf Hdoc Hwithin). simpl.
      rewrite validate_document_ok by done. simpl. by rewrite bool_decide_eq_true_2.
  - unfold decode_canonical. destruct (parse bs canonical_limits) as [v|e|]; [|done..]. simpl.
    pose proof (validate_no_panic v). destruct (validate_json v) as [d|e|]; simpl; [by case_bool_decide|done..].
Qed.

(** A manifest in its only spelling, and the same with a space. *)
Definition sample_manifest : DraftDocument := CapabilityManifest (mkCapabilityManifest (ascii_bytes "adapter-1") ExampleOnly
  ManifestObserveOnly false [GradeTraceReplay; GradeUnavailable] [ascii_bytes "publish"] [[xc3; xa9; x0a]]).

Example sample_manifest_decodes :
  decode_canonical (canonical_encode sample_manifest) = Ok sample_manifest ∧
  decode_canonical (x20 :: canonical_encode sample_manifest) = Err CeNonCanonical.
Proof. split; vm_compute; reflexivity. Qed.
