(* ===== verification/Orders.v ===== *)
(** * Derived orders

    What [derive(PartialOrd, Ord)] gives: the lexicographic order of the fields
    of a struct and of the elements of a [BTreeSet], which is kept as the list
    of its elements in ascending order. *)

From stdpp Require Import base tactics numbers list.
From S2P Require Import Prelude.

Local Open Scope Z_scope.

(** ** Pairs and lists *)

Section lexicographic.
Context {A B : Type} `{!EqDecision A, !EqDecision B, !KeyOrder A, !KeyOrder B}.

#[global] Instance pair_key_order : KeyOrder (A * B) := λ p q,
  if bool_decide (p.1 = q.1) then key_leb p.2 q.2 else key_leb p.1 q.1.

#[global] Instance pair_key_order_laws : KeyOrderLaws A → KeyOrderLaws B → KeyOrderLaws (A * B).
Proof.
  intros HA HB. split; unfold key_le, key_leb, pair_key_order.
  - intros [a b] [a' b']. simpl. destruct (decide (a = a')) as [->|Hne].
    + rewrite !bool_decide_eq_true_2 by done. apply (total key_le b b').
    + rewrite !bool_decide_eq_false_2 by congruence. apply (total key_le a a').
  - intros [a b] [a' b'] [a'' b'']. simpl.
    repeat case_bool_decide; subst; try congruence.
    + intros ??. by apply (transitivity (R:=key_le) (y:=b')).
    + intros ??. exfalso. by match goal with H : ?x ≠ ?y |- _ => apply H, (anti_symm key_le) end.
    + intros ??. by apply (transitivity (R:=key_le) (y:=a')).
  - intros [a b] [a' b']. simpl. repeat case_bool_decide; subst; try congruence.
    + intros ??. f_equal. by apply (anti_symm key_le).
    + intros ??. exfalso. by match goal with H : ?x ≠ ?y |- _ => apply H, (anti_symm key_le) end.
Qed.

Fixpoint list_leb (xs ys : list A) : bool :=
  match xs, ys with
  | [], _ => true
  | _ :: _, [] => false
  | x :: xs, y :: ys => if bool_decide (x = y) then list_leb xs ys else key_leb x y
  end.
#[global] Instance list_key_order : KeyOrder (list A) := list_leb.

#[global] Instance list_key_order_laws : KeyOrderLaws A → KeyOrderLaws (list A).
Proof.
  intros HA. split; unfold key_le, key_leb, list_key_order.
  - intros xs. induction xs as [|x xs IH]; intros [|y ys]; simpl; auto.
    destruct (decide (x = y)) as [->|Hne].
    + rewrite !bool_decide_eq_true_2 by done. apply IH.
    + rewrite !bool_decide_eq_false_2 by congruence. apply (total key_le x y).
  - intros xs. induction xs as [|x xs IH]; intros [|y ys] [|z zs]; simpl; try done.
    repeat case_bool_decide; subst; try congruence.
    + apply IH.
    + intros ??. exfalso. by match goal with H : ?x ≠ ?y |- _ => apply H, (anti_symm key_le) end.
    + intros ??. by apply (transitivity (R:=key_le) (y:=y)).
  - intros xs. induction xs as [|x xs IH]; intros [|y ys]; simpl; try done.
    repeat case_bool_decide; subst; try congruence.
    + intros ??. f_equal. by apply IH.
    + intros ??. exfalso. by match goal with H : ?x ≠ ?y |- _ => apply H, (anti_symm key_le) end.
Qed.
End lexicographic.

(** An order through the fields of a struct. *)
Section projected.
Context {A B : Type} `{!KeyOrder B} (f : A → B) `{!Inj (=) (=) f}.

Definition projected_order : KeyOrder A := λ x y, key_leb (f x) (f y).

Lemma projected_order_laws : KeyOrderLaws B → @KeyOrderLaws A projected_order.
Proof using Inj0.
  intros HB. split; unfold key_le, key_leb, projected_order.
  - intros x y. apply (total key_le (f x) (f y)).
  - intros x y z. apply (transitivity (R:=key_le)).
  - intros x y H1 H2. apply (inj f). by apply (anti_symm key_le).
Qed.
End projected.

(** ** Sets of integers as ascending lists *)

(** [BTreeSet::insert] *)
Fixpoint set_insert (x : Z) (xs : list Z) : list Z :=
  match xs with
  | [] => [x]
  | y :: ys => if x <? y then x :: xs else if x =? y then xs else y :: set_insert x ys
  end.

(** [BTreeSet::is_subset] *)
Definition is_subset (xs ys : list Z) : bool := forallb (λ x, bool_decide (x ∈ ys)) xs.

Lemma elem_of_set_insert x z xs : z ∈ set_insert x xs ↔ z = x ∨ z ∈ xs.
Proof.
  induction xs as [|y ys IH]; cbn [set_insert]; [by rewrite list_elem_of_singleton, elem_of_nil; tauto|].
  destruct (Z.ltb_spec x y); [by rewrite elem_of_cons|].
  destruct (Z.eqb_spec x y) as [->|Hne]; rewrite !elem_of_cons; [tauto|]. rewrite IH. tauto.
Qed.

Lemma is_subset_ok xs ys : is_subset xs ys = true ↔ ∀ x, x ∈ xs → x ∈ ys.
Proof.
  unfold is_subset. rewrite forallb_forall. setoid_rewrite bool_decide_eq_true. by setoid_rewrite list_elem_of_In.
Qed.
