(* ===== verification/Oversight.v ===== *)
(** * Standing oversight

    [crates/fa-reference/src/standing_oversight.rs]: support antichains of
    standing findings, the batch oracle that evaluates a query from a snapshot,
    and the incremental engine that is compared with it at closed frontiers. *)

From stdpp Require Import base tactics numbers list gmap sets sorting.
From S2P Require Import Prelude Orders Judgment Frontier ProductFrontier.

Local Open Scope Z_scope.

(** ** Model: facts and findings *)

Definition MAX_SNAPSHOT_FACTS : Z := 512.
Definition MAX_SUPPORT_ATOMS_PER_PATH : Z := 16.
Definition MAX_DELTA_BATCH_LEN : Z := 256.

Abbreviation I64_MAX := 9223372036854775807.
Abbreviation I64_MIN := (-9223372036854775808).
Definition i64_checked_add (a b : Z) : option Z :=
  if (I64_MIN <=? a + b) && (a + b <=? I64_MAX) then Some (a + b) else None.
Definition i64_checked_mul (a b : Z) : option Z :=
  if (I64_MIN <=? a * b) && (a * b <=? I64_MAX) then Some (a * b) else None.

Record SemanticGenerationVector := mkGenerations {
  model_generation : Z;
  codec_generation : Z;
  monitor_generation : Z;
  policy_generation : Z;
  calibration_generation : Z;
}.

Inductive StandingQueryFamily :=
  | UngatedSinkReachability
  | UnreviewedArtifactDependency
  | InvalidatedHeldProposal
  | SharedHelperFailureCohort.

Inductive BaseFactKind :=
  | AuthorityEdge (from to : Z)
  | QualifiedGate (from to : Z)
  | ArtifactDependency (artifact dependency : Z)
  | ReviewedDependency (artifact dependency : Z)
  | HeldProposalDependency (proposal key : Z)
  | InvalidatedKey (key revision : Z)
  | CohortFailure (cohort failure_id : Z).

Record BaseFact := mkBaseFact { fact_id : Z; fact_kind : BaseFactKind }.
Record SignedFactDelta := mkSignedFactDelta { delta_fact : BaseFact; delta_weight : Z }.
Record FindingKey := mkFindingKey { fk_query : StandingQueryFamily; fk_subject : Z; fk_target : Z }.
Record SupportPath := mkSupportPath { positive_atoms : list Z; negative_guards : list Z }.

Inductive AntichainOverflowMode := ConservativeCoarsen | SpillToBatchRecompute | FailClosed.
Inductive SupportPrecision := ExactMinimalAntichain | CoarsenedConservative (retained_union_atoms : Z).

Inductive StandingOversightError :=
  | InvalidSupportPath
  | InvalidAntichainLimit
  | ZeroWeightDelta
  | WeightOverflow
  | LostRetractionOrNegativeWeight
  | UnclosedNegativeDomain
  | IncompleteProductFrontier
  | SnapshotLimitExceeded
  | DeltaBatchLimitExceeded
  | AntichainWidthExceeded (width max_width : Z)
  | CoarseSupportUniversalClaimForbidden
  | MixedSemanticGeneration (expected observed : SemanticGenerationVector)
  | OracleDivergenceDetected.

#[global] Instance generations_eq_dec : EqDecision SemanticGenerationVector.
Proof. solve_decision. Defined.
#[global] Instance query_eq_dec : EqDecision StandingQueryFamily.
Proof. solve_decision. Defined.
#[global] Instance fact_kind_eq_dec : EqDecision BaseFactKind.
Proof. solve_decision. Defined.
#[global] Instance base_fact_eq_dec : EqDecision BaseFact.
Proof. solve_decision. Defined.
#[global] Instance finding_key_eq_dec : EqDecision FindingKey.
Proof. solve_decision. Defined.
#[global] Instance support_path_eq_dec : EqDecision SupportPath.
Proof. solve_decision. Defined.
#[global] Instance overflow_mode_eq_dec : EqDecision AntichainOverflowMode.
Proof. solve_decision. Defined.
#[global] Instance precision_eq_dec : EqDecision SupportPrecision.
Proof. solve_decision. Defined.
#[global] Instance oversight_error_eq_dec : EqDecision StandingOversightError.
Proof. solve_decision. Defined.

(** The derived orders. *)
Definition query_index (q : StandingQueryFamily) : Z :=
  match q with
  | UngatedSinkReachability => 0
  | UnreviewedArtifactDependency => 1
  | InvalidatedHeldProposal => 2
  | SharedHelperFailureCohort => 3
  end.
Definition path_fields (p : SupportPath) : list Z * list Z := (positive_atoms p, negative_guards p).
Definition key_fields (k : FindingKey) : Z * (Z * Z) := (query_index (fk_query k), (fk_subject k, fk_target k)).

#[global] Instance path_fields_inj : Inj (=) (=) path_fields.
Proof. intros [] []. unfold path_fields. simpl. congruence. Qed.
#[global] Instance key_fields_inj : Inj (=) (=) key_fields.
Proof. intros [q s t] [q' s' t']. unfold key_fields. simpl. destruct q, q'; simpl; congruence. Qed.

#[global] Instance path_key_order : KeyOrder SupportPath := projected_order path_fields.
#[global] Instance path_key_order_laws : KeyOrderLaws SupportPath := projected_order_laws path_fields _.
#[global] Instance finding_key_order : KeyOrder FindingKey := projected_order key_fields.
#[global] Instance finding_key_order_laws : KeyOrderLaws FindingKey := projected_order_laws key_fields _.

#[global] Program Instance support_path_countable : Countable SupportPath :=
  inj_countable' path_fields (λ '(p, n), mkSupportPath p n) _.
Next Obligation. by intros []. Qed.
#[global] Program Instance query_countable : Countable StandingQueryFamily :=
  inj_countable' query_index (λ i, if i =? 0 then UngatedSinkReachability else if i =? 1 then UnreviewedArtifactDependency
    else if i =? 2 then InvalidatedHeldProposal else SharedHelperFailureCohort) _.
Next Obligation. by intros []. Qed.
#[global] Program Instance finding_key_countable : Countable FindingKey :=
  inj_countable' (λ k, (fk_query k, fk_subject k, fk_target k)) (λ '(q, s, t), mkFindingKey q s t) _.
Next Obligation. by intros []. Qed.

(** ** Model: support paths and antichains *)

Definition support_path_new (positive_atoms negative_guards : list Z) : res StandingOversightError SupportPath :=
  if bool_decide (positive_atoms = []) || (MAX_SUPPORT_ATOMS_PER_PATH <? len positive_atoms) ||
     (MAX_SUPPORT_ATOMS_PER_PATH <? len negative_guards)
  then Err InvalidSupportPath
  else Ok (mkSupportPath positive_atoms negative_guards).

Definition dominates_path (self other : SupportPath) : bool :=
  is_subset (positive_atoms self) (positive_atoms other) && is_subset (negative_guards self) (negative_guards other).

Record SupportAntichain := mkSupportAntichain {
  sa_max_width : Z;
  sa_paths : list SupportPath;
  sa_support_weights : gmap SupportPath Z;
  sa_precision : SupportPrecision;
}.

Definition antichain_new (max_width : Z) : res StandingOversightError SupportAntichain :=
  if (max_width =? 0) || (MAX_SNAPSHOT_FACTS <? max_width) then Err InvalidAntichainLimit
  else Ok (mkSupportAntichain max_width [] ∅ ExactMinimalAntichain).

Definition is_supported (self : SupportAntichain) : bool := negb (bool_decide (sa_paths self = [])).

(** The loop of [total_weight]. *)
Fixpoint sum_weights (sum : Z) (weights : list Z) : res StandingOversightError Z :=
  match weights with
  | [] => Ok sum
  | w :: weights =>
    sum ← ok_or (i64_checked_add sum w) WeightOverflow;
    sum_weights sum weights
  end.
Definition total_weight (self : SupportAntichain) : res StandingOversightError Z :=
  sum_weights 0 (map_values (sa_support_weights self)).

Definition set_weights (ws : gmap SupportPath Z) (self : SupportAntichain) : SupportAntichain :=
  mkSupportAntichain (sa_max_width self) (sa_paths self) ws (sa_precision self).
Definition set_paths (paths : list SupportPath) (precision : SupportPrecision) (self : SupportAntichain) : SupportAntichain :=
  mkSupportAntichain (sa_max_width self) paths (sa_support_weights self) precision.

(** The paths that no other one dominates, in their order. *)
Definition minimal_paths (active : list SupportPath) : list SupportPath :=
  filter (λ candidate, existsb (λ other, negb (bool_decide (other = candidate)) && dominates_path other candidate) active
    = false) active.

Definition union_atoms (paths : list SupportPath) : list Z :=
  foldr (λ p atoms, foldr set_insert atoms (positive_atoms p)) [] paths.

Definition rebuild_minimal_antichain (overflow_mode : AntichainOverflowMode) : st SupportAntichain StandingOversightError unit :=
  self ← get;
  let minimal := minimal_paths (entries (sa_support_weights self)).*1 in
  if sa_max_width self <? len minimal then
    match overflow_mode with
    | FailClosed | SpillToBatchRecompute => mthrow (AntichainWidthExceeded (len minimal) (sa_max_width self))
    | ConservativeCoarsen =>
      modify (set_paths (take (Z.to_nat (sa_max_width self)) minimal) (CoarsenedConservative (len (union_atoms minimal))))
    end
  else modify (set_paths minimal ExactMinimalAntichain).

Definition apply_delta (path : SupportPath) (delta_weight : Z) (overflow_mode : AntichainOverflowMode)
    : st SupportAntichain StandingOversightError unit :=
  refuse_if (delta_weight =? 0) ZeroWeightDelta;;
  self ← get;
  let current := default 0 (sa_support_weights self !! path) in
  next ← ok_or (i64_checked_add current delta_weight) WeightOverflow;
  refuse_if (next <? 0) LostRetractionOrNegativeWeight;;
  modify (set_weights (if next =? 0 then delete path (sa_support_weights self)
                       else <[path := next]> (sa_support_weights self)));;
  rebuild_minimal_antichain overflow_mode.

(** ** Model: snapshots *)

Record OversightSnapshot := mkOversightSnapshot {
  os_generations : SemanticGenerationVector;
  os_negative_domain_closed : bool;
  os_frontiers : ProductFrontiers;
  os_required_frontier : FrontierRequirement;
  os_facts : gmap Z (BaseFact * Z);
}.

Definition snapshot_new (generations : SemanticGenerationVector) (negative_domain_closed : bool)
    (frontiers : ProductFrontiers) (required_frontier : FrontierRequirement) : OversightSnapshot :=
  mkOversightSnapshot generations negative_domain_closed frontiers required_frontier ∅.

Definition set_facts (facts : gmap Z (BaseFact * Z)) (s : OversightSnapshot) : OversightSnapshot :=
  mkOversightSnapshot (os_generations s) (os_negative_domain_closed s) (os_frontiers s) (os_required_frontier s) facts.

Definition apply_fact_delta (delta : SignedFactDelta) : st OversightSnapshot StandingOversightError unit :=
  refuse_if (delta_weight delta =? 0) ZeroWeightDelta;;
  self ← get;
  let id := fact_id (delta_fact delta) in
  let current := default 0 (snd <$> os_facts self !! id) in
  next ← ok_or (i64_checked_add current (delta_weight delta)) WeightOverflow;
  refuse_if (next <? 0) LostRetractionOrNegativeWeight;;
  if next =? 0 then modify (set_facts (delete id (os_facts self)))
  else
    refuse_if (negb (bool_decide (is_Some (os_facts self !! id))) && (MAX_SNAPSHOT_FACTS <=? Z.of_nat (size (os_facts self))))
      SnapshotLimitExceeded;;
    modify (set_facts (<[id := (delta_fact delta, next)]> (os_facts self))).

(** ** Model: evaluation *)

Record FindingEvaluation := mkFindingEvaluation {
  fe_key : FindingKey;
  fe_minimal_supports : list SupportPath;
  fe_total_support_weight : Z;
  fe_precision : SupportPrecision;
}.
#[global] Instance evaluation_eq_dec : EqDecision FindingEvaluation.
Proof. solve_decision. Defined.

Record BatchOracleArtifact := mkBatchOracleArtifact {
  bo_generations : SemanticGenerationVector;
  bo_frontier_seq : Z;
  bo_findings : gmap FindingKey FindingEvaluation;
  bo_tuples_examined : Z;
  bo_estimated_memory_bytes : Z;
}.

(** Queries with absence guards. *)
Definition needs_closed_domain (query : StandingQueryFamily) : bool :=
  match query with UngatedSinkReachability | UnreviewedArtifactDependency => true | _ => false end.

Definition active_facts (snapshot : OversightSnapshot) : list (BaseFact * Z) :=
  filter (λ p, 0 < p.2) (map_values (os_facts snapshot)).

(** [a.wrapping_mul(1_000_003).wrapping_add(b)] *)
Definition guard_id (a b : Z) : Z := (a * 1000003 mod 2 ^ 64 + b) mod 2 ^ 64.

(** The antichains built so far and the tuples examined. *)
Record Build := mkBuild {
  bu_antichains : gmap FindingKey SupportAntichain;
  bu_examined : Z;
}.
Abbreviation building := (st Build StandingOversightError).

(** [tuples_examined += 1]; a snapshot has at most [MAX_SNAPSHOT_FACTS] facts, so
    that this cannot overflow ([examined_bounded]). *)
Definition examine : building unit := modify (λ s, mkBuild (bu_antichains s) (bu_examined s + 1)).
Definition set_antichain (key : FindingKey) (a : SupportAntichain) (s : Build) : Build :=
  mkBuild (<[key := a]> (bu_antichains s)) (bu_examined s).

(** [match antichains.entry(key) { .. }.apply_delta(path, weight, mode)?] *)
Definition entry_apply (max_width : Z) (mode : AntichainOverflowMode) (key : FindingKey) (path : SupportPath) (weight : Z)
    : building unit :=
  self ← get;
  antichain ← match bu_antichains self !! key with
    | Some a => mret a
    | None => lift (antichain_new max_width)
    end;
  modify (set_antichain key antichain);;
  zoom (λ _, antichain) (set_antichain key) (λ e, e) (apply_delta path weight mode).

(** [for x in xs { body }] *)
Fixpoint for_each {A} (xs : list A) (body : A → building unit) : building unit :=
  match xs with
  | [] => mret tt
  | x :: xs => body x;; for_each xs body
  end.

(** ** Model: the batch oracle *)

(** [gates], keyed by the edge. *)
Definition oracle_gates (facts : list (BaseFact * Z)) : gmap (Z * Z) Z :=
  foldl (λ gates p, match fact_kind p.1 with
    | QualifiedGate from to => <[(from, to) := fact_id p.1]> gates
    | _ => gates
    end) ∅ facts.

(** [reviewed] *)
Definition reviewed_pairs (facts : list (BaseFact * Z)) : gset (Z * Z) :=
  list_to_set (omap (λ p, match fact_kind p.1 with
    | ReviewedDependency artifact dependency => Some (artifact, dependency)
    | _ => None
    end) facts).

Definition oracle_reachability (query : StandingQueryFamily) (max_antichain_width : Z) (facts : list (BaseFact * Z))
    : building unit :=
  let gates := oracle_gates facts in
  for_each facts (λ '(f1, w1),
    match fact_kind f1 with
    | AuthorityEdge actor mid =>
      for_each facts (λ '(f2, w2),
        examine;;
        match fact_kind f2 with
        | AuthorityEdge mid2 sink =>
          if negb (mid =? mid2) || (actor =? sink) then mret tt
          else if bool_decide (is_Some (gates !! (actor, mid))) || bool_decide (is_Some (gates !! (mid, sink))) then mret tt
          else
            let pos := set_insert (fact_id f2) (set_insert (fact_id f1) []) in
            let neg := set_insert (guard_id mid sink) (set_insert (guard_id actor mid) []) in
            path ← lift (support_path_new pos neg);
            weight ← ok_or (i64_checked_mul w1 w2) WeightOverflow;
            entry_apply max_antichain_width FailClosed (mkFindingKey query actor sink) path weight
        | _ => mret tt
        end)
    | _ => mret tt
    end).

Definition oracle_unreviewed (query : StandingQueryFamily) (max_antichain_width : Z) (facts : list (BaseFact * Z))
    : building unit :=
  let reviewed := reviewed_pairs facts in
  for_each facts (λ '(f, w),
    examine;;
    match fact_kind f with
    | ArtifactDependency artifact dependency =>
      if bool_decide ((artifact, dependency) ∈ reviewed) then mret tt
      else
        path ← lift (support_path_new (set_insert (fact_id f) []) (set_insert (guard_id artifact dependency) []));
        entry_apply max_antichain_width FailClosed (mkFindingKey query artifact dependency) path w
    | _ => mret tt
    end).

Definition oracle_invalidated (query : StandingQueryFamily) (max_antichain_width : Z) (facts : list (BaseFact * Z))
    : building unit :=
  for_each facts (λ '(f1, w1),
    match fact_kind f1 with
    | HeldProposalDependency proposal key =>
      for_each facts (λ '(f2, w2),
        examine;;
        match fact_kind f2 with
        | InvalidatedKey k2 _ =>
          if negb (key =? k2) then mret tt
          else
            path ← lift (support_path_new (set_insert (fact_id f2) (set_insert (fact_id f1) [])) []);
            weight ← ok_or (i64_checked_mul w1 w2) WeightOverflow;
            entry_apply max_antichain_width FailClosed (mkFindingKey query proposal key) path weight
        | _ => mret tt
        end)
    | _ => mret tt
    end).

Definition oracle_cohorts (query : StandingQueryFamily) (max_antichain_width : Z) (facts : list (BaseFact * Z))
    : building unit :=
  for_each facts (λ '(f, w),
    examine;;
    match fact_kind f with
    | CohortFailure cohort failure_id =>
      path ← lift (support_path_new (set_insert (fact_id f) []) []);
      entry_apply max_antichain_width FailClosed (mkFindingKey query cohort failure_id) path w
    | _ => mret tt
    end).

Definition evaluate_antichain (key : FindingKey) (antichain : SupportAntichain) : res StandingOversightError FindingEvaluation :=
  total ← total_weight antichain;
  Ok (mkFindingEvaluation key (sa_paths antichain) total (sa_precision antichain)).

(** The loop over the antichains, in the order of their keys. *)
Fixpoint collect_findings (antichains : list (FindingKey * SupportAntichain)) (findings : gmap FindingKey FindingEvaluation)
    : res StandingOversightError (gmap FindingKey FindingEvaluation) :=
  match antichains with
  | [] => Ok findings
  | (key, antichain) :: antichains =>
    if is_supported antichain then
      evaluation ← evaluate_antichain key antichain;
      collect_findings antichains (<[key := evaluation]> findings)
    else collect_findings antichains findings
  end.

Definition evaluate_batch_query (snapshot : OversightSnapshot) (query : StandingQueryFamily) (max_antichain_width : Z)
    : res StandingOversightError BatchOracleArtifact :=
  let satisfied := match product_satisfies (os_frontiers snapshot) (os_required_frontier snapshot) with
    | Ok b => Ok b
    | Err _ => Ok false
    | Panic => Panic
    end in
  satisfied ← satisfied;
  refuse_if (negb satisfied) IncompleteProductFrontier;;
  refuse_if (needs_closed_domain query && negb (os_negative_domain_closed snapshot)) UnclosedNegativeDomain;;
  let facts := active_facts snapshot in
  built ← exec (match query with
    | UngatedSinkReachability => oracle_reachability
    | UnreviewedArtifactDependency => oracle_unreviewed
    | InvalidatedHeldProposal => oracle_invalidated
    | SharedHelperFailureCohort => oracle_cohorts
    end query max_antichain_width facts) (mkBuild ∅ 0);
  findings ← collect_findings (entries (bu_antichains built)) ∅;
  Ok (mkBatchOracleArtifact (os_generations snapshot) (fr_through (os_required_frontier snapshot)) findings
    (bu_examined built) (len facts * 32 + Z.of_nat (size findings) * 96 + bu_examined built * 8)).

(** ** Model: the incremental engine *)

Inductive UncertaintyClass :=
  | UncertainExact
  | UncertainConservative
  | UncertainApproximate (profile_id : Z)
  | UncertainOpaque (calibration_id : Z)
  | UncertainBounded (bound_id : Z).

Record ViewReceipt := mkViewReceipt {
  vr_query : StandingQueryFamily;
  vr_generations : SemanticGenerationVector;
  vr_uncertainty : UncertaintyClass;
  vr_from_frontier_seq : Z;
  vr_to_frontier_seq : Z;
  vr_findings : gmap FindingKey FindingEvaluation;
  vr_coarsened_findings : Z;
  vr_spilled_to_batch_recompute : bool;
  vr_generation_rebuilds : Z;
  vr_incremental_work_units : Z;
  vr_retained_state_bytes : Z;
}.

Definition require_exact_universal_support (self : ViewReceipt) : res StandingOversightError unit :=
  if 0 <? vr_coarsened_findings self then Err CoarseSupportUniversalClaimForbidden else Ok tt.

(** The basis of the engine's claims is kept and returned as it is. *)
Record IncrementalOversightEngine {Basis : Type} := mkOversightEngine {
  oe_basis : Basis;
  oe_query : StandingQueryFamily;
  oe_max_antichain_width : Z;
  oe_overflow_mode : AntichainOverflowMode;
  oe_snapshot : OversightSnapshot;
  oe_maintained_antichains : gmap FindingKey SupportAntichain;
  oe_last_closed_seq : Z;
  oe_generation_rebuilds : Z;
}.
#[global] Arguments IncrementalOversightEngine Basis : clear implicits.

Definition engine_gates (facts : list (BaseFact * Z)) : gset (Z * Z) :=
  list_to_set (omap (λ p, match fact_kind p.1 with QualifiedGate from to => Some (from, to) | _ => None end) facts).

Section build.
Context (query : StandingQueryFamily) (max_antichain_width : Z) (overflow_mode : AntichainOverflowMode)
  (facts : list (BaseFact * Z)).

Definition build_reachability : building unit :=
  let gates := engine_gates facts in
  for_each facts (λ '(f1, w1),
    match fact_kind f1 with
    | AuthorityEdge actor mid =>
      for_each facts (λ '(f2, w2),
        examine;;
        match fact_kind f2 with
        | AuthorityEdge mid2 sink =>
          if negb (mid =? mid2) || (actor =? sink) then mret tt
          else if bool_decide ((actor, mid) ∈ gates) || bool_decide ((mid, sink) ∈ gates) then mret tt
          else
            let pos := set_insert (fact_id f2) (set_insert (fact_id f1) []) in
            let neg := set_insert (guard_id mid sink) (set_insert (guard_id actor mid) []) in
            path ← lift (support_path_new pos neg);
            weight ← ok_or (i64_checked_mul w1 w2) WeightOverflow;
            entry_apply max_antichain_width overflow_mode (mkFindingKey query actor sink) path weight
        | _ => mret tt
        end)
    | _ => mret tt
    end).

Definition build_unreviewed : building unit :=
  let reviewed := reviewed_pairs facts in
  for_each facts (λ '(f, w),
    examine;;
    match fact_kind f with
    | ArtifactDependency artifact dependency =>
      if bool_decide ((artifact, dependency) ∈ reviewed) then mret tt
      else
        path ← lift (support_path_new (set_insert (fact_id f) []) (set_insert (guard_id artifact dependency) []));
        entry_apply max_antichain_width overflow_mode (mkFindingKey query artifact dependency) path w
    | _ => mret tt
    end).

Definition build_invalidated : building unit :=
  for_each facts (λ '(f1, w1),
    match fact_kind f1 with
    | HeldProposalDependency proposal key =>
      for_each facts (λ '(f2, w2),
        examine;;
        match fact_kind f2 with
        | InvalidatedKey k2 _ =>
          if negb (key =? k2) then mret tt
          else
            path ← lift (support_path_new (set_insert (fact_id f2) (set_insert (fact_id f1) [])) []);
            weight ← ok_or (i64_checked_mul w1 w2) WeightOverflow;
            entry_apply max_antichain_width overflow_mode (mkFindingKey query proposal key) path weight
        | _ => mret tt
        end)
    | _ => mret tt
    end).

Definition build_cohorts : building unit :=
  for_each facts (λ '(f, w),
    examine;;
    match fact_kind f with
    | CohortFailure cohort failure_id =>
      path ← lift (support_path_new (set_insert (fact_id f) []) []);
      entry_apply max_antichain_width overflow_mode (mkFindingKey query cohort failure_id) path w
    | _ => mret tt
    end).

(** [build_result] *)
Definition build_antichains : building unit :=
  match query with
  | UngatedSinkReachability => build_reachability
  | UnreviewedArtifactDependency => build_unreviewed
  | InvalidatedHeldProposal => build_invalidated
  | SharedHelperFailureCohort => build_cohorts
  end.
End build.

Definition is_coarsened (antichain : SupportAntichain) : bool :=
  match sa_precision antichain with CoarsenedConservative _ => true | ExactMinimalAntichain => false end.

(** The loop over [next_antichains]. *)
Fixpoint collect_maintained (antichains : list (FindingKey * SupportAntichain))
    (findings : gmap FindingKey FindingEvaluation) (coarsened : Z)
    : res StandingOversightError (gmap FindingKey FindingEvaluation * Z) :=
  match antichains with
  | [] => Ok (findings, coarsened)
  | (key, antichain) :: antichains =>
    if is_supported antichain then
      evaluation ← evaluate_antichain key antichain;
      collect_maintained antichains (<[key := evaluation]> findings) (if is_coarsened antichain then coarsened + 1 else coarsened)
    else collect_maintained antichains findings coarsened
  end.

Section engine.
Context {Basis : Type}.
Abbreviation engine := (IncrementalOversightEngine Basis).
Abbreviation engine_st := (st engine StandingOversightError).

Definition set_snapshot (snapshot : OversightSnapshot) (e : engine) : engine :=
  mkOversightEngine _ (oe_basis e) (oe_query e) (oe_max_antichain_width e) (oe_overflow_mode e) snapshot
    (oe_maintained_antichains e) (oe_last_closed_seq e) (oe_generation_rebuilds e).
Definition set_maintained (antichains : gmap FindingKey SupportAntichain) (e : engine) : engine :=
  mkOversightEngine _ (oe_basis e) (oe_query e) (oe_max_antichain_width e) (oe_overflow_mode e) (oe_snapshot e)
    antichains (oe_last_closed_seq e) (oe_generation_rebuilds e).
Definition set_last_closed (seq : Z) (e : engine) : engine :=
  mkOversightEngine _ (oe_basis e) (oe_query e) (oe_max_antichain_width e) (oe_overflow_mode e) (oe_snapshot e)
    (oe_maintained_antichains e) seq (oe_generation_rebuilds e).
Definition set_rebuilds (rebuilds : Z) (e : engine) : engine :=
  mkOversightEngine _ (oe_basis e) (oe_query e) (oe_max_antichain_width e) (oe_overflow_mode e) (oe_snapshot e)
    (oe_maintained_antichains e) (oe_last_closed_seq e) rebuilds.

Definition engine_new (basis : Basis) (query : StandingQueryFamily) (initial_generations : SemanticGenerationVector)
    (projection_key : ProjectionKey) (max_antichain_width : Z) (overflow_mode : AntichainOverflowMode)
    : res StandingOversightError engine :=
  refuse_if ((max_antichain_width =? 0) || (MAX_SNAPSHOT_FACTS <? max_antichain_width)) InvalidAntichainLimit;;
  frontiers ← map_err (λ _, IncompleteProductFrontier) (product_new 4 16);
  Ok (mkOversightEngine _ basis query max_antichain_width overflow_mode
    (snapshot_new initial_generations true frontiers (mkFrontierRequirement projection_key Authenticated 0 None)) ∅ 0 0).

(** The findings, the number coarsened, whether it spilled, and the work. *)
Definition recompute_incremental_state : engine_st (gmap FindingKey FindingEvaluation * Z * bool * Z) :=
  self ← get;
  refuse_if (needs_closed_domain (oe_query self) && negb (os_negative_domain_closed (oe_snapshot self))) UnclosedNegativeDomain;;
  let facts := active_facts (oe_snapshot self) in
  let '(build_result, built) :=
    build_antichains (oe_query self) (oe_max_antichain_width self) (oe_overflow_mode self) facts (mkBuild ∅ 0) in
  match build_result with
  | Ok _ =>
    collected ← lift (collect_maintained (entries (bu_antichains built)) ∅ 0);
    modify (set_maintained (bu_antichains built));;
    mret (collected.1, collected.2, false, bu_examined built)
  | Err (AntichainWidthExceeded width max_width) =>
    if bool_decide (oe_overflow_mode self = SpillToBatchRecompute) then
      batch ← lift (evaluate_batch_query (oe_snapshot self) (oe_query self) MAX_SNAPSHOT_FACTS);
      modify (set_maintained ∅);;
      mret (bo_findings batch, 0, true, bu_examined built + bo_tuples_examined batch)
    else mthrow (AntichainWidthExceeded width max_width)
  | Err e => mthrow e
  | Panic => lift Panic
  end.

Definition generations_regress (new old : SemanticGenerationVector) : bool :=
  (model_generation new <? model_generation old) || (codec_generation new <? codec_generation old) ||
  (monitor_generation new <? monitor_generation old) || (policy_generation new <? policy_generation old) ||
  (calibration_generation new <? calibration_generation old).

Definition set_generations (generations : SemanticGenerationVector) (s : OversightSnapshot) : OversightSnapshot :=
  mkOversightSnapshot generations (os_negative_domain_closed s) (os_frontiers s) (os_required_frontier s) (os_facts s).

Definition advance_semantic_generations (new_generations : SemanticGenerationVector) : engine_st unit :=
  self ← get;
  refuse_if (generations_regress new_generations (os_generations (oe_snapshot self)))
    (MixedSemanticGeneration (os_generations (oe_snapshot self)) new_generations);;
  modify (λ e, set_snapshot (set_generations new_generations (oe_snapshot e)) e);;
  modify (set_maintained ∅);;
  rebuilds ← lift (u64_add (oe_generation_rebuilds self) 1);
  modify (set_rebuilds rebuilds);;
  recompute_incremental_state;;
  mret tt.

(** The loop that accepts every sequence number up to the next frontier. *)
Fixpoint accept_sequences (key : ProjectionKey) (seqs : list Z) (frontiers : ProductFrontiers)
    : res StandingOversightError ProductFrontiers :=
  match seqs with
  | [] => Ok frontiers
  | seq :: seqs =>
    frontiers ← map_err (λ _, IncompleteProductFrontier) (exec (product_accept key Captured seq) frontiers);
    frontiers ← map_err (λ _, IncompleteProductFrontier) (exec (product_accept key Authenticated seq) frontiers);
    accept_sequences key seqs frontiers
  end.

(** The loop over the deltas. *)
Fixpoint apply_fact_deltas (deltas : list SignedFactDelta) (snapshot : OversightSnapshot)
    : res StandingOversightError OversightSnapshot :=
  match deltas with
  | [] => Ok snapshot
  | delta :: deltas =>
    snapshot ← exec (apply_fact_delta delta) snapshot;
    apply_fact_deltas deltas snapshot
  end.

(** The snapshot after the deltas, at the next frontier. *)
Definition candidate_snapshot (self : engine) (deltas : list SignedFactDelta) (next_frontier_seq : Z)
    (negative_domain_closed : bool) : res StandingOversightError OversightSnapshot :=
  let snapshot := oe_snapshot self in
  let requirement := os_required_frontier snapshot in
  first ← u64_add (oe_last_closed_seq self) 1;
  frontiers ← accept_sequences (fr_key requirement) (seqZ first (next_frontier_seq - first + 1)) (os_frontiers snapshot);
  apply_fact_deltas deltas (mkOversightSnapshot (os_generations snapshot) negative_domain_closed frontiers
    (mkFrontierRequirement (fr_key requirement) (fr_stage requirement) next_frontier_seq (fr_closure requirement))
    (os_facts snapshot)).

(** [match self.recompute_incremental_state() { Err(e) => { self.snapshot = previous_snapshot; .. } }] *)
Definition recompute_or_restore (previous : OversightSnapshot) : engine_st (gmap FindingKey FindingEvaluation * Z * bool * Z) :=
  λ self,
  match recompute_incremental_state self with
  | (Ok v, s) => (Ok v, s)
  | (Err e, s) => (Err e, set_snapshot previous s)
  | (Panic, s) => (Panic, s)
  end.

Definition oracle_agrees (findings oracle : gmap FindingKey FindingEvaluation) (exact : bool) : bool :=
  if exact then bool_decide (findings = oracle) else bool_decide (dom findings = dom oracle).

Definition apply_delta_and_close_frontier (delta_generations : SemanticGenerationVector) (deltas : list SignedFactDelta)
    (next_frontier_seq : Z) (negative_domain_closed frontier_closed : bool) : engine_st (ViewReceipt * Basis) :=
  self ← get;
  refuse_if (MAX_DELTA_BATCH_LEN <? len deltas) DeltaBatchLimitExceeded;;
  refuse_if (negb (bool_decide (delta_generations = os_generations (oe_snapshot self))))
    (MixedSemanticGeneration (os_generations (oe_snapshot self)) delta_generations);;
  refuse_if (negb frontier_closed || (next_frontier_seq <? oe_last_closed_seq self)) IncompleteProductFrontier;;
  refuse_if (needs_closed_domain (oe_query self) && negb negative_domain_closed) UnclosedNegativeDomain;;
  candidate ← lift (candidate_snapshot self deltas next_frontier_seq negative_domain_closed);
  modify (set_snapshot candidate);;
  recomputed ← recompute_or_restore (oe_snapshot self);
  let '(findings, coarsened_findings, spilled, work_units) := recomputed in
  let oracle_width := if spilled || (0 <? coarsened_findings) then MAX_SNAPSHOT_FACTS else oe_max_antichain_width self in
  oracle_artifact ← lift (evaluate_batch_query candidate (oe_query self) oracle_width);
  refuse_if (negb (oracle_agrees findings (bo_findings oracle_artifact) (negb spilled && (coarsened_findings =? 0))))
    OracleDivergenceDetected;;
  modify (set_last_closed next_frontier_seq);;
  self' ← get;
  mret (mkViewReceipt (oe_query self) (os_generations candidate)
      (if 0 <? coarsened_findings then UncertainConservative else UncertainExact)
      (oe_last_closed_seq self) next_frontier_seq findings coarsened_findings spilled (oe_generation_rebuilds self)
      (len deltas + work_units)
      (Z.of_nat (size (os_facts candidate)) * 32 + Z.of_nat (size (oe_maintained_antichains self')) * 96),
    oe_basis self).
End engine.
