(* ===== verification/OversightSupport.v ===== *)
(** * Standing oversight: supports of a query

    The two families of loops in [Oversight.v] run over the same events, and the
    supports among them are distinct and incomparable; so an antichain is minimal
    as soon as it holds them all. *)

From stdpp Require Import base tactics numbers list gmap sets sorting.
From S2P Require Import Prelude Orders Judgment Frontier ProductFrontier Oversight.

Local Open Scope Z_scope.

(** ** Specification: the supports of a query *)

Abbreviation facts := (list (BaseFact * Z)).

(** A support of a finding: its atoms, the guards that are absent, and the
    product of the weights of its atoms. *)
Record Support := mkSupport {
  su_key : FindingKey;
  su_path : SupportPath;
  su_weight : Z;
}.

Definition gated (l : facts) (a b : Z) : bool :=
  existsb (λ p, bool_decide (fact_kind p.1 = QualifiedGate a b)) l.
Definition review_in (l : facts) (a b : Z) : bool :=
  existsb (λ p, bool_decide (fact_kind p.1 = ReviewedDependency a b)) l.

Definition pair_atoms (f1 f2 : BaseFact) : list Z := set_insert (fact_id f2) (set_insert (fact_id f1) []).

(** The support that two active facts give, if any: an edge into a node and one
    out of it, neither gated; or a held proposal and a change of its key. *)
Definition pair_support (q : StandingQueryFamily) (l : facts) (p1 p2 : BaseFact * Z) : option Support :=
  match q, fact_kind p1.1, fact_kind p2.1 with
  | UngatedSinkReachability, AuthorityEdge actor mid, AuthorityEdge mid2 sink =>
    if (mid =? mid2) && negb (actor =? sink) && negb (gated l actor mid) && negb (gated l mid sink) then
      Some (mkSupport (mkFindingKey q actor sink)
        (mkSupportPath (pair_atoms p1.1 p2.1) (set_insert (guard_id mid sink) (set_insert (guard_id actor mid) [])))
        (p1.2 * p2.2))
    else None
  | InvalidatedHeldProposal, HeldProposalDependency proposal key, InvalidatedKey k2 _ =>
    if key =? k2 then
      Some (mkSupport (mkFindingKey q proposal key) (mkSupportPath (pair_atoms p1.1 p2.1) []) (p1.2 * p2.2))
    else None
  | _, _, _ => None
  end.

(** The support that one active fact gives, if any. *)
Definition fact_support (q : StandingQueryFamily) (l : facts) (p : BaseFact * Z) : option Support :=
  match q, fact_kind p.1 with
  | UnreviewedArtifactDependency, ArtifactDependency artifact dependency =>
    if review_in l artifact dependency then None
    else Some (mkSupport (mkFindingKey q artifact dependency)
      (mkSupportPath [fact_id p.1] [guard_id artifact dependency]) p.2)
  | SharedHelperFailureCohort, CohortFailure cohort failure_id =>
    Some (mkSupport (mkFindingKey q cohort failure_id) (mkSupportPath [fact_id p.1] []) p.2)
  | _, _ => None
  end.

(** Whether the outer loop of a query on pairs enters the inner one. *)
Definition opens_pairs (q : StandingQueryFamily) (p : BaseFact * Z) : bool :=
  match q, fact_kind p.1 with
  | UngatedSinkReachability, AuthorityEdge _ _ | InvalidatedHeldProposal, HeldProposalDependency _ _ => true
  | _, _ => false
  end.

(** One event for every tuple examined. *)
Definition events (q : StandingQueryFamily) (l : facts) : list (option Support) :=
  match q with
  | UngatedSinkReachability | InvalidatedHeldProposal =>
    l ≫= λ p1, if opens_pairs q p1 then pair_support q l p1 <$> l else []
  | _ => fact_support q l <$> l
  end.
Definition supports (q : StandingQueryFamily) (l : facts) : list Support := omap id (events q l).

(** ** The loops run over the events *)

Section loops.
Context (max_width : Z) (mode : AntichainOverflowMode).

Definition add_support (s : Support) : building unit :=
  weight ← ok_or (i64_checked_mul (su_weight s) 1) WeightOverflow;
  entry_apply max_width mode (su_key s) (su_path s) weight.

Definition run_event (e : option Support) : building unit :=
  examine;;
  match e with Some s => add_support s | None => mret tt end.
End loops.

Lemma for_each_ext {A} (xs : list A) (f g : A → building unit) s :
  (∀ x s, x ∈ xs → f x s = g x s) → for_each xs f s = for_each xs g s.
Proof.
  revert s. induction xs as [|x xs IH]; intros s Hfg; [done|]. cbn [for_each]. unfold mbind, st_bind.
  rewrite (Hfg x s) by left. destruct (g x s) as [[[]| |] s']; [|done..]. apply IH. intros y s'' Hy. apply Hfg. by right.
Qed.

Lemma for_each_app {A} (xs ys : list A) (f : A → building unit) s :
  for_each (xs ++ ys) f s = (for_each xs f;; for_each ys f) s.
Proof.
  revert s. induction xs as [|x xs IH]; intros s; [done|]. cbn [for_each app]. unfold mbind, st_bind.
  destruct (f x s) as [[[]| |] s']; [|done..]. apply IH.
Qed.

Lemma for_each_fmap {A B} (xs : list A) (g : A → B) (f : B → building unit) s :
  for_each (g <$> xs) f s = for_each xs (λ x, f (g x)) s.
Proof.
  revert s. induction xs as [|x xs IH]; intros s; [done|]. csimpl. cbn [for_each]. unfold mbind, st_bind.
  destruct (f (g x) s) as [[[]| |] s']; [|done..]. apply IH.
Qed.

Lemma for_each_bind {A B} (xs : list A) (g : A → list B) (f : B → building unit) s :
  for_each (xs ≫= g) f s = for_each xs (λ x, for_each (g x) f) s.
Proof.
  revert s. induction xs as [|x xs IH]; intros s; [done|]. csimpl. rewrite for_each_app. cbn [for_each].
  unfold mbind, st_bind. destruct (for_each (g x) f s) as [[[]| |] s']; [|done..]. apply IH.
Qed.

Lemma oracle_gates_ok l a b : bool_decide (is_Some (oracle_gates l !! (a, b))) = gated l a b.
Proof.
  unfold oracle_gates, gated. assert (∀ m : gmap (Z * Z) Z, bool_decide (is_Some (foldl (λ gates p, match fact_kind p.1 with
    | QualifiedGate from to => <[(from, to) := fact_id p.1]> gates | _ => gates end) m l !! (a, b))) =
    bool_decide (is_Some (m !! (a, b))) || existsb (λ p, bool_decide (fact_kind p.1 = QualifiedGate a b)) l) as H.
  { induction l as [|p l IH]; intros m; cbn [foldl existsb]; [by rewrite orb_false_r|]. rewrite IH.
    assert (bool_decide (fact_kind p.1 = QualifiedGate a b) = true ∨
            bool_decide (fact_kind p.1 = QualifiedGate a b) = false) as [E|E] by (destruct (bool_decide _); auto).
    - rewrite E. apply bool_decide_eq_true in E. rewrite E, lookup_insert_eq, bool_decide_eq_true_2 by (by eexists).
      by rewrite orb_true_r.
    - rewrite E. apply bool_decide_eq_false in E. rewrite orb_false_l. f_equal. apply bool_decide_ext.
      destruct (fact_kind p.1) as [| from to| | | | |]; try done. rewrite lookup_insert_ne; [done|]. congruence. }
  by rewrite H, lookup_empty, bool_decide_eq_false_2 by (by intros []).
Qed.

Lemma set_of_kinds {A} `{Countable A} (l : facts) (f : BaseFact * Z → option A) (k : BaseFactKind) (x : A) :
  (∀ p, f p = Some x ↔ fact_kind p.1 = k) →
  bool_decide (x ∈ (list_to_set (omap f l) : gset A)) = existsb (λ p, bool_decide (fact_kind p.1 = k)) l.
Proof.
  intros Hf. apply eq_true_iff_eq. rewrite bool_decide_eq_true, elem_of_list_to_set, list_elem_of_omap, existsb_exists.
  split; intros (p & Hin & Hp); exists p.
  - split; [by apply list_elem_of_In|]. by apply bool_decide_eq_true, Hf.
  - split; [by apply list_elem_of_In|]. apply bool_decide_eq_true in Hp. by apply Hf.
Qed.

Lemma engine_gates_ok l a b : bool_decide ((a, b) ∈ engine_gates l) = gated l a b.
Proof. apply set_of_kinds. intros p. destruct (fact_kind p.1); naive_solver. Qed.
Lemma reviewed_pairs_ok l a b : bool_decide ((a, b) ∈ reviewed_pairs l) = review_in l a b.
Proof. apply set_of_kinds. intros p. destruct (fact_kind p.1); naive_solver. Qed.

Definition weights_fit (l : facts) : Prop := Forall (λ p, 0 < p.2 ≤ I64_MAX) l.

Lemma set_insert_length x xs : len (set_insert x xs) ≤ len xs + 1.
Proof.
  unfold len. induction xs as [|y ys IH]; cbn [set_insert]; [simpl; lia|].
  destruct (x <? y); [simpl; lia|]. destruct (x =? y); simpl in *; lia.
Qed.

Lemma small_path pos neg :
  pos ≠ [] → len pos ≤ 2 → len neg ≤ 2 → support_path_new pos neg = Ok (mkSupportPath pos neg).
Proof.
  intros Hne Hp Hn. unfold support_path_new, MAX_SUPPORT_ATOMS_PER_PATH. rewrite bool_decide_eq_false_2 by done.
  destruct (Z.ltb_spec 16 (len pos)), (Z.ltb_spec 16 (len neg)); done || lia.
Qed.

Lemma two_inserted x y : len (set_insert x (set_insert y [])) ≤ 2 ∧ set_insert x (set_insert y []) ≠ [].
Proof.
  split.
  - pose proof (set_insert_length x (set_insert y [])). pose proof (set_insert_length y []). change (len []) with 0 in *. lia.
  - intros E. assert (x ∈ set_insert x (set_insert y [])) as H by (apply elem_of_set_insert; by left). rewrite E in H.
    by apply not_elem_of_nil in H.
Qed.

Lemma checked_once a b : i64_checked_mul (a * b) 1 = i64_checked_mul a b.
Proof. unfold i64_checked_mul. by rewrite Z.mul_1_r. Qed.
Lemma checked_fits w : 0 < w ≤ I64_MAX → i64_checked_mul w 1 = Some w.
Proof. intros Hw. unfold i64_checked_mul. rewrite Z.mul_1_r. destruct (Z.leb_spec I64_MIN w), (Z.leb_spec w I64_MAX); done || lia. Qed.

Section same_loops.
Context (l : facts) (Hl : weights_fit l) (max_width : Z).

Lemma reachability_events (test : Z → Z → bool) mode s :
  (∀ a b, test a b = gated l a b) →
  for_each l (λ '(f1, w1),
    match fact_kind f1 with
    | AuthorityEdge actor mid =>
      for_each l (λ '(f2, w2),
        examine;;
        match fact_kind f2 with
        | AuthorityEdge mid2 sink =>
          if negb (mid =? mid2) || (actor =? sink) then mret tt
          else if test actor mid || test mid sink then mret tt
          else
            let pos := set_insert (fact_id f2) (set_insert (fact_id f1) []) in
            let neg := set_insert (guard_id mid sink) (set_insert (guard_id actor mid) []) in
            path ← lift (support_path_new pos neg);
            weight ← ok_or (i64_checked_mul w1 w2) WeightOverflow;
            entry_apply max_width mode (mkFindingKey UngatedSinkReachability actor sink) path weight
        | _ => mret tt
        end)
    | _ => mret tt
    end) s = for_each (events UngatedSinkReachability l) (run_event max_width mode) s.
Proof using.
  intros Htest. unfold events. rewrite for_each_bind. apply for_each_ext. intros [f1 w1] s1 _.
  unfold opens_pairs. cbn [fst]. destruct (fact_kind f1) as [actor mid| | | | | |] eqn:E1; try done.
  rewrite for_each_fmap. apply for_each_ext. intros [f2 w2] s2 _. unfold run_event, pair_support. cbn [fst snd]. rewrite E1.
  destruct (fact_kind f2) as [mid2 sink| | | | | |] eqn:E2; try done.
  rewrite !Htest. destruct (mid =? mid2), (actor =? sink), (gated l actor mid), (gated l mid sink); try done.
  cbn [negb orb andb]. destruct (two_inserted (fact_id f2) (fact_id f1)) as [Hp Hne].
  destruct (two_inserted (guard_id mid sink) (guard_id actor mid)) as [Hn _].
  cbv zeta. rewrite (small_path _ _ Hne Hp Hn). unfold add_support. cbn [su_weight su_key su_path]. by rewrite checked_once.
Qed.

Lemma invalidated_events mode s :
  for_each l (λ '(f1, w1),
    match fact_kind f1 with
    | HeldProposalDependency proposal key =>
      for_each l (λ '(f2, w2),
        examine;;
        match fact_kind f2 with
        | InvalidatedKey k2 _ =>
          if negb (key =? k2) then mret tt
          else
            path ← lift (support_path_new (set_insert (fact_id f2) (set_insert (fact_id f1) [])) []);
            weight ← ok_or (i64_checked_mul w1 w2) WeightOverflow;
            entry_apply max_width mode (mkFindingKey InvalidatedHeldProposal proposal key) path weight
        | _ => mret tt
        end)
    | _ => mret tt
    end) s = for_each (events InvalidatedHeldProposal l) (run_event max_width mode) s.
Proof using.
  unfold events. rewrite for_each_bind. apply for_each_ext. intros [f1 w1] s1 _.
  unfold opens_pairs. cbn [fst]. destruct (fact_kind f1) as [| | | |proposal key| |] eqn:E1; try done.
  rewrite for_each_fmap. apply for_each_ext. intros [f2 w2] s2 _. unfold run_event, pair_support. cbn [fst snd]. rewrite E1.
  destruct (fact_kind f2) as [| | | | |k2 revision|] eqn:E2; try done.
  destruct (key =? k2); try done. cbn [negb]. destruct (two_inserted (fact_id f2) (fact_id f1)) as [Hp Hne].
  rewrite (small_path _ [] Hne Hp) by done. unfold add_support. cbn [su_weight su_key su_path]. by rewrite checked_once.
Qed.

Lemma unreviewed_events mode s :
  for_each l (λ '(f, w),
    examine;;
    match fact_kind f with
    | ArtifactDependency artifact dependency =>
      if bool_decide ((artifact, dependency) ∈ reviewed_pairs l) then mret tt
      else
        path ← lift (support_path_new (set_insert (fact_id f) []) (set_insert (guard_id artifact dependency) []));
        entry_apply max_width mode (mkFindingKey UnreviewedArtifactDependency artifact dependency) path w
    | _ => mret tt
    end) s = for_each (events UnreviewedArtifactDependency l) (run_event max_width mode) s.
Proof using Hl.
  unfold events. rewrite for_each_fmap. apply for_each_ext. intros [f w] s1 Hin. unfold run_event, fact_support. cbn [fst snd].
  destruct (fact_kind f) as [| |artifact dependency| | | |]; try done. rewrite reviewed_pairs_ok.
  destruct (review_in l artifact dependency); [done|]. rewrite small_path by done.
  unfold add_support. cbn [su_weight su_key su_path]. unfold weights_fit in Hl. rewrite Forall_forall in Hl.
  by rewrite (checked_fits w (Hl _ Hin)).
Qed.

Lemma cohorts_events mode s :
  for_each l (λ '(f, w),
    examine;;
    match fact_kind f with
    | CohortFailure cohort failure_id =>
      path ← lift (support_path_new (set_insert (fact_id f) []) []);
      entry_apply max_width mode (mkFindingKey SharedHelperFailureCohort cohort failure_id) path w
    | _ => mret tt
    end) s = for_each (events SharedHelperFailureCohort l) (run_event max_width mode) s.
Proof using Hl.
  unfold events. rewrite for_each_fmap. apply for_each_ext. intros [f w] s1 Hin. unfold run_event, fact_support. cbn [fst snd].
  destruct (fact_kind f) as [| | | | | |cohort failure_id]; try done. rewrite small_path by done.
  unfold add_support. cbn [su_weight su_key su_path]. unfold weights_fit in Hl. rewrite Forall_forall in Hl.
  by rewrite (checked_fits w (Hl _ Hin)).
Qed.

(** Both evaluators run over the events. *)
Lemma oracle_events q s :
  (match q with
    | UngatedSinkReachability => oracle_reachability
    | UnreviewedArtifactDependency => oracle_unreviewed
    | InvalidatedHeldProposal => oracle_invalidated
    | SharedHelperFailureCohort => oracle_cohorts
    end q max_width l) s = for_each (events q l) (run_event max_width FailClosed) s.
Proof using Hl.
  destruct q.
  - apply (reachability_events (λ a b, bool_decide (is_Some (oracle_gates l !! (a, b))))). intros. apply oracle_gates_ok.
  - apply unreviewed_events.
  - apply invalidated_events.
  - apply cohorts_events.
Qed.

Lemma engine_events q mode s : build_antichains q max_width mode l s = for_each (events q l) (run_event max_width mode) s.
Proof using Hl.
  destruct q; cbn [build_antichains].
  - apply (reachability_events (λ a b, bool_decide ((a, b) ∈ engine_gates l))). intros. apply engine_gates_ok.
  - apply unreviewed_events.
  - apply invalidated_events.
  - apply cohorts_events.
Qed.
End same_loops.

(** ** Supports are distinct and incomparable *)

Lemma NoDup_omap {A B} (f : A → option B) (l : list A) :
  NoDup l → (∀ x y z, x ∈ l → y ∈ l → f x = Some z → f y = Some z → x = y) → NoDup (omap f l).
Proof.
  induction 1 as [|x l Hx Hnd IH]; intros Hinj; [constructor|]. csimpl.
  assert (NoDup (omap f l)) as IH' by (apply IH; intros a b z Ha Hb; apply Hinj; by right).
  destruct (f x) as [z|] eqn:E; [|done]. constructor; [|done].
  intros (y & Hy & Hz)%list_elem_of_omap. apply Hx. rewrite (Hinj x y z); [done|left|by right|done..].
Qed.

Lemma omap_bind {A B} (g : A → list (option B)) (l : list A) : omap id (l ≫= g) = l ≫= λ a, omap id (g a).
Proof. induction l as [|a l IH]; [done|]. csimpl. by rewrite omap_app, IH. Qed.

Lemma omap_fmap_id {A B} (f : A → option B) (l : list A) : omap id (f <$> l) = omap f l.
Proof. induction l as [|a l IH]; [done|]. csimpl. by rewrite IH. Qed.

Section distinct.
Context (q : StandingQueryFamily) (l : facts) (Hids : NoDup ((λ p, fact_id p.1) <$> l)).

Lemma same_fact p p' : p ∈ l → p' ∈ l → fact_id p.1 = fact_id p'.1 → p = p'.
Proof using Hids.
  intros Hp Hp' E. apply list_elem_of_lookup in Hp as [i Hi]. apply list_elem_of_lookup in Hp' as [j Hj].
  assert (i = j) as ->; [|congruence]. eapply NoDup_lookup; [exact Hids| |];
    rewrite list_lookup_fmap; [rewrite Hi|rewrite Hj]; simpl; [reflexivity|by rewrite E].
Qed.

Lemma NoDup_facts : NoDup l.
Proof using Hids. by eapply NoDup_fmap_1. Qed.

Lemma pair_atoms_in x f1 f2 : x ∈ pair_atoms f1 f2 ↔ x = fact_id f2 ∨ x = fact_id f1.
Proof using. unfold pair_atoms. rewrite !elem_of_set_insert, elem_of_nil. tauto. Qed.

Lemma pair_support_inj p1 p2 p1' p2' s s' :
  p1 ∈ l → p2 ∈ l → p1' ∈ l → p2' ∈ l → pair_support q l p1 p2 = Some s → pair_support q l p1' p2' = Some s' →
  su_key s = su_key s' → dominates_path (su_path s) (su_path s') = true → p1 = p1' ∧ p2 = p2'.
Proof using Hids.
  intros H1 H2 H1' H2' Hs Hs' Hkey [Hsub _]%andb_true_iff. pose proof (proj1 (is_subset_ok _ _) Hsub) as Hpos.
  assert (positive_atoms (su_path s) = pair_atoms p1.1 p2.1 ∧ positive_atoms (su_path s') = pair_atoms p1'.1 p2'.1) as [E E'].
  { unfold pair_support in Hs, Hs'. split; repeat case_match; simplify_eq; done. }
  rewrite E, E' in Hpos.
  assert (p1 = p2' ∨ p1 = p1') as Hfirst.
  { destruct (proj1 (pair_atoms_in _ _ _) (Hpos (fact_id p1.1) (proj2 (pair_atoms_in _ _ _) (or_intror eq_refl)))) as [Hid|Hid];
      [left|right]; by apply same_fact. }
  assert (p2 = p2' ∨ p2 = p1') as Hsecond.
  { destruct (proj1 (pair_atoms_in _ _ _) (Hpos (fact_id p2.1) (proj2 (pair_atoms_in _ _ _) (or_introl eq_refl)))) as [Hid|Hid];
      [left|right]; by apply same_fact. }
  clear Hpos E E'. unfold pair_support in Hs, Hs'.
  destruct q; try done; destruct (fact_kind p1.1) eqn:K1; try done; destruct (fact_kind p2.1) eqn:K2; try done;
    destruct (fact_kind p1'.1) eqn:K1'; try done; destruct (fact_kind p2'.1) eqn:K2'; try done.
  - destruct (Z.eqb_spec to from0) as [->|]; [|done]. destruct (Z.eqb_spec from to0) as [|Hne]; [done|].
    destruct (Z.eqb_spec to1 from2) as [->|]; [|by rewrite andb_false_l in Hs']. destruct (Z.eqb_spec from1 to2) as [|Hne']; [done|].
    cbn [negb andb] in Hs, Hs'. destruct (negb _ && negb _) in Hs; [|done]. destruct (negb _ && negb _) in Hs'; [|done].
    simplify_eq/=. destruct Hfirst as [->| ->], Hsecond as [->| ->]; try done; congruence.
  - destruct (_ =? _) in Hs; [|done]. destruct (_ =? _) in Hs'; [|done].
    destruct Hfirst as [->| ->], Hsecond as [->| ->]; try done; congruence.
Qed.

Lemma fact_support_inj p p' s s' :
  p ∈ l → p' ∈ l → fact_support q l p = Some s → fact_support q l p' = Some s' →
  dominates_path (su_path s) (su_path s') = true → p = p'.
Proof using Hids.
  intros Hp Hp' Hs Hs' [Hsub _]%andb_true_iff. pose proof (proj1 (is_subset_ok _ _) Hsub) as Hpos.
  assert (positive_atoms (su_path s) = [fact_id p.1] ∧ positive_atoms (su_path s') = [fact_id p'.1]) as [E E'].
  { unfold fact_support in Hs, Hs'. split; repeat case_match; simplify_eq; done. }
  rewrite E, E' in Hpos. apply same_fact; [done..|]. specialize (Hpos (fact_id p.1) ltac:(left)).
  by apply list_elem_of_singleton in Hpos.
Qed.

(** Where a support comes from. *)
Lemma elem_of_supports s :
  s ∈ supports q l ↔ (∃ p1 p2, p1 ∈ l ∧ p2 ∈ l ∧ pair_support q l p1 p2 = Some s) ∨ (∃ p, p ∈ l ∧ fact_support q l p = Some s).
Proof using.
  unfold supports, events. destruct q.
  - rewrite omap_bind, list_elem_of_bind. split.
    + intros (p1 & Hs & Hp1). left. destruct (opens_pairs _ p1); [|by apply elem_of_nil in Hs].
      rewrite omap_fmap_id in Hs. apply list_elem_of_omap in Hs as (p2 & Hp2 & Hs). by exists p1, p2.
    + intros [(p1 & p2 & Hp1 & Hp2 & Hs)|(p & Hp & Hs)]; [|unfold fact_support in Hs; by repeat case_match].
      exists p1. split; [|done]. assert (opens_pairs UngatedSinkReachability p1 = true) as ->.
      { unfold pair_support in Hs. unfold opens_pairs. by destruct (fact_kind p1.1). }
      rewrite omap_fmap_id. apply list_elem_of_omap. by exists p2.
  - rewrite omap_fmap_id, list_elem_of_omap. split; [intros (p & Hp & Hs); right; by exists p|].
    intros [(p1 & p2 & Hp1 & Hp2 & Hs)|(p & Hp & Hs)]; [unfold pair_support in Hs; by repeat case_match|by exists p].
  - rewrite omap_bind, list_elem_of_bind. split.
    + intros (p1 & Hs & Hp1). left. destruct (opens_pairs _ p1); [|by apply elem_of_nil in Hs].
      rewrite omap_fmap_id in Hs. apply list_elem_of_omap in Hs as (p2 & Hp2 & Hs). by exists p1, p2.
    + intros [(p1 & p2 & Hp1 & Hp2 & Hs)|(p & Hp & Hs)]; [|unfold fact_support in Hs; by repeat case_match].
      exists p1. split; [|done]. assert (opens_pairs InvalidatedHeldProposal p1 = true) as ->.
      { unfold pair_support in Hs. unfold opens_pairs. by destruct (fact_kind p1.1). }
      rewrite omap_fmap_id. apply list_elem_of_omap. by exists p2.
  - rewrite omap_fmap_id, list_elem_of_omap. split; [intros (p & Hp & Hs); right; by exists p|].
    intros [(p1 & p2 & Hp1 & Hp2 & Hs)|(p & Hp & Hs)]; [unfold pair_support in Hs; by repeat case_match|by exists p].
Qed.

Lemma dominates_refl p : dominates_path p p = true.
Proof using. unfold dominates_path. apply andb_true_iff. split; by apply is_subset_ok. Qed.

Lemma fact_or_pair p1 p2 p s s' : pair_support q l p1 p2 = Some s → fact_support q l p = Some s' → False.
Proof using. unfold pair_support, fact_support. destruct q; try done; by repeat case_match. Qed.

Lemma supports_incomparable s s' :
  s ∈ supports q l → s' ∈ supports q l → su_key s = su_key s' → dominates_path (su_path s) (su_path s') = true → s = s'.
Proof using Hids.
  rewrite !elem_of_supports. intros Hs Hs' Hkey Hdom.
  destruct Hs as [(p1 & p2 & H1 & H2 & Hs)|(p & Hp & Hs)], Hs' as [(p1' & p2' & H1' & H2' & Hs')|(p' & Hp' & Hs')].
  - destruct (pair_support_inj p1 p2 p1' p2' s s') as [-> ->]; [done..|]. congruence.
  - exfalso. by eapply fact_or_pair.
  - exfalso. by eapply fact_or_pair.
  - assert (p = p') as -> by (by eapply fact_support_inj). congruence.
Qed.

Lemma pairs_NoDup :
  NoDup (omap id (l ≫= λ p1, if opens_pairs q p1 then pair_support q l p1 <$> l else [])).
Proof using Hids.
  pose proof NoDup_facts as Hl. rewrite omap_bind. apply NoDup_bind; [| |done].
  - intros p1 p1' s Hp1 Hp1' Hs Hs'. destruct (opens_pairs q p1); [|by apply elem_of_nil in Hs].
    destruct (opens_pairs q p1'); [|by apply elem_of_nil in Hs'].
    rewrite omap_fmap_id in Hs, Hs'. apply list_elem_of_omap in Hs as (p2 & Hp2 & Hs), Hs' as (p2' & Hp2' & Hs').
    by eapply (pair_support_inj p1 p2 p1' p2' s s); [..|apply dominates_refl].
  - intros p1 Hp1. destruct (opens_pairs q p1); [|constructor]. rewrite omap_fmap_id. apply NoDup_omap; [done|].
    intros p2 p2' s Hp2 Hp2' Hs Hs'. by eapply (pair_support_inj p1 p2 p1 p2' s s); [..|apply dominates_refl].
Qed.

Lemma supports_NoDup : NoDup (supports q l).
Proof using Hids.
  pose proof pairs_NoDup as Hpairs. pose proof NoDup_facts as Hl.
  assert (NoDup (omap id (fact_support q l <$> l))) as Hsingle.
  { rewrite omap_fmap_id. apply NoDup_omap; [done|]. intros p p' s Hp Hp' Hs Hs'.
    eapply (fact_support_inj p p' s s); [done..|apply dominates_refl]. }
  unfold supports, events. by destruct q.
Qed.
End distinct.
