(* ===== verification/OversightBatch.v ===== *)
(** * Standing oversight: the batch oracle

    What the loops build from distinct and incomparable supports, and so what
    the oracle answers. *)

From stdpp Require Import base tactics numbers list gmap sets sorting.
From S2P Require Import Prelude Orders Judgment Frontier ProductFrontier Oversight OversightSupport.

Local Open Scope Z_scope.

(** ** Specification: the finding of a key *)

Definition group (key : FindingKey) (cs : list Support) : list (SupportPath * Z) :=
  omap (λ s, if bool_decide (su_key s = key) then Some (su_path s, su_weight s) else None) cs.
Definition group_weights (key : FindingKey) (cs : list Support) : gmap SupportPath Z := list_to_map (group key cs).

(** The antichain of all paths, cut to the width. *)
Definition antichain_of (width : Z) (ws : gmap SupportPath Z) : SupportAntichain :=
  let paths := (entries ws).*1 in
  if width <? len paths
  then mkSupportAntichain width (take (Z.to_nat width) paths) ws (CoarsenedConservative (len (union_atoms paths)))
  else mkSupportAntichain width paths ws ExactMinimalAntichain.

Definition finding_of (width : Z) (cs : list Support) (key : FindingKey) : FindingEvaluation :=
  let antichain := antichain_of width (group_weights key cs) in
  mkFindingEvaluation key (sa_paths antichain) (sumZ (group key cs).*2) (sa_precision antichain).

Definition findings_are (width : Z) (cs : list Support) (findings : gmap FindingKey FindingEvaluation) : Prop :=
  ∀ key, findings !! key = if bool_decide (group key cs = []) then None else Some (finding_of width cs key).

(** Supports as [supports] gives them. *)
Definition good (cs : list Support) : Prop :=
  NoDup cs ∧ Forall (λ s, 0 < su_weight s) cs ∧
  ∀ s s', s ∈ cs → s' ∈ cs → su_key s = su_key s' → dominates_path (su_path s) (su_path s') = true → s = s'.

(** ** Groups *)

Lemma group_app key cs cs' : group key (cs ++ cs') = group key cs ++ group key cs'.
Proof. apply omap_app. Qed.

Lemma elem_of_group key cs p w :
  (p, w) ∈ group key cs ↔ ∃ s, s ∈ cs ∧ su_key s = key ∧ su_path s = p ∧ su_weight s = w.
Proof.
  unfold group. rewrite list_elem_of_omap. split.
  - intros (s & Hs & E). case_bool_decide; [|done]. injection E as <- <-. by exists s.
  - intros (s & Hs & Hk & <- & <-). exists s. by rewrite bool_decide_eq_true_2.
Qed.

Lemma group_NoDup key cs : good cs → NoDup (group key cs).*1.
Proof.
  intros (Hnd & _ & Hinc). induction Hnd as [|s cs Hs Hnd IH]; [constructor|]. unfold group. csimpl. fold (group key cs).
  assert (NoDup (group key cs).*1) as IH' by (apply IH; intros a b Ha Hb; apply Hinc; by right).
  case_bool_decide as Hk; [|done]. csimpl. constructor; [|done].
  intros ([p w] & E & (s' & Hs' & Hk' & Hp & _)%elem_of_group)%list_elem_of_fmap. simpl in E.
  apply Hs. rewrite (Hinc s s'); [done|left|by right|congruence|]. rewrite E, Hp. apply dominates_refl.
Qed.

Lemma good_app_l cs cs' : good (cs ++ cs') → good cs.
Proof.
  intros (Hnd & Hw & Hinc). apply NoDup_app in Hnd as (Hnd & _). apply Forall_app in Hw as [Hw _]. split_and!; [done|done|].
  intros s s' Hs Hs'. apply Hinc; apply elem_of_app; by left.
Qed.

Lemma group_weights_lookup key cs p w : good cs → group_weights key cs !! p = Some w ↔ (p, w) ∈ group key cs.
Proof. intros Hg. symmetry. apply elem_of_list_to_map. by apply group_NoDup. Qed.

Lemma entries_group key cs : good cs → entries (group_weights key cs) ≡ₚ group key cs.
Proof. intros Hg. rewrite entries_perm. apply map_to_list_to_map. by apply group_NoDup. Qed.

Lemma group_size key cs : good cs → len (entries (group_weights key cs)).*1 = len (group key cs).
Proof. intros Hg. unfold len. by rewrite length_fmap, entries_group. Qed.

Lemma group_weights_snoc key cs s :
  good (cs ++ [s]) →
  group_weights key (cs ++ [s]) =
  if bool_decide (su_key s = key) then <[su_path s := su_weight s]> (group_weights key cs) else group_weights key cs.
Proof.
  intros Hg. pose proof (group_NoDup key _ Hg) as Hnd. unfold group_weights. rewrite group_app in Hnd |- *.
  unfold group at 2. unfold group at 2 in Hnd. csimpl. csimpl in Hnd. case_bool_decide as Hk; [|by rewrite app_nil_r].
  rewrite list_to_map_app, list_to_map_cons, list_to_map_nil, insert_empty, <-insert_union_singleton_r; [done|].
  apply not_elem_of_list_to_map_1. rewrite fmap_app in Hnd. apply NoDup_app in Hnd as (_ & Hno & _).
  intros Hin. apply (Hno _ Hin). left.
Qed.

(** ** Minimal paths *)

Lemma minimal_all cs key : good cs → minimal_paths (entries (group_weights key cs)).*1 = (entries (group_weights key cs)).*1.
Proof.
  intros Hg. unfold minimal_paths. set (paths := (entries (group_weights key cs)).*1).
  assert (∀ p, p ∈ paths → ∃ s, s ∈ cs ∧ su_key s = key ∧ su_path s = p) as Hpaths.
  { intros p ([p' w] & -> & Hin)%list_elem_of_fmap. rewrite entries_group in Hin by done.
    apply elem_of_group in Hin as (s & ? & ? & ? & _). by exists s. }
  assert (∀ l : list SupportPath, (∀ p, p ∈ l → p ∈ paths) →
    filter (λ c, existsb (λ o, negb (bool_decide (o = c)) && dominates_path o c) paths = false) l = l) as H; [|by apply H].
  induction l as [|p l IH]; intros Hl; [done|]. rewrite filter_cons_True; [f_equal; apply IH; intros; apply Hl; by right|].
  apply not_true_iff_false. rewrite existsb_exists. intros (o & Ho%list_elem_of_In & [Hne Hdom]%andb_true_iff).
  apply negb_true_iff, bool_decide_eq_false in Hne. apply Hne.
  destruct (Hpaths o Ho) as (s & Hs & Hk & <-), (Hpaths p (Hl p ltac:(left))) as (s' & Hs' & Hk' & <-).
  f_equal. apply Hg; [done|done|congruence|done].
Qed.

(** ** Building *)

Section building.
Context (width : Z) (Hwidth : 0 < width ≤ MAX_SNAPSHOT_FACTS) (mode : AntichainOverflowMode).

Definition built (cs : list Support) (m : gmap FindingKey SupportAntichain) : Prop :=
  ∀ key, m !! key = if bool_decide (group key cs = []) then None else Some (antichain_of width (group_weights key cs)).

Definition too_wide (cs : list Support) : Prop := ∃ key, width < len (group key cs).
Definition too_heavy (cs : list Support) : Prop := ∃ s, s ∈ cs ∧ I64_MAX < su_weight s.

Lemma group_snoc key cs s :
  group key (cs ++ [s]) = group key cs ++ (if bool_decide (su_key s = key) then [(su_path s, su_weight s)] else []).
Proof using. rewrite group_app. f_equal. unfold group. csimpl. by case_bool_decide. Qed.

Lemma antichain_of_width ws : sa_max_width (antichain_of width ws) = width ∧ sa_support_weights (antichain_of width ws) = ws.
Proof using. unfold antichain_of. by case_match. Qed.

(** A new path in an antichain that has all paths so far. *)
Lemma apply_delta_fresh cs s antichain :
  good (cs ++ [s]) → su_weight s ≤ I64_MAX →
  sa_max_width antichain = width → sa_support_weights antichain = group_weights (su_key s) cs →
  match apply_delta (su_path s) (su_weight s) mode antichain with
  | (Ok _, a) => a = antichain_of width (group_weights (su_key s) (cs ++ [s])) ∧
      (mode = ConservativeCoarsen ∨ len (group (su_key s) (cs ++ [s])) ≤ width)
  | (Err e, _) => e = AntichainWidthExceeded (len (group (su_key s) (cs ++ [s]))) width ∧ mode ≠ ConservativeCoarsen ∧
      width < len (group (su_key s) (cs ++ [s]))
  | (Panic, _) => False
  end.
Proof using.
  intros Hg Hw Ha Hws. pose proof (group_weights_snoc (su_key s) cs s Hg) as Hsnoc. rewrite bool_decide_eq_true_2 in Hsnoc by done.
  pose proof Hg as (_ & Hpos & _). apply Forall_app in Hpos as [_ Hpos]. rewrite Forall_singleton in Hpos.
  assert (group_weights (su_key s) cs !! su_path s = None) as Hfresh.
  { apply not_elem_of_list_to_map_1. intros Hin. pose proof (group_NoDup (su_key s) _ Hg) as Hnd.
    rewrite group_snoc, bool_decide_eq_true_2, fmap_app in Hnd by done. apply NoDup_app in Hnd as (_ & Hno & _).
    apply (Hno _ Hin). left. }
  unfold apply_delta, rebuild_minimal_antichain. munfold_goal.
  destruct (Z.eqb_spec (su_weight s) 0); [lia|]. cbv beta iota. rewrite Hws, Hfresh. cbn [default].
  unfold i64_checked_add. rewrite Z.add_0_l.
  destruct (Z.leb_spec I64_MIN (su_weight s)); [|lia]. destruct (Z.leb_spec (su_weight s) I64_MAX); [|lia]. cbn [andb].
  cbv beta iota. destruct (Z.ltb_spec (su_weight s) 0); [lia|]. destruct (Z.eqb_spec (su_weight s) 0); [lia|].
  unfold set_weights, set_paths. cbn [sa_support_weights sa_max_width]. rewrite Ha, <-Hsnoc, minimal_all by done.
  rewrite <-(group_size (su_key s) _ Hg). unfold antichain_of. set (paths := (entries _).*1).
  destruct (Z.ltb_spec width (len paths)); [|split; [done|by right]].
  destruct mode; [|by split_and!..]. split; [done|by left].
Qed.

Lemma antichain_new_ok : antichain_new width = Ok (antichain_of width ∅).
Proof using Hwidth.
  unfold antichain_new. destruct (Z.eqb_spec width 0); [lia|]. destruct (Z.ltb_spec MAX_SNAPSHOT_FACTS width); [lia|].
  unfold antichain_of. assert (entries (∅ : gmap SupportPath Z) = []) as -> by (unfold entries; by rewrite map_to_list_empty). simpl.
  change (len []) with 0. by destruct (Z.ltb_spec width 0); [lia|].
Qed.

Lemma built_snoc cs s m a :
  good (cs ++ [s]) → built cs m → a = antichain_of width (group_weights (su_key s) (cs ++ [s])) →
  built (cs ++ [s]) (<[su_key s := a]> m).
Proof using.
  intros Hg Hm -> key. rewrite group_snoc. destruct (decide (su_key s = key)) as [<-|Hne].
  - rewrite lookup_insert_eq, (bool_decide_eq_true_2 (su_key s = su_key s)) by done.
    rewrite bool_decide_eq_false_2; [done|]. intros E. by apply app_nil in E as [_ ?].
  - rewrite lookup_insert_ne, Hm by done. rewrite (bool_decide_eq_false_2 (su_key s = key)), app_nil_r by done.
    case_bool_decide; [done|]. f_equal. f_equal. by rewrite (group_weights_snoc key cs s Hg), bool_decide_eq_false_2.
Qed.

(** One support more. *)
Lemma add_support_step cs s b :
  good (cs ++ [s]) → built cs (bu_antichains b) →
  match add_support width mode s b with
  | (Ok _, b') => built (cs ++ [s]) (bu_antichains b') ∧ bu_examined b' = bu_examined b ∧
      su_weight s ≤ I64_MAX ∧ (mode = ConservativeCoarsen ∨ len (group (su_key s) (cs ++ [s])) ≤ width)
  | (Err e, b') => bu_examined b' = bu_examined b ∧
      (e = WeightOverflow ∧ I64_MAX < su_weight s ∨
       e = AntichainWidthExceeded (len (group (su_key s) (cs ++ [s]))) width ∧ mode ≠ ConservativeCoarsen ∧
         width < len (group (su_key s) (cs ++ [s])))
  | (Panic, _) => False
  end.
Proof using Hwidth.
  intros Hg Hb. pose proof Hg as (_ & Hpos & _). apply Forall_app in Hpos as [_ Hpos]. rewrite Forall_singleton in Hpos.
  unfold add_support, i64_checked_mul. rewrite Z.mul_1_r. destruct (Z.leb_spec I64_MIN (su_weight s)); [|lia].
  destruct (Z.leb_spec (su_weight s) I64_MAX); cbn [andb]; [|munfold_goal; auto].
  set (antichain := match bu_antichains b !! su_key s with Some a => a | None => antichain_of width ∅ end).
  assert (sa_max_width antichain = width ∧ sa_support_weights antichain = group_weights (su_key s) cs) as [Ha Hws].
  { unfold antichain. rewrite Hb. case_bool_decide as E; [|apply antichain_of_width].
    destruct (antichain_of_width ∅) as [-> ->]. split; [done|]. unfold group_weights. by rewrite E. }
  pose proof (apply_delta_fresh cs s antichain Hg ltac:(done) Ha Hws) as Hstep.
  assert (entry_apply width mode (su_key s) (su_path s) (su_weight s) b =
    zoom (λ _, antichain) (set_antichain (su_key s)) (λ e, e) (apply_delta (su_path s) (su_weight s) mode)
      (set_antichain (su_key s) antichain b)) as Heq.
  { unfold entry_apply, antichain. munfold_goal. destruct (bu_antichains b !! su_key s) as [a|]; [done|].
    rewrite antichain_new_ok. done. }
  munfold_goal. rewrite Heq. unfold zoom. destruct (apply_delta _ _ _ antichain) as [[[]|e|] a].
  - destruct Hstep as [-> Hmode]. split_and!; [|done|done|done]. unfold set_antichain. cbn [bu_antichains].
    rewrite insert_insert_eq. by apply built_snoc.
  - destruct Hstep as (-> & Hmode & Hover). split; [done|]. by right.
  - done.
Qed.

Lemma group_mono key cs cs' : len (group key cs) ≤ len (group key (cs ++ cs')).
Proof using. rewrite group_app, len_app. pose proof (len_nonneg (group key cs')). lia. Qed.

(** All events. *)
Lemma run_events evs : ∀ cs b,
  good (cs ++ omap id evs) → built cs (bu_antichains b) →
  (mode = ConservativeCoarsen ∨ ¬ too_wide cs) → ¬ too_heavy cs →
  let '(r, b') := for_each evs (run_event width mode) b in
  bu_examined b ≤ bu_examined b' ≤ bu_examined b + len evs ∧
  match r with
  | Ok _ => built (cs ++ omap id evs) (bu_antichains b') ∧ bu_examined b' = bu_examined b + len evs ∧
      (mode = ConservativeCoarsen ∨ ¬ too_wide (cs ++ omap id evs)) ∧ ¬ too_heavy (cs ++ omap id evs)
  | Err WeightOverflow => too_heavy (cs ++ omap id evs)
  | Err (AntichainWidthExceeded _ max_width) =>
      max_width = width ∧ mode ≠ ConservativeCoarsen ∧ too_wide (cs ++ omap id evs)
  | _ => False
  end.
Proof using Hwidth.
  induction evs as [|ev evs IH]; intros cs b Hg Hb Hwide Hheavy.
  { cbn [for_each]. munfold_goal. change (len []) with 0. csimpl. rewrite (app_nil_r cs). split; [lia|]. split_and!; [done|lia|done|done]. }
  cbn [for_each]. pose proof (len_nonneg evs) as Hlen.
  assert (len (ev :: evs) = len evs + 1) as Hcons by (unfold len; simpl; lia).
  assert (∀ cs' b', good (cs' ++ omap id evs) → cs' ++ omap id evs = cs ++ omap id (ev :: evs) →
    built cs' (bu_antichains b') → (mode = ConservativeCoarsen ∨ ¬ too_wide cs') → ¬ too_heavy cs' →
    bu_examined b' = bu_examined b + 1 →
    let '(r, b'') := for_each evs (run_event width mode) b' in
    bu_examined b ≤ bu_examined b'' ≤ bu_examined b + len (ev :: evs) ∧
    match r with
    | Ok _ => built (cs ++ omap id (ev :: evs)) (bu_antichains b'') ∧ bu_examined b'' = bu_examined b + len (ev :: evs) ∧
        (mode = ConservativeCoarsen ∨ ¬ too_wide (cs ++ omap id (ev :: evs))) ∧ ¬ too_heavy (cs ++ omap id (ev :: evs))
    | Err WeightOverflow => too_heavy (cs ++ omap id (ev :: evs))
    | Err (AntichainWidthExceeded _ max_width) =>
        max_width = width ∧ mode ≠ ConservativeCoarsen ∧ too_wide (cs ++ omap id (ev :: evs))
    | _ => False
    end) as Hrest.
  { intros cs' b' Hg' Heq Hb' Hwide' Hheavy' He. specialize (IH cs' b' Hg' Hb' Hwide' Hheavy'). rewrite Heq in IH.
    destruct (for_each evs _ b') as [r b'']. destruct IH as [Hex IH]. split; [lia|]. destruct r as [u|e|]; [|done..].
    destruct IH as (? & ? & ? & ?). split_and!; [done|lia|done|done]. }
  destruct ev as [s|]; csimpl in *.
  - set (b1 := mkBuild (bu_antichains b) (bu_examined b + 1)). unfold mbind, st_bind.
    change (run_event width mode (Some s) b) with (add_support width mode s b1).
    assert (good (cs ++ [s])) as Hgs by (apply (good_app_l _ (omap id evs)); by rewrite <-(assoc_L (++))).
    pose proof (add_support_step cs s b1 Hgs Hb) as Hstep. destruct (add_support width mode s b1) as [[[]|e|] b2]; [| |done].
    + destruct Hstep as (Hb2 & He2 & Hw & Hmode). cbv beta iota. apply (Hrest (cs ++ [s])); [by rewrite <-(assoc_L (++))|by rewrite <-(assoc_L (++))|done| | |done].
      * destruct Hmode as [?|Hk]; [by left|]. destruct Hwide as [?|Hwide]; [by left|right]. intros (key & Hkey).
        destruct (decide (su_key s = key)) as [<-|Hne]; [lia|].
        rewrite group_snoc, bool_decide_eq_false_2, app_nil_r in Hkey by done. apply Hwide. by exists key.
      * intros (s' & Hin & Hs'). apply elem_of_app in Hin as [Hin|Heq%list_elem_of_singleton]; [|subst s'; lia].
        apply Hheavy. by exists s'.
    + destruct Hstep as (He2 & Hcase). cbn [bu_examined b1] in He2. split; [lia|].
      destruct Hcase as [[-> Hover]|(-> & Hmode & Hover)].
      * exists s. split; [apply elem_of_app; right; left|done].
      * split_and!; [done|done|]. exists (su_key s). pose proof (group_mono (su_key s) (cs ++ [s]) (omap id evs)) as Hm.
        rewrite <-(assoc_L (++)) in Hm. simpl in Hm. lia.
  - unfold mbind, st_bind. change (run_event width mode None b) with (Ok (E:=StandingOversightError) tt, mkBuild (bu_antichains b) (bu_examined b + 1)).
    by apply (Hrest cs).
Qed.
End building.

(** ** Evaluating the antichains *)

Lemma sublist_fmap {A B} (f : A → B) l k : sublist l k → sublist (f <$> l) (f <$> k).
Proof. induction 1; csimpl; by constructor. Qed.

Definition total_too_heavy (cs : list Support) : Prop := ∃ key, I64_MAX < sumZ (group key cs).*2.

Lemma sum_weights_ok acc ws :
  0 ≤ acc ≤ I64_MAX → Forall (λ w, 0 < w) ws →
  sum_weights acc ws = if acc + sumZ ws <=? I64_MAX then Ok (acc + sumZ ws) else Err WeightOverflow.
Proof.
  intros Hacc Hws. revert acc Hacc. induction Hws as [|w ws Hw Hws IH]; intros acc Hacc; cbn [sum_weights].
  { unfold sumZ. simpl. rewrite Z.add_0_r. by destruct (Z.leb_spec acc I64_MAX); [|lia]. }
  assert (0 ≤ sumZ ws) as Hpos by (apply sumZ_nonneg; eapply Forall_impl; [done|]; simpl; intros; lia).
  unfold i64_checked_add. change (sumZ (w :: ws)) with (w + sumZ ws). destruct (Z.leb_spec I64_MIN (acc + w)); [|lia].
  destruct (Z.leb_spec (acc + w) I64_MAX); cbn [andb]; munfold_goal.
  - rewrite IH by lia. by rewrite Z.add_assoc.
  - by destruct (Z.leb_spec (acc + (w + sumZ ws)) I64_MAX); [lia|].
Qed.

Section evaluating.
Context (width : Z) (Hwidth : 0 < width ≤ MAX_SNAPSHOT_FACTS) (cs : list Support) (Hg : good cs).

Lemma group_positive key : Forall (λ w, 0 < w) (group key cs).*2.
Proof using Hg.
  apply Forall_fmap, Forall_forall. intros [p w] (s & Hs & _ & _ & <-)%elem_of_group. destruct Hg as (_ & Hpos & _).
  rewrite Forall_forall in Hpos. by apply Hpos.
Qed.

Lemma evaluate_ok key :
  evaluate_antichain key (antichain_of width (group_weights key cs)) =
  if sumZ (group key cs).*2 <=? I64_MAX then Ok (finding_of width cs key) else Err WeightOverflow.
Proof using Hg.
  unfold evaluate_antichain, total_weight. destruct (antichain_of_width width (group_weights key cs)) as [_ ->].
  assert (map_values (group_weights key cs) ≡ₚ (group key cs).*2) as Hp by (unfold map_values; by rewrite entries_group).
  rewrite sum_weights_ok; [|done|rewrite Hp; apply group_positive]. rewrite Z.add_0_l.
  assert (sumZ (map_values (group_weights key cs)) = sumZ (group key cs).*2) as -> by (by rewrite Hp).
  by destruct (sumZ _ <=? I64_MAX).
Qed.

Lemma supported key : group key cs ≠ [] → is_supported (antichain_of width (group_weights key cs)) = true.
Proof using Hg Hwidth.
  intros Hne. unfold is_supported. apply negb_true_iff, bool_decide_eq_false. intros E. apply Hne.
  pose proof (group_size key cs Hg) as Hsize. unfold antichain_of in E.
  destruct (Z.ltb_spec width (len (entries (group_weights key cs)).*1)); cbn [sa_paths] in E.
  - apply take_nil_inv in E as [E|E]; [lia|]. rewrite E in H. change (len []) with 0 in H. lia.
  - rewrite E in Hsize. change (len []) with 0 in Hsize. apply length_zero_iff_nil. unfold len in Hsize. lia.
Qed.

Lemma collect_spec l findings :
  Forall (λ p, group p.1 cs ≠ [] ∧ p.2 = antichain_of width (group_weights p.1 cs)) l →
  match collect_findings l findings with
  | Ok findings' =>
      (∀ key, findings' !! key = if bool_decide (key ∈ l.*1) then Some (finding_of width cs key) else findings !! key) ∧
      ∀ key, key ∈ l.*1 → sumZ (group key cs).*2 ≤ I64_MAX
  | Err e => e = WeightOverflow ∧ total_too_heavy cs
  | Panic => False
  end.
Proof using Hg Hwidth.
  intros Hl. revert findings. induction Hl as [|[key a] l [Hne Ha] Hl IH]; intros findings; cbn [collect_findings].
  { split; [|by intros ? ?%elem_of_nil]. intros key. by case_bool_decide as E; [apply elem_of_nil in E|]. }
  cbn [fst snd] in Hne, Ha. subst a. rewrite supported, evaluate_ok by done.
  destruct (Z.leb_spec (sumZ (group key cs).*2) I64_MAX) as [Hfit|Hover]; munfold_goal; [|split; [done|by exists key]].
  specialize (IH (<[key := finding_of width cs key]> findings)). destruct (collect_findings l _) as [findings'|e|]; [|done..].
  destruct IH as [IH1 IH2]. split.
  - intros key'. rewrite IH1. csimpl. case_bool_decide as Hin.
    + by rewrite bool_decide_eq_true_2 by (by right).
    + destruct (decide (key = key')) as [<-|Hneq].
      * by rewrite lookup_insert_eq, bool_decide_eq_true_2 by left.
      * rewrite lookup_insert_ne by done. rewrite bool_decide_eq_false_2; [done|]. intros [->|?]%elem_of_cons; done.
  - csimpl. intros key' [->|Hin]%elem_of_cons; [done|by apply IH2].
Qed.

Lemma built_entries m : built width cs m →
  Forall (λ p, group p.1 cs ≠ [] ∧ p.2 = antichain_of width (group_weights p.1 cs)) (entries m) ∧
  ∀ key, key ∈ (entries m).*1 ↔ group key cs ≠ [].
Proof using.
  intros Hm. split.
  - apply Forall_forall. intros [key a] Hin%elem_of_entries. rewrite Hm in Hin. simpl.
    case_bool_decide; [done|]. by injection Hin as <-.
  - intros key. rewrite list_elem_of_fmap. split.
    + intros ([k a] & -> & Hin%elem_of_entries). rewrite Hm in Hin. by case_bool_decide.
    + intros Hne. exists (key, antichain_of width (group_weights key cs)). split; [done|]. apply elem_of_entries.
      by rewrite Hm, bool_decide_eq_false_2.
Qed.

Lemma collect_built m :
  built width cs m →
  match collect_findings (entries m) ∅ with
  | Ok findings => findings_are width cs findings ∧ ¬ total_too_heavy cs
  | Err e => e = WeightOverflow ∧ total_too_heavy cs
  | Panic => False
  end.
Proof using Hg Hwidth.
  intros Hm. destruct (built_entries m Hm) as [Hall Hkeys]. pose proof (collect_spec _ ∅ Hall) as H.
  destruct (collect_findings _ _) as [findings|e|]; [|done..]. destruct H as [Hf Hs]. split.
  - intros key. rewrite Hf, lookup_empty. specialize (Hkeys key).
    destruct (decide (group key cs = [])) as [E|E].
    + rewrite (bool_decide_eq_true_2 _ E), bool_decide_eq_false_2; [done|]. tauto.
    + rewrite (bool_decide_eq_false_2 _ E), bool_decide_eq_true_2; [done|]. tauto.
  - intros (key & Hkey). destruct (decide (group key cs = [])) as [E|E]; [rewrite E in Hkey; by vm_compute in Hkey|].
    specialize (Hs key (proj2 (Hkeys key) E)). lia.
Qed.

(** The engine's loop is the oracle's with a counter. *)
Definition coarse_keys (m : gmap FindingKey SupportAntichain) : list FindingKey :=
  (filter (λ p, is_coarsened p.2 = true) (entries m)).*1.

Lemma collect_maintained_eq l findings coarsened :
  Forall (λ p, group p.1 cs ≠ [] ∧ p.2 = antichain_of width (group_weights p.1 cs)) l →
  collect_maintained l findings coarsened =
  (findings' ← collect_findings l findings;
   Ok (findings', coarsened + len (filter (λ p, is_coarsened p.2 = true) l).*1)).
Proof using Hg Hwidth.
  intros Hl. revert findings coarsened. induction Hl as [|[key a] l [Hne Ha] Hl IH]; intros findings coarsened.
  { cbn [collect_maintained collect_findings]. munfold_goal. change (len _) with 0. by rewrite Z.add_0_r. }
  cbn [collect_maintained collect_findings fst snd] in *. subst a. rewrite supported, evaluate_ok by done.
  destruct (sumZ (group key cs).*2 <=? I64_MAX); munfold_goal; [|done]. rewrite IH. munfold_goal.
  destruct (collect_findings l _) as [findings'|e|]; [|done..]. do 2 f_equal.
  destruct (is_coarsened _) eqn:E.
  - rewrite filter_cons_True by done. csimpl. unfold len. simpl. lia.
  - rewrite filter_cons_False by (simpl; congruence). done.
Qed.

Lemma coarse_keys_ok m : built width cs m →
  NoDup (coarse_keys m) ∧ ∀ key, key ∈ coarse_keys m ↔ width < len (group key cs).
Proof using Hg Hwidth.
  intros Hm. split.
  - unfold coarse_keys. eapply sublist_NoDup; [apply (entries_NoDup m)|]. apply sublist_fmap, sublist_filter.
  - intros key. unfold coarse_keys. rewrite list_elem_of_fmap.
    assert (is_coarsened (antichain_of width (group_weights key cs)) = true ↔ width < len (group key cs)) as Hc.
    { unfold antichain_of, is_coarsened. rewrite group_size by done. destruct (Z.ltb_spec width (len (group key cs))); simpl; split; intros; done || lia. }
    split.
    + intros ([k a] & -> & [Hco Hin]%list_elem_of_filter). apply elem_of_entries in Hin. rewrite Hm in Hin. simpl in *.
      case_bool_decide; [done|]. injection Hin as <-. by apply Hc.
    + intros Hlt. exists (key, antichain_of width (group_weights key cs)). split; [done|]. apply list_elem_of_filter.
      split; [by apply Hc|]. apply elem_of_entries. rewrite Hm, bool_decide_eq_false_2; [done|]. intros E. rewrite E in Hlt.
      change (len []) with 0 in Hlt. lia.
Qed.
End evaluating.

(** ** The oracle *)

(** What an engine keeps of its facts. *)
Definition facts_ok (facts : gmap Z (BaseFact * Z)) : Prop :=
  map_Forall (λ id p, fact_id p.1 = id ∧ 0 < p.2 ≤ I64_MAX) facts ∧ Z.of_nat (size facts) ≤ MAX_SNAPSHOT_FACTS.

Definition frontier_reached (s : OversightSnapshot) : Prop :=
  product_satisfies (os_frontiers s) (os_required_frontier s) = Ok true.

(** A finding with all of its supports. *)
Definition exact_finding (cs : list Support) (key : FindingKey) : FindingEvaluation :=
  mkFindingEvaluation key (entries (group_weights key cs)).*1 (sumZ (group key cs).*2) ExactMinimalAntichain.
Definition findings_exact (cs : list Support) (findings : gmap FindingKey FindingEvaluation) : Prop :=
  ∀ key, findings !! key = if bool_decide (group key cs = []) then None else Some (exact_finding cs key).

Lemma active_ok s :
  facts_ok (os_facts s) →
  weights_fit (active_facts s) ∧ NoDup ((λ p, fact_id p.1) <$> active_facts s) ∧
  len (active_facts s) = Z.of_nat (size (os_facts s)).
Proof.
  intros [Hf _]. assert (Forall (λ p : BaseFact * Z, 0 < p.2 ≤ I64_MAX) (map_values (os_facts s))) as Hw.
  { apply Forall_map_values. intros id p Hp. by apply (Hf id p). }
  assert (active_facts s = map_values (os_facts s)) as Hall.
  { unfold active_facts. revert Hw. generalize (map_values (os_facts s)). intros l Hw.
    induction Hw as [|p l Hp Hw IH]; [done|]. rewrite filter_cons_True by lia. by rewrite IH. }
  rewrite Hall. split; [done|]. split.
  - assert ((λ p : BaseFact * Z, fact_id p.1) <$> map_values (os_facts s) = (entries (os_facts s)).*1) as ->; [|apply entries_NoDup].
    unfold map_values. rewrite <-list_fmap_compose. apply list_fmap_ext. intros i [id p] Hin%list_elem_of_lookup_2%elem_of_entries.
    by apply (Hf id p).
  - unfold len, map_values. by rewrite length_fmap, entries_length.
Qed.

Lemma supports_good q l : weights_fit l → NoDup ((λ p, fact_id p.1) <$> l) → good (supports q l).
Proof.
  intros Hw Hids. split_and!; [by apply supports_NoDup| |by apply supports_incomparable].
  unfold weights_fit in Hw. rewrite Forall_forall in Hw. apply Forall_forall. intros s Hs.
  apply elem_of_supports in Hs as [(p1 & p2 & H1 & H2 & Hs)|(p & Hp & Hs)].
  - specialize (Hw p1 H1) as W1. specialize (Hw p2 H2) as W2. unfold pair_support in Hs. repeat case_match; simplify_eq/=; nia.
  - specialize (Hw p Hp). unfold fact_support in Hs. repeat case_match; simplify_eq/=; lia.
Qed.

Lemma product_satisfies_total pf req : product_satisfies pf req ≠ Panic.
Proof. unfold product_satisfies. munfold_goal. by repeat case_match. Qed.

Lemma exact_findings width cs findings : good cs → ¬ too_wide width cs → findings_are width cs findings → findings_exact cs findings.
Proof.
  intros Hg Hwide Hf key. rewrite Hf. case_bool_decide; [done|]. f_equal. unfold finding_of, exact_finding, antichain_of.
  rewrite group_size by done. destruct (Z.ltb_spec width (len (group key cs))); [|done]. exfalso. apply Hwide. by exists key.
Qed.

Lemma oracle_spec s q width :
  facts_ok (os_facts s) → 0 < width ≤ MAX_SNAPSHOT_FACTS →
  let cs := supports q (active_facts s) in
  match evaluate_batch_query s q width with
  | Ok a => frontier_reached s ∧ needs_closed_domain q && negb (os_negative_domain_closed s) = false ∧
      ¬ too_heavy cs ∧ ¬ total_too_heavy cs ∧ ¬ too_wide width cs ∧ findings_exact cs (bo_findings a) ∧
      bo_generations a = os_generations s ∧ bo_frontier_seq a = fr_through (os_required_frontier s) ∧
      bo_tuples_examined a = len (events q (active_facts s))
  | Err IncompleteProductFrontier => ¬ frontier_reached s
  | Err UnclosedNegativeDomain => frontier_reached s ∧ needs_closed_domain q && negb (os_negative_domain_closed s) = true
  | Err WeightOverflow => frontier_reached s ∧ (too_heavy cs ∨ total_too_heavy cs)
  | Err (AntichainWidthExceeded _ w) => frontier_reached s ∧ w = width ∧ too_wide width cs
  | _ => False
  end.
Proof.
  intros Hf Hwidth cs. destruct (active_ok s Hf) as (Hw & Hids & _). pose proof (supports_good q _ Hw Hids) as Hg. fold cs in Hg.
  unfold evaluate_batch_query, frontier_reached.
  destruct (product_satisfies (os_frontiers s) (os_required_frontier s)) as [b|e|] eqn:Hsat;
    [|done|by apply product_satisfies_total in Hsat].
  destruct b; [|done]. munfold_goal. cbn [negb].
  destruct (needs_closed_domain q && negb (os_negative_domain_closed s)) eqn:Hdomain; [done|].
  pose proof (oracle_events _ Hw width q (mkBuild ∅ 0)) as Hevents.
  pose proof (run_events width Hwidth FailClosed (events q (active_facts s)) [] (mkBuild ∅ 0)) as Hrun.
  fold (supports q (active_facts s)) cs in Hrun. unfold exec. rewrite Hevents. cbn [app] in Hrun.
  assert (∀ key, group key [] = []) as Hnil by done.
  specialize (Hrun Hg). destruct (for_each _ _ _) as [r b'].
  destruct Hrun as [Hex Hrun]; [by intros key; cbn [bu_antichains]; rewrite lookup_empty| | |].
  { right. intros (key & Hkey). change (len (group key [])) with 0 in Hkey. lia. }
  { by intros (s' & ?%elem_of_nil & _). }
  destruct r as [u|e|]; [|destruct e; try done; [by split; [|left]|by destruct Hrun as (-> & _ & ?)]|done].
  destruct Hrun as (Hbuilt & Hexam & [?|Hwide] & Hheavy); [done|].
  pose proof (collect_built width Hwidth cs Hg _ Hbuilt) as Hcollect.
  destruct (collect_findings _ _) as [findings|e|]; [|destruct Hcollect as [-> ?]; by split; [|right]|done].
  destruct Hcollect as [Hfind Htotal]. cbn [bo_findings bo_generations bo_frontier_seq bo_tuples_examined].
  split_and!; try done. by eapply exact_findings.
Qed.

Definition supports_of (key : FindingKey) (cs : list Support) : list Support := filter (λ c, su_key c = key) cs.

Lemma group_supports key cs : group key cs = (λ c, (su_path c, su_weight c)) <$> supports_of key cs.
Proof.
  unfold group, supports_of. induction cs as [|c cs IH]; [done|]. csimpl. rewrite IH. rewrite filter_cons. case_bool_decide; case_decide; done.
Qed.

(** C20: the batch oracle. Its answer has a finding for every key with a support
    and for no other; a finding lists the paths of all supports of its key, each
    once, and the sum of their weights. It refuses exactly where the frontier is
    not reached, the domain of the absent guards is open, a weight or a sum
    overflows, or a key has more supports than the width. *)
Theorem batch_oracle_exact s q width :
  facts_ok (os_facts s) → 0 < width ≤ MAX_SNAPSHOT_FACTS →
  let cs := supports q (active_facts s) in
  let open_domain := needs_closed_domain q && negb (os_negative_domain_closed s) in
  match evaluate_batch_query s q width with
  | Ok a => frontier_reached s ∧ open_domain = false ∧ bo_generations a = os_generations s ∧
      bo_tuples_examined a = len (events q (active_facts s)) ∧
      ∀ key, match bo_findings a !! key with
      | Some f => supports_of key cs ≠ [] ∧ len (supports_of key cs) ≤ width ∧ fe_key f = key ∧
          fe_precision f = ExactMinimalAntichain ∧
          fe_minimal_supports f ≡ₚ su_path <$> supports_of key cs ∧ NoDup (fe_minimal_supports f) ∧
          fe_total_support_weight f = sumZ (su_weight <$> supports_of key cs) ∧ fe_total_support_weight f ≤ I64_MAX
      | None => supports_of key cs = []
      end
  | Err IncompleteProductFrontier => ¬ frontier_reached s
  | Err UnclosedNegativeDomain => frontier_reached s ∧ open_domain = true
  | Err WeightOverflow => frontier_reached s ∧ ((∃ c, c ∈ cs ∧ I64_MAX < su_weight c) ∨
      ∃ key, I64_MAX < sumZ (su_weight <$> supports_of key cs))
  | Err (AntichainWidthExceeded _ w) => frontier_reached s ∧ w = width ∧ ∃ key, width < len (supports_of key cs)
  | _ => False
  end.
Proof.
  intros Hf Hwidth cs open_domain. pose proof (oracle_spec s q width Hf Hwidth) as H. cbv zeta in H. fold cs open_domain in H.
  destruct (active_ok s Hf) as (Hw & Hids & _). pose proof (supports_good q _ Hw Hids) as Hg. fold cs in Hg.
  assert (∀ key, (group key cs).*2 = su_weight <$> supports_of key cs) as Hweights
    by (intros key; by rewrite group_supports, <-list_fmap_compose).
  assert (∀ key, len (group key cs) = len (supports_of key cs)) as Hlen
    by (intros key; rewrite group_supports; unfold len; by rewrite length_fmap).
  destruct (evaluate_batch_query s q width) as [a|e|]; [| |done].
  - destruct H as (Hreach & Hopen & _ & Htotal & Hwide & Hexact & Hgen & _ & Hexam). split_and!; try done. intros key.
    rewrite Hexact. case_bool_decide as Hempty; rewrite group_supports in Hempty.
    + by apply fmap_nil_inv in Hempty.
    + assert (supports_of key cs ≠ []) as Hne by (intros E; by rewrite E in Hempty). cbn [exact_finding fe_key fe_precision fe_minimal_supports fe_total_support_weight].
      assert ((entries (group_weights key cs)).*1 ≡ₚ su_path <$> supports_of key cs) as Hperm
        by (rewrite entries_group by done; by rewrite group_supports, <-list_fmap_compose).
      split_and!; try done; [|apply entries_NoDup|by rewrite Hweights|].
      * rewrite <-Hlen. apply Z.nlt_ge. intros Hlt. apply Hwide. by exists key.
      * apply Z.nlt_ge. intros Hlt. apply Htotal. by exists key.
  - destruct e; try done.
    + destruct H as (Hreach & [Hheavy|(key & Hkey)]); (split; [done|]); [by left|right]. exists key. by rewrite <-Hweights.
    + destruct H as (Hreach & -> & key & Hkey). split_and!; [done|done|]. exists key. by rewrite <-Hlen.
Qed.

(** ** A concrete snapshot *)

Definition example_oversight_snapshot : OversightSnapshot :=
  mkOversightSnapshot (mkGenerations 1 1 1 1 1) true
    (match exec (product_accept (mkProjectionKey 1 1 1 1) Authenticated 1) (mkProductFrontiers 4 16 ∅) with
     | Ok f => f | _ => mkProductFrontiers 4 16 ∅ end)
    (mkFrontierRequirement (mkProjectionKey 1 1 1 1) Authenticated 1 None)
    (list_to_map ((λ '(id, k, w), (id, (mkBaseFact id k, w))) <$>
      [(1, HeldProposalDependency 5 7, 2); (2, InvalidatedKey 7 1, 3); (3, InvalidatedKey 7 2, 1)])).

Lemma example_snapshot_facts : facts_ok (os_facts example_oversight_snapshot).
Proof.
  split; [|by vm_compute]. unfold example_oversight_snapshot. cbn [os_facts].
  repeat (apply map_Forall_insert_2; [by vm_compute|]). apply map_Forall_empty.
Qed.

Lemma batch_oracle_exact_witness :
  match evaluate_batch_query example_oversight_snapshot InvalidatedHeldProposal 2 with
  | Ok a => match bo_findings a !! mkFindingKey InvalidatedHeldProposal 5 7 with
    | Some f => fe_total_support_weight f = 8 ∧ len (fe_minimal_supports f) = 2
    | None => False
    end
  | _ => False
  end.
Proof.
  pose proof (batch_oracle_exact example_oversight_snapshot InvalidatedHeldProposal 2 example_snapshot_facts ltac:(done)) as H.
  destruct (evaluate_batch_query example_oversight_snapshot InvalidatedHeldProposal 2) as [a|e|] eqn:E; [|by vm_compute in E..].
  destruct H as (_ & _ & _ & _ & H). specialize (H (mkFindingKey InvalidatedHeldProposal 5 7)).
  destruct (bo_findings a !! _) as [f|]; [|by vm_compute in H].
  destruct H as (_ & _ & _ & _ & Hpaths & _ & Hweight & _). split; [by rewrite Hweight|].
  unfold len. rewrite Hpaths. done.
Defined.
