(* ===== verification/OversightEngine.v ===== *)
(** * Standing oversight: the incremental engine

    An invariant of the engine, what a rebuild of its antichains gives, and what
    closing a frontier answers: the comparison with the oracle never fails. *)

From stdpp Require Import base tactics numbers list gmap sets sorting.
From S2P Require Import Prelude Orders Judgment Frontier ProductFrontier Oversight OversightSupport OversightBatch.

Local Open Scope Z_scope.

(** ** The frontiers of an engine *)

Definition closed_stage (n : Z) : StageFrontier := mkStageFrontier (mkFrontier n ∅ 16) n.
Definition closed_projection (captured authenticated : Z) : ProjectionFrontiers :=
  mkProjectionFrontiers
    (<[EffectBound := closed_stage 0]> (<[Judged := closed_stage 0]> (<[Presented := closed_stage 0]>
      (<[DurableRequired := closed_stage 0]> (<[Authenticated := closed_stage authenticated]>
        (<[Captured := closed_stage captured]> ∅)))))) None.

(** Captured and authenticated up to [n]. *)
Definition closed_frontiers (key : ProjectionKey) (n : Z) : ProductFrontiers :=
  mkProductFrontiers 4 16 (if n =? 0 then ∅ else {[key := closed_projection n n]}).

Lemma closed_stage_wf n : 0 ≤ n ≤ U64_MAX → frontier_wf (sf_frontier (closed_stage n)).
Proof. intros Hn. split; simpl; [unfold is_u64; lia|lia|]. intros s Hs. by apply elem_of_empty in Hs. Qed.

(** Accepting the next number, or one that is already accepted. *)
Lemma closed_accept n seq :
  0 ≤ n → 0 < seq ≤ n + 1 → seq ≤ U64_MAX →
  stage_frontier_accept seq (closed_stage n) = (Ok tt, closed_stage (Z.max n seq)).
Proof.
  intros Hn Hseq Hmax. unfold stage_frontier_accept, frontier_accept, closed_stage. munfold_goal.
  cbn [sf_frontier sf_greatest_accepted]. destruct (Z.eqb_spec seq 0); [lia|]. cbn [f_contiguous f_pending f_max_gap].
  destruct (Z.leb_spec seq n).
  { cbv beta iota. cbn [sf_frontier sf_greatest_accepted]. by rewrite !Z.max_l by lia. }
  assert (seq = n + 1) as -> by lia. destruct (Z.ltb_spec 16 (n + 1 - n)); [lia|]. cbv beta iota.
  rewrite union_empty_r_L, size_singleton. cbn [frontier_drain f_contiguous f_pending f_max_gap]. unfold u64_checked_add.
  destruct (Z.leb_spec (n + 1) U64_MAX); [|lia]. rewrite bool_decide_eq_true_2 by set_solver.
  rewrite difference_diag_L. destruct (Z.leb_spec (n + 1 + 1) U64_MAX); [rewrite bool_decide_eq_false_2 by set_solver|];
    cbn [sf_frontier sf_greatest_accepted]; by rewrite !Z.max_r by lia.
Qed.

Definition one_projection (key : ProjectionKey) (captured authenticated : Z) : ProductFrontiers :=
  mkProductFrontiers 4 16 {[key := closed_projection captured authenticated]}.

Lemma on_closed_stage stage c a seq n p :
  pj_stages (closed_projection c a) !! stage = Some (closed_stage n) →
  0 ≤ n → 0 < seq ≤ n + 1 → seq ≤ U64_MAX →
  mkProjectionFrontiers (<[stage := closed_stage (Z.max n seq)]> (pj_stages (closed_projection c a))) None = p →
  on_stage stage (stage_frontier_accept seq) (closed_projection c a) = (Ok tt, p).
Proof.
  intros Hstage Hn Hseq Hmax <-. unfold on_stage. munfold_goal. rewrite Hstage. unfold zoom. by rewrite closed_accept.
Qed.

Lemma one_accept key stage c a seq p :
  on_stage stage (stage_frontier_accept seq) (closed_projection c a) = (Ok tt, p) → 0 < seq →
  exec (product_accept key stage seq) (one_projection key c a) = Ok (mkProductFrontiers 4 16 {[key := p]}).
Proof.
  intros Hon Hseq. unfold exec, product_accept, one_projection. munfold_goal. destruct (Z.eqb_spec seq 0); [lia|].
  cbn [pf_projections]. rewrite lookup_singleton_eq. cbn [is_some_and closed_projection pj_close].
  unfold on_projection, zoom. fold (closed_projection c a). rewrite Hon. unfold set_projection. cbn [map_err pf_projections pf_max_streams pf_max_gap].
  by rewrite insert_singleton_eq.
Qed.

Lemma one_captured key c a seq :
  0 ≤ c → 0 < seq ≤ c + 1 → seq ≤ U64_MAX →
  exec (product_accept key Captured seq) (one_projection key c a) = Ok (one_projection key (Z.max c seq) a).
Proof. intros Hc Hs Hm. apply one_accept; [|lia]. by apply (on_closed_stage _ c a seq c). Qed.

Lemma one_authenticated key c a seq :
  0 ≤ a → 0 < seq ≤ a + 1 → seq ≤ U64_MAX →
  exec (product_accept key Authenticated seq) (one_projection key c a) = Ok (one_projection key c (Z.max a seq)).
Proof. intros Hc Hs Hm. apply one_accept; [|lia]. by apply (on_closed_stage _ c a seq a). Qed.

Lemma none_captured key :
  exec (product_accept key Captured 1) (mkProductFrontiers 4 16 ∅) = Ok (one_projection key 1 0).
Proof. reflexivity. Qed.

Lemma closed_step key n seq rest :
  0 ≤ n → 0 < seq ≤ n + 1 → seq ≤ U64_MAX →
  accept_sequences key (seq :: rest) (closed_frontiers key n) = accept_sequences key rest (closed_frontiers key (Z.max n seq)).
Proof.
  intros Hn Hs Hm. cbn [accept_sequences]. unfold closed_frontiers at 1 2. destruct (Z.eqb_spec (Z.max n seq) 0); [lia|].
  fold (one_projection key (Z.max n seq) (Z.max n seq)). destruct (Z.eqb_spec n 0) as [->|Hne].
  - assert (seq = 1) as -> by lia. rewrite none_captured. munfold_goal. by rewrite one_authenticated.
  - fold (one_projection key n n). rewrite one_captured by lia. munfold_goal. by rewrite one_authenticated.
Qed.

Lemma closed_run key n last next :
  0 ≤ last ≤ n → last ≤ next ≤ U64_MAX →
  accept_sequences key (seqZ (last + 1) (next - last)) (closed_frontiers key n) = Ok (closed_frontiers key (Z.max n next)).
Proof.
  intros Hn Hnext. remember (Z.to_nat (next - last)) as k eqn:Hk. revert n last Hn Hnext Hk.
  induction k as [|k IH]; intros n last Hn Hnext Hk.
  - rewrite seqZ_nil by lia. cbn [accept_sequences]. by rewrite Z.max_l by lia.
  - rewrite seqZ_cons by lia. rewrite closed_step by lia.
    replace (Z.succ (last + 1)) with (last + 1 + 1) by lia. replace (Z.pred (next - last)) with (next - (last + 1)) by lia.
    rewrite IH by lia. f_equal. f_equal. lia.
Qed.

Lemma closed_satisfies key n through :
  0 ≤ n → product_satisfies (closed_frontiers key n) (mkFrontierRequirement key Authenticated through None) =
  if through =? 0 then Err InvalidInput else Ok (negb (n =? 0) && (through <=? n)).
Proof.
  intros Hn. unfold product_satisfies, closed_frontiers. munfold_goal. cbn [fr_closure fr_through fr_key fr_stage pf_projections].
  rewrite bool_decide_eq_false_2, bool_decide_eq_true_2 by done. destruct (Z.eqb_spec through 0); [done|]. cbn [orb andb].
  destruct (Z.eqb_spec n 0) as [->|Hne]; [by rewrite lookup_empty|]. rewrite lookup_singleton_eq.
  change (pj_stages (closed_projection n n) !! Authenticated) with (Some (closed_stage n)). cbn [closed_stage sf_frontier f_contiguous negb andb].
  destruct (Z.ltb_spec n through), (Z.leb_spec through n); done || lia.
Qed.

(** ** Facts and the candidate *)

(** Membership in a list written out. *)
Ltac listed := rewrite !elem_of_cons; auto 10.

Lemma apply_fact_delta_ok delta s :
  facts_ok (os_facts s) →
  match exec (apply_fact_delta delta) s with
  | Ok s' => ∃ facts, s' = set_facts facts s ∧ facts_ok facts
  | Err e => e ∈ [ZeroWeightDelta; WeightOverflow; LostRetractionOrNegativeWeight; SnapshotLimitExceeded]
  | Panic => False
  end.
Proof.
  intros [Hw Hsize]. unfold exec, apply_fact_delta. munfold_goal. set (id := fact_id (delta_fact delta)).
  destruct (delta_weight delta =? 0); [listed|]. cbv beta iota.
  match goal with |- context [from_option ?f 0 ?o] =>
    assert (0 ≤ from_option f 0 o ≤ I64_MAX) as Hcur; [|set (current := from_option f 0 o) in *] end.
  { destruct (os_facts s !! id) as [p|] eqn:E; simpl; [|lia]. specialize (Hw _ _ E) as [_ ?]. lia. }
  unfold i64_checked_add. destruct (Z.leb_spec I64_MIN (current + delta_weight delta)); cbn [andb]; cbv beta iota; [|listed].
  destruct (Z.leb_spec (current + delta_weight delta) I64_MAX); cbv beta iota; [|listed]. cbv beta iota.
  destruct (Z.ltb_spec (current + delta_weight delta) 0); [listed|].
  destruct (Z.eqb_spec (current + delta_weight delta) 0).
  - eexists. split; [done|]. split; [by apply map_Forall_delete|].
    etrans; [|exact Hsize]. apply inj_le, map_subseteq_size, delete_subseteq.
  - destruct (decide (is_Some (os_facts s !! id))) as [Hsome|Hnone].
    + rewrite bool_decide_eq_true_2 by done. cbn [negb andb]. cbv beta iota. eexists. split; [done|].
      split; [apply map_Forall_insert_2; [split; [done|simpl; lia]|done]|]. by rewrite map_size_insert_Some.
    + rewrite bool_decide_eq_false_2 by done. cbn [negb andb].
      destruct (Z.leb_spec MAX_SNAPSHOT_FACTS (Z.of_nat (size (os_facts s)))); cbv beta iota; [listed|].
      eexists. split; [done|]. split; [apply map_Forall_insert_2; [split; [done|simpl; lia]|done]|].
      rewrite map_size_insert_None by (by apply eq_None_not_Some). lia.
Qed.

Lemma apply_fact_deltas_ok deltas s :
  facts_ok (os_facts s) →
  match apply_fact_deltas deltas s with
  | Ok s' => ∃ facts, s' = set_facts facts s ∧ facts_ok facts
  | Err e => e ∈ [ZeroWeightDelta; WeightOverflow; LostRetractionOrNegativeWeight; SnapshotLimitExceeded]
  | Panic => False
  end.
Proof.
  revert s. induction deltas as [|delta deltas IH]; intros s Hs; cbn [apply_fact_deltas].
  { exists (os_facts s). split; [by destruct s|done]. }
  pose proof (apply_fact_delta_ok delta s Hs) as Hd. munfold_goal.
  destruct (exec (apply_fact_delta delta) s) as [s1|e|]; [|done..]. destruct Hd as (facts1 & -> & Hf1).
  specialize (IH (set_facts facts1 s) Hf1). destruct (apply_fact_deltas deltas _) as [s2|e|]; [|done..].
  destruct IH as (facts2 & -> & Hf2). by exists facts2.
Qed.

(** ** The invariant *)

Section engine.
Context {Basis : Type}.
Abbreviation engine := (IncrementalOversightEngine Basis).
Implicit Types e : engine.

(** The snapshot's facts are well formed, its stream is captured and
    authenticated without a gap, up to the last frontier that was closed or
    beyond it. *)
Record engine_inv e : Prop := {
  ei_width : 0 < oe_max_antichain_width e ≤ MAX_SNAPSHOT_FACTS;
  ei_facts : facts_ok (os_facts (oe_snapshot e));
  ei_requirement : fr_stage (os_required_frontier (oe_snapshot e)) = Authenticated ∧
    fr_closure (os_required_frontier (oe_snapshot e)) = None;
  ei_frontiers : ∃ n, os_frontiers (oe_snapshot e) = closed_frontiers (fr_key (os_required_frontier (oe_snapshot e))) n ∧
    oe_last_closed_seq e ≤ n ≤ U64_MAX;
  ei_last : 0 ≤ oe_last_closed_seq e;
  ei_rebuilds : is_u64 (oe_generation_rebuilds e);
}.

Definition reached_snapshot (through : Z) (s : OversightSnapshot) : Prop :=
  facts_ok (os_facts s) ∧
  ∃ key n, os_required_frontier s = mkFrontierRequirement key Authenticated through None ∧
    os_frontiers s = closed_frontiers key n ∧ through ≤ n ≤ U64_MAX.

Lemma candidate_ok e deltas next closed :
  engine_inv e → oe_last_closed_seq e < U64_MAX → oe_last_closed_seq e ≤ next ≤ U64_MAX →
  match candidate_snapshot e deltas next closed with
  | Ok c => os_generations c = os_generations (oe_snapshot e) ∧ os_negative_domain_closed c = closed ∧
      reached_snapshot next c ∧ fr_key (os_required_frontier c) = fr_key (os_required_frontier (oe_snapshot e))
  | Err er => er ∈ [ZeroWeightDelta; WeightOverflow; LostRetractionOrNegativeWeight; SnapshotLimitExceeded]
  | Panic => False
  end.
Proof using.
  intros [Hw Hf [Hstage Hclosure] (n & Hn & Hrange) Hlast _] Hbelow Hnext. unfold candidate_snapshot, u64_add. munfold_goal.
  destruct (Z.leb_spec (oe_last_closed_seq e + 1) U64_MAX); [|lia].
  replace (next - (oe_last_closed_seq e + 1) + 1) with (next - oe_last_closed_seq e) by lia.
  rewrite Hn, closed_run by lia. rewrite Hstage, Hclosure.
  set (s := mkOversightSnapshot _ closed _ _ _). pose proof (apply_fact_deltas_ok deltas s Hf) as Hd.
  destruct (apply_fact_deltas deltas s) as [c|er|]; [|done..]. destruct Hd as (facts & -> & Hfacts).
  unfold s, set_facts. cbn [os_generations os_negative_domain_closed os_required_frontier fr_key]. split_and!; [done|done| |done].
  split; [done|]. exists (fr_key (os_required_frontier (oe_snapshot e))), (Z.max n next). split_and!; [done|done|lia|lia].
Qed.

(** ** A rebuild *)

(** The findings of a rebuild: exact after a spill, otherwise cut to the width,
    with the number of keys that are cut. *)
Definition rebuilt (width : Z) (mode : AntichainOverflowMode) (cs : list Support)
    (findings : gmap FindingKey FindingEvaluation) (coarsened : Z) (spilled : bool) : Prop :=
  ¬ too_heavy cs ∧ ¬ total_too_heavy cs ∧
  if spilled then findings_exact cs findings ∧ coarsened = 0 ∧ mode = SpillToBatchRecompute ∧ too_wide width cs ∧
    ¬ too_wide MAX_SNAPSHOT_FACTS cs
  else findings_are width cs findings ∧
    (∃ keys, NoDup keys ∧ (∀ key, key ∈ keys ↔ width < len (group key cs)) ∧ coarsened = len keys) ∧
    (mode = ConservativeCoarsen ∨ ¬ too_wide width cs).

Lemma recompute_spec e :
  0 < oe_max_antichain_width e ≤ MAX_SNAPSHOT_FACTS → facts_ok (os_facts (oe_snapshot e)) →
  let q := oe_query e in
  let width := oe_max_antichain_width e in
  let cs := supports q (active_facts (oe_snapshot e)) in
  let '(r, e') := recompute_incremental_state e in
  match r with
  | Ok (findings, coarsened, spilled, work) =>
      (∃ antichains, e' = set_maintained antichains e) ∧ rebuilt width (oe_overflow_mode e) cs findings coarsened spilled
  | Err er => e' = e ∧
      match er with
      | UnclosedNegativeDomain => needs_closed_domain q && negb (os_negative_domain_closed (oe_snapshot e)) = true
      | IncompleteProductFrontier => ¬ frontier_reached (oe_snapshot e)
      | WeightOverflow => too_heavy cs ∨ total_too_heavy cs
      | AntichainWidthExceeded _ w => (w = width ∨ w = MAX_SNAPSHOT_FACTS) ∧ too_wide w cs ∧ oe_overflow_mode e ≠ ConservativeCoarsen
      | _ => False
      end
  | Panic => False
  end.
Proof using.
  intros Hwidth Hf q width cs. destruct (active_ok _ Hf) as (Hw & Hids & _).
  pose proof (supports_good q _ Hw Hids) as Hg. fold cs in Hg.
  unfold recompute_incremental_state. munfold_goal. fold q width.
  destruct (needs_closed_domain q && negb _) eqn:Hdomain; [done|]. cbv beta iota.
  pose proof (engine_events _ Hw width q (oe_overflow_mode e) (mkBuild ∅ 0)) as Hevents.
  pose proof (run_events width Hwidth (oe_overflow_mode e) (events q (active_facts (oe_snapshot e))) [] (mkBuild ∅ 0)) as Hrun.
  fold (supports q (active_facts (oe_snapshot e))) cs in Hrun. rewrite Hevents. cbn [app] in Hrun.
  specialize (Hrun Hg). destruct (for_each _ _ _) as [r b].
  destruct Hrun as [_ Hrun]; [by intros key; cbn [bu_antichains]; rewrite lookup_empty| | |].
  { right. intros (key & Hkey). change (len (group key [])) with 0 in Hkey. lia. }
  { by intros (s' & ?%elem_of_nil & _). }
  destruct r as [u|er|]; [| |done].
  - destruct Hrun as (Hbuilt & _ & Hmode & Hheavy).
    rewrite (collect_maintained_eq width Hwidth cs Hg) by apply (built_entries width cs _ Hbuilt).
    pose proof (collect_built width Hwidth cs Hg _ Hbuilt) as Hcollect. munfold_goal.
    destruct (collect_findings _ _) as [findings|er|]; [|destruct Hcollect as [-> ?]; by split; [|right]|done].
    destruct Hcollect as [Hfind Htotal]. cbv beta iota. cbn [fst snd]. split; [by eexists|]. split_and!; [done..| |done].
    destruct (coarse_keys_ok width Hwidth cs Hg _ Hbuilt) as [Hnd Hkeys]. by exists (coarse_keys (bu_antichains b)).
  - assert (¬ (oe_overflow_mode e = SpillToBatchRecompute) ∨ oe_overflow_mode e = SpillToBatchRecompute) as Hmode
      by (destruct (oe_overflow_mode e); auto).
    destruct er; try done; [split; [done|by left]|]. destruct Hrun as (-> & Hcoarse & Hwide).
    destruct Hmode as [Hmode|Hmode]; [rewrite bool_decide_eq_false_2 by done; split_and!; try done; by left|].
    rewrite bool_decide_eq_true_2 by done.
    pose proof (oracle_spec (oe_snapshot e) q MAX_SNAPSHOT_FACTS Hf ltac:(done)) as Horacle. cbv zeta in Horacle. fold cs in Horacle.
    destruct (evaluate_batch_query _ _ _) as [batch|er|]; [| |done].
    + destruct Horacle as (_ & _ & Hheavy & Htotal & Hmax & Hexact & _). cbv beta iota. split; [by eexists|]. by split_and!.
    + split; [done|]. destruct er; try tauto; [destruct Horacle; congruence|]. destruct Horacle as (_ & -> & ?). split_and!; [by right|done|done].
Qed.

(** ** Closing a frontier *)

Lemma restored e c : set_snapshot (oe_snapshot e) (set_snapshot c e) = e.
Proof using. by destruct e. Qed.

Lemma reached_satisfied next s : 0 < next → reached_snapshot next s → frontier_reached s.
Proof using.
  intros Hpos (_ & key & n & Hreq & Hfr & Hn). unfold frontier_reached. rewrite Hreq, Hfr, closed_satisfies by lia.
  destruct (Z.eqb_spec next 0); [lia|]. destruct (Z.eqb_spec n 0); [lia|]. destruct (Z.leb_spec next n); [done|lia].
Qed.

Lemma same_keys width cs findings findings' : findings_are width cs findings → findings_exact cs findings' → dom findings = dom findings'.
Proof using.
  intros Hf Hf'. apply set_eq. intros key. rewrite !elem_of_dom, Hf, Hf'. case_bool_decide; [done|]. split; intros _; by eexists.
Qed.

Lemma same_findings cs findings findings' : findings_exact cs findings → findings_exact cs findings' → findings = findings'.
Proof using. intros Hf Hf'. apply map_eq. intros key. by rewrite Hf, Hf'. Qed.

Lemma rebuilt_exact width mode cs findings coarsened spilled :
  good cs → rebuilt width mode cs findings coarsened spilled → coarsened = 0 → findings_exact cs findings.
Proof using.
  intros Hg (_ & _ & H) Hzero. destruct spilled; [tauto|]. destruct H as (Hf & (keys & _ & Hkeys & Hlen) & _).
  apply (exact_findings width); [done| |done]. intros (key & Hkey). apply Hkeys in Hkey.
  destruct keys; [by apply elem_of_nil in Hkey|]. unfold len in Hlen. simpl in Hlen. lia.
Qed.

(** The oracle agrees with a rebuild of the same snapshot. *)
Lemma oracle_agreement width mode s q findings coarsened spilled :
  0 < width ≤ MAX_SNAPSHOT_FACTS → facts_ok (os_facts s) →
  needs_closed_domain q && negb (os_negative_domain_closed s) = false →
  let cs := supports q (active_facts s) in
  rebuilt width mode cs findings coarsened spilled →
  match evaluate_batch_query s q (if spilled || (0 <? coarsened) then MAX_SNAPSHOT_FACTS else width) with
  | Ok oracle => oracle_agrees findings (bo_findings oracle) (negb spilled && (coarsened =? 0)) = true
  | Err er => er ≠ OracleDivergenceDetected ∧
      (¬ frontier_reached s ∨ mode = ConservativeCoarsen ∧ too_wide MAX_SNAPSHOT_FACTS cs)
  | Panic => False
  end.
Proof using.
  intros Hwidth Hf Hdomain cs Hre. destruct (active_ok _ Hf) as (Hw & Hids & _).
  pose proof (supports_good q _ Hw Hids) as Hg. fold cs in Hg. pose proof (rebuilt_exact _ _ _ _ _ _ Hg Hre) as Hexact.
  set (w := if spilled || (0 <? coarsened) then MAX_SNAPSHOT_FACTS else width).
  assert (0 < w ≤ MAX_SNAPSHOT_FACTS) as Hwr by (unfold w; destruct (spilled || _); [done|lia]).
  assert (0 ≤ coarsened) as Hnn.
  { destruct Hre as (_ & _ & Hre). destruct spilled; [lia|]. destruct Hre as (_ & (keys & _ & _ & ->) & _). apply len_nonneg. }
  pose proof (oracle_spec s q w Hf Hwr) as Horacle. cbv zeta in Horacle. fold cs in Horacle. unfold w in *. clear w.
  destruct (evaluate_batch_query _ _ _) as [oracle|er|]; [| |done].
  - destruct Horacle as (_ & _ & _ & _ & _ & Ho & _). unfold oracle_agrees. destruct Hre as (_ & _ & Hre).
    destruct spilled; cbn [negb andb].
    + destruct Hre as (Hfe & _). apply bool_decide_eq_true. f_equal. by apply (same_findings cs).
    + destruct Hre as (Hfa & _ & _). destruct (Z.eqb_spec coarsened 0) as [Hz|Hz]; apply bool_decide_eq_true.
      * apply (same_findings cs); [by apply Hexact|done].
      * by apply (same_keys width cs).
  - destruct Hre as (Hheavy & Htotal & Hre). destruct er; try done.
    + exfalso. destruct Horacle as [_ [?|?]]; tauto.
    + exfalso. destruct Horacle as [_ ?]. congruence.
    + split; [done|by left].
    + destruct Horacle as (_ & -> & Hwide). split; [done|]. right. destruct spilled; cbn [orb] in Hwide; [tauto|].
      destruct Hre as (_ & (keys & _ & Hkeys & Hlen) & Hmode). destruct (Z.ltb_spec 0 coarsened) as [Hpos|Hzero].
      * split; [|done]. destruct Hmode as [?|Hmode]; [done|]. destruct keys as [|key keys]; [unfold len in Hlen; simpl in Hlen; lia|].
        exfalso. apply Hmode. exists key. apply Hkeys. left.
      * exfalso. destruct Hwide as (key & Hkey%Hkeys). destruct keys; [by apply elem_of_nil in Hkey|]. unfold len in Hlen. simpl in Hlen. lia.
Qed.

Lemma reached_inv e c next antichains :
  engine_inv e → reached_snapshot next c → 0 ≤ oe_last_closed_seq e ≤ next →
  engine_inv (set_maintained antichains (set_snapshot c e)) ∧
  engine_inv (set_last_closed next (set_maintained antichains (set_snapshot c e))).
Proof using.
  intros [? _ _ _ ? ?] (Hf & key & n & Hreq & Hfr & Hn) Hnext.
  split; split; cbn [oe_snapshot oe_max_antichain_width oe_last_closed_seq oe_generation_rebuilds set_snapshot set_maintained set_last_closed];
    try done; rewrite ?Hreq; try done; try lia; exists n; (split; [done|lia]).
Qed.

(** The snapshot that [apply_delta_and_close_frontier] evaluates, and the supports in it. *)
Definition supports_at e (s : OversightSnapshot) : list Support := supports (oe_query e) (active_facts s).

Lemma close_step e generations deltas next domain_closed frontier_closed :
  engine_inv e → oe_last_closed_seq e < U64_MAX → 0 ≤ next ≤ U64_MAX →
  let '(r, e') := apply_delta_and_close_frontier generations deltas next domain_closed frontier_closed e in
  engine_inv e' ∧
  match r with
  | Ok (receipt, basis) => ∃ s,
      candidate_snapshot e deltas next domain_closed = Ok s ∧
      oe_snapshot e' = s ∧ oe_last_closed_seq e' = next ∧ basis = oe_basis e ∧
      vr_from_frontier_seq receipt = oe_last_closed_seq e ∧ vr_to_frontier_seq receipt = next ∧
      rebuilt (oe_max_antichain_width e) (oe_overflow_mode e) (supports_at e s)
        (vr_findings receipt) (vr_coarsened_findings receipt) (vr_spilled_to_batch_recompute receipt) ∧
      (require_exact_universal_support receipt = Ok tt → findings_exact (supports_at e s) (vr_findings receipt)) ∧
      (vr_uncertainty receipt = UncertainExact ↔ require_exact_universal_support receipt = Ok tt)
  | Err er => er ≠ OracleDivergenceDetected ∧
      (e' = e ∨ next = 0 ∨ oe_overflow_mode e = ConservativeCoarsen ∧ ∃ s,
        candidate_snapshot e deltas next domain_closed = Ok s ∧ too_wide MAX_SNAPSHOT_FACTS (supports_at e s))
  | Panic => False
  end.
Proof using.
  intros Hinv Hlast Hnext. unfold apply_delta_and_close_frontier. munfold_goal.
  destruct (MAX_DELTA_BATCH_LEN <? _); [by split; [|split; [|left]]|]. cbv beta iota.
  destruct (negb (bool_decide _)); [by split; [|split; [|left]]|]. cbv beta iota.
  destruct (negb frontier_closed || _) eqn:Hfc; [by split; [|split; [|left]]|]. cbv beta iota.
  destruct (needs_closed_domain (oe_query e) && negb domain_closed) eqn:Hdomain; [by split; [|split; [|left]]|]. cbv beta iota.
  apply orb_false_iff in Hfc as [_ Hfc]. apply Z.ltb_ge in Hfc. pose proof (ei_last _ Hinv) as Hlast0.
  pose proof (candidate_ok e deltas next domain_closed Hinv Hlast ltac:(lia)) as Hcand.
  destruct (candidate_snapshot e deltas next domain_closed) as [c|er|]; [| |done].
  2: { split; [done|]. split; [|by left]. intros ->. by repeat (apply elem_of_cons in Hcand as [?|Hcand]; [done|]); apply elem_of_nil in Hcand. }
  destruct Hcand as (_ & Hclosed & Hreached & _). pose proof Hreached as [Hfacts _]. cbv beta iota. unfold recompute_or_restore.
  pose proof (recompute_spec (set_snapshot c e) (ei_width _ Hinv) Hfacts) as Hre. cbv zeta in Hre.
  destruct (recompute_incremental_state (set_snapshot c e)) as [[[[[findings coarsened] spilled] work]|er|] e1]; [| |done].
  2: { destruct Hre as [-> Her]. rewrite restored. split; [done|]. split; [|by left]. by intros ->. }
  destruct Hre as [(antichains & ->) Hre]. cbn [set_snapshot oe_snapshot oe_query oe_max_antichain_width oe_overflow_mode] in Hre.
  fold (supports_at e c) in Hre. destruct (reached_inv e c next antichains Hinv Hreached ltac:(lia)) as [Hinv1 Hinv2].
  rewrite <-Hclosed in Hdomain. pose proof (oracle_agreement _ _ c _ _ _ _ (ei_width _ Hinv) Hfacts Hdomain Hre) as Hagree.
  destruct (evaluate_batch_query _ _ _) as [oracle|er|]; [| |done].
  2: { split; [done|]. destruct Hagree as [? [Hno|[? ?]]]; (split; [done|]); right; [left|right; split; [done|by exists c]].
       destruct (decide (0 < next)); [|lia]. exfalso. apply Hno. by eapply reached_satisfied. }
  cbv beta iota. rewrite Hagree. cbn [negb]. cbv beta iota. split; [done|]. exists c.
  unfold require_exact_universal_support. cbn [vr_findings vr_coarsened_findings vr_spilled_to_batch_recompute vr_uncertainty vr_from_frontier_seq vr_to_frontier_seq].
  split_and!; try done.
  - destruct (Z.ltb_spec 0 coarsened); [done|]. intros _. destruct (active_ok _ Hfacts) as (Hw & Hids & _).
    eapply rebuilt_exact; [by apply supports_good|exact Hre|]. destruct Hre as (_ & _ & Hre). destruct spilled; [lia|].
    destruct Hre as (_ & (keys & _ & _ & ->) & _). pose proof (len_nonneg keys). lia.
  - by destruct (0 <? coarsened).
Qed.

(** Advancing the generations rebuilds the findings; when the rebuild fails, the
    engine keeps the new generations and holds no findings. *)
Lemma advance_step e generations :
  engine_inv e → oe_generation_rebuilds e < U64_MAX →
  let '(r, e') := advance_semantic_generations generations e in
  engine_inv e' ∧ r ≠ Panic ∧ r ≠ Err OracleDivergenceDetected ∧
  (r = Ok tt → os_generations (oe_snapshot e') = generations).
Proof using.
  intros Hinv Hbelow. unfold advance_semantic_generations, u64_add. munfold_goal.
  destruct (generations_regress _ _); [by split_and!|]. cbv beta iota.
  destruct Hinv as [Hw Hf Hr Hfr Hl [? ?]]. destruct (Z.leb_spec (oe_generation_rebuilds e + 1) U64_MAX); [|lia]. cbv beta iota.
  set (e1 := set_rebuilds _ _).
  assert (∀ antichains, engine_inv (set_maintained antichains e1)) as Hinv1.
  { intros antichains. split; try done. unfold is_u64. simpl. lia. }
  assert (e1 = set_maintained ∅ e1) as He1 by done.
  pose proof (recompute_spec e1 Hw Hf) as Hre. cbv zeta in Hre.
  destruct (recompute_incremental_state e1) as [[[[[findings coarsened] spilled] work]|er|] e2]; [| |done].
  - destruct Hre as [(antichains & ->) _]. by split_and!.
  - destruct Hre as [-> Her]. split_and!; [rewrite He1; apply Hinv1|done| |done]. by intros [= ->].
Qed.

Lemma engine_new_inv basis q generations key width mode e :
  0 ≤ width → engine_new basis q generations key width mode = Ok e → engine_inv e.
Proof using.
  intros Hwidth Hnew. unfold engine_new in Hnew. munfold.
  destruct (Z.eqb_spec width 0); [done|]. destruct (Z.ltb_spec MAX_SNAPSHOT_FACTS width); [done|]. cbn [orb] in Hnew.
  change (product_new 4 16) with (Ok (E:=Error) (mkProductFrontiers 4 16 ∅)) in Hnew. cbv beta iota in Hnew. injection Hnew as <-.
  split; simpl; [lia| |done| |done|done]. { split; [apply map_Forall_empty|done]. }
  exists 0. split; [done|lia].
Qed.

(** ** Reachable engines *)

Inductive oversight_reachable : engine → Prop :=
  | reachable_new basis q generations key width mode e :
      0 ≤ width → engine_new basis q generations key width mode = Ok e → oversight_reachable e
  | reachable_advance e generations :
      oversight_reachable e → oe_generation_rebuilds e < U64_MAX →
      oversight_reachable (advance_semantic_generations generations e).2
  | reachable_close e generations deltas next domain_closed frontier_closed :
      oversight_reachable e → oe_last_closed_seq e < U64_MAX → 0 ≤ next ≤ U64_MAX →
      oversight_reachable (apply_delta_and_close_frontier generations deltas next domain_closed frontier_closed e).2.

Lemma reachable_inv e : oversight_reachable e → engine_inv e.
Proof using.
  induction 1 as [basis q generations key width mode e Hwidth Hnew|e generations _ IH Hbelow
    |e generations deltas next domain_closed frontier_closed _ IH Hbelow Hnext].
  - by eapply engine_new_inv.
  - pose proof (advance_step e generations IH Hbelow) as Hstep. destruct (advance_semantic_generations _ _). by destruct Hstep.
  - pose proof (close_step e generations deltas next domain_closed frontier_closed IH Hbelow Hnext) as Hstep.
    destruct (apply_delta_and_close_frontier _ _ _ _ _ _). by destruct Hstep.
Qed.

(** C19: closing a frontier on any engine that its operations reach. The engine's
    findings never diverge from the batch oracle's, and nothing overflows. When
    it answers, the snapshot is the old one with the deltas, the findings are
    those of a rebuild of it, the number of coarsened findings is the number of
    keys with more supports than the width, and a receipt passes for universal
    support only with the exact findings. When it refuses, the engine is as it
    was, unless the frontier is 0 or a coarsened finding is too wide even for
    the oracle. *)
Theorem oversight_close_exact e generations deltas next domain_closed frontier_closed :
  oversight_reachable e → oe_last_closed_seq e < U64_MAX → 0 ≤ next ≤ U64_MAX →
  let '(r, e') := apply_delta_and_close_frontier generations deltas next domain_closed frontier_closed e in
  match r with
  | Ok (receipt, basis) => ∃ s,
      candidate_snapshot e deltas next domain_closed = Ok s ∧
      oe_snapshot e' = s ∧ oe_last_closed_seq e' = next ∧ basis = oe_basis e ∧
      vr_from_frontier_seq receipt = oe_last_closed_seq e ∧ vr_to_frontier_seq receipt = next ∧
      rebuilt (oe_max_antichain_width e) (oe_overflow_mode e) (supports_at e s)
        (vr_findings receipt) (vr_coarsened_findings receipt) (vr_spilled_to_batch_recompute receipt) ∧
      (require_exact_universal_support receipt = Ok tt → findings_exact (supports_at e s) (vr_findings receipt)) ∧
      (vr_uncertainty receipt = UncertainExact ↔ require_exact_universal_support receipt = Ok tt)
  | Err er => er ≠ OracleDivergenceDetected ∧
      (e' = e ∨ next = 0 ∨ oe_overflow_mode e = ConservativeCoarsen ∧ ∃ s,
        candidate_snapshot e deltas next domain_closed = Ok s ∧ too_wide MAX_SNAPSHOT_FACTS (supports_at e s))
  | Panic => False
  end.
Proof using.
  intros Hreach Hlast Hnext.
  pose proof (close_step e generations deltas next domain_closed frontier_closed (reachable_inv e Hreach) Hlast Hnext) as Hstep.
  destruct (apply_delta_and_close_frontier _ _ _ _ _ _). by destruct Hstep.
Qed.
End engine.

(** ** Concrete runs *)

Definition example_oversight_key : ProjectionKey := mkProjectionKey 1 1 1 1.
Definition example_oversight_generations : SemanticGenerationVector := mkGenerations 1 1 1 1 1.
Definition example_oversight (mode : AntichainOverflowMode) : IncrementalOversightEngine unit :=
  mkOversightEngine _ tt UngatedSinkReachability 1 mode
    (snapshot_new example_oversight_generations true (mkProductFrontiers 4 16 ∅)
      (mkFrontierRequirement example_oversight_key Authenticated 0 None)) ∅ 0 0.
(** Two ways from 1 to 9, and a gate on a third. *)
Definition example_oversight_deltas : list SignedFactDelta :=
  (λ '(id, k), mkSignedFactDelta (mkBaseFact id k) 1) <$>
  [(1, AuthorityEdge 1 2); (2, AuthorityEdge 2 9); (3, AuthorityEdge 1 3); (4, AuthorityEdge 3 9);
   (5, AuthorityEdge 1 4); (6, AuthorityEdge 4 9); (7, QualifiedGate 4 9)].
Definition example_close (mode : AntichainOverflowMode) (next : Z) :=
  apply_delta_and_close_frontier example_oversight_generations example_oversight_deltas next true true (example_oversight mode).

Example example_close_answers :
  match (example_close ConservativeCoarsen 2).1 with
  | Ok (receipt, _) => vr_coarsened_findings receipt = 1 ∧ vr_spilled_to_batch_recompute receipt = false ∧
      vr_findings receipt !! mkFindingKey UngatedSinkReachability 1 9 =
        Some (mkFindingEvaluation (mkFindingKey UngatedSinkReachability 1 9)
          [mkSupportPath [1; 2] [guard_id 1 2; guard_id 2 9]] 2 (CoarsenedConservative 4))
  | _ => False
  end.
Proof. by vm_compute. Qed.
Example example_close_spills :
  match (example_close SpillToBatchRecompute 2).1 with
  | Ok (receipt, _) => vr_coarsened_findings receipt = 0 ∧ vr_spilled_to_batch_recompute receipt = true
  | _ => False
  end.
Proof. by vm_compute. Qed.
Example example_close_fails : (example_close FailClosed 2).1 = Err (AntichainWidthExceeded 2 1).
Proof. by vm_compute. Qed.

(** Closing frontier 0 is refused, and the refused deltas stay in the snapshot:
    the snapshot is restored when the rebuild fails, not when the oracle refuses. *)
Example refused_deltas_kept :
  (example_close ConservativeCoarsen 0).1 = Err IncompleteProductFrontier ∧
  Z.of_nat (size (os_facts (oe_snapshot (example_close ConservativeCoarsen 0).2))) = 7.
Proof. by vm_compute. Qed.

Lemma oversight_close_exact_witness :
  match example_close SpillToBatchRecompute 2 with
  | (Ok (receipt, _), e') => findings_exact (supports UngatedSinkReachability (active_facts (oe_snapshot e'))) (vr_findings receipt)
  | _ => False
  end.
Proof.
  pose proof (oversight_close_exact (example_oversight SpillToBatchRecompute) example_oversight_generations
    example_oversight_deltas 2 true true
    ltac:(by apply (reachable_new tt UngatedSinkReachability example_oversight_generations example_oversight_key 1 SpillToBatchRecompute))
    ltac:(done) ltac:(done)) as H.
  pose proof example_close_spills as Hspill. unfold example_close in *.
  destruct (apply_delta_and_close_frontier _ _ _ _ _ _) as [[[receipt basis]|er|] e']; [|done|done].
  destruct H as (s & _ & -> & _ & _ & _ & _ & _ & Hexact & _). apply Hexact.
  unfold require_exact_universal_support. by destruct Hspill as [-> _].
Defined.
