(* ===== verification/Congress.v ===== *)
(** * Congress-reviewed actions

    [crates/fa-reference/src/action/congress.rs]: an owner of the authority of
    [Action.v] that opens a review of [Review.v] for every proposal, over a
    preimage that binds everything the review is about, and lets an action be
    authorized and dispatched only while that review is ready. *)

From Stdlib Require Import Strings.Byte.
From stdpp Require Import base tactics numbers list gmap.
From S2P Require Import Prelude Bytes Judgment Rights Round Reducer Review Action.

Local Open Scope Z_scope.

(** ** Model: the preimage *)

(** [Binding::bytes] and [Binding::word] *)
Definition bind_bytes (value : bytes) : st bytes Error unit :=
  out ← get;
  stop ← ok_or (u64_checked_add (len out) 8 ≫= λ n, u64_checked_add n (len value)) Limit;
  refuse_if (MAX_FIELD_LEN <? stop) Limit;;
  put (out ++ frame value).
Definition bind_word (value : Z) : st bytes Error unit := bind_bytes (be_bytes 8 value).

(** [for x in xs { body }] *)
Fixpoint bind_each {A} (body : A → st bytes Error unit) (xs : list A) : st bytes Error unit :=
  match xs with
  | [] => mret tt
  | x :: xs => body x;; bind_each body xs
  end.

Definition bind_witness (witness : ReadWitness) : st bytes Error unit :=
  match witness with
  | Exact key value =>
    bind_word 1;;
    bind_word key;;
    bind_word (match value with Some _ => 1 | None => 0 end);;
    match value with Some value => bind_bytes value | None => mret tt end
  | EmptyRange start stop =>
    bind_word 2;;
    bind_word start;;
    bind_word stop
  end.

Definition bind_member (member : ReviewMember) : st bytes Error unit :=
  bind_bytes (rm_id member);;
  bind_bytes (rm_cohort member);;
  bind_word (rm_weight member).

(** [policy.members()] *)
Definition policy_members (policy : ReviewPolicy) : list ReviewMember := map_values (rp_members policy).

Definition BINDING_TAG : bytes := ascii_bytes "fa-reference/action/congress/v1".
Definition purpose_word (purpose : Purpose) : Z := match purpose with EffectPurpose => 1 | Experiment => 2 end.

Definition binding (id : Z) (action : FrozenAction) (policy : ReviewPolicy) (semantic_epoch : Z) (evidence : bytes)
    : res Error bytes :=
  exec (
    bind_bytes BINDING_TAG;;
    bind_word id;;
    let s := spec action in
    bind_word (sp_version s);;
    bind_each bind_word [sc_tenant (sp_scope s); sc_principal (sp_scope s); sc_run (sp_scope s);
                         sc_branch (sp_scope s); sc_authority (sp_scope s)];;
    bind_word (purpose_word (sc_purpose (sp_scope s)));;
    target ← ok_or (sp_target s) Incomplete;
    bind_each bind_word [rt_adapter target; rt_object target; rt_contract_version target; rt_expected_version target;
                         rt_generation target; sp_policy_epoch s; sp_deadline s; sp_units s; semantic_epoch];;
    bind_bytes (sp_payload s);;
    bind_word (len (sp_required_witnesses s));;
    bind_each bind_witness (sp_required_witnesses s);;
    let requirements := rp_requirements policy in
    bind_each bind_word [cp_per_member (rq_caps requirements); cp_per_cohort (rq_caps requirements);
                         rq_min_permit_weight requirements; rq_max_hold_weight requirements;
                         rq_min_permit_cohorts requirements];;
    bind_word (len (policy_members policy));;
    bind_each bind_member (policy_members policy);;
    bind_bytes evidence) [].

(** ** Model: the authority *)

Record RegisteredReview := mkRegisteredReview {
  rg_congress : CongressReview;
  rg_judgment : Judgment;
}.

Record ReviewedPermit := mkReviewedPermit { rp_inner : Action.Permit }.

Record CongressAuthority := mkCongressAuthority {
  ca_authority : ReferenceAuthority;
  ca_policy : ReviewPolicy;
  ca_reviews : gmap Z RegisteredReview;
}.

Definition set_inner (a : ReferenceAuthority) (self : CongressAuthority) : CongressAuthority :=
  mkCongressAuthority a (ca_policy self) (ca_reviews self).
Definition set_review (id : Z) (r : RegisteredReview) (self : CongressAuthority) : CongressAuthority :=
  mkCongressAuthority (ca_authority self) (ca_policy self) (<[id := r]> (ca_reviews self)).

(** [self.authority.<call>] *)
Definition on_authority {A} (m : st ReferenceAuthority Error A) : st CongressAuthority Error A :=
  zoom ca_authority set_inner (λ e, e) m.

Definition congress_authority_new (issuer : Z) (scope : Scope) (total max_attempts : Z) (policy : ReviewPolicy)
    : res Error CongressAuthority :=
  authority ← authority_new issuer scope total max_attempts;
  Ok (mkCongressAuthority authority policy ∅).

Definition congress_propose (id : Z) (action : FrozenAction) (snapshot : Snapshot) (evidence : bytes)
    : st CongressAuthority Error unit :=
  self ← get;
  lift (validate_current (ca_authority self) action);;
  challenge ← lift (binding id action (ca_policy self) (s_semantic_epoch snapshot) evidence);
  judgment ← lift (judgment_capture snapshot (sp_required_witnesses (spec action)));
  congress ← lift (congress_review_new (ca_policy self) id challenge);
  on_authority (propose id action);;
  modify (set_review id (mkRegisteredReview congress judgment)).

(** [self.reviews.get_mut(&id).ok_or(Error::Missing)?.congress.<call>], after
    the stage of the attempt is checked. *)
Definition on_review (id : Z) (m : st CongressReview Error unit) : st CongressAuthority Error unit :=
  self ← get;
  lift (attempt_at (ca_authority self) id Reviewing);;
  registered ← ok_or (ca_reviews self !! id) Missing;
  zoom (λ _, rg_congress registered) (λ c, set_review id (mkRegisteredReview c (rg_judgment registered))) (λ e, e) m.

Definition congress_commit (id : Z) (member : bytes) (digest : Z) : st CongressAuthority Error unit :=
  on_review id (review_commit member digest).
Definition congress_open_reveals (id : Z) : st CongressAuthority Error unit := on_review id review_open_reveals.
Definition congress_reveal (id : Z) (member : bytes) (verdict : Verdict) (salt : bytes) : st CongressAuthority Error unit :=
  on_review id (review_reveal member verdict salt).

Definition check_review (self : CongressAuthority) (id : Z) (action : FrozenAction) (snapshot : Snapshot)
    (evidence : bytes) (exact : ExactStatus) : res Error unit :=
  registered ← ok_or (ca_reviews self !! id) Missing;
  current ← binding id action (ca_policy self) (s_semantic_epoch snapshot) evidence;
  refuse_if (negb (bool_decide (current = rd_evidence_root (cg_round (rg_congress registered))))) Binding;;
  valid ← judgment_valid_at (rg_judgment registered) snapshot;
  refuse_if (negb valid) Binding;;
  decision ← evaluate (rg_congress registered) exact;
  match decision with
  | ReviewReady _ => Ok tt
  | ReviewHold _ => Err Incomplete
  | ReviewDisqualified => Err Binding
  end.

Definition congress_authorize (id : Z) (snapshot : Snapshot) (evidence : bytes) (exact : ExactStatus)
    : st CongressAuthority Error ReviewedPermit :=
  self ← get;
  attempt ← lift (attempt_at (ca_authority self) id Reviewing);
  lift (check_review self id (at_action attempt) snapshot evidence exact);;
  registered ← ok_or (ca_reviews self !! id) Missing;
  inner ← on_authority (authorize id (rg_judgment registered) snapshot);
  mret (mkReviewedPermit inner).

Definition congress_dispatch (permit : ReviewedPermit) (final_action : FrozenAction) (snapshot : Snapshot)
    (evidence : bytes) (exact : ExactStatus) : st CongressAuthority Error unit :=
  self ← get;
  lift (check_review self (pm_attempt (rp_inner permit)) final_action snapshot evidence exact);;
  on_authority (dispatch (rp_inner permit) final_action snapshot).

(** ** Calls; the others only pass on to the inner authority *)

Inductive congress_call :=
  | CongressPropose (id : Z) (action : FrozenAction) (snapshot : Snapshot) (evidence : bytes)
  | CongressReviewCall (id : Z) (c : review_call)
  | CongressAuthorize (id : Z) (snapshot : Snapshot) (evidence : bytes) (exact : ExactStatus)
  | CongressDispatch (permit : ReviewedPermit) (final_action : FrozenAction) (snapshot : Snapshot)
      (evidence : bytes) (exact : ExactStatus)
  | CongressObserveTime (elapsed : Z)
  | CongressPrepare (id : Z)
  | CongressBeginReview (id : Z)
  | CongressCancel (id : Z)
  | CongressDeny (id : Z)
  | CongressUnknown (id : Z)
  | CongressOutcome (id : Z) (outcome : TrustedOutcome)
  | CongressIrrecoverable (id : Z)
  | CongressRevoke.

Definition congress_step (c : congress_call) : st CongressAuthority Error unit :=
  match c with
  | CongressPropose id action snapshot evidence => congress_propose id action snapshot evidence
  | CongressReviewCall id (ReviewCommit m d) => congress_commit id m d
  | CongressReviewCall id ReviewOpen => congress_open_reveals id
  | CongressReviewCall id (ReviewReveal m v salt) => congress_reveal id m v salt
  | CongressAuthorize id snapshot evidence exact => congress_authorize id snapshot evidence exact;; mret tt
  | CongressDispatch permit final snapshot evidence exact => congress_dispatch permit final snapshot evidence exact
  | CongressObserveTime elapsed => on_authority (observe_time elapsed)
  | CongressPrepare id => on_authority (prepare id)
  | CongressBeginReview id => on_authority (begin_review id)
  | CongressCancel id => on_authority (cancel id)
  | CongressDeny id => on_authority (deny id)
  | CongressUnknown id => on_authority (mark_unknown id)
  | CongressOutcome id outcome => on_authority (record_trusted_outcome id outcome)
  | CongressIrrecoverable id => on_authority (mark_irrecoverable id)
  | CongressRevoke => on_authority revoke_epoch
  end.

Definition congress_run (calls : list congress_call) (self : CongressAuthority) : CongressAuthority :=
  foldl (λ self c, (congress_step c self).2) self calls.
