(* ===== verification/CongressBinding.v ===== *)
(** * Congress-reviewed actions: the preimage

    What [binding] writes is a list of frames; it determines the action, the
    policy, the epoch and the evidence that a review is about. *)

From Stdlib Require Import Strings.Byte.
From stdpp Require Import base tactics numbers list gmap.
From S2P Require Import Prelude Bytes Judgment Rights Round Reducer Review Action Congress.

Local Open Scope Z_scope.

(** ** Frames *)

Definition frames (fields : list bytes) : bytes := fields ≫= frame.

Lemma fields_frames_app fs gs : frames (fs ++ gs) = frames fs ++ frames gs.
Proof. unfold frames. apply bind_app. Qed.

Lemma fields_frames_cons f fs : frames (f :: fs) = frame f ++ frames fs.
Proof. done. Qed.

Lemma frame_length f : len (frame f) = 8 + len f.
Proof. unfold frame. rewrite len_app. unfold len. rewrite length_be_bytes. lia. Qed.

Lemma frames_long f fs : f ∈ fs → len f ≤ len (frames fs).
Proof.
  induction fs as [|g fs IH]; [by intros ?%elem_of_nil|]. rewrite fields_frames_cons, len_app, frame_length.
  pose proof (len_nonneg (frames fs)). intros [->|Hf%IH]%elem_of_cons; pose proof (len_nonneg g); lia.
Qed.

Lemma frames_inj fs gs : Forall (λ f, len f ≤ U64_MAX) fs → Forall (λ g, len g ≤ U64_MAX) gs → frames fs = frames gs → fs = gs.
Proof.
  assert (∀ f xs, [] ≠ frame f ++ xs) as Hnil.
  { intros f xs E. apply (f_equal len) in E. rewrite len_app, frame_length in E. change (len []) with 0 in E.
    pose proof (len_nonneg f). pose proof (len_nonneg xs). lia. }
  intros Hfs. revert gs. induction Hfs as [|f fs Hf Hfs IH]; intros gs Hgs E.
  - destruct gs; [done|]. rewrite fields_frames_cons in E. by apply Hnil in E.
  - destruct Hgs as [|g gs Hg Hgs]; [rewrite fields_frames_cons in E; symmetry in E; by apply Hnil in E|].
    rewrite !fields_frames_cons in E. apply frame_inj in E as [-> E]; [|done..]. f_equal. by apply IH.
Qed.

(** [m] writes the frames of [fields], if they fit. *)
Definition writes (m : st bytes Error unit) (fields : list bytes) : Prop :=
  ∀ out, len out ≤ MAX_FIELD_LEN →
    if decide (len out + len (frames fields) ≤ MAX_FIELD_LEN) then m out = (Ok tt, out ++ frames fields)
    else (m out).1 = Err Limit.

Lemma writes_bytes value : writes (bind_bytes value) [value].
Proof.
  intros out Hout. unfold bind_bytes, u64_checked_add. munfold_goal. rewrite fields_frames_cons, app_nil_r, frame_length.
  unfold MAX_FIELD_LEN in *. pose proof (len_nonneg value). pose proof (len_nonneg out).
  destruct (Z.leb_spec (len out + 8) U64_MAX); [|lia]. csimpl.
  destruct (Z.leb_spec (len out + 8 + len value) U64_MAX); [|case_decide; done || lia].
  destruct (Z.ltb_spec 4096 (len out + 8 + len value)); case_decide; done || lia.
Qed.

Definition word (z : Z) : bytes := be_bytes 8 z.
Lemma word_length z : len (word z) = 8.
Proof. unfold word, len. by rewrite length_be_bytes. Qed.
Lemma writes_word z : writes (bind_word z) [word z].
Proof. apply writes_bytes. Qed.

Lemma writes_nil : writes (mret tt) [].
Proof. intros out Hout. munfold_goal. change (frames []) with ([] : bytes). change (len []) with 0. case_decide; [by rewrite app_nil_r|lia]. Qed.

Lemma writes_then m1 m2 f1 f2 : writes m1 f1 → writes m2 f2 → writes (m1;; m2) (f1 ++ f2).
Proof.
  intros H1 H2 out Hout. specialize (H1 out Hout). rewrite fields_frames_app, len_app. munfold_goal.
  pose proof (len_nonneg (frames f1)). pose proof (len_nonneg (frames f2)). case_decide as D1.
  - rewrite H1. specialize (H2 (out ++ frames f1)). rewrite len_app in H2. specialize (H2 D1). rewrite (assoc_L (++)).
    repeat case_decide; done || lia.
  - destruct (m1 out) as [r s]. simpl in H1. subst r. case_decide; [lia|done].
Qed.

Lemma writes_each {A} (body : A → st bytes Error unit) (f : A → list bytes) xs :
  (∀ x, x ∈ xs → writes (body x) (f x)) → writes (bind_each body xs) (xs ≫= f).
Proof.
  induction xs as [|x xs IH]; intros H; [apply writes_nil|]. csimpl. cbn [bind_each].
  apply writes_then; [apply H; left|apply IH; intros y Hy; apply H; by right].
Qed.

(** ** The fields of the preimage *)

Definition witness_fields (w : ReadWitness) : list bytes :=
  match w with
  | Exact key None => [word 1; word key; word 0]
  | Exact key (Some value) => [word 1; word key; word 1; value]
  | EmptyRange start stop => [word 2; word start; word stop]
  end.
Definition member_fields (m : ReviewMember) : list bytes := [rm_id m; rm_cohort m; word (rm_weight m)].

Definition head_fields (id : Z) (s : ActionSpec) : list bytes :=
  BINDING_TAG :: word id :: word (sp_version s) ::
  (word <$> [sc_tenant (sp_scope s); sc_principal (sp_scope s); sc_run (sp_scope s); sc_branch (sp_scope s);
             sc_authority (sp_scope s)]) ++ [word (purpose_word (sc_purpose (sp_scope s)))].

Definition binding_fields (id : Z) (s : ActionSpec) (target : ResolvedTarget) (policy : ReviewPolicy)
    (semantic_epoch : Z) (evidence : bytes) : list bytes :=
  let requirements := rp_requirements policy in
  head_fields id s ++
  (word <$> [rt_adapter target; rt_object target; rt_contract_version target; rt_expected_version target;
             rt_generation target; sp_policy_epoch s; sp_deadline s; sp_units s; semantic_epoch]) ++
  [sp_payload s] ++
  [word (len (sp_required_witnesses s))] ++ (sp_required_witnesses s ≫= witness_fields) ++
  (word <$> [cp_per_member (rq_caps requirements); cp_per_cohort (rq_caps requirements); rq_min_permit_weight requirements;
             rq_max_hold_weight requirements; rq_min_permit_cohorts requirements]) ++
  [word (len (policy_members policy))] ++ (policy_members policy ≫= member_fields) ++
  [evidence].

Lemma writes_words zs : writes (bind_each bind_word zs) (word <$> zs).
Proof.
  assert (word <$> zs = zs ≫= λ z, [word z]) as -> by (induction zs as [|z zs IH]; csimpl; [done|by rewrite IH]).
  apply writes_each. intros z _. apply writes_word.
Qed.

Lemma writes_witness w : writes (bind_witness w) (witness_fields w).
Proof.
  destruct w as [key [value|]|start stop]; cbn [bind_witness witness_fields].
  - repeat (apply (writes_then _ _ [_]); [apply writes_word|]). by apply writes_bytes.
  - repeat (apply (writes_then _ _ [_]); [apply writes_word|]). apply writes_nil.
  - repeat (apply (writes_then _ _ [_]); [apply writes_word|]). apply writes_word.
Qed.

Lemma writes_member m : writes (bind_member m) (member_fields m).
Proof.
  unfold bind_member, member_fields. apply (writes_then _ _ [_]); [by apply writes_bytes|].
  apply (writes_then _ _ [_]); [by apply writes_bytes|apply writes_word].
Qed.

(** Everything before the target always fits. *)
Lemma head_short id s : len (frames (head_fields id s)) = 167.
Proof.
  unfold head_fields. cbn [fmap list_fmap app]. rewrite !fields_frames_cons, !len_app, !frame_length, !word_length. change (len (frames [])) with 0.
  change (len BINDING_TAG) with 31. lia.
Qed.

Lemma then_assoc_5 (b1 b2 b3 b4 b5 k : st bytes Error unit) out :
  (b1;; b2;; b3;; b4;; b5;; k) out = ((b1;; b2;; b3;; b4;; b5);; k) out.
Proof.
  munfold_goal. destruct (b1 out) as [[[]| |] o1]; [|done..]. destruct (b2 o1) as [[[]| |] o2]; [|done..].
  destruct (b3 o2) as [[[]| |] o3]; [|done..]. destruct (b4 o3) as [[[]| |] o4]; [|done..]. by destruct (b5 o4) as [[[]| |] o5].
Qed.

Lemma run_unit_then (m k : st bytes Error unit) out out' : m out = (Ok tt, out') → (m;; k) out = k out'.
Proof. intros E. munfold_goal. by rewrite E. Qed.

Definition tail_fields (s : ActionSpec) (target : ResolvedTarget) (policy : ReviewPolicy)
    (semantic_epoch : Z) (evidence : bytes) : list bytes :=
  drop 9 (binding_fields 0 s target policy semantic_epoch evidence).

Lemma binding_fields_split id s target policy semantic_epoch evidence :
  binding_fields id s target policy semantic_epoch evidence =
  head_fields id s ++ tail_fields s target policy semantic_epoch evidence.
Proof. done. Qed.

(** [binding] is the frames of the fields, if they fit. *)
Lemma binding_eq id action policy semantic_epoch evidence :
  binding id action policy semantic_epoch evidence =
  match sp_target (spec action) with
  | None => Err Incomplete
  | Some target =>
    let out := frames (binding_fields id (spec action) target policy semantic_epoch evidence) in
    if len out <=? MAX_FIELD_LEN then Ok out else Err Limit
  end.
Proof.
  unfold binding, exec. cbv zeta. set (s := spec action) in *.
  rewrite then_assoc_5. match goal with |- context [(?h;; ?t) []] => set (head := h); set (tail := t) end.
  assert (writes head (head_fields id s)) as Hhead.
  { apply (writes_then _ _ [_]); [by apply writes_bytes|]. do 2 (apply (writes_then _ _ [_]); [apply writes_word|]).
    apply writes_then; [apply writes_words|apply writes_word]. }
  specialize (Hhead [] ltac:(done)). rewrite head_short in Hhead. change (len []) with 0 in Hhead.
  rewrite decide_True in Hhead by done. rewrite app_nil_l in Hhead. rewrite (run_unit_then _ _ _ _ Hhead). unfold tail. clear head tail Hhead.
  destruct (sp_target s) as [target|]; [|done]. rewrite binding_fields_split. cbv zeta.
  match goal with |- context [(ok_or (Some target) Incomplete ≫= ?k) ?out] =>
    change ((ok_or (Some target) Incomplete ≫= k) out) with (k target out); set (tail := k target) end. cbv beta in tail.
  assert (writes tail (tail_fields s target policy semantic_epoch evidence)) as Htail.
  { apply writes_then; [apply writes_words|]. apply (writes_then _ _ [_]); [by apply writes_bytes|].
    apply (writes_then _ _ [_]); [apply writes_word|].
    apply writes_then; [by apply writes_each; intros w _; apply writes_witness|].
    apply writes_then; [apply writes_words|]. apply (writes_then _ _ [_]); [apply writes_word|].
    apply writes_then; [by apply writes_each; intros m _; apply writes_member|]. by apply writes_bytes. }
  specialize (Htail (frames (head_fields id s))). rewrite head_short in Htail. specialize (Htail ltac:(done)).
  rewrite fields_frames_app, len_app, head_short. destruct (Z.leb_spec (167 + len (frames (tail_fields s target policy semantic_epoch evidence))) MAX_FIELD_LEN).
  - rewrite decide_True in Htail by done. by rewrite Htail.
  - rewrite decide_False in Htail by lia. destruct (tail _) as [r o]. simpl in Htail. by subst r.
Qed.

Lemma binding_no_panic id action policy semantic_epoch evidence : binding id action policy semantic_epoch evidence ≠ Panic.
Proof. rewrite binding_eq. destruct (sp_target (spec action)); [|done]. cbv zeta. by case_match. Qed.

(** ** The fields determine what they are about *)

(** Encodings that end where their value ends. *)
Definition self_delimiting {A} (P : A → Prop) (f : A → list bytes) : Prop :=
  ∀ a b xs ys, P a → P b → f a ++ xs = f b ++ ys → a = b ∧ xs = ys.

Lemma word_inj a b : is_u64 a → is_u64 b → word a = word b → a = b.
Proof. unfold word, is_u64. intros Ha Hb. apply be_bytes_inj; lia. Qed.

Lemma delimit_list {A} (P : A → Prop) (f : A → list bytes) l k xs ys :
  self_delimiting P f → Forall P l → Forall P k → length l = length k →
  (l ≫= f) ++ xs = (k ≫= f) ++ ys → l = k ∧ xs = ys.
Proof.
  intros Hf Hl. revert k. induction Hl as [|a l Ha Hl IH]; intros k Hk Hlen E; [by destruct k|].
  destruct Hk as [|b k Hb Hk]; [done|]. csimpl in E. rewrite <-!(assoc_L (++)) in E. apply Hf in E as [-> E]; [|done..].
  apply IH in E as [-> ->]; [done|done|by injection Hlen].
Qed.

Lemma cons_split {A} (x y : A) xs ys : x :: xs = y :: ys → x = y ∧ xs = ys.
Proof. by intros [= -> ->]. Qed.

Lemma delimit_words l k xs ys :
  Forall is_u64 l → Forall is_u64 k → length l = length k →
  (word <$> l) ++ xs = (word <$> k) ++ ys → l = k ∧ xs = ys.
Proof.
  intros Hl. revert k. induction Hl as [|a l Ha Hl IH]; intros k Hk Hlen E; [by destruct k|].
  destruct Hk as [|b k Hb Hk]; [done|]. rewrite !fmap_cons in E. apply cons_split in E as [Ew E]. apply IH in E as [-> ->]; [|done|by injection Hlen].
  apply word_inj in Ew; [by subst|done..].
Qed.

Definition witness_in_range (w : ReadWitness) : Prop :=
  match w with Exact key _ => is_u64 key | EmptyRange start stop => is_u64 start ∧ is_u64 stop end.
Definition member_in_range (m : ReviewMember) : Prop := is_u64 (rm_weight m).

Lemma witness_fields_delimit : self_delimiting witness_in_range witness_fields.
Proof.
  assert (word 1 ≠ word 2) as H12 by done. assert (word 0 ≠ word 1) as H01 by done.
  intros a b xs ys Ha Hb. destruct a as [k [v|]|s e], b as [k' [v'|]|s' e']; cbn [witness_fields app witness_in_range] in *;
    intros E; apply cons_split in E as [? E]; try done; apply cons_split in E as [E1 E]; apply cons_split in E as [E2 E]; try done.
  - apply cons_split in E as [-> ->]. by rewrite (word_inj k k') by done.
  - by rewrite (word_inj k k') by done.
  - destruct Ha, Hb. by rewrite (word_inj s s'), (word_inj e e') by done.
Qed.

Lemma member_fields_delimit : self_delimiting member_in_range member_fields.
Proof.
  intros [i c w] [i' c' w'] xs ys Ha Hb E. unfold member_fields, member_in_range in *. cbn [rm_id rm_cohort rm_weight app] in *.
  apply cons_split in E as [-> E]. apply cons_split in E as [-> E]. apply cons_split in E as [E ->]. by rewrite (word_inj w w') by done.
Qed.

Definition spec_words (s : ActionSpec) : list Z :=
  [sp_version s; sc_tenant (sp_scope s); sc_principal (sp_scope s); sc_run (sp_scope s); sc_branch (sp_scope s);
   sc_authority (sp_scope s); sp_policy_epoch s; sp_deadline s; sp_units s].
Definition target_words (t : ResolvedTarget) : list Z :=
  [rt_adapter t; rt_object t; rt_contract_version t; rt_expected_version t; rt_generation t].

(** The integers of a specification are in the range of their types. *)
Definition spec_in_range (s : ActionSpec) : Prop :=
  Forall is_u64 (spec_words s) ∧ (∀ t, sp_target s = Some t → Forall is_u64 (target_words t)) ∧
  Forall witness_in_range (sp_required_witnesses s) ∧ is_u64 (len (sp_required_witnesses s)).
Definition requirement_words (r : ReviewRequirements) : list Z :=
  [cp_per_member (rq_caps r); cp_per_cohort (rq_caps r); rq_min_permit_weight r; rq_max_hold_weight r; rq_min_permit_cohorts r].
Definition policy_in_range (p : ReviewPolicy) : Prop :=
  Forall is_u64 (requirement_words (rp_requirements p)) ∧ Forall member_in_range (policy_members p) ∧ is_u64 (len (policy_members p)).

Ltac words := repeat (apply Forall_cons_2; [by auto|]); apply Forall_nil_2.

Lemma len_inj {A B} (l : list A) (k : list B) : len l = len k → length l = length k.
Proof. unfold len. lia. Qed.

Lemma binding_fields_inj id id' s s' t t' p p' ep ep' ev ev' :
  is_u64 id → is_u64 id' → is_u64 ep → is_u64 ep' → spec_in_range s → spec_in_range s' → policy_in_range p → policy_in_range p' →
  sp_target s = Some t → sp_target s' = Some t' →
  binding_fields id s t p ep ev = binding_fields id' s' t' p' ep' ev' →
  id = id' ∧ s = s' ∧ ep = ep' ∧ ev = ev' ∧ rp_requirements p = rp_requirements p' ∧ policy_members p = policy_members p'.
Proof.
  intros Hid Hid' Hep Hep' (Hw & Ht & Hws & Hn) (Hw' & Ht' & Hws' & Hn') (Hr & Hm & Hc) (Hr' & Hm' & Hc') Et Et' E.
  specialize (Ht t Et). specialize (Ht' t' Et'). unfold spec_words, target_words, requirement_words in *.
  repeat match goal with H : Forall is_u64 (_ :: _) |- _ => apply Forall_cons in H as [? H] end.
  unfold binding_fields in E. cbv zeta in E.
  change (head_fields id s) with ([BINDING_TAG] ++ (word <$> [id; sp_version s; sc_tenant (sp_scope s); sc_principal (sp_scope s);
    sc_run (sp_scope s); sc_branch (sp_scope s); sc_authority (sp_scope s); purpose_word (sc_purpose (sp_scope s))])) in E.
  change (head_fields id' s') with ([BINDING_TAG] ++ (word <$> [id'; sp_version s'; sc_tenant (sp_scope s'); sc_principal (sp_scope s');
    sc_run (sp_scope s'); sc_branch (sp_scope s'); sc_authority (sp_scope s'); purpose_word (sc_purpose (sp_scope s'))])) in E.
  rewrite <-!(assoc_L (++)) in E. apply cons_split in E as [_ E].
  assert (∀ q, is_u64 (purpose_word q)) as Hq by (by intros []).
  apply delimit_words in E as [E1 E]; [|words..|done].
  apply delimit_words in E as [E2 E]; [|words..|done]. apply cons_split in E as [E3 E]. apply cons_split in E as [E4 E].
  apply word_inj in E4; [|done..]. apply len_inj in E4.
  apply (delimit_list witness_in_range witness_fields) in E as [E5 E]; [|apply witness_fields_delimit|done..].
  apply delimit_words in E as [E6 E]; [|words..|done]. apply cons_split in E as [E7 E].
  apply word_inj in E7; [|done..]. apply len_inj in E7.
  apply (delimit_list member_in_range member_fields) in E as [E8 E]; [|apply member_fields_delimit|done..]. apply cons_split in E as [E9 _].
  injection E1 as ? ? ? ? ? ? ? Hpurpose. injection E2 as ? ? ? ? ? ? ? ? ?. injection E6 as ? ? ? ? ?.
  assert (sc_purpose (sp_scope s) = sc_purpose (sp_scope s')) by (by destruct (sc_purpose (sp_scope s)), (sc_purpose (sp_scope s'))).
  assert (t = t') by (destruct t, t'; simpl in *; congruence).
  assert (sp_scope s = sp_scope s') by (destruct (sp_scope s), (sp_scope s'); simpl in *; congruence).
  split_and!; [done| |done|done| |done].
  - destruct s, s'. simpl in *. congruence.
  - destruct (rp_requirements p) as [[] ? ? ?], (rp_requirements p') as [[] ? ? ?]. simpl in *. congruence.
Qed.

Lemma frames_fit fs : len (frames fs) ≤ MAX_FIELD_LEN → Forall (λ f, len f ≤ U64_MAX) fs.
Proof.
  intros H. apply Forall_forall. intros f Hf%frames_long. unfold MAX_FIELD_LEN in H. lia.
Qed.

Lemma binding_ok id action policy ep ev out :
  binding id action policy ep ev = Ok out ↔
  ∃ target, sp_target (spec action) = Some target ∧ out = frames (binding_fields id (spec action) target policy ep ev) ∧
    len out ≤ MAX_FIELD_LEN.
Proof.
  rewrite binding_eq. destruct (sp_target (spec action)) as [target|]; [|split; [done|by intros (? & ? & _)]]. cbv zeta.
  destruct (Z.leb_spec (len (frames (binding_fields id (spec action) target policy ep ev))) MAX_FIELD_LEN).
  - split; [intros [= <-]; by exists target|]. by intros (? & [= <-] & -> & _).
  - split; [done|]. intros (? & [= <-] & -> & ?). lia.
Qed.

Lemma binding_inj id id' action action' p p' ep ep' ev ev' out :
  is_u64 id → is_u64 id' → is_u64 ep → is_u64 ep' → spec_in_range (spec action) → spec_in_range (spec action') →
  policy_in_range p → policy_in_range p' →
  binding id action p ep ev = Ok out → binding id' action' p' ep' ev' = Ok out →
  id = id' ∧ action = action' ∧ ep = ep' ∧ ev = ev' ∧ rp_requirements p = rp_requirements p' ∧ policy_members p = policy_members p'.
Proof.
  intros ? ? ? ? ? ? ? ? (t & Ht & -> & Hl)%binding_ok (t' & Ht' & E & _)%binding_ok.
  pose proof Hl as Hl'. rewrite E in Hl'. apply frames_inj in E; [|by apply frames_fit..].
  apply binding_fields_inj in E as (-> & Hs & -> & -> & Hr & Hm); [|done..]. split_and!; try done.
  destruct action, action'. simpl in Hs. by subst.
Qed.

(** C37: the preimage of a review. It exists exactly where the target is resolved
    and its frames fit the limit of a field, and it is then a review of this
    attempt, action, policy, epoch and evidence and of no other: two inputs with
    the same preimage agree in all of them. *)
Theorem congress_binding_unambiguous id id' action action' p p' ep ep' ev ev' :
  is_u64 id → is_u64 id' → is_u64 ep → is_u64 ep' → spec_in_range (spec action) → spec_in_range (spec action') →
  policy_in_range p → policy_in_range p' →
  (binding id action p ep ev ≠ Panic ∧
   (is_ok (binding id action p ep ev) = true ↔ ∃ target, sp_target (spec action) = Some target ∧
      len (frames (binding_fields id (spec action) target p ep ev)) ≤ MAX_FIELD_LEN)) ∧
  ∀ out, binding id action p ep ev = Ok out → binding id' action' p' ep' ev' = Ok out →
    id = id' ∧ action = action' ∧ ep = ep' ∧ ev = ev' ∧
    rp_requirements p = rp_requirements p' ∧ policy_members p = policy_members p'.
Proof.
  intros Hid Hid' Hep Hep' Hs Hs' Hp Hp'. split; [|intros out; by apply binding_inj].
  rewrite binding_eq. destruct (sp_target (spec action)) as [target|]; [|split; [done|]; split; [done|by intros (? & ? & _)]].
  cbv zeta. destruct (Z.leb_spec (len (frames (binding_fields id (spec action) target p ep ev))) MAX_FIELD_LEN); (split; [done|]).
  - split; [|done]. by exists target.
  - split; [done|]. intros (? & [= <-] & ?). lia.
Qed.

Lemma words_in_range l : forallb (λ z, (0 <=? z) && (z <=? U64_MAX)) l = true → Forall is_u64 l.
Proof. rewrite forallb_forall. intros H. apply Forall_forall. intros z Hz%list_elem_of_In. specialize (H z Hz). unfold is_u64. lia. Qed.

Lemma example_action_in_range units deadline :
  is_u64 units → is_u64 deadline → spec_in_range (spec (example_action units deadline)).
Proof.
  intros Hu Hd. split_and!.
  - unfold spec_words. cbn [spec example_action sp_version sp_scope example_scope sc_tenant sc_principal sc_run sc_branch
      sc_authority sp_policy_epoch sp_deadline sp_units]. repeat (apply Forall_cons_2; [first [done|unfold is_u64; lia]|]). apply Forall_nil_2.
  - intros t Ht. assert (t = mkResolvedTarget 7 42 1 1 1) as -> by (by injection Ht). by apply words_in_range.
  - apply Forall_cons_2; [|apply Forall_nil_2]. unfold witness_in_range, is_u64. lia.
  - unfold is_u64. by vm_compute.
Qed.

Lemma example_policy_in_range : policy_in_range example_policy.
Proof.
  split_and!; [by apply words_in_range| |unfold is_u64; by vm_compute].
  apply Forall_forall. intros m Hm. assert (m ∈ example_members) as Hin.
  { assert (policy_members example_policy ≡ₚ example_members) as <- by (by vm_compute). done. }
  pose proof example_members_typed as Ht. rewrite Forall_forall in Ht. by apply Ht.
Qed.

Lemma congress_binding_unambiguous_witness :
  ∃ out, binding 1 (example_action 4 100) example_policy 3 (ascii_bytes "evidence") = Ok out ∧
    ∀ ev, binding 1 (example_action 4 100) example_policy 3 ev = Ok out → ev = ascii_bytes "evidence".
Proof.
  destruct (binding 1 (example_action 4 100) example_policy 3 (ascii_bytes "evidence")) as [out| |] eqn:E; [|by vm_compute in E..].
  exists out. split; [done|]. intros ev Hev.
  assert (spec_in_range (spec (example_action 4 100))) as Hs by (apply example_action_in_range; unfold is_u64; lia).
  assert (∀ z, 0 ≤ z ≤ 3 → is_u64 z) as Hz by (unfold is_u64; lia).
  destruct (congress_binding_unambiguous 1 1 _ _ _ _ 3 3 (ascii_bytes "evidence") ev ltac:(apply Hz; lia) ltac:(apply Hz; lia)
    ltac:(apply Hz; lia) ltac:(apply Hz; lia) Hs Hs example_policy_in_range example_policy_in_range)
    as [_ H]. by destruct (H out E Hev) as (_ & _ & _ & <- & _).
Defined.
