(* ===== verification/CongressLife.v ===== *)
(** * Congress-reviewed actions: the authority

    The inner authority only takes the steps of [Action.v], every attempt has a
    review of its own inputs, and what goes past its review was ready. *)

From Stdlib Require Import Strings.Byte.
From stdpp Require Import base tactics numbers list gmap.
From S2P Require Import Prelude Bytes Judgment Rights Round Reducer Review Action Congress CongressBinding.

Local Open Scope Z_scope.

(** ** Histories *)

Definition congress_call_typed (c : congress_call) : Prop :=
  match c with
  | CongressPropose id action snapshot _ =>
      is_u64 id ∧ is_u64 (s_semantic_epoch snapshot) ∧ frozen action ∧ spec_in_range (spec action)
  | CongressDispatch permit final snapshot _ _ =>
      is_u64 (pm_attempt (rp_inner permit)) ∧ is_u64 (s_semantic_epoch snapshot) ∧ spec_in_range (spec final)
  | CongressAuthorize id snapshot _ _ => is_u64 id ∧ is_u64 (s_semantic_epoch snapshot)
  | _ => True
  end.

(** What a congress authority can become, by any calls a caller can make. *)
Definition congress_reached (ca : CongressAuthority) : Prop :=
  ∃ issuer scope total max members requirements policy ca0 calls,
    is_u64 total ∧ is_u64 max ∧ Forall member_typed members ∧ Forall is_u64 (requirement_words requirements) ∧
    review_policy_new members requirements = Ok policy ∧
    congress_authority_new issuer scope total max policy = Ok ca0 ∧
    Forall congress_call_typed calls ∧ ca = congress_run calls ca0.

(** ** The invariant *)

(** The stages that only an authorization leads to. *)
Definition past_review (s : ActionState) : bool :=
  match s with
  | Authorized | Dispatching | Confirmed | ActionUnknown | ConfirmedNotExecuted | IrrecoverablyUnknown => true
  | _ => false
  end.

Definition review_root (r : RegisteredReview) : bytes := rd_evidence_root (cg_round (rg_congress r)).
Definition review_ready (r : RegisteredReview) : Prop := ∃ reduction, evaluate (rg_congress r) ExactClear = Ok (ReviewReady reduction).

Record reviewed (p : ReviewPolicy) (id : Z) (at_ : Attempt) (r : RegisteredReview) : Prop := {
  rw_range : is_u64 id ∧ spec_in_range (spec (at_action at_)) ∧ is_u64 (j_semantic_epoch (rg_judgment r));
  rw_preimage : ∃ evidence, binding id (at_action at_) p (j_semantic_epoch (rg_judgment r)) evidence = Ok (review_root r);
  rw_review : ∃ oks, review_inv p id (review_root r) oks (rg_congress r);
  rw_witnesses : j_witnesses (rg_judgment r) = sp_required_witnesses (spec (at_action at_));
  rw_ready : past_review (at_stage at_) = true → review_ready r;
}.

Definition each_reviewed (p : ReviewPolicy) (attempts : gmap Z Attempt) (reviews : gmap Z RegisteredReview) : Prop :=
  ∀ id, match attempts !! id, reviews !! id with
        | Some at_, Some r => reviewed p id at_ r
        | None, None => True
        | _, _ => False
        end.

Record congress_inv (ca : CongressAuthority) : Prop := {
  ci_authority : authority_reached (ca_authority ca);
  ci_policy : policy_valid (ca_policy ca) ∧ policy_in_range (ca_policy ca);
  ci_reviews : each_reviewed (ca_policy ca) (ra_attempts (ca_authority ca)) (ca_reviews ca);
}.

(** What every call guarantees. *)
Record congress_sound (ca : CongressAuthority) (out : res Error unit) (ca' : CongressAuthority) : Prop := {
  cs_inv : congress_inv ca';
  cs_no_panic : out ≠ Panic;
  cs_atomic : ∀ e, out = Err e → ca' = ca;
  cs_inner : ca_authority ca' = ca_authority ca ∨
    ∃ c, authority_call_typed c ∧ ca_authority ca' = (authority_step c (ca_authority ca)).2;
  cs_policy : ca_policy ca' = ca_policy ca;
  cs_reviews : ∀ id r, ca_reviews ca !! id = Some r → ∃ r', ca_reviews ca' !! id = Some r' ∧
    review_root r' = review_root r ∧ rg_judgment r' = rg_judgment r;
}.

Lemma congress_refused ca e : congress_inv ca → congress_sound ca (Err e) ca.
Proof. intros Hinv. split; try done; eauto. Qed.

Lemma reached_step a c : authority_reached a → authority_call_typed c → authority_reached (authority_step c a).2.
Proof.
  intros (issuer & scope & total & max & a0 & calls & ? & ? & Hnew & Hall & ->) Hc.
  exists issuer, scope, total, max, a0, (calls ++ [c]). split_and!; try done.
  - apply Forall_app. split; [done|]. by apply Forall_singleton.
  - unfold authority_run. by rewrite foldl_app.
Qed.

Lemma on_authority_eq {A} (m : st ReferenceAuthority Error A) ca :
  on_authority m ca = ((m (ca_authority ca)).1, set_inner (m (ca_authority ca)).2 ca).
Proof. unfold on_authority, zoom. by destruct (m (ca_authority ca)) as [[]]. Qed.

Lemma set_inner_same ca : set_inner (ca_authority ca) ca = ca.
Proof. by destruct ca. Qed.

(** Calls that open no review and need none. *)
Definition plain_call (c : authority_call) : bool :=
  match c with CallPropose _ _ | CallAuthorize _ _ _ => false | _ => true end.

Lemma plain_stage id c o o' :
  plain_call c = true → stage_step id c o o' →
  match o, o' with
  | Some s, Some s' => past_review s' = true → past_review s = true
  | None, None => True
  | _, _ => False
  end.
Proof.
  intros Hc Hs. destruct Hs as [c [s|]| | | | | | | | | | | |]; try done.
  - by destruct H as [-> | ->].
  - by destruct H as [-> | ->].
Qed.

Lemma reviewed_moved p id at_ at' r :
  reviewed p id at_ r → at_action at' = at_action at_ → (past_review (at_stage at') = true → past_review (at_stage at_) = true) →
  reviewed p id at' r.
Proof. intros [] E Hs. split; rewrite ?E; try done. naive_solver. Qed.

(** An inner call that is not about a review. *)
Lemma inner_sound c ca :
  congress_inv ca → plain_call c = true →
  congress_sound ca (authority_step c (ca_authority ca)).1 (set_inner (authority_step c (ca_authority ca)).2 ca).
Proof.
  intros [Ha Hp Hr] Hc. assert (authority_call_typed c) as Hty by (by destruct c).
  pose proof (authority_step_sound c _ (reached_coherent _ Ha) Hty) as Hs.
  pose proof (reached_step _ _ Ha Hty) as Ha'. destruct (authority_step c (ca_authority ca)) as [out a'] eqn:E. cbn [fst snd] in *.
  destruct Hs as [_ Hpanic Hatomic _ _ Hact Hstage]. split; cbn [set_inner ca_authority ca_policy ca_reviews]; try done.
  - split; cbn [set_inner ca_authority ca_policy ca_reviews]; [done|done|]. intros id. specialize (Hr id).
    pose proof (plain_stage _ _ _ _ Hc (Hstage id)) as Hst. unfold stage_of in Hst.
    destruct (ra_attempts (ca_authority ca) !! id) as [at_|] eqn:Hat; cbn [fmap option_fmap option_map] in Hst.
    + destruct (Hact id at_ Hat) as (at' & Hat' & Heq). rewrite Hat' in Hst |- *.
      destruct (ca_reviews ca !! id); [|done]. by eapply reviewed_moved.
    + by destruct (ra_attempts a' !! id).
  - intros e He. rewrite (Hatomic e He). by destruct ca.
  - right. exists c. by rewrite E.
  - eauto.
Qed.

(** ** Reviews *)

Lemma review_new_no_panic p id root : congress_review_new p id root ≠ Panic.
Proof.
  unfold congress_review_new. munfold_goal. destruct (id =? 0); [done|].
  destruct (round_new id root) as [r| |] eqn:Hnew; [|done|].
  2: { revert Hnew. unfold round_new. munfold_goal. by destruct (validate_field_outcome root) as [->|[? ->]]. }
  pose proof (round_new_inv _ _ _ Hnew) as Hinv. clear Hnew.
  assert (∀ ms oks r0, round_inv id root oks r0 → exec (add_members ms) r0 ≠ Panic) as Hadd.
  { induction ms as [|m ms IH]; intros oks r0 H0; [done|]. unfold exec. cbn [add_members]. munfold_goal.
    destruct (round_step_ok id root oks r0 H0 (CallAddMember m)) as (Hno & _ & _ & Hok). cbn [round_step] in Hno, Hok.
    destruct (add_member m r0) as [[[]| |] r1]; [|done|done]. specialize (IH _ r1 (Hok eq_refl)). unfold exec in IH. done. }
  specialize (Hadd (entries (rp_members p)).*1 [] r Hinv). by destruct (exec _ r).
Qed.

Lemma review_step_sound p id root oks r c :
  review_inv p id root oks r →
  let '(out, r') := review_step c r in
  out ≠ Panic ∧ (∀ e, out = Err e → r' = r) ∧ ∃ oks', review_inv p id root oks' r'.
Proof.
  intros Hinv. pose proof (review_run_inv p id root oks [c] r Hinv) as Hrun. simpl in Hrun.
  destruct Hinv as [_ Hr _ _]. destruct (round_step_ok id root oks _ Hr (call_of_review c)) as (Hno & Hsame & _).
  rewrite review_step_eq in Hrun |- *. split_and!; [done| |done].
  intros e He. rewrite Hsame by (rewrite He; done). by destruct r.
Qed.

Lemma on_review_call id c :
  congress_step (CongressReviewCall id c) = on_review id (review_step c).
Proof. by destruct c. Qed.

Lemma attempt_at_ok a id stage at_ :
  attempt_at a id stage = Ok at_ ↔ ra_attempts a !! id = Some at_ ∧ at_stage at_ = stage.
Proof.
  unfold attempt_at. munfold_goal. destruct (ra_attempts a !! id) as [at'|]; [|split; [done|by intros [? ?]]].
  case_bool_decide as Hst; simpl; split; naive_solver.
Qed.

Lemma attempt_at_cases a id stage : (∃ at_, attempt_at a id stage = Ok at_) ∨ ∃ e, attempt_at a id stage = Err e.
Proof. unfold attempt_at. munfold_goal. destruct (ra_attempts a !! id); [|eauto]. case_bool_decide; simpl; eauto. Qed.

(** A call on a review moves it, while its attempt is under review. *)
Lemma review_call_sound id c ca :
  congress_inv ca → let '(out, ca') := congress_step (CongressReviewCall id c) ca in congress_sound ca out ca'.
Proof.
  intros Hinv. rewrite on_review_call. unfold on_review. munfold_goal.
  destruct (attempt_at_cases (ca_authority ca) id Reviewing) as [[at_ Hat]|[e ->]]; [|by apply congress_refused].
  rewrite Hat. apply attempt_at_ok in Hat as [Hat Hst]. cbv beta iota.
  destruct (ca_reviews ca !! id) as [r|] eqn:Hr; [|by apply congress_refused]. cbv beta iota.
  pose proof Hinv as [Ha Hp Hall]. pose proof (Hall id) as Hid. rewrite Hat, Hr in Hid. destruct Hid as [? ? (oks & Hri) ? ?].
  pose proof (review_step_sound _ _ _ _ _ c Hri) as Hstep. destruct (review_step c (rg_congress r)) as [out r'].
  destruct Hstep as (Hno & Hatomic & oks' & Hri'). cbv beta iota.
  set (r1 := mkRegisteredReview r' (rg_judgment r)).
  assert (review_root r1 = review_root r) as Hroot by (by destruct Hri' as [_ [] _ _]).
  assert (congress_sound ca out (set_review id r1 ca)) as Hs; [|by destruct out].
  split; cbn [set_review ca_authority ca_policy ca_reviews]; try done.
  - split; cbn [set_review ca_authority ca_policy ca_reviews]; try done. intros id'. specialize (Hall id').
    destruct (decide (id = id')) as [<-|Hne]; [|by rewrite lookup_insert_ne]. rewrite lookup_insert_eq, Hat. split; rewrite ?Hroot; try done.
    + by exists oks'.
    + by rewrite Hst.
  - intros e He. unfold r1. rewrite (Hatomic e He). destruct ca as [a p m]. unfold set_review. simpl in *. f_equal.
    rewrite insert_id; [done|]. by destruct r.
  - by left.
  - intros id' r0 Hr0. destruct (decide (id = id')) as [<-|Hne].
    + exists r1. rewrite lookup_insert_eq. rewrite Hr in Hr0. by injection Hr0 as <-.
    + exists r0. by rewrite lookup_insert_ne.
Qed.

(** ** Proposals *)

Lemma judgment_capture_epoch s ws j :
  judgment_capture s ws = Ok j → j_semantic_epoch j = s_semantic_epoch s ∧ j_witnesses j = ws.
Proof. unfold judgment_capture. munfold_goal. destruct (judgment_valid_at _ s) as [[]| |]; [|done..]. by intros [= <-]. Qed.

Lemma propose_eq id action a :
  (∃ e, propose id action a = (Err e, a)) ∨
  (ra_attempts a !! id = None ∧
   propose id action a = (Ok tt, set_attempts (<[id := mkAttempt action Proposed None]> (ra_attempts a)) a)).
Proof.
  unfold propose. munfold_goal. destruct (id =? 0); [eauto|]. cbv beta iota.
  case_bool_decide as Hid; [eauto|]. cbv beta iota. destruct (_ <=? _); [eauto|]. right. split; [by apply eq_None_not_Some|done].
Qed.

Lemma congress_propose_outcome id action snapshot evidence ca :
  congress_inv ca → (∃ e, congress_propose id action snapshot evidence ca = (Err e, ca)) ∨
  ∃ root judgment congress a',
    binding id action (ca_policy ca) (s_semantic_epoch snapshot) evidence = Ok root ∧
    judgment_capture snapshot (sp_required_witnesses (spec action)) = Ok judgment ∧
    congress_review_new (ca_policy ca) id root = Ok congress ∧
    ra_attempts (ca_authority ca) !! id = None ∧ propose id action (ca_authority ca) = (Ok tt, a') ∧
    congress_propose id action snapshot evidence ca =
      (Ok tt, set_review id (mkRegisteredReview congress judgment) (set_inner a' ca)).
Proof.
  intros Hinv. unfold congress_propose. munfold_goal.
  destruct (validate_current_outcome (ca_authority ca) action) as [->|[e ->]]; [|eauto]. cbv beta iota.
  pose proof (binding_no_panic id action (ca_policy ca) (s_semantic_epoch snapshot) evidence) as Hb.
  destruct (binding _ _ _ _ _) as [root|e|]; [|eauto|done].
  cbv beta iota. assert (judgment_capture snapshot (sp_required_witnesses (spec action)) ≠ Panic) as Hno.
  { unfold judgment_capture. munfold_goal. pose proof (judgment_valid_at_no_panic (mkJudgment (s_semantic_epoch snapshot)
      (sp_required_witnesses (spec action))) snapshot). by destruct (judgment_valid_at _ _) as [[]| |]. }
  destruct (judgment_capture _ _) as [judgment|e|]; [|eauto|done]. cbv beta iota.
  pose proof (review_new_no_panic (ca_policy ca) id root). destruct (congress_review_new _ _ _) as [congress|e|] eqn:Hc; [|eauto|done].
  cbv beta iota. rewrite on_authority_eq. destruct (propose_eq id action (ca_authority ca)) as [[e E]|[Hfresh E]]; rewrite E; cbn [fst snd].
  - left. exists e. by rewrite set_inner_same.
  - right. exists root, judgment, congress. eexists. by split_and!.
Qed.

Lemma congress_propose_sound id action snapshot evidence ca :
  congress_inv ca → congress_call_typed (CongressPropose id action snapshot evidence) →
  let '(out, ca') := congress_propose id action snapshot evidence ca in congress_sound ca out ca'.
Proof.
  intros Hinv (Hid & Hep & Hfrozen & Hrange).
  destruct (congress_propose_outcome id action snapshot evidence ca Hinv) as [[e ->]|H]; [by apply congress_refused|].
  destruct H as (root & judgment & congress & a' & Hb & Hj & Hc & Hfresh & Hprop & ->).
  pose proof Hinv as [Ha Hp Hall]. pose proof (judgment_capture_epoch _ _ _ Hj) as [Hjep Hjws].
  pose proof (reached_step _ (CallPropose id action) Ha Hfrozen) as Ha'. cbn [authority_step] in Ha'. rewrite Hprop in Ha'. cbn [snd] in Ha'.
  assert (ca_reviews ca !! id = None) as Hnone by (specialize (Hall id); rewrite Hfresh in Hall; by destruct (ca_reviews ca !! id)).
  destruct (propose_eq id action (ca_authority ca)) as [[e E]|[_ E]]; rewrite E in Hprop; [done|]. injection Hprop as <-.
  destruct (congress_review_new_inv _ _ _ _ Hc) as (oks & Hri & _).
  assert (rd_evidence_root (cg_round congress) = root) as Hroot by (by destruct Hri as [_ [] _ _]).
  split; cbn [set_review set_inner ca_authority ca_policy ca_reviews]; try done.
  - split; cbn [set_review set_inner ca_authority ca_policy ca_reviews]; [done|done|]. intros id'. cbn [set_attempts ra_attempts].
    destruct (decide (id = id')) as [<-|Hne]; [|by rewrite !lookup_insert_ne by done; apply Hall].
    rewrite !lookup_insert_eq. split; unfold review_root; cbn [rg_congress rg_judgment at_action at_stage]; rewrite ?Hroot, ?Hjep; try done.
    + by exists evidence.
    + by exists oks.
  - right. exists (CallPropose id action). split; [done|]. cbn [authority_step]. by rewrite E.
  - intros id' r Hr. destruct (decide (id = id')) as [<-|Hne]; [congruence|]. exists r. by rewrite lookup_insert_ne.
Qed.

(** ** Authorization and dispatch *)

(** What [check_review] checks. *)
Definition review_passes (ca : CongressAuthority) (id : Z) (action : FrozenAction) (snapshot : Snapshot)
    (evidence : bytes) (exact : ExactStatus) (r : RegisteredReview) : Prop :=
  ca_reviews ca !! id = Some r ∧
  binding id action (ca_policy ca) (s_semantic_epoch snapshot) evidence = Ok (review_root r) ∧
  judgment_valid_at (rg_judgment r) snapshot = Ok true ∧ exact = ExactClear ∧ review_ready r.

Lemma evaluate_no_panic ca id r exact :
  congress_inv ca → ca_reviews ca !! id = Some r → evaluate (rg_congress r) exact ≠ Panic.
Proof.
  intros [_ [Hp _] Hall] Hr. specialize (Hall id). rewrite Hr in Hall. destruct (ra_attempts _ !! id); [|done].
  destruct (rw_review _ _ _ _ Hall) as (oks & Hri). by rewrite (evaluate_eq _ _ _ _ _ exact Hp Hri).
Qed.

Lemma evaluate_ready r exact reduction : evaluate r exact = Ok (ReviewReady reduction) → exact = ExactClear.
Proof. by destruct exact. Qed.

Lemma check_review_outcome ca id action snapshot evidence exact :
  congress_inv ca →
  (∃ e, check_review ca id action snapshot evidence exact = Err e ∧ ¬ ∃ r, review_passes ca id action snapshot evidence exact r) ∨
  (check_review ca id action snapshot evidence exact = Ok tt ∧ ∃ r, review_passes ca id action snapshot evidence exact r).
Proof.
  intros Hinv. unfold check_review, review_passes, review_ready. munfold_goal.
  destruct (ca_reviews ca !! id) as [r|] eqn:Hr; [|left; eexists; (split; [done|]); naive_solver].
  pose proof (binding_no_panic id action (ca_policy ca) (s_semantic_epoch snapshot) evidence) as Hb.
  destruct (binding _ _ _ _ _) as [root|e|]; [|left; eexists; (split; [done|]); naive_solver|done]. clear Hb.
  destruct (bool_decide_reflect (root = rd_evidence_root (cg_round (rg_congress r)))) as [->|Hne]; cbn [negb].
  2:{ left. eexists. split; [done|]. intros (? & [= <-] & [= ->] & _). by apply Hne. }
  pose proof (judgment_valid_at_no_panic (rg_judgment r) snapshot).
  destruct (judgment_valid_at (rg_judgment r) snapshot) as [[]|e|] eqn:Hj;
    [|left; eexists; (split; [done|]); intros (? & [= <-] & _ & ? & _); congruence..|done]. cbn [negb].
  pose proof (evaluate_no_panic ca id r exact Hinv Hr). destruct (evaluate (rg_congress r) exact) as [d|e|] eqn:He; [|left|done].
  - destruct d as [reduction|reason|].
    + pose proof (evaluate_ready _ _ _ He) as ->. right. split; [done|]. exists r. split_and!; try done. by exists reduction.
    + left. eexists. split; [done|]. intros (? & [= <-] & _ & _ & -> & ? & ?). congruence.
    + left. eexists. split; [done|]. intros (? & [= <-] & _ & _ & -> & ? & ?). congruence.
  - eexists. split; [done|]. intros (? & [= <-] & _ & _ & -> & ? & ?). congruence.
Qed.

Lemma congress_authorize_outcome id snapshot evidence exact ca :
  congress_inv ca →
  (∃ e, congress_authorize id snapshot evidence exact ca = (Err e, ca) ∧
    ¬ ∃ at_ r, review_passes ca id (at_action at_) snapshot evidence exact r ∧
        authorizable (ca_authority ca) id (rg_judgment r) snapshot at_) ∨
  ∃ at_ r permit a', review_passes ca id (at_action at_) snapshot evidence exact r ∧
    authorizable (ca_authority ca) id (rg_judgment r) snapshot at_ ∧
    authorize id (rg_judgment r) snapshot (ca_authority ca) = (Ok permit, a') ∧
    ra_attempts a' = <[id := mkAttempt (at_action at_) Authorized (Some (rg_judgment r))]> (ra_attempts (ca_authority ca)) ∧
    permit = mkPermit (ra_issuer (ca_authority ca)) id (at_action at_) ∧
    congress_authorize id snapshot evidence exact ca = (Ok (mkReviewedPermit permit), set_inner a' ca).
Proof.
  intros Hinv. unfold congress_authorize. munfold_goal.
  destruct (attempt_at_cases (ca_authority ca) id Reviewing) as [[at_ Hat]|[e Hat]]; rewrite Hat.
  2:{ left. exists e. split; [done|]. intros (at_ & r & _ & Hid & Hst & _). pose proof (proj2 (attempt_at_ok _ _ _ _) (conj Hid Hst)). congruence. }
  apply attempt_at_ok in Hat as [Hid Hst]. cbv beta iota.
  destruct (check_review_outcome ca id (at_action at_) snapshot evidence exact Hinv) as [(e & -> & Hno)|[-> (r & Hpass)]].
  { left. exists e. split; [done|]. intros (at' & r & Hpass & Hid' & _). rewrite Hid in Hid'. injection Hid' as <-. apply Hno. by exists r. }
  cbv beta iota. pose proof Hpass as [Hr _]. rewrite Hr. cbv beta iota. rewrite on_authority_eq.
  destruct (authorize_outcome id (rg_judgment r) snapshot _ (reached_coherent _ (ci_authority _ Hinv))) as [(e & E & Hno)|H].
  - left. exists e. rewrite E. cbn [fst snd]. rewrite set_inner_same. split; [done|]. intros (at' & r' & (Hr' & _) & Hauth).
    rewrite Hr in Hr'. injection Hr' as <-. apply Hno. by exists at'.
  - destruct H as (at' & effect & Hauth & _ & _ & E). pose proof Hauth as [Hid' _]. rewrite Hid in Hid'. injection Hid' as <-.
    right. rewrite E. exists at_, r. eexists _, _. by split_and!.
Qed.

Lemma congress_authorize_sound id snapshot evidence exact ca :
  congress_inv ca →
  let '(out, ca') := (congress_authorize id snapshot evidence exact;; mret tt) ca in congress_sound ca out ca'.
Proof.
  intros Hinv. munfold_goal.
  destruct (congress_authorize_outcome id snapshot evidence exact ca Hinv) as [(e & -> & _)|H]; [by apply congress_refused|].
  destruct H as (at_ & r & permit & a' & Hpass & Hauth & E & Hats & _ & ->).
  pose proof Hinv as [Ha Hp Hall]. destruct Hpass as (Hr & _ & _ & _ & Hready). destruct Hauth as (Hid & Hst & _).
  assert (authority_step (CallAuthorize id (rg_judgment r) snapshot) (ca_authority ca) = (Ok tt, a')) as E'
    by (cbn [authority_step]; munfold_goal; by rewrite E).
  pose proof (reached_step _ (CallAuthorize id (rg_judgment r) snapshot) Ha I) as Ha'. rewrite E' in Ha'.
  split; cbn [set_inner ca_authority ca_policy ca_reviews]; try done.
  - split; cbn [set_inner ca_authority ca_policy ca_reviews]; [done|done|]. rewrite Hats. intros id'. specialize (Hall id').
    destruct (decide (id = id')) as [<-|Hne]; [|by rewrite lookup_insert_ne]. rewrite lookup_insert_eq, Hr. rewrite Hid, Hr in Hall.
    by destruct Hall.
  - right. exists (CallAuthorize id (rg_judgment r) snapshot). by rewrite E'.
  - eauto.
Qed.

Lemma congress_dispatch_outcome permit final snapshot evidence exact ca :
  congress_inv ca →
  (∃ e, congress_dispatch permit final snapshot evidence exact ca = (Err e, ca) ∧
    ¬ ∃ at_ r, review_passes ca (pm_attempt (rp_inner permit)) final snapshot evidence exact r ∧
        dispatchable (ca_authority ca) (rp_inner permit) final snapshot at_) ∨
  ∃ at_ r a', review_passes ca (pm_attempt (rp_inner permit)) final snapshot evidence exact r ∧
    dispatchable (ca_authority ca) (rp_inner permit) final snapshot at_ ∧
    dispatch (rp_inner permit) final snapshot (ca_authority ca) = (Ok tt, a') ∧
    congress_dispatch permit final snapshot evidence exact ca = (Ok tt, set_inner a' ca).
Proof.
  intros Hinv. unfold congress_dispatch. munfold_goal.
  destruct (check_review_outcome ca (pm_attempt (rp_inner permit)) final snapshot evidence exact Hinv) as [(e & -> & Hno)|[-> (r & Hpass)]].
  { left. exists e. split; [done|]. intros (at' & r & Hpass & _). apply Hno. by exists r. }
  cbv beta iota. rewrite on_authority_eq.
  destruct (dispatch_outcome (rp_inner permit) final snapshot _ (reached_coherent _ (ci_authority _ Hinv))) as [(e & E & Hno)|H].
  - left. exists e. rewrite E. cbn [fst snd]. rewrite set_inner_same. split; [done|]. intros (at' & r' & _ & Hd). apply Hno. by exists at'.
  - destruct H as (at_ & rv & Hd & _ & _ & _ & E). right. rewrite E. exists at_, r. eexists. by split_and!.
Qed.

Lemma congress_dispatch_sound permit final snapshot evidence exact ca :
  congress_inv ca →
  let '(out, ca') := congress_dispatch permit final snapshot evidence exact ca in congress_sound ca out ca'.
Proof.
  intros Hinv.
  destruct (congress_dispatch_outcome permit final snapshot evidence exact ca Hinv) as [(e & -> & _)|H]; [by apply congress_refused|].
  destruct H as (at_ & r & a' & _ & _ & E & ->).
  pose proof (inner_sound (CallActionDispatch (rp_inner permit) final snapshot) ca Hinv eq_refl) as Hs.
  cbn [authority_step] in Hs. by rewrite E in Hs.
Qed.

Lemma congress_step_sound c ca :
  congress_inv ca → congress_call_typed c → let '(out, ca') := congress_step c ca in congress_sound ca out ca'.
Proof.
  intros Hinv Hc.
  assert (∀ ac, plain_call ac = true → congress_sound ca (on_authority (authority_step ac) ca).1 (on_authority (authority_step ac) ca).2) as Hplain
    by (intros ac Hac; rewrite on_authority_eq; by apply inner_sound).
  destruct c as [| |id snapshot evidence exact|permit final snapshot evidence exact|t|id|id|id|id|id|id outcome|id|]; cbn [congress_step].
  - by apply congress_propose_sound.
  - by apply review_call_sound.
  - by apply congress_authorize_sound.
  - by apply congress_dispatch_sound.
  - pose proof (Hplain (CallObserveTime t) eq_refl) as H. cbn [authority_step] in H. by destruct (on_authority _ ca).
  - pose proof (Hplain (CallPrepare id) eq_refl) as H. cbn [authority_step] in H. by destruct (on_authority _ ca).
  - pose proof (Hplain (CallBeginReview id) eq_refl) as H. cbn [authority_step] in H. by destruct (on_authority _ ca).
  - pose proof (Hplain (CallCancel id) eq_refl) as H. cbn [authority_step] in H. by destruct (on_authority _ ca).
  - pose proof (Hplain (CallDeny id) eq_refl) as H. cbn [authority_step] in H. by destruct (on_authority _ ca).
  - pose proof (Hplain (CallActionUnknown id) eq_refl) as H. cbn [authority_step] in H. by destruct (on_authority _ ca).
  - pose proof (Hplain (CallTrustedOutcome id outcome) eq_refl) as H. cbn [authority_step] in H. by destruct (on_authority _ ca).
  - pose proof (Hplain (CallIrrecoverable id) eq_refl) as H. cbn [authority_step] in H. by destruct (on_authority _ ca).
  - pose proof (Hplain CallRevoke eq_refl) as H. cbn [authority_step] in H. by destruct (on_authority _ ca).
Qed.

Lemma congress_run_ind (P : CongressAuthority → Prop) calls ca :
  congress_inv ca → Forall congress_call_typed calls → P ca →
  (∀ ca out ca', congress_inv ca → congress_sound ca out ca' → P ca → P ca') →
  congress_inv (congress_run calls ca) ∧ P (congress_run calls ca).
Proof.
  intros Hinv Hall HP Hstep. revert ca Hinv HP. induction Hall as [|c calls Hc _ IH]; intros ca Hinv HP; [done|].
  cbn [congress_run foldl]. pose proof (congress_step_sound c ca Hinv Hc) as Hs. destruct (congress_step c ca) as [out ca'].
  apply IH; [by destruct Hs|by eapply Hstep].
Qed.

Lemma policy_new_in_range members requirements p :
  Forall member_typed members → Forall is_u64 (requirement_words requirements) →
  review_policy_new members requirements = Ok p → policy_valid p ∧ policy_in_range p.
Proof.
  intros Hm Hr Hnew. assert (requirements_typed requirements) as Ht.
  { unfold requirement_words in Hr. repeat (apply Forall_cons in Hr as [? Hr]). unfold requirements_typed, is_u64 in *. lia. }
  apply review_policy_new_ok in Hnew as (_ & Hp & Hv); [|done..]. split; [done|]. pose proof Hv as [Hsound _ _ _].
  split_and!; [by rewrite Hp| |].
  - apply Forall_map_values. intros id m Hin. by apply (ps_weights _ Hsound id).
  - pose proof (ps_count _ Hsound). unfold is_u64, len, policy_members, map_values. rewrite length_fmap, entries_length. unfold MAX_VOTES in *. lia.
Qed.

Lemma congress_reached_inv ca : congress_reached ca → congress_inv ca.
Proof.
  intros (issuer & scope & total & max & members & requirements & policy & ca0 & calls & Ht & Hm & Hms & Hr & Hp & Hnew & Hall & ->).
  destruct (policy_new_in_range _ _ _ Hms Hr Hp) as [Hv Hrange].
  apply (congress_run_ind (λ _, True)); [|done|done|done].
  unfold congress_authority_new in Hnew. munfold. destruct (authority_new issuer scope total max) as [a| |] eqn:Ea; [|done..].
  injection Hnew as <-. split; cbn [ca_authority ca_policy ca_reviews]; [|done|].
  - exists issuer, scope, total, max, a, []. by split_and!.
  - intros id. rewrite lookup_empty. unfold authority_new in Ea. munfold. destruct (scope_validate scope); [|done..].
    destruct (bool_decide _); [done|]. destruct (_ || _); [done|]. injection Ea as <-. done.
Qed.

(** A review keeps what it is about. *)
Lemma review_kept calls ca id r :
  congress_inv ca → Forall congress_call_typed calls → ca_reviews ca !! id = Some r →
  congress_inv (congress_run calls ca) ∧ ca_policy (congress_run calls ca) = ca_policy ca ∧
  ∃ r', ca_reviews (congress_run calls ca) !! id = Some r' ∧ review_root r' = review_root r ∧ rg_judgment r' = rg_judgment r.
Proof.
  intros Hinv Hall Hr.
  apply (congress_run_ind (λ ca', ca_policy ca' = ca_policy ca ∧
    ∃ r', ca_reviews ca' !! id = Some r' ∧ review_root r' = review_root r ∧ rg_judgment r' = rg_judgment r)); [done..|eauto|].
  intros ca1 out ca2 _ Hs (Hp & r1 & Hr1 & Hroot & Hj). split; [by rewrite (cs_policy _ _ _ Hs)|].
  destruct (cs_reviews _ _ _ Hs id r1 Hr1) as (r2 & ? & ? & ?). exists r2. split_and!; [done|congruence..].
Qed.

(** ** Properties *)

(** C18: a dispatch is of what was proposed and reviewed. Whatever calls come
    between a successful proposal and a successful dispatch of its attempt, the
    action, the semantic epoch and the evidence of the dispatch are those of the
    proposal; every member of the policy has revealed, for the preimage of
    exactly these, a verdict other than an abstention that it had committed to;
    and the admitted weight of the members that approved, that of all the
    others, and the cohorts that approved meet the policy. *)
Theorem congress_dispatch_is_reviewed ca id action snapshot evidence ca1 calls permit final snapshot' evidence' exact ca2 :
  congress_reached ca → congress_call_typed (CongressPropose id action snapshot evidence) →
  congress_propose id action snapshot evidence ca = (Ok tt, ca1) →
  Forall congress_call_typed calls → congress_call_typed (CongressDispatch permit final snapshot' evidence' exact) →
  pm_attempt (rp_inner permit) = id →
  congress_dispatch permit final snapshot' evidence' exact (congress_run calls ca1) = (Ok tt, ca2) →
  final = action ∧ evidence' = evidence ∧ s_semantic_epoch snapshot' = s_semantic_epoch snapshot ∧ exact = ExactClear ∧
  ∃ root r reduction,
    binding id action (ca_policy ca) (s_semantic_epoch snapshot) evidence = Ok root ∧
    ca_reviews ca2 !! id = Some r ∧ evaluate (rg_congress r) ExactClear = Ok (ReviewReady reduction) ∧
    let requirements := rp_requirements (ca_policy ca) in
    let outcome := outcome_of (cg_round (rg_congress r)) in
    (∀ m, is_Some (rp_members (ca_policy ca) !! m) → ∃ v d salt, outcome m = Revealed v ∧ v ≠ Abstain ∧
       commitment id m root v salt = Ok d ∧
       ms_commitment <$> rd_members (cg_round (rg_congress r)) !! m = Some (Some d)) ∧
    rq_min_permit_weight requirements ≤ rn_permit_weight reduction ∧
    rn_hold_weight reduction ≤ rq_max_hold_weight requirements ∧
    rn_permit_weight reduction = sumZ ((λ q : bytes * ReviewMember,
      if decide (outcome q.1 = Revealed Allow) then admitted_weight (ca_policy ca) q else 0) <$> roster (ca_policy ca)) ∧
    rn_hold_weight reduction = sumZ ((λ q : bytes * ReviewMember,
      if decide (outcome q.1 = Revealed Allow) then 0 else admitted_weight (ca_policy ca) q) <$> roster (ca_policy ca)) ∧
    ∃ cohorts : gset bytes, rq_min_permit_cohorts requirements ≤ Z.of_nat (size cohorts) ∧
      ∀ c, c ∈ cohorts → ∃ m v, rp_members (ca_policy ca) !! m = Some v ∧ rm_cohort v = c ∧ outcome m = Revealed Allow.
Proof.
  intros Hinv%congress_reached_inv Hty Hpropose Hcalls Hty' Hpid Hdispatch.
  pose proof (congress_propose_sound id action snapshot evidence ca Hinv Hty) as Hs. rewrite Hpropose in Hs.
  pose proof (cs_inv _ _ _ Hs) as Hinv1. pose proof (cs_policy _ _ _ Hs) as Hp1.
  destruct (congress_propose_outcome id action snapshot evidence ca Hinv) as [[e E]|H]; [congruence|].
  destruct H as (root & judgment & congress & a' & Hb & _ & Hc & _ & _ & E). rewrite E in Hpropose. injection Hpropose as <-.
  set (r0 := mkRegisteredReview congress judgment) in *. clear E Hs.
  destruct (congress_review_new_inv _ _ _ _ Hc) as (oks & Hri & _).
  assert (review_root r0 = root) as Hroot0 by (by destruct Hri as [_ [] _ _]).
  destruct (review_kept calls _ id r0 Hinv1 Hcalls) as (Hinv2 & Hp2 & r & Hr & Hroot & _); [by apply lookup_insert_eq|].
  set (ca' := congress_run calls _) in *.
  destruct (congress_dispatch_outcome permit final snapshot' evidence' exact ca' Hinv2) as [(e & E & _)|H]; [congruence|].
  destruct H as (at_ & r' & a2 & Hpass & _ & _ & E). rewrite E in Hdispatch. injection Hdispatch as <-.
  rewrite Hpid in Hpass. destruct Hpass as (Hr' & Hb' & _ & -> & reduction & Hready).
  rewrite Hr in Hr'. injection Hr' as <-. cbn [set_review set_inner ca_policy] in Hp1, Hp2. rewrite Hp2, Hroot, Hroot0 in Hb'.
  destruct Hty as (Hid & Hep & _ & Hrange), Hty' as (_ & Hep' & Hrange'). destruct Hinv as [_ [Hvalid Hprange] _].
  destruct (binding_inj id id final action _ _ _ _ _ _ root Hid Hid Hep' Hep Hrange' Hrange Hprange Hprange Hb' Hb)
    as (_ & -> & Hepoch & -> & _). split_and!; try done.
  exists root, r, reduction. split_and!; try done.
  pose proof (ci_reviews _ Hinv2 id) as Hrev. rewrite Hr in Hrev. destruct (ra_attempts (ca_authority ca') !! id) as [at'|]; [|done].
  destruct (rw_review _ _ _ _ Hrev) as (oks' & Hri'). rewrite Hp2, Hroot, Hroot0 in Hri'.
  destruct (ready_supported _ _ _ _ _ _ _ Hvalid Hri' Hready) as (_ & Hmembers & Hmin & Hmax & Hpermit & Hhold & cohorts & Hcount & Hcohorts).
  split_and!; try done. exists cohorts. split; [done|]. intros c (m & v & ? & ? & ? & _)%Hcohorts. by exists m, v.
Qed.

(** C22: the congress authority is the reference authority behind reviews. Its
    inner authority only takes steps of the reference authority, so its
    accounting and its permits are those of [Action.v]; no call aborts, a
    refused one changes nothing; every attempt has exactly one review, ready
    from its authorization on; and an authorization or a dispatch succeeds
    exactly where the reference authority's does and the review of exactly these
    inputs passes. *)
Theorem congress_refines_authority ca :
  congress_reached ca →
  authority_reached (ca_authority ca) ∧
  (∀ c, congress_call_typed c → let '(out, ca') := congress_step c ca in
     out ≠ Panic ∧ (∀ e, out = Err e → ca' = ca) ∧
     (ca_authority ca' = ca_authority ca ∨
      ∃ ac, authority_call_typed ac ∧ ca_authority ca' = (authority_step ac (ca_authority ca)).2)) ∧
  (∀ id, is_Some (ca_reviews ca !! id) ↔ is_Some (ra_attempts (ca_authority ca) !! id)) ∧
  (∀ id at_ r, ra_attempts (ca_authority ca) !! id = Some at_ → ca_reviews ca !! id = Some r →
     past_review (at_stage at_) = true → review_ready r) ∧
  (∀ id snapshot evidence exact, is_ok (congress_authorize id snapshot evidence exact ca).1 = true ↔
     ∃ at_ r, review_passes ca id (at_action at_) snapshot evidence exact r ∧
       authorizable (ca_authority ca) id (rg_judgment r) snapshot at_) ∧
  (∀ permit final snapshot evidence exact, (congress_dispatch permit final snapshot evidence exact ca).1 = Ok tt ↔
     ∃ at_ r, review_passes ca (pm_attempt (rp_inner permit)) final snapshot evidence exact r ∧
       dispatchable (ca_authority ca) (rp_inner permit) final snapshot at_).
Proof.
  intros Hinv%congress_reached_inv. pose proof (ci_reviews _ Hinv) as Hall. split_and!.
  - by apply ci_authority.
  - intros c Hc. pose proof (congress_step_sound c ca Hinv Hc) as Hs. destruct (congress_step c ca) as [out ca'].
    destruct Hs as [_ ? ? ? _ _]. by split_and!.
  - intros id. specialize (Hall id). destruct (ra_attempts _ !! id), (ca_reviews ca !! id); naive_solver.
  - intros id at_ r Hat Hr. specialize (Hall id). rewrite Hat, Hr in Hall. apply (rw_ready _ _ _ _ Hall).
  - intros id snapshot evidence exact.
    destruct (congress_authorize_outcome id snapshot evidence exact ca Hinv) as [(e & -> & Hno)|(at_ & r & permit & a' & ? & ? & _ & _ & _ & ->)];
      split; try done. intros _. by exists at_, r.
  - intros permit final snapshot evidence exact.
    destruct (congress_dispatch_outcome permit final snapshot evidence exact ca Hinv) as [(e & -> & Hno)|(at_ & r & a' & ? & ? & _ & ->)];
      split; try done. intros _. by exists at_, r.
Qed.

(** ** A concrete history *)

Definition example_congress_new : CongressAuthority :=
  mkCongressAuthority example_new_authority example_policy ∅.
Definition example_congress_evidence : bytes := ascii_bytes "evidence".
Definition example_congress_root : bytes :=
  match binding 1 (example_action 4 100) example_policy 3 example_congress_evidence with Ok root => root | _ => [] end.
Definition example_congress_digest (m : bytes) (v : Verdict) : Z :=
  fnv1a64 (commitment_preimage 1 m example_congress_root v []).
(** The second member denies; the others approve. *)
Definition example_congress_calls : list congress_call :=
  [CongressPrepare 1; CongressBeginReview 1;
   CongressReviewCall 1 (ReviewCommit [x61] (example_congress_digest [x61] Allow));
   CongressReviewCall 1 (ReviewCommit [x62] (example_congress_digest [x62] Deny));
   CongressReviewCall 1 (ReviewCommit [x63] (example_congress_digest [x63] Allow));
   CongressReviewCall 1 ReviewOpen;
   CongressReviewCall 1 (ReviewReveal [x61] Allow []); CongressReviewCall 1 (ReviewReveal [x62] Deny []);
   CongressReviewCall 1 (ReviewReveal [x63] Allow []);
   CongressAuthorize 1 example_view example_congress_evidence ExactClear].
Definition example_congress_opened : CongressAuthority := congress_run [CongressObserveTime 1] example_congress_new.

Lemma example_congress_new_reached calls :
  Forall congress_call_typed calls → congress_reached (congress_run calls example_congress_new).
Proof.
  intros Hcalls. exists 99, example_scope, 10, 4, example_members, example_requirements, example_policy, example_congress_new, calls.
  assert (is_u64 10 ∧ is_u64 4) as [? ?] by (unfold is_u64; lia).
  do 2 (split; [assumption|]). split; [exact example_members_typed|]. split; [by apply words_in_range|].
  split; [exact example_policy_new|]. split; [by vm_compute|]. by split.
Qed.

Lemma example_congress_reached : congress_reached example_congress_opened.
Proof. apply example_congress_new_reached. by apply Forall_singleton. Qed.

Lemma example_propose_typed : congress_call_typed (CongressPropose 1 (example_action 4 100) example_view example_congress_evidence).
Proof.
  do 2 (split; [unfold is_u64; by vm_compute|]). split; [by apply example_frozen|]. apply example_action_in_range; unfold is_u64; lia.
Qed.

(** The review is over and the decision ready; authorization comes next. *)
Definition example_congress_reviewed : CongressAuthority :=
  congress_run (CongressObserveTime 1 :: CongressPropose 1 (example_action 4 100) example_view example_congress_evidence ::
    take 9 example_congress_calls) example_congress_new.

Lemma example_congress_reviewed_reached : congress_reached example_congress_reviewed.
Proof.
  apply example_congress_new_reached. apply Forall_cons_2; [done|]. apply Forall_cons_2; [exact example_propose_typed|].
  cbn [take example_congress_calls]. repeat (apply Forall_cons_2; [done|]). apply Forall_nil_2.
Qed.

Lemma congress_refines_authority_witness :
  authority_reached (ca_authority example_congress_reviewed) ∧
  ∃ at_ r, review_passes example_congress_reviewed 1 (at_action at_) example_view example_congress_evidence ExactClear r ∧
    authorizable (ca_authority example_congress_reviewed) 1 (rg_judgment r) example_view at_.
Proof.
  destruct (congress_refines_authority example_congress_reviewed example_congress_reviewed_reached) as (Hreached & _ & _ & _ & Hauthorize & _).
  split; [exact Hreached|]. apply Hauthorize. by vm_compute.
Defined.

Lemma congress_dispatch_is_reviewed_witness :
  ∃ ca1 ca2, congress_propose 1 (example_action 4 100) example_view example_congress_evidence example_congress_opened = (Ok tt, ca1) ∧
    congress_dispatch (mkReviewedPermit example_permit) (example_action 4 100) example_view example_congress_evidence ExactClear
      (congress_run example_congress_calls ca1) = (Ok tt, ca2) ∧
    ∃ r reduction, ca_reviews ca2 !! 1 = Some r ∧ evaluate (rg_congress r) ExactClear = Ok (ReviewReady reduction) ∧
      4 ≤ rn_permit_weight reduction.
Proof.
  destruct (congress_propose 1 (example_action 4 100) example_view example_congress_evidence example_congress_opened) as [out ca1] eqn:E1.
  assert (out = Ok tt) as -> by (apply (f_equal fst) in E1; vm_compute in E1; by rewrite <-E1).
  destruct (congress_dispatch (mkReviewedPermit example_permit) (example_action 4 100) example_view example_congress_evidence ExactClear
      (congress_run example_congress_calls ca1)) as [out ca2] eqn:E2.
  assert (out = Ok tt) as ->.
  { apply (f_equal fst) in E2. cbn [fst] in E2. rewrite <-E2.
    replace ca1 with (congress_propose 1 (example_action 4 100) example_view example_congress_evidence example_congress_opened).2 by (by rewrite E1).
    by vm_compute. }
  exists ca1, ca2. split; [done|]. split; [done|].
  destruct (congress_dispatch_is_reviewed example_congress_opened 1 (example_action 4 100) example_view example_congress_evidence ca1
    example_congress_calls (mkReviewedPermit example_permit) (example_action 4 100) example_view example_congress_evidence ExactClear ca2
    example_congress_reached example_propose_typed E1) as (_ & _ & _ & _ & root & r & reduction & _ & Hr & Hready & _ & Hmin & _).
  - unfold example_congress_calls. repeat (apply Forall_cons_2; [done|]). apply Forall_nil_2.
  - do 2 (split; [unfold is_u64; by vm_compute|]). apply example_action_in_range; unfold is_u64; lia.
  - done.
  - exact E2.
  - by exists r, reduction.
Defined.
