(* ===== verification/Tokens.v ===== *)
(** * Tokens and the nodes of an encoding

    The data of [tokenizer.rs] (under
    [action/consequence/activation/monitor/decoder/sampled/generation/]): a
    vocabulary, merge rules, budgets, and the doubly linked nodes over the bytes
    of an input that the passes of an encoding share. *)

From stdpp Require Import base tactics numbers list gmap.
From S2P Require Import Prelude Bytes Judgment Orders.

Local Open Scope Z_scope.

(** ** Data

    Token identifiers and ranks are [Z]; positions in the input and in a vector
    are [nat], since they never exceed its length. *)

Definition MAX_INPUT_BYTES : Z := 65536.
Definition MAX_TOKEN_BYTES : Z := 4096.
Definition MAX_VOCABULARY_BYTES : Z := 8 * 1048576.
Definition MAX_MERGES : Z := 131072.
Definition MAX_CONTROL_TOKENS : Z := 256.
Definition MAX_PAIR_LOOKUPS : Z := 3 * MAX_INPUT_BYTES.
Definition MAX_HEAP_POPS : Z := 3 * MAX_INPUT_BYTES.
Definition MAX_DECODE_BYTES : Z := 4 * 1048576.
Definition MAX_DECODER_VOCABULARY : Z := 65536.

Inductive TokenBytes :=
  | Content (value : bytes)
  | Control.

Record Merge := mkMerge { mg_left : Z; mg_right : Z; mg_result : Z }.

Record TokenizationBudget := mkTokenizationBudget {
  tb_input_bytes : Z;
  tb_pair_lookups : Z;
  tb_heap_pops : Z;
}.
Definition default_tokenization_budget : TokenizationBudget :=
  mkTokenizationBudget MAX_INPUT_BYTES MAX_PAIR_LOOKUPS MAX_HEAP_POPS.

Record TokenizationWork := mkTokenizationWork {
  tw_input_bytes : Z;
  tw_pair_lookups : Z;
  tw_heap_pops : Z;
  tw_merges : Z;
}.
Definition default_tokenization_work : TokenizationWork := mkTokenizationWork 0 0 0 0.

Record TokenizationFailure := mkTokenizationFailure { tf_error : Error; tf_work : TokenizationWork }.

(** [vocabulary.get(token as usize)] *)
Definition vocabulary_get (vocabulary : list TokenBytes) (token : Z) : option TokenBytes :=
  vocabulary !! Z.to_nat token.

Definition content (vocabulary : list TokenBytes) (token : Z) : res Error bytes :=
  entry ← ok_or (vocabulary_get vocabulary token) Missing;
  match entry with
  | Content value => mret value
  | Control => mthrow Binding
  end.

(** ** Nodes *)

Record Node := mkNode {
  nd_token : Z;
  nd_end : nat;
  nd_previous : option nat;
  nd_next : option nat;
  nd_live : bool;
  nd_boundary_before : bool;
}.

(** [node.token = token; node.end = end; node.next = next] *)
Definition widen_node (token : Z) (stop : nat) (next : option nat) (self : Node) : Node :=
  mkNode token stop (nd_previous self) next (nd_live self) (nd_boundary_before self).
(** [node.live = false] *)
Definition kill_node (self : Node) : Node :=
  mkNode (nd_token self) (nd_end self) (nd_previous self) (nd_next self) false (nd_boundary_before self).
(** [node.previous = previous] *)
Definition set_node_previous (previous : option nat) (self : Node) : Node :=
  mkNode (nd_token self) (nd_end self) previous (nd_next self) (nd_live self) (nd_boundary_before self).
(** [node.boundary_before = true] *)
Definition mark_boundary (self : Node) : Node :=
  mkNode (nd_token self) (nd_end self) (nd_previous self) (nd_next self) (nd_live self) true.

(** [nodes[index]], which aborts out of range, and an assignment through it. *)
Definition node_at (nodes : list Node) (index : nat) : res Error Node := expect (nodes !! index).
Definition update_node (index : nat) (f : Node → Node) (nodes : list Node) : res Error (list Node) :=
  node ← node_at nodes index; mret (<[index := f node]> nodes).

(** [for node in &mut nodes[start + 1..end] { node.live = false; }] *)
Fixpoint kill_range (start count : nat) (nodes : list Node) : res Error (list Node) :=
  match count with
  | O => mret nodes
  | S count => nodes ← update_node start kill_node nodes; kill_range (S start) count nodes
  end.

(** A span becomes one node of a literal token, as [special.rs] and
    [whole_piece.rs] both write it out:
<<
    nodes[start].token = token;
    nodes[start].end = end;
    nodes[start].next = (end < nodes.len()).then_some(end);
    for node in &mut nodes[start + 1..end] { node.live = false; }
    if end < nodes.len() { nodes[end].previous = Some(start); }
>> *)
Definition bind_span (start stop : nat) (token : Z) (nodes : list Node) : res Error (list Node) :=
  let next := if bool_decide (stop < length nodes)%nat then Some stop else None in
  nodes ← update_node start (widen_node token stop next) nodes;
  nodes ← (if bool_decide (S start ≤ stop ≤ length nodes)%nat
           then kill_range (S start) (stop - S start) nodes else Panic);
  if bool_decide (stop < length nodes)%nat
  then update_node stop (set_node_previous (Some start)) nodes
  else mret nodes.

(** ** Candidates

    The derived order compares the fields in their order. *)

Record Candidate := mkCandidate {
  cd_rank : Z;
  cd_left : nat;
  cd_right : nat;
  cd_left_token : Z;
  cd_right_token : Z;
  cd_result : Z;
}.

Definition candidate_fields (self : Candidate) : Z * (nat * (nat * (Z * (Z * Z)))) :=
  (cd_rank self, (cd_left self, (cd_right self, (cd_left_token self, (cd_right_token self, cd_result self))))).

#[global] Instance candidate_fields_inj : Inj (=) (=) candidate_fields.
Proof. by intros [] [] [=]; subst. Qed.

#[global] Instance candidate_order : KeyOrder Candidate := projected_order candidate_fields.
#[global] Instance candidate_order_laws : KeyOrderLaws Candidate := projected_order_laws candidate_fields _.

(** [BinaryHeap<Reverse<Candidate>>]: the candidates in the order in which
    [pop] removes them. *)
Fixpoint heap_push (candidate : Candidate) (heap : list Candidate) : list Candidate :=
  match heap with
  | [] => [candidate]
  | first :: rest => if key_leb candidate first then candidate :: heap else first :: heap_push candidate rest
  end.

#[global] Instance TokenBytes_eq_dec : EqDecision TokenBytes.
Proof. solve_decision. Defined.
#[global] Instance Merge_eq_dec : EqDecision Merge.
Proof. solve_decision. Defined.
#[global] Instance Node_eq_dec : EqDecision Node.
Proof. solve_decision. Defined.
#[global] Instance TokenizationWork_eq_dec : EqDecision TokenizationWork.
Proof. solve_decision. Defined.
