(* ===== verification/SpecialTokens.v ===== *)
(** * Named controls

    [tokenizer/special.rs]: exact spellings of named control tokens, found by an
    automaton over the reversed names before the merge pass. *)

From Stdlib Require Import Strings.Byte.
From stdpp Require Import base tactics numbers list gmap.
From S2P Require Import Prelude Bytes Judgment Tokens.

Local Open Scope Z_scope.

(** ** Model *)

Definition MAX_SPECIAL_TOKEN_BYTES : Z := 65536.

Record Match := mkMatch { mt_token : Z; mt_len : nat }.

(** The edges of a state are keyed by the value of their byte. *)
Record SpecialState := mkSpecialState {
  ss_edges : gmap Z nat;
  ss_failure : nat;
  ss_longest : option Match;
}.
Definition default_special_state : SpecialState := mkSpecialState ∅ 0 None.
Definition set_failure (failure : nat) (self : SpecialState) : SpecialState :=
  mkSpecialState (ss_edges self) failure (ss_longest self).
Definition set_longest (longest : option Match) (self : SpecialState) : SpecialState :=
  mkSpecialState (ss_edges self) (ss_failure self) longest.
Definition add_edge (b : byte) (next : nat) (self : SpecialState) : SpecialState :=
  mkSpecialState (<[byte_val b := next]> (ss_edges self)) (ss_failure self) (ss_longest self).

Record SpecialTokens := mkSpecialTokens {
  sp_names : gmap Z bytes;
  sp_states : list SpecialState;
}.
Definition default_special_tokens : SpecialTokens := mkSpecialTokens ∅ [].

(** [for (id, name) in &names]: bounds, before any spelling is looked at. *)
Fixpoint check_names (vocabulary : list TokenBytes) (total : Z) (names : list (Z * bytes)) : res Error Z :=
  match names with
  | [] => mret total
  | (id, name) :: names =>
    refuse_if (negb (bool_decide (vocabulary_get vocabulary id = Some Control))) Binding;;
    refuse_if (bool_decide (name = [])) InvalidInput;;
    refuse_if (MAX_TOKEN_BYTES <? len name) Limit;;
    total ← ok_or (u64_checked_add total (len name)) Limit;
    refuse_if (MAX_SPECIAL_TOKEN_BYTES <? total) Limit;;
    check_names vocabulary total names
  end.

(** [for name in names.values()]: spellings are UTF-8 and distinct. *)
Fixpoint check_spellings (unique : gset bytes) (names : list bytes) : res Error unit :=
  match names with
  | [] => mret tt
  | name :: names =>
    refuse_if (negb (utf8_valid name)) InvalidInput;;
    refuse_if (bool_decide (name ∈ unique)) Duplicate;;
    check_spellings ({[name]} ∪ unique) names
  end.

Definition state_at (states : list SpecialState) (state : nat) : res Error SpecialState := expect (states !! state).
Definition update_state (state : nat) (f : SpecialState → SpecialState) (states : list SpecialState) :
    res Error (list SpecialState) :=
  own ← state_at states state; mret (<[state := f own]> states).

(** [for byte in name.iter().rev()] *)
Fixpoint insert_path (states : list SpecialState) (state : nat) (path : bytes) : res Error (list SpecialState * nat) :=
  match path with
  | [] => mret (states, state)
  | b :: path =>
    own ← state_at states state;
    match ss_edges own !! byte_val b with
    | Some next => insert_path states next path
    | None =>
      let next := length states in
      states ← update_state state (add_edge b next) (states ++ [default_special_state]);
      insert_path states next path
    end
  end.

(** [for (id, name) in &names] *)
Fixpoint insert_names (states : list SpecialState) (names : list (Z * bytes)) : res Error (list SpecialState) :=
  match names with
  | [] => mret states
  | (id, name) :: names =>
    '(states, state) ← insert_path states 0 (rev name);
    states ← update_state state (set_longest (Some (mkMatch id (length name)))) states;
    insert_names states names
  end.

(** [while fallback != 0 && !states[fallback].edges.contains_key(&byte)] *)
Fixpoint fall_back (fuel : nat) (states : list SpecialState) (fallback : nat) (b : Z) : res Error nat :=
  match fuel with
  | O => Panic
  | S fuel =>
    own ← state_at states fallback;
    if bool_decide (fallback ≠ O) && bool_decide (ss_edges own !! b = None)
    then fall_back fuel states (ss_failure own) b
    else mret fallback
  end.

(** [states[state].edges.iter().map(|(byte, child)| (state, *byte, *child))] *)
Definition children (state : nat) (own : SpecialState) : list (nat * Z * nat) :=
  (λ edge, (state, edge.1, edge.2)) <$> entries (ss_edges own).

(** The failure state of a child. *)
Definition failure_of (states : list SpecialState) (parent : nat) (b : Z) : res Error nat :=
  if bool_decide (parent = O) then mret O
  else
    own ← state_at states parent;
    fallback ← fall_back (S (length states)) states (ss_failure own) b;
    target ← state_at states fallback;
    mret (default O (ss_edges target !! b)).

(** [candidate.len > own.len], for [inherited] against the state's own match. *)
Definition outgrows (inherited own : option Match) : bool :=
  match inherited with
  | None => false
  | Some candidate => is_none_or own (λ own, bool_decide (mt_len own < mt_len candidate)%nat)
  end.

(** [while at < queue.len()]: [queue] is what is left of it. *)
Fixpoint link_failures (fuel : nat) (states : list SpecialState) (queue : list (nat * Z * nat)) :
    res Error (list SpecialState) :=
  match queue with
  | [] => mret states
  | (parent, b, child) :: queue =>
    match fuel with
    | O => Panic
    | S fuel =>
      failure ← failure_of states parent b;
      states ← update_state child (set_failure failure) states;
      target ← state_at states failure;
      let inherited := ss_longest target in
      own ← state_at states child;
      states ← (if outgrows inherited (ss_longest own) then update_state child (set_longest inherited) states
                else mret states);
      own ← state_at states child;
      link_failures fuel states (queue ++ children child own)
    end
  end.

(** [SpecialTokens::new] *)
Definition special_tokens_new (vocabulary : list TokenBytes) (names : gmap Z bytes) : res Error SpecialTokens :=
  refuse_if (MAX_CONTROL_TOKENS <? Z.of_nat (size names)) Limit;;
  check_names vocabulary 0 (entries names);;
  check_spellings ∅ (map_values names);;
  if bool_decide (names = ∅) then mret default_special_tokens
  else
    states ← insert_names [default_special_state] (entries names);
    root ← state_at states O;
    states ← link_failures (length states) states (children O root);
    mret (mkSpecialTokens names states).

(** The inner [loop] of the backward scan. *)
Fixpoint scan_step (fuel : nat) (states : list SpecialState) (state : nat) (b : Z) : res Error nat :=
  match fuel with
  | O => Panic
  | S fuel =>
    own ← state_at states state;
    match ss_edges own !! b with
    | Some next => mret next
    | None => if bool_decide (state = O) then mret state else scan_step fuel states (ss_failure own) b
    end
  end.

(** [for (start, byte) in source.iter().enumerate().rev()]: the state in front of
    [source] and the match that starts at each of its positions. *)
Fixpoint scan_matches (states : list SpecialState) (source : bytes) : res Error (nat * list (option Match)) :=
  match source with
  | [] => mret (O, [])
  | b :: rest =>
    '(state, matches) ← scan_matches states rest;
    state ← scan_step (S (length states)) states state (byte_val b);
    own ← state_at states state;
    mret (state, ss_longest own :: matches)
  end.

(** [while start < source.len()] *)
Fixpoint bind_matches (fuel : nat) (matches : list (option Match)) (start : nat) (nodes : list Node) :
    res Error (list Node) :=
  match fuel with
  | O => Panic
  | S fuel =>
    match matches !! start with
    | None => mret nodes
    | Some None => bind_matches fuel matches (S start) nodes
    | Some (Some found) =>
      let stop := (start + mt_len found)%nat in
      refuse_if (bool_decide (length nodes < stop)%nat) Binding;;
      nodes ← bind_span start stop (mt_token found) nodes;
      bind_matches fuel matches stop nodes
    end
  end.

(** [SpecialTokens::bind_nodes] *)
Definition special_bind_nodes (self : SpecialTokens) (source : bytes) (nodes : list Node) : res Error (list Node) :=
  refuse_if ((MAX_INPUT_BYTES <? len source) || negb (bool_decide (length nodes = length source))) Limit;;
  if bool_decide (sp_names self = ∅) then mret nodes
  else
    '(_, matches) ← scan_matches (sp_states self) source;
    bind_matches (S (length source)) matches 0 nodes.
