(* ===== verification/Pretokenizer.v ===== *)
(** * Pretokenization

    [tokenizer/pretokenizer.rs]: the finite recognizers of two named grammars,
    which mark where the pieces of ordinary text begin. *)

From Stdlib Require Import Strings.Byte.
From stdpp Require Import base tactics numbers list.
From S2P Require Import Prelude Bytes Judgment Tokens Utf8 Unicode17.

Local Open Scope Z_scope.

(** ** Model *)

Inductive PreTokenization := RawBytes | Gpt2Unicode17 | Llama3Unicode17.
#[global] Instance PreTokenization_eq_dec : EqDecision PreTokenization.
Proof. solve_decision. Defined.

Definition GPT2_PATTERN : bytes :=
  ascii_bytes "'s|'t|'re|'ve|'m|'ll|'d| ?\p{L}+| ?\p{N}+| ?[^\s\p{L}\p{N}]+|\s+(?!\S)|\s+".
Definition LLAMA3_PATTERN : bytes :=
  ascii_bytes "(?i:'s|'t|'re|'ve|'m|'ll|'d)|[^\r\n\p{L}\p{N}]?\p{L}+|\p{N}{1,3}| ?[^\s\p{L}\p{N}]+[\r\n]*|\s*[\r\n]+|\s+(?!\S)|\s+".

(** [PreTokenization::pattern] *)
Definition pre_tokenization_pattern (self : PreTokenization) : option bytes :=
  match self with
  | RawBytes => None
  | Gpt2Unicode17 => Some GPT2_PATTERN
  | Llama3Unicode17 => Some LLAMA3_PATTERN
  end.

(** [PreTokenization::unicode_version] *)
Definition unicode_version (self : PreTokenization) : option (Z * Z * Z) :=
  match self with
  | RawBytes => None
  | Gpt2Unicode17 | Llama3Unicode17 => Some VERSION
  end.

(** Characters that the code names: space, apostrophe, carriage return, newline. *)
Definition space : byte := x20.
Definition apostrophe : byte := x27.
Definition is_newline (c : bytes) : bool := bool_decide (c = [x0d] ∨ c = [x0a]).

(** [chars.take_while(class).map(char::len_utf8).sum()] *)
Fixpoint run_bytes (class : bytes → bool) (cs : list bytes) : nat :=
  match cs with
  | [] => O
  | c :: cs => if class c then (length c + run_bytes class cs)%nat else O
  end.

(** [ending.chars().all(..)], with the length so far. *)
Fixpoint match_ending (insensitive : bool) (ending : bytes) (actual : list bytes) (total : nat) : option nat :=
  match ending with
  | [] => Some total
  | expected :: ending =>
    match actual with
    | [] => None
    | c :: actual =>
      if bool_decide ((if insensitive then fold_simple c else c) = [expected])
      then match_ending insensitive ending actual (total + length c) else None
    end
  end.

Definition contraction_endings : list bytes :=
  [ascii_bytes "s"; ascii_bytes "t"; ascii_bytes "re"; ascii_bytes "ve"; ascii_bytes "m"; ascii_bytes "ll"; ascii_bytes "d"].

(** [for ending in [..]] *)
Fixpoint first_ending (insensitive : bool) (endings : list bytes) (rest : bytes) : nat :=
  match endings with
  | [] => O
  | ending :: endings =>
    match match_ending insensitive ending (chars rest) 1 with
    | Some total => total
    | None => first_ending insensitive endings rest
    end
  end.

Definition contraction (source : bytes) (insensitive : bool) : nat :=
  match source with
  | b :: rest => if bool_decide (b = apostrophe) then first_ending insensitive contraction_endings rest else O
  | [] => O
  end.

Definition optional_space_run (source : bytes) (class : bytes → bool) : nat :=
  let '(prefix, rest) :=
    match source with
    | b :: rest => if bool_decide (b = space) then (1%nat, rest) else (O, source)
    | [] => (O, source)
    end in
  let total := run_bytes class (chars rest) in
  if bool_decide (total = O) then O else (prefix + total)%nat.

Definition llama_letters (source : bytes) : nat :=
  match chars source with
  | [] => O
  | first :: cs =>
    if is_letter first then (length first + run_bytes is_letter cs)%nat
    else if is_newline first || is_number first then O
    else
      let letters := run_bytes is_letter cs in
      if bool_decide (letters = O) then O else (length first + letters)%nat
  end.

Definition is_punctuation (c : bytes) : bool :=
  negb (is_white_space c) && negb (is_letter c) && negb (is_number c).

(** [for (at, c) in source.char_indices().take_while(..)] *)
Fixpoint white_run (cs : list bytes) (at_ last_start stop : nat) : nat * nat :=
  match cs with
  | [] => (last_start, stop)
  | c :: cs =>
    if is_white_space c then white_run cs (at_ + length c) at_ (at_ + length c) else (last_start, stop)
  end.

Definition trailing_whitespace (source : bytes) : nat :=
  let '(last_start, stop) := white_run (chars source) 0 0 0 in
  if bool_decide (stop = length source) || bool_decide (last_start = O) then stop else last_start.

(** The end of the last newline in the white space at the start. *)
Fixpoint last_newline (cs : list bytes) (at_ last : nat) : nat :=
  match cs with
  | [] => last
  | c :: cs =>
    if is_white_space c
    then last_newline cs (at_ + length c) (if is_newline c then (at_ + length c)%nat else last)
    else last
  end.

(** [PreTokenization::piece_length] *)
Definition piece_length (self : PreTokenization) (source : bytes) : nat :=
  if bool_decide (self = RawBytes) then length source
  else
    let llama := bool_decide (self = Llama3Unicode17) in
    let contracted := contraction source llama in
    if bool_decide (contracted ≠ O) then contracted
    else
      let letters := if llama then llama_letters source else optional_space_run source is_letter in
      if bool_decide (letters ≠ O) then letters
      else
        let numbers :=
          if llama then run_bytes is_number (take 3 (chars source)) else optional_space_run source is_number in
        if bool_decide (numbers ≠ O) then numbers
        else
          let punctuation := optional_space_run source is_punctuation in
          if bool_decide (punctuation ≠ O) then
            (punctuation + if llama then run_bytes is_newline (chars (drop punctuation source)) else 0)%nat
          else
            let newline := if llama then last_newline (chars source) 0 0 else O in
            if bool_decide (newline ≠ O) then newline else trailing_whitespace source.

(** ** Marking the pieces *)

(** The closure [control]. *)
Definition node_is_control (vocabulary : list TokenBytes) (node : Node) : bool :=
  bool_decide (vocabulary_get vocabulary (nd_token node) = Some Control).

(** [while end < nodes.len() && !control(&nodes[end])] *)
Fixpoint ordinary_end (fuel : nat) (vocabulary : list TokenBytes) (nodes : list Node) (stop : nat) : res Error nat :=
  match fuel with
  | O => Panic
  | S fuel =>
    match nodes !! stop with
    | None => mret stop
    | Some node =>
      if node_is_control vocabulary node then mret stop else ordinary_end fuel vocabulary nodes (nd_end node)
    end
  end.

(** [source.get(start..end)] *)
Definition str_get (source : bytes) (start stop : nat) : option bytes :=
  if bool_decide (start ≤ stop)%nat && is_char_boundary source start && is_char_boundary source stop
  then Some (take (stop - start) (drop start source)) else None.

(** [while at < ordinary.len()]; slicing between two bytes of a character aborts. *)
Fixpoint mark_pieces (fuel : nat) (self : PreTokenization) (ordinary : bytes) (start at_ : nat) (nodes : list Node) :
    res Error (list Node) :=
  match fuel with
  | O => Panic
  | S fuel =>
    if bool_decide (at_ < length ordinary)%nat then
      nodes ← update_node (start + at_) mark_boundary nodes;
      rest ← expect (str_get ordinary at_ (length ordinary));
      let total := piece_length self rest in
      refuse_if (bool_decide (total = O)) Binding;;
      mark_pieces fuel self ordinary start (at_ + total) nodes
    else mret nodes
  end.

(** [while start < nodes.len()] *)
Fixpoint bind_pieces (fuel : nat) (self : PreTokenization) (source : bytes) (vocabulary : list TokenBytes)
    (start : nat) (nodes : list Node) : res Error (list Node) :=
  match fuel with
  | O => Panic
  | S fuel =>
    match nodes !! start with
    | None => mret nodes
    | Some node =>
      if node_is_control vocabulary node then bind_pieces fuel self source vocabulary (nd_end node) nodes
      else
        stop ← ordinary_end (S (length nodes)) vocabulary nodes start;
        ordinary ← ok_or (str_get source start stop) Binding;
        nodes ← mark_pieces (S (length ordinary)) self ordinary start 0 nodes;
        bind_pieces fuel self source vocabulary stop nodes
    end
  end.

(** [PreTokenization::bind_nodes] *)
Definition pretokenize_bind_nodes (self : PreTokenization) (source : bytes) (nodes : list Node)
    (vocabulary : list TokenBytes) : res Error (list Node) :=
  refuse_if (negb (bool_decide (length source = length nodes))) Binding;;
  bind_pieces (S (length nodes)) self source vocabulary 0 nodes.
