(* ===== verification/Patterns.v ===== *)
(** * What the two patterns mean

    The regular expressions that the source gives as text, as trees that print
    to that text, with the semantics of a backtracking matcher: the lengths of
    all matches at a position, in the order in which they are tried.  The match
    is the first of them. *)

From Stdlib Require Import Strings.Byte.
From stdpp Require Import base tactics numbers list.
From S2P Require Import Prelude Bytes Tokens Utf8 Unicode17 Pretokenizer.

(** ** Patterns *)

Inductive charset :=
  | One (b : byte)      (** a literal character *)
  | Letter              (** [\p{L}] *)
  | Number              (** [\p{N}] *)
  | White               (** [\s] *)
  | NotWhite            (** [\S] *)
  | Newline             (** a carriage return or a newline *)
  | Symbol              (** none of [\s], [\p{L}], [\p{N}] *)
  | Lead.               (** no newline, [\p{L}] or [\p{N}] *)

Inductive pattern :=
  | Once (s : charset)
  | Optional (s : charset)
  | OneOrMore (s : charset)
  | ZeroOrMore (s : charset)
  | Between (s : charset) (lo hi : nat)
  | NotAhead (s : charset)
  | Both (p q : pattern)
  | Either (p q : pattern)
  | Insensitive (p : pattern).

(** ** Semantics *)

(** [fold] is set inside of a case-insensitive group. *)
Definition in_set (fold : bool) (s : charset) (c : bytes) : bool :=
  match s with
  | One b => bool_decide ((if fold then fold_simple c else c) = [b])
  | Letter => is_letter c
  | Number => is_number c
  | White => is_white_space c
  | NotWhite => negb (is_white_space c)
  | Newline => is_newline c
  | Symbol => negb (is_white_space c) && negb (is_letter c) && negb (is_number c)
  | Lead => negb (is_newline c) && negb (is_letter c) && negb (is_number c)
  end.

(** How many characters in a row are in a class. *)
Fixpoint run_of (class : bytes → bool) (cs : list bytes) : nat :=
  match cs with
  | [] => 0
  | c :: cs => if class c then S (run_of class cs) else 0
  end.

(** The numbers from [hi] down to [lo], as a greedy repetition tries them. *)
Fixpoint downto (lo hi : nat) : list nat :=
  if bool_decide (hi < lo) then [] else hi :: match hi with O => [] | S hi => downto lo hi end.

Fixpoint matches (fold : bool) (p : pattern) (cs : list bytes) : list nat :=
  match p with
  | Once s => match cs with c :: _ => if in_set fold s c then [1] else [] | [] => [] end
  | Optional s => downto 0 (Nat.min 1 (run_of (in_set fold s) cs))
  | OneOrMore s => downto 1 (run_of (in_set fold s) cs)
  | ZeroOrMore s => downto 0 (run_of (in_set fold s) cs)
  | Between s lo hi => downto lo (Nat.min hi (run_of (in_set fold s) cs))
  | NotAhead s => match cs with c :: _ => if in_set fold s c then [] else [0] | [] => [0] end
  | Both p q => matches fold p cs ≫= λ n, (λ m, n + m) <$> matches fold q (drop n cs)
  | Either p q => matches fold p cs ++ matches fold q cs
  | Insensitive p => matches true p cs
  end.

(** ** Notation *)

Definition set_text (s : charset) : bytes :=
  match s with
  | One b => [b]
  | Letter => ascii_bytes "\p{L}"
  | Number => ascii_bytes "\p{N}"
  | White => ascii_bytes "\s"
  | NotWhite => ascii_bytes "\S"
  | Newline => ascii_bytes "[\r\n]"
  | Symbol => ascii_bytes "[^\s\p{L}\p{N}]"
  | Lead => ascii_bytes "[^\r\n\p{L}\p{N}]"
  end.

Definition digit_text (n : nat) : bytes := [byte_of (48 + Z.of_nat n)].

Fixpoint pattern_text (p : pattern) : bytes :=
  match p with
  | Once s => set_text s
  | Optional s => set_text s ++ ascii_bytes "?"
  | OneOrMore s => set_text s ++ ascii_bytes "+"
  | ZeroOrMore s => set_text s ++ ascii_bytes "*"
  | Between s lo hi => set_text s ++ ascii_bytes "{" ++ digit_text lo ++ ascii_bytes "," ++ digit_text hi ++ ascii_bytes "}"
  | NotAhead s => ascii_bytes "(?!" ++ set_text s ++ ascii_bytes ")"
  | Both p q => pattern_text p ++ pattern_text q
  | Either p q => pattern_text p ++ ascii_bytes "|" ++ pattern_text q
  | Insensitive p => ascii_bytes "(?i:" ++ pattern_text p ++ ascii_bytes ")"
  end.

(** ** The two patterns *)

Fixpoint literal (first : byte) (rest : bytes) : pattern :=
  match rest with
  | [] => Once (One first)
  | b :: rest => Both (Once (One first)) (literal b rest)
  end.

Fixpoint alternatives (p : pattern) (ps : list pattern) : pattern :=
  match ps with
  | [] => p
  | q :: ps => Either p (alternatives q ps)
  end.

Definition contraction_pattern : pattern :=
  alternatives (literal apostrophe (ascii_bytes "s")) (literal apostrophe <$> tail contraction_endings).

Definition spaced_run (s : charset) : pattern := Both (Optional (One space)) (OneOrMore s).
Definition trailing_pattern : list pattern := [Both (OneOrMore White) (NotAhead NotWhite); OneOrMore White].

Definition gpt2_pattern : pattern :=
  alternatives (literal apostrophe (ascii_bytes "s"))
    ((literal apostrophe <$> tail contraction_endings) ++
     [spaced_run Letter; spaced_run Number; spaced_run Symbol] ++ trailing_pattern).

Definition llama3_pattern : pattern :=
  alternatives (Insensitive contraction_pattern)
    ([Both (Optional Lead) (OneOrMore Letter); Between Number 1 3;
      Both (spaced_run Symbol) (ZeroOrMore Newline); Both (ZeroOrMore White) (OneOrMore Newline)] ++ trailing_pattern).

Lemma gpt2_pattern_text : pattern_text gpt2_pattern = GPT2_PATTERN.
Proof. vm_compute. reflexivity. Qed.
Lemma llama3_pattern_text : pattern_text llama3_pattern = LLAMA3_PATTERN.
Proof. vm_compute. reflexivity. Qed.
