(* ===== verification/PatternExact.v ===== *)
(** * The recognizers compute the patterns

    [piece_length] returns the length of the match that a backtracking matcher
    finds for the pattern's text; it is never empty on ordinary text. *)

From Stdlib Require Import Strings.Byte.
From stdpp Require Import base tactics numbers list.
From S2P Require Import Prelude Bytes Tokens Utf8 Unicode17 Pretokenizer Patterns.

(** ** Lengths in characters and in bytes *)

Definition bytes_of (k : nat) (cs : list bytes) : nat := length (concat (take k cs)).
Definition inhabited_chars (cs : list bytes) : Prop := Forall (λ c, c ≠ []) cs.

Lemma bytes_of_zero cs : bytes_of 0 cs = 0.
Proof. done. Qed.
Lemma bytes_of_S k c cs : bytes_of (S k) (c :: cs) = length c + bytes_of k cs.
Proof. unfold bytes_of. simpl. by rewrite length_app. Qed.

Lemma bytes_of_add j k cs : bytes_of (j + k) cs = bytes_of j cs + bytes_of k (drop j cs).
Proof.
  revert cs. induction j as [|j IH]; intros [|c cs]; [done|done|unfold bytes_of; by rewrite drop_nil, !take_nil|].
  simpl Nat.add. rewrite !bytes_of_S, IH. simpl. lia.
Qed.

Lemma bytes_of_positive k cs : inhabited_chars cs → 0 < k → 0 < length cs → 0 < bytes_of k cs.
Proof.
  intros Hcs Hk Hlen. destruct k as [|k], cs as [|c cs]; simpl in *; try lia. rewrite bytes_of_S.
  apply Forall_cons in Hcs as [Hc _]. destruct c; [done|simpl; lia].
Qed.

Lemma bytes_of_all k cs : inhabited_chars cs → k ≤ length cs → bytes_of k cs = length (concat cs) → k = length cs.
Proof.
  intros Hcs Hk Heq. destruct (decide (k = length cs)) as [|Hne]; [done|]. exfalso.
  assert (0 < bytes_of (length cs - k) (drop k cs)) as Hpos.
  { apply bytes_of_positive; [by apply Forall_drop|lia|rewrite length_drop; lia]. }
  pose proof (bytes_of_add k (length cs - k) cs) as Hadd. replace (k + (length cs - k)) with (length cs) in Hadd by lia.
  unfold bytes_of at 1 in Hadd. rewrite firstn_all in Hadd. lia.
Qed.

(** ** Runs *)

Lemma run_of_le class cs : run_of class cs ≤ length cs.
Proof. induction cs as [|c cs IH]; simpl; [lia|]. case_match; lia. Qed.

Lemma run_bytes_eq class cs : run_bytes class cs = bytes_of (run_of class cs) cs.
Proof. induction cs as [|c cs IH]; simpl; [done|]. destruct (class c); [|done]. by rewrite bytes_of_S, IH. Qed.

Lemma run_of_drop class cs n : n ≤ run_of class cs → run_of class (drop n cs) = run_of class cs - n.
Proof.
  revert cs. induction n as [|n IH]; intros [|c cs]; simpl; [lia..|]. destruct (class c); [|lia]. intros Hn. rewrite IH by lia. lia.
Qed.

Lemma run_of_take class cs n : run_of class (take n cs) = Nat.min n (run_of class cs).
Proof. revert cs. induction n as [|n IH]; intros [|c cs]; simpl; try lia. destruct (class c); [|lia]. rewrite IH. lia. Qed.

(** ** Recognition *)

(** [n] is the length in bytes of the match of [p], or 0 if there is none. *)
Definition tells (fold : bool) (p : pattern) (cs : list bytes) (n : nat) : Prop :=
  match head (matches fold p cs) with
  | Some k => 0 < k ∧ k ≤ length cs ∧ n = bytes_of k cs
  | None => n = 0
  end.

Lemma tells_either fold p q cs n m :
  inhabited_chars cs → tells fold p cs n → tells fold q cs m →
  tells fold (Either p q) cs (if bool_decide (n ≠ 0) then n else m).
Proof.
  intros Hcs. unfold tells. simpl. destruct (matches fold p cs) as [|k ks]; simpl.
  - intros ->. done.
  - intros (Hk & Hle & ->) _. rewrite bool_decide_eq_true_2; [done|].
    pose proof (bytes_of_positive k cs Hcs Hk). lia.
Qed.

Lemma head_fmap {A B} (f : A → B) l : head (f <$> l) = f <$> head l.
Proof. by destruct l. Qed.

Lemma head_downto lo hi : head (downto lo hi) = if bool_decide (hi < lo) then None else Some hi.
Proof. destruct hi; simpl; by case_bool_decide. Qed.

Lemma tells_one_or_more fold s cs : tells fold (OneOrMore s) cs (run_bytes (in_set fold s) cs).
Proof.
  unfold tells. cbn [matches]. rewrite head_downto, run_bytes_eq. pose proof (run_of_le (in_set fold s) cs).
  case_bool_decide; [|split_and!; [lia|lia|done]]. by replace (run_of (in_set fold s) cs) with 0 by lia.
Qed.

Lemma tells_between fold s cs : tells fold (Between s 1 3) cs (run_bytes (in_set fold s) (take 3 cs)).
Proof.
  unfold tells. cbn [matches]. rewrite head_downto, run_bytes_eq, run_of_take. pose proof (run_of_le (in_set fold s) cs).
  assert (bytes_of (Nat.min 3 (run_of (in_set fold s) cs)) (take 3 cs) = bytes_of (Nat.min 3 (run_of (in_set fold s) cs)) cs) as ->.
  { unfold bytes_of. rewrite take_take. do 3 f_equal. lia. }
  case_bool_decide as H3; [|split_and!; [lia|lia|done]]. replace (Nat.min 3 (run_of (in_set fold s) cs)) with 0 by lia. done.
Qed.

(** *** Literals *)

Fixpoint spelled (fold : bool) (bs : bytes) (cs : list bytes) : bool :=
  match bs, cs with
  | [], _ => true
  | b :: bs, c :: cs => in_set fold (One b) c && spelled fold bs cs
  | _ :: _, [] => false
  end.

Lemma matches_literal fold b bs cs :
  matches fold (literal b bs) cs = if spelled fold (b :: bs) cs then [S (length bs)] else [].
Proof.
  revert b cs. induction bs as [|b' bs IH]; intros b [|c cs]; [done| |done|].
  - cbn [literal matches spelled]. by destruct (in_set fold (One b) c).
  - cbn [literal matches]. change (spelled fold (b :: b' :: bs) (c :: cs)) with (in_set fold (One b) c && spelled fold (b' :: bs) cs).
    destruct (in_set fold (One b) c); [|done]. cbn [mbind list_bind andb]. change (drop 1 (c :: cs)) with cs.
    rewrite IH, app_nil_r. case_match; done.
Qed.

Lemma spelled_length fold bs cs : spelled fold bs cs = true → length bs ≤ length cs.
Proof. revert cs. induction bs as [|b bs IH]; intros [|c cs]; simpl; try lia. intros [_ H%IH]%andb_true_iff. lia. Qed.

Lemma match_ending_eq fold bs cs total :
  match_ending fold bs cs total = if spelled fold bs cs then Some (total + bytes_of (length bs) cs) else None.
Proof.
  revert cs total. induction bs as [|b bs IH]; intros cs total; simpl; [by rewrite bytes_of_zero, Nat.add_0_r|].
  destruct cs as [|c cs]; [done|]. rewrite bytes_of_S, IH.
  case_bool_decide; simpl; [|done]. destruct (spelled fold bs cs); [|done]. f_equal. lia.
Qed.

(** An apostrophe is the only character that folds to one. *)
Lemma fold_apostrophe c : fold_simple c = [apostrophe] ↔ c = [apostrophe].
Proof.
  split; [|intros ->; vm_compute; reflexivity]. unfold fold_simple.
  destruct (list_find _ SIMPLE_FOLD) as [[i entry]|] eqn:Hfind; [|done]. apply list_find_Some in Hfind as (Hi & _ & _).
  assert (forallb (λ e, negb (bool_decide (encode_utf8 e.2 = [apostrophe]))) SIMPLE_FOLD = true) as Hall by (vm_compute; reflexivity).
  rewrite forallb_forall in Hall. apply list_elem_of_lookup_2, list_elem_of_In in Hi. specialize (Hall _ Hi).
  apply negb_true_iff, bool_decide_eq_false in Hall. done.
Qed.

Lemma in_set_apostrophe fold c : in_set fold (One apostrophe) c = bool_decide (c = [apostrophe]).
Proof. simpl. destruct fold; [|done]. apply bool_decide_ext. apply fold_apostrophe. Qed.

Lemma tells_literal fold ending cs :
  tells fold (literal apostrophe ending) cs
    (if spelled fold (apostrophe :: ending) cs then bytes_of (S (length ending)) cs else 0).
Proof.
  unfold tells. rewrite matches_literal. destruct (spelled fold (apostrophe :: ending) cs) eqn:E; [|done].
  apply spelled_length in E. simpl in *. split_and!; [lia|lia|done].
Qed.

Lemma tells_alternatives fold ps p cs (f : pattern → nat) :
  inhabited_chars cs → tells fold p cs (f p) → Forall (λ q, tells fold q cs (f q)) ps →
  tells fold (alternatives p ps) cs (foldr (λ n m, if bool_decide (n ≠ 0) then n else m) 0 (f <$> p :: ps)).
Proof.
  intros Hcs. revert p. induction ps as [|q ps IH]; intros p Hp Hps; cbn [alternatives].
  - simpl. case_bool_decide as H; [done|]. by replace 0 with (f p) by lia.
  - apply Forall_cons in Hps as [Hq Hps]. cbn [fmap list_fmap foldr]. apply tells_either; [done|done|]. by apply IH.
Qed.

(** ** Text *)

Lemma chars_inhabited text : utf8_valid text = true → inhabited_chars (chars text).
Proof. intros Hv. eapply Forall_impl; [by apply chars_are_chars|]. intros c. apply is_char_nonempty. Qed.

Lemma bytes_of_length text : bytes_of (length (chars text)) (chars text) = length text.
Proof. unfold bytes_of. by rewrite firstn_all, concat_chars. Qed.

(** Stripping an ASCII character strips the first character. *)
Lemma strip_ascii b text :
  (byte_val b ≤ 127)%Z → utf8_valid text = true →
  match text with
  | b' :: rest => if bool_decide (b' = b) then chars text = [b] :: chars rest else head (chars text) ≠ Some [b]
  | [] => chars text = []
  end.
Proof.
  intros Hb Hv. destruct text as [|b' rest]; [done|]. case_bool_decide as E.
  - subst. rewrite ascii_valid in Hv by done. apply (chars_cons [b] rest); [by apply ascii_char|done].
  - intros H. destruct (chars (b' :: rest)) as [|c cs] eqn:Ec; [done|]. injection H as ->.
    pose proof (concat_chars (b' :: rest)) as Heq. rewrite Ec in Heq. simpl in Heq. by injection Heq as -> _.
Qed.

(** *** Contractions *)

Definition literal_length (fold : bool) (cs : list bytes) (p : bytes) : nat :=
  if spelled fold (apostrophe :: p) cs then bytes_of (S (length p)) cs else 0.

Lemma first_ending_eq fold endings rest :
  first_ending fold endings rest =
  foldr (λ n m, if bool_decide (n ≠ 0) then n else m) 0 (literal_length fold ([apostrophe] :: chars rest) <$> endings).
Proof.
  induction endings as [|ending endings IH]; [done|]. cbn [first_ending fmap list_fmap foldr].
  assert (literal_length fold ([apostrophe] :: chars rest) ending =
    if spelled fold ending (chars rest) then 1 + bytes_of (length ending) (chars rest) else 0) as ->.
  { unfold literal_length. cbn [spelled]. rewrite in_set_apostrophe, bool_decide_eq_true_2 by done. by rewrite bytes_of_S. }
  rewrite match_ending_eq. destruct (spelled fold ending (chars rest)); [by rewrite bool_decide_eq_true_2 by lia|].
  by rewrite bool_decide_eq_false_2 by lia.
Qed.

Lemma contraction_eq fold text :
  utf8_valid text = true →
  contraction text fold =
  foldr (λ n m, if bool_decide (n ≠ 0) then n else m) 0 (literal_length fold (chars text) <$> contraction_endings).
Proof.
  intros Hv. pose proof (strip_ascii apostrophe text ltac:(vm_compute; congruence) Hv) as Hstrip.
  assert (head (chars text) ≠ Some [apostrophe] → ∀ endings,
    foldr (λ n m, if bool_decide (n ≠ 0) then n else m) 0 (literal_length fold (chars text) <$> endings) = 0) as Hnone.
  { intros Hhead. induction endings as [|e endings IH]; [done|]. cbn [fmap list_fmap foldr]. rewrite IH.
    assert (literal_length fold (chars text) e = 0) as ->; [|done].
    unfold literal_length. destruct (chars text) as [|c cs]; [done|]. cbn [spelled].
    by rewrite in_set_apostrophe, bool_decide_eq_false_2 by (intros ->; done). }
  unfold contraction. destruct text as [|b rest]; [by rewrite Hnone|]. case_bool_decide as E.
  - subst. rewrite Hstrip. apply first_ending_eq.
  - by rewrite Hnone.
Qed.

Lemma tells_endings fold text endings p :
  utf8_valid text = true →
  tells fold (alternatives (literal apostrophe p) (literal apostrophe <$> endings)) (chars text)
    (foldr (λ n m, if bool_decide (n ≠ 0) then n else m) 0 (literal_length fold (chars text) <$> p :: endings)).
Proof.
  intros Hv. pose proof (chars_inhabited _ Hv) as Hcs. revert p. induction endings as [|e endings IH]; intros p.
  - cbn [fmap list_fmap foldr alternatives]. pose proof (tells_literal fold p (chars text)) as H.
    change (tells fold (literal apostrophe p) (chars text) (literal_length fold (chars text) p)) in H.
    case_bool_decide as Hz; [done|]. by replace 0 with (literal_length fold (chars text) p) by lia.
  - cbn [fmap list_fmap foldr alternatives]. apply tells_either; [done|apply tells_literal|apply IH].
Qed.

(** *** Runs behind an optional character *)

(** A repetition that follows an optional character, which is not in its class. *)
Lemma tells_optional_run fold o s c cs :
  (∀ c, in_set fold o c = true → in_set fold s c = true → False) → c ≠ [] → inhabited_chars cs →
  tells fold (Both (Optional o) (OneOrMore s)) (c :: cs)
    (if in_set fold o c
     then (if bool_decide (run_bytes (in_set fold s) cs = 0) then 0 else length c + run_bytes (in_set fold s) cs)
     else run_bytes (in_set fold s) (c :: cs)).
Proof.
  intros Hdisjoint Hc Hcs. pose proof (run_of_le (in_set fold s) cs) as Hle.
  unfold tells. cbn [matches]. cbn [run_of]. destruct (in_set fold o c) eqn:Ho.
  - assert (in_set fold s c = false) as Hs.
    { destruct (in_set fold s c) eqn:Hs; [|done]. by destruct (Hdisjoint c Ho Hs). }
    change (Nat.min 1 (S (run_of (in_set fold o) cs))) with 1. cbn [downto mbind list_bind].
    rewrite !bool_decide_eq_false_2 by lia. cbn [mbind list_bind].
    change (drop 1 (c :: cs)) with cs. change (drop 0 (c :: cs)) with (c :: cs). cbn [run_of]. rewrite Hs.
    assert (downto 1 0 = []) as -> by done. cbn [fmap list_fmap app]. rewrite !app_nil_r, run_bytes_eq.
    rewrite head_fmap, head_downto. destruct (decide (run_of (in_set fold s) cs = 0)) as [Hz|Hz].
    + rewrite Hz. rewrite !bool_decide_eq_true_2 by (done || lia). done.
    + rewrite bool_decide_eq_false_2 by lia. cbn [fmap option_fmap option_map].
      rewrite bool_decide_eq_false_2. { rewrite bytes_of_S. simpl. split_and!; [lia|lia|done]. }
      pose proof (bytes_of_positive (run_of (in_set fold s) cs) cs Hcs). lia.
  - change (Nat.min 1 0) with 0. cbn [downto]. rewrite bool_decide_eq_false_2 by lia. cbn [mbind list_bind].
    rewrite app_nil_r. change (drop 0 (c :: cs)) with (c :: cs).
    pose proof (tells_one_or_more fold s (c :: cs)) as H. unfold tells in H. cbn [matches] in H.
    rewrite head_fmap. destruct (head (downto 1 _)); exact H.
Qed.

Lemma tells_empty_run fold o s : tells fold (Both (Optional o) (OneOrMore s)) [] 0.
Proof. done. Qed.

Lemma tells_spaced_run s text :
  utf8_valid text = true → in_set false s [space] = false →
  tells false (spaced_run s) (chars text) (optional_space_run text (in_set false s)).
Proof.
  intros Hv Hs. pose proof (strip_ascii space text ltac:(vm_compute; congruence) Hv) as Hstrip.
  pose proof (chars_inhabited _ Hv) as Hcs.
  assert (∀ c, in_set false (One space) c = bool_decide (c = [space])) as Hone by done.
  assert (∀ c, in_set false (One space) c = true → in_set false s c = true → False) as Hdis.
  { intros c Hc Hsc. rewrite Hone in Hc. apply bool_decide_eq_true in Hc as ->. congruence. }
  unfold optional_space_run. destruct text as [|b rest]; [rewrite Hstrip; simpl; apply tells_empty_run|].
  case_bool_decide as E.
  - subst b. rewrite Hstrip in Hcs |- *. apply Forall_cons in Hcs as [Hc Hcs].
    pose proof (tells_optional_run false (One space) s [space] (chars rest) Hdis Hc Hcs) as H.
    rewrite Hone, bool_decide_eq_true_2 in H by done. exact H.
  - destruct (chars (b :: rest)) as [|c cs] eqn:Ec; [by apply chars_nonempty in Ec|].
    apply Forall_cons in Hcs as [Hc Hcs].
    pose proof (tells_optional_run false (One space) s c cs Hdis Hc Hcs) as H.
    rewrite Hone, bool_decide_eq_false_2 in H by (intros ->; done). cbn zeta.
    case_bool_decide as Hz; [|exact H]. by rewrite Hz in H.
Qed.

Lemma tells_llama_letters text :
  utf8_valid text = true → tells false (Both (Optional Lead) (OneOrMore Letter)) (chars text) (llama_letters text).
Proof.
  intros Hv. pose proof (chars_inhabited _ Hv) as Hcs. unfold llama_letters.
  destruct (chars text) as [|c cs]; [apply tells_empty_run|]. apply Forall_cons in Hcs as [Hc Hcs].
  assert (∀ c, in_set false Lead c = true → in_set false Letter c = true → False) as Hdis.
  { intros c'. simpl. intros [[_ Hn]%andb_true_iff _]%andb_true_iff Hl. by rewrite Hl in Hn. }
  pose proof (tells_optional_run false Lead Letter c cs Hdis Hc Hcs) as H.
  change (in_set false Lead c) with (negb (is_newline c) && negb (is_letter c) && negb (is_number c)) in H.
  destruct (is_letter c) eqn:Hl.
  - rewrite andb_false_r in H. cbn [run_bytes] in H. change (in_set false Letter c) with (is_letter c) in H. rewrite Hl in H. exact H.
  - rewrite andb_true_r in H. rewrite <-negb_orb in H. destruct (is_newline c || is_number c); cbn [negb] in H; [|exact H].
    cbn [run_bytes] in H. change (in_set false Letter c) with (is_letter c) in H. by rewrite Hl in H.
Qed.

(** *** White space *)

Lemma newline_white c : is_newline c = true → is_white_space c = true.
Proof. unfold is_newline. intros [->| ->]%bool_decide_eq_true; vm_compute; reflexivity. Qed.

(** The characters up to the last newline in the white space at the start. *)
Fixpoint newline_chars (cs : list bytes) : nat :=
  match cs with
  | [] => 0
  | c :: cs =>
    if is_white_space c then
      match newline_chars cs with O => if is_newline c then 1 else 0 | S k => S (S k) end
    else 0
  end.

Lemma newline_chars_le cs : newline_chars cs ≤ length cs.
Proof. induction cs as [|c cs IH]; simpl; [lia|]. repeat case_match; lia. Qed.

Lemma last_newline_eq cs at_ last :
  last_newline cs at_ last = if bool_decide (newline_chars cs = 0) then last else at_ + bytes_of (newline_chars cs) cs.
Proof.
  revert at_ last. induction cs as [|c cs IH]; intros at_ last; [done|]. cbn [last_newline newline_chars].
  destruct (is_white_space c); [|done]. rewrite IH. destruct (newline_chars cs) as [|k]; cbn [bool_decide].
  - rewrite bool_decide_eq_true_2 by done. destruct (is_newline c); [|done].
    rewrite bool_decide_eq_false_2 by lia. by rewrite bytes_of_S, bytes_of_zero, Nat.add_0_r.
  - rewrite !bool_decide_eq_false_2 by lia. rewrite (bytes_of_S (S k) c). lia.
Qed.

Lemma downto_S m : downto 0 (S m) = (S <$> downto 0 m) ++ [0].
Proof.
  induction m as [|m IH]; [done|]. cbn [downto] in *. rewrite bool_decide_eq_false_2 in * by lia.
  rewrite IH at 1. done.
Qed.

Lemma head_app {A} (l k : list A) : head (l ++ k) = match head l with Some x => Some x | None => head k end.
Proof. by destruct l. Qed.

Lemma newline_matches cs :
  head (matches false (Both (ZeroOrMore White) (OneOrMore Newline)) cs) =
  if bool_decide (newline_chars cs = 0) then None else Some (newline_chars cs).
Proof.
  assert (∀ cs, matches false (Both (ZeroOrMore White) (OneOrMore Newline)) cs =
    downto 0 (run_of is_white_space cs) ≫= λ n, (λ m, n + m) <$> downto 1 (run_of is_newline (drop n cs))) as Hm by done.
  induction cs as [|c cs IH]; [done|]. rewrite Hm in *. cbn [run_of newline_chars].
  assert (newline_chars cs = 0 → run_of is_newline cs = 0) as Hzero.
  { destruct cs as [|c' cs]; [done|]. cbn [newline_chars run_of]. destruct (is_newline c') eqn:Hn; [|done].
    rewrite (newline_white _ Hn). by destruct (newline_chars cs). }
  destruct (is_white_space c) eqn:Hw.
  - rewrite downto_S, bind_app, head_app.
    assert (∀ l : list nat, head ((S <$> l) ≫= λ n, (λ m, n + m) <$> downto 1 (run_of is_newline (drop n (c :: cs)))) =
      S <$> head (l ≫= λ n, (λ m, n + m) <$> downto 1 (run_of is_newline (drop n cs)))) as ->.
    { induction l as [|x l IHl]; [done|]. cbn [fmap list_fmap mbind list_bind]. rewrite !head_app.
      change (drop (S x) (c :: cs)) with (drop x cs). rewrite !head_fmap. destruct (head (downto 1 _)); [done|]. apply IHl. }
    rewrite IH. destruct (newline_chars cs) as [|k] eqn:Hk; [|done].
    rewrite bool_decide_eq_true_2 by done. cbn [fmap option_fmap option_map mbind list_bind]. rewrite app_nil_r.
    change (drop 0 (c :: cs)) with (c :: cs). cbn [run_of]. destruct (is_newline c) eqn:Hn; [|done].
    by rewrite (Hzero eq_refl).
  - cbn [downto]. rewrite bool_decide_eq_false_2 by lia. cbn [mbind list_bind]. rewrite app_nil_r.
    change (drop 0 (c :: cs)) with (c :: cs). cbn [run_of].
    destruct (is_newline c) eqn:Hn; [by rewrite (newline_white _ Hn) in Hw|done].
Qed.

Lemma tells_last_newline cs : tells false (Both (ZeroOrMore White) (OneOrMore Newline)) cs (last_newline cs 0 0).
Proof.
  unfold tells. rewrite newline_matches, last_newline_eq. pose proof (newline_chars_le cs).
  case_bool_decide; [done|]. split_and!; [lia|lia|done].
Qed.

Lemma white_run_eq cs at_ last_start stop :
  white_run cs at_ last_start stop =
  match run_of is_white_space cs with
  | O => (last_start, stop)
  | S m => (at_ + bytes_of m cs, at_ + bytes_of (S m) cs)
  end.
Proof.
  revert at_ last_start stop. induction cs as [|c cs IH]; intros at_ last_start stop; [done|]. cbn [white_run run_of].
  destruct (is_white_space c); [|done]. rewrite IH. destruct (run_of is_white_space cs) as [|m].
  - by rewrite bytes_of_S, !bytes_of_zero, !Nat.add_0_r.
  - rewrite !bytes_of_S. f_equal; lia.
Qed.

(** Where white space ends: before its last character, unless nothing follows. *)
Lemma trailing_matches cs :
  head (matches false (Either (Both (OneOrMore White) (NotAhead NotWhite)) (OneOrMore White)) cs) =
  match run_of is_white_space cs with
  | O => None
  | S m => Some (if bool_decide (S m = length cs) || bool_decide (m = 0) then S m else m)
  end.
Proof.
  assert (matches false (Either (Both (OneOrMore White) (NotAhead NotWhite)) (OneOrMore White)) cs =
    (downto 1 (run_of is_white_space cs) ≫= λ n, (λ m, n + m) <$> matches false (NotAhead NotWhite) (drop n cs)) ++
    downto 1 (run_of is_white_space cs)) as -> by done.
  pose proof (run_of_le is_white_space cs) as Hle. destruct (run_of is_white_space cs) as [|m] eqn:Hrun; [done|].
  assert (∀ n, n ≤ S m → matches false (NotAhead NotWhite) (drop n cs) =
    if bool_decide (n = S m) && negb (bool_decide (S m = length cs)) then [] else [0]) as Hahead.
  { intros n Hn. pose proof (run_of_drop is_white_space cs n) as Hd. rewrite Hrun in Hd. specialize (Hd Hn).
    pose proof (length_drop cs n) as Hlen. cbn [matches in_set]. destruct (drop n cs) as [|c rest]; cbn [run_of length] in *.
    - rewrite (bool_decide_eq_true_2 (S m = length cs)) by lia. by rewrite andb_false_r.
    - destruct (is_white_space c); cbn [negb].
      + by rewrite (bool_decide_eq_false_2 (n = S m)) by lia.
      + rewrite (bool_decide_eq_true_2 (n = S m)), (bool_decide_eq_false_2 (S m = length cs)) by lia. done. }
  rewrite head_app. cbn [downto]. rewrite bool_decide_eq_false_2 by lia. cbn [mbind list_bind]. rewrite head_app, head_fmap.
  rewrite Hahead by lia. rewrite (bool_decide_eq_true_2 (S m = S m)) by done. cbn [andb].
  destruct (decide (S m = length cs)) as [Hall|Hnot].
  - rewrite (bool_decide_eq_true_2 (S m = length cs)) by done. cbn. by rewrite Nat.add_0_r.
  - rewrite (bool_decide_eq_false_2 (S m = length cs)) by done. cbn [negb head fmap option_fmap option_map orb].
    destruct m as [|m]; [done|]. cbn [downto]. rewrite bool_decide_eq_false_2 by lia. cbn [mbind list_bind].
    rewrite head_app, head_fmap, Hahead by lia. rewrite (bool_decide_eq_false_2 (S m = S (S m))) by lia.
    cbn. by rewrite Nat.add_0_r.
Qed.

Lemma tells_trailing text :
  utf8_valid text = true →
  tells false (Either (Both (OneOrMore White) (NotAhead NotWhite)) (OneOrMore White)) (chars text) (trailing_whitespace text).
Proof.
  intros Hv. pose proof (chars_inhabited _ Hv) as Hcs. unfold tells. rewrite trailing_matches. unfold trailing_whitespace.
  rewrite white_run_eq. pose proof (run_of_le is_white_space (chars text)) as Hle.
  destruct (run_of is_white_space (chars text)) as [|m]; [by case_match|]. simpl Nat.add.
  assert (bool_decide (bytes_of (S m) (chars text) = length text) = bool_decide (S m = length (chars text))) as ->.
  { apply bool_decide_ext. split; [|intros ->; apply bytes_of_length].
    intros Heq. apply bytes_of_all; [done|done|]. by rewrite concat_chars. }
  assert (bool_decide (bytes_of m (chars text) = 0) = bool_decide (m = 0)) as ->.
  { apply bool_decide_ext. split; [|by intros ->]. intros Hz. destruct m; [done|].
    pose proof (bytes_of_positive (S m) (chars text) Hcs). lia. }
  destruct (bool_decide (S m = _) || bool_decide (m = 0)) eqn:E; split_and!; try lia; try done.
  apply orb_false_iff in E as [_ E%bool_decide_eq_false]. lia.
Qed.

(** ** The two grammars *)

Lemma matches_alternatives fold p ps q qs cs :
  matches fold (alternatives p (ps ++ q :: qs)) cs = matches fold (Either (alternatives p ps) (alternatives q qs)) cs.
Proof.
  revert p. induction ps as [|p' ps IH]; intros p; [done|]. cbn [app alternatives]. cbn [matches] in *.
  by rewrite IH, app_assoc.
Qed.

Lemma tells_app fold p ps q qs cs n m :
  inhabited_chars cs → tells fold (alternatives p ps) cs n → tells fold (alternatives q qs) cs m →
  tells fold (alternatives p (ps ++ q :: qs)) cs (if bool_decide (n ≠ 0) then n else m).
Proof. intros Hcs Hp Hq. unfold tells. rewrite matches_alternatives. by apply tells_either. Qed.

Lemma tells_insensitive p cs n : tells true p cs n → tells false (Insensitive p) cs n.
Proof. done. Qed.

(** A symbol run and the newlines behind it. *)
Lemma tells_symbols text :
  utf8_valid text = true →
  tells false (Both (spaced_run Symbol) (ZeroOrMore Newline)) (chars text)
    (let n := optional_space_run text is_punctuation in
     if bool_decide (n ≠ 0) then n + run_bytes is_newline (chars (drop n text)) else 0).
Proof.
  intros Hv. pose proof (tells_spaced_run Symbol text Hv ltac:(vm_compute; reflexivity)) as H.
  change (in_set false Symbol) with is_punctuation in H. unfold tells in *.
  assert (∀ cs, matches false (Both (spaced_run Symbol) (ZeroOrMore Newline)) cs =
    matches false (spaced_run Symbol) cs ≫= λ n, (λ m, n + m) <$> downto 0 (run_of is_newline (drop n cs))) as -> by done.
  destruct (matches false (spaced_run Symbol) (chars text)) as [|k ks]; cbn [head] in H.
  - rewrite H. done.
  - destruct H as (Hk & Hle & ->). cbn [mbind list_bind]. rewrite head_app, head_fmap, head_downto.
    rewrite (bool_decide_eq_false_2 (_ < 0)) by lia. cbn [fmap option_fmap option_map].
    pose proof (bytes_of_positive k (chars text) (chars_inhabited _ Hv) Hk ltac:(lia)) as Hpos. cbn zeta.
    rewrite bool_decide_eq_true_2 by lia.
    destruct (chars_split k text Hv) as (_ & _ & _ & _ & Hdrop). fold (bytes_of k (chars text)) in Hdrop. rewrite Hdrop.
    pose proof (run_of_le is_newline (drop k (chars text))) as Hrun. rewrite length_drop in Hrun.
    split_and!; [lia|lia|]. by rewrite bytes_of_add, run_bytes_eq.
Qed.

Lemma optional_run_nonzero text c cs class :
  utf8_valid text = true → chars text = c :: cs → class c = true → c ≠ [space] → optional_space_run text class ≠ 0.
Proof.
  intros Hv Hc Hclass Hspace. pose proof (strip_ascii space text ltac:(vm_compute; congruence) Hv) as Hstrip.
  pose proof (chars_inhabited _ Hv) as Hcs. rewrite Hc in Hstrip, Hcs. apply Forall_cons in Hcs as [Hne _].
  unfold optional_space_run. destruct text as [|b rest]; [done|]. case_bool_decide as E; [by injection Hstrip as -> _|].
  rewrite Hc. cbn [run_bytes]. rewrite Hclass. destruct c as [|b' c]; [done|]. done.
Qed.

(** Some alternative takes the first character. *)
Lemma piece_length_nonzero grammar text :
  grammar ≠ RawBytes → utf8_valid text = true → text ≠ [] → piece_length grammar text ≠ 0.
Proof.
  intros Hg Hv Hne. unfold piece_length. rewrite bool_decide_eq_false_2 by done. cbn zeta.
  destruct (chars text) as [|c cs] eqn:Hc; [by destruct text; [|apply chars_nonempty in Hc]|].
  pose proof (chars_inhabited _ Hv) as Hcs. rewrite Hc in Hcs. apply Forall_cons in Hcs as [Hcne _].
  assert (0 < length c) as Hlen by (destruct c; [done|simpl; lia]).
  assert (is_white_space c = true → trailing_whitespace text ≠ 0) as Hwhite.
  { intros Hw. pose proof (tells_trailing _ Hv) as Ht. unfold tells in Ht. rewrite trailing_matches, Hc in Ht. cbn [run_of] in Ht.
    rewrite Hw in Ht. destruct Ht as (Hk & Hle & ->). rewrite <-Hc in *.
    pose proof (bytes_of_positive _ _ (chars_inhabited _ Hv) Hk). rewrite Hc in *. simpl in *. lia. }
  assert (is_white_space c = false → c ≠ [space]) as Hspace.
  { intros Hw ->. revert Hw. vm_compute. done. }
  set (llama := bool_decide (grammar = Llama3Unicode17)). clearbody llama.
  case_bool_decide as E1; [done|]. case_bool_decide as E2; [done|]. case_bool_decide as E3; [done|].
  case_bool_decide as E4; [lia|]. case_bool_decide as E5; [done|].
  destruct (is_white_space c) eqn:Hw; [by apply Hwhite|]. specialize (Hspace eq_refl). exfalso.
  assert (is_punctuation c = false) as Hp.
  { destruct (is_punctuation c) eqn:Hp; [|done]. exfalso. revert E4. by apply (optional_run_nonzero text c cs). }
  unfold is_punctuation in Hp. rewrite Hw in Hp. cbn [negb andb] in Hp.
  destruct (is_letter c) eqn:Hl.
  - revert E2. destruct llama; [|by apply (optional_run_nonzero text c cs)]. unfold llama_letters. rewrite Hc, Hl. lia.
  - cbn [negb andb] in Hp. apply negb_false_iff in Hp.
    revert E3. destruct llama; [|by apply (optional_run_nonzero text c cs)]. cbn [take run_bytes]. rewrite Hp. lia.
Qed.

Definition pattern_of (grammar : PreTokenization) : option pattern :=
  match grammar with
  | RawBytes => None
  | Gpt2Unicode17 => Some gpt2_pattern
  | Llama3Unicode17 => Some llama3_pattern
  end.

Lemma tells_piece grammar p text :
  pattern_of grammar = Some p → utf8_valid text = true → tells false p (chars text) (piece_length grammar text).
Proof.
  intros Hp Hv. pose proof (chars_inhabited _ Hv) as Hcs. unfold piece_length.
  pose proof (tells_symbols text Hv) as Hsym. cbn zeta in Hsym.
  pose proof (tells_trailing text Hv) as Htrail.
  destruct grammar; [done|..]; injection Hp as <-; rewrite bool_decide_eq_false_2 by done; cbn zeta.
  - rewrite (bool_decide_eq_false_2 (Gpt2Unicode17 = Llama3Unicode17)) by done. rewrite contraction_eq by done.
    rewrite (bool_decide_eq_false_2 (0 ≠ 0)), Nat.add_0_r by auto. unfold gpt2_pattern.
    apply (tells_app false (literal apostrophe (ascii_bytes "s")) (literal apostrophe <$> tail contraction_endings)); [done| |].
    { apply (tells_endings false text (tail contraction_endings) (ascii_bytes "s") Hv). }
    cbn [app alternatives].
    apply tells_either; [done|apply (tells_spaced_run Letter); [done|vm_compute; reflexivity]|].
    apply tells_either; [done|apply (tells_spaced_run Number); [done|vm_compute; reflexivity]|].
    apply tells_either; [done|apply (tells_spaced_run Symbol); [done|vm_compute; reflexivity]|]. exact Htrail.
  - rewrite (bool_decide_eq_true_2 (Llama3Unicode17 = Llama3Unicode17)) by done. rewrite contraction_eq by done.
    unfold llama3_pattern. cbn [app alternatives].
    apply tells_either; [done|apply (tells_endings true text (tail contraction_endings) (ascii_bytes "s") Hv)|].
    apply tells_either; [done|by apply tells_llama_letters|].
    apply tells_either; [done|apply (tells_between false Number)|].
    pose proof (tells_either false _ _ (chars text) _ _ Hcs (tells_last_newline (chars text)) Htrail) as Hrest.
    destruct (decide (optional_space_run text is_punctuation = 0)) as [Hz|Hz].
    + rewrite (bool_decide_eq_false_2 (_ ≠ 0)) in Hsym |- * by auto.
      pose proof (tells_either false _ _ (chars text) _ _ Hcs Hsym Hrest) as H.
      by rewrite (bool_decide_eq_false_2 (0 ≠ 0)) in H by auto.
    + rewrite (bool_decide_eq_true_2 (_ ≠ 0)) in Hsym |- * by done.
      pose proof (tells_either false _ _ (chars text) _ _ Hcs Hsym Hrest) as H.
      by rewrite (bool_decide_eq_true_2 (_ + _ ≠ 0)) in H by lia.
Qed.

(** C12: A piece of ordinary text is what a backtracking matcher finds for the
    grammar's own regular expression: the tree prints to exactly the pattern
    that the source declares, its first match at the start of the text is never
    empty, and [piece_length] is the length in bytes of that match, whatever
    UTF-8 text follows. *)
Theorem pretokenizer_computes_its_pattern grammar p text :
  pattern_of grammar = Some p → utf8_valid text = true → text ≠ [] →
  pre_tokenization_pattern grammar = Some (pattern_text p) ∧
  ∃ k, head (matches false p (chars text)) = Some k ∧ 0 < k ≤ length (chars text) ∧
    piece_length grammar text = length (concat (take k (chars text))).
Proof.
  intros Hp Hv Hne. split.
  - destruct grammar; [done|injection Hp as <-; by rewrite gpt2_pattern_text|injection Hp as <-; by rewrite llama3_pattern_text].
  - pose proof (tells_piece grammar p text Hp Hv) as Ht. unfold tells in Ht.
    pose proof (piece_length_nonzero grammar text) as Hnz.
    destruct (head (matches false p (chars text))) as [k|]; [|by destruct grammar; naive_solver].
    exists k. naive_solver.
Qed.

Lemma pretokenizer_computes_its_pattern_witness :
  pattern_of Llama3Unicode17 = Some llama3_pattern ∧
  ∃ k, head (matches false llama3_pattern (chars (ascii_bytes "'Ll   two"))) = Some k ∧
    piece_length Llama3Unicode17 (ascii_bytes "'Ll   two") = 3.
Proof.
  split; [reflexivity|].
  destruct (pretokenizer_computes_its_pattern Llama3Unicode17 llama3_pattern (ascii_bytes "'Ll   two"))
    as (_ & k & Hk & _ & _); [reflexivity|vm_compute; reflexivity|done|].
  exists k. split; [exact Hk|vm_compute; reflexivity].
Defined.
