(* ===== verification/Bpe.v ===== *)
(** * The byte BPE tokenizer

    [tokenizer.rs], [tokenizer/whole_piece.rs] and [tokenizer/postprocessor.rs]:
    admission of a vocabulary with its ranked merges, and the cooperative
    encoding, which keeps the candidates of its linked nodes in a heap. *)

From Stdlib Require Import Strings.Byte.
From stdpp Require Import base tactics numbers list gmap sorting.
From S2P Require Import Prelude Bytes Judgment Orders Tokens SpecialTokens Pretokenizer.

Local Open Scope Z_scope.

(** ** The model profile

    A tokenizer is bound to a decoder profile, of which it reads the size of the
    vocabulary.  How a profile is admitted is not part of this model. *)

Record DecoderIdentity := mkDecoderIdentity {
  di_tenant : Z;
  di_model : Z;
  di_model_generation : Z;
  di_tokenizer_generation : Z;
  di_profile_generation : Z;
}.
Record DecoderShape := mkDecoderShape {
  ds_vocabulary : Z;
  ds_hidden : Z;
  ds_intermediate : Z;
  ds_layers : Z;
  ds_query_heads : Z;
  ds_cache_heads : Z;
  ds_context : Z;
}.
Inductive RotaryScaling :=
  | NoRotaryScaling
  | LinearRotaryScaling (factor_bits : Z)
  | Llama3RotaryScaling (factor_bits low_freq_factor_bits high_freq_factor_bits original_max_position_embeddings : Z).
Record DecoderProfile := mkDecoderProfile {
  dp_identity : DecoderIdentity;
  dp_shape : DecoderShape;
  dp_epsilon_bits : Z;
  dp_theta_bits : Z;
  dp_rotary_scaling : RotaryScaling;
  dp_parameters : Z;
}.

(** ** Admission of a vocabulary *)

Inductive MergePolicy := RankedOnly | WholePieceFirst.
#[global] Instance MergePolicy_eq_dec : EqDecision MergePolicy.
Proof. solve_decision. Defined.

Record ByteBpe := mkByteBpe {
  bb_profile : DecoderProfile;
  bb_vocabulary : list TokenBytes;
  bb_merges : list Merge;
  bb_ranks : gmap (Z * Z) (Z * Z);
  bb_singletons : list Z;
  bb_controls : list Z;
  bb_max_content_bytes : nat;
  bb_special : SpecialTokens;
  bb_pre_tokenization : PreTokenization;
  bb_bos_token : option Z;
  bb_merge_policy : MergePolicy;
  bb_whole_piece_tokens : list Z;
}.

(** The first pass over the vocabulary: every length limit. *)
Fixpoint measure_vocabulary (id : Z) (vocabulary : list TokenBytes) (total : Z) (controls : list Z) (longest : nat) :
    res Error (list Z * nat) :=
  match vocabulary with
  | [] => mret (controls, longest)
  | Control :: vocabulary =>
    refuse_if (len controls =? MAX_CONTROL_TOKENS) Limit;;
    measure_vocabulary (id + 1) vocabulary total (controls ++ [id]) longest
  | Content value :: vocabulary =>
    refuse_if (bool_decide (value = [])) InvalidInput;;
    refuse_if (MAX_TOKEN_BYTES <? len value) Limit;;
    total ← ok_or (u64_checked_add total (len value)) Limit;
    refuse_if (MAX_VOCABULARY_BYTES <? total) Limit;;
    measure_vocabulary (id + 1) vocabulary total controls (Nat.max longest (length value))
  end.

(** The second pass: spellings are distinct, single bytes are indexed. *)
Fixpoint index_vocabulary (id : Z) (vocabulary : list TokenBytes) (seen : gset bytes)
    (singletons : list (option Z)) (available : gset Z) : res Error (list (option Z) * gset Z) :=
  match vocabulary with
  | [] => mret (singletons, available)
  | Control :: vocabulary => index_vocabulary (id + 1) vocabulary seen singletons available
  | Content value :: vocabulary =>
    refuse_if (bool_decide (value ∈ seen)) Duplicate;;
    match value with
    | [b] =>
      index_vocabulary (id + 1) vocabulary ({[value]} ∪ seen) (<[Z.to_nat (byte_val b) := Some id]> singletons)
        ({[id]} ∪ available)
    | _ => index_vocabulary (id + 1) vocabulary ({[value]} ∪ seen) singletons available
    end
  end.

(** The ranked rules, each of which concatenates content that is available. *)
Fixpoint admit_merges (vocabulary : list TokenBytes) (rank : Z) (merges : list Merge)
    (ranks : gmap (Z * Z) (Z * Z)) (available : gset Z) : res Error (gmap (Z * Z) (Z * Z) * gset Z) :=
  match merges with
  | [] => mret (ranks, available)
  | rule :: merges =>
    left_bytes ← content vocabulary (mg_left rule);
    right_bytes ← content vocabulary (mg_right rule);
    result ← content vocabulary (mg_result rule);
    refuse_if (negb (bool_decide (mg_left rule ∈ available)) || negb (bool_decide (mg_right rule ∈ available))) Binding;;
    refuse_if (negb (bool_decide (length result = (length left_bytes + length right_bytes)%nat))
               || negb (bool_decide (take (length left_bytes) result = left_bytes))
               || negb (bool_decide (drop (length left_bytes) result = right_bytes))) Binding;;
    refuse_if (bool_decide (is_Some (ranks !! (mg_left rule, mg_right rule)))) Duplicate;;
    admit_merges vocabulary (rank + 1) merges (<[(mg_left rule, mg_right rule) := (rank, mg_result rule)]> ranks)
      ({[mg_result rule]} ∪ available)
  end.

(** The identifiers of the content tokens, in order. *)
Fixpoint content_ids (id : Z) (vocabulary : list TokenBytes) : list Z :=
  match vocabulary with
  | [] => []
  | Content _ :: vocabulary => id :: content_ids (id + 1) vocabulary
  | Control :: vocabulary => content_ids (id + 1) vocabulary
  end.

(** [content(&vocabulary, id).expect("content index")] *)
Definition indexed_content (vocabulary : list TokenBytes) (id : Z) : bytes :=
  match content vocabulary id with Ok value => value | _ => [] end.
Definition piece_le (vocabulary : list TokenBytes) (x y : Z) : Prop :=
  key_le (indexed_content vocabulary x) (indexed_content vocabulary y).
#[global] Instance piece_le_dec vocabulary : RelDecision (piece_le vocabulary).
Proof. intros x y. unfold piece_le, key_le. apply _. Defined.

(** [ByteBpe::new_inner] *)
Definition new_inner (profile : DecoderProfile) (vocabulary : list TokenBytes) (merges : list Merge)
    (merge_policy : MergePolicy) : res Error ByteBpe :=
  refuse_if (negb (len vocabulary =? ds_vocabulary (dp_shape profile))) Binding;;
  refuse_if (len vocabulary <? 256) Incomplete;;
  refuse_if ((MAX_DECODER_VOCABULARY <? len vocabulary) || (MAX_MERGES <? len merges)) Limit;;
  '(controls, max_content_bytes) ← measure_vocabulary 0 vocabulary 0 [] O;
  '(singletons, available) ← index_vocabulary 0 vocabulary ∅ (replicate 256 None) ∅;
  refuse_if (existsb (λ id, bool_decide (id = None)) singletons) Incomplete;;
  '(ranks, available) ← admit_merges vocabulary 0 merges ∅ available;
  refuse_if (bool_decide (merge_policy = RankedOnly)
             && existsb (λ id, negb (bool_decide (id ∈ available))) (content_ids 0 vocabulary)) Incomplete;;
  let whole_piece_tokens :=
    if bool_decide (merge_policy = WholePieceFirst)
    then merge_sort (piece_le vocabulary) (content_ids 0 vocabulary) else [] in
  singletons ← expect (mapM (M:=option) id singletons);
  mret (mkByteBpe profile vocabulary merges ranks singletons controls max_content_bytes default_special_tokens
          RawBytes None merge_policy whole_piece_tokens).

(** [ByteBpe::new] *)
Definition byte_bpe_new (profile : DecoderProfile) (vocabulary : list TokenBytes) (merges : list Merge) : res Error ByteBpe :=
  new_inner profile vocabulary merges RankedOnly.

(** [data.special = special], [data.pre_tokenization = pre_tokenization] and
    [bos_token = bos] on fresh unshared data. *)
Definition set_special (special : SpecialTokens) (d : ByteBpe) : ByteBpe :=
  mkByteBpe (bb_profile d) (bb_vocabulary d) (bb_merges d) (bb_ranks d) (bb_singletons d) (bb_controls d)
    (bb_max_content_bytes d) special (bb_pre_tokenization d) (bb_bos_token d) (bb_merge_policy d) (bb_whole_piece_tokens d).
Definition set_pre_tokenization (pre_tokenization : PreTokenization) (d : ByteBpe) : ByteBpe :=
  mkByteBpe (bb_profile d) (bb_vocabulary d) (bb_merges d) (bb_ranks d) (bb_singletons d) (bb_controls d)
    (bb_max_content_bytes d) (bb_special d) pre_tokenization (bb_bos_token d) (bb_merge_policy d) (bb_whole_piece_tokens d).
Definition set_bos_token (bos : option Z) (d : ByteBpe) : ByteBpe :=
  mkByteBpe (bb_profile d) (bb_vocabulary d) (bb_merges d) (bb_ranks d) (bb_singletons d) (bb_controls d)
    (bb_max_content_bytes d) (bb_special d) (bb_pre_tokenization d) bos (bb_merge_policy d) (bb_whole_piece_tokens d).

Definition new_with_special_tokens (profile : DecoderProfile) (vocabulary : list TokenBytes) (merges : list Merge)
    (names : gmap Z bytes) : res Error ByteBpe :=
  special ← special_tokens_new vocabulary names;
  tokenizer ← byte_bpe_new profile vocabulary merges;
  mret (set_special special tokenizer).

Definition new_with_pre_tokenization (profile : DecoderProfile) (vocabulary : list TokenBytes) (merges : list Merge)
    (names : gmap Z bytes) (pre_tokenization : PreTokenization) : res Error ByteBpe :=
  tokenizer ← new_with_special_tokens profile vocabulary merges names;
  mret (set_pre_tokenization pre_tokenization tokenizer).

Definition new_with_merge_policy (profile : DecoderProfile) (vocabulary : list TokenBytes) (merges : list Merge)
    (names : gmap Z bytes) (pre_tokenization : PreTokenization) (merge_policy : MergePolicy) : res Error ByteBpe :=
  special ← special_tokens_new vocabulary names;
  tokenizer ← new_inner profile vocabulary merges merge_policy;
  mret (set_pre_tokenization pre_tokenization (set_special special tokenizer)).

Definition new_with_bos_token_and_merge_policy (profile : DecoderProfile) (vocabulary : list TokenBytes)
    (merges : list Merge) (names : gmap Z bytes) (bos : Z) (merge_policy : MergePolicy) : res Error ByteBpe :=
  refuse_if (negb (bool_decide (vocabulary_get vocabulary bos = Some Control))
             || negb (bool_decide (is_Some (names !! bos)))) Binding;;
  tokenizer ← new_with_merge_policy profile vocabulary merges names Llama3Unicode17 merge_policy;
  mret (set_bos_token (Some bos) tokenizer).

Definition new_with_bos_token (profile : DecoderProfile) (vocabulary : list TokenBytes) (merges : list Merge)
    (names : gmap Z bytes) (bos : Z) : res Error ByteBpe :=
  new_with_bos_token_and_merge_policy profile vocabulary merges names bos RankedOnly.

Definition content_bytes (self : ByteBpe) (token : Z) : res Error bytes := content (bb_vocabulary self) token.
Definition is_control (self : ByteBpe) (token : Z) : res Error bool :=
  entry ← ok_or (vocabulary_get (bb_vocabulary self) token) Missing;
  mret (bool_decide (entry = Control)).

(** ** Whole pieces *)

(** [while end < nodes.len() && !nodes[end].boundary_before && !control] *)
Fixpoint whole_piece_end (fuel : nat) (self : ByteBpe) (nodes : list Node) (stop : nat) : res Error nat :=
  match fuel with
  | O => Panic
  | S fuel =>
    match nodes !! stop with
    | None => mret stop
    | Some node =>
      if nd_boundary_before node then mret stop
      else
        control ← is_control self (nd_token node);
        if (control : bool) then mret stop else whole_piece_end fuel self nodes (nd_end node)
    end
  end.

(** [source.get(start..end)] *)
Definition source_get (source : bytes) (start stop : nat) : option bytes :=
  if bool_decide (start ≤ stop ≤ length source)%nat then Some (take (stop - start) (drop start source)) else None.

(** [whole_piece_tokens.binary_search_by(..)], on distinct sorted spellings. *)
Definition find_whole_piece (self : ByteBpe) (piece : bytes) : option Z :=
  snd <$> list_find (λ id, indexed_content (bb_vocabulary self) id = piece) (bb_whole_piece_tokens self).

(** [while start < nodes.len()] *)
Fixpoint whole_pieces (fuel : nat) (self : ByteBpe) (source : bytes) (start : nat) (nodes : list Node) :
    res Error (list Node) :=
  match fuel with
  | O => Panic
  | S fuel =>
    match nodes !! start with
    | None => mret nodes
    | Some node =>
      control ← is_control self (nd_token node);
      if (control : bool) then whole_pieces fuel self source (nd_end node) nodes
      else
        stop ← whole_piece_end (S (length nodes)) self nodes (nd_end node);
        nodes ←
          (if bool_decide (stop - start ≤ bb_max_content_bytes self)%nat then
             piece ← ok_or (source_get source start stop) Binding;
             match find_whole_piece self piece with
             | Some token => bind_span start stop token nodes
             | None => mret nodes
             end
           else mret nodes);
        whole_pieces fuel self source stop nodes
    end
  end.

(** [ByteBpe::bind_whole_pieces] *)
Definition bind_whole_pieces (self : ByteBpe) (source : bytes) (nodes : list Node) : res Error (list Node) :=
  if bool_decide (bb_merge_policy self = RankedOnly) then mret nodes
  else whole_pieces (S (length nodes)) self source 0 nodes.

(** ** The cursor *)

Inductive TokenizationProgress := TokenizationPending | TokenizationComplete.
#[global] Instance TokenizationProgress_eq_dec : EqDecision TokenizationProgress.
Proof. solve_decision. Defined.

Inductive EncodingPhase :=
  | Offering (index : nat)
  | Merging
  | Collecting (current : option nat)
  | EncodingComplete
  | EncodingFailed (error : Error).

Record TokenizationCursor := mkTokenizationCursor {
  tc_tokenizer : ByteBpe;
  tc_source : bytes;
  tc_nodes : list Node;
  tc_heap : list Candidate;
  tc_tokens : list Z;
  tc_spans : list (nat * nat);
  tc_budget : TokenizationBudget;
  tc_work : TokenizationWork;
  tc_phase : EncodingPhase;
}.

Record TokenizedInput := mkTokenizedInput {
  ti_tokenizer : ByteBpe;
  ti_source : bytes;
  ti_tokens : list Z;
  ti_spans : list (nat * nat);
  ti_work : TokenizationWork;
}.

Definition set_phase (phase : EncodingPhase) (self : TokenizationCursor) : TokenizationCursor :=
  mkTokenizationCursor (tc_tokenizer self) (tc_source self) (tc_nodes self) (tc_heap self) (tc_tokens self)
    (tc_spans self) (tc_budget self) (tc_work self) phase.
Definition set_nodes (nodes : list Node) (self : TokenizationCursor) : TokenizationCursor :=
  mkTokenizationCursor (tc_tokenizer self) (tc_source self) nodes (tc_heap self) (tc_tokens self)
    (tc_spans self) (tc_budget self) (tc_work self) (tc_phase self).
Definition set_heap_work (p : list Candidate * TokenizationWork) (self : TokenizationCursor) : TokenizationCursor :=
  mkTokenizationCursor (tc_tokenizer self) (tc_source self) (tc_nodes self) p.1 (tc_tokens self)
    (tc_spans self) (tc_budget self) p.2 (tc_phase self).
Definition push_token (token : Z) (span : nat * nat) (self : TokenizationCursor) : TokenizationCursor :=
  mkTokenizationCursor (tc_tokenizer self) (tc_source self) (tc_nodes self) (tc_heap self) (tc_tokens self ++ [token])
    (tc_spans self ++ [span]) (tc_budget self) (tc_work self) (tc_phase self).

Definition set_input_bytes (n : Z) (work : TokenizationWork) : TokenizationWork :=
  mkTokenizationWork n (tw_pair_lookups work) (tw_heap_pops work) (tw_merges work).
(** [work.pair_lookups += 1] and its like *)
Definition count_lookup (work : TokenizationWork) : res Error TokenizationWork :=
  n ← u64_add (tw_pair_lookups work) 1;
  mret (mkTokenizationWork (tw_input_bytes work) n (tw_heap_pops work) (tw_merges work)).
Definition count_pop (work : TokenizationWork) : res Error TokenizationWork :=
  n ← u64_add (tw_heap_pops work) 1;
  mret (mkTokenizationWork (tw_input_bytes work) (tw_pair_lookups work) n (tw_merges work)).
Definition count_merge (work : TokenizationWork) : res Error TokenizationWork :=
  n ← u64_add (tw_merges work) 1;
  mret (mkTokenizationWork (tw_input_bytes work) (tw_pair_lookups work) (tw_heap_pops work) n).

(** [ByteBpe::offer], on the heap and the work. *)
Definition offer (self : ByteBpe) (left_index : nat) (nodes : list Node) (budget : TokenizationBudget) :
    st (list Candidate * TokenizationWork) Error unit :=
  node ← lift (node_at nodes left_index);
  if negb (nd_live node) then mret tt
  else
    match nd_next node with
    | None => mret tt
    | Some right_index =>
      next ← lift (node_at nodes right_index);
      if nd_boundary_before next then mret tt
      else
        '(heap, work) ← get;
        refuse_if (tw_pair_lookups work =? tb_pair_lookups budget) Limit;;
        work ← lift (count_lookup work);
        put (heap, work);;
        match bb_ranks self !! (nd_token node, nd_token next) with
        | Some (rank, result) =>
          put (heap_push (mkCandidate rank left_index right_index (nd_token node) (nd_token next) result) heap, work)
        | None => mret tt
        end
    end.
Definition offer_at (left_index : nat) : st TokenizationCursor Error unit :=
  self ← get;
  zoom (λ self, (tc_heap self, tc_work self)) set_heap_work (λ e, e)
    (offer (tc_tokenizer self) left_index (tc_nodes self) (tc_budget self)).

(** Whether the popped pair is still as it was offered. *)
Definition still_adjacent (candidate : Candidate) (left_node right_node : Node) : bool :=
  nd_live left_node && nd_live right_node && bool_decide (nd_next left_node = Some (cd_right candidate))
  && (nd_token left_node =? cd_left_token candidate) && (nd_token right_node =? cd_right_token candidate).

(** The links of the nodes after a merge. *)
Definition merge_nodes (candidate : Candidate) (nodes : list Node) : res Error (list Node) :=
  right_node ← node_at nodes (cd_right candidate);
  let next := nd_next right_node in
  nodes ← update_node (cd_left candidate) (widen_node (cd_result candidate) (nd_end right_node) next) nodes;
  nodes ← update_node (cd_right candidate) kill_node nodes;
  match next with
  | Some next => update_node next (set_node_previous (Some (cd_left candidate))) nodes
  | None => mret nodes
  end.

(** What follows a valid pop: the merge and the offers of its two neighbours. *)
Definition merge_candidate (candidate : Candidate) : st TokenizationCursor Error unit :=
  self ← get;
  nodes ← lift (merge_nodes candidate (tc_nodes self));
  modify (set_nodes nodes);;
  work ← lift (count_merge (tc_work self));
  modify (set_heap_work (tc_heap self, work));;
  merged ← lift (node_at nodes (cd_left candidate));
  match nd_previous merged with
  | Some previous => offer_at previous
  | None => mret tt
  end;;
  offer_at (cd_left candidate).

(** The arm [EncodingPhase::Merging] with a nonempty heap. *)
Definition pop_candidate : st TokenizationCursor Error unit :=
  self ← get;
  refuse_if (tw_heap_pops (tc_work self) =? tb_heap_pops (tc_budget self)) Limit;;
  work ← lift (count_pop (tc_work self));
  match tc_heap self with
  | [] => lift Panic
  | candidate :: heap =>
    modify (set_heap_work (heap, work));;
    left_node ← lift (node_at (tc_nodes self) (cd_left candidate));
    right_node ← lift (node_at (tc_nodes self) (cd_right candidate));
    if still_adjacent candidate left_node right_node then merge_candidate candidate else mret tt
  end.

(** [TokenizationCursor::advance_inner] *)
Definition encoding_advance_inner : st TokenizationCursor Error TokenizationProgress :=
  self ← get;
  match tc_phase self with
  | EncodingFailed error => mthrow error
  | EncodingComplete => mret TokenizationComplete
  | Offering index =>
    (if bool_decide (index < length (tc_nodes self))%nat
     then offer_at index;; modify (set_phase (Offering (S index)))
     else modify (set_phase Merging));;
    mret TokenizationPending
  | Merging =>
    (if bool_decide (tc_heap self = [])
     then modify (set_phase (Collecting (if bool_decide (tc_nodes self = []) then None else Some O)))
     else pop_candidate);;
    mret TokenizationPending
  | Collecting (Some current) =>
    refuse_if (len (tc_tokens self) =? MAX_INPUT_BYTES) Limit;;
    node ← lift (node_at (tc_nodes self) current);
    modify (push_token (nd_token node) (current, nd_end node));;
    modify (set_phase (Collecting (nd_next node)));;
    mret TokenizationPending
  | Collecting None =>
    modify (set_phase EncodingComplete);;
    mret TokenizationComplete
  end.

(** [TokenizationCursor::advance] *)
Definition encoding_advance : st TokenizationCursor TokenizationFailure TokenizationProgress := λ self,
  match encoding_advance_inner self with
  | (Ok progress, self) => (Ok progress, self)
  | (Err error, self) => (Err (mkTokenizationFailure error (tc_work self)), set_phase (EncodingFailed error) self)
  | (Panic, self) => (Panic, self)
  end.

(** [TokenizationCursor::finish] *)
Definition encoding_finish (self : TokenizationCursor) : res TokenizationFailure TokenizedInput :=
  let error :=
    match tc_phase self with
    | EncodingComplete => None
    | EncodingFailed error => Some error
    | _ => Some Incomplete
    end in
  match error with
  | Some error => Err (mkTokenizationFailure error (tc_work self))
  | None => Ok (mkTokenizedInput (tc_tokenizer self) (tc_source self) (tc_tokens self) (tc_spans self) (tc_work self))
  end.

(** [TokenizationCursor::cancel] *)
Definition encoding_cancel (self : TokenizationCursor) : TokenizationWork := tc_work self.

(** ** Encoding and decoding *)

Definition single_node (self : ByteBpe) (count index : nat) (b : byte) : res Error Node :=
  token ← expect (bb_singletons self !! Z.to_nat (byte_val b));
  mret (mkNode token (S index) (match index with O => None | S previous => Some previous end)
          (if bool_decide (S index < count)%nat then Some (S index) else None) true false).
(** [for (index, byte) in source.iter().enumerate()] *)
Fixpoint single_nodes (self : ByteBpe) (count index : nat) (source : bytes) : res Error (list Node) :=
  match source with
  | [] => mret []
  | b :: source =>
    node ← single_node self count index b;
    nodes ← single_nodes self count (S index) source;
    mret (node :: nodes)
  end.

(** [ByteBpe::begin_encode_inner], on the work. *)
Definition begin_encode_inner (self : ByteBpe) (source : bytes) (budget : TokenizationBudget) :
    st TokenizationWork Error TokenizationCursor :=
  refuse_if ((MAX_INPUT_BYTES <? tb_input_bytes budget) || (MAX_PAIR_LOOKUPS <? tb_pair_lookups budget)
             || (MAX_HEAP_POPS <? tb_heap_pops budget) || (tb_input_bytes budget <? len source)) Limit;;
  let count := length source in
  (if bool_decide (bb_pre_tokenization self = RawBytes) then mret tt
   else
     modify (set_input_bytes (len source));;
     refuse_if (negb (utf8_valid source)) InvalidInput);;
  nodes ← lift (single_nodes self count 0 source);
  modify (set_input_bytes (len source));;
  nodes ← lift (special_bind_nodes (bb_special self) source nodes);
  nodes ← (if bool_decide (bb_pre_tokenization self = RawBytes) then mret nodes
           else lift (pretokenize_bind_nodes (bb_pre_tokenization self) source nodes (bb_vocabulary self)));
  nodes ← lift (bind_whole_pieces self source nodes);
  let '(tokens, spans) :=
    match bb_bos_token self with
    | Some bos => ([bos], [(O, O)])
    | None => ([], [])
    end in
  work ← get;
  mret (mkTokenizationCursor self source nodes [] tokens spans budget work (Offering 0)).

(** [ByteBpe::begin_encode] *)
Definition begin_encode (self : ByteBpe) (source : bytes) (budget : TokenizationBudget) :
    res TokenizationFailure TokenizationCursor :=
  match begin_encode_inner self source budget default_tokenization_work with
  | (Ok cursor, _) => Ok cursor
  | (Err error, work) => Err (mkTokenizationFailure error work)
  | (Panic, _) => Panic
  end.

(** [while cursor.advance()? != Complete {}] *)
Fixpoint encoding_run (fuel : nat) : st TokenizationCursor TokenizationFailure unit :=
  match fuel with
  | O => lift Panic
  | S fuel =>
    progress ← encoding_advance;
    if bool_decide (progress = TokenizationComplete) then mret tt else encoding_run fuel
  end.

(** Every node is offered and collected once and every candidate popped once;
    there are at most three candidates for a byte. *)
Definition encoding_fuel (count : nat) : nat := (5 * count + 10)%nat.

(** [ByteBpe::encode] *)
Definition encode (self : ByteBpe) (source : bytes) (budget : TokenizationBudget) :
    res TokenizationFailure TokenizedInput :=
  cursor ← begin_encode self source budget;
  cursor ← exec (encoding_run (encoding_fuel (length source))) cursor;
  encoding_finish cursor.

(** The first loop of [decode] *)
Fixpoint decoded_length (self : ByteBpe) (total max_bytes : Z) (tokens : list Z) : res Error unit :=
  match tokens with
  | [] => mret tt
  | token :: tokens =>
    value ← content_bytes self token;
    total ← ok_or (u64_checked_add total (len value)) Limit;
    refuse_if (max_bytes <? total) Limit;;
    decoded_length self total max_bytes tokens
  end.
(** The second loop of [decode] *)
Fixpoint decoded_bytes (self : ByteBpe) (tokens : list Z) : res Error bytes :=
  match tokens with
  | [] => mret []
  | token :: tokens =>
    value ← content_bytes self token;
    rest ← decoded_bytes self tokens;
    mret (value ++ rest)
  end.

(** [ByteBpe::decode] *)
Definition decode (self : ByteBpe) (tokens : list Z) (max_bytes : Z) : res Error bytes :=
  refuse_if ((MAX_INPUT_BYTES <? len tokens) || (MAX_DECODE_BYTES <? max_bytes)) Limit;;
  decoded_length self 0 max_bytes tokens;;
  decoded_bytes self tokens.
