(* ===== verification/TokenNodes.v ===== *)
(** * What the nodes of an encoding represent

    A vector of nodes represents a sequence of items, each a token over a span
    of the input: the live nodes are linked in both directions in the order of
    the spans, which tile the input.  Every pass of an encoding replaces
    consecutive items by one, and [fused] is the one lemma behind all of them. *)

From Stdlib Require Import Strings.Byte.
From stdpp Require Import base tactics numbers list.
From S2P Require Import Prelude Bytes Judgment Tokens.

(** ** Items *)

Record Item := mkItem { it_token : Z; it_start : nat; it_end : nat; it_boundary : bool }.

Definition node_of (it : Item) (previous next : option nat) : Node :=
  mkNode (it_token it) (it_end it) previous next true (it_boundary it).

Definition first_start (items : list Item) (next : option nat) : option nat :=
  match items with [] => next | it :: _ => Some (it_start it) end.
Fixpoint last_start (previous : option nat) (items : list Item) : option nat :=
  match items with [] => previous | it :: items => last_start (Some (it_start it)) items end.

Fixpoint linked (nodes : list Node) (previous : option nat) (items : list Item) (next : option nat) : Prop :=
  match items with
  | [] => True
  | it :: items =>
    nodes !! it_start it = Some (node_of it previous (first_start items next)) ∧
    linked nodes (Some (it_start it)) items next
  end.

Fixpoint tiled (start : nat) (items : list Item) (stop : nat) : Prop :=
  match items with
  | [] => start = stop
  | it :: items => it_start it = start ∧ start < it_end it ∧ tiled (it_end it) items stop
  end.

Record represents (nodes : list Node) (items : list Item) : Prop := {
  rep_tiled : tiled 0 items (length nodes);
  rep_linked : linked nodes None items None;
  rep_live i node : nodes !! i = Some node → nd_live node = true → ∃ it, it ∈ items ∧ it_start it = i;
}.

(** ** Tiles *)

Lemma tiled_app start xs ys stop :
  tiled start (xs ++ ys) stop ↔ ∃ middle, tiled start xs middle ∧ tiled middle ys stop.
Proof.
  revert start. induction xs as [|x xs IH]; intros start; simpl.
  - split; [by exists start|by intros (? & -> & ?)].
  - rewrite IH. naive_solver.
Qed.

Lemma tiled_le start items stop : tiled start items stop → start ≤ stop.
Proof.
  revert start. induction items as [|it items IH]; intros start; simpl; [lia|]. intros (_ & H & ?%IH). lia.
Qed.

Lemma tiled_length start items stop : tiled start items stop → length items + start ≤ stop.
Proof.
  revert start. induction items as [|it items IH]; intros start; simpl; [lia|]. intros (<- & H & ?%IH). lia.
Qed.

Lemma tiled_in start items stop it :
  tiled start items stop → it ∈ items → start ≤ it_start it ∧ it_start it < it_end it ∧ it_end it ≤ stop.
Proof.
  revert start. induction items as [|x items IH]; intros start; simpl; [by intros _ ?%elem_of_nil|].
  intros (<- & H & Ht) [->|Hin]%elem_of_cons; pose proof (tiled_le _ _ _ Ht); [lia|].
  specialize (IH _ Ht Hin). lia.
Qed.

Lemma tiled_functional start items stop stop' : tiled start items stop → tiled start items stop' → stop = stop'.
Proof.
  revert start. induction items as [|it items IH]; intros start; simpl; [congruence|].
  intros (_ & _ & H1) (_ & _ & H2). by eapply IH.
Qed.

(** No item starts strictly inside a tile. *)
Lemma tiled_gap start pre it post stop it' :
  tiled start (pre ++ it :: post) stop → it' ∈ pre ++ it :: post → ¬ (it_start it < it_start it' < it_end it).
Proof.
  intros (m & Hpre & Hs & H & Hpost)%tiled_app.
  intros [Hin|[->|Hin]%elem_of_cons]%elem_of_app.
  - destruct (tiled_in _ _ _ _ Hpre Hin). lia.
  - lia.
  - destruct (tiled_in _ _ _ _ Hpost Hin). lia.
Qed.

Lemma tiled_first start items stop : items ≠ [] → tiled start items stop → ∀ next, first_start items next = Some start.
Proof. destruct items; [done|]. intros _ [<- _] next. done. Qed.

(** ** Links *)

Lemma first_start_app xs ys next : first_start (xs ++ ys) next = first_start xs (first_start ys next).
Proof. by destruct xs. Qed.
Lemma last_start_app previous xs ys : last_start previous (xs ++ ys) = last_start (last_start previous xs) ys.
Proof. revert previous. induction xs as [|x xs IH]; intros previous; [done|]. apply IH. Qed.

Lemma linked_app nodes previous xs ys next :
  linked nodes previous (xs ++ ys) next ↔
  linked nodes previous xs (first_start ys next) ∧ linked nodes (last_start previous xs) ys next.
Proof.
  revert previous. induction xs as [|x xs IH]; intros previous; simpl; [naive_solver|].
  rewrite IH, first_start_app. naive_solver.
Qed.

Lemma linked_frame nodes nodes' previous items next :
  (∀ it, it ∈ items → nodes' !! it_start it = nodes !! it_start it) →
  linked nodes previous items next → linked nodes' previous items next.
Proof.
  revert previous. induction items as [|it items IH]; intros previous Heq; [done|]. intros [Hit Hl]. split.
  - rewrite Heq; [done|left].
  - apply IH; [|done]. intros it' Hin. apply Heq. by right.
Qed.

(** ** Replacing consecutive items by one *)

Definition fuses (nodes nodes' : list Node) (previous next : option nat) (it : Item) : Prop :=
  length nodes' = length nodes ∧
  nodes' !! it_start it = Some (node_of it previous next) ∧
  (∀ i node, it_start it < i < it_end it → nodes' !! i = Some node → nd_live node = false) ∧
  nodes' !! it_end it = set_node_previous (Some (it_start it)) <$> nodes !! it_end it ∧
  (∀ i, i < it_start it ∨ it_end it < i → nodes' !! i = nodes !! i).

Lemma fused nodes nodes' pre xs post it :
  represents nodes (pre ++ xs ++ post) → xs ≠ [] → tiled (it_start it) xs (it_end it) →
  fuses nodes nodes' (last_start None pre) (first_start post None) it →
  represents nodes' (pre ++ it :: post).
Proof.
  intros [Ht Hl Hlive] Hne Hxs (Hlen & Hself & Hdead & Hnext & Hsame).
  apply tiled_app in Ht as (s & Hpre & (e & Hxs' & Hpost)%tiled_app).
  assert (it_start it = s ∧ it_end it = e ∧ s < e) as (Hs & He & Hlt).
  { pose proof (tiled_first _ _ _ Hne Hxs None) as E1. pose proof (tiled_first _ _ _ Hne Hxs' None) as E2.
    assert (it_start it = s) as <- by congruence. split; [done|].
    clear -Hxs Hxs' Hne. revert Hxs Hxs'. generalize (it_start it). induction xs as [|x xs IH]; [done|].
    simpl. intros start (<- & H & Ht) (_ & _ & Ht'). destruct xs as [|y xs]; [simpl in *; lia|].
    destruct (IH ltac:(done) _ Ht Ht'). simpl in *. split; lia. }
  split.
  - rewrite Hlen. apply tiled_app. exists s. split; [done|]. simpl. rewrite He. done.
  - apply linked_app in Hl as [Hl1 [Hl2 Hl3]%linked_app]. apply linked_app. split; [|split].
    + simpl. rewrite Hs. rewrite first_start_app, (tiled_first _ _ _ Hne Hxs') in Hl1.
      eapply linked_frame; [|done]. intros it' Hin. destruct (tiled_in _ _ _ _ Hpre Hin). apply Hsame. lia.
    + done.
    + destruct post as [|p post]; [done|]. destruct Hl3 as [Hp Hl3]. destruct Hpost as (Hp1 & Hp2 & Hpost).
      split.
      * rewrite Hp1, <-He, Hnext, He, <-Hp1, Hp. done.
      * eapply linked_frame; [|done]. intros it' Hin. destruct (tiled_in _ _ _ _ Hpost Hin). apply Hsame. lia.
  - intros i node Hi Hlv.
    destruct (decide (i = it_start it)) as [->|Hns]; [exists it; split; [|done]; apply elem_of_app; right; left|].
    destruct (decide (it_start it < i < it_end it)) as [Hin|Hout]; [by rewrite (Hdead i node) in Hlv|].
    assert (∃ node', nodes !! i = Some node' ∧ nd_live node' = true) as (node' & Hi' & Hlv').
    { destruct (decide (i = it_end it)) as [->|Hnend].
      - rewrite Hnext in Hi. apply fmap_Some in Hi as (n' & -> & ->). by exists n'.
      - rewrite Hsame in Hi by lia. by exists node. }
    destruct (Hlive _ _ Hi' Hlv') as (it' & Hin & <-).
    apply elem_of_app in Hin as [Hin|[Hin|Hin]%elem_of_app].
    + exists it'. split; [|done]. apply elem_of_app. by left.
    + exfalso. destruct (tiled_in _ _ _ _ Hxs' Hin). lia.
    + exists it'. split; [|done]. apply elem_of_app. right. by right.
Qed.

(** ** Updates *)

Lemma update_node_ok i f nodes node :
  nodes !! i = Some node → update_node i f nodes = Ok (<[i := f node]> nodes).
Proof. intros H. unfold update_node, node_at. by rewrite H. Qed.

Lemma kill_range_ok start count nodes :
  start + count ≤ length nodes →
  ∃ nodes', kill_range start count nodes = Ok nodes' ∧ length nodes' = length nodes ∧
    ∀ i, nodes' !! i = if bool_decide (start ≤ i < start + count) then kill_node <$> nodes !! i else nodes !! i.
Proof.
  revert start nodes. induction count as [|count IH]; intros start nodes Hlen.
  { exists nodes. split_and!; [done..|]. intros i. rewrite bool_decide_eq_false_2 by lia. done. }
  cbn [kill_range]. destruct (lookup_lt_is_Some_2 nodes start) as [node Hnode]; [lia|].
  rewrite (update_node_ok _ _ _ node Hnode). cbn.
  destruct (IH (S start) (<[start := kill_node node]> nodes)) as (nodes' & Heq & Hl & Hat); [rewrite length_insert; lia|].
  exists nodes'. rewrite length_insert in Hl. split_and!; [done..|]. intros i. rewrite Hat.
  destruct (decide (i = start)) as [->|Hne].
  - rewrite bool_decide_eq_false_2 by lia. rewrite bool_decide_eq_true_2 by lia.
    rewrite list_lookup_insert_eq by lia. by rewrite Hnode.
  - rewrite list_lookup_insert_ne by done. do 2 case_bool_decide; try lia; done.
Qed.

Lemma represents_lookup nodes pre it post :
  represents nodes (pre ++ it :: post) →
  nodes !! it_start it = Some (node_of it (last_start None pre) (first_start post None)).
Proof. intros [_ [_ Hl]%linked_app _]. by destruct Hl. Qed.

Lemma represents_bounds nodes pre it post :
  represents nodes (pre ++ it :: post) →
  it_start it < it_end it ∧ it_end it ≤ length nodes ∧
  (∀ node, nodes !! it_end it = Some node → post ≠ []) ∧ (post ≠ [] → first_start post None = Some (it_end it)).
Proof.
  intros [Ht Hl Hlive]. pose proof Ht as (m & Hpre & <- & Hlt & Hpost)%tiled_app.
  pose proof (tiled_le _ _ _ Hpost). split_and!; [done|lia| |].
  - intros node Hnode ->. simpl in Hpost. apply lookup_lt_Some in Hnode. lia.
  - intros Hne. by eapply tiled_first.
Qed.

(** The rest of the tiles starts where the input does not end. *)
Lemma tiled_next start post stop :
  tiled start post stop → first_start post None = if bool_decide (start < stop) then Some start else None.
Proof.
  destruct post as [|p post]; simpl.
  - intros ->. by rewrite bool_decide_eq_false_2 by lia.
  - intros (<- & H & Ht%tiled_le). by rewrite bool_decide_eq_true_2 by lia.
Qed.

Lemma represents_dead nodes items pre it post i node :
  represents nodes items → items = pre ++ it :: post → it_start it < i < it_end it → nodes !! i = Some node →
  nd_live node = false.
Proof.
  intros Hrep -> Hi Hnode. destruct (nd_live node) eqn:Hlv; [|done]. exfalso.
  destruct (rep_live _ _ Hrep _ _ Hnode Hlv) as (it' & Hin & <-).
  by eapply (tiled_gap 0 pre it post); [apply (rep_tiled _ _ Hrep)| |].
Qed.

(** Binding a span to one token. *)
Lemma bind_span_ok nodes pre x xs post start stop token :
  represents nodes (pre ++ (x :: xs) ++ post) → tiled start (x :: xs) stop →
  ∃ nodes', bind_span start stop token nodes = Ok nodes' ∧ length nodes' = length nodes ∧
    represents nodes' (pre ++ mkItem token start stop (it_boundary x) :: post).
Proof.
  intros Hrep Hxs. pose proof Hxs as (<- & Hlt & Htail).
  pose proof (represents_lookup nodes pre x (xs ++ post) Hrep) as Hx.
  pose proof (rep_tiled _ _ Hrep) as (s & Hpre & (e & Hxs' & Hpost)%tiled_app)%tiled_app.
  assert (s = it_start x ∧ e = stop) as [-> ->].
  { destruct Hxs' as (<- & _ & Ht). split; [done|]. clear -Htail Ht. revert Htail Ht. generalize (it_end x).
    induction xs as [|y xs IH]; simpl; [congruence|]. intros n (_ & _ & H1) (_ & _ & H2). by eapply IH. }
  pose proof (tiled_le _ _ _ Htail). pose proof (tiled_le _ _ _ Hpost) as Hstop.
  unfold bind_span. rewrite (update_node_ok _ _ _ _ Hx). cbn [mbind res_bind].
  set (next := if bool_decide (stop < length nodes) then Some stop else None).
  assert (next = first_start post None) as Hnext by (symmetry; by apply tiled_next).
  rewrite length_insert. rewrite (bool_decide_eq_true_2 (S (it_start x) ≤ stop ≤ length nodes)) by lia.
  destruct (kill_range_ok (S (it_start x)) (stop - S (it_start x))
    (<[it_start x := widen_node token stop next (node_of x (last_start None pre) (first_start (xs ++ post) None))]> nodes))
    as (nodes1 & -> & Hlen1 & Hat); [rewrite length_insert; lia|].
  cbn [mbind res_bind]. rewrite length_insert in Hlen1. rewrite Hlen1.
  assert (∀ nodes', fuses nodes nodes' (last_start None pre) (first_start post None)
      (mkItem token (it_start x) stop (it_boundary x)) →
      represents nodes' (pre ++ mkItem token (it_start x) stop (it_boundary x) :: post)) as Hfuse.
  { intros nodes' Hf. eapply fused; [exact Hrep|done| |exact Hf]. done. }
  assert (nodes1 !! it_start x = Some (node_of (mkItem token (it_start x) stop (it_boundary x)) (last_start None pre) next)) as Hself.
  { rewrite Hat, bool_decide_eq_false_2 by lia. by rewrite list_lookup_insert_eq by lia. }
  assert (∀ i node, it_start x < i < stop → nodes1 !! i = Some node → nd_live node = false) as Hdead.
  { intros i node Hi. rewrite Hat, bool_decide_eq_true_2 by lia. intros (n & _ & ->)%fmap_Some. done. }
  assert (∀ i, i < it_start x ∨ stop ≤ i → nodes1 !! i = nodes !! i) as Hsame.
  { intros i Hi. rewrite Hat, bool_decide_eq_false_2 by lia. by rewrite list_lookup_insert_ne by lia. }
  case_bool_decide as Hend.
  - destruct (lookup_lt_is_Some_2 nodes stop Hend) as [n Hn].
    rewrite (update_node_ok _ _ _ n) by (by rewrite Hsame by lia).
    exists (<[stop := set_node_previous (Some (it_start x)) n]> nodes1). rewrite length_insert. split_and!; [done..|].
    apply Hfuse. unfold fuses. simpl. rewrite length_insert. split_and!; [done|..].
    + rewrite list_lookup_insert_ne by lia. by rewrite Hself, Hnext.
    + intros i node Hi. rewrite list_lookup_insert_ne by lia. by apply Hdead.
    + rewrite list_lookup_insert_eq by lia. by rewrite Hn.
    + intros i Hi. rewrite list_lookup_insert_ne by lia. apply Hsame. lia.
  - exists nodes1. split_and!; [done..|]. apply Hfuse. unfold fuses. simpl. split_and!; [done|..].
    + by rewrite Hself, Hnext.
    + done.
    + rewrite Hsame by lia. by rewrite lookup_ge_None_2 by lia.
    + intros i Hi. apply Hsame. lia.
Qed.
