(* ===== verification/TokenReference.v ===== *)
(** * What an encoding computes

    The plain definition of ranked byte pair merging: no heap, no links, no
    stale candidates.  As long as a rule of the ordered list occurs, the first
    such rule is applied at its leftmost occurrence. *)

From stdpp Require Import base tactics numbers list.
From S2P Require Import Prelude Bytes Judgment Tokens TokenNodes.

(** ** Definition *)

(** A token with the number of input bytes it stands for. *)
Abbreviation piece := (list (Z * nat)).

(** One rule, at its leftmost occurrence. *)
Fixpoint apply_rule (rule : Merge) (tokens : piece) : option piece :=
  match tokens with
  | (a, n) :: ((b, m) :: rest) as tail =>
    if (a =? mg_left rule)%Z && (b =? mg_right rule)%Z then Some ((mg_result rule, n + m) :: rest)
    else cons (a, n) <$> apply_rule rule tail
  | _ => None
  end.

(** The first rule that occurs. *)
Fixpoint first_rule (rules : list Merge) (tokens : piece) : option piece :=
  match rules with
  | [] => None
  | rule :: rules => match apply_rule rule tokens with Some merged => Some merged | None => first_rule rules tokens end
  end.

Fixpoint merge_rounds (fuel : nat) (rules : list Merge) (tokens : piece) : piece :=
  match fuel with
  | O => tokens
  | S fuel => match first_rule rules tokens with Some merged => merge_rounds fuel rules merged | None => tokens end
  end.

(** Every round shortens the piece, so its length bounds the rounds. *)
Definition bpe_reference (rules : list Merge) (tokens : piece) : piece := merge_rounds (length tokens) rules tokens.

(** The spans of consecutive tokens. *)
Fixpoint spans_from (start : nat) (tokens : piece) : list (nat * nat) :=
  match tokens with
  | [] => []
  | (_, n) :: tokens => (start, start + n) :: spans_from (start + n) tokens
  end.

(** ** Rounds *)

Lemma apply_rule_cons rule a n b m rest :
  apply_rule rule ((a, n) :: (b, m) :: rest) =
  if (a =? mg_left rule)%Z && (b =? mg_right rule)%Z then Some ((mg_result rule, n + m) :: rest)
  else cons (a, n) <$> apply_rule rule ((b, m) :: rest).
Proof. done. Qed.

Lemma apply_rule_length rule tokens merged : apply_rule rule tokens = Some merged → length tokens = S (length merged).
Proof.
  revert merged. induction tokens as [|[a n] [|[b m] tokens] IH]; intros merged; [done..|].
  rewrite apply_rule_cons. case_match; [by intros [= <-]|]. intros (rest & Hr & ->)%fmap_Some.
  apply IH in Hr. simpl in *. lia.
Qed.

Lemma first_rule_length rules tokens merged : first_rule rules tokens = Some merged → length tokens = S (length merged).
Proof.
  induction rules as [|rule rules IH]; [done|]. simpl. destruct (apply_rule rule tokens) eqn:E; [|done].
  intros [= <-]. by eapply apply_rule_length.
Qed.

Lemma bpe_reference_step rules tokens merged :
  first_rule rules tokens = Some merged → bpe_reference rules tokens = bpe_reference rules merged.
Proof.
  intros H. unfold bpe_reference. rewrite (first_rule_length _ _ _ H). simpl. by rewrite H.
Qed.

Lemma bpe_reference_stop rules tokens : first_rule rules tokens = None → bpe_reference rules tokens = tokens.
Proof. intros H. unfold bpe_reference. destruct (length tokens); [done|]. simpl. by rewrite H. Qed.

(** ** Occurrences *)

Definition occurs (rule : Merge) (x y : Z * nat) : Prop := x.1 = mg_left rule ∧ y.1 = mg_right rule.

Lemma apply_rule_none rule tokens :
  (∀ pre x y post, tokens = pre ++ x :: y :: post → ¬ occurs rule x y) → apply_rule rule tokens = None.
Proof.
  induction tokens as [|[a n] [|[b m] tokens] IH]; intros H; [done..|].
  rewrite apply_rule_cons. destruct (_ && _) eqn:E.
  - exfalso. apply (H [] (a, n) (b, m) tokens); [done|]. unfold occurs. simpl. lia.
  - rewrite IH; [done|]. intros pre x y post Heq. apply (H ((a, n) :: pre) x y post). by rewrite Heq.
Qed.

Lemma apply_rule_leftmost rule pre x y post :
  occurs rule x y → (∀ pre' x' y' post', pre ++ [x] = pre' ++ x' :: y' :: post' → ¬ occurs rule x' y') →
  apply_rule rule (pre ++ x :: y :: post) = Some (pre ++ (mg_result rule, x.2 + y.2) :: post).
Proof.
  intros Hocc. induction pre as [|[a n] pre IH]; intros Hleft.
  - destruct x as [a n], y as [b m]. cbn [app]. rewrite apply_rule_cons. unfold occurs in Hocc. simpl in *.
    rewrite (proj2 (andb_true_iff _ _)); [done|]. lia.
  - assert (∃ b m rest, pre ++ x :: y :: post = (b, m) :: rest ∧ ∃ rest', pre ++ [x] = (b, m) :: rest') as (b & m & rest & Heq & rest' & Heq').
    { destruct pre as [|[b m] pre]; [destruct x as [b m]|]; simpl; eauto 10. }
    cbn [app]. rewrite Heq, apply_rule_cons. destruct (_ && _) eqn:E.
    + exfalso. apply (Hleft [] (a, n) (b, m) rest'); [simpl; by rewrite Heq'|]. unfold occurs. simpl. lia.
    + rewrite <-Heq, IH; [done|]. intros pre' x' y' post' Hp. apply (Hleft ((a, n) :: pre') x' y' post').
      simpl. by rewrite Hp.
Qed.

Lemma first_rule_at rules before rule after tokens merged :
  rules = before ++ rule :: after → (∀ r, r ∈ before → apply_rule r tokens = None) →
  apply_rule rule tokens = Some merged → first_rule rules tokens = Some merged.
Proof.
  intros ->. induction before as [|r before IH]; intros Hb Hr; simpl; [by rewrite Hr|].
  rewrite Hb by left. apply IH; [|done]. intros r' ?. apply Hb. by right.
Qed.

Lemma first_rule_none rules tokens : (∀ r, r ∈ rules → apply_rule r tokens = None) → first_rule rules tokens = None.
Proof.
  induction rules as [|r rules IH]; intros Hr; simpl; [done|]. rewrite Hr by left. apply IH. intros r' ?. apply Hr. by right.
Qed.

(** ** Items as tokens *)

Definition flat (it : Item) : Z * nat := (it_token it, it_end it - it_start it).

Lemma flat_spans start items stop :
  tiled start items stop → spans_from start (flat <$> items) = (λ it, (it_start it, it_end it)) <$> items.
Proof.
  revert start. induction items as [|it items IH]; intros start; [done|]. simpl. intros (<- & H & Ht).
  replace (it_start it + (it_end it - it_start it)) with (it_end it) by lia. f_equal. by apply IH.
Qed.
