(* ===== verification/BpeData.v ===== *)
(** * What admission makes of a vocabulary

    Every constructor of a tokenizer checks the same things; [admitted] collects
    what they leave: the rank of a pair is the position of its rule, a merged
    token spells its parts, every byte has its token, no spelling has two. *)

From Stdlib Require Import Strings.Byte.
From stdpp Require Import base tactics numbers list gmap sorting.
From S2P Require Import Prelude Bytes Judgment Orders Tokens SpecialTokens Pretokenizer Bpe.

Local Open Scope Z_scope.

(** ** The constructors *)

Inductive constructed : ByteBpe → Prop :=
  | constructed_plain profile vocabulary merges d :
      byte_bpe_new profile vocabulary merges = Ok d → constructed d
  | constructed_special profile vocabulary merges names d :
      new_with_special_tokens profile vocabulary merges names = Ok d → constructed d
  | constructed_pieces profile vocabulary merges names pre_tokenization d :
      new_with_pre_tokenization profile vocabulary merges names pre_tokenization = Ok d → constructed d
  | constructed_policy profile vocabulary merges names pre_tokenization policy d :
      new_with_merge_policy profile vocabulary merges names pre_tokenization policy = Ok d → constructed d
  | constructed_bos profile vocabulary merges names bos policy d :
      new_with_bos_token_and_merge_policy profile vocabulary merges names bos policy = Ok d → constructed d.

(** ** What they check *)

Definition ranks_of (merges : list Merge) (ranks : gmap (Z * Z) (Z * Z)) : Prop :=
  ∀ l r k res, ranks !! (l, r) = Some (k, res) ↔ 0 ≤ k ∧ merges !! Z.to_nat k = Some (mkMerge l r res).

(** A token of the vocabulary, at its own index. *)
Definition spells (vocabulary : list TokenBytes) (token : Z) (value : bytes) : Prop :=
  0 ≤ token ∧ vocabulary !! Z.to_nat token = Some (Content value).

Definition merges_spell (vocabulary : list TokenBytes) (merges : list Merge) : Prop :=
  ∀ rule, rule ∈ merges → ∃ x y, content vocabulary (mg_left rule) = Ok x ∧ content vocabulary (mg_right rule) = Ok y ∧
    content vocabulary (mg_result rule) = Ok (x ++ y).

Record admitted (d : ByteBpe) : Prop := {
  ad_ranks : ranks_of (bb_merges d) (bb_ranks d);
  ad_merges : merges_spell (bb_vocabulary d) (bb_merges d);
  ad_singletons b : ∃ t, bb_singletons d !! Z.to_nat (byte_val b) = Some t ∧ spells (bb_vocabulary d) t [b];
  ad_nonempty t value : spells (bb_vocabulary d) t value → value ≠ [] ∧ (length value ≤ bb_max_content_bytes d)%nat;
  ad_distinct t u value : spells (bb_vocabulary d) t value → spells (bb_vocabulary d) u value → t = u;
  ad_whole t : bb_merge_policy d = WholePieceFirst →
    t ∈ bb_whole_piece_tokens d ↔ ∃ value, spells (bb_vocabulary d) t value;
  ad_special : bb_special d = default_special_tokens ∨
    ∃ names, special_tokens_new (bb_vocabulary d) names = Ok (bb_special d);
  ad_bos bos : bb_bos_token d = Some bos → vocabulary_get (bb_vocabulary d) bos = Some Control;
}.

Lemma content_spells vocabulary token value :
  0 ≤ token → content vocabulary token = Ok value ↔ spells vocabulary token value.
Proof.
  intros Ht. unfold content, spells, vocabulary_get. split.
  - destruct (vocabulary !! Z.to_nat token) as [[v|]|]; simpl; [|done..]. by intros [= ->].
  - intros [_ ->]. done.
Qed.

(** ** The passes over the vocabulary *)

Lemma measure_vocabulary_ok id vocabulary total controls longest controls' longest' :
  measure_vocabulary id vocabulary total controls longest = Ok (controls', longest') →
  (longest ≤ longest')%nat ∧ ∀ i value, vocabulary !! i = Some (Content value) → value ≠ [] ∧ (length value ≤ longest')%nat.
Proof.
  revert id total controls longest. induction vocabulary as [|[value|] vocabulary IH]; intros id total controls longest; simpl.
  - intros [= <- <-]. split; [done|]. by intros i value.
  - rewrite refuse_ok, bool_decide_eq_false. intros [Hne H]. rewrite refuse_ok in H. destruct H as [_ H].
    apply then_ok in H as (total' & _ & H). rewrite refuse_ok in H. destruct H as [_ [Hle Hall]%IH].
    split; [lia|]. intros [|i] v; [intros [= <-]; split; [done|lia]|apply Hall].
  - rewrite refuse_ok. intros [_ [Hle Hall]%IH]. split; [done|]. intros [|i] v; [done|apply Hall].
Qed.

Lemma index_vocabulary_ok id vocabulary seen singletons available singletons' available' :
  index_vocabulary id vocabulary seen singletons available = Ok (singletons', available') →
  length singletons' = length singletons ∧
  (∀ k t, singletons' !! k = Some (Some t) → singletons !! k = Some (Some t) ∨
     ∃ i b, vocabulary !! i = Some (Content [b]) ∧ t = id + Z.of_nat i ∧ k = Z.to_nat (byte_val b)) ∧
  (∀ i value, vocabulary !! i = Some (Content value) → ¬ (value ∈ seen)) ∧
  (∀ i j value, vocabulary !! i = Some (Content value) → vocabulary !! j = Some (Content value) → i = j).
Proof.
  revert id seen singletons available.
  induction vocabulary as [|[value|] vocabulary IH]; intros id seen singletons available; simpl.
  - intros [= <- <-]. split_and!; [done|auto|done..].
  - rewrite refuse_ok, bool_decide_eq_false. intros [Hnew H].
    assert (∃ singletons1 available1, index_vocabulary (id + 1) vocabulary ({[value]} ∪ seen) singletons1 available1 =
      Ok (singletons', available') ∧ length singletons1 = length singletons ∧
      ∀ k t, singletons1 !! k = Some (Some t) → singletons !! k = Some (Some t) ∨
        ∃ b, value = [b] ∧ t = id ∧ k = Z.to_nat (byte_val b)) as (s1 & a1 & H1 & Hlen & Hs1).
    { destruct value as [|b [|b' value]]; [by exists singletons, available; eauto| |by exists singletons, available; eauto].
      eexists _, _. split; [exact H|]. rewrite length_insert. split; [done|]. intros k t.
      intros [(<- & [= <-] & _)|[_ ?]]%list_lookup_insert_Some; [right; eauto|by left]. }
    apply IH in H1 as (Hl & Hs & Hseen & Hdist). split_and!; [congruence|..].
    + intros k t [Hk|(i & b & Hi & -> & ->)]%Hs.
      * destruct (Hs1 _ _ Hk) as [?|(b & -> & -> & ->)]; [by left|]. right. exists O, b. split_and!; [done|lia|done].
      * right. exists (S i), b. split_and!; [done|lia|done].
    + intros [|i] v; simpl; [by intros [= <-]|]. intros Hi%Hseen. set_solver.
    + intros [|i] [|j] v; simpl; intros Hi Hj; [done| | |f_equal; by eapply Hdist].
      * injection Hi as ->. apply Hseen in Hj. set_solver.
      * injection Hj as ->. apply Hseen in Hi. set_solver.
  - intros (Hl & Hs & Hseen & Hdist)%IH. split_and!; [done|..].
    + intros k t [?|(i & b & Hi & -> & ->)]%Hs; [by left|]. right. exists (S i), b. split_and!; [done|lia|done].
    + intros [|i] v; [done|apply Hseen].
    + intros [|i] [|j] v; simpl; intros Hi Hj; [done..|f_equal; by eapply Hdist].
Qed.

Lemma admit_merges_ok vocabulary done_ merges ranks available ranks' available' :
  ranks_of done_ ranks → merges_spell vocabulary done_ →
  admit_merges vocabulary (len done_) merges ranks available = Ok (ranks', available') →
  ranks_of (done_ ++ merges) ranks' ∧ merges_spell vocabulary (done_ ++ merges).
Proof.
  revert done_ ranks available. induction merges as [|[l r res] merges IH]; intros done_ ranks available Hr Hm; simpl.
  { intros [= <- <-]. by rewrite app_nil_r. }
  intros H. apply then_ok in H as (x & Hx & H). apply then_ok in H as (y & Hy & H). apply then_ok in H as (z & Hz & H).
  rewrite refuse_ok in H. destruct H as [_ H]. rewrite refuse_ok in H. destruct H as [Hcat H].
  rewrite !orb_false_iff, !negb_false_iff, !bool_decide_eq_true in Hcat. destruct Hcat as [[Hlen Htake] Hdrop].
  rewrite refuse_ok, bool_decide_eq_false in H. destruct H as [Hfresh H].
  rewrite (cons_middle _ done_ merges), app_assoc.
  change (len done_ + 1) with (len done_ + len [mkMerge l r res]) in H. rewrite <-len_app in H.
  apply IH in H; [done|..].
  - intros l' r' k res'. rewrite lookup_insert_Some. unfold ranks_of in Hr. rewrite Hr. split.
    + intros [([= <- <-] & [= <- <-])|[_ [Hk Hd]]].
      * split; [apply len_nonneg|]. unfold len. by rewrite Nat2Z.id, lookup_app_r, Nat.sub_diag by done.
      * split; [done|]. by apply lookup_app_l_Some.
    + intros [Hk [Hd|[Hge Hd]]%lookup_app_Some].
      * right. split; [|done]. intros [= <- <-]. apply Hfresh. exists (k, res'). by apply Hr.
      * left. apply list_lookup_singleton_Some in Hd as [Hk' [= <- <- <-]]. split; [done|].
        unfold len. f_equal. lia.
  - intros rule [Hin|Hin%list_elem_of_singleton]%elem_of_app; [by apply Hm|]. subst rule. exists x, y. simpl.
    split_and!; [done..|]. rewrite Hz, <-(take_drop (length x) z). by rewrite Htake, Hdrop.
Qed.

Lemma elem_of_content_ids id vocabulary t :
  t ∈ content_ids id vocabulary ↔ ∃ i value, t = id + Z.of_nat i ∧ vocabulary !! i = Some (Content value).
Proof.
  revert id. induction vocabulary as [|[value|] vocabulary IH]; intros id; simpl.
  - split; [by intros ?%elem_of_nil|by intros (? & ? & _ & ?)].
  - rewrite elem_of_cons, IH. split.
    + intros [->|(i & v & -> & Hi)]; [exists O, value; split; [lia|done]|exists (S i), v; split; [lia|done]].
    + intros ([|i] & v & -> & Hi); [left; lia|]. right. exists i, v. split; [lia|done].
  - rewrite IH. split.
    + intros (i & v & -> & Hi). exists (S i), v. split; [lia|done].
    + intros ([|i] & v & -> & Hi); [done|]. exists i, v. split; [lia|done].
Qed.

(** ** Admission *)

Lemma new_inner_admitted profile vocabulary merges policy d :
  new_inner profile vocabulary merges policy = Ok d → admitted d ∧ bb_vocabulary d = vocabulary.
Proof.
  unfold new_inner. rewrite !refuse_ok. intros (_ & _ & _ & H).
  apply then_ok in H as ([controls longest] & Hmeasure & H).
  apply then_ok in H as ([singletons available] & Hindex & H).
  rewrite refuse_ok in H. destruct H as [Hall H].
  apply then_ok in H as ([ranks available'] & Hmerges & H). rewrite refuse_ok in H. destruct H as [_ H].
  destruct (mapM id singletons) as [singles|] eqn:Hsingles; [|done]. injection H as <-. split; [|done].
  apply measure_vocabulary_ok in Hmeasure as [_ Hmeasure].
  apply index_vocabulary_ok in Hindex as (Hlen & Hsing & _ & Hdist).
  apply (admit_merges_ok vocabulary [] merges) in Hmerges as [Hr Hm]; [|..].
  2: { intros l r k res. rewrite lookup_empty, lookup_nil. naive_solver. }
  2: { by intros rule ?%elem_of_nil. }
  split; simpl; [done|done| | | | |by left|done].
  - intros b. apply mapM_Some in Hsingles. pose proof (byte_val_range b).
    destruct (lookup_lt_is_Some_2 singletons (Z.to_nat (byte_val b))) as [o Ho]; [rewrite Hlen, length_replicate; lia|].
    destruct (Forall2_lookup_l _ _ _ _ _ Hsingles Ho) as (t & Ht & Hot). exists t. split; [done|]. simpl in Hot. subst o.
    destruct (Hsing _ _ Ho) as [Hrep|(i & b' & Hi & -> & Hbb)]; [apply lookup_replicate in Hrep as [? _]; done|].
    assert (b' = b) as -> by (rewrite <-(byte_of_val b), <-(byte_of_val b'); pose proof (byte_val_range b'); f_equal; lia).
    split; [lia|]. by replace (Z.to_nat (0 + Z.of_nat i)) with i by lia.
  - intros t value [_ Ht]. by eapply Hmeasure.
  - intros t u value [Ht Htv] [Hu Huv]. pose proof (Hdist _ _ _ Htv Huv). lia.
  - intros t ->. rewrite bool_decide_eq_true_2 by done. rewrite merge_sort_Permutation, elem_of_content_ids.
    unfold spells. split.
    + intros (i & value & -> & Hi). exists value. split; [lia|]. by replace (Z.to_nat (0 + Z.of_nat i)) with i by lia.
    + intros (value & Ht & Hv). exists (Z.to_nat t), value. split; [lia|done].
Qed.

Lemma constructed_admitted d : constructed d → admitted d.
Proof.
  assert (∀ d pt special, admitted d → (special = default_special_tokens ∨
    ∃ names, special_tokens_new (bb_vocabulary d) names = Ok special) →
    admitted (set_special special d) ∧ admitted (set_pre_tokenization pt d) ∧
    admitted (set_pre_tokenization pt (set_special special d))) as Hset.
  { intros d0 pt special [] Hs. split_and!; by split. }
  destruct 1 as [p v m d H|p v m n d H|p v m n pt d H|p v m n pt pol d H|p v m n bos pol d H].
  - by apply new_inner_admitted in H as [].
  - apply then_ok in H as (s & Hs & H). apply then_ok in H as (d0 & [Hd <-]%new_inner_admitted & [= <-]).
    apply (Hset d0 RawBytes); eauto.
  - apply then_ok in H as (d1 & H & [= <-]). apply then_ok in H as (s & Hs & H).
    apply then_ok in H as (d0 & [Hd <-]%new_inner_admitted & [= <-]). apply (Hset d0 pt); eauto.
  - apply then_ok in H as (s & Hs & H). apply then_ok in H as (d0 & [Hd <-]%new_inner_admitted & [= <-]).
    apply (Hset d0 pt); eauto.
  - unfold new_with_bos_token_and_merge_policy in H. rewrite refuse_ok in H. destruct H as [Hbos H].
    apply orb_false_iff in Hbos as [Hbos%negb_false_iff%bool_decide_eq_true _].
    apply then_ok in H as (d1 & H & [= <-]). apply then_ok in H as (s & Hs & H).
    apply then_ok in H as (d0 & [Hd Hv]%new_inner_admitted & [= <-]).
    destruct (proj2 (proj2 (Hset d0 Llama3Unicode17 s Hd ltac:(right; exists n; by rewrite Hv)))).
    split; simpl; try done. intros ? [= <-]. by rewrite Hv.
Qed.
