(* ===== verification/BpeMerge.v ===== *)
(** * The steps of an encoding

    What the heap of candidates knows about the items that the nodes represent,
    and what an offer and a pop do to both.  Pieces are runs of items that no
    merge crosses. *)

From Stdlib Require Import Strings.Byte.
From stdpp Require Import base tactics numbers list gmap sorting.
From S2P Require Import Prelude Bytes Judgment Orders Tokens TokenNodes TokenReference SpecialTokens Pretokenizer Bpe BpeData.

Local Open Scope Z_scope.

(** ** The heap *)

Lemma heap_push_perm c heap : heap_push c heap ≡ₚ c :: heap.
Proof.
  induction heap as [|x heap IH]; simpl; [done|]. destruct (key_leb c x); [done|]. rewrite IH. constructor.
Qed.

Lemma heap_push_sorted c heap : StronglySorted key_le heap → StronglySorted key_le (heap_push c heap).
Proof.
  induction 1 as [|x heap Hs IH Hx]; simpl; [by repeat constructor|]. destruct (key_leb c x) eqn:E.
  - constructor; [by constructor|]. constructor; [done|]. eapply Forall_impl; [exact Hx|]. intros y Hy.
    by apply (transitivity (R:=key_le) (y:=x)).
  - constructor; [done|]. rewrite heap_push_perm. constructor; [|done].
    destruct (total key_le c x) as [H|H]; [|done]. unfold key_le in H. congruence.
Qed.

(** Lower rank first, then further left. *)
Lemma pair_leb {A B} `{!EqDecision A, !KeyOrder A, !KeyOrder B} (p q : A * B) :
  key_leb p q = if bool_decide (p.1 = q.1) then key_leb p.2 q.2 else key_leb p.1 q.1.
Proof. done. Qed.

Lemma candidate_le c c' : key_le c c' → cd_rank c < cd_rank c' ∨ cd_rank c = cd_rank c' ∧ (cd_left c ≤ cd_left c')%nat.
Proof.
  unfold key_le. change (key_leb c c') with (key_leb (candidate_fields c) (candidate_fields c')).
  rewrite pair_leb. case_bool_decide as E1; simpl in E1.
  - simpl. rewrite pair_leb. case_bool_decide as E2; simpl in E2; [lia|].
    change (key_leb _ _) with (Nat.leb (cd_left c) (cd_left c')). rewrite Nat.leb_le. lia.
  - change (key_leb _ _) with (Z.leb (cd_rank c) (cd_rank c')). rewrite Z.leb_le. lia.
Qed.

(** ** Pairs that merge *)

Section tokenizer.
Context (d : ByteBpe).

Definition mergeable (a b : Item) (rank result : Z) : Prop :=
  it_boundary b = false ∧ bb_ranks d !! (it_token a, it_token b) = Some (rank, result).

Definition candidate_of (a b : Item) (rank result : Z) : Candidate :=
  mkCandidate rank (it_start a) (it_start b) (it_token a) (it_token b) result.

(** What a candidate was when it was offered. *)
Definition candidate_sound (nodes : list Node) (c : Candidate) : Prop :=
  bb_ranks d !! (cd_left_token c, cd_right_token c) = Some (cd_rank c, cd_result c) ∧
  is_Some (nodes !! cd_left c) ∧ ∃ node, nodes !! cd_right c = Some node ∧ nd_boundary_before node = false.

Record heap_ok (nodes : list Node) (heap : list Candidate) : Prop := {
  ho_sorted : StronglySorted key_le heap;
  ho_sound : Forall (candidate_sound nodes) heap;
}.

(** Every pair that starts before [upto] and merges has its candidate. *)
Definition complete_upto (items : list Item) (heap : list Candidate) (upto : nat) : Prop :=
  ∀ pre a b post rank result, items = pre ++ a :: b :: post → (it_start a < upto)%nat →
    mergeable a b rank result → candidate_of a b rank result ∈ heap.

Lemma candidate_sound_frame nodes nodes' c :
  nd_boundary_before <$> nodes' = nd_boundary_before <$> nodes → candidate_sound nodes c → candidate_sound nodes' c.
Proof.
  intros Heq (Hr & [n Hn] & m & Hm & Hb). assert (length nodes' = length nodes) as Hlen.
  { by rewrite <-(length_fmap nd_boundary_before nodes'), Heq, length_fmap. }
  split; [done|]. split; [apply lookup_lt_is_Some_2; rewrite Hlen; by eapply lookup_lt_Some|].
  assert ((nd_boundary_before <$> nodes') !! cd_right c = Some false) as Hc.
  { rewrite Heq, list_lookup_fmap, Hm. simpl. by rewrite Hb. }
  rewrite list_lookup_fmap in Hc. apply fmap_Some in Hc as (m' & Hm' & Hb'). by exists m'.
Qed.

(** *** Offers *)

Definition more_lookups (work work' : TokenizationWork) (k : Z) : Prop :=
  work' = mkTokenizationWork (tw_input_bytes work) (tw_pair_lookups work + k) (tw_heap_pops work) (tw_merges work).

Definition offered (nodes : list Node) (items : list Item) (i : nat) (heap heap' : list Candidate) : Prop :=
  heap_ok nodes heap' ∧ (∀ c, c ∈ heap → c ∈ heap') ∧
  (∀ pre a b post rank result, items = pre ++ a :: b :: post → it_start a = i → mergeable a b rank result →
     candidate_of a b rank result ∈ heap').

Lemma represents_at nodes items i node :
  represents nodes items → nodes !! i = Some node → nd_live node = true →
  ∃ pre it post, items = pre ++ it :: post ∧ it_start it = i ∧
    node = node_of it (last_start None pre) (first_start post None).
Proof.
  intros Hrep Hi Hlive. destruct (rep_live _ _ Hrep _ _ Hi Hlive) as (it & Hin & <-).
  apply list_elem_of_split in Hin as (pre & post & ->). exists pre, it, post. split_and!; [done..|].
  pose proof (represents_lookup _ _ _ _ Hrep) as Hl. congruence.
Qed.

(** Items of one representation are told apart by where they start. *)
Lemma represents_unique nodes pre it post pre' it' post' :
  represents nodes (pre ++ it :: post) → pre ++ it :: post = pre' ++ it' :: post' → it_start it = it_start it' →
  pre = pre' ∧ it = it' ∧ post = post'.
Proof.
  intros Hrep Heq Hs. pose proof (rep_tiled _ _ Hrep) as Ht. pose proof Ht as Ht'. rewrite Heq in Ht'.
  apply tiled_app in Ht as (m & H1 & <- & Hlt & H2), Ht' as (m' & H1' & <- & Hlt' & H2').
  apply app_eq_inv in Heq as [(k & -> & Heq)|(k & -> & Heq)]; destruct k as [|x k].
  - rewrite app_nil_r. injection Heq as -> ->. done.
  - injection Heq as -> Heq. apply tiled_app in H1 as (? & _ & ? & ? & ?%tiled_le). lia.
  - rewrite app_nil_r. injection Heq as -> ->. done.
  - injection Heq as -> Heq. apply tiled_app in H1' as (? & _ & ? & ? & ?%tiled_le). lia.
Qed.

Lemma offer_ok nodes items i budget heap work :
  represents nodes items → (i < length nodes)%nat → heap_ok nodes heap →
  0 ≤ tw_pair_lookups work ≤ MAX_PAIR_LOOKUPS →
  match offer d i nodes budget (heap, work) with
  | (Ok _, (heap', work')) =>
    offered nodes items i heap heap' ∧ ∃ k, 0 ≤ k ≤ 1 ∧ len heap' <= len heap + k ∧ more_lookups work work' k ∧
      (k = 1 → tw_pair_lookups work ≠ tb_pair_lookups budget)
  | (Err e, p) => e = Limit ∧ tw_pair_lookups work = tb_pair_lookups budget ∧ p = (heap, work)
  | (Panic, _) => False
  end.
Proof.
  intros Hrep Hi Hheap Hwork. unfold offer. destruct (lookup_lt_is_Some_2 _ _ Hi) as [node Hnode].
  assert (∀ heap', heap_ok nodes heap' → (∀ c, c ∈ heap → c ∈ heap') →
    (∀ pre a b post rank result, items = pre ++ a :: b :: post → it_start a = i → mergeable a b rank result → False) →
    offered nodes items i heap heap') as Hnone.
  { intros heap' H1 H2 H3. split_and!; [done..|]. intros. exfalso. by eapply H3. }
  assert (more_lookups work work 0) as Hzero by (unfold more_lookups; rewrite Z.add_0_r; by destruct work).
  assert (∀ pre a b post, items = pre ++ a :: b :: post → it_start a = i →
    node = node_of a (last_start None pre) (Some (it_start b))) as Hpair.
  { intros pre a b post -> <-. pose proof (represents_lookup _ _ _ _ Hrep) as Hl. simpl in Hl. congruence. }
  unfold node_at. munfold_goal. rewrite Hnode. cbv beta iota.
  destruct (nd_live node) eqn:Hlive; cbn [negb]; cbv beta iota.
  2: { split; [|by exists 0; split_and!; try done; lia]. apply Hnone; [done..|]. intros pre a b post ?? Heq Hs _.
       by rewrite (Hpair _ _ _ _ Heq Hs) in Hlive. }
  destruct (represents_at _ _ _ _ Hrep Hnode Hlive) as (pre & it & post & -> & Hit & Hnodeit).
  assert (nd_next node = first_start post None) as -> by (by rewrite Hnodeit).
  destruct post as [|b post]; cbv beta iota delta [first_start].
  { split; [|by exists 0; split_and!; try done; lia]. apply Hnone; [done..|].
    intros pre' a b post' ?? Heq Hs _. rewrite <-Hit in Hs.
    destruct (represents_unique _ _ _ _ _ _ _ Hrep Heq (eq_sym Hs)) as (_ & _ & ?). done. }
  assert (nodes !! it_start b = Some (node_of b (Some (it_start it)) (first_start post None))) as Hb.
  { assert (represents nodes ((pre ++ [it]) ++ b :: post)) as Hr' by (by rewrite <-app_assoc).
    rewrite (represents_lookup _ _ _ _ Hr'), last_start_app. done. }
  rewrite Hb. cbv beta iota. cbn [nd_boundary_before node_of].
  assert (∀ pre' a' b' post', pre ++ it :: b :: post = pre' ++ a' :: b' :: post' → it_start a' = i → a' = it ∧ b' = b) as Huniq.
  { intros pre' a' b' post' Heq Hs. rewrite <-Hit in Hs.
    destruct (represents_unique _ _ _ _ _ _ _ Hrep Heq (eq_sym Hs)) as (_ & -> & [= -> ->]). done. }
  destruct (it_boundary b) eqn:Hbound; cbv beta iota.
  { split; [|by exists 0; split_and!; try done; lia]. apply Hnone; [done..|].
    intros pre' a' b' post' ?? Heq Hs [Hb' _]. destruct (Huniq _ _ _ _ Heq Hs) as [-> ->]. congruence. }
  destruct (Z.eqb_spec (tw_pair_lookups work) (tb_pair_lookups budget)) as [|Hneq]; cbv beta iota; [done|].
  unfold count_lookup, u64_add. munfold_goal. unfold MAX_PAIR_LOOKUPS, MAX_INPUT_BYTES in Hwork.
  destruct (Z.leb_spec (tw_pair_lookups work + 1) U64_MAX); [|lia]. cbv beta iota. cbn [nd_token node_of].
  assert (nd_token node = it_token it) as -> by (by rewrite Hnodeit).
  destruct (bb_ranks d !! (it_token it, it_token b)) as [[rank result]|] eqn:Hrank; cbv beta iota.
  - split; [|exists 1; split_and!; [done..| |done|done]; unfold len; rewrite heap_push_perm; simpl; lia].
    unfold offered. split_and!.
    + split; [apply heap_push_sorted, Hheap|]. rewrite heap_push_perm. constructor; [|apply Hheap].
      split; [done|]. simpl. split; [by rewrite Hnode|]. eexists. split; [exact Hb|]. done.
    + intros c Hc. rewrite heap_push_perm. by right.
    + intros pre' a' b' post' rank' result' Heq Hs [_ Hr]. destruct (Huniq _ _ _ _ Heq Hs) as [-> ->].
      rewrite Hrank in Hr. injection Hr as <- <-. rewrite heap_push_perm. unfold candidate_of. rewrite Hit. left.
  - split; [|exists 1; split_and!; try done; lia]. apply Hnone; [done..|].
    intros pre' a' b' post' ?? Heq Hs [_ Hr]. destruct (Huniq _ _ _ _ Heq Hs) as [-> ->]. congruence.
Qed.

(** *** Merges *)

Definition merged_item (a b : Item) (result : Z) : Item := mkItem result (it_start a) (it_end b) (it_boundary a).

Lemma merge_nodes_ok nodes pre a b post rank result :
  represents nodes (pre ++ a :: b :: post) →
  ∃ nodes', merge_nodes (candidate_of a b rank result) nodes = Ok nodes' ∧
    represents nodes' (pre ++ merged_item a b result :: post) ∧ length nodes' = length nodes ∧
    nd_boundary_before <$> nodes' = nd_boundary_before <$> nodes.
Proof.
  intros Hrep. pose proof (represents_lookup nodes pre a (b :: post) Hrep) as Ha.
  assert (represents nodes ((pre ++ [a]) ++ b :: post)) as Hrep' by (by rewrite <-app_assoc).
  pose proof (represents_lookup _ _ _ _ Hrep') as Hb. rewrite last_start_app in Hb. simpl in Hb.
  pose proof (rep_tiled _ _ Hrep) as (s & Hpre & <- & Hlta & Hsb & Hltb & Hpost)%tiled_app.
  pose proof (tiled_le _ _ _ Hpost) as Hend. pose proof (tiled_next _ _ _ Hpost) as Hnext.
  unfold merge_nodes, node_at. cbn [cd_left cd_right cd_result candidate_of]. rewrite Hb.
  cbn [expect mbind res_bind nd_next node_of nd_end].
  rewrite (update_node_ok _ _ _ _ Ha). cbn [mbind res_bind].
  rewrite (update_node_ok (it_start b) _ _ (node_of b (Some (it_start a)) (first_start post None)))
    by (rewrite list_lookup_insert_ne by lia; done).
  cbn [mbind res_bind].
  set (nodes1 := <[it_start b := _]> (<[it_start a := _]> nodes)).
  assert (length nodes1 = length nodes) as Hlen1 by (unfold nodes1; by rewrite !length_insert).
  assert (nodes1 !! it_start a = Some (node_of (merged_item a b result) (last_start None pre) (first_start post None))) as Hself.
  { unfold nodes1. rewrite list_lookup_insert_ne by lia. by rewrite list_lookup_insert_eq by lia. }
  assert (nodes1 !! it_start b = Some (kill_node (node_of b (Some (it_start a)) (first_start post None)))) as Hdead.
  { unfold nodes1. by rewrite list_lookup_insert_eq by (rewrite length_insert; lia). }
  assert (∀ i, i ≠ it_start a → i ≠ it_start b → nodes1 !! i = nodes !! i) as Hsame.
  { intros i ??. unfold nodes1. by rewrite !list_lookup_insert_ne by lia. }
  assert (nd_boundary_before <$> nodes1 = nd_boundary_before <$> nodes) as Hbound1.
  { unfold nodes1. rewrite !list_fmap_insert. simpl. rewrite (list_insert_id (_ <$> nodes) (it_start a)), list_insert_id; [done|..].
    - by rewrite list_lookup_fmap, Hb.
    - by rewrite list_lookup_fmap, Ha. }
  assert (∀ nodes', length nodes' = length nodes →
    (∀ i, i ≠ it_end b → nodes' !! i = nodes1 !! i) →
    nodes' !! it_end b = set_node_previous (Some (it_start a)) <$> nodes !! it_end b →
    represents nodes' (pre ++ merged_item a b result :: post)) as Hfuse.
  { intros nodes' Hlen Hall Hprev. apply (fused nodes nodes' pre [a; b] post (merged_item a b result)); [done..|].
    unfold fuses. simpl. split_and!; [done|by rewrite Hall by lia| |done|].
    - intros i node Hi Hnode. rewrite Hall in Hnode by lia. destruct (decide (i = it_start b)) as [->|Hne].
      + rewrite Hdead in Hnode. by injection Hnode as <-.
      + rewrite Hsame in Hnode by lia. destruct (decide (i < it_start b)%nat).
        * eapply (represents_dead nodes _ pre a (b :: post) i node Hrep); [done|lia|done].
        * eapply (represents_dead nodes _ (pre ++ [a]) b post i node Hrep'); [done|lia|done].
    - intros i Hi. rewrite Hall by lia. apply Hsame; lia. }
  rewrite Hnext. case_bool_decide as Hlt.
  - destruct (lookup_lt_is_Some_2 nodes (it_end b) Hlt) as [n Hn].
    rewrite (update_node_ok _ _ _ n) by (by rewrite Hsame by lia).
    eexists. split; [done|]. split; [|split].
    + apply Hfuse; [by rewrite length_insert| |].
      * intros i Hi. by rewrite list_lookup_insert_ne by done.
      * rewrite list_lookup_insert_eq by lia. by rewrite Hn.
    + by rewrite length_insert.
    + rewrite list_fmap_insert. simpl. rewrite list_insert_id; [done|].
      rewrite Hbound1. by rewrite list_lookup_fmap, Hn.
  - exists nodes1. split; [done|]. split; [|done]. apply Hfuse; [done|done|].
    rewrite Hsame by lia. by rewrite lookup_ge_None_2 by lia.
Qed.

(** A popped candidate that is still valid is a pair of the items. *)
Lemma still_adjacent_pair nodes items c left_node right_node :
  represents nodes items → candidate_sound nodes c →
  nodes !! cd_left c = Some left_node → nodes !! cd_right c = Some right_node →
  still_adjacent c left_node right_node = true →
  ∃ pre a b post, items = pre ++ a :: b :: post ∧ mergeable a b (cd_rank c) (cd_result c) ∧
    c = candidate_of a b (cd_rank c) (cd_result c).
Proof.
  intros Hrep (Hrank & _ & node & Hnode & Hbound) Hl Hr. unfold still_adjacent.
  rewrite !andb_true_iff, bool_decide_eq_true, !Z.eqb_eq. intros [[[[Hll Hlr] Hnext] Hlt] Hrt].
  destruct (represents_at _ _ _ _ Hrep Hl Hll) as (pre & a & post & -> & Ha & ->). simpl in *.
  destruct post as [|b post]; [done|]. simpl in Hnext. injection Hnext as Hb.
  assert (represents nodes ((pre ++ [a]) ++ b :: post)) as Hrep' by (by rewrite <-app_assoc).
  pose proof (represents_lookup _ _ _ _ Hrep') as Hb'. rewrite Hb, Hr in Hb'. injection Hb' as ->. simpl in *.
  rewrite Hr in Hnode. injection Hnode as <-. simpl in Hbound.
  exists pre, a, b, post. split; [done|]. split; [split; [done|congruence]|]. unfold candidate_of.
  destruct c; simpl in *; congruence.
Qed.
End tokenizer.
