(* ===== verification/BpePieces.v ===== *)
(** * Pieces of an encoding

    The items of an input fall into pieces that no merge crosses.  Whatever pair
    the whole input merges next is, in its piece, what the plain definition
    merges next, so the pieces are merged independently of each other. *)

From Stdlib Require Import Strings.Byte.
From stdpp Require Import base tactics numbers list gmap.
From S2P Require Import Prelude Bytes Judgment Tokens TokenNodes TokenReference SpecialTokens Pretokenizer Bpe BpeData BpeMerge.

Local Open Scope Z_scope.

Section tokenizer.
Context (d : ByteBpe).

(** ** Boundaries *)

(** A token that no rule mentions as an operand, such as a control. *)
Definition inert (token : Z) : Prop := ∀ other, bb_ranks d !! (token, other) = None ∧ bb_ranks d !! (other, token) = None.

(** Nothing merges across the boundary between two pieces. *)
Definition blocked (p q : list Item) : Prop :=
  ∃ b q', q = b :: q' ∧
    (it_boundary b = true ∨ inert (it_token b) ∨ ∃ p' a, p = p' ++ [a] ∧ inert (it_token a)).

Fixpoint separated (ps : list (list Item)) : Prop :=
  match ps with
  | p :: ((q :: _) as rest) => blocked p q ∧ separated rest
  | _ => True
  end.

(** Within a piece there is no boundary. *)
Definition seamless (p : list Item) : Prop := ∀ it, it ∈ tail p → it_boundary it = false.

Lemma separated_cons p q ps : separated (p :: q :: ps) ↔ blocked p q ∧ separated (q :: ps).
Proof. done. Qed.
Lemma separated_tail p ps : separated (p :: ps) → separated ps.
Proof. destruct ps; [done|]. by rewrite separated_cons; intros []. Qed.

Lemma not_mergeable p q pre a b post rank result :
  blocked p q → p = pre ++ [a] → q = b :: post → ¬ mergeable d a b rank result.
Proof.
  intros (b' & q' & -> & H) -> [= <- <-] [Hb Hr]. destruct H as [H|[H|(p' & a' & Heq & H)]].
  - congruence.
  - destruct (H (it_token a)). congruence.
  - apply app_inj_tail in Heq as [_ ->]. destruct (H (it_token b')). congruence.
Qed.

(** A pair that merges lies within one piece. *)
Lemma pair_in_piece ps pre a b post rank result :
  separated ps → concat ps = pre ++ a :: b :: post → mergeable d a b rank result →
  ∃ ps1 p1 p2 ps2, ps = ps1 ++ (p1 ++ a :: b :: p2) :: ps2 ∧ pre = concat ps1 ++ p1 ∧ post = p2 ++ concat ps2.
Proof.
  revert pre. induction ps as [|p ps IH]; intros pre Hsep Heq Hm; [by destruct pre|].
  simpl in Heq. apply app_eq_inv in Heq as [(k & -> & Heq)|(k & -> & Heq)].
  - destruct k as [|a' [|b' k]].
    + destruct (IH [] (separated_tail _ _ Hsep) (eq_sym Heq) Hm) as (ps1 & p1 & p2 & ps2 & -> & Hpre & ->).
      exists ((pre ++ []) :: ps1), p1, p2, ps2. split_and!; [done| |done].
      simpl. by rewrite <-app_assoc, <-Hpre, !app_nil_r.
    + injection Heq as <- Heq. exfalso. destruct ps as [|q ps]; [done|]. apply separated_cons in Hsep as [Hbl _].
      pose proof Hbl as (b' & q' & -> & _). injection Heq as <- _. by eapply not_mergeable.
    + injection Heq as <- <- ->. by exists [], pre, k, ps.
  - destruct (IH k (separated_tail _ _ Hsep) Heq Hm) as (ps1 & p1 & p2 & ps2 & -> & -> & ->).
    exists (p :: ps1), p1, p2, ps2. split_and!; [done| |done]. simpl. by rewrite <-app_assoc.
Qed.

(** ** A merge within a piece *)

Section merge.
Context (p1 : list Item) (a b : Item) (p2 : list Item) (rank result : Z).
Hypothesis (Hm : mergeable d a b rank result).

Lemma merge_blocked_before q : blocked q (p1 ++ a :: b :: p2) → blocked q (p1 ++ merged_item a b result :: p2).
Proof using Hm.
  intros (x & q' & Heq & H). destruct p1 as [|y p1']; simpl in *; injection Heq as <- <-.
  - exists (merged_item a b result), p2. split; [done|]. destruct H as [H|[H|H]]; [by left| |by right; right].
    destruct Hm as [_ Hr]. destruct (H (it_token b)). congruence.
  - by exists y, (p1' ++ merged_item a b result :: p2).
Qed.

Lemma merge_blocked_after q : blocked (p1 ++ a :: b :: p2) q → blocked (p1 ++ merged_item a b result :: p2) q.
Proof using Hm.
  intros (x & q' & -> & H). exists x, q'. split; [done|]. destruct H as [H|[H|(p' & y & Heq & H)]]; [auto..|].
  right. right. destruct p2 as [|z p2' _] using rev_ind.
  - exfalso. change (p1 ++ [a; b]) with (p1 ++ [a] ++ [b]) in Heq. rewrite app_assoc in Heq.
    apply app_inj_tail in Heq as [_ <-]. destruct Hm as [_ Hr]. destruct (H (it_token a)). congruence.
  - exists (p1 ++ merged_item a b result :: p2'), y. split; [|done]. rewrite <-app_assoc. simpl.
    change (p1 ++ a :: b :: p2' ++ [z]) with (p1 ++ (a :: b :: p2') ++ [z]) in Heq. rewrite app_assoc in Heq.
    by apply app_inj_tail in Heq as [_ ->].
Qed.

Lemma merge_seamless : seamless (p1 ++ a :: b :: p2) → seamless (p1 ++ merged_item a b result :: p2).
Proof using.
  unfold seamless. destruct p1 as [|y p1']; simpl; intros H it Hin; [apply H; by right|].
  apply elem_of_app in Hin as [Hin|[->|Hin]%elem_of_cons].
  - apply H, elem_of_app. by left.
  - apply (H a), elem_of_app. right. left.
  - apply H, elem_of_app. right. by do 2 right.
Qed.
End merge.

Lemma separated_replace ps1 p p' ps2 :
  (∀ q, blocked q p → blocked q p') → (∀ q, blocked p q → blocked p' q) →
  separated (ps1 ++ p :: ps2) → separated (ps1 ++ p' :: ps2).
Proof.
  intros Hbefore Hafter. induction ps1 as [|q [|q' ps1] IH].
  - destruct ps2 as [|r ps2]; [done|]. simpl. naive_solver.
  - cbn [app]. rewrite !separated_cons. intros [H1 H2]. split; [by apply Hbefore|by apply IH].
  - cbn [app]. rewrite !separated_cons. intros [H1 H2]. split; [done|by apply IH].
Qed.

(** ** What the plain definition does in a piece *)

Hypothesis Hd : admitted d.

Lemma mergeable_rule a b rank result :
  mergeable d a b rank result → 0 ≤ rank ∧
  bb_merges d !! Z.to_nat rank = Some (mkMerge (it_token a) (it_token b) result).
Proof using Hd. intros [_ Hr]. by apply (ad_ranks _ Hd). Qed.

(** An occurrence of a rule in a seamless piece is a pair that merges. *)
Lemma occurrence p k rule q1 x y q2 :
  seamless p → bb_merges d !! k = Some rule → flat <$> p = q1 ++ x :: y :: q2 → occurs rule x y →
  ∃ p1 a b p2, p = p1 ++ a :: b :: p2 ∧ q1 = flat <$> p1 ∧ x = flat a ∧ y = flat b ∧ q2 = flat <$> p2 ∧
    mergeable d a b (Z.of_nat k) (mg_result rule).
Proof using Hd.
  intros Hs Hk (p1 & rest & -> & Hrest & ->)%fmap_app_inv [Hx Hy].
  symmetry in Hrest. apply fmap_cons_inv in Hrest as (a & rest' & -> & Hrest & ->). symmetry in Hrest.
  apply fmap_cons_inv in Hrest as (b & p2 & -> & -> & ->). exists p1, a, b, p2. split_and!; try done. split.
  - apply Hs. destruct p1; simpl; set_solver.
  - apply (ad_ranks _ Hd). split; [lia|]. rewrite Nat2Z.id, Hk. simpl in Hx, Hy. by destruct rule; simpl in *; subst.
Qed.

(** The lowest rank, leftmost, is the next round of the plain definition. *)
Lemma first_rule_pair p1 a b p2 rank result :
  let p := p1 ++ a :: b :: p2 in
  seamless p → mergeable d a b rank result → (∀ it, it ∈ p → (it_start it < it_end it)%nat) → it_end a = it_start b →
  (∀ q1 x y q2 rank' result', p = q1 ++ x :: y :: q2 → mergeable d x y rank' result' →
     rank < rank' ∨ rank = rank' ∧ (length p1 ≤ length q1)%nat) →
  first_rule (bb_merges d) (flat <$> p) = Some (flat <$> (p1 ++ merged_item a b result :: p2)).
Proof using Hd.
  intros p Hs Hm Hwide Hadj Hleast. destruct (mergeable_rule _ _ _ _ Hm) as [Hrank Hrule].
  pose proof (list_elem_of_split_length _ _ _ Hrule) as (before & after & Hsplit & Hlen).
  eapply first_rule_at; [exact Hsplit|..].
  - intros r [k Hk]%list_elem_of_lookup. apply apply_rule_none. intros q1 x y q2 Heq Hocc.
    pose proof (lookup_lt_Some _ _ _ Hk).
    destruct (occurrence p k r q1 x y q2 Hs) as (p1' & a' & b' & p2' & Hp & _ & _ & _ & _ & Hm');
      [rewrite Hsplit, lookup_app_l by done; done|done|done|].
    destruct (Hleast _ _ _ _ _ _ Hp Hm'); lia.
  - unfold p. rewrite fmap_app. simpl. rewrite (apply_rule_leftmost _ (flat <$> p1) (flat a) (flat b)).
    + rewrite fmap_app. simpl. do 3 f_equal. unfold flat. simpl. f_equal.
      assert (it_start a < it_end a)%nat by (apply Hwide; set_solver).
      assert (it_start b < it_end b)%nat by (apply Hwide; set_solver). lia.
    + done.
    + intros q1 x y q2 Heq Hocc.
      assert (flat <$> p = q1 ++ x :: y :: (q2 ++ (flat <$> b :: p2))) as Heq'.
      { unfold p. rewrite (cons_middle a), app_assoc, fmap_app, fmap_app. simpl (flat <$> [a]). rewrite Heq, <-app_assoc. done. }
      destruct (occurrence p _ _ q1 x y _ Hs Hrule Heq' Hocc) as (p1' & a' & b' & p2' & Hp & -> & -> & -> & _ & Hm').
      apply (f_equal length) in Heq. rewrite !length_app, !length_fmap in Heq. simpl in Heq.
      destruct (Hleast _ _ _ _ _ _ Hp Hm') as [|[_ ?]]; lia.
Qed.

Lemma first_rule_stuck p :
  seamless p → (∀ q1 x y q2 rank result, p = q1 ++ x :: y :: q2 → ¬ mergeable d x y rank result) →
  first_rule (bb_merges d) (flat <$> p) = None.
Proof using Hd.
  intros Hs Hstuck. apply first_rule_none. intros r [k Hk]%list_elem_of_lookup. apply apply_rule_none.
  intros q1 x y q2 Heq Hocc.
  destruct (occurrence p k r q1 x y q2 Hs Hk Heq Hocc) as (p1 & a & b & p2 & Hp & _ & _ & _ & _ & Hm).
  by eapply Hstuck.
Qed.
End tokenizer.
