(* ===== verification/BpeEncode.v ===== *)
(** * Every encoding is the plain merging of its pieces

    The invariant of a cursor through its phases, the bound on its steps and the
    reasons for which it fails. *)

From Stdlib Require Import Strings.Byte.
From stdpp Require Import base tactics numbers list gmap sorting.
From S2P Require Import Prelude Bytes Judgment Orders Tokens TokenNodes TokenReference SpecialTokens.
From S2P Require Import Pretokenizer Bpe BpeData BpeMerge BpePieces.

Local Open Scope Z_scope.

(** ** What a cursor has to produce *)

Section encoding.
Context (d : ByteBpe) (source : bytes) (budget : TokenizationBudget) (initial : list (list Item)).
Hypothesis Hd : admitted d.
Hypothesis Hsource : len source ≤ MAX_INPUT_BYTES.
Hypothesis Hinitial : len (concat initial) ≤ len source.
Hypothesis Hlookups : 0 ≤ tb_pair_lookups budget ≤ MAX_PAIR_LOOKUPS.
Hypothesis Hpops : 0 ≤ tb_heap_pops budget ≤ MAX_HEAP_POPS.

Abbreviation n := (length source).

Definition bos_tokens : list Z := match bb_bos_token d with Some bos => [bos] | None => [] end.
Definition bos_spans : list (nat * nat) := match bb_bos_token d with Some _ => [(O, O)] | None => [] end.

(** The pieces, merged independently by the plain definition. *)
Definition merged_pieces : piece := concat ((λ p, bpe_reference (bb_merges d) (flat <$> p)) <$> initial).

(** ** The invariant *)

Record running (c : TokenizationCursor) (pieces : list (list Item)) : Prop := {
  ru_tokenizer : tc_tokenizer c = d;
  ru_source : tc_source c = source;
  ru_budget : tc_budget c = budget;
  ru_nodes : represents (tc_nodes c) (concat pieces);
  ru_length : length (tc_nodes c) = n;
  ru_heap : heap_ok d (tc_nodes c) (tc_heap c);
  ru_separated : separated d pieces;
  ru_seamless : Forall seamless pieces;
  ru_same : Forall2 (λ p p0, bpe_reference (bb_merges d) (flat <$> p) = bpe_reference (bb_merges d) (flat <$> p0)) pieces initial;
  ru_input : tw_input_bytes (tc_work c) = len source;
  ru_pops : 0 ≤ tw_heap_pops (tc_work c) ≤ tb_heap_pops budget;
  ru_pushed : tw_heap_pops (tc_work c) + len (tc_heap c) ≤ tw_pair_lookups (tc_work c);
  ru_lookups : tw_pair_lookups (tc_work c) ≤ tb_pair_lookups budget;
  ru_merges : 0 ≤ tw_merges (tc_work c) ∧
    tw_merges (tc_work c) + len (concat pieces) = len (concat initial);
}.

Definition emitted (c : TokenizationCursor) (items : list Item) : Prop :=
  tc_tokens c = bos_tokens ++ (it_token <$> items) ∧
  tc_spans c = bos_spans ++ ((λ it, (it_start it, it_end it)) <$> items).

Record finished (c : TokenizationCursor) : Prop := {
  fi_tokenizer : tc_tokenizer c = d;
  fi_source : tc_source c = source;
  fi_tokens : tc_tokens c = bos_tokens ++ merged_pieces.*1;
  fi_spans : tc_spans c = bos_spans ++ spans_from 0 merged_pieces;
  fi_input : tw_input_bytes (tc_work c) = len source;
  fi_lookups : 0 ≤ tw_pair_lookups (tc_work c) ≤ tb_pair_lookups budget ∧ tw_pair_lookups (tc_work c) ≤ 3 * len source;
  fi_pops : 0 ≤ tw_heap_pops (tc_work c) ≤ tb_heap_pops budget ∧ tw_heap_pops (tc_work c) ≤ tw_pair_lookups (tc_work c);
  fi_merges : 0 ≤ tw_merges (tc_work c) ∧ tw_merges (tc_work c) + len merged_pieces = len (concat initial);
}.

(** No rule applies in any piece. *)
Definition settled (pieces : list (list Item)) : Prop :=
  Forall (λ p, first_rule (bb_merges d) (flat <$> p) = None) pieces.

(** The phases, with a bound on the steps that are left. *)
Definition phase_ok (steps : nat) (c : TokenizationCursor) : Prop :=
  match tc_phase c with
  | Offering i => ∃ pieces, running c pieces ∧ emitted c [] ∧ (i ≤ n)%nat ∧
      tw_pair_lookups (tc_work c) ≤ Z.of_nat i ∧ complete_upto d (concat pieces) (tc_heap c) i ∧
      (2 * (n - i) + length (tc_heap c) + 3 * length (concat pieces) + 3 ≤ steps)%nat
  | Merging => ∃ pieces, running c pieces ∧ emitted c [] ∧
      tw_pair_lookups (tc_work c) ≤ len source + 2 * (len source - len (concat pieces)) ∧
      complete_upto d (concat pieces) (tc_heap c) n ∧
      (length (tc_heap c) + 3 * length (concat pieces) + 2 ≤ steps)%nat
  | Collecting current => ∃ pieces done_ rest, running c pieces ∧ settled pieces ∧ concat pieces = done_ ++ rest ∧
      emitted c done_ ∧ current = first_start rest None ∧ tw_pair_lookups (tc_work c) ≤ 3 * len source ∧
      (length rest + 1 ≤ steps)%nat
  | EncodingComplete | EncodingFailed _ => False
  end.

(** Why an encoding is refused: a budget below three times the input is used up,
    or the output has more tokens than the ceiling. *)
Definition exhausted (work : TokenizationWork) : Prop :=
  (tw_pair_lookups work = tb_pair_lookups budget ∧ tw_pair_lookups work < 3 * len source) ∨
  (tw_heap_pops work = tb_heap_pops budget ∧ tw_heap_pops work < 3 * len source) ∨
  MAX_INPUT_BYTES < len (bos_tokens ++ merged_pieces.*1).

Definition step_outcome (steps : nat) (out : res Error TokenizationProgress * TokenizationCursor) : Prop :=
  match out with
  | (Ok TokenizationPending, c) => ∃ steps', steps = S steps' ∧ phase_ok steps' c
  | (Ok TokenizationComplete, c) => tc_phase c = EncodingComplete ∧ finished c
  | (Err e, c) => e = Limit ∧ exhausted (tc_work c)
  | (Panic, _) => False
  end.

(** ** Items and input *)

Lemma items_within nodes items : represents nodes items → (length items ≤ length nodes)%nat.
Proof using Type. intros [Ht%tiled_length _ _]. lia. Qed.

Lemma settled_result c pieces : running c pieces → settled pieces → flat <$> concat pieces = merged_pieces.
Proof using Type*.
  intros Hrun Hs. unfold merged_pieces. pose proof (ru_same _ _ Hrun) as Hsame. clear Hrun Hinitial. unfold settled in Hs.
  induction Hsame as [|p p0 ps ps0 Heq Hsame IH]; [done|]. apply Forall_cons in Hs as [Hp Hs].
  rewrite bpe_reference_stop in Heq by done. simpl. rewrite fmap_app, <-Heq, IH; done.
Qed.

(** ** Offers *)

Lemma offer_at_ok c pieces i :
  running c pieces → (i < n)%nat → 0 ≤ tw_pair_lookups (tc_work c) →
  match offer_at i c with
  | (Ok _, c') => running c' pieces ∧ offered d (tc_nodes c) (concat pieces) i (tc_heap c) (tc_heap c') ∧
      tc_nodes c' = tc_nodes c ∧ tc_phase c' = tc_phase c ∧ tc_tokens c' = tc_tokens c ∧ tc_spans c' = tc_spans c ∧
      (length (tc_heap c') ≤ S (length (tc_heap c)))%nat ∧
      tw_pair_lookups (tc_work c) ≤ tw_pair_lookups (tc_work c') ≤ tw_pair_lookups (tc_work c) + 1
  | (Err e, c') => e = Limit ∧ tw_pair_lookups (tc_work c) = tb_pair_lookups budget ∧ tc_work c' = tc_work c
  | (Panic, _) => False
  end.
Proof using Type*.
  intros Hrun Hi Hnonneg. unfold offer_at. munfold_goal.
  pose proof (offer_ok d (tc_nodes c) (concat pieces) i (tc_budget c) (tc_heap c) (tc_work c)) as H.
  rewrite (ru_tokenizer _ _ Hrun). pose proof (ru_lookups _ _ Hrun).
  specialize (H (ru_nodes _ _ Hrun) ltac:(rewrite (ru_length _ _ Hrun); lia) (ru_heap _ _ Hrun) ltac:(lia)).
  destruct (offer d i (tc_nodes c) (tc_budget c) (tc_heap c, tc_work c)) as [[[]|e|] [heap' work']]; [..|done].
  - destruct H as (Hoff & k & Hk & Hlen & Hmore & Hfull). rewrite (ru_budget _ _ Hrun) in Hfull. unfold more_lookups in Hmore.
    subst work'. simpl. split_and!; [|done..|unfold len in Hlen; lia|lia|lia].
    destruct Hrun. split; simpl; try done; [apply Hoff|lia|].
    destruct (decide (k = 1)) as [->|]; [specialize (Hfull eq_refl)|]; lia.
  - destruct H as (-> & Hb & [= -> ->]). rewrite <-(ru_budget _ _ Hrun). done.
Qed.

(** ** The phases *)

Lemma running_set_phase c pieces phase : running c pieces → running (set_phase phase c) pieces.
Proof using Type*. intros []. by split. Qed.

Lemma running_lookups c pieces : running c pieces → 0 ≤ tw_pair_lookups (tc_work c).
Proof using Type*. intros H. pose proof (ru_pops _ _ H). pose proof (ru_pushed _ _ H). pose proof (len_nonneg (tc_heap c)). lia. Qed.

Lemma running_items c pieces : running c pieces → (length (concat pieces) ≤ n)%nat.
Proof using Type*. intros H. rewrite <-(ru_length _ _ H). apply items_within, (ru_nodes _ _ H). Qed.

Lemma len_nat {A} (l : list A) : len l = Z.of_nat (length l).
Proof using Type*. done. Qed.

Lemma offering_step steps c i :
  tc_phase c = Offering i → phase_ok steps c → step_outcome steps (encoding_advance_inner c).
Proof using Type*.
  unfold phase_ok. intros Hphase. rewrite Hphase. intros (pieces & Hrun & Hemit & Hi & Hlook & Hcomplete & Hsteps).
  unfold encoding_advance_inner. munfold_goal. rewrite Hphase. rewrite (ru_length _ _ Hrun).
  pose proof (running_items _ _ Hrun). destruct steps as [|steps]; [lia|]. case_bool_decide as Hin.
  - pose proof (offer_at_ok c pieces i Hrun Hin (running_lookups _ _ Hrun)) as Ho.
    destruct (offer_at i c) as [[[]|e|] c']; cbv beta iota; [..|done].
    + destruct Ho as (Hrun' & (Hheap & Hsub & Hnew) & Hnodes & Hph & Htok & Hspan & Hlen & Hl). exists steps. split; [done|].
      unfold phase_ok. simpl. exists pieces. split_and!; [by apply running_set_phase| |lia|lia| |].
      * split; simpl; [rewrite Htok|rewrite Hspan]; apply Hemit.
      * intros pre a b post rank result Heq Hlt Hm. destruct (decide (it_start a = i)) as [Ha|Ha].
        -- by eapply Hnew.
        -- apply Hsub. eapply Hcomplete; [done|lia|done].
      * lia.
    + destruct Ho as (-> & Hl & Hwork). split; [done|]. left. rewrite Hwork. unfold len. lia.
  - exists steps. split; [done|]. unfold phase_ok. simpl. exists pieces. assert (i = n) as -> by lia.
    split_and!; [by apply running_set_phase|done|unfold len; lia|done|lia].
Qed.

Lemma collecting_step steps c current :
  tc_phase c = Collecting current → phase_ok steps c → step_outcome steps (encoding_advance_inner c).
Proof using Type*.
  unfold phase_ok. intros Hphase. rewrite Hphase.
  intros (pieces & done_ & rest & Hrun & Hsettled & Hitems & Hemit & -> & Hlook & Hsteps).
  pose proof (settled_result _ _ Hrun Hsettled) as Hresult. rewrite Hitems in Hresult.
  unfold encoding_advance_inner. munfold_goal. rewrite Hphase. destruct rest as [|it rest]; cbv beta iota delta [first_start].
  - split; [done|]. destruct Hemit as [Htok Hspan]. rewrite app_nil_r in *. destruct (ru_nodes _ _ Hrun) as [Ht _ _].
    rewrite Hitems in Ht. apply flat_spans in Ht. pose proof (running_lookups _ _ Hrun).
    pose proof (ru_pushed _ _ Hrun). pose proof (len_nonneg (tc_heap c)).
    destruct Hrun. split; simpl; try done; try lia.
    + rewrite Htok, <-Hresult. by rewrite <-list_fmap_compose.
    + rewrite Hspan, <-Hresult. by rewrite Ht.
    + rewrite Hitems in ru_merges0. rewrite <-Hresult. unfold len in *. rewrite length_fmap. lia.
  - destruct Hemit as [Htok Hspan]. destruct (Z.eqb_spec (len (tc_tokens c)) MAX_INPUT_BYTES) as [Hfull|Hroom]; cbv beta iota.
    + split; [done|]. right. right. rewrite Htok in Hfull. rewrite <-Hresult, <-list_fmap_compose, <-Hfull, !len_app.
      rewrite fmap_app. rewrite len_app. simpl. unfold len. rewrite !length_fmap. simpl. lia.
    + pose proof (ru_nodes _ _ Hrun) as Hrep. rewrite Hitems in Hrep.
      unfold node_at. rewrite (represents_lookup _ _ _ _ Hrep). munfold_goal. cbn [nd_token nd_end nd_next node_of].
      simpl in Hsteps. destruct steps as [|steps]; [lia|]. exists steps. split; [done|]. unfold phase_ok. simpl.
      exists pieces, (done_ ++ [it]), rest. split_and!; [by destruct Hrun|done|by rewrite <-app_assoc| |done|done|lia].
      * split; simpl; [rewrite Htok|rewrite Hspan]; by rewrite fmap_app, app_assoc.
Qed.

(** *** Merging *)

Lemma merge_pieces c pieces pre a b post rank result :
  running c pieces → concat pieces = pre ++ a :: b :: post → mergeable d a b rank result →
  (∀ pre' x y post' rank' result', concat pieces = pre' ++ x :: y :: post' → mergeable d x y rank' result' →
     rank < rank' ∨ rank = rank' ∧ (it_start a ≤ it_start x)%nat) →
  ∃ pieces', concat pieces' = pre ++ merged_item a b result :: post ∧ separated d pieces' ∧ Forall seamless pieces' ∧
    Forall2 (λ p p0, bpe_reference (bb_merges d) (flat <$> p) = bpe_reference (bb_merges d) (flat <$> p0)) pieces' initial.
Proof using Type*.
  intros Hrun Hitems Hm Hleast.
  destruct (pair_in_piece d pieces pre a b post rank result (ru_separated _ _ Hrun) Hitems Hm)
    as (ps1 & p1 & p2 & ps2 & -> & -> & ->).
  exists (ps1 ++ (p1 ++ merged_item a b result :: p2) :: ps2).
  pose proof (ru_seamless _ _ Hrun) as Hseam. apply Forall_app in Hseam as [Hseam1 [Hp Hseam2]%Forall_cons].
  pose proof (rep_tiled _ _ (ru_nodes _ _ Hrun)) as Htiled.
  rewrite concat_app in Htiled, Hleast. simpl in Htiled, Hleast. split_and!.
  - rewrite concat_app. simpl. by rewrite <-!app_assoc.
  - eapply separated_replace; [..|exact (ru_separated _ _ Hrun)].
    + intros q. by apply (merge_blocked_before d p1 a b p2 rank result).
    + intros q. by apply (merge_blocked_after d p1 a b p2 rank result).
  - apply Forall_app. split; [done|]. constructor; [by eapply merge_seamless|done].
  - pose proof (ru_same _ _ Hrun) as Hsame. apply Forall2_app_inv_l in Hsame as (is1 & is2 & H1 & H2 & ->).
    apply Forall2_app; [done|]. inversion H2 as [|? p0 ? ? Heq H3]; subst. constructor; [|done].
    rewrite <-Heq. symmetry. apply bpe_reference_step.
    apply tiled_app in Htiled as (m1 & Ht1 & (m2 & Htp & Ht2)%tiled_app).
    apply (first_rule_pair d Hd p1 a b p2 rank result Hp Hm).
    + intros it Hin. by destruct (tiled_in _ _ _ _ Htp Hin) as (_ & ? & _).
    + apply tiled_app in Htp as (m & _ & _ & _ & Hb & _). done.
    + intros q1 x y q2 rank' result' Hq Hm'.
      destruct (Hleast (concat ps1 ++ q1) x y (q2 ++ concat ps2) rank' result') as [|[-> Hstart]]; [|done|by left|].
      { rewrite Hq, <-!app_assoc. done. }
      right. split; [done|]. destruct (decide (length p1 ≤ length q1)%nat) as [|Hlt]; [done|]. exfalso.
      assert (∃ k, k ≠ [] ∧ p1 = q1 ++ k ∧ x :: y :: q2 = k ++ a :: b :: p2) as (k & Hk & -> & Hrest).
      { apply app_eq_inv in Hq as [(k & -> & Hq)|(k & -> & Hq)]; [|rewrite length_app in Hlt; lia].
        exists k. split; [|done]. intros ->. rewrite app_nil_r in Hlt. lia. }
      destruct k as [|x' k]; [done|]. injection Hrest as -> _. rewrite <-app_assoc in Htp.
      apply tiled_app in Htp as (m & _ & Hs & Hlt' & (m' & Hk' & Ha & _)%tiled_app). apply tiled_le in Hk'. lia.
Qed.

(** Candidates of pairs that a merge leaves alone are not the popped one. *)
Lemma kept_candidate heap c x y rank result :
  candidate_of x y rank result ∈ c :: heap → it_start x ≠ cd_left c → candidate_of x y rank result ∈ heap.
Proof using Type*. intros [Heq|Hin]%elem_of_cons Hne; [|done]. rewrite <-Heq in Hne. done. Qed.

(** A pair around a merged item is a new one, or an old one elsewhere. *)
Lemma merged_pairs pre a b result post pre' x y post' :
  pre ++ merged_item a b result :: post = pre' ++ x :: y :: post' →
  (x = merged_item a b result) ∨ (∃ pre1, pre = pre1 ++ [x] ∧ y = merged_item a b result) ∨
  (∃ pre1 post1, pre ++ a :: b :: post = pre1 ++ x :: y :: post1 ∧ (x ∈ pre ∨ x ∈ post)).
Proof using Type*.
  intros [(k & -> & Heq)|(k & -> & Heq)]%app_eq_inv.
  - destruct k as [|x' [|y' k]]; [|by injection Heq as <- <- _; right; left; exists pre'|].
    + injection Heq as -> _. by left.
    + injection Heq as <- <- ->. right. right. exists pre', (k ++ a :: b :: post). split; [by rewrite <-app_assoc|]. left.
      apply elem_of_app. right. left.
  - destruct k as [|m k]; [injection Heq as -> _; by left|]. injection Heq as <- ->. right. right.
    exists (pre ++ a :: b :: k), post'. split; [by rewrite <-app_assoc|]. right. apply elem_of_app. right. left.
Qed.

Lemma count_pop_ok work :
  0 ≤ tw_heap_pops work ≤ MAX_HEAP_POPS → count_pop work =
  Ok (mkTokenizationWork (tw_input_bytes work) (tw_pair_lookups work) (tw_heap_pops work + 1) (tw_merges work)).
Proof using Type*.
  unfold MAX_HEAP_POPS, MAX_INPUT_BYTES. intros H. unfold count_pop, u64_add. munfold_goal.
  by destruct (Z.leb_spec (tw_heap_pops work + 1) U64_MAX); [|lia].
Qed.

Lemma count_merge_ok work :
  0 ≤ tw_merges work ≤ MAX_INPUT_BYTES → count_merge work =
  Ok (mkTokenizationWork (tw_input_bytes work) (tw_pair_lookups work) (tw_heap_pops work) (tw_merges work + 1)).
Proof using Type*.
  unfold MAX_INPUT_BYTES. intros H. unfold count_merge, u64_add. munfold_goal.
  by destruct (Z.leb_spec (tw_merges work + 1) U64_MAX); [|lia].
Qed.

Definition popped (heap : list Candidate) (c : TokenizationCursor) : TokenizationCursor :=
  set_heap_work (heap, mkTokenizationWork (tw_input_bytes (tc_work c)) (tw_pair_lookups (tc_work c))
    (tw_heap_pops (tc_work c) + 1) (tw_merges (tc_work c))) c.

Lemma running_popped c pieces first heap :
  running c pieces → tc_heap c = first :: heap → tw_heap_pops (tc_work c) ≠ tb_heap_pops budget →
  running (popped heap c) pieces.
Proof using Type*.
  intros Hrun Heq Hne. destruct Hrun. rewrite Heq in *. destruct ru_heap0 as [Hsort Hsound].
  apply StronglySorted_inv in Hsort as [Hsort _]. apply Forall_cons in Hsound as [_ Hsound].
  split; simpl; try done; [lia|]. unfold len in *. simpl in *. lia.
Qed.

Definition merged_cursor (nodes : list Node) (c : TokenizationCursor) : TokenizationCursor :=
  set_heap_work (tc_heap c, mkTokenizationWork (tw_input_bytes (tc_work c)) (tw_pair_lookups (tc_work c))
    (tw_heap_pops (tc_work c)) (tw_merges (tc_work c) + 1)) (set_nodes nodes c).

Lemma running_merged c pieces nodes pieces' :
  running c pieces → represents nodes (concat pieces') → length nodes = length (tc_nodes c) →
  nd_boundary_before <$> nodes = nd_boundary_before <$> tc_nodes c → separated d pieces' → Forall seamless pieces' →
  Forall2 (λ p p0, bpe_reference (bb_merges d) (flat <$> p) = bpe_reference (bb_merges d) (flat <$> p0)) pieces' initial →
  length (concat pieces) = S (length (concat pieces')) →
  running (merged_cursor nodes c) pieces'.
Proof using Type*.
  intros Hrun Hrep Hlen Hbound Hsep Hseam Hsame Hshort. destruct Hrun. split; simpl; try done.
  - by rewrite Hlen.
  - destruct ru_heap0 as [Hsort Hsound]. split; [done|]. eapply Forall_impl; [exact Hsound|].
    intros x. by apply candidate_sound_frame.
  - unfold len in *. lia.
Qed.

(** The offers after a merge: at the previous item, then at the merged one. *)
Lemma offers_after_merge c pieces pre it post :
  running c pieces → concat pieces = pre ++ it :: post →
  match ((match last_start None pre with Some previous => offer_at previous | None => mret tt end);;
         offer_at (it_start it)) c with
  | (Ok _, c') => running c' pieces ∧ tc_phase c' = tc_phase c ∧ tc_tokens c' = tc_tokens c ∧ tc_spans c' = tc_spans c ∧
      (∀ x, x ∈ tc_heap c → x ∈ tc_heap c') ∧
      (∀ pre' x y post' rank result, concat pieces = pre' ++ x :: y :: post' → mergeable d x y rank result →
         Some (it_start x) = last_start None pre ∨ it_start x = it_start it →
         candidate_of x y rank result ∈ tc_heap c') ∧
      (length (tc_heap c') ≤ 2 + length (tc_heap c))%nat ∧
      tw_pair_lookups (tc_work c') ≤ tw_pair_lookups (tc_work c) + 2
  | (Err e, c') => e = Limit ∧ tw_pair_lookups (tc_work c') = tb_pair_lookups budget ∧
      tw_pair_lookups (tc_work c') ≤ tw_pair_lookups (tc_work c) + 1
  | (Panic, _) => False
  end.
Proof using Type*.
  intros Hrun Hitems. pose proof (rep_tiled _ _ (ru_nodes _ _ Hrun)) as Ht. rewrite Hitems in Ht.
  rewrite (ru_length _ _ Hrun) in Ht.
  assert (it_start it < n)%nat as Hin by (destruct (tiled_in _ _ _ it Ht); [set_solver|lia]).
  munfold_goal. pose proof (running_lookups _ _ Hrun) as Hl0.
  destruct (last_start None pre) as [previous|] eqn:Hlast; cbv beta iota.
  - assert (previous < n)%nat as Hprev.
    { destruct pre as [|x pre _] using rev_ind; [done|]. rewrite last_start_app in Hlast. simpl in Hlast. injection Hlast as <-.
      destruct (tiled_in _ _ _ x Ht); [set_solver|lia]. }
    pose proof (offer_at_ok c pieces previous Hrun Hprev Hl0) as H1.
    destruct (offer_at previous c) as [[[]|e|] c1]; cbv beta iota; [..|done].
    2: { destruct H1 as (-> & Hb & Hw). rewrite Hw. split_and!; [done|done|lia]. }
    destruct H1 as (Hrun1 & (_ & Hsub1 & Hnew1) & Hn1 & Hp1 & Ht1 & Hs1 & Hlen1 & Hk1).
    pose proof (offer_at_ok c1 pieces (it_start it) Hrun1 Hin (running_lookups _ _ Hrun1)) as H2.
    destruct (offer_at (it_start it) c1) as [[[]|e|] c2]; cbv beta iota; [..|done].
    2: { destruct H2 as (-> & Hb & Hw). rewrite Hw. split_and!; [done|done|lia]. }
    destruct H2 as (Hrun2 & (_ & Hsub2 & Hnew2) & Hn2 & Hp2 & Ht2 & Hs2 & Hlen2 & Hk2).
    split_and!; [done|congruence..|by auto| |lia|lia].
    intros pre' x y post' rank result Heq Hm [[= Hx]|Hx]; [apply Hsub2; by eapply Hnew1|by eapply Hnew2].
  - pose proof (offer_at_ok c pieces (it_start it) Hrun Hin Hl0) as H2.
    destruct (offer_at (it_start it) c) as [[[]|e|] c2]; cbv beta iota; [..|done].
    2: { destruct H2 as (-> & Hb & Hw). rewrite Hw. split_and!; [done|done|lia]. }
    destruct H2 as (Hrun2 & (_ & Hsub2 & Hnew2) & Hn2 & Hp2 & Ht2 & Hs2 & Hlen2 & Hk2).
    split_and!; [done|done|done|done|done| |lia|lia].
    intros pre' x y post' rank result Heq Hm [[=]|Hx]; by eapply Hnew2.
Qed.

Lemma merge_candidate_eq c a b rank result nodes pre post :
  merge_nodes (candidate_of a b rank result) (tc_nodes c) = Ok nodes →
  represents nodes (pre ++ merged_item a b result :: post) → 0 ≤ tw_merges (tc_work c) ≤ MAX_INPUT_BYTES →
  merge_candidate (candidate_of a b rank result) c =
  ((match last_start None pre with Some previous => offer_at previous | None => mret tt end);;
   offer_at (it_start (merged_item a b result))) (merged_cursor nodes c).
Proof using Type.
  intros Hmerge Hrep Hm. unfold merge_candidate. munfold_goal. rewrite Hmerge. cbv beta iota.
  rewrite count_merge_ok by done. cbv beta iota. unfold node_at.
  change (cd_left (candidate_of a b rank result)) with (it_start (merged_item a b result)).
  rewrite (represents_lookup _ _ _ _ Hrep). done.
Qed.

Lemma represents_apart nodes pre a b post x :
  represents nodes (pre ++ a :: b :: post) → x ∈ pre ∨ x ∈ post → it_start x ≠ it_start a.
Proof using Type.
  intros [Ht _ _] Hx. apply tiled_app in Ht as (m & Hpre & <- & Hlt & Hb & Hltb & Hpost).
  destruct Hx as [Hx|Hx]; [destruct (tiled_in _ _ _ _ Hpre Hx)|destruct (tiled_in _ _ _ _ Hpost Hx)]; lia.
Qed.

(** The head of the heap is the least pair that merges. *)
Lemma least_candidate c pieces a b rank result heap :
  running c pieces → complete_upto d (concat pieces) (tc_heap c) n → tc_heap c = candidate_of a b rank result :: heap →
  ∀ pre' x y post' rank' result', concat pieces = pre' ++ x :: y :: post' → mergeable d x y rank' result' →
    rank < rank' ∨ rank = rank' ∧ (it_start a ≤ it_start x)%nat.
Proof using Type*.
  intros Hrun Hcomplete Hheap pre' x y post' rank' result' Heq Hm.
  assert (it_start x < n)%nat as Hx.
  { pose proof (rep_tiled _ _ (ru_nodes _ _ Hrun)) as Ht. rewrite (ru_length _ _ Hrun), Heq in Ht.
    destruct (tiled_in _ _ _ x Ht); [set_solver|lia]. }
  specialize (Hcomplete _ _ _ _ _ _ Heq Hx Hm). destruct (ru_heap _ _ Hrun) as [Hsort _]. rewrite Hheap in *.
  apply StronglySorted_inv in Hsort as [_ Hle]. rewrite Forall_forall in Hle.
  apply elem_of_cons in Hcomplete as [[= -> ? ? ? ? ?]|Hin]; [lia|].
  apply (candidate_le _ _ (Hle _ Hin)).
Qed.

(** Nothing is left to merge when no candidate is. *)
Lemma nothing_left c pieces :
  running c pieces → complete_upto d (concat pieces) [] n → settled pieces.
Proof using Type*.
  intros Hrun Hcomplete. apply Forall_forall. intros p Hp.
  pose proof (ru_seamless _ _ Hrun) as Hseam. rewrite Forall_forall in Hseam. apply first_rule_stuck; [done|by apply Hseam|].
  intros q1 x y q2 rank result -> Hm. apply list_elem_of_split in Hp as (ps1 & ps2 & Hps).
  assert (concat pieces = (concat ps1 ++ q1) ++ x :: y :: (q2 ++ concat ps2)) as Heq.
  { rewrite Hps, concat_app. simpl. by rewrite <-!app_assoc. }
  assert (it_start x < n)%nat as Hx.
  { pose proof (rep_tiled _ _ (ru_nodes _ _ Hrun)) as Ht. rewrite (ru_length _ _ Hrun), Heq in Ht.
    destruct (tiled_in _ _ _ x Ht); [set_solver|lia]. }
  by apply (Hcomplete _ _ _ _ _ _ Heq Hx), elem_of_nil in Hm.
Qed.

(** After the offers, every pair that merges has its candidate. *)
Lemma complete_after_merge items items' first heap heap' pre a b post rank result :
  complete_upto d items (first :: heap) n → first = candidate_of a b rank result →
  items = pre ++ a :: b :: post → items' = pre ++ merged_item a b result :: post →
  (∀ x, x ∈ items' → (it_start x < n)%nat) → (∀ x, x ∈ pre ∨ x ∈ post → it_start x ≠ it_start a) →
  (∀ x, x ∈ heap → x ∈ heap') →
  (∀ pre' x y post' rank result, items' = pre' ++ x :: y :: post' → mergeable d x y rank result →
     Some (it_start x) = last_start None pre ∨ it_start x = it_start a → candidate_of x y rank result ∈ heap') →
  complete_upto d items' heap' n.
Proof using Type*.
  intros Hcomplete -> -> -> Hwithin Hother Hsub Hnew pre' x y post' rank' result' Heq Hlt Hm.
  destruct (merged_pairs _ _ _ _ _ _ _ _ _ Heq) as [->|[(pre1 & -> & ->)|(pre1 & post1 & Heq1 & Hx)]].
  - eapply Hnew; [done..|by right].
  - eapply Hnew; [done..|left]. by rewrite last_start_app.
  - apply Hsub, (kept_candidate heap (candidate_of a b rank result)); [by eapply Hcomplete|by apply Hother].
Qed.

Lemma merging_step steps c :
  tc_phase c = Merging → phase_ok steps c → step_outcome steps (encoding_advance_inner c).
Proof using Type*.
  unfold phase_ok. intros Hphase. rewrite Hphase. intros (pieces & Hrun & Hemit & Hlook & Hcomplete & Hsteps).
  pose proof (running_items _ _ Hrun) as Hitems. destruct steps as [|steps]; [lia|].
  unfold encoding_advance_inner. munfold_goal. rewrite Hphase. case_bool_decide as Hempty; cbv beta iota.
  - exists steps. split; [done|]. unfold phase_ok. simpl. rewrite Hempty in Hcomplete.
    exists pieces, [], (concat pieces).
    split_and!; [by apply running_set_phase|by eapply nothing_left|done|done| |unfold len in *; lia|lia].
    rewrite (tiled_next _ _ _ (rep_tiled _ _ (ru_nodes _ _ Hrun))).
    destruct (tc_nodes c); [by rewrite bool_decide_eq_true_2|by rewrite bool_decide_eq_false_2].
  - destruct (tc_heap c) as [|first heap] eqn:Hheap; [done|].
    unfold pop_candidate. munfold_goal. rewrite (ru_budget _ _ Hrun).
    pose proof (ru_pushed _ _ Hrun) as Hpushed. rewrite Hheap in Hpushed. unfold len in Hpushed. simpl in Hpushed, Hsteps.
    pose proof (ru_pops _ _ Hrun) as Hpopped.
    destruct (Z.eqb_spec (tw_heap_pops (tc_work c)) (tb_heap_pops budget)) as [Hfull|Hroom]; cbv beta iota.
    { split; [done|]. right. left. split; [done|]. unfold len in *. lia. }
    rewrite count_pop_ok by lia. cbv beta iota. rewrite Hheap. cbv beta iota.
    change (set_heap_work (heap, mkTokenizationWork _ _ _ _) c) with (popped heap c).
    pose proof (running_popped _ _ _ _ Hrun Hheap Hroom) as Hrun1.
    pose proof (ho_sound _ _ _ (ru_heap _ _ Hrun)) as Hsound. rewrite Hheap in Hsound.
    apply Forall_cons in Hsound as [Hfirst _].
    pose proof Hfirst as (_ & [left_node Hl] & right_node & Hr & _).
    unfold node_at. rewrite Hl, Hr. munfold_goal.
    destruct (still_adjacent first left_node right_node) eqn:Hadj; cbv beta iota.
    2: { exists steps. split; [done|]. unfold phase_ok. simpl. rewrite Hphase. exists pieces.
      split_and!; [done|done|done| |lia]. intros pre a b post rank result Heq Hlt Hm.
      specialize (Hcomplete _ _ _ _ _ _ Heq Hlt Hm). apply elem_of_cons in Hcomplete as [<-|]; [|done]. exfalso.
      pose proof (ru_nodes _ _ Hrun) as Hrep. rewrite Heq in Hrep. pose proof (represents_lookup _ _ _ _ Hrep) as Ha.
      assert (represents (tc_nodes c) ((pre ++ [a]) ++ b :: post)) as Hrep' by (by rewrite <-app_assoc).
      pose proof (represents_lookup _ _ _ _ Hrep') as Hb. simpl in Hl, Hr. rewrite Ha in Hl. rewrite Hb in Hr.
      injection Hl as <-. injection Hr as <-. unfold still_adjacent in Hadj. simpl in Hadj.
      rewrite bool_decide_eq_true_2, !Z.eqb_refl in Hadj by done. done. }
    destruct (still_adjacent_pair _ _ _ _ _ _ (ru_nodes _ _ Hrun) Hfirst Hl Hr Hadj)
      as (pre & a & b & post & Heq & Hm & Hcand).
    set (rank := cd_rank first) in *. set (result := cd_result first) in *.
    pose proof (ru_nodes _ _ Hrun) as Hrep. rewrite Heq in Hrep.
    destruct (merge_nodes_ok _ _ _ _ _ rank result Hrep) as (nodes' & Hmerge & Hrep' & Hlen' & Hbound').
    destruct (merge_pieces c pieces pre a b post rank result Hrun Heq Hm) as (pieces' & Heq' & Hsep' & Hseam' & Hsame').
    { eapply least_candidate; [exact Hrun|by rewrite Hheap|]. by rewrite Hheap, Hcand. }
    pose proof (ru_merges _ _ Hrun) as Hmerges. pose proof (len_nonneg (concat pieces)).
    rewrite Hcand, (merge_candidate_eq (popped heap c) a b rank result nodes' pre post Hmerge Hrep') by (simpl; lia).
    assert (length (concat pieces) = S (length (concat pieces'))) as Hshort.
    { rewrite Heq, Heq', !length_app. simpl. lia. }
    rewrite <-Heq' in Hrep'.
    pose proof (running_merged _ _ _ _ Hrun1 Hrep' Hlen' Hbound' Hsep' Hseam' Hsame' Hshort) as Hrun2.
    pose proof (offers_after_merge _ _ _ _ _ Hrun2 Heq') as Hoff.
    match type of Hoff with let (_, _) := ?out in _ => destruct out as [[[]|e|] c'] end; cbv beta iota; [..|done].
    + destruct Hoff as (Hrun' & Hph & Htok & Hspan & Hsub & Hnew & Hlen & Hlk). simpl in Hph, Htok, Hspan, Hsub, Hlen, Hlk.
      exists steps. split; [done|]. unfold phase_ok. rewrite Hph, Hphase. exists pieces'. split_and!; [done| | | |lia].
      * destruct Hemit. split; congruence.
      * unfold len in *. lia.
      * eapply (complete_after_merge (concat pieces)); [exact Hcomplete|exact Hcand|exact Heq|exact Heq'|..].
        -- intros x Hx. rewrite <-(ru_length _ _ Hrun'). apply (tiled_in _ _ _ x (rep_tiled _ _ (ru_nodes _ _ Hrun')))in Hx. lia.
        -- intros x Hx Hstart. apply (represents_apart _ _ _ _ _ _ Hrep Hx Hstart).
        -- done.
        -- intros pre' x y post' rank' result' Hitems' Hmx Hor. by eapply Hnew.
    + destruct Hoff as (-> & Hfull & Hlk). simpl in Hlk. split; [done|]. left. split; [done|].
      assert (length (concat pieces) ≥ 2)%nat by (rewrite Heq, length_app; simpl; lia). unfold len in *. lia.
Qed.

(** ** Runs *)

Lemma phase_steps steps c : phase_ok steps c → step_outcome steps (encoding_advance_inner c).
Proof using Type*.
  intros H. pose proof H as H'. unfold phase_ok in H'. destruct (tc_phase c) as [i| |current| |e] eqn:Hphase; try done.
  - by eapply offering_step.
  - by apply merging_step.
  - by eapply collecting_step.
Qed.

Lemma encoding_run_ok steps fuel c :
  phase_ok steps c → (steps ≤ fuel)%nat →
  match encoding_run fuel c with
  | (Ok _, c') => tc_phase c' = EncodingComplete ∧ finished c'
  | (Err f, _) => tf_error f = Limit ∧ exhausted (tf_work f)
  | (Panic, _) => False
  end.
Proof using Type*.
  revert steps c. induction fuel as [|fuel IH]; intros steps c Hok Hfuel.
  { unfold phase_ok in Hok. destruct (tc_phase c); [destruct Hok as (? & ?)..|done|done]; [lia|lia|]. naive_solver lia. }
  cbn [encoding_run]. unfold encoding_advance. munfold_goal. pose proof (phase_steps _ _ Hok) as Hstep. unfold step_outcome in Hstep.
  destruct (encoding_advance_inner c) as [[[|]|e|] c']; cbv beta iota; [..|done].
  - destruct Hstep as (steps' & -> & Hok'). rewrite bool_decide_eq_false_2 by done. apply (IH steps'); [done|lia].
  - rewrite bool_decide_eq_true_2 by done. done.
  - done.
Qed.

(** A cursor as [begin_encode] makes it. *)
Definition initial_cursor (nodes : list Node) : TokenizationCursor :=
  mkTokenizationCursor d source nodes [] bos_tokens bos_spans budget (mkTokenizationWork (len source) 0 0 0) (Offering 0).

Lemma initial_cursor_ok nodes :
  represents nodes (concat initial) → length nodes = n → separated d initial → Forall seamless initial →
  phase_ok (encoding_fuel n) (initial_cursor nodes).
Proof using Type*.
  intros Hrep Hlen Hsep Hseam. unfold phase_ok. simpl. exists initial.
  assert (running (initial_cursor nodes) initial) as Hrun.
  { split; simpl; [done..| |done|done| |done|lia|by unfold len|lia|lia].
    - by repeat constructor.
    - clear. by induction initial; constructor. }
  pose proof (running_items _ _ Hrun). split_and!; [done| |lia|lia| |unfold encoding_fuel; simpl; lia].
  - split; simpl; by rewrite app_nil_r.
  - intros pre a b post rank result _ ?. lia.
Qed.
End encoding.
