(* ===== verification/EncodeReference.v ===== *)
(** * The specification of an encoding

    The tokens of an input, defined on its bytes alone: named controls split it,
    leftmost and longest first; the text between them falls into pieces; a piece
    is one token where the policy says so and its bytes are one, and is merged
    from its single bytes by the plain definition otherwise. *)

From Stdlib Require Import Strings.Byte.
From stdpp Require Import base tactics numbers list gmap.
From S2P Require Import Prelude Bytes Judgment Tokens TokenNodes TokenReference SpecialTokens Pretokenizer Bpe.

(** ** Named controls *)

(** The longest of the names that [source] starts with. *)
Fixpoint longest_name (names : list (Z * bytes)) (source : bytes) : option (Z * bytes) :=
  match names with
  | [] => None
  | (id, name) :: names =>
    let other := longest_name names source in
    if bool_decide (take (length name) source = name) &&
       match other with Some (_, found) => bool_decide (length found < length name) | None => true end
    then Some (id, name) else other
  end.

(** A control with its spelling, or text between controls. *)
Abbreviation unit_ := (option Z * bytes)%type.

Definition flush (pending : bytes) : list unit_ :=
  match pending with [] => [] | _ => [(None, pending)] end.

(** Every round takes at least one byte of the rest. *)
Fixpoint split_controls (fuel : nat) (names : list (Z * bytes)) (pending source : bytes) : list unit_ :=
  match fuel, source with
  | S fuel, b :: rest =>
    match longest_name names source with
    | Some (id, name) => flush pending ++ (Some id, name) :: split_controls fuel names [] (drop (length name) source)
    | None => split_controls fuel names (pending ++ [b]) rest
    end
  | _, _ => flush pending
  end.

Definition controls_of (d : ByteBpe) (source : bytes) : list unit_ :=
  split_controls (length source) (map_to_list (sp_names (bb_special d))) [] source.

(** ** Pieces of text *)

Fixpoint split_pieces (fuel : nat) (grammar : PreTokenization) (text : bytes) : list bytes :=
  match fuel, text with
  | S fuel, _ :: _ =>
    let n := piece_length grammar text in
    take n text :: split_pieces fuel grammar (drop n text)
  | _, _ => []
  end.

Definition unit_pieces (grammar : PreTokenization) (u : unit_) : list unit_ :=
  match u with
  | (Some id, name) => [(Some id, name)]
  | (None, text) => pair None <$> split_pieces (length text) grammar text
  end.

Definition pieces_of (d : ByteBpe) (source : bytes) : list unit_ :=
  controls_of d source ≫= unit_pieces (bb_pre_tokenization d).

(** ** Tokens of a piece *)

(** The token whose bytes are exactly these. *)
Definition token_of (d : ByteBpe) (text : bytes) : option Z :=
  (λ found, Z.of_nat found.1) <$> list_find (λ entry, entry = Content text) (bb_vocabulary d).

Definition byte_token (d : ByteBpe) (b : byte) : Z := default 0%Z (bb_singletons d !! Z.to_nat (byte_val b)).

Definition whole_token (d : ByteBpe) (text : bytes) : option Z :=
  match bb_merge_policy d with RankedOnly => None | WholePieceFirst => token_of d text end.

Definition unit_tokens (d : ByteBpe) (u : unit_) : piece :=
  match u with
  | (Some id, name) => [(id, length name)]
  | (None, text) =>
    match whole_token d text with
    | Some token => [(token, length text)]
    | None => bpe_reference (bb_merges d) ((λ b, (byte_token d b, 1)) <$> text)
    end
  end.

Definition encode_reference (d : ByteBpe) (source : bytes) : piece := pieces_of d source ≫= unit_tokens d.

(** ** Layouts

    The items of consecutive units from a position on. *)

Fixpoint singles (d : ByteBpe) (boundary : bool) (start : nat) (text : bytes) : list Item :=
  match text with
  | [] => []
  | b :: text => mkItem (byte_token d b) start (S start) boundary :: singles d false (S start) text
  end.

Definition unit_items (d : ByteBpe) (boundary whole : bool) (start : nat) (u : unit_) : list Item :=
  match u with
  | (Some id, name) => [mkItem id start (start + length name) false]
  | (None, text) =>
    match (if whole then whole_token d text else None) with
    | Some token => [mkItem token start (start + length text) boundary]
    | None => singles d boundary start text
    end
  end.

Fixpoint place (d : ByteBpe) (boundary whole : bool) (start : nat) (us : list unit_) : list (list Item) :=
  match us with
  | [] => []
  | u :: us => unit_items d boundary whole start u :: place d boundary whole (start + length u.2) us
  end.
