(* ===== verification/EncodeLayout.v ===== *)
(** * Layouts of an input

    How single bytes, controls and pieces lie one after the other, and the nodes
    with which an encoding starts. *)

From Stdlib Require Import Strings.Byte.
From stdpp Require Import base tactics numbers list gmap.
From S2P Require Import Prelude Bytes Judgment Tokens TokenNodes TokenReference SpecialTokens Pretokenizer Bpe.
From S2P Require Import BpeData BpeMerge BpePieces EncodeReference.

Section tokenizer.
Context (d : ByteBpe).

(** ** Single bytes *)

Lemma singles_app boundary start xs ys :
  singles d boundary start (xs ++ ys) =
  singles d boundary start xs ++ singles d (match xs with [] => boundary | _ => false end) (start + length xs) ys.
Proof.
  revert boundary start. induction xs as [|x xs IH]; intros boundary start; simpl; [by rewrite Nat.add_0_r|].
  rewrite IH. replace (S start + length xs) with (start + S (length xs)) by lia. by destruct xs.
Qed.

Lemma singles_tiled boundary start text : tiled start (singles d boundary start text) (start + length text).
Proof.
  revert boundary start. induction text as [|b text IH]; intros boundary start; simpl; [lia|].
  split_and!; [done|lia|]. replace (start + S (length text)) with (S start + length text) by lia. apply IH.
Qed.

Lemma singles_flat boundary start text : flat <$> singles d boundary start text = (λ b, (byte_token d b, 1)) <$> text.
Proof.
  revert boundary start. induction text as [|b text IH]; intros boundary start; [done|]. simpl. rewrite IH. unfold flat. simpl.
  do 2 f_equal. destruct start; lia.
Qed.

Lemma singles_seamless boundary start text : seamless (singles d boundary start text).
Proof.
  destruct text as [|b text]; [by intros it ?%elem_of_nil|]. unfold seamless. simpl.
  generalize (S start) as s. induction text as [|b' text IH]; intros s it; simpl; [by intros ?%elem_of_nil|].
  intros [->|Hin]%elem_of_cons; [done|by eapply IH].
Qed.

(** ** Units *)

Definition occupied (us : list unit_) : Prop := Forall (λ u, u.2 ≠ []) us.
Definition extent (us : list unit_) : nat := length (us ≫= snd).

Lemma extent_cons u us : extent (u :: us) = length u.2 + extent us.
Proof. unfold extent. simpl. by rewrite length_app. Qed.
Lemma extent_app us vs : extent (us ++ vs) = extent us + extent vs.
Proof. unfold extent. by rewrite bind_app, length_app. Qed.

(** Every unit has a byte. *)
Lemma occupied_extent us : occupied us → length us ≤ extent us.
Proof.
  induction 1 as [|u us Hu _ IH]; [done|]. rewrite extent_cons. destruct u as [k [|? ?]]; simpl in *; [done|lia].
Qed.

Lemma unit_items_tiled boundary whole start u :
  u.2 ≠ [] → tiled start (unit_items d boundary whole start u) (start + length u.2).
Proof.
  destruct u as [[id|] text]; simpl; intros Hne; (assert (length text ≠ 0) by (by destruct text)).
  - split_and!; [done|lia|done].
  - destruct (if whole then _ else None); [simpl; split_and!; [done|lia|done]|apply singles_tiled].
Qed.

Lemma unit_items_nonempty boundary whole start u : u.2 ≠ [] → unit_items d boundary whole start u ≠ [].
Proof. destruct u as [[id|] [|b text]]; simpl; [done..|]. by destruct (if whole then _ else None). Qed.

Lemma place_app boundary whole start us vs :
  place d boundary whole start (us ++ vs) =
  place d boundary whole start us ++ place d boundary whole (start + extent us) vs.
Proof.
  revert start. induction us as [|u us IH]; intros start; [by rewrite Nat.add_0_r|].
  cbn [app place]. rewrite IH, extent_cons. do 3 f_equal. lia.
Qed.

Lemma place_tiled boundary whole start us :
  occupied us → tiled start (concat (place d boundary whole start us)) (start + extent us).
Proof.
  intros Hocc. revert start. induction Hocc as [|u us Hu _ IH]; intros start; [by rewrite Nat.add_0_r|].
  cbn [place concat]. apply tiled_app. exists (start + length u.2). split; [by apply unit_items_tiled|].
  rewrite extent_cons, Nat.add_assoc. apply IH.
Qed.

(** ** The first nodes *)

Hypothesis Hd : admitted d.

Lemma byte_token_spells b : bb_singletons d !! Z.to_nat (byte_val b) = Some (byte_token d b) ∧
  spells (bb_vocabulary d) (byte_token d b) [b].
Proof using Hd. destruct (ad_singletons _ Hd b) as (t & Ht & Hs). unfold byte_token. by rewrite Ht. Qed.

Definition plain_node (count index : nat) (b : byte) : Node :=
  node_of (mkItem (byte_token d b) index (S index) false) (match index with O => None | S previous => Some previous end)
    (if bool_decide (S index < count) then Some (S index) else None).

Lemma single_nodes_ok count index source : single_nodes d count index source = Ok (imap (λ k, plain_node count (index + k)) source).
Proof using Hd.
  revert index. induction source as [|b source IH]; intros index; [done|]. cbn [single_nodes]. unfold single_node.
  destruct (byte_token_spells b) as [-> _]. cbn [expect mbind res_bind mret res_ret]. rewrite IH. cbn [mbind res_bind mret res_ret].
  rewrite imap_cons, Nat.add_0_r. do 2 f_equal. apply imap_ext. intros k x _. simpl. f_equal. lia.
Qed.

Lemma single_nodes_represent source :
  ∃ nodes, single_nodes d (length source) 0 source = Ok nodes ∧ length nodes = length source ∧
    represents nodes (singles d false 0 source).
Proof using Hd.
  rewrite single_nodes_ok. eexists. split; [done|]. set (nodes := imap _ source).
  assert (length nodes = length source) as Hlen by apply length_imap. split; [done|].
  assert (∀ pre suf, source = pre ++ suf →
    linked nodes (match length pre with O => None | S p => Some p end) (singles d false (length pre) suf) None) as Hlinked.
  { intros pre suf. revert pre. induction suf as [|b suf IH]; intros pre Heq; [done|]. simpl. split.
    - unfold nodes. rewrite list_lookup_imap, Heq, lookup_app_r, Nat.sub_diag by done. simpl. f_equal. unfold plain_node. f_equal.
      rewrite length_app. simpl. destruct suf as [|b' suf]; simpl.
      + by rewrite bool_decide_eq_false_2 by lia.
      + by rewrite bool_decide_eq_true_2 by lia.
    - specialize (IH (pre ++ [b])). rewrite length_app, Nat.add_1_r in IH. apply IH. by rewrite Heq, <-app_assoc. }
  split.
  - rewrite Hlen. apply (singles_tiled false 0 source).
  - by apply (Hlinked [] source).
  - intros i node Hi _. assert (i < length source) as Hlt by (rewrite <-Hlen; by eapply lookup_lt_Some).
    destruct (lookup_lt_is_Some_2 source i Hlt) as [b Hb].
    exists (mkItem (byte_token d b) i (S i) false). split; [|done].
    rewrite <-(take_drop_middle source i b Hb), singles_app. apply elem_of_app. right. simpl.
    rewrite length_take, Nat.min_l by lia. destruct (take i source); left.
Qed.
End tokenizer.
