(* ===== verification/WholePieces.v ===== *)
(** * The pass over whole pieces

    [tokenizer/whole_piece.rs] binds exactly the pieces whose bytes are one token
    of the vocabulary, and no others. *)

From Stdlib Require Import Strings.Byte.
From stdpp Require Import base tactics numbers list gmap.
From S2P Require Import Prelude Bytes Judgment Tokens TokenNodes TokenReference SpecialTokens Pretokenizer Bpe.
From S2P Require Import BpeData BpeMerge BpePieces EncodeReference EncodeLayout.

Section tokenizer.
Context (d : ByteBpe).
Hypothesis Hd : admitted d.

(** ** Tokens by their bytes *)

Lemma token_of_spells text t : token_of d text = Some t ↔ spells (bb_vocabulary d) t text.
Proof using Hd.
  unfold token_of. rewrite fmap_Some. split.
  - intros ([i entry] & (Hi & -> & _)%list_find_Some & ->). simpl. split; [lia|]. by rewrite Nat2Z.id.
  - intros [Ht Hv]. destruct (list_find_elem_of (λ entry, entry = Content text) (bb_vocabulary d) (Content text)) as [[i e] Hi];
      [by eapply list_elem_of_lookup_2|done|].
    exists (i, e). split; [done|]. apply list_find_Some in Hi as (Hi & -> & _). simpl.
    eapply (ad_distinct _ Hd _ _ text); [done|]. split; [lia|]. by rewrite Nat2Z.id.
Qed.

Lemma indexed_content_spells t text : spells (bb_vocabulary d) t text → indexed_content (bb_vocabulary d) t = text.
Proof using Type. intros Hs. unfold indexed_content. by rewrite (proj2 (content_spells _ _ _ (proj1 Hs)) Hs). Qed.

Lemma find_whole_piece_eq text : bb_merge_policy d = WholePieceFirst → find_whole_piece d text = token_of d text.
Proof using Hd.
  intros Hpol. apply option_eq. intros t. rewrite token_of_spells. unfold find_whole_piece. rewrite fmap_Some. split.
  - intros ([i u] & (Hu & Htext & _)%list_find_Some & ->). simpl.
    apply list_elem_of_lookup_2, (ad_whole _ Hd _ Hpol) in Hu as [value Hu].
    rewrite (indexed_content_spells _ _ Hu) in Htext. by subst.
  - intros Hs. assert (t ∈ bb_whole_piece_tokens d) as Hin by (apply (ad_whole _ Hd _ Hpol); eauto).
    destruct (list_find_elem_of (λ id, indexed_content (bb_vocabulary d) id = text) _ t Hin) as [[i u] Hi];
      [by apply indexed_content_spells|].
    exists (i, u). split; [done|]. apply list_find_Some in Hi as (Hu & Htext & _). simpl.
    apply list_elem_of_lookup_2, (ad_whole _ Hd _ Hpol) in Hu as [value Hu].
    rewrite (indexed_content_spells _ _ Hu) in Htext. subst value. by eapply ad_distinct.
Qed.

(** ** Controls and text *)

Definition control_unit (u : unit_) : Prop :=
  match u.1 with Some id => vocabulary_get (bb_vocabulary d) id = Some Control | None => True end.

(** Two texts in a row are told apart by a boundary only. *)
Fixpoint spaced (us : list unit_) : Prop :=
  match us with
  | u :: ((v :: _) as us) => (u.1 = None → v.1 ≠ None) ∧ spaced us
  | _ => True
  end.

Record laid_out (boundary : bool) (us : list unit_) : Prop := {
  lo_occupied : occupied us;
  lo_controls : Forall control_unit us;
  lo_spaced : boundary = true ∨ spaced us;
}.

Lemma laid_out_cons boundary u us : laid_out boundary (u :: us) → u.2 ≠ [] ∧ control_unit u ∧ laid_out boundary us.
Proof using Type.
  intros [[Hu Hocc]%Forall_cons [Hc Hcs]%Forall_cons Hsp]. split_and!; [done..|]. split; [done..|].
  destruct Hsp as [|Hsp]; [by left|right]. destruct us; [done|]. apply Hsp.
Qed.

Lemma byte_token_control b : is_control d (byte_token d b) = Ok false.
Proof using Hd.
  destruct (byte_token_spells d Hd b) as [_ [_ Hs]]. unfold is_control, vocabulary_get. by rewrite Hs.
Qed.

Lemma control_token id : vocabulary_get (bb_vocabulary d) id = Some Control → is_control d id = Ok true.
Proof using Type. intros H. unfold is_control. by rewrite H. Qed.

(** What may follow a text. *)
Definition closes (post : list Item) : Prop :=
  match post with
  | [] => True
  | it :: _ => it_boundary it = true ∨ vocabulary_get (bb_vocabulary d) (it_token it) = Some Control
  end.

Lemma laid_out_closes boundary text us start :
  laid_out boundary ((None, text) :: us) → closes (concat (place d boundary false start us)).
Proof using Type.
  intros H. pose proof (lo_spaced _ _ H) as Hsp. apply laid_out_cons in H as (_ & _ & H).
  destruct us as [|[[id|] text'] us]; [done|..].
  - apply laid_out_cons in H as (_ & Hc & _). by right.
  - apply laid_out_cons in H as (Hne & _ & _). simpl in Hne. destruct text'; [done|]. simpl.
    destruct Hsp as [->|[Hsp _]]; [by left|]. by destruct (Hsp eq_refl).
Qed.

(** ** The loops *)

Lemma node_at_item nodes pre it post :
  represents nodes (pre ++ it :: post) → nodes !! it_start it = Some (node_of it (last_start None pre) (first_start post None)).
Proof using Type. apply represents_lookup. Qed.

Lemma whole_piece_end_ok fuel nodes pre post start text :
  represents nodes (pre ++ singles d false start text ++ post) → tiled 0 pre start → closes post →
  length text < fuel → whole_piece_end fuel d nodes start = Ok (start + length text).
Proof using Hd.
  revert pre start text. induction fuel as [|fuel IH]; intros pre start text Hrep Hpre Hclose Hfuel; [lia|].
  cbn [whole_piece_end]. pose proof (rep_tiled _ _ Hrep) as (m & Hpre' & Ht)%tiled_app.
  assert (m = start) as -> by (eapply tiled_functional; done).
  destruct text as [|b text]; simpl in Hrep, Ht.
  - rewrite Nat.add_0_r. destruct post as [|it post].
    + simpl in Ht. rewrite lookup_ge_None_2 by lia. done.
    + destruct Ht as (<- & _). rewrite (represents_lookup _ _ _ _ Hrep). cbn [nd_boundary_before nd_token node_of].
      destruct (it_boundary it) eqn:Hb; [done|]. destruct Hclose as [|Hc]; [congruence|]. by rewrite (control_token _ Hc).
  - pose proof (represents_lookup _ _ (mkItem _ _ _ _) _ Hrep) as Hl. cbn [it_start] in Hl. rewrite Hl.
    cbn [nd_boundary_before nd_token nd_end node_of it_boundary it_token it_end]. rewrite byte_token_control.
    cbn [mbind res_bind]. cbn [length] in *. replace (start + S (length text)) with (S start + length text) by lia.
    apply (IH (pre ++ [mkItem (byte_token d b) start (S start) false])); [by rewrite <-app_assoc| |done|lia].
    apply tiled_app. exists start. split; [done|]. simpl. split_and!; [done|lia|done].
Qed.

Lemma source_get_middle xs ys zs : source_get (xs ++ ys ++ zs) (length xs) (length xs + length ys) = Some ys.
Proof using Type.
  unfold source_get. rewrite bool_decide_eq_true_2 by (rewrite !length_app; lia).
  rewrite drop_app_length. replace (length xs + length ys - length xs) with (length ys) by lia. by rewrite take_app_length.
Qed.

Lemma whole_token_none text :
  bb_merge_policy d = WholePieceFirst → text ≠ [] → bb_max_content_bytes d < length text → whole_token d text = None.
Proof using Hd.
  intros Hpol Hne Hlen. unfold whole_token. rewrite Hpol. destruct (token_of d text) as [t|] eqn:Ht; [|done].
  apply token_of_spells, (ad_nonempty _ Hd) in Ht as [_ ?]. lia.
Qed.

Lemma whole_pieces_ok fuel boundary source done_ us nodes :
  bb_merge_policy d = WholePieceFirst → source = (done_ ++ us) ≫= snd → laid_out boundary us → occupied done_ →
  represents nodes (concat (place d boundary true 0 done_) ++ concat (place d boundary false (extent done_) us)) →
  length us < fuel →
  ∃ nodes', whole_pieces fuel d source (extent done_) nodes = Ok nodes' ∧ length nodes' = length nodes ∧
    represents nodes' (concat (place d boundary true 0 (done_ ++ us))).
Proof using Hd.
  intros Hpol. revert done_ us nodes. induction fuel as [|fuel IH]; intros done_ us nodes Hsource Hlaid Hocc Hrep Hfuel; [lia|].
  cbn [whole_pieces]. pose proof (place_tiled d boundary true 0 done_ Hocc) as Hpre. simpl in Hpre.
  destruct us as [|[kind text] us].
  { cbn [place concat] in Hrep. rewrite app_nil_r in Hrep. rewrite app_nil_r. pose proof (rep_tiled _ _ Hrep) as Ht. exists nodes.
    assert (length nodes = extent done_) as Hn by (eapply tiled_functional; done).
    rewrite lookup_ge_None_2 by lia. done. }
  pose proof (laid_out_cons _ _ _ Hlaid) as (Hne & Hc & Hlaid'). simpl in Hne.
  assert (occupied (done_ ++ [(kind, text)])) as Hocc' by (apply Forall_app; split; [done|by constructor]).
  assert (extent (done_ ++ [(kind, text)]) = extent done_ + length text) as Hext.
  { rewrite extent_app, extent_cons. unfold extent at 2. simpl. lia. }
  assert (∀ nodes1, length nodes1 = length nodes →
    represents nodes1 (concat (place d boundary true 0 done_) ++ unit_items d boundary true (extent done_) (kind, text) ++
      concat (place d boundary false (extent done_ + length text) us)) →
    ∃ nodes', whole_pieces fuel d source (extent done_ + length text) nodes1 = Ok nodes' ∧ length nodes' = length nodes ∧
      represents nodes' (concat (place d boundary true 0 (done_ ++ (kind, text) :: us)))) as Hnext.
  { intros nodes1 Hlen1 Hrep1. rewrite <-Hext. rewrite (cons_middle _ done_ us), app_assoc, <-Hlen1. apply IH; [|done|done| |simpl in *; lia].
    - by rewrite <-app_assoc.
    - rewrite place_app, concat_app, Hext. simpl. by rewrite app_nil_r, <-app_assoc. }
  cbn [place concat] in Hrep. destruct kind as [id|].
  - cbn [unit_items app] in Hrep. pose proof (represents_lookup _ _ _ _ Hrep) as Hl. cbn [it_start] in Hl. rewrite Hl.
    cbn [nd_token nd_end node_of it_token it_end]. rewrite (control_token _ Hc). cbn [mbind res_bind]. apply Hnext; done.
  - cbn [unit_items] in Hrep. destruct text as [|b rest]; [done|]. simpl in Hrep.
    pose proof (represents_lookup _ _ (mkItem _ _ _ _) _ Hrep) as Hl. cbn [it_start] in Hl. rewrite Hl.
    cbn [nd_token nd_end node_of it_token it_end]. rewrite byte_token_control. cbn [mbind res_bind].
    pose proof (laid_out_closes _ _ _ (extent done_ + length (b :: rest)) Hlaid) as Hclose.
    assert (length nodes = extent done_ + length (b :: rest) + extent us) as Hlen.
    { pose proof (rep_tiled _ _ Hrep) as (m & Hp & Ht)%tiled_app. eapply tiled_functional; [exact Ht|].
      assert (m = extent done_) as -> by (eapply tiled_functional; done).
      change (mkItem _ _ _ _ :: _) with (singles d boundary (extent done_) (b :: rest) ++
        concat (place d boundary false (extent done_ + S (length rest)) us)).
      apply tiled_app. exists (extent done_ + length (b :: rest)). split; [apply singles_tiled|].
      apply place_tiled, Hlaid'. }
    rewrite (whole_piece_end_ok _ nodes (concat (place d boundary true 0 done_) ++ [mkItem (byte_token d b) (extent done_) (S (extent done_)) boundary])
      (concat (place d boundary false (extent done_ + S (length rest)) us)) (S (extent done_)) rest);
      [|by rewrite <-app_assoc| |done|simpl in Hlen; lia].
    2: { apply tiled_app. exists (extent done_). split; [done|]. simpl. split_and!; [done|lia|done]. }
    cbn [mbind res_bind]. replace (S (extent done_) + length rest) with (extent done_ + length (b :: rest)) by (simpl; lia).
    assert (source_get source (extent done_) (extent done_ + length (b :: rest)) = Some (b :: rest)) as Hslice.
    { rewrite Hsource, bind_app. simpl. apply (source_get_middle (done_ ≫= snd) (b :: rest) (us ≫= snd)). }
    assert (whole_token d (b :: rest) = token_of d (b :: rest)) as Hwhole by (unfold whole_token; by rewrite Hpol).
    assert (represents nodes (concat (place d boundary true 0 done_) ++ singles d boundary (extent done_) (b :: rest) ++
      concat (place d boundary false (extent done_ + length (b :: rest)) us))) as Hrep' by done.
    case_bool_decide as Hmax.
    + rewrite Hslice. cbn [ok_or mbind res_bind mret res_ret]. rewrite find_whole_piece_eq by done.
      destruct (token_of d (b :: rest)) as [t|] eqn:Htok.
      * destruct (bind_span_ok nodes _ (mkItem (byte_token d b) (extent done_) (S (extent done_)) boundary)
          (singles d false (S (extent done_)) rest) _ (extent done_) (extent done_ + length (b :: rest)) t Hrep')
          as (nodes1 & -> & Hlen1 & Hrep1); [apply (singles_tiled d boundary (extent done_) (b :: rest))|].
        cbn [mbind res_bind]. apply Hnext; [done|]. cbn [unit_items]. rewrite Hwhole. done.
      * cbn [mbind res_bind mret res_ret]. apply Hnext; [done|]. cbn [unit_items]. by rewrite Hwhole.
    + cbn [mbind res_bind mret res_ret]. apply Hnext; [done|]. cbn [unit_items].
      rewrite whole_token_none; [done|done|done|]. replace (extent done_ + length (b :: rest) - extent done_) with (length (b :: rest)) in Hmax by lia. lia.
Qed.

(** The pass, under either policy. *)
Lemma bind_whole_pieces_ok boundary source us nodes :
  source = us ≫= snd → laid_out boundary us → represents nodes (concat (place d boundary false 0 us)) →
  ∃ nodes', bind_whole_pieces d source nodes = Ok nodes' ∧ length nodes' = length nodes ∧
    represents nodes' (concat (place d boundary true 0 us)).
Proof using Hd.
  intros Hsource Hlaid Hrep. unfold bind_whole_pieces. case_bool_decide as Hpol.
  - exists nodes. split_and!; [done..|]. enough (place d boundary true 0 us = place d boundary false 0 us) as -> by done.
    generalize 0. clear -Hpol. induction us as [|[[id|] text] us IH]; intros start; [done|..]; simpl; rewrite IH; [done|].
    unfold whole_token. by rewrite Hpol.
  - assert (bb_merge_policy d = WholePieceFirst) as Hpol' by (by destruct (bb_merge_policy d)).
    assert (length us < S (length nodes)) as Hfuel.
    { pose proof (rep_tiled _ _ Hrep) as Ht. pose proof (place_tiled d boundary false 0 us (lo_occupied _ _ Hlaid)) as Ht'.
      rewrite (tiled_functional _ _ _ _ Ht Ht'). apply Nat.lt_succ_r, occupied_extent, Hlaid. }
    apply (whole_pieces_ok (S (length nodes)) boundary source [] us nodes); [done|done|done|by constructor|done|done].
Qed.
End tokenizer.
