(* ===== verification/SpecialTrie.v ===== *)
(** * The automaton of named controls

    A state of the automaton stands for a word, the part of the input that it
    has matched, read forwards: its edge on a byte leads to the word with that
    byte in front.  Failure links lead to the longest proper prefix that is a
    word, so a backward scan is always at the longest word in front of it. *)

From Stdlib Require Import Strings.Byte.
From stdpp Require Import base tactics numbers list gmap sorting.
From S2P Require Import Prelude Bytes Judgment Tokens SpecialTokens.

(** ** Words *)

Record trie (states : list SpecialState) (words : list bytes) : Prop := {
  tr_length : length states = length words;
  tr_root : words !! 0 = Some [];
  tr_distinct : NoDup words;
  tr_edges i s w b j : states !! i = Some s → words !! i = Some w →
    ss_edges s !! byte_val b = Some j ↔ words !! j = Some (b :: w);
  tr_keys i s k j : states !! i = Some s → ss_edges s !! k = Some j → ∃ b, k = byte_val b;
  tr_suffix b w : b :: w ∈ words → w ∈ words;
}.

Lemma trie_state states words i w : trie states words → words !! i = Some w → ∃ s, states !! i = Some s.
Proof. intros Ht Hw. apply lookup_lt_is_Some_2. rewrite (tr_length _ _ Ht). by eapply lookup_lt_Some. Qed.

Lemma trie_index states words w i j : trie states words → words !! i = Some w → words !! j = Some w → i = j.
Proof. intros Ht Hi Hj. eapply NoDup_lookup; [apply Ht|done..]. Qed.

(** A word is no longer than there are states. *)
Lemma word_depth states words w : trie states words → w ∈ words → length w < length words.
Proof.
  intros Ht Hw.
  assert (∃ l : list bytes, NoDup l ∧ length l = S (length w) ∧ (∀ x, x ∈ l → x ∈ words ∧ length x ≤ length w)) as (l & Hnd & Hlen & Hl).
  { induction w as [|b w IH].
    - exists [[]]. split_and!; [apply NoDup_singleton|done|]. intros x ->%list_elem_of_singleton. done.
    - destruct (IH (tr_suffix _ _ Ht _ _ Hw)) as (l & Hnd & Hlen & Hl). exists ((b :: w) :: l). split_and!.
      + constructor; [|done]. intros [_ ?]%Hl. simpl in *. lia.
      + simpl. lia.
      + intros x [->|Hx]%elem_of_cons; [done|]. destruct (Hl _ Hx). simpl. split; [done|lia]. }
  enough (length l ≤ length words) by lia. apply submseteq_length, NoDup_submseteq; [done|]. intros x Hx. by apply Hl.
Qed.

(** Changes that keep the edges keep the words. *)
Lemma trie_update states words i f :
  trie states words → (∀ s, ss_edges (f s) = ss_edges s) → trie (alter f i states) words.
Proof.
  intros Ht Hf. split; [rewrite length_alter|..]; try apply Ht.
  - intros j s w b k Hs Hw. destruct (decide (i = j)) as [->|Hne].
    + rewrite list_lookup_alter_eq in Hs. apply fmap_Some in Hs as (s' & Hs & ->). rewrite Hf. by eapply tr_edges.
    + rewrite list_lookup_alter_ne in Hs by done. by eapply tr_edges.
  - intros j s k m Hs. destruct (decide (i = j)) as [->|Hne].
    + rewrite list_lookup_alter_eq in Hs. apply fmap_Some in Hs as (s' & Hs & ->). rewrite Hf. by eapply tr_keys.
    + rewrite list_lookup_alter_ne in Hs by done. by eapply tr_keys.
Qed.

Lemma update_state_ok i f states : i < length states → update_state i f states = Ok (alter f i states).
Proof.
  intros Hi. unfold update_state, state_at. destruct (lookup_lt_is_Some_2 _ _ Hi) as [s Hs]. rewrite Hs. cbn [expect mbind res_bind].
  f_equal. symmetry. apply list_eq. intros j. destruct (decide (i = j)) as [->|Hne].
  - rewrite list_lookup_alter_eq, list_lookup_insert_eq by done. by rewrite Hs.
  - by rewrite list_lookup_alter_ne, list_lookup_insert_ne.
Qed.

(** ** Inserting the names *)

Lemma trie_root_only : trie [default_special_state] [[]].
Proof.
  split; [done|done|apply NoDup_singleton|..].
  - intros [|i] s w b j; [|done]. intros [= <-] [= <-]. simpl. rewrite lookup_empty. destruct j as [|[|j]]; done.
  - intros [|i] s k j; [|done]. intros [= <-]. simpl. by rewrite lookup_empty.
  - by intros b w ?%list_elem_of_singleton.
Qed.

Lemma trie_add states words i s w b :
  trie states words → states !! i = Some s → words !! i = Some w → ss_edges s !! byte_val b = None →
  trie (alter (add_edge b (length states)) i (states ++ [default_special_state])) (words ++ [b :: w]).
Proof.
  intros Ht Hs Hw Hnone. pose proof (tr_length _ _ Ht) as Hlen. pose proof (lookup_lt_Some _ _ _ Hs) as Hi.
  assert (b :: w ∉ words) as Hnew.
  { intros [j Hj]%list_elem_of_lookup. apply (tr_edges _ _ Ht _ _ _ _ _ Hs Hw) in Hj. congruence. }
  assert (∀ j x, (words ++ [b :: w]) !! j = Some x ↔ words !! j = Some x ∨ j = length states ∧ x = b :: w) as Hwords.
  { intros j x. rewrite lookup_app_Some. split.
    - intros [?|[Hge Hj]]; [by left|]. apply list_lookup_singleton_Some in Hj as [? ->]. right. split; [lia|done].
    - intros [?|[-> ->]]; [by left|]. right. split; [lia|]. by rewrite Hlen, Nat.sub_diag. }
  assert (∀ j s', alter (add_edge b (length states)) i (states ++ [default_special_state]) !! j = Some s' ↔
    (j = i ∧ s' = add_edge b (length states) s) ∨ (j ≠ i ∧ states !! j = Some s') ∨
    (j = length states ∧ s' = default_special_state)) as Hstates.
  { intros j s'. destruct (decide (i = j)) as [->|Hne].
    - rewrite list_lookup_alter_eq, lookup_app_l, Hs by done. simpl. split; [intros [= <-]; by left|].
      intros [[_ ->]|[[? _]|[-> _]]]; [done|done|lia].
    - rewrite list_lookup_alter_ne, lookup_app_Some by done. rewrite list_lookup_singleton_Some. split.
      + intros [?|[? [? <-]]]; [right; left; done|]. right. right. split; [lia|done].
      + intros [[? _]|[[_ ?]|[-> ->]]]; [done|by left|right]. split; [lia|]. split; [lia|done]. }
  split.
  - rewrite length_alter, !length_app, Hlen. done.
  - apply Hwords. left. apply Ht.
  - apply NoDup_app. split_and!; [apply Ht| |apply NoDup_singleton]. by intros x Hx ->%list_elem_of_singleton.
  - intros j s' x b' k Hs'%Hstates Hx%Hwords. rewrite Hwords.
    assert (∀ j x, words !! j = Some x → j < length states) as Hlt by (intros ?? ?%lookup_lt_Some; lia).
    destruct Hs' as [[-> ->]|[[Hne Hs']|[-> ->]]].
    + destruct Hx as [Hx|[-> _]]; [|lia]. assert (x = w) as -> by congruence. simpl.
      destruct (decide (b = b')) as [->|Hb].
      * rewrite lookup_insert_eq. split; [intros [= <-]; by right|]. intros [Hk|[-> _]]; [|done].
        destruct Hnew. by eapply list_elem_of_lookup_2.
      * rewrite lookup_insert_ne by (intros Hv; apply Hb; rewrite <-(byte_of_val b), <-(byte_of_val b'); congruence).
        rewrite (tr_edges _ _ Ht _ _ _ _ _ Hs Hw). split; [by left|]. intros [|[_ [= ->]]]; [done|congruence].
    + destruct Hx as [Hx|[-> ->]]; [|apply lookup_lt_Some in Hs'; lia].
      rewrite (tr_edges _ _ Ht _ _ _ _ _ Hs' Hx). split; [by left|]. intros [|[_ [= -> ->]]]; [done|].
      destruct Hne. by eapply trie_index.
    + destruct Hx as [Hx|[_ ->]]; [apply Hlt in Hx; lia|]. simpl. rewrite lookup_empty. split; [done|].
      intros [Hk|[_ [= _ Hk]]]; [|by apply (f_equal length) in Hk; simpl in Hk; lia].
      exfalso. apply Hnew, (tr_suffix _ _ Ht b'). by eapply list_elem_of_lookup_2.
  - intros j s' k m Hs'%Hstates. destruct Hs' as [[-> ->]|[[Hne Hs']|[-> ->]]]; simpl.
    + intros [[<- _]|[_ ?]]%lookup_insert_Some; [by exists b|]. by eapply tr_keys.
    + by eapply tr_keys.
    + by rewrite lookup_empty.
  - intros b' x [Hin|Hin%list_elem_of_singleton]%elem_of_app; apply elem_of_app; left.
    + by eapply tr_suffix.
    + injection Hin as -> ->. by eapply list_elem_of_lookup_2.
Qed.

(** The match of a state, while the names are inserted: that of its own word. *)
Definition own_match (names : list (Z * bytes)) (w : bytes) (m : option Match) : Prop :=
  match m with
  | None => ∀ id name, (id, name) ∈ names → name ≠ w
  | Some found => (mt_token found, w) ∈ names ∧ mt_len found = length w
  end.
Definition own_matches (names : list (Z * bytes)) (states : list SpecialState) (words : list bytes) : Prop :=
  ∀ i s w, states !! i = Some s → words !! i = Some w → own_match names w (ss_longest s).

Lemma insert_path_ok names states words state w path :
  trie states words → own_matches names states words → words !! state = Some w →
  (∀ id name, (id, name) ∈ names → name ∈ words) →
  ∃ states' state' words', insert_path states state path = Ok (states', state') ∧ trie states' words' ∧
    own_matches names states' words' ∧ words' !! state' = Some (rev path ++ w) ∧ (∀ x, x ∈ words → x ∈ words').
Proof.
  intros Ht Hown Hw Hnames. revert states words state w Ht Hown Hw Hnames. induction path as [|b path IH]; intros states words state w Ht Hown Hw Hnames.
  { exists states, state, words. done. }
  destruct (trie_state _ _ _ _ Ht Hw) as [s Hs]. cbn [insert_path]. unfold state_at. rewrite Hs. cbn [expect mbind res_bind].
  cbn [rev]. rewrite <-app_assoc. simpl app at 3.
  destruct (ss_edges s !! byte_val b) as [next|] eqn:Hedge.
  - apply (IH states words next (b :: w)); [done|done| |done]. by eapply tr_edges.
  - rewrite update_state_ok by (rewrite length_app; apply lookup_lt_Some in Hs; lia). cbn [mbind res_bind].
    pose proof (trie_add _ _ _ _ _ b Ht Hs Hw Hedge) as Ht'.
    destruct (IH _ _ (length states) (b :: w) Ht') as (states' & state' & words' & Heq & Ht1 & Hown1 & Hw1 & Hsub).
    + intros i s' x Hs' Hx. apply lookup_app_Some in Hx as [Hx|[Hge Hx]].
      * pose proof (lookup_lt_Some _ _ _ Hx) as Hlt. rewrite <-(tr_length _ _ Ht) in Hlt.
        destruct (decide (state = i)) as [->|Hne].
        -- rewrite list_lookup_alter_eq, lookup_app_l, Hs in Hs' by done. injection Hs' as <-. simpl. by eapply Hown.
        -- rewrite list_lookup_alter_ne, lookup_app_l in Hs' by done. by eapply Hown.
      * apply list_lookup_singleton_Some in Hx as [Hi <-]. pose proof (tr_length _ _ Ht). apply lookup_lt_Some in Hs as Hlt.
        rewrite list_lookup_alter_ne, lookup_app_r in Hs' by lia. apply list_lookup_singleton_Some in Hs' as [_ <-].
        simpl. intros id name Hin ->. apply Hnames in Hin as [j Hj]%list_elem_of_lookup.
        apply (tr_edges _ _ Ht _ _ _ _ _ Hs Hw) in Hj. congruence.
    + rewrite lookup_app_r, (tr_length _ _ Ht), Nat.sub_diag by (rewrite (tr_length _ _ Ht); done). done.
    + intros id name Hin. apply elem_of_app. left. by eapply Hnames.
    + exists states', state', words'. split_and!; [done..|]. intros x Hx. apply Hsub, elem_of_app. by left.
Qed.

Lemma insert_names_ok done_ names states words :
  trie states words → own_matches done_ states words → (∀ id name, (id, name) ∈ done_ → name ∈ words) →
  NoDup (done_ ++ names).*2 →
  ∃ states' words', insert_names states names = Ok states' ∧ trie states' words' ∧
    own_matches (done_ ++ names) states' words' ∧ (∀ id name, (id, name) ∈ done_ ++ names → name ∈ words').
Proof.
  revert done_ states words. induction names as [|[id name] names IH]; intros done_ states words Ht Hown Hin Hnd.
  { exists states, words. by rewrite app_nil_r. }
  cbn [insert_names].
  destruct (insert_path_ok done_ states words 0 [] (rev name) Ht Hown (tr_root _ _ Ht) Hin)
    as (states1 & state & words1 & -> & Ht1 & Hown1 & Hw1 & Hsub).
  rewrite rev_involutive, app_nil_r in Hw1. cbn [mbind res_bind].
  pose proof (lookup_lt_Some _ _ _ Hw1) as Hlt. rewrite <-(tr_length _ _ Ht1) in Hlt.
  rewrite update_state_ok by done. cbn [mbind res_bind].
  assert (∀ id', (id', name) ∉ done_) as Hfresh.
  { intros id' Hd. rewrite fmap_app in Hnd. apply NoDup_app in Hnd as (_ & Hnd & _).
    apply (Hnd name); [by apply (list_elem_of_fmap_2 snd _ _ Hd)|left]. }
  rewrite (cons_middle _ done_ names), app_assoc. apply (IH (done_ ++ [(id, name)])  _ words1).
  - by apply trie_update.
  - intros i s w Hs Hw. destruct (decide (state = i)) as [->|Hne].
    + rewrite list_lookup_alter_eq in Hs. apply fmap_Some in Hs as (s' & Hs & ->).
      assert (w = name) as -> by congruence. simpl. split; [|done]. apply elem_of_app. right. left.
    + rewrite list_lookup_alter_ne in Hs by done. pose proof (Hown1 _ _ _ Hs Hw) as Ho. unfold own_match in *.
      assert (w ≠ name) as Hwn by (intros ->; apply Hne; by eapply trie_index).
      destruct (ss_longest s) as [m|]; [split; [apply elem_of_app; left|]; apply Ho|].
      intros id' name' [Hd|[= -> ->]%list_elem_of_singleton]%elem_of_app; [by eapply Ho|done].
  - intros id' name' [Hd|[= -> ->]%list_elem_of_singleton]%elem_of_app; [by eapply Hsub, Hin|]. by eapply list_elem_of_lookup_2.
  - by rewrite <-app_assoc.
Qed.
