(* ===== verification/SpecialLinks.v ===== *)
(** * The failure links of the automaton

    Links are made in the order of a breadth-first queue, so that a child's link
    only depends on words that are shorter and have theirs. *)

From Stdlib Require Import Strings.Byte.
From stdpp Require Import base tactics numbers list gmap sorting.
From S2P Require Import Prelude Bytes Judgment Tokens SpecialTokens SpecialTrie.

(** ** What links and matches mean *)

Definition failure_ok (words : list bytes) (w u : bytes) : Prop :=
  u ∈ words ∧ u `prefix_of` w ∧ length u < length w ∧
  ∀ v, v ∈ words → v `prefix_of` w → length v < length w → length v ≤ length u.

Definition longest_match (names : list (Z * bytes)) (w : bytes) (m : option Match) : Prop :=
  match m with
  | None => ∀ id name, (id, name) ∈ names → ¬ name `prefix_of` w
  | Some found => ∃ name, (mt_token found, name) ∈ names ∧ name `prefix_of` w ∧ mt_len found = length name ∧
      ∀ id' name', (id', name') ∈ names → name' `prefix_of` w → length name' ≤ length name
  end.

Lemma prefix_shorter {A} (u v x : list A) : u `prefix_of` x → v `prefix_of` x → length u ≤ length v → u `prefix_of` v.
Proof. intros Hu Hv Hlen. destruct (prefix_weak_total u v x Hu Hv) as [|H]; [done|].
  apply prefix_length_eq in H; [by subst|done]. Qed.

Lemma prefix_cons_same {A} (b : A) u x : b :: u `prefix_of` b :: x ↔ u `prefix_of` x.
Proof. split; [apply prefix_cons_inv_2|apply prefix_cons]. Qed.

Section links.
Context (names : list (Z * bytes)) (words : list bytes).

Definition linked_state (states : list SpecialState) (i : nat) : Prop :=
  ∀ s w, states !! i = Some s → words !! i = Some w →
    longest_match names w (ss_longest s) ∧
    (w ≠ [] → ∃ u, words !! ss_failure s = Some u ∧ failure_ok words w u).

(** ** Following the links *)

Lemma root_word states i : trie states words → words !! i = Some [] → i = 0.
Proof. intros Ht Hi. eapply trie_index; [done|done|apply Ht]. Qed.

Lemma fall_back_ok states fuel i v x b :
  trie states words → words !! i = Some v → v `prefix_of` x →
  (∀ j u, words !! j = Some u → length u ≤ length v → linked_state states j) →
  (∀ u, u ∈ words → u `prefix_of` x → b :: u ∈ words → length u ≤ length v) → length v < fuel →
  ∃ j u, fall_back fuel states i (byte_val b) = Ok j ∧ words !! j = Some u ∧ u `prefix_of` x ∧
    (∀ u', u' ∈ words → u' `prefix_of` x → b :: u' ∈ words → length u' ≤ length u) ∧ (u = [] ∨ b :: u ∈ words).
Proof.
  intros Ht. revert i v. induction fuel as [|fuel IH]; intros i v Hv Hx Hlinked Hmax Hfuel; [lia|].
  destruct (trie_state _ _ _ _ Ht Hv) as [s Hs]. cbn [fall_back]. unfold state_at. rewrite Hs. cbn [expect mbind res_bind].
  destruct (decide (i = 0)) as [->|Hi].
  { rewrite bool_decide_eq_false_2 by naive_solver. exists 0, v. rewrite (tr_root _ _ Ht) in Hv. injection Hv as <-.
    split_and!; [done|apply Ht|done|done|by left]. }
  rewrite bool_decide_eq_true_2 by done. cbn [andb].
  destruct (ss_edges s !! byte_val b) as [k|] eqn:Hedge.
  { rewrite bool_decide_eq_false_2 by done. exists i, v. split_and!; [done..|].
    right. eapply list_elem_of_lookup_2. by apply (tr_edges _ _ Ht _ _ _ _ _ Hs Hv). }
  rewrite bool_decide_eq_true_2 by done.
  assert (v ≠ []) as Hne by (intros ->; by apply Hi, (root_word states)).
  destruct (Hlinked i v Hv ltac:(done) s v Hs Hv) as [_ Hfail].
  destruct (Hfail Hne) as (u & Hu & Huin & Hupre & Hulen & Humax).
  apply (IH _ u); [done|by etrans| | |lia].
  - intros j u' Hu' Hlen. eapply Hlinked; [done|lia].
  - intros u' Hin Hpre Hbin. pose proof (Hmax u' Hin Hpre Hbin) as Hle. apply Humax; [done|by eapply prefix_shorter|].
    destruct (decide (length u' = length v)) as [Heq|]; [|lia]. exfalso.
    assert (u' = v) as -> by (apply prefix_length_eq; [by eapply prefix_shorter|lia]).
    apply list_elem_of_lookup in Hbin as [k Hk]. apply (tr_edges _ _ Ht _ _ _ _ _ Hs Hv) in Hk. congruence.
Qed.

(** The longest word in front of which [b] stands. *)
Definition descend (states : list SpecialState) (fuel : nat) (i : nat) (b : Z) : res Error nat :=
  fallback ← fall_back fuel states i b;
  target ← state_at states fallback;
  mret (default 0 (ss_edges target !! b)).

Lemma descend_ok states fuel i v x b :
  trie states words → words !! i = Some v → v `prefix_of` x →
  (∀ j u, words !! j = Some u → length u ≤ length v → linked_state states j) →
  (∀ u, u ∈ words → u `prefix_of` x → b :: u ∈ words → length u ≤ length v) → length v < fuel →
  ∃ k y, descend states fuel i (byte_val b) = Ok k ∧ words !! k = Some y ∧ y `prefix_of` b :: x ∧
    ∀ z, z ∈ words → z `prefix_of` b :: x → length z ≤ length y.
Proof.
  intros Ht Hv Hx Hlinked Hmax Hfuel. unfold descend.
  destruct (fall_back_ok _ _ _ _ _ _ Ht Hv Hx Hlinked Hmax Hfuel) as (j & u & -> & Hu & Hux & Humax & Hor).
  cbn [mbind res_bind]. destruct (trie_state _ _ _ _ Ht Hu) as [s Hs]. unfold state_at. rewrite Hs. cbn [expect mbind res_bind].
  assert (∀ z, z ∈ words → z `prefix_of` b :: x → z = [] ∨ ∃ u', z = b :: u' ∧ u' ∈ words ∧ length u' ≤ length u) as Hz.
  { intros [|b' u'] Hin Hpre; [by left|right]. pose proof (prefix_cons_inv_1 _ _ _ _ Hpre) as ->. rewrite prefix_cons_same in Hpre.
    exists u'. split; [done|]. pose proof (tr_suffix _ _ Ht _ _ Hin). split; [done|by apply Humax]. }
  destruct (ss_edges s !! byte_val b) as [k|] eqn:Hedge; simpl.
  - exists k, (b :: u). apply (tr_edges _ _ Ht _ _ _ _ _ Hs Hu) in Hedge as Hk. split_and!; [done|done|by apply prefix_cons|].
    intros z Hin Hpre. destruct (Hz z Hin Hpre) as [->|(u' & -> & _ & ?)]; simpl; lia.
  - exists 0, []. split_and!; [done|apply Ht|apply prefix_nil|].
    assert (b :: u ∉ words) as Hnin.
    { intros [k Hk]%list_elem_of_lookup. apply (tr_edges _ _ Ht _ _ _ _ _ Hs Hu) in Hk. congruence. }
    destruct Hor as [->|]; [|done]. intros z Hin Hpre. destruct (Hz z Hin Hpre) as [->|(u' & -> & _ & Hlen)]; [done|].
    destruct u'; [done|simpl in Hlen; lia].
Qed.

(** ** One link *)

Lemma failure_of_ok states parent w b :
  trie states words → words !! parent = Some w → b :: w ∈ words →
  (∀ j u, words !! j = Some u → length u ≤ length w → linked_state states j) →
  ∃ k u, failure_of states parent (byte_val b) = Ok k ∧ words !! k = Some u ∧ failure_ok words (b :: w) u.
Proof.
  intros Ht Hw Hchild Hlinked. unfold failure_of. case_bool_decide as Hroot.
  { subst. rewrite (tr_root _ _ Ht) in Hw. injection Hw as <-. exists 0, []. split_and!; [done|apply Ht|].
    pose proof (tr_root _ _ Ht) as Hr. apply list_elem_of_lookup_2 in Hr.
    split_and!; [done|apply prefix_nil|simpl; lia|]. intros v _ _ Hlen. simpl in *. lia. }
  destruct (trie_state _ _ _ _ Ht Hw) as [s Hs]. assert (state_at states parent = Ok s) as -> by (unfold state_at; by rewrite Hs). cbn [mbind res_bind].
  assert (w ≠ []) as Hne by (intros ->; by apply Hroot, (root_word states)).
  destruct (Hlinked parent w Hw ltac:(done) s w Hs Hw) as [_ Hfail]. destruct (Hfail Hne) as (v & Hv & Hvin & Hvpre & Hvlen & Hvmax).
  change (∃ k u, descend states (S (length states)) (ss_failure s) (byte_val b) = Ok k ∧
    words !! k = Some u ∧ failure_ok words (b :: w) u).
  destruct (descend_ok states (S (length states)) (ss_failure s) v v b Ht Hv) as (k & y & -> & Hy & Hypre & Hymax).
  - done.
  - intros j u Hu Hlen. eapply Hlinked; [done|lia].
  - intros u _ Hpre _. by apply prefix_length.
  - pose proof (word_depth _ _ _ Ht Hvin). rewrite (tr_length _ _ Ht). lia.
  - exists k, y. split_and!; [done|done|]. split_and!.
    + by eapply list_elem_of_lookup_2.
    + etrans; [exact Hypre|]. by apply prefix_cons.
    + apply prefix_length in Hypre. simpl in *. lia.
    + intros [|b' z] Hin Hpre Hlen; [simpl; lia|]. pose proof (prefix_cons_inv_1 _ _ _ _ Hpre) as ->.
      rewrite prefix_cons_same in Hpre. apply Hymax; [done|]. apply prefix_cons.
      pose proof (tr_suffix _ _ Ht _ _ Hin) as Hzin. simpl in Hlen.
      eapply prefix_shorter; [exact Hpre|exact Hvpre|]. apply Hvmax; [done|done|lia].
Qed.

(** The match that a child inherits is the longest one unless it has its own. *)
Lemma inherited_match w u own inherited :
  failure_ok words w u → (∀ id name, (id, name) ∈ names → name ∈ words) →
  own_match names w own → longest_match names u inherited →
  longest_match names w (if outgrows inherited own then inherited else own).
Proof.
  intros (_ & Hpre & Hlen & Hmax) Hnames Hown Hinh.
  assert (∀ id name, (id, name) ∈ names → name `prefix_of` w → name = w ∨ name `prefix_of` u) as Hcases.
  { intros id name Hin Hp. destruct (decide (length name = length w)) as [|Hne].
    - left. apply prefix_length_eq; [done|lia].
    - right. eapply prefix_shorter; [exact Hp|exact Hpre|]. apply Hmax; [by eapply Hnames|done|]. apply prefix_length in Hp. lia. }
  destruct own as [own|]; simpl in Hown.
  - assert (outgrows inherited (Some own) = false) as ->.
    { destruct inherited as [m|]; [|done]. simpl. apply bool_decide_eq_false. destruct Hinh as (name & _ & Hp & -> & _).
      destruct Hown as [_ ->]. apply prefix_length in Hp. lia. }
    destruct Hown as [Hin Hown]. exists w. split_and!; [done|done|done|]. intros id' name' _ Hp. by apply prefix_length.
  - destruct inherited as [m|]; simpl.
    + destruct Hinh as (name & Hin & Hp & Hm & Hbest). exists name. split_and!; [done|by etrans|done|].
      intros id' name' Hin' Hp'. destruct (Hcases _ _ Hin' Hp') as [->|Hu]; [by destruct (Hown _ _ Hin')|by eapply Hbest].
    + intros id name Hin Hp. destruct (Hcases _ _ Hin Hp) as [->|Hu]; [by destruct (Hown _ _ Hin)|by eapply Hinh].
Qed.

(** ** The queue *)

Definition depth (x : nat * Z * nat) : nat := length (default [] (words !! x.2)).
Definition shallower (x y : nat * Z * nat) : Prop := depth x ≤ depth y.

Record linking (states : list SpecialState) (queue : list (nat * Z * nat)) (processed : list nat) : Prop := {
  lk_trie : trie states words;
  lk_root : 0 ∈ processed;
  lk_nodup : NoDup processed;
  lk_valid i : i ∈ processed → i < length words;
  lk_parents c b w p : c ∈ processed → words !! c = Some (b :: w) → words !! p = Some w → p ∈ processed;
  lk_done i : i ∈ processed → linked_state states i;
  lk_own i s w : i ∉ processed → states !! i = Some s → words !! i = Some w → own_match names w (ss_longest s);
  lk_queue p k c : (p, k, c) ∈ queue → p ∈ processed ∧ c ∉ processed ∧
    ∃ b w, k = byte_val b ∧ words !! p = Some w ∧ words !! c = Some (b :: w);
  lk_distinct : NoDup queue.*2;
  lk_closed p w b c : p ∈ processed → words !! p = Some w → words !! c = Some (b :: w) →
    c ∈ processed ∨ (p, byte_val b, c) ∈ queue;
  lk_sorted : StronglySorted shallower queue;
  lk_near first rest x : queue = first :: rest → x ∈ rest → depth x ≤ S (depth first);
}.

(** Whatever is not processed is at least as deep as something queued. *)
Lemma unprocessed_deep states queue processed i w :
  linking states queue processed → words !! i = Some w → i ∉ processed → ∃ x, x ∈ queue ∧ depth x ≤ length w.
Proof.
  intros Hlk. revert i. induction w as [|b w IH]; intros i Hw Hnot.
  - exfalso. apply Hnot. rewrite (root_word states i (lk_trie _ _ _ Hlk) Hw). apply Hlk.
  - assert (w ∈ words) as [p Hp]%list_elem_of_lookup.
    { apply (tr_suffix _ _ (lk_trie _ _ _ Hlk) b). by eapply list_elem_of_lookup_2. }
    destruct (decide (p ∈ processed)) as [Hpin|Hpout].
    + destruct (lk_closed _ _ _ Hlk _ _ _ _ Hpin Hp Hw) as [|Hq]; [done|]. exists (p, byte_val b, i).
      split; [done|]. unfold depth. simpl. by rewrite Hw.
    + destruct (IH p Hp Hpout) as (x & Hx & Hd). exists x. split; [done|simpl; lia].
Qed.

Lemma processed_shallow states first queue processed j u :
  linking states (first :: queue) processed → words !! j = Some u → length u < depth first → j ∈ processed.
Proof.
  intros Hlk Hu Hlen. destruct (decide (j ∈ processed)) as [|Hnot]; [done|]. exfalso.
  destruct (unprocessed_deep _ _ _ _ _ Hlk Hu Hnot) as (x & Hx & Hd).
  pose proof (lk_sorted _ _ _ Hlk) as [_ Hs]%StronglySorted_inv. rewrite Forall_forall in Hs.
  apply elem_of_cons in Hx as [->|Hx]; [lia|]. specialize (Hs _ Hx). unfold shallower in Hs. lia.
Qed.

Lemma elem_of_children states i s w x :
  trie states words → states !! i = Some s → words !! i = Some w →
  x ∈ children i s ↔ ∃ b c, x = (i, byte_val b, c) ∧ words !! c = Some (b :: w).
Proof.
  intros Ht Hs Hw. unfold children. rewrite list_elem_of_fmap. split.
  - intros ([k c] & -> & Hin%elem_of_entries). simpl. destruct (tr_keys _ _ Ht _ _ _ _ Hs Hin) as [b ->].
    exists b, c. split; [done|]. by apply (tr_edges _ _ Ht _ _ _ _ _ Hs Hw).
  - intros (b & c & -> & Hc). exists (byte_val b, c). split; [done|]. apply elem_of_entries.
    by apply (tr_edges _ _ Ht _ _ _ _ _ Hs Hw).
Qed.

Lemma children_distinct states i s w :
  trie states words → states !! i = Some s → words !! i = Some w → NoDup (children i s).*2.
Proof.
  intros Ht Hs Hw. unfold children. rewrite <-list_fmap_compose.
  assert (∀ k c, (k, c) ∈ entries (ss_edges s) → ∃ b, k = byte_val b ∧ words !! c = Some (b :: w)) as Hent.
  { intros k c Hin%elem_of_entries. destruct (tr_keys _ _ Ht _ _ _ _ Hs Hin) as [b ->]. exists b. split; [done|].
    by apply (tr_edges _ _ Ht _ _ _ _ _ Hs Hw). }
  pose proof (entries_NoDup (ss_edges s)) as Hnd. revert Hnd Hent. generalize (entries (ss_edges s)) as l.
  induction l as [|[k c] l IH]; intros Hnd Hent; [constructor|]. apply NoDup_cons in Hnd as [Hk Hnd].
  constructor; [|apply IH; [done|]; intros ?? Hin; apply Hent; by right].
  intros ([k' c'] & Heq & Hin)%list_elem_of_fmap. simpl in Heq. subst c'. apply Hk.
  destruct (Hent k c) as (b & -> & Hc); [left|]. destruct (Hent k' c) as (b' & -> & Hc'); [by right|].
  assert (b = b') as <- by congruence. by apply (list_elem_of_fmap_2 fst _ _ Hin).
Qed.

(** Linking the first of the queue. *)
Definition link_child (failure : nat) (inherited : option Match) (s : SpecialState) : SpecialState :=
  mkSpecialState (ss_edges s) failure (if outgrows inherited (ss_longest s) then inherited else ss_longest s).

Lemma linked_child states parent k child queue processed s failure target w b u :
  linking states ((parent, k, child) :: queue) processed → (∀ id name, (id, name) ∈ names → name ∈ words) →
  states !! child = Some s → words !! child = Some (b :: w) →
  words !! failure = Some u → failure_ok words (b :: w) u → states !! failure = Some target →
  longest_match names u (ss_longest target) →
  linking (alter (link_child failure (ss_longest target)) child states) (queue ++ children child s) (child :: processed).
Proof.
  intros Hlk Hnames Hs Hw Hu Hfail Htarget Hmatch.
  pose proof (lk_trie _ _ _ Hlk) as Ht.
  destruct (lk_queue _ _ _ Hlk parent k child) as (Hparent & Hchild & b' & w' & -> & Hpw & Hcw); [left|].
  rewrite Hw in Hcw. injection Hcw as <- <-.
  pose proof (lk_sorted _ _ _ Hlk) as [Hsorted Hle]%StronglySorted_inv.
  pose proof (lk_distinct _ _ _ Hlk) as Hdist. cbn in Hdist. apply NoDup_cons in Hdist as [Hcq Hdist].
  assert (depth (parent, byte_val b, child) = S (length w)) as Hdepth by (unfold depth; simpl; by rewrite Hw).
  assert (∀ x, x ∈ children child s → depth x = S (S (length w))) as Hkids.
  { intros x (b' & c & -> & Hc)%(elem_of_children states _ _ _ _ Ht Hs Hw). unfold depth. simpl. by rewrite Hc. }
  assert (∀ x, x ∈ queue → S (length w) ≤ depth x ≤ S (S (length w))) as Hqueue.
  { intros x Hx. rewrite Forall_forall in Hle. specialize (Hle x Hx). unfold shallower in Hle.
    pose proof (lk_near _ _ _ Hlk _ _ x eq_refl Hx). lia. }
  assert (∀ i, i ≠ child → alter (link_child failure (ss_longest target)) child states !! i = states !! i) as Hother.
  { intros i Hne. by rewrite list_lookup_alter_ne. }
  split.
  - by apply trie_update.
  - right. apply Hlk.
  - constructor; [done|apply Hlk].
  - intros i [->|Hi]%elem_of_cons; [by eapply lookup_lt_Some|by apply Hlk].
  - intros c b' w' p [->|Hc]%elem_of_cons Hcw Hp.
    + rewrite Hw in Hcw. injection Hcw as <- <-. right. by rewrite (trie_index _ _ _ _ _ Ht Hp Hpw).
    + right. by eapply (lk_parents _ _ _ Hlk).
  - intros i [->|Hi]%elem_of_cons s' w' Hs' Hw'.
    + rewrite list_lookup_alter_eq, Hs in Hs'. injection Hs' as <-. rewrite Hw in Hw'. injection Hw' as <-. simpl.
      split; [|intros _; by exists u]. eapply inherited_match; [exact Hfail|exact Hnames| |exact Hmatch].
      by eapply (lk_own _ _ _ Hlk).
    + assert (i ≠ child) as Hne by (by intros ->). rewrite Hother in Hs' by done. by eapply (lk_done _ _ _ Hlk).
  - intros i s' w' [Hne Hi]%not_elem_of_cons Hs' Hw'. rewrite Hother in Hs' by done. by eapply (lk_own _ _ _ Hlk).
  - intros p k c [Hin|Hin]%elem_of_app.
    + destruct (lk_queue _ _ _ Hlk p k c) as (Hp & Hc & Hbw); [by right|]. split_and!; [by right| |done].
      intros [->|?]%elem_of_cons; [|done]. apply Hcq. by apply (list_elem_of_fmap_2 snd _ _ Hin).
    + apply (elem_of_children states _ _ _ _ Ht Hs Hw) in Hin as (b' & c' & [= -> -> ->] & Hc').
      split_and!; [left| |by exists b', (b :: w)]. intros [->|Hc]%elem_of_cons.
      * rewrite Hw in Hc'. injection Hc' as _ Heq. apply (f_equal length) in Heq. simpl in Heq. lia.
      * apply Hchild. by eapply (lk_parents _ _ _ Hlk).
  - rewrite fmap_app. apply NoDup_app. split_and!; [done| |by eapply children_distinct].
    intros c ([[p k] c'] & -> & Hin)%list_elem_of_fmap ([[p' k'] c''] & Heq & Hin')%list_elem_of_fmap. simpl in Heq. subst c''.
    apply (elem_of_children states _ _ _ _ Ht Hs Hw) in Hin' as (b' & c'' & [= -> -> ->] & Hc').
    destruct (lk_queue _ _ _ Hlk p k c'') as (Hp & _ & b'' & w'' & _ & Hpw' & Hcw'); [by right|].
    simpl in Hcw'. rewrite Hc' in Hcw'. injection Hcw' as <- <-. apply Hchild. by rewrite (trie_index _ _ _ _ _ Ht Hw Hpw').
  - intros p w' b' c [->|Hp]%elem_of_cons Hpw' Hc.
    + rewrite Hw in Hpw'. injection Hpw' as <-. right. apply elem_of_app. right.
      apply (elem_of_children states _ _ _ _ Ht Hs Hw). by exists b', c.
    + destruct (lk_closed _ _ _ Hlk _ _ _ _ Hp Hpw' Hc) as [|[[= -> ? ->]|Hin]%elem_of_cons]; [left; by right|left; left|].
      right. apply elem_of_app. by left.
  - apply StronglySorted_app_2; [|done|].
    + intros x y Hx%Hqueue Hy%Hkids. unfold shallower. lia.
    + revert Hkids. generalize (children child s) as l. induction l as [|x l IH]; intros Hall; constructor.
      * apply IH. intros y Hy. apply Hall. by right.
      * apply Forall_forall. intros y Hy. unfold shallower. rewrite (Hall x), (Hall y); [done|by right|left].
  - intros first rest x Heq Hx.
    assert (∀ y, y ∈ queue ++ children child s → S (length w) ≤ depth y ≤ S (S (length w))) as Hall.
    { intros y [Hy%Hqueue|Hy%Hkids]%elem_of_app; lia. }
    assert (S (length w) ≤ depth first) by (apply Hall; rewrite Heq; left).
    assert (depth x ≤ S (S (length w))) by (apply Hall; rewrite Heq; by right). lia.
Qed.

Lemma link_step fuel states parent k child queue processed :
  linking states ((parent, k, child) :: queue) processed → (∀ id name, (id, name) ∈ names → name ∈ words) →
  ∃ states' queue', link_failures (S fuel) states ((parent, k, child) :: queue) = link_failures fuel states' queue' ∧
    linking states' queue' (child :: processed).
Proof.
  intros Hlk Hnames. pose proof (lk_trie _ _ _ Hlk) as Ht.
  destruct (lk_queue _ _ _ Hlk parent k child) as (Hparent & Hchild & b & w & -> & Hpw & Hcw); [left|].
  assert (depth (parent, byte_val b, child) = S (length w)) as Hdepth by (unfold depth; simpl; by rewrite Hcw).
  assert (∀ j u, words !! j = Some u → length u ≤ length w → linked_state states j) as Hlinked.
  { intros j u Hu Hlen. apply (lk_done _ _ _ Hlk). eapply processed_shallow; [exact Hlk|exact Hu|]. rewrite Hdepth. lia. }
  destruct (failure_of_ok states parent w b Ht Hpw) as (failure & u & Hfailure & Hu & Hok);
    [by eapply list_elem_of_lookup_2|done|].
  destruct (trie_state _ _ _ _ Ht Hcw) as [s Hs], (trie_state _ _ _ _ Ht Hu) as [target Htarget].
  assert (length u ≤ length w) as Hul by (destruct Hok as (_ & _ & Hlt & _); simpl in Hlt; lia).
  assert (failure ≠ child) as Hne by (intros ->; assert (b :: w = u) as <- by congruence; simpl in Hul; lia).
  destruct (Hlinked failure u Hu Hul target u Htarget Hu) as [Hmatch _].
  exists (alter (link_child failure (ss_longest target)) child states), (queue ++ children child s).
  split; [|by eapply linked_child].
  assert (child < length states) as Hlt by (by eapply lookup_lt_Some).
  cbn [link_failures]. rewrite Hfailure. cbn [mbind res_bind]. rewrite update_state_ok by done. cbn [mbind res_bind].
  unfold state_at. rewrite (list_lookup_alter_ne _ _ child failure) by congruence. rewrite Htarget. cbn [expect mbind res_bind].
  rewrite list_lookup_alter_eq, Hs. cbn [fmap option_fmap option_map expect mbind res_bind].
  change (ss_longest (set_failure failure s)) with (ss_longest s).
  assert (∀ f g : SpecialState → SpecialState, g s = f (set_failure failure s) →
    alter f child (alter (set_failure failure) child states) = alter g child states) as Halter.
  { intros f g Hfg. apply list_eq. intros i. destruct (decide (i = child)) as [->|Hi].
    - rewrite !list_lookup_alter_eq, Hs. simpl. by rewrite Hfg.
    - by rewrite !list_lookup_alter_ne. }
  destruct (outgrows (ss_longest target) (ss_longest s)) eqn:Hgrow.
  - rewrite update_state_ok by (by rewrite length_alter). cbn [mbind res_bind].
    rewrite (Halter _ (link_child failure (ss_longest target))) by (unfold link_child; by rewrite Hgrow).
    rewrite list_lookup_alter_eq, Hs. reflexivity.
  - cbn [mbind res_bind mret res_ret].
    rewrite <-(Halter id (link_child failure (ss_longest target))) by (unfold link_child; by rewrite Hgrow).
    assert (∀ l : list SpecialState, alter id child l = l) as ->.
    { intros l. apply list_eq. intros i. destruct (decide (i = child)) as [->|Hi].
      - rewrite list_lookup_alter_eq. by destruct (l !! child).
      - by rewrite list_lookup_alter_ne. }
    rewrite list_lookup_alter_eq, Hs. reflexivity.
Qed.

(** Every state is linked at the end. *)
Lemma link_failures_ok fuel states queue processed :
  linking states queue processed → (∀ id name, (id, name) ∈ names → name ∈ words) →
  length words < fuel + length processed →
  ∃ states', link_failures fuel states queue = Ok states' ∧ trie states' words ∧
    ∀ i, i < length words → linked_state states' i.
Proof.
  intros Hlk Hnames. revert states queue processed Hlk. induction fuel as [|fuel IH]; intros states queue processed Hlk Hfuel.
  - exfalso. assert (length processed ≤ length words); [|lia].
    transitivity (length (seq 0 (length words))); [|by rewrite length_seq].
    apply submseteq_length, NoDup_submseteq; [apply Hlk|]. intros i Hi. apply elem_of_seq. pose proof (lk_valid _ _ _ Hlk i Hi). lia.
  - destruct queue as [|[[parent k] child] queue].
    + exists states. split_and!; [done|apply Hlk|]. intros i Hi. apply (lk_done _ _ _ Hlk).
      destruct (decide (i ∈ processed)) as [|Hnot]; [done|]. destruct (lookup_lt_is_Some_2 words i Hi) as [w Hw].
      destruct (unprocessed_deep _ _ _ _ _ Hlk Hw Hnot) as (x & Hx & _). by apply elem_of_nil in Hx.
    + destruct (link_step fuel _ _ _ _ _ _ Hlk Hnames) as (states' & queue' & -> & Hlk').
      eapply IH; [done|]. simpl. lia.
Qed.

Lemma initial_linking states root :
  trie states words → own_matches names states words → states !! 0 = Some root → (∀ id name, (id, name) ∈ names → name ≠ []) →
  linking states (children 0 root) [0].
Proof.
  intros Ht Hown Hroot Hne. pose proof (tr_root _ _ Ht) as Hw.
  assert (∀ x, x ∈ children 0 root → depth x = 1) as Hdepth.
  { intros x (b & c & -> & Hc)%(elem_of_children states _ _ _ _ Ht Hroot Hw). unfold depth. simpl. by rewrite Hc. }
  split.
  - done.
  - left.
  - apply NoDup_singleton.
  - intros i ->%list_elem_of_singleton. by eapply lookup_lt_Some.
  - intros c b w p ->%list_elem_of_singleton Hc. rewrite Hw in Hc. done.
  - intros i ->%list_elem_of_singleton s w Hs Hw'. rewrite Hw in Hw'. injection Hw' as <-. split; [|done].
    pose proof (Hown _ _ _ Hs Hw) as Ho. destruct (ss_longest s) as [m|]; simpl in Ho.
    + destruct Ho as [Hin _]. by destruct (Hne _ _ Hin).
    + intros id name Hin Hp%prefix_nil_inv. subst. by eapply Ho.
  - intros i s w _ Hs Hw'. by eapply Hown.
  - intros p k c (b & c' & [= -> -> ->] & Hc)%(elem_of_children states _ _ _ _ Ht Hroot Hw). split_and!; [left| |by exists b, []].
    intros ->%list_elem_of_singleton. congruence.
  - by eapply children_distinct.
  - intros p w b c ->%list_elem_of_singleton Hw' Hc. rewrite Hw in Hw'. injection Hw' as <-. right.
    apply (elem_of_children states _ _ _ _ Ht Hroot Hw). by exists b, c.
  - revert Hdepth. generalize (children 0 root) as l. induction l as [|x l IH]; intros Hall; constructor.
    + apply IH. intros y Hy. apply Hall. by right.
    + apply Forall_forall. intros y Hy. unfold shallower. rewrite (Hall x), (Hall y); [done|by right|left].
  - intros first rest x Heq Hx. rewrite Heq in Hdepth. rewrite (Hdepth x), (Hdepth first); [lia|left|by right].
Qed.
End links.
