(* ===== verification/SpecialExact.v ===== *)
(** * Named controls are found leftmost and longest

    The backward scan of the automaton knows, at every position, the longest
    name that starts there; the forward pass then binds what [split_controls]
    describes. *)

From Stdlib Require Import Strings.Byte.
From stdpp Require Import base tactics numbers list gmap sorting.
From S2P Require Import Prelude Bytes Judgment Tokens TokenNodes TokenReference SpecialTokens SpecialTrie.
From S2P Require Import SpecialLinks Pretokenizer Bpe BpeData BpeMerge BpePieces EncodeReference EncodeLayout.
From S2P Require Import WholePieces.

(** ** Admission of names *)

Lemma check_names_ok vocabulary total names total' :
  check_names vocabulary total names = Ok total' →
  ∀ id name, (id, name) ∈ names → vocabulary_get vocabulary id = Some Control ∧ name ≠ [].
Proof.
  revert total. induction names as [|[id name] names IH]; intros total; [by intros _ ?? ?%elem_of_nil|]. cbn [check_names].
  rewrite !refuse_ok, negb_false_iff, bool_decide_eq_true, bool_decide_eq_false. intros (Hc & Hne & _ & H).
  apply then_ok in H as (t & _ & H). rewrite refuse_ok in H. destruct H as [_ H].
  intros id' name' [[= -> ->]|Hin]%elem_of_cons; [done|by eapply IH].
Qed.

Lemma check_spellings_ok unique names :
  check_spellings unique names = Ok tt → NoDup names ∧ (∀ name, name ∈ names → ¬ (name ∈ unique) ∧ utf8_valid name = true).
Proof.
  revert unique. induction names as [|name names IH]; intros unique; cbn [check_spellings].
  { intros _. split; [constructor|]. by intros ? ?%elem_of_nil. }
  rewrite !refuse_ok, negb_false_iff, bool_decide_eq_false. intros (Hv & Hnew & [Hnd Hall]%IH). split.
  - constructor; [|done]. intros Hin. apply Hall in Hin as [Hin _]. set_solver.
  - intros name' [->|Hin]%elem_of_cons; [done|]. apply Hall in Hin as [Hin ?]. split; [set_solver|done].
Qed.

(** A registration: its automaton, if it has names, is linked. *)
Record registered (vocabulary : list TokenBytes) (self : SpecialTokens) : Prop := {
  rg_names id name : sp_names self !! id = Some name →
    vocabulary_get vocabulary id = Some Control ∧ name ≠ [] ∧ utf8_valid name = true;
  rg_distinct : NoDup (map_to_list (sp_names self)).*2;
  rg_linked : sp_names self ≠ ∅ → ∃ words, trie (sp_states self) words ∧
    (∀ id name, (id, name) ∈ map_to_list (sp_names self) → name ∈ words) ∧
    (∀ i, i < length words → linked_state (map_to_list (sp_names self)) words (sp_states self) i);
}.

Lemma longest_match_perm names names' w m : names ≡ₚ names' → longest_match names w m → longest_match names' w m.
Proof. intros Hp. unfold longest_match. destruct m; setoid_rewrite Hp; done. Qed.

(** Admitted names can be inserted and linked. *)
Lemma special_tokens_build vocabulary names total :
  check_names vocabulary 0 (entries names) = Ok total → check_spellings ∅ (map_values names) = Ok tt →
  ∃ states root states', insert_names [default_special_state] (entries names) = Ok states ∧ state_at states 0 = Ok root ∧
    link_failures (length states) states (children 0 root) = Ok states' ∧ registered vocabulary (mkSpecialTokens names states').
Proof.
  intros Hcheck Hspell. apply check_spellings_ok in Hspell as [Hnd Hvalid].
  pose proof (check_names_ok _ _ _ _ Hcheck) as Hnames. pose proof (entries_perm names) as Hperm.
  assert (∀ id name, names !! id = Some name → vocabulary_get vocabulary id = Some Control ∧ name ≠ [] ∧ utf8_valid name = true) as Hall.
  { intros id name Hin%elem_of_entries. destruct (Hnames _ _ Hin). split_and!; [done..|].
    apply Hvalid. unfold map_values. by apply (list_elem_of_fmap_2 snd _ _ Hin). }
  unfold map_values in Hnd.
  destruct (insert_names_ok [] (entries names) [default_special_state] [[]]) as (states & words & Hins & Ht & Hown & Hin).
  - apply trie_root_only.
  - intros [|i] s w; [|done]. intros [= <-] [= <-]. by intros ?? ?%elem_of_nil.
  - by intros ?? ?%elem_of_nil.
  - done.
  - destruct (trie_state _ _ _ _ Ht (tr_root _ _ Ht)) as [root Hroot].
    destruct (link_failures_ok (entries names) words (length states) states (children 0 root) [0]) as (states' & Hlink & Ht' & Hlinked).
    + apply initial_linking; [done..|]. intros id name Hn%elem_of_entries. by apply Hall in Hn as (_ & ? & _).
    + done.
    + simpl. rewrite (tr_length _ _ Ht). lia.
    + exists states, root, states'. unfold state_at. rewrite Hroot. split_and!; [done..|].
      split; simpl; [done|by rewrite <-Hperm|]. intros _. exists words. split_and!; [done| |].
      * intros id name Hn. rewrite <-Hperm in Hn. by eapply Hin.
      * intros i Hi s w Hs Hw. destruct (Hlinked i Hi s w Hs Hw) as [Hm Hf]. split; [|done]. by eapply longest_match_perm.
Qed.

Lemma special_tokens_registered vocabulary names self :
  special_tokens_new vocabulary names = Ok self → registered vocabulary self.
Proof.
  unfold special_tokens_new. rewrite refuse_ok. intros [_ H]. apply then_ok in H as (total & Hcheck & H).
  apply then_unit_ok in H as [Hspell H].
  destruct (special_tokens_build _ _ _ Hcheck Hspell) as (states & root & states' & Hins & Hroot & Hlink & Hreg).
  case_bool_decide as Hempty.
  - injection H as <-. split; simpl; [by intros ??; rewrite lookup_empty|by rewrite map_to_list_empty; constructor|done].
  - rewrite Hins in H. cbn [mbind res_bind] in H. rewrite Hroot in H. cbn [mbind res_bind] in H. rewrite Hlink in H. by injection H as <-.
Qed.

Lemma special_tokens_no_panic vocabulary names : special_tokens_new vocabulary names ≠ Panic.
Proof.
  assert (∀ total l, check_names vocabulary total l ≠ Panic) as Hnames.
  { intros total l. revert total. induction l as [|[id name] l IH]; intros total; cbn [check_names]; [done|].
    munfold_goal. repeat case_match; try done; apply IH. }
  assert (∀ unique l, check_spellings unique l ≠ Panic) as Hspellings.
  { intros unique l. revert unique. induction l as [|name l IH]; intros unique; cbn [check_spellings]; [done|].
    munfold_goal. repeat case_match; try done; apply IH. }
  unfold special_tokens_new. destruct (_ <? _)%Z; [done|]. cbn [refuse_if mbind res_bind mret res_ret].
  destruct (check_names _ _ _) as [total|e|] eqn:Hcheck; [|done|by apply Hnames in Hcheck]. cbn [mbind res_bind].
  destruct (check_spellings _ _) as [[]|e|] eqn:Hspell; [|done|by apply Hspellings in Hspell]. cbn [mbind res_bind].
  destruct (special_tokens_build _ _ _ Hcheck Hspell) as (states & root & states' & -> & Hroot & Hlink & _).
  case_bool_decide; [done|]. cbn [mbind res_bind]. rewrite Hroot. cbn [mbind res_bind]. by rewrite Hlink.
Qed.

(** ** The scan *)

Lemma scan_step_eq fuel states state b : scan_step fuel states state b = descend states fuel state b.
Proof.
  unfold descend. revert state. induction fuel as [|fuel IH]; intros state; [done|]. cbn [scan_step fall_back].
  assert (∀ b', (state_at states state ≫= (λ own, mret (default 0 (ss_edges own !! b')))) =
    match states !! state with Some s => Ok (default 0 (ss_edges s !! b')) | None => Panic end) as Hat.
  { intros b'. unfold state_at. by destruct (states !! state). }
  assert (∀ (A : Type) (k : SpecialState → res Error A), (state_at states state ≫= k) =
    match states !! state with Some s => k s | None => Panic end) as Hbind.
  { intros A k. unfold state_at. by destruct (states !! state). }
  rewrite !Hbind. destruct (states !! state) as [s|] eqn:Hs; [|done].
  destruct (ss_edges s !! b) as [next|] eqn:Hedge.
  - rewrite (bool_decide_eq_false_2 (Some next = None)) by done. rewrite andb_false_r. cbn [mbind res_bind mret res_ret].
    change (Ok next = (state_at states state ≫= (λ own, mret (default 0 (ss_edges own !! b))))). by rewrite Hat, Hedge.
  - rewrite (bool_decide_eq_true_2 (None = None)) by done. rewrite andb_true_r. case_bool_decide as Hz.
    + subst. rewrite bool_decide_eq_false_2 by naive_solver. cbn [mbind res_bind mret res_ret].
      change (Ok 0 = (state_at states 0 ≫= (λ own, mret (default 0 (ss_edges own !! b))))). by rewrite Hat, Hedge.
    + rewrite bool_decide_eq_true_2 by done. by rewrite IH.
Qed.

Definition match_at (names : list (Z * bytes)) (source : bytes) : option Match :=
  (λ found, mkMatch found.1 (length found.2)) <$> longest_name names source.

Lemma take_prefix {A} `{!EqDecision A} (name source : list A) : take (length name) source = name ↔ name `prefix_of` source.
Proof.
  split; [|by intros [k ->]; apply take_app_length]. intros <-. exists (drop (length name) source). by rewrite take_drop.
Qed.

Lemma longest_name_spec names source :
  match longest_name names source with
  | Some (id, name) => (id, name) ∈ names ∧ name `prefix_of` source ∧
      ∀ id' name', (id', name') ∈ names → name' `prefix_of` source → length name' ≤ length name
  | None => ∀ id name, (id, name) ∈ names → ¬ name `prefix_of` source
  end.
Proof.
  induction names as [|[id name] names IH]; [by intros ?? ?%elem_of_nil|]. cbn [longest_name].
  destruct (longest_name names source) as [[id1 name1]|].
  - destruct IH as (Hin & Hpre & Hmax). destruct (_ && _) eqn:E.
    + apply andb_true_iff in E as [E1%bool_decide_eq_true E2%bool_decide_eq_true]. split_and!; [left|by apply take_prefix|].
      intros id' name' [[= -> ->]|Hin']%elem_of_cons Hp; [done|]. specialize (Hmax _ _ Hin' Hp). lia.
    + split_and!; [by right|done|]. intros id' name' [[= -> ->]|Hin']%elem_of_cons Hp; [|by eapply Hmax].
      apply take_prefix in Hp. rewrite bool_decide_eq_true_2 in E by done. simpl in E. apply bool_decide_eq_false in E. lia.
  - rewrite andb_true_r. case_bool_decide as E.
    + split_and!; [left|by apply take_prefix|]. intros id' name' [[= -> ->]|Hin']%elem_of_cons Hp; [done|].
      by destruct (IH _ _ Hin').
    + intros id' name' [[= -> ->]|Hin']%elem_of_cons Hp; [by apply E, take_prefix|by eapply IH].
Qed.

(** The longest match in the longest word is the longest name. *)
Lemma longest_match_at (names : list (Z * bytes)) (words : list bytes) (w source : bytes) m :
  NoDup names.*2 → (∀ id name, (id, name) ∈ names → name ∈ words) → w `prefix_of` source →
  (∀ v, v ∈ words → v `prefix_of` source → length v ≤ length w) → longest_match names w m → m = match_at names source.
Proof.
  intros Hnd Hnames Hw Hmax Hm. pose proof (longest_name_spec names source) as Hspec.
  assert (∀ id name, (id, name) ∈ names → name `prefix_of` source → name `prefix_of` w) as Hin_w.
  { intros id name Hin Hp. eapply prefix_shorter; [exact Hp|exact Hw|]. apply Hmax; [by eapply Hnames|done]. }
  unfold match_at. destruct (longest_name names source) as [[id name]|].
  - destruct Hspec as (Hin & Hp & Hbest). destruct m as [[token total]|]; simpl in Hm.
    + destruct Hm as (name' & Hin' & Hp' & -> & Hbest'). simpl.
      assert (length name = length name') as Hlen.
      { specialize (Hbest _ _ Hin' ltac:(by etrans)). specialize (Hbest' _ _ Hin (Hin_w _ _ Hin Hp)). lia. }
      assert (name = name') as <-.
      { apply (prefix_length_eq name name'); [|lia]. eapply (prefix_shorter _ _ source); [done|by etrans|lia]. }
      do 2 f_equal. apply list_elem_of_lookup in Hin as [i Hi], Hin' as [j Hj].
      assert (i = j) as <-; [|congruence].
      eapply (NoDup_lookup names.*2); [done| |]; rewrite list_lookup_fmap; [by rewrite Hi|by rewrite Hj].
    + by destruct (Hm _ _ Hin (Hin_w _ _ Hin Hp)).
  - destruct m as [[token total]|]; [|done]. destruct Hm as (name' & Hin' & Hp' & _). destruct (Hspec _ _ Hin'). by etrans.
Qed.

Section scan.
Context (names : list (Z * bytes)) (states : list SpecialState) (words : list bytes).
Hypothesis Ht : trie states words.
Hypothesis Hnd : NoDup names.*2.
Hypothesis Hnames : ∀ id name, (id, name) ∈ names → name ∈ words.
Hypothesis Hlinked : ∀ i, i < length words → linked_state names words states i.

Lemma scan_matches_ok source :
  ∃ state w matches, scan_matches states source = Ok (state, matches) ∧ words !! state = Some w ∧ w `prefix_of` source ∧
    (∀ v, v ∈ words → v `prefix_of` source → length v ≤ length w) ∧ length matches = length source ∧
    ∀ i, i < length source → matches !! i = Some (match_at names (drop i source)).
Proof using Type*.
  induction source as [|b source (state & w & matches & Hscan & Hw & Hpre & Hmax & Hlen & Hat)].
  { exists 0, [], []. split_and!; [done|apply Ht|done| |done|simpl; lia]. by intros v _ ->%prefix_nil_inv. }
  cbn [scan_matches]. rewrite Hscan. cbn [mbind res_bind]. rewrite scan_step_eq.
  destruct (descend_ok names words states (S (length states)) state w source b Ht Hw Hpre) as (k & y & -> & Hy & Hypre & Hymax).
  - intros j u Hu _. apply Hlinked. by eapply lookup_lt_Some.
  - intros u Hu Hp _. by apply Hmax.
  - pose proof (word_depth _ _ w Ht ltac:(by eapply list_elem_of_lookup_2)). rewrite (tr_length _ _ Ht). lia.
  - cbn [mbind res_bind]. destruct (trie_state _ _ _ _ Ht Hy) as [s Hs]. unfold state_at. rewrite Hs. cbn [expect mbind res_bind].
    exists k, y, (ss_longest s :: matches). split_and!; [done..|simpl; lia|].
    intros [|i] Hi; simpl.
    + f_equal. eapply longest_match_at; [done|exact Hnames|exact Hypre|exact Hymax|].
      apply (Hlinked k (lookup_lt_Some _ _ _ Hy) s y Hs Hy).
    + apply Hat. simpl in Hi. lia.
Qed.
End scan.

(** ** Splitting *)

Lemma longest_name_take names source id name :
  longest_name names source = Some (id, name) → (id, name) ∈ names ∧ source = name ++ drop (length name) source.
Proof.
  intros H. pose proof (longest_name_spec names source) as Hs. rewrite H in Hs. destruct Hs as (Hin & [k ->] & _).
  split; [done|]. by rewrite drop_app_length.
Qed.

Section split.
Context (d : ByteBpe) (names : list (Z * bytes)).
Hypothesis Hnames : ∀ id name, (id, name) ∈ names → vocabulary_get (bb_vocabulary d) id = Some Control ∧ name ≠ [].

Lemma flush_ok pending :
  flush pending ≫= snd = pending ∧ occupied (flush pending) ∧ Forall (control_unit d) (flush pending).
Proof using Type. destruct pending; simpl; [|rewrite app_nil_r]; split_and!; try done; by repeat constructor. Qed.

Lemma split_controls_ok fuel pending source :
  length source ≤ fuel →
  split_controls fuel names pending source ≫= snd = pending ++ source ∧
  occupied (split_controls fuel names pending source) ∧ Forall (control_unit d) (split_controls fuel names pending source) ∧
  spaced (split_controls fuel names pending source).
Proof using Hnames.
  revert pending source. induction fuel as [|fuel IH]; intros pending source Hfuel.
  { destruct source; [|simpl in Hfuel; lia]. rewrite app_nil_r. simpl. destruct (flush_ok pending) as (? & ? & ?).
    split_and!; [done..|]. by destruct pending. }
  destruct source as [|b source]; cbn [split_controls].
  { rewrite app_nil_r. destruct (flush_ok pending) as (? & ? & ?). split_and!; [done..|]. by destruct pending. }
  destruct (longest_name names (b :: source)) as [[id name]|] eqn:Hfound.
  - apply longest_name_take in Hfound as [Hin Hsplit]. destruct (Hnames _ _ Hin) as [Hc Hne].
    assert (length (drop (length name) (b :: source)) ≤ fuel) as Hle.
    { rewrite length_drop. destruct name; [done|]. simpl in *. lia. }
    set (k := drop (length name) (b :: source)) in *. clearbody k.
    destruct (IH [] _ Hle) as (Hs & Ho & Hcs & Hsp). destruct (flush_ok pending) as (Hf & Hfo & Hfc). split_and!.
    + rewrite bind_app, Hf. change (pending ++ name ++ (split_controls fuel names [] k ≫= snd) = pending ++ b :: source).
      by rewrite Hs, Hsplit.
    + apply Forall_app. split; [done|]. by constructor.
    + apply Forall_app. split; [done|]. by constructor.
    + destruct (split_controls fuel names [] k) as [|u us] eqn:E; destruct pending; simpl in *; naive_solver.
  - destruct (IH (pending ++ [b]) source) as (Hs & Ho & Hcs & Hsp); [simpl in Hfuel; lia|].
    split_and!; [|done..]. by rewrite Hs, <-app_assoc.
Qed.

Lemma place_flush boundary start pending :
  concat (place d boundary false start (flush pending)) = singles d boundary start pending.
Proof using Type. destruct pending; [done|]. simpl. by rewrite app_nil_r. Qed.

Lemma extent_flush pending : extent (flush pending) = length pending.
Proof using Type. unfold extent. destruct pending; [done|]. simpl. by rewrite app_nil_r. Qed.

Lemma bind_matches_ok fuel gas done_ pending rest source matches nodes :
  source = (done_ ≫= snd) ++ pending ++ rest → length matches = length source →
  (∀ i, i < length source → matches !! i = Some (match_at names (drop i source))) → occupied done_ →
  represents nodes (concat (place d false false 0 done_) ++ singles d false (extent done_) (pending ++ rest)) →
  length rest < fuel → length rest ≤ gas →
  ∃ nodes', bind_matches fuel matches (extent done_ + length pending) nodes = Ok nodes' ∧ length nodes' = length nodes ∧
    represents nodes' (concat (place d false false 0 (done_ ++ split_controls gas names pending rest))).
Proof using Hnames.
  revert gas done_ pending rest nodes. induction fuel as [|fuel IH]; intros gas done_ pending rest nodes Hsource Hlen Hat Hocc Hrep Hfuel Hgas; [lia|].
  assert (length source = extent done_ + length pending + length rest) as Hn.
  { rewrite Hsource, !length_app. unfold extent. lia. }
  assert (drop (extent done_ + length pending) source = rest) as Hdrop.
  { rewrite Hsource, app_assoc. unfold extent. rewrite <-length_app. apply drop_app_length. }
  cbn [bind_matches]. destruct rest as [|b rest].
  - rewrite lookup_ge_None_2 by (rewrite Hlen; simpl in Hn; lia). exists nodes. split_and!; [done..|].
    assert (split_controls gas names pending [] = flush pending) as -> by (by destruct gas).
    rewrite place_app, concat_app, place_flush. by rewrite app_nil_r in Hrep.
  - rewrite Hat by (simpl in Hn; lia). rewrite Hdrop. destruct gas as [|gas]; [simpl in Hgas; lia|]. cbn [split_controls].
    unfold match_at. destruct (longest_name names (b :: rest)) as [[id name]|] eqn:Hfound; cbn [fmap option_fmap option_map].
    + apply longest_name_take in Hfound as [Hin Hsplit]. destruct (Hnames _ _ Hin) as [_ Hne]. cbn [mt_len mt_token fst snd].
      set (k := drop (length name) (b :: rest)) in *. rewrite Hsplit in Hrep.
      assert (length (b :: rest) = length name + length k) as Hlk by (rewrite Hsplit at 1; by rewrite length_app).
      assert (length name ≠ 0) as Hname by (by destruct name).
      pose proof (rep_tiled _ _ Hrep) as Htile. rewrite !singles_app in Hrep.
      replace (match pending with [] => false | _ => false end) with false in Hrep by (by destruct pending).
      replace (match name with [] => false | _ => false end) with false in Hrep by (by destruct name).
      assert (length nodes = extent done_ + length pending + length name + length k) as Hnodes.
      { eapply tiled_functional; [exact Htile|]. apply tiled_app. exists (extent done_).
        split; [apply (place_tiled d false false 0 done_ Hocc)|].
        replace (extent done_ + length pending + length name + length k) with (extent done_ + length (pending ++ name ++ k))
          by (rewrite !length_app; lia). apply singles_tiled. }
      rewrite bool_decide_eq_false_2 by lia. cbn [refuse_if mbind res_bind mret res_ret].
      destruct name as [|c name]; [done|]. cbn [singles] in Hrep. rewrite app_assoc in Hrep.
      destruct (bind_span_ok nodes _ _ _ _ (extent done_ + length pending) (extent done_ + length pending + length (c :: name)) id Hrep)
        as (nodes1 & -> & Hlen1 & Hrep1).
      { apply (singles_tiled d false (extent done_ + length pending) (c :: name)). }
      cbn [mbind res_bind]. rewrite <-Hlen1.
      replace (extent done_ + length pending + length (c :: name))
        with (extent (done_ ++ flush pending ++ [(Some id, c :: name)]) + length (@nil byte)).
      2: { rewrite !extent_app, extent_flush, extent_cons. unfold extent at 2. simpl. lia. }
      replace (done_ ++ flush pending ++ (Some id, c :: name) :: split_controls gas names [] k)
        with ((done_ ++ flush pending ++ [(Some id, c :: name)]) ++ split_controls gas names [] k)
        by (by rewrite <-!app_assoc).
      apply IH; [|done|done| | |simpl in *; lia|simpl in *; lia].
      * rewrite Hsource, Hsplit, !bind_app, (proj1 (flush_ok pending)). simpl. by rewrite app_nil_r, <-!app_assoc.
      * apply Forall_app. split; [done|]. apply Forall_app. split; [apply flush_ok|by constructor].
      * rewrite !place_app, !concat_app, place_flush, !extent_app, extent_flush, extent_cons. simpl.
        replace (extent done_ + (length pending + S (length name + extent []))) with (extent done_ + length pending + S (length name))
          by (unfold extent; simpl; lia).
        by rewrite <-!app_assoc in Hrep1; rewrite <-!app_assoc.
    + replace (S (extent done_ + length pending)) with (extent done_ + length (pending ++ [b])) by (rewrite length_app; simpl; lia).
      apply IH; [|done..| |simpl in *; lia|simpl in *; lia]; by rewrite <-app_assoc.
Qed.
End split.

(** ** The pass *)

Lemma controls_laid_out d source :
  registered (bb_vocabulary d) (bb_special d) →
  controls_of d source ≫= snd = source ∧ laid_out d false (controls_of d source).
Proof.
  intros Hreg. destruct (split_controls_ok d (map_to_list (sp_names (bb_special d)))) with (fuel := length source)
    (pending := @nil byte) (source := source) as (Hs & Ho & Hc & Hsp); [|done|].
  - intros id name Hin%elem_of_map_to_list. by apply (rg_names _ _ Hreg) in Hin as (? & ? & _).
  - split; [done|]. split; [done..|by right].
Qed.

Lemma admitted_registered d : admitted d → registered (bb_vocabulary d) (bb_special d).
Proof.
  intros Hd. destruct (ad_special _ Hd) as [->|(names & Hs)]; [|by eapply special_tokens_registered].
  split; simpl; [by intros ??; rewrite lookup_empty|rewrite map_to_list_empty; constructor|done].
Qed.

Lemma special_bind_nodes_ok d source nodes :
  admitted d → (len source ≤ MAX_INPUT_BYTES)%Z → length nodes = length source → represents nodes (singles d false 0 source) →
  ∃ nodes', special_bind_nodes (bb_special d) source nodes = Ok nodes' ∧ length nodes' = length nodes ∧
    represents nodes' (concat (place d false false 0 (controls_of d source))).
Proof.
  intros Hd Hmax Hlen Hrep. pose proof (admitted_registered _ Hd) as Hreg. unfold special_bind_nodes.
  rewrite (proj2 (Z.ltb_ge _ _) Hmax). rewrite (bool_decide_eq_true_2 (length nodes = length source)) by done. cbn [negb orb refuse_if mbind res_bind mret res_ret].
  case_bool_decide as Hnone.
  - exists nodes. split_and!; [done..|]. unfold controls_of. rewrite Hnone, map_to_list_empty.
    assert (∀ fuel pending rest, length rest ≤ fuel → split_controls fuel [] pending rest = flush (pending ++ rest)) as Hsplit.
    { induction fuel as [|fuel IH]; intros pending [|b rest] Hle; simpl in *; [by rewrite app_nil_r|lia|by rewrite app_nil_r|].
      rewrite IH by lia. by rewrite <-app_assoc. }
    by rewrite Hsplit, place_flush.
  - destruct (rg_linked _ _ Hreg Hnone) as (words & Ht & Hwords & Hlinked).
    destruct (scan_matches_ok _ _ words Ht (rg_distinct _ _ Hreg) Hwords Hlinked source) as (state & w & matches & -> & _ & _ & _ & Hml & Hat).
    cbn [mbind res_bind]. apply (bind_matches_ok d (map_to_list (sp_names (bb_special d))) ltac:(intros id name Hin%elem_of_map_to_list; by apply (rg_names _ _ Hreg) in Hin as (? & ? & _))
      (S (length source)) (length source) [] [] source source matches nodes); [done|done|done|constructor|done|lia|lia].
Qed.

(** ** Theorem *)

Lemma special_tokens_names vocabulary names self : special_tokens_new vocabulary names = Ok self → sp_names self = names.
Proof.
  unfold special_tokens_new. rewrite refuse_ok. intros [_ H]. apply then_ok in H as (total & _ & H).
  apply then_unit_ok in H as [_ H]. case_bool_decide as Hnone; [by injection H as <-|].
  apply then_ok in H as (? & _ & H). apply then_ok in H as (? & _ & H). by apply then_ok in H as (? & _ & [= <-]).
Qed.

Definition names_here (names : gmap Z bytes) (rest : bytes) (found : option Match) : Prop :=
  match found with
  | Some m => ∃ name, names !! mt_token m = Some name ∧ mt_len m = length name ∧ name `prefix_of` rest ∧
      ∀ id other, names !! id = Some other → other `prefix_of` rest → length other ≤ length name
  | None => ∀ id name, names !! id = Some name → ¬ name `prefix_of` rest
  end.

(** C13: The automaton of special names finds, at every position of every input,
    the longest name that starts there and its token, and nothing where no name
    starts: one backward pass over shared failure links answers as a comparison
    with every name at every position would.  It neither panics nor runs out of
    links to follow. *)
Theorem special_tokens_match_longest vocabulary names self source :
  special_tokens_new vocabulary names = Ok self → names ≠ ∅ →
  ∃ state matches, scan_matches (sp_states self) source = Ok (state, matches) ∧ length matches = length source ∧
    ∀ i, i < length source → ∃ found, matches !! i = Some found ∧ names_here names (drop i source) found.
Proof.
  intros Hnew Hne. pose proof (special_tokens_registered _ _ _ Hnew) as Hreg.
  pose proof (special_tokens_names _ _ _ Hnew) as Heq. rewrite <-Heq in Hne.
  destruct (rg_linked _ _ Hreg Hne) as (words & Ht & Hwords & Hlinked).
  destruct (scan_matches_ok _ _ words Ht (rg_distinct _ _ Hreg) Hwords Hlinked source)
    as (state & w & matches & Hscan & _ & _ & _ & Hlen & Hat).
  exists state, matches. split_and!; [done..|]. intros i Hi. eexists. split; [by apply Hat|]. rewrite <-Heq.
  pose proof (longest_name_spec (map_to_list (sp_names self)) (drop i source)) as Hs. unfold match_at.
  destruct (longest_name _ _) as [[id name]|]; simpl.
  - destruct Hs as (Hin%elem_of_map_to_list & Hp & Hmax). exists name. split_and!; [done..|].
    intros id' other Ho%elem_of_map_to_list. by eapply Hmax.
  - intros id name Hin%elem_of_map_to_list. by eapply Hs.
Qed.

Lemma special_tokens_match_longest_witness :
  let names := {[256%Z := ascii_bytes "<s>"; 257%Z := ascii_bytes "<s><s>"]} : gmap Z bytes in
  ∃ self state matches, special_tokens_new (replicate 256 (Content [x00]) ++ [Control; Control]) names = Ok self ∧
    scan_matches (sp_states self) (ascii_bytes "a<s><s>") = Ok (state, matches) ∧
    ∃ found, matches !! 1 = Some found ∧ names_here names (ascii_bytes "<s><s>") found ∧ mt_token <$> found = Some 257%Z.
Proof.
  intros names. destruct (special_tokens_new (replicate 256 (Content [x00]) ++ [Control; Control]) names) as [self|e|] eqn:Hself;
    [|by vm_compute in Hself..].
  destruct (special_tokens_match_longest _ names self (ascii_bytes "a<s><s>") Hself) as (state & matches & Hscan & _ & Hat); [done|].
  destruct (Hat 1) as (found & Hf & Hh); [vm_compute; lia|]. exists self, state, matches. split_and!; [done..|].
  exists found. split_and!; [done|exact Hh|]. clear Hat Hh. vm_compute in Hself. injection Hself as <-.
  vm_compute in Hscan. injection Hscan as _ <-. vm_compute in Hf. by injection Hf as <-.
Defined.
