(* ===== verification/PieceMarks.v ===== *)
(** * The pass over ordinary text

    Between the controls, [pretokenizer.rs] marks the first byte of every piece:
    the text is valid UTF-8 there, the pieces tile it, and no slice falls inside
    of a character. *)

From Stdlib Require Import Strings.Byte.
From stdpp Require Import base tactics numbers list gmap.
From S2P Require Import Prelude Bytes Judgment Tokens TokenNodes TokenReference Utf8 SpecialTokens SpecialExact.
From S2P Require Import Unicode17 Pretokenizer Patterns PatternExact Bpe BpeData BpeMerge BpePieces.
From S2P Require Import EncodeReference EncodeLayout WholePieces.

(** ** Pieces of valid text *)

Lemma piece_length_split grammar text :
  grammar ≠ RawBytes → utf8_valid text = true → text ≠ [] →
  let n := piece_length grammar text in
  0 < n ≤ length text ∧ utf8_valid (take n text) = true ∧ utf8_valid (drop n text) = true.
Proof.
  intros Hg Hv Hne. pose proof (piece_length_nonzero grammar text Hg Hv Hne) as Hnz.
  assert (∃ p, pattern_of grammar = Some p) as [p Hp] by (destruct grammar; [done|eauto..]).
  pose proof (tells_piece grammar p text Hp Hv) as Ht. unfold tells in Ht.
  destruct (head (matches false p (chars text))) as [k|]; [|done]. destruct Ht as (Hk & Hle & Hn). rewrite Hn in Hnz |- *.
  destruct (chars_split k text Hv) as (_ & _ & Htake & Hdrop & _). fold (bytes_of k (chars text)) in *.
  enough (0 < bytes_of k (chars text) ≤ length text) by done.
  pose proof (bytes_of_length text) as Hl.
  replace (length (chars text)) with (k + (length (chars text) - k)) in Hl by lia. rewrite bytes_of_add in Hl. lia.
Qed.

(** The pieces of a text are its bytes in order. *)
Lemma split_pieces_ok grammar fuel text :
  grammar ≠ RawBytes → utf8_valid text = true → length text ≤ fuel →
  concat (split_pieces fuel grammar text) = text ∧ Forall (λ p, p ≠ []) (split_pieces fuel grammar text).
Proof.
  intros Hg. revert text. induction fuel as [|fuel IH]; intros [|b text] Hv Hle; try (split; [done|constructor]); [simpl in Hle; lia|].
  cbn [split_pieces]. destruct (piece_length_split grammar (b :: text) Hg Hv) as (Hn & Htake & Hdrop); [done|].
  set (n := piece_length grammar (b :: text)) in *. cbn [concat].
  destruct (IH (drop n (b :: text)) Hdrop) as [IH1 IH2]; [rewrite length_drop; simpl in *; lia|].
  rewrite IH1, take_drop. split; [done|]. constructor; [|done]. destruct n; [lia|done].
Qed.

Section tokenizer.
Context (d : ByteBpe) (grammar : PreTokenization).
Hypothesis Hd : admitted d.
Hypothesis Hg : grammar ≠ RawBytes.

(** ** Marks *)

Lemma mark_boundary_ok nodes pre it post :
  represents nodes (pre ++ it :: post) →
  ∃ nodes', update_node (it_start it) mark_boundary nodes = Ok nodes' ∧ length nodes' = length nodes ∧
    represents nodes' (pre ++ mkItem (it_token it) (it_start it) (it_end it) true :: post).
Proof using Type.
  intros Hrep. pose proof (represents_lookup _ _ _ _ Hrep) as Hit. rewrite (update_node_ok _ _ _ _ Hit).
  eexists. split; [done|]. rewrite length_insert. split; [done|]. destruct Hrep as [Ht Hl Hlive].
  pose proof Ht as (m & Hpre & Hs & Hlt & Hpost)%tiled_app.
  assert (it_start it < length nodes) as Hin by (by eapply lookup_lt_Some).
  split.
  - rewrite length_insert. apply tiled_app. exists m. split; [done|]. simpl. done.
  - apply linked_app in Hl as [Hl1 [Hl2 Hl3]]. apply linked_app. split; [|split].
    + eapply linked_frame; [|exact Hl1]. intros x Hx. destruct (tiled_in _ _ _ _ Hpre Hx).
      by rewrite list_lookup_insert_ne by lia.
    + simpl. by rewrite list_lookup_insert_eq by done.
    + eapply linked_frame; [|exact Hl3]. intros x Hx. destruct (tiled_in _ _ _ _ Hpost Hx).
      by rewrite list_lookup_insert_ne by lia.
  - intros i node Hi Hlv. assert (∃ node', nodes !! i = Some node' ∧ nd_live node' = true) as (node' & Hi' & Hlv').
    { apply list_lookup_insert_Some in Hi as [(<- & <- & _)|[_ Hi]]; [eexists; split; [exact Hit|done]|by exists node]. }
    destruct (Hlive _ _ Hi' Hlv') as (x & Hx & <-). apply elem_of_app in Hx as [Hx|[->|Hx]%elem_of_cons].
    + exists x. split; [|done]. apply elem_of_app. by left.
    + eexists. split; [apply elem_of_app; right; left|done].
    + exists x. split; [|done]. apply elem_of_app. right. by right.
Qed.

Lemma str_get_rest xs ys : utf8_valid ys = true → str_get (xs ++ ys) (length xs) (length (xs ++ ys)) = Some ys.
Proof using Type.
  intros Hv. unfold str_get. rewrite bool_decide_eq_true_2 by (rewrite length_app; lia).
  rewrite boundary_split by done. pose proof (boundary_split (xs ++ ys) [] eq_refl) as H. rewrite app_nil_r in H. rewrite H.
  cbn [andb]. rewrite drop_app_length, length_app. replace (length xs + length ys - length xs) with (length ys) by lia.
  by rewrite firstn_all.
Qed.

Lemma mark_pieces_ok fuel gas pre post before text start nodes :
  utf8_valid text = true → represents nodes (pre ++ singles d false (start + length before) text ++ post) →
  tiled 0 pre (start + length before) → length text < fuel → length text ≤ gas →
  ∃ nodes', mark_pieces fuel grammar (before ++ text) start (length before) nodes = Ok nodes' ∧ length nodes' = length nodes ∧
    represents nodes' (pre ++ concat (place d true false (start + length before) (pair None <$> split_pieces gas grammar text)) ++ post).
Proof using Hg.
  revert gas pre before text nodes. induction fuel as [|fuel IH]; intros gas pre before text nodes Hv Hrep Hpre Hfuel Hgas; [lia|].
  cbn [mark_pieces]. destruct text as [|b text].
  { rewrite bool_decide_eq_false_2 by (rewrite app_nil_r; lia). exists nodes. split_and!; [done..|]. by destruct gas. }
  rewrite bool_decide_eq_true_2 by (rewrite length_app; simpl; lia).
  destruct gas as [|gas]; [simpl in Hgas; lia|]. cbn [split_pieces].
  destruct (piece_length_split grammar (b :: text) Hg Hv) as (Hn & Htake & Hdrop); [done|].
  set (n := piece_length grammar (b :: text)) in *.
  cbn [singles app] in Hrep.
  destruct (mark_boundary_ok _ _ _ _ Hrep) as (nodes1 & Hmark & Hlen1 & Hrep1). cbn [it_start it_token it_end] in Hmark, Hrep1.
  rewrite Hmark. cbn [mbind res_bind]. rewrite str_get_rest by done. cbn [expect mbind res_bind].
  fold n. rewrite bool_decide_eq_false_2 by lia. cbn [refuse_if mbind res_bind mret res_ret].
  assert (before ++ b :: text = (before ++ take n (b :: text)) ++ drop n (b :: text)) as Hsplit.
  { by rewrite <-app_assoc, take_drop. }
  assert (length (take n (b :: text)) = n) as Hlt by (rewrite length_take; lia).
  replace (length before + n) with (length (before ++ take n (b :: text))) by (rewrite length_app; lia).
  rewrite Hsplit, <-Hlen1.
  cbn [fmap list_fmap place unit_items concat snd]. rewrite <-(app_assoc (singles _ _ _ _)), Hlt.
  assert (singles d true (start + length before) (b :: text) =
    singles d true (start + length before) (take n (b :: text)) ++ singles d false (start + length before + n) (drop n (b :: text))) as Hsingles.
  { rewrite <-(take_drop n (b :: text)) at 1. rewrite singles_app, Hlt. destruct n; [lia|done]. }
  rewrite (app_assoc pre).
  replace (start + length before + n) with (start + length (before ++ take n (b :: text))) in * by (rewrite length_app, Hlt; lia).
  apply IH; [done| | |rewrite length_drop; simpl in *; lia|rewrite length_drop; simpl in *; lia].
  - rewrite <-app_assoc. rewrite (app_assoc (singles _ _ _ _)), <-Hsingles. exact Hrep1.
  - apply tiled_app. exists (start + length before). split; [done|].
    replace (start + length (before ++ take n (b :: text))) with (start + length before + length (take n (b :: text))) by (rewrite length_app; lia).
    apply singles_tiled.
Qed.

(** ** Text between controls *)

Lemma node_control it previous next :
  node_is_control (bb_vocabulary d) (node_of it previous next) =
  bool_decide (vocabulary_get (bb_vocabulary d) (it_token it) = Some Control).
Proof using Type. done. Qed.

Lemma byte_not_control b : vocabulary_get (bb_vocabulary d) (byte_token d b) ≠ Some Control.
Proof using Hd. destruct (byte_token_spells d Hd b) as [_ [_ Hs]]. unfold vocabulary_get. by rewrite Hs. Qed.

Definition ends_text (post : list Item) : Prop :=
  match post with [] => True | it :: _ => vocabulary_get (bb_vocabulary d) (it_token it) = Some Control end.

Lemma ordinary_end_ok fuel nodes pre post start text :
  represents nodes (pre ++ singles d false start text ++ post) → tiled 0 pre start → ends_text post →
  length text < fuel → ordinary_end fuel (bb_vocabulary d) nodes start = Ok (start + length text).
Proof using Hd.
  revert pre start text. induction fuel as [|fuel IH]; intros pre start text Hrep Hpre Hends Hfuel; [lia|].
  cbn [ordinary_end]. pose proof (rep_tiled _ _ Hrep) as (m & Hpre' & Ht)%tiled_app.
  assert (m = start) as -> by (eapply tiled_functional; done). destruct text as [|b text]; simpl in Hrep, Ht.
  - rewrite Nat.add_0_r. destruct post as [|it post].
    + simpl in Ht. by rewrite lookup_ge_None_2 by lia.
    + destruct Ht as (<- & _). rewrite (represents_lookup _ _ _ _ Hrep), node_control. by rewrite bool_decide_eq_true_2.
  - pose proof (represents_lookup _ _ (mkItem _ _ _ _) _ Hrep) as Hl. cbn [it_start] in Hl. rewrite Hl, node_control.
    rewrite bool_decide_eq_false_2 by apply byte_not_control. cbn [nd_end node_of it_end length] in *.
    replace (start + S (length text)) with (S start + length text) by lia.
    apply (IH (pre ++ [mkItem (byte_token d b) start (S start) false])); [by rewrite <-app_assoc| |done|lia].
    apply tiled_app. exists start. split; [done|]. simpl. split_and!; [done|lia|done].
Qed.

Lemma str_get_middle xs ys zs :
  utf8_valid ys = true → utf8_valid zs = true → str_get (xs ++ ys ++ zs) (length xs) (length xs + length ys) = Some ys.
Proof using Type.
  intros Hy Hz. unfold str_get. rewrite bool_decide_eq_true_2 by lia.
  rewrite boundary_split by (by rewrite utf8_valid_app). cbn [andb].
  rewrite (app_assoc xs), <-length_app, boundary_split by done.
  rewrite <-app_assoc, drop_app_length, length_app. replace (length xs + length ys - length xs) with (length ys) by lia.
  by rewrite take_app_length.
Qed.

Lemma unit_pieces_extent u : utf8_valid u.2 = true → unit_pieces grammar u ≫= snd = u.2.
Proof using Hg.
  destruct u as [[id|] text]; simpl; intros Hv; [by rewrite app_nil_r|].
  destruct (split_pieces_ok grammar (length text) text Hg Hv) as [Heq _]; [lia|]. etrans; [|exact Heq]. clear Heq.
  generalize (split_pieces (length text) grammar text) as l. induction l as [|p l IH]; [done|]. simpl. by f_equal.
Qed.

Definition valid_units (us : list unit_) : Prop := Forall (λ u, utf8_valid u.2 = true) us.

Lemma valid_units_concat us : valid_units us → utf8_valid (us ≫= snd) = true.
Proof using Type. induction 1 as [|u us Hu _ IH]; [done|]. simpl. by rewrite utf8_valid_app. Qed.

Lemma bind_pieces_ok fuel source done_ before us nodes :
  source = before ++ (us ≫= snd) → length before = extent done_ → occupied done_ → occupied us →
  Forall (control_unit d) us → spaced us → valid_units us →
  represents nodes (concat (place d true false 0 done_) ++ concat (place d false false (extent done_) us)) →
  length us < fuel →
  ∃ nodes', bind_pieces fuel grammar source (bb_vocabulary d) (extent done_) nodes = Ok nodes' ∧ length nodes' = length nodes ∧
    represents nodes' (concat (place d true false 0 (done_ ++ (us ≫= unit_pieces grammar)))).
Proof using Hd Hg.
  revert done_ before us nodes. induction fuel as [|fuel IH]; intros done_ before us nodes Hsource Hbefore Hodone Hocc Hctl Hsp Hv Hrep Hfuel; [lia|].
  cbn [bind_pieces]. pose proof (place_tiled d true false 0 done_ Hodone) as Hpre. simpl in Hpre.
  destruct us as [|u us].
  { cbn [place concat] in Hrep. rewrite app_nil_r in Hrep. simpl. rewrite app_nil_r. exists nodes.
    pose proof (rep_tiled _ _ Hrep) as Ht. assert (length nodes = extent done_) as Hn by (by eapply tiled_functional).
    by rewrite lookup_ge_None_2 by lia. }
  apply Forall_cons in Hocc as [Hne Hocc], Hctl as [Hc Hctl], Hv as [Hvu Hv].
  assert (spaced us) as Hsp' by (destruct us; [done|]; apply Hsp).
  pose proof (unit_pieces_extent u Hvu) as Hup.
  assert (occupied (unit_pieces grammar u)) as Hpocc.
  { destruct u as [[id|] text]; [by repeat constructor|]. simpl.
    destruct (split_pieces_ok grammar (length text) text Hg Hvu) as [_ Hall]; [lia|].
    apply Forall_fmap. by eapply Forall_impl. }
  assert (extent (done_ ++ unit_pieces grammar u) = extent done_ + length u.2) as Hext.
  { rewrite extent_app. unfold extent at 2. by rewrite Hup. }
  assert (∀ nodes1, length nodes1 = length nodes →
    represents nodes1 (concat (place d true false 0 done_) ++ concat (place d true false (extent done_) (unit_pieces grammar u)) ++
      concat (place d false false (extent done_ + length u.2) us)) →
    ∃ nodes', bind_pieces fuel grammar source (bb_vocabulary d) (extent done_ + length u.2) nodes1 = Ok nodes' ∧ length nodes' = length nodes ∧
      represents nodes' (concat (place d true false 0 (done_ ++ ((u :: us) ≫= unit_pieces grammar))))) as Hnext.
  { intros nodes1 Hlen1 Hrep1. rewrite <-Hext, <-Hlen1. cbn [mbind list_bind]. rewrite app_assoc.
    apply (IH _ (before ++ u.2)); [by rewrite Hsource, <-app_assoc|rewrite length_app; lia| |done..| |simpl in *; lia].
    - apply Forall_app. by split.
    - rewrite place_app, concat_app, <-app_assoc, Hext. done. }
  cbn [place concat] in Hrep. destruct u as [[id|] text]; cbn [snd] in *.
  - cbn [unit_items app] in Hrep. pose proof (represents_lookup _ _ _ _ Hrep) as Hl. cbn [it_start] in Hl. rewrite Hl, node_control.
    rewrite bool_decide_eq_true_2 by done. cbn [nd_end node_of it_end]. by apply Hnext.
  - cbn [unit_items] in Hrep. destruct text as [|b rest]; [done|].
    assert (nodes !! extent done_ = Some (node_of (mkItem (byte_token d b) (extent done_) (S (extent done_)) false)
      (last_start None (concat (place d true false 0 done_)))
      (first_start (singles d false (S (extent done_)) rest ++ concat (place d false false (extent done_ + S (length rest)) us)) None))) as Hl.
    { apply (represents_lookup _ _ (mkItem _ _ _ _) _ Hrep). }
    rewrite Hl, node_control. rewrite bool_decide_eq_false_2 by apply byte_not_control.
    assert (length nodes = extent done_ + length (b :: rest) + extent us) as Hlen.
    { eapply tiled_functional; [apply (rep_tiled _ _ Hrep)|]. apply tiled_app. exists (extent done_). split; [done|].
      apply tiled_app. exists (extent done_ + length (b :: rest)). split; [apply singles_tiled|by apply place_tiled]. }
    rewrite (ordinary_end_ok (S (length nodes)) nodes _ _ _ (b :: rest) Hrep Hpre); [| |simpl in *; lia].
    2: { destruct us as [|[[id|] text'] us]; [done|by apply Forall_cons in Hctl as [Hc' _]|].
         by destruct Hsp as [Hsp _]; destruct (Hsp eq_refl). }
    assert (str_get source (extent done_) (extent done_ + length (b :: rest)) = Some (b :: rest)) as Hget.
    { rewrite Hsource, <-Hbefore. cbn [mbind list_bind snd]. apply str_get_middle; [done|by apply valid_units_concat]. }
    cbn [mbind res_bind]. rewrite Hget. cbn [ok_or mbind res_bind mret res_ret].
    assert (represents nodes (concat (place d true false 0 done_) ++ singles d false (extent done_ + length (@nil byte)) (b :: rest) ++
      concat (place d false false (extent done_ + length (b :: rest)) us))) as Hrep0 by (by rewrite Nat.add_0_r).
    destruct (mark_pieces_ok (S (length (b :: rest))) (length (b :: rest)) _ _ [] (b :: rest) (extent done_) nodes Hvu Hrep0)
      as (nodes1 & Hmark & Hlen1 & Hrep1); [by rewrite Nat.add_0_r|lia|lia|].
    cbn [app length] in Hmark. cbn [length]. rewrite Hmark. cbn [mbind res_bind].
    apply Hnext; [done|]. rewrite Nat.add_0_r in Hrep1. exact Hrep1.
Qed.
End tokenizer.
