(* ===== verification/EncodeLaws.v ===== *)
(** * The first nodes of an encoding

    Controls and pieces lie in valid text, nothing merges from one to the next,
    and [begin_encode] starts from exactly the nodes that the specification lays
    out, or says why not. *)

From Stdlib Require Import Strings.Byte.
From stdpp Require Import base tactics numbers list gmap.
From S2P Require Import Prelude Bytes Judgment Tokens TokenNodes TokenReference Utf8 SpecialTokens SpecialExact.
From S2P Require Import Pretokenizer Bpe BpeData BpeMerge BpePieces BpeEncode EncodeReference EncodeLayout.
From S2P Require Import WholePieces PieceMarks.

(** ** Controls in valid text *)

Lemma flush_valid pending : utf8_valid pending = true → valid_units (flush pending).
Proof. intros Hv. destruct pending; [constructor|by repeat constructor]. Qed.

Lemma split_controls_valid fuel names pending source :
  (∀ id name, (id, name) ∈ names → name ≠ [] ∧ utf8_valid name = true) →
  utf8_valid (pending ++ source) = true → length source ≤ fuel → valid_units (split_controls fuel names pending source).
Proof.
  intros Hnames. revert pending source.
  induction fuel as [|fuel IH]; intros pending [|b source] Hv Hfuel; cbn [split_controls];
    try (simpl in Hfuel; lia); try (rewrite app_nil_r in Hv; by apply flush_valid).
  destruct (longest_name names (b :: source)) as [[id name]|] eqn:Hfound.
  - apply longest_name_take in Hfound as [Hin Hsplit]. destruct (Hnames _ _ Hin) as [Hne Hname].
    apply utf8_valid_split in Hv as [Hp Hv].
    2: { rewrite Hsplit. destruct name as [|c name]; [done|]. by apply utf8_valid_start in Hname. }
    rewrite Hsplit in Hv. apply utf8_valid_drop in Hv; [|done].
    apply Forall_app. split; [by apply flush_valid|]. constructor; [done|]. apply IH; [done|].
    rewrite length_drop. destruct name; [done|]. simpl in *. lia.
  - apply IH; [by rewrite <-app_assoc|simpl in Hfuel; lia].
Qed.

Section tokenizer.
Context (d : ByteBpe).
Hypothesis Hd : admitted d.

Lemma controls_valid source : utf8_valid source = true → valid_units (controls_of d source).
Proof using Hd.
  intros Hv. apply split_controls_valid; [|done..]. intros id name Hin%elem_of_map_to_list.
  by apply (rg_names _ _ (admitted_registered _ Hd)) in Hin as (_ & ? & ?).
Qed.

(** ** Pieces *)

(** Whether the grammar marks boundaries. *)
Definition marks : bool := negb (bool_decide (bb_pre_tokenization d = RawBytes)).

Definition readable (source : bytes) : Prop := bb_pre_tokenization d ≠ RawBytes → utf8_valid source = true.

Lemma raw_pieces us : occupied us → us ≫= unit_pieces RawBytes = us.
Proof using Type.
  induction 1 as [|[[id|] text] us Hne _ IH]; [done|..]; cbn [mbind list_bind] in *; rewrite IH; [done|].
  destruct text as [|b text]; [done|]. cbn [unit_pieces length split_pieces]. unfold piece_length.
  rewrite bool_decide_eq_true_2 by done. rewrite firstn_all, drop_all. by destruct (length text).
Qed.

Lemma unit_pieces_bytes grammar us : grammar ≠ RawBytes → valid_units us → (us ≫= unit_pieces grammar) ≫= snd = us ≫= snd.
Proof using Type.
  intros Hg. induction 1 as [|u us Hu _ IH]; [done|]. cbn [mbind list_bind]. rewrite bind_app. f_equal; [|done].
  by apply unit_pieces_extent.
Qed.

Lemma unit_pieces_units grammar us :
  grammar ≠ RawBytes → valid_units us → occupied us → Forall (control_unit d) us →
  occupied (us ≫= unit_pieces grammar) ∧ Forall (control_unit d) (us ≫= unit_pieces grammar).
Proof using Type.
  intros Hg Hv Hocc Hctl. induction us as [|[[id|] text] us IH]; [by split; apply Forall_nil|..];
    apply Forall_cons in Hv as [Hvu Hv], Hocc as [Hne Hocc], Hctl as [Hc Hctl];
    destruct (IH Hv Hocc Hctl) as [Ho Hs]; cbn [mbind list_bind unit_pieces]; (split; apply Forall_app; (split; [|done])).
  - by repeat constructor.
  - by repeat constructor.
  - destruct (split_pieces_ok grammar (length text) text Hg Hvu) as [_ Hall]; [lia|]. by apply Forall_fmap.
  - apply Forall_fmap. by apply Forall_true.
Qed.

(** The pieces of an input are its bytes in order. *)
Lemma pieces_laid_out source :
  readable source → pieces_of d source ≫= snd = source ∧ laid_out d marks (pieces_of d source).
Proof using Hd.
  intros Hread. destruct (controls_laid_out d source (admitted_registered _ Hd)) as [Hs [Ho Hc Hsp]].
  unfold pieces_of, marks. case_bool_decide as Hraw; cbn [negb].
  - rewrite Hraw, raw_pieces by done. done.
  - pose proof (controls_valid source (Hread Hraw)) as Hv. split; [by rewrite unit_pieces_bytes|].
    destruct (unit_pieces_units _ _ Hraw Hv Ho Hc). split; [done..|by left].
Qed.

(** ** Separation *)

Lemma control_inert id : vocabulary_get (bb_vocabulary d) id = Some Control → inert d id.
Proof using Hd.
  intros Hc other.
  assert (∀ l r, l = id ∨ r = id → bb_ranks d !! (l, r) = None) as Hnone.
  { intros l r Hor. destruct (bb_ranks d !! (l, r)) as [[k res]|] eqn:Hr; [|done]. exfalso.
    apply (ad_ranks _ Hd) in Hr as [_ Hr%list_elem_of_lookup_2].
    destruct (ad_merges _ Hd _ Hr) as (x & y & Hx & Hy & _). simpl in Hx, Hy. unfold content in Hx, Hy.
    destruct Hor as [-> | ->]; [rewrite Hc in Hx|rewrite Hc in Hy]; done. }
  split; apply Hnone; auto.
Qed.

Lemma unit_items_head boundary whole start u :
  u.2 ≠ [] → control_unit d u →
  ∃ it q, unit_items d boundary whole start u = it :: q ∧
    match u.1 with Some _ => inert d (it_token it) | None => it_boundary it = boundary end.
Proof using Hd.
  destruct u as [[id|] [|b text]]; simpl; intros Hne Hc; [done|..|done|].
  - eexists _, _. split; [done|]. by apply control_inert.
  - destruct (if whole then _ else None); by eexists _, _.
Qed.

Lemma place_separated boundary us start : laid_out d boundary us → separated d (place d boundary true start us).
Proof using Hd.
  revert start. induction us as [|u [|v us] IH]; intros start Hl; [done..|].
  pose proof (lo_spaced _ _ _ Hl) as Hsp. apply laid_out_cons in Hl as (Hu & Hcu & Hl).
  pose proof (laid_out_cons _ _ _ _ Hl) as (Hv & Hcv & _). split; [|by apply IH].
  destruct (unit_items_head boundary true (start + length u.2) v Hv Hcv) as (it & q & Heq & Hhead).
  exists it, q. split; [done|]. destruct v as [[id|] text]; simpl in Hhead; [by right; left|].
  destruct Hsp as [->|[Hsp _]]; [by left|]. destruct u as [[id|] name]; [|by destruct (Hsp eq_refl)].
  right. right. eexists [], _. split; [done|]. by apply control_inert.
Qed.

Lemma place_seamless boundary us start : Forall seamless (place d boundary true start us).
Proof using Type.
  revert start. induction us as [|u us IH]; intros start; constructor; [|done]. clear IH.
  destruct u as [[id|] text]; simpl; [by intros it ?%elem_of_nil|].
  destruct (whole_token d text); [by intros it ?%elem_of_nil|apply singles_seamless].
Qed.

Lemma bpe_reference_single rules x : bpe_reference rules [x] = [x].
Proof using Type. apply bpe_reference_stop. apply first_rule_none. intros r _. by destruct x. Qed.

Lemma unit_items_tokens boundary start u :
  bpe_reference (bb_merges d) (flat <$> unit_items d boundary true start u) = unit_tokens d u.
Proof using Type.
  destruct u as [[id|] text]; simpl.
  - rewrite bpe_reference_single. unfold flat. simpl. do 2 f_equal. lia.
  - destruct (whole_token d text) as [token|]; simpl.
    + rewrite bpe_reference_single. unfold flat. simpl. do 2 f_equal. lia.
    + by rewrite singles_flat.
Qed.

Lemma place_tokens boundary us start : merged_pieces d (place d boundary true start us) = us ≫= unit_tokens d.
Proof using Type.
  unfold merged_pieces. revert start. induction us as [|u us IH]; intros start; [done|].
  cbn [place fmap list_fmap concat mbind list_bind]. by rewrite unit_items_tokens, IH.
Qed.

(** ** The beginning *)

(** The budget is within the ceilings and the input within the budget. *)
Definition affordable (source : bytes) (budget : TokenizationBudget) : Prop :=
  (tb_input_bytes budget ≤ MAX_INPUT_BYTES ∧ tb_pair_lookups budget ≤ MAX_PAIR_LOOKUPS ∧
   tb_heap_pops budget ≤ MAX_HEAP_POPS ∧ len source ≤ tb_input_bytes budget)%Z.

Definition initial_items (source : bytes) : list (list Item) := place d marks true 0 (pieces_of d source).

Lemma boundaries_ok source nodes :
  readable source → (len source ≤ MAX_INPUT_BYTES)%Z → length nodes = length source →
  represents nodes (concat (place d false false 0 (controls_of d source))) →
  ∃ nodes', (if bool_decide (bb_pre_tokenization d = RawBytes) then mret nodes
             else pretokenize_bind_nodes (bb_pre_tokenization d) source nodes (bb_vocabulary d)) = Ok nodes' ∧
    length nodes' = length source ∧ represents nodes' (concat (place d marks false 0 (pieces_of d source))).
Proof using Hd.
  intros Hread Hmax Hlen Hrep. destruct (controls_laid_out d source (admitted_registered _ Hd)) as [Hs [Ho Hc Hsp]].
  unfold pieces_of, marks. case_bool_decide as Hraw; cbn [negb].
  - exists nodes. rewrite Hraw, raw_pieces by done. done.
  - unfold pretokenize_bind_nodes. rewrite bool_decide_eq_true_2 by done. cbn [negb refuse_if mbind res_bind mret res_ret].
    destruct Hsp as [|Hsp]; [done|].
    destruct (bind_pieces_ok d (bb_pre_tokenization d) Hd Hraw (S (length nodes)) source [] [] (controls_of d source) nodes)
      as (nodes' & Hb & Hl & Hr); try done; [by constructor|by apply controls_valid; auto| |].
    { apply occupied_extent in Ho. unfold extent in Ho. rewrite Hs in Ho. lia. }
    exists nodes'. rewrite <-Hlen. done.
Qed.

Lemma begin_encode_inner_ok source budget :
  match begin_encode_inner d source budget default_tokenization_work with
  | (Ok cursor, _) => affordable source budget ∧ readable source ∧
      ∃ nodes, cursor = initial_cursor d source budget nodes ∧ length nodes = length source ∧
        represents nodes (concat (initial_items source))
  | (Err error, _) => (error = Limit ∧ ¬ affordable source budget) ∨
      (error = InvalidInput ∧ affordable source budget ∧ ¬ readable source)
  | (Panic, _) => False
  end.
Proof using Hd.
  unfold begin_encode_inner. munfold_goal. destruct (_ || _ || _ || _) eqn:Hlimits; cbv beta iota.
  { left. split; [done|]. unfold affordable. lia. }
  assert (affordable source budget) as Haff by (unfold affordable; lia).
  assert (len source ≤ MAX_INPUT_BYTES)%Z as Hmax by (destruct Haff as (? & ? & ? & ?); lia).
  assert (readable source → ∃ nodes0 nodes1 nodes2 nodes, single_nodes d (length source) 0 source = Ok nodes0 ∧
    special_bind_nodes (bb_special d) source nodes0 = Ok nodes1 ∧
    (if bool_decide (bb_pre_tokenization d = RawBytes) then mret nodes1
     else pretokenize_bind_nodes (bb_pre_tokenization d) source nodes1 (bb_vocabulary d)) = Ok nodes2 ∧
    bind_whole_pieces d source nodes2 = Ok nodes ∧ length nodes = length source ∧
    represents nodes (concat (initial_items source))) as Hgood.
  { intros Hread. destruct (single_nodes_represent d Hd source) as (nodes0 & H0 & Hl0 & Hr0).
    destruct (special_bind_nodes_ok d source nodes0 Hd Hmax Hl0 Hr0) as (nodes1 & H1 & Hl1 & Hr1).
    destruct (boundaries_ok source nodes1 Hread Hmax) as (nodes2 & H2 & Hl2 & Hr2); [congruence|done|].
    destruct (pieces_laid_out source Hread) as [Hs Hlaid].
    destruct (bind_whole_pieces_ok d Hd marks source (pieces_of d source) nodes2) as (nodes & H3 & Hl3 & Hr3); [done..|].
    exists nodes0, nodes1, nodes2, nodes. split_and!; [done..|congruence|done]. }
  unfold readable in *. unfold initial_cursor, bos_tokens, bos_spans.
  destruct (bool_decide (bb_pre_tokenization d = RawBytes)) eqn:Hraw; cbv beta iota.
  - apply bool_decide_eq_true in Hraw. destruct Hgood as (n0 & n1 & n2 & n3 & -> & Hs & [= ->] & Hw & Hl & Hr); [done|].
    cbv beta iota. rewrite Hs. cbv beta iota. rewrite Hw. cbv beta iota.
    destruct (bb_bos_token d); split_and!; try done; by exists n3.
  - apply bool_decide_eq_false in Hraw. destruct (utf8_valid source) eqn:Hv; cbn [negb]; cbv beta iota.
    2: { right. split_and!; [done..|]. intros H. by specialize (H Hraw). }
    destruct Hgood as (n0 & n1 & n2 & n3 & -> & Hs & Hp & Hw & Hl & Hr); [done|].
    cbv beta iota. rewrite Hs. cbv beta iota. rewrite Hp. cbv beta iota. rewrite Hw. cbv beta iota.
    destruct (bb_bos_token d); split_and!; try done; by exists n3.
Qed.
End tokenizer.
