(* ===== verification/EncodeExact.v ===== *)
(** * What an encoding returns

    [encode] returns exactly the tokens of the specification, refuses exactly the
    inputs and budgets that its documentation names, stays within three
    operations a byte, and [decode] inverts it. *)

From Stdlib Require Import Strings.Byte.
From stdpp Require Import base tactics numbers list gmap.
From S2P Require Import Prelude Bytes Judgment Tokens TokenNodes TokenReference Utf8 SpecialTokens SpecialExact.
From S2P Require Import Pretokenizer Bpe BpeData BpeMerge BpePieces BpeEncode EncodeReference EncodeLayout.
From S2P Require Import WholePieces EncodeLaws.

Local Open Scope Z_scope.

Section tokenizer.
Context (d : ByteBpe) (source : bytes) (budget : TokenizationBudget).
Hypothesis Hd : admitted d.
Hypothesis Hlookups : 0 ≤ tb_pair_lookups budget.
Hypothesis Hpops : 0 ≤ tb_heap_pops budget.

Lemma initial_within : readable d source → len (concat (initial_items d source)) ≤ len source.
Proof using Hd.
  intros Hread. destruct (pieces_laid_out d Hd source Hread) as [Hs Hl]. unfold initial_items, len.
  pose proof (place_tiled d (marks d) true 0 (pieces_of d source) (lo_occupied _ _ _ Hl)) as Ht.
  apply tiled_length in Ht. unfold extent in Ht. rewrite Hs in Ht. lia.
Qed.

(** An encoding, once begun, ends with the tokens of the specification or with an
    exhausted budget. *)
Lemma encode_ok :
  match encode d source budget with
  | Ok input => affordable source budget ∧ readable d source ∧ ti_tokenizer input = d ∧ ti_source input = source ∧
      ti_tokens input = bos_tokens d ++ (encode_reference d source).*1 ∧
      ti_spans input = bos_spans d ++ spans_from 0 (encode_reference d source) ∧
      tw_input_bytes (ti_work input) = len source ∧
      0 ≤ tw_pair_lookups (ti_work input) ≤ tb_pair_lookups budget ∧ tw_pair_lookups (ti_work input) ≤ 3 * len source ∧
      0 ≤ tw_heap_pops (ti_work input) ≤ tw_pair_lookups (ti_work input) ∧
      0 ≤ tw_merges (ti_work input) ∧
      tw_merges (ti_work input) + len (encode_reference d source) = len (concat (initial_items d source))
  | Err failure =>
      (tf_error failure = Limit ∧ ¬ affordable source budget) ∨
      (tf_error failure = InvalidInput ∧ affordable source budget ∧ ¬ readable d source) ∨
      (tf_error failure = Limit ∧ affordable source budget ∧ readable d source ∧
       exhausted d source budget (initial_items d source) (tf_work failure))
  | Panic => False
  end.
Proof using Type*.
  unfold encode, begin_encode. pose proof (begin_encode_inner_ok d Hd source budget) as Hb.
  destruct (begin_encode_inner d source budget default_tokenization_work) as [[cursor|error|] work]; [..|done].
  2: { simpl. tauto. }
  destruct Hb as (Haff & Hread & nodes & -> & Hlen & Hrep). pose proof (initial_within Hread) as Hin.
  pose proof Haff as (Hb1 & Hb2 & Hb3 & Hb4).
  destruct (pieces_laid_out d Hd source Hread) as [_ Hlaid].
  pose proof (initial_cursor_ok d source budget (initial_items d source) Hd ltac:(lia) Hin ltac:(lia) ltac:(lia) nodes Hrep Hlen
    (place_separated d Hd _ _ _ Hlaid) (place_seamless d _ _ _)) as Hinit.
  pose proof (encoding_run_ok d source budget (initial_items d source) Hd ltac:(lia) Hin ltac:(lia) ltac:(lia) _ _ _ Hinit
    (Nat.le_refl _)) as Hrun.
  assert (merged_pieces d (initial_items d source) = encode_reference d source) as Hmerged by apply place_tokens.
  cbn [mbind res_bind]. unfold exec. destruct (encoding_run _ _) as [[[]|failure|] c]; cbn [mbind res_bind]; [..|done].
  - destruct Hrun as [Hphase []]. unfold encoding_finish. rewrite Hphase. cbn [ti_tokenizer ti_source ti_tokens ti_spans ti_work].
    rewrite Hmerged in *. split_and!; try done; lia.
  - right. right. destruct Hrun as [-> Hex]. done.
Qed.
End tokenizer.

(** ** Spellings *)

Section spellings.
Context (d : ByteBpe).
Hypothesis Hd : admitted d.

Lemma decoded_bytes_app xs ys x y :
  decoded_bytes d xs = Ok x → decoded_bytes d ys = Ok y → decoded_bytes d (xs ++ ys) = Ok (x ++ y).
Proof using Type.
  revert x. induction xs as [|t xs IH]; intros x; cbn [decoded_bytes app]; [by intros [= <-]|].
  intros (v & Hv & (rest & Hr & [= <-])%then_ok)%then_ok Hy. rewrite Hv. cbn [mbind res_bind].
  rewrite (IH _ Hr Hy). cbn [mbind res_bind mret res_ret]. by rewrite <-app_assoc.
Qed.

Lemma apply_rule_spells rule tokens merged text :
  rule ∈ bb_merges d → apply_rule rule tokens = Some merged → decoded_bytes d tokens.*1 = Ok text →
  decoded_bytes d merged.*1 = Ok text.
Proof using Hd.
  intros Hrule. destruct (ad_merges _ Hd _ Hrule) as (x & y & Hx & Hy & Hz). revert merged text.
  induction tokens as [|[a n] [|[b m] tokens] IH]; intros merged text; [done..|]. rewrite apply_rule_cons.
  destruct (_ && _) eqn:E.
  - apply andb_true_iff in E as [->%Z.eqb_eq ->%Z.eqb_eq]. intros [= <-]. cbn [fmap list_fmap fst decoded_bytes].
    unfold content_bytes. rewrite Hx, Hy, Hz. cbn [mbind res_bind].
    destruct (decoded_bytes d tokens.*1) as [rest|e|]; cbn [mbind res_bind mret res_ret]; [|done..].
    intros [= <-]. by rewrite <-app_assoc.
  - intros (merged' & Hm & ->)%fmap_Some. rewrite !fmap_cons. cbn [fst].
    intros (v & Hv & (rest & Hr & [= <-])%then_ok)%then_ok. cbn [decoded_bytes]. rewrite Hv. cbn [mbind res_bind].
    by rewrite (IH _ _ Hm Hr).
Qed.

Lemma first_rule_spells rules tokens merged text :
  rules ⊆ bb_merges d → first_rule rules tokens = Some merged → decoded_bytes d tokens.*1 = Ok text →
  decoded_bytes d merged.*1 = Ok text.
Proof using Hd.
  induction rules as [|rule rules IH]; intros Hsub; [done|]. cbn [first_rule].
  destruct (apply_rule rule tokens) eqn:E; [|apply IH; set_solver].
  intros [= <-]. apply (apply_rule_spells rule); [|done]. apply Hsub. left.
Qed.

(** Merging keeps the bytes. *)
Lemma bpe_reference_spells tokens text :
  decoded_bytes d tokens.*1 = Ok text → decoded_bytes d (bpe_reference (bb_merges d) tokens).*1 = Ok text.
Proof using Hd.
  unfold bpe_reference. generalize (length tokens) as fuel. intros fuel. revert tokens.
  induction fuel as [|fuel IH]; intros tokens Ht; [done|]. cbn [merge_rounds].
  destruct (first_rule _ tokens) eqn:E; [|done]. apply IH. by eapply first_rule_spells.
Qed.

Lemma bytes_spell text : decoded_bytes d ((λ b, (byte_token d b, 1%nat)) <$> text).*1 = Ok text.
Proof using Hd.
  induction text as [|b text IH]; [done|]. rewrite !fmap_cons. cbn [fst decoded_bytes]. unfold content_bytes.
  destruct (byte_token_spells d Hd b) as [_ Hs]. rewrite (proj2 (content_spells _ _ _ (proj1 Hs)) Hs). cbn [mbind res_bind].
  by rewrite IH.
Qed.

Lemma unit_tokens_spell text : decoded_bytes d (unit_tokens d (None, text)).*1 = Ok text.
Proof using Hd.
  unfold unit_tokens. destruct (whole_token d text) as [t|] eqn:Hw.
  - unfold whole_token in Hw. destruct (bb_merge_policy d); [done|]. apply (token_of_spells d Hd) in Hw as Hs.
    cbn [fmap list_fmap fst decoded_bytes]. unfold content_bytes.
    rewrite (proj2 (content_spells _ _ _ (proj1 Hs)) Hs). cbn [mbind res_bind mret res_ret]. by rewrite app_nil_r.
  - apply bpe_reference_spells, bytes_spell.
Qed.

Lemma text_units_spell us : Forall (λ u, u.1 = None) us → decoded_bytes d (us ≫= unit_tokens d).*1 = Ok (us ≫= snd).
Proof using Hd.
  induction 1 as [|[k text] us Hk _ IH]; [done|]. simpl in Hk. subst k. cbn [mbind list_bind]. rewrite fmap_app.
  apply decoded_bytes_app; [apply unit_tokens_spell|done].
Qed.

Lemma pieces_of_text source :
  Forall (λ u, u.1 = None) (controls_of d source) → Forall (λ u, u.1 = None) (pieces_of d source).
Proof using Type.
  unfold pieces_of. induction 1 as [|[k text] us Hk _ IH]; [by apply Forall_nil|]. simpl in Hk. subst k.
  cbn [mbind list_bind unit_pieces]. apply Forall_app. split; [|done]. apply Forall_fmap. by apply Forall_true.
Qed.

(** ** Decoding *)

Lemma decoded_length_ok total max tokens text :
  0 ≤ total → max ≤ MAX_DECODE_BYTES → decoded_bytes d tokens = Ok text → total + len text ≤ max →
  decoded_length d total max tokens = Ok tt.
Proof using Type.
  intros Htotal Hmax. revert total text Htotal. induction tokens as [|t tokens IH]; intros total text Htotal; [done|].
  cbn [decoded_bytes decoded_length]. intros (v & -> & (rest & Hr & [= <-])%then_ok)%then_ok. rewrite len_app. intros Hfit.
  pose proof (len_nonneg v). pose proof (len_nonneg rest). cbn [mbind res_bind].
  rewrite u64_checked_add_fits by (unfold MAX_DECODE_BYTES in Hmax; lia). cbn [ok_or mbind res_bind mret res_ret].
  rewrite (proj2 (Z.ltb_ge _ _)) by lia. cbn [refuse_if mbind res_bind mret res_ret]. eapply IH; [lia|done|lia].
Qed.

Lemma decode_ok tokens max text :
  len tokens ≤ MAX_INPUT_BYTES → max ≤ MAX_DECODE_BYTES → len text ≤ max → decoded_bytes d tokens = Ok text →
  decode d tokens max = Ok text.
Proof using Type.
  intros Hn Hmax Hfit Ht. unfold decode.
  rewrite (proj2 (Z.ltb_ge MAX_INPUT_BYTES _) Hn), (proj2 (Z.ltb_ge MAX_DECODE_BYTES _) Hmax).
  cbn [orb refuse_if mbind res_bind mret res_ret]. by rewrite (decoded_length_ok 0 max tokens text).
Qed.
End spellings.

(** ** Theorems *)

(** C8: Encoding is exact.  Whatever the vocabulary, the ordered merges, the
    controls, the grammar and the policy that a constructor admitted, [encode]
    neither panics nor runs on: it returns the begin token and then exactly the
    tokens of the plain specification, with consecutive spans of the input it
    keeps, or it fails, for one of three reasons: a ceiling or the input budget
    is exceeded, a grammar reads text that is not UTF-8, or the budget for
    lookups or pops is used up below three times the input. *)
Theorem encode_exact d source budget :
  constructed d → 0 ≤ tb_pair_lookups budget → 0 ≤ tb_heap_pops budget →
  match encode d source budget with
  | Ok input =>
      affordable source budget ∧ readable d source ∧ ti_tokenizer input = d ∧ ti_source input = source ∧
      ti_tokens input = bos_tokens d ++ (encode_reference d source).*1 ∧
      ti_spans input = bos_spans d ++ spans_from 0 (encode_reference d source)
  | Err failure =>
      (tf_error failure = Limit ∧ ¬ affordable source budget) ∨
      (tf_error failure = InvalidInput ∧ affordable source budget ∧ ¬ readable d source) ∨
      (tf_error failure = Limit ∧ affordable source budget ∧ readable d source ∧
       exhausted d source budget (initial_items d source) (tf_work failure))
  | Panic => False
  end.
Proof.
  intros Hd%constructed_admitted Hl Hp. pose proof (encode_ok d source budget Hd Hl Hp) as H.
  destruct (encode d source budget); naive_solver.
Qed.

(** C14: Three lookups and three pops a byte are enough.  With such a budget,
    within the ceilings, a readable input is always encoded, in at most three
    pair lookups a byte, with no more pops than lookups, and merges and tokens
    together are no more than the bytes. *)
Theorem encode_budget_suffices d source budget :
  constructed d → affordable source budget → readable d source →
  3 * len source ≤ tb_pair_lookups budget → 3 * len source ≤ tb_heap_pops budget →
  len (bos_tokens d ++ (encode_reference d source).*1) ≤ MAX_INPUT_BYTES →
  ∃ input, encode d source budget = Ok input ∧
    tw_pair_lookups (ti_work input) ≤ 3 * len source ∧
    0 ≤ tw_heap_pops (ti_work input) ≤ tw_pair_lookups (ti_work input) ∧
    0 ≤ tw_merges (ti_work input) ∧ tw_merges (ti_work input) + len (encode_reference d source) ≤ len source.
Proof.
  intros Hd%constructed_admitted Haff Hread Hl Hp Hout. pose proof (len_nonneg source).
  pose proof (encode_ok d source budget Hd ltac:(lia) ltac:(lia)) as Hout'.
  pose proof (initial_within d source Hd Hread). destruct (encode d source budget) as [input|failure|]; [..|done].
  - exists input. naive_solver lia.
  - exfalso. destruct Hout' as [[_ He]|[(_ & _ & He)|(_ & _ & _ & He)]]; [done..|].
    destruct He as [He|[He|He]]; [lia|lia|]. unfold initial_items in He. rewrite place_tokens in He. by apply Zlt_not_le in He.
Qed.

(** C15: Decoding inverts encoding: for a tokenizer without a begin token and an
    input in which no control is spelled, the tokens that [encode] returns are
    decoded to exactly the input, by any byte budget that can hold it. *)
Theorem decode_inverts_encode d source budget input max :
  constructed d → 0 ≤ tb_pair_lookups budget → 0 ≤ tb_heap_pops budget → bb_bos_token d = None →
  Forall (λ u, u.1 = None) (controls_of d source) → encode d source budget = Ok input →
  len source ≤ max → max ≤ MAX_DECODE_BYTES → decode d (ti_tokens input) max = Ok source.
Proof.
  intros Hd%constructed_admitted Hl Hp Hbos Hplain Henc Hfit Hmax.
  pose proof (encode_ok d source budget Hd Hl Hp) as H. rewrite Henc in H.
  destruct H as (Haff & Hread & _ & _ & Htok & _ & _ & _ & _ & _ & Hm & Hn).
  pose proof (initial_within d source Hd Hread) as Hin. destruct Haff as (Hb & _ & _ & Hs).
  assert (bos_tokens d = []) as Hnone by (unfold bos_tokens; by rewrite Hbos). rewrite Hnone in Htok. rewrite Htok.
  destruct (pieces_laid_out d Hd source Hread) as [Hbytes _]. apply decode_ok; [|done|done|].
  - unfold len in *. simpl. rewrite length_fmap. lia.
  - unfold encode_reference. rewrite <-Hbytes at 2. apply text_units_spell; [done|]. by apply pieces_of_text.
Qed.

(** ** An example

    The single bytes, three longer pieces of which the last has no rule, and a
    control, read by the second grammar with whole pieces first. *)

Definition example_shape : DecoderShape := mkDecoderShape 260 64 128 2 4 2 128.
Definition example_decoder : DecoderProfile :=
  mkDecoderProfile (mkDecoderIdentity 1 1 1 1 1) example_shape 0 0 NoRotaryScaling 0.
Definition example_vocabulary : list TokenBytes :=
  ((λ i, Content [byte_of (Z.of_nat i)]) <$> seq 0 256) ++
  [Content (ascii_bytes "th"); Content (ascii_bytes "the"); Content (ascii_bytes " other"); Control].
Definition example_merges : list Merge := [mkMerge 116 104 256; mkMerge 256 101 257].
Definition example_tokenizer : res Error ByteBpe :=
  new_with_merge_policy example_decoder example_vocabulary example_merges {[259 := ascii_bytes "<|end|>"]}
    Llama3Unicode17 WholePieceFirst.
Definition example_text : bytes := ascii_bytes "the<|end|>then other".

Definition example_bpe : ByteBpe :=
  match example_tokenizer with
  | Ok d => d
  | _ => mkByteBpe example_decoder [] [] ∅ [] [] 0 default_special_tokens RawBytes None RankedOnly []
  end.

Lemma example_constructed : constructed example_bpe.
Proof.
  apply (constructed_policy example_decoder example_vocabulary example_merges {[259 := ascii_bytes "<|end|>"]}
    Llama3Unicode17 WholePieceFirst).
  vm_compute. reflexivity.
Qed.

Lemma encode_exact_witness :
  ∃ input, encode example_bpe example_text default_tokenization_budget = Ok input ∧
    ti_tokens input = bos_tokens example_bpe ++ (encode_reference example_bpe example_text).*1 ∧
    ti_tokens input = [257; 259; 257; 110; 258] ∧ ti_spans input = [(0, 3); (3, 10); (10, 13); (13, 14); (14, 20)]%nat.
Proof.
  pose proof (encode_exact example_bpe example_text default_tokenization_budget example_constructed ltac:(done) ltac:(done)) as H.
  destruct (encode example_bpe example_text default_tokenization_budget) as [input|failure|] eqn:E;
    [|by vm_compute in E..].
  destruct H as (_ & _ & _ & _ & Htokens & Hspans). exists input. split; [exact eq_refl|]. split; [exact Htokens|]. split.
  - rewrite Htokens. vm_compute. reflexivity.
  - rewrite Hspans. vm_compute. reflexivity.
Defined.

Lemma encode_budget_suffices_witness :
  affordable example_text (mkTokenizationBudget 20 60 60) ∧ readable example_bpe example_text ∧
  ∃ input, encode example_bpe example_text (mkTokenizationBudget 20 60 60) = Ok input ∧
    tw_pair_lookups (ti_work input) ≤ 60.
Proof.
  assert (affordable example_text (mkTokenizationBudget 20 60 60)) as Haff by (vm_compute; repeat split; discriminate).
  assert (readable example_bpe example_text) as Hread by (intros _; vm_compute; reflexivity).
  split_and!; [done..|].
  destruct (encode_budget_suffices example_bpe example_text (mkTokenizationBudget 20 60 60) example_constructed Haff Hread)
    as (input & Hi & Hl & _); [vm_compute; discriminate..|].
  exists input. split; [exact Hi|]. etrans; [exact Hl|]. vm_compute. discriminate.
Defined.

Lemma decode_inverts_encode_witness :
  ∃ input, encode example_bpe (ascii_bytes "the other") default_tokenization_budget = Ok input ∧
    ti_tokens input = [257; 258] ∧ decode example_bpe (ti_tokens input) 9 = Ok (ascii_bytes "the other").
Proof.
  destruct (encode example_bpe (ascii_bytes "the other") default_tokenization_budget) as [input|failure|] eqn:E;
    [|by vm_compute in E..].
  exists input. split; [exact eq_refl|]. split.
  - vm_compute in E. by injection E as <-.
  - apply (decode_inverts_encode example_bpe _ default_tokenization_budget input 9 example_constructed); [done|done|reflexivity| |exact E|done|done].
    vm_compute. by repeat constructor.
Defined.
