(* ===== verification/Archive.v ===== *)
(** * Archives of tokenizers

    [tokenizer/wire.rs]: the canonical bytes of a tokenizer and their reader.  An
    archive never chooses its model; its header is compared with the profile
    that the caller supplies.  A reader is a state transformer on the unread
    bytes; the position never passes the end of the archive, so that adding a
    length to it does not overflow. *)

From Stdlib Require Import Strings.Byte.
From stdpp Require Import base tactics numbers list gmap.
From S2P Require Import Prelude Bytes Judgment Tokens SpecialTokens Unicode17 Pretokenizer Bpe.

Local Open Scope Z_scope.

Definition DOMAIN : bytes := ascii_bytes "FABBPE01".
Definition NAMED_DOMAIN : bytes := ascii_bytes "FABBPE02".
Definition SCALED_DOMAIN : bytes := ascii_bytes "FABBPE03".
Definition SCALED_NAMED_DOMAIN : bytes := ascii_bytes "FABBPE04".
Definition UNICODE_DOMAIN : bytes := ascii_bytes "FABBPE05".
Definition BOS_DOMAIN : bytes := ascii_bytes "FABBPE06".
Definition WHOLE_PIECE_DOMAIN : bytes := ascii_bytes "FABBPE07".
Definition HEADER_BYTES : Z := 120.
Definition UNICODE_BINDING_BYTES : Z := 6.
Definition WHOLE_PIECE_BINDING_BYTES : Z := 8.
Definition MAX_FILE_BYTES : Z :=
  HEADER_BYTES + 5 * MAX_DECODER_VOCABULARY + MAX_VOCABULARY_BYTES + 4 + 12 * MAX_MERGES + 4 + 8 * MAX_CONTROL_TOKENS
  + MAX_SPECIAL_TOKEN_BYTES + WHOLE_PIECE_BINDING_BYTES + 4.

(** ** The bytes before the vocabulary *)

Definition domain (named scaled unicode bos : bool) : bytes :=
  if bos then BOS_DOMAIN
  else if unicode then UNICODE_DOMAIN
  else
    match named, scaled with
    | false, false => DOMAIN
    | true, false => NAMED_DOMAIN
    | false, true => SCALED_DOMAIN
    | true, true => SCALED_NAMED_DOMAIN
    end.

(** [u8::from(named) | (u8::from(scaled) << 1)] *)
Definition binding_flags (named scaled : bool) : Z := Z.lor (Z.b2z named) (Z.shiftl (Z.b2z scaled) 1).

Definition unicode_binding (mode : PreTokenization) (named scaled bos : bool) : res Error bytes :=
  refuse_if (bos && (negb (bool_decide (mode = Llama3Unicode17)) || negb named)) Binding;;
  algorithm ← match mode with RawBytes => Err Binding | Gpt2Unicode17 => Ok 1 | Llama3Unicode17 => Ok 2 end;
  '(major, minor, patch) ← ok_or (unicode_version mode) Binding;
  mret (byte_of <$> [algorithm; major; minor; patch; binding_flags named scaled; Z.b2z bos]).

Definition read_unicode_binding (binding : bytes) (bos : bool) : res Error (bool * bool * PreTokenization) :=
  b0 ← expect (binding !! 0%nat);
  mode ← (if byte_val b0 =? 1 then Ok Gpt2Unicode17 else if byte_val b0 =? 2 then Ok Llama3Unicode17 else Err Binding);
  b4 ← expect (binding !! 4%nat);
  let named := negb (Z.land (byte_val b4) 1 =? 0) in
  let scaled := negb (Z.land (byte_val b4) 2 =? 0) in
  expected ← unicode_binding mode named scaled bos;
  refuse_if (negb (bool_decide (binding = expected))) Binding;;
  mret (named, scaled, mode).

Definition whole_piece_binding (mode : PreTokenization) (named scaled bos : bool) : res Error bytes :=
  refuse_if (bos && (negb (bool_decide (mode = Llama3Unicode17)) || negb named)) Binding;;
  let algorithm := match mode with RawBytes => 0 | Gpt2Unicode17 => 1 | Llama3Unicode17 => 2 end in
  let '(major, minor, patch) := default (0, 0, 0) (unicode_version mode) in
  mret (byte_of <$> [algorithm; major; minor; patch; binding_flags named scaled; Z.b2z bos; 1; 0]).

Definition read_whole_piece_binding (binding : bytes) : res Error (bool * bool * PreTokenization * bool) :=
  b0 ← expect (binding !! 0%nat);
  mode ← (if byte_val b0 =? 0 then Ok RawBytes else if byte_val b0 =? 1 then Ok Gpt2Unicode17
          else if byte_val b0 =? 2 then Ok Llama3Unicode17 else Err Binding);
  b4 ← expect (binding !! 4%nat);
  let named := negb (Z.land (byte_val b4) 1 =? 0) in
  let scaled := negb (Z.land (byte_val b4) 2 =? 0) in
  b5 ← expect (binding !! 5%nat);
  let bos := negb (byte_val b5 =? 0) in
  expected ← whole_piece_binding mode named scaled bos;
  refuse_if (negb (bool_decide (binding = expected))) Binding;;
  mret (named, scaled, mode, bos).

Definition header_fields (profile : DecoderProfile) : list Z :=
  let id := dp_identity profile in
  let shape := dp_shape profile in
  [di_tenant id; di_model id; di_model_generation id; di_tokenizer_generation id; di_profile_generation id;
   ds_vocabulary shape; ds_hidden shape; ds_intermediate shape; ds_layers shape; ds_query_heads shape;
   ds_cache_heads shape; ds_context shape; dp_epsilon_bits profile; dp_theta_bits profile].
Definition header (profile : DecoderProfile) : bytes := DOMAIN ++ concat (be_bytes 8 <$> header_fields profile).

(** [encoded_header[..8].copy_from_slice(..)] *)
Definition put_domain (name : bytes) (encoded_header : bytes) : bytes := name ++ drop 8 encoded_header.

(** [RotaryScaling::binding_bytes] *)
Definition rotary_binding_bytes (self : RotaryScaling) : option bytes :=
  match self with
  | NoRotaryScaling => None
  | LinearRotaryScaling factor_bits => Some (concat (be_bytes 8 <$> [1; factor_bits; 0; 0; 0]))
  | Llama3RotaryScaling factor_bits low_freq_factor_bits high_freq_factor_bits original_max_position_embeddings =>
    Some (concat (be_bytes 8 <$> [2; factor_bits; low_freq_factor_bits; high_freq_factor_bits; original_max_position_embeddings]))
  end.

(** The domain and the binding of the interpretation. *)
Definition archive_domain (merge_policy : MergePolicy) (mode : PreTokenization) (named scaled bos : bool) : bytes :=
  if bool_decide (merge_policy = WholePieceFirst) then WHOLE_PIECE_DOMAIN
  else domain named scaled (negb (bool_decide (mode = RawBytes))) bos.
Definition archive_binding (merge_policy : MergePolicy) (mode : PreTokenization) (named scaled bos : bool) : res Error bytes :=
  if bool_decide (merge_policy = WholePieceFirst) then whole_piece_binding mode named scaled bos
  else if negb (bool_decide (mode = RawBytes)) then unicode_binding mode named scaled bos
  else mret [].

(** ** Writing *)

(** The first and the second loop that add to [count]. *)
Fixpoint count_vocabulary (count : Z) (vocabulary : list TokenBytes) : res Error Z :=
  match vocabulary with
  | [] => mret count
  | entry :: vocabulary =>
    count ← ok_or (u64_checked_add count (match entry with Control => 1 | Content value => 5 + len value end)) Limit;
    count_vocabulary count vocabulary
  end.
Fixpoint count_names (count : Z) (names : list bytes) : res Error Z :=
  match names with
  | [] => mret count
  | name :: names =>
    count ← ok_or (u64_checked_add count (8 + len name)) Limit;
    count_names count names
  end.

Definition token_bytes (entry : TokenBytes) : bytes :=
  match entry with
  | Control => [byte_of 0]
  | Content value => byte_of 1 :: be_bytes 4 (len value) ++ value
  end.
Definition merge_bytes (rule : Merge) : bytes := concat (be_bytes 4 <$> [mg_left rule; mg_right rule; mg_result rule]).
Definition name_bytes (entry : Z * bytes) : bytes := be_bytes 4 entry.1 ++ be_bytes 4 (len entry.2) ++ entry.2.

(** [ByteBpe::to_bytes].  The first sum is of bytes that are in memory. *)
Definition to_bytes (self : ByteBpe) : res Error bytes :=
  let scaling := rotary_binding_bytes (dp_rotary_scaling (bb_profile self)) in
  let scaled := bool_decide (is_Some scaling) in
  let mode := bb_pre_tokenization self in
  let unicode := negb (bool_decide (mode = RawBytes)) in
  let bos := bool_decide (is_Some (bb_bos_token self)) in
  let whole_piece := bool_decide (bb_merge_policy self = WholePieceFirst) in
  let names := entries (sp_names (bb_special self)) in
  let count := HEADER_BYTES + from_option len 0 scaling
    + (if whole_piece then WHOLE_PIECE_BINDING_BYTES else if unicode then UNICODE_BINDING_BYTES else 0)
    + (if bos then 4 else 0) + 4 + 12 * len (bb_merges self) in
  count ← count_vocabulary count (bb_vocabulary self);
  let named := negb (bool_decide (sp_names (bb_special self) = ∅)) in
  count ← (if named then
             count ← ok_or (u64_checked_add count 4) Limit;
             count_names count names.*2
           else mret count);
  refuse_if (MAX_FILE_BYTES <? count) Limit;;
  binding ← archive_binding (bb_merge_policy self) mode named scaled bos;
  mret (put_domain (archive_domain (bb_merge_policy self) mode named scaled bos) (header (bb_profile self))
        ++ binding
        ++ from_option (be_bytes 4) [] (bb_bos_token self)
        ++ default [] scaling
        ++ concat (token_bytes <$> bb_vocabulary self)
        ++ be_bytes 4 (len (bb_merges self)) ++ concat (merge_bytes <$> bb_merges self)
        ++ (if named then be_bytes 4 (len names) ++ concat (name_bytes <$> names) else [])).

(** ** Reading *)

(** [Reader::take] and [Reader::u32] *)
Definition archive_take (count : Z) : st bytes Error bytes :=
  unread ← get;
  refuse_if (len unread <? count) Incomplete;;
  put (drop (Z.to_nat count) unread);;
  mret (take (Z.to_nat count) unread).
Definition archive_u32 : st bytes Error Z :=
  word ← archive_take 4;
  mret (le_val (rev word)).
(** [reader.take(1)?[0]] *)
Definition archive_tag : st bytes Error Z :=
  word ← archive_take 1;
  b ← lift (expect (word !! 0%nat));
  mret (byte_val b).

(** The match on the domain: named, scaled, the grammar and whether there is a
    begin token. *)
Definition read_domain (supplied : bytes) : st bytes Error (bool * bool * PreTokenization * bool) :=
  let name := take 8 supplied in
  let legacy_bos := bool_decide (name = BOS_DOMAIN) in
  if bool_decide (name = DOMAIN) then mret (false, false, RawBytes, false)
  else if bool_decide (name = NAMED_DOMAIN) then mret (true, false, RawBytes, false)
  else if bool_decide (name = SCALED_DOMAIN) then mret (false, true, RawBytes, false)
  else if bool_decide (name = SCALED_NAMED_DOMAIN) then mret (true, true, RawBytes, false)
  else if bool_decide (name = UNICODE_DOMAIN) || bool_decide (name = BOS_DOMAIN) then
    binding ← archive_take UNICODE_BINDING_BYTES;
    '(named, scaled, mode) ← lift (read_unicode_binding binding legacy_bos);
    mret (named, scaled, mode, legacy_bos)
  else if bool_decide (name = WHOLE_PIECE_DOMAIN) then
    binding ← archive_take WHOLE_PIECE_BINDING_BYTES;
    lift (read_whole_piece_binding binding)
  else mthrow Binding.

(** What comes before the vocabulary, compared with the profile. *)
Definition read_profile (expected : DecoderProfile) : st bytes Error (bool * PreTokenization * MergePolicy * option Z) :=
  supplied ← archive_take HEADER_BYTES;
  let whole_piece := bool_decide (take 8 supplied = WHOLE_PIECE_DOMAIN) in
  '(named, scaled, mode, has_bos) ← read_domain supplied;
  let merge_policy := if whole_piece then WholePieceFirst else RankedOnly in
  bos ← (if has_bos : bool then id ← archive_u32; mret (Some id) else mret None);
  refuse_if (from_option (λ id, ds_vocabulary (dp_shape expected) <=? id) false bos) Binding;;
  let scaling := rotary_binding_bytes (dp_rotary_scaling expected) in
  refuse_if (negb (eqb scaled (bool_decide (is_Some scaling)))) Binding;;
  let expected_header := put_domain (archive_domain merge_policy mode named scaled has_bos) (header expected) in
  refuse_if (negb (bool_decide (supplied = expected_header))) Binding;;
  match scaling with
  | Some binding =>
    supplied ← archive_take (len binding);
    refuse_if (negb (bool_decide (supplied = binding))) Binding
  | None => mret tt
  end;;
  mret (named, mode, merge_policy, bos).

Fixpoint read_tokens (count : nat) (retained : Z) : st bytes Error (list TokenBytes) :=
  match count with
  | O => mret []
  | S count =>
    tag ← archive_tag;
    if tag =? 0 then
      vocabulary ← read_tokens count retained;
      mret (Control :: vocabulary)
    else if tag =? 1 then
      length ← archive_u32;
      refuse_if (length =? 0) InvalidInput;;
      refuse_if (MAX_TOKEN_BYTES <? length) Limit;;
      retained ← ok_or (u64_checked_add retained length) Limit;
      refuse_if (MAX_VOCABULARY_BYTES <? retained) Limit;;
      value ← archive_take length;
      vocabulary ← read_tokens count retained;
      mret (Content value :: vocabulary)
    else mthrow InvalidInput
  end.

Fixpoint read_merges (count : nat) : st bytes Error (list Merge) :=
  match count with
  | O => mret []
  | S count =>
    left ← archive_u32;
    right ← archive_u32;
    result ← archive_u32;
    merges ← read_merges count;
    mret (mkMerge left right result :: merges)
  end.

Fixpoint read_names (count : nat) (vocabulary : list TokenBytes) (previous : option Z) (retained : Z) (names : gmap Z bytes) :
    st bytes Error (gmap Z bytes) :=
  match count with
  | O => mret names
  | S count =>
    id ← archive_u32;
    refuse_if (from_option (λ value, id <=? value) false previous) Binding;;
    length ← archive_u32;
    refuse_if (length =? 0) InvalidInput;;
    refuse_if (MAX_TOKEN_BYTES <? length) Limit;;
    retained ← ok_or (u64_checked_add retained length) Limit;
    refuse_if (MAX_SPECIAL_TOKEN_BYTES <? retained) Limit;;
    refuse_if (negb (bool_decide (vocabulary_get vocabulary id = Some Control))) Binding;;
    name ← archive_take length;
    read_names count vocabulary (Some id) retained (<[id := name]> names)
  end.

(** The table of names and what follows it. *)
Definition read_named (vocabulary : list TokenBytes) : st bytes Error (gmap Z bytes) :=
  count ← archive_u32;
  refuse_if (count =? 0) InvalidInput;;
  refuse_if (MAX_CONTROL_TOKENS <? count) Limit;;
  names ← read_names (Z.to_nat count) vocabulary None 0 ∅;
  unread ← get;
  refuse_if (negb (bool_decide (unread = []))) InvalidInput;;
  mret names.

Definition read_archive (expected : DecoderProfile) : st bytes Error ByteBpe :=
  '(named, mode, merge_policy, bos) ← read_profile expected;
  let count := ds_vocabulary (dp_shape expected) in
  refuse_if (count <? 256) Incomplete;;
  vocabulary ← read_tokens (Z.to_nat count) 0;
  count ← archive_u32;
  refuse_if (MAX_MERGES <? count) Limit;;
  unread ← get;
  let remaining := len unread in
  refuse_if ((negb named && negb (remaining =? count * 12)) || (named && (remaining <? count * 12 + 4))) InvalidInput;;
  merges ← read_merges (Z.to_nat count);
  if negb named then lift (new_with_merge_policy expected vocabulary merges ∅ mode merge_policy)
  else
    names ← read_named vocabulary;
    lift (match bos with
          | Some bos => new_with_bos_token_and_merge_policy expected vocabulary merges names bos merge_policy
          | None => new_with_merge_policy expected vocabulary merges names mode merge_policy
          end).

(** [ByteBpe::from_bytes] *)
Definition from_bytes (expected : DecoderProfile) (archive : bytes) : res Error ByteBpe :=
  refuse_if (MAX_FILE_BYTES <? len archive) Limit;;
  (read_archive expected archive).1.
