(* ===== verification/ArchiveReads.v ===== *)
(** * What the reader of an archive accepts

    The words of every part of an archive, as the writer spells them. *)

From Stdlib Require Import Strings.Byte.
From stdpp Require Import base tactics numbers list gmap sorting.
From S2P Require Import Prelude Bytes Reads Judgment Tokens SpecialTokens Unicode17 Pretokenizer Bpe Archive.

Local Open Scope Z_scope.
#[local] Arguments be_bytes : simpl never.

(** ** Integers *)

#[global] Instance reads_archive_take n : Reads (archive_take n) (λ v w, v = w ∧ len w = Z.max 0 n).
Proof. apply reads_taken. Qed.

#[global] Instance reads_archive_u32 : Reads archive_u32 (λ z w, is_u32 z ∧ w = be_bytes 4 z).
Proof.
  eapply reads_ext; [unfold archive_u32; apply _|]. intros z w. simpl. unfold be_bytes, is_u32. split.
  - intros (v & w1 & w2 & -> & [-> Hw] & -> & ->). rewrite app_nil_r.
    assert (length (rev w1) = 4%nat) as Hlen by (rewrite length_rev; unfold len in Hw; lia).
    rewrite <-Hlen, le_bytes_le_val, rev_involutive. split; [|done].
    pose proof (le_val_range (rev w1)) as H. unfold len in H. rewrite Hlen in H. lia.
  - intros [Hz ->]. exists (rev (le_bytes 4 z)), (rev (le_bytes 4 z)), []. rewrite app_nil_r, rev_involutive.
    split_and!; [done|done| |by rewrite le_val_u32|done]. unfold len. by rewrite length_rev, length_le_bytes.
Qed.

#[global] Instance reads_archive_tag : Reads archive_tag (λ z w, ∃ b, w = [b] ∧ z = byte_val b).
Proof.
  assert (∀ w : bytes, len w = 1 → ∃ b, w = [b]) as Hone.
  { intros [|b [|b' w]] H; unfold len in H; simpl in H; [lia|by eexists|lia]. }
  unfold archive_tag. split; munfold_goal.
  - intros cur. destruct (archive_take 1 cur) as [[v|e|] rest] eqn:E; [|done|].
    + apply (reads_sound (m := archive_take 1)) in E as (w & [<- (b & ->)%Hone] & _). done.
    + by destruct (reads_no_panic (m := archive_take 1) cur); rewrite E.
  - intros cur z rest. destruct (archive_take 1 cur) as [[v|e|] rest'] eqn:E; [|done..].
    apply (reads_sound (m := archive_take 1)) in E as (w & [<- (b & ->)%Hone] & ->). intros [= <- <-]. eauto.
  - intros z w rest (b & -> & ->). by rewrite (reads_complete [b] [b] rest).
Qed.

(** ** The interpretation *)

(** Spells the code and the flags that the reader compares with. *)
Lemma read_unicode_binding_iff w named scaled mode bos :
  read_unicode_binding w bos = Ok (named, scaled, mode) ↔ unicode_binding mode named scaled bos = Ok w.
Proof.
  unfold read_unicode_binding. split.
  - intros (b0 & _ & H)%then_ok. apply then_ok in H as (mode' & _ & H). apply then_ok in H as (b4 & _ & H).
    apply then_ok in H as (expected & He & H). apply refuse_ok in H as [Heq%negb_false_iff%bool_decide_eq_true [= <- <- <-]].
    by subst.
  - destruct mode, named, scaled, bos; unfold unicode_binding; intros H; (injection H as <- || done);
      vm_compute; reflexivity.
Qed.

Lemma read_whole_piece_binding_iff w named scaled mode bos :
  read_whole_piece_binding w = Ok (named, scaled, mode, bos) ↔ whole_piece_binding mode named scaled bos = Ok w.
Proof.
  unfold read_whole_piece_binding. split.
  - intros (b0 & _ & H)%then_ok. apply then_ok in H as (mode' & _ & H). apply then_ok in H as (b4 & _ & H).
    apply then_ok in H as (b5 & _ & H).
    apply then_ok in H as (expected & He & H). apply refuse_ok in H as [Heq%negb_false_iff%bool_decide_eq_true [= <- <- <- <-]].
    by subst.
  - destruct mode, named, scaled, bos; unfold whole_piece_binding; intros H; (injection H as <- || done);
      vm_compute; reflexivity.
Qed.

Lemma unicode_binding_no_panic mode named scaled bos : unicode_binding mode named scaled bos ≠ Panic.
Proof. by destruct mode, named, scaled, bos. Qed.
Lemma whole_piece_binding_no_panic mode named scaled bos : whole_piece_binding mode named scaled bos ≠ Panic.
Proof. by destruct mode, named, scaled, bos. Qed.

Lemma read_unicode_binding_no_panic w bos : len w = 6 → read_unicode_binding w bos ≠ Panic.
Proof.
  intros Hlen. unfold read_unicode_binding. destruct w as [|b0 [|b1 [|b2 [|b3 [|b4 w]]]]]; try (unfold len in Hlen; simpl in Hlen; lia).
  munfold_goal. repeat case_match; try done; simplify_eq/=; exfalso; eapply unicode_binding_no_panic; eassumption.
Qed.

Lemma read_whole_piece_binding_no_panic w : len w = 8 → read_whole_piece_binding w ≠ Panic.
Proof.
  intros Hlen. unfold read_whole_piece_binding.
  destruct w as [|b0 [|b1 [|b2 [|b3 [|b4 [|b5 w]]]]]]; try (unfold len in Hlen; simpl in Hlen; lia).
  munfold_goal. repeat case_match; try done; simplify_eq/=; exfalso; eapply whole_piece_binding_no_panic; eassumption.
Qed.

(** The policy that a domain stands for. *)
Definition policy_of (name : bytes) : MergePolicy := if bool_decide (name = WHOLE_PIECE_DOMAIN) then WholePieceFirst else RankedOnly.

Definition domain_word (name : bytes) (x : bool * bool * PreTokenization * bool) (w : bytes) : Prop :=
  let '(named, scaled, mode, has_bos) := x in
  archive_binding (policy_of name) mode named scaled has_bos = Ok w ∧
  name = archive_domain (policy_of name) mode named scaled has_bos ∧
  (policy_of name = RankedOnly → mode = RawBytes → has_bos = false).

(** Compares an outcome of the match with the specification, by computation. *)
Ltac interpretation :=
  intros [[[named scaled] mode] has_bos] w; unfold domain_word; split;
  [intros [[= -> -> -> ->] ->]; vm_compute; by split_and!
  |intros (H1 & H2 & H3); destruct mode, named, scaled, has_bos; vm_compute in H2; try discriminate;
   vm_compute in H1; try discriminate; try (specialize (H3 eq_refl eq_refl); discriminate); by injection H1 as <-].

Ltac bound_interpretation :=
  intros [[[named scaled] mode] has_bos] w; unfold domain_word; split;
  [intros H; decompose [ex and] H; simplify_eq;
   match goal with Hb : _ ?m ?n ?s ?b = Ok w |- _ =>
     destruct m, n, s; try (is_var b; destruct b); first [discriminate Hb|split_and!; [exact Hb|reflexivity|done]]
   end
  |intros (H1 & H2 & H3); destruct mode, named, scaled, has_bos; vm_compute in H2; try discriminate;
   try (specialize (H3 eq_refl eq_refl); discriminate); repeat eexists; exact H1].

Lemma reads_domain_unicode bos :
  Reads (binding ← archive_take UNICODE_BINDING_BYTES;
         '(named, scaled, mode) ← lift (read_unicode_binding binding bos); mret (named, scaled, mode, bos))
    (λ x w, ∃ named scaled mode, x = (named, scaled, mode, bos) ∧ unicode_binding mode named scaled bos = Ok w).
Proof.
  eapply reads_ext.
  - apply reads_bind_read; [apply _|]. intros binding w [<- Hlen].
    apply (reads_bind _ _ (λ x w, read_unicode_binding binding bos = Ok x ∧ w = [])
      (λ x x' w, x' = (x.1.1, x.1.2, x.2, bos) ∧ w = []));
      [by apply reads_lift, read_unicode_binding_no_panic|].
    intros [[named scaled] mode]. apply (reads_ret (named, scaled, mode, bos)).
  - intros x w. split.
    + intros (binding & w1 & w2 & -> & [<- _] & [[named scaled] mode] & ? & ? & -> & [Hb%read_unicode_binding_iff ->] & -> & ->).
      rewrite !app_nil_r. by exists named, scaled, mode.
    + intros (named & scaled & mode & -> & Hb). exists w, w, []. rewrite app_nil_r. split_and!; [done|done| |].
      * destruct mode, named, scaled, bos; (injection Hb as <- || done); reflexivity.
      * exists (named, scaled, mode), [], []. by apply read_unicode_binding_iff in Hb.
Qed.

Lemma reads_domain_whole :
  Reads (binding ← archive_take WHOLE_PIECE_BINDING_BYTES; lift (read_whole_piece_binding binding))
    (λ x w, ∃ named scaled mode bos, x = (named, scaled, mode, bos) ∧ whole_piece_binding mode named scaled bos = Ok w).
Proof.
  eapply reads_ext.
  - apply reads_bind_read; [apply _|]. intros binding w [<- Hlen]. by apply reads_lift, read_whole_piece_binding_no_panic.
  - intros x w. split.
    + intros (binding & w1 & w2 & -> & [<- _] & Hb & ->). destruct x as [[[named scaled] mode] bos].
      apply read_whole_piece_binding_iff in Hb. rewrite app_nil_r. by exists named, scaled, mode, bos.
    + intros (named & scaled & mode & bos & -> & Hb). exists w, w, []. rewrite app_nil_r. split_and!; [done|done| | |done].
      * destruct mode, named, scaled, bos; (injection Hb as <- || done); reflexivity.
      * by apply read_whole_piece_binding_iff.
Qed.

#[global] Instance reads_domain supplied : Reads (read_domain supplied) (domain_word (take 8 supplied)).
Proof.
  unfold read_domain. generalize (take 8 supplied) as name. intros name.
  case_bool_decide as Hn0; [subst name; eapply reads_ext; [apply _|]; interpretation|].
  case_bool_decide as Hn1; [subst name; eapply reads_ext; [apply _|]; interpretation|].
  case_bool_decide as Hn2; [subst name; eapply reads_ext; [apply _|]; interpretation|].
  case_bool_decide as Hn3; [subst name; eapply reads_ext; [apply _|]; interpretation|].
  destruct (bool_decide (name = UNICODE_DOMAIN) || bool_decide (name = BOS_DOMAIN)) eqn:Hn4.
  - apply orb_true_iff in Hn4 as [->%bool_decide_eq_true| ->%bool_decide_eq_true].
    + change (bool_decide (UNICODE_DOMAIN = BOS_DOMAIN)) with false. eapply reads_ext; [apply reads_domain_unicode|].
      bound_interpretation.
    + change (bool_decide (BOS_DOMAIN = BOS_DOMAIN)) with true. eapply reads_ext; [apply reads_domain_unicode|].
      bound_interpretation.
  - apply orb_false_iff in Hn4 as [Hnu%bool_decide_eq_false Hnb%bool_decide_eq_false].
    case_bool_decide as Hn5; [subst name; eapply reads_ext; [apply reads_domain_whole|]; bound_interpretation|].
    eapply reads_ext; [apply _|]. intros [[[named scaled] mode] has_bos] w. unfold domain_word, policy_of.
    rewrite bool_decide_eq_false_2 by done.
    split; [done|]. intros (_ & -> & Hraw). destruct mode, named, scaled, has_bos; try done; by specialize (Hraw eq_refl eq_refl).
Qed.

(** ** Before the vocabulary *)

Lemma length_domain merge_policy mode named scaled bos : length (archive_domain merge_policy mode named scaled bos) = 8%nat.
Proof. by destruct merge_policy, mode, named, scaled, bos. Qed.

Lemma length_header profile : length (header profile) = 120%nat.
Proof. unfold header, header_fields. cbn [fmap list_fmap concat]. rewrite !length_app, !length_be_bytes. done. Qed.

Lemma length_put_domain merge_policy mode named scaled bos profile :
  len (put_domain (archive_domain merge_policy mode named scaled bos) (header profile)) = HEADER_BYTES.
Proof. unfold put_domain, len. by rewrite length_app, length_domain, length_drop, length_header. Qed.

Lemma take_put_domain merge_policy mode named scaled bos profile :
  take 8 (put_domain (archive_domain merge_policy mode named scaled bos) (header profile)) = archive_domain merge_policy mode named scaled bos.
Proof. unfold put_domain. by rewrite take_app_le, take_ge by (by rewrite length_domain). Qed.

Lemma policy_of_domain merge_policy mode named scaled bos :
  policy_of (archive_domain merge_policy mode named scaled bos) = merge_policy.
Proof. by destruct merge_policy, mode, named, scaled, bos. Qed.

Lemma reads_four {E A B C D F} (m : st bytes E (A * B * C * D)) (k : A → B → C → D → st bytes E F) Rm Rk :
  Reads m Rm → (∀ a b c d, Reads (k a b c d) (Rk a b c d)) →
  Reads ('(a, b, c, d) ← m; k a b c d)
    (λ x w, ∃ a b c d w1 w2, w = w1 ++ w2 ∧ Rm (a, b, c, d) w1 ∧ Rk a b c d x w2).
Proof.
  intros Hm Hk. eapply reads_ext.
  - apply (reads_bind _ _ Rm (λ y x w, Rk y.1.1.1 y.1.1.2 y.1.2 y.2 x w)); [done|]. intros [[[a b] c] d]. apply Hk.
  - intros x w. split; [intros ([[[a b] c] d] & w1 & w2 & H); by exists a, b, c, d, w1, w2|].
    intros (a & b & c & d & w1 & w2 & H). by exists (a, b, c, d), w1, w2.
Qed.

(** The writer's bytes before the vocabulary. *)
Definition profile_word (profile : DecoderProfile) (x : bool * PreTokenization * MergePolicy * option Z) (w : bytes) : Prop :=
  let '(named, mode, merge_policy, bos) := x in
  let scaling := rotary_binding_bytes (dp_rotary_scaling profile) in
  let scaled := bool_decide (is_Some scaling) in
  let has_bos := bool_decide (is_Some bos) in
  ∃ binding, archive_binding merge_policy mode named scaled has_bos = Ok binding ∧
    (merge_policy = RankedOnly → mode = RawBytes → bos = None) ∧
    from_option (λ id, is_u32 id ∧ id < ds_vocabulary (dp_shape profile)) True bos ∧
    w = put_domain (archive_domain merge_policy mode named scaled has_bos) (header profile) ++ binding
      ++ from_option (be_bytes 4) [] bos ++ default [] scaling.

#[global] Instance reads_scaling (scaling : option bytes) :
  Reads (match scaling with
         | Some binding => supplied ← archive_take (len binding); refuse_if (negb (bool_decide (supplied = binding))) Binding
         | None => mret tt
         end) (λ _ w, w = default [] scaling).
Proof.
  destruct scaling as [binding|]; (eapply reads_ext; [apply _|]); intros [] w; simpl.
  - split.
    + intros (v & w1 & w2 & -> & [<- _] & Heq%negb_false_iff%bool_decide_eq_true & ->). by rewrite app_nil_r.
    + intros ->. exists binding, binding, []. rewrite app_nil_r. pose proof (len_nonneg binding).
      split_and!; [done|done|lia|by rewrite bool_decide_eq_true_2|done].
  - naive_solver.
Qed.

#[global] Instance reads_bos (has_bos : bool) :
  Reads (if has_bos then id ← archive_u32; mret (Some id) else mret None)
    (λ bos w, has_bos = bool_decide (is_Some bos) ∧ from_option is_u32 True bos ∧ w = from_option (be_bytes 4) [] bos).
Proof.
  destruct has_bos; (eapply reads_ext; [apply _|]); intros bos w; simpl.
  - split.
    + intros (id & w1 & w2 & -> & [Hid ->] & -> & ->). by rewrite app_nil_r.
    + destruct bos as [id|]; simpl; intros (H1 & H2 & ->); [|done]. exists id, (be_bytes 4 id), []. by rewrite app_nil_r.
  - split; [by intros [-> ->]|]. destruct bos; simpl; naive_solver.
Qed.

#[global] Instance reads_profile profile : Reads (read_profile profile) (profile_word profile).
Proof.
  unfold read_profile. eapply reads_ext.
  - apply reads_bind; [apply _|]. intros supplied. apply reads_four; [apply _|]. intros named scaled mode has_bos. apply _.
  - intros [[[named mode] merge_policy] bos] w. unfold profile_word. cbn zeta.
    set (scaled := bool_decide (is_Some (rotary_binding_bytes (dp_rotary_scaling profile)))). split.
    + intros (supplied & ? & ? & -> & [<- _] & named' & scaled' & mode' & has_bos & binding & ? & -> & (Hb & Hdom & Hraw) &
        bos' & ? & ? & -> & (-> & Hbos & ->) & _ & ? & ? & -> & [Hmax ->] & _ & ? & ? & -> & [Hscaled ->] &
        _ & ? & ? & -> & [Hhead ->] & _ & ? & ? & -> & -> & [= -> -> -> ->] & ->).
      fold (policy_of (take 8 supplied)) in *. apply negb_false_iff, eqb_prop in Hscaled as ->. fold scaled in Hb, Hdom, Hhead.
      apply negb_false_iff, bool_decide_eq_true in Hhead. exists binding. split_and!; [done| | |].
      * intros Hr Hm. specialize (Hraw Hr Hm). by destruct bos'.
      * destruct bos' as [id|]; [|done]. simpl in *. apply Z.leb_gt in Hmax. done.
      * rewrite <-Hhead, !app_nil_l, app_nil_r. done.
    + intros (binding & Hb & Hraw & Hbos & ->).
      set (supplied := put_domain _ _). assert (take 8 supplied = archive_domain merge_policy mode named scaled (bool_decide (is_Some bos))) as Htake
        by apply take_put_domain.
      assert (policy_of (take 8 supplied) = merge_policy) as Hpol by (rewrite Htake; apply policy_of_domain).
      exists supplied, supplied. eexists. split; [done|]. split.
      { split; [done|]. unfold supplied. by rewrite length_put_domain. }
      exists named, scaled, mode, (bool_decide (is_Some bos)), binding. eexists. split; [done|]. split.
      { unfold domain_word. rewrite Hpol. split_and!; [done|by rewrite Htake|]. intros Hr Hm. by rewrite (Hraw Hr Hm). }
      exists bos. do 2 eexists. split; [done|]. split; [split_and!; [done|destruct bos; [by apply Hbos|done]|done]|].
      exists tt, [], (default [] (rotary_binding_bytes (dp_rotary_scaling profile))). split; [done|]. split.
      { split; [|done]. destruct bos as [id|]; [|done]. simpl in *. apply Z.leb_gt. lia. }
      exists tt, [], (default [] (rotary_binding_bytes (dp_rotary_scaling profile))). split; [done|]. split.
      { split; [|done]. fold scaled. by rewrite eqb_reflx. }
      exists tt, [], (default [] (rotary_binding_bytes (dp_rotary_scaling profile))). split; [done|].
      fold (policy_of (take 8 supplied)). rewrite Hpol. split.
      { split; [|done]. apply negb_false_iff, bool_decide_eq_true. done. }
      exists tt, (default [] (rotary_binding_bytes (dp_rotary_scaling profile))), []. by rewrite app_nil_r.
Qed.

(** ** The vocabulary and the merges *)

Fixpoint tokens_fit (retained : Z) (vocabulary : list TokenBytes) : Prop :=
  match vocabulary with
  | [] => True
  | Control :: vocabulary => tokens_fit retained vocabulary
  | Content value :: vocabulary =>
    value ≠ [] ∧ len value ≤ MAX_TOKEN_BYTES ∧ retained + len value ≤ MAX_VOCABULARY_BYTES ∧
    tokens_fit (retained + len value) vocabulary
  end.

Lemma len_zero (value : bytes) : len value = 0 ↔ value = [].
Proof. unfold len. destruct value; simpl; [done|]. split; [lia|done]. Qed.

#[global] Instance reads_tokens count retained :
  Reads (read_tokens count retained)
    (λ vocabulary w, length vocabulary = count ∧ tokens_fit retained vocabulary ∧ w = concat (token_bytes <$> vocabulary)).
Proof.
  revert retained. induction count as [|count IH]; intros retained; cbn [read_tokens].
  { eapply reads_ext; [apply _|]. intros vocabulary w. simpl. split; [by intros [-> ->]|].
    intros (H & _ & ->). by destruct vocabulary. }
  eapply reads_ext; [apply _|]. intros vocabulary w. split.
  - intros (tag & ? & ? & -> & (b & -> & ->) & H). destruct (Z.eqb_spec (byte_val b) 0) as [Hb|_].
    { destruct H as (rest & ? & ? & -> & (Hlen & Hfit & ->) & -> & ->). split_and!; [by simpl; f_equal|done|].
      rewrite fmap_cons, app_nil_r. simpl. rewrite <-Hb, byte_of_val. done. }
    destruct (Z.eqb_spec (byte_val b) 1) as [Hb|_]; [|done].
    destruct H as (size & ? & ? & -> & [Hsize ->] & _ & ? & ? & -> & [Hne%Z.eqb_neq ->] & _ & ? & ? & -> & [Hmax%Z.ltb_ge ->] &
      retained' & ? & ? & -> & [Hadd ->] & _ & ? & ? & -> & [Hall%Z.ltb_ge ->] & value & ? & ? & -> & [<- Hlen] &
      rest & ? & ? & -> & (Hcount & Hfit & ->) & -> & ->).
    unfold u64_checked_add in Hadd. case_match; [|done]. injection Hadd as <-.
    assert (len value = size) as <- by (unfold is_u32 in Hsize; lia). rewrite len_zero in Hne. cbn [length tokens_fit]. split_and!; [by f_equal|done..|].
    rewrite fmap_cons, concat_cons, app_nil_r. cbn [token_bytes]. rewrite <-Hb, byte_of_val. cbn [app]. by rewrite <-app_assoc.
  - intros (Hcount & Hfit & ->). destruct vocabulary as [|[value|] vocabulary]; [done|..]; injection Hcount as Hcount.
    + destruct Hfit as (Hne & Hmax & Hall & Hfit). pose proof (len_nonneg value). rewrite <-len_zero in Hne.
      unfold MAX_TOKEN_BYTES, MAX_VOCABULARY_BYTES in *. rewrite fmap_cons, concat_cons. cbn [token_bytes].
      change (byte_of 1 :: be_bytes 4 (len value) ++ value) with ([byte_of 1] ++ be_bytes 4 (len value) ++ value).
      rewrite <-!app_assoc. exists 1, [byte_of 1]. eexists. split; [done|].
      split; [by exists (byte_of 1)|]. cbn [Z.eqb Pos.eqb].
      exists (len value), (be_bytes 4 (len value)). eexists. split; [done|]. split; [unfold is_u32; split; [lia|done]|].
      exists tt, []. eexists. split; [done|]. split; [by rewrite (proj2 (Z.eqb_neq _ _))|].
      exists tt, []. eexists. split; [done|]. split; [by rewrite (proj2 (Z.ltb_ge _ _))|].
      exists (retained + len value), []. eexists. split; [done|]. split; [by rewrite u64_checked_add_fits by lia|].
      exists tt, []. eexists. split; [done|]. split; [by rewrite (proj2 (Z.ltb_ge _ _))|].
      exists value, value. eexists. split; [done|]. split; [split; [done|lia]|].
      exists vocabulary. eexists _, []. rewrite app_nil_r. done.
    + rewrite fmap_cons, concat_cons. exists 0, [byte_of 0]. eexists. split; [done|]. split; [by exists (byte_of 0)|]. cbn [Z.eqb].
      exists vocabulary. eexists _, []. rewrite app_nil_r. done.
Qed.

Definition merge_typed (rule : Merge) : Prop := is_u32 (mg_left rule) ∧ is_u32 (mg_right rule) ∧ is_u32 (mg_result rule).

Lemma merge_bytes_eq rule :
  merge_bytes rule = be_bytes 4 (mg_left rule) ++ be_bytes 4 (mg_right rule) ++ be_bytes 4 (mg_result rule).
Proof. unfold merge_bytes. cbn [fmap list_fmap concat]. by rewrite app_nil_r. Qed.

#[global] Instance reads_merges count :
  Reads (read_merges count) (λ merges w, length merges = count ∧ Forall merge_typed merges ∧ w = concat (merge_bytes <$> merges)).
Proof.
  induction count as [|count IH]; cbn [read_merges].
  { eapply reads_ext; [apply _|]. intros merges w. simpl. split; [by intros [-> ->]|].
    intros (H & _ & ->). by destruct merges. }
  eapply reads_ext; [apply _|]. intros merges w. split.
  - intros (l & ? & ? & -> & [Hl ->] & r & ? & ? & -> & [Hr ->] & x & ? & ? & -> & [Hx ->] & rest & ? & ? & -> & (Hlen & Hall & ->) & -> & ->).
    split_and!; [by simpl; f_equal|by constructor|]. rewrite fmap_cons, concat_cons, merge_bytes_eq, app_nil_r, <-!app_assoc. done.
  - intros (Hlen & Hall & ->). destruct merges as [|rule merges]; [done|]. injection Hlen as Hlen.
    apply Forall_cons in Hall as [(Hl & Hr & Hx) Hall]. rewrite fmap_cons, concat_cons, merge_bytes_eq, <-!app_assoc.
    exists (mg_left rule), (be_bytes 4 (mg_left rule)). eexists. split; [done|]. split; [done|].
    exists (mg_right rule), (be_bytes 4 (mg_right rule)). eexists. split; [done|]. split; [done|].
    exists (mg_result rule), (be_bytes 4 (mg_result rule)). eexists. split; [done|]. split; [done|]. exists merges. eexists _, []. rewrite app_nil_r. split; [done|].
    split; [done|]. by destruct rule.
Qed.

(** ** The names *)

Fixpoint names_fit (vocabulary : list TokenBytes) (retained : Z) (names : list (Z * bytes)) : Prop :=
  match names with
  | [] => True
  | (id, name) :: names =>
    is_u32 id ∧ vocabulary_get vocabulary id = Some Control ∧ name ≠ [] ∧ len name ≤ MAX_TOKEN_BYTES ∧
    retained + len name ≤ MAX_SPECIAL_TOKEN_BYTES ∧ names_fit vocabulary (retained + len name) names
  end.

Lemma ascending_fresh id (l : list (Z * bytes)) : ascending (Some id) l.*1 → (list_to_map l : gmap Z bytes) !! id = None.
Proof.
  intros [_ Hasc]%ascending_spec. apply not_elem_of_list_to_map_1. intros Hin. specialize (Hasc id id eq_refl Hin). lia.
Qed.

#[global] Instance reads_names count vocabulary previous retained names :
  Reads (read_names count vocabulary previous retained names)
    (λ names' w, ∃ l, length l = count ∧ ascending previous l.*1 ∧ names_fit vocabulary retained l ∧
      names' = list_to_map l ∪ names ∧ w = concat (name_bytes <$> l)).
Proof.
  revert previous retained names. induction count as [|count IH]; intros previous retained names; cbn [read_names].
  { eapply reads_ext; [apply _|]. intros names' w. split.
    - intros [-> ->]. exists []. split_and!; [done..| |done]. by rewrite list_to_map_nil, (left_id_L ∅ (∪)).
    - intros ([|] & H & _ & _ & -> & ->); [|done]. by rewrite list_to_map_nil, (left_id_L ∅ (∪)). }
  eapply reads_ext; [apply _|]. intros names' w. split.
  - intros (id & ? & ? & -> & [Hid ->] & _ & ? & ? & -> & [Hprev ->] & size & ? & ? & -> & [Hsize ->] &
      _ & ? & ? & -> & [Hne%Z.eqb_neq ->] & _ & ? & ? & -> & [Hmax%Z.ltb_ge ->] & retained' & ? & ? & -> & [Hadd ->] &
      _ & ? & ? & -> & [Hall%Z.ltb_ge ->] & _ & ? & ? & -> & [Hctl%negb_false_iff%bool_decide_eq_true ->] &
      name & ? & ? & -> & [<- Hlen] & l & Hcount & Hasc & Hfit & -> & ->).
    unfold u64_checked_add in Hadd. case_match; [|done]. injection Hadd as <-.
    assert (len name = size) as <- by (unfold is_u32 in Hsize; lia). rewrite len_zero in Hne.
    exists ((id, name) :: l). cbn [length names_fit]. split_and!; [by f_equal| |done..| |].
    + split; [|done]. destruct previous; [|done]. simpl in Hprev. by apply Z.leb_gt in Hprev.
    + rewrite list_to_map_cons, <-insert_union_l, insert_union_r; [done|]. by apply ascending_fresh.
    + rewrite fmap_cons, concat_cons. unfold name_bytes. cbn [fst snd app]. by rewrite <-!app_assoc.
  - intros (l & Hcount & Hasc & Hfit & -> & ->). destruct l as [|[id name] l]; [done|]. injection Hcount as Hcount.
    destruct Hasc as [Hprev Hasc]. destruct Hfit as (Hid & Hctl & Hne & Hmax & Hall & Hfit).
    pose proof (len_nonneg name). rewrite <-len_zero in Hne. rewrite fmap_cons, concat_cons. unfold name_bytes at 1. cbn [fst snd].
    unfold MAX_TOKEN_BYTES, MAX_SPECIAL_TOKEN_BYTES in *. rewrite <-!app_assoc.
    exists id, (be_bytes 4 id). eexists. split; [done|]. split; [done|].
    exists tt, []. eexists. split; [done|]. split; [split; [|done]; destruct previous; [by apply Z.leb_gt|done]|].
    exists (len name), (be_bytes 4 (len name)). eexists. split; [done|]. split; [unfold is_u32; split; [lia|done]|].
    exists tt, []. eexists. split; [done|]. split; [by rewrite (proj2 (Z.eqb_neq _ _))|].
    exists tt, []. eexists. split; [done|]. split; [by rewrite (proj2 (Z.ltb_ge _ _))|].
    exists (retained + len name), []. eexists. split; [done|]. split; [by rewrite u64_checked_add_fits by lia|].
    exists tt, []. eexists. split; [done|]. split; [by rewrite (proj2 (Z.ltb_ge _ _))|].
    exists tt, []. eexists. split; [done|]. split; [by rewrite bool_decide_eq_true_2|].
    exists name, name. eexists. split; [done|]. split; [split; [done|lia]|].
    exists l. split_and!; [done..| |done]. rewrite list_to_map_cons, <-insert_union_l, insert_union_r; [done|].
    by apply ascending_fresh.
Qed.

(** The names in the order of their tokens are the iteration of their map. *)
Lemma entries_of_ascending (l : list (Z * bytes)) : ascending None l.*1 → entries (list_to_map l : gmap Z bytes) = l.
Proof.
  intros [[Hs Hnd]%StronglySorted_lt_le _]%ascending_spec. apply (StronglySorted_unique_strong entry_le); [|apply entries_sorted| |].
  - intros p q Hp Hq Hle Hge. unfold entry_le in *. pose proof (anti_symm key_le _ _ Hle Hge) as Hk.
    destruct p as [i x], q as [j y]. simpl in Hk. subst j. apply elem_of_entries, elem_of_list_to_map in Hp; [|done]. f_equal.
    apply list_elem_of_lookup in Hp as [a Ha], Hq as [b Hb]. assert (a = b) as ->; [|congruence].
    apply (NoDup_lookup _ a b i Hnd); by rewrite list_lookup_fmap, ?Ha, ?Hb.
  - clear Hnd. induction l as [|p l IH]; [constructor|]. rewrite fmap_cons in Hs. apply StronglySorted_inv in Hs as [Hs Hall].
    constructor; [by apply IH|]. rewrite Forall_fmap in Hall. eapply Forall_impl; [exact Hall|]. intros q Hq.
    unfold entry_le, key_le, key_leb, Z_key_order. by apply Z.leb_le.
  - rewrite entries_perm. by apply map_to_list_to_map.
Qed.

Lemma ascending_entries (m : gmap Z bytes) : ascending None (entries m).*1.
Proof.
  apply ascending_spec. split; [|done]. apply StronglySorted_le_lt; [|apply entries_NoDup].
  generalize (entries_sorted m). generalize (entries m). intros l Hl.
  induction Hl as [|p l Hl IH Hall]; [constructor|]. rewrite fmap_cons. constructor; [done|]. apply Forall_fmap.
  eapply Forall_impl; [exact Hall|]. intros q. unfold entry_le, key_le, key_leb, Z_key_order. apply Z.leb_le.
Qed.
