(* ===== verification/ArchiveExact.v ===== *)
(** * Archives and tokenizers correspond

    The archives that [from_bytes] accepts for a profile are exactly those that
    [to_bytes] writes for the tokenizers of that profile. *)

From Stdlib Require Import Strings.Byte.
From stdpp Require Import base tactics numbers list gmap.
From S2P Require Import Prelude Bytes Reads Judgment Tokens SpecialTokens SpecialLinks SpecialExact Pretokenizer Bpe BpeData.
From S2P Require Import Archive ArchiveReads EncodeExact.

Local Open Scope Z_scope.
#[local] Arguments be_bytes : simpl never.

(** ** The tokenizers *)

Record made (profile : DecoderProfile) (vocabulary : list TokenBytes) (merges : list Merge) (names : gmap Z bytes)
    (mode : PreTokenization) (bos : option Z) (merge_policy : MergePolicy) (d : ByteBpe) : Prop := {
  md_profile : bb_profile d = profile;
  md_vocabulary : bb_vocabulary d = vocabulary;
  md_merges : bb_merges d = merges;
  md_names : sp_names (bb_special d) = names;
  md_mode : bb_pre_tokenization d = mode;
  md_bos : bb_bos_token d = bos;
  md_policy : bb_merge_policy d = merge_policy;
}.

(** The constructor that the reader of an archive calls. *)
Definition construct (profile : DecoderProfile) (vocabulary : list TokenBytes) (merges : list Merge) (names : gmap Z bytes)
    (mode : PreTokenization) (bos : option Z) (merge_policy : MergePolicy) : res Error ByteBpe :=
  match bos with
  | Some bos => new_with_bos_token_and_merge_policy profile vocabulary merges names bos merge_policy
  | None => new_with_merge_policy profile vocabulary merges names mode merge_policy
  end.

Lemma new_inner_made profile vocabulary merges merge_policy d :
  new_inner profile vocabulary merges merge_policy = Ok d →
  made profile vocabulary merges ∅ RawBytes None merge_policy d ∧ bb_special d = default_special_tokens.
Proof.
  unfold new_inner. rewrite !refuse_ok. intros (_ & _ & _ & H).
  apply then_ok in H as ([controls longest] & _ & H). apply then_ok in H as ([singletons available] & _ & H).
  rewrite refuse_ok in H. destruct H as [_ H]. apply then_ok in H as ([ranks available'] & _ & H).
  rewrite refuse_ok in H. destruct H as [_ H]. destruct (mapM id singletons); [|done]. by injection H as <-.
Qed.

Lemma new_with_merge_policy_made profile vocabulary merges names mode merge_policy d :
  new_with_merge_policy profile vocabulary merges names mode merge_policy = Ok d →
  made profile vocabulary merges names mode None merge_policy d.
Proof.
  intros H. apply then_ok in H as (special & Hs%special_tokens_names & H).
  apply then_ok in H as (d0 & [[] _]%new_inner_made & [= <-]). by split.
Qed.

Lemma construct_made profile vocabulary merges names mode bos merge_policy d :
  (is_Some bos → mode = Llama3Unicode17) → construct profile vocabulary merges names mode bos merge_policy = Ok d →
  made profile vocabulary merges names mode bos merge_policy d.
Proof.
  intros Hmode. destruct bos as [bos|]; simpl; [|apply new_with_merge_policy_made].
  unfold new_with_bos_token_and_merge_policy. rewrite refuse_ok. intros [_ H].
  apply then_ok in H as (d0 & []%new_with_merge_policy_made & [= <-]). rewrite Hmode by done. by split.
Qed.

Lemma construct_constructed profile vocabulary merges names mode bos merge_policy d :
  construct profile vocabulary merges names mode bos merge_policy = Ok d → constructed d.
Proof. destruct bos; [apply constructed_bos|apply constructed_policy]. Qed.

(** Every tokenizer is what that constructor makes of its own parts. *)
Definition reconstructed (d : ByteBpe) : Prop :=
  construct (bb_profile d) (bb_vocabulary d) (bb_merges d) (sp_names (bb_special d)) (bb_pre_tokenization d)
    (bb_bos_token d) (bb_merge_policy d) = Ok d ∧
  (is_Some (bb_bos_token d) → bb_pre_tokenization d = Llama3Unicode17 ∧ sp_names (bb_special d) ≠ ∅).

Lemma special_tokens_none vocabulary : special_tokens_new vocabulary ∅ = Ok default_special_tokens.
Proof. reflexivity. Qed.

Lemma made_reconstructed profile vocabulary merges names mode bos merge_policy d :
  made profile vocabulary merges names mode bos merge_policy d →
  construct profile vocabulary merges names mode bos merge_policy = Ok d →
  (is_Some bos → mode = Llama3Unicode17 ∧ names ≠ ∅) → reconstructed d.
Proof. unfold reconstructed. by intros [-> -> -> -> -> -> ->]. Qed.

Lemma plain_as_policy profile vocabulary merges names mode d special :
  special_tokens_new vocabulary names = Ok special → new_inner profile vocabulary merges RankedOnly = Ok d →
  new_with_merge_policy profile vocabulary merges names mode RankedOnly = Ok (set_pre_tokenization mode (set_special special d)).
Proof. intros Hs Hd. unfold new_with_merge_policy. by rewrite Hs, Hd. Qed.

Lemma constructed_reconstructed d : constructed d → reconstructed d.
Proof.
  assert (∀ profile vocabulary merges names mode merge_policy d,
    new_with_merge_policy profile vocabulary merges names mode merge_policy = Ok d → reconstructed d) as Hpolicy.
  { intros. eapply (made_reconstructed _ _ _ _ _ None); [by apply new_with_merge_policy_made|done|by intros []]. }
  destruct 1 as [p v m d H|p v m n d H|p v m n pt d H|p v m n pt pol d H|p v m n bos pol d H].
  - assert (set_pre_tokenization RawBytes (set_special default_special_tokens d) = d) as Heq.
    { destruct (new_inner_made _ _ _ _ _ H) as [[] Hs]. destruct d; simpl in *; by subst. }
    eapply Hpolicy. rewrite (plain_as_policy p v m ∅ RawBytes d default_special_tokens); [by rewrite Heq|done|done].
  - apply then_ok in H as (s & Hs & H). apply then_ok in H as (d0 & H0 & [= <-]).
    assert (set_pre_tokenization RawBytes (set_special s d0) = set_special s d0) as Heq.
    { destruct (new_inner_made _ _ _ _ _ H0) as [[] _]. destruct d0; simpl in *; by subst. }
    eapply Hpolicy. rewrite (plain_as_policy p v m n RawBytes d0 s); [by rewrite Heq|done|done].
  - apply then_ok in H as (d1 & H & [= <-]). apply then_ok in H as (s & Hs & H). apply then_ok in H as (d0 & H0 & [= <-]).
    eapply Hpolicy, (plain_as_policy p v m n pt d0 s); done.
  - by eapply Hpolicy.
  - eapply (made_reconstructed _ _ _ _ _ (Some bos)); [by apply construct_made|done|]. intros _. split; [done|].
    unfold new_with_bos_token_and_merge_policy in H. rewrite refuse_ok in H. destruct H as [Hbos _].
    apply orb_false_iff in Hbos as [_ Hbos%negb_false_iff%bool_decide_eq_true]. intros ->. rewrite lookup_empty in Hbos. by destruct Hbos.
Qed.

(** ** What a constructor leaves *)

Definition tokenizer_typed (d : ByteBpe) : Prop :=
  Forall merge_typed (bb_merges d) ∧ map_Forall (λ id _, is_u32 id) (sp_names (bb_special d)) ∧
  from_option is_u32 True (bb_bos_token d).

Lemma measure_vocabulary_fits id vocabulary total controls longest r :
  measure_vocabulary id vocabulary total controls longest = Ok r → tokens_fit total vocabulary.
Proof.
  revert id total controls longest. induction vocabulary as [|[value|] vocabulary IH]; intros id total controls longest; simpl; [done|..].
  - rewrite !refuse_ok, bool_decide_eq_false, Z.ltb_ge. intros (Hne & Hmax & H).
    apply then_ok in H as (total' & Hadd & H). apply ok_or_ok in Hadd. unfold u64_checked_add in Hadd.
    case_match; [|done]. injection Hadd as <-. rewrite refuse_ok, Z.ltb_ge in H. destruct H as [Hall H%IH]. done.
  - rewrite refuse_ok. intros [_ H]. by eapply IH.
Qed.

Lemma check_names_fit vocabulary total names total' :
  check_names vocabulary total names = Ok total' → Forall (λ p, is_u32 p.1) names → names_fit vocabulary total names.
Proof.
  revert total. induction names as [|[id name] names IH]; intros total; cbn [check_names names_fit]; [done|].
  rewrite !refuse_ok, negb_false_iff, bool_decide_eq_true, bool_decide_eq_false, Z.ltb_ge. intros (Hc & Hne & Hmax & H) Hall.
  apply Forall_cons in Hall as [Hid Hall]. apply then_ok in H as (t & Hadd & H). apply ok_or_ok in Hadd. unfold u64_checked_add in Hadd.
  case_match; [|done]. injection Hadd as <-. rewrite refuse_ok, Z.ltb_ge in H. destruct H as [Htot H]. split_and!; try done. by apply IH.
Qed.

Record within_limits (d : ByteBpe) : Prop := {
  wl_shape : len (bb_vocabulary d) = ds_vocabulary (dp_shape (bb_profile d));
  wl_least : 256 ≤ len (bb_vocabulary d);
  wl_most : len (bb_vocabulary d) ≤ MAX_DECODER_VOCABULARY;
  wl_tokens : tokens_fit 0 (bb_vocabulary d);
  wl_merges : len (bb_merges d) ≤ MAX_MERGES;
  wl_controls : len (entries (sp_names (bb_special d))) ≤ MAX_CONTROL_TOKENS;
  wl_names : map_Forall (λ id _, is_u32 id) (sp_names (bb_special d)) →
    names_fit (bb_vocabulary d) 0 (entries (sp_names (bb_special d)));
  wl_bos : from_option (λ bos, vocabulary_get (bb_vocabulary d) bos = Some Control) True (bb_bos_token d);
}.

Lemma new_inner_limits profile vocabulary merges merge_policy d :
  new_inner profile vocabulary merges merge_policy = Ok d →
  len vocabulary = ds_vocabulary (dp_shape profile) ∧ 256 ≤ len vocabulary ∧ len vocabulary ≤ MAX_DECODER_VOCABULARY ∧
  tokens_fit 0 vocabulary ∧ len merges ≤ MAX_MERGES.
Proof.
  unfold new_inner. rewrite !refuse_ok, orb_false_iff, !Z.ltb_ge, negb_false_iff, Z.eqb_eq. intros (Hs & Hl & [Hm Hr] & H).
  apply then_ok in H as (r & Hmeasure%measure_vocabulary_fits & _). done.
Qed.

Lemma special_tokens_fit vocabulary names special :
  special_tokens_new vocabulary names = Ok special → len (entries names) ≤ MAX_CONTROL_TOKENS ∧
  (map_Forall (λ id _, is_u32 id) names → names_fit vocabulary 0 (entries names)).
Proof.
  unfold special_tokens_new. rewrite refuse_ok, Z.ltb_ge. intros [Hsize H]. unfold len. rewrite entries_length. split; [done|].
  intros Hall. apply then_ok in H as (t & Hcheck & _). eapply check_names_fit; [done|].
  by apply (Forall_entries (λ id _, is_u32 id)).
Qed.

Lemma constructed_within d : constructed d → within_limits d.
Proof.
  intros Hc. pose proof (constructed_reconstructed d Hc) as [H _]. apply constructed_admitted in Hc as Hd. pose proof (ad_bos _ Hd) as Hbos.
  assert (∃ special d0, special_tokens_new (bb_vocabulary d) (sp_names (bb_special d)) = Ok special ∧
    new_inner (bb_profile d) (bb_vocabulary d) (bb_merges d) (bb_merge_policy d) = Ok d0) as (special & d0 & Hs & H0).
  { unfold construct in H. destruct (bb_bos_token d).
    - unfold new_with_bos_token_and_merge_policy in H. rewrite refuse_ok in H. destruct H as [_ H].
      apply then_ok in H as (d1 & H & _). apply then_ok in H as (s & Hs & H). apply then_ok in H as (d0 & H0 & _). eauto.
    - apply then_ok in H as (s & Hs & H). apply then_ok in H as (d0 & H0 & _). eauto. }
  apply new_inner_limits in H0 as (? & ? & ? & ? & ?). apply special_tokens_fit in Hs as [? ?]. split; try done.
  destruct (bb_bos_token d) as [bos|]; [|done]. by apply Hbos.
Qed.

(** ** The writer *)

Definition is_named (d : ByteBpe) : bool := negb (bool_decide (sp_names (bb_special d) = ∅)).
Definition is_scaled (d : ByteBpe) : bool := bool_decide (is_Some (rotary_binding_bytes (dp_rotary_scaling (bb_profile d)))).

Definition named_word (names : list (Z * bytes)) : bytes := be_bytes 4 (len names) ++ concat (name_bytes <$> names).

(** The tables of an archive. *)
Definition tables_word (d : ByteBpe) : bytes :=
  concat (token_bytes <$> bb_vocabulary d) ++ be_bytes 4 (len (bb_merges d)) ++ concat (merge_bytes <$> bb_merges d)
  ++ (if is_named d then named_word (entries (sp_names (bb_special d))) else []).

Lemma len_cons_Z {A} (x : A) l : len (x :: l) = 1 + len l.
Proof. unfold len. simpl. lia. Qed.
Lemma len_be_bytes n z : len (be_bytes n z) = Z.of_nat n.
Proof. unfold len. by rewrite length_be_bytes. Qed.

Lemma len_token_bytes entry : len (token_bytes entry) = match entry with Control => 1 | Content value => 5 + len value end.
Proof. destruct entry as [value|]; cbn [token_bytes]; [|done]. rewrite len_cons_Z, len_app, len_be_bytes. lia. Qed.
Lemma len_name_bytes entry : len (name_bytes entry) = 8 + len entry.2.
Proof. unfold name_bytes. rewrite !len_app, !len_be_bytes. lia. Qed.
Lemma len_merge_table merges : len (concat (merge_bytes <$> merges)) = 12 * len merges.
Proof.
  induction merges as [|rule merges IH]; [done|]. rewrite fmap_cons, concat_cons, len_app, IH, merge_bytes_eq, !len_app, !len_be_bytes, len_cons_Z. lia.
Qed.

Lemma count_vocabulary_ok count vocabulary :
  count + len (concat (token_bytes <$> vocabulary)) ≤ U64_MAX →
  count_vocabulary count vocabulary = Ok (count + len (concat (token_bytes <$> vocabulary))).
Proof.
  revert count. induction vocabulary as [|entry vocabulary IH]; intros count; cbn [count_vocabulary].
  { intros _. rewrite Z.add_0_r. done. }
  rewrite fmap_cons, concat_cons, len_app, <-len_token_bytes. intros H. pose proof (len_nonneg (concat (token_bytes <$> vocabulary))).
  rewrite u64_checked_add_fits by lia. cbn [ok_or mbind res_bind mret res_ret]. rewrite IH by lia. f_equal. lia.
Qed.

Lemma count_vocabulary_inv count vocabulary r :
  count_vocabulary count vocabulary = Ok r → r = count + len (concat (token_bytes <$> vocabulary)).
Proof.
  revert count. induction vocabulary as [|entry vocabulary IH]; intros count; cbn [count_vocabulary].
  { intros [= <-]. by rewrite Z.add_0_r. }
  intros (c & Hc & H)%then_ok. apply ok_or_ok in Hc. unfold u64_checked_add in Hc. case_match; [|done]. injection Hc as <-.
  apply IH in H as ->. rewrite fmap_cons, concat_cons, len_app, <-len_token_bytes. lia.
Qed.

Lemma count_names_ok count (names : list (Z * bytes)) :
  count + len (concat (name_bytes <$> names)) ≤ U64_MAX →
  count_names count names.*2 = Ok (count + len (concat (name_bytes <$> names))).
Proof.
  revert count. induction names as [|entry names IH]; intros count; [|rewrite !fmap_cons; cbn [count_names]].
  { intros _. rewrite Z.add_0_r. done. }
  rewrite concat_cons, len_app, len_name_bytes. intros H. pose proof (len_nonneg (concat (name_bytes <$> names))).
  rewrite u64_checked_add_fits by lia. cbn [ok_or mbind res_bind mret res_ret]. rewrite IH by lia. f_equal. lia.
Qed.

Lemma count_names_inv count (names : list (Z * bytes)) r :
  count_names count names.*2 = Ok r → r = count + len (concat (name_bytes <$> names)).
Proof.
  revert count. induction names as [|entry names IH]; intros count; [|rewrite !fmap_cons; cbn [count_names]].
  { intros [= <-]. by rewrite Z.add_0_r. }
  intros (c & Hc & H)%then_ok. apply ok_or_ok in Hc. unfold u64_checked_add in Hc. case_match; [|done]. injection Hc as <-.
  apply IH in H as ->. rewrite concat_cons, len_app, len_name_bytes. lia.
Qed.

Lemma len_binding merge_policy mode named scaled bos binding :
  archive_binding merge_policy mode named scaled bos = Ok binding →
  len binding = if bool_decide (merge_policy = WholePieceFirst) then WHOLE_PIECE_BINDING_BYTES
                else if negb (bool_decide (mode = RawBytes)) then UNICODE_BINDING_BYTES else 0.
Proof. by destruct merge_policy, mode, named, scaled, bos; intros [= <-]. Qed.

Definition archive_word (d : ByteBpe) (binding : bytes) : bytes :=
  put_domain (archive_domain (bb_merge_policy d) (bb_pre_tokenization d) (is_named d) (is_scaled d)
    (bool_decide (is_Some (bb_bos_token d)))) (header (bb_profile d))
  ++ binding ++ from_option (be_bytes 4) [] (bb_bos_token d)
  ++ default [] (rotary_binding_bytes (dp_rotary_scaling (bb_profile d))) ++ tables_word d.

Definition counted (d : ByteBpe) : Z :=
  HEADER_BYTES + from_option len 0 (rotary_binding_bytes (dp_rotary_scaling (bb_profile d)))
  + (if bool_decide (bb_merge_policy d = WholePieceFirst) then WHOLE_PIECE_BINDING_BYTES
     else if negb (bool_decide (bb_pre_tokenization d = RawBytes)) then UNICODE_BINDING_BYTES else 0)
  + (if bool_decide (is_Some (bb_bos_token d)) then 4 else 0) + 4 + 12 * len (bb_merges d).

Lemma len_archive_word d binding :
  archive_binding (bb_merge_policy d) (bb_pre_tokenization d) (is_named d) (is_scaled d) (bool_decide (is_Some (bb_bos_token d))) = Ok binding →
  len (archive_word d binding) = counted d + len (concat (token_bytes <$> bb_vocabulary d))
    + (if is_named d then 4 + len (concat (name_bytes <$> entries (sp_names (bb_special d)))) else 0).
Proof.
  intros Hb%len_binding. unfold archive_word, tables_word, named_word, counted. rewrite !len_app, length_put_domain, Hb, len_be_bytes, len_merge_table.
  assert (len (from_option (be_bytes 4) [] (bb_bos_token d)) = if bool_decide (is_Some (bb_bos_token d)) then 4 else 0) as ->.
  { destruct (bb_bos_token d); [|done]. apply len_be_bytes. }
  assert (len (default [] (rotary_binding_bytes (dp_rotary_scaling (bb_profile d)))) =
    from_option len 0 (rotary_binding_bytes (dp_rotary_scaling (bb_profile d)))) as -> by (by destruct (rotary_binding_bytes _)).
  destruct (is_named d); rewrite ?len_app, ?len_be_bytes; [lia|]. change (len (@nil byte)) with 0. lia.
Qed.

Lemma counted_nonneg d : 0 ≤ counted d.
Proof.
  unfold counted, HEADER_BYTES, WHOLE_PIECE_BINDING_BYTES, UNICODE_BINDING_BYTES. pose proof (len_nonneg (bb_merges d)).
  assert (0 ≤ from_option len 0 (rotary_binding_bytes (dp_rotary_scaling (bb_profile d)))).
  { destruct (rotary_binding_bytes _); [apply len_nonneg|done]. }
  repeat case_match; lia.
Qed.

(** The writer writes this word, if a file may be that long. *)
Lemma to_bytes_iff d archive :
  to_bytes d = Ok archive ↔ len archive ≤ MAX_FILE_BYTES ∧ ∃ binding,
    archive_binding (bb_merge_policy d) (bb_pre_tokenization d) (is_named d) (is_scaled d) (bool_decide (is_Some (bb_bos_token d))) = Ok binding ∧
    archive = archive_word d binding.
Proof.
  pose proof (counted_nonneg d) as Hpos. unfold to_bytes. cbn zeta. fold (is_named d) (is_scaled d). fold (counted d).
  set (V := concat (token_bytes <$> bb_vocabulary d)). set (N := concat (name_bytes <$> entries (sp_names (bb_special d)))).
  pose proof (len_nonneg V) as HV. pose proof (len_nonneg N) as HN.
  assert (MAX_FILE_BYTES + 12 ≤ U64_MAX) as Hroom by (vm_compute; discriminate). split.
  - intros (c1 & H1%count_vocabulary_inv & H)%then_ok. apply then_ok in H as (c2 & H2 & H). rewrite refuse_ok, Z.ltb_ge in H.
    destruct H as [Hmax H]. apply then_ok in H as (binding & Hb & [= <-]).
    assert (c2 = len (archive_word d binding)) as Hc.
    { rewrite (len_archive_word d binding Hb). fold V N. fold V in H1. destruct (is_named d); [|injection H2 as <-; lia].
      apply then_ok in H2 as (c3 & Hc3%ok_or_ok & H2%count_names_inv). unfold u64_checked_add in Hc3. case_match; [|done].
      injection Hc3 as <-. fold N in H2. lia. }
    subst c2. split; [exact Hmax|]. by exists binding.
  - intros (Hmax & binding & Hb & ->). rewrite (len_archive_word d binding Hb) in Hmax. fold V N in Hmax.
    rewrite count_vocabulary_ok by (fold V; destruct (is_named d); lia). fold V. cbn [mbind res_bind].
    assert ((if is_named d then count ← ok_or (u64_checked_add (counted d + len V) 4) Limit; count_names count (entries (sp_names (bb_special d))).*2
      else mret (counted d + len V)) = Ok (counted d + len V + if is_named d then 4 + len N else 0)) as ->.
    { destruct (is_named d); [|by rewrite Z.add_0_r]. rewrite u64_checked_add_fits by lia. cbn [ok_or mbind res_bind mret res_ret].
      rewrite count_names_ok by (fold N; lia). fold N. f_equal. lia. }
    cbn [mbind res_bind]. rewrite (proj2 (Z.ltb_ge _ _)) by lia. cbn [refuse_if mbind res_bind mret res_ret]. by rewrite Hb.
Qed.

(** ** The reader *)

Lemma read_named_iff vocabulary cur names rest :
  read_named vocabulary cur = (Ok names, rest) ↔
  rest = [] ∧ names ≠ ∅ ∧ len (entries names) ≤ MAX_CONTROL_TOKENS ∧ names_fit vocabulary 0 (entries names) ∧
  cur = named_word (entries names).
Proof.
  unfold read_named, named_word. rewrite (run_reads archive_u32). split.
  - intros (count & ? & mid & [Hc ->] & -> & H). apply run_refuse in H as [Hne%Z.eqb_neq H]. apply run_refuse in H as [Hmax%Z.ltb_ge H].
    apply (run_reads (read_names _ _ _ _ _)) in H as (names' & w & mid' & (l & Hlen & Hasc & Hfit & -> & ->) & -> & H).
    apply run_get, run_refuse in H as [->%negb_false_iff%bool_decide_eq_true H]. injection H as <- <-.
    rewrite (right_id_L ∅ (∪)), entries_of_ascending by done. unfold is_u32 in Hc.
    assert (len l = count) as <- by (unfold len; lia). rewrite app_nil_r. split_and!; try done.
    intros Hnone. apply Hne. apply (f_equal entries) in Hnone. rewrite entries_of_ascending in Hnone by done. by rewrite Hnone.
  - intros (-> & Hne & Hmax & Hfit & ->). exists (len (entries names)), (be_bytes 4 (len (entries names))). eexists.
    pose proof (len_nonneg (entries names)). unfold MAX_CONTROL_TOKENS in *. split; [unfold is_u32; split; [lia|done]|]. split; [done|].
    apply run_refuse. split.
    { apply Z.eqb_neq. unfold len. rewrite entries_length. intros Hz. apply Hne, map_size_empty_inv. lia. }
    apply run_refuse. split; [by apply Z.ltb_ge|]. apply (run_reads (read_names _ _ _ _ _)). exists names. eexists _, []. rewrite app_nil_r.
    split; [|by split]. exists (entries names). split_and!; [unfold len; lia|apply ascending_entries|done| |done].
    rewrite (right_id_L ∅ (∪)). apply list_to_map_flip. by rewrite entries_perm.
Qed.

(** What an archive consists of, for the reader. *)
Definition archive_of (profile : DecoderProfile) (archive : bytes) (d : ByteBpe) : Prop :=
  ∃ named mode merge_policy bos w vocabulary merges names,
    profile_word profile (named, mode, merge_policy, bos) w ∧ 256 ≤ ds_vocabulary (dp_shape profile) ∧
    length vocabulary = Z.to_nat (ds_vocabulary (dp_shape profile)) ∧ tokens_fit 0 vocabulary ∧
    len merges ≤ MAX_MERGES ∧ Forall merge_typed merges ∧
    (if named then names ≠ ∅ ∧ len (entries names) ≤ MAX_CONTROL_TOKENS ∧ names_fit vocabulary 0 (entries names) else names = ∅) ∧
    archive = w ++ concat (token_bytes <$> vocabulary) ++ be_bytes 4 (len merges) ++ concat (merge_bytes <$> merges)
      ++ (if named then named_word (entries names) else []) ∧
    construct profile vocabulary merges names mode bos merge_policy = Ok d.

Lemma unnamed_no_bos profile mode merge_policy bos w :
  profile_word profile (false, mode, merge_policy, bos) w → bos = None.
Proof.
  intros (binding & Hb & Hraw & _). destruct bos as [bos|]; [|done]. exfalso.
  destruct merge_policy, mode; try done. by specialize (Hraw eq_refl eq_refl).
Qed.

Lemma named_word_long names : 4 ≤ len (named_word names).
Proof. unfold named_word. rewrite len_app, len_be_bytes. pose proof (len_nonneg (concat (name_bytes <$> names))). lia. Qed.

Lemma read_archive_iff profile archive d rest :
  read_archive profile archive = (Ok d, rest) ↔ rest = [] ∧ archive_of profile archive d.
Proof.
  unfold read_archive, archive_of. rewrite (run_reads (read_profile profile)). split.
  - intros ([[[named mode] merge_policy] bos] & w & mid & Hw & -> & H).
    apply run_refuse in H as [Hleast%Z.ltb_ge H].
    apply (run_reads (read_tokens _ _)) in H as (vocabulary & ? & ? & (Hv & Hfit & ->) & -> & H).
    apply (run_reads archive_u32) in H as (count & ? & ? & [Hc ->] & -> & H). apply run_refuse in H as [Hmax%Z.ltb_ge H].
    apply run_get, run_refuse in H as [Hremaining H]. unfold is_u32 in Hc.
    apply (run_reads (read_merges _)) in H as (merges & ? & tail & (Hm & Htyped & ->) & -> & H).
    assert (len merges = count) as <- by (unfold len; lia).
    destruct named; cbn [negb] in H.
    + apply run_then in H as (names & mid & (-> & Hne & Hcount & Hnames & ->)%read_named_iff & H).
      apply run_lift in H as [H ->]. split; [done|].
      exists true, mode, merge_policy, bos, w, vocabulary, merges, names. by split_and!.
    + apply run_lift in H as [H ->]. apply orb_false_iff in Hremaining as [Hremaining%negb_false_iff%Z.eqb_eq _].
      rewrite len_app, len_merge_table in Hremaining. assert (tail = []) as -> by (apply len_zero; lia). split; [done|].
      pose proof (unnamed_no_bos _ _ _ _ _ Hw) as ->.
      exists false, mode, merge_policy, None, w, vocabulary, merges, ∅. by split_and!.
  - intros (-> & named & mode & merge_policy & bos & w & vocabulary & merges & names & Hw & Hleast & Hv & Hfit & Hmax & Htyped & Hnames & -> & H).
    exists (named, mode, merge_policy, bos), w. eexists. split; [done|]. split; [done|].
    apply run_refuse. split; [by apply Z.ltb_ge|].
    apply (run_reads (read_tokens _ _)). exists vocabulary. do 2 eexists. split; [done|]. split; [done|].
    apply (run_reads archive_u32). exists (len merges). do 2 eexists. pose proof (len_nonneg merges). split.
    { split; [|done]. unfold is_u32, MAX_MERGES in *. lia. }
    split; [done|]. apply run_refuse. split; [by apply Z.ltb_ge|].
    apply run_get, run_refuse. split.
    { rewrite len_app, len_merge_table. pose proof (named_word_long (entries names)).
      destruct named; [|change (len (@nil byte)) with 0]; apply orb_false_iff; cbn [negb andb]; split; lia. }
    apply (run_reads (read_merges _)). exists merges. do 2 eexists. split; [split_and!; [unfold len; lia|done|done]|]. split; [done|].
    destruct named; cbn [negb].
    + destruct Hnames as (Hne & Hcount & Hnames). apply run_then. exists names, []. split; [by apply read_named_iff|].
      by apply run_lift.
    + subst names. pose proof (unnamed_no_bos _ _ _ _ _ Hw) as ->. by apply run_lift.
Qed.

(** ** Correspondence *)

Lemma binding_bos merge_policy mode named scaled binding :
  archive_binding merge_policy mode named scaled true = Ok binding → (merge_policy = RankedOnly → mode ≠ RawBytes) →
  mode = Llama3Unicode17 ∧ named = true.
Proof. destruct merge_policy, mode, named; try done; intros _ H; by destruct (H eq_refl). Qed.

Lemma names_fit_typed vocabulary retained names : names_fit vocabulary retained names → Forall (λ p, is_u32 p.1) names.
Proof.
  revert retained. induction names as [|[id name] names IH]; intros retained; [constructor|].
  intros (Hid & _ & _ & _ & _ & Hrest). constructor; [done|by eapply IH].
Qed.

Lemma archive_of_sound profile archive d :
  archive_of profile archive d → constructed d ∧ tokenizer_typed d ∧ bb_profile d = profile ∧
  (len archive ≤ MAX_FILE_BYTES → to_bytes d = Ok archive).
Proof.
  intros (named & mode & merge_policy & bos & w & vocabulary & merges & names & (binding & Hb & Hraw & Hbos & ->) & _ & _ & _ & _ & Htyped &
    Hnames & -> & H).
  assert (is_Some bos → mode = Llama3Unicode17) as Hmode.
  { intros Hsome. rewrite (bool_decide_eq_true_2 _ Hsome) in Hb. apply binding_bos in Hb as [? _]; [done|].
    intros Hr Hm. rewrite (Hraw Hr Hm) in Hsome. by destruct Hsome. }
  pose proof (construct_made _ _ _ _ _ _ _ _ Hmode H) as [Hp Hv Hm Hn Hmd Hbs Hpol].
  assert (is_named d = named) as Hnamed.
  { unfold is_named. rewrite Hn. destruct named.
    - destruct Hnames as [Hne _]. by rewrite bool_decide_eq_false_2.
    - by rewrite bool_decide_eq_true_2. }
  split_and!; [by eapply construct_constructed| |done|].
  - split_and!; [by rewrite Hm| |].
    + rewrite Hn. destruct named; [|subst; by apply map_Forall_empty]. destruct Hnames as (_ & _ & Hfit%names_fit_typed).
      rewrite Forall_forall in Hfit. intros id name Hid%elem_of_entries. by apply (Hfit (id, name)).
    + rewrite Hbs. destruct bos; [|done]. apply Hbos.
  - intros Hlen. apply to_bytes_iff. split; [done|]. exists binding. unfold archive_word, tables_word, is_scaled.
    rewrite Hpol, Hmd, Hnamed, Hbs, Hp, Hv, Hm, Hn. split; [exact Hb|]. by rewrite <-!app_assoc.
Qed.

Lemma archive_of_complete archive d :
  constructed d → tokenizer_typed d → to_bytes d = Ok archive → archive_of (bb_profile d) archive d.
Proof.
  intros Hc (Hmerges & Hids & Hbos) (Hlen & binding & Hb & ->)%to_bytes_iff.
  pose proof (constructed_within d Hc) as [Hshape Hleast _ Hfit Hmax Hcount Hnames Hctl]. specialize (Hnames Hids).
  destruct (constructed_reconstructed d Hc) as [Hself Hauto].
  exists (is_named d), (bb_pre_tokenization d), (bb_merge_policy d), (bb_bos_token d). eexists.
  exists (bb_vocabulary d), (bb_merges d), (sp_names (bb_special d)). split_and!.
  - exists binding. split_and!; [exact Hb| |  |reflexivity].
    + intros _ Hraw. destruct (bb_bos_token d) as [bos|]; [|done]. destruct (Hauto (mk_is_Some _ _ eq_refl)) as [? _]. congruence.
    + destruct (bb_bos_token d) as [bos|]; [|done]. simpl in *. split; [done|]. unfold vocabulary_get in Hctl.
      apply lookup_lt_Some in Hctl. rewrite <-Hshape. unfold len, is_u32 in *. lia.
  - by rewrite <-Hshape.
  - rewrite <-Hshape. unfold len. lia.
  - done.
  - done.
  - done.
  - unfold is_named. destruct (decide (sp_names (bb_special d) = ∅)) as [Hnone|Hnone].
    + by rewrite (bool_decide_eq_true_2 _ Hnone).
    + rewrite (bool_decide_eq_false_2 _ Hnone). by split_and!.
  - unfold archive_word, tables_word, is_scaled. by rewrite <-!app_assoc.
  - done.
Qed.

Lemma from_bytes_iff profile archive d :
  from_bytes profile archive = Ok d ↔ constructed d ∧ tokenizer_typed d ∧ bb_profile d = profile ∧ to_bytes d = Ok archive.
Proof.
  unfold from_bytes. rewrite refuse_ok, Z.ltb_ge. split.
  - intros [Hlen H]. destruct (read_archive profile archive) as [r rest] eqn:E. simpl in H. subst r.
    apply read_archive_iff in E as [_ (Hc & Ht & Hp & Hto)%archive_of_sound]. by split_and!; auto.
  - intros (Hc & Ht & <- & Hto). split; [by apply to_bytes_iff in Hto as [? _]|].
    apply (archive_of_complete archive d Hc Ht) in Hto. assert (read_archive (bb_profile d) archive = (Ok d, [])) as -> by (by apply read_archive_iff). done.
Qed.

(** ** Every tokenizer fits into a file *)

Fixpoint control_positions (i : nat) (vocabulary : list TokenBytes) : list nat :=
  match vocabulary with
  | [] => []
  | Control :: vocabulary => i :: control_positions (S i) vocabulary
  | Content _ :: vocabulary => control_positions (S i) vocabulary
  end.

Lemma elem_of_control_positions i k vocabulary : vocabulary !! k = Some Control → (i + k)%nat ∈ control_positions i vocabulary.
Proof.
  revert i k. induction vocabulary as [|[value|] vocabulary IH]; intros i [|k] Hk; simpl in *; try done.
  - rewrite Nat.add_succ_r. by apply (IH (S i)).
  - rewrite Nat.add_0_r. left.
  - right. rewrite Nat.add_succ_r. by apply (IH (S i)).
Qed.

Lemma names_are_controls vocabulary retained (names : list (Z * bytes)) :
  names_fit vocabulary retained names → NoDup names.*1 → (length names ≤ length (control_positions 0 vocabulary))%nat.
Proof.
  intros Hfit Hnd.
  assert (∀ retained l, names_fit vocabulary retained l → Forall (λ id, is_u32 id ∧ vocabulary_get vocabulary id = Some Control) l.*1) as Hall.
  { intros r l. revert r. induction l as [|[id name] l IH]; intros r; [constructor|]. intros (? & ? & _ & _ & _ & Hrest). constructor; [done|by eapply IH]. }
  apply Hall in Hfit. rewrite <-(length_fmap fst), <-(length_fmap Z.to_nat names.*1). apply submseteq_length, NoDup_submseteq.
  - apply NoDup_fmap_2_strong; [|done]. rewrite Forall_forall in Hfit. intros x y Hx%Hfit Hy%Hfit. unfold is_u32 in *. lia.
  - intros k (id & -> & Hid)%list_elem_of_fmap. rewrite Forall_forall in Hfit. destruct (Hfit id Hid) as [_ Hc].
    by apply (elem_of_control_positions 0).
Qed.

Lemma len_token_table retained vocabulary :
  retained ≤ MAX_VOCABULARY_BYTES → tokens_fit retained vocabulary →
  retained + len (concat (token_bytes <$> vocabulary)) + 4 * Z.of_nat (length (control_positions 0 vocabulary)) ≤
  MAX_VOCABULARY_BYTES + 5 * len vocabulary.
Proof.
  generalize 0%nat as i. revert retained. induction vocabulary as [|[value|] vocabulary IH]; intros retained i Hr; cbn [tokens_fit control_positions].
  - intros _. unfold len. simpl. lia.
  - intros (_ & _ & Hmax & Hfit). specialize (IH _ (S i) Hmax Hfit). rewrite fmap_cons, concat_cons, len_app, len_token_bytes, len_cons_Z. lia.
  - intros Hfit. specialize (IH _ (S i) Hr Hfit). rewrite fmap_cons, concat_cons, len_app, len_token_bytes, len_cons_Z. cbn [length]. lia.
Qed.

Lemma len_name_table vocabulary retained names :
  retained ≤ MAX_SPECIAL_TOKEN_BYTES → names_fit vocabulary retained names →
  retained + len (concat (name_bytes <$> names)) ≤ MAX_SPECIAL_TOKEN_BYTES + 8 * len names.
Proof.
  revert retained. induction names as [|[id name] names IH]; intros retained Hr; cbn [names_fit].
  - intros _. unfold len. simpl. lia.
  - intros (_ & _ & _ & _ & Hmax & Hfit). specialize (IH _ Hmax Hfit). rewrite fmap_cons, concat_cons, len_app, len_name_bytes, len_cons_Z.
    cbn [snd]. lia.
Qed.

Lemma len_scaling scaling : from_option len 0 (rotary_binding_bytes scaling) ≤ 40.
Proof. destruct scaling; cbn [rotary_binding_bytes from_option fmap list_fmap concat]; rewrite ?len_app, ?len_be_bytes; [lia|..]; by change (len (@nil byte)) with 0. Qed.

Lemma binding_exists merge_policy mode named scaled has_bos :
  (has_bos = true → mode = Llama3Unicode17 ∧ named = true) → ∃ binding, archive_binding merge_policy mode named scaled has_bos = Ok binding.
Proof. intros H. destruct has_bos; [destruct (H eq_refl) as [-> ->]; destruct merge_policy, scaled|destruct merge_policy, mode, named, scaled]; by eexists. Qed.

Lemma to_bytes_total d : constructed d → tokenizer_typed d → ∃ archive, to_bytes d = Ok archive.
Proof.
  intros Hc (_ & Hids & _). pose proof (constructed_within d Hc) as [_ _ Hmost Hfit Hmax Hcount Hnames _]. specialize (Hnames Hids).
  destruct (constructed_reconstructed d Hc) as [_ Hauto].
  destruct (binding_exists (bb_merge_policy d) (bb_pre_tokenization d) (is_named d) (is_scaled d) (bool_decide (is_Some (bb_bos_token d))))
    as [binding Hb].
  { intros Hsome%bool_decide_eq_true. destruct (Hauto Hsome) as [? Hne]. split; [done|]. unfold is_named. by rewrite bool_decide_eq_false_2. }
  exists (archive_word d binding). apply to_bytes_iff. split; [|by exists binding]. rewrite (len_archive_word d binding Hb).
  pose proof (len_token_table 0 _ ltac:(vm_compute; discriminate) Hfit) as Htable.
  pose proof (len_name_table _ 0 _ ltac:(vm_compute; discriminate) Hnames) as Htable'.
  pose proof (names_are_controls _ _ _ Hnames (entries_NoDup _)) as Hcontrols. pose proof (len_scaling (dp_rotary_scaling (bb_profile d))).
  unfold counted, MAX_FILE_BYTES, HEADER_BYTES, UNICODE_BINDING_BYTES, WHOLE_PIECE_BINDING_BYTES, MAX_CONTROL_TOKENS in *.
  assert ((if is_named d then 4 + len (concat (name_bytes <$> entries (sp_names (bb_special d)))) else 0) ≤
    4 + len (concat (name_bytes <$> entries (sp_names (bb_special d))))) by (destruct (is_named d); [|pose proof (len_nonneg (concat (name_bytes <$> entries (sp_names (bb_special d)))))]; lia).
  unfold len in *. repeat case_bool_decide; cbn [negb] in *; lia.
Qed.

(** ** Nothing aborts *)

Lemma refuse_no_panic {E} (b : bool) (e : E) : refuse_if (M:=res E) b e ≠ Panic.
Proof. by destruct b. Qed.

Lemma measure_vocabulary_no_panic id vocabulary total controls longest : measure_vocabulary id vocabulary total controls longest ≠ Panic.
Proof.
  revert id total controls longest. induction vocabulary as [|[value|] vocabulary IH]; intros id total controls longest;
    cbn [measure_vocabulary]; [done|..]; munfold_goal; repeat case_match; try done; apply IH.
Qed.
Lemma index_vocabulary_no_panic id vocabulary seen singletons available : index_vocabulary id vocabulary seen singletons available ≠ Panic.
Proof.
  revert id seen singletons available. induction vocabulary as [|[value|] vocabulary IH]; intros id seen singletons available;
    cbn [index_vocabulary]; [done|..]; munfold_goal; repeat case_match; try done; apply IH.
Qed.
Lemma content_no_panic vocabulary token : content vocabulary token ≠ Panic.
Proof. unfold content. munfold_goal. by repeat case_match. Qed.
Lemma admit_merges_no_panic vocabulary rank merges ranks available : admit_merges vocabulary rank merges ranks available ≠ Panic.
Proof.
  revert rank ranks available. induction merges as [|rule merges IH]; intros rank ranks available; cbn [admit_merges]; [done|].
  do 3 (apply then_no_panic; [apply content_no_panic|intros ? _]). munfold_goal. repeat (destruct (_ || _)); try done.
  case_bool_decide; [done|apply IH].
Qed.

Lemma new_inner_no_panic profile vocabulary merges merge_policy : new_inner profile vocabulary merges merge_policy ≠ Panic.
Proof.
  unfold new_inner. do 3 (apply then_no_panic; [apply refuse_no_panic|intros _ _]).
  apply then_no_panic; [apply measure_vocabulary_no_panic|intros [controls longest] _].
  apply then_no_panic; [apply index_vocabulary_no_panic|intros [singletons available] _].
  destruct (existsb _ singletons) eqn:Hall; [done|]. cbn [refuse_if mbind res_bind mret res_ret].
  apply then_no_panic; [apply admit_merges_no_panic|intros [ranks available'] _]. destruct (_ && _); [done|].
  cbn [refuse_if mbind res_bind mret res_ret]. apply then_no_panic; [|done].
  destruct (mapM id singletons) eqn:Hm; [done|]. exfalso. apply mapM_None, Exists_exists in Hm as (o & Ho & Hnone).
  apply not_true_iff_false in Hall. apply Hall, existsb_exists. exists o. split; [by apply list_elem_of_In|by apply bool_decide_eq_true].
Qed.

Lemma construct_no_panic profile vocabulary merges names mode bos merge_policy :
  construct profile vocabulary merges names mode bos merge_policy ≠ Panic.
Proof.
  assert (∀ mode, new_with_merge_policy profile vocabulary merges names mode merge_policy ≠ Panic) as Hpolicy.
  { intros m. apply then_no_panic; [apply special_tokens_no_panic|intros special _].
    by apply then_no_panic; [apply new_inner_no_panic|]. }
  destruct bos as [bos|]; simpl; [|apply Hpolicy]. apply then_no_panic; [apply refuse_no_panic|intros _ _]. by apply then_no_panic.
Qed.

Lemma run_no_panic {E A B} (m : st bytes E A) (k : A → st bytes E B) cur :
  (m cur).1 ≠ Panic → (∀ a mid, (k a mid).1 ≠ Panic) → ((m ≫= k) cur).1 ≠ Panic.
Proof. munfold_goal. destruct (m cur) as [[a|e|] mid]; simpl; auto. Qed.

Lemma lift_no_panic {E A} (m : res E A) (cur : bytes) : m ≠ Panic → (lift m cur).1 ≠ Panic.
Proof. done. Qed.

Lemma from_bytes_no_panic profile archive : from_bytes profile archive ≠ Panic.
Proof.
  unfold from_bytes. apply then_no_panic; [apply refuse_no_panic|intros _ _]. unfold read_archive.
  apply run_no_panic; [apply (reads_no_panic (m := read_profile profile))|intros [[[named mode] merge_policy] bos] mid].
  apply run_no_panic; [apply reads_no_panic|intros _ mid1]. apply run_no_panic; [apply (reads_no_panic (m := read_tokens _ _))|intros vocabulary mid2].
  apply run_no_panic; [apply (reads_no_panic (m := archive_u32))|intros count mid3]. apply run_no_panic; [apply reads_no_panic|intros _ mid4].
  apply run_no_panic; [done|intros unread mid5]. apply run_no_panic; [apply reads_no_panic|intros _ mid6].
  apply run_no_panic; [apply (reads_no_panic (m := read_merges _))|intros merges mid7].
  destruct (negb named); [apply lift_no_panic, (construct_no_panic _ _ _ _ _ None)|].
  apply run_no_panic; [|intros names mid8; apply lift_no_panic, construct_no_panic]. unfold read_named.
  apply run_no_panic; [apply (reads_no_panic (m := archive_u32))|intros n ?]. do 2 (apply run_no_panic; [apply reads_no_panic|intros _ ?]).
  apply run_no_panic; [apply (reads_no_panic (m := read_names _ _ _ _ _))|intros names ?].
  apply run_no_panic; [done|intros unread' ?]. apply run_no_panic; [apply reads_no_panic|done].
Qed.

(** ** Theorems *)

(** C16: Archives and tokenizers correspond.  Whatever bytes are read, the reader
    never aborts; the tokenizer it returns is one that a constructor admits, is
    bound to the profile and is written as exactly these bytes; bytes that are
    refused are the archive of no tokenizer of that profile.  And every tokenizer
    that a constructor admits has an archive, within the size that the reader
    accepts, from which exactly the same tokenizer is read again. *)
Theorem archive_exact profile :
  (∀ archive,
    match from_bytes profile archive with
    | Ok d => constructed d ∧ tokenizer_typed d ∧ bb_profile d = profile ∧ to_bytes d = Ok archive
    | Err _ => ∀ d, constructed d → tokenizer_typed d → bb_profile d = profile → to_bytes d ≠ Ok archive
    | Panic => False
    end) ∧
  (∀ d, constructed d → tokenizer_typed d → bb_profile d = profile →
    ∃ archive, to_bytes d = Ok archive ∧ len archive ≤ MAX_FILE_BYTES ∧ from_bytes profile archive = Ok d).
Proof.
  split.
  - intros archive. pose proof (from_bytes_no_panic profile archive) as Hpanic.
    destruct (from_bytes profile archive) as [d|e|] eqn:E; [by apply from_bytes_iff| |done].
    intros d Hc Ht Hp Hto. assert (from_bytes profile archive = Ok d) as Hok by by apply from_bytes_iff. congruence.
  - intros d Hc Ht Hp. destruct (to_bytes_total d Hc Ht) as [archive Hto]. exists archive. split_and!; [done| |by apply from_bytes_iff].
    by apply to_bytes_iff in Hto as [? _].
Qed.

Lemma example_typed : tokenizer_typed example_bpe.
Proof.
  assert (sp_names (bb_special example_bpe) = {[259 := ascii_bytes "<|end|>"]}) as Hnames by (vm_compute; reflexivity).
  assert (bb_merges example_bpe = example_merges) as Hmerges by (vm_compute; reflexivity).
  assert (bb_bos_token example_bpe = None) as Hbos by (vm_compute; reflexivity).
  unfold tokenizer_typed. rewrite Hnames, Hmerges, Hbos. split; [|split].
  - by repeat constructor.
  - intros id name Hid. apply lookup_singleton_Some in Hid as [<- _]. unfold is_u32. lia.
  - exact I.
Qed.

Lemma archive_exact_witness :
  ∃ archive, to_bytes example_bpe = Ok archive ∧ len archive = 1738 ∧ take 8 archive = WHOLE_PIECE_DOMAIN ∧
    from_bytes example_decoder archive = Ok example_bpe.
Proof.
  assert (bb_profile example_bpe = example_decoder) as Hprofile by (vm_compute; reflexivity).
  destruct (proj2 (archive_exact example_decoder) example_bpe example_constructed example_typed Hprofile) as (archive & Hto & _ & Hfrom).
  exists archive. split; [exact Hto|]. vm_compute in Hto. injection Hto as <-.
  split; [vm_compute; reflexivity|]. split; [vm_compute; reflexivity|exact Hfrom].
Defined.
